(* ===== verification/_CoqProject ===== *)
-Q . S2P
Prelude.v
Ids.v
Store.v
Pool.v
GenMap.v
Seat.v
Runs.v
KvTable.v
KvOps.v
KvMove.v
KvTrie.v
KvChange.v
KvSpec.v
KvInv.v
KvRead.v
KvState.v
KvPath.v
KvProps.v
KvFree.v
KvShare.v
KvHold.v
KvQuery.v
KvCommit.v
KvCalls.v
KvThm.v
KvHash.v
KvStore.v
Hoare.v
KvFrame.v
KvLocate.v
KvReads.v
KvLedger.v
KvImport.v
KvBooks.v
KvKeep.v
KvReclaim.v
KvWrites.v
KvSeal.v
KvTransfer.v
KvWorld.v
KvStoreThm.v
KvSample.v
RsStore.v
RsBooks.v
RsKeep.v
RsWrites.v
RsPublish.v
RsMoves.v
RsWorld.v
RsThm.v
RsShare.v
RsCalls.v
RsSample.v
RsFire.v
RsFireRun.v
RsFireRing.v
RsFireGroup.v
RsFireGroupThm.v
RsFireThm.v
RunMask.v
RunMaskSpec.v
RunMaskWrite.v
RunMaskPages.v
RunMaskBits.v
RunMaskThm.v
CborFloat.v
Cbor.v
CborSpec.v
CborValue.v
CborCanon.v
CborThm.v
Lifecycle.v
LifecycleThm.v
Fit.v
Frame.v
FrameSeal.v
FrameThm.v
FrameHist.v
Batch.v
BatchThm.v
