(* ===== verification/Prelude.v ===== *)
(** * Pie: a verification of its page store and of what stands around it

    Pie runs user programs (inferlets) beside a language model. Its runtime
    ([src/crates/runtime]) keeps the attention cache of all of them in pages: the
    programs hold working sets, a trie shares the pages of equal prefixes, pools
    hand out the ids of device pages and of host and disk slots, and pages move
    between the tiers while passes are in flight. Models with a recurrent state keep it
    in a store of their own, whose slots are shared until they are written. The scheduler
    gathers the passes that programs submit into frames and lays a frame out in the steps
    an engine runs. This development models the two stores method by method, then what the
    scheduler decides with, the masks a constrained decode passes around, the manifest
    encoding of the tensor container, and the sizing of the pool.

    ** Files and the code they model

    The page store, [src/crates/runtime/src/store]:
    - [Ids.v], [Pool.v], [GenMap.v], [Seat.v]: [pool.rs], [genmap.rs], [seat.rs].
      [Store.v] is the interface of a generational map; the page table is written
      and proved against it and [GenMap.v] discharges it.
    - [Runs.v]: the six helpers on runs of indices at the end of
      [kv/page_table.rs].
    - [KvTable.v], [KvOps.v], [KvMove.v]: the page table of [kv/page_table.rs]
      itself: its state and internal steps, its operations on working sets,
      hashes and cache holds, and the residency moves and reclaim quotes.
    - [KvTrie.v], [KvChange.v], [KvSpec.v]: the trie apart from its storage, what
      each primitive change does to it, and the table's internal steps as such
      changes. [KvInv.v], [KvRead.v], [KvState.v]: the invariant, readers, anchors.
    - [KvPath.v], [KvProps.v], [KvFree.v], [KvShare.v], [KvHold.v], [KvQuery.v],
      [KvCommit.v]: walks, what working sets map, what is freed, sharing, holds,
      queries and hashes. [KvCalls.v] puts the calls in any order; [KvThm.v] states
      what the table promises, one theorem per operation.
    - [KvHash.v]: content keys, [src/crates/state/src/key.rs]. [KvStore.v]: the store
      itself, [kv.rs] with [kv/write.rs]: the table composed with the three pools,
      the cache of kept prefixes, prepared writes, and moves between the tiers.
    - [Hoare.v]: triples for the methods. [KvFrame.v], [KvLocate.v], [KvReads.v]: what
      the table's methods leave, and what its queries find. [KvLedger.v],
      [KvImport.v]: what the table stores, before and after each change. [KvBooks.v]:
      the invariant of the store; [KvKeep.v], [KvReclaim.v], [KvWrites.v], [KvSeal.v],
      [KvTransfer.v]: that the cache, reclaim, writes, sealing and moves keep it.
    - [KvWorld.v]: the clients: tokens for what a call lends them, the calls, their
      contracts, and histories. [KvStoreThm.v] states what the store promises its
      clients; [KvSample.v] runs it on concrete worlds.
    - [Lifecycle.v], [LifecycleThm.v]: the life of a working set among threads,
      [kv/working_set.rs], an atomic access at a time.

    The recurrent state, [src/crates/runtime/src/store/rs.rs] and
    [src/crates/runtime/src/pipeline/fire/rs.rs]:
    - [RsStore.v]: the store, [rs.rs] with [rs/write.rs]: working sets of a state slot and
      a buffer of pages, over four pools in one numbering, shared by counting references.
    - [RsBooks.v]: its invariant, and the calls that only move slots between the pools.
      [RsKeep.v], [RsWrites.v], [RsPublish.v], [RsMoves.v]: that sets, checkpoints, folds
      and rings, then prepared writes, their publication, and moves to the host keep it.
    - [RsWorld.v]: the clients, their tokens, calls and contracts, and histories.
      [RsThm.v] states what holds of every history, [RsShare.v] what sets hold seen
      through the memory of the slots, [RsCalls.v] what single calls do. [RsSample.v]
      runs them on concrete worlds.
    - [RsFire.v]: the state of a fire, [pipeline/fire/rs.rs]: plans, what they demand, the
      preparation of groups of lanes and of the rows of a window, and what lanes are
      told. [RsFireRun.v], [RsFireRing.v], [RsFireGroup.v]: the preparation of a fire
      of a window, and of a group of lanes, as a run of calls of the store.
      [RsFireGroupThm.v] and [RsFireThm.v] state what they promise.

    The scheduler, [src/crates/runtime/src/scheduler]:
    - [Frame.v]: the frame policy, [frame.rs]: the lanes and the fires that arrive on them,
      groups, the seal of a frame, and [plan_dispatch] with its wait for all lanes.
      [FrameSeal.v]: what a seal, and a turn of [plan_dispatch], do. [FrameThm.v] states
      what a seal takes and whom the gate waits for, [FrameHist.v] what holds of every history
      of the policy's calls: where its fires go, and whom it ends.
    - [Batch.v]: [batch.rs] and [fire_plan.rs]: waves cut into groups, members in order,
      lanes side by side. [BatchThm.v] states what a submission is, and composes it with
      the seal.
      The two meet in the fires: the policy is told of each request its id, rows and
      tokens, gives out waves of ids, and the requests of a wave are cut into steps.

    Beside them:
    - [RunMask.v] and the files named after it: run-length masks and bit sets,
      [src/crates/grammar/src/brle.rs] and [bitmask.rs].
    - [CborFloat.v], [Cbor.v], [CborSpec.v], [CborValue.v], [CborCanon.v],
      [CborThm.v]: [src/crates/ztensor/src/format/cbor.rs].
    - [Fit.v]: [src/crates/engine/src/fit.rs].

    ** How the code is modelled

    A panic ([expect], an index out of range, [unreachable], an overflow that the
    code checks) is [None] of an option around the answer, or [Panic] in the monad
    of [Prelude.v], where a method takes a state and gives an outcome ([Ok], [Err]
    or [Panic]) and the state it leaves; the state of a method that fails half way
    is the one the code leaves. Elsewhere a [Result] is a sum. A
    [u32], [u64] or [usize] is a natural, with the wrap-around or saturation
    written where the code has it. [debug_assert!] is modelled as a panic or as a
    predicate that is proved. A [HashMap] or [HashSet] is a [gmap] or [gset]: where
    the code iterates one, the model takes the order of the finite map; the theorems
    say nothing of that order, and are proved for this one. An atomic store of the order
    [Release] reaches other threads when the step that lets it out is taken, which may be
    after later loads of its thread. The sums of rows and tokens in a wave, and of
    the lengths of masks, are exact: they are of lengths that admission and [u32] runs
    bound; [index + 1] of a mask's indices, which callers choose, overflows.

    Fuel. Walks in the trie take the number of nodes as fuel: a chain to the root
    has no repeated node, which the invariant proves, so no walk of a settled table
    runs out. The scan of a bit set takes 64 (or 32) turns for a word of as many
    bits; masks are below 2^32 bits, as the code asserts with its [u32] runs. The
    loops of [KvStore.v], [RsStore.v] and [RsFire.v] follow the lists they go over.
    The loops of [seal] and [plan_dispatch] take one turn more than the lanes have frames:
    a turn that is taken again has taken a frame. The passes over a wave are at most as
    many as it has requests, since each takes the first.
    The search of [Fit.v] takes 64 turns per loop, and more turns are proved to change
    nothing. The decoder of [Cbor.v] takes one level more than [MAX_DEPTH], which
    refuses deeper values itself.

    ** What is proved

    - Pools: an id is in exactly one place over every sequence of calls; an
      allocation never gives an id in use ([pool_conserves], [pool_alloc_fresh]).
      Generational maps: a finite map of live keys, with stale keys dead
      ([genmap_refines_map], [genmap_stale_key]).
    - Page table: every history of calls that keep their contracts leads to a
      settled table without a panic ([history_safe], [history_invariant]); each
      operation does what it says to the pages its working set maps, to no other,
      and frees exactly what nothing reads ([publish_correct],
      [replace_tail_correct], [fork_correct], [attach_correct],
      [kv_release_correct], [drop_hold_correct], [move_correct] and the others of
      [KvThm.v]).
    - Store: over every history of its clients' calls, in any order, no panic
      ([store_history_safe]); each page and slot is in exactly one place
      ([store_history_books]), the cache agrees with the table
      ([store_history_cache]), and all of it comes back ([store_history_returns]).
      Single calls: what a write maps and how it is classified
      ([publish_prepared_correct], [classify_write_correct]), what a suspension and a
      restoration leave ([suspend_restore_roundtrip]), which batches retire
      ([retire_idle_correct]), what reclaim spares ([cache_gives_way]), and that a
      content key names its whole prefix ([content_key_identity]). The contracts are
      [legal] of [KvWorld.v]: a write is published while its working set has room for
      it, and pages in a move are not asked to move again. A generational map has
      2^32 slots, and the bound of a history counts insertions ([cost], [room]) as if
      none were vacated, so histories of up to 2^32 insertions are covered whatever
      they hold.
    - Recurrent state: over every history, no panic ([rs_history_safe]); each slot is in one
      place and counted as often as it is held ([rs_history_books]), entries are well
      formed ([rs_history_types]), nothing a fire in flight touches is reused
      ([rs_no_reuse_in_flight]), and all of it comes back ([rs_returns]). A write is of one
      set alone ([prepare_isolates]) and copies what is shared into slots that are then the
      set's alone, leaving the rest where it was ([fire_copies_on_write]); moves keep
      contents, where the engine makes the copies it is told by number
      ([moves_keep_contents]). Single calls: [fold_correct],
      [ring_advance_correct], [checkpoint_adopt], [cache_spares_sets], [suspend_begins],
      [engine_numbers]. The contracts are [legal] of [RsWorld.v]; a history is bounded
      by the fires and keys it uses ([cost]), which stay below 2^32.
    - Fires: the preparation of a windowed fire is a run of calls of such a history, leaves
      no trace when it fails, and tells each lane pages that stay until the fire
      settles ([ring_fire_correct]); a grant of its demand is enough for it
      ([ring_grant_suffices]). So is that of a fire of one group of lanes, with its copies,
      its fold and its rows ([group_fire_correct]): what it tells is among the reads of
      the fire in flight, but for the number 0, which the code takes for none.
      [slot_zero_not_kept] is what follows of a state in slot 0: whatever the history, a
      fire that reads it unwritten does not keep it from being freed. A fire of several groups is
      executable and has no general theorem: its reads are noted at the last fire of
      its batch, which the invariant, a fire at a time, does not express.
    - Frames: over every history of the policy's calls, nothing panics, and each fire is
      given out once, held, or let go by a call that had a reason to when it was made
      ([frame_history_conserves]; a park
      takes a sequence number that no fire of its lane has, as the counter of a pipeline
      gives them). A seal takes whole frames within the batch ([sealed_waves_fit], where a
      frame's fires are in slots of their own, as [submit_frame] numbers them) and whole
      groups ([groups_sealed_whole]); [plan_dispatch] returns ([plan_dispatch_returns]),
      waits for all ([dispatch_waits_for_all]) and ends only who was silent, owed or was short
      of a group for as long as that takes, by what the history shows: arrivals,
      retirements, fires given out, and whom the gate waited for
      ([terminate_only_the_silent]). [oversized_group_waits_forever] is a group that no
      wave can take, which waits without an error.
    - Steps: every request of the waves is in one step that the engine can run
      ([frame_submission_correct]), laid out in line with its instances, rows and programs
      ([step_aligned]); a sealed wave is one step ([sealed_wave_is_one_step]).
      [later_fire_overtakes]: in any wave a request that has no room is overtaken by a
      smaller one behind it, also of its own pipeline.
    - Lifecycle: in every execution pages are freed at most once, the count of leases is
      exact and quiet under the fence stays; where each acquisition sees the releases asked
      for when it looks again, pages are not freed under a lease ([lifecycle_safe]), and
      where [maybe_release] sees them, every release happens ([lifecycle_comes_to_rest]).
      [release_under_lease] is the execution, which the code's own memory orderings leave
      possible, where an acquisition misses a release.
    - Masks: an edit history is the same history on the list of bits, and panics just where
      it masks the largest [usize] ([mask_history]); a mask is the only one of its bits
      with canonical runs, and of other runs given to [from_vec] it is another
      ([mask_roundtrip]); the fast paths agree with the plain ones.
    - Manifests: round trips both ways, one encoding per value, refusals and no
      panic. NaN payloads are kept by the casts of the model, which the language
      leaves open; the theorems allow any.
    - Sizing: the search is exact; a pool that is granted holds one sequence.

    ** Not modelled

    Devices, kernels, network services, the languages of model and stage
    definitions, WebAssembly guests and their policies: I/O, third-party code or
    code that the store does not rely on. Of the runtime, the planner stands on the stores and
    comes after them; the scheduler's lanes and worker are threads, channels and completions
    around the frame policy and the building of frames, which are modelled without their
    statistics, traces and idle dump, and with the deadlines, the schedule and the instant
    as arguments; the registry of the stores is process-wide tables behind locks. Of the page store, the notification of ended moves and the reports to policies are
    left out, the clock and the table of aliases are arguments, and the functions
    compiled for tests only are left out.
    Derived code ([Debug], [Display], serialisation of structs), tracing and
    notifications are left out of the components that are modelled. *)
From stdpp Require Export prelude gmap list numbers sorting.
From Stdlib Require Export Lia ZArith NArith.

(** [naive_solver] tries to clear hypotheses that are gone already. *)
#[export] Set Warnings "-clear-no-such-hyp".

(** * Machine integers *)

(** [u32], [u64] and [usize] values are naturals; a cast or an arithmetic
    operation that the code lets wrap is written with one of these. *)
Definition as_u32 (n : N) : N := (n mod 2 ^ 32)%N.
Definition as_u64 (n : N) : N := (n mod 2 ^ 64)%N.
Definition u32_max : N := (2 ^ 32 - 1)%N.
Definition u64_max : N := (2 ^ 64 - 1)%N.

(** [u32::checked_add]. *)
Definition checked_add_u32 (a b : N) : option N :=
  if decide (a + b ≤ u32_max)%N then Some (a + b)%N else None.

(** [saturating_add] and [saturating_mul] at a given maximum;
    [saturating_sub] is [N.sub]. *)
Definition sat_add (mx a b : N) : N := N.min (a + b) mx.
Definition sat_mul (mx a b : N) : N := N.min (a * b) mx.

(** [u32::try_from(n).unwrap_or(u32::MAX)] of a [usize]. *)
Definition clamp_u32 (n : nat) : N := N.min (N.of_nat n) u32_max.

Lemma as_u32_small n : (n < 2 ^ 32)%N → as_u32 n = n.
Proof. apply N.mod_small. Qed.

Lemma as_u32_lt n : (as_u32 n < 2 ^ 32)%N.
Proof. by apply N.mod_lt. Qed.

Lemma as_u64_small n : (n < 2 ^ 64)%N → as_u64 n = n.
Proof. apply N.mod_small. Qed.

(** * Outcomes and the store monad *)

(** What a call gives back: a value, an error of the code's own type, or a
    panic ([expect], an index out of range, an [unreachable!]). *)
Inductive outcome (E A : Type) : Type :=
  | Ok (a : A)
  | Err (e : E)
  | Panic.
Arguments Ok {E A} a.
Arguments Err {E A} e.
Arguments Panic {E A}.

#[global] Instance outcome_eq_dec {E A} `{EqDecision E, EqDecision A} :
  EqDecision (outcome E A).
Proof. solve_decision. Defined.

(** A method on [&mut self]: it threads the object, which keeps the changes
    made before an error, and answers an outcome. *)
Definition method (S E A : Type) : Type := S → outcome E A * S.

Section method.
Context {S E : Type}.

Definition mok {A} (a : A) : method S E A := λ s, (Ok a, s).
Definition merr {A} (e : E) : method S E A := λ s, (Err e, s).
Definition mpanic {A} : method S E A := λ s, (Panic, s).
Definition mget : method S E S := λ s, (Ok s, s).
Definition mset (s : S) : method S E unit := λ _, (Ok tt, s).
Definition mmodify (f : S → S) : method S E unit := λ s, (Ok tt, f s).

Definition mthen {A B} (m : method S E A) (k : A → method S E B) :
    method S E B := λ s,
  match m s with
  | (Ok a, s') => k a s'
  | (Err e, s') => (Err e, s')
  | (Panic, s') => (Panic, s')
  end.

(** [expect]: a missing value panics. *)
Definition mexpect {A} (o : option A) : method S E A :=
  match o with Some a => mok a | None => mpanic end.

(** [ok_or(e)?]. *)
Definition mok_or {A} (o : option A) (e : E) : method S E A :=
  match o with Some a => mok a | None => merr e end.

(** A call of a function that reads the object, or changes it and answers;
    [None] is its panic. *)
Definition mread {A} (f : S → option A) : method S E A := λ s,
  match f s with Some a => (Ok a, s) | None => (Panic, s) end.

Definition mcall {A} (f : S → option (A * S)) : method S E A := λ s,
  match f s with Some (a, s') => (Ok a, s') | None => (Panic, s) end.

(** A [debug_assert!]: what a debug build panics on. *)
Definition mguard (P : Prop) `{Decision P} : method S E unit :=
  if decide P then mok tt else mpanic.

(** [let _ = call]: an error is dropped, with a default for the answer. *)
Definition mor_else {A} (m : method S E A) (d : A) : method S E A := λ s,
  match m s with
  | (Err _, s') => (Ok d, s')
  | r => r
  end.

(** [out.extend(call)] in a loop over a list. *)
Fixpoint mextend {A B} (l : list A) (f : A → method S E (list B)) :
    method S E (list B) :=
  match l with
  | [] => mok []
  | a :: l => mthen (f a) (λ x, mthen (mextend l f) (λ y, mok (x ++ y)))
  end.

(** A [for] loop over a list. *)
Fixpoint mfor {A} (l : list A) (f : A → method S E unit) : method S E unit :=
  match l with
  | [] => mok tt
  | a :: l => mthen (f a) (λ _, mfor l f)
  end.

Lemma mfor_fmap {A B} (g : A → B) (l : list A) (f : B → method S E unit) s :
  mfor (g <$> l) f s = mfor l (λ a, f (g a)) s.
Proof.
  revert s. induction l as [|a l IH]; intros s; [done|]. cbn. unfold mthen.
  destruct (f (g a) s) as [[]?]; [apply IH|done..].
Qed.

Lemma mread_ok {A} (f : S → option A) s a : f s = Some a → mread f s = (Ok a, s).
Proof. unfold mread. by intros ->. Qed.

Lemma mcall_ok {A} (f : S → option (A * S)) s a s' :
  f s = Some (a, s') → mcall f s = (Ok a, s').
Proof. unfold mcall. by intros ->. Qed.

Lemma mthen_ok {A B} (m : method S E A) (k : A → method S E B) s a s' :
  m s = (Ok a, s') → mthen m k s = k a s'.
Proof. unfold mthen. by intros ->. Qed.

Lemma mthen_err {A B} (m : method S E A) (k : A → method S E B) s e s' :
  m s = (Err e, s') → mthen m k s = (Err e, s').
Proof. unfold mthen. by intros ->. Qed.

Lemma mthen_inv {A B} (m : method S E A) (k : A → method S E B) s b s'' :
  mthen m k s = (Ok b, s'') →
  ∃ a s', m s = (Ok a, s') ∧ k a s' = (Ok b, s'').
Proof.
  unfold mthen. destruct (m s) as [[a|e|] s']; naive_solver.
Qed.
End method.

Declare Scope pie_scope.
Delimit Scope pie_scope with pie.
Notation "x ⇐ m ;; k" := (mthen m (λ x, k))
  (at level 100, m at next level, right associativity) : pie_scope.
Notation "m ;;; k" := (mthen m (λ _, k))
  (at level 100, right associativity) : pie_scope.
Open Scope pie_scope.

(** One step of a monadic proof: run the first call of the goal with the
    equation a hypothesis or a lemma gives. *)
Ltac mstep := first
  [ erewrite mthen_ok by first [eassumption | reflexivity]
  | erewrite mthen_err by first [eassumption | reflexivity] ].

(** [solve_perm] proves a permutation between two lists built from the same
    pieces with [++] and [::]: it cancels equal heads and, where they differ,
    rotates the right-hand side. *)
Ltac perm_norm :=
  repeat first [ rewrite <-app_assoc | rewrite <-app_comm_cons
               | rewrite app_nil_l | rewrite app_nil_r ].

Ltac perm_rotate :=
  lazymatch goal with
  | |- _ ≡ₚ ?b ++ ?r => transitivity (r ++ b); [|apply Permutation_app_comm]
  | |- _ ≡ₚ ?x :: ?r => transitivity (r ++ [x]); [|symmetry; apply Permutation_cons_append]
  end; perm_norm.

Ltac perm_cancel n :=
  lazymatch n with
  | O => fail "solve_perm: no match for the head"
  | S ?m =>
      first
        [ match goal with
          | |- ?a ++ _ ≡ₚ ?a ++ _ => apply Permutation_app_head
          | |- ?x :: _ ≡ₚ ?x :: _ => apply Permutation_skip
          | |- ?a ≡ₚ ?a ++ _ => rewrite <-(app_nil_r a) at 1; apply Permutation_app_head
          | |- ?a ++ _ ≡ₚ ?a => rewrite <-(app_nil_r a) at 2; apply Permutation_app_head
          end
        | perm_rotate; perm_cancel m ]
  end.

Ltac solve_perm :=
  perm_norm; repeat first [ reflexivity | perm_cancel 12%nat ].

(** * Vectors *)

(** [Vec::swap_remove(i)]: the last element takes the place of the [i]-th. *)
Definition swap_remove {A} (i : nat) (l : list A) : option (A * list A) :=
  match l !! i, last l with
  | Some x, Some y => Some (x, take (length l - 1) (<[i := y]> l))
  | _, _ => None
  end.

(** [Vec::pop]: the last element. *)
Definition vec_pop {A} (l : list A) : option (A * list A) :=
  match last l with
  | Some x => Some (x, take (length l - 1) l)
  | None => None
  end.

Lemma last_take_snoc {A} (l : list A) y :
  last l = Some y → l = take (length l - 1) l ++ [y].
Proof.
  intros [l' ->]%last_Some. rewrite length_app. simpl.
  replace (length l' + 1 - 1) with (length l') by lia.
  by rewrite take_app_length.
Qed.

Lemma vec_pop_Some {A} (l : list A) x l' :
  vec_pop l = Some (x, l') → l = l' ++ [x].
Proof.
  unfold vec_pop. destruct (last l) as [y|] eqn:Hy; [|done].
  intros [= <- <-]. by apply last_take_snoc.
Qed.

Lemma vec_pop_snoc {A} (l : list A) x : vec_pop (l ++ [x]) = Some (x, l).
Proof.
  unfold vec_pop. rewrite last_snoc, length_app. simpl.
  replace (length l + 1 - 1) with (length l) by lia. by rewrite take_app_length.
Qed.

Lemma vec_pop_None {A} (l : list A) : vec_pop l = None ↔ l = [].
Proof.
  unfold vec_pop. destruct (last l) eqn:Hl; [|by apply last_None in Hl].
  split; [done|]. by intros ->.
Qed.

Lemma swap_remove_Permutation {A} i (l l' : list A) x :
  swap_remove i l = Some (x, l') → l ≡ₚ x :: l'.
Proof.
  unfold swap_remove. destruct (l !! i) as [a|] eqn:Hi; [|done].
  destruct (last l) as [y|] eqn:Hy; [|done]. intros [= -> <-].
  apply last_Some in Hy as [k ->]. rewrite length_app; simpl.
  replace (length k + 1 - 1) with (length k) by lia.
  destruct (decide (i < length k)) as [Hlt|Hge].
  - rewrite insert_app_l, take_app_length' by (rewrite ?length_insert; lia).
    rewrite lookup_app_l in Hi by done.
    rewrite (insert_take_drop k i y) by done.
    rewrite <-(take_drop_middle k i x) at 1 by done. solve_perm.
  - assert (i = length k) as ->.
    { apply lookup_lt_Some in Hi. rewrite length_app in Hi; simpl in Hi. lia. }
    rewrite list_lookup_middle in Hi by done. simplify_eq.
    rewrite take_insert_ge, take_app_length by lia. solve_perm.
Qed.

Lemma swap_remove_take {A} i (l l' : list A) x :
  swap_remove i l = Some (x, l') → take i l' = take i l.
Proof.
  unfold swap_remove. destruct (l !! i) as [a|] eqn:Hi; [|done].
  destruct (last l) as [y|]; [|done]. intros [= _ <-].
  apply lookup_lt_Some in Hi. rewrite take_take, Nat.min_l by lia.
  by apply take_insert_ge.
Qed.

Lemma swap_remove_is_Some {A} i (l : list A) :
  i < length l → is_Some (swap_remove i l).
Proof.
  intros Hi. unfold swap_remove.
  destruct (lookup_lt_is_Some_2 l i Hi) as [x ->].
  destruct (last l) eqn:Hl; [by eexists|]. apply last_None in Hl. subst; simpl in Hi; lia.
Qed.

(** * Ranges *)

(** The values of a Rust range [base..base + len]. *)
Definition range_from (base len : N) : list N :=
  (λ i : nat, base + N.of_nat i)%N <$> seq 0 (N.to_nat len).

Lemma elem_of_range_from base len x :
  x ∈ range_from base len ↔ (base ≤ x < base + len)%N.
Proof.
  unfold range_from. rewrite list_elem_of_fmap. split.
  - intros (i & -> & Hi%elem_of_seq). lia.
  - intros Hx. exists (N.to_nat (x - base)). rewrite elem_of_seq. lia.
Qed.

Lemma NoDup_range_from base len : NoDup (range_from base len).
Proof.
  apply NoDup_fmap_2; [|apply NoDup_seq]. intros i j Hij. lia.
Qed.

Lemma length_range_from base len : length (range_from base len) = N.to_nat len.
Proof. unfold range_from. by rewrite length_fmap, length_seq. Qed.

(** * Lists *)

Lemma NoDup_app_disjoint {A} (l k : list A) x :
  NoDup (l ++ k) → x ∈ l → x ∉ k.
Proof. rewrite NoDup_app. intros (_ & Hd & _). apply Hd. Qed.

Lemma concat_Permutation {A} (l k : list (list A)) :
  l ≡ₚ k → concat l ≡ₚ concat k.
Proof.
  induction 1 as [|x l k _ IH|x y l|l1 l2 l3 _ IH1 _ IH2]; simpl.
  - done.
  - by rewrite IH.
  - solve_perm.
  - by rewrite IH1.
Qed.

#[global] Instance concat_proper {A} : Proper (Permutation ==> Permutation) (@concat A).
Proof. intros l k. apply concat_Permutation. Qed.

Lemma sum_list_app (l k : list nat) : sum_list (l ++ k) = sum_list l + sum_list k.
Proof. induction l as [|x l IH]; simpl; lia. Qed.

(** The sum of a measure over a list. *)
Definition total {A} (g : A → N) (l : list A) : N := foldr (λ x n, g x + n)%N 0%N l.

Lemma total_cons {A} (g : A → N) x l : total g (x :: l) = (g x + total g l)%N.
Proof. done. Qed.
Lemma total_app {A} (g : A → N) l l' : total g (l ++ l') = (total g l + total g l')%N.
Proof. induction l as [|x l IH]; [done|]. cbn [app]. rewrite !total_cons, IH. lia. Qed.
Lemma total_perm {A} (g : A → N) l l' : l ≡ₚ l' → total g l = total g l'.
Proof. induction 1; rewrite ?total_cons; lia. Qed.
Lemma total_le {A} (g h : A → N) l : (∀ x, x ∈ l → (g x ≤ h x)%N) → (total g l ≤ total h l)%N.
Proof.
  induction l as [|x l IH]; intros Hle; [done|]. rewrite !total_cons.
  specialize (IH ltac:(intros; apply Hle; by right)). specialize (Hle x ltac:(by left)). lia.
Qed.
Lemma total_fmap {A B} (f : B → A) (g : A → N) l : total g (f <$> l) = total (λ x, g (f x)) l.
Proof. induction l as [|x l IH]; [done|]. rewrite fmap_cons, !total_cons. by rewrite IH. Qed.

Lemma mapM_Permutation {A B} (f : A → option B) l l' k' :
  l ≡ₚ l' → mapM f l' = Some k' → ∃ k, mapM f l = Some k ∧ k ≡ₚ k'.
Proof.
  intros Hp. revert k'. induction Hp as [|x l l' _ IH|x y l|l l' l'' _ IH1 _ IH2]; intros k' Hk.
  - by exists k'.
  - cbn in Hk |- *. destruct (f x) as [z|]; [|done]. cbn in Hk |- *. destruct (mapM f l') as [k|]; [|done].
    injection Hk as <-. destruct (IH k eq_refl) as (k1 & -> & Hk1). exists (z :: k1).
    split; [done|by constructor].
  - cbn in Hk |- *. destruct (f x) as [z|]; [|done]. cbn in Hk |- *. destruct (f y) as [w|]; [|done]. cbn in Hk |- *.
    destruct (mapM f l) as [k|]; [|done]. injection Hk as <-. eexists. split; [done|]. constructor.
  - destruct (IH2 k' Hk) as (k1 & H1 & Hp1). destruct (IH1 k1 H1) as (k2 & H2 & Hp2). exists k2. split; [done|].
    by rewrite Hp2.
Qed.

Lemma elem_of_concat {A} (x : A) ls : x ∈ concat ls ↔ ∃ l, l ∈ ls ∧ x ∈ l.
Proof.
  induction ls as [|l ls IH]; simpl.
  - split; [by intros ?%not_elem_of_nil|]. intros (l & ?%not_elem_of_nil & _). done.
  - rewrite elem_of_app, IH. set_solver.
Qed.

Lemma head_Some_elem_of {A} (l : list A) x : head l = Some x → x ∈ l.
Proof. destruct l; simpl; [done|]. intros [= ->]. by left. Qed.

Lemma elem_of_drop_elem {A} (x : A) n l : x ∈ drop n l → x ∈ l.
Proof. intros Hx. rewrite <-(take_drop n l), elem_of_app. by right. Qed.

Lemma filter_all {A} (P : A → Prop) `{∀ x, Decision (P x)} (l : list A) :
  Forall P l → filter P l = l.
Proof.
  induction 1 as [|x l Hx _ IH]; [done|]. by rewrite filter_cons_True, IH.
Qed.

Lemma filter_none {A} (P : A → Prop) `{∀ x, Decision (P x)} (l : list A) :
  Forall (λ x, ¬ P x) l → filter P l = [].
Proof.
  induction 1 as [|x l Hx _ IH]; [done|]. by rewrite filter_cons_False, IH.
Qed.

Lemma filter_ext_elem {A} (P Q : A → Prop) `{∀ x, Decision (P x), ∀ x, Decision (Q x)}
    (l : list A) :
  (∀ x, x ∈ l → P x ↔ Q x) → filter P l = filter Q l.
Proof.
  induction l as [|x l IH]; intros Heq; [done|].
  specialize (IH ltac:(set_solver)). destruct (decide (P x)) as [HP|HP].
  - rewrite !filter_cons_True; [by rewrite IH|by apply Heq; [set_solver|]|done].
  - rewrite !filter_cons_False; [done|by rewrite <-Heq by set_solver|done].
Qed.

Lemma fmap_omap {A B C} (f : A → option B) (g : B → C) (l : list A) :
  g <$> omap f l = omap (λ x, g <$> f x) l.
Proof.
  induction l as [|x l IH]; [done|]. cbn. destruct (f x); cbn; by rewrite <-IH.
Qed.

Lemma NoDup_omap {A B} (f : A → option B) (l : list A) :
  (∀ x y z, x ∈ l → y ∈ l → f x = Some z → f y = Some z → x = y) →
  NoDup l → NoDup (omap f l).
Proof.
  induction l as [|x l IH]; intros Hinj Hnd; [constructor|].
  apply NoDup_cons in Hnd as [Hx Hnd]. cbn.
  assert (NoDup (omap f l)) as Hl by (apply IH; [|done]; set_solver).
  destruct (f x) as [z|] eqn:Hz; [|done]. apply NoDup_cons. split; [|done].
  intros (y & Hy & Hyz)%list_elem_of_omap.
  assert (x = y) as <- by (eapply Hinj; set_solver). done.
Qed.

Lemma mapM_lookup_seq {A} (l : list A) k :
  k ≤ length l → mapM (λ i, l !! i) (seq 0 k) = Some (take k l).
Proof.
  intros Hk. apply mapM_Some. apply Forall2_same_length_lookup. split.
  { rewrite length_seq, length_take. lia. }
  intros i x y Hx Hy. apply lookup_seq in Hx as [-> Hi].
  by rewrite lookup_take_lt in Hy by done.
Qed.

Lemma omap_imap_drop {A} (l : list A) k :
  omap (λ '(i, x), if decide (i ∈ seq 0 k) then None else Some x) (imap pair l) = drop k l.
Proof.
  assert (∀ j, omap (λ '(i, x), if decide (i ∈ seq 0 k) then None else Some x)
    (imap (λ i x, (j + i, x)) l) = drop (k - j) l) as Hgen.
  - induction l as [|x l IH]; intros j; [by rewrite drop_nil|].
    rewrite imap_cons. cbn. rewrite Nat.add_0_r.
    rewrite (imap_ext _ (λ i x, (S j + i, x))) by (intros; simpl; f_equal; lia).
    rewrite IH. case_decide as Hj; rewrite elem_of_seq in Hj.
    + by replace (k - j) with (S (k - S j)) by lia.
    + by replace (k - j) with 0 by lia; replace (k - S j) with 0 by lia.
  - specialize (Hgen 0). simpl in Hgen. by rewrite Nat.sub_0_r in Hgen.
Qed.

Lemma fst_imap_pair {A} (l : list A) : (imap pair l).*1 = seq 0 (length l).
Proof.
  apply list_eq. intros i. rewrite list_lookup_fmap, list_lookup_imap.
  destruct (decide (i < length l)) as [Hi|Hi].
  - destruct (lookup_lt_is_Some_2 l i Hi) as [x ->]. by rewrite lookup_seq_lt.
  - rewrite lookup_seq_ge, lookup_ge_None_2 by lia. done.
Qed.

Lemma NoDup_imap_pair {A} (l : list A) : NoDup (imap pair l).
Proof. apply (NoDup_fmap_1 fst). rewrite fst_imap_pair. apply NoDup_seq. Qed.

Create HintDb pie.
