(* ===== verification/Ids.v ===== *)
(** The identifiers of the page store: the trait [PoolId] of [store/pool.rs]
    with the three newtypes that implement it in [store/kv/page_table.rs], and
    the generational keys of [store/genmap.rs] with the two markers that tell a
    working set's key from a trie node's. *)
From S2P Require Import Prelude.

(** The trait [PoolId]: a newtype around a [u32]. *)
Class PoolId (I : Type) := {
  from_index : N → I;
  index : I → N;
}.

(** What the newtypes give: the two directions are inverse. *)
Class PoolIdLaws (I : Type) `{PoolId I} := {
  index_from_index i : index (from_index i) = i;
  from_index_index x : from_index (index x) = x;
}.

(** A page of the device, a slot of pinned host memory, a slot on disk. *)
Inductive PhysicalKvPageId : Type := PhysicalKvPage (n : N).
Inductive HostKvSlotId : Type := HostKvSlot (n : N).
Inductive DiskKvSlotId : Type := DiskKvSlot (n : N).

#[export] Instance PhysicalKvPageId_pool_id : PoolId PhysicalKvPageId :=
  {| from_index := PhysicalKvPage; index := λ '(PhysicalKvPage n), n |}.
#[export] Instance HostKvSlotId_pool_id : PoolId HostKvSlotId :=
  {| from_index := HostKvSlot; index := λ '(HostKvSlot n), n |}.
#[export] Instance DiskKvSlotId_pool_id : PoolId DiskKvSlotId :=
  {| from_index := DiskKvSlot; index := λ '(DiskKvSlot n), n |}.

#[export] Instance PhysicalKvPageId_laws : PoolIdLaws PhysicalKvPageId.
Proof. by split; [|intros []]. Qed.
#[export] Instance HostKvSlotId_laws : PoolIdLaws HostKvSlotId.
Proof. by split; [|intros []]. Qed.
#[export] Instance DiskKvSlotId_laws : PoolIdLaws DiskKvSlotId.
Proof. by split; [|intros []]. Qed.

#[export] Instance PhysicalKvPageId_eq_dec : EqDecision PhysicalKvPageId.
Proof. solve_decision. Defined.
#[export] Instance HostKvSlotId_eq_dec : EqDecision HostKvSlotId.
Proof. solve_decision. Defined.
#[export] Instance DiskKvSlotId_eq_dec : EqDecision DiskKvSlotId.
Proof. solve_decision. Defined.

(** Markers of the two generational maps. *)
Inductive WsMarker : Set := .
Inductive NodeMarker : Set := .

(** [GenKey<M>]: a slot's index and the generation it was handed out at. *)
Record GenKey (M : Set) : Type := mkGenKey { key_index : N; key_generation : N }.
Arguments mkGenKey {M} _ _.
Arguments key_index {M} _.
Arguments key_generation {M} _.

#[export] Instance GenKey_eq_dec {M} : EqDecision (GenKey M).
Proof. solve_decision. Defined.
#[export] Program Instance GenKey_countable {M} : Countable (GenKey M) :=
  inj_countable (λ k, (key_index k, key_generation k))
    (λ '(i, g), Some (mkGenKey i g)) _.
Next Obligation. by intros M []. Qed.

Abbreviation WorkingSetId := (GenKey WsMarker).
Abbreviation NodeId := (GenKey NodeMarker).
