(* ===== verification/Store.v ===== *)
(** The interface between the generational map and the page table: what a store
    of values under keys it hands out itself promises. The page table is
    written and proved against it; [GenMap.v] discharges it. *)
From S2P Require Import Prelude.

(** The operations, with a panic as [None]. [st_set] is a write through the
    reference [get_mut] gives. *)
Class KeyedStore (K : Type) (S : Type → Type) := {
  st_new {T} : S T;
  st_insert {T} : S T → T → option (K * S T);
  st_get {T} : S T → K → option T;
  st_set {T} : S T → K → T → S T;
  st_remove {T} : S T → K → option T * S T;
  st_iter {T} : S T → list (K * T);
}.

(** What they promise, in terms of the map of a store's live keys. [st_room]
    counts the insertions a store has keys for. *)
Class KeyedStoreLaws (K : Type) (S : Type → Type)
    `{Countable K} `{KeyedStore K S} := {
  st_map {T} : S T → gmap K T;
  st_valid {T} : S T → Prop;
  st_room {T} : S T → nat → Prop;

  st_room_le {T} (s : S T) n m : m ≤ n → st_room s n → st_room s m;
  st_new_spec {T} : st_valid (st_new (T := T)) ∧ st_map (st_new (T := T)) = ∅;
  st_get_spec {T} (s : S T) k : st_valid s → st_get s k = st_map s !! k;
  st_insert_spec {T} (s : S T) v n :
    st_valid s → st_room s (Datatypes.S n) →
    ∃ k s', st_insert s v = Some (k, s') ∧ st_map s !! k = None ∧
      st_map s' = <[k := v]> (st_map s) ∧ st_valid s' ∧ st_room s' n;
  st_set_spec {T} (s : S T) k v :
    st_valid s → is_Some (st_map s !! k) →
    st_map (st_set s k v) = <[k := v]> (st_map s) ∧ st_valid (st_set s k v) ∧
    ∀ n, st_room s n → st_room (st_set s k v) n;
  st_remove_spec {T} (s : S T) k :
    st_valid s →
    (st_remove s k).1 = st_map s !! k ∧
    st_map (st_remove s k).2 = delete k (st_map s) ∧
    st_valid (st_remove s k).2 ∧
    ∀ n, st_room s n → st_room (st_remove s k).2 n;
  st_iter_spec {T} (s : S T) :
    st_valid s → st_iter s ≡ₚ map_to_list (st_map s);
}.
