(* ===== verification/Pool.v ===== *)
(** Identifier pools ([crates/runtime/src/store/pool.rs]): the free list of
    page and slot ids, the batches that wait for an epoch, and the theorem that
    an id is always in exactly one place. *)
From S2P Require Import Prelude Ids.

Module Pool.

(** [free] is in the order of the [Vec]: ids are taken from its end. *)
Record Pool (I : Type) := mkPool {
  free : list I;
  pending : list (N * list I);
  base : N;
  capacity : N;
}.
Arguments mkPool {I} _ _ _ _.
Arguments free {I} _.
Arguments pending {I} _.
Arguments base {I} _.
Arguments capacity {I} _.

Section ops.
Context {I : Type} `{PoolId I}.

(** [None] is the panic of [expect("pool id range overflows u32")]. *)
Definition new_range (base capacity : N) : option (Pool I) :=
  match checked_add_u32 base capacity with
  | Some _ =>
      Some (mkPool (from_index <$> reverse (range_from base capacity)) [] base capacity)
  | None => None
  end.

Definition new (capacity : N) : option (Pool I) := new_range 0 capacity.

Definition try_alloc_n (p : Pool I) (n : nat) : option (list I) * Pool I :=
  if decide (length (free p) < n) then (None, p)
  else
    let at_ := length (free p) - n in
    (Some (drop at_ (free p)),
     mkPool (take at_ (free p)) (pending p) (base p) (capacity p)).

Definition recycle_after_epoch (p : Pool I) (ids : list I) (epoch : N) : Pool I :=
  match ids with
  | [] => p
  | _ => mkPool (free p) (pending p ++ [(epoch, ids)]) (base p) (capacity p)
  end.

(** The two [debug_assert!]s are [release_reserved_asserts]. *)
Definition release_reserved (p : Pool I) (ids : list I) : Pool I :=
  mkPool (free p ++ ids) (pending p) (base p) (capacity p).

(** The loop of [retire_through]: [i] walks [pending], and a batch that is due
    is swapped out and its ids are freed. [None] when the fuel runs out. *)
Fixpoint retire_loop (fuel : nat) (epoch : N) (i : nat)
    (pending : list (N * list I)) (free : list I) :
    option (list (N * list I) * list I) :=
  match pending !! i with
  | None => Some (pending, free)
  | Some (due, _) =>
      match fuel with
      | O => None
      | S fuel =>
          if (due <=? epoch)%N then
            match swap_remove i pending with
            | Some ((_, ids), pending') =>
                retire_loop fuel epoch i pending' (free ++ ids)
            | None => None
            end
          else retire_loop fuel epoch (S i) pending free
      end
  end.

Definition retire_through (p : Pool I) (epoch : N) : option (Pool I) :=
  match retire_loop (length (pending p)) epoch 0 (pending p) (free p) with
  | Some (pending', free') => Some (mkPool free' pending' (base p) (capacity p))
  | None => None
  end.

Definition available (p : Pool I) : nat := length (free p).

Definition contains (p : Pool I) (id : I) : bool :=
  bool_decide (base p ≤ index id)%N &&
  bool_decide (index id < sat_add u32_max (base p) (capacity p))%N.

(** The condition of the two [debug_assert!]s of [release_reserved]. *)
Definition release_reserved_asserts (p : Pool I) (ids : list I) : bool :=
  forallb (contains p) ids &&
  forallb (λ id, forallb (λ f, negb (index f =? index id)%N) (free p)) ids.

(** ** The life of an id *)

(** The ids of a pool. *)
Definition extent (p : Pool I) : N * N := (base p, capacity p).

Definition ids_of (p : Pool I) : list I :=
  from_index <$> range_from (base p) (capacity p).

(** What a pool holds back: its free ids and the ones that wait. *)
Definition held (p : Pool I) : list I := free p ++ concat (snd <$> pending p).

(** A pool with the ids its callers hold, and the calls they may make: what is
    given back is something the caller holds. *)
Inductive step : Pool I * list I → Pool I * list I → Prop :=
  | step_alloc p p' lent n ids :
      try_alloc_n p n = (Some ids, p') → step (p, lent) (p', ids ++ lent)
  | step_recycle p lent lent' ids epoch :
      lent ≡ₚ ids ++ lent' →
      step (p, lent) (recycle_after_epoch p ids epoch, lent')
  | step_release p lent lent' ids :
      lent ≡ₚ ids ++ lent' →
      step (p, lent) (release_reserved p ids, lent')
  | step_retire p p' lent epoch :
      retire_through p epoch = Some p' → step (p, lent) (p', lent).

(** Every id of the pool is in exactly one place. *)
Definition conserved (s : Pool I * list I) : Prop :=
  let '(p, lent) := s in held p ++ lent ≡ₚ ids_of p.

(** The batches [retire_through] leaves and the ids it frees. *)
Definition due (epoch : N) (batch : N * list I) : Prop := (batch.1 ≤ epoch)%N.
#[global] Instance due_dec epoch batch : Decision (due epoch batch).
Proof. unfold due. apply _. Defined.

(** ** Lemmas *)

Lemma try_alloc_n_Some p n ids p' :
  try_alloc_n p n = (Some ids, p') →
  length ids = n ∧ free p = free p' ++ ids ∧
  pending p' = pending p ∧ base p' = base p ∧ capacity p' = capacity p.
Proof.
  unfold try_alloc_n. case_decide as Hn; [done|]. intros [= <- <-]; simpl.
  rewrite length_drop, take_drop. repeat split; lia.
Qed.

Lemma try_alloc_n_None p n p' :
  try_alloc_n p n = (None, p') → p' = p ∧ available p < n.
Proof. unfold try_alloc_n, available. case_decide; naive_solver. Qed.

Lemma retire_loop_total fuel epoch i pd fr :
  length pd - i ≤ fuel → is_Some (retire_loop fuel epoch i pd fr).
Proof.
  revert i pd fr. induction fuel as [|fuel IH]; intros i pd fr Hle; simpl.
  - rewrite lookup_ge_None_2 by lia. by eexists.
  - destruct (pd !! i) as [[d ids]|] eqn:Hi; [|by eexists].
    pose proof (lookup_lt_Some _ _ _ Hi) as Hlt.
    destruct (d <=? epoch)%N.
    + destruct (swap_remove_is_Some i pd Hlt) as [[[e ids'] pd'] Hsw].
      rewrite Hsw. apply IH.
      apply swap_remove_Permutation, Permutation_length in Hsw.
      simpl in Hsw. lia.
    + apply IH. lia.
Qed.

(** The loop keeps the batches that are not due and frees the others, in some
    order. *)
Lemma retire_loop_spec fuel epoch i pd fr pd' fr' :
  retire_loop fuel epoch i pd fr = Some (pd', fr') →
  Forall (λ b, ¬ due epoch b) (take i pd) →
  pd' ≡ₚ filter (λ b, ¬ due epoch b) pd ∧
  fr' ≡ₚ fr ++ concat (snd <$> filter (due epoch) pd).
Proof.
  revert i pd fr. induction fuel as [|fuel IH]; intros i pd fr; simpl;
    destruct (pd !! i) as [[d ids]|] eqn:Hi; try done.
  1, 3: intros [= <- <-] Hkept; rewrite take_ge in Hkept
    by (by apply lookup_ge_None_1);
    rewrite filter_all, filter_none by done; by rewrite app_nil_r.
  destruct (N.leb_spec d epoch) as [Hd|Hd]; intros Hloop Hkept.
  - destruct (swap_remove i pd) as [[[e ids'] pdr]|] eqn:Hsw; [|done].
    assert (e = d ∧ ids' = ids) as [-> ->].
    { unfold swap_remove in Hsw. rewrite Hi in Hsw.
      destruct (last pd); [|done]. by injection Hsw. }
    pose proof (swap_remove_Permutation _ _ _ _ Hsw) as Hperm.
    apply IH in Hloop as [Hpd Hfr].
    + rewrite Hpd, Hfr, Hperm. rewrite !filter_cons.
      rewrite (decide_True (P := due _ _)) by done.
      rewrite decide_False by (intros Hn; by apply Hn).
      simpl. split; [done|]. solve_perm.
    + by rewrite (swap_remove_take _ _ _ _ Hsw).
  - apply IH in Hloop; [done|].
    rewrite (take_S_r _ _ _ Hi). apply Forall_app. split; [done|].
    constructor; [|done]. unfold due; simpl. lia.
Qed.

Lemma retire_through_spec p epoch :
  ∃ p', retire_through p epoch = Some p' ∧
    pending p' ≡ₚ filter (λ b, ¬ due epoch b) (pending p) ∧
    free p' ≡ₚ free p ++ concat (snd <$> filter (due epoch) (pending p)) ∧
    base p' = base p ∧ capacity p' = capacity p.
Proof.
  unfold retire_through.
  destruct (retire_loop_total (length (pending p)) epoch 0 (pending p) (free p))
    as [[pd fr] Hloop]; [lia|].
  rewrite Hloop. eexists. split; [done|]; simpl.
  destruct (retire_loop_spec _ _ _ _ _ _ _ Hloop) as [Hpd Hfr];
    [by rewrite take_0|]. done.
Qed.

Lemma concat_filter_split epoch (pd : list (N * list I)) :
  concat (snd <$> pd) ≡ₚ
    concat (snd <$> filter (due epoch) pd) ++
    concat (snd <$> filter (λ b, ¬ due epoch b) pd).
Proof.
  induction pd as [|b pd IH]; [done|]. rewrite fmap_cons; simpl.
  rewrite IH, !filter_cons. destruct (decide (due epoch b)) as [Hb|Hb].
  - rewrite decide_False by (intros Hn; by apply Hn). simpl. solve_perm.
  - rewrite decide_True by done. simpl. solve_perm.
Qed.

Lemma retire_through_held p epoch p' :
  retire_through p epoch = Some p' → held p' ≡ₚ held p.
Proof.
  destruct (retire_through_spec p epoch) as (q & Hq & Hpd & Hfr & _).
  rewrite Hq. intros [= <-]. unfold held. rewrite Hfr, Hpd.
  rewrite (concat_filter_split epoch (pending p)). solve_perm.
Qed.

(** The calls keep the pool's extent, and move ids without losing one. *)
Lemma step_conserved s s' :
  step s s' →
  extent s'.1 = extent s.1 ∧ held s'.1 ++ s'.2 ≡ₚ held s.1 ++ s.2.
Proof.
  destruct 1 as [p p' lent n ids Ha|p lent lent' ids epoch Hl
                |p lent lent' ids Hl|p p' lent epoch Hr]; simpl.
  - apply try_alloc_n_Some in Ha as (_ & Hf & Hpd & Hb & Hc).
    unfold extent, held. rewrite Hf, Hpd, Hb, Hc. split; [done|]. solve_perm.
  - rewrite Hl. destruct ids as [|x ids]; [done|]. unfold held; simpl.
    rewrite fmap_app, concat_app; simpl. split; [done|]. solve_perm.
  - rewrite Hl. unfold held; simpl. split; [done|]. solve_perm.
  - rewrite (retire_through_held _ _ _ Hr). split; [|done].
    destruct (retire_through_spec p epoch) as (q & Hq & _ & _ & Hb & Hc).
    rewrite Hq in Hr. simplify_eq. unfold extent. by rewrite Hb, Hc.
Qed.

Lemma steps_conserved s s' :
  rtc step s s' →
  extent s'.1 = extent s.1 ∧ held s'.1 ++ s'.2 ≡ₚ held s.1 ++ s.2.
Proof.
  induction 1 as [s|s s' s'' Hstep _ [IH1 IH2]]; [done|].
  apply step_conserved in Hstep as [H1 H2].
  rewrite IH1, IH2. by split.
Qed.

Lemma new_range_held b c p :
  new_range b c = Some p →
  (b + c ≤ u32_max)%N ∧ base p = b ∧ capacity p = c ∧ held p ≡ₚ ids_of p.
Proof.
  unfold new_range, checked_add_u32. case_decide as Hbc; [|done].
  intros [= <-]. unfold held, ids_of; simpl.
  repeat split; try done. by rewrite app_nil_r, reverse_Permutation.
Qed.

Context `{!PoolIdLaws I}.

Lemma NoDup_ids_of p : NoDup (ids_of p).
Proof.
  apply NoDup_fmap_2; [|apply NoDup_range_from].
  intros i j Hij. by rewrite <-(index_from_index (I := I) i), Hij, index_from_index.
Qed.

Lemma elem_of_ids_of p x :
  x ∈ ids_of p ↔ (base p ≤ index x < base p + capacity p)%N.
Proof.
  unfold ids_of. rewrite list_elem_of_fmap. split.
  - intros (i & -> & Hi%elem_of_range_from). by rewrite index_from_index.
  - intros Hx. exists (index x). by rewrite elem_of_range_from, from_index_index.
Qed.

Lemma index_inj (x y : I) : index x = index y → x = y.
Proof. intros Hxy. by rewrite <-(from_index_index x), Hxy, from_index_index. Qed.

Lemma reachable_NoDup b c p p' lent :
  new_range b c = Some p → rtc step (p, []) (p', lent) →
  NoDup (held p' ++ lent) ∧ held p' ++ lent ≡ₚ ids_of p ∧
  base p' = b ∧ capacity p' = c ∧ (b + c ≤ u32_max)%N.
Proof.
  intros Hnew Hsteps. apply new_range_held in Hnew as (Hbc & Hb & Hc & Hheld).
  apply steps_conserved in Hsteps as [[= -> ->] Hperm]; simpl in *.
  rewrite app_nil_r, Hheld in Hperm. split_and!; [|done..].
  rewrite Hperm. apply NoDup_ids_of.
Qed.
End ops.

Section theorems.
Context {I : Type} `{PoolIdLaws I}.

(** C32. Starting from a fresh pool, after any calls whose given-back ids were
    held by the caller, every id of the range is in exactly one place: free,
    waiting for an epoch, or held by a caller. *)
Theorem pool_conserves b c p p' (lent : list I) :
  new_range b c = Some p → rtc step (p, []) (p', lent) →
  free p' ++ concat (snd <$> pending p') ++ lent ≡ₚ from_index <$> range_from b c ∧
  NoDup (free p' ++ concat (snd <$> pending p') ++ lent).
Proof.
  intros Hnew Hsteps.
  destruct (reachable_NoDup _ _ _ _ _ Hnew Hsteps) as (Hnd & Hperm & _).
  unfold held in *. rewrite <-app_assoc in Hnd, Hperm. split; [|done].
  apply new_range_held in Hnew as (_ & <- & <- & _). done.
Qed.

(** An allocation in a reachable state succeeds exactly when enough ids are
    free, gives [n] ids of the range, and none of them is one a caller holds
    or one that waits for an epoch. *)
Theorem pool_alloc_fresh b c p p' (lent : list I) n :
  new_range b c = Some p → rtc step (p, []) (p', lent) →
  match try_alloc_n p' n with
  | (Some ids, p'') =>
      n ≤ available p' ∧ length ids = n ∧ available p'' = available p' - n ∧
      NoDup (ids ++ concat (snd <$> pending p'') ++ lent) ∧
      Forall (λ x, contains p' x) ids
  | (None, p'') => available p' < n ∧ p'' = p'
  end.
Proof.
  intros Hnew Hsteps.
  destruct (reachable_NoDup _ _ _ _ _ Hnew Hsteps) as (Hnd & Hperm & Hb' & Hc' & Hbc).
  destruct (try_alloc_n p' n) as [[ids|] p''] eqn:Ha; last first.
  { apply try_alloc_n_None in Ha as [-> ?]. done. }
  pose proof (try_alloc_n_Some _ _ _ _ Ha) as (Hlen & Hf & Hpd & Hb & Hc).
  unfold available. rewrite Hf, length_app, Hlen.
  split_and!; [lia|done|lia| |].
  - unfold held in Hnd. rewrite Hf, <-Hpd, <-!app_assoc in Hnd.
    by apply NoDup_app in Hnd as (_ & _ & Hnd).
  - apply Forall_forall. intros x Hx.
    assert (x ∈ ids_of p) as Hin%elem_of_ids_of.
    { rewrite <-Hperm. unfold held. rewrite Hf. set_solver. }
    apply new_range_held in Hnew as (_ & Hbp & Hcp & _).
    rewrite Hbp, Hcp in Hin.
    unfold contains, sat_add. rewrite Hb', Hc'.
    rewrite !bool_decide_true by lia. done.
Qed.

(** [retire_through] always ends. It frees exactly the ids of the batches
    whose epoch has passed, keeps the other batches waiting, and retiring
    again at the same or an earlier epoch changes nothing but their order. *)
Theorem pool_retire_exact (p : Pool I) epoch :
  ∃ p', retire_through p epoch = Some p' ∧
    pending p' ≡ₚ filter (λ b, ¬ due epoch b) (pending p) ∧
    free p' ≡ₚ free p ++ concat (snd <$> filter (due epoch) (pending p)) ∧
    ∀ epoch', (epoch' ≤ epoch)%N → ∃ p'', retire_through p' epoch' = Some p'' ∧
      free p'' ≡ₚ free p' ∧ pending p'' ≡ₚ pending p'.
Proof.
  destruct (retire_through_spec p epoch) as (p' & Hp' & Hpd & Hfr & _).
  exists p'. split_and!; [done..|]. intros epoch' Hle.
  destruct (retire_through_spec p' epoch') as (p'' & Hp'' & Hpd' & Hfr' & _).
  assert (Forall (λ b, ¬ due epoch' b) (pending p')) as Hnot.
  { rewrite Hpd. apply Forall_forall. intros b [Hb _]%list_elem_of_filter Hdue.
    apply Hb. unfold due in *. lia. }
  exists p''. split; [done|]. split.
  - by rewrite Hfr', (filter_none _ _ Hnot), app_nil_r.
  - rewrite Hpd'. by rewrite filter_all.
Qed.

(** In a reachable state the [debug_assert!]s of [release_reserved] hold of
    every part of what a caller holds: each id is one of the pool's, and none
    of them is free already. *)
Theorem pool_release_asserts b c p p' (lent ids rest : list I) :
  new_range b c = Some p → rtc step (p, []) (p', lent) →
  lent ≡ₚ ids ++ rest → release_reserved_asserts p' ids = true.
Proof.
  intros Hnew Hsteps Hl.
  destruct (reachable_NoDup _ _ _ _ _ Hnew Hsteps) as (Hnd & Hperm & Hb' & Hc' & Hbc).
  apply new_range_held in Hnew as (_ & Hbp & Hcp & _). rewrite Hl in Hnd, Hperm.
  unfold release_reserved_asserts. apply andb_true_iff. split; apply forallb_forall;
    intros x Hx%list_elem_of_In.
  - assert (x ∈ ids_of p) as Hin%elem_of_ids_of by (rewrite <-Hperm; set_solver).
    rewrite Hbp, Hcp in Hin. unfold contains, sat_add. rewrite Hb', Hc'.
    rewrite !bool_decide_true by lia. done.
  - apply forallb_forall. intros y Hy%list_elem_of_In.
    apply negb_true_iff, N.eqb_neq. intros ->%index_inj.
    eapply (NoDup_app_disjoint _ _ x Hnd); unfold held; set_solver.
Qed.
End theorems.

(** ** What each call does to the ids a pool has *)

Definition in_range {I} (p : Pool I) : Prop := (base p + capacity p ≤ u32_max)%N.

(** What a release asserts: the ids are the pool's, and not free. *)
Lemma release_asserts_gen {I} `{!PoolId I, !PoolIdLaws I, !EqDecision I} (p : Pool I) (ids : list I) :
  in_range p → (∀ i, i ∈ ids → i ∈ ids_of p) → (∀ i, i ∈ ids → i ∉ held p) →
  release_reserved_asserts p ids = true.
Proof.
  intros Hr Hin Hout. unfold release_reserved_asserts. apply andb_true_iff. split.
  - apply forallb_forall. intros i Hi%list_elem_of_In.
    specialize (Hin i Hi). apply elem_of_ids_of in Hin.
    unfold contains, sat_add. unfold in_range in Hr. rewrite !bool_decide_true by lia. done.
  - apply forallb_forall. intros i Hi%list_elem_of_In. apply forallb_forall. intros g Hg%list_elem_of_In.
    apply negb_true_iff, N.eqb_neq. intros Heq%index_inj. subst g.
    apply (Hout i Hi). unfold held. set_solver.
Qed.

Lemma recycle_held {I} (p : Pool I) ids epoch :
  held (recycle_after_epoch p ids epoch) ≡ₚ ids ++ held p ∧
  extent (recycle_after_epoch p ids epoch) = extent p.
Proof.
  destruct ids as [|i ids]; [done|]. split; [|done]. unfold held. cbn [free pending recycle_after_epoch].
  rewrite fmap_app, concat_app. simpl. rewrite app_nil_r. solve_perm.
Qed.

(** What an allocation answers: as many as asked for, or nothing. *)
Lemma alloc_held {I} (p : Pool I) n :
  match try_alloc_n p n with
  | (Some ids, p') => length ids = n ∧ held p ≡ₚ ids ++ held p' ∧ extent p' = extent p ∧
      available p' = available p - n
  | (None, p') => p' = p ∧ available p < n
  end.
Proof.
  destruct (try_alloc_n p n) as [[ids|] p'] eqn:Ha.
  - apply try_alloc_n_Some in Ha as (Hl & Hf & Hp & Hb & Hc).
    unfold held, extent, available. rewrite Hf, Hp, Hb, Hc, length_app.
    split_and!; [done|solve_perm|done|lia].
  - by apply try_alloc_n_None in Ha as [-> ?].
Qed.

(** ** Witnesses *)

Definition sample : Pool PhysicalKvPageId :=
  default (mkPool [] [] 0 0) (new_range 4 3).

Definition page (n : N) : PhysicalKvPageId := PhysicalKvPage n.

Lemma sample_run :
  rtc step (sample, []) (recycle_after_epoch (mkPool [page 6] [] 4 3) [page 5] 2, [page 4]).
Proof.
  eapply rtc_l.
  { apply (step_alloc sample (mkPool [page 6] [] 4 3) [] 2 [page 5; page 4]).
    by vm_compute. }
  apply rtc_once.
  apply (step_recycle (mkPool [page 6] [] 4 3) [page 5; page 4] [page 4] [page 5] 2).
  reflexivity.
Defined.

Lemma pool_conserves_witness :
  [page 6] ++ [page 5] ++ [page 4] ≡ₚ from_index <$> range_from 4 3.
Proof.
  exact (proj1 (pool_conserves 4 3 sample _ _ eq_refl sample_run)).
Defined.

Lemma pool_alloc_fresh_witness :
  ∃ ids p'', try_alloc_n (recycle_after_epoch (mkPool [page 6] [] 4 3) [page 5] 2) 1
    = (Some ids, p'') ∧ NoDup (ids ++ [page 5; page 4]).
Proof.
  pose proof (pool_alloc_fresh 4 3 sample _ _ 1 eq_refl sample_run) as (_ & _ & _ & Hnd & _).
  eexists _, _. split; [reflexivity|exact Hnd].
Defined.

Lemma pool_release_asserts_witness :
  release_reserved_asserts (recycle_after_epoch (mkPool [page 6] [] 4 3) [page 5] 2)
    [page 4] = true.
Proof.
  apply (pool_release_asserts 4 3 sample _ _ [page 4] [] eq_refl sample_run). reflexivity.
Defined.
End Pool.
