(* ===== verification/GenMap.v ===== *)
(** The generational map ([crates/runtime/src/store/genmap.rs]): slots with a
    generation that a removal bumps (wrapping at 32 bits), a free list of
    vacant slots, and keys that name a slot at a generation. It implements the
    interface of [Store.v]; a removed key stays dead until its slot's
    generation has wrapped around. *)
From S2P Require Import Prelude Ids Store.

Module GenMap.

Record Slot (T : Type) := mkSlot { generation : N; value : option T }.
Arguments mkSlot {T} _ _.
Arguments generation {T} _.
Arguments value {T} _.

Record GenMap (M : Set) (T : Type) := mkGenMap { slots : list (Slot T); free : list N }.
Arguments mkGenMap {M T} _ _.
Arguments slots {M T} _.
Arguments free {M T} _.

Section ops.
Context {M : Set} {T : Type}.
Implicit Types (m : GenMap M T) (k : GenKey M).

Definition new : GenMap M T := mkGenMap [] [].

(** [None] is the panic of indexing a slot that is not there. *)
Definition insert m (v : T) : option (GenKey M * GenMap M T) :=
  match vec_pop (free m) with
  | Some (index, free') =>
      match slots m !! N.to_nat index with
      | Some slot =>
          Some (mkGenKey index (generation slot),
                mkGenMap (<[N.to_nat index := mkSlot (generation slot) (Some v)]> (slots m)) free')
      | None => None
      end
  | None =>
      let index := as_u32 (N.of_nat (length (slots m))) in
      Some (mkGenKey index 0,
            mkGenMap (slots m ++ [mkSlot 0 (Some v)]) (free m))
  end.

Definition get m k : option T :=
  match slots m !! N.to_nat (key_index k) with
  | Some slot => if decide (generation slot = key_generation k) then value slot else None
  | None => None
  end.

(** [*get_mut(k) = v]; nothing when [get_mut] gives [None]. *)
Definition set m k (v : T) : GenMap M T :=
  match slots m !! N.to_nat (key_index k) with
  | Some slot =>
      if decide (generation slot = key_generation k) then
        match value slot with
        | Some _ =>
            mkGenMap (<[N.to_nat (key_index k) := mkSlot (generation slot) (Some v)]> (slots m))
              (free m)
        | None => m
        end
      else m
  | None => m
  end.

Definition contains m k : bool :=
  match get m k with Some _ => true | None => false end.

Definition remove m k : option T * GenMap M T :=
  match slots m !! N.to_nat (key_index k) with
  | Some slot =>
      if decide (generation slot ≠ key_generation k ∨ value slot = None) then (None, m)
      else
        (value slot,
         mkGenMap (<[N.to_nat (key_index k) := mkSlot (as_u32 (generation slot + 1)) None]> (slots m))
           (free m ++ [key_index k]))
  | None => (None, m)
  end.

Definition iter m : list (GenKey M * T) :=
  omap (λ '(i, slot),
    match value slot with
    | Some v => Some (mkGenKey (as_u32 (N.of_nat i)) (generation slot), v)
    | None => None
    end) (imap pair (slots m)).

(** ** The live keys *)

Definition to_map m : gmap (GenKey M) T := list_to_map (iter m).

(** The free list names distinct vacant slots, and the generations and the
    indices are 32-bit words. *)
Record valid m : Prop := {
  valid_free_NoDup : NoDup (free m);
  valid_free i : i ∈ free m → ∃ g, slots m !! N.to_nat i = Some (mkSlot g None);
  valid_length : (N.of_nat (length (slots m)) ≤ 2 ^ 32)%N;
  valid_generation i s : slots m !! i = Some s → (generation s < 2 ^ 32)%N;
}.

(** Insertions left: vacant slots, then indices below [2^32]. *)
Definition room m (n : nat) : Prop :=
  (N.of_nat n ≤ N.of_nat (length (free m)) + (2 ^ 32 - N.of_nat (length (slots m))))%N.

(** ** Lemmas *)

Lemma get_Some m k v :
  get m k = Some v ↔
  slots m !! N.to_nat (key_index k) = Some (mkSlot (key_generation k) (Some v)).
Proof.
  unfold get. destruct (slots m !! _) as [[g o]|]; simpl; [|done].
  case_decide; naive_solver.
Qed.

Lemma elem_of_iter m k v :
  (N.of_nat (length (slots m)) ≤ 2 ^ 32)%N →
  (k, v) ∈ iter m ↔ get m k = Some v.
Proof.
  intros Hlen. rewrite get_Some. unfold iter. rewrite list_elem_of_omap. split.
  - intros ([i [g o]] & Hi & Hv).
    apply elem_of_lookup_imap in Hi as (? & ? & [= <- <-] & Hj). simpl in Hv.
    destruct o as [w|]; [|done]. injection Hv as <- <-. simpl.
    pose proof (lookup_lt_Some _ _ _ Hj). rewrite as_u32_small by lia.
    by rewrite Nat2N.id.
  - intros Hk. destruct k as [i g]; simpl in *.
    pose proof (lookup_lt_Some _ _ _ Hk).
    exists (N.to_nat i, mkSlot g (Some v)). split.
    + apply elem_of_lookup_imap. by eexists _, _.
    + simpl. rewrite N2Nat.id, as_u32_small by lia. done.
Qed.

Lemma NoDup_iter_keys m :
  (N.of_nat (length (slots m)) ≤ 2 ^ 32)%N → NoDup (iter m).*1.
Proof.
  intros Hlen. unfold iter. rewrite fmap_omap.
  apply NoDup_omap; [|apply NoDup_imap_pair].
  intros [i [g o]] [j [g' o']] k Hi Hj Hik Hjk.
  apply elem_of_lookup_imap in Hi as (? & ? & [= <- <-] & Hi).
  apply elem_of_lookup_imap in Hj as (? & ? & [= <- <-] & Hj).
  pose proof (lookup_lt_Some _ _ _ Hi). pose proof (lookup_lt_Some _ _ _ Hj).
  destruct o, o'; simpl in *; try done. rewrite !as_u32_small in * by lia.
  by simplify_eq.
Qed.

Lemma get_to_map m k : valid m → get m k = to_map m !! k.
Proof.
  intros Hm. pose proof (valid_length _ Hm) as Hlen.
  apply option_eq. intros v. unfold to_map.
  rewrite <-elem_of_list_to_map by by apply NoDup_iter_keys.
  symmetry. by apply elem_of_iter.
Qed.

Lemma iter_to_map m : valid m → iter m ≡ₚ map_to_list (to_map m).
Proof.
  intros Hm. unfold to_map. symmetry. apply map_to_list_to_map.
  by apply NoDup_iter_keys, valid_length.
Qed.

Lemma to_map_ext m (f : gmap (GenKey M) T) :
  valid m → (∀ k, get m k = f !! k) → to_map m = f.
Proof. intros Hm Hf. apply map_eq. intros k. by rewrite <-Hf, get_to_map. Qed.

(** A slot rewritten in place: what every lookup sees. *)
Lemma get_insert_slot m i s f k :
  i < length (slots m) →
  get (mkGenMap (<[i := s]> (slots m)) f) k =
    if decide (N.to_nat (key_index k) = i) then
      if decide (generation s = key_generation k) then value s else None
    else get m k.
Proof.
  intros Hi. unfold get; simpl. case_decide as Hk.
  - subst i. by rewrite list_lookup_insert_eq.
  - by rewrite list_lookup_insert_ne.
Qed.

Lemma valid_new : valid new.
Proof.
  split; simpl; [constructor|by intros i ?%not_elem_of_nil|lia|done].
Qed.

(** A key whose index is the slot's and whose generation is the slot's is the
    key handed out. *)
Lemma key_eq_slot (k : GenKey M) i g :
  N.to_nat (key_index k) = N.to_nat i → g = key_generation k → mkGenKey i g = k.
Proof. destruct k; simpl. intros ?%N2Nat.inj ->. by subst. Qed.

Lemma insert_reuse_spec m v f' i g n :
  valid m → room m (S n) → free m = f' ++ [i] →
  slots m !! N.to_nat i = Some (mkSlot g None) →
  let m' := mkGenMap (<[N.to_nat i := mkSlot g (Some v)]> (slots m)) f' in
  to_map m !! mkGenKey i g = None ∧
  to_map m' = <[mkGenKey i g := v]> (to_map m) ∧ valid m' ∧ room m' n.
Proof.
  intros Hm Hroom Hf Hi m'. pose proof (lookup_lt_Some _ _ _ Hi) as Hlt.
  assert (valid m') as Hm'.
  { destruct Hm as [Hnd Hfr Hlen Hgen]. rewrite Hf in Hnd.
    apply NoDup_app in Hnd as (Hnd & Hdisj & _). split; simpl; [done| | |].
    - intros j Hj. destruct (Hfr j) as [gj Hgj]; [rewrite Hf; set_solver|].
      exists gj. rewrite list_lookup_insert_ne; [done|].
      intros ?%N2Nat.inj. subst j. apply (Hdisj i Hj). set_solver.
    - by rewrite length_insert.
    - intros j s [(<- & <- & _)|[_ Hj]]%list_lookup_insert_Some; simpl; [|by eauto].
      apply (Hgen _ _ Hi). }
  assert (get m (mkGenKey i g) = None) as Hnone.
  { unfold get; simpl. rewrite Hi; simpl. by rewrite decide_True. }
  split_and!; [by rewrite <-get_to_map| |done|].
  - apply to_map_ext; [done|]. intros k. unfold m'.
    rewrite get_insert_slot by done. simpl. rewrite lookup_insert.
    destruct (decide (N.to_nat (key_index k) = N.to_nat i)) as [Hk|Hk]; last first.
    { rewrite decide_False by (intros <-; simpl in Hk; done). by apply get_to_map. }
    case_decide as Hg.
    + by rewrite decide_True by by apply key_eq_slot.
    + rewrite decide_False by (intros <-; simpl in Hg; done).
      rewrite <-get_to_map by done. unfold get. rewrite Hk, Hi; simpl.
      by rewrite decide_False.
  - unfold room in *; simpl. rewrite length_insert.
    rewrite Hf, length_app in Hroom; simpl in Hroom. lia.
Qed.

Lemma insert_grow_spec m v n :
  valid m → room m (S n) → free m = [] →
  let i := as_u32 (N.of_nat (length (slots m))) in
  let m' := mkGenMap (slots m ++ [mkSlot 0 (Some v)]) (free m) in
  to_map m !! mkGenKey i 0 = None ∧
  to_map m' = <[mkGenKey i 0 := v]> (to_map m) ∧ valid m' ∧ room m' n.
Proof.
  intros Hm Hroom Hf i m'. pose proof (valid_length _ Hm) as Hlen.
  assert (N.of_nat (length (slots m)) < 2 ^ 32)%N as Hlt.
  { unfold room in Hroom. rewrite Hf in Hroom; simpl in Hroom. lia. }
  assert (N.to_nat i = length (slots m)) as Hi.
  { unfold i. rewrite as_u32_small by done. lia. }
  assert (valid m') as Hm'.
  { split; simpl; rewrite ?Hf.
    - constructor.
    - by intros j ?%not_elem_of_nil.
    - rewrite length_app; simpl. lia.
    - intros j s [Hj|(_ & Hj)]%lookup_app_Some; [by eapply valid_generation|].
      apply list_lookup_singleton_Some in Hj as [_ <-]. done. }
  assert (∀ g, get m (mkGenKey i g) = None) as Hnone.
  { intros g. unfold get; simpl. by rewrite Hi, lookup_ge_None_2. }
  split_and!; [by rewrite <-get_to_map| |done|].
  - apply to_map_ext; [done|]. intros k. rewrite lookup_insert.
    destruct (decide (mkGenKey i 0 = k)) as [<-|Hk].
    + unfold get; simpl. by rewrite Hi, list_lookup_middle.
    + rewrite <-get_to_map by done. unfold get; simpl.
      destruct (decide (N.to_nat (key_index k) < length (slots m))).
      { by rewrite lookup_app_l. }
      rewrite (lookup_ge_None_2 (slots m)) by lia.
      destruct ((slots m ++ _) !! _) as [s|] eqn:Hs; [|done].
      rewrite lookup_app_r in Hs by lia.
      apply list_lookup_singleton_Some in Hs as [Hidx <-]; simpl.
      rewrite decide_False; [done|]. intros Hg. apply Hk, key_eq_slot; [lia|done].
  - unfold room in *; simpl. rewrite length_app, Hf in *; simpl in *. lia.
Qed.

Lemma insert_spec m v n :
  valid m → room m (S n) →
  ∃ k m', insert m v = Some (k, m') ∧ to_map m !! k = None ∧
    to_map m' = <[k := v]> (to_map m) ∧ valid m' ∧ room m' n.
Proof.
  intros Hm Hroom. unfold insert.
  destruct (vec_pop (free m)) as [[i f']|] eqn:Hpop.
  - apply vec_pop_Some in Hpop.
    destruct (valid_free _ Hm i) as [g Hg]; [rewrite Hpop; set_solver|].
    rewrite Hg. eexists _, _. split; [done|]. simpl.
    by apply insert_reuse_spec.
  - apply vec_pop_None in Hpop. eexists _, _. split; [done|].
    by apply insert_grow_spec.
Qed.

Lemma set_spec m k v :
  valid m → is_Some (to_map m !! k) →
  to_map (set m k v) = <[k := v]> (to_map m) ∧ valid (set m k v) ∧
  ∀ n, room m n → room (set m k v) n.
Proof.
  intros Hm [w Hw]. rewrite <-get_to_map in Hw by done.
  apply get_Some in Hw as Hs. pose proof (lookup_lt_Some _ _ _ Hs) as Hlt.
  assert (set m k v = mkGenMap (<[N.to_nat (key_index k) :=
    mkSlot (key_generation k) (Some v)]> (slots m)) (free m)) as ->.
  { unfold set. rewrite Hs; simpl. by rewrite decide_True. }
  assert (valid (mkGenMap (<[N.to_nat (key_index k) :=
    mkSlot (key_generation k) (Some v)]> (slots m)) (free m))) as Hm'.
  { destruct Hm as [Hnd Hfr Hlen Hgen]. split; simpl; [done| | |].
    - intros j Hj. destruct (Hfr j Hj) as [g Hg]. exists g.
      rewrite list_lookup_insert_ne; [done|]. intros Hjk. rewrite Hjk in *. by simplify_eq.
    - by rewrite length_insert.
    - intros j s [(<- & <- & _)|[_ Hj]]%list_lookup_insert_Some; simpl; [|by eauto].
      apply (Hgen _ _ Hs). }
  split_and!; [|done|].
  - apply to_map_ext; [done|]. intros k'.
    rewrite get_insert_slot, lookup_insert by done; simpl.
    destruct (decide (N.to_nat (key_index k') = _)) as [Hk|Hk]; last first.
    { rewrite decide_False by (by intros ->). by apply get_to_map. }
    case_decide as Hg.
    + rewrite decide_True; [done|]. destruct k. by apply key_eq_slot.
    + rewrite decide_False by (by intros ->). rewrite <-get_to_map by done.
      unfold get. rewrite Hk, Hs; simpl. by rewrite decide_False.
  - intros n. unfold room; simpl. by rewrite length_insert.
Qed.

Lemma remove_None m k : get m k = None → remove m k = (None, m).
Proof.
  unfold get, remove. destruct (slots m !! _) as [[g o]|]; [|done]; simpl.
  case_decide as Hg; intros Ho; case_decide; naive_solver.
Qed.

Lemma remove_Some m k v :
  get m k = Some v →
  remove m k = (Some v, mkGenMap (<[N.to_nat (key_index k) :=
    mkSlot (as_u32 (key_generation k + 1)) None]> (slots m)) (free m ++ [key_index k])).
Proof.
  intros Hs%get_Some. unfold remove. rewrite Hs; simpl.
  by rewrite decide_False by (by intros [|]).
Qed.

Lemma remove_spec m k :
  valid m →
  (remove m k).1 = to_map m !! k ∧
  to_map (remove m k).2 = delete k (to_map m) ∧
  valid (remove m k).2 ∧
  ∀ n, room m n → room (remove m k).2 n.
Proof.
  intros Hm. destruct (get m k) as [v|] eqn:Hget; last first.
  { rewrite (remove_None _ _ Hget); simpl. rewrite get_to_map in Hget by done.
    by rewrite delete_id. }
  rewrite (remove_Some _ _ _ Hget); simpl. apply get_Some in Hget as Hs.
  pose proof (lookup_lt_Some _ _ _ Hs) as Hlt.
  set (m' := mkGenMap _ _).
  assert (valid m') as Hm'.
  { destruct Hm as [Hnd Hfr Hlen Hgen]. split; simpl.
    - apply NoDup_app. split_and!; [done| |apply NoDup_singleton].
      intros i Hi ->%list_elem_of_singleton. destruct (Hfr _ Hi). by simplify_eq.
    - intros i. rewrite elem_of_app, list_elem_of_singleton.
      destruct (decide (i = key_index k)) as [->|Hi].
      + intros _. eexists. by apply list_lookup_insert_eq.
      + intros [Hj| ->]; [|done]. destruct (Hfr i Hj) as [g Hg]. exists g.
        rewrite list_lookup_insert_ne; [done|]. intros ?%N2Nat.inj. done.
    - by rewrite length_insert.
    - intros j s [(<- & <- & _)|[_ Hj]]%list_lookup_insert_Some; simpl; [|by eauto].
      apply as_u32_lt. }
  split_and!; [by rewrite <-get_to_map| |done|].
  - apply to_map_ext; [done|]. intros k'. unfold m'.
    rewrite get_insert_slot, lookup_delete by done; simpl.
    destruct (decide (N.to_nat (key_index k') = _)) as [Hk|Hk]; last first.
    { rewrite decide_False by (by intros ->). by apply get_to_map. }
    destruct (decide (k = k')) as [<-|Hne]; [by case_decide|].
    rewrite <-get_to_map by done. unfold get. rewrite Hk, Hs; simpl.
    rewrite (decide_False (P := key_generation k = key_generation k')); [by case_decide|].
    intros Hg. apply Hne. destruct k. by apply key_eq_slot.
  - intros n. unfold room; simpl. rewrite length_insert, length_app; simpl. lia.
Qed.
End ops.

#[export] Instance GenMap_store {M : Set} : KeyedStore (GenKey M) (GenMap M) :=
  {| st_new T := new; st_insert T := insert; st_get T := get; st_set T := set;
     st_remove T := remove; st_iter T := iter |}.

#[export] Instance GenMap_store_laws {M : Set} :
  KeyedStoreLaws (GenKey M) (GenMap M).
Proof.
  refine {| st_map T := to_map; st_valid T := valid; st_room T := room |}.
  - intros T s n m Hle. unfold room. lia.
  - intros T. split; [apply valid_new|done].
  - intros T s k. apply get_to_map.
  - intros T s v n. apply insert_spec.
  - intros T s k v. apply set_spec.
  - intros T s k. apply remove_spec.
  - intros T s. apply iter_to_map.
Defined.

(** ** Keys that were removed *)

Inductive op (M : Set) (T : Type) :=
  | OpInsert (v : T)
  | OpSet (k : GenKey M) (v : T)
  | OpRemove (k : GenKey M).
Arguments OpInsert {M T} v.
Arguments OpSet {M T} k v.
Arguments OpRemove {M T} k.

Section stale.
Context {M : Set} {T : Type}.
Implicit Types (m : GenMap M T) (k : GenKey M).

Definition run_op m (o : op M T) : option (GenMap M T) :=
  match o with
  | OpInsert v => snd <$> insert m v
  | OpSet k v => Some (set m k v)
  | OpRemove k => Some (remove m k).2
  end.

Fixpoint run m (ops : list (op M T)) : option (GenMap M T) :=
  match ops with
  | [] => Some m
  | o :: ops => match run_op m o with Some m => run m ops | None => None end
  end.

(** The removals a sequence of calls asks for at a slot. *)
Definition removes_at (i : N) (o : op M T) : bool :=
  match o with OpRemove k => (key_index k =? i)%N | _ => false end.

Definition removals_at (i : N) (ops : list (op M T)) : N :=
  N.of_nat (length (filter (removes_at i) ops)).

Lemma removals_at_cons i o ops :
  removals_at i (o :: ops) = (removals_at i [o] + removals_at i ops)%N.
Proof. unfold removals_at. rewrite !filter_cons. case_decide; simpl; lia. Qed.

Lemma run_op_generation m m' o i s :
  run_op m o = Some m' → slots m !! N.to_nat i = Some s →
  ∃ s' d, slots m' !! N.to_nat i = Some s' ∧ (d ≤ removals_at i [o])%N ∧
    (generation s' mod 2 ^ 32 = (generation s + d) mod 2 ^ 32)%N.
Proof.
  intros Ho Hs. pose proof (lookup_lt_Some _ _ _ Hs) as Hlt.
  assert (Hsame : ∀ j t f, slots m !! j = Some t → generation t = generation f →
    ∃ s' d, <[j := f]> (slots m) !! N.to_nat i = Some s' ∧ (d ≤ removals_at i [o])%N ∧
      (generation s' mod 2 ^ 32 = (generation s + d) mod 2 ^ 32)%N).
  { intros j t f Hj Hg. destruct (decide (j = N.to_nat i)) as [->|Hji].
    - exists f, 0%N. rewrite list_lookup_insert_eq by done. simplify_eq.
      rewrite N.add_0_r, Hg. split_and!; [done|lia|done].
    - exists s, 0%N. rewrite list_lookup_insert_ne by done.
      rewrite N.add_0_r. split_and!; [done|lia|done]. }
  assert (Hid : ∃ s' d, slots m !! N.to_nat i = Some s' ∧ (d ≤ removals_at i [o])%N ∧
      (generation s' mod 2 ^ 32 = (generation s + d) mod 2 ^ 32)%N).
  { exists s, 0%N. rewrite N.add_0_r. split_and!; [done|lia|done]. }
  destruct o as [v|k v|k]; simpl in Ho.
  - unfold insert in Ho. destruct (vec_pop _) as [[j f']|].
    + destruct (slots m !! N.to_nat j) as [t|] eqn:Hj; [|done].
      injection Ho as <-; simpl. by eapply Hsame.
    + injection Ho as <-; simpl. destruct Hid as (s' & d & Hs' & Hd). exists s', d.
      split; [|done]; simpl. by rewrite lookup_app_l by by eapply lookup_lt_Some.
  - injection Ho as <-; simpl. unfold set. destruct (slots m !! N.to_nat (key_index k)) as [t|] eqn:Hj; [|done].
    case_decide; [|done]. destruct (value t); [|done]. by eapply Hsame.
  - injection Ho as <-; simpl. unfold remove.
    destruct (slots m !! N.to_nat (key_index k)) as [t|] eqn:Hj; [|done].
    case_decide as Hc; [done|]; simpl.
    destruct (decide (key_index k = i)) as [<-|Hki].
    + eexists _, 1%N. rewrite list_lookup_insert_eq by done. simplify_eq.
      cbn [generation]. unfold as_u32. split_and!; [done| |cbn [generation]; by rewrite N.Div0.mod_mod].
      unfold removals_at. rewrite filter_cons_True
        by (simpl; by rewrite N.eqb_refl). done.
    + rewrite list_lookup_insert_ne; [done|]. intros ?%N2Nat.inj. done.
Qed.

Lemma run_generation m m' ops i s :
  run m ops = Some m' → slots m !! N.to_nat i = Some s →
  ∃ s' d, slots m' !! N.to_nat i = Some s' ∧ (d ≤ removals_at i ops)%N ∧
    (generation s' mod 2 ^ 32 = (generation s + d) mod 2 ^ 32)%N.
Proof.
  revert m s. induction ops as [|o ops IH]; intros m s Hrun Hs; simpl in Hrun.
  - simplify_eq. exists s, 0%N. rewrite N.add_0_r. split_and!; [done|lia|done].
  - destruct (run_op m o) as [m1|] eqn:Ho; [|done].
    destruct (run_op_generation _ _ _ _ _ Ho Hs) as (s1 & d1 & Hs1 & Hd1 & Hg1).
    destruct (IH m1 s1 Hrun Hs1) as (s2 & d2 & Hs2 & Hd2 & Hg2).
    exists s2, (d1 + d2)%N. rewrite removals_at_cons. split_and!; [done|lia|].
    rewrite Hg2, <-N.Div0.add_mod_idemp_l, Hg1, N.Div0.add_mod_idemp_l.
    f_equal. lia.
Qed.

Lemma run_op_valid m o :
  valid m → room m 1 →
  ∃ m', run_op m o = Some m' ∧ valid m'.
Proof.
  intros Hm Hr. destruct o as [v|k v|k]; simpl.
  - destruct (insert_spec m v 0 Hm Hr) as (k & m' & -> & _ & _ & Hv & _). by eexists.
  - destruct (get m k) as [w|] eqn:Hk.
    + eexists. split; [done|]. apply set_spec; [done|]. rewrite <-get_to_map by done. by eexists.
    + eexists. split; [done|]. enough (set m k v = m) as -> by done.
      unfold get in Hk. unfold set. destruct (slots m !! _) as [s|]; [|done].
      case_decide; [|done]. by rewrite Hk.
  - eexists. split; [done|]. by apply remove_spec.
Qed.

(** C33. A generational map is a map of its live keys, and every call keeps it
    well formed: an insertion answers a key that was not live and binds it, a
    write through [get_mut] rebinds a live key, a removal answers the value and
    unbinds the key, and all other keys keep their values. *)
Theorem genmap_refines_map m k v n :
  valid m → room m (S n) →
  (∃ k' m', insert m v = Some (k', m') ∧ get m k' = None ∧ valid m' ∧ room m' n ∧
     ∀ x, get m' x = if decide (x = k') then Some v else get m x) ∧
  (valid (set m k v) ∧
     ∀ x, get (set m k v) x = if decide (x = k ∧ is_Some (get m k)) then Some v else get m x) ∧
  ((remove m k).1 = get m k ∧ valid (remove m k).2 ∧
     ∀ x, get (remove m k).2 x = if decide (x = k) then None else get m x).
Proof.
  intros Hm Hr. split_and!.
  - destruct (insert_spec m v n Hm Hr) as (k' & m' & Hi & Hnone & Hmap & Hv & Hr').
    exists k', m'. rewrite get_to_map by done. split_and!; try done.
    intros x. rewrite !get_to_map, Hmap, lookup_insert by done.
    repeat case_decide; congruence.
  - destruct (run_op_valid m (OpSet k v)) as (m' & [= <-] & Hv);
      [done|unfold room in *; lia|done].
  - intros x. destruct (get m k) as [w|] eqn:Hk.
    + destruct (set_spec m k v Hm) as (Hmap & Hv & _); [rewrite <-get_to_map by done; by eexists|].
      rewrite !get_to_map, Hmap, lookup_insert by done.
      destruct (decide (k = x)) as [->|Hkx]; [by rewrite decide_True by by split|].
      by rewrite decide_False by (by intros [-> _]).
    + rewrite decide_False by (by intros [_ []]).
      enough (set m k v = m) as -> by done.
      unfold get in Hk. unfold set. destruct (slots m !! _) as [s|]; [|done].
      case_decide; [|done]. by rewrite Hk.
  - rewrite get_to_map by done. by apply remove_spec.
  - by apply remove_spec.
  - intros x. destruct (remove_spec m k Hm) as (_ & Hmap & Hv & _).
    rewrite !get_to_map, Hmap, lookup_delete by done. repeat case_decide; congruence.
Qed.

(** A key that was removed never resolves again, whatever is called next,
    as long as fewer than [2^32 - 1] further removals go to its slot (the
    generation would then have wrapped around to the key's). *)
Theorem genmap_stale_key m k v ops m' :
  valid m → get m k = Some v →
  run (remove m k).2 ops = Some m' →
  (removals_at (key_index k) ops < 2 ^ 32 - 1)%N →
  get m' k = None ∧ remove m' k = (None, m').
Proof.
  intros Hm Hk Hrun Hops.
  pose proof (proj1 (get_Some _ _ _) Hk) as Hs.
  pose proof (valid_generation _ Hm _ _ Hs) as Hg; simpl in Hg.
  pose proof (lookup_lt_Some _ _ _ Hs) as Hlt.
  rewrite (remove_Some _ _ _ Hk) in Hrun; simpl in Hrun.
  apply (run_generation _ _ _ (key_index k) (mkSlot (as_u32 (key_generation k + 1)) None))
    in Hrun as ([g' o] & d & Hs' & Hd & Hg'); [|simpl; by apply list_lookup_insert_eq].
  simpl in Hg'.
  assert (get m' k = None) as Hnone; [|split; [done|by apply remove_None]].
  unfold get. rewrite Hs'; simpl. rewrite decide_False; [done|].
  intros ->. unfold as_u32 in Hg'. rewrite N.Div0.add_mod_idemp_l in Hg'.
  rewrite N.mod_small in Hg' by done.
  destruct (N.lt_ge_cases (key_generation k + 1 + d) (2 ^ 32)).
  - rewrite N.mod_small in Hg' by done. lia.
  - replace (key_generation k + 1 + d)%N with
      (key_generation k + 1 + d - 2 ^ 32 + 1 * 2 ^ 32)%N in Hg' by lia.
    rewrite N.Div0.mod_add in Hg'. rewrite N.mod_small in Hg'; lia.
Qed.
End stale.

(** ** Witnesses *)

Definition sample : GenMap NodeMarker nat :=
  mkGenMap [mkSlot 3 (Some 7); mkSlot 0 None; mkSlot (2 ^ 32 - 1) (Some 9)] [1%N].

Lemma sample_valid : valid sample.
Proof.
  split; simpl.
  - apply NoDup_singleton.
  - intros i ->%list_elem_of_singleton. by exists 0%N.
  - lia.
  - intros [|[|[|i]]] s; simpl; intros [= <-]; simpl; lia.
Defined.

Lemma genmap_refines_map_witness :
  ∃ k' m', insert sample 5 = Some (k', m') ∧ get sample k' = None ∧ get m' k' = Some 5.
Proof.
  destruct (genmap_refines_map sample (mkGenKey 0 3) 5 0 sample_valid)
    as ((k' & m' & Hi & Hn & _ & _ & Hget) & _); [vm_compute; done|].
  exists k', m'. split_and!; [done|done|]. by rewrite Hget, decide_True.
Defined.

(** The slot's generation wraps to 0, and the removed key stays dead. *)
Lemma genmap_stale_key_witness :
  get sample (mkGenKey 2 (2 ^ 32 - 1)) = Some 9 ∧
  ∃ m', run (remove sample (mkGenKey 2 (2 ^ 32 - 1))).2
          [OpInsert 4; OpRemove (mkGenKey 2 0); OpInsert 6] = Some m' ∧
    get m' (mkGenKey 2 (2 ^ 32 - 1)) = None.
Proof.
  split; [by vm_compute|]. eexists. split; [by vm_compute|].
  eapply (genmap_stale_key sample _ 9 [OpInsert 4; OpRemove (mkGenKey 2 0); OpInsert 6]);
    [apply sample_valid|by vm_compute..].
Defined.
End GenMap.
