(* ===== verification/Seat.v ===== *)
(** The book of recurrent-state seats ([crates/runtime/src/store/seat.rs]):
    which of the deployment's slots each working set sits on. *)
From S2P Require Import Prelude Ids.

Module Seat.

Inductive SeatError : Type := Exhausted (need have capacity : N).

#[export] Instance SeatError_eq_dec : EqDecision SeatError.
Proof. solve_decision. Defined.

Record SeatBook := mkSeatBook {
  capacity : N;
  free : list N;
  next : N;
  held : gmap WorkingSetId (list N);
}.

Definition new (capacity : N) : SeatBook := mkSeatBook capacity [] 0 ∅.

(** The loop of [seats]: a freed seat if there is one, else the next never
    issued. The third component is the run of fresh seats. *)
Fixpoint take_seats (need : nat) (free : list N) (next : N) (fresh : list N) :
    list N * N * list N :=
  match need with
  | O => (free, next, fresh)
  | S need =>
      match vec_pop free with
      | Some (seat, free') => take_seats need free' next (fresh ++ [seat])
      | None => take_seats need free (as_u32 (next + 1)) (fresh ++ [next])
      end
  end.

Definition seats (ws : WorkingSetId) (lanes : nat) :
    method SeatBook SeatError (list N) := λ b,
  let lanes := clamp_u32 lanes in
  if decide (lanes = 0%N) then (Ok [], b)
  else
    let have := match held b !! ws with Some run => clamp_u32 (length run) | None => 0%N end in
    let answer (b : SeatBook) :=
      match held b !! ws with
      | Some run =>
          if decide (N.to_nat lanes ≤ length run) then (Ok (take (N.to_nat lanes) run), b)
          else (Panic, b)
      | None => (Panic, b)
      end in
    if decide (have < lanes)%N then
      let need := (lanes - have)%N in
      let room := sat_add u32_max (clamp_u32 (length (free b))) (capacity b - next b) in
      if decide (capacity b ≠ 0%N ∧ (room < need)%N) then
        (Err (Exhausted need room (capacity b)), b)
      else
        let '(free', next', fresh) := take_seats (N.to_nat need) (free b) (next b) [] in
        let run := default [] (held b !! ws) in
        answer (mkSeatBook (capacity b) free' next' (<[ws := run ++ fresh]> (held b)))
    else answer b.

Definition release (b : SeatBook) (ws : WorkingSetId) : SeatBook :=
  match held b !! ws with
  | Some run => mkSeatBook (capacity b) (free b ++ run) (next b) (delete ws (held b))
  | None => b
  end.

Definition available (b : SeatBook) : option N :=
  if decide (capacity b ≠ 0%N) then
    Some (sat_add u32_max (clamp_u32 (length (free b))) (capacity b - next b))
  else None.

(** ** Invariant *)

Definition all_held (h : gmap WorkingSetId (list N)) : list N :=
  concat (map_to_list h).*2.

(** The seats issued so far are each held by one working set or free, and no
    more were issued than the deployment has. *)
Record wf (b : SeatBook) : Prop := {
  wf_seats : all_held (held b) ++ free b ≡ₚ range_from 0 (next b);
  wf_next : (next b ≤ u32_max)%N;
  wf_capacity : capacity b = 0%N ∨ (next b ≤ capacity b ≤ u32_max)%N;
}.

(** ** Lemmas *)

Lemma all_held_insert h ws run fresh :
  default [] (h !! ws) = run →
  all_held (<[ws := run ++ fresh]> h) ≡ₚ all_held h ++ fresh.
Proof.
  intros Hrun. unfold all_held. destruct (h !! ws) as [r|] eqn:Hws; simpl in Hrun; subst.
  - rewrite <-(insert_id h ws run) at 2 by done.
    rewrite <-(insert_delete_eq h ws), <-(insert_delete_eq h ws run).
    rewrite !map_to_list_insert by apply lookup_delete_eq. simpl. solve_perm.
  - rewrite map_to_list_insert by done. simpl. solve_perm.
Qed.

Lemma all_held_delete h ws run :
  h !! ws = Some run → all_held h ≡ₚ run ++ all_held (delete ws h).
Proof.
  intros Hws. unfold all_held. rewrite <-(insert_id h ws run) at 1 by done.
  rewrite <-(insert_delete_eq h ws).
  by rewrite map_to_list_insert by apply lookup_delete_eq.
Qed.

Lemma all_held_lookup h ws run x :
  h !! ws = Some run → x ∈ run → x ∈ all_held h.
Proof. intros Hws Hx. rewrite (all_held_delete _ _ _ Hws). set_solver. Qed.

Lemma range_from_snoc n : range_from 0 (n + 1) = range_from 0 n ++ [n].
Proof.
  unfold range_from. replace (N.to_nat (n + 1)) with (S (N.to_nat n)) by lia.
  rewrite seq_S, fmap_app. simpl. f_equal. f_equal. lia.
Qed.

Lemma take_seats_spec need fr nx fresh fr' nx' fresh' :
  take_seats need fr nx fresh = (fr', nx', fresh') →
  (nx + N.of_nat (need - length fr) ≤ u32_max)%N →
  nx' = (nx + N.of_nat (need - length fr))%N ∧
  length fresh' = length fresh + need ∧ fresh `prefix_of` fresh' ∧
  ∀ l, l ++ fresh ++ fr ≡ₚ range_from 0 nx → l ++ fresh' ++ fr' ≡ₚ range_from 0 nx'.
Proof.
  unfold u32_max.
  revert fr nx fresh. induction need as [|need IH]; intros fr nx fresh Heq Hle; simpl in *.
  - injection Heq as <- <- <-. split_and!; [lia|lia|done|done].
  - destruct (vec_pop fr) as [[seat fr1]|] eqn:Hpop.
    + apply vec_pop_Some in Hpop as ->. rewrite length_app in *; simpl in *.
      apply IH in Heq as (-> & Hlen & Hpre & Hperm); [|lia].
      rewrite length_app in Hlen; simpl in Hlen. split_and!; [lia|lia| |].
      * by etrans; [|exact Hpre]; apply prefix_app_r.
      * intros l Hl. apply Hperm. rewrite <-Hl. solve_perm.
    + apply vec_pop_None in Hpop as ->. simpl in *.
      rewrite as_u32_small in Heq by lia.
      apply IH in Heq as (-> & Hlen & Hpre & Hperm); simpl; [|lia].
      rewrite length_app in Hlen; simpl in Hlen. split_and!; [lia|lia| |].
      * by etrans; [|exact Hpre]; apply prefix_app_r.
      * intros l Hl. apply Hperm. rewrite range_from_snoc, <-Hl. solve_perm.
Qed.

Lemma length_free b : wf b → (N.of_nat (length (free b)) ≤ next b)%N.
Proof.
  intros Hb. pose proof (Permutation_length (wf_seats _ Hb)) as Hl.
  rewrite length_app, length_range_from in Hl. lia.
Qed.

Lemma length_held b ws run :
  wf b → held b !! ws = Some run → (N.of_nat (length run + length (free b)) ≤ next b)%N.
Proof.
  intros Hb Hws. pose proof (Permutation_length (wf_seats _ Hb)) as Hl.
  rewrite (all_held_delete _ _ _ Hws) in Hl.
  rewrite !length_app, length_range_from in Hl. lia.
Qed.

Lemma clamp_u32_small n : (N.of_nat n ≤ u32_max)%N → clamp_u32 n = N.of_nat n.
Proof. unfold clamp_u32. lia. Qed.

(** The seats of [ws], empty when it has none. *)
Definition held_by (b : SeatBook) (ws : WorkingSetId) : list N := default [] (held b !! ws).

(** Seats a book can still give: freed ones and never issued ones. *)
Definition room (b : SeatBook) : N :=
  (N.of_nat (length (free b)) + (capacity b - next b))%N.

Lemma room_sat b : wf b →
  sat_add u32_max (clamp_u32 (length (free b))) (capacity b - next b) = room b.
Proof.
  intros Hb. pose proof (length_free b Hb). pose proof (wf_next b Hb).
  unfold room, sat_add, clamp_u32. destruct (wf_capacity b Hb); lia.
Qed.

Lemma length_held_by b ws : wf b →
  (N.of_nat (length (held_by b ws) + length (free b)) ≤ next b)%N.
Proof.
  intros Hb. unfold held_by. destruct (held b !! ws) as [run|] eqn:Hws; simpl.
  - by eapply length_held.
  - by apply length_free.
Qed.

(** What [seats] does, with the saturations gone. *)
Lemma seats_grow b ws need fr nx fresh :
  wf b → take_seats need (free b) (next b) [] = (fr, nx, fresh) →
  (capacity b = 0%N ∧ (next b + N.of_nat need ≤ u32_max)%N) ∨
    (capacity b ≠ 0%N ∧ (N.of_nat need ≤ room b)%N) →
  let b' := mkSeatBook (capacity b) fr nx (<[ws := held_by b ws ++ fresh]> (held b)) in
  wf b' ∧ length fresh = need.
Proof.
  intros Hb Htake Hroom b'.
  pose proof (length_free b Hb) as Hfree. pose proof (wf_next b Hb) as Hnext.
  assert (next b + N.of_nat (need - length (free b)) ≤ u32_max ∧
    (capacity b = 0 ∨ next b + N.of_nat (need - length (free b)) ≤ capacity b ≤ u32_max))%N
    as [Hmax Hcap].
  { unfold room in Hroom. destruct (wf_capacity b Hb); lia. }
  apply take_seats_spec in Htake as (-> & Hlen & _ & Hperm); [|done].
  split; [|done]. split; simpl; [|done|].
  - rewrite (all_held_insert (held b) ws (held_by b ws) fresh eq_refl), <-app_assoc.
    apply Hperm. apply (wf_seats _ Hb).
  - destruct Hcap; [by left|right; lia].
Qed.

Lemma wf_disjoint b ws ws' run run' x :
  wf b → held b !! ws = Some run → held b !! ws' = Some run' →
  x ∈ run → x ∈ run' → ws = ws'.
Proof.
  intros Hb Hws Hws' Hx Hx'. destruct (decide (ws = ws')) as [|Hne]; [done|]. exfalso.
  assert (NoDup (all_held (held b) ++ free b)) as Hnd.
  { rewrite (wf_seats _ Hb). apply NoDup_range_from. }
  rewrite (all_held_delete _ _ _ Hws), <-app_assoc in Hnd.
  apply (NoDup_app_disjoint _ _ x Hnd Hx), elem_of_app. left.
  eapply all_held_lookup; [|exact Hx']. by rewrite lookup_delete_ne.
Qed.

(** What [seats] owes its caller: on success [lanes] seats of which those the
    working set already had come first, all other working sets as they were;
    on refusal an untouched book and the numbers that tell why; no panic. *)
Definition seats_contract (b : SeatBook) (ws : WorkingSetId) (lanes : nat)
    (result : outcome SeatError (list N) * SeatBook) : Prop :=
  match result with
  | (Ok run, b') =>
      wf b' ∧ capacity b' = capacity b ∧ length run = lanes ∧ NoDup run ∧
      run `prefix_of` held_by b' ws ∧ held_by b ws `prefix_of` held_by b' ws ∧
      (∀ ws', ws' ≠ ws → held b' !! ws' = held b !! ws') ∧
      ∀ ws' x, ws' ≠ ws → x ∈ held_by b' ws' → x ∉ run
  | (Err (Exhausted need have cap), b') =>
      b' = b ∧ cap = capacity b ∧ have = room b ∧ (have < need)%N ∧
      N.of_nat lanes = (N.of_nat (length (held_by b ws)) + need)%N
  | (Panic, _) => False
  end.

Lemma NoDup_held b ws run : wf b → held b !! ws = Some run → NoDup run.
Proof.
  intros Hb Hws.
  assert (NoDup (all_held (held b) ++ free b)) as Hnd.
  { rewrite (wf_seats _ Hb). apply NoDup_range_from. }
  rewrite (all_held_delete _ _ _ Hws), <-app_assoc in Hnd.
  by apply NoDup_app in Hnd as (Hnd & _).
Qed.

Lemma seats_answer b b' ws lanes run :
  wf b' → capacity b' = capacity b → held b' !! ws = Some run → lanes ≤ length run →
  held_by b ws `prefix_of` run →
  (∀ ws', ws' ≠ ws → held b' !! ws' = held b !! ws') →
  seats_contract b ws lanes (Ok (take lanes run), b').
Proof.
  intros Hb' Hcap Hws Hlen Hpre Hother. unfold seats_contract, held_by.
  rewrite Hws; simpl. rewrite length_take. split_and!; try done; [lia| | |].
  - eapply sublist_NoDup; [by eapply NoDup_held|]. apply sublist_take.
  - apply prefix_take.
  - intros ws' x Hne Hx Htake.
    destruct (held b' !! ws') as [run'|] eqn:Hws'; simpl in Hx; [|set_solver].
    apply Hne. eapply (wf_disjoint b'); [done|exact Hws'|exact Hws|done|].
    by eapply elem_of_prefix; [|apply prefix_take].
Qed.

(** C34. From a well-formed book, [seats] gives a working set as many distinct
    seats as it asks for, the ones it had first and none another working set
    holds, or refuses when the pools have fewer seats left than it needs more,
    leaving the book as it was. *)
Theorem seats_correct b ws lanes :
  wf b → (capacity b ≠ 0%N ∨ (next b + N.of_nat lanes ≤ u32_max)%N) →
  (N.of_nat lanes ≤ u32_max)%N →
  seats_contract b ws lanes (seats ws lanes b).
Proof.
  intros Hb Hcap Hmax. unfold seats. rewrite clamp_u32_small by done.
  case_decide as H0.
  { assert (lanes = 0) as -> by lia. unfold seats_contract. split_and!; try done.
    - apply NoDup_nil_2.
    - apply prefix_nil.
    - intros ws' x _ _ ?%not_elem_of_nil. done. }
  set (have := match held b !! ws with Some run => clamp_u32 (length run) | None => 0%N end).
  assert (have = N.of_nat (length (held_by b ws))) as Hhave.
  { pose proof (length_held_by b ws Hb) as Hl. pose proof (wf_next b Hb).
    unfold have, held_by in *. destruct (held b !! ws); [|done]. simpl in *.
    apply clamp_u32_small. lia. }
  rewrite Hhave, Nat2N.id, room_sat by done. clear have Hhave.
  case_decide as Hneed; [case_decide as Hroom|].
  - destruct Hroom as [Hc Hroom]. unfold seats_contract. split_and!; try done. lia.
  - destruct (take_seats _ _ _ _) as [[fr nx] fresh] eqn:Htake; simpl.
    destruct (seats_grow b ws _ _ _ _ Hb Htake) as [Hb' Hlen].
    { destruct (decide (capacity b = 0%N)); [left|right; split; [done|lia]].
      split; [done|]. lia. }
    rewrite lookup_insert_eq, length_app. fold (held_by b ws).
    rewrite decide_True by lia.
    apply seats_answer; simpl; [done..| | | |].
    + by rewrite lookup_insert_eq.
    + rewrite length_app. lia.
    + by apply prefix_app_r.
    + intros ws' Hne. by rewrite lookup_insert_ne.
  - destruct (held b !! ws) as [run|] eqn:Hws; [|unfold held_by in Hneed; rewrite Hws in Hneed; simpl in Hneed; lia].
    unfold held_by in Hneed. rewrite Hws in Hneed; simpl in Hneed.
    rewrite decide_True by lia.
    apply seats_answer; [done|done|done|lia| |done].
    unfold held_by. by rewrite Hws.
Qed.

Lemma release_wf b ws : wf b → wf (release b ws).
Proof.
  intros Hb. unfold release. destruct (held b !! ws) as [run|] eqn:Hws; [|done].
  split; simpl; [|apply Hb..]. rewrite <-(wf_seats _ Hb), (all_held_delete _ _ _ Hws).
  solve_perm.
Qed.

Lemma wf_new capacity : (capacity ≤ u32_max)%N → wf (new capacity).
Proof. intros Hc. split; simpl; [done|lia|right; lia]. Qed.

(** Releasing a working set gives back exactly the seats it held: they can
    be given again, and everyone else's stay theirs. Releasing again does
    nothing. *)
Theorem release_correct b ws :
  wf b →
  wf (release b ws) ∧ held_by (release b ws) ws = [] ∧
  room (release b ws) = (room b + N.of_nat (length (held_by b ws)))%N ∧
  (∀ ws', ws' ≠ ws → held (release b ws) !! ws' = held b !! ws') ∧
  release (release b ws) ws = release b ws.
Proof.
  intros Hb. pose proof (release_wf b ws Hb) as Hwf. split; [done|].
  unfold release, held_by, room in *. destruct (held b !! ws) as [run|] eqn:Hws; simpl in *.
  - rewrite lookup_delete_eq, length_app. split_and!; [done|lia| |done].
    intros ws' Hne. by rewrite lookup_delete_ne.
  - rewrite Hws. split_and!; [done|lia|done|done].
Qed.

(** ** Witnesses *)

Definition ws (n : N) : WorkingSetId := mkGenKey n 0.
Definition sample : SeatBook := mkSeatBook 4 [1%N] 3 {[ ws 0 := [0; 2]%N ]}.

Lemma sample_wf : wf sample.
Proof.
  split; [|vm_compute; done|right; split; vm_compute; done].
  vm_compute. apply Permutation_skip, Permutation_swap.
Defined.

Lemma seats_correct_witness :
  seats (ws 1) 2 sample =
    (Ok [1; 3]%N, mkSeatBook 4 [] 4 (<[ws 1 := [1; 3]%N]> (held sample))) ∧
  seats_contract sample (ws 1) 2 (seats (ws 1) 2 sample).
Proof.
  split; [by vm_compute|].
  apply seats_correct; [apply sample_wf|by left|by vm_compute].
Defined.

Lemma release_correct_witness : room (release sample (ws 0)) = 4%N.
Proof.
  by destruct (release_correct sample (ws 0) sample_wf) as (_ & _ & -> & _).
Defined.
End Seat.
