(* ===== verification/Runs.v ===== *)
(** Runs of page indices ([Range<u32>] lists) and the helpers at the end of
    [crates/runtime/src/store/kv/page_table.rs]: length, offset, slice, union,
    cover and coalescing push. A run is a pair of its [start] and [end]; the
    casts of the code are of values below the length of a run, which fits a
    [u32], so none of them truncates. *)
From S2P Require Import Prelude.

Module Runs.

Abbreviation run := (nat * nat)%type.
Abbreviation runs := (list (nat * nat)).

Definition runs_len (rs : runs) : nat := sum_list ((λ r, r.2 - r.1) <$> rs).

(** [None] is the [unreachable!] past the last run. *)
Fixpoint runs_offset (rs : runs) (i : nat) : option nat :=
  match rs with
  | [] => None
  | r :: rs =>
      let len := r.2 - r.1 in
      if decide (i < len) then Some (r.1 + i) else runs_offset rs (i - len)
  end.

Definition push_coalesced (out : runs) (r : run) : runs :=
  match last out with
  | Some l =>
      if decide (l.2 = r.1) then take (length out - 1) out ++ [(l.1, r.2)] else out ++ [r]
  | None => out ++ [r]
  end.

(** The loop of [runs_slice], at position [pos] of the selection. *)
Fixpoint slice_loop (rs : runs) (lo_ hi_ pos : nat) (out : runs) : runs :=
  match rs with
  | [] => out
  | r :: rs =>
      let len := r.2 - r.1 in
      let lo := lo_ `max` pos in
      let hi := hi_ `min` (pos + len) in
      slice_loop rs lo_ hi_ (pos + len)
        (if decide (lo < hi) then push_coalesced out (r.1 + (lo - pos), r.1 + (hi - pos))
         else out)
  end.

Definition runs_slice (rs : runs) (sel : nat * nat) : runs :=
  slice_loop rs sel.1 sel.2 0 [].

Definition is_empty (r : run) : bool := bool_decide (r.2 ≤ r.1).

Definition start_le (r r' : run) : Prop := r.1 ≤ r'.1.
#[global] Instance start_le_dec r r' : Decision (start_le r r').
Proof. unfold start_le. apply _. Defined.

(** One turn of the loop of [union]. *)
Definition merge_step (merged : runs) (r : run) : runs :=
  match last merged with
  | Some l =>
      if decide (r.1 ≤ l.2) then take (length merged - 1) merged ++ [(l.1, l.2 `max` r.2)]
      else merged ++ [r]
  | None => merged ++ [r]
  end.

(** [sort_unstable_by_key] leaves the order of runs with one start open;
    [union_canonical] shows that the result does not depend on it. *)
Definition union (rs : runs) : runs :=
  foldl merge_step [] (merge_sort start_le (filter (λ r, negb (is_empty r)) rs)).

Definition covers (read rs : runs) : bool :=
  let read := union read in
  forallb (λ r, existsb (λ m, bool_decide (m.1 ≤ r.1) && bool_decide (r.2 ≤ m.2)) read)
    (filter (λ r, negb (is_empty r)) rs).

(** ** Meaning *)

(** The indices runs name, in order. *)
Definition expand (rs : runs) : list nat := concat ((λ r, seq r.1 (r.2 - r.1)) <$> rs).

Definition covered (rs : runs) (x : nat) : Prop := ∃ r, r ∈ rs ∧ r.1 ≤ x < r.2.

(** Sorted, no run empty, and a gap between any two. *)
Record normal (rs : runs) : Prop := {
  normal_sorted : StronglySorted (λ r r', r.2 < r'.1) rs;
  normal_nonempty : Forall (λ r, r.1 < r.2) rs;
}.

(** ** Lemmas *)

Lemma expand_cons r rs : expand (r :: rs) = seq r.1 (r.2 - r.1) ++ expand rs.
Proof. done. Qed.

Lemma expand_app rs rs' : expand (rs ++ rs') = expand rs ++ expand rs'.
Proof. unfold expand. by rewrite fmap_app, concat_app. Qed.

Lemma elem_of_expand rs x : x ∈ expand rs ↔ covered rs x.
Proof.
  induction rs as [|r rs IH].
  - split; [by intros ?%not_elem_of_nil|by intros (r & ?%not_elem_of_nil & _)].
  - rewrite expand_cons, elem_of_app, IH, elem_of_seq. split.
    + intros [Hx|(r' & Hr' & Hx)]; [exists r|exists r']; (split; [rewrite elem_of_cons; auto|lia]).
    + intros (r' & [->|Hr']%elem_of_cons & Hx); [left; lia|right; by exists r'].
Qed.

Lemma length_expand rs : length (expand rs) = runs_len rs.
Proof.
  unfold runs_len. induction rs as [|r rs IH]; [done|].
  rewrite expand_cons, length_app, length_seq, IH. done.
Qed.

Lemma runs_offset_lookup rs i : runs_offset rs i = expand rs !! i.
Proof.
  revert i. induction rs as [|r rs IH]; intros i; [done|].
  rewrite expand_cons. simpl. case_decide as Hi.
  - rewrite lookup_app_l by by rewrite length_seq. by rewrite lookup_seq_lt.
  - rewrite lookup_app_r, length_seq by (rewrite length_seq; lia). apply IH.
Qed.

Lemma push_coalesced_expand out r :
  r.1 ≤ r.2 → Forall (λ r, r.1 ≤ r.2) out →
  expand (push_coalesced out r) = expand out ++ seq r.1 (r.2 - r.1) ∧
  Forall (λ r, r.1 ≤ r.2) (push_coalesced out r).
Proof.
  intros Hr Hout. unfold push_coalesced.
  assert (Hpush : expand (out ++ [r]) = expand out ++ seq r.1 (r.2 - r.1) ∧
    Forall (λ r, r.1 ≤ r.2) (out ++ [r])).
  { rewrite expand_app. split; [by rewrite expand_cons, app_nil_r|].
    apply Forall_app. by split; [|constructor]. }
  destruct (last out) as [l|] eqn:Hl; [|done]. case_decide as Heq; [|done].
  pose proof (last_take_snoc _ _ Hl) as Hsplit. rewrite Hsplit in Hout.
  apply Forall_app in Hout as [Hinit [Hlast _]%Forall_cons].
  rewrite Hsplit at 3. rewrite !expand_app, <-app_assoc.
  rewrite !expand_cons; simpl. rewrite !app_nil_r. split.
  - f_equal. rewrite <-Heq at 1.
    replace (r.2 - l.1) with ((l.2 - l.1) + (r.2 - r.1)) by lia.
    rewrite seq_app. do 2 f_equal. lia.
  - apply Forall_app. split; [done|]. constructor; [simpl; lia|done].
Qed.

Lemma slice_loop_expand rs lo hi pos out :
  lo ≤ hi → Forall (λ r, r.1 ≤ r.2) rs → Forall (λ r, r.1 ≤ r.2) out →
  expand (slice_loop rs lo hi pos out) =
    expand out ++ take (hi - (lo `max` pos)) (drop (lo - pos) (expand rs)) ∧
  Forall (λ r, r.1 ≤ r.2) (slice_loop rs lo hi pos out).
Proof.
  intros Hle Hrs. revert pos out. induction Hrs as [|r rs Hr _ IH]; intros pos out Hout.
  { simpl. change (expand []) with (@nil nat). by rewrite drop_nil, take_nil, app_nil_r. }
  rewrite expand_cons; simpl. set (len := r.2 - r.1).
  rewrite drop_app, length_seq, drop_seq, take_app, length_seq, take_seq.
  case_decide as Hlt.
  - destruct (push_coalesced_expand out
      (r.1 + (lo `max` pos - pos), r.1 + (hi `min` (pos + len) - pos))) as [Hexp Hwf];
      [simpl; lia|done|].
    destruct (IH (pos + len) _ Hwf) as [-> ?]. split; [|done].
    rewrite Hexp; simpl. rewrite <-app_assoc. f_equal. f_equal; [f_equal; lia|].
    f_equal; [lia|]. f_equal. lia.
  - destruct (IH (pos + len) _ Hout) as [-> ?]. split; [|done]. f_equal.
    replace ((hi - lo `max` pos) `min` (len - (lo - pos))) with 0 by lia; simpl.
    destruct (decide (hi ≤ pos)) as [?|?].
    + replace (hi - lo `max` (pos + len)) with 0 by lia.
      by replace (hi - lo `max` pos - (len - (lo - pos))) with 0 by lia.
    + f_equal; [lia|]. f_equal. lia.
Qed.

Lemma covered_nil x : ¬ covered [] x.
Proof. by intros (r & ?%not_elem_of_nil & _). Qed.

Lemma covered_cons r rs x : covered (r :: rs) x ↔ r.1 ≤ x < r.2 ∨ covered rs x.
Proof.
  unfold covered. split.
  - intros (r' & [->|Hr']%elem_of_cons & Hx); [by left|right; by exists r'].
  - intros [Hx|(r' & Hr' & Hx)]; [exists r|exists r']; (split; [set_solver|done]).
Qed.

Lemma covered_app rs rs' x : covered (rs ++ rs') x ↔ covered rs x ∨ covered rs' x.
Proof. unfold covered. setoid_rewrite elem_of_app. naive_solver. Qed.

Lemma covered_Permutation rs rs' x : rs ≡ₚ rs' → covered rs x ↔ covered rs' x.
Proof. intros Hp. unfold covered. by setoid_rewrite Hp. Qed.

Lemma covered_filter rs x :
  covered (filter (λ r, negb (is_empty r)) rs) x ↔ covered rs x.
Proof.
  unfold covered, is_empty. setoid_rewrite list_elem_of_filter.
  split; [naive_solver|]. intros (r & Hr & Hx). exists r. split_and!; [|done|lia..].
  apply Is_true_true, negb_true_iff, bool_decide_eq_false. lia.
Qed.

Lemma normal_nil : normal [].
Proof. split; constructor. Qed.

Lemma normal_snoc rs r :
  normal (rs ++ [r]) ↔ normal rs ∧ r.1 < r.2 ∧ ∀ r', r' ∈ rs → r'.2 < r.1.
Proof.
  split.
  - intros [Hs Hn]. apply StronglySorted_app in Hs as (Hlt & Hs & _).
    apply Forall_app in Hn as [Hn [Hr _]%Forall_cons].
    split_and!; [by split|done|]. intros r' Hr'. apply Hlt; set_solver.
  - intros ([Hs Hn] & Hr & Hlt). split.
    + apply StronglySorted_app. split_and!; [|done|repeat constructor].
      intros r1 r2 H1 ->%list_elem_of_singleton. by apply Hlt.
    + apply Forall_app. split; [done|by constructor].
Qed.

(** The loop invariant of [union]. *)
Lemma merge_step_spec merged r :
  normal merged → r.1 < r.2 → (∀ l, last merged = Some l → l.1 ≤ r.1) →
  normal (merge_step merged r) ∧
  (∀ x, covered (merge_step merged r) x ↔ covered merged x ∨ r.1 ≤ x < r.2) ∧
  ∃ l, last (merge_step merged r) = Some l ∧ l.1 ≤ r.1.
Proof.
  intros Hm Hr Hlast. unfold merge_step.
  assert (Hcov : ∀ m x, covered (m ++ [r]) x ↔ covered m x ∨ r.1 ≤ x < r.2).
  { intros m x. rewrite covered_app, covered_cons.
    pose proof (covered_nil x). naive_solver. }
  destruct (last merged) as [l|] eqn:Hl.
  - specialize (Hlast l eq_refl). pose proof (last_take_snoc _ _ Hl) as Hsplit.
    set (init := take (length merged - 1) merged) in *. clearbody init.
    subst merged. apply normal_snoc in Hm as (Hm & Hl' & Hlt).
    case_decide as Hle.
    + split_and!.
      * apply normal_snoc; simpl. split_and!; [done|lia|done].
      * intros x. rewrite !covered_app, !covered_cons; simpl.
        pose proof (covered_nil x). split; [|naive_solver lia].
        intros [?|[?|?]]; [by auto| |done].
        destruct (decide (x < l.2)); [left; right; left; lia|right; lia].
      * eexists. by rewrite last_snoc.
    + split_and!; [|done|eexists; by rewrite last_snoc].
      apply normal_snoc. split_and!; [by apply normal_snoc|done|].
      intros r' [Hr'| ->%list_elem_of_singleton]%elem_of_app; [|lia].
      specialize (Hlt r' Hr'). lia.
  - apply last_None in Hl. subst. split_and!; [|done|by eexists].
    apply (normal_snoc [] r). split_and!; [done|done|].
    by intros r' ?%not_elem_of_nil.
Qed.

Lemma merge_fold_spec rs merged :
  normal merged → StronglySorted start_le rs → Forall (λ r, r.1 < r.2) rs →
  (∀ l r, last merged = Some l → r ∈ rs → l.1 ≤ r.1) →
  normal (foldl merge_step merged rs) ∧
  ∀ x, covered (foldl merge_step merged rs) x ↔ covered merged x ∨ covered rs x.
Proof.
  intros Hm Hs Hn. revert merged Hm. induction Hs as [|r rs Hs IH Hmin]; intros merged Hm Hl.
  - simpl. split; [done|]. intros x. pose proof (covered_nil x). naive_solver.
  - simpl. apply Forall_cons in Hn as [Hr Hn].
    destruct (merge_step_spec merged r Hm Hr) as (Hm' & Hcov & l & Hlast & Hle).
    { intros l Hl'. apply Hl; set_solver. }
    destruct (IH Hn _ Hm') as [Hres Hcov'].
    { intros l' r' Hl' Hr'. rewrite Hlast in Hl'. injection Hl' as <-.
      rewrite Forall_forall in Hmin. specialize (Hmin r' Hr'). unfold start_le in Hmin. lia. }
    split; [done|]. intros x. rewrite Hcov', Hcov, covered_cons. naive_solver.
Qed.

#[global] Instance start_le_trans : Transitive start_le.
Proof. intros x y z. unfold start_le. lia. Qed.
#[global] Instance start_le_total : Total start_le.
Proof. intros x y. unfold start_le. lia. Qed.

Lemma union_spec rs : normal (union rs) ∧ ∀ x, covered (union rs) x ↔ covered rs x.
Proof.
  unfold union. set (rs' := filter _ rs).
  destruct (merge_fold_spec (merge_sort start_le rs') []) as [Hn Hc].
  - apply normal_nil.
  - apply StronglySorted_merge_sort; apply _.
  - rewrite merge_sort_Permutation. apply Forall_forall.
    intros r [Hr _]%list_elem_of_filter. unfold is_empty in Hr.
    apply Is_true_true, negb_true_iff, bool_decide_eq_false in Hr. lia.
  - done.
  - split; [done|]. intros x. rewrite Hc.
    rewrite (covered_Permutation (merge_sort _ _) rs') by apply merge_sort_Permutation.
    unfold rs'. rewrite covered_filter. pose proof (covered_nil x). naive_solver.
Qed.

Lemma normal_cons_inv r rs :
  normal (r :: rs) → normal rs ∧ r.1 < r.2 ∧ ∀ x, covered rs x → r.2 < x.
Proof.
  intros [[Hlt Hs]%StronglySorted_cons [Hr Hn]%Forall_cons].
  split_and!; [by split|done|]. intros x (r' & Hr' & Hx).
  rewrite Forall_forall in Hlt. specialize (Hlt r' Hr'). lia.
Qed.

(** Runs in normal form are determined by what they cover. *)
Lemma normal_unique rs rs' :
  normal rs → normal rs' → (∀ x, covered rs x ↔ covered rs' x) → rs = rs'.
Proof.
  revert rs'. induction rs as [|r rs IH]; intros [|r' rs'] Hn Hn' Hcov.
  - done.
  - apply normal_cons_inv in Hn' as (_ & Hr & _). exfalso.
    apply (covered_nil (r'.1)), Hcov, covered_cons. left. lia.
  - apply normal_cons_inv in Hn as (_ & Hr & _). exfalso.
    apply (covered_nil (r.1)), Hcov, covered_cons. left. lia.
  - apply normal_cons_inv in Hn as (Hn & Hr & Hgt).
    apply normal_cons_inv in Hn' as (Hn' & Hr' & Hgt').
    setoid_rewrite covered_cons in Hcov.
    assert (Hcase : ∀ x, r.1 ≤ x < r.2 ∨ r.2 < x ∨ x < r.1 ∨ x = r.2) by (intros; lia).
    assert (r.1 = r'.1) as H1.
    { assert (r'.1 ≤ r.1) by (destruct (proj1 (Hcov r.1)) as [?|?%Hgt']; [left; lia|lia..]).
      assert (r.1 ≤ r'.1) by (destruct (proj2 (Hcov r'.1)) as [?|?%Hgt]; [left; lia|lia..]).
      lia. }
    assert (r.2 = r'.2) as H2.
    { destruct (decide (r.2 < r'.2)).
      { destruct (proj2 (Hcov r.2)) as [?|?%Hgt]; [left; lia|lia..]. }
      destruct (decide (r'.2 < r.2)); [|lia].
      destruct (proj1 (Hcov r'.2)) as [?|?%Hgt']; [left; lia|lia..]. }
    f_equal; [destruct r, r'; simpl in *; congruence|].
    apply IH; [done..|]. intros x. split; intros Hx.
    + destruct (proj1 (Hcov x)) as [?|?]; [by right| |done]. apply Hgt in Hx. lia.
    + destruct (proj2 (Hcov x)) as [?|?]; [by right| |done]. apply Hgt' in Hx. lia.
Qed.

(** An interval that normal runs cover lies in one of them. *)
Lemma normal_interval rs s e :
  normal rs → s < e → (∀ x, s ≤ x < e → covered rs x) →
  ∃ m, m ∈ rs ∧ m.1 ≤ s ∧ e ≤ m.2.
Proof.
  induction rs as [|r rs IH]; intros Hn Hse Hcov.
  { destruct (covered_nil s). apply Hcov. lia. }
  apply normal_cons_inv in Hn as (Hn & Hr & Hgt).
  setoid_rewrite covered_cons in Hcov.
  destruct (decide (r.1 ≤ s < r.2)) as [Hs|Hs].
  - exists r. split_and!; [set_solver|lia|].
    destruct (decide (e ≤ r.2)) as [|He]; [done|].
    destruct (Hcov r.2) as [?|?%Hgt]; lia.
  - assert (r.2 < s) as Hlt.
    { destruct (Hcov s) as [?|?%Hgt]; lia. }
    destruct IH as (m & Hm & Hin); [done|done| |exists m; split; [set_solver|done]].
    intros x Hx. destruct (Hcov x) as [?|?]; [lia|lia|done].
Qed.

Lemma normal_NoDup rs : normal rs → NoDup (expand rs).
Proof.
  induction rs as [|r rs IH]; intros Hn; [apply NoDup_nil_2|].
  apply normal_cons_inv in Hn as (Hn & Hr & Hgt).
  rewrite expand_cons. apply NoDup_app. split_and!; [apply NoDup_seq| |by apply IH].
  intros x Hx%elem_of_seq Hx'%elem_of_expand%Hgt. lia.
Qed.

(** ** Prefix selections *)

(** A run of [off] pages from the first. *)
Definition prefix_run (r : run) : Prop := r.1 = 0 ∧ 0 < r.2.

Lemma expand_prefix k : expand [(0, k)] = seq 0 k.
Proof. rewrite expand_cons. simpl. change (expand []) with (@nil nat). by rewrite app_nil_r, Nat.sub_0_r. Qed.

Lemma runs_len_prefix k : runs_len [(0, k)] = k.
Proof. unfold runs_len. simpl. lia. Qed.

(** The union of prefixes is the longest of them. *)
Lemma union_prefixes rs :
  rs ≠ [] → Forall prefix_run rs →
  ∃ k, union rs = [(0, k)] ∧ (0, k) ∈ rs ∧ 0 < k ∧ Forall (λ r, r.2 ≤ k) rs.
Proof.
  intros Hne Hrs.
  assert (∃ k, (0, k) ∈ rs ∧ Forall (λ r, r.2 ≤ k) rs) as (k & Hk & Hle).
  { clear -Hne Hrs. induction Hrs as [|[a b] rs [Ha Hb] Hrs IH]; [done|]. simpl in *. subst.
    destruct rs as [|r rs]; [exists b; split; [set_solver|by repeat constructor]|].
    destruct IH as (k & Hk & Hle); [done|]. destruct (decide (b ≤ k)).
    - exists k. split; [set_solver|]. by constructor.
    - exists b. split; [set_solver|]. constructor; [done|].
      eapply Forall_impl; [done|]. simpl. lia. }
  assert (0 < k) as Hpos by (rewrite Forall_forall in Hrs; by apply (Hrs (0, k))).
  exists k. split_and!; [|done..]. destruct (union_spec rs) as [Hn Hc].
  apply normal_unique; [done|by repeat constructor|].
  intros x. rewrite Hc, covered_cons. simpl. pose proof (covered_nil x). split.
  - intros (r & Hr & Hx). left. rewrite Forall_forall in Hle. specialize (Hle r Hr). lia.
  - intros [Hx|?]; [|done]. exists (0, k). done.
Qed.

Lemma runs_slice_prefix k j : 0 < j ≤ k → runs_slice [(0, k)] (0, j) = [(0, j)].
Proof.
  intros Hj. unfold runs_slice. simpl. rewrite decide_True by lia.
  unfold push_coalesced. simpl. do 2 f_equal. lia.
Qed.

(** ** Theorems *)

(** [union] gives the normal form of what it is given: sorted, non-empty
    runs with gaps between them that name the same indices. Two lists that
    name the same indices have the same union, so the order in which the
    unstable sort leaves equal starts does not matter. *)
Theorem union_canonical rs rs' :
  normal (union rs) ∧ (∀ x, x ∈ expand (union rs) ↔ x ∈ expand rs) ∧
  NoDup (expand (union rs)) ∧
  ((∀ x, x ∈ expand rs ↔ x ∈ expand rs') ↔ union rs = union rs').
Proof.
  destruct (union_spec rs) as [Hn Hc], (union_spec rs') as [Hn' Hc'].
  setoid_rewrite elem_of_expand.
  split_and!; [done|done|by apply normal_NoDup|]. split.
  - intros Heq. apply normal_unique; [done..|]. intros x. by rewrite Hc, Hc'.
  - intros Heq x. by rewrite <-Hc, <-Hc', Heq.
Qed.

(** [covers] decides whether every index one list of runs names is named by
    another. *)
Theorem covers_correct read rs :
  covers read rs = true ↔ ∀ x, x ∈ expand rs → x ∈ expand read.
Proof.
  destruct (union_spec read) as [Hn Hc]. setoid_rewrite elem_of_expand.
  unfold covers. rewrite forallb_forall. split.
  - intros Hall x (r & Hr & Hx). apply Hc.
    specialize (Hall r). rewrite <-list_elem_of_In in Hall.
    rewrite list_elem_of_filter in Hall.
    destruct (proj1 (existsb_exists _ _) (Hall ltac:(split; [|done];
      unfold is_empty; rewrite bool_decide_eq_false_2 by lia; done))) as (m & Hm & Hin).
    apply andb_true_iff in Hin as [H1%bool_decide_eq_true H2%bool_decide_eq_true].
    exists m. split; [by apply list_elem_of_In|lia].
  - intros Hcov r [Hne Hr]%list_elem_of_In%list_elem_of_filter.
    apply Is_true_true, negb_true_iff, bool_decide_eq_false in Hne.
    destruct (normal_interval (union read) r.1 r.2) as (m & Hm & H1 & H2); [done|lia| |].
    { intros x Hx. apply Hc, Hcov. by exists r. }
    apply existsb_exists. exists m. split; [by apply list_elem_of_In|].
    by rewrite !bool_decide_eq_true_2.
Qed.

(** [runs_slice] selects: the slice names the indices at the selected
    positions, in order, [runs_len] counts them and [runs_offset] reads the
    slice as it reads the runs, displaced. *)
Theorem runs_slice_correct rs lo hi :
  Forall (λ r, r.1 ≤ r.2) rs → lo ≤ hi ≤ runs_len rs →
  expand (runs_slice rs (lo, hi)) = take (hi - lo) (drop lo (expand rs)) ∧
  runs_len (runs_slice rs (lo, hi)) = hi - lo ∧
  (∀ i, i < hi - lo → is_Some (runs_offset rs (lo + i)) ∧
     runs_offset (runs_slice rs (lo, hi)) i = runs_offset rs (lo + i)) ∧
  Forall (λ r, r.1 ≤ r.2) (runs_slice rs (lo, hi)).
Proof.
  intros Hrs Hle. unfold runs_slice.
  destruct (slice_loop_expand rs lo hi 0 [] ltac:(lia) Hrs ltac:(constructor)) as [Hexp Hwf].
  simpl in *. rewrite Nat.max_0_r, Nat.sub_0_r in Hexp.
  split_and!; [done| | |done].
  - rewrite <-length_expand, Hexp, length_take, length_drop, length_expand. lia.
  - intros i Hi. rewrite !runs_offset_lookup, Hexp. split.
    + apply lookup_lt_is_Some. rewrite length_expand. lia.
    + by rewrite lookup_take_lt, lookup_drop.
Qed.

(** ** Witnesses *)

Lemma runs_slice_correct_witness :
  runs_slice [(4, 7); (9, 12)] (2, 5) = [(6, 7); (9, 11)] ∧
  expand (runs_slice [(4, 7); (9, 12)] (2, 5)) = [6; 9; 10].
Proof.
  split; [by vm_compute|].
  refine (proj1 (runs_slice_correct [(4, 7); (9, 12)] 2 5 _ _)).
  - repeat constructor; simpl; lia.
  - vm_compute. lia.
Defined.
End Runs.
