(* ===== verification/KvTable.v ===== *)
(** The page table of the KV store
    ([crates/runtime/src/store/kv/page_table.rs]): working sets and the trie of
    pages they share. Every method is written here as the code has it, over
    the interface of [Store.v] for the two generational maps; [None] from a
    function that answers an option is a panic ([expect], an index out of
    range, an [unreachable!]). Counts and page indices are [nat]; the words
    that a caller can overflow are wrapped where the code adds to them. The
    loops that follow [parent] links take their fuel from the number of nodes,
    and [KvTrie.v] proves that to be enough. *)
From S2P Require Import Prelude Ids Store Runs.

Module KvTable.
Import Runs.

(** ** Data *)

(** A content hash, of 32 bytes: only its equality matters here. *)
Abbreviation Hash256 := N.
(** [ProcessId], a uuid. *)
Abbreviation ProcessId := N.

Inductive KvPageBacking : Type :=
  | Resident (id : PhysicalKvPageId)
  | Swapped (slot : HostKvSlotId)
  | OnDisk (slot : DiskKvSlotId).

#[export] Instance KvPageBacking_eq_dec : EqDecision KvPageBacking.
Proof. solve_decision. Defined.

Inductive NoReclaim : Type := HoldsNothing | AllShared | AllSwapped.
Inductive ReclaimQuote : Type := QPages (pages : N) | QNothing (why : NoReclaim).

Record TriePageLocation : Type := mkLoc { loc_node : NodeId; loc_local : nat }.

#[export] Instance TriePageLocation_eq_dec : EqDecision TriePageLocation.
Proof. solve_decision. Defined.
#[export] Program Instance TriePageLocation_countable : Countable TriePageLocation :=
  inj_countable (λ l, (loc_node l, loc_local l)) (λ '(n, i), Some (mkLoc n i)) _.
Next Obligation. by intros []. Qed.

Record PublishedPage : Type := mkPublished {
  pp_id : PhysicalKvPageId;
  pp_token_hashes : list (option Hash256);
  pp_page_hash : option Hash256;
}.

Inductive Pages : Type :=
  | Owned (backings : list KvPageBacking) (token_hashes : list (list (option Hash256)))
      (page_hashes : list (option Hash256))
  | ParentSelection (rs : runs).

Record KvTrieNode : Type := mkNode {
  parent : option NodeId;
  children : list NodeId;
  pages : Pages;
  exact_anchors : nat;
  path_anchors : nat;
}.

Record WorkingSetEntry : Type := mkEntry {
  terminal : option NodeId;
  page_len : nat;
  mapped_len : nat;
  suspended : bool;
  folded : N;
  prompt_pages : nat;
  owner : option ProcessId;
  supplied : N;
  logged_ : list N;
  pending : gmap N N;
}.

(** [WorkingSetEntry::new]. *)
Definition new_entry (terminal : option NodeId) (page_len mapped_len : nat) : WorkingSetEntry :=
  mkEntry terminal page_len mapped_len false 0 0 None 0 [] ∅.

Record KeptPath : Type := mkKept { kept_terminal : NodeId; kept_pages : nat }.

Inductive KvTableError : Type :=
  | UnknownWorkingSet
  | Unwritten (index mapped_len : nat)
  | BadRange (start end_ mapped_len page_len : nat)
  | PublishExceedsReservation (count mapped_len page_len : nat)
  | NonResident (index : nat)
  | BackingChanged.

#[export] Instance KvTableError_eq_dec : EqDecision KvTableError.
Proof. solve_decision. Defined.

(** The owned backings of a node. *)
Definition owned_backings (p : Pages) : list KvPageBacking :=
  match p with Owned backings _ _ => backings | ParentSelection _ => [] end.

Definition is_owned (p : Pages) : bool :=
  match p with Owned _ _ _ => true | ParentSelection _ => false end.

Record Segment : Type := mkSegment { seg_node : NodeId; seg_start : Z; seg_len : nat }.

Definition seg_end (s : Segment) : Z := (seg_start s + Z.of_nat (seg_len s))%Z.

(** [NODE_COPIES]. *)
Definition node_copies : nat := 4.

(** [page_len += pages] on a [u64]. *)
Definition wrap64 (n : nat) : nat := N.to_nat (as_u64 (N.of_nat n)).

(** ** Field updates *)

Definition with_children (e : KvTrieNode) (c : list NodeId) : KvTrieNode :=
  mkNode (parent e) c (pages e) (exact_anchors e) (path_anchors e).
Definition with_pages (e : KvTrieNode) (p : Pages) : KvTrieNode :=
  mkNode (parent e) (children e) p (exact_anchors e) (path_anchors e).
Definition with_exact (e : KvTrieNode) (n : nat) : KvTrieNode :=
  mkNode (parent e) (children e) (pages e) n (path_anchors e).
Definition with_path (e : KvTrieNode) (n : nat) : KvTrieNode :=
  mkNode (parent e) (children e) (pages e) (exact_anchors e) n.

Definition with_terminal (e : WorkingSetEntry) (t : option NodeId) : WorkingSetEntry :=
  mkEntry t (page_len e) (mapped_len e) (suspended e) (folded e) (prompt_pages e) (owner e)
    (supplied e) (logged_ e) (pending e).
Definition with_lens (e : WorkingSetEntry) (page_len mapped_len : nat) : WorkingSetEntry :=
  mkEntry (terminal e) page_len mapped_len (suspended e) (folded e) (prompt_pages e) (owner e)
    (supplied e) (logged_ e) (pending e).
Definition with_suspended (e : WorkingSetEntry) (b : bool) : WorkingSetEntry :=
  mkEntry (terminal e) (page_len e) (mapped_len e) b (folded e) (prompt_pages e) (owner e)
    (supplied e) (logged_ e) (pending e).
Definition with_folded (e : WorkingSetEntry) (n : N) : WorkingSetEntry :=
  mkEntry (terminal e) (page_len e) (mapped_len e) (suspended e) n (prompt_pages e) (owner e)
    (supplied e) (logged_ e) (pending e).
Definition with_prompt (e : WorkingSetEntry) (n : nat) : WorkingSetEntry :=
  mkEntry (terminal e) (page_len e) (mapped_len e) (suspended e) (folded e) n (owner e)
    (supplied e) (logged_ e) (pending e).
Definition with_owner (e : WorkingSetEntry) (o : option ProcessId) : WorkingSetEntry :=
  mkEntry (terminal e) (page_len e) (mapped_len e) (suspended e) (folded e) (prompt_pages e) o
    (supplied e) (logged_ e) (pending e).
Definition with_supplied (e : WorkingSetEntry) (n : N) : WorkingSetEntry :=
  mkEntry (terminal e) (page_len e) (mapped_len e) (suspended e) (folded e) (prompt_pages e)
    (owner e) n (logged_ e) (pending e).
Definition with_log (e : WorkingSetEntry) (l : list N) (p : gmap N N) : WorkingSetEntry :=
  mkEntry (terminal e) (page_len e) (mapped_len e) (suspended e) (folded e) (prompt_pages e)
    (owner e) (supplied e) l p.

Section table.
Context {WS NS : Type → Type} `{!KeyedStore WorkingSetId WS, !KeyedStore NodeId NS}.

Record KvPageTable : Type := mkTable {
  working_sets : WS WorkingSetEntry;
  nodes : NS KvTrieNode;
  cache_roots : gmap NodeId N;
  pins : gmap NodeId N;
  swap_locations : gset TriePageLocation;
  node_starts : gmap Hash256 (list NodeId);
}.

Implicit Types t : KvPageTable.

Definition new : KvPageTable := mkTable st_new st_new ∅ ∅ ∅ ∅.

Definition set_working_sets t x : KvPageTable :=
  mkTable x (nodes t) (cache_roots t) (pins t) (swap_locations t) (node_starts t).
Definition set_nodes t x : KvPageTable :=
  mkTable (working_sets t) x (cache_roots t) (pins t) (swap_locations t) (node_starts t).
Definition set_cache_roots t x : KvPageTable :=
  mkTable (working_sets t) (nodes t) x (pins t) (swap_locations t) (node_starts t).
Definition set_pins t x : KvPageTable :=
  mkTable (working_sets t) (nodes t) (cache_roots t) x (swap_locations t) (node_starts t).
Definition set_swap_locations t x : KvPageTable :=
  mkTable (working_sets t) (nodes t) (cache_roots t) (pins t) x (node_starts t).
Definition set_node_starts t x : KvPageTable :=
  mkTable (working_sets t) (nodes t) (cache_roots t) (pins t) (swap_locations t) x.

Definition node t (n : NodeId) : option KvTrieNode := st_get (nodes t) n.
Definition put_node t (n : NodeId) (e : KvTrieNode) : KvPageTable :=
  set_nodes t (st_set (nodes t) n e).

(** A method of the table. *)
Abbreviation tm := (method KvPageTable KvTableError).

(** ** Reading the trie *)

(** The fuel of a walk up the parent links. *)
Definition fuel t : nat := length (st_iter (nodes t)).

Definition contribution_len t (n : NodeId) : option nat :=
  match node t n with
  | Some e =>
      match pages e with
      | Owned backings _ _ => Some (length backings)
      | ParentSelection rs => Some (runs_len rs)
      end
  | None => None
  end.

Definition predecessor t (n : NodeId) : option (option NodeId) :=
  match node t n with
  | Some e =>
      match pages e with
      | ParentSelection _ =>
          match parent e with
          | Some owner => match node t owner with Some o => Some (parent o) | None => None end
          | None => None
          end
      | Owned _ _ _ => Some (parent e)
      end
  | None => None
  end.

Fixpoint segments_loop (f : nat) t (end_ : Z) (cursor : option NodeId) : option (list Segment) :=
  match cursor with
  | None => Some []
  | Some n =>
      match f with
      | O => None
      | S f =>
          match contribution_len t n with
          | Some len =>
              let start := (end_ - Z.of_nat len)%Z in
              let seg := mkSegment n start len in
              if decide (start ≤ 0)%Z then Some [seg]
              else
                match predecessor t n with
                | Some p =>
                    match segments_loop f t start p with
                    | Some rest => Some (seg :: rest)
                    | None => None
                    end
                | None => None
                end
          | None => None
          end
      end
  end.

(** [out.last().map(|s| s.start <= 0).unwrap_or(false)]. *)
Definition reaches_start (out : list Segment) : bool :=
  match last out with Some s => bool_decide (seg_start s ≤ 0)%Z | None => false end.

Definition segments t (terminal : option NodeId) (anchor : nat) : option (list Segment) :=
  match segments_loop (fuel t) t (Z.of_nat anchor) terminal with
  | Some out =>
      if bool_decide (anchor = 0) || reaches_start out
      then Some out else None
  | None => None
  end.

Definition node_is_selection t (n : NodeId) : bool :=
  match node t n with
  | Some e => match pages e with ParentSelection _ => true | Owned _ _ _ => false end
  | None => false
  end.

Definition resolve_owner t (n : NodeId) (local : nat) : option (NodeId * nat) :=
  match node t n with
  | Some e =>
      match pages e with
      | Owned _ _ _ => Some (n, local)
      | ParentSelection rs =>
          match parent e, runs_offset rs local with
          | Some owner, Some at_ => if node_is_selection t owner then None else Some (owner, at_)
          | _, _ => None
          end
      end
  | None => None
  end.

Definition resolve_location t (n : NodeId) (local : nat) : option TriePageLocation :=
  match resolve_owner t n local with
  | Some (owner, local) => Some (mkLoc owner local)
  | None => None
  end.

Definition resolve_backing t (n : NodeId) (local : nat) : option KvPageBacking :=
  match resolve_location t n local with
  | Some l =>
      match node t (loc_node l) with
      | Some e =>
          match pages e with
          | Owned backings _ _ => backings !! loc_local l
          | ParentSelection _ => None
          end
      | None => None
      end
  | None => None
  end.

(** The outer option is the panic. *)
Definition resolve_id t (n : NodeId) (local : nat) : option (option PhysicalKvPageId) :=
  match resolve_backing t n local with
  | Some (Resident id) => Some (Some id)
  | Some _ => Some None
  | None => None
  end.

(** The pages of one segment that the mapping takes, as [(node, local)]. *)
Definition segment_pages (s : Segment) : list (NodeId * nat) :=
  let from := Z.to_nat (Z.max (- seg_start s) 0) in
  (λ local, (seg_node s, local)) <$> seq from (seg_len s - from).

Definition segments_pages (segs : list Segment) : list (NodeId * nat) :=
  concat (segment_pages <$> reverse segs).

Definition entry (ws : WorkingSetId) : tm WorkingSetEntry := λ t,
  match st_get (working_sets t) ws with
  | Some e => (Ok e, t)
  | None => (Err UnknownWorkingSet, t)
  end.

(** [entry_mut] and the write through it. *)
Definition update_entry (ws : WorkingSetId) (f : WorkingSetEntry → WorkingSetEntry) :
    tm unit :=
  e ⇐ entry ws ;;
  mmodify (λ t, set_working_sets t (st_set (working_sets t) ws (f e))).

(** The locations [visit_working_set_locations] visits, in order. *)
Definition working_set_locations (ws : WorkingSetId) : tm (list TriePageLocation) :=
  e ⇐ entry ws ;;
  segs ⇐ mread (λ t, segments t (terminal e) (mapped_len e)) ;;
  mread (λ t, mapM (λ '(n, i), resolve_location t n i) (segments_pages segs)).

(** [segs.iter().find(|s| index >= s.start)]. *)
Definition segment_at (index : Z) (segs : list Segment) : option Segment :=
  head (filter (λ s, seg_start s ≤ index)%Z segs).

Definition page_owner (ws : WorkingSetId) (index : nat) : tm (NodeId * nat) :=
  e ⇐ entry ws ;;
  if decide (mapped_len e ≤ index) then merr (Unwritten index (mapped_len e))
  else
    segs ⇐ mread (λ t, segments t (terminal e) (mapped_len e)) ;;
    seg ⇐ mexpect (segment_at (Z.of_nat index) segs) ;;
    mread (λ t, resolve_owner t (seg_node seg) (Z.to_nat (Z.of_nat index - seg_start seg))).

(** [Ok] of the backing, or the error the code gives. *)
Definition backing_at t (l : TriePageLocation) : outcome KvTableError KvPageBacking :=
  match node t (loc_node l) with
  | Some e =>
      match pages e with
      | Owned backings _ _ =>
          match backings !! loc_local l with Some b => Ok b | None => Err BackingChanged end
      | ParentSelection _ => Err BackingChanged
      end
  | None => Err BackingChanged
  end.

Definition is_resident (b : KvPageBacking) : bool :=
  match b with Resident _ => true | _ => false end.

(** The locations [visit_anchor_locations] visits, in order. *)
Fixpoint anchor_locations_loop (f : nat) t (cursor : option NodeId) :
    option (list TriePageLocation) :=
  match cursor with
  | None => Some []
  | Some n =>
      match f with
      | O => None
      | S f =>
          match node t n with
          | Some e =>
              match
                match pages e with
                | Owned backings _ _ => Some (mkLoc n <$> seq 0 (length backings))
                | ParentSelection rs =>
                    match parent e with
                    | Some owner => Some (mkLoc owner <$> expand rs)
                    | None => None
                    end
                end, predecessor t n
              with
              | Some here, Some p =>
                  match anchor_locations_loop f t p with
                  | Some rest => Some (here ++ rest)
                  | None => None
                  end
              | _, _ => None
              end
          | None => None
          end
      end
  end.

Definition anchor_locations t (terminal : NodeId) : option (list TriePageLocation) :=
  anchor_locations_loop (fuel t) t (Some terminal).

(** ** Anchors *)

Fixpoint bump_path (f : nat) (cursor : option NodeId) : tm unit :=
  match cursor with
  | None => mok tt
  | Some n =>
      match f with
      | O => mpanic
      | S f =>
          e ⇐ mread (λ t, node t n) ;;
          mmodify (λ t, put_node t n (with_path e (path_anchors e + 1))) ;;;
          bump_path f (parent e)
      end
  end.

Definition add_anchor (n : NodeId) : tm unit :=
  e ⇐ mread (λ t, node t n) ;;
  mmodify (λ t, put_node t n (with_exact e (exact_anchors e + 1))) ;;;
  f ⇐ mread (λ t, Some (fuel t)) ;;
  bump_path f (Some n).

(** Takes one anchor off the path and answers its nodes, from the bottom. *)
Fixpoint drop_path (f : nat) (cursor : option NodeId) : tm (list NodeId) :=
  match cursor with
  | None => mok []
  | Some n =>
      match f with
      | O => mpanic
      | S f =>
          e ⇐ mread (λ t, node t n) ;;
          mguard (0 < path_anchors e) ;;;
          mmodify (λ t, put_node t n (with_path e (path_anchors e - 1))) ;;;
          path ⇐ drop_path f (parent e) ;;
          mok (n :: path)
      end
  end.

(** [parent.children.retain(|child| *child != node)], where the parent is
    live. *)
Definition drop_child (p : option NodeId) (n : NodeId) t : KvPageTable :=
  match p with
  | Some p =>
      match node t p with
      | Some e => put_node t p (with_children e (filter (λ c, c ≠ n) (children e)))
      | None => t
      end
  | None => t
  end.

(** The copies of a node start, without [n]. *)
Definition forget_start (n : NodeId) (p : Pages) t : KvPageTable :=
  match p with
  | Owned _ _ (Some first :: _) =>
      match node_starts t !! first with
      | Some copies =>
          match filter (λ c, c ≠ n) copies with
          | [] => set_node_starts t (delete first (node_starts t))
          | copies => set_node_starts t (<[first := copies]> (node_starts t))
          end
      | None => t
      end
  | _ => t
  end.

Definition remove_node (n : NodeId) : tm KvTrieNode := λ t,
  match st_remove (nodes t) n with
  | (Some e, s) => (Ok e, set_nodes t s)
  | (None, _) => (Panic, t)
  end.

Fixpoint detach_loop (f : nat) (n : NodeId) : tm (list KvPageBacking) :=
  match f with
  | O => mpanic
  | S f =>
      entry ⇐ mread (λ t, Some (node t n)) ;;
      match entry with
      | None => mok []
      | Some entry =>
          if decide (path_anchors entry ≠ 0) then mok []
          else
            freed ⇐ mextend (children entry) (λ child,
              c ⇐ mread (λ t, node t child) ;;
              mguard (path_anchors c = 0) ;;;
              detach_loop f child) ;;
            mmodify (drop_child (parent entry) n) ;;;
            e ⇐ mread (λ t, node t n) ;;
            mmodify (forget_start n (pages e)) ;;;
            removed ⇐ remove_node n ;;
            mok (freed ++ owned_backings (pages removed))
      end
  end.

Definition detach_unreferenced (n : NodeId) : tm (list KvPageBacking) :=
  f ⇐ mread (λ t, Some (S (fuel t))) ;;
  detach_loop f n.

(** ** Compaction *)

(** [slice.partition_point(p)]: how many elements lead with [p]. *)
Fixpoint partition_point {A} (p : A → bool) (l : list A) : nat :=
  match l with
  | [] => 0
  | x :: l => if p x then S (partition_point p l) else 0
  end.

(** A child's runs after its owner kept only [kept]. *)
Definition moved_runs (kept : list nat) (rs : runs) : runs :=
  foldl (λ moved r,
    let start := partition_point (λ index, bool_decide (index < r.1)) kept in
    push_coalesced moved (start, start + (r.2 - r.1))) [] rs.

(** What the children that are all selections take; [None] below an owned
    child. *)
Fixpoint taken_runs t (cs : list NodeId) : option (option runs) :=
  match cs with
  | [] => Some (Some [])
  | c :: cs =>
      match node t c with
      | Some e =>
          match pages e with
          | ParentSelection rs =>
              match taken_runs t cs with
              | Some (Some taken) => Some (Some (rs ++ taken))
              | r => r
              end
          | Owned _ _ _ => Some None
          end
      | None => None
      end
  end.

(** A node that a residency move holds a page of. *)
Definition swap_locked t (n : NodeId) : bool :=
  existsb (λ l, bool_decide (loc_node l = n)) (elements (swap_locations t)).

(** The last loop of [compact_owner]: one child's runs after the cut. *)
Definition move_child (kept : list nat) (child : NodeId) : tm unit :=
  c ⇐ mread (λ t, node t child) ;;
  match pages c with
  | ParentSelection rs =>
      mmodify (λ t, put_node t child (with_pages c (ParentSelection (moved_runs kept rs))))
  | Owned _ _ _ => mpanic
  end.

Definition compact_owner (n : NodeId) : tm (list KvPageBacking) :=
  entry ⇐ mread (λ t, Some (node t n)) ;;
  locked ⇐ mread (λ t, Some (swap_locked t n)) ;;
  match entry with
  | None => mok []
  | Some e =>
      if decide (exact_anchors e ≠ 0 ∨ locked = true) then mok []
      else
        match pages e with
        | ParentSelection _ => mok []
        | Owned backings token_hashes page_hashes =>
            if decide (children e = []) then mok []
            else
              taken ⇐ mread (λ t, taken_runs t (children e)) ;;
              match taken with
              | None => mok []
              | Some taken =>
                  let kept := expand (union taken) in
                  if decide (length kept = length backings) then mok []
                  else
                    new_backings ⇐ mexpect (mapM (λ i, backings !! i) kept) ;;
                    new_tokens ⇐ mexpect (mapM (λ i, token_hashes !! i) kept) ;;
                    new_pages ⇐ mexpect (mapM (λ i, page_hashes !! i) kept) ;;
                    let freed := omap (λ '(i, b), if decide (i ∈ kept) then None else Some b)
                                   (imap pair backings) in
                    mmodify (λ t, put_node t n (with_pages e (Owned new_backings new_tokens new_pages))) ;;;
                    mfor (children e) (move_child kept) ;;;
                    mok freed
              end
        end
  end.

Definition remove_anchor (n : NodeId) : tm (list KvPageBacking) :=
  e ⇐ mread (λ t, node t n) ;;
  mguard (0 < exact_anchors e) ;;;
  mmodify (λ t, put_node t n (with_exact e (exact_anchors e - 1))) ;;;
  f ⇐ mread (λ t, Some (fuel t)) ;;
  path ⇐ drop_path f (Some n) ;;
  detached ⇐ mextend path detach_unreferenced ;;
  compacted ⇐ mextend path compact_owner ;;
  mok (detached ++ compacted).

Definition move_terminal (ws : WorkingSetId) (terminal' : option NodeId) :
    tm (list KvPageBacking) :=
  e ⇐ entry ws ;;
  let previous := terminal e in
  if decide (previous = terminal') then mok []
  else
    match terminal' with Some n => add_anchor n | None => mok tt end ;;;
    update_entry ws (λ e, with_terminal e terminal') ;;;
    match previous with Some n => remove_anchor n | None => mok [] end.

(** ** Selections *)

(** [nodes.insert]; a map with no key left panics. *)
Definition insert_node (e : KvTrieNode) : tm NodeId := λ t,
  match st_insert (nodes t) e with
  | Some (n, s) => (Ok n, set_nodes t s)
  | None => (Panic, t)
  end.

(** [nodes.get_mut(parent).expect(..).children.push(node)]. *)
Definition push_child (p n : NodeId) : tm unit :=
  e ⇐ mread (λ t, node t p) ;;
  mmodify (λ t, put_node t p (with_children e (children e ++ [n]))).

Definition insert_selection (owner : NodeId) (rs : runs) : tm NodeId :=
  sel ⇐ mread (λ t, Some (node_is_selection t owner)) ;;
  mguard (sel = false) ;;;
  n ⇐ insert_node (mkNode (Some owner) [] (ParentSelection rs) 0 0) ;;
  push_child owner n ;;;
  mok n.

Definition make_prefix_selection (n : NodeId) (off : nat) : tm NodeId :=
  e ⇐ mread (λ t, node t n) ;;
  match pages e with
  | Owned backings _ _ =>
      mguard (off < length backings) ;;;
      insert_selection n [(0, off)]
  | ParentSelection rs =>
      owner ⇐ mexpect (parent e) ;;
      insert_selection owner (runs_slice rs (0, off))
  end.

(** [segs.iter().find(|s| s.start < b && b <= s.end())]. *)
Definition segment_around (b : Z) (segs : list Segment) : option Segment :=
  head (filter (λ s, seg_start s < b ∧ b ≤ seg_end s)%Z segs).

Definition boundary_terminal (segs : list Segment) (boundary : nat) : tm NodeId :=
  let b := Z.of_nat boundary in
  mguard (0 < boundary) ;;;
  seg ⇐ mexpect (segment_around b segs) ;;
  if decide (b = seg_end seg) then mok (seg_node seg)
  else make_prefix_selection (seg_node seg) (Z.to_nat (b - seg_start seg)).
End table.
Arguments KvPageTable : clear implicits.
End KvTable.
