(* ===== verification/KvOps.v ===== *)
(** The operations of the page table on working sets, on content hashes and on
    what the cache holds ([crates/runtime/src/store/kv/page_table.rs], lines
    207 to 980 and the two counters at its end). *)
From S2P Require Import Prelude Ids Store Runs KvTable.

Module KvOps.
Import Runs KvTable.

Section ops.
Context {WS NS : Type → Type} `{!KeyedStore WorkingSetId WS, !KeyedStore NodeId NS}.
Abbreviation table := (KvPageTable WS NS).
Abbreviation tm := (method table KvTableError).
Implicit Types t : table.

(** ** Working sets *)

Definition insert_entry (e : WorkingSetEntry) : tm WorkingSetId := λ t,
  match st_insert (working_sets t) e with
  | Some (ws, s) => (Ok ws, set_working_sets t s)
  | None => (Panic, t)
  end.

Definition create_working_set : tm WorkingSetId := insert_entry (new_entry None 0 0).

(** [pending.values().min()]. *)
Definition pending_cut (p : gmap N N) : option N :=
  match (map_to_list p).*2 with
  | [] => None
  | c :: cs => Some (foldr N.min c cs)
  end.

(** [Vec::truncate]. *)
Definition truncate {A} (n : N) (l : list A) : list A := take (N.to_nat n) l.

Definition cut_log (e : WorkingSetEntry) : list N :=
  match pending_cut (pending e) with
  | Some cut => truncate cut (logged_ e)
  | None => logged_ e
  end.

Definition fork (ws : WorkingSetId) : tm WorkingSetId :=
  e ⇐ entry ws ;;
  child ⇐ insert_entry
    (with_prompt
       (with_folded
          (with_log (new_entry (terminal e) (page_len e) (mapped_len e)) (cut_log e) ∅)
          (folded e))
       (prompt_pages e)) ;;
  match terminal e with Some n => add_anchor n | None => mok tt end ;;;
  mok child.

Definition log_rows (ws : WorkingSetId) (start : N) (tokens : list N) : tm unit :=
  update_entry ws (λ e,
    let logged := truncate start (logged_ e) in
    with_log e
      (if decide (N.of_nat (length logged) = start) then logged ++ tokens else logged)
      (pending e)).

Definition log_begin (ws : WorkingSetId) (seq cut : N) : tm unit :=
  update_entry ws (λ e, with_log e (logged_ e) (<[seq := cut]> (pending e))).

Definition log_end (ws : WorkingSetId) (seq : N) (rows : option (N * list N)) : tm unit :=
  e ⇐ entry ws ;;
  match pending e !! seq with
  | None => mok tt
  | Some cut =>
      update_entry ws (λ e, with_log e (logged_ e) (delete seq (pending e))) ;;;
      match rows with
      | Some (start, tokens) => log_rows ws start tokens
      | None => update_entry ws (λ e, with_log e (truncate cut (logged_ e)) (pending e))
      end
  end.

Definition logged (ws : WorkingSetId) : tm (list N) :=
  e ⇐ entry ws ;;
  let end_ := match pending_cut (pending e) with
              | Some cut => N.min (N.of_nat (length (logged_ e))) cut
              | None => N.of_nat (length (logged_ e))
              end in
  mok (take (N.to_nat end_) (logged_ e)).

Definition sealed_at t (l : TriePageLocation) : bool :=
  match node t (loc_node l) with
  | Some e =>
      match pages e with
      | Owned _ _ page_hashes =>
          match page_hashes !! loc_local l with Some (Some _) => true | _ => false end
      | ParentSelection _ => false
      end
  | None => false
  end.

Definition settled_at t (l : TriePageLocation) : bool :=
  bool_decide (l ∉ swap_locations t) &&
  match backing_at t l with Ok b => is_resident b | _ => false end.

(** The loop of [prefix_while], with its [open] flag. *)
Definition prefix_step (kept : TriePageLocation → bool) (acc : nat * bool)
    (l : TriePageLocation) : nat * bool :=
  let open := acc.2 || negb (kept l) in
  (acc.1 + (if open then 0 else 1), open).

Definition prefix_while (ws : WorkingSetId) (kept : table → TriePageLocation → bool) :
    tm nat :=
  locs ⇐ working_set_locations ws ;;
  t ⇐ mget ;;
  mok (foldl (prefix_step (kept t)) (0, false) locs).1.

Definition sealed_prefix (ws : WorkingSetId) : tm nat := prefix_while ws sealed_at.

Definition sealed_resident_prefix (ws : WorkingSetId) : tm nat :=
  prefix_while ws (λ t l, sealed_at t l && settled_at t l).

Definition reserve (ws : WorkingSetId) (pages : nat) : tm (nat * nat) :=
  e ⇐ entry ws ;;
  update_entry ws (λ e, with_lens e (wrap64 (page_len e + pages)) (mapped_len e)) ;;;
  mok (page_len e, wrap64 (page_len e + pages)).

Definition can_extend_in_place t (ws : WorkingSetId) (n : NodeId) : option bool :=
  match node t n with
  | Some e =>
      if negb (is_owned (pages e)) || negb (bool_decide (children e = [])) then Some false
      else
        Some (match st_get (working_sets t) ws with
              | Some we => bool_decide (terminal we = Some n)
              | None => false
              end
              && bool_decide (exact_anchors e = 1) && bool_decide (path_anchors e = 1))
  | None => None
  end.

(** The node the appended pages go to: the terminal itself, or a new child. *)
Definition append_node (ws : WorkingSetId) (terminal : option NodeId)
    (backings : list KvPageBacking) (token_hashes : list (list (option Hash256)))
    (page_hashes : list (option Hash256)) : tm NodeId :=
  extend ⇐ match terminal with
           | Some n => mread (λ t, can_extend_in_place t ws n)
           | None => mok false
           end ;;
  match terminal, extend with
  | Some n, true =>
      e ⇐ mread (λ t, node t n) ;;
      match pages e with
      | Owned b th ph =>
          mmodify (λ t, put_node t n
            (with_pages e (Owned (b ++ backings) (th ++ token_hashes) (ph ++ page_hashes)))) ;;;
          mok n
      | ParentSelection _ => mpanic
      end
  | _, _ =>
      n ⇐ insert_node (mkNode terminal [] (Owned backings token_hashes page_hashes) 0 0) ;;
      match terminal with Some p => push_child p n | None => mok tt end ;;;
      mok n
  end.

Definition publish_appended (ws : WorkingSetId) (pages : list PublishedPage) : tm unit :=
  e ⇐ entry ws ;;
  let count := length pages in
  if decide (page_len e < mapped_len e + count) then
    merr (PublishExceedsReservation count (mapped_len e) (page_len e))
  else if decide (count = 0) then mok tt
  else
    new_terminal ⇐ append_node ws (terminal e)
      (Resident ∘ pp_id <$> pages) (pp_token_hashes <$> pages) (pp_page_hash <$> pages) ;;
    e ⇐ entry ws ;;
    freed ⇐ move_terminal ws (Some new_terminal) ;;
    mguard (freed = []) ;;;
    update_entry ws (λ e', with_lens e' (page_len e') (mapped_len e + count)).

Definition replace_tail (ws : WorkingSetId) (from : nat) (pages : list PublishedPage) :
    tm (list KvPageBacking) :=
  e ⇐ entry ws ;;
  if decide (mapped_len e < from) then
    merr (BadRange from from (mapped_len e) (page_len e))
  else
    let count := length pages in
    if decide (page_len e < from + count) then
      merr (PublishExceedsReservation count from (page_len e))
    else if decide (from < mapped_len e) then
      segs ⇐ mread (λ t, segments t (terminal e) (mapped_len e)) ;;
      new_terminal ⇐ (if decide (from = 0) then mok None
                      else n ⇐ boundary_terminal segs from ;; mok (Some n)) ;;
      freed ⇐ move_terminal ws new_terminal ;;
      update_entry ws (λ e', with_lens e' (page_len e') from) ;;;
      publish_appended ws pages ;;;
      mok freed
    else
      publish_appended ws pages ;;;
      mok [].

(** [node_tokens[local] = ..; node_pages[local] = ..]. *)
Definition set_hashes (owner : NodeId) (local : nat) (tokens : list (option Hash256))
    (page : option Hash256) : tm unit :=
  e ⇐ mread (λ t, node t owner) ;;
  match pages e with
  | Owned b th ph =>
      if decide (local < length th ∧ local < length ph) then
        mmodify (λ t, put_node t owner
          (with_pages e (Owned b (<[local := tokens]> th) (<[local := page]> ph))))
      else mpanic
  | ParentSelection _ => mpanic
  end.

Definition commit_in_place (ws : WorkingSetId) (index : nat)
    (token_hashes : list (option Hash256)) (page_hash : option Hash256) : tm unit :=
  o ⇐ page_owner ws index ;;
  set_hashes o.1 o.2 token_hashes page_hash.

Definition folded_of (ws : WorkingSetId) : tm N := e ⇐ entry ws ;; mok (folded e).

Definition freeze (ws : WorkingSetId) (to : N) : tm N :=
  e ⇐ entry ws ;;
  update_entry ws (λ e, with_folded e (N.max (folded e) to)) ;;;
  mok (N.max (folded e) to).

Definition prompt_pages_of (ws : WorkingSetId) : tm nat := e ⇐ entry ws ;; mok (prompt_pages e).

Definition reach_prompt (ws : WorkingSetId) (pages : nat) : tm unit :=
  update_entry ws (λ e, with_prompt e (prompt_pages e `max` pages)).

(** ** Sealed pages *)

(** The [take_while] of [node_run]. *)
Fixpoint run_while t (n : NodeId) (resident : bool) (local : nat)
    (page_hashes : list (option Hash256)) (backings : list KvPageBacking)
    (keys : list Hash256) : nat :=
  match page_hashes, backings, keys with
  | hash :: page_hashes, backing :: backings, key :: keys =>
      if bool_decide (hash = Some key) && (negb resident || is_resident backing)
         && bool_decide (mkLoc n local ∉ swap_locations t)
      then S (run_while t n resident (S local) page_hashes backings keys)
      else 0
  | _, _, _ => 0
  end.

Definition node_run t (n : NodeId) (keys : list Hash256) (resident : bool) : nat :=
  match node t n with
  | Some e =>
      match pages e with
      | Owned backings _ page_hashes => run_while t n resident 0 page_hashes backings keys
      | ParentSelection _ => 0
      end
  | None => 0
  end.

(** [Iterator::max_by_key]: the last of the greatest. *)
Fixpoint max_by_last (best : option (NodeId * nat)) (l : list (NodeId * nat)) :
    option (NodeId * nat) :=
  match l with
  | [] => best
  | x :: l =>
      max_by_last (match best with
                   | Some b => if decide (b.2 ≤ x.2) then Some x else Some b
                   | None => Some x
                   end) l
  end.

Fixpoint sealed_run_loop (f : nat) t (keys : list Hash256) (resident : bool)
    (run : list TriePageLocation) : list TriePageLocation :=
  match f with
  | O => run
  | S f =>
      match keys !! length run with
      | Some key =>
          match node_starts t !! key with
          | Some copies =>
              let from := length run in
              match max_by_last None
                      ((λ n, (n, node_run t n (drop from keys) resident)) <$> copies) with
              | Some (n, matched) =>
                  if decide (0 < matched) then
                    sealed_run_loop f t keys resident (run ++ (mkLoc n <$> seq 0 matched))
                  else run
              | None => run
              end
          | None => run
          end
      | None => run
      end
  end.

(** Every turn of the loop adds a page, and there are no more than keys. *)
Definition sealed_run t (keys : list Hash256) (resident : bool) : list TriePageLocation :=
  sealed_run_loop (S (length keys)) t keys resident [].

Definition page_hash_at (ws : WorkingSetId) (index : nat) : tm (option Hash256) :=
  o ⇐ page_owner ws index ;;
  e ⇐ mread (λ t, node t o.1) ;;
  match pages e with
  | Owned _ _ page_hashes => mexpect (page_hashes !! o.2)
  | ParentSelection _ => mpanic
  end.

Definition sealed (ws : WorkingSetId) (index : nat) : tm bool :=
  h ⇐ page_hash_at ws index ;; mok (bool_decide (is_Some h)).

(** Whether a copy of a node start still starts with [key]. *)
Definition starts_with t (key : Hash256) (copy : NodeId) : bool :=
  match node t copy with
  | Some e =>
      match pages e with
      | Owned _ _ page_hashes => bool_decide (head page_hashes = Some (Some key))
      | ParentSelection _ => false
      end
  | None => false
  end.

Definition index_node_start (key : Hash256) (n : NodeId) t : table :=
  let copies := filter (λ copy, copy ≠ n ∧ starts_with t key copy = true)
                  (default [] (node_starts t !! key)) ++ [n] in
  let copies := if decide (node_copies < length copies) then drop 1 copies else copies in
  set_node_starts t (<[key := copies]> (node_starts t)).

Definition commit_hashes (ws : WorkingSetId) (first : nat)
    (pages : list (list (option Hash256) * option Hash256)) : tm unit :=
  e ⇐ entry ws ;;
  let end_ := first + length pages in
  if decide (mapped_len e < end_) then merr (Unwritten (end_ - 1) (mapped_len e))
  else
    segs ⇐ mread (λ t, segments t (terminal e) (mapped_len e)) ;;
    mfor (imap pair pages) (λ p,
      let index := first + p.1 in
      seg ⇐ mexpect (segment_at (Z.of_nat index) segs) ;;
      o ⇐ mread (λ t, resolve_owner t (seg_node seg) (Z.to_nat (Z.of_nat index - seg_start seg))) ;;
      set_hashes o.1 o.2 p.2.1 p.2.2 ;;;
      match p.2.2 with
      | Some key => if decide (o.2 = 0) then mmodify (index_node_start key o.1) else mok tt
      | None => mok tt
      end).

(** ** Readers of a page *)

(** What one child adds to the readers of a page of its owner. *)
Definition child_readers (local : nat) (e : KvTrieNode) : nat :=
  match pages e with
  | Owned _ _ _ => path_anchors e
  | ParentSelection rs =>
      if existsb (λ r, bool_decide (r.1 ≤ local ∧ local < r.2)) rs then path_anchors e else 0
  end.

Definition page_readers t (owner : NodeId) (local : nat) : option nat :=
  match node t owner with
  | Some e =>
      match mapM (node t) (children e) with
      | Some cs => Some (exact_anchors e + sum_list (child_readers local <$> cs))
      | None => None
      end
  | None => None
  end.

Definition privately_writable (ws : WorkingSetId) (index : nat) : tm bool :=
  o ⇐ page_owner ws index ;;
  readers ⇐ mread (λ t, page_readers t o.1 o.2) ;;
  mok (bool_decide (readers = 1)).

Definition remove_entry (ws : WorkingSetId) : tm (option WorkingSetEntry) := λ t,
  let '(e, s) := st_remove (working_sets t) ws in (Ok e, set_working_sets t s).

Definition release_working_set_backings (ws : WorkingSetId) : tm (list KvPageBacking) :=
  e ⇐ remove_entry ws ;;
  match e with
  | None => mok []
  | Some e =>
      match terminal e with Some n => remove_anchor n | None => mok [] end
  end.

(** The loop of [flatten], [out] pages in. *)
Fixpoint flatten_loop t (ps : list (NodeId * nat)) (out : list PhysicalKvPageId) :
    outcome KvTableError (list PhysicalKvPageId) :=
  match ps with
  | [] => Ok out
  | (n, local) :: ps =>
      match resolve_id t n local with
      | Some (Some id) => flatten_loop t ps (out ++ [id])
      | Some None => Err (NonResident (length out))
      | None => Panic
      end
  end.

Definition flatten (ws : WorkingSetId) : tm (list PhysicalKvPageId) :=
  e ⇐ entry ws ;;
  segs ⇐ mread (λ t, segments t (terminal e) (mapped_len e)) ;;
  out ⇐ (λ t, (flatten_loop t (segments_pages segs) [], t)) ;;
  mguard (length out = mapped_len e) ;;;
  mok out.

Definition page_token_hashes (ws : WorkingSetId) (index : nat) : tm (list (option Hash256)) :=
  o ⇐ page_owner ws index ;;
  e ⇐ mread (λ t, node t o.1) ;;
  match pages e with
  | Owned _ token_hashes _ => mexpect (token_hashes !! o.2)
  | ParentSelection _ => mpanic
  end.

(** ** Paths *)

Fixpoint prefix_len_loop (f : nat) t (cursor : option NodeId) (full : nat) : option nat :=
  match cursor with
  | None => Some full
  | Some n =>
      match f with
      | O => None
      | S f =>
          match contribution_len t n, predecessor t n with
          | Some len, Some p => prefix_len_loop f t p (full + len)
          | _, _ => None
          end
      end
  end.

Definition path_prefix_len t (n : NodeId) (local : nat) : option nat :=
  match predecessor t n with
  | Some p => prefix_len_loop (fuel t) t p (local + 1)
  | None => None
  end.

(** The locations of [path_locations]: a segment's pages below [end_]. *)
Definition segment_below (end_ : nat) (s : Segment) : list (NodeId * nat) :=
  let from := Z.max (seg_start s) 0 in
  let to := Z.min (seg_end s) (Z.of_nat end_) in
  (λ i : nat, (seg_node s, Z.to_nat (from + Z.of_nat i - seg_start s))) <$>
    seq 0 (Z.to_nat (to - from)).

Definition path_locations t (n : NodeId) (local : nat) : option (list TriePageLocation) :=
  match path_prefix_len t n local, contribution_len t n with
  | Some end_, Some len =>
      match segments t (Some n) (end_ + len - (local + 1)) with
      | Some segs =>
          mapM (λ '(n, i), resolve_location t n i) (concat (segment_below end_ <$> reverse segs))
      | None => None
      end
  | _, _ => None
  end.

Definition path_len t (n : NodeId) : option nat :=
  match contribution_len t n with
  | Some 0 => Some 0
  | Some len => path_prefix_len t n (len - 1)
  | None => None
  end.

(** The outer option is the panic. *)
Definition path_keys t (terminal : NodeId) : option (option (list Hash256)) :=
  match contribution_len t terminal with
  | Some 0 => Some (Some [])
  | Some len =>
      match path_locations t terminal (len - 1) with
      | Some locs =>
          Some (mapM (λ at_,
            match node t (loc_node at_) with
            | Some e =>
                match pages e with
                | Owned _ _ page_hashes => mjoin (page_hashes !! loc_local at_)
                | ParentSelection _ => None
                end
            | None => None
            end) locs)
      | None => None
      end
  | None => None
  end.

Definition attach (ws : WorkingSetId) (n : NodeId) (local : nat) : tm nat :=
  node_len ⇐ mread (λ t, contribution_len t n) ;;
  mguard (local < node_len) ;;;
  end_ ⇐ mread (λ t, path_prefix_len t n local) ;;
  let full := end_ + node_len - (local + 1) in
  segs ⇐ mread (λ t, segments t (Some n) full) ;;
  e ⇐ entry ws ;;
  let held := mapped_len e in
  let refused := BadRange held end_ (mapped_len e) (page_len e) in
  if decide (end_ ≤ held) then merr refused
  else
    mine ⇐ (if decide (0 < held) then working_set_locations ws else mok []) ;;
    path ⇐ (if decide (0 < held) then
              mread (λ t, mapM (λ '(n, i), resolve_location t n i)
                                (take held (segments_pages segs)))
            else mok []) ;;
    if decide (mine ≠ path) then merr refused
    else
      terminal ⇐ boundary_terminal segs end_ ;;
      freed ⇐ move_terminal ws (Some terminal) ;;
      mguard (freed = []) ;;;
      update_entry ws (λ e', with_lens e' (page_len e `max` end_) end_) ;;;
      mok end_.

Fixpoint take_while_count {A} (p : A → bool) (l : list A) : nat :=
  match l with
  | [] => 0
  | x :: l => if p x then S (take_while_count p l) else 0
  end.

Definition resident_run t (run : list TriePageLocation) : nat :=
  take_while_count (settled_at t) run.

Definition keep_prefix_of (path : KeptPath) (pages : nat) : tm KeptPath :=
  segs ⇐ mread (λ t, segments t (Some (kept_terminal path)) (kept_pages path)) ;;
  terminal ⇐ boundary_terminal segs pages ;;
  mok (mkKept terminal pages).

Definition keep_prefix (ws : WorkingSetId) (pages : nat) : tm KeptPath :=
  e ⇐ entry ws ;;
  segs ⇐ mread (λ t, segments t (terminal e) (mapped_len e)) ;;
  terminal ⇐ boundary_terminal segs pages ;;
  mok (mkKept terminal pages).

Definition set_owner (ws : WorkingSetId) (o : ProcessId) : tm unit :=
  update_entry ws (λ e, with_owner e (Some o)).

Definition owner_of (ws : WorkingSetId) : tm (option ProcessId) :=
  e ⇐ entry ws ;; mok (owner e).

Definition add_supplied (ws : WorkingSetId) (tokens : N) : tm N :=
  e ⇐ entry ws ;;
  update_entry ws (λ e, with_supplied e (as_u64 (supplied e + tokens))) ;;;
  mok (as_u64 (supplied e + tokens)).

Definition supplied_of (ws : WorkingSetId) : tm N := e ⇐ entry ws ;; mok (supplied e).

(** Every sealed page's key. *)
Definition sealed_keys t : gset Hash256 :=
  list_to_set (concat ((λ p, match pages p.2 with
                             | Owned _ _ page_hashes => omap id page_hashes
                             | ParentSelection _ => []
                             end) <$> st_iter (nodes t))).

Definition insert_cached (after : option TriePageLocation) (backings : list KvPageBacking)
    (token_hashes : list (list (option Hash256))) (page_hashes : list Hash256) : tm NodeId :=
  parent ⇐ match after with
           | Some at_ =>
               e ⇐ mread (λ t, node t (loc_node at_)) ;;
               match pages e with
               | Owned b _ _ =>
                   if decide (loc_local at_ + 1 = length b) then mok (Some (loc_node at_))
                   else n ⇐ make_prefix_selection (loc_node at_) (loc_local at_ + 1) ;; mok (Some n)
               | ParentSelection _ => mpanic
               end
           | None => mok None
           end ;;
  n ⇐ insert_node (mkNode parent [] (Owned backings token_hashes (Some <$> page_hashes)) 0 0) ;;
  match parent with Some p => push_child p n | None => mok tt end ;;;
  match page_hashes with
  | key :: _ => mmodify (index_node_start key n)
  | [] => mok tt
  end ;;;
  mok n.

(** ** Holds *)

(** [hold] and [let_go] on one of the two maps of counts. *)
Definition hold (holds : gmap NodeId N) (n : NodeId) : bool * gmap NodeId N :=
  let count := (default 0 (holds !! n) + 1)%N in
  (bool_decide (count = 1)%N, <[n := count]> holds).

Definition let_go (holds : gmap NodeId N) (n : NodeId) : bool * gmap NodeId N :=
  match holds !! n with
  | None => (false, holds)
  | Some count =>
      if decide (0 < count - 1)%N then (false, <[n := (count - 1)%N]> holds)
      else (true, delete n holds)
  end.

Definition lease_cache_root (n : NodeId) : tm unit :=
  t ⇐ mget ;;
  let '(first, roots) := hold (cache_roots t) n in
  mmodify (λ t, set_cache_roots t roots) ;;;
  if first then add_anchor n else mok tt.

Definition release_cache_root (n : NodeId) : tm (list KvPageBacking) :=
  t ⇐ mget ;;
  let '(last, roots) := let_go (cache_roots t) n in
  mmodify (λ t, set_cache_roots t roots) ;;;
  if last then remove_anchor n else mok [].

Definition pin (n : NodeId) : tm unit :=
  t ⇐ mget ;;
  let '(first, pins') := hold (pins t) n in
  mmodify (λ t, set_pins t pins') ;;;
  if first then add_anchor n else mok tt.

Definition unpin (n : NodeId) : tm (list KvPageBacking) :=
  t ⇐ mget ;;
  let '(last, pins') := let_go (pins t) n in
  mmodify (λ t, set_pins t pins') ;;;
  if last then remove_anchor n else mok [].

Definition page_len_of (ws : WorkingSetId) : tm nat := e ⇐ entry ws ;; mok (page_len e).
Definition mapped_len_of (ws : WorkingSetId) : tm nat := e ⇐ entry ws ;; mok (mapped_len e).

(** ** Ancestry *)

Fixpoint descends_loop (f : nat) t (cursor : option NodeId) (ancestor : NodeId) : option bool :=
  match cursor with
  | None => Some false
  | Some current =>
      match f with
      | O => None
      | S f =>
          if decide (current = ancestor) then Some true
          else descends_loop f t
                 (match node t current with Some e => parent e | None => None end) ancestor
      end
  end.

(** [node] itself may be gone, so the walk may look at one key more than there
    are nodes. *)
Definition descends_from t (n ancestor : NodeId) : option bool :=
  descends_loop (S (fuel t)) t (Some n) ancestor.

Definition within t (root : NodeId) (l : TriePageLocation) (len : nat) : option bool :=
  match node t root with
  | None => Some false
  | Some e =>
      match
        match pages e with
        | Owned backings _ _ => Some (root, length backings)
        | ParentSelection rs =>
            match parent e with
            | Some owner => Some (owner, foldr max 0 (snd <$> rs))
            | None => None
            end
        end
      with
      | Some (owner, last) =>
          if decide (last = 0) then Some false
          else
            match descends_from t (loc_node l) owner with
            | Some true =>
                if decide (owner ≠ loc_node l ∨ last ≤ loc_local l + 1) then
                  match path_prefix_len t owner (last - 1) with
                  | Some n => Some (bool_decide (n ≤ len))
                  | None => None
                  end
                else Some false
            | r => r
            end
      | None => None
      end
  end.
End ops.
End KvOps.
