(* ===== verification/KvMove.v ===== *)
(** Residency and reclaim on the page table
    ([crates/runtime/src/store/kv/page_table.rs], lines 1262 to 1798): which
    cached roots nothing live reads, what a group of working sets would free,
    what a move takes off the device and what must stay, and the writes a move
    makes. A [HashMap] or [HashSet] the code iterates is a [gmap] or a [gset]
    in the order of its [elements]: the code's order is unspecified, and no
    theorem depends on it. *)
From S2P Require Import Prelude Ids Store Runs KvTable KvOps.

Module KvMove.
Import Runs KvTable KvOps.

Section move.
Context {WS NS : Type → Type} `{!KeyedStore WorkingSetId WS, !KeyedStore NodeId NS}.
Abbreviation table := (KvPageTable WS NS).
Abbreviation tm := (method table KvTableError).
Implicit Types t : table.

(** ** Unused cache roots *)

(** One turn of the inner loop of [live_reads]: what the node reads so far,
    joined with what the chain brings. *)
Definition join_reads (entry read : option runs) : option runs :=
  match entry, read with
  | Some rs, Some more => Some (rs ++ more)
  | _, None => None
  | None, Some _ => None
  end.

Fixpoint live_reads_chain (f : nat) t (cursor : NodeId) (read : option runs)
    (reads : gmap NodeId (option runs)) : option (gmap NodeId (option runs)) :=
  match f with
  | O => None
  | S f =>
      let reads' := <[cursor := join_reads (default (Some []) (reads !! cursor)) read]> reads in
      if decide (is_Some (reads !! cursor)) then Some reads'
      else
        match node t cursor with
        | Some e =>
            let read' := match pages e with
                         | ParentSelection rs => Some rs
                         | Owned _ _ _ => None
                         end in
            match parent e with
            | Some p => live_reads_chain f t p read' reads'
            | None => Some reads'
            end
        | None => None
        end
  end.

Fixpoint live_reads_loop t (anchors : list NodeId) (reads : gmap NodeId (option runs)) :
    option (gmap NodeId (option runs)) :=
  match anchors with
  | [] => Some reads
  | a :: anchors =>
      match live_reads_chain (fuel t) t a None reads with
      | Some reads => live_reads_loop t anchors reads
      | None => None
      end
  end.

Definition live_reads t : option (gmap NodeId (option runs)) :=
  live_reads_loop t
    (omap (λ p, terminal p.2) (st_iter (working_sets t)) ++ (map_to_list (pins t)).*1) ∅.

Definition root_unused t (reads : gmap NodeId (option runs)) (root : NodeId) : option bool :=
  match node t root with
  | Some e =>
      match
        match pages e with
        | ParentSelection rs => match parent e with Some o => Some (o, rs) | None => None end
        | Owned backings _ _ => Some (root, [(0, length backings)])
        end
      with
      | Some (source, rs) =>
          Some (match reads !! source with
                | None => true
                | Some None => false
                | Some (Some read) => negb (covers read rs)
                end)
      | None => None
      end
  | None => None
  end.

(** [filter] with a predicate that may panic. *)
Fixpoint filter_opt {A} (p : A → option bool) (l : list A) : option (list A) :=
  match l with
  | [] => Some []
  | x :: l =>
      match p x, filter_opt p l with
      | Some b, Some l => Some (if b then x :: l else l)
      | _, _ => None
      end
  end.

Definition unused_cache_roots t : option (list NodeId) :=
  if decide (cache_roots t = ∅) then Some []
  else
    match live_reads t with
    | Some reads => filter_opt (root_unused t reads) (map_to_list (cache_roots t)).*1
    | None => None
    end.

(** ** Visits that drop an error *)

Definition visit_or_skip (ws : WorkingSetId) : tm (list TriePageLocation) :=
  mor_else (working_set_locations ws) [].

(** The set that visits of several working sets fill. *)
Fixpoint locations_of (visit : WorkingSetId → tm (list TriePageLocation))
    (l : list WorkingSetId) (acc : gset TriePageLocation) : tm (gset TriePageLocation) :=
  match l with
  | [] => mok acc
  | ws :: l => locs ⇐ visit ws ;; locations_of visit l (acc ∪ list_to_set locs)
  end.

Definition locations (group : gset WorkingSetId) : tm (gset TriePageLocation) :=
  locations_of working_set_locations (elements group) ∅.

(** The set that visits of several anchors fill. *)
Fixpoint anchors_locations t (l : list NodeId) (acc : gset TriePageLocation) :
    option (gset TriePageLocation) :=
  match l with
  | [] => Some acc
  | n :: l =>
      match anchor_locations t n with
      | Some locs => anchors_locations t l (acc ∪ list_to_set locs)
      | None => None
      end
  end.

(** ** What must stay *)

Fixpoint read_by_running_loop (group : gset WorkingSetId) (target : gset TriePageLocation)
    (l : list (WorkingSetId * WorkingSetEntry)) (shared : gset TriePageLocation) :
    tm (gset TriePageLocation) :=
  match l with
  | [] => mok shared
  | (ws, e) :: l =>
      if decide (size shared = size target) then mok shared
      else if suspended e || bool_decide (ws ∈ group) then
        read_by_running_loop group target l shared
      else
        locs ⇐ working_set_locations ws ;;
        read_by_running_loop group target l (shared ∪ (list_to_set locs ∩ target))
  end.

Definition locations_read_by_running (group : gset WorkingSetId)
    (target : gset TriePageLocation) : tm (gset TriePageLocation) :=
  if decide (target = ∅) then mok ∅
  else
    t ⇐ mget ;;
    read_by_running_loop group target (st_iter (working_sets t)) ∅.

Fixpoint held_by_pins_loop t (target : gset TriePageLocation) (l : list NodeId)
    (held : gset TriePageLocation) : option (gset TriePageLocation) :=
  match l with
  | [] => Some held
  | n :: l =>
      if decide (size held = size target) then Some held
      else
        match anchor_locations t n with
        | Some locs => held_by_pins_loop t target l (held ∪ (list_to_set locs ∩ target))
        | None => None
        end
  end.

Definition locations_held_by_pins t (target : gset TriePageLocation) :
    option (gset TriePageLocation) :=
  if decide (target = ∅) then Some ∅
  else held_by_pins_loop t target (map_to_list (pins t)).*1 ∅.

Definition staying (group : gset WorkingSetId) (target : gset TriePageLocation) :
    tm (gset TriePageLocation) :=
  running ⇐ locations_read_by_running group target ;;
  held ⇐ mread (λ t, locations_held_by_pins t target) ;;
  mok (running ∪ held).

(** ** Quotes *)

(** What the loop of [quote_group] counts: pages, shared, swapped. *)
Definition quote_step t (staying : gset TriePageLocation) (acc : nat * nat * nat)
    (l : TriePageLocation) : nat * nat * nat :=
  let '(pages, shared, swapped) := acc in
  if decide (l ∈ staying) then (pages, S shared, swapped)
  else
    match backing_at t l with
    | Ok (Resident _) => (S pages, shared, swapped)
    | _ => (pages, shared, S swapped)
    end.

Definition quote_of (counts : nat * nat * nat) : ReclaimQuote :=
  match counts with
  | (0, 0, 0) => QNothing HoldsNothing
  | (0, S _, _) => QNothing AllShared
  | (0, _, _) => QNothing AllSwapped
  | (pages, _, _) => QPages (N.of_nat pages)
  end.

Definition quote_group (group : gset WorkingSetId) (mine : gset TriePageLocation) :
    tm ReclaimQuote :=
  if decide (mine = ∅) then mok (QNothing HoldsNothing)
  else
    s ⇐ mor_else (s ⇐ staying group mine ;; mok (Some s)) None ;;
    t ⇐ mget ;;
    match s with
    | None => mok (QNothing AllShared)
    | Some s => mok (quote_of (foldl (quote_step t s) (0, 0, 0) (elements mine)))
    end.

Fixpoint reclaim_quotes_loop (groups : list (gset WorkingSetId)) (budget covered : N) :
    tm (list ReclaimQuote) :=
  match groups with
  | [] => mok []
  | group :: groups =>
      if decide (budget ≤ covered)%N then mok []
      else
        mine ⇐ locations_of visit_or_skip (elements group) ∅ ;;
        quote ⇐ quote_group group mine ;;
        let covered' := match quote with
                        | QPages pages => sat_add u32_max covered pages
                        | QNothing _ => covered
                        end in
        quotes ⇐ reclaim_quotes_loop groups budget covered' ;;
        mok (quote :: quotes)
  end.

Definition reclaim_quotes (groups : list (gset WorkingSetId)) (budget : N) :
    tm (list ReclaimQuote) := reclaim_quotes_loop groups budget 0.

(** ** Pages to move *)

(** The page of a location, where it is on the device. *)
Definition resident_at t (l : TriePageLocation) : option (TriePageLocation * PhysicalKvPageId) :=
  match backing_at t l with
  | Ok (Resident id) => Some (l, id)
  | _ => None
  end.

Definition movable_resident_pages (group : gset WorkingSetId) :
    tm (list (TriePageLocation * PhysicalKvPageId)) :=
  target ⇐ locations group ;;
  s ⇐ staying group target ;;
  t ⇐ mget ;;
  mok (omap (resident_at t) (filter (λ l, l ∉ s) (elements target))).

(** A visit that collects, once each, the resident pages outside [skip]. *)
Definition collect_step t (skip : TriePageLocation → bool)
    (acc : gset TriePageLocation * list (TriePageLocation * PhysicalKvPageId))
    (l : TriePageLocation) :
    gset TriePageLocation * list (TriePageLocation * PhysicalKvPageId) :=
  let '(seen, pages) := acc in
  if skip l || bool_decide (l ∈ seen) then (seen, pages)
  else
    ({[l]} ∪ seen,
     match resident_at t l with Some p => pages ++ [p] | None => pages end).

(** [collect_step] over the working sets or the anchors the code visits. *)
Definition collect_from {A} (visit : A → tm (list TriePageLocation))
    (skip : TriePageLocation → bool) : list A →
    gset TriePageLocation * list (TriePageLocation * PhysicalKvPageId) →
    tm (gset TriePageLocation * list (TriePageLocation * PhysicalKvPageId)) :=
  fix go l acc :=
    match l with
    | [] => mok acc
    | a :: l =>
        locs ⇐ visit a ;;
        t ⇐ mget ;;
        go l (foldl (collect_step t skip) acc locs)
    end.

Definition stranded_pages (keep : gset WorkingSetId) :
    tm (list (TriePageLocation * PhysicalKvPageId)) :=
  t ⇐ mget ;;
  let all := st_iter (working_sets t) in
  running ⇐ locations_of visit_or_skip
    (filter (λ p, suspended p.2 = false ∨ p.1 ∈ keep) all).*1 ∅ ;;
  running ⇐ mread (λ t, anchors_locations t (map_to_list (pins t)).*1 running) ;;
  r ⇐ collect_from visit_or_skip (λ l, bool_decide (l ∈ running))
        (filter (λ p, suspended p.2 = true) all).*1 (∅, []) ;;
  mok r.2.

Definition cache_only_pages (roots above : list NodeId) :
    tm (list (TriePageLocation * PhysicalKvPageId)) :=
  if decide (roots = []) then mok []
  else
    t ⇐ mget ;;
    read ⇐ locations_of visit_or_skip (st_iter (working_sets t)).*1 ∅ ;;
    read ⇐ mread (λ t, anchors_locations t ((map_to_list (pins t)).*1 ++ above) read) ;;
    r ⇐ collect_from (λ root, mread (λ t, anchor_locations t root))
          (λ l, bool_decide (l ∈ read) || bool_decide (l ∈ swap_locations t))
          (filter (λ root, is_Some (node t root)) roots) (∅, []) ;;
    mok r.2.

(** ** What dropping roots would free *)

Fixpoint path_nodes_loop (f : nat) t (cursor : option NodeId) : option (list NodeId) :=
  match cursor with
  | None => Some []
  | Some n =>
      match f with
      | O => None
      | S f =>
          match path_nodes_loop f t (match node t n with Some e => parent e | None => None end) with
          | Some rest => Some (n :: rest)
          | None => None
          end
      end
  end.

Definition path_nodes t (root : NodeId) : option (list NodeId) :=
  path_nodes_loop (fuel t) t (match node t root with Some _ => Some root | None => None end).

Definition holds_resident t (root : NodeId) : option bool :=
  match path_nodes t root with
  | Some ns =>
      Some (existsb (λ n,
        match node t n with
        | Some e => existsb is_resident (owned_backings (pages e))
        | None => false
        end) ns)
  | None => None
  end.

(** [*map.entry(k).or_insert(0) += 1]. *)
Definition bump (m : gmap NodeId nat) (k : NodeId) : gmap NodeId nat :=
  <[k := default 0 (m !! k) + 1]> m.

Fixpoint through_loop t (roots : list NodeId) (through exact : gmap NodeId nat) :
    option (gmap NodeId nat * gmap NodeId nat) :=
  match roots with
  | [] => Some (through, exact)
  | root :: roots =>
      match path_nodes t root with
      | Some ns => through_loop t roots (foldl bump through ns) (bump exact root)
      | None => None
      end
  end.

(** The runs the children that stay take; [Some None] where an owned child
    stays. *)
Fixpoint staying_runs t (through : gmap NodeId nat) (cs : list NodeId) : option (option runs) :=
  match cs with
  | [] => Some (Some [])
  | c :: cs =>
      match node t c with
      | Some e =>
          if decide (path_anchors e = default 0 (through !! c)) then staying_runs t through cs
          else
            match pages e with
            | ParentSelection rs =>
                match staying_runs t through cs with
                | Some (Some taken) => Some (Some (rs ++ taken))
                | r => r
                end
            | Owned _ _ _ => Some None
            end
      | None => None
      end
  end.

Definition pages_freed_at t (through exact : gmap NodeId nat) (n : NodeId) (dropped : nat) :
    option nat :=
  match node t n with
  | None => Some 0
  | Some e =>
      match pages e with
      | ParentSelection _ => Some 0
      | Owned backings _ _ =>
          if decide (path_anchors e = dropped) then
            Some (length (filter (λ b, is_resident b = true) backings))
          else if bool_decide (exact_anchors e ≠ default 0 (exact !! n)) || swap_locked t n then
            Some 0
          else
            match staying_runs t through (children e) with
            | Some (Some taken) =>
                let kept := expand (union taken) in
                Some (length (filter (λ p, is_resident p.2 = true ∧ p.1 ∉ kept)
                                (imap pair backings)))
            | Some None => Some 0
            | None => None
            end
      end
  end.

Definition device_pages_freed t (roots : list NodeId) : option nat :=
  match through_loop t roots ∅ ∅ with
  | Some (through, exact) =>
      match mapM (λ p, pages_freed_at t through exact p.1 p.2) (map_to_list through) with
      | Some counts => Some (sum_list counts)
      | None => None
      end
  | None => None
  end.

Definition unused_cache_lease_pages t : option nat :=
  match unused_cache_roots t with
  | Some roots => device_pages_freed t roots
  | None => None
  end.

(** ** Moves *)

Definition in_move_at t (root : NodeId) : option bool :=
  if decide (swap_locations t = ∅) then Some false
  else
    match path_nodes t root with
    | Some path =>
        Some (existsb (λ l, bool_decide (loc_node l ∈ path)) (elements (swap_locations t)))
    | None => None
    end.

Fixpoint suspended_readers_loop (moved : gset TriePageLocation)
    (l : list (WorkingSetId * WorkingSetEntry)) (readers : gset WorkingSetId) :
    tm (gset WorkingSetId) :=
  match l with
  | [] => mok readers
  | (ws, e) :: l =>
      if negb (suspended e) then suspended_readers_loop moved l readers
      else
        locs ⇐ visit_or_skip ws ;;
        suspended_readers_loop moved l
          (if existsb (λ l, bool_decide (l ∈ moved)) locs then {[ws]} ∪ readers else readers)
  end.

Definition suspended_readers (pages : list (TriePageLocation * PhysicalKvPageId)) :
    tm (gset WorkingSetId) :=
  t ⇐ mget ;;
  suspended_readers_loop (list_to_set pages.*1) (st_iter (working_sets t)) ∅.

Definition set_suspended (group : gset WorkingSetId) (b : bool) : tm unit :=
  mfor (elements group) (λ ws, mor_else (update_entry ws (λ e, with_suspended e b)) tt).

Definition in_move (group : gset WorkingSetId) : tm bool :=
  locs ⇐ locations group ;;
  t ⇐ mget ;;
  mok (existsb (λ l, bool_decide (l ∈ swap_locations t)) (elements locs)).

Definition settled_on_device t (terminal : NodeId) : option bool :=
  match anchor_locations t terminal with
  | Some locs => Some (forallb (settled_at t) locs)
  | None => None
  end.

Definition swapped_pages (group : gset WorkingSetId) :
    tm (list (TriePageLocation * KvPageBacking)) :=
  locs ⇐ locations group ;;
  t ⇐ mget ;;
  mok (omap (λ l, match backing_at t l with
                  | Ok (Resident _) => None
                  | Ok swapped => Some (l, swapped)
                  | _ => None
                  end) (elements locs)).

Definition held_pages (group : gset WorkingSetId) : tm nat :=
  locs ⇐ locations group ;; mok (size locs).

Fixpoint terminals_of (l : list WorkingSetId) (acc : gset NodeId) : tm (gset NodeId) :=
  match l with
  | [] => mok acc
  | ws :: l =>
      e ⇐ entry ws ;;
      terminals_of l (match terminal e with Some n => {[n]} ∪ acc | None => acc end)
  end.

Definition pin_working_sets (group : gset WorkingSetId) : tm (list NodeId) :=
  terminals ⇐ terminals_of (elements group) ∅ ;;
  mfor (elements terminals) pin ;;;
  mok (elements terminals).

Definition unpin_terminals (terminals : list NodeId) : tm (list KvPageBacking) :=
  mextend terminals unpin.

Definition page_location_pinned t (l : TriePageLocation) : bool :=
  bool_decide (l ∈ swap_locations t).

Definition pin_swap_locations (ls : list TriePageLocation) : tm unit :=
  mfor ls (λ l,
    t ⇐ mget ;;
    mmodify (λ t, set_swap_locations t ({[l]} ∪ swap_locations t)) ;;;
    mguard (l ∉ swap_locations t)).

Fixpoint unpin_swap_loop (ls : list TriePageLocation) (owners : gset NodeId) :
    tm (gset NodeId) :=
  match ls with
  | [] => mok owners
  | l :: ls =>
      t ⇐ mget ;;
      mmodify (λ t, set_swap_locations t (swap_locations t ∖ {[l]})) ;;;
      unpin_swap_loop ls
        (if decide (l ∈ swap_locations t) then {[loc_node l]} ∪ owners else owners)
  end.

Definition unpin_swap_locations (ls : list TriePageLocation) : tm (list KvPageBacking) :=
  owners ⇐ unpin_swap_loop ls ∅ ;;
  mextend (elements owners) compact_owner.

(** [backings[local] = replacement]. *)
Definition replace_backing (l : TriePageLocation) (b : KvPageBacking) : tm unit :=
  t ⇐ mget ;;
  match node t (loc_node l) with
  | None => merr BackingChanged
  | Some e =>
      match pages e with
      | Owned backings token_hashes page_hashes =>
          if decide (loc_local l < length backings) then
            mmodify (λ t, put_node t (loc_node l)
              (with_pages e (Owned (<[loc_local l := b]> backings) token_hashes page_hashes)))
          else mpanic
      | ParentSelection _ => merr BackingChanged
      end
  end.

Definition replace_backings
    (replacements : list (TriePageLocation * KvPageBacking * KvPageBacking)) : tm unit :=
  mfor replacements (λ r,
    b ⇐ (λ t, (backing_at t r.1.1, t)) ;;
    if decide (b ≠ r.1.2) then merr BackingChanged else mok tt) ;;;
  mfor replacements (λ r, replace_backing r.1.1 r.2).
End move.
End KvMove.
