(* ===== verification/KvTrie.v ===== *)
(** The trie of nodes as a finite map, apart from the table that stores it:
    its shape (chains to the roots, children against parent links, owned pages
    and prefix selections of them), its anchor counts, the pages a node's path
    names, and what each primitive change of the table does to them. *)
From S2P Require Import Prelude Ids Runs KvTable.

Module KvTrie.
Import Runs KvTable.

Abbreviation trie := (gmap NodeId KvTrieNode).
Implicit Types m : trie.

(** ** Chains *)

(** The nodes from [n] to its root. *)
Inductive chain (m : trie) : NodeId → list NodeId → Prop :=
  | chain_root n e : m !! n = Some e → parent e = None → chain m n [n]
  | chain_up n e p l :
      m !! n = Some e → parent e = Some p → chain m p l → chain m n (n :: l).

Lemma chain_fun m n l l' : chain m n l → chain m n l' → l = l'.
Proof.
  intros Hc. revert l'. induction Hc as [n e He Hp|n e p l He Hp Hc IH]; intros l' Hl';
    inversion Hl'; simplify_eq; [done|]. f_equal. auto.
Qed.

Lemma chain_cons m n l : chain m n l → ∃ l', l = n :: l'.
Proof. destruct 1; eauto. Qed.

Lemma chain_live m n l : chain m n l → is_Some (m !! n).
Proof. destruct 1; eauto. Qed.

Lemma chain_suffix m n l k :
  chain m n l → k ∈ l → ∃ l1 l2, l = l1 ++ l2 ∧ chain m k l2.
Proof.
  induction 1 as [n e He Hp|n e p l He Hp Hc IH]; intros Hk.
  - apply list_elem_of_singleton in Hk as ->. exists [], [n]. split; [done|by econstructor].
  - apply elem_of_cons in Hk as [->|Hk].
    + exists [], (n :: l). split; [done|by econstructor].
    + destruct (IH Hk) as (l1 & l2 & -> & Hc'). by exists (n :: l1), l2.
Qed.

Lemma chain_elem_live m n l k : chain m n l → k ∈ l → is_Some (m !! k).
Proof. intros Hc Hk. destruct (chain_suffix _ _ _ _ Hc Hk) as (?&?&_&?). by eapply chain_live. Qed.

Lemma chain_NoDup m n l : chain m n l → NoDup l.
Proof.
  induction 1 as [n e He Hp|n e p l He Hp Hc IH]; [apply NoDup_singleton|].
  apply NoDup_cons. split; [|done]. intros Hn.
  destruct (chain_suffix _ _ _ _ Hc Hn) as (l1 & l2 & -> & Hc').
  assert (n :: l1 ++ l2 = l2) as Heq%(f_equal length) by (eapply chain_fun; [by econstructor|done]).
  simpl in Heq. rewrite length_app in Heq. lia.
Qed.

Lemma chain_length m n l : chain m n l → length l ≤ size m.
Proof.
  intros Hc. rewrite <-size_dom.
  rewrite <-(size_list_to_set (C := gset NodeId)) by by eapply chain_NoDup.
  apply subseteq_size. intros k Hk%elem_of_list_to_set. apply elem_of_dom.
  by eapply chain_elem_live.
Qed.

Lemma chain_parent_elem m n l c e p :
  chain m n l → c ∈ l → m !! c = Some e → parent e = Some p → p ∈ l.
Proof.
  intros Hc Hk He Hp. destruct (chain_suffix _ _ _ _ Hc Hk) as (l1 & l2 & -> & Hc').
  inversion Hc'; simplify_eq. destruct (chain_cons m p l) as [? ->]; [done|]. set_solver.
Qed.

Lemma chain_child m n l k :
  chain m n l → k ∈ l → k ≠ n → ∃ c e, c ∈ l ∧ m !! c = Some e ∧ parent e = Some k.
Proof.
  induction 1 as [n e He Hp|n e p l He Hp Hc IH]; intros Hk Hne; [set_solver|].
  apply elem_of_cons in Hk as [->|Hk]; [done|].
  destruct (decide (k = p)) as [->|Hkp].
  - exists n, e. set_solver.
  - destruct (IH Hk Hkp) as (c & e' & ? & ? & ?). exists c, e'. set_solver.
Qed.

Lemma chain_child_unique m n l k c c' e e' :
  chain m n l → c ∈ l → c' ∈ l → m !! c = Some e → m !! c' = Some e' →
  parent e = Some k → parent e' = Some k → c = c'.
Proof.
  intros Hc H1 H2 He He' Hp Hp'.
  destruct (chain_suffix _ _ _ _ Hc H1) as (l1 & l2 & Hl & Hc1).
  destruct (chain_suffix _ _ _ _ Hc H2) as (l1' & l2' & Hl' & Hc2).
  assert (∃ lk, l2 = c :: lk ∧ chain m k lk) as (lk & -> & Hk).
  { inversion Hc1; simplify_eq; eauto. }
  assert (∃ lk, l2' = c' :: lk ∧ chain m k lk) as (lk' & -> & Hk').
  { inversion Hc2; simplify_eq; eauto. }
  rewrite (chain_fun _ _ _ _ Hk' Hk) in Hl'. rewrite Hl in Hl'.
  apply (app_inj_2 l1 l1') in Hl' as [_ ?]; [by simplify_eq|done].
Qed.

(** No child of the bottom of a chain is on it. *)
Lemma chain_bottom_child m n l c e :
  chain m n l → m !! c = Some e → parent e = Some n → c ∉ l.
Proof.
  intros Hc He Hp Hin. destruct (chain_suffix _ _ _ _ Hc Hin) as (l1 & l2 & -> & Hc').
  inversion Hc' as [|? ? ? lk ? ? Hk]; simplify_eq.
  pose proof (chain_fun _ _ _ _ Hc Hk) as Heq%(f_equal length).
  rewrite length_app in Heq. simpl in Heq. lia.
Qed.

(** ** Shape *)

Definition page_ok m (e : KvTrieNode) : Prop :=
  match pages e with
  | Owned b th ph => 0 < length b ∧ length th = length b ∧ length ph = length b
  | ParentSelection rs =>
      ∃ o eo off, parent e = Some o ∧ m !! o = Some eo ∧ is_owned (pages eo) = true ∧
        rs = [(0, off)] ∧ 0 < off ≤ length (owned_backings (pages eo))
  end.

(** The links, both ways, and the pages. *)
Record shape (m : trie) : Prop := {
  sh_chain n : is_Some (m !! n) → ∃ l, chain m n l;
  sh_children n e c :
    m !! n = Some e → c ∈ children e ↔ ∃ ec, m !! c = Some ec ∧ parent ec = Some n;
  sh_nodup n e : m !! n = Some e → NoDup (children e);
  sh_pages n e : m !! n = Some e → page_ok m e;
}.

Definition path_of m (n : NodeId) : nat := from_option path_anchors 0 (m !! n).

(** The anchors of a node's path are its own and those below it. *)
Definition counts m : Prop := ∀ n e, m !! n = Some e →
  path_anchors e = exact_anchors e + sum_list (path_of m <$> children e).

(** Two tries that differ in their counts alone. *)
Definition skel (e : KvTrieNode) : option NodeId * list NodeId * Pages :=
  (parent e, children e, pages e).

Definition same_shape m m' : Prop := ∀ n, skel <$> m !! n = skel <$> m' !! n.

Lemma same_shape_lookup m m' n e :
  same_shape m m' → m !! n = Some e → ∃ e', m' !! n = Some e' ∧
    parent e' = parent e ∧ children e' = children e ∧ pages e' = pages e.
Proof.
  intros Hs He. specialize (Hs n). rewrite He in Hs.
  destruct (m' !! n) as [e'|]; [|done]. exists e'. by simplify_eq/=.
Qed.

Lemma same_shape_sym m m' : same_shape m m' → same_shape m' m.
Proof. intros Hs n. by rewrite Hs. Qed.

Lemma same_shape_chain m m' n l : same_shape m m' → chain m n l → chain m' n l.
Proof.
  intros Hs. induction 1 as [n e He Hp|n e p l He Hp Hc IH];
    destruct (same_shape_lookup _ _ _ _ Hs He) as (e' & He' & Hp' & _ & _).
  - apply (chain_root _ _ e'); [done|congruence].
  - apply (chain_up _ _ e' p); [done|congruence|done].
Qed.

Lemma same_shape_shape m m' : same_shape m m' → shape m → shape m'.
Proof.
  intros Hs [H1 H2 H3 H4].
  assert (Hs' := same_shape_sym _ _ Hs).
  split.
  - intros n [e He]. destruct (same_shape_lookup _ _ _ _ Hs' He) as (e' & He' & _).
    destruct (H1 n) as [l Hl]; [by eexists|]. exists l. by eapply same_shape_chain.
  - intros n e c He. destruct (same_shape_lookup _ _ _ _ Hs' He) as (e' & He' & _ & Hc & _).
    rewrite <-Hc, (H2 _ _ _ He'). split; intros (ec & Hec & Hp).
    + destruct (same_shape_lookup _ _ _ _ Hs Hec) as (ec' & ? & ? & _). exists ec'. split; congruence.
    + destruct (same_shape_lookup _ _ _ _ Hs' Hec) as (ec' & ? & ? & _). exists ec'. split; congruence.
  - intros n e He. destruct (same_shape_lookup _ _ _ _ Hs' He) as (e' & He' & _ & Hc & _).
    rewrite <-Hc. eauto.
  - intros n e He. destruct (same_shape_lookup _ _ _ _ Hs' He) as (e' & He' & Hp & Hc & Hpg).
    specialize (H4 _ _ He'). unfold page_ok in *. rewrite Hpg in H4.
    destruct (pages e) as [|rs]; [done|].
    destruct H4 as (o & eo & off & Ho & Heo & Hown & ? & ?).
    destruct (same_shape_lookup _ _ _ _ Hs Heo) as (eo' & Heo' & _ & _ & Hpo).
    exists o, eo', off. rewrite Hpo. split_and!; first [done | congruence | lia].
Qed.

(** ** What a path names *)

(** A page where it lies, with what backs it. *)
Abbreviation cell := (TriePageLocation * KvPageBacking)%type.

Definition cells (n : NodeId) (b : list KvPageBacking) : list cell :=
  imap (λ i x, (mkLoc n i, x)) b.

(** What a node adds to a path, and where the path goes on. *)
Definition contrib m (n : NodeId) : option (list cell) :=
  match m !! n with
  | Some e =>
      match pages e with
      | Owned b _ _ => Some (cells n b)
      | ParentSelection rs =>
          match parent e with
          | Some o =>
              match m !! o with
              | Some eo => Some (take (runs_len rs) (cells o (owned_backings (pages eo))))
              | None => None
              end
          | None => None
          end
      end
  | None => None
  end.

Definition pred m (n : NodeId) : option (option NodeId) :=
  match m !! n with
  | Some e =>
      match pages e with
      | ParentSelection _ =>
          match parent e with Some o => parent <$> m !! o | None => None end
      | Owned _ _ _ => Some (parent e)
      end
  | None => None
  end.

(** The pages on the path to [c], from the first, and the segments a walk from
    [c] finds them in. *)
Inductive walk (m : trie) : option NodeId → list cell → list Segment → Prop :=
  | walk_none : walk m None [] []
  | walk_some n own p v segs :
      contrib m n = Some own → pred m n = Some p → walk m p v segs →
      walk m (Some n) (v ++ own) (mkSegment n (Z.of_nat (length v)) (length own) :: segs).

Definition view m (c : option NodeId) (v : list cell) : Prop := ∃ segs, walk m c v segs.

Lemma walk_fun m c v segs v' segs' :
  walk m c v segs → walk m c v' segs' → v = v' ∧ segs = segs'.
Proof.
  intros Hw. revert v' segs'. induction Hw as [|n own p v segs Ho Hp Hw IH]; intros v' segs' Hw'.
  - by inversion Hw'.
  - inversion Hw' as [|? own' p' v1 segs1 Ho' Hp' Hw1]; simplify_eq.
    by destruct (IH _ _ Hw1) as [-> ->].
Qed.

Lemma view_fun m c v v' : view m c v → view m c v' → v = v'.
Proof. intros [? H1] [? H2]. by destruct (walk_fun _ _ _ _ _ _ H1 H2). Qed.

Lemma length_cells n b : length (cells n b) = length b.
Proof. apply length_imap. Qed.

Lemma cells_take n b k : cells n (take k b) = take k (cells n b).
Proof.
  apply list_eq. intros i. unfold cells. rewrite list_lookup_imap, !lookup_take.
  case_decide; [by rewrite list_lookup_imap|done].
Qed.

(** A change outside a set of nodes that is closed under [pred] leaves the
    paths in the set alone. *)
Lemma walk_frame m m' (S : NodeId → Prop) c v segs :
  (∀ n, S n → contrib m n = contrib m' n ∧ pred m n = pred m' n) →
  (∀ n p, S n → pred m n = Some (Some p) → S p) →
  (∀ n, c = Some n → S n) →
  walk m c v segs → walk m' c v segs.
Proof.
  intros Heq Hcl Hc Hw. induction Hw as [|n own p v segs Ho Hp Hw IH]; [constructor|].
  destruct (Heq n (Hc n eq_refl)) as [Ho' Hp'].
  apply (walk_some _ _ _ p); [congruence|congruence|]. apply IH. intros p' ->. by eapply Hcl; [apply Hc|].
Qed.

Lemma view_frame m m' (S : NodeId → Prop) c v :
  (∀ n, S n → contrib m n = contrib m' n ∧ pred m n = pred m' n) →
  (∀ n p, S n → pred m n = Some (Some p) → S p) →
  (∀ n, c = Some n → S n) →
  view m c v → view m' c v.
Proof. intros ??? [segs ?]. exists segs. by eapply walk_frame. Qed.

Lemma same_shape_contrib m m' n :
  same_shape m m' → contrib m n = contrib m' n ∧ pred m n = pred m' n.
Proof.
  intros Hs. unfold contrib, pred.
  destruct (m !! n) as [e|] eqn:He.
  2: { specialize (Hs n). rewrite He in Hs. by destruct (m' !! n). }
  destruct (same_shape_lookup _ _ _ _ Hs He) as (e' & -> & Hp & _ & Hpg).
  rewrite Hp, Hpg. destruct (pages e); [done|]. destruct (parent e) as [o|]; [|done].
  destruct (m !! o) as [eo|] eqn:Heo.
  - destruct (same_shape_lookup _ _ _ _ Hs Heo) as (eo' & -> & Hpo & _ & Hpgo).
    by rewrite Hpgo; simpl; rewrite Hpo.
  - specialize (Hs o). rewrite Heo in Hs. by destruct (m' !! o).
Qed.

Lemma same_shape_view m m' c v : same_shape m m' → view m c v → view m' c v.
Proof.
  intros Hs. apply (view_frame m m' (λ _, True)); [|done..].
  intros n _. by apply same_shape_contrib.
Qed.

Section shape_facts.
Context (m : trie) (Hm : shape m).

Lemma shape_parent_live n e p : m !! n = Some e → parent e = Some p → is_Some (m !! p).
Proof.
  intros He Hp. destruct (sh_chain _ Hm n) as [l Hl]; [by eexists|].
  inversion Hl; simplify_eq. by eapply chain_live.
Qed.

Lemma shape_child n e c :
  m !! n = Some e → c ∈ children e → ∃ ec, m !! c = Some ec ∧ parent ec = Some n.
Proof. intros He Hc. by apply (sh_children _ Hm n e c). Qed.

Lemma shape_sel n e rs :
  m !! n = Some e → pages e = ParentSelection rs →
  ∃ o eo b th ph off, parent e = Some o ∧ m !! o = Some eo ∧ pages eo = Owned b th ph ∧
    rs = [(0, off)] ∧ 0 < off ≤ length b.
Proof.
  intros He Hp. pose proof (sh_pages _ Hm _ _ He) as Hok. unfold page_ok in Hok.
  rewrite Hp in Hok. destruct Hok as (o & eo & off & ? & ? & Ho & -> & ?).
  destruct (pages eo) as [b th ph|] eqn:Hpo; [|done]. by exists o, eo, b, th, ph, off.
Qed.

(** The length of what a node adds. *)
Lemma contrib_pred_some n :
  is_Some (m !! n) →
  ∃ own p, contrib m n = Some own ∧ pred m n = Some p ∧ 0 < length own.
Proof.
  intros [e He]. unfold contrib, pred. rewrite He.
  destruct (pages e) as [b th ph|rs] eqn:Hpg.
  - pose proof (sh_pages _ Hm _ _ He) as Hok. unfold page_ok in Hok. rewrite Hpg in Hok.
    eexists _, _. split_and!; [done..|]. rewrite length_cells. lia.
  - destruct (shape_sel _ _ _ He Hpg) as (o & eo & b & th & ph & off & -> & Ho & Hpo & -> & ?).
    rewrite Ho, Hpo. eexists _, _. split_and!; [done..|].
    rewrite length_take, length_cells. unfold runs_len; simpl. lia.
Qed.

(** A path goes on strictly further up its chain. *)
Lemma pred_chain n l p :
  chain m n l → pred m n = Some (Some p) →
  ∃ l1 l2, l = l1 ++ l2 ∧ chain m p l2 ∧ l1 ≠ [].
Proof.
  intros Hc. unfold pred. inversion Hc as [? e He Hp|? e q l' He Hp Hc']; subst; rewrite He.
  - destruct (pages e) as [| rs] eqn:Hpg; [by rewrite Hp|].
    destruct (shape_sel _ _ _ He Hpg) as (o & ? & ? & ? & ? & ? & ? & _). congruence.
  - rewrite Hp. destruct (pages e) as [|rs] eqn:Hpg.
    + intros [= <-]. by exists [n], l'.
    + inversion Hc' as [? eq Heq Hpq|? eq q' l'' Heq Hpq Hc'']; subst; rewrite Heq; simpl.
      * by rewrite Hpq.
      * rewrite Hpq. intros [= <-]. by exists [n; q], l''.
Qed.

Lemma pred_live n p : pred m n = Some (Some p) → is_Some (m !! p).
Proof.
  intros Hp. assert (is_Some (m !! n)) as Hn.
  { unfold pred in Hp. destruct (m !! n); [by eexists|done]. }
  destruct (sh_chain _ Hm n Hn) as [l Hl].
  destruct (pred_chain _ _ _ Hl Hp) as (? & ? & _ & ? & _). by eapply chain_live.
Qed.

Lemma walk_total n : is_Some (m !! n) → ∃ v segs, walk m (Some n) v segs.
Proof.
  intros Hn. destruct (sh_chain _ Hm n Hn) as [l Hl].
  remember (length l) as k eqn:Hk. revert n Hn l Hl Hk.
  induction k as [k IH] using lt_wf_ind; intros n Hn l Hl ->.
  destruct (contrib_pred_some n Hn) as (own & p & Ho & Hp & _).
  destruct p as [p|]; [|eexists _, _; by repeat econstructor].
  destruct (pred_chain _ _ _ Hl Hp) as (l1 & l2 & -> & Hc & Hne).
  destruct (IH (length l2)) with (n := p) (l := l2) as (v & segs & Hw); [|by eapply chain_live|done..|].
  { rewrite length_app. destruct l1; simpl; [done|lia]. }
  eexists _, _. by econstructor.
Qed.

Lemma view_total n : is_Some (m !! n) → ∃ v, view m (Some n) v.
Proof. intros Hn. destruct (walk_total n Hn) as (v & segs & ?). by exists v, segs. Qed.
End shape_facts.
End KvTrie.
