(* ===== verification/KvChange.v ===== *)
(** What the primitive changes of the page table do to its trie: counting an
    anchor up or down a chain, pruning what nothing anchors, cutting an owner
    down to the pages its selections take, adding a leaf, and extending a node
    in place. Each keeps the shape and the counts, moves no page to another
    path, and accounts for every backing. *)
From S2P Require Import Prelude Ids Runs KvTable KvTrie.

Module KvChange.
Import Runs KvTable KvTrie.
Implicit Types m : trie.

(** ** The backings a trie holds *)

Definition backs m : gmap NodeId (list KvPageBacking) :=
  (λ e, owned_backings (pages e)) <$> m.

(** Every page with its location. *)
Definition cells_by (b : gmap NodeId (list KvPageBacking)) : list cell :=
  concat ((λ p, cells p.1 p.2) <$> map_to_list b).

Definition all_cells m : list cell := cells_by (backs m).

Definition held m : list KvPageBacking := (all_cells m).*2.

Lemma cells_by_insert b n x :
  b !! n = None → cells_by (<[n := x]> b) ≡ₚ cells n x ++ cells_by b.
Proof. intros Hn. unfold cells_by. by rewrite map_to_list_insert. Qed.

Lemma cells_by_delete b n x :
  b !! n = Some x → cells_by b ≡ₚ cells n x ++ cells_by (delete n b).
Proof.
  intros Hn. rewrite <-(insert_delete_id b n x) at 1 by done.
  apply cells_by_insert, lookup_delete_eq.
Qed.

Lemma cells_by_update b n x y :
  b !! n = Some x → cells_by (<[n := y]> b) ≡ₚ cells n y ++ cells_by (delete n b).
Proof.
  intros Hn. rewrite (cells_by_delete (<[n := y]> b) n y) by apply lookup_insert_eq.
  by rewrite delete_insert_eq.
Qed.

Lemma elem_of_cells n b l x :
  (l, x) ∈ cells n b ↔ loc_node l = n ∧ b !! loc_local l = Some x.
Proof.
  unfold cells. rewrite elem_of_lookup_imap. split.
  - intros (i & y & Heq & Hi). by simplify_eq/=.
  - intros [<- Hx]. exists (loc_local l), x. by destruct l.
Qed.

Lemma elem_of_cells_by b l x :
  (l, x) ∈ cells_by b ↔ ∃ ls, b !! loc_node l = Some ls ∧ ls !! loc_local l = Some x.
Proof.
  unfold cells_by. rewrite elem_of_concat. setoid_rewrite list_elem_of_fmap. split.
  - intros (c & ([n ls] & -> & Hl%elem_of_map_to_list) & [Hn Hx]%elem_of_cells).
    simpl in *. subst. by exists ls.
  - intros (ls & Hl & Hx). eexists. split; [exists (loc_node l, ls); split; [done|]|].
    + by apply elem_of_map_to_list.
    + by apply elem_of_cells.
Qed.

Lemma elem_of_all_cells m l x :
  (l, x) ∈ all_cells m ↔
  ∃ e, m !! loc_node l = Some e ∧ owned_backings (pages e) !! loc_local l = Some x.
Proof.
  unfold all_cells. rewrite elem_of_cells_by. unfold backs. setoid_rewrite lookup_fmap.
  setoid_rewrite fmap_Some. naive_solver.
Qed.

Lemma NoDup_cells n b : NoDup (cells n b).*1.
Proof.
  unfold cells. rewrite fmap_imap. apply NoDup_alt. intros i j x.
  rewrite !list_lookup_imap. intros (y & ? & ->)%fmap_Some (y' & ? & Heq)%fmap_Some.
  by simplify_eq/=.
Qed.

(** A location is one page's. *)
Lemma NoDup_all_cells m : NoDup (all_cells m).*1.
Proof.
  unfold all_cells. induction (backs m) as [|n x b Hn IH] using map_ind.
  { apply NoDup_nil_2. }
  rewrite (cells_by_insert b n x Hn), fmap_app. apply NoDup_app. split_and!; [apply NoDup_cells| |done].
  intros l ([l' y] & -> & [Hl _]%elem_of_cells)%list_elem_of_fmap
    ([l'' z] & Heq & (ls & Hls & _)%elem_of_cells_by)%list_elem_of_fmap.
  simplify_eq/=.
Qed.

Lemma same_shape_backs m m' : same_shape m m' → backs m = backs m'.
Proof.
  intros Hs. apply map_eq. intros n. unfold backs. rewrite !lookup_fmap.
  destruct (m !! n) as [e|] eqn:He.
  - destruct (same_shape_lookup _ _ _ _ Hs He) as (e' & -> & _ & _ & Hp). simpl. by rewrite Hp.
  - specialize (Hs n). rewrite He in Hs. by destruct (m' !! n).
Qed.

(** ** Counting anchors *)

Definition recount (fx fp : NodeId → nat → nat) m : trie :=
  map_imap (λ k e, Some (mkNode (parent e) (children e) (pages e)
    (fx k (exact_anchors e)) (fp k (path_anchors e)))) m.

Lemma recount_lookup fx fp m k :
  recount fx fp m !! k = (λ e, mkNode (parent e) (children e) (pages e)
    (fx k (exact_anchors e)) (fp k (path_anchors e))) <$> m !! k.
Proof. unfold recount. rewrite map_lookup_imap. by destruct (m !! k). Qed.

Lemma recount_same_shape fx fp m : same_shape m (recount fx fp m).
Proof. intros k. rewrite recount_lookup. by destruct (m !! k). Qed.

Definition on_chain (l : list NodeId) (k : NodeId) : nat := if decide (k ∈ l) then 1 else 0.

Definition anchor_up (n : NodeId) (l : list NodeId) m : trie :=
  recount (λ k x, x + on_chain [n] k) (λ k x, x + on_chain l k) m.
Definition anchor_down (n : NodeId) (l : list NodeId) m : trie :=
  recount (λ k x, x - on_chain [n] k) (λ k x, x - on_chain l k) m.

Lemma sum_list_le_elem (l : list nat) x : x ∈ l → x ≤ sum_list l.
Proof. induction 1; simpl; lia. Qed.

Lemma sum_list_add {A} (f g : A → nat) (l : list A) :
  sum_list ((λ a, f a + g a) <$> l) = sum_list (f <$> l) + sum_list (g <$> l).
Proof. induction l as [|a l IH]; csimpl; [done|lia]. Qed.

Lemma sum_list_sub {A} (f g : A → nat) (l : list A) :
  (∀ a, a ∈ l → g a ≤ f a) →
  sum_list ((λ a, f a - g a) <$> l) = sum_list (f <$> l) - sum_list (g <$> l) ∧
  sum_list (g <$> l) ≤ sum_list (f <$> l).
Proof.
  induction l as [|a l IH]; intros Hle; csimpl; [done|].
  destruct IH as [-> Hs]; [set_solver|].
  specialize (Hle a ltac:(set_solver)). lia.
Qed.

Lemma on_chain_none l cs :
  (∀ c, c ∈ cs → c ∉ l) → sum_list (on_chain l <$> cs) = 0.
Proof.
  induction cs as [|c cs IH]; intros Hn; csimpl; [done|].
  unfold on_chain at 1. rewrite decide_False by set_solver. apply IH. set_solver.
Qed.

(** One child of each node above the bottom is on the chain. *)
Lemma chain_children_sum m n l k e :
  shape m → chain m n l → m !! k = Some e →
  sum_list (on_chain l <$> children e) = on_chain l k - on_chain [n] k.
Proof.
  intros Hm Hc He. unfold on_chain at 2 3.
  destruct (decide (k = n)) as [->|Hne].
  - rewrite (decide_True (P := n ∈ [n])) by set_solver. rewrite on_chain_none.
    + case_decide; lia.
    + intros c Hcc. destruct (shape_child _ Hm _ _ _ He Hcc) as (ec & Hec & Hp).
      by eapply chain_bottom_child.
  - rewrite (decide_False (P := k ∈ [n])) by set_solver. case_decide as Hk.
    + destruct (chain_child _ _ _ _ Hc Hk Hne) as (c & ec & Hcl & Hec & Hp).
      assert (Hcc : c ∈ children e) by (apply (sh_children _ Hm _ _ _ He); eauto).
      apply elem_of_Permutation in Hcc as [cs Hcs].
      pose proof (sh_nodup _ Hm _ _ He) as Hnd. rewrite Hcs in Hnd |- *.
      apply NoDup_cons in Hnd as [Hnc _]. csimpl.
      rewrite on_chain_none; [unfold on_chain; rewrite decide_True by done; lia|].
      intros c' Hc' Hin. assert (c' ∈ children e) as Hc'' by (rewrite Hcs; set_solver).
      destruct (shape_child _ Hm _ _ _ He Hc'') as (ec' & Hec' & Hp').
      by assert (c = c') as -> by by eapply chain_child_unique.
    + apply on_chain_none. intros c Hcc Hin.
      destruct (shape_child _ Hm _ _ _ He Hcc) as (ec & Hec & Hp).
      by apply Hk; eapply chain_parent_elem.
Qed.

Lemma path_of_recount fx fp m c :
  is_Some (m !! c) → path_of (recount fx fp m) c = fp c (path_of m c).
Proof. intros [e He]. unfold path_of. by rewrite recount_lookup, He. Qed.

Lemma path_of_child m n e c :
  counts m → m !! n = Some e → c ∈ children e → path_of m c ≤ path_anchors e.
Proof.
  intros Hct He Hc. rewrite (Hct _ _ He).
  assert (path_of m c ≤ sum_list (path_of m <$> children e)); [|lia].
  apply sum_list_le_elem. by apply list_elem_of_fmap_2.
Qed.

(** A node on a chain counts at least the anchors of the chain's bottom. *)
Lemma path_of_chain m n l k :
  shape m → counts m → chain m n l → k ∈ l → path_of m n ≤ path_of m k.
Proof.
  intros Hm Hct. induction 1 as [n e He Hp|n e p l He Hp Hc IH]; intros Hk.
  - by apply list_elem_of_singleton in Hk as ->.
  - apply elem_of_cons in Hk as [->|Hk]; [done|]. etrans; [|by apply IH].
    destruct (shape_parent_live _ Hm _ _ _ He Hp) as [ep Hep].
    unfold path_of at 2. rewrite Hep. simpl. eapply path_of_child; [done..|].
    apply (sh_children _ Hm _ _ _ Hep). eauto.
Qed.

Lemma anchor_up_counts m n l :
  shape m → counts m → chain m n l → counts (anchor_up n l m).
Proof.
  intros Hm Hct Hc k e. unfold anchor_up. rewrite recount_lookup.
  destruct (m !! k) as [e0|] eqn:He; [|done]. intros [= <-]; cbn [path_anchors exact_anchors children].
  rewrite (Hct _ _ He).
  assert (path_of (recount (λ k x, x + on_chain [n] k) (λ k x, x + on_chain l k) m) <$> children e0
    = (λ c, path_of m c + on_chain l c) <$> children e0) as ->.
  { apply list_fmap_ext. intros i c Hi%list_elem_of_lookup_2.
    destruct (shape_child _ Hm _ _ _ He Hi) as (ec & Hec & _).
    by rewrite path_of_recount by eauto. }
  rewrite sum_list_add, (chain_children_sum _ _ _ _ _ Hm Hc He).
  assert (on_chain [n] k ≤ on_chain l k); [|lia].
  unfold on_chain. destruct (chain_cons _ _ _ Hc) as [l' ->].
  repeat case_decide; set_solver.
Qed.

Lemma anchor_down_counts m n l e :
  shape m → counts m → chain m n l → m !! n = Some e → 0 < exact_anchors e →
  counts (anchor_down n l m).
Proof.
  intros Hm Hct Hc Hn Hx k e'. unfold anchor_down. rewrite recount_lookup.
  destruct (m !! k) as [e0|] eqn:He; [|done]. intros [= <-]; cbn [path_anchors exact_anchors children].
  assert (Hpos : ∀ c, is_Some (m !! c) → on_chain l c ≤ path_of m c).
  { intros c Hl. unfold on_chain. case_decide as Hin; [|lia].
    etrans; [|by apply (path_of_chain _ _ _ _ Hm Hct Hc Hin)].
    unfold path_of. rewrite Hn; simpl. rewrite (Hct _ _ Hn). lia. }
  assert (path_of (recount (λ k x, x - on_chain [n] k) (λ k x, x - on_chain l k) m) <$> children e0
    = (λ c, path_of m c - on_chain l c) <$> children e0) as ->.
  { apply list_fmap_ext. intros i c Hi%list_elem_of_lookup_2.
    destruct (shape_child _ Hm _ _ _ He Hi) as (ec & Hec & _).
    by rewrite path_of_recount by eauto. }
  destruct (sum_list_sub (path_of m) (on_chain l) (children e0)) as [-> Hle].
  { intros c Hcc. destruct (shape_child _ Hm _ _ _ He Hcc) as (ec & Hec & _). eauto. }
  rewrite (chain_children_sum _ _ _ _ _ Hm Hc He) in Hle |- *. rewrite (Hct _ _ He).
  assert (on_chain [n] k ≤ exact_anchors e0).
  { unfold on_chain. case_decide as Hk; [|lia]. apply list_elem_of_singleton in Hk as ->.
    simplify_eq. lia. }
  assert (on_chain [n] k ≤ on_chain l k); [|lia].
  unfold on_chain. destruct (chain_cons _ _ _ Hc) as [l' ->].
  repeat case_decide; set_solver.
Qed.

(** ** Pruning *)

Definition prune (R : list NodeId) m : trie :=
  map_imap (λ k e, if decide (k ∈ R) then None
                   else Some (with_children e (filter (λ c, c ∉ R) (children e)))) m.

Lemma prune_lookup R m k :
  prune R m !! k = if decide (k ∈ R) then None
                   else (λ e, with_children e (filter (λ c, c ∉ R) (children e))) <$> m !! k.
Proof. unfold prune. rewrite map_lookup_imap. destruct (m !! k); simpl; by case_decide. Qed.

Lemma prune_lookup_Some R m k e' :
  prune R m !! k = Some e' ↔
  (k ∉ R) ∧ ∃ e, m !! k = Some e ∧ e' = with_children e (filter (λ c, c ∉ R) (children e)).
Proof.
  rewrite prune_lookup. case_decide; [naive_solver|]. rewrite fmap_Some. naive_solver.
Qed.

Lemma prune_nil m : prune [] m = m.
Proof.
  apply map_eq. intros k. rewrite prune_lookup, decide_False by apply not_elem_of_nil.
  destruct (m !! k) as [[]|]; simpl; [|done]. unfold with_children; simpl.
  by rewrite filter_all by (apply Forall_true; intros ?; apply not_elem_of_nil).
Qed.

Lemma prune_prune R1 R2 m : prune R2 (prune R1 m) = prune (R1 ++ R2) m.
Proof.
  apply map_eq. intros k. rewrite !prune_lookup.
  destruct (decide (k ∈ R2)) as [H2|H2]; [by rewrite decide_True by set_solver|].
  destruct (decide (k ∈ R1)) as [H1|H1]; [by rewrite decide_True by set_solver|].
  rewrite decide_False by set_solver. rewrite <-option_fmap_compose.
  apply option_fmap_ext. intros e. unfold compose, with_children; simpl. f_equal.
  rewrite list_filter_filter. apply list_filter_iff. set_solver.
Qed.

(** What can be pruned: live nodes that nothing anchors, with all below them. *)
Record prunable (m : trie) (R : list NodeId) : Prop := {
  pr_nodup : NoDup R;
  pr_zero k : k ∈ R → ∃ e, m !! k = Some e ∧ path_anchors e = 0;
  pr_down k e c : k ∈ R → m !! k = Some e → c ∈ children e → c ∈ R;
}.

Lemma prunable_nil m : prunable m [].
Proof. split; [apply NoDup_nil_2|set_solver..]. Qed.

Lemma prunable_app m R1 R2 :
  shape m → prunable m R1 → prunable (prune R1 m) R2 → prunable m (R1 ++ R2).
Proof.
  intros Hm [H1 H2 H3] [H1' H2' H3'].
  assert (Hd : ∀ k, k ∈ R2 → k ∉ R1).
  { intros k Hk Hk1. destruct (H2' _ Hk) as (e & He%prune_lookup_Some & _). naive_solver. }
  split.
  - apply NoDup_app. split_and!; [done| |done]. intros k Hk Hk2. by eapply Hd.
  - intros k [Hk|Hk]%elem_of_app; [by auto|].
    destruct (H2' _ Hk) as (e & (_ & e0 & He0 & ->)%prune_lookup_Some & He). by exists e0.
  - intros k e c [Hk|Hk]%elem_of_app He Hc; [apply elem_of_app; left; by eapply H3|].
    destruct (decide (c ∈ R1)) as [?|Hc1]; [set_solver|]. apply elem_of_app; right.
    eapply (H3' k); [done|apply prune_lookup_Some; split; [by apply Hd|by exists e]|].
    simpl. by apply list_elem_of_filter.
Qed.

Section prune.
Context (m : trie) (R : list NodeId) (Hm : shape m) (HR : prunable m R).

Lemma prunable_chain n l : chain m n l → n ∉ R → ∀ k, k ∈ l → k ∉ R.
Proof.
  induction 1 as [n e He Hp|n e p l He Hp Hc IH]; intros Hn k Hk; [set_solver|].
  apply elem_of_cons in Hk as [->|Hk]; [done|]. apply IH; [|done].
  intros HpR. destruct (shape_parent_live _ Hm _ _ _ He Hp) as [ep Hep].
  apply Hn. eapply (pr_down _ _ HR p); [done..|]. apply (sh_children _ Hm _ _ _ Hep). eauto.
Qed.

Lemma prune_chain n l : chain m n l → n ∉ R → chain (prune R m) n l.
Proof.
  intros Hc Hn. pose proof (prunable_chain _ _ Hc Hn) as Hl.
  induction Hc as [n e He Hp|n e p l He Hp Hc IH].
  - eapply chain_root; [by apply prune_lookup_Some; eauto|done].
  - eapply chain_up; [by apply prune_lookup_Some; eauto|done|].
    destruct (chain_cons _ _ _ Hc) as [l' ->]. apply IH; set_solver.
Qed.

Lemma prune_shape : shape (prune R m).
Proof.
  split.
  - intros n [e (Hn & e0 & He & ->)%prune_lookup_Some].
    destruct (sh_chain _ Hm n) as [l Hl]; [by eexists|]. exists l. by apply prune_chain.
  - intros n e c (Hn & e0 & He & ->)%prune_lookup_Some. simpl.
    rewrite list_elem_of_filter, (sh_children _ Hm _ _ _ He). split.
    + intros (Hc & ec & Hec & Hp). eexists. by rewrite prune_lookup, decide_False, Hec.
    + intros (ec & (Hc & ec0 & Hec & ->)%prune_lookup_Some & Hp). eauto.
  - intros n e (Hn & e0 & He & ->)%prune_lookup_Some. simpl.
    by apply NoDup_filter, (sh_nodup _ Hm n).
  - intros n e (Hn & e0 & He & ->)%prune_lookup_Some.
    pose proof (sh_pages _ Hm _ _ He) as Hok. unfold page_ok in *. simpl.
    destruct (pages e0) as [|rs]; [done|].
    destruct Hok as (o & eo & off & Ho & Heo & ? & ? & ?).
    assert (o ∉ R) as HoR.
    { intros HoR. apply Hn. eapply (pr_down _ _ HR o); [done..|].
      apply (sh_children _ Hm _ _ _ Heo). eauto. }
    eexists o, _, off. rewrite prune_lookup, decide_False, Heo by done. done.
Qed.

Lemma prune_path_of c : c ∉ R → path_of (prune R m) c = path_of m c.
Proof.
  intros Hc. unfold path_of. rewrite prune_lookup, decide_False by done. by destruct (m !! c).
Qed.

Lemma prune_counts : counts m → counts (prune R m).
Proof.
  intros Hct n e (Hn & e0 & He & ->)%prune_lookup_Some. simpl. rewrite (Hct _ _ He). f_equal.
  induction (children e0) as [|c cs IH]; [done|]. csimpl.
  destruct (decide (c ∈ R)) as [Hc|Hc].
  - rewrite filter_cons_False by naive_solver. rewrite <-IH.
    destruct (pr_zero _ _ HR _ Hc) as (ec & Hec & Hz). unfold path_of at 1. by rewrite Hec; simpl; rewrite Hz.
  - rewrite filter_cons_True by done. csimpl. by rewrite prune_path_of, IH.
Qed.

Lemma prune_contrib k :
  k ∉ R → contrib m k = contrib (prune R m) k ∧ pred m k = pred (prune R m) k.
Proof.
  intros Hk. unfold contrib, pred. rewrite prune_lookup, decide_False by done.
  destruct (m !! k) as [e|] eqn:He; [|done]. simpl.
  destruct (pages e) as [|rs] eqn:Hp; [done|]. destruct (parent e) as [o|] eqn:Ho; [|done].
  assert (o ∉ R) as HoR.
  { intros HoR. destruct (shape_parent_live _ Hm _ _ _ He Ho) as [eo Heo].
    apply Hk. eapply (pr_down _ _ HR o); [done..|]. apply (sh_children _ Hm _ _ _ Heo). eauto. }
  rewrite prune_lookup, decide_False by done. by destruct (m !! o).
Qed.

Lemma prune_pred k p : k ∉ R → pred m k = Some (Some p) → p ∉ R.
Proof.
  intros Hk Hp. assert (is_Some (m !! k)) as Hlk.
  { unfold pred in Hp. destruct (m !! k); [by eexists|done]. }
  destruct (sh_chain _ Hm k Hlk) as [l Hl].
  destruct (pred_chain _ Hm _ _ _ Hl Hp) as (l1 & l2 & -> & Hc & _).
  apply (prunable_chain _ _ Hl Hk). destruct (chain_cons _ _ _ Hc) as [? ->]. set_solver.
Qed.

Lemma prune_view c v : (∀ n, c = Some n → n ∉ R) → view m c v → view (prune R m) c v.
Proof.
  intros Hc. apply (view_frame m _ (λ k, k ∉ R)); [|apply prune_pred|done].
  intros n Hn. by apply prune_contrib.
Qed.
End prune.

(** The backings of the pruned nodes. *)
Definition backs_of m (R : list NodeId) : list KvPageBacking :=
  concat ((λ k, from_option (owned_backings ∘ pages) [] (m !! k)) <$> R).

Definition gone_of m (R : list NodeId) : list cell :=
  concat ((λ k, cells k (from_option (owned_backings ∘ pages) [] (m !! k))) <$> R).

Lemma snd_cells n b : (cells n b).*2 = b.
Proof.
  unfold cells. rewrite fmap_imap. apply list_eq. intros i. rewrite list_lookup_imap.
  by destruct (b !! i).
Qed.

Lemma gone_of_backs m R : (gone_of m R).*2 = backs_of m R.
Proof.
  unfold gone_of, backs_of. induction R as [|k R IH]; [done|]. csimpl.
  by rewrite fmap_app, snd_cells, IH.
Qed.

Lemma gone_of_node m R c : c ∈ gone_of m R → loc_node c.1 ∈ R.
Proof.
  unfold gone_of. intros (l & (k & -> & Hk)%list_elem_of_fmap & Hc)%elem_of_concat.
  destruct c as [c x]. apply elem_of_cells in Hc as [<- _]. done.
Qed.

Lemma backs_of_app m R1 R2 : backs_of m (R1 ++ R2) = backs_of m R1 ++ backs_of m R2.
Proof. unfold backs_of. by rewrite fmap_app, concat_app. Qed.

Lemma backs_of_ext m m' R :
  (∀ k, k ∈ R → backs m !! k = backs m' !! k) → backs_of m R = backs_of m' R.
Proof.
  intros Heq. unfold backs_of. f_equal. apply list_fmap_ext. intros i k Hk%list_elem_of_lookup_2.
  specialize (Heq k Hk). unfold backs in Heq. rewrite !lookup_fmap in Heq.
  destruct (m !! k), (m' !! k); simplify_eq/=; [done|done].
Qed.

Lemma backs_prune R m k :
  backs (prune R m) !! k = if decide (k ∈ R) then None else backs m !! k.
Proof.
  unfold backs. rewrite !lookup_fmap, prune_lookup. case_decide; [done|]. by destruct (m !! k).
Qed.

Lemma prune_cells m R : prunable m R → all_cells m ≡ₚ gone_of m R ++ all_cells (prune R m).
Proof.
  intros [Hnd Hz _].
  assert (Hl : ∀ k, k ∈ R → is_Some (m !! k)) by (intros k Hk; destruct (Hz k Hk); naive_solver).
  clear Hz. unfold all_cells.
  assert (∀ b, (∀ k, b !! k = if decide (k ∈ R) then None else backs m !! k) →
    cells_by (backs m) ≡ₚ gone_of m R ++ cells_by b) as Hgen.
  2: { apply Hgen. intros k. apply backs_prune. }
  induction R as [|n R IH]; intros b Hb.
  - assert (b = backs m) as ->; [|done]. apply map_eq. intros k. rewrite Hb.
    by rewrite decide_False by apply not_elem_of_nil.
  - apply NoDup_cons in Hnd as [Hn Hnd]. destruct (Hl n ltac:(set_solver)) as [e He].
    set (x := owned_backings (pages e)).
    assert (Hbn : backs m !! n = Some x) by (unfold backs; by rewrite lookup_fmap, He).
    rewrite (IH Hnd ltac:(set_solver) (<[n := x]> b)).
    + rewrite cells_by_insert by (rewrite Hb, decide_True; [done|set_solver]).
      unfold gone_of at 2. csimpl. rewrite He. simpl. fold x. fold (gone_of m R). solve_perm.
    + intros k. destruct (decide (k = n)) as [->|Hk].
      * rewrite lookup_insert_eq. by rewrite decide_False.
      * rewrite lookup_insert_ne by done. rewrite Hb.
        destruct (decide (k ∈ R)); [by rewrite decide_True by set_solver|].
        by rewrite decide_False by set_solver.
Qed.

(** ** New pages for a node *)

Definition repage (n : NodeId) (p : Pages) m : trie := alter (λ e, with_pages e p) n m.

Lemma repage_insert n p m e : m !! n = Some e → repage n p m = <[n := with_pages e p]> m.
Proof.
  intros He. apply map_eq. intros k. unfold repage. destruct (decide (k = n)) as [->|Hk].
  - by rewrite lookup_alter_eq, lookup_insert_eq, He.
  - by rewrite lookup_alter_ne, lookup_insert_ne.
Qed.

Lemma repage_lookup n p m k :
  repage n p m !! k = (λ e, if decide (k = n) then with_pages e p else e) <$> m !! k.
Proof.
  unfold repage. destruct (decide (k = n)) as [->|Hk].
  - rewrite lookup_alter_eq. by destruct (m !! n).
  - rewrite lookup_alter_ne by done. by destruct (m !! k).
Qed.

Lemma repage_lookup_Some n p m k e' :
  repage n p m !! k = Some e' ↔
  ∃ e, m !! k = Some e ∧ e' = if decide (k = n) then with_pages e p else e.
Proof. rewrite repage_lookup, fmap_Some. done. Qed.

Lemma repage_links n p m k :
  (λ e, (parent e, children e)) <$> repage n p m !! k = (λ e, (parent e, children e)) <$> m !! k.
Proof. rewrite repage_lookup. destruct (m !! k); simpl; [|done]. by case_decide. Qed.

Lemma links_chain m m' n l :
  (∀ k, parent <$> m' !! k = parent <$> m !! k) → chain m n l → chain m' n l.
Proof.
  intros Heq. induction 1 as [n e He Hp|n e p l He Hp Hc IH];
    specialize (Heq n); rewrite He in Heq; simpl in Heq;
    apply fmap_Some in Heq as (e' & He' & Hpe).
  - apply (chain_root _ _ e'); [done|congruence].
  - apply (chain_up _ _ e' p); [done|congruence|done].
Qed.

Lemma repage_parents n p m k : parent <$> repage n p m !! k = parent <$> m !! k.
Proof. rewrite repage_lookup. destruct (m !! k); simpl; [|done]. by case_decide. Qed.

Lemma repage_counts n p m : counts m → counts (repage n p m).
Proof.
  intros Hct k e' (e & He & ->)%repage_lookup_Some.
  assert (path_of (repage n p m) <$> children e = path_of m <$> children e) as Heq.
  { apply list_fmap_ext. intros i c _. unfold path_of. rewrite repage_lookup.
    destruct (m !! c); simpl; [|done]. by case_decide. }
  specialize (Hct _ _ He). case_decide; simpl; by rewrite Heq.
Qed.

(** The selections of [n] among its children fit [k] pages. *)
Definition takes_within m (e : KvTrieNode) (k : nat) : Prop :=
  ∀ c ec off, c ∈ children e → m !! c = Some ec → pages ec = ParentSelection [(0, off)] → off ≤ k.

Lemma repage_shape n m e b th ph b' th' ph' :
  shape m → m !! n = Some e → pages e = Owned b th ph →
  0 < length b' → length th' = length b' → length ph' = length b' →
  takes_within m e (length b') →
  shape (repage n (Owned b' th' ph') m).
Proof.
  intros Hm Hn Hpg Hb Hth Hph Hw. set (m' := repage n _ m).
  assert (Hch : ∀ k l, chain m k l → chain m' k l).
  { intros k l. apply links_chain. intros k'. apply repage_parents. }
  split.
  - intros k [e' (e0 & He & _)%repage_lookup_Some].
    destruct (sh_chain _ Hm k) as [l Hl]; [by eexists|]. eauto.
  - intros k e' c (e0 & He & ->)%repage_lookup_Some.
    assert (c ∈ children e0 ↔ ∃ ec, m' !! c = Some ec ∧ parent ec = Some k) as Hc.
    { rewrite (sh_children _ Hm _ _ _ He). pose proof (repage_parents n (Owned b' th' ph') m c) as Hp.
      fold m' in Hp. destruct (m' !! c), (m !! c); simplify_eq/=; naive_solver congruence. }
    by case_decide.
  - intros k e' (e0 & He & ->)%repage_lookup_Some. pose proof (sh_nodup _ Hm _ _ He). by case_decide.
  - intros k e' (e0 & He & ->)%repage_lookup_Some. case_decide as Hk.
    + subst. simplify_eq. unfold page_ok; simpl. split_and!; lia.
    + pose proof (sh_pages _ Hm _ _ He) as Hok. unfold page_ok in *.
      destruct (pages e0) as [|rs] eqn:Hp0; [done|].
      destruct Hok as (o & eo & off & Ho & Heo & Hown & -> & Hoff).
      destruct (decide (o = n)) as [->|Hon].
      * simplify_eq. eexists n, _, off. unfold m'. rewrite repage_lookup, Hn; simpl.
        rewrite decide_True by done. split_and!; [done..|lia|]. simpl.
        eapply Hw; [|done|done]. apply (sh_children _ Hm _ _ _ Hn). eauto.
      * exists o, eo, off. unfold m'. rewrite repage_lookup, Heo; simpl.
        rewrite decide_False by done. done.
Qed.

(** Where the selections of [n] read what they read before and nothing owned is
    below it, only [n]'s own path changes. *)
Lemma repage_view n m e b th ph b' th' ph' c v :
  shape m → m !! n = Some e → pages e = Owned b th ph →
  (∀ c ec, c ∈ children e → m !! c = Some ec →
     ∃ off, pages ec = ParentSelection [(0, off)] ∧ take off b' = take off b) →
  c ≠ Some n → view m c v → view (repage n (Owned b' th' ph') m) c v.
Proof.
  intros Hm Hn Hpg Hch Hc. apply (view_frame _ _ (λ k, k ≠ n)); [| |by intros ? -> ->].
  - intros k Hk. unfold contrib, pred. rewrite repage_lookup.
    destruct (m !! k) as [ek|] eqn:Hek; [|done]. simpl. rewrite decide_False by done.
    destruct (pages ek) as [|rs] eqn:Hpk; [done|]. destruct (parent ek) as [o|] eqn:Ho; [|done].
    rewrite repage_lookup. destruct (decide (o = n)) as [->|Hon].
    + rewrite Hn. simpl. split; [|done]. f_equal. rewrite Hpg; simpl.
      destruct (Hch k ek) as (off & Hp & Heq); [apply (sh_children _ Hm _ _ _ Hn); eauto|done|].
      rewrite Hpk in Hp. injection Hp as ->. unfold runs_len; simpl.
      rewrite Nat.sub_0_r, Nat.add_0_r. by rewrite <-!cells_take, Heq.
    + by destruct (m !! o).
  - intros k p Hk Hp ->. unfold pred in Hp. destruct (m !! k) as [ek|] eqn:Hek; [|done].
    assert (Hown : ∀ k ek, m !! k = Some ek → parent ek = Some n → is_owned (pages ek) = true → False).
    { intros k' ek' Hek' Hpk' Ho. destruct (Hch k' ek') as (off & Hp' & _); [|done|].
      - apply (sh_children _ Hm _ _ _ Hn). eauto.
      - by rewrite Hp' in Ho. }
    destruct (pages ek) as [|rs] eqn:Hpk.
    + eapply Hown; [done|congruence|by rewrite Hpk].
    + destruct (shape_sel _ Hm _ _ _ Hek Hpk) as (o & eo & ? & ? & ? & ? & Ho & Heo & Hpo & _).
      rewrite Ho, Heo in Hp. simpl in Hp. eapply Hown; [done|congruence|by rewrite Hpo].
Qed.

(** New hashes move no page. *)
Lemma repage_hashes_view n m e b th ph th' ph' c v :
  m !! n = Some e → pages e = Owned b th ph →
  view m c v → view (repage n (Owned b th' ph') m) c v.
Proof.
  intros Hn Hpg. apply (view_frame _ _ (λ _, True)); [|done..].
  intros k _. unfold contrib, pred. rewrite repage_lookup.
  destruct (m !! k) as [ek|] eqn:Hek; [|done]. simpl. case_decide as Hk.
  - subst. simplify_eq. simpl. by rewrite Hpg.
  - destruct (pages ek); [done|]. destruct (parent ek) as [o|]; [|done].
    rewrite repage_lookup. destruct (m !! o) as [eo|] eqn:Ho; [|done]. simpl.
    case_decide; [|done]. subst. simplify_eq. simpl. by rewrite Hpg.
Qed.

Lemma repage_cells n m e b th ph b' th' ph' x y :
  m !! n = Some e → pages e = Owned b th ph → x ++ cells n b ≡ₚ y ++ cells n b' →
  x ++ all_cells m ≡ₚ y ++ all_cells (repage n (Owned b' th' ph') m).
Proof.
  intros Hn Hpg Hb. unfold all_cells.
  assert (backs (repage n (Owned b' th' ph') m) = <[n := b']> (backs m)) as ->.
  { apply map_eq. intros k. unfold backs. rewrite lookup_fmap, repage_lookup.
    destruct (decide (k = n)) as [->|Hk].
    - by rewrite lookup_insert_eq, Hn.
    - rewrite lookup_insert_ne, lookup_fmap by done. by destruct (m !! k). }
  assert (backs m !! n = Some b) as Hl by (unfold backs; by rewrite lookup_fmap, Hn; simpl; rewrite Hpg).
  rewrite (cells_by_update _ _ _ b' Hl), (cells_by_delete _ _ _ Hl), !app_assoc.
  by rewrite Hb.
Qed.

(** ** A new leaf *)

Definition add_leaf (n : NodeId) (e : KvTrieNode) m : trie :=
  <[n := e]> (match parent e with
              | Some p => alter (λ ep, with_children ep (children ep ++ [n])) p m
              | None => m
              end).

Lemma add_leaf_lookup n e m k :
  m !! n = None →
  add_leaf n e m !! k = if decide (k = n) then Some e
    else (λ ek, if decide (parent e = Some k) then with_children ek (children ek ++ [n]) else ek)
         <$> m !! k.
Proof.
  intros Hn. unfold add_leaf. case_decide as Hk; [subst; by rewrite lookup_insert_eq|].
  rewrite lookup_insert_ne by done. destruct (parent e) as [p|].
  - destruct (decide (p = k)) as [->|Hp].
    + rewrite lookup_alter_eq. destruct (m !! k); simpl; [|done]. by rewrite decide_True.
    + rewrite lookup_alter_ne by done. destruct (m !! k); simpl; [|done].
      by rewrite decide_False by congruence.
  - by destruct (m !! k).
Qed.

Section leaf.
Context (m : trie) (n : NodeId) (e : KvTrieNode).
Context (Hm : shape m) (Hn : m !! n = None) (Hch : children e = []) (Hok : page_ok m e).
Context (Hpl : ∀ p, parent e = Some p → is_Some (m !! p)).

Lemma add_leaf_old k ek :
  m !! k = Some ek → ∃ ek', add_leaf n e m !! k = Some ek' ∧ parent ek' = parent ek ∧
    pages ek' = pages ek ∧ exact_anchors ek' = exact_anchors ek ∧
    path_anchors ek' = path_anchors ek ∧
    children ek' = children ek ++ (if decide (parent e = Some k) then [n] else []).
Proof.
  intros Hk. rewrite add_leaf_lookup by done. rewrite decide_False by congruence.
  rewrite Hk. simpl. eexists. split; [done|]. case_decide; [done|]. by rewrite app_nil_r.
Qed.

Lemma add_leaf_new : add_leaf n e m !! n = Some e.
Proof. by rewrite add_leaf_lookup, decide_True. Qed.

Lemma add_leaf_inv k ek' :
  add_leaf n e m !! k = Some ek' →
  (k = n ∧ ek' = e) ∨ (k ≠ n ∧ ∃ ek, m !! k = Some ek ∧ parent ek' = parent ek ∧
    pages ek' = pages ek ∧ exact_anchors ek' = exact_anchors ek ∧
    path_anchors ek' = path_anchors ek ∧
    children ek' = children ek ++ (if decide (parent e = Some k) then [n] else [])).
Proof.
  rewrite add_leaf_lookup by done. case_decide as Hk; [intros [= <-]; by left|].
  intros (ek & Hek & ->)%fmap_Some. right. split; [done|]. exists ek.
  split; [done|]. case_decide; [done|]. by rewrite app_nil_r.
Qed.

Lemma add_leaf_chain_old k l : chain m k l → chain (add_leaf n e m) k l.
Proof.
  induction 1 as [k ek He Hp|k ek p l He Hp Hc IH];
    destruct (add_leaf_old _ _ He) as (ek' & Hek' & Hpk & _).
  - apply (chain_root _ _ ek'); congruence.
  - apply (chain_up _ _ ek' p); congruence.
Qed.

Lemma add_leaf_chain_new l :
  match parent e with Some p => chain m p l | None => l = [] end →
  chain (add_leaf n e m) n (n :: l).
Proof.
  clear Hpl.
  destruct (parent e) as [p|] eqn:Hp.
  - intros Hl. eapply chain_up; [apply add_leaf_new|done|by apply add_leaf_chain_old].
  - intros ->. eapply chain_root; [apply add_leaf_new|done].
Qed.

Lemma add_leaf_shape : shape (add_leaf n e m).
Proof.
  split.
  - intros k [ek' [[-> ->]|(Hk & ek & Hek & _)]%add_leaf_inv].
    + destruct (parent e) as [p|] eqn:Hp.
      * destruct (sh_chain _ Hm p) as [l Hl]; [by apply Hpl|].
        exists (n :: l). apply add_leaf_chain_new. by rewrite Hp.
      * exists [n]. apply add_leaf_chain_new. by rewrite Hp.
    + destruct (sh_chain _ Hm k) as [l Hl]; [by eexists|]. exists l. by apply add_leaf_chain_old.
  - intros k ek' c [[-> ->]|(Hk & ek & Hek & _ & _ & _ & _ & Hc)]%add_leaf_inv.
    + rewrite Hch. split; [set_solver|].
      intros (ec & [[_ ->]|(_ & ec0 & Hec & Hp & _)]%add_leaf_inv & Hpc).
      * destruct (Hpl n Hpc). congruence.
      * rewrite Hp in Hpc. destruct (shape_parent_live _ Hm _ _ _ Hec Hpc). congruence.
    + rewrite Hc, elem_of_app, (sh_children _ Hm _ _ _ Hek). split.
      * intros [(ec & Hec & Hp)|Hin].
        -- destruct (add_leaf_old _ _ Hec) as (ec' & ? & ? & _). exists ec'. split; congruence.
        -- case_decide; [|set_solver]. apply list_elem_of_singleton in Hin as ->.
           exists e. split; [apply add_leaf_new|done].
      * intros (ec & [[-> ->]|(_ & ec0 & Hec & Hp & _)]%add_leaf_inv & Hpc).
        -- right. rewrite decide_True by done. set_solver.
        -- left. exists ec0. split; congruence.
  - intros k ek' [[-> ->]|(Hk & ek & Hek & _ & _ & _ & _ & ->)]%add_leaf_inv.
    { rewrite Hch. apply NoDup_nil_2. }
    apply NoDup_app. split_and!; [by eapply sh_nodup| |case_decide; [apply NoDup_singleton|apply NoDup_nil_2]].
    intros c Hc Hc'. case_decide; [|set_solver]. apply list_elem_of_singleton in Hc' as ->.
    destruct (shape_child _ Hm _ _ _ Hek Hc) as (? & ? & _). congruence.
  - intros k ek' [[-> ->]|(Hk & ek & Hek & Hp & Hpg & _)]%add_leaf_inv.
    + unfold page_ok in *. destruct (pages e); [done|].
      destruct Hok as (o & eo & off & Ho & Heo & Hown & ? & ?).
      destruct (add_leaf_old _ _ Heo) as (eo' & Heo' & _ & Hpo & _).
      exists o, eo', off. by rewrite Hpo.
    + pose proof (sh_pages _ Hm _ _ Hek) as Hk'. unfold page_ok in *. rewrite Hpg, Hp.
      destruct (pages ek); [done|].
      destruct Hk' as (o & eo & off & Ho & Heo & Hown & ? & ?).
      destruct (add_leaf_old _ _ Heo) as (eo' & Heo' & _ & Hpo & _).
      exists o, eo', off. by rewrite Hpo.
Qed.

Lemma add_leaf_counts :
  exact_anchors e = 0 → path_anchors e = 0 → counts m → counts (add_leaf n e m).
Proof.
  intros Hx Hz Hct.
  assert (Hpn : path_of (add_leaf n e m) n = 0) by (unfold path_of; by rewrite add_leaf_new).
  intros k ek' [[-> ->]|(Hk & ek & Hek & _ & _ & Hxk & Hpk & Hc)]%add_leaf_inv.
  - rewrite Hch, Hx, Hz. done.
  - rewrite Hpk, Hxk, Hc, fmap_app.
    rewrite (Hct _ _ Hek).
    assert (path_of (add_leaf n e m) <$> children ek = path_of m <$> children ek) as ->.
    { apply list_fmap_ext. intros i c Hi%list_elem_of_lookup_2.
      destruct (shape_child _ Hm _ _ _ Hek Hi) as (ec & Hec & _).
      destruct (add_leaf_old _ _ Hec) as (ec' & Hec' & _ & _ & _ & Hpc & _).
      unfold path_of. rewrite Hec, Hec'. done. }
    rewrite sum_list_app. case_decide; csimpl; lia.
Qed.

Lemma add_leaf_view c v :
  (∀ k, c = Some k → is_Some (m !! k)) → view m c v → view (add_leaf n e m) c v.
Proof.
  intros Hc. apply (view_frame _ _ (λ k, is_Some (m !! k))); [| |done].
  - intros k [ek Hek]. destruct (add_leaf_old _ _ Hek) as (ek' & Hek' & Hp & Hpg & _).
    unfold contrib, pred. rewrite Hek, Hek', Hp, Hpg. destruct (pages ek); [done|].
    destruct (parent ek) as [o|] eqn:Ho; [|done].
    destruct (shape_parent_live _ Hm _ _ _ Hek Ho) as [eo Heo].
    destruct (add_leaf_old _ _ Heo) as (eo' & Heo' & Hpo & Hpgo & _).
    by rewrite Heo, Heo', Hpgo; simpl; rewrite Hpo.
  - intros k p Hk Hp. by eapply pred_live.
Qed.

Lemma add_leaf_cells : all_cells (add_leaf n e m) ≡ₚ cells n (owned_backings (pages e)) ++ all_cells m.
Proof.
  unfold all_cells. rewrite <-cells_by_insert.
  - f_equiv. apply map_eq. intros k. unfold backs.
    rewrite lookup_fmap, add_leaf_lookup by done. case_decide as Hk.
    + subst. by rewrite lookup_insert_eq.
    + rewrite lookup_insert_ne, lookup_fmap by done. destruct (m !! k); simpl; [|done].
      by case_decide.
  - unfold backs. by rewrite lookup_fmap, Hn.
Qed.
End leaf.

(** ** Cutting an owner down to what its selections take *)

(** A node that a compaction has nothing to take from: where nothing anchors it
    and only selections read it, one of them takes all of it. *)
Definition tidy (lock : NodeId → Prop) m (n : NodeId) : Prop :=
  ∀ e b th ph, m !! n = Some e → pages e = Owned b th ph →
    exact_anchors e = 0 → 0 < path_anchors e → ¬ lock n →
    (∀ c ec, c ∈ children e → m !! c = Some ec → is_owned (pages ec) = false) →
    ∃ c ec, c ∈ children e ∧ m !! c = Some ec ∧ pages ec = ParentSelection [(0, length b)].

(** What a compaction that takes something needs of a node. *)
Record cuttable (lock : NodeId → Prop) m (n : NodeId) (b : list KvPageBacking)
    (th : list (list (option Hash256))) (ph : list (option Hash256)) (k : nat) : Prop := {
  cu_entry : ∃ e, m !! n = Some e ∧ pages e = Owned b th ph ∧ exact_anchors e = 0 ∧
    (∀ c ec, c ∈ children e → m !! c = Some ec →
       ∃ off, pages ec = ParentSelection [(0, off)] ∧ off ≤ k) ∧
    (∃ c ec, c ∈ children e ∧ m !! c = Some ec ∧ pages ec = ParentSelection [(0, k)]);
  cu_len : 0 < k < length b;
  cu_lock : ¬ lock n;
}.

Definition cut (n : NodeId) (b : list KvPageBacking) (th : list (list (option Hash256)))
    (ph : list (option Hash256)) (k : nat) m : trie :=
  repage n (Owned (take k b) (take k th) (take k ph)) m.

Section cut.
Context (lock : NodeId → Prop) (m : trie) (n : NodeId) (b : list KvPageBacking).
Context (th : list (list (option Hash256))) (ph : list (option Hash256)) (k : nat).
Context (Hm : shape m) (Hcut : cuttable lock m n b th ph k).

Lemma cut_shape : shape (cut n b th ph k m).
Proof.
  destruct Hcut as [(e & He & Hp & Hx & Hc & _) Hk _].
  pose proof (sh_pages _ Hm _ _ He) as Hok. unfold page_ok in Hok. rewrite Hp in Hok.
  eapply repage_shape; [done..| | | |]; rewrite ?length_take; [lia..|].
  intros c ec off Hcc Hec Hpe. destruct (Hc _ _ Hcc Hec) as (off' & Hpe' & ?).
  rewrite Hpe in Hpe'. simplify_eq. lia.
Qed.

Lemma cut_view c v : c ≠ Some n → view m c v → view (cut n b th ph k m) c v.
Proof.
  destruct Hcut as [(e & He & Hp & Hx & Hc & _) Hk _].
  apply (repage_view n m e b th ph); [done..|].
  intros c' ec Hcc Hec. destruct (Hc _ _ Hcc Hec) as (off & Hpe & ?).
  exists off. split; [done|]. rewrite take_take. by rewrite Nat.min_l.
Qed.

Lemma cut_cells : all_cells m ≡ₚ drop k (cells n b) ++ all_cells (cut n b th ph k m).
Proof.
  destruct Hcut as [(e & He & Hp & _) _ _].
  apply (repage_cells n m e b th ph _ _ _ [] (drop k (cells n b))); [done..|]. simpl.
  rewrite cells_take. rewrite <-(take_drop k (cells n b)) at 1. apply Permutation_app_comm.
Qed.

(** Other nodes stay as tidy as they were, and [n] becomes tidy. *)
Lemma cut_tidy j : j = n ∨ tidy lock m j → tidy lock (cut n b th ph k m) j.
Proof.
  intros Hj ej bj thj phj Hej Hpj Hxj Hzj Hlj Hall.
  destruct Hcut as [(e & He & Hp & Hx & Hc & (c & ec & Hcc & Hec & Hpc)) Hk _].
  apply repage_lookup_Some in Hej as (ej0 & Hej0 & ->).
  assert (Hcn : c ≠ n) by (intros ->; simplify_eq; congruence).
  destruct (decide (j = n)) as [->|Hjn].
  - simplify_eq/=. exists c, ec. unfold cut. rewrite repage_lookup, Hec; simpl.
    rewrite decide_False by done. split_and!; [done..|]. rewrite length_take.
    by replace (k `min` length b) with k by lia.
  - destruct Hj as [->|Hj]; [done|].
    destruct (Hj ej0 bj thj phj) as (c' & ec' & Hc' & Hec' & Hpc'); [done..| |].
    { intros c' ec' Hc' Hec'. destruct (decide (c' = n)) as [->|Hc'n].
      - simplify_eq. specialize (Hall n (with_pages e (Owned (take k b) (take k th) (take k ph))) Hc').
        unfold cut in Hall. rewrite repage_lookup, He in Hall. simpl in Hall.
        rewrite decide_True in Hall by done. by specialize (Hall eq_refl).
      - apply (Hall c' ec' Hc'). unfold cut. rewrite repage_lookup, Hec'. simpl.
        by rewrite decide_False. }
    exists c', ec'. split_and!; [done| |done]. unfold cut. rewrite repage_lookup, Hec'; simpl.
    rewrite decide_False; [done|]. intros ->. simplify_eq. congruence.
Qed.
End cut.
End KvChange.
