(* ===== verification/KvSpec.v ===== *)
(** The table's own steps on its trie: under the promises of the two stores,
    every internal method of [KvTable.v] answers, leaves the other fields
    alone, and changes the trie the way [KvChange.v] describes. *)
From S2P Require Import Prelude Ids Store Runs KvTable KvTrie KvChange.

Module KvSpec.
Import Runs KvTable KvTrie KvChange.

Section spec.
Context {WS NS : Type → Type}.
Context `{!KeyedStore WorkingSetId WS, !KeyedStore NodeId NS}.
Context `{!KeyedStoreLaws WorkingSetId WS, !KeyedStoreLaws NodeId NS}.
Abbreviation table := (KvPageTable WS NS).
Abbreviation tm := (method table KvTableError).
Implicit Types t : table.

Definition nm t : trie := st_map (nodes t).
Definition wm t : gmap WorkingSetId WorkingSetEntry := st_map (working_sets t).

(** Both stores are sound. *)
Definition sound t : Prop := st_valid (nodes t) ∧ st_valid (working_sets t).

(** A change of the trie alone: the other fields stay, but for the index of
    node starts, and no key is used up. *)
Record frame t t' : Prop := {
  fr_ws : working_sets t' = working_sets t;
  fr_roots : cache_roots t' = cache_roots t;
  fr_pins : pins t' = pins t;
  fr_swap : swap_locations t' = swap_locations t;
  fr_valid : st_valid (nodes t) → st_valid (nodes t');
  fr_room k : st_room (nodes t) k → st_room (nodes t') k;
}.

Lemma frame_refl t : frame t t.
Proof. by split. Qed.

Lemma frame_trans t1 t2 t3 : frame t1 t2 → frame t2 t3 → frame t1 t3.
Proof. intros [] []. split; try congruence; auto. Qed.

Lemma frame_sound t t' : frame t t' → sound t → sound t'.
Proof. intros [Hw _ _ _ Hv _] [? ?]. split; [by auto|by rewrite Hw]. Qed.

Lemma node_nm t n : sound t → node t n = nm t !! n.
Proof. intros [Hv _]. by apply st_get_spec. Qed.

Lemma put_node_spec t n e :
  sound t → is_Some (nm t !! n) →
  nm (put_node t n e) = <[n := e]> (nm t) ∧ frame t (put_node t n e).
Proof.
  intros [Hv _] Hn. destruct (st_set_spec (nodes t) n e Hv Hn) as (Hm & Hv' & Hr).
  split; [done|]. split; try done; simpl; auto.
Qed.

Lemma fuel_size t : sound t → fuel t = size (nm t).
Proof.
  intros [Hv _]. unfold fuel. rewrite (st_iter_spec _ Hv). by rewrite length_map_to_list.
Qed.

Lemma mmodify_put t n e (k : unit → tm (list KvPageBacking)) :
  mthen (mmodify (λ t, put_node t n e)) k t = k tt (put_node t n e).
Proof. done. Qed.

(** ** Anchors *)

Lemma bump_path_spec l : ∀ t n f,
  sound t → chain (nm t) n l → length l ≤ f →
  ∃ t', bump_path f (Some n) t = (Ok tt, t') ∧ frame t t' ∧
    nm t' = recount (λ _ x, x) (λ k x, x + on_chain l k) (nm t).
Proof.
  induction l as [|n' l IH]; intros t n f Hs Hc Hf; [by inversion Hc|].
  destruct f as [|f]; [simpl in Hf; lia|].
  assert (n' = n) as -> by by inversion Hc.
  pose proof (chain_NoDup _ _ _ Hc) as Hnd. apply NoDup_cons in Hnd as [Hnl _].
  destruct (chain_live _ _ _ Hc) as [e He].
  set (e' := with_path e (path_anchors e + 1)).
  destruct (put_node_spec t n e' Hs ltac:(by eexists)) as [Hnm Hfr].
  cbn [bump_path]. unfold mthen at 1, mread at 1. rewrite node_nm, He by done.
  change (mthen _ _ t) with (bump_path f (parent e) (put_node t n e')).
  assert (Hpar : ∀ k, parent <$> nm (put_node t n e') !! k = parent <$> nm t !! k).
  { intros k. rewrite Hnm. destruct (decide (k = n)) as [->|Hk].
    - by rewrite lookup_insert_eq, He.
    - by rewrite lookup_insert_ne. }
  assert (Hfin : ∀ t', nm t' = recount (λ _ x, x) (λ k x, x + on_chain l k) (nm (put_node t n e')) →
    nm t' = recount (λ _ x, x) (λ k x, x + on_chain (n :: l) k) (nm t)).
  { intros t' ->. apply map_eq. intros k. rewrite !recount_lookup, Hnm.
    destruct (decide (k = n)) as [->|Hk].
    - rewrite lookup_insert_eq, He. simpl. unfold e', with_path, on_chain. simpl.
      rewrite (decide_False (P := n ∈ l)), decide_True by set_solver. do 2 f_equal. lia.
    - rewrite lookup_insert_ne by done. apply option_fmap_ext. intros ek. f_equal.
      unfold on_chain. do 2 case_decide; set_solver. }
  inversion Hc as [? ? ? Hp|? e0 p ? ? Hp Hc']; simplify_eq.
  - rewrite Hp. exists (put_node t n e'). split_and!; [by destruct f|done|].
    apply Hfin. apply map_eq. intros k. rewrite recount_lookup.
    destruct (nm (put_node t n e') !! k) as [[]|]; simpl; [|done].
    unfold on_chain. rewrite decide_False by set_solver. by rewrite Nat.add_0_r.
  - rewrite Hp. destruct (IH (put_node t n e') p f) as (t' & Hb & Hfr' & Hn').
    + by eapply frame_sound.
    + by eapply links_chain.
    + simpl in Hf. lia.
    + exists t'. split_and!; [done|by eapply frame_trans|by apply Hfin].
Qed.

Lemma add_anchor_spec t n l :
  sound t → chain (nm t) n l →
  ∃ t', add_anchor n t = (Ok tt, t') ∧ frame t t' ∧ nm t' = anchor_up n l (nm t).
Proof.
  intros Hs Hc. destruct (chain_live _ _ _ Hc) as [e He].
  set (e' := with_exact e (exact_anchors e + 1)).
  destruct (put_node_spec t n e' Hs ltac:(by eexists)) as [Hnm Hfr].
  unfold add_anchor. unfold mthen at 1, mread at 1. rewrite node_nm, He by done.
  set (t1 := put_node t n e') in *.
  change (mthen _ _ t) with (bump_path (fuel t1) (Some n) t1).
  assert (Hs1 : sound t1) by by eapply frame_sound.
  assert (Hc1 : chain (nm t1) n l).
  { eapply links_chain; [|done]. intros k. rewrite Hnm. destruct (decide (k = n)) as [->|Hk].
    - by rewrite lookup_insert_eq, He.
    - by rewrite lookup_insert_ne. }
  destruct (bump_path_spec l t1 n (fuel t1) Hs1 Hc1) as (t' & Hb & Hfr' & Hn').
  { rewrite fuel_size by done. by eapply chain_length. }
  exists t'. split_and!; [done|by eapply frame_trans|].
  rewrite Hn'. apply map_eq. intros k. unfold anchor_up. rewrite !recount_lookup, Hnm.
  destruct (decide (k = n)) as [->|Hk].
  - rewrite lookup_insert_eq, He. simpl. unfold e', with_exact, on_chain at 2. simpl.
    by rewrite decide_True by set_solver.
  - rewrite lookup_insert_ne by done. apply option_fmap_ext. intros ek.
    unfold on_chain at 2. rewrite decide_False by set_solver. by rewrite Nat.add_0_r.
Qed.

Lemma drop_path_spec l : ∀ t n f,
  sound t → chain (nm t) n l → length l ≤ f → (∀ k, k ∈ l → 0 < path_of (nm t) k) →
  ∃ t', drop_path f (Some n) t = (Ok l, t') ∧ frame t t' ∧
    nm t' = recount (λ _ x, x) (λ k x, x - on_chain l k) (nm t).
Proof.
  induction l as [|n' l IH]; intros t n f Hs Hc Hf Hpos; [by inversion Hc|].
  destruct f as [|f]; [simpl in Hf; lia|].
  assert (n' = n) as -> by by inversion Hc.
  pose proof (chain_NoDup _ _ _ Hc) as Hnd. apply NoDup_cons in Hnd as [Hnl _].
  destruct (chain_live _ _ _ Hc) as [e He].
  set (e' := with_path e (path_anchors e - 1)).
  destruct (put_node_spec t n e' Hs ltac:(by eexists)) as [Hnm Hfr].
  assert (Hpe : 0 < path_anchors e).
  { specialize (Hpos n ltac:(set_solver)). unfold path_of in Hpos. by rewrite He in Hpos. }
  cbn [drop_path]. unfold mthen at 1, mread at 1. rewrite node_nm, He by done.
  unfold mguard. rewrite decide_True by done.
  change (mthen (mok tt) _ t) with
    (mthen (drop_path f (parent e)) (λ path, mok (n :: path)) (put_node t n e')).
  assert (Hpar : ∀ k, parent <$> nm (put_node t n e') !! k = parent <$> nm t !! k).
  { intros k. rewrite Hnm. destruct (decide (k = n)) as [->|Hk].
    - by rewrite lookup_insert_eq, He.
    - by rewrite lookup_insert_ne. }
  assert (Hfin : ∀ t', nm t' = recount (λ _ x, x) (λ k x, x - on_chain l k) (nm (put_node t n e')) →
    nm t' = recount (λ _ x, x) (λ k x, x - on_chain (n :: l) k) (nm t)).
  { intros t' ->. apply map_eq. intros k. rewrite !recount_lookup, Hnm.
    destruct (decide (k = n)) as [->|Hk].
    - rewrite lookup_insert_eq, He. simpl. unfold e', with_path, on_chain. simpl.
      rewrite (decide_False (P := n ∈ l)), decide_True by set_solver. do 2 f_equal. lia.
    - rewrite lookup_insert_ne by done. apply option_fmap_ext. intros ek. f_equal.
      unfold on_chain. do 2 case_decide; set_solver. }
  inversion Hc as [? ? ? Hp|? e0 p ? ? Hp Hc']; simplify_eq.
  - rewrite Hp. exists (put_node t n e'). split_and!; [by destruct f|done|].
    apply Hfin. apply map_eq. intros k. rewrite recount_lookup.
    destruct (nm (put_node t n e') !! k) as [[]|]; simpl; [|done].
    unfold on_chain. rewrite decide_False by set_solver. by rewrite Nat.sub_0_r.
  - rewrite Hp. destruct (IH (put_node t n e') p f) as (t' & Hb & Hfr' & Hn').
    + by eapply frame_sound.
    + by eapply links_chain.
    + simpl in Hf. lia.
    + intros k Hk. unfold path_of. rewrite Hnm, lookup_insert_ne by set_solver.
      apply Hpos. set_solver.
    + exists t'. rewrite (mthen_ok _ _ _ _ _ Hb).
      split_and!; [done|by eapply frame_trans|by apply Hfin].
Qed.

(** ** Detaching *)

Lemma drop_child_spec t e n p :
  sound t → parent e = p → (∀ q, p = Some q → is_Some (nm t !! q)) →
  frame t (drop_child p n t) ∧
  ∀ k, nm (drop_child p n t) !! k =
    (λ ek, if decide (p = Some k) then with_children ek (filter (λ c, c ≠ n) (children ek)) else ek)
    <$> nm t !! k.
Proof.
  intros Hs Hp Hl. unfold drop_child. destruct p as [q|].
  - destruct (Hl q eq_refl) as [eq Heq]. rewrite node_nm, Heq by done.
    destruct (put_node_spec t q (with_children eq (filter (λ c, c ≠ n) (children eq))) Hs
      ltac:(by eexists)) as [Hnm Hfr].
    split; [done|]. intros k. rewrite Hnm. destruct (decide (k = q)) as [->|Hk].
    + rewrite lookup_insert_eq, Heq. simpl. by rewrite decide_True.
    + rewrite lookup_insert_ne by done. destruct (nm t !! k); simpl; [|done].
      by rewrite decide_False by congruence.
  - split; [apply frame_refl|]. intros k. by destruct (nm t !! k).
Qed.

Lemma forget_start_spec t n p : frame t (forget_start n p t) ∧ nm (forget_start n p t) = nm t.
Proof.
  unfold forget_start. destruct p as [? ? [|[h|] ?]|]; try (by split; [apply frame_refl|]).
  destruct (node_starts t !! h) as [copies|]; [|by split; [apply frame_refl|]].
  by destruct (filter (λ c, c ≠ n) copies).
Qed.

Lemma remove_node_spec t n e :
  sound t → nm t !! n = Some e →
  ∃ t', remove_node n t = (Ok e, t') ∧ frame t t' ∧ nm t' = delete n (nm t).
Proof.
  intros [Hv _] He. destruct (st_remove_spec (nodes t) n Hv) as (H1 & H2 & H3 & H4).
  unfold remove_node. destruct (st_remove (nodes t) n) as [o s]. simpl in *.
  fold (nm t) in H1, H2. rewrite H1, He. exists (set_nodes t s).
  split_and!; [done| |done]. split; try done; simpl; auto.
Qed.

(** What [detach] of a node takes away: nothing, or the node and nodes below. *)
Definition below (m : trie) (n : NodeId) (R : list NodeId) : Prop :=
  ∀ r l, r ∈ R → chain m r l → n ∈ l.

Record detaches t t' (R : list NodeId) : Prop := {
  de_frame : frame t t';
  de_nm : nm t' = prune R (nm t);
  de_prunable : prunable (nm t) R;
}.

Lemma detaches_nil t : detaches t t [].
Proof.
  split; [apply frame_refl| |apply prunable_nil]. by rewrite prune_nil.
Qed.

Lemma detaches_app t1 t2 t3 R1 R2 :
  shape (nm t1) → detaches t1 t2 R1 → detaches t2 t3 R2 →
  detaches t1 t3 (R1 ++ R2) ∧ backs_of (nm t1) (R1 ++ R2) = backs_of (nm t1) R1 ++ backs_of (nm t2) R2.
Proof.
  intros Hm [F1 N1 P1] [F2 N2 P2]. rewrite N1 in P2.
  assert (prunable (nm t1) (R1 ++ R2)) as HP by by apply prunable_app.
  split.
  - split; [by eapply frame_trans| |done]. by rewrite N2, N1, prune_prune.
  - rewrite backs_of_app. f_equal. apply backs_of_ext. intros k Hk. rewrite N1, backs_prune.
    rewrite decide_False; [done|]. intros Hk1. destruct (pr_zero _ _ P2 _ Hk) as (e & He & _).
    apply prune_lookup_Some in He as [? _]. done.
Qed.

Lemma detaches_facts t t' R :
  sound t → shape (nm t) → counts (nm t) → detaches t t' R →
  sound t' ∧ shape (nm t') ∧ counts (nm t') ∧ size (nm t') ≤ size (nm t).
Proof.
  intros Hs Hm Hc [F N P]. split_and!.
  - by eapply frame_sound.
  - rewrite N. by apply prune_shape.
  - rewrite N. by apply prune_counts.
  - rewrite N, <-!size_dom. apply subseteq_size. intros k [e He]%elem_of_dom.
    apply prune_lookup_Some in He as (_ & e0 & He & _). apply elem_of_dom. eauto.
Qed.

Lemma prune_snoc m R n e :
  shape m → m !! n = Some e →
  ∀ k, prune (R ++ [n]) m !! k = if decide (k = n) then None else
    (λ ek, if decide (parent e = Some k) then with_children ek (filter (λ c, c ≠ n) (children ek)) else ek)
      <$> prune R m !! k.
Proof.
  intros Hm He k. rewrite !prune_lookup.
  destruct (decide (k = n)) as [->|Hkn]; [by rewrite decide_True by set_solver|].
  destruct (decide (k ∈ R)) as [Hk|Hk]; [by rewrite decide_True by set_solver|].
  rewrite decide_False by set_solver.
  destruct (m !! k) as [ek|] eqn:Hek; [|done]. simpl. f_equal.
  case_decide as Hp; unfold with_children; simpl; f_equal.
  - rewrite list_filter_filter. apply list_filter_iff. set_solver.
  - apply filter_ext_elem. intros c Hi.
    split; [set_solver|]. intros Hc [?| ->%list_elem_of_singleton]%elem_of_app; [done|].
    destruct (shape_child _ Hm _ _ _ Hek Hi) as (en & Hen & Hpn). congruence.
Qed.

(** The children's turn in [detach]: each in order, with all below it. *)
Definition detach_child (f : nat) (child : NodeId) : tm (list KvPageBacking) :=
  c ⇐ mread (λ t, node t child) ;;
  mguard (path_anchors c = 0) ;;;
  detach_loop f child.

(** What a call of [detach_loop] with enough fuel does at [n]. *)
Definition detach_ok (f : nat) (t : table) (n : NodeId) : Prop :=
  ∃ R t', detach_loop f n t = (Ok (backs_of (nm t) R), t') ∧ detaches t t' R ∧
    below (nm t) n R ∧ (R ≠ [] → n ∈ R) ∧ (path_of (nm t) n = 0 → is_Some (nm t !! n) → n ∈ R).

Lemma detach_children f N n l cs : ∀ t,
  (∀ t c, sound t → shape (nm t) → counts (nm t) → size (nm t) ≤ N →
     chain (nm t) c (c :: n :: l) → detach_ok f t c) →
  sound t → shape (nm t) → counts (nm t) → size (nm t) ≤ N → chain (nm t) n (n :: l) →
  NoDup cs →
  (∀ c, c ∈ cs → ∃ ec, nm t !! c = Some ec ∧ parent ec = Some n ∧ path_anchors ec = 0) →
  ∃ R t', mextend cs (detach_child f) t = (Ok (backs_of (nm t) R), t') ∧ detaches t t' R ∧
    below (nm t) n R ∧ (n ∉ R) ∧ ∀ c, c ∈ cs → c ∈ R.
Proof.
  induction cs as [|c cs IH]; intros t Hf Hs Hm Hct HN Hc Hnd Hcs.
  { exists [], t. split_and!; [done|apply detaches_nil|by intros ? ? ?%not_elem_of_nil|
      apply not_elem_of_nil|done]. }
  apply NoDup_cons in Hnd as [Hccs Hnd].
  destruct (Hcs c ltac:(set_solver)) as (ec & Hec & Hpc & Hz).
  assert (Hcc : chain (nm t) c (c :: n :: l)) by by eapply chain_up.
  destruct (Hf t c Hs Hm Hct HN Hcc) as (R1 & t1 & Hd & Hdet & Hb & _ & Hin).
  assert (HcR : c ∈ R1).
  { apply Hin; [|by eexists]. unfold path_of. by rewrite Hec. }
  pose proof Hdet as [F1 N1 P1].
  assert (Hn1 : n ∉ R1).
  { intros Hn. specialize (Hb _ _ Hn Hc). by eapply chain_bottom_child in Hb. }
  assert (Hcs1 : ∀ c', c' ∈ cs → c' ∉ R1).
  { intros c' Hc' HR. destruct (Hcs c' ltac:(set_solver)) as (ec' & Hec' & Hpc' & _).
    assert (chain (nm t) c' (c' :: n :: l)) as Hch by by eapply chain_up.
    specialize (Hb _ _ HR Hch). apply elem_of_cons in Hb as [->|Hb]; [done|].
    by eapply (chain_bottom_child _ _ _ c) in Hb. }
  destruct (detaches_facts _ _ _ Hs Hm Hct Hdet) as (Hs1 & Hm1 & Hct1 & Hsz).
  assert (Hc1 : chain (nm t1) n (n :: l)) by (rewrite N1; by apply prune_chain).
  destruct (IH t1 Hf Hs1 Hm1 Hct1 ltac:(lia) Hc1 Hnd) as (R2 & t2 & Hd2 & Hdet2 & Hb2 & Hn2 & Hin2).
  { intros c' Hc'. destruct (Hcs c' ltac:(set_solver)) as (ec' & Hec' & Hpc' & Hz').
    eexists. rewrite N1, prune_lookup, decide_False, Hec' by by apply Hcs1. done. }
  destruct (detaches_app _ _ _ _ _ Hm Hdet Hdet2) as [Hdet' Hbacks].
  exists (R1 ++ R2), t2. split_and!; [|done| | |].
  - cbn [mextend]. unfold detach_child at 1. unfold mthen at 1 2, mread at 1.
    rewrite node_nm, Hec by done. unfold mguard. rewrite decide_True by done.
    change (mthen (mok tt) (λ _, detach_loop f c) t) with (detach_loop f c t).
    rewrite Hd. by rewrite (mthen_ok _ _ _ _ _ Hd2), Hbacks.
  - intros r lr [Hr|Hr]%elem_of_app Hlr.
    + specialize (Hb _ _ Hr Hlr). by eapply chain_parent_elem.
    + apply (Hb2 r lr Hr). rewrite N1. apply prune_chain; [done..|].
      intros Hr1. destruct Hdet2 as [_ _ P2]. destruct (pr_zero _ _ P2 _ Hr) as (er & Her & _).
      rewrite N1 in Her. apply prune_lookup_Some in Her as [? _]. done.
  - set_solver.
  - intros c' [->|Hc']%elem_of_cons; set_solver.
Qed.

Lemma detach_loop_S f n t :
  detach_loop (S f) n t =
    match node t n with
    | None => (Ok [], t)
    | Some entry =>
        if decide (path_anchors entry ≠ 0) then (Ok [], t)
        else
          mthen (mextend (children entry) (detach_child f)) (λ freed,
            mthen (mmodify (drop_child (parent entry) n)) (λ _,
            mthen (mread (λ t, node t n)) (λ e,
            mthen (mmodify (forget_start n (pages e))) (λ _,
            mthen (remove_node n) (λ removed,
            mok (freed ++ owned_backings (pages removed))))))) t
    end.
Proof. cbn [detach_loop]. unfold mthen at 1, mread at 1. destruct (node t n); [|done]. by case_decide. Qed.

Lemma detach_loop_spec f : ∀ t n l N,
  sound t → shape (nm t) → counts (nm t) → size (nm t) ≤ N → chain (nm t) n l →
  N < f + length l → detach_ok f t n.
Proof.
  induction f as [|f IH]; intros t n l N Hs Hm Hct HN Hc Hf.
  { pose proof (chain_length _ _ _ Hc). lia. }
  destruct (chain_live _ _ _ Hc) as [e He]. destruct (chain_cons _ _ _ Hc) as [l' ->].
  unfold detach_ok. setoid_rewrite detach_loop_S. rewrite node_nm, He by done. case_decide as Hz.
  { exists [], t. split_and!; [done|apply detaches_nil|by intros ? ? ?%not_elem_of_nil|done|].
    unfold path_of. by rewrite He. }
  assert (Hzero : ∀ c, c ∈ children e →
    ∃ ec, nm t !! c = Some ec ∧ parent ec = Some n ∧ path_anchors ec = 0).
  { intros c Hcc. destruct (shape_child _ Hm _ _ _ He Hcc) as (ec & Hec & Hp).
    exists ec. split_and!; [done..|]. pose proof (path_of_child _ _ _ _ Hct He Hcc) as Hle.
    unfold path_of in Hle. rewrite Hec in Hle. simpl in Hle. lia. }
  destruct (detach_children f N n l' (children e) t) as (R & t1 & Hd & Hdet & Hb & Hn & Hin);
    [|done..|by eapply sh_nodup|done|].
  { intros t' c Hs' Hm' Hct' HN' Hcc. eapply IH; [done..|]. simpl in *. lia. }
  destruct (detaches_facts _ _ _ Hs Hm Hct Hdet) as (Hs1 & Hm1 & Hct1 & _).
  pose proof Hdet as [F1 N1 P1].
  assert (He1 : nm t1 !! n = Some (with_children e (filter (λ c, c ∉ R) (children e)))).
  { by rewrite N1, prune_lookup, decide_False, He. }
  destruct (drop_child_spec t1 e n (parent e) Hs1 eq_refl) as [F2 N2].
  { intros q Hq. by eapply (shape_parent_live _ Hm1). }
  set (t2 := drop_child (parent e) n t1) in *.
  assert (Hs2 : sound t2) by by eapply frame_sound.
  assert (∃ e2, nm t2 !! n = Some e2 ∧ pages e2 = pages e) as (e2 & He2 & Hp2).
  { rewrite N2, He1. simpl. eexists. split; [done|]. by case_decide. }
  destruct (forget_start_spec t2 n (pages e2)) as [F3 N3].
  set (t3 := forget_start n (pages e2) t2) in *.
  assert (Hs3 : sound t3) by by eapply frame_sound.
  destruct (remove_node_spec t3 n e2 Hs3) as (t4 & Hr & F4 & N4); [by rewrite N3|].
  exists (R ++ [n]), t4. split_and!.
  - rewrite (mthen_ok _ _ _ _ _ Hd).
    change (mthen (mread (λ t, node t n)) (λ e0, mthen (mmodify (forget_start n (pages e0)))
      (λ _, mthen (remove_node n) (λ removed, mok (backs_of (nm t) R ++
        owned_backings (pages removed))))) t2 = (Ok (backs_of (nm t) (R ++ [n])), t4)).
    unfold mthen at 1, mread. rewrite node_nm, He2 by done.
    change (mthen (remove_node n) (λ removed, mok (backs_of (nm t) R ++
        owned_backings (pages removed))) t3 = (Ok (backs_of (nm t) (R ++ [n])), t4)).
    rewrite (mthen_ok _ _ _ _ _ Hr), Hp2, backs_of_app.
    assert (backs_of (nm t) [n] = owned_backings (pages e)) as ->; [|done].
    unfold backs_of. csimpl. rewrite He. simpl. by rewrite app_nil_r.
  - split.
    + do 3 (eapply frame_trans; [done|]). done.
    + rewrite N4, N3. apply map_eq. intros k. rewrite (prune_snoc _ _ _ _ Hm He).
      case_decide as Hk; [subst; by rewrite lookup_delete_eq|].
      by rewrite lookup_delete_ne, N2, N1 by done.
    + split.
      * apply NoDup_app. split_and!; [apply P1|set_solver|apply NoDup_singleton].
      * intros k [Hk| ->%list_elem_of_singleton]%elem_of_app; [by apply P1|eauto].
      * intros k ek c [Hk| ->%list_elem_of_singleton]%elem_of_app Hek Hcc; apply elem_of_app; left.
        -- by eapply P1.
        -- simplify_eq. by apply Hin.
  - intros r lr [Hr'| ->%list_elem_of_singleton]%elem_of_app Hlr; [by eapply Hb|].
    rewrite (chain_fun _ _ _ _ Hlr Hc). set_solver.
  - set_solver.
  - set_solver.
Qed.

(** The nodes taken are [n], where it goes, and nodes whose parents go too. *)
Definition tops (m : trie) (ns R : list NodeId) : Prop :=
  ∀ r er p, r ∈ R → m !! r = Some er → parent er = Some p → (p ∉ R) → r ∈ ns.

Lemma detach_unreferenced_spec t n :
  sound t → shape (nm t) → counts (nm t) →
  ∃ R t', detach_unreferenced n t = (Ok (backs_of (nm t) R), t') ∧ detaches t t' R ∧
    tops (nm t) [n] R ∧ (R ≠ [] → n ∈ R) ∧
    (path_of (nm t) n = 0 → is_Some (nm t !! n) → n ∈ R).
Proof.
  intros Hs Hm Hct.
  change (detach_unreferenced n t) with (detach_loop (S (fuel t)) n t).
  destruct (nm t !! n) as [e|] eqn:He.
  - destruct (sh_chain _ Hm n ltac:(by eexists)) as [l Hl].
    destruct (detach_loop_spec (S (fuel t)) t n l (size (nm t)) Hs Hm Hct ltac:(lia) Hl)
      as (R & t' & Hd & Hdet & Hb & Hne & Hin); [rewrite fuel_size by done; lia|].
    rewrite He in Hin. exists R, t'. split_and!; [done..| |done|done].
    intros r er p Hr Her Hp HpR. apply list_elem_of_singleton.
    destruct (sh_chain _ Hm r ltac:(by eexists)) as [lr Hlr].
    pose proof (Hb _ _ Hr Hlr) as Hnr.
    inversion Hlr as [|? ? ? lp Her' Hp' Hlp]; simplify_eq.
    apply elem_of_cons in Hnr as [->|Hnr]; [done|]. exfalso.
    eapply (prunable_chain _ _ Hm (de_prunable _ _ _ Hdet) p lp Hlp HpR n Hnr).
    apply Hne. intros ->. set_solver.
  - exists [], t. rewrite detach_loop_S, node_nm, He by done.
    split_and!; [done|apply detaches_nil|by intros ? ? ? ?%not_elem_of_nil|done|]. by intros _ [? ?].
Qed.

(** ** Compaction *)

Definition locked t (n : NodeId) : Prop := ∃ l, l ∈ swap_locations t ∧ loc_node l = n.

Lemma swap_locked_spec t n : swap_locked t n = true ↔ locked t n.
Proof.
  unfold swap_locked, locked. rewrite existsb_exists. setoid_rewrite <-list_elem_of_In.
  setoid_rewrite elem_of_elements. setoid_rewrite bool_decide_eq_true. done.
Qed.

Lemma frame_locked t t' n : frame t t' → locked t' n ↔ locked t n.
Proof. intros []. unfold locked. by rewrite fr_swap0. Qed.

(** The children of an owner are all selections, or one is owned. *)
Lemma taken_runs_spec t n e cs :
  sound t → shape (nm t) → nm t !! n = Some e → (∀ c, c ∈ cs → c ∈ children e) →
  ∃ o, taken_runs t cs = Some o ∧
    match o with
    | None => ∃ c ec, c ∈ cs ∧ nm t !! c = Some ec ∧ is_owned (pages ec) = true
    | Some rs =>
        Forall prefix_run rs ∧ (cs ≠ [] → rs ≠ []) ∧
        (∀ c, c ∈ cs → ∃ ec r, nm t !! c = Some ec ∧ pages ec = ParentSelection [r] ∧ r ∈ rs) ∧
        (∀ r, r ∈ rs → ∃ c ec, c ∈ cs ∧ nm t !! c = Some ec ∧ pages ec = ParentSelection [r])
    end.
Proof.
  intros Hs Hm He. induction cs as [|c cs IH]; intros Hcs.
  { exists (Some []). split_and!; [done|constructor|done|set_solver|set_solver]. }
  destruct (shape_child _ Hm _ _ c He ltac:(set_solver)) as (ec & Hec & Hp).
  destruct IH as (o & Ho & Hspec); [set_solver|].
  cbn [taken_runs]. rewrite node_nm, Hec by done.
  destruct (pages ec) as [b th ph|rs] eqn:Hpg.
  { exists None. split; [done|]. exists c, ec. rewrite Hpg. set_solver. }
  destruct (shape_sel _ Hm _ _ _ Hec Hpg) as (o' & eo & ? & ? & ? & off & ? & ? & ? & -> & ?).
  rewrite Ho. destruct o as [taken|].
  - destruct Hspec as (Hf & Hne & Ht1 & Ht2). exists (Some ([(0, off)] ++ taken)). split_and!; [done| | | |].
    + apply Forall_app. split; [|done]. repeat constructor; simpl; lia.
    + done.
    + intros c' [->|Hc']%elem_of_cons; [exists ec, (0, off); set_solver|].
      destruct (Ht1 _ Hc') as (ec' & r & ? & ? & ?). exists ec', r. set_solver.
    + intros r [->|Hr]%elem_of_cons; [exists c, ec; set_solver|].
      destruct (Ht2 _ Hr) as (c' & ec' & ? & ?). exists c', ec'. set_solver.
  - destruct Hspec as (c' & ec' & ? & ?). exists None. split; [done|]. exists c', ec'. set_solver.
Qed.

Lemma moved_runs_prefix k off : moved_runs (seq 0 k) [(0, off)] = [(0, off)].
Proof.
  unfold moved_runs. cbn [foldl fst snd].
  assert (partition_point (λ i, bool_decide (i < 0)) (seq 0 k) = 0) as ->.
  { by destruct k. }
  rewrite Nat.sub_0_r. done.
Qed.

(** The children's turn: their runs move nowhere. *)
Lemma move_children_spec k cs : ∀ t,
  sound t →
  (∀ c, c ∈ cs → ∃ ec off, nm t !! c = Some ec ∧ pages ec = ParentSelection [(0, off)]) →
  ∃ t', mfor cs (move_child (seq 0 k)) t = (Ok tt, t') ∧ frame t t' ∧ nm t' = nm t.
Proof.
  induction cs as [|c cs IH]; intros t Hs Hcs; [exists t; split_and!; [done|apply frame_refl|done]|].
  destruct (Hcs c ltac:(set_solver)) as (ec & off & Hec & Hp).
  destruct (put_node_spec t c ec Hs ltac:(by eexists)) as [Hnm Hfr].
  rewrite insert_id in Hnm by done.
  destruct (IH (put_node t c ec)) as (t' & Hf & Hfr' & Hn').
  { by eapply frame_sound. }
  { rewrite Hnm. set_solver. }
  exists t'. split_and!; [|by eapply frame_trans|congruence].
  cbn [mfor]. unfold move_child at 1. unfold mthen at 1 2, mread at 1.
  rewrite node_nm, Hec, Hp by done.
  rewrite moved_runs_prefix.
  assert (with_pages ec (ParentSelection [(0, off)]) = ec) as Heq by (destruct ec; simpl in *; by subst).
  unfold mmodify. rewrite Heq. exact Hf.
Qed.

(** What a call of [compact_owner] answers. *)
Definition compact_ok t (n : NodeId)
    (r : outcome KvTableError (list KvPageBacking) * table) : Prop :=
  ∃ freed t', r = (Ok freed, t') ∧ frame t t' ∧
    ((freed = [] ∧ nm t' = nm t ∧ tidy (locked t) (nm t) n) ∨
     ∃ b th ph k, cuttable (locked t) (nm t) n b th ph k ∧
       nm t' = cut n b th ph k (nm t) ∧ freed = drop k b).

Lemma compact_owner_spec t n :
  sound t → shape (nm t) → counts (nm t) → compact_ok t n (compact_owner n t).
Proof.
  intros Hs Hm Hct. unfold compact_owner. unfold mthen at 1 2, mread at 1 2.
  rewrite node_nm by done. destruct (nm t !! n) as [e|] eqn:He.
  2: { exists [], t. split_and!; [done|apply frame_refl|]. left. split_and!; [done..|].
       intros e b th ph He'. congruence. }
  assert (Hnone : tidy (locked t) (nm t) n → compact_ok t n (Ok [], t)).
  { intros Ht. exists [], t. split_and!; [done|apply frame_refl|by left]. }
  case_decide as Hx.
  { apply Hnone. intros e' b th ph He' _ Hx' _ Hl. simplify_eq.
    destruct Hx as [?|Hl'%swap_locked_spec]; [lia|done]. }
  apply Decidable.not_or in Hx as [Hx Hl]. apply dec_stable in Hx.
  rewrite swap_locked_spec in Hl.
  destruct (pages e) as [b th ph|rs] eqn:Hp.
  2: { apply Hnone. intros e' b th ph He' Hp'. congruence. }
  case_decide as Hc0.
  { apply Hnone. intros e' ? ? ? He' _ _ Hz _. simplify_eq.
    rewrite (Hct _ _ He), Hx, Hc0 in Hz. simpl in Hz. lia. }
  destruct (taken_runs_spec t n e (children e) Hs Hm He) as (o & Ho & Hspec); [done|].
  unfold mthen at 1, mread at 1. rewrite Ho. destruct o as [taken|].
  2: { apply Hnone. intros e' ? ? ? He' _ _ _ _ Hall. simplify_eq.
       destruct Hspec as (c & ec & Hc & Hec & Hown). specialize (Hall c ec Hc Hec). congruence. }
  destruct Hspec as (Hf & Hne & Ht1 & Ht2).
  destruct (union_prefixes taken (Hne Hc0) Hf) as (k & Hu & Hk & Hpos & Hle).
  rewrite Hu, expand_prefix, length_seq.
  destruct (Ht2 _ Hk) as (c & ec & Hc & Hec & Hpc).
  case_decide as Hkb.
  { apply Hnone. intros e' b' th' ph' He' Hp' _ _ _ _. exists c, ec.
    simplify_eq. rewrite Hp in Hp'. by simplify_eq. }
  assert (Hkb' : k ≤ length b).
  { destruct (shape_child _ Hm _ _ _ He Hc) as (ec' & Hec' & Hpar).
    destruct (shape_sel _ Hm _ _ _ Hec Hpc) as (o & eo & b' & ? & ? & off & Hpo & Heo & Hpe & Hr & ?).
    assert (eo = e) as -> by congruence. rewrite Hp in Hpe. simplify_eq. lia. }
  pose proof (sh_pages _ Hm _ _ He) as Hok. unfold page_ok in Hok. rewrite Hp in Hok.
  assert (Hcut : cuttable (locked t) (nm t) n b th ph k).
  { split; [|lia|done]. exists e. split_and!; [done..| |by exists c, ec].
    intros c' ec' Hc' Hec'. destruct (Ht1 _ Hc') as (ec'' & r & ? & Hr & Hin). simplify_eq.
    rewrite Forall_forall in Hf, Hle. specialize (Hf _ Hin). specialize (Hle _ Hin).
    destruct r as [r1 r2], Hf; simpl in *; subst. eauto. }
  rewrite !mapM_lookup_seq by lia. cbn [mexpect].
  unfold mthen at 1 2 3, mok at 1 2 3. rewrite omap_imap_drop.
  set (e' := with_pages e (Owned (take k b) (take k th) (take k ph))).
  destruct (put_node_spec t n e' Hs ltac:(by eexists)) as [Hnm Hfr].
  unfold mthen at 1, mmodify at 1.
  destruct (move_children_spec k (children e) (put_node t n e')) as (t' & Hmv & Hfr' & Hn').
  { by eapply frame_sound. }
  { intros c' Hc'. destruct (Ht1 _ Hc') as (ec' & [r1 r2] & Hec' & Hr & Hin).
    exists ec', r2. rewrite Hnm. rewrite lookup_insert_ne by (intros ->; congruence).
    split; [done|]. rewrite Forall_forall in Hf. destruct (Hf _ Hin); simpl in *; by subst. }
  exists (drop k b), t'. split_and!.
  - by rewrite (mthen_ok _ _ _ _ _ Hmv).
  - by eapply frame_trans.
  - right. exists b, th, ph, k. split_and!; [done| |done].
    rewrite Hn', Hnm. unfold cut. by rewrite (repage_insert _ _ _ e).
Qed.
End spec.
End KvSpec.
