(* ===== verification/KvInv.v ===== *)
(** The invariant of the page table and the one internal method that can free a
    page, [remove_anchor]: what it frees, what it keeps, and that nothing is
    left that nothing reads. *)
From S2P Require Import Prelude Ids Store Runs KvTable KvTrie KvChange KvSpec.

Module KvInv.
Import Runs KvTable KvTrie KvChange KvSpec.
Implicit Types m : trie.
Implicit Types A : list NodeId.

(** ** A trie with its anchors *)

Definition count (n : NodeId) A : nat := length (filter (λ a, a = n) A).

Record anchored m A : Prop := {
  an_live a : a ∈ A → is_Some (m !! a);
  an_count n e : m !! n = Some e → exact_anchors e = count n A;
}.

(** Shape, counts, the anchors the counts stand for, and nothing left to
    compact. *)
Record trie_ok (lock : NodeId → Prop) m A : Prop := {
  ok_shape : shape m;
  ok_counts : counts m;
  ok_anchored : anchored m A;
  ok_tidy n : tidy lock m n;
}.

(** A change that frees [freed]: every page a remaining anchor names stays
    where it is, every page is kept or freed, one of a node that stays only
    where no move holds it, and no node comes to be there for nobody. *)
Record evolves (lock : NodeId → Prop) A m (freed : list KvPageBacking) m' : Prop := {
  ev_view c v : (∀ n, c = Some n → n ∈ A) → view m c v → view m' c v;
  ev_cells : ∃ gone, freed = gone.*2 ∧ all_cells m ≡ₚ gone ++ all_cells m' ∧
    ∀ c, c ∈ gone → m' !! loc_node c.1 = None ∨ ¬ lock (loc_node c.1);
  ev_dom n : is_Some (m' !! n) → is_Some (m !! n);
  ev_garbage n e' : m' !! n = Some e' → path_anchors e' = 0 →
    ∃ e, m !! n = Some e ∧ path_anchors e = 0;
}.

Lemma evolves_refl lock A m : evolves lock A m [] m.
Proof. split; eauto. exists []. split_and!; [done..|]. by intros c ?%not_elem_of_nil. Qed.

Lemma evolves_trans lock A m1 f1 m2 f2 m3 :
  evolves lock A m1 f1 m2 → evolves lock A m2 f2 m3 → evolves lock A m1 (f1 ++ f2) m3.
Proof.
  intros [V1 (g1 & -> & C1 & L1) D1 G1] [V2 (g2 & -> & C2 & L2) D2 G2]. split.
  - eauto.
  - exists (g1 ++ g2). split_and!.
    + by rewrite fmap_app.
    + by rewrite C1, C2, app_assoc.
    + intros c [Hc|Hc]%elem_of_app; [|by auto]. destruct (L1 c Hc) as [Hn|?]; [left|by right].
      apply eq_None_not_Some. intros Hs%D2. rewrite Hn in Hs. by destruct Hs.
  - auto.
  - intros n e' He' Hz. destruct (G2 _ _ He' Hz) as (e & He & Hz'). eauto.
Qed.

(** The same change under other anchors' eyes and an equivalent lock. *)
Lemma evolves_weaken (lock lock' : NodeId → Prop) A A' m f m' :
  (∀ n, lock' n → lock n) → (∀ n, n ∈ A' → n ∈ A) →
  evolves lock A m f m' → evolves lock' A' m f m'.
Proof.
  intros Hl HA [V (g & -> & C & L) D G]. split; [eauto| |done|done].
  exists g. split_and!; [done..|]. intros c Hc. destruct (L c Hc); auto.
Qed.

Lemma evolves_held lock A m f m' : evolves lock A m f m' → held m ≡ₚ f ++ held m'.
Proof. intros [_ (g & -> & C & _) _ _]. unfold held. by rewrite C, fmap_app. Qed.

Lemma count_cons_eq n A : count n (n :: A) = S (count n A).
Proof. unfold count. by rewrite filter_cons_True. Qed.
Lemma count_cons_ne n a A : a ≠ n → count n (a :: A) = count n A.
Proof. intros ?. unfold count. by rewrite filter_cons_False. Qed.
Lemma count_pos n A : n ∈ A → 0 < count n A.
Proof.
  intros Hn. unfold count. destruct (filter (λ a, a = n) A) eqn:Hf; [|simpl; lia].
  assert (n ∈ filter (λ a, a = n) A) as Hin by (by apply list_elem_of_filter).
  rewrite Hf in Hin. set_solver.
Qed.
Lemma count_none n A : n ∉ A → count n A = 0.
Proof.
  intros Hn. unfold count. rewrite filter_none; [done|].
  apply Forall_forall. intros x Hx ->. done.
Qed.
Lemma count_Permutation n A A' : A ≡ₚ A' → count n A = count n A'.
Proof. intros Hp. unfold count. by rewrite Hp. Qed.

Lemma anchored_Permutation m A A' : A ≡ₚ A' → anchored m A → anchored m A'.
Proof.
  intros Hp [Hl Hc]. split.
  - intros a. rewrite <-Hp. auto.
  - intros n e He. rewrite <-(count_Permutation _ _ _ Hp). auto.
Qed.

Lemma trie_ok_Permutation lock m A A' : A ≡ₚ A' → trie_ok lock m A → trie_ok lock m A'.
Proof. intros Hp []. split; eauto using anchored_Permutation. Qed.

Lemma anchored_path m A a e :
  counts m → anchored m A → a ∈ A → m !! a = Some e → 0 < exact_anchors e ∧ 0 < path_anchors e.
Proof.
  intros Hct [_ Hc] Ha He. pose proof (count_pos _ _ Ha). pose proof (Hc _ _ He).
  pose proof (Hct _ _ He). lia.
Qed.

(** What carries over to the nodes and anchors of [m'] from [m] when neither
    exact counts nor live anchors change. *)
Lemma anchored_same m m' A :
  (∀ a, a ∈ A → is_Some (m !! a) → is_Some (m' !! a)) →
  (∀ n e', m' !! n = Some e' → ∃ e, m !! n = Some e ∧ exact_anchors e' = exact_anchors e) →
  anchored m A → anchored m' A.
Proof.
  intros Hl Hx [Ha Hc]. split; [by eauto|]. intros n e' He'.
  destruct (Hx _ _ He') as (e & He & ->). eauto.
Qed.

Section cut.
Context (lock : NodeId → Prop) m A (n : NodeId) (b : list KvPageBacking).
Context (th : list (list (option Hash256))) (ph : list (option Hash256)) (k : nat).
Context (Hm : shape m) (Ha : anchored m A) (Hcut : cuttable lock m n b th ph k).

Lemma cut_entry j e' :
  cut n b th ph k m !! j = Some e' → ∃ e, m !! j = Some e ∧
    exact_anchors e' = exact_anchors e ∧ path_anchors e' = path_anchors e.
Proof.
  intros (e & He & ->)%repage_lookup_Some. exists e. split; [done|]. by case_decide.
Qed.

Lemma cut_anchored : anchored (cut n b th ph k m) A.
Proof.
  apply (anchored_same m); [| |done].
  - intros a _ [e He]. unfold cut. rewrite repage_lookup, He. by eexists.
  - intros j e' (e & ? & ? & _)%cut_entry. eauto.
Qed.

Lemma cut_evolves : evolves lock A m (drop k b) (cut n b th ph k m).
Proof.
  pose proof (cu_lock _ _ _ _ _ _ _ Hcut) as Hlock.
  split.
  - intros c v Hc. eapply cut_view; [done..|]. intros ->.
    destruct Hcut as [(e & He & _ & Hx & _) _ _]. specialize (Hc n eq_refl).
    pose proof (count_pos _ _ Hc). pose proof (an_count _ _ Ha _ _ He). lia.
  - exists (drop k (cells n b)). split_and!.
    + by rewrite fmap_drop, snd_cells.
    + by eapply cut_cells.
    + intros [l x] [Hc _]%elem_of_drop_elem%elem_of_cells. right. simpl. by rewrite Hc.
  - intros j [e' (e & He & _)%cut_entry]. eauto.
  - intros j e' (e & He & _ & Hp)%cut_entry Hz. exists e. split; [done|lia].
Qed.
End cut.

Section prune.
Context (m : trie) (R : list NodeId) (A : list NodeId).
Context (Hm : shape m) (Hct : counts m) (HR : prunable m R) (Ha : anchored m A).

Lemma anchored_unpruned a : a ∈ A → a ∉ R.
Proof.
  intros HaA HaR. destruct (pr_zero _ _ HR _ HaR) as (e & He & Hz).
  destruct (anchored_path _ _ _ _ Hct Ha HaA He). lia.
Qed.

Lemma prune_anchored : anchored (prune R m) A.
Proof.
  apply (anchored_same m); [| |done].
  - intros a HaA [e He]. rewrite prune_lookup, decide_False, He by by apply anchored_unpruned.
    by eexists.
  - intros n e' (_ & e & He & ->)%prune_lookup_Some. by exists e.
Qed.

Lemma prune_evolves lock : evolves lock A m (backs_of m R) (prune R m).
Proof.
  split.
  - intros c v Hc. apply prune_view; [done..|]. intros n ->. by apply anchored_unpruned, Hc.
  - exists (gone_of m R). split_and!; [by rewrite gone_of_backs|by apply prune_cells|].
    intros c Hc%gone_of_node. left. by rewrite prune_lookup, decide_True.
  - intros n [e' (_ & e & He & _)%prune_lookup_Some]. eauto.
  - intros n e' (_ & e & He & ->)%prune_lookup_Some Hz. by exists e.
Qed.

Lemma prune_tidy lock j :
  tidy lock m j → (∀ e c, j ∉ R → m !! j = Some e → c ∈ children e → c ∉ R) →
  tidy lock (prune R m) j.
Proof.
  intros Ht Hch e b th ph (HjR & e0 & He0 & ->)%prune_lookup_Some; simpl.
  intros Hp Hx Hz Hl Hall.
  assert (Hc : ∀ c, c ∈ children e0 → c ∈ filter (λ c, c ∉ R) (children e0)).
  { intros c Hc. apply list_elem_of_filter. eauto. }
  destruct (Ht e0 b th ph) as (c & ec & Hcc & Hec & Hpc); [done..| |].
  - intros c ec Hcc Hec. apply (Hall c (with_children ec (filter (λ c, c ∉ R) (children ec)))).
    + by apply Hc.
    + rewrite prune_lookup, decide_False, Hec; [done|]. by eapply Hch.
  - exists c, (with_children ec (filter (λ c, c ∉ R) (children ec))). split_and!; [by apply Hc| |done].
    rewrite prune_lookup, decide_False, Hec; [done|]. by eapply Hch.
Qed.
End prune.

(** ** Counting an anchor *)

Lemma recount_tidy lock m fx fp j :
  tidy lock m j →
  (∀ e, m !! j = Some e → fx j (exact_anchors e) = 0 → 0 < fp j (path_anchors e) →
     exact_anchors e = 0 ∧ 0 < path_anchors e) →
  tidy lock (recount fx fp m) j.
Proof.
  intros Ht Hj e b th ph He Hp Hx Hz Hl Hall.
  rewrite recount_lookup in He. apply fmap_Some in He as (e0 & He0 & ->). simpl in *.
  destruct (Hj _ He0 Hx Hz) as [Hx0 Hz0].
  destruct (Ht e0 b th ph) as (c & ec & Hc & Hec & Hpc); [done..| |].
  - intros c ec Hc Hec. specialize (Hall c). rewrite recount_lookup, Hec in Hall.
    by specialize (Hall _ Hc eq_refl).
  - exists c, (mkNode (parent ec) (children ec) (pages ec) (fx c (exact_anchors ec))
      (fp c (path_anchors ec))). by rewrite recount_lookup, Hec.
Qed.

Lemma on_chain_singleton n k : on_chain [n] k = if decide (k = n) then 1 else 0.
Proof. unfold on_chain. repeat case_decide; set_solver. Qed.

(** A node that selects pages of its parent. *)
Definition selects m k : Prop := ∃ e, m !! k = Some e ∧ is_owned (pages e) = false.

Lemma anchor_up_ok lock m A n l :
  trie_ok lock m A → chain m n l → (∀ k, k ∈ l → k ≠ n → 0 < path_of m k ∨ selects m k) →
  trie_ok lock (anchor_up n l m) (n :: A).
Proof.
  intros [Hm Hct [Hl Hc] Ht] Hch Hpos. split.
  - eapply same_shape_shape; [apply recount_same_shape|done].
  - by apply anchor_up_counts.
  - split.
    + intros a [->|Ha]%elem_of_cons; unfold anchor_up; rewrite recount_lookup, fmap_is_Some;
        [by eapply chain_live|by apply Hl].
    + intros k e' He'. unfold anchor_up in He'. rewrite recount_lookup in He'.
      apply fmap_Some in He' as (e & He & ->). simpl. rewrite (Hc _ _ He), on_chain_singleton.
      case_decide as Hk; [subst; rewrite count_cons_eq; lia|].
      rewrite count_cons_ne by done. lia.
  - intros j. destruct (m !! j) as [ej|] eqn:Hej; [destruct (is_owned (pages ej)) eqn:Hoj|].
    3: { intros e b th ph He. unfold anchor_up in He. by rewrite recount_lookup, Hej in He. }
    2: { intros e b th ph He Hp. unfold anchor_up in He. rewrite recount_lookup, Hej in He.
         injection He as <-. simpl in Hp. by rewrite Hp in Hoj. }
    apply recount_tidy; [done|]. intros e He Hx Hz. rewrite Hej in He; injection He as <-.
    rewrite on_chain_singleton in Hx. case_decide as Hj; [lia|]. split; [lia|].
    unfold on_chain in Hz. case_decide as Hjl; [|lia].
    destruct (Hpos j Hjl Hj) as [Hp|(e & He & Ho)]; [unfold path_of in Hp; by rewrite Hej in Hp|congruence].
Qed.

Section down.
Context (lock : NodeId → Prop) m A (n : NodeId) (l : list NodeId).
Context (Hok : trie_ok lock m (n :: A)) (Hch : chain m n l).

Lemma anchored_head : ∃ e, m !! n = Some e ∧ 0 < exact_anchors e.
Proof.
  destruct Hok as [_ Hct Ha _]. destruct (an_live _ _ Ha n) as [e He]; [apply elem_of_cons; by left|].
  exists e. split; [done|]. apply (anchored_path m (n :: A) n); [done..|apply elem_of_cons; by left|done].
Qed.

Lemma anchored_chain_pos k : k ∈ l → 0 < path_of m k.
Proof.
  intros Hk. destruct Hok as [Hm Hct Ha _]. destruct anchored_head as (e & He & Hx).
  eapply Nat.lt_le_trans; [|by eapply path_of_chain]. unfold path_of. rewrite He. simpl.
  rewrite (Hct _ _ He). lia.
Qed.

Lemma anchor_down_shape : same_shape m (anchor_down n l m).
Proof. apply recount_same_shape. Qed.

Lemma anchor_down_anchored : anchored (anchor_down n l m) A.
Proof.
  destruct Hok as [_ _ [Hl Hc] _]. split.
  - intros a Ha. unfold anchor_down. rewrite recount_lookup, fmap_is_Some. apply Hl. set_solver.
  - intros k e' He'. unfold anchor_down in He'. rewrite recount_lookup in He'.
    apply fmap_Some in He' as (e & He & ->). simpl. rewrite (Hc _ _ He), on_chain_singleton.
    case_decide as Hk; [subst; rewrite count_cons_eq; lia|].
    rewrite count_cons_ne by done. lia.
Qed.

Lemma anchor_down_tidy j : j ≠ n → tidy lock (anchor_down n l m) j.
Proof.
  intros Hj. apply recount_tidy; [apply Hok|]. intros e He Hx Hz.
  rewrite on_chain_singleton, decide_False in Hx by done. lia.
Qed.

Lemma anchor_down_garbage k e' :
  anchor_down n l m !! k = Some e' → path_anchors e' = 0 →
  k ∈ l ∨ ∃ e, m !! k = Some e ∧ path_anchors e = 0.
Proof.
  unfold anchor_down. rewrite recount_lookup. intros (e & He & ->)%fmap_Some; simpl.
  unfold on_chain. case_decide; [by left|]. intros Hz. right. exists e. split; [done|lia].
Qed.
End down.

Section inv.
Context {WS NS : Type → Type}.
Context `{!KeyedStore WorkingSetId WS, !KeyedStore NodeId NS}.
Context `{!KeyedStoreLaws WorkingSetId WS, !KeyedStoreLaws NodeId NS}.
Abbreviation table := (KvPageTable WS NS).
Abbreviation tm := (method table KvTableError).
Implicit Types t : table.

(** ** The two loops of [remove_anchor] *)

Lemma detach_path ks : ∀ t,
  sound t → shape (nm t) → counts (nm t) →
  ∃ R t', mextend ks detach_unreferenced t = (Ok (backs_of (nm t) R), t') ∧ detaches t t' R ∧
    tops (nm t) ks R ∧ (∀ k, k ∈ ks → path_of (nm t) k = 0 → is_Some (nm t !! k) → k ∈ R).
Proof.
  induction ks as [|k ks IH]; intros t Hs Hm Hct.
  { exists [], t. split_and!; [done|apply detaches_nil|by intros ? ? ? ?%not_elem_of_nil|
      set_solver]. }
  destruct (detach_unreferenced_spec t k Hs Hm Hct) as (R1 & t1 & Hd1 & Hdet1 & Ht1 & _ & Hin1).
  destruct (detaches_facts _ _ _ Hs Hm Hct Hdet1) as (Hs1 & Hm1 & Hct1 & _).
  destruct (IH t1 Hs1 Hm1 Hct1) as (R2 & t2 & Hd2 & Hdet2 & Ht2 & Hin2).
  destruct (detaches_app _ _ _ _ _ Hm Hdet1 Hdet2) as [Hdet Hb].
  pose proof Hdet1 as [_ N1 P1].
  exists (R1 ++ R2), t2. split_and!; [|done| |].
  - cbn [mextend]. rewrite (mthen_ok _ _ _ _ _ Hd1), (mthen_ok _ _ _ _ _ Hd2), Hb. done.
  - intros r er p [Hr|Hr]%elem_of_app Her Hp HpR.
    + assert (r ∈ [k]) by (eapply Ht1; [done..|set_solver]). set_solver.
    + apply elem_of_cons; right. destruct (pr_zero _ _ (de_prunable _ _ _ Hdet2) _ Hr) as (er' & Her' & _).
      rewrite N1 in Her'. pose proof Her' as (HrR & er0 & Her0 & ->)%prune_lookup_Some.
      simplify_eq. eapply (Ht2 r _ p Hr); [by rewrite N1|done|set_solver].
  - intros k' Hk' Hz Hl. apply elem_of_app.
    destruct (decide (k' ∈ R1)) as [|HR1]; [by left|].
    apply elem_of_cons in Hk' as [->|Hk']; [left; by apply Hin1|right].
    apply Hin2; [done| |].
    + rewrite N1. by rewrite prune_path_of.
    + rewrite N1, prune_lookup, decide_False by done. destruct Hl as [e ->]. by eexists.
Qed.

Lemma compact_path ks A : ∀ t,
  sound t → shape (nm t) → counts (nm t) → anchored (nm t) A →
  ∃ freed t', mextend ks compact_owner t = (Ok freed, t') ∧ frame t t' ∧
    shape (nm t') ∧ counts (nm t') ∧ anchored (nm t') A ∧ evolves (locked t) A (nm t) freed (nm t') ∧
    (∀ j, tidy (locked t) (nm t) j ∨ j ∈ ks → tidy (locked t') (nm t') j).
Proof.
  induction ks as [|k ks IH]; intros t Hs Hm Hct Ha.
  { exists [], t. split_and!; [done|apply frame_refl|done..|apply evolves_refl|].
    intros j [?|?]; [done|set_solver]. }
  destruct (compact_owner_spec t k Hs Hm Hct) as (f1 & t1 & Hc1 & Hfr1 & Hcase).
  assert (shape (nm t1) ∧ counts (nm t1) ∧ anchored (nm t1) A ∧ evolves (locked t) A (nm t) f1 (nm t1) ∧
    (∀ j, j = k ∨ tidy (locked t) (nm t) j → tidy (locked t) (nm t1) j))
    as (Hm1 & Hct1 & Ha1 & Hev1 & Ht1).
  { destruct Hcase as [(-> & Hn1 & Ht)|(b & th & ph & K & Hcut & Hn1 & ->)]; rewrite Hn1.
    - split_and!; [done..|apply evolves_refl|]. by intros j [->|?].
    - split_and!; [by eapply cut_shape|by apply repage_counts|by eapply cut_anchored|
        by eapply cut_evolves|intros j ?; by eapply cut_tidy]. }
  assert (Hs1 : sound t1) by by eapply frame_sound.
  destruct (IH t1 Hs1 Hm1 Hct1 Ha1) as (f2 & t2 & Hc2 & Hfr2 & Hm2 & Hct2 & Ha2 & Hev2 & Ht2).
  assert (Hlock : ∀ m j, tidy (locked t) m j → tidy (locked t1) m j).
  { intros m j Ht e b th ph He Hp Hx Hz Hl. apply (Ht e b th ph); [done..|].
    by rewrite <-(frame_locked _ _ _ Hfr1). }
  exists (f1 ++ f2), t2. split_and!; [|by eapply frame_trans|done..| |].
  - cbn [mextend]. by rewrite (mthen_ok _ _ _ _ _ Hc1), (mthen_ok _ _ _ _ _ Hc2).
  - eapply evolves_trans; [done|]. eapply evolves_weaken; [|done..].
    intros j. by apply (frame_locked t t1).
  - intros j Hj. apply Ht2. destruct Hj as [Hj|[->|Hj]%elem_of_cons]; [left|left|by right].
    + apply Hlock, Ht1. by right.
    + apply Hlock, Ht1. by left.
Qed.

(** ** Removing an anchor *)

Lemma remove_anchor_steps t n l A :
  sound t → trie_ok (locked t) (nm t) (n :: A) → chain (nm t) n l →
  ∃ t1, frame t t1 ∧ nm t1 = anchor_down n l (nm t) ∧
    remove_anchor n t =
      mthen (mextend l detach_unreferenced) (λ detached,
      mthen (mextend l compact_owner) (λ compacted, mok (detached ++ compacted))) t1.
Proof.
  intros Hs Hok Hch. destruct (anchored_head _ _ _ _ Hok) as (e & He & Hx).
  set (e' := with_exact e (exact_anchors e - 1)).
  destruct (put_node_spec t n e' Hs ltac:(by eexists)) as [Hnm Hfr].
  set (t1 := put_node t n e') in *.
  assert (Hs1 : sound t1) by by eapply frame_sound.
  assert (Hc1 : chain (nm t1) n l).
  { eapply links_chain; [|done]. intros k. rewrite Hnm. destruct (decide (k = n)) as [->|Hk].
    - by rewrite lookup_insert_eq, He.
    - by rewrite lookup_insert_ne. }
  destruct (drop_path_spec l t1 n (fuel t1) Hs1 Hc1) as (t2 & Hd & Hfr2 & Hn2).
  { rewrite fuel_size by done. by eapply chain_length. }
  { intros k Hk. pose proof (anchored_chain_pos _ _ _ _ _ Hok Hch k Hk) as Hp.
    unfold path_of in *. rewrite Hnm. destruct (decide (k = n)) as [->|Hkn].
    - rewrite lookup_insert_eq. by rewrite He in Hp.
    - by rewrite lookup_insert_ne. }
  exists t2. split_and!; [by eapply frame_trans| |].
  - rewrite Hn2. apply map_eq. intros k. unfold anchor_down. rewrite !recount_lookup, Hnm.
    rewrite on_chain_singleton. destruct (decide (k = n)) as [->|Hk].
    + rewrite lookup_insert_eq, He. done.
    + rewrite lookup_insert_ne by done. apply option_fmap_ext. intros ek. by rewrite Nat.sub_0_r.
  - unfold remove_anchor. unfold mthen at 1, mread at 1. rewrite node_nm, He by done.
    unfold mguard. rewrite decide_True by done.
    change (mthen (mok tt) _ t) with (mthen (drop_path (fuel t1) (Some n)) (λ path,
      mthen (mextend path detach_unreferenced) (λ detached,
      mthen (mextend path compact_owner) (λ compacted, mok (detached ++ compacted)))) t1).
    by rewrite (mthen_ok _ _ _ _ _ Hd).
Qed.

Lemma tidy_lock (lock lock' : NodeId → Prop) m j :
  (∀ n, lock n → lock' n) → tidy lock m j → tidy lock' m j.
Proof. intros Hl Ht e b th ph He Hp Hx Hz Hn. apply (Ht e b th ph); auto. Qed.

Lemma frame_tidy t t' m j : frame t t' → tidy (locked t) m j ↔ tidy (locked t') m j.
Proof. intros Hf. split; apply tidy_lock; intros n; by apply (frame_locked t t'). Qed.

Lemma remove_anchor_spec t n A :
  sound t → trie_ok (locked t) (nm t) (n :: A) →
  ∃ freed t', remove_anchor n t = (Ok freed, t') ∧ frame t t' ∧
    trie_ok (locked t') (nm t') A ∧ evolves (locked t) A (nm t) freed (nm t').
Proof.
  intros Hs Hok.
  destruct (anchored_head _ _ _ _ Hok) as (e & He & Hx).
  pose proof Hok as [Hm Hct Ha Ht].
  destruct (sh_chain _ Hm n ltac:(by eexists)) as [l Hch].
  destruct (remove_anchor_steps t n l A Hs Hok Hch) as (t1 & Hfr1 & Hn1 & ->).
  assert (Hs1 : sound t1) by by eapply frame_sound.
  assert (Hm1 : shape (nm t1)) by (rewrite Hn1; eapply same_shape_shape; [apply anchor_down_shape|done]).
  assert (Hct1 : counts (nm t1)) by (rewrite Hn1; by eapply anchor_down_counts).
  assert (Ha1 : anchored (nm t1) A) by (rewrite Hn1; by eapply anchor_down_anchored).
  assert (Ht1 : ∀ j, j ≠ n → tidy (locked t1) (nm t1) j).
  { intros j Hj. rewrite <-frame_tidy by done. rewrite Hn1. by eapply anchor_down_tidy. }
  destruct (detach_path l t1 Hs1 Hm1 Hct1) as (R & t2 & Hd & Hdet & Htop & Hin).
  destruct (detaches_facts _ _ _ Hs1 Hm1 Hct1 Hdet) as (Hs2 & Hm2 & Hct2 & _).
  pose proof Hdet as [Hfr2 Hn2 HR].
  assert (Ha2 : anchored (nm t2) A) by (rewrite Hn2; by apply prune_anchored).
  destruct (compact_path l A t2 Hs2 Hm2 Hct2 Ha2)
    as (f & t3 & Hc & Hfr3 & Hm3 & Hct3 & Ha3 & Hev3 & Ht3).
  exists (backs_of (nm t1) R ++ f), t3. split_and!.
  - by rewrite (mthen_ok _ _ _ _ _ Hd), (mthen_ok _ _ _ _ _ Hc).
  - do 2 (eapply frame_trans; [done|]). done.
  - split; [done..|]. intros j. apply Ht3.
    destruct (decide (j ∈ l)) as [|Hjl]; [by right|left].
    rewrite <-(frame_tidy t1 t2) by done. rewrite Hn2. apply prune_tidy.
    + apply Ht1. intros ->. destruct (chain_cons _ _ _ Hch) as [? ->]. set_solver.
    + intros ej c HjR Hej Hcc HcR.
      destruct (shape_child _ Hm1 _ _ _ Hej Hcc) as (ec & Hec & Hp).
      assert (c ∈ l) as Hcl by by eapply Htop.
      apply Hjl. eapply (chain_parent_elem (nm t1)); [|done..].
      rewrite Hn1. by eapply same_shape_chain; [apply anchor_down_shape|].
  - pose proof (prune_evolves _ _ _ Hm1 Hct1 HR Ha1 (locked t)) as Hev2. rewrite <-Hn2 in Hev2.
    assert (evolves (locked t) A (nm t2) f (nm t3)) as Hev3'.
    { eapply evolves_weaken; [|done..]. intros j Hj. do 2 (eapply frame_locked; [done|]). done. }
    pose proof (ev_garbage _ _ _ _ _ Hev2) as G2. pose proof (ev_garbage _ _ _ _ _ Hev3') as G3.
    pose proof (evolves_trans _ _ _ _ _ _ _ Hev2 Hev3') as [V C D _].
    split.
    + intros c v Hc' Hv. apply V; [done..|]. rewrite Hn1.
      eapply same_shape_view; [apply anchor_down_shape|done].
    + unfold all_cells at 1. rewrite (same_shape_backs _ _ (anchor_down_shape (nm t) n l)), <-Hn1.
      exact C.
    + intros k Hk%D. rewrite Hn1 in Hk. unfold anchor_down in Hk.
      by rewrite recount_lookup, fmap_is_Some in Hk.
    + intros k e3 He3 Hz. destruct (G3 _ _ He3 Hz) as (e2 & He2 & Hz2).
      destruct (G2 _ _ He2 Hz2) as (e1 & He1 & Hz1). pose proof He1 as He1'. rewrite Hn1 in He1'.
      destruct (anchor_down_garbage _ _ _ _ _ He1' Hz1) as [Hkl|?]; [|done].
      exfalso. assert (k ∈ R) as HkR.
      { apply Hin; [done| |by eexists]. unfold path_of. by rewrite He1. }
      rewrite Hn2 in He2. by apply prune_lookup_Some in He2 as [? _].
Qed.
End inv.
End KvInv.
