(* ===== verification/KvRead.v ===== *)
(** Who reads a page: the anchors whose paths name it. Where every node is
    anchored by something and nothing is left to compact, every page is read,
    so a change that keeps what the anchors name frees nothing else. *)
From S2P Require Import Prelude Ids Runs KvTable KvTrie KvChange KvInv.

Module KvRead.
Import Runs KvTable KvTrie KvChange KvInv.
Implicit Types m : trie.
Implicit Types A : list NodeId.

(** No node is there for nobody. *)
Definition no_garbage m : Prop := ∀ n e, m !! n = Some e → 0 < path_anchors e.

(** A page an anchor of [A] names. *)
Definition read_by m A (c : cell) : Prop := ∃ a v, a ∈ A ∧ view m (Some a) v ∧ c ∈ v.

Lemma sum_list_pos_elem (l : list nat) : 0 < sum_list l → ∃ x, x ∈ l ∧ 0 < x.
Proof.
  induction l as [|x l IH]; simpl; [lia|]. intros Hs. destruct (decide (0 < x)).
  - exists x. set_solver.
  - destruct IH as (y & ? & ?); [lia|]. exists y. set_solver.
Qed.

(** A counted path ends at an anchor. *)
Lemma anchor_exists m A k e :
  shape m → counts m → anchored m A → m !! k = Some e → 0 < path_anchors e →
  ∃ a l, a ∈ A ∧ chain m a l ∧ k ∈ l.
Proof.
  intros Hm Hct Ha He Hz. destruct (sh_chain _ Hm k ltac:(by eexists)) as [lk Hlk].
  remember (size m - length lk) as d eqn:Hd. revert k e He Hz lk Hlk Hd.
  induction d as [d IH] using lt_wf_ind; intros k e He Hz lk Hlk ->.
  destruct (decide (k ∈ A)) as [HkA|HkA].
  { exists k, lk. split_and!; [done..|]. destruct (chain_cons _ _ _ Hlk) as [? ->]. set_solver. }
  rewrite (Hct _ _ He), (an_count _ _ Ha _ _ He), count_none in Hz by done.
  destruct (sum_list_pos_elem _ Hz) as (x & (c & -> & Hc)%list_elem_of_fmap & Hx).
  destruct (shape_child _ Hm _ _ _ He Hc) as (ec & Hec & Hp).
  unfold path_of in Hx. rewrite Hec in Hx. simpl in Hx.
  assert (Hlc : chain m c (c :: lk)) by by eapply chain_up.
  pose proof (chain_length _ _ _ Hlc) as Hlen. simpl in Hlen.
  destruct (IH (size m - length (c :: lk))) with (k := c) (e := ec) (lk := c :: lk)
    as (a & l & HaA & Hl & Hin); [simpl; lia|done..|].
  exists a, l. split_and!; [done..|]. by eapply chain_parent_elem.
Qed.

(** What a path names of an owner on its chain: all of it, where the path ends
    there or goes on through an owned child; a prefix, through a selection. *)
Lemma chain_reads m a l v k e b th ph :
  shape m → chain m a l → view m (Some a) v → k ∈ l → m !! k = Some e → pages e = Owned b th ph →
  ((k = a ∨ ∃ c ec, c ∈ l ∧ m !! c = Some ec ∧ parent ec = Some k ∧ is_owned (pages ec) = true) →
     ∀ x, x ∈ cells k b → x ∈ v) ∧
  (∀ c ec off, c ∈ l → m !! c = Some ec → parent ec = Some k → pages ec = ParentSelection [(0, off)] →
     ∀ x, x ∈ take off (cells k b) → x ∈ v).
Proof.
  intros Hm Hc Hv Hk He Hp. remember (length l) as d eqn:Hd. revert a l v Hc Hv Hk Hd.
  induction d as [d IH] using lt_wf_ind; intros a l v Hc [segs Hv] Hk ->.
  inversion Hv as [|? own p v' segs' Hown Hpred Hw]; subst.
  unfold contrib in Hown. unfold pred in Hpred.
  destruct (chain_live _ _ _ Hc) as [ea Hea]. rewrite Hea in Hown, Hpred.
  destruct (pages ea) as [ba tha pha|rs] eqn:Hpa.
  - injection Hown as <-. injection Hpred as <-.
    inversion Hc as [? ? Hea' Hr|? ? q l' Hea' Hq Hc']; simplify_eq.
    + apply list_elem_of_singleton in Hk as ->. simplify_eq.
      assert (b = ba) as -> by congruence. split.
      * intros _ x Hx. apply elem_of_app. by right.
      * intros c ec off ->%list_elem_of_singleton. congruence.
    + rewrite Hq in Hw. apply elem_of_cons in Hk as [->|Hk].
      { assert (b = ba) as -> by congruence. split.
        - intros _ x Hx. apply elem_of_app. by right.
        - intros c ec off Hcl Hec Hpc. by destruct (chain_bottom_child _ _ _ _ _ Hc Hec Hpc). }
      destruct (IH (length l')) with (a := q) (l := l') (v := v') as [IH1 IH2];
        [simpl; lia|done|by exists segs'|done|done|]. split.
      * intros Hcase x Hx. apply elem_of_app. left. apply IH1; [|done].
        destruct Hcase as [->|(c & ec & Hcl & Hec & Hpc & Ho)].
        { by destruct (NoDup_cons_1_1 _ _ (chain_NoDup _ _ _ Hc)). }
        apply elem_of_cons in Hcl as [->|Hcl]; [left; congruence|right; eauto 10].
      * intros c ec off Hcl Hec Hpc Hps x Hx. apply elem_of_app. left.
        apply elem_of_cons in Hcl as [->|Hcl]; [congruence|]. by eapply IH2.
  - destruct (shape_sel _ Hm _ _ _ Hea Hpa) as (o & eo & bo & tho & pho & offa & Hpo & Heo & Hpgo & -> & ?).
    rewrite Hpo, Heo in Hown, Hpred. injection Hpred as <-. rewrite Hpgo in Hown. simpl in Hown.
    rewrite runs_len_prefix in Hown. injection Hown as <-.
    inversion Hc as [? ? Hea' Hr|? ? q l' Hea' Hq Hc']; simplify_eq.
    pose proof (chain_NoDup _ _ _ Hc) as Hnd. apply NoDup_cons in Hnd as [Hal Hnd].
    apply elem_of_cons in Hk as [->|Hk]; [congruence|].
    assert (Hsel : ∀ c ec, c ∈ a :: l' → m !! c = Some ec → parent ec = Some o → c = a).
    { intros c ec Hcl Hec Hpc. apply elem_of_cons in Hcl as [?|Hcl]; [done|].
      by destruct (chain_bottom_child _ _ _ _ _ Hc' Hec Hpc). }
    destruct (decide (k = o)) as [->|Hko].
    { assert (b = bo) as -> by congruence. split.
      - intros [->|(c & ec & Hcl & Hec & Hpc & Ho)]; [done|].
        rewrite (Hsel _ _ Hcl Hec Hpc) in Hec. simplify_eq. by rewrite Hpa in Ho.
      - intros c ec off Hcl Hec Hpc Hps x Hx. rewrite (Hsel _ _ Hcl Hec Hpc) in Hec. simplify_eq.
        rewrite Hpa in Hps. simplify_eq. apply elem_of_app. by right. }
    inversion Hc' as [? ? Heo' Hr|? ? q l'' Heo' Hq' Hc'']; simplify_eq; [set_solver|].
    rewrite Hq' in Hw. apply elem_of_cons in Hk as [?|Hk]; [done|].
    destruct (IH (length l'')) with (a := q) (l := l'') (v := v') as [IH1 IH2];
      [simpl; lia|done|by exists segs'|done|done|]. split.
    + intros Hcase x Hx. apply elem_of_app. left. apply IH1; [|done].
      destruct Hcase as [->|(c & ec & Hcl & Hec & Hpc & Ho)]; [congruence|].
      apply elem_of_cons in Hcl as [->|Hcl]; [congruence|].
      apply elem_of_cons in Hcl as [->|Hcl]; [left; congruence|right; eauto 10].
    + intros c ec off Hcl Hec Hpc Hps x Hx. apply elem_of_app. left.
      apply elem_of_cons in Hcl as [->|Hcl]; [congruence|].
      apply elem_of_cons in Hcl as [->|Hcl]; [congruence|]. by eapply IH2.
Qed.

(** The first page of an owner on a chain is on the path. *)
Lemma chain_reads_first m a l v k e b th ph :
  shape m → chain m a l → view m (Some a) v → k ∈ l → m !! k = Some e → pages e = Owned b th ph →
  ∃ x, (mkLoc k 0, x) ∈ v.
Proof.
  intros Hm Hc Hv Hk He Hp.
  destruct (chain_reads _ _ _ _ _ _ _ _ _ Hm Hc Hv Hk He Hp) as [H1 H2].
  pose proof (sh_pages _ Hm _ _ He) as Hok. unfold page_ok in Hok. rewrite Hp in Hok.
  destruct b as [|x b]; [simpl in Hok; lia|]. exists x.
  destruct (decide (k = a)) as [->|Hka]; [apply H1; [by left|]; by apply elem_of_cells|].
  destruct (chain_child _ _ _ _ Hc Hk Hka) as (c & ec & Hcl & Hec & Hpc).
  destruct (pages ec) as [|rs] eqn:Hpg.
  - apply H1; [right; exists c, ec; by rewrite Hpg|by apply elem_of_cells].
  - destruct (shape_sel _ Hm _ _ _ Hec Hpg) as (o & eo & ? & ? & ? & off & _ & _ & _ & -> & ?).
    apply (H2 c ec off); [done..|]. rewrite <-cells_take. apply elem_of_cells.
    destruct off; [lia|]. done.
Qed.

Lemma owned_first_read m A k e b th ph :
  shape m → counts m → anchored m A → m !! k = Some e → pages e = Owned b th ph →
  0 < path_anchors e → ∃ x, read_by m A (mkLoc k 0, x).
Proof.
  intros Hm Hct Ha He Hp Hz.
  destruct (anchor_exists _ _ _ _ Hm Hct Ha He Hz) as (a & l & HaA & Hc & Hk).
  destruct (view_total _ Hm a) as [v Hv]; [by eapply chain_live|].
  destruct (chain_reads_first _ _ _ _ _ _ _ _ _ Hm Hc Hv Hk He Hp) as [x Hx].
  exists x, a, v. done.
Qed.

(** Every page of a tidy node no move holds is read. *)
Lemma tidy_read lock m A k e b th ph x :
  shape m → counts m → anchored m A → no_garbage m → tidy lock m k → ¬ lock k →
  m !! k = Some e → pages e = Owned b th ph → x ∈ cells k b → read_by m A x.
Proof.
  intros Hm Hct Ha Hg Ht Hl He Hp Hx.
  assert (Hthrough : ∀ c ec, c ∈ children e → m !! c = Some ec →
    ∃ a l v, a ∈ A ∧ chain m a l ∧ view m (Some a) v ∧ c ∈ l ∧ k ∈ l ∧ parent ec = Some k).
  { intros c ec Hc Hec. destruct (anchor_exists _ _ _ _ Hm Hct Ha Hec (Hg _ _ Hec))
      as (a & l & HaA & Hch & Hcl).
    destruct (shape_child _ Hm _ _ _ He Hc) as (ec' & Hec' & Hpc). simplify_eq.
    destruct (view_total _ Hm a) as [v Hv]; [by eapply chain_live|].
    exists a, l, v. split_and!; [done..| |done]. by eapply chain_parent_elem. }
  destruct (decide (k ∈ A)) as [HkA|HkA].
  { destruct (sh_chain _ Hm k ltac:(by eexists)) as [l Hch].
    destruct (view_total _ Hm k) as [v Hv]; [by eexists|]. exists k, v. split_and!; [done..|].
    destruct (chain_cons _ _ _ Hch) as [l' ->].
    destruct (chain_reads m k (k :: l') v k e b th ph) as [Hr _]; [done..|set_solver|done|done|].
    apply Hr; [by left|done]. }
  assert (Hx0 : exact_anchors e = 0) by (rewrite (an_count _ _ Ha _ _ He); by apply count_none).
  destruct (decide (Exists (λ c, from_option (is_owned ∘ pages) false (m !! c) = true) (children e)))
    as [(c & Hc & Ho)%Exists_exists|Hno].
  - destruct (m !! c) as [ec|] eqn:Hec; [|done]. simpl in Ho.
    destruct (Hthrough c ec Hc Hec) as (a & l & v & HaA & Hch & Hv & Hcl & Hkl & Hpc).
    exists a, v. split_and!; [done..|].
    destruct (chain_reads m a l v k e b th ph) as [Hr _]; [done..|].
    apply Hr; [right; eauto 10|done].
  - destruct (Ht e b th ph) as (c & ec & Hc & Hec & Hpc); [done..|by eapply Hg|done| |].
    { intros c ec Hc Hec. apply not_true_is_false. intros Ho. apply Hno, Exists_exists.
      exists c. split; [done|]. by rewrite Hec. }
    destruct (Hthrough c ec Hc Hec) as (a & l & v & HaA & Hch & Hv & Hcl & Hkl & Hpk).
    exists a, v. split_and!; [done..|].
    destruct (chain_reads m a l v k e b th ph) as [_ H2]; [done..|].
    apply (H2 c ec (length b)); [done..|]. rewrite take_ge; [done|]. by rewrite length_cells.
Qed.

(** A page on a path is one of the trie's. *)
Lemma view_cells m c v x : shape m → view m c v → x ∈ v → x ∈ all_cells m.
Proof.
  intros Hm [segs Hw]. induction Hw as [|n own p v segs Ho Hp Hw IH]; [set_solver|].
  intros [?|Hx]%elem_of_app; [by apply IH|]. unfold contrib in Ho.
  destruct (m !! n) as [e|] eqn:He; [|done]. destruct (pages e) as [b th ph|rs] eqn:Hpg.
  - simplify_eq. destruct x as [l x]. apply elem_of_cells in Hx as [<- Hx].
    apply elem_of_all_cells. exists e. by rewrite Hpg.
  - destruct (parent e) as [o|]; [|done]. destruct (m !! o) as [eo|] eqn:Heo; [|done]. simplify_eq.
    apply elem_of_take in Hx as (i & Hi%list_elem_of_lookup_2 & _).
    destruct x as [l x]. apply elem_of_cells in Hi as [<- Hx].
    apply elem_of_all_cells. by exists eo.
Qed.

(** What is freed was read by no anchor that stays. *)
Lemma evolves_unread lock A m freed m' :
  shape m' → evolves lock A m freed m' →
  ∃ gone, freed = gone.*2 ∧ all_cells m ≡ₚ gone ++ all_cells m' ∧
    (∀ c, c ∈ gone → ¬ read_by m A c) ∧ NoDup gone.*1 ∧
    (∀ c, c ∈ gone → c.1 ∉ (all_cells m').*1) ∧
    (∀ c, c ∈ gone → m' !! loc_node c.1 = None ∨ ¬ lock (loc_node c.1)).
Proof.
  intros Hm' [V (g & -> & C & L) _ _]. exists g.
  pose proof (NoDup_all_cells m) as Hnd. rewrite C, fmap_app in Hnd.
  apply NoDup_app in Hnd as (Hg & Hd & _).
  assert (Hd' : ∀ c, c ∈ g → c.1 ∉ (all_cells m').*1).
  { intros c Hc. by apply Hd, list_elem_of_fmap_2. }
  split_and!; [done..| |done|done|done]. intros c Hc (a & v & HaA & Hv & Hcv).
  apply (Hd' c Hc), list_elem_of_fmap_2.
  eapply view_cells; [done|apply V; [|done]|done]. by intros ? [= <-].
Qed.

(** Where the anchors that stay read all that was read, nothing is freed. *)
Lemma evolves_quiet lock A A' m freed m' :
  trie_ok lock m A → no_garbage m → shape m' → evolves lock A' m freed m' →
  (∀ c, read_by m A c → read_by m A' c) → freed = [].
Proof.
  intros [Hm Hct Ha Ht] Hg Hm' Hev Hread.
  destruct (evolves_unread _ _ _ _ _ Hm' Hev) as (g & -> & C & Hun & Hnd & Hd & L).
  destruct g as [|[l x] g]; [done|]. exfalso.
  assert (Hc : (l, x) ∈ all_cells m) by (rewrite C; set_solver).
  apply elem_of_all_cells in Hc as (e & He & Hx).
  destruct (pages e) as [b th ph|] eqn:Hp; simpl in Hx; [|by rewrite lookup_nil in Hx].
  destruct (L (l, x) ltac:(set_solver)) as [Hnone|Hl]; simpl in *.
  - destruct (owned_first_read _ _ _ _ _ _ _ Hm Hct Ha He Hp (Hg _ _ He)) as (y & Hy).
    destruct (Hread _ Hy) as (a & v & HaA & Hv & Hin).
    assert (view m' (Some a) v) as Hv' by (eapply (ev_view _ _ _ _ _ Hev); [by intros ? [= <-]|done]).
    pose proof (view_cells _ _ _ _ Hm' Hv' Hin) as (e' & He' & _)%elem_of_all_cells.
    simpl in He'. congruence.
  - apply (Hun (l, x)); [set_solver|]. apply Hread.
    eapply (tidy_read lock m A (loc_node l) e b th ph); [done..|]. by apply elem_of_cells.
Qed.
End KvRead.
