(* ===== verification/KvState.v ===== *)
(** The state of the page table as a whole: who anchors its nodes, the
    invariant, and the specification of the internal operations that move an
    anchor or add a node. *)
From S2P Require Import Prelude Ids Store Runs KvTable KvOps KvTrie KvChange KvSpec KvInv KvRead.

Module KvState.
Import Runs KvTable KvOps KvTrie KvChange KvSpec KvInv KvRead.

(** The nodes that working sets end at. *)
Definition ws_anchors (w : gmap WorkingSetId WorkingSetEntry) : list NodeId :=
  omap (λ p, terminal p.2) (map_to_list w).

Lemma ws_anchors_insert w ws e :
  w !! ws = None → ws_anchors (<[ws := e]> w) ≡ₚ option_list (terminal e) ++ ws_anchors w.
Proof.
  intros Hw. unfold ws_anchors. rewrite map_to_list_insert by done. cbn.
  by destruct (terminal e).
Qed.

Lemma ws_anchors_delete w ws e :
  w !! ws = Some e → ws_anchors w ≡ₚ option_list (terminal e) ++ ws_anchors (delete ws w).
Proof.
  intros Hw. rewrite <-(insert_delete_id w ws e) at 1 by done.
  apply ws_anchors_insert, lookup_delete_eq.
Qed.

Lemma ws_anchors_update w ws e e' :
  w !! ws = Some e →
  ws_anchors (<[ws := e']> w) ≡ₚ option_list (terminal e') ++ ws_anchors (delete ws w).
Proof.
  intros Hw. rewrite <-insert_delete_eq. apply ws_anchors_insert, lookup_delete_eq.
Qed.

Lemma elem_of_ws_anchors w n : n ∈ ws_anchors w ↔ ∃ ws e, w !! ws = Some e ∧ terminal e = Some n.
Proof.
  unfold ws_anchors. rewrite list_elem_of_omap. split.
  - intros ([ws e] & Hin%elem_of_map_to_list & ?). eauto.
  - intros (ws & e & ? & ?). exists (ws, e). by rewrite elem_of_map_to_list.
Qed.

Section state.
Context {WS NS : Type → Type}.
Context `{!KeyedStore WorkingSetId WS, !KeyedStore NodeId NS}.
Context `{!KeyedStoreLaws WorkingSetId WS, !KeyedStoreLaws NodeId NS}.
Abbreviation table := (KvPageTable WS NS).
Abbreviation tm := (method table KvTableError).
Implicit Types t : table.

(** The keys of the two maps of holds. *)
Definition hold_anchors t : list NodeId :=
  (map_to_list (cache_roots t)).*1 ++ (map_to_list (pins t)).*1.

(** Everything that anchors a node: the working sets, the cache, the pins. *)
Definition anchors t : list NodeId := ws_anchors (wm t) ++ hold_anchors t.

Definition holds_ok t : Prop :=
  (∀ n c, cache_roots t !! n = Some c → (0 < c)%N) ∧ (∀ n c, pins t !! n = Some c → (0 < c)%N).

(** The pages a working set maps. *)
Definition maps t (e : WorkingSetEntry) (v : list cell) : Prop :=
  view (nm t) (terminal e) v ∧ length v = mapped_len e.

Record inv t : Prop := {
  inv_sound : sound t;
  inv_trie : trie_ok (locked t) (nm t) (anchors t);
  inv_holds : holds_ok t;
  inv_maps ws e : wm t !! ws = Some e → ∃ v, maps t e v;
}.

(** A change that leaves the holds and the moves alone. *)
Record keeps t t' : Prop := {
  kp_roots : cache_roots t' = cache_roots t;
  kp_pins : pins t' = pins t;
  kp_swap : swap_locations t' = swap_locations t;
  kp_sound : sound t → sound t';
  kp_room k : st_room (nodes t) k → st_room (nodes t') k;
  kp_ws_room k : st_room (working_sets t) k → st_room (working_sets t') k;
}.

Lemma keeps_trans t1 t2 t3 : keeps t1 t2 → keeps t2 t3 → keeps t1 t3.
Proof. intros [] []. split; try congruence; auto. Qed.

Lemma frame_keeps t t' : frame t t' → keeps t t'.
Proof.
  intros Hf. pose proof Hf as [Hw ? ? ? ? ?]. split; try done.
  - by apply frame_sound.
  - intros k. by rewrite Hw.
Qed.

Lemma frame_wm t t' : frame t t' → wm t' = wm t.
Proof. intros [Hw _ _ _ _ _]. unfold wm. by rewrite Hw. Qed.

Lemma keeps_locked t t' n : keeps t t' → locked t' n ↔ locked t n.
Proof. intros []. unfold locked. by rewrite kp_swap0. Qed.

Lemma keeps_tidy t t' m j : keeps t t' → tidy (locked t) m j ↔ tidy (locked t') m j.
Proof. intros Hk. split; apply tidy_lock; intros n; by apply (keeps_locked t t'). Qed.

Lemma keeps_trie_ok t t' m A : keeps t t' → trie_ok (locked t) m A → trie_ok (locked t') m A.
Proof.
  intros Hk [Hs Hc Ha Ht]. split; [done..|]. intros n. by rewrite <-(keeps_tidy t t').
Qed.

Lemma keeps_hold_anchors t t' : keeps t t' → hold_anchors t' = hold_anchors t.
Proof. intros []. unfold hold_anchors. by rewrite kp_roots0, kp_pins0. Qed.

Lemma keeps_holds t t' : keeps t t' → holds_ok t → holds_ok t'.
Proof. intros []. unfold holds_ok. by rewrite kp_roots0, kp_pins0. Qed.

(** Keys left in both stores. *)
Definition room t (i j : nat) : Prop := st_room (nodes t) i ∧ st_room (working_sets t) j.

(** A change that uses up no key. *)
Definition roomy t t' : Prop := ∀ i j, room t i j → room t' i j.

Lemma room_le t i j i' j' : i' ≤ i → j' ≤ j → room t i j → room t i' j'.
Proof. intros Hi Hj [? ?]. split; by eapply st_room_le. Qed.

Lemma roomy_refl t : roomy t t.
Proof. by intros i j. Qed.

Lemma roomy_trans t1 t2 t3 : roomy t1 t2 → roomy t2 t3 → roomy t1 t3.
Proof. unfold roomy. auto. Qed.

Lemma keeps_roomy t t' : keeps t t' → roomy t t'.
Proof. intros [] i j [? ?]. split; auto. Qed.

Lemma frame_roomy t t' : frame t t' → roomy t t'.
Proof. intros Hf. by apply keeps_roomy, frame_keeps. Qed.

(** ** Working-set entries *)

Lemma entry_spec t ws :
  sound t → entry ws t =
    (match wm t !! ws with Some e => Ok e | None => Err UnknownWorkingSet end, t).
Proof.
  intros [_ Hv]. unfold entry. rewrite (st_get_spec _ _ Hv). unfold wm. by destruct (_ !! ws).
Qed.

Definition put_entry t (ws : WorkingSetId) (e : WorkingSetEntry) : table :=
  set_working_sets t (st_set (working_sets t) ws e).

Lemma put_entry_spec t ws e :
  sound t → is_Some (wm t !! ws) →
  keeps t (put_entry t ws e) ∧ nm (put_entry t ws e) = nm t ∧
  wm (put_entry t ws e) = <[ws := e]> (wm t).
Proof.
  intros [Hn Hv] Hws. destruct (st_set_spec (working_sets t) ws e Hv Hws) as (Hm & Hv' & Hr).
  split_and!; [|done|done]. split; try done; simpl; auto.
Qed.

Lemma update_entry_spec t ws e f :
  sound t → wm t !! ws = Some e → update_entry ws f t = (Ok tt, put_entry t ws (f e)).
Proof.
  intros Hs He. unfold update_entry. unfold mthen at 1. by rewrite entry_spec, He.
Qed.

Lemma update_entry_err t ws f :
  sound t → wm t !! ws = None → update_entry ws f t = (Err UnknownWorkingSet, t).
Proof. intros Hs He. unfold update_entry, mthen. by rewrite entry_spec, He. Qed.

(** An update that leaves the terminal and the mapped length alone. *)
Lemma put_entry_inv t ws e e' :
  inv t → wm t !! ws = Some e → terminal e' = terminal e → mapped_len e' = mapped_len e →
  inv (put_entry t ws e').
Proof.
  intros [Hs Ht Hh Hmp] He Hte Hml.
  destruct (put_entry_spec t ws e' Hs ltac:(by eexists)) as (Hk & Hn & Hw).
  split.
  - by apply Hk.
  - rewrite Hn. apply (keeps_trie_ok t); [done|]. eapply trie_ok_Permutation; [|done].
    unfold anchors. rewrite Hw, (keeps_hold_anchors _ _ Hk).
    rewrite (ws_anchors_update _ _ e e' He), Hte. by rewrite (ws_anchors_delete _ _ e He).
  - by eapply keeps_holds.
  - intros ws' e0. rewrite Hw. intros [[-> <-]|[? He0]]%lookup_insert_Some.
    + destruct (Hmp _ _ He) as (v & Hv & Hl). exists v. split; [|congruence].
      by rewrite Hn, Hte.
    + destruct (Hmp _ _ He0) as (v & Hv & Hl). exists v. split; [by rewrite Hn|done].
Qed.

(** ** Moving a terminal *)

(** A node that can be anchored: what is above it is anchored already. *)
Definition anchorable (m : trie) (n : NodeId) : Prop :=
  ∃ l, chain m n l ∧ ∀ k, k ∈ l → k ≠ n → 0 < path_of m k.

(** What a hold may be taken of: [n], and on the way up only nodes in use and
    selections. *)
Definition holdable (m : trie) (n : NodeId) : Prop :=
  ∃ l, chain m n l ∧ ∀ k, k ∈ l → k ≠ n → 0 < path_of m k ∨ selects m k.

(** All garbage is at [c], which the move is going to anchor. *)
Definition garbage_at (m : trie) (c : option NodeId) : Prop :=
  ∀ k e, m !! k = Some e → path_anchors e = 0 → c = Some k.

(** All garbage is on the way up from [n]. *)
Definition garbage_above (m : trie) (n : NodeId) : Prop :=
  ∀ k e, m !! k = Some e → path_anchors e = 0 → ∃ l, chain m n l ∧ k ∈ l.

Lemma anchorable_holdable m n : anchorable m n → holdable m n.
Proof. intros (l & Hc & Hp). exists l. auto. Qed.

Lemma anchor_up_evolves lock A m n l : evolves lock A m [] (anchor_up n l m).
Proof.
  split.
  - intros c v _. apply same_shape_view, recount_same_shape.
  - exists []. split_and!; [done| |by intros c ?%not_elem_of_nil]. simpl.
    unfold all_cells. by rewrite (same_shape_backs m (anchor_up n l m)) by apply recount_same_shape.
  - intros k. unfold anchor_up. by rewrite recount_lookup, fmap_is_Some.
  - intros k e'. unfold anchor_up. rewrite recount_lookup.
    intros (e & He & ->)%fmap_Some. simpl. intros Hz. exists e. split; [done|lia].
Qed.

Lemma add_anchor_ok t n A :
  sound t → trie_ok (locked t) (nm t) A → holdable (nm t) n →
  ∃ t', add_anchor n t = (Ok tt, t') ∧ frame t t' ∧
    trie_ok (locked t') (nm t') (n :: A) ∧ (∀ A, evolves (locked t) A (nm t) [] (nm t')) ∧
    all_cells (nm t') = all_cells (nm t) ∧
    (garbage_above (nm t) n → no_garbage (nm t')).
Proof.
  intros Hs Hok (l & Hc & Hpos).
  destruct (add_anchor_spec t n l Hs Hc) as (t' & Ha & Hfr & Hn).
  exists t'. split_and!; [done..| | | |].
  - apply (keeps_trie_ok t); [by apply frame_keeps|]. rewrite Hn. by apply anchor_up_ok.
  - intros A'. rewrite Hn. apply anchor_up_evolves.
  - rewrite Hn. unfold all_cells.
    by rewrite (same_shape_backs (nm t) (anchor_up n l (nm t))) by apply recount_same_shape.
  - intros Hg k e'. rewrite Hn. unfold anchor_up. rewrite recount_lookup.
    intros (e & He & ->)%fmap_Some. simpl. destruct (decide (path_anchors e = 0)) as [Hz|]; [|lia].
    destruct (Hg _ _ He Hz) as (l' & Hc' & Hk). rewrite (chain_fun _ _ _ _ Hc' Hc) in Hk.
    unfold on_chain. rewrite decide_True by done. lia.
Qed.

Lemma no_garbage_evolves lock A m freed m' :
  no_garbage m → evolves lock A m freed m' → no_garbage m'.
Proof.
  intros Hg Hev n e He. destruct (decide (path_anchors e = 0)) as [Hz|]; [|lia].
  destruct (ev_garbage _ _ _ _ _ Hev _ _ He Hz) as (e0 & He0 & Hz0). specialize (Hg _ _ He0). lia.
Qed.

Lemma garbage_at_above (m : trie) n : shape m → garbage_at m (Some n) → garbage_above m n.
Proof.
  intros Hm Hg k e He Hz. injection (Hg _ _ He Hz) as ->.
  destruct (sh_chain _ Hm k ltac:(by eexists)) as [l Hl]. exists l. split; [done|].
  destruct (chain_cons _ _ _ Hl) as [? ->]. by left.
Qed.

(** A working set's terminal moved to [c]. *)
Record moved t t' (ws : WorkingSetId) (e : WorkingSetEntry) (c : option NodeId)
    (freed : list KvPageBacking) : Prop := {
  mv_keeps : keeps t t';
  mv_wm : wm t' = <[ws := with_terminal e c]> (wm t);
  mv_trie : trie_ok (locked t') (nm t') (anchors t');
  mv_evolves : evolves (locked t) (anchors t') (nm t) freed (nm t');
}.

Lemma with_terminal_id e : with_terminal e (terminal e) = e.
Proof. by destruct e. Qed.

Lemma anchors_wm t t' ws e e' :
  keeps t t' → wm t !! ws = Some e → wm t' = <[ws := e']> (wm t) →
  ∃ A, anchors t ≡ₚ option_list (terminal e) ++ A ∧ anchors t' ≡ₚ option_list (terminal e') ++ A.
Proof.
  intros Hk He Hw. exists (ws_anchors (delete ws (wm t)) ++ hold_anchors t).
  unfold anchors. rewrite (keeps_hold_anchors t t'), Hw by done.
  rewrite (ws_anchors_delete _ _ e He), (ws_anchors_update _ _ e _ He), <-!app_assoc. done.
Qed.

Lemma move_terminal_spec t ws e c :
  sound t → trie_ok (locked t) (nm t) (anchors t) → wm t !! ws = Some e →
  (∀ n, c = Some n → anchorable (nm t) n) →
  ∃ freed t', move_terminal ws c t = (Ok freed, t') ∧ moved t t' ws e c freed ∧
    (terminal e = None ∨ terminal e = c → freed = []) ∧
    (garbage_at (nm t) c → no_garbage (nm t') ∧
       (∀ n v v', terminal e = Some n → c ≠ None → view (nm t) (Some n) v → view (nm t) c v' →
          (∀ x, x ∈ v → x ∈ v') → freed = [])).
Proof.
  intros Hs Hok He Hc. unfold move_terminal. unfold mthen at 1. rewrite entry_spec, He by done.
  case_decide as Heq.
  { exists [], t. subst c. split_and!; [done| |done|].
    - split; [split; auto|by rewrite with_terminal_id, insert_id|done|apply evolves_refl].
    - intros Hg. split; [|done]. intros k ek Hek. destruct (decide (path_anchors ek = 0)) as [Hz|]; [|lia].
      specialize (Hg _ _ Hek Hz).
      assert (k ∈ anchors t) as Hin.
      { unfold anchors. apply elem_of_app. left. apply elem_of_ws_anchors. eauto. }
      destruct (anchored_path _ _ _ _ (ok_counts _ _ _ Hok) (ok_anchored _ _ _ Hok) Hin Hek). lia. }
  assert (∃ t1, match c with Some n => add_anchor n | None => mok tt end t = (Ok tt, t1) ∧
    frame t t1 ∧ trie_ok (locked t1) (nm t1) (option_list c ++ anchors t) ∧
    (∀ A, evolves (locked t) A (nm t) [] (nm t1)) ∧ (garbage_at (nm t) c → no_garbage (nm t1)))
    as (t1 & Ha & Hfr1 & Hok1 & Hev1 & Hg1).
  { destruct c as [n|].
    - destruct (add_anchor_ok t n (anchors t) Hs Hok (anchorable_holdable _ _ (Hc n eq_refl)))
        as (t1 & ? & ? & ? & ? & _ & Hg).
      exists t1. split_and!; [done..|]. intros Hg'. by apply Hg, garbage_at_above; [apply Hok|].
    - exists t. split_and!; [done|apply frame_refl|done|intros; apply evolves_refl|].
      intros Hg k ek Hek. destruct (decide (path_anchors ek = 0)) as [Hz|]; [|lia].
      by specialize (Hg _ _ Hek Hz). }
  rewrite (mthen_ok _ _ _ _ _ Ha).
  assert (Hs1 : sound t1) by by eapply frame_sound.
  assert (He1 : wm t1 !! ws = Some e) by (by rewrite (frame_wm _ _ Hfr1)).
  set (t2 := put_entry t1 ws (with_terminal e c)).
  destruct (put_entry_spec t1 ws (with_terminal e c) Hs1 ltac:(by eexists)) as (Hk2 & Hn2 & Hw2).
  fold t2 in Hk2, Hn2, Hw2.
  assert (Hk02 : keeps t t2) by (eapply keeps_trans; [by apply frame_keeps|done]).
  assert (Hs2 : sound t2) by by apply Hk02.
  rewrite (mthen_ok _ _ _ _ _ (update_entry_spec t1 ws e _ Hs1 He1)). fold t2.
  rewrite (frame_wm _ _ Hfr1) in Hw2.
  destruct (anchors_wm t t2 ws e _ Hk02 He Hw2) as (A & HA & HA2).
  change (terminal (with_terminal e c)) with c in HA2.
  assert (Hok2 : trie_ok (locked t2) (nm t2) (option_list (terminal e) ++ anchors t2)).
  { rewrite Hn2. apply (keeps_trie_ok t1); [done|]. eapply trie_ok_Permutation; [|done].
    rewrite HA, HA2. solve_perm. }
  assert (Hmain : ∃ freed t', match terminal e with Some n => remove_anchor n | None => mok [] end t2
      = (Ok freed, t') ∧ frame t2 t' ∧ trie_ok (locked t') (nm t') (anchors t2) ∧
      evolves (locked t2) (anchors t2) (nm t2) freed (nm t') ∧ (terminal e = None → freed = [])).
  { destruct (terminal e) as [n|].
    - destruct (remove_anchor_spec t2 n (anchors t2) Hs2 Hok2) as (f & t' & ? & ? & ? & ?).
      by exists f, t'.
    - exists [], t2. split_and!; [done|apply frame_refl|done|apply evolves_refl|done]. }
  destruct Hmain as (freed & t' & Hr & Hfr & Hok' & Hev & Hnone).
  assert (Hw' : wm t' = wm t2) by by apply frame_wm.
  assert (HA' : anchors t' = anchors t2).
  { unfold anchors. rewrite Hw'. by rewrite (keeps_hold_anchors t2 t') by by apply frame_keeps. }
  exists freed, t'. split_and!; [done| |by intros [?|?]; auto|].
  - split.
    + eapply keeps_trans; [done|by apply frame_keeps].
    + by rewrite Hw', Hw2.
    + by rewrite HA'.
    + rewrite HA'. apply (evolves_trans _ _ _ [] (nm t2)); [by rewrite Hn2|].
      eapply evolves_weaken; [|done..]. intros j. by apply (keeps_locked t t2).
  - intros Hg. specialize (Hg1 Hg). rewrite <-Hn2 in Hg1. split.
    { by eapply no_garbage_evolves. }
    intros n v v' Hn Hcne Hv Hv' Hsub.
    eapply (evolves_quiet (locked t2)); [exact Hok2|done|by destruct Hok'|exact Hev|].
    rewrite Hn. intros x (a & va & Ha' & Hva & Hx).
    apply elem_of_cons in Ha' as [->|Ha']; [|by exists a, va].
    destruct c as [p|]; [|done]. exists p, v'. split_and!.
    + rewrite HA2. set_solver.
    + rewrite Hn2. apply (ev_view _ _ _ _ _ (Hev1 [p])); [|done].
      intros ? [= <-]. set_solver.
    + apply Hsub. assert (va = v) as ->; [|done]. eapply view_fun; [exact Hva|].
      rewrite Hn2. apply (ev_view _ _ _ _ _ (Hev1 [n])); [|done]. intros ? [= <-]. set_solver.
Qed.
End state.
End KvState.
