(* ===== verification/KvPath.v ===== *)
(** The table's walks against the paths of its trie: [segments] finds the
    segments of a path, the resolvers find its pages, [page_owner] finds one of
    them, and [boundary_terminal] finds or makes a node for a prefix. *)
From S2P Require Import Prelude Ids Store Runs KvTable KvOps KvTrie KvChange KvSpec KvInv KvRead.
From S2P Require Import KvState.

Module KvPath.
Import Runs KvTable KvOps KvTrie KvChange KvSpec KvInv KvRead KvState.

(** ** A new leaf keeps the invariant of the trie *)

Lemma add_leaf_ok lock (m : trie) A n e :
  trie_ok lock m A → m !! n = None → children e = [] → page_ok m e →
  exact_anchors e = 0 → path_anchors e = 0 → (∀ p, parent e = Some p → is_Some (m !! p)) →
  trie_ok lock (add_leaf n e m) A.
Proof.
  intros [Hm Hct Ha Ht] Hn Hch Hok Hx Hz Hp. split.
  - by apply add_leaf_shape.
  - by apply add_leaf_counts.
  - split.
    + intros a HaA. destruct (an_live _ _ Ha a HaA) as [ea Hea].
      destruct (add_leaf_old m n e Hn _ _ Hea) as (e' & ? & _). by eexists.
    + intros k ek' [[-> ->]|(Hk & ek & Hek & _ & _ & Hxk & _)]%add_leaf_inv; [|..|done].
      * rewrite Hx. symmetry. apply count_none. intros HnA.
        destruct (an_live _ _ Ha n HnA). congruence.
      * rewrite Hxk. by apply Ha.
  - intros j ej' b th ph [[-> ->]|(Hj & ej & Hej & _ & Hpg & Hxj & Hpj & Hcj)]%add_leaf_inv; [|..|done].
    { intros. lia. }
    rewrite Hpg, Hxj, Hpj, Hcj. intros Hpo Hx0 Hz0 Hl Hall.
    destruct (Ht j ej b th ph) as (c & ec & Hc & Hec & Hpc); [done..| |].
    + intros c ec Hc Hec. destruct (add_leaf_old m n e Hn _ _ Hec) as (ec' & Hec' & _ & Hpc & _).
      rewrite <-Hpc. eapply Hall; [|done]. set_solver.
    + destruct (add_leaf_old m n e Hn _ _ Hec) as (ec' & Hec' & _ & Hpc' & _).
      exists c, ec'. split_and!; [set_solver|done|congruence].
Qed.

Lemma add_leaf_garbage (m : trie) n e k ek :
  m !! n = None → add_leaf n e m !! k = Some ek → path_anchors ek = 0 →
  k = n ∨ ∃ e0, m !! k = Some e0 ∧ path_anchors e0 = 0.
Proof.
  intros Hn [[-> _]|(_ & e0 & He0 & _ & _ & _ & Hp & _)]%add_leaf_inv Hz; [by left| |done].
  right. exists e0. split; [done|lia].
Qed.

Section path.
Context {WS NS : Type → Type}.
Context `{!KeyedStore WorkingSetId WS, !KeyedStore NodeId NS}.
Context `{!KeyedStoreLaws WorkingSetId WS, !KeyedStoreLaws NodeId NS}.
Abbreviation table := (KvPageTable WS NS).
Abbreviation tm := (method table KvTableError).
Implicit Types t : table.

Section read.
Context (t : table) (Hs : sound t) (Hm : shape (nm t)).

Lemma contribution_len_spec n own :
  contrib (nm t) n = Some own → contribution_len t n = Some (length own).
Proof.
  unfold contrib, contribution_len. rewrite node_nm by done.
  destruct (nm t !! n) as [e|] eqn:He; [|done]. destruct (pages e) as [b th ph|rs] eqn:Hp.
  - intros [= <-]. by rewrite length_cells.
  - destruct (shape_sel _ Hm _ _ _ He Hp) as (o & eo & b & th & ph & off & -> & -> & -> & -> & ?).
    intros [= <-]. rewrite length_take, length_cells, runs_len_prefix. simpl.
    by rewrite Nat.min_l by lia.
Qed.

Lemma predecessor_spec n p : pred (nm t) n = Some p → predecessor t n = Some p.
Proof.
  unfold pred, predecessor. rewrite node_nm by done.
  destruct (nm t !! n) as [e|]; [|done]. destruct (pages e); [done|].
  destruct (parent e) as [o|]; [|done]. rewrite node_nm by done. by destruct (nm t !! o).
Qed.

Lemma node_is_selection_spec n e :
  nm t !! n = Some e → node_is_selection t n = negb (is_owned (pages e)).
Proof. intros He. unfold node_is_selection. rewrite node_nm, He by done. by destruct (pages e). Qed.

Lemma resolve_owner_spec n own i l x :
  contrib (nm t) n = Some own → own !! i = Some (l, x) →
  resolve_owner t n i = Some (loc_node l, loc_local l) ∧ (l, x) ∈ all_cells (nm t).
Proof.
  unfold contrib, resolve_owner. rewrite node_nm by done.
  destruct (nm t !! n) as [e|] eqn:He; [|done]. destruct (pages e) as [b th ph|rs] eqn:Hp.
  - intros [= <-]. unfold cells. rewrite list_lookup_imap. intros (y & Hy & [= -> ->])%fmap_Some.
    split; [done|]. apply elem_of_all_cells. exists e. by rewrite Hp.
  - destruct (shape_sel _ Hm _ _ _ He Hp) as (o & eo & b & th & ph & off & -> & Ho & Hpo & -> & ?).
    rewrite Ho, Hpo, runs_len_prefix. simpl. intros [= <-].
    rewrite lookup_take. case_decide as Hi; [|done].
    unfold cells. rewrite list_lookup_imap. intros (y & Hy & [= -> ->])%fmap_Some.
    rewrite Nat.sub_0_r, decide_True by done.
    rewrite (node_is_selection_spec _ _ Ho), Hpo. split; [done|].
    apply elem_of_all_cells. exists eo. by rewrite Hpo.
Qed.

Lemma resolve_location_spec n own i l x :
  contrib (nm t) n = Some own → own !! i = Some (l, x) → resolve_location t n i = Some l.
Proof.
  intros Hc Hi. unfold resolve_location.
  destruct (resolve_owner_spec _ _ _ _ _ Hc Hi) as [-> _]. by destruct l.
Qed.

Lemma all_cells_node l x :
  (l, x) ∈ all_cells (nm t) → ∃ e b th ph, nm t !! loc_node l = Some e ∧
    pages e = Owned b th ph ∧ b !! loc_local l = Some x.
Proof.
  intros (e & He & Hx)%elem_of_all_cells. destruct (pages e) as [b th ph|] eqn:Hp; simpl in Hx.
  - by exists e, b, th, ph.
  - by rewrite lookup_nil in Hx.
Qed.

Lemma resolve_backing_spec n own i l x :
  contrib (nm t) n = Some own → own !! i = Some (l, x) → resolve_backing t n i = Some x.
Proof.
  intros Hc Hi. unfold resolve_backing. rewrite (resolve_location_spec _ _ _ _ _ Hc Hi).
  destruct (resolve_owner_spec _ _ _ _ _ Hc Hi) as [_ Hin].
  destruct (all_cells_node _ _ Hin) as (e & b & th & ph & He & Hp & Hx).
  by rewrite node_nm, He, Hp.
Qed.

Lemma walk_length c v segs l :
  walk (nm t) c v segs → (∀ n, c = Some n → chain (nm t) n l) → length segs ≤ length l.
Proof.
  intros Hw. revert l. induction Hw as [|n own p v segs Ho Hp Hw IH]; intros l Hl; [simpl; lia|].
  specialize (Hl n eq_refl). destruct p as [p|].
  - destruct (pred_chain _ Hm _ _ _ Hl Hp) as (l1 & l2 & -> & Hc & Hne).
    specialize (IH l2 ltac:(by intros ? [= <-])). rewrite length_app. simpl.
    destruct l1; [done|]. simpl. lia.
  - inversion Hw. subst. destruct (chain_cons _ _ _ Hl) as [? ->]. simpl. lia.
Qed.

Lemma segments_loop_spec c v segs f :
  walk (nm t) c v segs → length segs ≤ f →
  segments_loop f t (Z.of_nat (length v)) c = Some segs.
Proof.
  intros Hw. revert f. induction Hw as [|n own p v segs Ho Hp Hw IH]; intros f Hf; [by destruct f|].
  destruct f as [|f]; simpl in Hf; [lia|]. cbn [segments_loop].
  rewrite (contribution_len_spec _ _ Ho), length_app.
  replace (Z.of_nat (length v + length own) - Z.of_nat (length own))%Z with (Z.of_nat (length v)) by lia.
  case_decide as Hz.
  - inversion Hw as [|n' own' p' v' segs' Ho' Hp' Hw']; subst; [done|]. exfalso.
    rewrite length_app in Hz.
    destruct (contrib_pred_some _ Hm n') as (own'' & ? & Ho'' & _ & Hpos).
    { unfold contrib in Ho'. destruct (nm t !! n'); [by eexists|done]. }
    rewrite Ho' in Ho''. simplify_eq. lia.
  - by rewrite (predecessor_spec _ _ Hp), (IH f) by lia.
Qed.

Lemma walk_last c v segs : walk (nm t) c v segs → v ≠ [] → reaches_start segs = true.
Proof.
  intros Hw Hv. unfold reaches_start.
  induction Hw as [|n own p v segs Ho Hp Hw IH]; [done|].
  destruct segs as [|s segs].
  - inversion Hw. subst. done.
  - rewrite last_cons_cons. apply IH. inversion Hw as [|n' own' p' v' segs' Ho' Hp' Hw']; subst.
    destruct (contrib_pred_some _ Hm n') as (own'' & ? & Ho'' & _ & Hpos).
    { unfold contrib in Ho'. destruct (nm t !! n'); [by eexists|done]. }
    rewrite Ho' in Ho''. simplify_eq. intros Hnil%(f_equal length).
    rewrite length_app in Hnil. simpl in Hnil. lia.
Qed.

Lemma segments_spec c v segs :
  walk (nm t) c v segs → segments t c (length v) = Some segs.
Proof.
  intros Hw. unfold segments. rewrite (segments_loop_spec _ _ _ _ Hw).
  - destruct v as [|x v]; [done|]. rewrite (walk_last _ _ _ Hw) by done. by rewrite orb_true_r.
  - rewrite fuel_size by done. destruct c as [n|]; [|inversion Hw; simpl; lia].
    inversion Hw as [|? ? ? ? ? Ho _ _]; subst.
    destruct (sh_chain _ Hm n) as [l Hl].
    { unfold contrib in Ho. destruct (nm t !! n); [by eexists|done]. }
    transitivity (length l); [|by eapply chain_length].
    eapply walk_length; [done|]. intros n' Hn'. by simplify_eq.
Qed.

(** The pages of a path, in order. *)
Lemma segments_pages_spec c v segs :
  walk (nm t) c v segs →
  Forall2 (λ p x, resolve_location t p.1 p.2 = Some x.1 ∧ resolve_backing t p.1 p.2 = Some x.2)
    (segments_pages segs) v.
Proof.
  unfold segments_pages. induction 1 as [|n own p v segs Ho Hp Hw IH]; [constructor|].
  rewrite reverse_cons, fmap_app, concat_app. apply Forall2_app; [done|].
  csimpl. rewrite app_nil_r. unfold segment_pages. simpl.
  assert (Z.to_nat (Z.max (- Z.of_nat (length v)) 0) = 0) as -> by lia.
  rewrite Nat.sub_0_r. apply Forall2_same_length_lookup. split.
  { by rewrite length_fmap, length_seq. }
  intros i q [l x] Hq Hx. rewrite list_lookup_fmap in Hq.
  apply fmap_Some in Hq as (j & [-> _]%lookup_seq & ->). simpl.
  split; [by eapply resolve_location_spec|by eapply resolve_backing_spec].
Qed.

Lemma working_set_locations_spec ws e v :
  wm t !! ws = Some e → maps t e v → working_set_locations ws t = (Ok v.*1, t).
Proof.
  intros He [[segs Hw] Hl]. unfold working_set_locations. unfold mthen at 1.
  rewrite entry_spec, He by done. unfold mthen, mread.
  rewrite <-Hl, (segments_spec _ _ _ Hw).
  assert (mapM (λ '(n, i), resolve_location t n i) (segments_pages segs) = Some v.*1) as ->; [|done].
  apply mapM_Some, Forall2_fmap_r. eapply Forall2_impl; [by eapply segments_pages_spec|].
  by intros [n i] x [? _].
Qed.

(** [segment_at] and [segment_around] find the segment of a page. *)
Lemma walk_starts c v segs s :
  walk (nm t) c v segs → s ∈ segs → (0 ≤ seg_start s)%Z ∧ (seg_end s ≤ Z.of_nat (length v))%Z.
Proof.
  induction 1 as [|n own p v segs Ho Hp Hw IH]; intros Hin; [set_solver|].
  rewrite length_app. apply elem_of_cons in Hin as [->|Hin]; unfold seg_end in *; simpl; [lia|].
  destruct (IH Hin). lia.
Qed.

Lemma segment_at_spec c v segs i x :
  walk (nm t) c v segs → v !! i = Some x →
  ∃ n own k, segment_at (Z.of_nat i) segs = Some (mkSegment n (Z.of_nat k) (length own)) ∧
    contrib (nm t) n = Some own ∧ k ≤ i ∧ own !! (i - k) = Some x.
Proof.
  unfold segment_at. induction 1 as [|n own p v segs Ho Hp Hw IH]; intros Hi; [done|].
  apply lookup_app_Some in Hi as [Hi|[Hge Hi]].
  - pose proof (lookup_lt_Some _ _ _ Hi). rewrite filter_cons_False by (simpl; lia). by apply IH.
  - rewrite filter_cons_True by (simpl; lia). exists n, own, (length v). done.
Qed.

Lemma page_owner_spec ws e v i l x :
  wm t !! ws = Some e → maps t e v → v !! i = Some (l, x) →
  page_owner ws i t = (Ok (loc_node l, loc_local l), t).
Proof.
  intros He [[segs Hw] Hl] Hi. unfold page_owner. unfold mthen at 1.
  rewrite entry_spec, He by done. pose proof (lookup_lt_Some _ _ _ Hi).
  rewrite decide_False by lia. unfold mthen, mread.
  rewrite <-Hl, (segments_spec _ _ _ Hw).
  destruct (segment_at_spec _ _ _ _ _ Hw Hi) as (n & own & k & -> & Ho & Hk & Hown). simpl.
  replace (Z.to_nat (Z.of_nat i - Z.of_nat k)) with (i - k) by lia.
  by destruct (resolve_owner_spec _ _ _ _ _ Ho Hown) as [-> _].
Qed.

Lemma page_owner_unwritten ws e i :
  wm t !! ws = Some e → mapped_len e ≤ i →
  page_owner ws i t = (Err (Unwritten i (mapped_len e)), t).
Proof.
  intros He Hi. unfold page_owner. unfold mthen at 1. rewrite entry_spec, He by done.
  by rewrite decide_True.
Qed.

(** The path to a segment's node is the path's prefix to its end. *)
Lemma segment_around_spec c v segs b :
  walk (nm t) c v segs → 0 < b ≤ length v →
  ∃ n own v0 p, segment_around (Z.of_nat b) segs =
      Some (mkSegment n (Z.of_nat (length v0)) (length own)) ∧
    contrib (nm t) n = Some own ∧ pred (nm t) n = Some p ∧ view (nm t) p v0 ∧
    length v0 < b ≤ length v0 + length own ∧ take b v = v0 ++ take (b - length v0) own.
Proof.
  unfold segment_around. induction 1 as [|n own p v segs Ho Hp Hw IH]; intros Hb; [simpl in Hb; lia|].
  rewrite length_app in Hb. destruct (decide (length v < b)) as [Hlt|Hge].
  - rewrite filter_cons_True by (unfold seg_end; simpl; lia).
    exists n, own, v, p. split_and!; [done..|by exists segs|lia|lia|].
    rewrite take_app, take_ge by lia. done.
  - rewrite filter_cons_False by (unfold seg_end; simpl; lia).
    destruct IH as (n' & own' & v0 & p' & ? & ? & ? & ? & ? & Heq); [lia|].
    exists n', own', v0, p'. split_and!; [done..|lia|lia|].
    by rewrite take_app_le by lia.
Qed.
End read.

(** ** Inserting a node *)

(** A new node [n] with entry [e], linked to its parent; one key is used up. *)
Record inserted t t' (n : NodeId) (e : KvTrieNode) : Prop := {
  is_fresh : nm t !! n = None;
  is_nm : nm t' = add_leaf n e (nm t);
  is_ws : working_sets t' = working_sets t;
  is_roots : cache_roots t' = cache_roots t;
  is_pins : pins t' = pins t;
  is_swap : swap_locations t' = swap_locations t;
  is_sound : sound t';
  is_room k : st_room (nodes t) (S k) → st_room (nodes t') k;
}.

(** The two calls that insert a node and link it. *)
Definition link_node (e : KvTrieNode) : tm NodeId :=
  n ⇐ insert_node e ;;
  match parent e with Some p => push_child p n | None => mok tt end ;;;
  mok n.

Lemma link_node_spec t e k :
  sound t → st_room (nodes t) (S k) → (∀ p, parent e = Some p → is_Some (nm t !! p)) →
  ∃ n t', link_node e t = (Ok n, t') ∧ inserted t t' n e ∧ st_room (nodes t') k.
Proof.
  intros [Hv Hw] Hroom Hp.
  assert (∃ n s, st_insert (nodes t) e = Some (n, s) ∧ nm t !! n = None ∧
    st_map s = <[n := e]> (nm t) ∧ st_valid s ∧ ∀ k, st_room (nodes t) (S k) → st_room s k)
    as (n & s & Hi & Hn & Hsm & Hsv & Hsr).
  { destruct (st_insert_spec (nodes t) e k Hv Hroom) as (n & s & Hi & Hn & Hm & Hsv & _).
    exists n, s. split_and!; [done..|]. intros k' Hr'.
    destruct (st_insert_spec (nodes t) e k' Hv Hr') as (n' & s' & Hi' & _ & _ & _ & Hr'').
    rewrite Hi in Hi'. by simplify_eq. }
  set (t1 := set_nodes t s).
  assert (Hs1 : sound t1) by done. assert (Hn1 : nm t1 = <[n := e]> (nm t)) by done.
  unfold link_node. unfold mthen at 1. unfold insert_node. rewrite Hi. fold t1.
  destruct (parent e) as [p|] eqn:Hpe.
  - destruct (Hp p eq_refl) as [ep Hep].
    assert (Hpn : p ≠ n) by (intros ->; congruence).
    set (ep' := with_children ep (children ep ++ [n])).
    assert (Hep1 : nm t1 !! p = Some ep) by (rewrite Hn1; by rewrite lookup_insert_ne).
    destruct (put_node_spec t1 p ep' Hs1 ltac:(by eexists)) as [Hnm2 [Hf1 Hf2 Hf3 Hf4 Hf5 Hf6]].
    exists n, (put_node t1 p ep'). split_and!.
    + unfold mthen at 1, push_child. unfold mthen at 1, mread.
      by rewrite node_nm, Hep1 by done.
    + split; try done.
      * rewrite Hnm2, Hn1. unfold add_leaf. rewrite Hpe. unfold ep'.
        rewrite insert_insert_ne by done. f_equal. apply map_eq. intros j.
        destruct (decide (j = p)) as [->|Hj].
        -- by rewrite lookup_insert_eq, lookup_alter_eq, Hep.
        -- by rewrite lookup_insert_ne, lookup_alter_ne.
      * split; [by apply Hf5|done].
      * intros j Hj. by apply Hf6, Hsr.
    + by apply Hf6, Hsr.
  - exists n, t1. split_and!; [done| |by apply Hsr]. split; try done.
    rewrite Hn1. unfold add_leaf. by rewrite Hpe.
Qed.

Section inserted.
Context (t t' : table) (n : NodeId) (e : KvTrieNode) (Hi : inserted t t' n e).

Lemma inserted_wm : wm t' = wm t.
Proof. unfold wm. by rewrite (is_ws _ _ _ _ Hi). Qed.

Lemma inserted_locked j : locked t' j ↔ locked t j.
Proof. unfold locked. by rewrite (is_swap _ _ _ _ Hi). Qed.

Lemma inserted_anchors : anchors t' = anchors t.
Proof.
  unfold anchors, hold_anchors. by rewrite inserted_wm, (is_roots _ _ _ _ Hi), (is_pins _ _ _ _ Hi).
Qed.

Lemma inserted_hold_anchors : hold_anchors t' = hold_anchors t.
Proof. unfold hold_anchors. by rewrite (is_roots _ _ _ _ Hi), (is_pins _ _ _ _ Hi). Qed.

Lemma inserted_holds : holds_ok t → holds_ok t'.
Proof. unfold holds_ok. by rewrite (is_roots _ _ _ _ Hi), (is_pins _ _ _ _ Hi). Qed.

Lemma inserted_trie_ok A :
  trie_ok (locked t) (nm t) A → children e = [] → page_ok (nm t) e →
  exact_anchors e = 0 → path_anchors e = 0 → (∀ p, parent e = Some p → is_Some (nm t !! p)) →
  trie_ok (locked t') (nm t') A.
Proof.
  intros Hok Hch Hpg Hx Hz Hp. rewrite (is_nm _ _ _ _ Hi).
  pose proof (is_fresh _ _ _ _ Hi) as Hn.
  destruct (add_leaf_ok _ _ _ _ _ Hok Hn Hch Hpg Hx Hz Hp) as [H1 H2 H3 H4]. split; [done..|].
  intros j. eapply tidy_lock; [|apply H4]. intros k. by apply inserted_locked.
Qed.
End inserted.

(** ** Prefixes *)

(** A selection of an owner, not anchored yet. *)
Definition selection (o : NodeId) (off : nat) : KvTrieNode :=
  mkNode (Some o) [] (ParentSelection [(0, off)]) 0 0.

Lemma insert_selection_spec t o eo off k :
  sound t → st_room (nodes t) (S k) → nm t !! o = Some eo → is_owned (pages eo) = true →
  ∃ n t', insert_selection o [(0, off)] t = (Ok n, t') ∧ inserted t t' n (selection o off) ∧
    st_room (nodes t') k.
Proof.
  intros Hs Hr Ho Hown.
  destruct (link_node_spec t (selection o off) k Hs Hr) as (n & t' & Hl & Hi & Hr').
  { intros p [= <-]. by eexists. }
  exists n, t'. split_and!; [|done..]. unfold insert_selection.
  unfold mthen at 1, mread at 1. rewrite (node_is_selection_spec t Hs o eo Ho), Hown.
  exact Hl.
Qed.

(** The node of a prefix: one of the path, or a new selection of the owner the
    prefix ends in. *)
Inductive prefix_node t : NodeId → table → Prop :=
  | prefix_here n : prefix_node t n t
  | prefix_made n t' o eo off :
      inserted t t' n (selection o off) → nm t !! o = Some eo → is_owned (pages eo) = true →
      0 < off < length (owned_backings (pages eo)) → prefix_node t n t'.

Lemma make_prefix_selection_spec t n own p v0 off k :
  sound t → shape (nm t) → st_room (nodes t) (S k) →
  contrib (nm t) n = Some own → pred (nm t) n = Some p → view (nm t) p v0 →
  0 < off < length own →
  ∃ n' t', make_prefix_selection n off t = (Ok n', t') ∧ prefix_node t n' t' ∧
    st_room (nodes t') k ∧ view (nm t') (Some n') (v0 ++ take off own) ∧
    ∃ o, (o = n ∨ parent <$> nm t !! n = Some (Some o)) ∧ parent <$> nm t' !! n' = Some (Some o).
Proof.
  intros Hs Hm Hroom Ho Hp Hv Hoff. pose proof Ho as Ho0. pose proof Hp as Hp0.
  unfold contrib in Ho. unfold pred in Hp.
  destruct (nm t !! n) as [e|] eqn:He; [|done].
  assert (∃ o eo b th ph, (o = n ∨ parent e = Some o) ∧ nm t !! o = Some eo ∧
    pages eo = Owned b th ph ∧ 0 < off < length b ∧ p = parent eo ∧ take off own = take off (cells o b) ∧
    make_prefix_selection n off t = insert_selection o [(0, off)] t)
    as (o & eo & b & th & ph & Hon & Heo & Hpo & Hlt & -> & Htk & Hmk).
  { unfold make_prefix_selection. unfold mthen at 1, mread at 1. rewrite node_nm, He by done.
    destruct (pages e) as [b th ph|rs] eqn:Hpg.
    - simplify_eq. exists n, e, b, th, ph. rewrite length_cells in Hoff.
      split_and!; [by left|done|done|lia|lia|done|done|].
      unfold mguard. by rewrite decide_True by lia.
    - destruct (shape_sel _ Hm _ _ _ He Hpg) as (o & eo & b & th & ph & k' & Hpe & Heo & Hpo & -> & ?).
      rewrite Hpe, Heo in Ho, Hp. rewrite Hpo in Ho. simpl in Ho, Hp. simplify_eq.
      rewrite runs_len_prefix, length_take, length_cells in Hoff.
      exists o, eo, b, th, ph. rewrite Hpe, runs_len_prefix.
      split_and!; [by right|done|done|lia|lia|done| |].
      + rewrite take_take. by rewrite Nat.min_l by lia.
      + by rewrite runs_slice_prefix by lia. }
  destruct (insert_selection_spec t o eo off k Hs Hroom Heo ltac:(by rewrite Hpo))
    as (n' & t' & Hi & Hins & Hr').
  exists n', t'. rewrite Hmk. split_and!; [done| |done| |].
  - eapply prefix_made; [done..|by rewrite Hpo|rewrite Hpo; done].
  - pose proof (is_fresh _ _ _ _ Hins) as Hfr. rewrite (is_nm _ _ _ _ Hins).
    set (m' := add_leaf n' (selection o off) (nm t)).
    assert (view m' (parent eo) v0) as [segs Hw].
    { apply add_leaf_view; [done..| |done]. intros q Hq.
      by eapply shape_parent_live. }
    eexists. rewrite Htk. apply (walk_some _ n' _ (parent eo)); [| |exact Hw].
    + unfold contrib, m'. rewrite add_leaf_new by done. simpl.
      destruct (add_leaf_old (nm t) n' (selection o off) Hfr _ _ Heo) as (eo' & -> & _ & -> & _).
      rewrite runs_len_prefix, Hpo. done.
    + unfold pred, m'. rewrite add_leaf_new by done. simpl.
      destruct (add_leaf_old (nm t) n' (selection o off) Hfr _ _ Heo) as (eo' & -> & Hpeo & _).
      simpl. by rewrite Hpeo.
  - exists o. split; [destruct Hon as [?|Hon]; [by left|right; simpl; by rewrite Hon]|].
    rewrite (is_nm _ _ _ _ Hins), add_leaf_new by apply Hins. done.
Qed.

Lemma walk_on_chain t a l v segs s :
  shape (nm t) → walk (nm t) (Some a) v segs → chain (nm t) a l → s ∈ segs → seg_node s ∈ l.
Proof.
  intros Hm Hw. remember (Some a) as c eqn:Hc. revert a l Hc.
  induction Hw as [|n own p v segs Ho Hp Hw IH]; intros a l Hc Hl Hin; [done|].
  injection Hc as ->. destruct (chain_cons _ _ _ Hl) as [l' Heq].
  apply elem_of_cons in Hin as [->|Hin]; [subst; set_solver|].
  destruct p as [p|]; [|inversion Hw; subst; set_solver].
  destruct (pred_chain _ Hm _ _ _ Hl Hp) as (l1 & l2 & -> & Hl2 & _).
  apply elem_of_app. right. by eapply IH.
Qed.

Lemma anchorable_on_chain (m : trie) a l n :
  shape m → counts m → chain m a l → 0 < path_of m a → n ∈ l → anchorable m n ∧ 0 < path_of m n.
Proof.
  intros Hm Hct Hl Hz Hn. destruct (chain_suffix _ _ _ _ Hl Hn) as (l1 & l2 & -> & Hc).
  assert (Hpos : ∀ k, k ∈ l2 → 0 < path_of m k).
  { intros k Hk. eapply Nat.lt_le_trans; [exact Hz|]. eapply path_of_chain; [done..|set_solver]. }
  split; [exists l2; auto|]. apply Hpos. destruct (chain_cons _ _ _ Hc) as [? ->]. set_solver.
Qed.

(** A fresh leaf below an anchored node can be anchored. *)
Lemma leaf_anchorable t t' n e :
  inserted t t' n e →
  (∀ p, parent e = Some p → anchorable (nm t) p ∧ 0 < path_of (nm t) p) →
  anchorable (nm t') n.
Proof.
  intros Hi Hp. pose proof (is_fresh _ _ _ _ Hi) as Hn. rewrite (is_nm _ _ _ _ Hi).
  assert (Hpath : ∀ k, k ≠ n → path_of (add_leaf n e (nm t)) k = path_of (nm t) k).
  { intros k Hk. unfold path_of. rewrite add_leaf_lookup, decide_False by done.
    destruct (nm t !! k); simpl; [|done]. by case_decide. }
  destruct (parent e) as [p|] eqn:Hpe.
  - destruct (Hp p eq_refl) as [(lp & Hl & Hpos) Hz].
    exists (n :: lp). split; [apply add_leaf_chain_new; [done|by rewrite Hpe]|].
    intros k [->|Hk]%elem_of_cons Hkn; [done|]. rewrite Hpath by done.
    destruct (decide (k = p)) as [->|]; [done|by apply Hpos].
  - exists [n]. split; [apply add_leaf_chain_new; [done|by rewrite Hpe]|].
    intros k ->%list_elem_of_singleton. done.
Qed.

Lemma boundary_terminal_spec t c v segs b k :
  sound t → shape (nm t) → counts (nm t) → st_room (nodes t) (S k) →
  walk (nm t) c v segs → 0 < b ≤ length v →
  ∃ n t', boundary_terminal segs b t = (Ok n, t') ∧ prefix_node t n t' ∧ st_room (nodes t') k ∧
    view (nm t') (Some n) (take b v) ∧
    ∀ a, c = Some a → 0 < path_of (nm t) a → anchorable (nm t') n.
Proof.
  intros Hs Hm Hct Hroom Hw Hb.
  destruct (segment_around_spec t c v segs b Hw Hb)
    as (n & own & v0 & p & Hseg & Ho & Hp & Hv0 & Hlt & Htk).
  assert (Hin : mkSegment n (Z.of_nat (length v0)) (length own) ∈ segs).
  { unfold segment_around in Hseg. apply head_Some_elem_of, list_elem_of_filter in Hseg. by destruct Hseg. }
  assert (Hon : ∀ a, c = Some a → 0 < path_of (nm t) a → ∃ l, chain (nm t) a l ∧ n ∈ l).
  { intros a -> _. destruct (sh_chain _ Hm a) as [l Hl].
    { inversion Hw as [|? ? ? ? ? Hoa _ _]; subst. unfold contrib in Hoa.
      destruct (nm t !! a); [by eexists|done]. }
    exists l. split; [done|]. by apply (walk_on_chain t a l v segs _ Hm Hw Hl Hin). }
  unfold boundary_terminal. unfold mguard. rewrite decide_True by lia.
  unfold mthen at 1, mok at 1. unfold mthen at 1, mexpect at 1, mok at 1. rewrite Hseg.
  unfold seg_end. cbn [seg_node seg_start seg_len]. case_decide as Hend.
  - exists n, t. split_and!; [done|constructor|by eapply st_room_le; [|done]; lia| |].
    + rewrite Htk, take_ge by lia. destruct Hv0 as [segs0 Hv0]. eexists. by econstructor.
    + intros a Ha Hz. destruct (Hon a Ha Hz) as (l & Hl & Hnl).
      by apply (anchorable_on_chain (nm t) a l).
  - replace (Z.to_nat (Z.of_nat b - Z.of_nat (length v0))) with (b - length v0) by lia.
    destruct (make_prefix_selection_spec t n own p v0 (b - length v0) k Hs Hm Hroom Ho Hp Hv0
      ltac:(lia)) as (n' & t' & Hmk & Hpn & Hr' & Hv' & o & Hoo & Hpo).
    exists n', t'. split_and!; [done..|by rewrite Htk|].
    intros a Ha Hz. destruct (Hon a Ha Hz) as (l & Hl & Hnl).
    assert (o ∈ l) as Hol.
    { destruct Hoo as [->|Hpar]; [done|]. apply fmap_Some in Hpar as (en & Hen & Hpar).
      eapply chain_parent_elem; [done..|]. by rewrite Hpar. }
    destruct Hpn as [n'|n' t' o' eo off Hi Heo Hown Hoff].
    + destruct (sh_chain _ Hm n') as [ln Hln].
      { destruct Hv' as [? Hv']. inversion Hv' as [|? ? ? ? ? Hon' _ _]; subst. unfold contrib in Hon'.
        destruct (nm t !! n'); [by eexists|done]. }
      destruct (anchorable_on_chain (nm t) a l o Hm Hct Hl Hz Hol) as [(lo & Hlo & Hpos) Hzo].
      exists (n' :: lo). apply fmap_Some in Hpo as (en & Hen & Hpo).
      split; [by eapply chain_up|]. intros k' [->|Hk]%elem_of_cons Hne; [done|].
      destruct (decide (k' = o)) as [->|]; [done|by apply Hpos].
    + eapply leaf_anchorable; [done|]. intros q [= <-].
      rewrite (is_nm _ _ _ _ Hi), add_leaf_new in Hpo by apply Hi. simpl in Hpo. simplify_eq.
      by apply (anchorable_on_chain (nm t) a l).
Qed.

(** What a prefix node leaves of the state. *)
Record prefixed t t' (n : NodeId) : Prop := {
  px_wm : wm t' = wm t;
  px_anchors : anchors t' = anchors t;
  px_holds : holds_ok t → holds_ok t';
  px_sound : sound t → sound t';
  px_locked j : locked t' j ↔ locked t j;
  px_trie A : trie_ok (locked t) (nm t) A → trie_ok (locked t') (nm t') A;
  px_view c v : (∀ k, c = Some k → is_Some (nm t !! k)) → shape (nm t) →
    view (nm t) c v → view (nm t') c v;
  px_cells : all_cells (nm t') ≡ₚ all_cells (nm t);
  px_garbage : no_garbage (nm t) → garbage_at (nm t') (Some n);
  px_ws : working_sets t' = working_sets t;
}.

Lemma prefix_node_prefixed t n t' : shape (nm t) → prefix_node t n t' → prefixed t t' n.
Proof.
  intros Hm [|n' t'' o eo off Hi Heo Hown Hoff].
  - split; try done. intros Hg k e He Hz. specialize (Hg _ _ He). lia.
  - pose proof (is_fresh _ _ _ _ Hi) as Hfr. pose proof (is_nm _ _ _ _ Hi) as Hn. split.
    + by eapply inserted_wm.
    + by eapply inserted_anchors.
    + by eapply inserted_holds.
    + intros _. by eapply is_sound.
    + by eapply inserted_locked.
    + intros A Hok. eapply inserted_trie_ok; [done..| | | |]; [|done|done|].
      * exists o, eo, off. split_and!; [done..|lia|lia].
      * intros p [= <-]. by eexists.
    + intros c v Hc _. rewrite Hn. by apply add_leaf_view.
    + rewrite Hn. by rewrite add_leaf_cells.
    + intros Hg k e He Hz. rewrite Hn in He.
      destruct (add_leaf_garbage _ _ _ _ _ Hfr He Hz) as [->|(e0 & He0 & Hz0)]; [done|].
      specialize (Hg _ _ He0). lia.
    + by eapply is_ws.
Qed.
End path.
End KvPath.
