(* ===== verification/KvProps.v ===== *)
(** What the page table promises to a pass: the pages a working set maps, under
    every operation that changes them, and what each operation frees. *)
From S2P Require Import Prelude Ids Store Runs KvTable KvOps KvTrie KvChange KvSpec KvInv KvRead.
From S2P Require Import KvState KvPath.

Module KvProps.
Import Runs KvTable KvOps KvTrie KvChange KvSpec KvInv KvRead KvState KvPath.

Lemma repage_tidy lock (m : trie) n e b th ph b' th' ph' j :
  m !! n = Some e → pages e = Owned b th ph → j ≠ n → tidy lock m j →
  tidy lock (repage n (Owned b' th' ph') m) j.
Proof.
  intros Hn Hp Hj Ht ej' bj thj phj (ej & Hej & ->)%repage_lookup_Some.
  rewrite decide_False by done. intros Hpj Hx Hz Hl Hall.
  destruct (Ht ej bj thj phj) as (c & ec & Hc & Hec & Hpc); [done..| |].
  - intros c ec Hc Hec. destruct (decide (c = n)) as [->|Hcn].
    + specialize (Hall n). rewrite repage_lookup, Hn in Hall. simpl in Hall.
      rewrite decide_True in Hall by done. by specialize (Hall _ Hc eq_refl).
    + apply (Hall c); [done|]. rewrite repage_lookup, Hec. simpl. by rewrite decide_False.
  - exists c, ec. split_and!; [done| |done]. rewrite repage_lookup, Hec. simpl.
    rewrite decide_False; [done|]. intros ->. simplify_eq. congruence.
Qed.

Lemma repage_trie_ok lock (m : trie) A n e b th ph b' th' ph' :
  trie_ok lock m A → m !! n = Some e → pages e = Owned b th ph → exact_anchors e ≠ 0 →
  0 < length b' → length th' = length b' → length ph' = length b' →
  takes_within m e (length b') →
  trie_ok lock (repage n (Owned b' th' ph') m) A.
Proof.
  intros [Hm Hct Ha Ht] Hn Hp Hx Hb Hth Hph Hw. split.
  - by eapply repage_shape.
  - by apply repage_counts.
  - apply (anchored_same m); [| |done].
    + intros a _ [ea Hea]. rewrite repage_lookup, Hea. by eexists.
    + intros k e' (ek & Hek & ->)%repage_lookup_Some. exists ek. split; [done|]. by case_decide.
  - intros j. destruct (decide (j = n)) as [->|Hj]; [|by eapply repage_tidy].
    intros e' ? ? ? (e0 & He0 & ->)%repage_lookup_Some _. rewrite decide_True by done.
    simplify_eq. done.
Qed.

Section props.
Context {WS NS : Type → Type}.
Context `{!KeyedStore WorkingSetId WS, !KeyedStore NodeId NS}.
Context `{!KeyedStoreLaws WorkingSetId WS, !KeyedStoreLaws NodeId NS}.
Abbreviation table := (KvPageTable WS NS).
Abbreviation tm := (method table KvTableError).
Implicit Types t : table.

(** The invariant between the calls of the store, which anchors a node as soon
    as it is made: no node is there for nobody. *)
Definition settled t : Prop := inv t ∧ no_garbage (nm t).

(** Every working set but [ws] maps what it mapped, and the cache and the pins
    hold what they held. *)
Record others_kept t t' (ws : WorkingSetId) : Prop := {
  oth_sets ws' e v : ws' ≠ ws → wm t !! ws' = Some e → maps t e v →
    wm t' !! ws' = Some e ∧ maps t' e v;
  oth_holds : hold_anchors t' = hold_anchors t;
  oth_views n v : n ∈ hold_anchors t → view (nm t) (Some n) v → view (nm t') (Some n) v;
}.

(** The pages a pass reads for [ws]. *)
Definition mapped t (ws : WorkingSetId) (v : list cell) : Prop :=
  ∃ e, wm t !! ws = Some e ∧ maps t e v.

Lemma mapped_fun t ws v v' : mapped t ws v → mapped t ws v' → v = v'.
Proof. intros (e & He & Hv & _) (e' & He' & Hv' & _). simplify_eq. by eapply view_fun. Qed.

Lemma others_kept_trans t1 t2 t3 ws :
  others_kept t1 t2 ws → others_kept t2 t3 ws → others_kept t1 t3 ws.
Proof.
  intros [H1 A1 V1] [H2 A2 V2]. split.
  - intros ws' e v Hne He Hv. destruct (H1 ws' e v Hne He Hv). auto.
  - by rewrite A2.
  - intros n v Hn Hv. apply V2; [by rewrite A1|auto].
Qed.

(** The two halves of a move: the terminal, then the lengths. *)
Lemma finish_move t t' ws e c freed v pl ml :
  sound t → holds_ok t → moved t t' ws e c freed → wm t !! ws = Some e →
  (∀ ws' e0, ws' ≠ ws → wm t !! ws' = Some e0 → ∃ v0, maps t e0 v0) →
  view (nm t) c v → ml = length v →
  ∃ t'', update_entry ws (λ e0, with_lens e0 pl ml) t' = (Ok tt, t'') ∧
    inv t'' ∧ wm t'' !! ws = Some (with_lens (with_terminal e c) pl ml) ∧
    maps t'' (with_lens (with_terminal e c) pl ml) v ∧ nm t'' = nm t' ∧
    others_kept t t'' ws ∧ roomy t' t''.
Proof.
  intros Hs Hh [Hk Hw Hok Hev] He Hoth Hv ->.
  set (e1 := with_terminal e c) in *. set (e' := with_lens e1 pl (length v)).
  assert (Hs' : sound t') by by apply Hk.
  assert (He1 : wm t' !! ws = Some e1) by (rewrite Hw; apply lookup_insert_eq).
  destruct (put_entry_spec t' ws e' Hs' ltac:(by eexists)) as (Hk' & Hn' & Hw').
  exists (put_entry t' ws e').
  assert (Hterm : ∀ ws' e0 n, wm t' !! ws' = Some e0 → terminal e0 = Some n → n ∈ anchors t').
  { intros ws' e0 n He0 Hn. apply elem_of_app. left. apply elem_of_ws_anchors. eauto. }
  assert (Hm' : ∀ n, c = Some n → n ∈ anchors t') by (intros n ->; by eapply Hterm).
  assert (Hmap : maps (put_entry t' ws e') e' v).
  { split; [|done]. rewrite Hn'. by apply (ev_view _ _ _ _ _ Hev). }
  assert (Hkept : others_kept t (put_entry t' ws e') ws).
  { split.
    - intros ws' e0 v0 Hne He0 [Hv0 Hl0].
      assert (wm t' !! ws' = Some e0) as He0' by (rewrite Hw; by rewrite lookup_insert_ne).
      split; [rewrite Hw'; by rewrite lookup_insert_ne|]. split; [|done]. rewrite Hn'.
      apply (ev_view _ _ _ _ _ Hev); [|done]. intros n Hn. by eapply Hterm.
    - by rewrite (keeps_hold_anchors _ _ Hk'), (keeps_hold_anchors _ _ Hk).
    - intros n w Hn. rewrite Hn'. apply (ev_view _ _ _ _ _ Hev). intros ? [= <-].
      apply elem_of_app. right. by rewrite (keeps_hold_anchors _ _ Hk). }
  assert (Hinv : inv (put_entry t' ws e')).
  { split.
    - by apply Hk'.
    - rewrite Hn'. apply (keeps_trie_ok t'); [done|]. eapply trie_ok_Permutation; [|exact Hok].
      unfold anchors. rewrite Hw', (keeps_hold_anchors _ _ Hk').
      rewrite (ws_anchors_update _ _ e1 e' He1). by rewrite (ws_anchors_delete _ _ e1 He1).
    - eapply keeps_holds; [done|]. by eapply keeps_holds.
    - intros ws' e0 He0. rewrite Hw' in He0.
      apply lookup_insert_Some in He0 as [[<- <-]|[Hne He0]]; [by eauto|].
      rewrite Hw, lookup_insert_ne in He0 by done.
      destruct (Hoth ws' e0) as [v0 Hv0]; [done..|]. exists v0. by eapply (oth_sets _ _ _ Hkept). }
  split_and!; [|done| |done|done|done|by apply keeps_roomy].
  { by apply (update_entry_spec t' ws e1 (λ e0, with_lens e0 pl (length v))). }
  rewrite Hw'. apply lookup_insert_eq.
Qed.

(** ** Publishing *)

(** What [append_node] answers: a node whose path is the old one and the new
    pages. *)
Record appended t t' (ws : WorkingSetId) (e : WorkingSetEntry) (v new : list cell)
    (n : NodeId) : Prop := {
  ap_ws : working_sets t' = working_sets t;
  ap_sound : sound t';
  ap_trie : trie_ok (locked t') (nm t') (anchors t');
  ap_holds : holds_ok t';
  ap_view : view (nm t') (Some n) (v ++ new);
  ap_others ws' e0 v0 : ws' ≠ ws → wm t !! ws' = Some e0 → maps t e0 v0 → maps t' e0 v0;
  ap_anchorable : anchorable (nm t') n;
  ap_garbage : garbage_at (nm t') (Some n);
  ap_cells : all_cells (nm t') ≡ₚ new ++ all_cells (nm t);
  ap_old : terminal e = None ∨ terminal e = Some n ∨ view (nm t') (terminal e) v;
  ap_hold_anchors : hold_anchors t' = hold_anchors t;
  ap_hold_views k w : k ∈ hold_anchors t → view (nm t) (Some k) w → view (nm t') (Some k) w;
}.

Lemma anchor_of_ws t ws e n :
  wm t !! ws = Some e → terminal e = Some n → n ∈ anchors t.
Proof. intros He Hn. apply elem_of_app. left. apply elem_of_ws_anchors. eauto. Qed.

(** A node anchored once anchors no other working set. *)
Lemma sole_anchor t ws e ws' e' n en :
  inv t → wm t !! ws = Some e → terminal e = Some n → nm t !! n = Some en →
  exact_anchors en = 1 → ws' ≠ ws → wm t !! ws' = Some e' → terminal e' ≠ Some n.
Proof.
  intros Hi He Hn Hen Hx Hne He' Hn'.
  pose proof (an_count _ _ (ok_anchored _ _ _ (inv_trie _ Hi)) _ _ Hen) as Hc.
  unfold anchors in Hc. rewrite (count_Permutation n _ (n :: n :: ws_anchors (delete ws' (delete ws (wm t)))
    ++ hold_anchors t)) in Hc.
  - rewrite !count_cons_eq in Hc. lia.
  - rewrite (ws_anchors_delete _ ws e He), Hn.
    rewrite (ws_anchors_delete (delete ws (wm t)) ws' e') by by rewrite lookup_delete_ne.
    by rewrite Hn'.
Qed.

Lemma sole_anchor_hold t ws e n en k :
  inv t → wm t !! ws = Some e → terminal e = Some n → nm t !! n = Some en →
  exact_anchors en = 1 → k ∈ hold_anchors t → k ≠ n.
Proof.
  intros Hi He Hn Hen Hx Hk ->.
  pose proof (an_count _ _ (ok_anchored _ _ _ (inv_trie _ Hi)) _ _ Hen) as Hc.
  apply list_elem_of_split in Hk as (h1 & h2 & Hh).
  unfold anchors in Hc. rewrite (count_Permutation n _ (n :: n :: ws_anchors (delete ws (wm t)) ++ h1 ++ h2)) in Hc.
  - rewrite !count_cons_eq in Hc. lia.
  - rewrite Hh, (ws_anchors_delete _ ws e He), Hn. simpl. solve_perm.
Qed.

Lemma terminal_path_pos t ws e n :
  inv t → wm t !! ws = Some e → terminal e = Some n →
  anchorable (nm t) n ∧ 0 < path_of (nm t) n ∧ is_Some (nm t !! n).
Proof.
  intros Hi He Hn. pose proof (inv_trie _ Hi) as [Hm Hct Ha _].
  pose proof (anchor_of_ws _ _ _ _ He Hn) as Hin.
  destruct (an_live _ _ Ha _ Hin) as [en Hen].
  destruct (anchored_path _ _ _ _ Hct Ha Hin Hen) as [_ Hz].
  assert (0 < path_of (nm t) n) as Hp by (unfold path_of; by rewrite Hen).
  destruct (sh_chain _ Hm n ltac:(by eexists)) as [l Hl].
  split_and!; [|done|by eexists].
  destruct (anchorable_on_chain (nm t) n l n Hm Hct Hl Hp) as [? _]; [|done].
  destruct (chain_cons _ _ _ Hl) as [? ->]. set_solver.
Qed.

(** A node extended in place. *)
Lemma grow_spec t ws e v n en b th ph bs ths phs :
  settled t → wm t !! ws = Some e → maps t e v → terminal e = Some n →
  nm t !! n = Some en → pages en = Owned b th ph → children en = [] → exact_anchors en = 1 →
  length ths = length bs → length phs = length bs →
  appended t (put_node t n (with_pages en (Owned (b ++ bs) (th ++ ths) (ph ++ phs)))) ws e v
    (imap (λ i x, (mkLoc n (length b + i), x)) bs) n.
Proof.
  intros [Hi Hg] He [Hv Hl] Hn Hen Hp Hch Hx Hths Hphs.
  pose proof Hi as [Hs Hok Hh Hmp]. pose proof (ok_shape _ _ _ Hok) as Hm.
  set (p' := Owned (b ++ bs) (th ++ ths) (ph ++ phs)). set (t' := put_node t n (with_pages en p')).
  destruct (put_node_spec t n (with_pages en p') Hs ltac:(by eexists)) as [Hnm Hfr]. fold t' in Hnm, Hfr.
  rewrite <-repage_insert in Hnm by done.
  pose proof (sh_pages _ Hm _ _ Hen) as Hpok. unfold page_ok in Hpok. rewrite Hp in Hpok.
  assert (Hw : takes_within (nm t) en (length (b ++ bs))).
  { intros c ec off Hc. rewrite Hch in Hc. set_solver. }
  assert (Hcells : cells n (b ++ bs) = cells n b ++ imap (λ i x, (mkLoc n (length b + i), x)) bs).
  { unfold cells. rewrite imap_app. done. }
  assert (Hanch : anchors t' = anchors t).
  { unfold anchors. by rewrite (frame_wm _ _ Hfr), (keeps_hold_anchors t t') by by apply frame_keeps. }
  destruct (terminal_path_pos _ _ _ _ Hi He Hn) as (Hanc & Hpos & _).
  split.
  - apply Hfr.
  - by eapply frame_sound.
  - rewrite Hanch. apply (keeps_trie_ok t); [by apply frame_keeps|]. rewrite Hnm.
    eapply repage_trie_ok; [done..|lia| | | |done]; rewrite !length_app; lia.
  - eapply keeps_holds; [by apply frame_keeps|done].
  - rewrite Hn in Hv. destruct Hv as [segs Hvw]. inversion Hvw as [|? own p v0 segs' Hown Hpr Hvw0]; subst.
    unfold contrib in Hown. rewrite Hen, Hp in Hown. injection Hown as <-.
    pose proof Hpr as Hpr'. unfold pred in Hpr. rewrite Hen, Hp in Hpr. injection Hpr as <-.
    assert (view (nm t') (parent en) v0) as [segs0 Hv0].
    { rewrite Hnm. apply (repage_view n (nm t) en b th ph); [done..| | |by exists segs'].
      - intros c ec Hc. rewrite Hch in Hc. set_solver.
      - intros Hpn. destruct (sh_chain _ Hm n ltac:(by eexists)) as [l Hc].
        inversion Hc as [|? ? ? ? He' Hp' Hc']; simplify_eq.
        pose proof (chain_NoDup _ _ _ Hc) as [Hnd _]%NoDup_cons.
        destruct (chain_cons _ _ _ Hc') as [? ->]. set_solver. }
    rewrite <-app_assoc, <-Hcells. eexists. apply (walk_some _ n _ (parent en)); [| |exact Hv0].
    + unfold contrib. rewrite Hnm, repage_lookup, Hen. simpl. by rewrite decide_True.
    + unfold pred. rewrite Hnm, repage_lookup, Hen. simpl. by rewrite decide_True.
  - intros ws' e0 v0 Hne He0 [Hv0 Hl0]. split; [|done]. rewrite Hnm.
    apply (repage_view n (nm t) en b th ph); [done..| | |done].
    + intros c ec Hc. rewrite Hch in Hc. set_solver.
    + by apply (sole_anchor t ws e ws' e0 n en).
  - destruct Hanc as (l & Hc & Hpl). exists l. split.
    + eapply links_chain; [|exact Hc]. intros k. rewrite Hnm. apply repage_parents.
    + intros k Hk Hkn. specialize (Hpl k Hk Hkn). unfold path_of in *.
      rewrite Hnm, repage_lookup. destruct (nm t !! k); simpl in *; [|done]. by rewrite decide_False.
  - intros k ek Hek Hz. rewrite Hnm in Hek. apply repage_lookup_Some in Hek as (e0 & He0 & ->).
    specialize (Hg _ _ He0). case_decide; simpl in Hz; lia.
  - symmetry. rewrite Hnm. apply (repage_cells n (nm t) en b th ph _ _ _ (imap (λ i x, (mkLoc n (length b + i), x)) bs) []);
      [done..|]. rewrite Hcells. simpl. apply Permutation_app_comm.
  - right. by left.
  - apply keeps_hold_anchors. by apply frame_keeps.
  - intros k w Hk. rewrite Hnm.
    apply (repage_view n (nm t) en b th ph); [done..| |].
    + intros c ec Hc. rewrite Hch in Hc. set_solver.
    + intros [= ->]. by eapply (sole_anchor_hold t ws e n en n).
Qed.

(** A new node below the terminal. *)
Lemma leaf_spec t t' ws e v n bs ths phs :
  settled t → wm t !! ws = Some e → maps t e v →
  0 < length bs → length ths = length bs → length phs = length bs →
  inserted t t' n (mkNode (terminal e) [] (Owned bs ths phs) 0 0) →
  appended t t' ws e v (cells n bs) n.
Proof.
  intros [Hi Hg] He [Hv Hl] Hbs Hths Hphs Hins.
  pose proof Hi as [Hs Hok Hh Hmp]. pose proof (ok_shape _ _ _ Hok) as Hm.
  set (en := mkNode (terminal e) [] (Owned bs ths phs) 0 0) in *.
  pose proof (is_fresh _ _ _ _ Hins) as Hn. pose proof (is_nm _ _ _ _ Hins) as Hnm.
  assert (Hpar : ∀ p, parent en = Some p → is_Some (nm t !! p)).
  { intros p Hp. by eapply terminal_path_pos. }
  assert (Hpg : page_ok (nm t) en) by (split_and!; done).
  assert (Hview : ∀ e0 v0, (∃ ws', wm t !! ws' = Some e0) → view (nm t) (terminal e0) v0 →
    view (nm t') (terminal e0) v0).
  { intros e0 v0 [ws' He0] Hv0. rewrite Hnm. apply add_leaf_view; [done..| |done].
    intros k Hk. by eapply terminal_path_pos. }
  split.
  - by eapply is_ws.
  - by eapply is_sound.
  - rewrite (inserted_anchors _ _ _ _ Hins). by eapply inserted_trie_ok.
  - by eapply inserted_holds.
  - destruct (Hview e v) as [segs Hw]; [by eexists|done|].
    eexists. apply (walk_some _ n _ (terminal e)); [| |exact Hw].
    + unfold contrib. by rewrite Hnm, add_leaf_new.
    + unfold pred. by rewrite Hnm, add_leaf_new.
  - intros ws' e0 v0 Hne He0 [Hv0 Hl0]. split; [|done]. apply Hview; [by eexists|done].
  - eapply leaf_anchorable; [done|]. intros p Hp.
    destruct (terminal_path_pos _ _ _ _ Hi He Hp) as (? & ? & _). done.
  - intros k ek Hek Hz. rewrite Hnm in Hek.
    destruct (add_leaf_garbage _ _ _ _ _ Hn Hek Hz) as [->|(e0 & He0 & Hz0)]; [done|].
    specialize (Hg _ _ He0). lia.
  - rewrite Hnm. by apply add_leaf_cells.
  - right. right. apply Hview; [by eexists|done].
  - by apply (inserted_hold_anchors _ _ _ _ Hins).
  - intros k w Hk Hw. rewrite Hnm. apply add_leaf_view; [done..| |done].
    intros ? [= <-]. apply (an_live _ _ (ok_anchored _ _ _ Hok)). apply elem_of_app. by right.
Qed.

Lemma append_node_spec t ws e v bs ths phs k :
  settled t → wm t !! ws = Some e → maps t e v → st_room (nodes t) (S k) →
  0 < length bs → length ths = length bs → length phs = length bs →
  ∃ n t' new, append_node ws (terminal e) bs ths phs t = (Ok n, t') ∧
    appended t t' ws e v new n ∧ new.*2 = bs ∧ st_room (nodes t') k.
Proof.
  intros Hset He Hmap Hroom Hbs Hths Hphs. pose proof Hset as [Hi Hg].
  pose proof (inv_sound _ Hi) as Hs.
  assert (Hleaf : ∀ p, terminal e = p →
    ∃ n t' new, link_node (mkNode p [] (Owned bs ths phs) 0 0) t = (Ok n, t') ∧
      appended t t' ws e v new n ∧ new.*2 = bs ∧ st_room (nodes t') k).
  { intros p <-. destruct (link_node_spec t (mkNode (terminal e) [] (Owned bs ths phs) 0 0) k Hs Hroom)
      as (n & t' & Hl & Hins & Hr).
    { intros p Hp. by eapply terminal_path_pos. }
    exists n, t', (cells n bs). split_and!; [done|by eapply leaf_spec|apply snd_cells|done]. }
  unfold append_node. destruct (terminal e) as [n|] eqn:Hn; [|by apply Hleaf].
  destruct (terminal_path_pos _ _ _ _ Hi He Hn) as (_ & _ & [en Hen]).
  unfold mthen at 1, mread at 1, can_extend_in_place. rewrite node_nm, Hen by done.
  destruct (is_owned (pages en)) eqn:Hown; [|by apply Hleaf].
  destruct (bool_decide (children en = [])) eqn:Hch; [|by apply Hleaf]. simpl.
  destruct (match st_get (working_sets t) ws with
            | Some we => bool_decide (terminal we = Some n) | None => false end
            && bool_decide (exact_anchors en = 1) && bool_decide (path_anchors en = 1)) eqn:Hcond;
    [|by apply Hleaf].
  apply andb_true_iff in Hcond as [[_ Hx%bool_decide_eq_true]%andb_true_iff _].
  apply bool_decide_eq_true in Hch.
  unfold mthen at 1, mread at 1. rewrite node_nm, Hen by done.
  destruct (pages en) as [b th ph|] eqn:Hp; [|done].
  eexists n, _, _. split_and!; [done|by eapply grow_spec| |].
  - rewrite fmap_imap. apply list_eq. intros i. rewrite list_lookup_imap. by destruct (bs !! i).
  - destruct (put_node_spec t n (with_pages en (Owned (b ++ bs) (th ++ ths) (ph ++ phs))) Hs
      ltac:(by eexists)) as [_ Hfr].
    apply (fr_room _ _ Hfr). by eapply st_room_le; [|done]; lia.
Qed.

(** [publish_appended], with what it leaves of everything else. *)
Record published t t' (ws : WorkingSetId) (e : WorkingSetEntry) (v new : list cell) : Prop := {
  pb_settled : settled t';
  pb_entry : ∃ c, wm t' !! ws =
    Some (with_lens (with_terminal e c) (page_len e) (mapped_len e + length new));
  pb_mapped : mapped t' ws (v ++ new);
  pb_others : others_kept t t' ws;
  pb_cells : all_cells (nm t') ≡ₚ new ++ all_cells (nm t);
}.

Lemma publish_ok t ws e v ps k j :
  settled t → wm t !! ws = Some e → maps t e v → room t (S k) j →
  mapped_len e + length ps ≤ page_len e →
  ∃ t' new, publish_appended ws ps t = (Ok tt, t') ∧ published t t' ws e v new ∧
    new.*2 = (Resident ∘ pp_id <$> ps) ∧ room t' k j.
Proof.
  intros Hset He Hmap [Hroom Hroomw] Hlen. pose proof Hset as [Hi Hg]. pose proof (inv_sound _ Hi) as Hs.
  unfold publish_appended. unfold mthen at 1. rewrite entry_spec, He by done.
  rewrite decide_False by lia. case_decide as Hz.
  { apply length_zero_iff_nil in Hz as ->. exists t, []. split_and!; [done| |done|].
    - split; [done| | |by split|done].
      + exists (terminal e). rewrite with_terminal_id. simpl. rewrite Nat.add_0_r. by destruct e.
      + rewrite app_nil_r. by exists e.
    - split; [|done]. by eapply st_room_le; [|done]; lia. }
  destruct (append_node_spec t ws e v (Resident ∘ pp_id <$> ps) (pp_token_hashes <$> ps)
    (pp_page_hash <$> ps) k Hset He Hmap Hroom) as (n & t1 & new & Ha & Hap & Hnew & Hr1);
    [rewrite ?length_fmap; lia..|].
  rewrite (mthen_ok _ _ _ _ _ Ha).
  pose proof Hap as [Hw1 Hs1 Hok1 Hh1 Hv1 Ho1 Hanc1 Hg1 Hc1 Hold1 Hha1 Hhv1].
  assert (Hwm1 : wm t1 = wm t) by (unfold wm; by rewrite Hw1).
  assert (He1 : wm t1 !! ws = Some e) by by rewrite Hwm1.
  unfold mthen at 1. rewrite entry_spec, He1 by done.
  destruct (move_terminal_spec t1 ws e (Some n) Hs1 Hok1 He1) as (freed & t2 & Hmv & Hmoved & Hnof & Hq).
  { by intros ? [= <-]. }
  rewrite (mthen_ok _ _ _ _ _ Hmv).
  destruct (Hq Hg1) as [Hg2 Hq'].
  assert (freed = []) as ->.
  { destruct Hold1 as [?|[?|Hv]]; [auto..|]. destruct (terminal e) as [n'|] eqn:Hn'; [|auto].
    apply (Hq' n' v (v ++ new)); [done..|]. intros x Hx. apply elem_of_app. by left. }
  unfold mguard. rewrite decide_True by done.
  change (mthen (mok tt) _ t2) with (update_entry ws (λ e', with_lens e' (page_len e')
    (mapped_len e + length ps)) t2).
  destruct Hmap as [Hv Hl].
  destruct (finish_move t1 t2 ws e (Some n) [] (v ++ new) (page_len e) (mapped_len e + length ps)
    Hs1 Hh1 Hmoved He1) as (t3 & Hu & Hi3 & He3 & Hm3 & Hn3 & Hk3 & Hr3); [|done| |].
  { intros ws' e0 Hne He0. rewrite Hwm1 in He0. destruct (inv_maps _ Hi _ _ He0) as [v0 Hv0]. eauto. }
  { rewrite length_app, <-Hl. f_equal. by rewrite <-(length_fmap snd new), Hnew, length_fmap. }
  exists t3, new. split_and!.
  - rewrite <-Hu. pose proof (mv_wm _ _ _ _ _ _ Hmoved) as Hw2.
    assert (Hs2 : sound t2) by by apply (mv_keeps _ _ _ _ _ _ Hmoved).
    assert (He2 : wm t2 !! ws = Some (with_terminal e (Some n))) by (rewrite Hw2; apply lookup_insert_eq).
    by rewrite !(update_entry_spec t2 ws _ _ Hs2 He2).
  - split.
    + split; [done|]. by rewrite Hn3.
    + exists (Some n). rewrite He3. do 2 f_equal.
      by rewrite <-(length_fmap snd new), Hnew, length_fmap.
    + eexists. split; [done|]. exact Hm3.
    + eapply others_kept_trans; [|done]. split; [|done..].
      intros ws' e0 v0 Hne He0 Hv0. rewrite Hwm1. eauto.
    + rewrite Hn3, <-Hc1. destruct (ev_cells _ _ _ _ _ (mv_evolves _ _ _ _ _ _ Hmoved)) as (g & Hg' & -> & _).
      by destruct g.
  - done.
  - apply Hr3, (keeps_roomy _ _ (mv_keeps _ _ _ _ _ _ Hmoved)). split; [done|by rewrite Hw1].
Qed.
End props.
End KvProps.
