(* ===== verification/KvFree.v ===== *)
(** What the operations that drop pages free: exactly what no anchor that stays
    reads, where no residency move holds it. *)
From S2P Require Import Prelude Ids Store Runs KvTable KvOps KvTrie KvChange KvSpec KvInv KvRead.
From S2P Require Import KvState KvPath KvProps.

Module KvFree.
Import Runs KvTable KvOps KvTrie KvChange KvSpec KvInv KvRead KvState KvPath KvProps.

(** From [m] to [m'], the pages that go are those the anchors [A] do not read;
    one of a node a move holds may stay for now. *)
Record frees_unread (lock : NodeId → Prop) (A : list NodeId) (m : trie) (gone : list cell)
    (m' : trie) : Prop := {
  fu_cells : all_cells m ≡ₚ gone ++ all_cells m';
  fu_unread c : c ∈ gone → ¬ read_by m A c;
  fu_all c : c ∈ all_cells m → ¬ lock (loc_node c.1) → ¬ read_by m A c → c ∈ gone;
}.

Lemma evolves_frees (lock lock' : NodeId → Prop) A (m : trie) freed m' :
  (∀ a, a ∈ A → is_Some (m !! a)) → shape m → (∀ n, lock' n → lock n) →
  trie_ok lock' m' A → no_garbage m' → evolves lock A m freed m' →
  ∃ gone, freed = gone.*2 ∧ frees_unread lock A m gone m'.
Proof.
  intros Hlive Hm Hlock [Hm' Hct' Ha' Ht'] Hg' Hev.
  destruct (evolves_unread _ _ _ _ _ Hm' Hev) as (g & -> & C & Hun & _ & _ & _).
  exists g. split; [done|]. split; [done..|].
  intros c Hc Hl Hnr. rewrite C in Hc. apply elem_of_app in Hc as [?|Hc]; [done|].
  exfalso. apply Hnr. destruct c as [l x]. apply elem_of_all_cells in Hc as (e & He & Hx).
  destruct (pages e) as [b th ph|] eqn:Hp; simpl in Hx; [|by rewrite lookup_nil in Hx].
  destruct (tidy_read lock' m' A (loc_node l) e b th ph (l, x)) as (a & v & HaA & Hv & Hin);
    [done..|by auto|done|done|by apply elem_of_cells|].
  destruct (view_total m Hm a (Hlive a HaA)) as [v0 Hv0].
  exists a, v0. split_and!; [done..|].
  assert (view m' (Some a) v0) as Hv0' by (apply (ev_view _ _ _ _ _ Hev); [by intros ? [= <-]|done]).
  by rewrite (view_fun _ _ _ _ Hv0' Hv).
Qed.

Section free.
Context {WS NS : Type → Type}.
Context `{!KeyedStore WorkingSetId WS, !KeyedStore NodeId NS}.
Context `{!KeyedStoreLaws WorkingSetId WS, !KeyedStoreLaws NodeId NS}.
Abbreviation table := (KvPageTable WS NS).
Abbreviation tm := (method table KvTableError).
Implicit Types t : table.

(** ** Releasing a working set *)

Lemma remove_entry_spec t ws e :
  sound t → wm t !! ws = Some e →
  ∃ t', remove_entry ws t = (Ok (Some e), t') ∧ keeps t t' ∧ nm t' = nm t ∧
    wm t' = delete ws (wm t).
Proof.
  intros [Hn Hv] He. destruct (st_remove_spec (working_sets t) ws Hv) as (H1 & H2 & H3 & H4).
  unfold remove_entry. destruct (st_remove (working_sets t) ws) as [o s]. simpl in *.
  fold (wm t) in H1, H2. rewrite H1, He. eexists. split_and!; [done| |done|done].
  split; try done; simpl; auto.
Qed.

Lemma anchors_live t a : inv t → a ∈ anchors t → is_Some (nm t !! a).
Proof. intros Hi. apply (inv_trie _ Hi). Qed.

(** An anchor of [t0] taken off, where [t] differs from [t0] in who anchors
    alone. *)
Lemma remove_anchor_ok t0 t n :
  settled t0 → nm t = nm t0 → (∀ j, locked t j ↔ locked t0 j) → sound t →
  anchors t0 ≡ₚ n :: anchors t → holds_ok t →
  (∀ ws e, wm t !! ws = Some e → ∃ v, maps t e v) →
  ∃ freed t', remove_anchor n t = (Ok freed, t') ∧ settled t' ∧ frame t t' ∧
    (∀ ws e v, wm t !! ws = Some e → maps t e v → maps t' e v) ∧
    (∀ k v, k ∈ hold_anchors t → view (nm t) (Some k) v → view (nm t') (Some k) v) ∧
    ∃ gone, freed = gone.*2 ∧ frees_unread (locked t0) (anchors t') (nm t0) gone (nm t').
Proof.
  intros [Hi Hg] Hn Hk Hs HA Hh Hmp.
  assert (Hok : trie_ok (locked t) (nm t) (n :: anchors t)).
  { eapply trie_ok_Permutation; [done|]. rewrite Hn. destruct (inv_trie _ Hi) as [? ? ? Ht].
    split; [done..|]. intros j. eapply tidy_lock; [|apply Ht]. intros k. by apply Hk. }
  destruct (remove_anchor_spec t n (anchors t) Hs Hok) as (freed & t' & Hr & Hfr & Hok' & Hev).
  assert (HA' : anchors t' = anchors t).
  { unfold anchors. by rewrite (frame_wm _ _ Hfr), (keeps_hold_anchors t t') by by apply frame_keeps. }
  assert (Hkeep : ∀ ws e v, wm t !! ws = Some e → maps t e v → maps t' e v).
  { intros ws e v He [Hv Hl]. split; [|done]. apply (ev_view _ _ _ _ _ Hev); [|done].
    intros k Hk'. apply elem_of_app. left. apply elem_of_ws_anchors. eauto. }
  assert (Hg' : no_garbage (nm t')) by (eapply no_garbage_evolves; [|exact Hev]; by rewrite Hn).
  exists freed, t'. split_and!; [done| |done|done| |].
  2: { intros k v Hk'. apply (ev_view _ _ _ _ _ Hev). intros ? [= <-]. apply elem_of_app. by right. }
  - split; [|done]. split.
    + by eapply frame_sound.
    + by rewrite HA'.
    + eapply keeps_holds; [by apply frame_keeps|done].
    + intros ws e He. rewrite (frame_wm _ _ Hfr) in He. destruct (Hmp _ _ He) as [v Hv]. eauto.
  - rewrite HA'. rewrite Hn in Hev. eapply evolves_frees; [| | | | |].
    + intros a Ha. apply (anchors_live t0); [done|]. rewrite HA. by apply elem_of_cons; right.
    + apply Hi.
    + intros j Hj. apply Hk. by apply (frame_locked t t').
    + done.
    + done.
    + eapply evolves_weaken; [|done|exact Hev]. intros j. by apply Hk.
Qed.

Lemma release_unknown t ws :
  settled t → wm t !! ws = None →
  ∃ t', release_working_set_backings ws t = (Ok [], t') ∧ settled t' ∧
    wm t' = wm t ∧ nm t' = nm t ∧ roomy t t'.
Proof.
  intros Hset He. pose proof Hset as [Hi Hg]. pose proof Hi as [[Hv Hw] Hok Hh Hmp].
  destruct (st_remove_spec (working_sets t) ws Hw) as (Hr & Hm & Hv' & Hroom).
  fold (wm t) in Hr, Hm. rewrite He in Hr.
  unfold release_working_set_backings, mthen, remove_entry.
  destruct (st_remove (working_sets t) ws) as [r s]; simpl in *. subst r.
  eexists. split; [done|].
  assert (Hwm : wm (set_working_sets t s) = wm t) by (unfold wm; simpl; rewrite Hm; by apply delete_id).
  split_and!; [|done|done|intros i j [? ?]; split; [done|by apply Hroom]].
  split; [|done]. split; [by split| |done|].
  - replace (anchors (set_working_sets t s)) with (anchors t); [done|]. unfold anchors. by rewrite Hwm.
  - intros ws' e'. rewrite Hwm. apply Hmp.
Qed.

Lemma release_ok t ws e :
  settled t → wm t !! ws = Some e →
  ∃ t' gone, release_working_set_backings ws t = (Ok gone.*2, t') ∧ settled t' ∧
    wm t' = delete ws (wm t) ∧ others_kept t t' ws ∧ roomy t t' ∧
    cache_roots t' = cache_roots t ∧
    frees_unread (locked t) (anchors t') (nm t) gone (nm t').
Proof.
  intros Hset He. pose proof Hset as [Hi Hg]. pose proof Hi as [Hs Hok Hh Hmp].
  destruct (remove_entry_spec t ws e Hs He) as (t1 & Hr & Hk1 & Hn1 & Hw1).
  assert (HA : anchors t ≡ₚ option_list (terminal e) ++ anchors t1).
  { unfold anchors. rewrite Hw1, (keeps_hold_anchors t t1 Hk1).
    rewrite (ws_anchors_delete _ _ _ He). by rewrite app_assoc. }
  assert (Hmp1 : ∀ ws' e', wm t1 !! ws' = Some e' → ∃ v, maps t1 e' v).
  { intros ws' e'. rewrite Hw1. intros [_ He']%lookup_delete_Some.
    destruct (Hmp _ _ He') as (v & Hv & Hl). exists v. split; [by rewrite Hn1|done]. }
  unfold release_working_set_backings. rewrite (mthen_ok _ _ _ _ _ Hr).
  destruct (terminal e) as [n|] eqn:Hn.
  - destruct (remove_anchor_ok t t1 n Hset Hn1 (λ j, keeps_locked t t1 j Hk1)) as (freed & t' & Hra & Hset' & Hfr & Hkeep & Hkv & g & -> & Hfu).
    { by apply Hk1. } { done. } { by eapply keeps_holds. } { done. }
    exists t', g. split_and!; [done..| | | | |done].
    + by rewrite (frame_wm _ _ Hfr).
    + split.
      * intros ws' e' v Hne He' [Hv Hl]. assert (wm t1 !! ws' = Some e') as He1.
        { rewrite Hw1. by rewrite lookup_delete_ne. }
        split; [by rewrite (frame_wm _ _ Hfr)|]. apply (Hkeep ws'); [done|].
        split; [by rewrite Hn1|done].
      * rewrite (keeps_hold_anchors t1 t') by by apply frame_keeps. by apply keeps_hold_anchors.
      * intros k v Hk Hv. apply Hkv; [by rewrite (keeps_hold_anchors t t1)|by rewrite Hn1].
    + eapply roomy_trans; [by apply keeps_roomy|by apply frame_roomy].
    + rewrite (fr_roots _ _ Hfr). by apply Hk1.
  - simpl in HA. exists t1, []. split_and!; [done| |done| |by apply keeps_roomy|by apply Hk1|].
    + split; [|by rewrite Hn1]. split; [by apply Hk1| |by eapply keeps_holds|done].
      rewrite Hn1. apply (keeps_trie_ok t); [done|]. by eapply trie_ok_Permutation.
    + split; [|by apply keeps_hold_anchors|by rewrite Hn1].
      intros ws' e' v Hne He' [Hv Hl]. split; [rewrite Hw1; by rewrite lookup_delete_ne|].
      split; [by rewrite Hn1|done].
    + rewrite Hn1. split; [done|by intros c ?%not_elem_of_nil|].
      intros [l x] Hc Hl Hnr. exfalso. apply Hnr.
      apply elem_of_all_cells in Hc as (en & Hen & Hx).
      destruct (pages en) as [b th ph|] eqn:Hp; simpl in Hx; [|by rewrite lookup_nil in Hx].
      destruct Hok as [Hm Hct Ha Ht].
      eapply (tidy_read (locked t) (nm t) (anchors t1)); [done..| |done|done|done|done|done|].
      * by eapply anchored_Permutation.
      * by apply elem_of_cells.
Qed.

(** ** Replacing a tail *)

(** The anchors that are not [ws]'s own. *)
Definition other_anchors t (ws : WorkingSetId) : list NodeId :=
  ws_anchors (delete ws (wm t)) ++ hold_anchors t.

Lemma anchors_split t ws e :
  wm t !! ws = Some e → anchors t ≡ₚ option_list (terminal e) ++ other_anchors t ws.
Proof.
  intros He. unfold anchors, other_anchors. by rewrite (ws_anchors_delete _ _ _ He), app_assoc.
Qed.

Lemma other_anchors_live t ws e a :
  inv t → wm t !! ws = Some e → a ∈ other_anchors t ws → is_Some (nm t !! a).
Proof.
  intros Hi He Ha. apply (anchors_live t); [done|]. rewrite (anchors_split _ _ _ He). set_solver.
Qed.

(** From [t], [gone] is what [ws] lets go when it keeps only [kept] and nothing
    else reads: no more, and no less but for pages a move holds. *)
Record lets_go t (ws : WorkingSetId) (kept gone : list cell) : Prop := {
  lg_unread c : c ∈ gone → (c ∉ kept) ∧ ¬ read_by (nm t) (other_anchors t ws) c;
  lg_all c : c ∈ all_cells (nm t) → ¬ locked t (loc_node c.1) → c ∉ kept →
    ¬ read_by (nm t) (other_anchors t ws) c → c ∈ gone;
}.

Lemma read_by_prefixed t t1 n A c :
  inv t → prefixed t t1 n → (∀ a, a ∈ A → is_Some (nm t !! a)) →
  read_by (nm t1) A c ↔ read_by (nm t) A c.
Proof.
  intros Hi Hp HA. pose proof (ok_shape _ _ _ (inv_trie _ Hi)) as Hm.
  assert (Hpres : ∀ a v, a ∈ A → view (nm t) (Some a) v → view (nm t1) (Some a) v).
  { intros a v Ha Hv. apply (px_view _ _ _ Hp); [|done..]. intros k [= <-]. by apply HA. }
  split; intros (a & v & Ha & Hv & Hc).
  - destruct (view_total _ Hm a (HA a Ha)) as [v0 Hv0]. exists a, v0. split_and!; [done..|].
    by rewrite <-(view_fun _ _ _ _ Hv (Hpres _ _ Ha Hv0)).
  - exists a, v. split_and!; [done|by apply Hpres|done].
Qed.

Lemma read_by_cons (m : trie) a v A c :
  view m (Some a) v → read_by m (a :: A) c ↔ c ∈ v ∨ read_by m A c.
Proof.
  intros Hv. split.
  - intros (b & w & [->|Hb]%elem_of_cons & Hw & Hc); [left|right; by exists b, w].
    by rewrite (view_fun _ _ _ _ Hv Hw).
  - intros [Hc|(b & w & Hb & Hw & Hc)]; [exists a, v|exists b, w]; set_solver.
Qed.

(** The move of a terminal down to a prefix of [v]. *)
Lemma cut_ok t t1 ws e c v b :
  settled t → wm t !! ws = Some e → maps t e v → b ≤ length v →
  match c with Some n => prefixed t t1 n ∧ anchorable (nm t1) n | None => t1 = t end →
  view (nm t1) c (take b v) →
  ∃ t' gone, mthen (move_terminal ws c) (λ freed,
      mthen (update_entry ws (λ e', with_lens e' (page_len e') b)) (λ _, mok freed)) t1
      = (Ok gone.*2, t') ∧
    settled t' ∧ wm t' !! ws = Some (with_lens (with_terminal e c) (page_len e) b) ∧
    maps t' (with_lens (with_terminal e c) (page_len e) b) (take b v) ∧ others_kept t t' ws ∧
    all_cells (nm t) ≡ₚ gone ++ all_cells (nm t') ∧ lets_go t ws (take b v) gone ∧
    roomy t1 t'.
Proof.
  intros [Hi Hg] He [Hv Hl] Hb Hc Hv1. pose proof Hi as [Hs Hok Hh Hmp].
  assert (sound t1 ∧ wm t1 = wm t ∧ anchors t1 = anchors t ∧ holds_ok t1 ∧ (∀ j, locked t1 j ↔ locked t j) ∧
    trie_ok (locked t1) (nm t1) (anchors t1) ∧ all_cells (nm t1) ≡ₚ all_cells (nm t) ∧
    garbage_at (nm t1) c ∧ (∀ n, c = Some n → anchorable (nm t1) n) ∧ shape (nm t1) ∧
    (∀ c' v', (∀ k, c' = Some k → is_Some (nm t !! k)) → view (nm t) c' v' → view (nm t1) c' v') ∧
    (∀ x, read_by (nm t1) (other_anchors t ws) x ↔ read_by (nm t) (other_anchors t ws) x) ∧
    hold_anchors t1 = hold_anchors t)
    as (Hs1 & Hw1 & HA1 & Hh1 & Hl1 & Hok1 & Hc1 & Hg1 & Hanc & Hm1 & Hview & Hread & Hha).
  { destruct c as [n|].
    - destruct Hc as [Hp Hanc]. pose proof Hp as [P1 P2 P3 P4 P5 P6 P7 P8 P9 P10].
      assert (trie_ok (locked t1) (nm t1) (anchors t1)) as Hok1 by (rewrite P2; by apply P6).
      split_and!; auto; try by intros ? [= <-].
      + by destruct Hok1.
      + intros c' v' Hc' ?. apply P7; [done| |done]. by destruct Hok.
      + intros x. eapply read_by_prefixed; [done..|]. intros a Ha. by eapply other_anchors_live.
      + unfold anchors in P2. rewrite P1 in P2. by apply app_inv_head in P2.
    - subst t1. split_and!; try done. 2: by destruct Hok.
      intros k ek Hek Hz. specialize (Hg _ _ Hek). lia. }
  assert (He1 : wm t1 !! ws = Some e) by by rewrite Hw1.
  destruct (move_terminal_spec t1 ws e c Hs1 Hok1 He1 Hanc) as (freed & t2 & Hmv & Hmoved & _ & Hq).
  destruct (Hq Hg1) as [Hg2 _].
  pose proof Hmoved as [Hk2 Hw2 Hok2 Hev2].
  destruct (finish_move t1 t2 ws e c freed (take b v) (page_len e) b Hs1 Hh1 Hmoved He1)
    as (t3 & Hu & Hi3 & He3 & Hm3 & Hn3 & Hk3 & Hr3); [|done|rewrite length_take; lia|].
  { intros ws' e0 Hne He0. rewrite Hw1 in He0. destruct (Hmp _ _ He0) as (v0 & Hv0 & Hl0).
    exists v0. split; [|done]. apply Hview; [|done]. intros k Hk.
    by eapply terminal_path_pos. }
  assert (HA2 : anchors t2 ≡ₚ option_list c ++ other_anchors t ws).
  { unfold anchors, other_anchors. rewrite Hw2, (keeps_hold_anchors _ _ Hk2), Hha.
    rewrite (ws_anchors_update _ ws e _ He1), Hw1, <-app_assoc. done. }
  assert (Hr2 : ∀ x, read_by (nm t1) (anchors t2) x ↔
    x ∈ take b v ∨ read_by (nm t) (other_anchors t ws) x).
  { intros x. rewrite <-Hread.
    assert (read_by (nm t1) (anchors t2) x ↔ read_by (nm t1) (option_list c ++ other_anchors t ws) x) as ->.
    { unfold read_by. by setoid_rewrite HA2. }
    destruct c as [n|]; [by apply read_by_cons|]. simpl.
    assert (take b v = []) as -> by by (destruct Hv1 as [? Hv1]; inversion Hv1).
    set_solver. }
  destruct (evolves_frees (locked t1) (locked t2) (anchors t2) (nm t1) freed (nm t2))
    as (gone & -> & [F1 F2 F3]); [| done| |done..|].
  { intros a Ha. rewrite HA2 in Ha. apply elem_of_app in Ha as [Ha|Ha].
    - destruct c as [n|]; [|set_solver]. apply list_elem_of_singleton in Ha as ->.
      destruct (Hanc n eq_refl) as (l & Hl' & _). by eapply chain_live.
    - apply (an_live _ _ (ok_anchored _ _ _ Hok1)). rewrite HA1, (anchors_split _ _ _ He). set_solver. }
  { intros j. by apply (keeps_locked t1 t2). }
  exists t3, gone. split_and!.
  - rewrite (mthen_ok _ _ _ _ _ Hmv).
    assert (Hs2 : sound t2) by by apply Hk2.
    assert (He2 : wm t2 !! ws = Some (with_terminal e c)) by (rewrite Hw2; apply lookup_insert_eq).
    unfold mthen. rewrite (update_entry_spec t2 ws _ (λ e', with_lens e' (page_len e') b) Hs2 He2).
    rewrite (update_entry_spec t2 ws _ (λ e0, with_lens e0 (page_len e) b) Hs2 He2) in Hu.
    injection Hu as <-. done.
  - split; [done|]. by rewrite Hn3.
  - done.
  - done.
  - destruct Hk3 as [K1 K2 K3]. split.
    + intros ws' e0 v0 Hne He0 [Hv0 Hl0]. apply K1; [done|by rewrite Hw1|]. split; [|done].
      apply Hview; [|done]. intros k Hk. by eapply terminal_path_pos.
    + by rewrite K2.
    + intros n w Hn Hw. apply K3; [by rewrite Hha|]. apply Hview; [|done]. intros ? [= <-].
      apply (anchors_live t); [done|]. apply elem_of_app. by right.
  - by rewrite Hn3, <-Hc1.
  - split.
    + intros x Hx%F2. rewrite Hr2 in Hx. naive_solver.
    + intros x Hx Hlx Hnx Hrx. apply F3; [by rewrite Hc1|by rewrite Hl1|]. rewrite Hr2. naive_solver.
  - eapply roomy_trans; [by apply keeps_roomy|done].
Qed.

Lemma replace_ok t ws e v from ps k j :
  settled t → wm t !! ws = Some e → maps t e v → room t (S (S k)) j →
  from ≤ mapped_len e → from + length ps ≤ page_len e →
  ∃ t' gone new, replace_tail ws from ps t = (Ok gone.*2, t') ∧ settled t' ∧
    mapped t' ws (take from v ++ new) ∧ new.*2 = (Resident ∘ pp_id <$> ps) ∧ others_kept t t' ws ∧
    new ++ all_cells (nm t) ≡ₚ gone ++ all_cells (nm t') ∧ lets_go t ws (take from v) gone ∧
    room t' k j.
Proof.
  intros Hset He Hmap Hroom Hf Hp. pose proof Hset as [Hi Hg].
  pose proof (inv_sound _ Hi) as Hs. pose proof (inv_trie _ Hi) as [Hm Hct Ha Ht].
  pose proof Hmap as [Hv Hl].
  unfold replace_tail. unfold mthen at 1. rewrite entry_spec, He by done.
  rewrite !decide_False by lia. case_decide as Hlt.
  - pose proof Hv as [segs Hw]. unfold mthen at 1, mread at 1. rewrite <-Hl, (segments_spec t Hs Hm _ _ _ Hw).
    assert (∃ c t1, (if decide (from = 0) then mok None
        else n ⇐ boundary_terminal segs from ;; mok (Some n)) t = (Ok c, t1) ∧
      match c with Some n => prefixed t t1 n ∧ anchorable (nm t1) n | None => t1 = t end ∧
      view (nm t1) c (take from v) ∧ room t1 (S k) j) as (c & t1 & Hb & Hc & Hv1 & Hr1).
    { case_decide as Hz.
      - exists None, t. split_and!; [done|done| |by eapply room_le; [| |done]; lia].
        subst. exists []. constructor.
      - destruct (boundary_terminal_spec t (terminal e) v segs from (S k) Hs Hm Hct (proj1 Hroom) Hw ltac:(lia))
          as (n & t1 & Hb & Hpn & Hr1 & Hv1 & Hanc).
        exists (Some n), t1. split_and!; [by rewrite (mthen_ok _ _ _ _ _ Hb)| | |done|].
        + by apply prefix_node_prefixed.
        + destruct (terminal e) as [a|] eqn:Hte; [|inversion Hw; subst; simpl in *; lia].
          apply (Hanc a); [done|]. by eapply terminal_path_pos.
        + split; [done|]. rewrite (px_ws _ _ _ (prefix_node_prefixed _ _ _ Hm Hpn)). apply Hroom. }
    rewrite (mthen_ok _ _ _ _ _ Hb).
    destruct (cut_ok t t1 ws e c v from Hset He Hmap ltac:(lia) Hc Hv1)
      as (t2 & gone & Hcut & Hset2 & He2 & Hm2 & Hk2 & Hc2 & Hlg & Hr2).
    destruct (publish_ok t2 ws _ _ ps k j Hset2 He2 Hm2 ltac:(by apply Hr2)) as (t3 & new & Hpub & Hpd & Hnew & Hr3).
    { simpl. lia. }
    exists t3, gone, new. pose proof Hpd as [P1 P2 P3 P4 P5]. split_and!; [|done..| | | |done].
    + apply mthen_inv in Hcut as (freed & t1' & Hmv & Hcut).
      rewrite (mthen_ok _ _ _ _ _ Hmv).
      apply mthen_inv in Hcut as ([] & t1'' & Hu & Hcut). injection Hcut as -> ->.
      rewrite (mthen_ok _ _ _ _ _ Hu). by rewrite (mthen_ok _ _ _ _ _ Hpub).
    + by eapply others_kept_trans.
    + rewrite Hc2, P5. solve_perm.
    + done.
  - assert (from = mapped_len e) as -> by lia.
    destruct (publish_ok t ws e v ps (S k) j Hset He Hmap Hroom Hp) as (t' & new & Hpub & Hpd & Hnew & Hr').
    exists t', [], new. pose proof Hpd as [P1 P2 P3 P4 P5].
    rewrite (mthen_ok _ _ _ _ _ Hpub). rewrite take_ge by lia. split_and!; try done.
    2: { by eapply room_le; [| |done]; lia. }
    split; [by intros c ?%not_elem_of_nil|].
    intros [l x] Hc Hlc Hnv Hnr. exfalso. apply elem_of_all_cells in Hc as (en & Hen & Hx).
    destruct (pages en) as [b th ph|] eqn:Hpg; simpl in Hx; [|by rewrite lookup_nil in Hx].
    destruct (tidy_read (locked t) (nm t) (anchors t) (loc_node l) en b th ph (l, x))
      as (a & w & HaA & Hw & Hin); [done..|by apply elem_of_cells|].
    rewrite (anchors_split _ _ _ He) in HaA. apply elem_of_app in HaA as [HaA|HaA].
    + destruct (terminal e) as [n|]; [|set_solver]. apply list_elem_of_singleton in HaA as ->.
      apply Hnv. by rewrite (view_fun _ _ _ _ Hv Hw).
    + apply Hnr. by exists a, w.
Qed.
End free.
End KvFree.
