(* ===== verification/KvShare.v ===== *)
(** Sharing: a fork maps what its parent maps, an attached working set maps a
    prefix of a path that is there already, and a page is private exactly where
    one anchor reads it. *)
From S2P Require Import Prelude Ids Store Runs KvTable KvOps KvTrie KvChange KvSpec KvInv KvRead.
From S2P Require Import KvState KvPath KvProps KvFree.

Module KvShare.
Import Runs KvTable KvOps KvTrie KvChange KvSpec KvInv KvRead KvState KvPath KvProps KvFree.

(** Cells of one trie are told apart by their locations. *)
Lemma cells_eq_locs (m : trie) (v v' : list cell) :
  (∀ x, x ∈ v → x ∈ all_cells m) → (∀ x, x ∈ v' → x ∈ all_cells m) → v.*1 = v'.*1 → v = v'.
Proof.
  revert v'. induction v as [|[l x] v IH]; intros [|[l' x'] v'] Hv Hv' Heq; try done.
  simplify_eq/=. f_equal; [|apply IH; set_solver]. f_equal.
  destruct (proj1 (elem_of_all_cells m l' x) (Hv (l', x) ltac:(set_solver))) as (e & He & Hx).
  destruct (proj1 (elem_of_all_cells m l' x') (Hv' (l', x') ltac:(set_solver))) as (e' & He' & Hx').
  by simplify_eq.
Qed.

Section share.
Context {WS NS : Type → Type}.
Context `{!KeyedStore WorkingSetId WS, !KeyedStore NodeId NS}.
Context `{!KeyedStoreLaws WorkingSetId WS, !KeyedStoreLaws NodeId NS}.
Abbreviation table := (KvPageTable WS NS).
Abbreviation tm := (method table KvTableError).
Implicit Types t : table.

(** ** New working sets *)

Lemma insert_entry_spec t e k :
  sound t → st_room (working_sets t) (S k) →
  ∃ ws t', insert_entry e t = (Ok ws, t') ∧ wm t !! ws = None ∧ wm t' = <[ws := e]> (wm t) ∧
    nm t' = nm t ∧ sound t' ∧ cache_roots t' = cache_roots t ∧ pins t' = pins t ∧
    swap_locations t' = swap_locations t ∧ nodes t' = nodes t ∧ st_room (working_sets t') k.
Proof.
  intros [Hn Hv] Hr. destruct (st_insert_spec (working_sets t) e k Hv Hr)
    as (ws & s & Hi & Hws & Hm & Hv' & Hr').
  exists ws, (set_working_sets t s). unfold insert_entry. rewrite Hi. done.
Qed.

(** A new entry whose terminal is anchored where [t1] has it. *)
Lemma new_ws_ok t t' ws e v :
  settled t → wm t !! ws = None → wm t' = <[ws := e]> (wm t) → sound t' →
  cache_roots t' = cache_roots t → pins t' = pins t → swap_locations t' = swap_locations t →
  trie_ok (locked t') (nm t') (option_list (terminal e) ++ anchors t) → no_garbage (nm t') →
  (∀ c w, view (nm t) c w → view (nm t') c w) →
  view (nm t) (terminal e) v → length v = mapped_len e →
  settled t' ∧ mapped t' ws v ∧ others_kept t t' ws.
Proof.
  intros [Hi Hg] Hws Hw Hs' Hcr Hp Hsw Hok' Hg' Hview Hv Hl.
  assert (Hh : hold_anchors t' = hold_anchors t) by (unfold hold_anchors; by rewrite Hcr, Hp).
  assert (Hmap : maps t' e v) by (split; auto).
  assert (Hkept : others_kept t t' ws).
  { split; [|done|auto].
    intros ws' e0 v0 Hne He0 [Hv0 Hl0]. split; [rewrite Hw; by rewrite lookup_insert_ne|].
    split; auto. }
  split_and!; [|exists e; rewrite Hw; split; [apply lookup_insert_eq|done]|done].
  split; [|done]. split; [done| | |].
  - eapply trie_ok_Permutation; [|exact Hok']. unfold anchors.
    by rewrite Hw, Hh, ws_anchors_insert, app_assoc by done.
  - destruct Hi as [_ _ [H1 H2] _]. split; [by rewrite Hcr|by rewrite Hp].
  - intros ws' e0. rewrite Hw. intros [[<- <-]|[Hne He0]]%lookup_insert_Some; [by eauto|].
    destruct (inv_maps _ Hi _ _ He0) as [v0 Hv0]. exists v0. by eapply (oth_sets _ _ _ Hkept).
Qed.

Lemma create_ok t k :
  settled t → st_room (working_sets t) (S k) →
  ∃ ws t', create_working_set t = (Ok ws, t') ∧ wm t !! ws = None ∧ settled t' ∧
    wm t' = <[ws := new_entry None 0 0]> (wm t) ∧ nm t' = nm t ∧
    mapped t' ws [] ∧ others_kept t t' ws ∧ nodes t' = nodes t ∧ st_room (working_sets t') k.
Proof.
  intros Hset Hr. pose proof Hset as [Hi Hg].
  destruct (insert_entry_spec t (new_entry None 0 0) k (inv_sound _ Hi) Hr)
    as (ws & t' & Hins & Hws & Hw & Hn & Hs & Hcr & Hp & Hsw & Hnn & Hr').
  assert (settled t' ∧ mapped t' ws [] ∧ others_kept t t' ws) as (? & ? & ?).
  { apply (new_ws_ok t t' ws (new_entry None 0 0) []); try done; rewrite ?Hn; try done.
    - destruct (inv_trie _ Hi) as [? ? ? Ht]. split; [done..|]. intros j. eapply tidy_lock; [|apply Ht].
      intros n. unfold locked. by rewrite Hsw.
    - exists []. constructor. }
  exists ws, t'. done.
Qed.

Lemma fork_ok t ws e v k :
  settled t → wm t !! ws = Some e → maps t e v → st_room (working_sets t) (S k) →
  ∃ child t' ec, fork ws t = (Ok child, t') ∧ wm t !! child = None ∧ settled t' ∧
    wm t' = <[child := ec]> (wm t) ∧ terminal ec = terminal e ∧ page_len ec = page_len e ∧
    logged_ ec = cut_log e ∧ pending ec = ∅ ∧ folded ec = folded e ∧
    prompt_pages ec = prompt_pages e ∧ suspended ec = false ∧
    mapped t' child v ∧ mapped t' ws v ∧ others_kept t t' child ∧
    all_cells (nm t') = all_cells (nm t) ∧
    (∀ i, st_room (nodes t) i → room t' i k).
Proof.
  intros Hset He [Hv Hl] Hr. pose proof Hset as [Hi Hg]. pose proof (inv_sound _ Hi) as Hs.
  unfold fork. unfold mthen at 1. rewrite entry_spec, He by done.
  set (ec := with_prompt _ _).
  destruct (insert_entry_spec t ec k Hs Hr)
    as (child & t1 & Hins & Hc & Hw1 & Hn1 & Hs1 & Hcr1 & Hp1 & Hsw1 & Hnn1 & Hr1).
  rewrite (mthen_ok _ _ _ _ _ Hins).
  assert (Hok1 : trie_ok (locked t1) (nm t1) (anchors t)).
  { rewrite Hn1. destruct (inv_trie _ Hi) as [? ? ? Ht]. split; [done..|].
    intros j. eapply tidy_lock; [|apply Ht]. intros n. unfold locked. by rewrite Hsw1. }
  assert (∃ t', match terminal e with Some n => add_anchor n | None => mok tt end t1 = (Ok tt, t') ∧
    frame t1 t' ∧ trie_ok (locked t') (nm t') (option_list (terminal e) ++ anchors t) ∧
    no_garbage (nm t') ∧ (∀ c w, view (nm t) c w → view (nm t') c w) ∧
    all_cells (nm t') = all_cells (nm t)) as (t' & Ha & Hfr & Hok' & Hg' & Hview & Hcells).
  { destruct (terminal e) as [n|] eqn:Hn.
    - destruct (terminal_path_pos _ _ _ _ Hi He Hn) as (Hanc & Hpos & _).
      destruct Hanc as (l & Hcl & Hpl). rewrite <-Hn1 in Hcl, Hpl.
      destruct (add_anchor_spec t1 n l Hs1 Hcl) as (t' & Ha & Hfr & Hn').
      destruct (add_anchor_ok t1 n (anchors t) Hs1 Hok1 (anchorable_holdable _ _ ltac:(by exists l)))
        as (t'' & Ha' & _ & Hok' & Hev & Hcc & Hgg). rewrite Ha in Ha'. injection Ha' as <-.
      exists t'. split_and!; [done..| | |].
      + apply Hgg. intros k' e' He' Hz. rewrite Hn1 in He'. specialize (Hg _ _ He'). exfalso. lia.
      + intros c w Hcw. rewrite Hn'. rewrite <-Hn1 in Hcw.
        eapply same_shape_view; [apply recount_same_shape|done].
      + by rewrite Hcc, Hn1.
    - exists t1. split_and!; [done|apply frame_refl|done|by rewrite Hn1| |by rewrite Hn1].
      intros c w. by rewrite Hn1. }
  pose proof Hfr as [F1 F2 F3 F4 F5 F6].
  assert (Hw' : wm t' = <[child := ec]> (wm t)) by (unfold wm; rewrite F1; exact Hw1).
  destruct (new_ws_ok t t' child ec v) as (Hset' & Hmc & Hk'); try done.
  { by eapply frame_sound. } { congruence. } { congruence. } { congruence. }
  exists child, t', ec. rewrite (mthen_ok _ _ _ _ _ Ha). split_and!; try done.
  - destruct (oth_sets _ _ _ Hk' ws e v) as [? ?]; [by intros ->; rewrite He in Hc|done|done|]. by exists e.
  - intros i Hi0. apply (frame_roomy _ _ Hfr). split; [by rewrite Hnn1|done].
Qed.

(** ** Attaching to a path *)

Lemma prefix_len_spec t p v f full :
  sound t → shape (nm t) → view (nm t) p v →
  (∀ segs, walk (nm t) p v segs → length segs ≤ f) →
  prefix_len_loop f t p full = Some (full + length v).
Proof.
  intros Hs Hm [segs Hw] Hf. specialize (Hf segs Hw). revert f full Hf.
  induction Hw as [|n own p v segs Ho Hp Hw IH]; intros f full Hf.
  { destruct f; simpl; by rewrite Nat.add_0_r. }
  destruct f as [|f]; simpl in Hf; [lia|]. cbn [prefix_len_loop].
  rewrite (contribution_len_spec t Hs Hm _ _ Ho), (predecessor_spec t Hs _ _ Hp), (IH f) by lia.
  rewrite length_app. f_equal. lia.
Qed.

Lemma path_prefix_len_spec t n own p v local :
  sound t → shape (nm t) → contrib (nm t) n = Some own → pred (nm t) n = Some p →
  view (nm t) p v → path_prefix_len t n local = Some (length v + local + 1).
Proof.
  intros Hs Hm Ho Hp Hv. unfold path_prefix_len. rewrite (predecessor_spec t Hs _ _ Hp).
  rewrite (prefix_len_spec t p v (fuel t)); [f_equal; lia|done..|].
  intros segs Hw. rewrite fuel_size by done. destruct p as [q|]; [|inversion Hw; simpl; lia].
  destruct (sh_chain _ Hm q) as [l Hl]; [by eapply pred_live|].
  transitivity (length l); [|by eapply chain_length].
  eapply walk_length; [done..|]. intros n' Hn'. by simplify_eq.
Qed.

(** [attach] past its reads of the path. *)
Definition attach_rest (ws : WorkingSetId) (segs : list Segment) (end_ : nat)
    (e : WorkingSetEntry) : tm nat :=
  let held := mapped_len e in
  let refused := BadRange held end_ (mapped_len e) (page_len e) in
  if decide (end_ ≤ held) then merr refused
  else
    mine ⇐ (if decide (0 < held) then working_set_locations ws else mok []) ;;
    path ⇐ (if decide (0 < held) then
              mread (λ t, mapM (λ '(n, i), resolve_location t n i)
                                (take held (segments_pages segs)))
            else mok []) ;;
    if decide (mine ≠ path) then merr refused
    else
      terminal ⇐ boundary_terminal segs end_ ;;
      freed ⇐ move_terminal ws (Some terminal) ;;
      mguard (freed = []) ;;;
      update_entry ws (λ e', with_lens e' (page_len e `max` end_) end_) ;;;
      mok end_.

Lemma attach_steps t ws n own p v0 segs0 local :
  sound t → shape (nm t) →
  contrib (nm t) n = Some own → pred (nm t) n = Some p → walk (nm t) p v0 segs0 →
  local < length own →
  attach ws n local t = mthen (entry ws) (attach_rest ws
    (mkSegment n (Z.of_nat (length v0)) (length own) :: segs0) (length v0 + local + 1)) t.
Proof.
  intros Hs Hm Ho Hp Hw0 Hlt. unfold attach. unfold mthen at 1, mread at 1.
  rewrite (contribution_len_spec t Hs Hm _ _ Ho).
  unfold mguard. rewrite decide_True by done. unfold mthen at 1, mok at 1.
  unfold mthen at 1, mread at 1.
  rewrite (path_prefix_len_spec t n own p v0 local Hs Hm Ho Hp ltac:(by exists segs0)).
  replace (length v0 + local + 1 + length own - (local + 1)) with (length (v0 ++ own))
    by (rewrite length_app; lia).
  assert (walk (nm t) (Some n) (v0 ++ own) (mkSegment n (Z.of_nat (length v0)) (length own) :: segs0))
    as Hw by by econstructor.
  unfold mthen at 1, mread at 1. by rewrite (segments_spec t Hs Hm _ _ _ Hw).
Qed.

Lemma attach_unknown t ws n own local :
  settled t → wm t !! ws = None → contrib (nm t) n = Some own → local < length own →
  attach ws n local t = (Err UnknownWorkingSet, t).
Proof.
  intros [Hi Hg] He Ho Hlt. pose proof Hi as [Hs [Hm _ _ _] _ _].
  assert (is_Some (nm t !! n)) as Hn by (unfold contrib in Ho; by destruct (nm t !! n)).
  destruct (view_total _ Hm n Hn) as (v & segs & Hw). inversion Hw as [|? own' p v0 segs0 Ho' Hp Hw0]; subst.
  assert (own' = own) as -> by congruence.
  rewrite (attach_steps t ws n own p v0 segs0 local) by done.
  unfold mthen. by rewrite entry_spec, He.
Qed.

Lemma attach_ok t ws e v n own vn local k j :
  settled t → wm t !! ws = Some e → maps t e v →
  contrib (nm t) n = Some own → view (nm t) (Some n) vn → local < length own →
  room t (S k) j →
  let end_ := length vn - length own + local + 1 in
  if decide (mapped_len e < end_ ∧ v = take (mapped_len e) vn) then
    ∃ t', attach ws n local t = (Ok end_, t') ∧ settled t' ∧ mapped t' ws (take end_ vn) ∧
      others_kept t t' ws ∧ all_cells (nm t') ≡ₚ all_cells (nm t) ∧
      (∃ e', wm t' !! ws = Some e' ∧ page_len e' = page_len e `max` end_) ∧ room t' k j
  else attach ws n local t = (Err (BadRange (mapped_len e) end_ (mapped_len e) (page_len e)), t).
Proof.
  intros Hset He [Hv Hl] Ho Hvn Hlt Hroom end_. pose proof Hset as [Hi Hg].
  pose proof Hi as [Hs Hok Hh Hmp]. pose proof Hok as [Hm Hct Ha Ht].
  pose proof Hvn as [segs Hw]. inversion Hw as [|? own' p v0 segs0 Ho' Hp Hw0]; subst. simplify_eq.
  assert (Hend : end_ = length v0 + local + 1) by (unfold end_; rewrite length_app; lia).
  clearbody end_. subst end_.
  rewrite (attach_steps t ws n own p v0 segs0 local) by done.
  assert (Hentry : entry ws t = (Ok e, t)) by by rewrite entry_spec, He.
  rewrite (mthen_ok _ _ _ _ _ Hentry). unfold attach_rest.
  destruct (decide (length v0 + local + 1 ≤ mapped_len e)) as [Hge|Hlt2].
  { rewrite decide_False by (intros [? _]; lia). done. }
  assert (Hmine : (if decide (0 < mapped_len e) then working_set_locations ws else mok []) t
    = (Ok v.*1, t)).
  { case_decide; [by eapply working_set_locations_spec|].
    destruct v; [done|]. simpl in Hl. lia. }
  rewrite (mthen_ok _ _ _ _ _ Hmine).
  assert (Hpath : (if decide (0 < mapped_len e) then
      mread (λ t, mapM (λ '(n, i), resolve_location t n i) (take (mapped_len e) (segments_pages (
        mkSegment n (Z.of_nat (length v0)) (length own) :: segs0))))
      else mok [] : tm (list TriePageLocation)) t = (Ok (take (mapped_len e) (v0 ++ own)).*1, t)).
  { case_decide as Hz; [|by replace (mapped_len e) with 0 by lia].
    apply mread_ok, mapM_Some, Forall2_fmap_r, Forall2_take.
    eapply Forall2_impl; [by eapply segments_pages_spec|]. by intros [? ?] ? [? _]. }
  rewrite (mthen_ok _ _ _ _ _ Hpath).
  assert (Hiff : v.*1 = (take (mapped_len e) (v0 ++ own)).*1 ↔ v = take (mapped_len e) (v0 ++ own)).
  { split; [|by intros ->]. apply (cells_eq_locs (nm t)).
    - intros x Hx. by apply (view_cells _ (terminal e) v).
    - intros x (i & Hx & _)%elem_of_take. apply list_elem_of_lookup_2 in Hx.
      by apply (view_cells _ (Some n) (v0 ++ own)). }
  destruct (decide (v.*1 ≠ (take (mapped_len e) (v0 ++ own)).*1)) as [Hne|Heq].
  { rewrite decide_False by (intros [_ Hv']; by apply Hne, Hiff). done. }
  assert (Hveq : v = take (mapped_len e) (v0 ++ own)) by (apply Hiff; by apply dec_stable).
  rewrite decide_True by (split; [lia|done]).
  set (b := length v0 + local + 1) in *.
  assert (Hpn : 0 < path_of (nm t) n).
  { unfold contrib in Ho. unfold path_of. destruct (nm t !! n) as [en|] eqn:Hen; [|done]. simpl. eauto. }
  destruct (boundary_terminal_spec t (Some n) (v0 ++ own) _ b k Hs Hm Hct (proj1 Hroom) Hw)
    as (c & t1 & Hb & Hpx & Hr1 & Hv1 & Hanc); [rewrite length_app; unfold b; lia|].
  rewrite (mthen_ok _ _ _ _ _ Hb).
  pose proof (prefix_node_prefixed _ _ _ Hm Hpx) as Hpre.
  pose proof Hpre as [P1 P2 P3 P4 P5 P6 P7 P8 P9 P10].
  assert (Hs1 : sound t1) by auto. assert (Hok1 : trie_ok (locked t1) (nm t1) (anchors t1)).
  { rewrite P2. by apply P6. }
  assert (He1 : wm t1 !! ws = Some e) by by rewrite P1.
  destruct (move_terminal_spec t1 ws e (Some c) Hs1 Hok1 He1) as (freed & t2 & Hmv & Hmoved & Hnof & Hq).
  { intros ? [= <-]. by apply (Hanc n). }
  rewrite (mthen_ok _ _ _ _ _ Hmv).
  destruct (Hq (P9 Hg)) as [Hg2 Hq'].
  assert (freed = []) as ->.
  { destruct (terminal e) as [n'|] eqn:Hn'; [|auto].
    apply (Hq' n' v (take b (v0 ++ own))); [done..| |done|].
    - apply P7; [|done..]. intros ? [= <-]. by eapply terminal_path_pos.
    - intros x. rewrite Hveq. intros (i & Hx & Hlti)%elem_of_take.
      apply elem_of_take. exists i. split; [done|]. unfold b in *. lia. }
  unfold mguard. rewrite decide_True by done.
  change (mthen (mok tt) _ t2) with (mthen (update_entry ws (λ e', with_lens e' (page_len e `max` b) b))
    (λ _, mok b) t2).
  destruct (finish_move t1 t2 ws e (Some c) [] (take b (v0 ++ own)) (page_len e `max` b) b
    Hs1 (P3 Hh) Hmoved He1) as (t3 & Hu & Hi3 & He3 & Hm3 & Hn3 & Hk3 & Hr3); [|done| |].
  { intros ws' e0 Hne He0. rewrite P1 in He0. destruct (Hmp _ _ He0) as (w & Hw' & Hlw).
    exists w. split; [|done]. apply P7; [|done..]. intros k' Hk'. by eapply terminal_path_pos. }
  { rewrite length_take, length_app. unfold b. lia. }
  exists t3. rewrite (mthen_ok _ _ _ _ _ Hu). split_and!; [done| | | | | |].
  - split; [done|]. by rewrite Hn3.
  - eexists. split; [done|]. exact Hm3.
  - assert (Hha : hold_anchors t1 = hold_anchors t).
    { unfold anchors in P2. rewrite P1 in P2. by apply app_inv_head in P2. }
    destruct Hk3 as [K1 K2 K3]. split.
    + intros ws' e0 w Hne He0 [Hw' Hlw]. apply K1; [done|by rewrite P1|]. split; [|done].
      apply P7; [|done..]. intros k' Hk'. by eapply terminal_path_pos.
    + by rewrite K2.
    + intros q w Hq0 Hw'. apply K3; [by rewrite Hha|]. apply P7; [|done..]. intros ? [= <-].
      apply (an_live _ _ Ha). apply elem_of_app. by right.
  - rewrite Hn3, <-P8. destruct (ev_cells _ _ _ _ _ (mv_evolves _ _ _ _ _ _ Hmoved)) as (g & Hg' & -> & _).
    by destruct g.
  - eexists. split; [done|]. done.
  - apply Hr3, (keeps_roomy _ _ (mv_keeps _ _ _ _ _ _ Hmoved)). split; [done|]. rewrite P10. apply Hroom.
Qed.
End share.
End KvShare.
