(* ===== verification/KvHold.v ===== *)
(** The holds of the cache and of the passes in flight, and the residency moves:
    leases and pins that anchor a node while their count is positive, locations
    a move holds, and the backings a move writes. *)
From S2P Require Import Prelude Ids Store Runs KvTable KvOps KvMove KvTrie KvChange KvSpec KvInv.
From S2P Require Import KvRead KvState KvPath KvProps KvFree.

Module KvHold.
Import Runs KvTable KvOps KvMove KvTrie KvChange KvSpec KvInv KvRead KvState KvPath KvProps KvFree.

(** A location, the backing a move expects there, and the one it puts. *)
Abbreviation replacement := (TriePageLocation * KvPageBacking * KvPageBacking)%type.

(** The keys of a map of counts. *)
Lemma keys_insert_new (h : gmap NodeId N) n c :
  h !! n = None → (map_to_list (<[n := c]> h)).*1 ≡ₚ n :: (map_to_list h).*1.
Proof. intros Hn. by rewrite map_to_list_insert. Qed.

Lemma keys_insert_old (h : gmap NodeId N) n c c' :
  h !! n = Some c → (map_to_list (<[n := c']> h)).*1 ≡ₚ (map_to_list h).*1.
Proof.
  intros Hn. rewrite <-insert_delete_eq, map_to_list_insert by apply lookup_delete_eq.
  rewrite <-(insert_delete_id h n c) at 2 by done.
  by rewrite map_to_list_insert by apply lookup_delete_eq.
Qed.

Lemma keys_delete (h : gmap NodeId N) n c :
  h !! n = Some c → (map_to_list h).*1 ≡ₚ n :: (map_to_list (delete n h)).*1.
Proof.
  intros Hn. rewrite <-(insert_delete_id h n c) at 1 by done.
  by rewrite map_to_list_insert by apply lookup_delete_eq.
Qed.

(** ** New backings in place *)

(** One backing replaced, wherever a path names it. *)
Definition put_cell (l : TriePageLocation) (b : KvPageBacking) (c : cell) : cell :=
  if decide (c.1 = l) then (c.1, b) else c.

Lemma put_cell_cells l b n bs :
  put_cell l b <$> cells n bs =
  cells n (if decide (n = loc_node l) then <[loc_local l := b]> bs else bs).
Proof.
  apply list_eq. intros i. unfold cells. rewrite list_lookup_fmap, !list_lookup_imap.
  unfold put_cell. case_decide as Hn.
  - destruct (decide (i = loc_local l)) as [->|Hi].
    + destruct (decide (loc_local l < length bs)) as [Hlt|Hge].
      * rewrite list_lookup_insert_eq by done.
        destruct (lookup_lt_is_Some_2 bs _ Hlt) as [x ->]. simpl.
        rewrite decide_True by (destruct l; by simpl in *; subst). done.
      * by rewrite !lookup_ge_None_2 by (rewrite ?length_insert; lia).
    + rewrite list_lookup_insert_ne by done. destruct (bs !! i); simpl; [|done].
      rewrite decide_False; [done|]. intros Heq. apply Hi. by rewrite <-Heq.
  - destruct (bs !! i); simpl; [|done]. rewrite decide_False; [done|].
    intros Heq. apply Hn. by rewrite <-Heq.
Qed.

(** An owner whose pages keep their number. *)
Lemma repage_same_len_ok lock (m : trie) A n e b th ph b' th' ph' :
  trie_ok lock m A → m !! n = Some e → pages e = Owned b th ph →
  length b' = length b → length th' = length b → length ph' = length b →
  trie_ok lock (repage n (Owned b' th' ph') m) A.
Proof.
  intros [Hm Hct Ha Ht] Hn Hp Hb Hth Hph.
  pose proof (sh_pages _ Hm _ _ Hn) as Hok. unfold page_ok in Hok. rewrite Hp in Hok.
  split.
  - eapply repage_shape; [done..|lia|lia|lia|].
    intros c ec off Hc Hec Hpc. destruct (shape_child _ Hm _ _ _ Hn Hc) as (ec' & Hec' & Hpar).
    simplify_eq. destruct (shape_sel _ Hm _ _ _ Hec Hpc) as (o & eo & bo & ? & ? & off' & Ho & Heo & Hpo & Hr & ?).
    assert (eo = e) as -> by congruence. rewrite Hp in Hpo. simplify_eq. lia.
  - by apply repage_counts.
  - apply (anchored_same m); [| |done].
    + intros a _ [ea Hea]. rewrite repage_lookup, Hea. by eexists.
    + intros k e' (ek & Hek & ->)%repage_lookup_Some. exists ek. split; [done|]. by case_decide.
  - intros j. destruct (decide (j = n)) as [->|Hj]; [|by eapply repage_tidy].
    intros e' b0 th0 ph0 (e0 & He0 & ->)%repage_lookup_Some. rewrite decide_True by done.
    simplify_eq. simpl. intros [= <- <- <-] Hx Hz Hl Hall.
    assert (Hne : ∀ c ec, c ∈ children e → m !! c = Some ec → c ≠ n).
    { intros c ec Hc Hec ->. destruct (sh_chain _ Hm n ltac:(by eexists)) as [l Hlc].
      destruct (shape_child _ Hm _ _ _ Hn Hc) as (ec' & Hec' & Hpar).
      eapply (chain_bottom_child _ _ _ _ _ Hlc Hec' Hpar).
      destruct (chain_cons _ _ _ Hlc) as [? ->]. set_solver. }
    destruct (Ht n e b th ph) as (c & ec & Hc & Hec & Hpc); [done..| |].
    + intros c ec Hc Hec. apply (Hall c ec); [done|].
      rewrite repage_lookup, Hec. simpl. by rewrite decide_False by eauto.
    + exists c, ec. rewrite repage_lookup, Hec. simpl. rewrite decide_False by eauto.
      by rewrite Hb.
Qed.

Lemma put_cell_view (m : trie) n e b th ph i x c v :
  m !! n = Some e → pages e = Owned b th ph →
  view m c v → view (repage n (Owned (<[i := x]> b) th ph) m) c (put_cell (mkLoc n i) x <$> v).
Proof.
  intros Hn Hp [segs Hw]. set (m' := repage n _ m).
  exists segs. induction Hw as [|k own p v segs Ho Hpr Hw IH]; [constructor|].
  rewrite fmap_app. rewrite <-(length_fmap (put_cell (mkLoc n i) x) v).
  rewrite <-(length_fmap (put_cell (mkLoc n i) x) own).
  apply (walk_some m' k _ p); [| |done].
  - unfold contrib in *. unfold m'. rewrite repage_lookup.
    destruct (m !! k) as [ek|] eqn:Hek; [|done]. simpl. case_decide as Hkn.
    + subst k. simplify_eq. simpl. rewrite Hp in Ho. injection Ho as <-.
      rewrite put_cell_cells. simpl. by rewrite decide_True.
    + destruct (pages ek) as [bk thk phk|rs].
      * injection Ho as <-. rewrite put_cell_cells. simpl. by rewrite decide_False.
      * destruct (parent ek) as [o|]; [|done]. rewrite repage_lookup.
        destruct (m !! o) as [eo|] eqn:Heo; [|done]. simpl. injection Ho as <-.
        rewrite fmap_take, put_cell_cells. simpl. case_decide as Hon; [|done].
        subst o. simplify_eq. simpl. by rewrite Hp.
  - unfold pred in *. unfold m'. rewrite repage_lookup.
    destruct (m !! k) as [ek|] eqn:Hek; [|done]. simpl. case_decide as Hkn.
    + subst k. simplify_eq. simpl. by rewrite Hp in Hpr.
    + destruct (pages ek); [done|]. destruct (parent ek) as [o|]; [|done]. rewrite repage_lookup.
      destruct (m !! o); simpl in *; [|done]. by case_decide.
Qed.

Section hold.
Context {WS NS : Type → Type}.
Context `{!KeyedStore WorkingSetId WS, !KeyedStore NodeId NS}.
Context `{!KeyedStoreLaws WorkingSetId WS, !KeyedStoreLaws NodeId NS}.
Abbreviation table := (KvPageTable WS NS).
Abbreviation tm := (method table KvTableError).
Implicit Types t : table.

(** ** Leases and pins *)

(** The cache's map ([true]) or the pins' ([false]). *)
Definition holds_of (cache : bool) t : gmap NodeId N :=
  if cache then cache_roots t else pins t.
Definition set_holds (cache : bool) t (h : gmap NodeId N) : table :=
  if cache then set_cache_roots t h else set_pins t h.
Definition take_hold (cache : bool) (n : NodeId) : tm unit :=
  if cache then lease_cache_root n else pin n.
Definition drop_hold (cache : bool) (n : NodeId) : tm (list KvPageBacking) :=
  if cache then release_cache_root n else unpin n.

Lemma set_holds_facts cache t h :
  nm (set_holds cache t h) = nm t ∧ wm (set_holds cache t h) = wm t ∧
  (sound t → sound (set_holds cache t h)) ∧ (∀ j, locked (set_holds cache t h) j ↔ locked t j) ∧
  nodes (set_holds cache t h) = nodes t ∧ holds_of cache (set_holds cache t h) = h.
Proof. by destruct cache. Qed.

Lemma set_holds_anchors cache t h :
  ∃ A, anchors t ≡ₚ (map_to_list (holds_of cache t)).*1 ++ A ∧
    anchors (set_holds cache t h) ≡ₚ (map_to_list h).*1 ++ A.
Proof.
  destruct cache; unfold anchors, hold_anchors; simpl.
  - exists (ws_anchors (wm t) ++ (map_to_list (pins t)).*1). split; apply Permutation_app_swap_app.
  - exists (ws_anchors (wm t) ++ (map_to_list (cache_roots t)).*1).
    split; rewrite app_assoc; apply Permutation_app_comm.
Qed.

Lemma set_holds_ok cache t h :
  holds_ok t → (∀ n c, h !! n = Some c → (0 < c)%N) → holds_ok (set_holds cache t h).
Proof. intros [H1 H2] Hh. by destruct cache; split. Qed.

Lemma set_holds_trie cache t h A :
  trie_ok (locked t) (nm t) A → trie_ok (locked (set_holds cache t h)) (nm (set_holds cache t h)) A.
Proof.
  destruct (set_holds_facts cache t h) as (-> & _ & _ & Hl & _).
  intros [? ? ? Ht]. split; [done..|]. intros j. eapply tidy_lock; [|apply Ht]. intros k. by apply Hl.
Qed.

Lemma set_holds_roomy cache t h : roomy t (set_holds cache t h).
Proof. intros i j [? ?]. by destruct cache. Qed.

(** Everything mapped stays mapped. *)
Definition all_kept t t' : Prop := wm t' = wm t ∧ ∀ ws v, mapped t ws v → mapped t' ws v.

Lemma all_kept_trans t1 t2 t3 : all_kept t1 t2 → all_kept t2 t3 → all_kept t1 t3.
Proof. intros [A1 A2] [B1 B2]. split; [congruence|auto]. Qed.

Lemma set_holds_kept cache t h : all_kept t (set_holds cache t h).
Proof. by destruct cache. Qed.

Lemma all_kept_frame t t' :
  wm t' = wm t → (∀ ws e v, wm t !! ws = Some e → maps t e v → maps t' e v) → all_kept t t'.
Proof.
  intros Hw Hk. split; [done|]. intros ws v (e & He & Hv). exists e. rewrite Hw. eauto.
Qed.

(** A node made for a hold is anchored by it. *)
Lemma take_hold_ok cache t n :
  inv t → garbage_above (nm t) n → holdable (nm t) n →
  ∃ t', take_hold cache n t = (Ok tt, t') ∧ settled t' ∧ all_kept t t' ∧
    all_cells (nm t') = all_cells (nm t) ∧
    holds_of cache t' = <[n := (default 0 (holds_of cache t !! n) + 1)%N]> (holds_of cache t) ∧
    roomy t t' ∧ (∀ c v, view (nm t) c v → view (nm t') c v) ∧
    holds_of (negb cache) t' = holds_of (negb cache) t.
Proof.
  intros Hi Hg Hanc. pose proof Hi as [Hs Hok Hh Hmp].
  set (h := <[n := (default 0 (holds_of cache t !! n) + 1)%N]> (holds_of cache t)).
  set (t1 := set_holds cache t h).
  assert (Hstep : take_hold cache n t =
    (if bool_decide (default 0 (holds_of cache t !! n) + 1 = 1)%N then add_anchor n else mok tt) t1).
  { by destruct cache. }
  destruct (set_holds_facts cache t h) as (Hn1 & Hw1 & Hs1 & Hl1 & Hnn & Hh1). fold t1 in Hn1, Hw1, Hs1, Hl1, Hnn, Hh1.
  destruct (set_holds_anchors cache t h) as (A & HA & HA1). fold t1 in HA1.
  assert (Hpos : ∀ k c, holds_of cache t !! k = Some c → (0 < c)%N).
  { destruct Hh as [H1 H2]. by destruct cache. }
  assert (Hho1 : holds_ok t1).
  { apply set_holds_ok; [done|]. intros k c [[<- <-]|[_ Hk]]%lookup_insert_Some; [lia|by eapply Hpos]. }
  pose proof (set_holds_trie cache t h _ Hok) as Hok1. fold t1 in Hok1.
  rewrite Hstep. destruct (holds_of cache t !! n) as [c|] eqn:Hc; simpl.
  - specialize (Hpos _ _ Hc). rewrite bool_decide_eq_false_2 by lia.
    assert (HA' : anchors t1 ≡ₚ anchors t).
    { rewrite HA, HA1. unfold h. by rewrite (keys_insert_old _ _ _ _ Hc). }
    exists t1. split_and!; [done| |apply set_holds_kept|by rewrite Hn1|by rewrite Hh1|by apply set_holds_roomy|by rewrite Hn1|by destruct cache].
    split.
    + split; [by apply Hs1|by eapply trie_ok_Permutation|done|].
      intros ws e He. rewrite Hw1 in He. destruct (Hmp _ _ He) as (v & Hv & Hl). exists v.
      split; [by rewrite Hn1|done].
    + rewrite Hn1. intros k e He. destruct (decide (path_anchors e = 0)) as [Hz|]; [|lia].
      destruct (Hg _ _ He Hz) as (l & Hl & Hk).
      assert (n ∈ anchors t) as Hin.
      { rewrite HA. apply elem_of_app. left. apply list_elem_of_fmap. exists (n, c).
        by rewrite elem_of_map_to_list. }
      destruct (an_live _ _ (ok_anchored _ _ _ Hok) _ Hin) as [en Hen].
      destruct (anchored_path _ _ _ _ (ok_counts _ _ _ Hok) (ok_anchored _ _ _ Hok) Hin Hen) as [_ Hp].
      pose proof (path_of_chain _ _ _ k (ok_shape _ _ _ Hok) (ok_counts _ _ _ Hok) Hl Hk) as Hle.
      unfold path_of in Hle. rewrite He, Hen in Hle. simpl in Hle. lia.
  - assert (HA' : anchors t1 ≡ₚ n :: anchors t).
    { rewrite HA, HA1. unfold h. by rewrite (keys_insert_new _ _ _ Hc). }
    destruct (add_anchor_ok t1 n (anchors t) (Hs1 Hs) Hok1) as (t' & Ha & Hfr & Hok' & Hev & Hcc & Hgg).
    { by rewrite Hn1. }
    assert (Hkeep : ∀ ws e v, wm t1 !! ws = Some e → maps t1 e v → maps t' e v).
    { intros ws e v He [Hv Hl]. split; [|done].
      apply (ev_view _ _ _ _ _ (Hev (option_list (terminal e)))); [|done].
      intros k ->. set_solver. }
    assert (Hk1 : all_kept t1 t') by (apply all_kept_frame; [by apply frame_wm|done]).
    pose proof Hfr as [F1 F2 F3 F4 F5 F6].
    exists t'. split_and!; [done| | | | | | |].
    7: { unfold holds_of. rewrite F2, F3. by destruct cache. }
    6: { intros c0 v0 Hv0. rewrite <-Hn1 in Hv0.
         apply (ev_view _ _ _ _ _ (Hev (option_list c0))); [|done]. intros k ->. set_solver. }
    + split.
      * split; [by eapply frame_sound; [|apply Hs1]| | |].
        -- eapply trie_ok_Permutation; [|exact Hok']. rewrite <-HA'. unfold anchors, hold_anchors, wm.
           by rewrite F1, F2, F3.
        -- eapply keeps_holds; [by apply frame_keeps|done].
        -- intros ws e He. rewrite (frame_wm _ _ Hfr) in He. rewrite Hw1 in He.
           destruct (Hmp _ _ He) as (v & Hv & Hl). exists v. apply (Hkeep ws); [by rewrite Hw1|].
           split; [by rewrite Hn1|done].
      * apply Hgg. by rewrite Hn1.
    + destruct Hk1 as [Hw' Hk1]. split; [by rewrite Hw'|]. intros ws v Hv. apply Hk1.
      by apply set_holds_kept.
    + by rewrite Hcc, Hn1.
    + unfold holds_of. rewrite F2, F3. exact Hh1.
    + apply (roomy_trans _ t1); [by apply set_holds_roomy|by apply frame_roomy].
Qed.

(** What dropping a hold frees, and what stays: a count above one goes down; the
    last hold takes its anchor along. *)
Lemma drop_hold_ok cache t n :
  settled t →
  ∃ t' gone, drop_hold cache n t = (Ok gone.*2, t') ∧ settled t' ∧ all_kept t t' ∧
    frees_unread (locked t) (anchors t') (nm t) gone (nm t') ∧
    holds_of cache t' = (let_go (holds_of cache t) n).2 ∧ roomy t t' ∧
    holds_of (negb cache) t' = holds_of (negb cache) t ∧
    (∀ k v, k ∈ hold_anchors t' → view (nm t) (Some k) v → view (nm t') (Some k) v).
Proof.
  intros Hset. pose proof Hset as [Hi Hg]. pose proof Hi as [Hs Hok Hh Hmp].
  set (r := let_go (holds_of cache t) n). set (t1 := set_holds cache t r.2).
  assert (Hstep : drop_hold cache n t = (if r.1 then remove_anchor n else mok []) t1).
  { destruct cache; unfold drop_hold, release_cache_root, unpin, r, t1; simpl;
      unfold mthen, mget, mmodify; simpl; by destruct (let_go _ n). }
  destruct (set_holds_facts cache t r.2) as (Hn1 & Hw1 & Hs1 & Hl1 & Hnn & Hh1).
  fold t1 in Hn1, Hw1, Hs1, Hl1, Hnn, Hh1.
  destruct (set_holds_anchors cache t r.2) as (A & HA & HA1). fold t1 in HA1.
  assert (Hpos : ∀ k c, holds_of cache t !! k = Some c → (0 < c)%N).
  { destruct Hh as [H1 H2]. by destruct cache. }
  assert (Hmp1 : ∀ ws e, wm t1 !! ws = Some e → ∃ v, maps t1 e v).
  { intros ws e He. rewrite Hw1 in He. destruct (Hmp _ _ He) as (v & Hv & Hl). exists v.
    split; [by rewrite Hn1|done]. }
  assert (Hk1 : all_kept t t1) by apply set_holds_kept.
  assert (Hsame : r.1 = false → anchors t1 ≡ₚ anchors t → holds_ok t1 →
    ∃ t' gone, drop_hold cache n t = (Ok gone.*2, t') ∧ settled t' ∧ all_kept t t' ∧
      frees_unread (locked t) (anchors t') (nm t) gone (nm t') ∧ holds_of cache t' = r.2 ∧ roomy t t' ∧
      holds_of (negb cache) t' = holds_of (negb cache) t ∧
      (∀ k v, k ∈ hold_anchors t' → view (nm t) (Some k) v → view (nm t') (Some k) v)).
  { intros Hr HAA Hho1. exists t1, []. rewrite Hstep, Hr. split_and!; [done| |done| |done|by apply set_holds_roomy|by destruct cache|by rewrite Hn1].
    - split; [|by rewrite Hn1]. split; [by apply Hs1| |done|done].
      eapply trie_ok_Permutation; [symmetry; exact HAA|]. by apply set_holds_trie.
    - rewrite Hn1. split; [done|by intros c ?%not_elem_of_nil|]. intros [l x] Hc Hl Hnr.
      exfalso. apply Hnr. apply elem_of_all_cells in Hc as (en & Hen & Hx).
      destruct (pages en) as [b th ph|] eqn:Hp; simpl in Hx; [|by rewrite lookup_nil in Hx].
      destruct Hok as [Hm Hct Ha Ht].
      eapply (tidy_read (locked t) (nm t) (anchors t1)); [done..| |done|done|done|done|done|].
      + by eapply anchored_Permutation.
      + by apply elem_of_cells. }
  assert (Hr : r = let_go (holds_of cache t) n) by done. clearbody r. unfold let_go in Hr.
  destruct (holds_of cache t !! n) as [c|] eqn:Hc.
  - case_decide as Hc1; subst r; simpl in *.
    + apply Hsame; [done| |].
      * rewrite HA, HA1. simpl. by rewrite (keys_insert_old _ _ _ _ Hc).
      * apply set_holds_ok; [done|]. simpl. intros k c' [[<- <-]|[_ Hk]]%lookup_insert_Some; [lia|by eapply Hpos].
    + destruct (remove_anchor_ok t t1 n Hset Hn1 Hl1 (Hs1 Hs))
        as (freed & t' & Hra & Hset' & Hfr & Hkeep & Hkv & g & -> & Hfu); [| |done|].
      { rewrite HA, HA1. simpl. by rewrite (keys_delete _ _ _ Hc). }
      { apply set_holds_ok; [done|]. simpl. intros k c' [_ Hk]%lookup_delete_Some. by eapply Hpos. }
      pose proof Hfr as [F1 F2 F3 F4 F5 F6].
      exists t', g. rewrite Hstep. split_and!; [done..| |done| | | |].
      4: { unfold holds_of. rewrite F2, F3. by destruct cache. }
      4: { intros k v Hk Hv. apply Hkv; [|by rewrite Hn1]. revert Hk. unfold hold_anchors. by rewrite F2, F3. }
      * destruct Hk1 as [_ Hk1]. split; [by rewrite (frame_wm _ _ Hfr)|]. intros ws v Hv.
        destruct (Hk1 _ _ Hv) as (e & He & Hev). exists e. rewrite (frame_wm _ _ Hfr). eauto.
      * unfold holds_of. rewrite F2, F3. exact Hh1.
      * apply (roomy_trans _ t1); [by apply set_holds_roomy|by apply frame_roomy].
  - subst r. simpl in *. apply Hsame; [done| |].
    + by rewrite HA, HA1.
    + apply set_holds_ok; [done|]. exact Hpos.
Qed.

(** ** Residency moves *)

Lemma set_swap_settled t s :
  (∀ j, locked t j → locked (set_swap_locations t s) j) → settled t →
  settled (set_swap_locations t s) ∧ all_kept t (set_swap_locations t s).
Proof.
  intros Hl [[Hs [Hm Hct Ha Ht] Hh Hmp] Hg]. split; [|done]. split; [|done].
  split; [done| |done|done]. split; [done..|]. intros n. eapply tidy_lock; [exact Hl|apply Ht].
Qed.

(** [pin_swap_locations] marks what a move takes; a page in two moves is what a
    debug build panics on. *)
Lemma pin_swap_ok ls : ∀ t,
  settled t → NoDup ls → (∀ l, l ∈ ls → l ∉ swap_locations t) →
  ∃ t', pin_swap_locations ls t = (Ok tt, t') ∧ settled t' ∧ all_kept t t' ∧ nm t' = nm t ∧
    swap_locations t' = swap_locations t ∪ list_to_set ls ∧ roomy t t'.
Proof.
  induction ls as [|l ls IH]; intros t Hset Hnd Hnot.
  { exists t. split_and!; [done..| |apply roomy_refl]. set_solver. }
  apply NoDup_cons in Hnd as [Hl Hnd].
  set (t1 := set_swap_locations t ({[l]} ∪ swap_locations t)).
  destruct (set_swap_settled t ({[l]} ∪ swap_locations t)) as [Hset1 Hk1]; [|done|].
  { intros j (l' & Hl' & Hj). exists l'. simpl. set_solver. }
  destruct (IH t1 Hset1 Hnd) as (t' & Hp & Hset' & Hk' & Hn' & Hs' & Hroom').
  { intros l' Hl'. simpl. specialize (Hnot l'). set_solver. }
  exists t'. split_and!; [|done| | | |exact Hroom'].
  - unfold pin_swap_locations. cbn [mfor]. unfold mthen at 1 2 3, mget, mmodify at 1, mguard.
    rewrite decide_True by (apply Hnot; set_solver). exact Hp.
  - destruct Hk1 as [Hw1 Hk1], Hk' as [Hw' Hk']. split; [by rewrite Hw', <-Hw1|]. auto.
  - by rewrite Hn'.
  - rewrite Hs'. simpl. set_solver.
Qed.

Lemma unpin_swap_loop_spec ls : ∀ t owners,
  ∃ owners', unpin_swap_loop ls owners t =
      (Ok owners', set_swap_locations t (swap_locations t ∖ list_to_set ls)) ∧
    ∀ n, n ∈ owners' ↔ n ∈ owners ∨ ∃ l, l ∈ ls ∧ l ∈ swap_locations t ∧ loc_node l = n.
Proof.
  induction ls as [|l ls IH]; intros t owners.
  { exists owners. simpl. split.
    - unfold mok. f_equal. destruct t; unfold set_swap_locations; simpl. f_equal. set_solver.
    - intros n. split; [by left|]. intros [?|(l & ?%not_elem_of_nil & _)]; done. }
  set (t1 := set_swap_locations t (swap_locations t ∖ {[l]})).
  destruct (IH t1 (if decide (l ∈ swap_locations t) then {[loc_node l]} ∪ owners else owners))
    as (owners' & Hu & Ho).
  exists owners'. split.
  - cbn [unpin_swap_loop]. unfold mthen, mget, mmodify. fold t1. rewrite Hu. f_equal.
    unfold t1, set_swap_locations; simpl. f_equal. set_solver.
  - intros n. rewrite Ho. unfold t1; simpl. split.
    + intros [Hn|(l' & Hl' & Hs' & Hn)]; [|right; exists l'; set_solver].
      case_decide; [|by left]. apply elem_of_union in Hn as [->%elem_of_singleton|?]; [|by left].
      right. exists l. set_solver.
    + intros [Hn|(l' & [->|Hl']%elem_of_cons & Hs' & Hn)].
      * left. case_decide; set_solver.
      * left. rewrite decide_True by done. set_solver.
      * destruct (decide (l' = l)) as [->|]; [left; rewrite decide_True by done; set_solver|].
        right. exists l'. set_solver.
Qed.

(** A move that ends gives back what compaction left for it. *)
Lemma unpin_swap_ok t ls :
  settled t →
  ∃ t' gone, unpin_swap_locations ls t = (Ok gone.*2, t') ∧ settled t' ∧ all_kept t t' ∧
    swap_locations t' = swap_locations t ∖ list_to_set ls ∧ roomy t t' ∧
    frees_unread (locked t') (anchors t) (nm t) gone (nm t') ∧
    cache_roots t' = cache_roots t ∧ pins t' = pins t ∧
    (∀ k v, k ∈ hold_anchors t → view (nm t) (Some k) v → view (nm t') (Some k) v).
Proof.
  intros [Hi Hg]. pose proof Hi as [Hs Hok Hh Hmp].
  destruct (unpin_swap_loop_spec ls t ∅) as (owners & Hu & Ho).
  set (t1 := set_swap_locations t (swap_locations t ∖ list_to_set ls)) in *.
  assert (Hl1 : ∀ j, locked t1 j → locked t j).
  { intros j (l & Hl & Hj). exists l. simpl in Hl. set_solver. }
  assert (Ht1 : ∀ j, tidy (locked t1) (nm t1) j ∨ j ∈ elements owners).
  { intros j. destruct (decide (j ∈ owners)) as [Hj|Hj]; [right; by apply elem_of_elements|left].
    intros e b th ph He Hp Hx Hz Hnl. apply (ok_tidy _ _ _ Hok j e b th ph); [done..|].
    intros (l & Hl & Hlj). apply Hnl. exists l. split; [|done]. simpl.
    apply elem_of_difference. split; [done|]. intros Hin%elem_of_list_to_set.
    apply Hj, Ho. right. by exists l. }
  destruct Hok as [Hm Hct Ha Ht].
  destruct (compact_path (elements owners) (anchors t) t1)
    as (freed & t' & Hc & Hfr & Hm' & Hct' & Ha' & Hev & Htidy); [done..|].
  assert (HA' : anchors t' = anchors t).
  { pose proof Hfr as [F1 F2 F3 _ _ _]. unfold anchors, hold_anchors, wm. by rewrite F1, F2, F3. }
  assert (Hok' : trie_ok (locked t') (nm t') (anchors t)).
  { split; [done..|]. intros j. apply Htidy. apply Ht1. }
  assert (Hg' : no_garbage (nm t')) by by eapply no_garbage_evolves; [|exact Hev].
  assert (Hkeep : ∀ ws e v, wm t !! ws = Some e → maps t e v → maps t' e v).
  { intros ws e v He [Hv Hl]. split; [|done]. apply (ev_view _ _ _ _ _ Hev); [|done].
    intros k Hk. by eapply anchor_of_ws. }
  destruct (evolves_frees (locked t1) (locked t') (anchors t) (nm t1) freed (nm t'))
    as (gone & -> & [F1 F2 F3]); [by intros; apply (anchors_live t)|done| |done..|].
  { intros j. by apply (frame_locked t1 t'). }
  pose proof (frame_wm _ _ Hfr) as Hw'. change (wm t1) with (wm t) in Hw'.
  exists t', gone. split_and!.
  - unfold unpin_swap_locations. rewrite (mthen_ok _ _ _ _ _ Hu). exact Hc.
  - split; [|done]. split.
    + by eapply frame_sound.
    + by rewrite HA'.
    + eapply keeps_holds; [by apply frame_keeps|done].
    + intros ws e He. rewrite Hw' in He. destruct (Hmp _ _ He) as [v Hv]. eauto.
  - by apply all_kept_frame.
  - apply Hfr.
  - by apply (frame_roomy t1).
  - split; [done..|]. intros c Hcc Hlc. apply F3; [done|]. intros Hl. apply Hlc.
    by apply (frame_locked t1 t').
  - apply Hfr.
  - apply Hfr.
  - intros k v Hk. apply (ev_view _ _ _ _ _ Hev). intros ? [= <-]. apply elem_of_app. by right.
Qed.

(** ** A residency transaction *)

(** What the replacements make of a page. *)
Definition put_cells (rs : list replacement) (c : cell) : cell :=
  foldl (λ c r, put_cell r.1.1 r.2 c) c rs.

Lemma put_entry_nodes_settled t n e b th ph b' th' ph' :
  settled t → nm t !! n = Some e → pages e = Owned b th ph →
  length b' = length b → length th' = length b → length ph' = length b →
  ∀ f : cell → cell, (∀ c v, view (nm t) c v →
    view (repage n (Owned b' th' ph') (nm t)) c (f <$> v)) →
  let t' := put_node t n (with_pages e (Owned b' th' ph')) in
  settled t' ∧ frame t t' ∧ nm t' = repage n (Owned b' th' ph') (nm t) ∧
  (∀ ws v, mapped t ws v → mapped t' ws (f <$> v)).
Proof.
  intros [Hi Hg] He Hp Hb Hth Hph f Hf t'. pose proof Hi as [Hs Hok Hh Hmp].
  destruct (put_node_spec t n (with_pages e (Owned b' th' ph')) Hs ltac:(by eexists)) as [Hnm Hfr].
  fold t' in Hnm, Hfr. rewrite <-repage_insert in Hnm by done.
  assert (Hmaps : ∀ e0 v, maps t e0 v → maps t' e0 (f <$> v)).
  { intros e0 v [Hv Hl]. split; [rewrite Hnm; by apply Hf|by rewrite length_fmap]. }
  split_and!; [|done|done|].
  - split.
    + split.
      * by eapply frame_sound.
      * assert (anchors t' = anchors t) as ->.
        { pose proof Hfr as [F1 F2 F3 _ _ _]. unfold anchors, hold_anchors, wm. by rewrite F1, F2, F3. }
        apply (keeps_trie_ok t); [by apply frame_keeps|]. rewrite Hnm. by eapply repage_same_len_ok.
      * eapply keeps_holds; [by apply frame_keeps|done].
      * intros ws e0 He0. rewrite (frame_wm _ _ Hfr) in He0. destruct (Hmp _ _ He0) as [v Hv]. eauto.
    + rewrite Hnm. intros k ek (e0 & He0 & ->)%repage_lookup_Some. specialize (Hg _ _ He0). by case_decide.
  - intros ws v (e0 & He0 & Hv). exists e0. rewrite (frame_wm _ _ Hfr). auto.
Qed.

Lemma backing_at_spec t l x :
  sound t → backing_at t l = Ok x ↔ ∃ e b th ph, nm t !! loc_node l = Some e ∧
    pages e = Owned b th ph ∧ b !! loc_local l = Some x.
Proof.
  intros Hs. unfold backing_at. rewrite node_nm by done. split.
  - destruct (nm t !! loc_node l) as [e|]; [|done]. destruct (pages e) as [b th ph|] eqn:Hp; [|done].
    destruct (b !! loc_local l) eqn:Hx; [|done]. intros [= ->]. by exists e, b, th, ph.
  - intros (e & b & th & ph & -> & -> & ->). done.
Qed.

Lemma backing_at_err t l : (∃ x, backing_at t l = Ok x) ∨ backing_at t l = Err BackingChanged.
Proof.
  unfold backing_at. destruct (node t (loc_node l)) as [e|]; [|by right].
  destruct (pages e) as [b| ]; [|by right]. destruct (b !! loc_local l); [left; eauto|by right].
Qed.

(** The first loop: all as expected, or nothing is written. *)
Lemma expected_spec t rs :
  mfor rs (λ r, b ⇐ (λ t, (backing_at t r.1.1, t)) ;;
    if decide (b ≠ r.1.2) then merr BackingChanged else mok tt : tm unit) t =
  (if decide (Forall (λ r : replacement, backing_at t r.1.1 = Ok r.1.2) rs) then Ok tt
   else Err BackingChanged, t).
Proof.
  induction rs as [|r rs IH]; [done|]. cbn [mfor]. unfold mthen at 1 2.
  destruct (backing_at_err t r.1.1) as [[x Hx]|Hx]; rewrite Hx.
  - destruct (decide (x ≠ r.1.2)) as [Hne|Heq].
    + rewrite decide_False; [done|]. intros [H _]%Forall_cons. congruence.
    + apply dec_stable in Heq as ->. unfold mok at 1. rewrite IH.
      destruct (decide (Forall _ rs)) as [Hf|Hf].
      * by rewrite decide_True by by constructor.
      * rewrite decide_False; [done|]. by intros [_ ?]%Forall_cons.
  - rewrite decide_False; [done|]. intros [H _]%Forall_cons. congruence.
Qed.

(** What one replacement rewrites: the cell, and no other. *)
Record rewrites t t' (f : cell → cell) : Prop := {
  rw_settled : settled t';
  rw_frame : frame t t';
  rw_view c v : view (nm t) c v → view (nm t') c (f <$> v);
}.

Lemma cells_swap_at n b i x y :
  b !! i = Some x →
  (mkLoc n i, y) :: cells n b ≡ₚ (mkLoc n i, x) :: cells n (<[i := y]> b).
Proof.
  intros Hx. pose proof (lookup_lt_Some _ _ _ Hx) as Hlt.
  assert (Hi : length (take i b) = i) by (rewrite length_take; lia).
  rewrite (insert_take_drop b i y Hlt). rewrite <-(take_drop_middle b i x Hx) at 1.
  unfold cells. rewrite !imap_app. simpl. rewrite Hi, Nat.add_0_r. solve_perm.
Qed.

Lemma replace_backing_ok t l x b :
  settled t → backing_at t l = Ok x →
  ∃ t', replace_backing l b t = (Ok tt, t') ∧ settled t' ∧ wm t' = wm t ∧
    (∀ ws v, mapped t ws v → mapped t' ws (put_cell l b <$> v)) ∧
    (∀ l' y, backing_at t l' = Ok y → ∃ y', backing_at t' l' = Ok y') ∧ roomy t t' ∧
    rewrites t t' (put_cell l b) ∧ (l, b) :: all_cells (nm t) ≡ₚ (l, x) :: all_cells (nm t') ∧
    (∀ l', l' ≠ l → backing_at t' l' = backing_at t l').
Proof.
  intros Hset Hx. pose proof Hset as [Hi Hg]. pose proof (inv_sound _ Hi) as Hs.
  apply backing_at_spec in Hx as (e & bs & th & ph & He & Hp & Hx); [|done].
  pose proof (lookup_lt_Some _ _ _ Hx) as Hlt.
  pose proof (sh_pages _ (ok_shape _ _ _ (inv_trie _ Hi)) _ _ He) as Hok.
  unfold page_ok in Hok. rewrite Hp in Hok.
  destruct (put_entry_nodes_settled t (loc_node l) e bs th ph (<[loc_local l := b]> bs) th ph
    Hset He Hp) with (f := put_cell l b) as (Hset' & Hfr & Hn & Hmap); [by rewrite length_insert|lia|lia| |].
  { intros c v Hv. destruct l as [n i]. by apply (put_cell_view (nm t) n e bs th ph). }
  pose proof (frame_sound _ _ Hfr Hs) as Hs'.
  eexists. split_and!; [|exact Hset'|by apply frame_wm|exact Hmap| |by apply frame_roomy| | |].
  3: { split; [done..|]. intros c v Hv. rewrite Hn. destruct l as [n i]. by apply (put_cell_view (nm t) n e bs th ph). }
  3: { rewrite Hn. apply (repage_cells (loc_node l) (nm t) e bs th ph _ _ _ [(l, b)] [(l, x)]); [done..|].
       destruct l as [n i]. by apply cells_swap_at. }
  3: { intros l' Hne. unfold backing_at. rewrite !node_nm by done. rewrite Hn, repage_lookup.
       destruct (decide (loc_node l' = loc_node l)) as [Heq|]; [|by destruct (nm t !! loc_node l')].
       rewrite Heq, He. simpl. rewrite Hp.
       rewrite list_lookup_insert_ne; [done|]. intros Hl. apply Hne. destruct l, l'; simpl in *; congruence. }
  - unfold replace_backing. unfold mthen, mget. rewrite node_nm, He, Hp by done.
    by rewrite decide_True.
  - intros l' y (e' & b' & th' & ph' & He' & Hp' & Hy)%backing_at_spec; [|done].
    destruct (decide (loc_node l' = loc_node l)) as [Heq|Hne].
    + rewrite Heq in He'. simplify_eq.
      destruct (lookup_lt_is_Some_2 (<[loc_local l := b]> bs) (loc_local l')) as [y' Hy'].
      { rewrite length_insert. rewrite Hp in Hp'. simplify_eq. by eapply lookup_lt_Some. }
      exists y'. apply backing_at_spec; [by eapply frame_sound|].
      eexists _, _, _, _. rewrite Hn, repage_lookup, Heq, He. simpl. by rewrite decide_True.
    + exists y. apply backing_at_spec; [by eapply frame_sound|].
      exists e', b', th', ph'. rewrite Hn, repage_lookup, He'. simpl. by rewrite decide_False.
Qed.

Lemma replace_all_ok rs : ∀ t,
  settled t → (∀ r, r ∈ rs → ∃ y, backing_at t (r : replacement).1.1 = Ok y) →
  ∃ t', mfor rs (λ r, replace_backing r.1.1 r.2) t = (Ok tt, t') ∧ settled t' ∧ wm t' = wm t ∧
    (∀ ws v, mapped t ws v → mapped t' ws (put_cells rs <$> v)) ∧ roomy t t'.
Proof.
  induction rs as [|r rs IH]; intros t Hset Hrs.
  { exists t. split_and!; [done..| |apply roomy_refl]. intros ws v Hv. unfold put_cells; simpl. by rewrite list_fmap_id. }
  destruct (Hrs r ltac:(set_solver)) as [y Hy].
  destruct (replace_backing_ok t r.1.1 y r.2 Hset Hy) as (t1 & Hr & Hset1 & Hw1 & Hm1 & Hb1 & Hro1 & _).
  destruct (IH t1 Hset1) as (t' & Hf & Hset' & Hw' & Hm' & Hro').
  { intros r' Hr'. destruct (Hrs r' ltac:(set_solver)) as [y' Hy']. eauto. }
  exists t'. split_and!; [by rewrite <-Hf; cbn [mfor]; rewrite (mthen_ok _ _ _ _ _ Hr)|done|congruence| |by eapply roomy_trans].
  intros ws v Hv. specialize (Hm' _ _ (Hm1 _ _ Hv)). rewrite <-list_fmap_compose in Hm'. exact Hm'.
Qed.

Lemma rewrites_trans t1 t2 t3 f g : rewrites t1 t2 f → rewrites t2 t3 g → rewrites t1 t3 (g ∘ f).
Proof.
  intros [A1 A2 A3] [B1 B2 B3]. split; [done|by eapply frame_trans|].
  intros c v Hv. rewrite list_fmap_compose. auto.
Qed.

(** Where no page is named twice, what the cells hold changes hands. *)
Lemma replace_all_cells rs : ∀ t,
  settled t → NoDup (rs.*1.*1 : list TriePageLocation) →
  Forall (λ r : replacement, backing_at t r.1.1 = Ok r.1.2) rs →
  ∃ t', mfor rs (λ r, replace_backing r.1.1 r.2) t = (Ok tt, t') ∧
    rewrites t t' (put_cells rs) ∧ rs.*2 ++ held (nm t) ≡ₚ rs.*1.*2 ++ held (nm t').
Proof.
  induction rs as [|[[l x] b] rs IH]; intros t Hset Hnd Hrs.
  { exists t. split_and!; [done| |done]. split; [done|apply frame_refl|].
    intros c v. unfold put_cells; simpl. by rewrite list_fmap_id. }
  apply NoDup_cons in Hnd as [Hl Hnd]. apply Forall_cons in Hrs as [Hx Hrs]. simpl in Hx.
  destruct (replace_backing_ok t l x b Hset Hx) as (t1 & Hr & _ & _ & _ & _ & _ & Hrw & Hc & Hb).
  destruct (IH t1) as (t' & Hf & Hrw' & Hc'); [apply Hrw|done| |].
  { rewrite Forall_forall in Hrs |- *. intros r Hin. rewrite Hb; [by apply Hrs|].
    assert (r.1.1 ∈ rs.*1.*1) as Hr1 by by do 2 apply list_elem_of_fmap_2.
    intros Heq. apply Hl. rewrite <-Heq. exact Hr1. }
  exists t'. split_and!.
  - cbn [mfor]. simpl. by rewrite (mthen_ok _ _ _ _ _ Hr).
  - exact (rewrites_trans _ _ _ _ _ Hrw Hrw').
  - apply (Permutation_map snd) in Hc. simpl. change (b :: held (nm t) ≡ₚ x :: held (nm t1)) in Hc.
    rewrite Permutation_middle, Hc, <-Permutation_middle, Hc'. done.
Qed.

Lemma replace_backings_rewrites t rs :
  settled t → NoDup (rs.*1.*1 : list TriePageLocation) →
  (∃ t', replace_backings rs t = (Ok tt, t') ∧ rewrites t t' (put_cells rs) ∧
    rs.*2 ++ held (nm t) ≡ₚ rs.*1.*2 ++ held (nm t')) ∨
  replace_backings rs t = (Err BackingChanged, t).
Proof.
  intros Hset Hnd. unfold replace_backings. pose proof (expected_spec t rs) as He.
  case_decide as Hf; [left|right; by apply mthen_err].
  destruct (replace_all_cells rs t Hset Hnd Hf) as (t' & Hr & Hrest).
  exists t'. split; [|done]. by rewrite (mthen_ok _ _ _ _ _ He).
Qed.

Lemma replace_backings_ok t rs :
  settled t →
  if decide (Forall (λ r : replacement, backing_at t r.1.1 = Ok r.1.2) rs) then
    ∃ t', replace_backings rs t = (Ok tt, t') ∧ settled t' ∧ wm t' = wm t ∧
      (∀ ws v, mapped t ws v → mapped t' ws (put_cells rs <$> v)) ∧ roomy t t'
  else replace_backings rs t = (Err BackingChanged, t).
Proof.
  intros Hset. unfold replace_backings. pose proof (expected_spec t rs) as He.
  case_decide as Hf.
  - destruct (replace_all_ok rs t Hset) as (t' & Hr & Hrest).
    { intros r Hr. rewrite Forall_forall in Hf. eauto. }
    exists t'. split; [|done]. by rewrite (mthen_ok _ _ _ _ _ He).
  - by apply mthen_err.
Qed.
End hold.
End KvHold.
