(* ===== verification/KvQuery.v ===== *)
(** Reading a working set: [flatten] gives the pages it maps, and
    [page_readers] counts the anchors that name a page. *)
From S2P Require Import Prelude Ids Store Runs KvTable KvOps KvTrie KvChange KvSpec KvInv KvRead.
From S2P Require Import KvState KvPath KvProps.

Module KvQuery.
Import Runs KvTable KvOps KvTrie KvChange KvSpec KvInv KvRead KvState KvPath KvProps.
Implicit Types m : trie.

(** ** Counting the anchors above a node *)

(** The chain of a node, computed. *)
Fixpoint up (f : nat) m (n : NodeId) : list NodeId :=
  match f with
  | O => []
  | S f =>
      match m !! n with
      | Some e => n :: match parent e with Some p => up f m p | None => [] end
      | None => []
      end
  end.

Definition chain_of m (n : NodeId) : list NodeId := up (size m) m n.

Lemma up_chain m n l f : chain m n l → length l ≤ f → up f m n = l.
Proof.
  intros Hc. revert f. induction Hc as [n e He Hp|n e p l He Hp Hc IH]; intros [|f] Hf;
    simpl in *; try lia; rewrite He, Hp; [done|]. by rewrite IH by lia.
Qed.

Lemma chain_of_chain m n l : chain m n l → chain_of m n = l.
Proof. intros Hc. apply up_chain; [done|]. by eapply chain_length. Qed.

(** [length (filter P l)] as a sum. *)
Definition ind (P : Prop) `{Decision P} : nat := if decide P then 1 else 0.

Lemma ind_le (P : Prop) `{Decision P} : ind P ≤ 1.
Proof. unfold ind. destruct (decide P); lia. Qed.

Lemma length_filter_sum {A} (P : A → Prop) `{∀ x, Decision (P x)} (l : list A) :
  length (filter P l) = sum_list ((λ a, ind (P a)) <$> l).
Proof.
  induction l as [|a l IH]; [done|]. csimpl. unfold ind at 1. destruct (decide (P a)).
  - rewrite filter_cons_True by done. simpl. lia.
  - rewrite filter_cons_False by done. lia.
Qed.

Lemma sum_list_swap {A B} (f : A → B → nat) (l : list A) (k : list B) :
  sum_list ((λ a, sum_list ((λ b, f a b) <$> k)) <$> l) =
  sum_list ((λ b, sum_list ((λ a, f a b) <$> l)) <$> k).
Proof.
  induction l as [|a l IH]; csimpl.
  - induction k; csimpl; lia.
  - rewrite IH, <-sum_list_add. done.
Qed.

Lemma sum_list_ext {A} (f g : A → nat) (l : list A) :
  (∀ a, a ∈ l → f a = g a) → sum_list (f <$> l) = sum_list (g <$> l).
Proof. intros Hfg. f_equal. apply list_fmap_ext. intros i a Ha%list_elem_of_lookup_2. auto. Qed.

(** For one anchor: the node is its own, or one of the children leads to it. *)
Lemma chain_ind m a l n e :
  shape m → chain m a l → m !! n = Some e →
  ind (n ∈ l) = ind (a = n) + sum_list ((λ c, ind (c ∈ l)) <$> children e).
Proof.
  intros Hm Hc He. pose proof (chain_children_sum m a l n e Hm Hc He) as Hsum.
  unfold on_chain in Hsum. unfold ind. rewrite Hsum. destruct (chain_cons _ _ _ Hc) as [l' ->].
  repeat case_decide; set_solver.
Qed.

(** The local counts are the global ones. *)
Lemma path_anchors_count m A n e :
  shape m → counts m → anchored m A → m !! n = Some e →
  path_anchors e = sum_list ((λ a, ind (n ∈ chain_of m a)) <$> A).
Proof.
  intros Hm Hct Ha He. destruct (sh_chain _ Hm n ltac:(by eexists)) as [ln Hln].
  remember (size m - length ln) as d eqn:Hd. revert n e He ln Hln Hd.
  induction d as [d IH] using lt_wf_ind; intros n e He ln Hln ->.
  rewrite (Hct _ _ He), (an_count _ _ Ha _ _ He).
  rewrite (sum_list_ext (λ a, ind (n ∈ chain_of m a))
    (λ a, ind (a = n) + sum_list ((λ c, ind (c ∈ chain_of m a)) <$> children e))).
  2: { intros a HaA. destruct (sh_chain _ Hm a) as [l Hl]; [by apply Ha|].
       rewrite (chain_of_chain _ _ _ Hl). by apply (chain_ind m a). }
  rewrite sum_list_add. f_equal; [apply length_filter_sum|].
  rewrite sum_list_swap. apply sum_list_ext. intros c Hc.
  destruct (shape_child _ Hm _ _ _ He Hc) as (ec & Hec & Hp).
  assert (Hlc : chain m c (c :: ln)) by by eapply chain_up.
  pose proof (chain_length _ _ _ Hlc) as Hlen. simpl in Hlen.
  unfold path_of. rewrite Hec. simpl. eapply (IH (size m - length (c :: ln))); [simpl; lia|done..].
Qed.

(** ** Readers of one page *)

(** A child of the owner takes its page [i]. *)
Definition takes (i : nat) (e : KvTrieNode) : bool :=
  match pages e with
  | Owned _ _ _ => true
  | ParentSelection rs => existsb (λ r, bool_decide (r.1 ≤ i ∧ i < r.2)) rs
  end.

Lemma child_readers_takes i e : child_readers i e = if takes i e then path_anchors e else 0.
Proof. unfold child_readers, takes. by destruct (pages e). Qed.

(** A path names page [i] of an owner if and only if it ends there or goes on
    through a child that takes the page. *)
Lemma view_names m a l v k e b th ph i :
  shape m → chain m a l → view m (Some a) v → m !! k = Some e → pages e = Owned b th ph →
  i < length b →
  mkLoc k i ∈ v.*1 ↔ a = k ∨ ∃ c ec, c ∈ children e ∧ c ∈ l ∧ m !! c = Some ec ∧ takes i ec = true.
Proof.
  intros Hm Hc [segs Hw] He Hp Hi.
  destruct (lookup_lt_is_Some_2 b i Hi) as [x Hx].
  assert (Hcell : (mkLoc k i, x) ∈ cells k b) by (by apply elem_of_cells).
  split.
  - remember (length l) as d eqn:Hd. revert a l v segs Hc Hw Hd.
    induction d as [d IH] using lt_wf_ind; intros a l v segs Hc Hw -> Hin.
    inversion Hw as [|? own p v' segs' Hown Hpred Hw']; subst.
    rewrite fmap_app in Hin. apply elem_of_app in Hin as [Hin|Hin].
    + destruct p as [p|]; [|inversion Hw'; subst; set_solver].
      destruct (pred_chain _ Hm _ _ _ Hc Hpred) as (l1 & l2 & -> & Hc2 & Hne).
      destruct (IH (length l2)) with (a := p) (l := l2) (v := v') (segs := segs')
        as [->|(c & ec & Hcc & Hcl & Hec & Ht)]; [|done..| |].
      { rewrite length_app. destruct l1; simpl; [done|lia]. }
      * right. unfold pred in Hpred. destruct (chain_live _ _ _ Hc) as [ea Hea].
        rewrite Hea in Hpred. destruct (pages ea) as [ba tha pha|rs] eqn:Hpa.
        -- injection Hpred as Hpe. exists a, ea. split_and!.
           ++ apply (sh_children _ Hm _ _ _ He). eauto.
           ++ destruct (chain_cons _ _ _ Hc) as [l' Heq]. rewrite Heq. set_solver.
           ++ done.
           ++ unfold takes. by rewrite Hpa.
        -- destruct (shape_sel _ Hm _ _ _ Hea Hpa) as (o & eo & bo & ? & ? & off & Hpo & Heo & Hpgo & -> & ?).
           rewrite Hpo, Heo in Hpred. injection Hpred as Hpe. exists o, eo. split_and!.
           ++ apply (sh_children _ Hm _ _ _ He). eauto.
           ++ eapply chain_parent_elem; [exact Hc| |exact Hea|done].
              destruct (chain_cons _ _ _ Hc) as [l' Heq]. rewrite Heq. set_solver.
           ++ done.
           ++ unfold takes. by rewrite Hpgo.
      * right. exists c, ec. set_solver.
    + unfold contrib in Hown. destruct (chain_live _ _ _ Hc) as [ea Hea]. rewrite Hea in Hown.
      destruct (pages ea) as [ba tha pha|rs] eqn:Hpa.
      * simplify_eq. left. apply list_elem_of_fmap in Hin as ([l' y] & Heq & [Hn _]%elem_of_cells).
        simpl in *. by subst.
      * right. destruct (shape_sel _ Hm _ _ _ Hea Hpa)
          as (o & eo & bo & tho & pho & off & Hpo & Heo & Hpgo & -> & ?).
        rewrite Hpo, Heo, Hpgo, runs_len_prefix in Hown. simpl in Hown. simplify_eq.
        rewrite <-cells_take in Hin.
        apply list_elem_of_fmap in Hin as ([l' y] & Heq & [Hn Hy]%elem_of_cells). simpl in *. subst l'.
        simpl in *. subst o. exists a, ea. split_and!.
        -- apply (sh_children _ Hm _ _ _ He). eauto.
        -- destruct (chain_cons _ _ _ Hc) as [l' ->]. set_solver.
        -- done.
        -- unfold takes. rewrite Hpa. simpl. apply lookup_take_Some in Hy as [_ Hlt].
           by rewrite bool_decide_eq_true_2 by lia.
  - intros Hcase. apply list_elem_of_fmap. exists (mkLoc k i, x). split; [done|].
    assert (Hkl : k ∈ l).
    { destruct Hcase as [->|(c & ec & Hcc & Hcl & Hec & _)].
      - destruct (chain_cons _ _ _ Hc) as [l' ->]. set_solver.
      - destruct (shape_child _ Hm _ _ _ He Hcc) as (ec' & Hec' & Hpc). simplify_eq.
        by eapply chain_parent_elem. }
    destruct (chain_reads m a l v k e b th ph) as [H1 H2]; [done|done|by exists segs|done|done|done|].
    destruct Hcase as [->|(c & ec & Hcc & Hcl & Hec & Ht)]; [apply H1; [by left|done]|].
    destruct (shape_child _ Hm _ _ _ He Hcc) as (ec' & Hec' & Hpc). simplify_eq.
    unfold takes in Ht. destruct (pages ec) as [|rs] eqn:Hpg.
    + apply H1; [right; exists c, ec; by rewrite Hpg|done].
    + destruct (shape_sel _ Hm _ _ _ Hec Hpg) as (o & eo & ? & ? & ? & off & _ & _ & _ & -> & ?).
      apply (H2 c ec off); [done..|]. rewrite <-cells_take. apply elem_of_cells. split; [done|].
      simpl in Ht. rewrite orb_false_r in Ht. apply bool_decide_eq_true in Ht. simpl.
      by rewrite lookup_take_lt by lia.
Qed.

Section query.
Context {WS NS : Type → Type}.
Context `{!KeyedStore WorkingSetId WS, !KeyedStore NodeId NS}.
Context `{!KeyedStoreLaws WorkingSetId WS, !KeyedStoreLaws NodeId NS}.
Abbreviation table := (KvPageTable WS NS).
Abbreviation tm := (method table KvTableError).
Implicit Types t : table.

(** A table nothing anchors has no node. *)
Lemma settled_unanchored t : settled t → anchors t = [] → nm t = ∅.
Proof.
  intros [Hi Hg] HA. apply map_eq. intros n. rewrite lookup_empty.
  destruct (nm t !! n) as [e|] eqn:He; [|done]. exfalso. specialize (Hg _ _ He).
  pose proof (inv_trie _ Hi) as [Hm Hct Ha _].
  rewrite (path_anchors_count _ _ _ _ Hm Hct Ha He), HA in Hg. simpl in Hg. lia.
Qed.


(** [page_readers] counts the anchors whose paths name the page. *)
Lemma page_readers_spec t l x (P : NodeId → Prop) `{∀ a, Decision (P a)} :
  inv t → (l, x) ∈ all_cells (nm t) →
  (∀ a v, a ∈ anchors t → view (nm t) (Some a) v → P a ↔ l ∈ v.*1) →
  page_readers t (loc_node l) (loc_local l) = Some (length (filter P (anchors t))).
Proof.
  intros [Hs [Hm Hct Ha _] _ _] Hc HP. destruct l as [k i]. simpl.
  destruct (all_cells_node t _ _ Hc) as (e & b & th & ph & He & Hp & Hx). simpl in He, Hx.
  pose proof (lookup_lt_Some _ _ _ Hx) as Hi.
  assert (∃ ecs, mapM (node t) (children e) = Some ecs ∧
    Forall2 (λ c ec, nm t !! c = Some ec) (children e) ecs) as (ecs & Hmap & Hall).
  { destruct (mapM_is_Some_2 (node t) (children e)) as [ecs Hecs].
    { apply Forall_forall. intros c Hcc. destruct (shape_child _ Hm _ _ _ He Hcc) as (ec & Hec & _).
      simpl. rewrite node_nm, Hec by done. by eexists. }
    exists ecs. split; [done|]. apply mapM_Some in Hecs. eapply Forall2_impl; [exact Hecs|].
    intros c ec. simpl. by rewrite node_nm. }
  unfold page_readers. rewrite node_nm, He, Hmap by done. f_equal.
  rewrite length_filter_sum, (an_count _ _ Ha _ _ He). unfold count. rewrite length_filter_sum.
  assert (Hsum : sum_list (child_readers i <$> ecs) =
    sum_list ((λ c, sum_list ((λ a, if decide (from_option (takes i) false (nm t !! c) = true)
      then ind (c ∈ chain_of (nm t) a) else 0) <$> anchors t)) <$> children e)).
  { clear Hmap. induction Hall as [|c ec cs ecs Hec _ IH]; [done|]. csimpl. rewrite IH. f_equal.
    rewrite child_readers_takes, Hec. simpl. destruct (takes i ec) eqn:Ht.
    - by rewrite (path_anchors_count (nm t) (anchors t) c ec) by done.
    - symmetry. clear. induction (anchors t) as [|a A IH]; csimpl; [done|].
      case_decide; [done|]. lia. }
  rewrite Hsum, <-sum_list_swap, <-sum_list_add. apply sum_list_ext. intros a HaA.
  destruct (sh_chain _ Hm a) as [la Hla]; [by apply Ha|].
  destruct (view_total _ Hm a) as [v Hv]; [by apply Ha|].
  rewrite (chain_of_chain _ _ _ Hla).
  pose proof (HP a v HaA Hv) as HPa.
  rewrite (view_names (nm t) a la v k e b th ph i Hm Hla Hv He Hp Hi) in HPa.
  pose proof (chain_ind (nm t) a la k e Hm Hla He) as Hind.
  destruct (decide (a = k)) as [->|Hak].
  - unfold ind at 1 3. rewrite !decide_True by (try apply HPa; auto).
    assert (sum_list ((λ c, ind (c ∈ la)) <$> children e) = 0) as Hz.
    { unfold ind at 1 2 in Hind. rewrite (decide_True (P := k = k)) in Hind by done.
      case_decide; lia. }
    assert (sum_list ((λ c, if decide (from_option (takes i) false (nm t !! c) = true)
      then ind (c ∈ la) else 0) <$> children e) ≤ sum_list ((λ c, ind (c ∈ la)) <$> children e)); [|lia].
    clear. induction (children e) as [|c cs IH]; csimpl; [lia|]. case_decide; lia.
  - unfold ind at 1. rewrite decide_False by done. simpl.
    destruct (decide (P a)) as [HPt|HPf].
    + unfold ind at 2. rewrite decide_True by done.
      apply HPa in HPt as [?|(c & ec & Hcc & Hcl & Hec & Ht)]; [done|].
      unfold ind at 2 in Hind. rewrite (decide_False (P := a = k)) in Hind by done.
      apply Nat.le_antisymm.
      * transitivity (sum_list ((λ c, ind (c ∈ la)) <$> children e)).
        { clear. induction (children e) as [|c cs IH]; csimpl; [lia|]. case_decide; lia. }
        pose proof (ind_le (k ∈ la)). simpl in Hind. lia.
      * apply sum_list_le_elem with (x := 1). apply list_elem_of_fmap. exists c.
        split; [|done]. rewrite Hec. simpl. rewrite decide_True by done.
        unfold ind. by rewrite decide_True.
    + unfold ind at 2. rewrite decide_False by done.
      assert (∀ c, c ∈ children e → (if decide (from_option (takes i) false (nm t !! c) = true)
        then ind (c ∈ la) else 0) = 0) as Hz.
      { intros c Hcc. destruct (decide (from_option (takes i) false (nm t !! c) = true)) as [Ht|]; [|done].
        unfold ind. destruct (decide (c ∈ la)) as [Hcl|]; [|done].
        exfalso. apply HPf, HPa. right. destruct (nm t !! c) as [ec|] eqn:Hec; [|done].
        by exists c, ec. }
      clear -Hz. induction (children e) as [|c cs IH]; [done|]. csimpl.
      rewrite Hz, IH by set_solver. done.
Qed.

(** ** Flattening *)

(** The ids of pages that are all on the device, or the first that is not. *)
Fixpoint ids_or_absent (i : nat) (bs : list KvPageBacking) :
    outcome KvTableError (list PhysicalKvPageId) :=
  match bs with
  | [] => Ok []
  | Resident id :: bs =>
      match ids_or_absent (S i) bs with
      | Ok ids => Ok (id :: ids)
      | r => r
      end
  | _ :: _ => Err (NonResident i)
  end.

Lemma flatten_loop_spec t ps v out :
  Forall2 (λ p x, resolve_location t p.1 p.2 = Some x.1 ∧ resolve_backing t p.1 p.2 = Some x.2) ps v →
  flatten_loop t ps out =
    match ids_or_absent (length out) v.*2 with Ok ids => Ok (out ++ ids) | r => r end.
Proof.
  intros Hf. revert out. induction Hf as [|[n i] [l x] ps v [_ Hb] _ IH]; intros out.
  { simpl. by rewrite app_nil_r. }
  csimpl. unfold resolve_id. simpl in Hb. rewrite Hb. destruct x as [id|s|d]; [|done..].
  rewrite IH, length_app. simpl. replace (length out + 1) with (S (length out)) by lia.
  destruct (ids_or_absent _ _); [|done..]. by rewrite <-app_assoc.
Qed.

Lemma ids_or_absent_length i bs ids : ids_or_absent i bs = Ok ids → length ids = length bs.
Proof.
  revert i ids. induction bs as [|[id| |] bs IH]; intros i ids; simpl; try done; [by intros [= <-]|].
  destruct (ids_or_absent (S i) bs) eqn:Hr; [|done..]. intros [= <-]. simpl. f_equal. by eapply IH.
Qed.

Lemma ids_or_absent_no_panic i bs : ids_or_absent i bs ≠ Panic.
Proof.
  revert i. induction bs as [|[id| |] bs IH]; intros i; simpl; try done.
  specialize (IH (S i)). by destruct (ids_or_absent _ _).
Qed.

Lemma flatten_spec t ws v :
  inv t → mapped t ws v → flatten ws t = (ids_or_absent 0 v.*2, t).
Proof.
  intros Hi (e & He & [segs Hw] & Hl). pose proof Hi as [Hs [Hm _ _ _] _ _].
  unfold flatten. unfold mthen at 1. rewrite entry_spec, He by done.
  unfold mthen at 1, mread at 1. rewrite <-Hl, (segments_spec t Hs Hm _ _ _ Hw).
  unfold mthen at 1.
  rewrite (flatten_loop_spec t _ v []) by (by eapply segments_pages_spec). simpl.
  destruct (ids_or_absent 0 v.*2) as [ids|err|] eqn:Hr; [|done|by apply ids_or_absent_no_panic in Hr].
  unfold mthen, mguard. rewrite decide_True; [done|].
  by rewrite (ids_or_absent_length _ _ _ Hr), length_fmap.
Qed.

(** ** Private pages *)

Lemma privately_writable_spec t ws v i l x (P : NodeId → Prop) `{∀ a, Decision (P a)} :
  inv t → mapped t ws v → v !! i = Some (l, x) →
  (∀ a w, a ∈ anchors t → view (nm t) (Some a) w → P a ↔ l ∈ w.*1) →
  privately_writable ws i t = (Ok (bool_decide (length (filter P (anchors t)) = 1)), t).
Proof.
  intros Hi (e & He & Hv & Hl) Hx HP. pose proof Hi as [Hs [Hm _ _ _] _ _].
  unfold privately_writable.
  rewrite (mthen_ok _ _ _ _ _ (page_owner_spec t Hs Hm ws e v i l x He (conj Hv Hl) Hx)).
  simpl. unfold mthen, mread. rewrite (page_readers_spec t l x P); [done..| |done].
  apply (view_cells _ (terminal e) v); [done..|]. by apply list_elem_of_lookup_2 in Hx.
Qed.

Lemma privately_writable_unwritten t ws e i :
  inv t → wm t !! ws = Some e → mapped_len e ≤ i →
  privately_writable ws i t = (Err (Unwritten i (mapped_len e)), t).
Proof.
  intros Hi He Hle. unfold privately_writable.
  apply mthen_err. by apply page_owner_unwritten, Hle; first apply Hi.
Qed.

(** ** Runs of sealed pages *)

(** What a page of a run must be: sealed with the key, still, and on the device
    when the run asks for that. *)
Definition run_page t (resident : bool) (key : Hash256) (l : TriePageLocation) : Prop :=
  ∃ e b th ph x, node t (loc_node l) = Some e ∧ pages e = Owned b th ph ∧
    ph !! loc_local l = Some (Some key) ∧ b !! loc_local l = Some x ∧
    (resident = true → is_resident x = true) ∧ l ∉ swap_locations t.

Lemma run_while_spec t n resident ph : ∀ local b keys i,
  i < run_while t n resident local ph b keys →
  ∃ key x, keys !! i = Some key ∧ ph !! i = Some (Some key) ∧ b !! i = Some x ∧
    (resident = true → is_resident x = true) ∧ mkLoc n (local + i) ∉ swap_locations t.
Proof.
  induction ph as [|h ph IH]; intros local [|x b] [|key keys] i; simpl; try lia.
  destruct (bool_decide (h = Some key)) eqn:Hh; simpl; [|lia].
  destruct (negb resident || is_resident x) eqn:Hx; simpl; [|lia].
  destruct (bool_decide (mkLoc n local ∉ swap_locations t)) eqn:Hs; [|lia].
  apply bool_decide_eq_true in Hh as ->. apply bool_decide_eq_true in Hs.
  destruct i as [|i]; simpl; intros Hi.
  - exists key, x. rewrite Nat.add_0_r. split_and!; [done..| |done]. intros ->. by simpl in Hx.
  - destruct (IH (S local) b keys i ltac:(lia)) as (k & y & ? & ? & ? & ? & ?). exists k, y.
    by rewrite Nat.add_succ_r.
Qed.

Lemma node_run_spec t n keys resident i :
  i < node_run t n keys resident →
  ∃ key, keys !! i = Some key ∧ run_page t resident key (mkLoc n i).
Proof.
  unfold node_run. destruct (node t n) as [e|] eqn:He; [|lia].
  destruct (pages e) as [b th ph|] eqn:Hp; [|lia]. intros Hi.
  destruct (run_while_spec t n resident ph 0 b keys i Hi) as (key & x & ? & ? & ? & ? & ?).
  exists key. split; [done|]. by exists e, b, th, ph, x.
Qed.

Lemma max_by_last_spec (l : list (NodeId * nat)) : ∀ best x,
  max_by_last best l = Some x → best = Some x ∨ x ∈ l.
Proof.
  induction l as [|y l IH]; intros best x; simpl; [by left|].
  intros [Hx|Hx]%IH; [|set_solver]. destruct best as [b|]; [|set_solver].
  case_decide; [set_solver|by left].
Qed.

(** Every page of the run seals the key at its place. *)
Definition run_ok t (keys : list Hash256) (resident : bool) (run : list TriePageLocation) : Prop :=
  ∀ i l, run !! i = Some l → ∃ key, keys !! i = Some key ∧ run_page t resident key l.

Lemma sealed_run_loop_spec t keys resident f : ∀ run,
  run_ok t keys resident run → run_ok t keys resident (sealed_run_loop f t keys resident run).
Proof.
  induction f as [|f IH]; intros run Hrun; [done|]. cbn [sealed_run_loop].
  destruct (keys !! length run) as [key|]; [|done]. destruct (node_starts t !! key) as [copies|]; [|done].
  destruct (max_by_last _ _) as [[n matched]|] eqn:Hmax; [|done]. case_decide as Hpos; [|done].
  apply IH. intros i l [Hi|[Hge Hi]]%lookup_app_Some; [by apply Hrun|].
  apply list_lookup_fmap_Some in Hi as (j & -> & [Hj Hlt]%lookup_seq). simpl in Hj. subst j.
  apply max_by_last_spec in Hmax as [?|(c & [= -> Hm] & _)%list_elem_of_fmap]; [done|].
  destruct (node_run_spec t c (drop (length run) keys) resident (i - length run)) as (k & Hk & Hp);
    [lia|].
  exists k. rewrite lookup_drop in Hk. split; [|done]. by replace (length run + _) with i in Hk by lia.
Qed.

Lemma sealed_run_spec t keys resident : run_ok t keys resident (sealed_run t keys resident).
Proof. apply sealed_run_loop_spec. by intros i l. Qed.

(** A run is no longer than the keys. *)
Lemma sealed_run_loop_len t keys resident run :
  run_ok t keys resident run → length run ≤ length keys.
Proof.
  intros Hrun. destruct (decide (length run ≤ length keys)) as [|Hgt]; [done|].
  destruct (lookup_lt_is_Some_2 run (length keys) ltac:(lia)) as [l Hl].
  destruct (Hrun _ _ Hl) as (key & Hk & _). apply lookup_lt_Some in Hk. lia.
Qed.

(** With enough fuel the loop has come to its end: more fuel changes nothing. *)
Lemma sealed_run_loop_fuel t keys resident f : ∀ run,
  run_ok t keys resident run → length keys < f + length run →
  ∀ f', f ≤ f' → sealed_run_loop f' t keys resident run = sealed_run_loop f t keys resident run.
Proof.
  induction f as [|f IH]; intros run Hrun Hlen f' Hf.
  { pose proof (sealed_run_loop_len t keys resident run Hrun). simpl in *. lia. }
  destruct f' as [|f']; [lia|]. pose proof (sealed_run_loop_spec t keys resident 1 run Hrun) as Hstep.
  cbn [sealed_run_loop] in *.
  destruct (keys !! length run) as [key|]; [|done]. destruct (node_starts t !! key) as [copies|]; [|done].
  destruct (max_by_last _ _) as [[n matched]|] eqn:Hmax; [|done].
  case_decide as Hpos; [|done]. apply IH; [done| |lia].
  rewrite length_app, length_fmap, length_seq. lia.
Qed.
End query.
End KvQuery.
