(* ===== verification/KvCommit.v ===== *)
(** What committing content hashes does: it names the pages it is told to name,
    and moves none of them. *)
From S2P Require Import Prelude Ids Store Runs KvTable KvOps KvTrie KvChange KvSpec KvInv KvRead.
From S2P Require Import KvState KvPath KvProps KvHold.

Module KvCommit.
Import Runs KvTable KvOps KvTrie KvChange KvSpec KvInv KvRead KvState KvPath KvProps KvHold.

(** The hashes of a page: of its tokens, and its own. *)
Abbreviation hashes := (list (option Hash256) * option Hash256)%type.

Definition hashes_at (m : trie) (l : TriePageLocation) : option hashes :=
  match m !! loc_node l with
  | Some e =>
      match pages e with
      | Owned _ th ph =>
          match th !! loc_local l, ph !! loc_local l with
          | Some x, Some y => Some (x, y)
          | _, _ => None
          end
      | ParentSelection _ => None
      end
  | None => None
  end.

(** New hashes change neither what a node adds nor where a walk goes on. *)
Lemma repage_hashes_same (m : trie) n e b th ph th' ph' k :
  m !! n = Some e → pages e = Owned b th ph →
  contrib (repage n (Owned b th' ph') m) k = contrib m k ∧
  pred (repage n (Owned b th' ph') m) k = pred m k.
Proof.
  intros Hn Hpg. unfold contrib, pred. rewrite repage_lookup.
  destruct (m !! k) as [ek|] eqn:Hek; [|done]. simpl. case_decide as Hk.
  - subst. simplify_eq. simpl. by rewrite Hpg.
  - destruct (pages ek); [done|]. destruct (parent ek) as [o|]; [|done].
    rewrite repage_lookup. destruct (m !! o) as [eo|] eqn:Ho; [|done]. simpl.
    case_decide; [|done]. subst. simplify_eq. simpl. by rewrite Hpg.
Qed.

Lemma same_walk (m m' : trie) c v segs :
  (∀ k, contrib m' k = contrib m k ∧ pred m' k = pred m k) → walk m c v segs → walk m' c v segs.
Proof.
  intros Hsame. induction 1 as [|n own p v segs Ho Hp Hw IH]; [constructor|].
  destruct (Hsame n) as [H1 H2]. apply (walk_some _ n _ p); [by rewrite H1|by rewrite H2|done].
Qed.

(** What a node adds are pages of one owner, whose parent the walk goes on to. *)
Lemma contrib_owner (m : trie) n own p :
  shape m → contrib m n = Some own → pred m n = Some p →
  ∃ o eo, (o = n ∨ parent <$> m !! n = Some (Some o)) ∧ m !! o = Some eo ∧ parent eo = p ∧
    (∀ x, x ∈ own → loc_node x.1 = o) ∧ NoDup own.*1.
Proof.
  intros Hm Ho Hp. unfold contrib in Ho. unfold pred in Hp.
  destruct (m !! n) as [e|] eqn:He; [|done]. destruct (pages e) as [b th ph|rs] eqn:Hpg.
  - simplify_eq. exists n, e. split_and!; [by left|done|done| |apply NoDup_cells].
    intros [y z] [<- _]%elem_of_cells. done.
  - destruct (parent e) as [o|] eqn:Hpe; [|done]. destruct (m !! o) as [eo|] eqn:Heo; [|done].
    simplify_eq/=. exists o, eo. split_and!; [right; simpl; by rewrite Hpe|done|done| |].
    + intros [y z] (i & Hx%list_elem_of_lookup_2 & _)%elem_of_take.
      by apply elem_of_cells in Hx as [<- _].
    + rewrite fmap_take. eapply sublist_NoDup; [|apply sublist_take]; apply NoDup_cells.
Qed.

(** A path's pages lie on the chain of its end. *)
Lemma view_on_chain (m : trie) n l v x :
  shape m → chain m n l → view m (Some n) v → x ∈ v → loc_node x.1 ∈ l.
Proof.
  intros Hm Hc [segs Hw]. remember (Some n) as c eqn:Hn. revert n l Hc Hn.
  induction Hw as [|k own p v segs Ho Hp Hw IH]; intros n l Hc Hn; [done|].
  injection Hn as ->. intros [Hx|Hx]%elem_of_app.
  - destruct p as [p|]; [|inversion Hw; subst; set_solver].
    destruct (pred_chain _ Hm _ _ _ Hc Hp) as (l1 & l2 & -> & Hl2 & _).
    apply elem_of_app. right. by eapply IH.
  - destruct (contrib_owner _ _ _ _ Hm Ho Hp) as (o & eo & Hno & _ & _ & Hloc & _).
    rewrite (Hloc _ Hx). destruct Hno as [->|Hpar].
    + destruct (chain_cons _ _ _ Hc) as [l' ->]. by left.
    + inversion Hc as [? e He Hpe|? e q l' He Hpe Hc']; subst; rewrite He in Hpar;
        simpl in Hpar; [congruence|].
      assert (q = o) as -> by congruence. right. destruct (chain_cons _ _ _ Hc') as [? ->]. by left.
Qed.

(** No path names a page twice. *)
Lemma view_NoDup (m : trie) c v : shape m → view m c v → NoDup v.*1.
Proof.
  intros Hm [segs Hw]. induction Hw as [|n own p v segs Ho Hp Hw IH]; [by apply NoDup_nil_2|].
  destruct (contrib_owner _ _ _ _ Hm Ho Hp) as (o & eo & _ & Heo & Hpar & Hloc & Hnd).
  rewrite fmap_app. apply NoDup_app. split_and!; [done| |done].
  intros y (x & -> & Hx)%list_elem_of_fmap (x' & Hxy & Hx')%list_elem_of_fmap.
  destruct p as [p|]; [|inversion Hw; subst; set_solver].
  destruct (sh_chain _ Hm o ltac:(by eexists)) as [l Hl].
  pose proof (chain_NoDup _ _ _ Hl) as Hndl.
  inversion Hl as [? e He Hpe|? e q l' He Hpe Hl']; subst; [congruence|].
  assert (q = p) as -> by congruence. apply NoDup_cons in Hndl as [Hnot _]. apply Hnot.
  rewrite <-(Hloc _ Hx'), <-Hxy. eapply (view_on_chain m p l' v); [done..|by exists segs|done].
Qed.

Section commit.
Context {WS NS : Type → Type}.
Context `{!KeyedStore WorkingSetId WS, !KeyedStore NodeId NS}.
Context `{!KeyedStoreLaws WorkingSetId WS, !KeyedStoreLaws NodeId NS}.
Abbreviation table := (KvPageTable WS NS).
Abbreviation tm := (method table KvTableError).
Implicit Types t : table.

(** A change that moves no page and frees none. *)
Record still t t' : Prop := {
  sl_settled : settled t';
  sl_wm : wm t' = wm t;
  sl_same k : contrib (nm t') k = contrib (nm t) k ∧ pred (nm t') k = pred (nm t) k;
  sl_mapped ws v : mapped t ws v → mapped t' ws v;
  sl_cells : all_cells (nm t') ≡ₚ all_cells (nm t);
  sl_roomy : roomy t t';
}.

Lemma still_walk t t' c v segs : still t t' → walk (nm t) c v segs → walk (nm t') c v segs.
Proof. intros [_ _ H _ _ _]. by apply same_walk. Qed.

Lemma still_view t t' c v : still t t' → view (nm t) c v → view (nm t') c v.
Proof. intros Hst [segs Hw]. exists segs. by eapply still_walk. Qed.

Lemma still_refl t : settled t → still t t.
Proof. intros Hs. split; try done. apply roomy_refl. Qed.

Lemma still_trans t1 t2 t3 : still t1 t2 → still t2 t3 → still t1 t3.
Proof.
  intros [A1 A2 A3 A4 A5 A6] [B1 B2 B3 B4 B5 B6]. split; auto; [congruence| |by rewrite B5|by eapply roomy_trans].
  intros k. destruct (A3 k) as [<- <-]. apply B3.
Qed.

Lemma set_hashes_ok t l x (h : hashes) :
  settled t → (l, x) ∈ all_cells (nm t) →
  ∃ t', set_hashes (loc_node l) (loc_local l) h.1 h.2 t = (Ok tt, t') ∧ still t t' ∧
    ∀ l', hashes_at (nm t') l' = if decide (l' = l) then Some h else hashes_at (nm t) l'.
Proof.
  intros Hset Hx. pose proof Hset as [Hi Hg]. pose proof Hi as [Hs [Hm _ _ _] _ _].
  destruct (all_cells_node t l x Hx) as (e & b & th & ph & He & Hp & Hb).
  pose proof (sh_pages _ Hm _ _ He) as Hok. unfold page_ok in Hok. rewrite Hp in Hok.
  apply lookup_lt_Some in Hb. destruct l as [n i]; simpl in *.
  destruct (put_entry_nodes_settled t n e b th ph b (<[i := h.1]> th) (<[i := h.2]> ph) Hset He Hp)
    with (f := @id cell) as (Hset' & Hfr & Hn & Hmap); [done|rewrite length_insert; lia..| |].
  { intros c v Hv. rewrite list_fmap_id. by apply (repage_hashes_view n (nm t) e b th ph). }
  eexists. split_and!.
  - unfold set_hashes. unfold mthen, mread. rewrite node_nm, He, Hp by done.
    by rewrite decide_True by lia.
  - split; [done|by apply frame_wm| | | |by apply frame_roomy].
    + intros k. rewrite Hn. by eapply repage_hashes_same.
    + intros ws v Hv. specialize (Hmap _ _ Hv). by rewrite list_fmap_id in Hmap.
    + symmetry. rewrite Hn. by apply (repage_cells n (nm t) e b th ph _ _ _ [] []).
  - intros [k j]. unfold hashes_at. simpl. rewrite Hn, repage_lookup.
    destruct (decide (k = n)) as [->|Hk].
    + rewrite He. simpl. rewrite Hp.
      destruct (decide (j = i)) as [->|Hj].
      * rewrite !list_lookup_insert_eq by lia. rewrite decide_True by done. by destruct h.
      * rewrite !list_lookup_insert_ne by done. by rewrite decide_False by congruence.
    + rewrite (decide_False (P := mkLoc k j = _)) by congruence. by destruct (nm t !! k).
Qed.

Lemma index_node_start_still t key n :
  settled t → still t (index_node_start key n t) ∧ nm (index_node_start key n t) = nm t.
Proof.
  intros [[Hs Ht Hh Hm] Hg]. split; [|done]. split; try done.
  by intros i j.
Qed.

Lemma commit_in_place_ok t ws e v i h :
  settled t → wm t !! ws = Some e → maps t e v →
  match v !! i with
  | Some x => ∃ t', commit_in_place ws i h.1 h.2 t = (Ok tt, t') ∧ still t t' ∧
      ∀ l, hashes_at (nm t') l = if decide (l = x.1) then Some h else hashes_at (nm t) l
  | None => commit_in_place ws i h.1 h.2 t = (Err (Unwritten i (mapped_len e)), t)
  end.
Proof.
  intros Hset He [Hv Hl]. pose proof Hset as [Hi Hg]. pose proof Hi as [Hs [Hm _ _ _] _ _].
  unfold commit_in_place. destruct (v !! i) as [[l x]|] eqn:Hx.
  - rewrite (mthen_ok _ _ _ _ _ (page_owner_spec t Hs Hm ws e v i l x He (conj Hv Hl) Hx)).
    apply (set_hashes_ok t l x); [done|]. eapply view_cells; [done..|].
    by eapply list_elem_of_lookup_2.
  - apply mthen_err. apply lookup_ge_None in Hx. apply page_owner_unwritten; [done..|lia].
Qed.

(** The turn of [commit_hashes]'s loop for page [i]. *)
Definition commit_one (segs : list Segment) (i : nat) (h : hashes) : tm unit :=
  seg ⇐ mexpect (segment_at (Z.of_nat i) segs) ;;
  o ⇐ mread (λ t, resolve_owner t (seg_node seg) (Z.to_nat (Z.of_nat i - seg_start seg))) ;;
  set_hashes o.1 o.2 h.1 h.2 ;;;
  match h.2 with
  | Some key => if decide (o.2 = 0) then mmodify (index_node_start key o.1) else mok tt
  | None => mok tt
  end.

Lemma commit_one_ok t c v segs i x h :
  settled t → walk (nm t) c v segs → v !! i = Some x →
  ∃ t', commit_one segs i h t = (Ok tt, t') ∧ still t t' ∧
    ∀ l, hashes_at (nm t') l = if decide (l = x.1) then Some h else hashes_at (nm t) l.
Proof.
  intros Hset Hw Hx. pose proof Hset as [Hi Hg]. pose proof Hi as [Hs [Hm _ _ _] _ _].
  destruct (segment_at_spec t _ _ _ _ _ Hw Hx) as (n & own & k & Hseg & Ho & Hk & Hown).
  destruct x as [l x]. destruct (resolve_owner_spec t Hs Hm _ _ _ _ _ Ho Hown) as [Hr Hc].
  destruct (set_hashes_ok t l x h Hset Hc) as (t1 & H1 & Hst & Hh).
  unfold commit_one. rewrite Hseg. unfold mthen at 1, mexpect. unfold mthen at 1, mread. simpl.
  replace (Z.to_nat (Z.of_nat i - Z.of_nat k)) with (i - k) by lia. rewrite Hr.
  rewrite (mthen_ok _ _ _ _ _ H1). simpl.
  destruct h.2 as [key|]; [|by exists t1]. case_decide; [|by exists t1].
  exists (index_node_start key (loc_node l) t1).
  destruct (index_node_start_still t1 key (loc_node l)) as [Hst' Hn']; [apply Hst|].
  split_and!; [done|by eapply still_trans|]. intros l'. by rewrite Hn'.
Qed.

Lemma commit_loop_ok c v segs (hs : list hashes) : ∀ t i,
  settled t → walk (nm t) c v segs → i + length hs ≤ length v →
  ∃ t', mfor (imap (λ k h, (i + k, h)) hs) (λ p, commit_one segs p.1 p.2) t = (Ok tt, t') ∧
    still t t' ∧
    (∀ k h x, hs !! k = Some h → v !! (i + k) = Some x → hashes_at (nm t') x.1 = Some h) ∧
    (∀ l, l ∉ (take (length hs) (drop i v)).*1 → hashes_at (nm t') l = hashes_at (nm t) l).
Proof.
  induction hs as [|h hs IH]; intros t i Hset Hw Hlen.
  { exists t. split_and!; [done|by apply still_refl|by intros|done]. }
  simpl in Hlen. destruct (lookup_lt_is_Some_2 v i ltac:(lia)) as [x Hx].
  destruct (commit_one_ok t c v segs i x h Hset Hw Hx) as (t1 & H1 & Hst1 & Hh1).
  destruct (IH t1 (S i)) as (t' & H2 & Hst2 & Hin & Hout); [apply Hst1|by eapply still_walk|lia|].
  pose proof (view_NoDup (nm t) c v (ok_shape _ _ _ (inv_trie _ (proj1 Hset))) ltac:(by exists segs)) as Hnd.
  assert (Hdrop : drop i v = x :: drop (S i) v) by by apply drop_S.
  assert (Hnot : x.1 ∉ (take (length hs) (drop (S i) v)).*1).
  { intros (y & Hxy & Hy)%list_elem_of_fmap.
    apply elem_of_take in Hy as (k & Hk & _). rewrite lookup_drop in Hk.
    assert (i = S i + k); [|lia]. eapply (NoDup_lookup v.*1 i); [done| |].
    - by rewrite list_lookup_fmap, Hx.
    - by rewrite list_lookup_fmap, Hk, Hxy. }
  exists t'. split_and!; [|by eapply still_trans| |].
  - cbn [imap mfor]. rewrite (mthen_ok _ _ t tt t1); [|by rewrite Nat.add_0_r].
    rewrite <-H2. f_equal. apply imap_ext. intros k ? _. simpl. f_equal. lia.
  - intros [|k] h' y Hk Hy; simpl in Hk.
    + rewrite Nat.add_0_r in Hy. simplify_eq. rewrite Hout by done. by rewrite Hh1, decide_True.
    + apply (Hin k); [done|]. by rewrite <-Hy; f_equal; lia.
  - intros l Hl. rewrite Hdrop in Hl. simpl in Hl. rewrite Hout by set_solver.
    rewrite Hh1. rewrite decide_False; [done|]. intros ->. set_solver.
Qed.

Lemma commit_hashes_ok t ws e v first (hs : list hashes) :
  settled t → wm t !! ws = Some e → maps t e v →
  if decide (mapped_len e < first + length hs) then
    commit_hashes ws first hs t = (Err (Unwritten (first + length hs - 1) (mapped_len e)), t)
  else ∃ t', commit_hashes ws first hs t = (Ok tt, t') ∧ still t t' ∧
    (∀ k h x, hs !! k = Some h → v !! (first + k) = Some x → hashes_at (nm t') x.1 = Some h) ∧
    (∀ l, l ∉ (take (length hs) (drop first v)).*1 → hashes_at (nm t') l = hashes_at (nm t) l).
Proof.
  intros Hset He [[segs Hw] Hl]. pose proof Hset as [Hi Hg]. pose proof Hi as [Hs [Hm _ _ _] _ _].
  assert (Hentry : entry ws t = (Ok e, t)) by by rewrite entry_spec, He.
  unfold commit_hashes. rewrite (mthen_ok _ _ _ _ _ Hentry). case_decide as Hc; [done|].
  unfold mthen at 1, mread at 1. rewrite <-Hl, (segments_spec t Hs Hm _ _ _ Hw).
  destruct (commit_loop_ok (terminal e) v segs hs t first Hset Hw) as (t' & H1 & Hrest).
  { rewrite Hl. by apply Nat.nlt_ge. }
  exists t'. split; [|done]. rewrite <-H1. clear.
  assert (Hf : imap (λ k h, (first + k, h)) hs = (λ p : nat * hashes, (first + p.1, p.2)) <$> imap pair hs)
    by by rewrite fmap_imap.
  rewrite Hf. by rewrite mfor_fmap.
Qed.
End commit.
End KvCommit.
