(* ===== verification/KvCalls.v ===== *)
(** The calls the store makes on the table, one by one and in any order. Where a
    caller keeps a call's contract, the call answers a value or an error of its
    own, never a panic, and the table stays settled. *)
From S2P Require Import Prelude Ids Store Runs KvTable KvOps KvMove KvTrie KvChange KvSpec KvInv.
From S2P Require Import KvRead KvState KvPath KvProps KvFree KvShare KvHold KvCommit.

Module KvCalls.
Import Runs KvTable KvOps KvMove KvTrie KvChange KvSpec KvInv KvRead KvState KvPath KvProps KvFree
  KvShare KvHold KvCommit.

(** A change of an entry's own fields. *)
Inductive note : Type :=
  | LogRows (start : N) (tokens : list N)
  | LogBegin (seq cut : N)
  | LogEnd (seq : N) (rows : option (N * list N))
  | Freeze (to : N)
  | ReachPrompt (pages : nat)
  | SetOwner (o : ProcessId)
  | AddSupplied (tokens : N)
  | Reserve (pages : nat).

Inductive call : Type :=
  | Create
  | Fork (ws : WorkingSetId)
  | Note (ws : WorkingSetId) (x : note)
  | Publish (ws : WorkingSetId) (ps : list PublishedPage)
  | ReplaceTail (ws : WorkingSetId) (from : nat) (ps : list PublishedPage)
  | Attach (ws : WorkingSetId) (n : NodeId) (local : nat)
  | Release (ws : WorkingSetId)
  | Lease (ws : WorkingSetId) (upto : nat)
  | TakeHold (cache : bool) (n : NodeId)
  | DropHold (cache : bool) (n : NodeId)
  | CommitInPlace (ws : WorkingSetId) (index : nat) (th : list (option Hash256)) (ph : option Hash256)
  | CommitHashes (ws : WorkingSetId) (first : nat) (ps : list (list (option Hash256) * option Hash256))
  | SetSuspended (group : gset WorkingSetId) (b : bool)
  | PinSwap (ls : list TriePageLocation)
  | UnpinSwap (ls : list TriePageLocation)
  | ReplaceBackings (rs : list replacement).

Section calls.
Context {WS NS : Type → Type}.
Context `{!KeyedStore WorkingSetId WS, !KeyedStore NodeId NS}.
Context `{!KeyedStoreLaws WorkingSetId WS, !KeyedStoreLaws NodeId NS}.
Abbreviation table := (KvPageTable WS NS).
Abbreviation tm := (method table KvTableError).
Implicit Types t : table.

Definition forget {A} (m : tm A) : tm unit := _ ⇐ m ;; mok tt.

Definition run_note (ws : WorkingSetId) (x : note) : tm unit :=
  match x with
  | LogRows start tokens => log_rows ws start tokens
  | LogBegin seq cut => log_begin ws seq cut
  | LogEnd seq rows => log_end ws seq rows
  | Freeze to => forget (freeze ws to)
  | ReachPrompt pages => reach_prompt ws pages
  | SetOwner o => set_owner ws o
  | AddSupplied tokens => forget (add_supplied ws tokens)
  | Reserve pages => forget (reserve ws pages)
  end.

(** One call; [Lease] is the cache keeping a prefix of a working set. *)
Definition run (c : call) : tm unit :=
  match c with
  | Create => forget create_working_set
  | Fork ws => forget (fork ws)
  | Note ws x => run_note ws x
  | Publish ws ps => publish_appended ws ps
  | ReplaceTail ws from ps => forget (replace_tail ws from ps)
  | Attach ws n local => forget (attach ws n local)
  | Release ws => forget (release_working_set_backings ws)
  | Lease ws upto =>
      kept ⇐ keep_prefix ws upto ;;
      lease_cache_root (kept_terminal kept)
  | TakeHold cache n => take_hold cache n
  | DropHold cache n => forget (drop_hold cache n)
  | CommitInPlace ws index th ph => commit_in_place ws index th ph
  | CommitHashes ws first ps => commit_hashes ws first ps
  | SetSuspended group b => set_suspended group b
  | PinSwap ls => pin_swap_locations ls
  | UnpinSwap ls => forget (unpin_swap_locations ls)
  | ReplaceBackings rs => replace_backings rs
  end.

(** What a caller owes a call, beyond what the call checks itself. *)
Definition contract t (c : call) : Prop :=
  match c with
  | Attach _ n local => ∃ own, contrib (nm t) n = Some own ∧ local < length own
  | Lease ws upto => ∀ e, wm t !! ws = Some e → 0 < upto ≤ mapped_len e
  | TakeHold _ n => is_Some (nm t !! n)
  | PinSwap ls => NoDup ls ∧ ∀ l, l ∈ ls → l ∉ swap_locations t
  | _ => True
  end.

(** An answer that is no panic, from a table that stays settled, with the keys
    of the call used up. *)
Definition fine {A} (r : outcome KvTableError A * table) (i j : nat) : Prop :=
  r.1 ≠ Panic ∧ settled r.2 ∧ room r.2 i j.

Lemma fine_err {A} t e i j : settled t → room t i j → fine (A := A) (Err e, t) i j.
Proof. done. Qed.

Lemma fine_forget {A} (m : tm A) t i j : fine (m t) i j → fine (forget m t) i j.
Proof.
  intros (H1 & H2 & H3). unfold forget, mthen. destruct (m t) as [[a|e|] t']; done.
Qed.

(** ** Notes *)

Lemma put_entry_settled t ws e e' i j :
  settled t → room t i j → wm t !! ws = Some e → terminal e' = terminal e →
  mapped_len e' = mapped_len e → settled (put_entry t ws e') ∧ room (put_entry t ws e') i j.
Proof.
  intros [Hi Hg] [Hr1 Hr2] He Ht Hl.
  destruct (put_entry_spec t ws e' (inv_sound _ Hi) ltac:(by eexists)) as (Hk & Hn & Hw).
  split; [split; [by eapply put_entry_inv|by rewrite Hn]|].
  split; [by apply Hk|by apply Hk].
Qed.

Lemma update_fine t ws f i j :
  settled t → room t i j →
  (∀ e, terminal (f e) = terminal e ∧ mapped_len (f e) = mapped_len e) →
  fine (update_entry ws f t) i j.
Proof.
  intros Hset Hr Hf. pose proof (inv_sound _ (proj1 Hset)) as Hs.
  destruct (wm t !! ws) as [e|] eqn:He.
  - rewrite (update_entry_spec t ws e f Hs He).
    destruct (Hf e). by split; [|eapply put_entry_settled].
  - by rewrite update_entry_err.
Qed.

Lemma entry_then_fine {A} t ws (f : WorkingSetEntry → tm A) i j :
  settled t → room t i j → (∀ e, wm t !! ws = Some e → fine (f e t) i j) →
  fine (mthen (entry ws) f t) i j.
Proof.
  intros Hset Hr Hf. unfold mthen. rewrite entry_spec by apply Hset.
  destruct (wm t !! ws) as [e|]; [by apply Hf|done].
Qed.

Lemma then_ok_fine {A} (m : tm unit) (a : A) t i j :
  fine (m t) i j → fine (mthen m (λ _, mok a) t) i j.
Proof. intros (H1 & H2 & H3). unfold mthen. by destruct (m t) as [[|e|] t']. Qed.

Lemma mthen_fine {A B} (m : tm A) (f : A → tm B) t i j :
  fine (m t) i j → (∀ a t', settled t' → room t' i j → fine (f a t') i j) → fine (mthen m f t) i j.
Proof.
  intros (H1 & H2 & H3) Hf. unfold mthen. destruct (m t) as [[a|e|] t']; [|done|done].
  by apply Hf.
Qed.

Lemma note_fine t ws x i j : settled t → room t i j → fine (run_note ws x t) i j.
Proof.
  intros Hset Hr. destruct x; simpl; try apply fine_forget; try by apply update_fine.
  - unfold log_end. apply entry_then_fine; [done..|]. intros e He.
    destruct (pending e !! seq) as [cut|]; [|done].
    apply mthen_fine; [by apply update_fine|]. intros _ t' Hset' Hr'.
    destruct rows as [[start tokens]|]; by apply update_fine.
  - unfold freeze. apply entry_then_fine; [done..|]. intros e He.
    apply then_ok_fine. by apply update_fine.
  - unfold add_supplied. apply entry_then_fine; [done..|]. intros e He.
    apply then_ok_fine. by apply update_fine.
  - unfold reserve. apply entry_then_fine; [done..|]. intros e He.
    apply then_ok_fine. by apply update_fine.
Qed.

(** ** The calls that move pages *)

Lemma fine_ok {A} (a : A) t i j : settled t → room t i j → fine (Ok a, t) i j.
Proof. done. Qed.

Lemma settled_maps t ws e : settled t → wm t !! ws = Some e → ∃ v, maps t e v.
Proof. intros [Hi _]. apply Hi. Qed.

Lemma create_fine t i j : settled t → room t i (S j) → fine (create_working_set t) i j.
Proof.
  intros Hset [Hr1 Hr2]. destruct (create_ok t j Hset Hr2)
    as (ws & t' & -> & _ & Hset' & _ & _ & _ & _ & Hn & Hr').
  split_and!; [done..|]. split; [by simpl; rewrite Hn|done].
Qed.

Lemma fork_fine t ws i j : settled t → room t i (S j) → fine (fork ws t) i j.
Proof.
  intros Hset [Hr1 Hr2]. destruct (wm t !! ws) as [e|] eqn:He.
  - destruct (settled_maps _ _ _ Hset He) as [v Hv].
    destruct (fork_ok t ws e v j Hset He Hv Hr2) as (child & t' & ec & -> & _ & Hset' & H).
    split_and!; [done..|]. by apply H.
  - unfold fork, mthen. rewrite entry_spec, He by apply Hset. split_and!; [done..|].
    split; [done|]. by eapply st_room_le; [|done]; lia.
Qed.

Lemma publish_fine t ws ps i j :
  settled t → room t (S i) j → fine (publish_appended ws ps t) i j.
Proof.
  intros Hset Hr. assert (room t i j) by (by eapply room_le; [| |done]; lia).
  destruct (wm t !! ws) as [e|] eqn:He.
  - destruct (settled_maps _ _ _ Hset He) as [v Hv].
    destruct (decide (page_len e < mapped_len e + length ps)) as [Hc|Hc].
    + unfold publish_appended, mthen at 1. rewrite entry_spec, He by apply Hset.
      by rewrite decide_True.
    + destruct (publish_ok t ws e v ps i j Hset He Hv Hr) as (t' & new & -> & Hp & _ & Hr'); [lia|].
      split_and!; [done|apply Hp|done].
  - unfold publish_appended, mthen. by rewrite entry_spec, He by apply Hset.
Qed.

Lemma replace_fine t ws from ps i j :
  settled t → room t (S (S i)) j → fine (replace_tail ws from ps t) i j.
Proof.
  intros Hset Hr. assert (room t i j) by (by eapply room_le; [| |done]; lia).
  destruct (wm t !! ws) as [e|] eqn:He.
  - destruct (settled_maps _ _ _ Hset He) as [v Hv].
    destruct (decide (mapped_len e < from)) as [Hf|Hf];
      [|destruct (decide (page_len e < from + length ps)) as [Hc|Hc]].
    1-2: unfold replace_tail, mthen at 1; rewrite entry_spec, He by apply Hset.
    + by rewrite decide_True.
    + by rewrite decide_False, decide_True by lia.
    + destruct (replace_ok t ws e v from ps i j Hset He Hv Hr)
        as (t' & gone & new & -> & Hset' & _ & _ & _ & _ & _ & Hr'); [lia..|done].
  - unfold replace_tail, mthen. by rewrite entry_spec, He by apply Hset.
Qed.

Lemma attach_fine t ws n own local i j :
  settled t → room t (S i) j → contrib (nm t) n = Some own → local < length own →
  fine (attach ws n local t) i j.
Proof.
  intros Hset Hr Ho Hlt. assert (room t i j) by (by eapply room_le; [| |done]; lia).
  pose proof Hset as [Hi Hg]. pose proof (inv_trie _ Hi) as [Hm _ _ _].
  destruct (view_total _ Hm n) as [vn Hvn]; [unfold contrib in Ho; by destruct (nm t !! n)|].
  destruct (wm t !! ws) as [e|] eqn:He.
  - destruct (settled_maps _ _ _ Hset He) as [v Hv].
    pose proof (attach_ok t ws e v n own vn local i j Hset He Hv Ho Hvn Hlt Hr) as Ha.
    cbn zeta in Ha. case_decide.
    + destruct Ha as (t' & -> & Hset' & _ & _ & _ & _ & Hr'). done.
    + by rewrite Ha.
  - by rewrite (attach_unknown t ws n own local).
Qed.

Lemma release_fine t ws i j :
  settled t → room t i j → fine (release_working_set_backings ws t) i j.
Proof.
  intros Hset Hr. destruct (wm t !! ws) as [e|] eqn:He.
  - destruct (release_ok t ws e Hset He) as (t' & gone & -> & Hset' & _ & _ & Hr' & _).
    split_and!; [done..|]. by apply Hr'.
  - destruct (release_unknown t ws Hset He) as (t' & -> & Hset' & _ & _ & Hr').
    split_and!; [done..|]. by apply Hr'.
Qed.

Lemma take_hold_fine t cache n i j :
  inv t → garbage_above (nm t) n → holdable (nm t) n → room t i j →
  fine (take_hold cache n t) i j.
Proof.
  intros Hi Hg Ha Hr. destruct (take_hold_ok cache t n Hi Hg Ha) as (t' & -> & Hset' & _ & _ & _ & Hr' & _).
  split_and!; [done..|]. by apply Hr'.
Qed.

Lemma drop_hold_fine t cache n i j :
  settled t → room t i j → fine (drop_hold cache n t) i j.
Proof.
  intros Hset Hr. destruct (drop_hold_ok cache t n Hset) as (t' & g & -> & Hset' & _ & _ & _ & Hr').
  split_and!; [done..|]. by apply Hr'.
Qed.

(** A node for a path, made where there is none, with the pages [new]: [t'] is
    settled once the node is held. *)
Record unheld t t' (k : NodeId) (new v : list cell) : Prop := {
  uh_inv : inv t';
  uh_garbage : garbage_above (nm t') k;
  uh_holdable : holdable (nm t') k;
  uh_view : view (nm t') (Some k) v;
  uh_views c w : (∀ q, c = Some q → is_Some (nm t !! q)) → view (nm t) c w → view (nm t') c w;
  uh_kept : all_kept t t';
  uh_cells : all_cells (nm t') ≡ₚ new ++ all_cells (nm t);
}.

Lemma boundary_ok t c v segs n i j :
  settled t → walk (nm t) c v segs → (∀ a, c = Some a → 0 < path_of (nm t) a) →
  0 < n ≤ length v → room t (S i) j →
  ∃ k t', boundary_terminal segs n t = (Ok k, t') ∧ unheld t t' k [] (take n v) ∧ room t' i j.
Proof.
  intros Hset Hw Hpos Hn Hr. pose proof Hset as [Hi Hg]. pose proof Hi as [Hs Hok Hh Hmp].
  pose proof Hok as [Hm Hct Ha Ht].
  destruct (boundary_terminal_spec t c v _ n i Hs Hm Hct (proj1 Hr) Hw Hn)
    as (k & t' & Hb & Hp & Hr' & Hv & Hanc).
  exists k, t'. pose proof (prefix_node_prefixed _ _ _ Hm Hp) as [P1 P2 P3 P4 P5 P6 P7 P8 P9 P10].
  assert (Hkeep : ∀ ws e v, wm t !! ws = Some e → maps t e v → maps t' e v).
  { intros ws' e' v' He' [Hv' Hl']. split; [|done]. apply P7; [|done..].
    intros a Ha'. by eapply terminal_path_pos. }
  split_and!; [done| |split; [done|rewrite P10; apply Hr]]. split; [| | |done|auto| |].
  - split; [by apply P4| |by apply P3|].
    + rewrite P2. by apply P6.
    + intros ws' e' He'. rewrite P1 in He'. destruct (Hmp _ _ He') as [v' Hv']. eauto.
  - apply garbage_at_above; [apply (P6 _ Hok)|by apply P9].
  - apply anchorable_holdable.
    destruct c as [a|]; [by apply (Hanc a); auto|inversion Hw; subst; simpl in *; lia].
  - by apply all_kept_frame.
  - by inversion Hp as [|? ? ? ? ? []].
Qed.

Lemma keep_prefix_ok t ws e v n i j :
  settled t → wm t !! ws = Some e → maps t e v → 0 < n ≤ mapped_len e → room t (S i) j →
  ∃ k t', keep_prefix ws n t = (Ok (mkKept k n), t') ∧ unheld t t' k [] (take n v) ∧ room t' i j.
Proof.
  intros Hset He [[segs Hw] Hl] Hn Hr. pose proof Hset as [Hi Hg]. pose proof Hi as [Hs [Hm _ _ _] _ _].
  unfold keep_prefix. unfold mthen at 1. rewrite entry_spec, He by done.
  unfold mthen at 1, mread at 1. rewrite <-Hl, (segments_spec t Hs Hm _ _ _ Hw).
  destruct (boundary_ok t (terminal e) v segs n i j Hset Hw) as (k & t' & Hb & Hu & Hr'); [|lia|done|].
  { intros a Ha. by eapply terminal_path_pos. }
  exists k, t'. by rewrite (mthen_ok _ _ _ _ _ Hb).
Qed.

(** ** Any call *)

Lemma still_fine {A} (a : A) t t' i j : still t t' → room t i j → fine (Ok a, t') i j.
Proof. intros [] Hr. split_and!; [done..|]. by apply sl_roomy0. Qed.

Lemma commit_in_place_fine t ws n th ph i j :
  settled t → room t i j → fine (commit_in_place ws n th ph t) i j.
Proof.
  intros Hset Hr. destruct (wm t !! ws) as [e|] eqn:He.
  - destruct (settled_maps _ _ _ Hset He) as [v Hv].
    pose proof (commit_in_place_ok t ws e v n (th, ph) Hset He Hv) as Hc.
    destruct (v !! n); [destruct Hc as (t' & Hc & Hst & _)|]; simpl in Hc; rewrite Hc; [|done].
    by eapply still_fine.
  - unfold commit_in_place, page_owner, mthen. by rewrite entry_spec, He by apply Hset.
Qed.

Lemma commit_hashes_fine t ws first hs i j :
  settled t → room t i j → fine (commit_hashes ws first hs t) i j.
Proof.
  intros Hset Hr. destruct (wm t !! ws) as [e|] eqn:He.
  - destruct (settled_maps _ _ _ Hset He) as [v Hv].
    pose proof (commit_hashes_ok t ws e v first hs Hset He Hv) as Hc.
    case_decide; [by rewrite Hc|]. destruct Hc as (t' & -> & Hst & _). by eapply still_fine.
  - unfold commit_hashes, mthen. by rewrite entry_spec, He by apply Hset.
Qed.

Lemma mfor_fine {A} (l : list A) (f : A → tm unit) i j :
  (∀ a t, settled t → room t i j → fine (f a t) i j) →
  ∀ t, settled t → room t i j → fine (mfor l f t) i j.
Proof.
  intros Hf. induction l as [|a l IH]; intros t Hset Hr; [done|]. cbn [mfor].
  apply mthen_fine; [by apply Hf|]. intros _. apply IH.
Qed.

Lemma set_suspended_fine t group b i j :
  settled t → room t i j → fine (set_suspended group b t) i j.
Proof.
  unfold set_suspended. apply mfor_fine. intros ws t' Hset Hr.
  pose proof (update_fine t' ws (λ e, with_suspended e b) i j Hset Hr) as (H1 & H2 & H3); [done|].
  unfold mor_else. by destruct (update_entry _ _ t') as [[[]|e|] t2].
Qed.

Lemma replace_backings_fine t rs i j :
  settled t → room t i j → fine (replace_backings rs t) i j.
Proof.
  intros Hset Hr. pose proof (replace_backings_ok t rs Hset) as Hc.
  case_decide; [|by rewrite Hc]. destruct Hc as (t' & -> & Hset' & _ & _ & Hr').
  split_and!; [done..|]. by apply Hr'.
Qed.

Lemma live_anchorable t n : settled t → is_Some (nm t !! n) → anchorable (nm t) n.
Proof.
  intros [Hi Hg] [e He]. pose proof (inv_trie _ Hi) as [Hm Hct _ _].
  destruct (sh_chain _ Hm n ltac:(by eexists)) as [l Hl].
  destruct (anchorable_on_chain (nm t) n l n Hm Hct Hl) as [? _]; [|by destruct (chain_cons _ _ _ Hl) as [? ->]; left|done].
  unfold path_of. rewrite He. simpl. specialize (Hg _ _ He). lia.
Qed.

Lemma live_holdable t n : settled t → is_Some (nm t !! n) → holdable (nm t) n.
Proof. intros Hset Hn. by apply anchorable_holdable, live_anchorable. Qed.

Lemma no_garbage_above (m : trie) n : no_garbage m → garbage_above m n.
Proof. intros Hg k e He Hz. specialize (Hg _ _ He). lia. Qed.

(** The heart of the file: from a settled table with keys left, a call that
    keeps its contract answers without a panic and leaves the table settled. A
    call takes at most two node keys and one working-set key. *)
Lemma run_fine t c i j :
  settled t → room t (S (S i)) (S j) → contract t c → fine (run c t) i j.
Proof.
  intros Hset Hr Hc.
  assert (room t i j) as Hr0 by (apply (room_le t (S (S i)) (S j)); [lia|lia|done]).
  assert (room t (S i) j) as Hr1 by (apply (room_le t (S (S i)) (S j)); [lia|lia|done]).
  assert (room t (S (S i)) j) as Hr2 by (apply (room_le t (S (S i)) (S j)); [lia|lia|done]).
  assert (room t i (S j)) as Hr3 by (apply (room_le t (S (S i)) (S j)); [lia|lia|done]).
  destruct c; simpl in *; try apply fine_forget.
  - by apply create_fine.
  - by apply fork_fine.
  - by apply note_fine.
  - by apply publish_fine.
  - by apply replace_fine.
  - destruct Hc as (own & Ho & Hlt). by eapply attach_fine.
  - by apply release_fine.
  - destruct (wm t !! ws) as [e|] eqn:He.
    + destruct (settled_maps _ _ _ Hset He) as [v Hv].
      destruct (keep_prefix_ok t ws e v upto i j Hset He Hv) as
        (k & t' & Hk & [] & Hr'); [by apply Hc|done|].
      rewrite (mthen_ok _ _ _ _ _ Hk). by apply (take_hold_fine t' true).
    + unfold keep_prefix, mthen. by rewrite entry_spec, He by apply Hset.
  - apply take_hold_fine; [apply Hset|apply no_garbage_above, Hset|by apply live_holdable|done].
  - by apply drop_hold_fine.
  - by apply commit_in_place_fine.
  - by apply commit_hashes_fine.
  - by apply set_suspended_fine.
  - destruct (pin_swap_ok ls t Hset) as (t' & -> & Hset' & _ & _ & _ & Hr'); [apply Hc..|].
    split_and!; [done..|]. by apply Hr'.
  - destruct (unpin_swap_ok t ls Hset) as (t' & g & -> & Hset' & _ & _ & Hr' & _).
    split_and!; [done..|]. by apply Hr'.
  - by apply replace_backings_fine.
Qed.

(** ** Histories *)

(** The tables the calls reach from an empty one, each call's contract kept. A
    call that answers an error is a step too. *)
Inductive reachable : nat → table → Prop :=
  | reach_new : reachable 0 new
  | reach_call k t c : reachable k t → contract t c → reachable (S k) (run c t).2.

Lemma new_settled : settled new.
Proof.
  destruct (st_new_spec (K := NodeId) (S := NS) (T := KvTrieNode)) as [Hv Hm].
  destruct (st_new_spec (K := WorkingSetId) (S := WS) (T := WorkingSetEntry)) as [Hv' Hm'].
  assert (Hn : nm new = ∅) by exact Hm. assert (Hw : wm new = ∅) by exact Hm'.
  assert (HA : anchors new = []).
  { unfold anchors, hold_anchors. rewrite Hw. unfold ws_anchors. simpl. by rewrite map_to_list_empty. }
  split; [split|].
  - done.
  - rewrite HA, Hn. split.
    + split; try by intros. by intros n [e He].
    + done.
    + split; [by intros a ?%not_elem_of_nil|by intros n e].
    + done.
  - by split.
  - intros ws e. by rewrite Hw.
  - intros k e. by rewrite Hn.
Qed.

Lemma reachable_settled k t i j :
  reachable k t → room new (k + k + i) (k + j) → settled t ∧ room t i j.
Proof.
  intros Ht. revert i j. induction Ht as [|k t c Ht IH Hc]; intros i j Hr.
  { split; [apply new_settled|done]. }
  destruct (IH (S (S i)) (S j)) as [Hset Hroom].
  { by eapply room_le; [| |done]; lia. }
  by destruct (run_fine t c i j Hset Hroom Hc) as (_ & ? & ?).
Qed.
End calls.
End KvCalls.
