(* ===== verification/KvThm.v ===== *)
(** What the page table promises its callers: one theorem per operation, over
    any settled table, and the theorem that every history of calls leads to
    settled tables only. A working set's view is the list of the pages a pass
    reads for it, each with its location in the trie and its backing. *)
From S2P Require Import Prelude Ids Store GenMap Runs KvTable KvOps KvMove KvTrie KvChange KvSpec.
From S2P Require Import KvInv KvRead KvState KvPath KvProps KvFree KvShare KvHold KvCommit KvQuery.
From S2P Require Import KvCalls.

Module KvThm.
Import GenMap Runs KvTable KvOps KvMove KvTrie KvChange KvSpec KvInv KvRead KvState KvPath KvProps
  KvFree KvShare KvHold KvCommit KvQuery KvCalls.

Section thm.
Context {WS NS : Type → Type}.
Context `{!KeyedStore WorkingSetId WS, !KeyedStore NodeId NS}.
Context `{!KeyedStoreLaws WorkingSetId WS, !KeyedStoreLaws NodeId NS}.
Abbreviation table := (KvPageTable WS NS).
Abbreviation tm := (method table KvTableError).
Implicit Types t : table.

(** ** The readers of a page *)

(** The pages on the path to [c], computed. *)
Fixpoint path_cells (f : nat) (m : trie) (c : option NodeId) : list cell :=
  match c, f with
  | Some n, S f => path_cells f m (default None (pred m n)) ++ default [] (contrib m n)
  | _, _ => []
  end.

Lemma path_cells_walk (m : trie) c v segs f :
  walk m c v segs → length segs ≤ f → path_cells f m c = v.
Proof.
  intros Hw. revert f. induction Hw as [|n own p v segs Ho Hp Hw IH]; intros [|f] Hf; simpl in *;
    [done|done|lia|]. rewrite Ho, Hp. simpl. by rewrite (IH f) by lia.
Qed.

Definition path_of_anchor t (a : NodeId) : list cell :=
  path_cells (size (nm t)) (nm t) (Some a).

Lemma path_of_anchor_view t a v :
  inv t → view (nm t) (Some a) v → path_of_anchor t a = v.
Proof.
  intros Hi [segs Hw]. pose proof (ok_shape _ _ _ (inv_trie _ Hi)) as Hm.
  apply (path_cells_walk _ _ _ segs); [done|]. inversion Hw as [|? ? ? ? ? Ho _ _]; subst.
  assert (is_Some (nm t !! a)) as Ha by (unfold contrib in Ho; by destruct (nm t !! a)).
  destruct (sh_chain _ Hm a Ha) as [l Hl]. transitivity (length l); [|by eapply chain_length].
  eapply walk_length; [done..|]. intros n' Hn'. by simplify_eq.
Qed.

(** How many anchors, working sets, cache leases and pins, name a page. *)
Definition readers_of t (l : TriePageLocation) : nat :=
  length (filter (λ a, l ∈ (path_of_anchor t a).*1) (anchors t)).

Lemma cells_read t c :
  settled t → c ∈ all_cells (nm t) → ¬ locked t (loc_node c.1) → read_by (nm t) (anchors t) c.
Proof.
  intros [Hi Hg] Hc Hl. pose proof (inv_trie _ Hi) as [Hm Hct Ha Ht]. destruct c as [l x].
  apply elem_of_all_cells in Hc as (en & Hen & Hx).
  destruct (pages en) as [b th ph|] eqn:Hp; simpl in Hx; [|by rewrite lookup_nil in Hx].
  eapply (tidy_read (locked t) (nm t) (anchors t)); [done..|]. by apply elem_of_cells.
Qed.

Lemma readers_spec t l x :
  settled t → (l, x) ∈ all_cells (nm t) →
  page_readers t (loc_node l) (loc_local l) = Some (readers_of t l).
Proof.
  intros [Hi Hg] Hc. apply page_readers_spec with (x := x); [done..|].
  intros a v Ha Hv. by rewrite (path_of_anchor_view t a v Hi Hv).
Qed.

Lemma readers_pos t l x : settled t → read_by (nm t) (anchors t) (l, x) → 0 < readers_of t l.
Proof.
  intros [Hi Hg] (a & v & Ha & Hv & Hc). unfold readers_of.
  assert (a ∈ filter (λ a, l ∈ (path_of_anchor t a).*1) (anchors t)) as Hf.
  { apply list_elem_of_filter. split; [|done]. rewrite (path_of_anchor_view t a v Hi Hv).
    apply list_elem_of_fmap. by exists (l, x). }
  destruct (filter _ _); [by apply not_elem_of_nil in Hf|simpl; lia].
Qed.

(** ** Histories *)

(** C31. No history of calls, each call's contract kept, makes the table panic:
    from an empty table with keys enough for the calls, every call answers a
    value or an error, and leaves the table settled. *)
Theorem history_safe k t c :
  reachable k t → room KvTable.new (S (S (k + k))) (S k) → contract t c →
  (run c t).1 ≠ Panic ∧ settled (run c t).2.
Proof.
  intros Ht Hr Hc. destruct (reachable_settled k t 2 1 Ht) as [Hset Hroom].
  { eapply room_le; [| |exact Hr]; lia. }
  by destruct (run_fine t c 0 0 Hset Hroom Hc) as (? & ? & _).
Qed.

(** In every table a history leads to: each working set maps exactly as many
    pages as its entry says, none twice and each of them stored; a node's count
    of anchors is the number of working sets that end there, leases and pins,
    and no node is kept for nothing; and a page that no move holds has a
    reader. *)
Theorem history_invariant k t :
  reachable k t → room KvTable.new (k + k) k →
  (∀ ws e, wm t !! ws = Some e → ∃ v, view (nm t) (terminal e) v ∧ length v = mapped_len e ∧
     NoDup v.*1 ∧ ∀ c, c ∈ v → c ∈ all_cells (nm t)) ∧
  (∀ n e, nm t !! n = Some e → exact_anchors e = count n (anchors t) ∧ 0 < path_anchors e) ∧
  (∀ l x, (l, x) ∈ all_cells (nm t) → ¬ locked t (loc_node l) → 0 < readers_of t l).
Proof.
  intros Ht Hr. destruct (reachable_settled k t 0 0 Ht) as [Hset _].
  { eapply room_le; [| |exact Hr]; lia. }
  pose proof Hset as [Hi Hg]. pose proof (inv_trie _ Hi) as [Hm Hct Ha _]. split_and!.
  - intros ws e He. destruct (settled_maps _ _ _ Hset He) as (v & Hv & Hl). exists v.
    split_and!; [done..|by eapply view_NoDup|]. intros c. by apply (view_cells _ (terminal e)).
  - intros n e He. split; [by apply Ha|by eapply Hg].
  - intros l x Hc Hl. eapply readers_pos; [done|]. by apply cells_read.
Qed.

(** Nothing leaks: when no working set maps a page and there are neither
    leases nor pins, the trie is empty. *)
Theorem unanchored_empty t : settled t → anchors t = [] → nm t = ∅.
Proof.
  apply settled_unanchored.
Qed.

(** ** Publishing *)

(** [publish_appended] appends exactly the pages it is given to what the
    working set maps, changes no other working set, and stores no page twice;
    past the reservation it is refused and the table is left as it was. *)
Theorem publish_correct t ws e v ps :
  settled t → wm t !! ws = Some e → maps t e v → room t 1 0 →
  if decide (page_len e < mapped_len e + length ps) then
    publish_appended ws ps t =
      (Err (PublishExceedsReservation (length ps) (mapped_len e) (page_len e)), t)
  else
    ∃ t' added, publish_appended ws ps t = (Ok tt, t') ∧ settled t' ∧
      mapped t' ws (v ++ added) ∧ added.*2 = (Resident ∘ pp_id <$> ps) ∧
      others_kept t t' ws ∧ all_cells (nm t') ≡ₚ added ++ all_cells (nm t).
Proof.
  intros Hset He Hv Hr. case_decide as Hc.
  - unfold publish_appended, mthen at 1. rewrite entry_spec, He by apply Hset. by rewrite decide_True.
  - destruct (publish_ok t ws e v ps 0 0 Hset He Hv Hr) as (t' & added & Hp & [] & Hn & _); [lia|].
    by exists t', added.
Qed.

(** [replace_tail] leaves the working set the first [from] pages of what it
    mapped and the new ones after them; it gives back exactly the old pages that
    no other reader names, but for those of nodes a move holds, and changes no
    other working set. Both errors leave the table as it was. *)
Theorem replace_tail_correct t ws e v from ps :
  settled t → wm t !! ws = Some e → maps t e v → room t 2 0 →
  if decide (mapped_len e < from) then
    replace_tail ws from ps t = (Err (BadRange from from (mapped_len e) (page_len e)), t)
  else if decide (page_len e < from + length ps) then
    replace_tail ws from ps t =
      (Err (PublishExceedsReservation (length ps) from (page_len e)), t)
  else
    ∃ t' gone added, replace_tail ws from ps t = (Ok gone.*2, t') ∧ settled t' ∧
      mapped t' ws (take from v ++ added) ∧ added.*2 = (Resident ∘ pp_id <$> ps) ∧
      others_kept t t' ws ∧ added ++ all_cells (nm t) ≡ₚ gone ++ all_cells (nm t') ∧
      lets_go t ws (take from v) gone.
Proof.
  intros Hset He Hv Hr. destruct (decide (mapped_len e < from)) as [Hf|Hf];
    [|destruct (decide (page_len e < from + length ps)) as [Hc|Hc]].
  1-2: unfold replace_tail, mthen at 1; rewrite entry_spec, He by apply Hset.
  - by rewrite decide_True.
  - by rewrite decide_False, decide_True by lia.
  - destruct (replace_ok t ws e v from ps 0 0 Hset He Hv Hr)
      as (t' & gone & added & H1 & H2 & H3 & H4 & H5 & H6 & H7 & _); [lia..|].
    by exists t', gone, added.
Qed.

(** ** Sharing *)

(** [fork] gives a new working set that maps exactly the parent's pages,
    with the parent's reservation, its frozen length and the part of its log no
    pending pass may cut; the pages are shared, not copied, and every other
    working set is as it was. *)
Theorem fork_correct t ws e v :
  settled t → wm t !! ws = Some e → maps t e v → room t 0 1 →
  ∃ child t' ec, fork ws t = (Ok child, t') ∧ wm t !! child = None ∧ settled t' ∧
    wm t' = <[child := ec]> (wm t) ∧ mapped t' child v ∧ mapped t' ws v ∧
    others_kept t t' child ∧ all_cells (nm t') = all_cells (nm t) ∧
    page_len ec = page_len e ∧ folded ec = folded e ∧ prompt_pages ec = prompt_pages e ∧
    logged_ ec = cut_log e ∧ pending ec = ∅ ∧ suspended ec = false.
Proof.
  intros Hset He Hv [_ Hr].
  destruct (fork_ok t ws e v 0 Hset He Hv Hr) as (c & t' & ec & H1 & H2 & H3 & H4 & H5 & H6 & H7 &
    H8 & H9 & H10 & H11 & H12 & H13 & H14 & H15 & _).
  by exists c, t', ec.
Qed.

(** [attach] moves a working set onto a path that extends what it maps: it
    then maps the path up to the page named. When the path is no longer than
    what it maps, or differs from it, [attach] is refused and nothing changes. *)
Theorem attach_correct t ws e v n own vn local :
  settled t → wm t !! ws = Some e → maps t e v →
  contrib (nm t) n = Some own → view (nm t) (Some n) vn → local < length own → room t 1 0 →
  let end_ := length vn - length own + local + 1 in
  if decide (mapped_len e < end_ ∧ v = take (mapped_len e) vn) then
    ∃ t', attach ws n local t = (Ok end_, t') ∧ settled t' ∧ mapped t' ws (take end_ vn) ∧
      others_kept t t' ws ∧ all_cells (nm t') ≡ₚ all_cells (nm t)
  else attach ws n local t = (Err (BadRange (mapped_len e) end_ (mapped_len e) (page_len e)), t).
Proof.
  intros Hset He Hv Ho Hvn Hlt Hr end_.
  pose proof (attach_ok t ws e v n own vn local 0 0 Hset He Hv Ho Hvn Hlt Hr) as Ha.
  cbn zeta in Ha. fold end_ in Ha. case_decide; [|done].
  destruct Ha as (t' & ? & ? & ? & ? & ? & _). by exists t'.
Qed.

(** ** Freeing *)

(** [release_working_set_backings] forgets the working set and gives back
    exactly the pages no other reader names: none that one still reads, and none
    is left behind but on nodes a move holds. Every other working set maps what
    it mapped. *)
Theorem kv_release_correct t ws e :
  settled t → wm t !! ws = Some e →
  ∃ t' gone, release_working_set_backings ws t = (Ok gone.*2, t') ∧ settled t' ∧
    wm t' = delete ws (wm t) ∧ others_kept t t' ws ∧
    all_cells (nm t) ≡ₚ gone ++ all_cells (nm t') ∧
    (∀ c, c ∈ gone → ¬ read_by (nm t) (anchors t') c) ∧
    (∀ c, c ∈ all_cells (nm t) → ¬ locked t (loc_node c.1) →
       ¬ read_by (nm t) (anchors t') c → c ∈ gone).
Proof.
  intros Hset He. destruct (release_ok t ws e Hset He) as (t' & gone & H1 & H2 & H3 & H4 & _ & _ & []).
  by exists t', gone.
Qed.

(** A lease or a pin that is dropped gives back exactly the pages nothing
    else reads; while its count is above one it gives back nothing that is read,
    and the working sets map what they mapped. *)
Theorem drop_hold_correct t cache n :
  settled t →
  ∃ t' gone, drop_hold cache n t = (Ok gone.*2, t') ∧ settled t' ∧ all_kept t t' ∧
    holds_of cache t' = (let_go (holds_of cache t) n).2 ∧
    all_cells (nm t) ≡ₚ gone ++ all_cells (nm t') ∧
    (∀ c, c ∈ gone → ¬ read_by (nm t) (anchors t') c) ∧
    (∀ c, c ∈ all_cells (nm t) → ¬ locked t (loc_node c.1) →
       ¬ read_by (nm t) (anchors t') c → c ∈ gone).
Proof.
  intros Hset. destruct (drop_hold_ok cache t n Hset) as (t' & gone & H1 & H2 & H3 & [] & H5 & _).
  by exists t', gone.
Qed.

Lemma lease_ok t ws e v upto :
  settled t → wm t !! ws = Some e → maps t e v → 0 < upto ≤ mapped_len e → room t 1 0 →
  ∃ k t', run (Lease ws upto) t = (Ok tt, t') ∧ settled t' ∧ all_kept t t' ∧ room t' 0 0 ∧
    (∃ c, cache_roots t' !! k = Some c) ∧ view (nm t') (Some k) (take upto v) ∧
    all_cells (nm t') ≡ₚ all_cells (nm t).
Proof.
  intros Hset He Hv Hn Hr.
  destruct (keep_prefix_ok t ws e v upto 0 0 Hset He Hv Hn Hr) as
    (k & t1 & Hk & [Hi Hg Ha Hvk _ [Hw1 Hk1] Hc1] & Hr1).
  destruct (take_hold_ok true t1 k Hi Hg Ha) as (t2 & Ht & Hset2 & [Hw2 Hk2] & Hc2 & Hh2 & Hr2 & Hv2 & _).
  exists k, t2. split_and!; [|done| |by apply Hr2| |by apply Hv2|by rewrite Hc2].
  - simpl. by rewrite (mthen_ok _ _ _ _ _ Hk).
  - split; [congruence|auto].
  - simpl in Hh2. rewrite Hh2, lookup_insert_eq. eauto.
Qed.

(** What the cache leases outlives the working set it came from: releasing
    the working set gives back none of the leased pages, and they stay stored. *)
Theorem lease_survives_release t ws e v upto :
  settled t → wm t !! ws = Some e → maps t e v → 0 < upto ≤ mapped_len e → room t 1 0 →
  ∃ t1 t2 gone, run (Lease ws upto) t = (Ok tt, t1) ∧
    release_working_set_backings ws t1 = (Ok gone.*2, t2) ∧ settled t2 ∧
    ∀ c, c ∈ take upto v → (c ∉ gone) ∧ c ∈ all_cells (nm t2).
Proof.
  intros Hset He Hv Hn Hr.
  destruct (lease_ok t ws e v upto Hset He Hv Hn Hr) as (k & t1 & H1 & Hset1 & [Hw1 _] & _ & [n Hk] & Hvk & _).
  destruct (release_ok t1 ws e Hset1) as (t2 & gone & H2 & Hset2 & Hw2 & _ & _ & Hroots & [F1 F2 F3]).
  { by rewrite Hw1. }
  exists t1, t2, gone. split_and!; [done..|]. intros c Hc.
  assert (c ∉ gone) as Hg.
  { intros Hcg. apply (F2 _ Hcg). exists k, (take upto v). split_and!; [|done..].
    unfold anchors, hold_anchors. rewrite Hroots. apply elem_of_app. right. apply elem_of_app. left.
    apply list_elem_of_fmap. exists (k, n). by rewrite elem_of_map_to_list. }
  split; [done|]. pose proof (ok_shape _ _ _ (inv_trie _ (proj1 Hset1))) as Hm1.
  pose proof (view_cells _ _ _ c Hm1 Hvk Hc) as Hall. rewrite F1 in Hall.
  by apply elem_of_app in Hall as [?|?].
Qed.

(** ** Moves *)

(** Marking pages for a move and, at its end, unmarking them leaves every
    working set as it was; the end gives back exactly what compaction had to
    leave: pages no anchor reads, and all of those that no other move holds. *)
Theorem move_correct t ls :
  settled t → NoDup ls → (∀ l, l ∈ ls → l ∉ swap_locations t) →
  ∃ t1, pin_swap_locations ls t = (Ok tt, t1) ∧ settled t1 ∧ all_kept t t1 ∧ nm t1 = nm t ∧
    ∀ t2, settled t2 → swap_locations t2 = swap_locations t1 →
      ∃ t3 gone, unpin_swap_locations ls t2 = (Ok gone.*2, t3) ∧ settled t3 ∧ all_kept t2 t3 ∧
        swap_locations t3 = swap_locations t ∧
        all_cells (nm t2) ≡ₚ gone ++ all_cells (nm t3) ∧
        (∀ c, c ∈ gone → ¬ read_by (nm t2) (anchors t2) c) ∧
        (∀ c, c ∈ all_cells (nm t2) → ¬ locked t3 (loc_node c.1) →
           ¬ read_by (nm t2) (anchors t2) c → c ∈ gone).
Proof.
  intros Hset Hnd Hnot.
  destruct (pin_swap_ok ls t Hset Hnd Hnot) as (t1 & H1 & Hset1 & Hk1 & Hn1 & Hs1 & _).
  exists t1. split_and!; [done..|]. intros t2 Hset2 Hs2.
  destruct (unpin_swap_ok t2 ls Hset2) as (t3 & gone & H3 & Hset3 & Hk3 & Hs3 & _ & [] & _).
  exists t3, gone. split_and!; try done. rewrite Hs3, Hs2, Hs1. apply leibniz_equiv.
  intros l. specialize (Hnot l). set_solver.
Qed.

(** A residency transaction is all or nothing: when every page still has
    the backing it expects, the new backings are read wherever the pages are
    mapped; when one has not, nothing changes. *)
Theorem replace_backings_correct t rs :
  settled t →
  if decide (Forall (λ r : replacement, backing_at t r.1.1 = Ok r.1.2) rs) then
    ∃ t', replace_backings rs t = (Ok tt, t') ∧ settled t' ∧ wm t' = wm t ∧
      ∀ ws v, mapped t ws v → mapped t' ws (put_cells rs <$> v)
  else replace_backings rs t = (Err BackingChanged, t).
Proof.
  intros Hset. pose proof (replace_backings_ok t rs Hset) as H. case_decide; [|done].
  destruct H as (t' & ? & ? & ? & ? & _). by exists t'.
Qed.

(** ** Reading and committing *)

(** [flatten] lists the physical pages of what a working set maps, in order,
    or names the first page that is not on the device. *)
Theorem flatten_correct t ws v :
  settled t → mapped t ws v → flatten ws t = (ids_or_absent 0 v.*2, t).
Proof. intros [Hi _]. by apply flatten_spec. Qed.

(** A page is privately writable exactly when one reader names it in the
    whole table, counting working sets, leases and pins. *)
Theorem privately_writable_correct t ws v i l x :
  settled t → mapped t ws v → v !! i = Some (l, x) →
  privately_writable ws i t = (Ok (bool_decide (readers_of t l = 1)), t).
Proof.
  intros [Hi _] Hv Hx. unfold readers_of. apply (privately_writable_spec t ws v i l x); [done..|].
  intros a w Ha Hw. by rewrite (path_of_anchor_view t a w Hi Hw).
Qed.

(** [commit_hashes] names the pages from [first] on, in order, leaves the
    hashes of every other page as they were, and moves no page; a commit past
    what is mapped is refused and changes nothing. *)
Theorem commit_hashes_correct t ws e v first (hs : list hashes) :
  settled t → wm t !! ws = Some e → maps t e v →
  if decide (mapped_len e < first + length hs) then
    commit_hashes ws first hs t = (Err (Unwritten (first + length hs - 1) (mapped_len e)), t)
  else ∃ t', commit_hashes ws first hs t = (Ok tt, t') ∧ settled t' ∧
    (∀ ws' v', mapped t ws' v' → mapped t' ws' v') ∧
    (∀ k h x, hs !! k = Some h → v !! (first + k) = Some x → hashes_at (nm t') x.1 = Some h) ∧
    (∀ l, l ∉ (take (length hs) (drop first v)).*1 → hashes_at (nm t') l = hashes_at (nm t) l).
Proof.
  intros Hset He Hv. pose proof (commit_hashes_ok t ws e v first hs Hset He Hv) as H.
  case_decide; [done|]. destruct H as (t' & ? & [] & ? & ?). by exists t'.
Qed.

(** Every page [sealed_run] answers is sealed with the key at its place, in
    no move, and on the device when the caller asks for that; the run is no
    longer than the keys, and turning its loop more often finds no more. *)
Theorem sealed_run_correct t keys resident :
  (∀ i l, sealed_run t keys resident !! i = Some l →
     ∃ key, keys !! i = Some key ∧ run_page t resident key l) ∧
  length (sealed_run t keys resident) ≤ length keys ∧
  ∀ f, length keys < f → sealed_run_loop f t keys resident [] = sealed_run t keys resident.
Proof.
  pose proof (sealed_run_spec t keys resident) as H. split_and!; [done| |].
  - by apply (sealed_run_loop_len t keys resident).
  - intros f Hf. apply sealed_run_loop_fuel; [by intros i l|simpl; lia|lia].
Qed.
End thm.

(** ** A table to see the theorems on

    Two working sets over generational maps: the first maps pages 10, 11, 12 and
    14, the second, forked when only three were there, 10, 11, 12 and 13; the
    cache leases the first two pages. *)
Abbreviation kv := (KvPageTable (GenMap WsMarker) (GenMap NodeMarker)).

Definition ws_key (i : N) : WorkingSetId := mkGenKey i 0.
Definition node_key (i : N) : NodeId := mkGenKey i 0.
Definition published_page (i : N) : PublishedPage := mkPublished (PhysicalKvPage i) [] None.

Definition sample_calls : list call :=
  [Create; Note (ws_key 0) (Reserve 4);
   Publish (ws_key 0) (published_page <$> [10%N; 11%N; 12%N]);
   Fork (ws_key 0); Lease (ws_key 0) 2; Note (ws_key 1) (Reserve 2);
   Publish (ws_key 1) [published_page 13]; Publish (ws_key 0) [published_page 14]].

Definition history (cs : list call) : kv := foldl (λ t c, (run c t).2) KvTable.new cs.
Definition sample : kv := history sample_calls.

Definition at_ (n : N) (i : nat) (p : N) : cell := (mkLoc (node_key n) i, Resident (PhysicalKvPage p)).
Definition sample_view0 : list cell := [at_ 0 0 10; at_ 0 1 11; at_ 0 2 12; at_ 3 0 14].
Definition sample_view1 : list cell := [at_ 0 0 10; at_ 0 1 11; at_ 0 2 12; at_ 2 0 13].


Fixpoint contracts (t : kv) (cs : list call) : Prop :=
  match cs with
  | [] => True
  | c :: cs => contract t c ∧ contracts (run c t).2 cs
  end.

Lemma history_reachable k t cs :
  reachable k t → contracts t cs → reachable (length cs + k) (foldl (λ t c, (run c t).2) t cs).
Proof.
  revert k t. induction cs as [|c cs IH]; intros k t Ht Hc; [done|]. destruct Hc as [Hc Hcs].
  simpl. rewrite <-Nat.add_succ_r. apply IH; [by apply reach_call|done].
Qed.

Lemma new_room i j : (N.of_nat i < 2 ^ 32)%N → (N.of_nat j < 2 ^ 32)%N → room (KvTable.new : kv) i j.
Proof. intros Hi Hj. split; unfold st_room; simpl; unfold GenMap.room; simpl; lia. Qed.

Lemma sample_contracts : contracts KvTable.new sample_calls.
Proof.
  repeat (apply conj); try exact I.
  intros e He. vm_compute in He. injection He as <-. vm_compute. lia.
Qed.

Lemma sample_reachable : reachable 8 sample.
Proof. apply (history_reachable 0 KvTable.new sample_calls); [constructor|apply sample_contracts]. Qed.

Lemma sample_settled : settled sample ∧ room sample 2 1.
Proof. apply (reachable_settled 8 _ 2 1 sample_reachable). apply new_room; done. Qed.

Definition entry_of (t : kv) (ws : WorkingSetId) : WorkingSetEntry :=
  default (new_entry None 0 0) (wm t !! ws).

Lemma sample_maps0 : wm sample !! ws_key 0 = Some (entry_of sample (ws_key 0)) ∧
  maps sample (entry_of sample (ws_key 0)) sample_view0.
Proof.
  split; [vm_compute; reflexivity|]. split; [|vm_compute; reflexivity].
  eexists. change sample_view0 with ((([] ++ take 3 sample_view0)) ++ drop 3 sample_view0).
  eapply (walk_some _ (node_key 3) _ (Some (node_key 0))); [vm_compute; reflexivity..|].
  eapply (walk_some _ (node_key 0) _ None); [vm_compute; reflexivity..|]. constructor.
Qed.

Lemma sample_view0_path : view (nm sample) (Some (node_key 3)) sample_view0.
Proof.
  pose proof (proj1 (proj2 sample_maps0)) as H.
  assert (terminal (entry_of sample (ws_key 0)) = Some (node_key 3)) as Ht by by vm_compute.
  by rewrite Ht in H.
Qed.

Lemma sample_maps1 : wm sample !! ws_key 1 = Some (entry_of sample (ws_key 1)) ∧
  maps sample (entry_of sample (ws_key 1)) sample_view1.
Proof.
  split; [vm_compute; reflexivity|]. split; [|vm_compute; reflexivity].
  eexists. change sample_view1 with ((([] ++ take 3 sample_view1)) ++ drop 3 sample_view1).
  eapply (walk_some _ (node_key 2) _ (Some (node_key 0))); [vm_compute; reflexivity..|].
  eapply (walk_some _ (node_key 0) _ None); [vm_compute; reflexivity..|]. constructor.
Qed.

Abbreviation sample0 := (entry_of sample (ws_key 0)).
Abbreviation sample1 := (entry_of sample (ws_key 1)).

Lemma sample0_page : page_len sample0 = 4. Proof. by vm_compute. Qed.
Lemma sample0_mapped : mapped_len sample0 = 4. Proof. by vm_compute. Qed.
Lemma sample1_page : page_len sample1 = 6. Proof. by vm_compute. Qed.
Lemma sample1_mapped : mapped_len sample1 = 4. Proof. by vm_compute. Qed.

(** The theorem's case is decided by the numbers of the sample. *)
Ltac decide_case H :=
  rewrite ?sample0_page, ?sample0_mapped, ?sample1_page, ?sample1_mapped in H;
  repeat first [ rewrite decide_True in H by (cbn; lia) | rewrite decide_False in H by (cbn; lia) ];
  exact H.

Lemma history_safe_witness :
  (run (ReplaceTail (ws_key 1) 1 [published_page 15]) sample).1 ≠ Panic ∧
  settled (run (ReplaceTail (ws_key 1) 1 [published_page 15]) sample).2.
Proof.
  apply (history_safe 8 sample); [apply sample_reachable|by apply new_room|exact I].
Defined.

Lemma history_invariant_witness :
  (∀ ws e, wm sample !! ws = Some e → ∃ v, view (nm sample) (terminal e) v ∧ length v = mapped_len e ∧
     NoDup v.*1 ∧ ∀ c, c ∈ v → c ∈ all_cells (nm sample)) ∧
  (∀ n e, nm sample !! n = Some e → exact_anchors e = count n (anchors sample) ∧ 0 < path_anchors e) ∧
  (∀ l x, (l, x) ∈ all_cells (nm sample) → ¬ locked sample (loc_node l) → 0 < readers_of sample l).
Proof. apply (history_invariant 8 sample); [apply sample_reachable|by apply new_room]. Defined.

Definition release_calls : list call :=
  [DropHold true (node_key 1); Release (ws_key 0); Release (ws_key 1)].
Definition released : kv := foldl (λ t c, (run c t).2) sample release_calls.

Lemma release_reachable t :
  reachable 8 t → reachable 11 (foldl (λ t c, (run c t).2) t release_calls).
Proof. intros Ht. apply (history_reachable 8 t release_calls Ht). by repeat apply conj. Qed.

Lemma released_settled : settled released.
Proof.
  exact (proj1 (reachable_settled 11 released 0 0 (release_reachable sample sample_reachable)
    (new_room 22 11 eq_refl eq_refl))).
Qed.

Lemma unanchored_empty_witness : all_cells (nm sample) ≠ [] ∧ nm released = ∅.
Proof.
  split; [by vm_compute|]. apply unanchored_empty; [apply released_settled|by vm_compute].
Defined.

Lemma publish_correct_witness :
  publish_appended (ws_key 1) (published_page <$> [15%N; 16%N; 17%N]) sample =
    (Err (PublishExceedsReservation 3 4 6), sample) ∧
  ∃ t' added, publish_appended (ws_key 1) [published_page 15] sample = (Ok tt, t') ∧ settled t' ∧
    mapped t' (ws_key 1) (sample_view1 ++ added) ∧ added.*2 = [Resident (PhysicalKvPage 15)] ∧
    others_kept sample t' (ws_key 1) ∧ all_cells (nm t') ≡ₚ added ++ all_cells (nm sample).
Proof.
  assert (Hr : room sample 1 0) by (apply (room_le sample 2 1); [lia..|apply sample_settled]).
  split.
  - pose proof (publish_correct sample (ws_key 1) sample1 sample_view1 (published_page <$> [15%N; 16%N; 17%N])
      (proj1 sample_settled) (proj1 sample_maps1) (proj2 sample_maps1) Hr) as H. decide_case H.
  - pose proof (publish_correct sample (ws_key 1) sample1 sample_view1 [published_page 15]
      (proj1 sample_settled) (proj1 sample_maps1) (proj2 sample_maps1) Hr) as H. decide_case H.
Defined.

Lemma replace_tail_correct_witness :
  replace_tail (ws_key 1) 5 [] sample = (Err (BadRange 5 5 4 6), sample) ∧
  replace_tail (ws_key 1) 4 (published_page <$> [15%N; 16%N; 17%N]) sample =
    (Err (PublishExceedsReservation 3 4 6), sample) ∧
  ∃ t' gone added, replace_tail (ws_key 1) 1 [published_page 15] sample = (Ok gone.*2, t') ∧
    settled t' ∧ mapped t' (ws_key 1) ([at_ 0 0 10] ++ added) ∧
    added.*2 = [Resident (PhysicalKvPage 15)] ∧ others_kept sample t' (ws_key 1) ∧
    added ++ all_cells (nm sample) ≡ₚ gone ++ all_cells (nm t') ∧
    lets_go sample (ws_key 1) [at_ 0 0 10] gone.
Proof.
  assert (Hr : room sample 2 0) by (apply (room_le sample 2 1); [lia..|apply sample_settled]).
  pose proof (λ from ps, replace_tail_correct sample (ws_key 1) sample1 sample_view1 from ps
    (proj1 sample_settled) (proj1 sample_maps1) (proj2 sample_maps1) Hr) as H.
  split_and!.
  - pose proof (H 5 []) as H5. decide_case H5.
  - pose proof (H 4 (published_page <$> [15%N; 16%N; 17%N])) as H4. decide_case H4.
  - pose proof (H 1 [published_page 15]) as H1. decide_case H1.
Defined.

Lemma fork_correct_witness :
  ∃ child t' ec, fork (ws_key 0) sample = (Ok child, t') ∧ wm sample !! child = None ∧ settled t' ∧
    wm t' = <[child := ec]> (wm sample) ∧ mapped t' child sample_view0 ∧
    mapped t' (ws_key 0) sample_view0 ∧
    others_kept sample t' child ∧ all_cells (nm t') = all_cells (nm sample) ∧
    page_len ec = 4 ∧ folded ec = 0%N ∧ prompt_pages ec = 0 ∧
    logged_ ec = [] ∧ pending ec = ∅ ∧ suspended ec = false.
Proof.
  apply (fork_correct sample (ws_key 0) sample0 sample_view0); [apply sample_settled|apply sample_maps0..|].
  apply (room_le sample 2 1); [lia..|apply sample_settled].
Defined.

(** A third working set, that maps nothing yet. *)
Definition sample2 : kv := (run Create sample).2.

Lemma sample2_settled : settled sample2 ∧ room sample2 1 0.
Proof.
  apply (reachable_settled 9 _ 1 0 (reach_call 8 sample Create sample_reachable I)). by apply new_room.
Qed.

Lemma sample2_maps : wm sample2 !! ws_key 2 = Some (new_entry None 0 0) ∧ maps sample2 (new_entry None 0 0) [].
Proof. split; [by vm_compute|]. split; [|done]. exists []. constructor. Qed.

Lemma sample2_view : view (nm sample2) (Some (node_key 3)) sample_view0.
Proof.
  eexists. change sample_view0 with ((([] ++ take 3 sample_view0)) ++ drop 3 sample_view0).
  eapply (walk_some _ (node_key 3) _ (Some (node_key 0))); [vm_compute; reflexivity..|].
  eapply (walk_some _ (node_key 0) _ None); [vm_compute; reflexivity..|]. constructor.
Qed.

Lemma attach_correct_witness :
  (∃ t', attach (ws_key 2) (node_key 3) 0 sample2 = (Ok 4, t') ∧ settled t' ∧
    mapped t' (ws_key 2) sample_view0 ∧ others_kept sample2 t' (ws_key 2) ∧
    all_cells (nm t') ≡ₚ all_cells (nm sample2)) ∧
  attach (ws_key 1) (node_key 3) 0 sample = (Err (BadRange 4 4 4 6), sample).
Proof.
  split.
  - pose proof (attach_correct sample2 (ws_key 2) (new_entry None 0 0) [] (node_key 3) [at_ 3 0 14]
      sample_view0 0 (proj1 sample2_settled) (proj1 sample2_maps) (proj2 sample2_maps)
      ltac:(by vm_compute) sample2_view ltac:(simpl; lia) (proj2 sample2_settled)) as H.
    cbn zeta in H. rewrite decide_True in H by (split; [simpl; lia|done]). exact H.
  - assert (Hr : room sample 1 0) by (apply (room_le sample 2 1); [lia..|apply sample_settled]).
    pose proof (attach_correct sample (ws_key 1) sample1 sample_view1 (node_key 3) [at_ 3 0 14]
      sample_view0 0 (proj1 sample_settled) (proj1 sample_maps1) (proj2 sample_maps1)
      ltac:(by vm_compute) sample_view0_path ltac:(simpl; lia) Hr) as H.
    cbn zeta in H. rewrite sample1_page, sample1_mapped in H.
    rewrite decide_False in H by (intros [Hlt _]; simpl in Hlt; lia). exact H.
Defined.

Lemma kv_release_correct_witness :
  ∃ t' gone, release_working_set_backings (ws_key 0) sample = (Ok gone.*2, t') ∧ settled t' ∧
    wm t' = delete (ws_key 0) (wm sample) ∧ others_kept sample t' (ws_key 0) ∧
    all_cells (nm sample) ≡ₚ gone ++ all_cells (nm t') ∧
    (∀ c, c ∈ gone → ¬ read_by (nm sample) (anchors t') c) ∧
    (∀ c, c ∈ all_cells (nm sample) → ¬ locked sample (loc_node c.1) →
       ¬ read_by (nm sample) (anchors t') c → c ∈ gone).
Proof. exact (kv_release_correct sample (ws_key 0) sample0 (proj1 sample_settled) (proj1 sample_maps0)). Defined.

Lemma drop_hold_correct_witness :
  ∃ t' gone, drop_hold true (node_key 1) sample = (Ok gone.*2, t') ∧ settled t' ∧ all_kept sample t' ∧
    holds_of true t' = (let_go (holds_of true sample) (node_key 1)).2 ∧
    all_cells (nm sample) ≡ₚ gone ++ all_cells (nm t') ∧
    (∀ c, c ∈ gone → ¬ read_by (nm sample) (anchors t') c) ∧
    (∀ c, c ∈ all_cells (nm sample) → ¬ locked sample (loc_node c.1) →
       ¬ read_by (nm sample) (anchors t') c → c ∈ gone).
Proof. exact (drop_hold_correct sample true (node_key 1) (proj1 sample_settled)). Defined.

Lemma lease_survives_release_witness :
  ∃ t1 t2 gone, run (Lease (ws_key 1) 3) sample = (Ok tt, t1) ∧
    release_working_set_backings (ws_key 1) t1 = (Ok gone.*2, t2) ∧ settled t2 ∧
    ∀ c, c ∈ [at_ 0 0 10; at_ 0 1 11; at_ 0 2 12] → (c ∉ gone) ∧ c ∈ all_cells (nm t2).
Proof.
  apply (lease_survives_release sample (ws_key 1) sample1 sample_view1 3);
    [apply sample_settled|apply sample_maps1..|rewrite sample1_mapped; lia|].
  apply (room_le sample 2 1); [lia..|apply sample_settled].
Defined.

Lemma move_correct_witness :
  let ls := [mkLoc (node_key 0) 1; mkLoc (node_key 3) 0] in
  ∃ t1, pin_swap_locations ls sample = (Ok tt, t1) ∧ settled t1 ∧ all_kept sample t1 ∧ nm t1 = nm sample ∧
    ∃ t3 (gone : list cell), unpin_swap_locations ls t1 = (Ok gone.*2, t3) ∧ settled t3 ∧ all_kept t1 t3.
Proof.
  intros ls. destruct (move_correct sample ls (proj1 sample_settled)) as (t1 & H1 & Hset1 & Hk & Hn & Hend).
  - apply NoDup_cons. split; [by intros ?%list_elem_of_singleton|apply NoDup_singleton].
  - intros l _. assert (swap_locations sample = ∅) as -> by by vm_compute. apply not_elem_of_empty.
  - destruct (Hend t1 Hset1 eq_refl) as (t3 & gone & H3 & Hset3 & Hk3 & _). exists t1.
    refine (conj H1 (conj Hset1 (conj Hk (conj Hn _)))).
    exists t3, gone. exact (conj H3 (conj Hset3 Hk3)).
Defined.

Lemma sample_backing : backing_at sample (mkLoc (node_key 0) 1) = Ok (Resident (PhysicalKvPage 11)).
Proof. vm_compute. reflexivity. Qed.

Lemma replace_backings_correct_witness :
  replace_backings [(mkLoc (node_key 0) 1, Resident (PhysicalKvPage 12), Swapped (HostKvSlot 0))] sample =
    (Err BackingChanged, sample) ∧
  ∃ t', replace_backings [(mkLoc (node_key 0) 1, Resident (PhysicalKvPage 11), Swapped (HostKvSlot 0))] sample =
    (Ok tt, t') ∧ settled t' ∧ wm t' = wm sample ∧ ∀ ws v, mapped sample ws v →
      mapped t' ws (put_cell (mkLoc (node_key 0) 1) (Swapped (HostKvSlot 0)) <$> v).
Proof.
  pose proof (λ rs, replace_backings_correct sample rs (proj1 sample_settled)) as H. split.
  - specialize (H [(mkLoc (node_key 0) 1, Resident (PhysicalKvPage 12), Swapped (HostKvSlot 0))]).
    rewrite decide_False in H; [exact H|]. intros [Hb _]%Forall_cons. simpl in Hb.
    rewrite sample_backing in Hb. discriminate Hb.
  - specialize (H [(mkLoc (node_key 0) 1, Resident (PhysicalKvPage 11), Swapped (HostKvSlot 0))]).
    rewrite decide_True in H; [exact H|]. apply Forall_singleton. exact sample_backing.
Defined.

Lemma flatten_correct_witness :
  flatten (ws_key 1) sample = (Ok (PhysicalKvPage <$> [10%N; 11%N; 12%N; 13%N]), sample).
Proof.
  exact (flatten_correct sample (ws_key 1) sample_view1 (proj1 sample_settled)
    (ex_intro _ sample1 sample_maps1)).
Defined.

Lemma privately_writable_correct_witness :
  privately_writable (ws_key 1) 0 sample = (Ok false, sample) ∧
  privately_writable (ws_key 1) 3 sample = (Ok true, sample).
Proof.
  pose proof (λ i l x, privately_writable_correct sample (ws_key 1) sample_view1 i l x
    (proj1 sample_settled) (ex_intro _ sample1 sample_maps1)) as H. split.
  - specialize (H 0 _ _ eq_refl). rewrite H. by vm_compute.
  - specialize (H 3 _ _ eq_refl). rewrite H. by vm_compute.
Defined.

Lemma commit_hashes_correct_witness :
  ∃ t', commit_hashes (ws_key 1) 2 [([Some 7%N], Some 8%N); ([], Some 9%N)] sample = (Ok tt, t') ∧
    settled t' ∧ hashes_at (nm t') (mkLoc (node_key 0) 2) = Some ([Some 7%N], Some 8%N) ∧
    hashes_at (nm t') (mkLoc (node_key 2) 0) = Some ([], Some 9%N) ∧
    hashes_at (nm t') (mkLoc (node_key 0) 0) = Some ([], None).
Proof.
  pose proof (commit_hashes_correct sample (ws_key 1) sample1 sample_view1 2
    [([Some 7%N], Some 8%N); ([], Some 9%N)] (proj1 sample_settled) (proj1 sample_maps1)
    (proj2 sample_maps1)) as H. rewrite sample1_mapped in H. rewrite decide_False in H by (cbn; lia).
  destruct H as (t' & H1 & H2 & _ & Hin & Hout). exists t'.
  refine (conj H1 (conj H2 (conj (Hin 0 _ (at_ 0 2 12) eq_refl eq_refl)
    (conj (Hin 1 _ (at_ 2 0 13) eq_refl eq_refl) _)))).
  rewrite Hout; [vm_compute; reflexivity|]. clear. by apply (bool_decide_unpack _).
Defined.
End KvThm.
