(* ===== verification/KvHash.v ===== *)
(** Content keys ([crates/state/src/key.rs]): a slot's hash chains the hash of
    the slot before it, its token and its position, under a domain; a page's key
    hashes its slots. BLAKE3's keyed derivation is a parameter. *)
From S2P Require Import Prelude Ids Store Runs KvTable.

Module KvHash.
Import KvTable.

(** The three contexts a hasher is made with. *)
Inductive Context_ : Set := DOMAIN_CONTEXT | SLOT_CONTEXT | PAGE_CONTEXT.

(** [to_le_bytes] of an integer of [k] bytes. *)
Fixpoint le_bytes (k : nat) (n : N) : list N :=
  match k with
  | O => []
  | S k => (n mod 256)%N :: le_bytes k (n / 256)
  end.

(** The 32 bytes of a [Hash256]. *)
Definition hash_bytes (h : Hash256) : list N := le_bytes 32 h.

Section hashing.
(** [Hasher::new_derive_key(context)], updated with these bytes, finalized. *)
Context (derive : Context_ → list N → Hash256).

Definition cache_domain (seed : list N) : Hash256 := derive DOMAIN_CONTEXT seed.

(** The bytes a slot's hasher is updated with. *)
Definition slot_input (domain : Hash256) (prev : option Hash256) (token position : N) : list N :=
  hash_bytes domain ++
  match prev with Some prev => 1%N :: hash_bytes prev | None => [0%N] end ++
  le_bytes 4 token ++ le_bytes 4 position.

Definition chain_token_slot_hash (domain : Hash256) (prev : option Hash256) (token position : N) :
    Hash256 := derive SLOT_CONTEXT (slot_input domain prev token position).

Fixpoint chain_slots (domain : Hash256) (prev : option Hash256) (start : N) (tokens : list N) :
    list Hash256 :=
  match tokens with
  | [] => []
  | token :: tokens =>
      let hash := chain_token_slot_hash domain prev token (as_u32 start) in
      hash :: chain_slots domain (Some hash) (start + 1) tokens
  end.

Definition slot_bytes (slot : option Hash256) : list N :=
  match slot with Some hash => 1%N :: hash_bytes hash | None => [0%N] end.

(** The bytes a page's hasher is updated with. *)
Definition page_input (slot_hashes : list (option Hash256)) : list N :=
  le_bytes 8 (N.of_nat (length slot_hashes)) ++ concat (slot_bytes <$> slot_hashes).

Definition page_hash (slot_hashes : list (option Hash256)) : Hash256 :=
  derive PAGE_CONTEXT (page_input slot_hashes).
End hashing.

(** ** The bytes that are hashed tell the inputs apart *)

Lemma length_le_bytes k n : length (le_bytes k n) = k.
Proof. revert n. induction k as [|k IH]; intros n; simpl; [done|]. by rewrite IH. Qed.

Lemma le_bytes_inj k n m :
  (n < 256 ^ N.of_nat k)%N → (m < 256 ^ N.of_nat k)%N → le_bytes k n = le_bytes k m → n = m.
Proof.
  revert n m. induction k as [|k IH]; intros n m Hn Hm.
  - change (256 ^ N.of_nat 0)%N with 1%N in *. lia.
  - rewrite Nat2N.inj_succ, N.pow_succ_r' in Hn, Hm. simpl. intros [= H1 H2].
    apply IH in H2; [|apply N.Div0.div_lt_upper_bound; lia..].
    rewrite (N.div_mod' n 256), (N.div_mod' m 256). lia.
Qed.

Definition is_hash (h : Hash256) : Prop := (h < 2 ^ 256)%N.
Definition is_u32 (n : N) : Prop := (n < 2 ^ 32)%N.

Lemma hash_bytes_inj g h : is_hash g → is_hash h → hash_bytes g = hash_bytes h → g = h.
Proof.
  unfold is_hash, hash_bytes. intros Hg Hh. apply le_bytes_inj; by apply (N.lt_le_trans _ (2 ^ 256)).
Qed.

Lemma u32_bytes_inj n m : is_u32 n → is_u32 m → le_bytes 4 n = le_bytes 4 m → n = m.
Proof. intros Hn Hm. apply le_bytes_inj; by apply (N.lt_le_trans _ (2 ^ 32)). Qed.

(** ** What a key names *)

Section identity.
Context (derive : Context_ → list N → Hash256).

(** An input of each of these that the hash does not tell apart. *)
Definition collision (I I' : list (Context_ * list N)) : Prop :=
  ∃ c b b', (c, b) ∈ I ∧ (c, b') ∈ I' ∧ b ≠ b' ∧ derive c b = derive c b'.

Lemma derive_inj I I' c b b' :
  (c, b) ∈ I → (c, b') ∈ I' → derive c b = derive c b' → b = b' ∨ collision I I'.
Proof. intros Hb Hb' H. destruct (decide (b = b')); [by left|right; by exists c, b, b']. Qed.

(** What is hashed along a chain. *)
Fixpoint slot_inputs (domain : Hash256) (prev : option Hash256) (start : N) (tokens : list N) :
    list (Context_ * list N) :=
  match tokens with
  | [] => []
  | token :: tokens =>
      (SLOT_CONTEXT, slot_input domain prev token (as_u32 start)) ::
      slot_inputs domain (Some (chain_token_slot_hash derive domain prev token (as_u32 start))) (start + 1) tokens
  end.

(** The hashes are of 32 bytes. *)
Context (derive_hash : ∀ c b, is_hash (derive c b)).

Lemma prev_bytes_inj (p p' : option Hash256) (r r' : list N) :
  (∀ h, p = Some h → is_hash h) → (∀ h, p' = Some h → is_hash h) →
  slot_bytes p ++ r = slot_bytes p' ++ r' → p = p' ∧ r = r'.
Proof.
  intros Hp Hp'. destruct p as [h|], p' as [h'|]; try done.
  - change ((1%N :: hash_bytes h) ++ r = (1%N :: hash_bytes h') ++ r' → Some h = Some h' ∧ r = r').
    intros H. assert (hash_bytes h ++ r = hash_bytes h' ++ r') as H' by exact (f_equal (@tail N) H).
    apply app_inj_1 in H' as [Hh ->]; [|unfold hash_bytes; by rewrite !length_le_bytes].
    by rewrite (hash_bytes_inj h h') by auto.
  - by intros [= ->].
Qed.

Lemma slot_hash_inj I I' domain prev token pos prev' token' pos' :
  (SLOT_CONTEXT, slot_input domain prev token pos) ∈ I →
  (SLOT_CONTEXT, slot_input domain prev' token' pos') ∈ I' →
  (∀ h, prev = Some h → is_hash h) → (∀ h, prev' = Some h → is_hash h) →
  is_u32 token → is_u32 token' → is_u32 pos → is_u32 pos' →
  chain_token_slot_hash derive domain prev token pos = chain_token_slot_hash derive domain prev' token' pos' →
  (prev = prev' ∧ token = token' ∧ pos = pos') ∨ collision I I'.
Proof.
  intros HI HI' Hp Hp' Ht Ht' Hs Hs' H. eapply derive_inj in H as [H|?]; [left|by right|done..].
  apply app_inv_head in H.
  apply (prev_bytes_inj prev prev') in H as [-> H]; [|done..].
  apply app_inj_1 in H as [H1 H2]; [|by rewrite !length_le_bytes].
  apply u32_bytes_inj in H1 as ->; [|done..]. by apply u32_bytes_inj in H2 as ->.
Qed.

Lemma slots_bytes_inj (l l' : list (option Hash256)) :
  (∀ h, Some h ∈ l → is_hash h) → (∀ h, Some h ∈ l' → is_hash h) → length l = length l' →
  concat (slot_bytes <$> l) = concat (slot_bytes <$> l') → l = l'.
Proof.
  revert l'. induction l as [|p l IH]; intros [|p' l']; try done.
  intros Hl Hl' [= Hlen] H. simpl in H. apply prev_bytes_inj in H as [-> H].
  - f_equal. apply IH; [| |done..]; intros h Hh; [apply Hl|apply Hl']; by right.
  - intros h ->. apply Hl. by left.
  - intros h ->. apply Hl'. by left.
Qed.

Lemma page_hash_inj I I' l l' :
  (PAGE_CONTEXT, page_input l) ∈ I → (PAGE_CONTEXT, page_input l') ∈ I' →
  (∀ h, Some h ∈ l → is_hash h) → (∀ h, Some h ∈ l' → is_hash h) →
  (N.of_nat (length l) < 2 ^ 64)%N → (N.of_nat (length l') < 2 ^ 64)%N →
  page_hash derive l = page_hash derive l' → l = l' ∨ collision I I'.
Proof.
  intros HI HI' Hl Hl' Hn Hn' H. eapply derive_inj in H as [H|?]; [left|by right|done..].
  apply app_inj_1 in H as [H1 H2]; [|by rewrite !length_le_bytes].
  apply le_bytes_inj in H1; [|done..]. apply slots_bytes_inj; [done..|lia|done].
Qed.

(** The hash of slot [i] of a chain. *)
Lemma chain_slots_hash domain prev start tokens h : h ∈ chain_slots derive domain prev start tokens → is_hash h.
Proof.
  revert prev start. induction tokens as [|t tokens IH]; intros prev start; simpl.
  - by intros ?%not_elem_of_nil.
  - intros [->|?]%elem_of_cons; [apply derive_hash|by eapply IH].
Qed.

Lemma length_chain_slots domain prev start tokens :
  length (chain_slots derive domain prev start tokens) = length tokens.
Proof. revert prev start. induction tokens as [|t tokens IH]; intros; simpl; [done|]. by rewrite IH. Qed.

(** What the chain goes on from after these slots. *)
Definition chain_end (prev : option Hash256) (slots : list Hash256) : option Hash256 :=
  default prev (Some <$> last slots).

Lemma chain_end_none slots : chain_end None slots = last slots.
Proof. unfold chain_end. by destruct (last slots). Qed.

Lemma chain_slots_app domain prev start tokens more :
  chain_slots derive domain prev start (tokens ++ more) =
  chain_slots derive domain prev start tokens ++
  chain_slots derive domain (chain_end prev (chain_slots derive domain prev start tokens))
    (start + N.of_nat (length tokens)) more.
Proof.
  revert prev start. induction tokens as [|t tokens IH]; intros prev start; [by rewrite N.add_0_r|].
  simpl. rewrite IH. f_equal. f_equal.
  replace (start + 1 + N.of_nat (length tokens))%N with (start + N.pos (Pos.of_succ_nat (length tokens)))%N by lia.
  unfold chain_end. rewrite last_cons. by destruct (last _).
Qed.

Lemma slot_inputs_app domain prev start tokens more :
  slot_inputs domain prev start (tokens ++ more) =
  slot_inputs domain prev start tokens ++
  slot_inputs domain (chain_end prev (chain_slots derive domain prev start tokens))
    (start + N.of_nat (length tokens)) more.
Proof.
  revert prev start. induction tokens as [|t tokens IH]; intros prev start; [by rewrite N.add_0_r|].
  simpl. rewrite IH. f_equal. f_equal.
  replace (start + 1 + N.of_nat (length tokens))%N with (start + N.pos (Pos.of_succ_nat (length tokens)))%N by lia.
  unfold chain_end. rewrite last_cons. by destruct (last _).
Qed.
End identity.
End KvHash.
