(* ===== verification/KvStore.v ===== *)
(** The store of KV pages ([crates/runtime/src/store/kv.rs] with the prepared
    writes of [kv/write.rs]): the page table composed with the pools of device
    pages, host slots and disk slots, the cache of kept prefixes, writes that are
    prepared and published, and moves between the tiers. A method takes the store
    and gives an outcome and the store it leaves; the ones that take [&mut] a grant
    take and leave the grant beside it. *)
From S2P Require Import Prelude Ids Store Pool Runs KvTable KvOps KvMove KvHash.
From stdpp Require Import strings.

Module KvStore.
Import Runs KvTable KvOps KvMove KvHash.

(** ** Data *)

Inductive KvStoreError : Type :=
  | Table (e : KvTableError)
  | OutOfPages (requested available : nat)
  | BadWriteSet (reason : string)
  | CommitMismatch
  | GrantMismatch (required granted : nat)
  | HostSwapFull (requested available : nat)
  | MoveInFlight.

Record WriteClassification : Type := mkClass {
  in_place : list (nat * PhysicalKvPageId);
  cow_start : option nat;
  cow_srcs : list PhysicalKvPageId;
  fresh : list nat;
}.

Definition required_pages (c : WriteClassification) : nat := length (cow_srcs c) + length (fresh c).

Record SwapPage : Type := mkSwap {
  location : TriePageLocation;
  gpu_id : PhysicalKvPageId;
  swapped : KvPageBacking;
}.

Record KvResidencyTxn : Type := mkTxn {
  txn_sets : gset WorkingSetId;
  txn_pages : list SwapPage;
  pinned : list NodeId;
}.

Inductive MemoryDomain : Set := HostPinned | LocalDisk.
#[export] Instance memory_domain_eq_dec : EqDecision MemoryDomain.
Proof. solve_decision. Defined.

(** The tier and the slot of a page below the device; [None] is
    [unreachable!]. *)
Definition tier_slot (b : KvPageBacking) : option (MemoryDomain * N) :=
  match b with
  | Swapped slot => Some (HostPinned, index slot)
  | OnDisk slot => Some (LocalDisk, index slot)
  | Resident _ => None
  end.

(** A page joins the plan of its tier, or starts one. *)
Fixpoint push_plan (tier : MemoryDomain) (gpu slot : N)
    (plans : list (MemoryDomain * list N * list N)) : list (MemoryDomain * list N * list N) :=
  match plans with
  | [] => [(tier, [gpu], [slot])]
  | (at_, gpus, slots) :: plans =>
      if decide (at_ = tier) then (at_, gpus ++ [gpu], slots ++ [slot]) :: plans
      else (at_, gpus, slots) :: push_plan tier gpu slot plans
  end.

Fixpoint copy_plans_loop (pages : list SwapPage) (plans : list (MemoryDomain * list N * list N)) :
    option (list (MemoryDomain * list N * list N)) :=
  match pages with
  | [] => Some plans
  | page :: pages =>
      match tier_slot (swapped page) with
      | Some (tier, slot) =>
          copy_plans_loop pages (push_plan tier (index (gpu_id page)) slot plans)
      | None => None
      end
  end.

Definition copy_plans (txn : KvResidencyTxn) : option (list (MemoryDomain * list N * list N)) :=
  copy_plans_loop (txn_pages txn) [].

Definition page_count (txn : KvResidencyTxn) : nat := length (txn_pages txn).

Inductive PreparedTarget : Type :=
  | Fresh (index : nat) (dst : PhysicalKvPageId)
  | InPlace (index : nat) (dst : PhysicalKvPageId)
  | Cow (index : nat) (src dst : PhysicalKvPageId).

Definition target_index (t : PreparedTarget) : nat :=
  match t with Fresh index _ | InPlace index _ | Cow index _ _ => index end.

Record KvPreparedWrite : Type := mkWrite {
  write_ws : WorkingSetId;
  targets : list PreparedTarget;
  allocated : list PhysicalKvPageId;
  write_cow_start : option nat;
  write_seq : N;
}.

Definition copy_plan (w : KvPreparedWrite) : list (PhysicalKvPageId * PhysicalKvPageId) :=
  omap (λ t, match t with Cow _ src dst => Some (src, dst) | _ => None end) (targets w).

Record PageCommit : Type := mkCommit {
  commit_tokens : list (option Hash256);
  commit_page : option Hash256;
}.

Abbreviation ReaderPin := (list NodeId).

(** [Instant], as a count of ticks. *)
Abbreviation Instant := N.

Record KeptEntry : Type := mkKeptEntry {
  path : KeptPath;
  kept_owner : option ProcessId;
  last_use : Instant;
  decoded : bool;
}.

Record CachedWorkingSet : Type := mkCached {
  cached_owner : ProcessId;
  cached_entries : nat;
  cached_pages : nat;
  cached_last_use : Instant;
}.

(** The trait [Keys] of [policy/retention.rs]. *)
Record Keys : Type := mkKeys {
  key_at : option ProcessId → N → Z;
  steps : ProcessId → list N;
}.

(** The order of the groups: [(!frees, key, !decoded, last_use)]. *)
Definition rank_le (a b : bool * Z * bool * Instant) : bool :=
  let '(f, k, d, u) := a in
  let '(f', k', d', u') := b in
  if decide (f ≠ f') then negb f
  else if decide (k ≠ k') then (k <? k')%Z
  else if decide (d ≠ d') then negb d
  else (u <=? u')%N.

(** Groups in the order of their ranks. *)
Definition ranked (a b : bool * Z * bool * Instant * (Z * list N)) : Prop := rank_le a.1 b.1 = true.
#[export] Instance ranked_dec : RelDecision ranked.
Proof. intros a b. unfold ranked. apply _. Defined.

(** ** The store *)

Section store.
Context {WS NS : Type → Type} `{!KeyedStore WorkingSetId WS, !KeyedStore NodeId NS}.
Context (derive : Context_ → list N → Hash256).

Record KvStore : Type := mkStore {
  table : KvPageTable WS NS;
  pool : Pool.Pool PhysicalKvPageId;
  host_pool : Pool.Pool HostKvSlotId;
  disk_pool : Pool.Pool DiskKvSlotId;
  flat : gmap WorkingSetId (option (list PhysicalKvPageId));
  domain : Hash256;
  cache : gmap N KeptEntry;
  splits : gset (N * nat);
  owners : gmap ProcessId nat;
  keeps : bool;
  kept : N;
  page_size : N;
  log_seq : N;
  seq : N;
  outstanding : gset N;
}.

Implicit Types s : KvStore.
Abbreviation tm := (method (KvPageTable WS NS) KvTableError).
Abbreviation sm := (method KvStore KvStoreError).

Definition set_table s x : KvStore :=
  mkStore x (pool s) (host_pool s) (disk_pool s) (flat s) (domain s) (cache s) (splits s)
    (owners s) (keeps s) (kept s) (page_size s) (log_seq s) (seq s) (outstanding s).
Definition set_pool s x : KvStore :=
  mkStore (table s) x (host_pool s) (disk_pool s) (flat s) (domain s) (cache s) (splits s)
    (owners s) (keeps s) (kept s) (page_size s) (log_seq s) (seq s) (outstanding s).
Definition set_host_pool s x : KvStore :=
  mkStore (table s) (pool s) x (disk_pool s) (flat s) (domain s) (cache s) (splits s)
    (owners s) (keeps s) (kept s) (page_size s) (log_seq s) (seq s) (outstanding s).
Definition set_disk_pool s x : KvStore :=
  mkStore (table s) (pool s) (host_pool s) x (flat s) (domain s) (cache s) (splits s)
    (owners s) (keeps s) (kept s) (page_size s) (log_seq s) (seq s) (outstanding s).
Definition set_flat s x : KvStore :=
  mkStore (table s) (pool s) (host_pool s) (disk_pool s) x (domain s) (cache s) (splits s)
    (owners s) (keeps s) (kept s) (page_size s) (log_seq s) (seq s) (outstanding s).
Definition set_domain s x : KvStore :=
  mkStore (table s) (pool s) (host_pool s) (disk_pool s) (flat s) x (cache s) (splits s)
    (owners s) (keeps s) (kept s) (page_size s) (log_seq s) (seq s) (outstanding s).
Definition set_cache s x : KvStore :=
  mkStore (table s) (pool s) (host_pool s) (disk_pool s) (flat s) (domain s) x (splits s)
    (owners s) (keeps s) (kept s) (page_size s) (log_seq s) (seq s) (outstanding s).
Definition set_splits s x : KvStore :=
  mkStore (table s) (pool s) (host_pool s) (disk_pool s) (flat s) (domain s) (cache s) x
    (owners s) (keeps s) (kept s) (page_size s) (log_seq s) (seq s) (outstanding s).
Definition set_owners s x : KvStore :=
  mkStore (table s) (pool s) (host_pool s) (disk_pool s) (flat s) (domain s) (cache s) (splits s)
    x (keeps s) (kept s) (page_size s) (log_seq s) (seq s) (outstanding s).
Definition set_keeps s x : KvStore :=
  mkStore (table s) (pool s) (host_pool s) (disk_pool s) (flat s) (domain s) (cache s) (splits s)
    (owners s) x (kept s) (page_size s) (log_seq s) (seq s) (outstanding s).
Definition set_kept s x : KvStore :=
  mkStore (table s) (pool s) (host_pool s) (disk_pool s) (flat s) (domain s) (cache s) (splits s)
    (owners s) (keeps s) x (page_size s) (log_seq s) (seq s) (outstanding s).
Definition set_page_size s x : KvStore :=
  mkStore (table s) (pool s) (host_pool s) (disk_pool s) (flat s) (domain s) (cache s) (splits s)
    (owners s) (keeps s) (kept s) x (log_seq s) (seq s) (outstanding s).
Definition set_log_seq s x : KvStore :=
  mkStore (table s) (pool s) (host_pool s) (disk_pool s) (flat s) (domain s) (cache s) (splits s)
    (owners s) (keeps s) (kept s) (page_size s) x (seq s) (outstanding s).
Definition set_seq s x o : KvStore :=
  mkStore (table s) (pool s) (host_pool s) (disk_pool s) (flat s) (domain s) (cache s) (splits s)
    (owners s) (keeps s) (kept s) (page_size s) (log_seq s) x o.

(** A call of a method of the table, its error wrapped by [?]. *)
Definition tbl {A} (m : tm A) : sm A := λ s,
  match m (table s) with
  | (Ok a, t) => (Ok a, set_table s t)
  | (Err e, t) => (Err (Table e), set_table s t)
  | (Panic, t) => (Panic, set_table s t)
  end.

(** A function that reads the table; [None] is its panic. *)
Definition tread {A} (f : KvPageTable WS NS → option A) : sm A := mread (λ s, f (table s)).

(** [call.ok()], [unwrap_or] and the like: an error of the table's is dropped. *)
Definition tbl_or {A} (m : tm A) (d : A) : sm A := mor_else (tbl m) d.

(** [match call { Ok(a) => a, Err(e) => handler }]. *)
Definition catch {A} (m : sm A) (h : KvStoreError → sm A) : sm A := λ s,
  match m s with
  | (Err e, s) => h e s
  | r => r
  end.

(** ** New stores *)

(** [None] is a pool's panic. *)
Definition new_with_swap (capacity host_capacity disk_capacity : N) (seed : Hash256) :
    option KvStore :=
  match Pool.new capacity, Pool.new host_capacity, Pool.new disk_capacity with
  | Some pool, Some host_pool, Some disk_pool =>
      Some (mkStore KvTable.new pool host_pool disk_pool ∅ (cache_domain derive (hash_bytes seed))
              ∅ ∅ ∅ false 0 0 0 0 ∅)
  | _, _, _ => None
  end.

(** ** Pools *)

Definition available_pages s : nat := Pool.available (pool s).
Definition host_swap_available s : nat := Pool.available (host_pool s).
Definition disk_swap_available s : nat := Pool.available (disk_pool s).
Definition swap_available s : nat := Pool.available (host_pool s) + Pool.available (disk_pool s).
Definition capacity_pages s : N := Pool.capacity (pool s).
Definition host_swap_capacity s : N := Pool.capacity (host_pool s).
Definition disk_swap_capacity s : N := Pool.capacity (disk_pool s).

Definition current_epoch s : N := seq s.

(** The calls of the pools, with their debug assertions. *)
Definition release_pages (ids : list PhysicalKvPageId) : sm unit :=
  s ⇐ mget ;;
  mguard (Pool.release_reserved_asserts (pool s) ids = true) ;;;
  mmodify (λ s, set_pool s (Pool.release_reserved (pool s) ids)).
Definition release_host (ids : list HostKvSlotId) : sm unit :=
  s ⇐ mget ;;
  mguard (Pool.release_reserved_asserts (host_pool s) ids = true) ;;;
  mmodify (λ s, set_host_pool s (Pool.release_reserved (host_pool s) ids)).
Definition release_disk (ids : list DiskKvSlotId) : sm unit :=
  s ⇐ mget ;;
  mguard (Pool.release_reserved_asserts (disk_pool s) ids = true) ;;;
  mmodify (λ s, set_disk_pool s (Pool.release_reserved (disk_pool s) ids)).
Definition recycle_pages (ids : list PhysicalKvPageId) (epoch : N) : sm unit :=
  mmodify (λ s, set_pool s (Pool.recycle_after_epoch (pool s) ids epoch)).

Definition reserve_device_pages (count : nat) : sm (option (list PhysicalKvPageId)) := λ s,
  let '(ids, p) := Pool.try_alloc_n (pool s) count in (Ok ids, set_pool s p).
Definition release_device_reservation (pages : list PhysicalKvPageId) : sm unit :=
  release_pages pages.
Definition alloc_host_slots (n : nat) : sm (option (list HostKvSlotId)) := λ s,
  let '(ids, p) := Pool.try_alloc_n (host_pool s) n in (Ok ids, set_host_pool s p).
Definition alloc_disk_slots (n : nat) : sm (option (list DiskKvSlotId)) := λ s,
  let '(ids, p) := Pool.try_alloc_n (disk_pool s) n in (Ok ids, set_disk_pool s p).
Definition free_host_slots (slots : list HostKvSlotId) : sm unit := release_host slots.

(** The least of [outstanding]. *)
Definition oldest s : option N :=
  match elements (outstanding s) with
  | [] => None
  | x :: l => Some (foldr N.min x l)
  end.

Definition retire_idle : sm unit :=
  mcall (λ s,
    let through := match oldest s with Some oldest => (oldest - 1)%N | None => seq s end in
    match Pool.retire_through (pool s) through with
    | Some p => Some (tt, set_pool s p)
    | None => None
    end).

Definition host_slot (b : KvPageBacking) : option HostKvSlotId :=
  match b with Swapped slot => Some slot | _ => None end.
Definition disk_slot (b : KvPageBacking) : option DiskKvSlotId :=
  match b with OnDisk slot => Some slot | _ => None end.
Definition device_page (b : KvPageBacking) : option PhysicalKvPageId :=
  match b with Resident id => Some id | _ => None end.

Definition release_swapped (backings : list KvPageBacking) : sm unit :=
  (if decide (Forall (λ b, device_page b = None) backings) then mok tt else mpanic) ;;;
  release_host (omap host_slot backings) ;;;
  release_disk (omap disk_slot backings).

Definition recycle_backings (backings : list KvPageBacking) (epoch : N) : sm unit :=
  recycle_pages (omap device_page backings) epoch ;;;
  release_swapped (filter (λ b, device_page b = None) backings).

(** ** Working sets *)

Definition create_working_set : sm WorkingSetId :=
  ws ⇐ tbl KvOps.create_working_set ;;
  mmodify (λ s, set_flat s (<[ws := Some []]> (flat s))) ;;;
  mok ws.

(** [self.table.flatten(ws).ok()]. *)
Definition refresh_flat (ws : WorkingSetId) : sm unit :=
  f ⇐ tbl_or (f ⇐ flatten ws ;; mok (Some f)) None ;;
  mmodify (λ s, set_flat s (<[ws := f]> (flat s))).

Definition flat_table (ws : WorkingSetId) : sm (list PhysicalKvPageId) :=
  s ⇐ mget ;;
  match flat s !! ws with
  | Some (Some f) => mok f
  | _ =>
      f ⇐ tbl (flatten ws) ;;
      mmodify (λ s, set_flat s (<[ws := Some f]> (flat s))) ;;;
      mok f
  end.

Definition fork (ws : WorkingSetId) : sm WorkingSetId :=
  child ⇐ tbl (KvOps.fork ws) ;;
  refresh_flat child ;;;
  mok child.

Definition reserve (ws : WorkingSetId) (pages : nat) : sm (nat * nat) := tbl (KvOps.reserve ws pages).
Definition log_rows (ws : WorkingSetId) (start : N) (tokens : list N) : sm unit :=
  tbl (KvOps.log_rows ws start tokens).

Definition log_begin (ws : WorkingSetId) (cut : N) : sm N :=
  mmodify (λ s, set_log_seq s (as_u64 (log_seq s + 1))) ;;;
  s ⇐ mget ;;
  tbl (KvOps.log_begin ws (log_seq s) cut) ;;;
  mok (log_seq s).

Definition log_end (ws : WorkingSetId) (seq : N) (rows : option (N * list N)) : sm unit :=
  tbl (KvOps.log_end ws seq rows).
Definition set_owner (ws : WorkingSetId) (o : ProcessId) : sm unit := tbl (KvOps.set_owner ws o).
Definition logged (ws : WorkingSetId) : sm (list N) := tbl (KvOps.logged ws).
Definition folded (ws : WorkingSetId) : sm N := tbl (folded_of ws).
Definition supplied_tokens (ws : WorkingSetId) : sm N := tbl (supplied_of ws).
Definition mapped_len (ws : WorkingSetId) : sm nat := tbl (mapped_len_of ws).
Definition page_len (ws : WorkingSetId) : sm nat := tbl (page_len_of ws).
Definition privately_writable (ws : WorkingSetId) (index : nat) : sm bool :=
  tbl (KvOps.privately_writable ws index).
Definition page_hash_at (ws : WorkingSetId) (index : nat) : sm (option Hash256) :=
  tbl (KvOps.page_hash_at ws index).
Definition page_token_hashes (ws : WorkingSetId) (index : nat) : sm (list (option Hash256)) :=
  tbl (KvOps.page_token_hashes ws index).

(** ** Grants *)

(** Beside the store, a grant of device pages lent with [&mut]. *)
Abbreviation gm := (method (KvStore * list PhysicalKvPageId) KvStoreError).

Definition with_grant {A} (m : sm A) : gm A := λ g,
  let '(r, s) := m g.1 in (r, (s, g.2)).

(** [granted.drain(..n)], after [GrantMismatch] where there are fewer. *)
Definition draw (required : nat) : gm (list PhysicalKvPageId) := λ g,
  if decide (length g.2 < required) then (Err (GrantMismatch required (length g.2)), g)
  else (Ok (take required g.2), (g.1, drop required g.2)).

(** A [usize] is 64 bits wide, so the conversion of the difference holds. *)
Definition backing_demand (ws : WorkingSetId) (end_ : nat) : sm nat :=
  page_len ⇐ tbl (page_len_of ws) ;;
  if decide (page_len < end_) then
    merr (BadWriteSet "backing frontier exceeds the logical reservation")
  else
    mapped ⇐ tbl (mapped_len_of ws) ;;
    mok (end_ - mapped).

Definition ensure_backed_reserved (ws : WorkingSetId) (end_ : nat) : gm nat :=
  count ⇐ with_grant (backing_demand ws end_) ;;
  g ⇐ mget ;;
  if decide (length g.2 < count) then merr (GrantMismatch count (length g.2))
  else if decide (count = 0) then mok 0
  else
    allocated ⇐ draw count ;;
    with_grant (catch (tbl (publish_appended ws ((λ id, mkPublished id [] None) <$> allocated)))
                  (λ e, release_pages allocated ;;; merr e)) ;;;
    with_grant (refresh_flat ws) ;;;
    mok count.

(** ** Prepared writes *)

(** The check that fresh writes continue the mapped pages. *)
Fixpoint contiguous (from : nat) (l : list nat) : bool :=
  match l with
  | [] => true
  | index :: l => bool_decide (index = from) && contiguous (S from) l
  end.

(** [sort_unstable] and [dedup] of the indexes. *)
Fixpoint dedup_sorted (l : list nat) : list nat :=
  match l with
  | [] => []
  | x :: l =>
      match dedup_sorted l with
      | y :: k => if decide (x = y) then y :: k else x :: y :: k
      | [] => [x]
      end
  end.
Definition sort_dedup (l : list nat) : list nat := dedup_sorted (merge_sort (≤) l).

(** The loop over the mapped indexes: which pages are written in place, and from
    where the rest is copied. *)
Fixpoint classify_loop (ws : WorkingSetId) (visible : list PhysicalKvPageId) (indexes : list nat)
    (in_place : list (nat * PhysicalKvPageId)) (cow : option nat) :
    sm (list (nat * PhysicalKvPageId) * option nat) :=
  match indexes with
  | [] => mok (in_place, cow)
  | index :: indexes =>
      private ⇐ tbl (KvOps.privately_writable ws index) ;;
      sealed ⇐ (if (private : bool) then tbl (KvOps.sealed ws index) else mok true) ;;
      if (sealed : bool) then
        classify_loop ws visible indexes in_place
          (Some (match cow with Some c => c `min` index | None => index end))
      else
        id ⇐ mexpect (visible !! index) ;;
        classify_loop ws visible indexes (in_place ++ [(index, id)]) cow
  end.

Definition classify_write (ws : WorkingSetId) (write_indexes : list nat) : sm WriteClassification :=
  visible ⇐ flat_table ws ;;
  let mapped := length visible in
  page_len ⇐ tbl (page_len_of ws) ;;
  let indexes := sort_dedup write_indexes in
  if decide (Exists (λ max, page_len ≤ max) (option_list (last indexes))) then
    merr (BadWriteSet "write beyond the logical reservation")
  else
    let fresh := filter (λ i, mapped ≤ i) indexes in
    if negb (contiguous mapped fresh) then
      merr (BadWriteSet "fresh writes must be contiguous from the mapped end")
    else
      r ⇐ classify_loop ws visible (filter (λ i, i < mapped) indexes) [] None ;;
      match r.2 with
      | Some cs => mok (mkClass (filter (λ p, p.1 < cs) r.1) (Some cs) (drop cs visible) fresh)
      | None => mok (mkClass r.1 None [] fresh)
      end.

Definition write_demand (ws : WorkingSetId) (write_indexes : list nat) : sm nat :=
  c ⇐ classify_write ws write_indexes ;; mok (required_pages c).

(** [fresh_ids.next().expect(..)] for each of a list. *)
Fixpoint zip_expect {A B C} (f : A → B → C) (l : list A) (ids : list B) : option (list C * list B) :=
  match l with
  | [] => Some ([], ids)
  | a :: l =>
      match ids with
      | id :: ids =>
          match zip_expect f l ids with
          | Some (cs, rest) => Some (f a id :: cs, rest)
          | None => None
          end
      | [] => None
      end
  end.

Definition write_targets (c : WriteClassification) (allocated : list PhysicalKvPageId) :
    option (list PreparedTarget) :=
  let writes := (λ p, InPlace p.1 p.2) <$> in_place c in
  match
    match cow_start c with
    | Some cs => zip_expect (λ p dst, Cow p.1 p.2 dst) (imap (λ i src, (cs + i, src)) (cow_srcs c)) allocated
    | None => Some ([], allocated)
    end
  with
  | Some (cows, rest) =>
      match zip_expect (λ index dst, Fresh index dst) (fresh c) rest with
      | Some (freshes, _) => Some (writes ++ cows ++ freshes)
      | None => None
      end
  | None => None
  end.

Definition finish_prepare_write (ws : WorkingSetId) (c : WriteClassification)
    (allocated : list PhysicalKvPageId) : sm KvPreparedWrite :=
  targets ⇐ mexpect (write_targets c allocated) ;;
  mmodify (λ s, let seq' := as_u64 (seq s + 1) in set_seq s seq' ({[seq']} ∪ outstanding s)) ;;;
  s ⇐ mget ;;
  mok (mkWrite ws targets allocated (cow_start c) (seq s)).

Definition prepare_write_reserved (ws : WorkingSetId) (write_indexes : list nat) : gm KvPreparedWrite :=
  c ⇐ with_grant (classify_write ws write_indexes) ;;
  allocated ⇐ draw (required_pages c) ;;
  with_grant (finish_prepare_write ws c allocated).

Definition cancel_prepared (prepared : KvPreparedWrite) : sm unit :=
  recycle_pages (allocated prepared) (write_seq prepared) ;;;
  mmodify (λ s, set_seq s (seq s) (outstanding s ∖ {[write_seq prepared]})) ;;;
  retire_idle.

(** The pages of the targets that change the mapping. *)
Definition moved_page (t : PreparedTarget) (c : PageCommit) : option PublishedPage :=
  match t with
  | Cow _ _ dst | Fresh _ dst => Some (mkPublished dst (commit_tokens c) (commit_page c))
  | InPlace _ _ => None
  end.

Definition changes_mapping (t : PreparedTarget) : bool :=
  match t with Cow _ _ _ | Fresh _ _ => true | InPlace _ _ => false end.

Definition publish_prepared (prepared : KvPreparedWrite) (commits : list PageCommit) : sm N :=
  if decide (length commits ≠ length (targets prepared)) then
    cancel_prepared prepared ;;; merr CommitMismatch
  else
    let ws := write_ws prepared in
    let both := zip (targets prepared) commits in
    mfor both (λ p,
      match p.1 with
      | InPlace index _ => tbl (commit_in_place ws index (commit_tokens p.2) (commit_page p.2))
      | _ => mok tt
      end) ;;;
    let pages := omap (λ p, moved_page p.1 p.2) both in
    let mapping_changed := existsb changes_mapping (targets prepared) in
    freed ⇐ match write_cow_start prepared with
            | Some cs => tbl (replace_tail ws cs pages)
            | None =>
                if decide (pages = []) then mok []
                else tbl (publish_appended ws pages) ;;; mok []
            end ;;
    (if mapping_changed then refresh_flat ws else mok tt) ;;;
    recycle_backings freed (write_seq prepared) ;;;
    mok (write_seq prepared).

Definition settle (seq' : N) : sm unit :=
  mmodify (λ s, set_seq s (seq s) (outstanding s ∖ {[seq']})) ;;;
  retire_idle.

(** ** The cache of kept prefixes *)

(** What [disown] does to the counts of owners; a count that would go below
    zero panics. *)
Definition disown (entry : KeptEntry) : sm unit :=
  match kept_owner entry with
  | None => mok tt
  | Some owner =>
      s ⇐ mget ;;
      match owners s !! owner with
      | None => mok tt
      | Some count =>
          mguard (0 < count) ;;;
          mmodify (λ s, set_owners s
            (if decide (count - 1 = 0) then delete owner (owners s)
             else <[owner := count - 1]> (owners s)))
      end
  end.

Definition own (o : option ProcessId) : sm unit :=
  match o with
  | Some owner =>
      mmodify (λ s, set_owners s (<[owner := default 0 (owners s !! owner) + 1]> (owners s)))
  | None => mok tt
  end.

(** [kept += 1] and the insertion under it. *)
Definition insert_kept (entry : KeptEntry) : sm unit :=
  mmodify (λ s, set_kept s (as_u64 (kept s + 1))) ;;;
  mmodify (λ s, set_cache s (<[kept s := entry]> (cache s))).

Definition release_entry (entry : KeptEntry) (epoch : N) : sm nat :=
  freed ⇐ tbl (release_cache_root (kept_terminal (path entry))) ;;
  recycle_backings freed epoch ;;;
  retire_idle ;;;
  mok (length (omap device_page freed)).

Fixpoint drop_entries (keys : list N) (epoch : N) : sm nat :=
  match keys with
  | [] => mok 0
  | key :: keys =>
      s ⇐ mget ;;
      match cache s !! key with
      | None => drop_entries keys epoch
      | Some entry =>
          mmodify (λ s, set_cache s (delete key (cache s))) ;;;
          mmodify (λ s, set_splits s (filter (λ p, p.1 ≠ key) (splits s))) ;;;
          disown entry ;;;
          n ⇐ release_entry entry epoch ;;
          m ⇐ drop_entries keys epoch ;;
          mok (n + m)
      end
  end.

Definition discard_cache (owner : ProcessId) : sm nat :=
  s ⇐ mget ;;
  drop_entries (filter (λ p, kept_owner p.2 = Some owner) (map_to_list (cache s))).*1 (current_epoch s).

Definition owns_cache s (owner : ProcessId) : bool := bool_decide (is_Some (owners s !! owner)).

Definition keep (ws : WorkingSetId) (pages : nat) (owner : option ProcessId) (decoded : bool)
    (now : Instant) : sm unit :=
  p ⇐ tbl_or (p ⇐ keep_prefix ws pages ;; mok (Some p)) None ;;
  match p with
  | None => mok tt
  | Some p =>
      tbl (lease_cache_root (kept_terminal p)) ;;;
      own owner ;;;
      insert_kept (mkKeptEntry p owner now decoded)
  end.

(** [plex_id] ([policy/schedule.rs]): the process a process stands for. *)
Definition plex_id (aliases : gmap ProcessId ProcessId) (pid : ProcessId) : ProcessId :=
  default pid (aliases !! pid).

Definition owner_of (aliases : gmap ProcessId ProcessId) (ws : WorkingSetId) : sm (option ProcessId) :=
  o ⇐ tbl_or (KvOps.owner_of ws) None ;;
  mok (plex_id aliases <$> o).

(** [now_prompt] and [now_all] are the two readings of the clock. *)
Definition keep_sealed_prefix (aliases : gmap ProcessId ProcessId) (ws : WorkingSetId)
    (now_prompt now_all : Instant) : sm unit :=
  owner ⇐ owner_of aliases ws ;;
  all ⇐ tbl_or (sealed_resident_prefix ws) 0 ;;
  prompt ⇐ tbl_or (prompt_pages_of ws) 0 ;;
  let prompt := prompt `min` all in
  (if decide (0 < prompt) then keep ws prompt owner false now_prompt else mok tt) ;;;
  (if decide (prompt < all) then keep ws all owner true now_all else mok tt).

Definition keep_checkpoint (ws : WorkingSetId) (pages : nat) (owner : option ProcessId)
    (now : Instant) : sm unit :=
  ok ⇐ tbl_or (sealed ⇐ sealed_resident_prefix ws ;; mok (bool_decide (pages ≤ sealed))) false ;;
  if (ok : bool) then keep ws pages owner false now else mok tt.

Definition release_working_set (aliases : gmap ProcessId ProcessId) (ws : WorkingSetId) (epoch : N)
    (now_prompt now_all : Instant) : sm unit :=
  s ⇐ mget ;;
  (if keeps s then keep_sealed_prefix aliases ws now_prompt now_all else mok tt) ;;;
  freed ⇐ tbl (release_working_set_backings ws) ;;
  recycle_backings freed epoch ;;;
  mmodify (λ s, set_flat s (delete ws (flat s))).

(** An entry joins its owner's set. *)
Definition join_cached (sets : gmap ProcessId CachedWorkingSet) (entry : KeptEntry) :
    gmap ProcessId CachedWorkingSet :=
  match kept_owner entry with
  | None => sets
  | Some owner =>
      let pages := kept_pages (path entry) in
      <[owner := match sets !! owner with
                 | Some set => mkCached (cached_owner set) (cached_entries set + 1)
                     (cached_pages set `max` pages) (N.max (cached_last_use set) (last_use entry))
                 | None => mkCached owner 1 pages (last_use entry)
                 end]> sets
  end.

Definition cached_working_sets s : list CachedWorkingSet :=
  (map_to_list (foldl join_cached ∅ (map_to_list (cache s)).*2)).*2.

(** ** Content keys *)

(** [page_size.max(1)]. *)
Definition page_of (page_size : N) : N := N.max page_size 1.

(** [Vec::resize(n, None)]. *)
Definition resize (n : nat) (l : list (option Hash256)) : list (option Hash256) :=
  take n l ++ replicate (n - length l) None.

Definition chain_root (ws : WorkingSetId) (start page_size : N) : sm (option (option Hash256)) :=
  let page := page_of page_size in
  if decide (start = 0%N) then mok (Some None)
  else
    let last := (start - 1)%N in
    hashes ⇐ tbl (KvOps.page_token_hashes ws (N.to_nat (last / page))) ;;
    mok (Some <$> mjoin (hashes !! N.to_nat (last mod page))).

(** The slots of one page, those from [from] to [to] set to the given ones. *)
Definition set_slots (start page from to : N) (slots : list Hash256)
    (hashes : list (option Hash256)) : option (list (option Hash256)) :=
  foldl (λ acc (at_ : nat),
    match acc, slots !! N.to_nat (N.of_nat at_ - start) with
    | Some hashes, Some slot =>
        if decide (N.to_nat (N.of_nat at_ mod page) < length hashes)
        then Some (<[N.to_nat (N.of_nat at_ mod page) := Some slot]> hashes)
        else None
    | _, _ => None
    end) (Some hashes) (List.seq (N.to_nat from) (N.to_nat (to - from))).

Fixpoint seal_loop (ws : WorkingSetId) (start page end_ : N) (slots : list Hash256)
    (indexes : list N) : sm (list (list (option Hash256) * option Hash256)) :=
  match indexes with
  | [] => mok []
  | index :: indexes =>
      hashes ⇐ tbl (KvOps.page_token_hashes ws (N.to_nat index)) ;;
      hashes ⇐ mexpect (set_slots start page (N.max (index * page) start)
                          (N.min ((index + 1) * page) end_) slots (resize (N.to_nat page) hashes)) ;;
      let key := if decide (Forall is_Some hashes) then Some (page_hash derive hashes) else None in
      rest ⇐ seal_loop ws start page end_ slots indexes ;;
      mok ((hashes, key) :: rest)
  end.

(** [u64::div_ceil]. *)
Definition div_ceil (a b : N) : N := (a / b + if decide (a mod b = 0) then 0 else 1)%N.

Definition seal_rows (ws : WorkingSetId) (start : N) (slots : list Hash256) (page_size : N) : sm nat :=
  let page := page_of page_size in
  if decide (slots = []) then mok 0
  else
    let end_ := (start + N.of_nat (length slots))%N in
    let first := (start / page)%N in
    pages ⇐ seal_loop ws start page end_ slots (range_from first (div_ceil end_ page - first)) ;;
    tbl (commit_hashes ws (N.to_nat first) pages) ;;;
    mok (length (omap snd pages)).

Fixpoint keys_loop (ws : WorkingSetId) (indexes : list nat) : sm (option (list Hash256)) :=
  match indexes with
  | [] => mok (Some [])
  | index :: indexes =>
      key ⇐ tbl (KvOps.page_hash_at ws index) ;;
      match key with
      | Some key => keys ⇐ keys_loop ws indexes ;; mok (cons key <$> keys)
      | None => mok None
      end
  end.

(** The loop over the slots: [partial] fills up to a page's. *)
Fixpoint fill_keys (page : N) (slots : list Hash256) (partial : list (option Hash256)) :
    list Hash256 :=
  match slots with
  | [] => []
  | slot :: slots =>
      let partial := partial ++ [Some slot] in
      if decide (N.of_nat (length partial) = page) then
        page_hash derive partial :: fill_keys page slots []
      else fill_keys page slots partial
  end.

Definition page_keys (ws : WorkingSetId) (start : N) (slots : list Hash256) (page_size : N) :
    sm (option (list Hash256)) :=
  let page := page_of page_size in
  keys ⇐ keys_loop ws (List.seq 0 (N.to_nat (start / page))) ;;
  match keys with
  | None => mok None
  | Some keys =>
      if decide (start mod page = 0)%N then mok (Some (keys ++ fill_keys page slots []))
      else
        held ⇐ tbl (KvOps.page_token_hashes ws (N.to_nat (start / page))) ;;
        let held := resize (N.to_nat (start mod page)) held in
        if decide (Exists (λ h, h = None) held) then mok None
        else mok (Some (keys ++ fill_keys page slots held))
  end.

Definition cached_run s (keys : list Hash256) : list TriePageLocation := sealed_run (table s) keys true.
Definition cached_run_any_tier s (keys : list Hash256) : list TriePageLocation :=
  sealed_run (table s) keys false.
Definition sealed_keys s : gset Hash256 := KvOps.sealed_keys (table s).

(** [logged[a..b].to_vec()]. *)
Definition slice_of (a b : N) (l : list N) : option (list N) :=
  if decide (a ≤ b ∧ b ≤ N.of_nat (length l))%N
  then Some (take (N.to_nat (b - a)) (drop (N.to_nat a) l)) else None.

Definition fold (ws : WorkingSetId) (to : N) (decoded : bool) : sm N :=
  folded ⇐ tbl (freeze ws to) ;;
  s ⇐ mget ;;
  let page := page_size s in
  if decide (page = 0%N) then mok 0%N
  else
    sealed ⇐ tbl (sealed_prefix ws) ;;
    logged ⇐ tbl (KvOps.logged ws) ;;
    mapped ⇐ tbl (mapped_len_of ws) ;;
    let sealed := N.of_nat sealed in
    let full := N.min (N.min (N.of_nat (length logged)) folded / page) (N.of_nat mapped) in
    if decide (full ≤ sealed)%N then mok 0%N
    else
      let start := (sealed * page)%N in
      prev ⇐ chain_root ws start page ;;
      match prev with
      | None => mok 0%N
      | Some prev =>
          tokens ⇐ mexpect (slice_of start (full * page) logged) ;;
          s ⇐ mget ;;
          seal_rows ws start (chain_slots derive (domain s) prev start tokens) page ;;;
          (if decoded then mok tt else tbl (reach_prompt ws (N.to_nat full))) ;;;
          mok (full - sealed)%N
      end.

(** How far two lists agree. *)
Fixpoint agreement (l k : list TriePageLocation) : nat :=
  match l, k with
  | a :: l, b :: k => if decide (a = b) then S (agreement l k) else 0
  | _, _ => 0
  end.

(** [last_use] of the entries that were used whole. *)
Fixpoint touch_loop (last : TriePageLocation) (len : nat) (now : Instant) (entries : list (N * KeptEntry)) :
    sm unit :=
  match entries with
  | [] => mok tt
  | (id, entry) :: entries =>
      used ⇐ tread (λ t, within t (kept_terminal (path entry)) last len) ;;
      (if used : bool then
         mmodify (λ s, set_cache s
           (<[id := mkKeptEntry (path entry) (kept_owner entry) now (decoded entry)]> (cache s)))
       else mok tt) ;;;
      touch_loop last len now entries
  end.

Definition attach_run (ws : WorkingSetId) (run : list TriePageLocation) (limit page_size : N)
    (now : Instant) : sm nat :=
  held ⇐ tbl (mapped_len_of ws) ;;
  s ⇐ mget ;;
  let run := take (N.to_nat limit) run in
  let run := take (resident_run (table s) run) run in
  run ⇐ match last run with
        | Some last =>
            path ⇐ tread (λ t, path_locations t (loc_node last) (loc_local last)) ;;
            mok (take (agreement path run) run)
        | None => mok run
        end ;;
  match last run with
  | Some last =>
      if decide (length run ≤ held) then mok 0
      else
        len ⇐ tread (λ t, path_prefix_len t (loc_node last) (loc_local last)) ;;
        if decide (len ≠ length run) then mok 0
        else
          done ⇐ catch (tbl (attach ws (loc_node last) (loc_local last)) ;;; mok true)
                   (λ e, match e with Table (BadRange _ _ _ _) => mok false | e => merr e end) ;;
          if negb done then mok 0
          else
            let pages := length run - held in
            tbl (add_supplied ws (N.of_nat pages * page_of page_size)) ;;;
            tbl (freeze ws (N.of_nat (length run) * page_of page_size)) ;;;
            tbl (reach_prompt ws (length run)) ;;;
            refresh_flat ws ;;;
            s ⇐ mget ;;
            touch_loop last (length run) now (map_to_list (cache s)) ;;;
            mok pages
  | None => mok 0
  end.

(** ** Reclaim *)

Definition key_token s (pages : nat) : N :=
  if keeps s then (N.of_nat (pages - 1) * page_size s)%N else (N.of_nat pages * page_size s - 1)%N.

(** Where an entry's owner steps down within it, as pages of a head. *)
Definition entry_heads s (keys : Keys) (p : N * KeptEntry) : list (N * KeptEntry * nat) :=
  match kept_owner p.2 with
  | None => []
  | Some owner =>
      omap (λ upto,
        let pages := N.to_nat (div_ceil upto (page_of (page_size s))) in
        if decide (0 < pages ∧ pages < kept_pages (path p.2) ∧ (p.1, pages) ∉ splits s)
        then Some (p, pages) else None) (steps keys owner)
  end.

Definition split_at_steps (keys : Keys) : sm unit :=
  s ⇐ mget ;;
  if negb (keeps s) then mok tt
  else
    mfor (concat (entry_heads s keys <$> map_to_list (cache s))) (λ h,
      let '(id, entry, pages) := h in
      mmodify (λ s, set_splits s ({[(id, pages)]} ∪ splits s)) ;;;
      p ⇐ tbl (keep_prefix_of (path entry) pages) ;;
      tbl (lease_cache_root (kept_terminal p)) ;;;
      own (kept_owner entry) ;;;
      insert_kept (mkKeptEntry p (kept_owner entry) (last_use entry) (decoded entry))).

(** Owner, key and whether a decode wrote it; the ids and the latest use. *)
Abbreviation group_key := (option ProcessId * Z * bool)%type.
Abbreviation Group := (list N * Instant)%type.

Fixpoint group_loop (keys : Keys) (unused : list NodeId) (entries : list (N * KeptEntry))
    (groups : gmap group_key Group) : sm (gmap group_key Group) :=
  match entries with
  | [] => mok groups
  | (id, entry) :: entries =>
      let root := kept_terminal (path entry) in
      skip ⇐ (if decide (root ∉ unused) then mok true
              else
                moving ⇐ tread (λ t, in_move_at t root) ;;
                if (moving : bool) then mok true
                else holds ⇐ tread (λ t, holds_resident t root) ;; mok (negb holds)) ;;
      s ⇐ mget ;;
      group_loop keys unused entries
        (if (skip : bool) then groups
         else
           let k := (kept_owner entry,
                     key_at keys (kept_owner entry) (key_token s (kept_pages (path entry))),
                     decoded entry) in
           let g := default ([], last_use entry) (groups !! k) in
           <[k := (g.1 ++ [id], N.max g.2 (last_use entry))]> groups)
  end.

Definition roots s (ids : list N) : list NodeId :=
  omap (λ id, kept_terminal ∘ path <$> cache s !! id) ids.

Fixpoint rank_groups (groups : list (group_key * Group)) :
    sm (list (bool * Z * bool * Instant * (Z * list N))) :=
  match groups with
  | [] => mok []
  | (_, key, decoded, (ids, last_use)) :: groups =>
      s ⇐ mget ;;
      n ⇐ tread (λ t, device_pages_freed t (roots s ids)) ;;
      rest ⇐ rank_groups groups ;;
      mok ((negb (bool_decide (0 < n)), key, negb decoded, last_use, (key, ids)) :: rest)
  end.

Definition reclaim_order (keys : Keys) : sm (list (Z * list N)) :=
  unused ⇐ tread unused_cache_roots ;;
  if decide (unused = []) then mok []
  else
    s ⇐ mget ;;
    groups ⇐ group_loop keys unused (map_to_list (cache s)) ∅ ;;
    order ⇐ rank_groups (map_to_list groups) ;;
    mok (merge_sort ranked order).*2.

Fixpoint reclaim_loop (order : list (Z * list N)) (epoch : N) : sm nat :=
  match order with
  | [] => mok 0
  | (_, ids) :: order =>
      n ⇐ drop_entries ids epoch ;;
      if decide (0 < n) then mok n else reclaim_loop order epoch
  end.

Definition reclaim_cache (epoch : N) (keys : Keys) : sm nat :=
  split_at_steps keys ;;;
  order ⇐ reclaim_order keys ;;
  reclaim_loop order epoch.

Definition reclaimable_cache_pages : sm nat := tread unused_cache_lease_pages.
Definition reclaim_quotes (groups : list (gset WorkingSetId)) (budget : N) : sm (list ReclaimQuote) :=
  tbl (KvMove.reclaim_quotes groups budget).

(** No lookup hits these entries, and no one will bring them back. *)
Fixpoint off_device_loop (unused : list NodeId) (entries : list (N * KeptEntry)) : sm (list N) :=
  match entries with
  | [] => mok []
  | (id, entry) :: entries =>
      let root := kept_terminal (path entry) in
      off ⇐ (if decide (root ∈ unused)
             then on ⇐ tread (λ t, settled_on_device t root) ;; mok (negb on)
             else mok false) ;;
      rest ⇐ off_device_loop unused entries ;;
      mok (if (off : bool) then id :: rest else rest)
  end.

Definition drop_entries_off_device : sm unit :=
  unused ⇐ tread unused_cache_roots ;;
  s ⇐ mget ;;
  keys ⇐ off_device_loop unused (map_to_list (cache s)) ;;
  s ⇐ mget ;;
  drop_entries keys (current_epoch s) ;;;
  mok tt.

(** ** Readers of a run *)

Fixpoint resident_ids (t : KvPageTable WS NS) (run : list TriePageLocation) : option (list PhysicalKvPageId) :=
  match run with
  | [] => Some []
  | l :: run =>
      match backing_at t l with
      | Ok (Resident id) => cons id <$> resident_ids t run
      | _ => None
      end
  end.

Definition pin_resident (run : list TriePageLocation) :
    sm (option (ReaderPin * list PhysicalKvPageId)) :=
  s ⇐ mget ;;
  match last run, resident_ids (table s) run with
  | Some last, Some ids => tbl (pin (loc_node last)) ;;; mok (Some ([loc_node last], ids))
  | _, _ => mok None
  end.

Definition release_reader (pin : ReaderPin) : sm unit :=
  freed ⇐ tbl (unpin_terminals pin) ;;
  s ⇐ mget ;;
  recycle_backings freed (current_epoch s) ;;;
  retire_idle.

Definition on_device (t : KvPageTable WS NS) (l : TriePageLocation) : bool :=
  match backing_at t l with Ok (Resident _) => true | _ => false end.

Definition below_device s (run : list TriePageLocation) : nat :=
  length (filter (λ l, on_device (table s) l = false) run).

Fixpoint cached_runs_loop (entries : list KeptEntry) : sm (list (list Hash256)) :=
  match entries with
  | [] => mok []
  | entry :: entries =>
      keys ⇐ tread (λ t, path_keys t (kept_terminal (path entry))) ;;
      rest ⇐ cached_runs_loop entries ;;
      mok (match take (kept_pages (path entry)) <$> keys with
           | Some (key :: keys) => (key :: keys) :: rest
           | _ => rest
           end)
  end.

Definition cached_runs : sm (list (list Hash256)) :=
  s ⇐ mget ;; cached_runs_loop (map_to_list (cache s)).*2.

Definition import_cached (prefix : list Hash256) (token_hashes : list (list (option Hash256)))
    (page_hashes : list Hash256) (slots : list HostKvSlotId) (now : Instant) : sm bool :=
  mguard (length token_hashes = length slots) ;;;
  mguard (length page_hashes = length slots) ;;;
  if decide (length slots = 0) then mok true
  else
    s ⇐ mget ;;
    let run := sealed_run (table s) prefix false in
    if decide (prefix ≠ [] ∧ length run ≠ length prefix) then
      release_host slots ;;; mok false
    else
      let after := if decide (prefix = []) then None else last run in
      n ⇐ tbl (insert_cached after (Swapped <$> slots) token_hashes page_hashes) ;;
      tbl (lease_cache_root n) ;;;
      pages ⇐ tread (λ t, path_len t n) ;;
      insert_kept (mkKeptEntry (mkKept n pages) None now false) ;;;
      mok true.

(** ** Moves *)

Definition prepare_move_out (working_sets : gset WorkingSetId)
    (pages : list (TriePageLocation * PhysicalKvPageId)) : sm KvResidencyTxn :=
  s ⇐ mget ;;
  let on_host := host_swap_available s `min` length pages in
  host ⇐ alloc_host_slots on_host ;;
  host ⇐ mexpect host ;;
  disk ⇐ alloc_disk_slots (length pages - on_host) ;;
  disk ⇐ mexpect disk ;;
  let swapped := (Swapped <$> host) ++ (OnDisk <$> disk) in
  pinned ⇐ catch (tbl (pin_working_sets working_sets)) (λ e, release_swapped swapped ;;; merr e) ;;
  let pages := zip_with (λ p b, mkSwap p.1 p.2 b) pages swapped in
  tbl (pin_swap_locations (location <$> pages)) ;;;
  mok (mkTxn working_sets pages pinned).

Definition prepare_suspend (working_sets : gset WorkingSetId) : sm (option KvResidencyTxn) :=
  pages ⇐ tbl (movable_resident_pages working_sets) ;;
  s ⇐ mget ;;
  pages ⇐ (if decide (host_swap_available s < length pages) then
             drop_entries_off_device ;;; tbl (movable_resident_pages working_sets)
           else mok pages) ;;
  if decide (pages = []) then mok None
  else
    s ⇐ mget ;;
    let available := swap_available s in
    if decide (available < length pages) then merr (HostSwapFull (length pages) available)
    else txn ⇐ prepare_move_out working_sets pages ;; mok (Some txn).

Definition prepare_sweep (keep : gset WorkingSetId) (room : nat) : sm (option KvResidencyTxn) :=
  pages ⇐ tbl (stranded_pages keep) ;;
  s ⇐ mget ;;
  pages ⇐ (if decide (swap_available s < length pages `min` room) then
             drop_entries_off_device ;;; tbl (stranded_pages keep)
           else mok pages) ;;
  s ⇐ mget ;;
  let pages := take (room `min` swap_available s) pages in
  if decide (pages = []) then mok None
  else
    readers ⇐ tbl (suspended_readers pages) ;;
    txn ⇐ prepare_move_out readers pages ;;
    mok (Some txn).

Fixpoint demote_loop (keys : Keys) (room : nat) (order : list (Z * list N)) :
    sm (option KvResidencyTxn) :=
  match order with
  | [] => mok None
  | (key, ids) :: order =>
      s ⇐ mget ;;
      let above := omap (λ p,
        if decide (key < key_at keys (kept_owner p.2) (key_token s (kept_pages (path p.2))))%Z
        then Some (kept_terminal (path p.2)) else None) (map_to_list (cache s)) in
      pages ⇐ tbl (cache_only_pages (roots s ids) above) ;;
      if decide (pages = []) then demote_loop keys room order
      else txn ⇐ prepare_move_out ∅ (take room pages) ;; mok (Some txn)
  end.

Definition prepare_demote (room : nat) (keys : Keys) : sm (option KvResidencyTxn) :=
  s ⇐ mget ;;
  let room := room `min` host_swap_available s in
  if decide (room = 0) then mok None
  else
    split_at_steps keys ;;;
    order ⇐ reclaim_order keys ;;
    demote_loop keys room order.

Definition mark_suspended (working_sets : gset WorkingSetId) : sm unit :=
  tbl (set_suspended working_sets true).

Definition unpin_move (txn : KvResidencyTxn) : sm (list KvPageBacking) :=
  freed ⇐ tbl (unpin_terminals (pinned txn)) ;;
  more ⇐ tbl (unpin_swap_locations (location <$> txn_pages txn)) ;;
  mok (freed ++ more).

Definition end_move (freed : list KvPageBacking) : sm unit :=
  s ⇐ mget ;;
  recycle_backings freed (current_epoch s) ;;;
  retire_idle.

Definition abort_suspend (txn : KvResidencyTxn) : sm unit :=
  freed ⇐ unpin_move txn ;;
  release_swapped (swapped <$> txn_pages txn) ;;;
  end_move freed.

Definition commit_suspend (txn : KvResidencyTxn) : sm nat :=
  catch (tbl (replace_backings
           ((λ p, (location p, Resident (gpu_id p), swapped p)) <$> txn_pages txn)))
    (λ e, abort_suspend txn ;;; merr e) ;;;
  tbl (set_suspended (txn_sets txn) true) ;;;
  freed ⇐ unpin_move txn ;;
  mfor (elements (txn_sets txn)) refresh_flat ;;;
  s ⇐ mget ;;
  recycle_pages (gpu_id <$> txn_pages txn) (current_epoch s) ;;;
  end_move freed ;;;
  mok (length (txn_pages txn)).

Definition abort_restore (txn : KvResidencyTxn) : sm unit :=
  freed ⇐ unpin_move txn ;;
  release_pages (gpu_id <$> txn_pages txn) ;;;
  end_move freed.

Definition commit_restore (txn : KvResidencyTxn) : sm nat :=
  catch (tbl (replace_backings
           ((λ p, (location p, swapped p, Resident (gpu_id p))) <$> txn_pages txn)))
    (λ e, abort_restore txn ;;; merr e) ;;;
  tbl (set_suspended (txn_sets txn) false) ;;;
  freed ⇐ unpin_move txn ;;
  mfor (elements (txn_sets txn)) refresh_flat ;;;
  release_swapped (swapped <$> txn_pages txn) ;;;
  end_move freed ;;;
  mok (length (txn_pages txn)).

Definition prepare_restore (working_sets : gset WorkingSetId) : gm KvResidencyTxn :=
  moving ⇐ with_grant (tbl (in_move working_sets)) ;;
  if (moving : bool) then merr MoveInFlight
  else
    swapped ⇐ with_grant (tbl (swapped_pages working_sets)) ;;
    g ⇐ mget ;;
    if decide (length g.2 < length swapped) then merr (GrantMismatch (length swapped) (length g.2))
    else
      pinned ⇐ with_grant (tbl (pin_working_sets working_sets)) ;;
      gpu ⇐ draw (length swapped) ;;
      let pages := zip_with (λ p id, mkSwap p.1 id p.2) swapped gpu in
      with_grant (tbl (pin_swap_locations (location <$> pages))) ;;;
      mok (mkTxn working_sets pages pinned).

(** The pages of a run below the device, or that it cannot be promoted. *)
Fixpoint below_loop (run : list TriePageLocation) :
    sm (option (list (TriePageLocation * KvPageBacking))) :=
  match run with
  | [] => mok (Some [])
  | l :: run =>
      s ⇐ mget ;;
      if page_location_pinned (table s) l then mok None
      else
        b ⇐ tbl (λ t, (backing_at t l, t)) ;;
        rest ⇐ below_loop run ;;
        mok (match b with Resident _ => rest | b => cons (l, b) <$> rest end)
  end.

Definition prepare_promote (run : list TriePageLocation) : gm (option KvResidencyTxn) :=
  match last run with
  | None => mok None
  | Some last =>
      below ⇐ with_grant (below_loop run) ;;
      match below with
      | None | Some [] => mok None
      | Some below =>
          g ⇐ mget ;;
          if decide (length g.2 < length below) then
            merr (GrantMismatch (length below) (length g.2))
          else
            with_grant (tbl (pin (loc_node last))) ;;;
            gpu ⇐ draw (length below) ;;
            let pages := zip_with (λ p id, mkSwap p.1 id p.2) below gpu in
            with_grant (tbl (pin_swap_locations (location <$> pages))) ;;;
            mok (Some (mkTxn ∅ pages [loc_node last]))
      end
  end.

(** The pin is taken out of the transaction, so the end of the move leaves it. *)
Definition commit_promote (txn : KvResidencyTxn) : sm ReaderPin :=
  catch (commit_restore (mkTxn (txn_sets txn) (txn_pages txn) []) ;;; mok (pinned txn))
    (λ e, release_reader (pinned txn) ;;; merr e).

Definition swapped_page_count (working_sets : gset WorkingSetId) : sm nat :=
  l ⇐ tbl (swapped_pages working_sets) ;; mok (length l).
Definition held_page_count (working_sets : gset WorkingSetId) : sm nat :=
  tbl (held_pages working_sets).
End store.
Arguments KvStore : clear implicits.
End KvStore.
