(* ===== verification/Hoare.v ===== *)
(** What a method guarantees from a state: [wp m Q X s] says that from [s] the
    method does not panic, that [Q] holds of its answer and the state it leaves,
    and that [X] holds of its error and the state it leaves. *)
From S2P Require Import Prelude.

Section wp.
Context {S E : Type}.
Implicit Types s : S.

Definition wp {A} (m : method S E A) (Q : A → S → Prop) (X : E → S → Prop) (s : S) : Prop :=
  match m s with
  | (Ok a, s') => Q a s'
  | (Err e, s') => X e s'
  | (Panic, _) => False
  end.

(** ** The rules *)

Lemma wp_ok {A} (a : A) (Q : A → S → Prop) X s : Q a s → wp (mok a) Q X s.
Proof. done. Qed.
Lemma wp_err {A} e (Q : A → S → Prop) (X : E → S → Prop) s : X e s → wp (merr e) Q X s.
Proof. done. Qed.
Lemma wp_get (Q : S → S → Prop) X s : Q s s → wp mget Q X s.
Proof. done. Qed.
Lemma wp_modify f (Q : unit → S → Prop) X s : Q tt (f s) → wp (mmodify f) Q X s.
Proof. done. Qed.
Lemma wp_expect {A} (o : option A) a (Q : A → S → Prop) X s : o = Some a → Q a s → wp (mexpect o) Q X s.
Proof. by intros ->. Qed.
Lemma wp_read {A} (f : S → option A) a (Q : A → S → Prop) X s : f s = Some a → Q a s → wp (mread f) Q X s.
Proof. unfold wp, mread. by intros ->. Qed.
Lemma wp_guard (P : Prop) `{Decision P} (Q : unit → S → Prop) X s : P → Q tt s → wp (mguard P) Q X s.
Proof. intros HP HQ. unfold wp, mguard. by rewrite decide_True. Qed.

Lemma wp_then {A B} (m : method S E A) (k : A → method S E B) Q X s :
  wp m (λ a, wp (k a) Q X) X s → wp (mthen m k) Q X s.
Proof. unfold wp, mthen. by destruct (m s) as [[a|e|] s']. Qed.

Lemma wp_or_else {A} (m : method S E A) d (Q : A → S → Prop) X s :
  wp m Q (λ _, Q d) s → wp (mor_else m d) Q X s.
Proof. unfold wp, mor_else. by destruct (m s) as [[a|e|] s']. Qed.

Lemma wp_mono {A} (m : method S E A) (Q Q' : A → S → Prop) (X X' : E → S → Prop) s :
  wp m Q X s → (∀ a s', Q a s' → Q' a s') → (∀ e s', X e s' → X' e s') → wp m Q' X' s.
Proof. unfold wp. destruct (m s) as [[a|e|] s']; auto. Qed.

(** [m] run next, with what is known of it. *)
Lemma wp_bind {A B} (m : method S E A) (k : A → method S E B) (Q0 : A → S → Prop) (X0 : E → S → Prop) Q X s :
  wp m Q0 X0 s → (∀ a s', Q0 a s' → wp (k a) Q X s') → (∀ e s', X0 e s' → X e s') →
  wp (mthen m k) Q X s.
Proof. intros Hm Hk He. apply wp_then. eapply wp_mono; [done..|]. auto. Qed.

Lemma wp_ret {A} (m : method S E A) a s s' (Q : A → S → Prop) X : m s = (Ok a, s') → Q a s' → wp m Q X s.
Proof. unfold wp. by intros ->. Qed.
Lemma wp_raise {A} (m : method S E A) e s s' (Q : A → S → Prop) (X : E → S → Prop) :
  m s = (Err e, s') → X e s' → wp m Q X s.
Proof. unfold wp. by intros ->. Qed.

(** A loop, by an invariant over what it has still to visit. *)
Lemma wp_for {A} (f : A → method S E unit) (I : list A → S → Prop) X l s :
  (∀ a l s, I (a :: l) s → wp (f a) (λ _, I l) X s) → I l s → wp (mfor l f) (λ _, I []) X s.
Proof.
  intros Hf. revert s. induction l as [|a l IH]; intros s Hs; [done|]. cbn [mfor].
  eapply wp_bind; [by apply Hf| |done]. auto.
Qed.

Lemma wp_no_panic {A} (m : method S E A) Q X s : wp m Q X s → (m s).1 ≠ Panic.
Proof. unfold wp. by destruct (m s) as [[a|e|] s']. Qed.

Lemma wp_case {A} (m : method S E A) Q X s :
  wp m Q X s ↔ (∃ a s', m s = (Ok a, s') ∧ Q a s') ∨ (∃ e s', m s = (Err e, s') ∧ X e s').
Proof. unfold wp. destruct (m s) as [[a|e|] s']; naive_solver. Qed.
End wp.

Create HintDb wp discriminated.
#[export] Hint Resolve wp_ok wp_err wp_get wp_modify : wp.

(** [wps] runs the next call of a method for which [H] is known. *)
Tactic Notation "wp_run" uconstr(H) := eapply wp_bind; [eapply H| |].
