(* ===== verification/KvFrame.v ===== *)
(** What the methods of the page table leave alone: the leases, the pins and the
    marks of moves change only in the calls that are about them. *)
From S2P Require Import Prelude Ids Store Runs KvTable KvOps KvMove.

Module KvFrame.
Import Runs KvTable KvOps KvMove.

Section leaves.
Context {table E : Type}.
Abbreviation tm := (method table E).
Implicit Types t : table.

(** A method that leaves [f] of the table alone, whatever it answers. *)
Definition leaves {X A} (f : table → X) (m : tm A) : Prop := ∀ t, f (m t).2 = f t.

Lemma leaves_ok {X A} (f : table → X) (a : A) : leaves f (mok a : tm A).
Proof. done. Qed.
Lemma leaves_err {X A} (f : table → X) e : leaves f (merr e : tm A).
Proof. done. Qed.
Lemma leaves_panic {X A} (f : table → X) : leaves f (mpanic : tm A).
Proof. done. Qed.
Lemma leaves_read {X A} (f : table → X) (g : table → option A) : leaves f (mread g).
Proof. intros t. unfold mread. by destruct (g t). Qed.
Lemma leaves_get {X} (f : table → X) : leaves f (mget : tm table).
Proof. done. Qed.
Lemma leaves_expect {X A} (f : table → X) (o : option A) : leaves f (mexpect o : tm A).
Proof. by destruct o. Qed.
Lemma leaves_guard {X} (f : table → X) (P : Prop) `{Decision P} : leaves f (mguard P : tm unit).
Proof. unfold mguard. by case_decide. Qed.
Lemma leaves_modify {X} (f : table → X) (g : table → table) :
  (∀ t, f (g t) = f t) → leaves f (mmodify g).
Proof. intros Hg t. apply Hg. Qed.
Lemma leaves_pure {X A} (f : table → X) (g : table → outcome E A) : leaves f (λ t, (g t, t)).
Proof. done. Qed.

Lemma leaves_then {X A B} (f : table → X) (m : tm A) (k : A → tm B) :
  leaves f m → (∀ a, leaves f (k a)) → leaves f (mthen m k).
Proof.
  intros Hm Hk t. unfold mthen. specialize (Hm t). destruct (m t) as [[a|e|] t']; simpl in *; [|done..].
  by rewrite Hk.
Qed.

Lemma leaves_extend {X A B} (f : table → X) (l : list A) (g : A → tm (list B)) :
  (∀ a, leaves f (g a)) → leaves f (mextend l g).
Proof.
  intros Hg. induction l as [|a l IH]; [done|]. cbn [mextend].
  apply leaves_then; [done|]. intros x. apply leaves_then; [done|]. done.
Qed.

Lemma leaves_for {X A} (f : table → X) (l : list A) (g : A → tm unit) :
  (∀ a, leaves f (g a)) → leaves f (mfor l g).
Proof.
  intros Hg. induction l as [|a l IH]; [done|]. cbn [mfor]. by apply leaves_then.
Qed.

Lemma leaves_or_else {X A} (f : table → X) (m : tm A) d : leaves f m → leaves f (mor_else m d).
Proof. intros Hm t. unfold mor_else. specialize (Hm t). by destruct (m t) as [[a|e|] t']. Qed.
End leaves.

Create HintDb leaves discriminated.
#[export] Hint Resolve leaves_ok leaves_err leaves_panic leaves_read leaves_get leaves_expect
  leaves_guard leaves_pure leaves_then leaves_extend leaves_for leaves_or_else : leaves.

(** [leave] takes a method apart into its calls. *)
Ltac leave :=
  repeat first
    [ progress intros
    | solve [eauto 2 with leaves]
    | apply leaves_modify; solve [done | intros; repeat case_match; done]
    | apply leaves_then | apply leaves_extend | apply leaves_for | apply leaves_or_else
    | case_match
    | progress simpl ].

Section holds.
Context {WS NS : Type → Type} `{!KeyedStore WorkingSetId WS, !KeyedStore NodeId NS}.
Abbreviation table := (KvPageTable WS NS).
Abbreviation tm := (method table KvTableError).
Implicit Types t : table.

(** The holds of a table. *)
Definition holds t : gmap NodeId N * gmap NodeId N * gset TriePageLocation :=
  (cache_roots t, pins t, swap_locations t).

(** ** The steps inside the table *)

Lemma entry_leaves ws : leaves holds (entry ws : tm _).
Proof. intros t. unfold entry. by case_match. Qed.
Lemma update_entry_leaves ws g : leaves holds (update_entry ws g : tm _).
Proof. unfold update_entry. apply leaves_then; [apply entry_leaves|]. leave. Qed.
Lemma insert_node_leaves e : leaves holds (insert_node e : tm _).
Proof. intros t. unfold insert_node. by repeat case_match. Qed.
Lemma remove_node_leaves n : leaves holds (remove_node n : tm _).
Proof. intros t. unfold remove_node. by repeat case_match. Qed.
Lemma insert_entry_leaves e : leaves holds (insert_entry e : tm _).
Proof. intros t. unfold insert_entry. by repeat case_match. Qed.
Lemma remove_entry_leaves ws : leaves holds (remove_entry ws : tm _).
Proof. intros t. unfold remove_entry. by case_match. Qed.
Hint Resolve entry_leaves update_entry_leaves insert_node_leaves remove_node_leaves
  insert_entry_leaves remove_entry_leaves : leaves.

Lemma bump_path_leaves f : ∀ c, leaves holds (bump_path f c : tm _).
Proof. induction f as [|f IH]; intros [n|]; simpl; leave. Qed.
Lemma drop_path_leaves f : ∀ c, leaves holds (drop_path f c : tm _).
Proof. induction f as [|f IH]; intros [n|]; simpl; leave. Qed.
Hint Resolve bump_path_leaves drop_path_leaves : leaves.
Lemma add_anchor_leaves n : leaves holds (add_anchor n : tm _).
Proof. unfold add_anchor. leave. Qed.
Lemma detach_loop_leaves f : ∀ n, leaves holds (detach_loop f n : tm _).
Proof.
  induction f as [|f IH]; intros n; simpl; leave.
  all: try (apply leaves_modify; intros; unfold drop_child, forget_start; by repeat case_match).
Qed.
Hint Resolve add_anchor_leaves detach_loop_leaves : leaves.
Lemma compact_owner_leaves n : leaves holds (compact_owner n : tm _).
Proof. unfold compact_owner, move_child. leave. Qed.
Hint Resolve compact_owner_leaves : leaves.
Lemma remove_anchor_leaves n : leaves holds (remove_anchor n : tm _).
Proof. unfold remove_anchor, detach_unreferenced. leave. Qed.
Hint Resolve remove_anchor_leaves : leaves.
Lemma move_terminal_leaves ws c : leaves holds (move_terminal ws c : tm _).
Proof. unfold move_terminal. leave. Qed.
Lemma push_child_leaves p n : leaves holds (push_child p n : tm _).
Proof. unfold push_child. leave. Qed.
Hint Resolve move_terminal_leaves push_child_leaves : leaves.
Lemma boundary_terminal_leaves segs b : leaves holds (boundary_terminal segs b : tm _).
Proof. unfold boundary_terminal, make_prefix_selection, insert_selection. leave. Qed.
Hint Resolve boundary_terminal_leaves : leaves.

(** ** The calls *)

Lemma fork_leaves ws : leaves holds (fork ws : tm _).
Proof. unfold fork. leave. Qed.
Lemma publish_appended_leaves ws ps : leaves holds (publish_appended ws ps : tm _).
Proof. unfold publish_appended, append_node. leave. Qed.
Hint Resolve publish_appended_leaves : leaves.
Lemma replace_tail_leaves ws from ps : leaves holds (replace_tail ws from ps : tm _).
Proof. unfold replace_tail. leave. Qed.
Lemma working_set_locations_leaves ws : leaves holds (working_set_locations ws : tm _).
Proof. unfold working_set_locations. leave. Qed.
Hint Resolve working_set_locations_leaves : leaves.
Lemma attach_leaves ws n local : leaves holds (attach ws n local : tm _).
Proof. unfold attach. leave. Qed.
Lemma release_leaves ws : leaves holds (release_working_set_backings ws : tm _).
Proof. unfold release_working_set_backings. leave. Qed.
Lemma keep_prefix_leaves ws n : leaves holds (keep_prefix ws n : tm _).
Proof. unfold keep_prefix. leave. Qed.
Lemma set_hashes_leaves n i a b : leaves holds (set_hashes n i a b : tm _).
Proof. unfold set_hashes. leave. Qed.
Lemma page_owner_leaves ws i : leaves holds (page_owner ws i : tm _).
Proof. unfold page_owner. leave. Qed.
Hint Resolve set_hashes_leaves page_owner_leaves : leaves.
Lemma commit_in_place_leaves ws i a b : leaves holds (commit_in_place ws i a b : tm _).
Proof. unfold commit_in_place. leave. Qed.
Lemma commit_hashes_leaves ws first hs : leaves holds (commit_hashes ws first hs : tm _).
Proof. unfold commit_hashes. leave. Qed.
Lemma set_suspended_leaves group b : leaves holds (set_suspended group b : tm _).
Proof. unfold set_suspended. leave. Qed.
Lemma replace_backings_leaves rs : leaves holds (replace_backings rs : tm _).
Proof. unfold replace_backings, replace_backing. leave. Qed.
Lemma insert_cached_leaves after b th ph : leaves holds (insert_cached after b th ph : tm _).
Proof. unfold insert_cached, make_prefix_selection, insert_selection. leave. Qed.
End holds.
#[export] Hint Resolve insert_node_leaves push_child_leaves boundary_terminal_leaves entry_leaves update_entry_leaves insert_entry_leaves remove_entry_leaves
  working_set_locations_leaves page_owner_leaves fork_leaves publish_appended_leaves replace_tail_leaves attach_leaves release_leaves
  keep_prefix_leaves commit_in_place_leaves commit_hashes_leaves set_suspended_leaves
  replace_backings_leaves insert_cached_leaves : leaves.
End KvFrame.
