(* ===== verification/KvLocate.v ===== *)
(** Reading the trie: in a settled table the walks of the cache, of the moves and
    of a pass find their way, and change nothing. *)
From S2P Require Import Prelude Ids Store Runs KvTable KvOps KvMove KvTrie KvChange KvSpec KvInv.
From S2P Require Import KvRead KvState KvPath KvProps KvFree KvShare KvHold KvQuery KvCommit.

Module KvLocate.
Import Runs KvTable KvOps KvMove KvTrie KvChange KvSpec KvInv KvRead KvState KvPath KvProps KvFree
  KvShare KvHold KvQuery KvCommit.

Section locate.
Context {WS NS : Type → Type}.
Context `{!KeyedStore WorkingSetId WS, !KeyedStore NodeId NS}.
Context `{!KeyedStoreLaws WorkingSetId WS, !KeyedStoreLaws NodeId NS}.
Abbreviation table := (KvPageTable WS NS).
Abbreviation tm := (method table KvTableError).
Implicit Types t : table.

(** ** Calm calls: they answer, and leave the table as it was *)

Definition calm {A} (m : tm A) t : Prop := ∃ r, m t = (r, t) ∧ r ≠ Panic.

Lemma calm_ok {A} (a : A) t : calm (mok a) t.
Proof. by eexists. Qed.
Lemma calm_err {A} e t : calm (merr e : tm A) t.
Proof. by eexists. Qed.
Lemma calm_get t : calm mget t.
Proof. by eexists. Qed.
Lemma calm_read {A} (f : table → option A) t : is_Some (f t) → calm (mread f) t.
Proof. intros [a Ha]. exists (Ok a). unfold mread. by rewrite Ha. Qed.

Lemma calm_then {A B} (m : tm A) (k : A → tm B) t :
  calm m t → (∀ a, m t = (Ok a, t) → calm (k a) t) → calm (mthen m k) t.
Proof.
  intros (r & Hm & Hr) Hk. unfold calm, mthen. rewrite Hm. destruct r as [a|e|]; [|by eexists|done].
  by apply Hk.
Qed.

Lemma calm_or_else {A} (m : tm A) d t : calm m t → calm (mor_else m d) t.
Proof.
  intros (r & Hm & Hr). unfold calm, mor_else. rewrite Hm. destruct r as [a|e|]; [by eexists..|done].
Qed.

Lemma calm_ret {A} (m : tm A) a t : m t = (Ok a, t) → calm m t.
Proof. intros Hm. by exists (Ok a). Qed.

(** ** Where an anchor's pages are *)

Lemma anchor_locations_loop_spec t c v segs f :
  sound t → shape (nm t) → walk (nm t) c v segs → length segs ≤ f →
  ∃ locs, anchor_locations_loop f t c = Some locs ∧ ∀ l, l ∈ locs ↔ l ∈ v.*1.
Proof.
  intros Hs Hm Hw. revert f. induction Hw as [|n own p v segs Ho Hp Hw IH]; intros f Hf.
  { exists []. by destruct f. }
  destruct f as [|f]; simpl in Hf; [lia|]. destruct (IH f) as (locs & Hl & Hin); [lia|].
  cbn [anchor_locations_loop]. rewrite (predecessor_spec t Hs _ _ Hp), Hl, node_nm by done.
  unfold contrib in Ho. destruct (nm t !! n) as [e|] eqn:He; [|done].
  assert (Hown : ∃ here, match pages e with
      | Owned backings _ _ => Some (mkLoc n <$> seq 0 (length backings))
      | ParentSelection rs =>
          match parent e with Some owner => Some (mkLoc owner <$> expand rs) | None => None end
      end = Some here ∧ here = own.*1).
  { pose proof (sh_pages _ Hm _ _ He) as Hpg. unfold page_ok in Hpg.
    assert (Hc : ∀ k b off, off ≤ length b → (take off (cells k b)).*1 = mkLoc k <$> seq 0 off).
    { intros k b off Hoff. rewrite <-cells_take. unfold cells. rewrite fmap_imap.
      apply list_eq. intros i. rewrite list_lookup_imap, list_lookup_fmap.
      destruct (decide (i < off)) as [Hi|Hi].
      - rewrite lookup_take_lt, lookup_seq_lt by done.
        by destruct (lookup_lt_is_Some_2 b i ltac:(lia)) as [x ->].
      - rewrite lookup_take_ge by lia. rewrite lookup_ge_None_2; [done|]. rewrite length_seq. lia. }
    destruct (pages e) as [b th ph|rs].
    - injection Ho as <-. eexists. split; [done|]. rewrite <-(Hc n b (length b)) by done.
      rewrite take_ge; [done|]. by rewrite length_cells.
    - destruct Hpg as (o & eo & off & Hpar & Heo & Howned & -> & Hoff). rewrite Hpar in *.
      rewrite Heo in Ho. injection Ho as <-. eexists. split; [done|].
      unfold runs_len, expand. simpl. rewrite app_nil_r, Nat.sub_0_r, ?Nat.add_0_r. symmetry.
      apply Hc. lia. }
  destruct Hown as (here & -> & ->). exists (own.*1 ++ locs). split; [done|].
  intros l. rewrite fmap_app, !elem_of_app, Hin. tauto.
Qed.

Lemma fuel_chain t n l : sound t → chain (nm t) n l → length l ≤ fuel t.
Proof. intros Hs Hl. rewrite fuel_size by done. by eapply chain_length. Qed.

Lemma walk_fuel t n v segs :
  sound t → shape (nm t) → walk (nm t) (Some n) v segs → length segs ≤ fuel t.
Proof.
  intros Hs Hm Hw. assert (is_Some (nm t !! n)) as Hn.
  { inversion Hw as [|? ? ? ? ? Ho _ _]; subst. unfold contrib in Ho. by destruct (nm t !! n). }
  destruct (sh_chain _ Hm n Hn) as [l Hl]. transitivity (length l); [|by eapply fuel_chain].
  eapply walk_length; [done..|]. intros ? [= <-]. done.
Qed.

Lemma anchor_locations_spec t n v :
  sound t → shape (nm t) → view (nm t) (Some n) v →
  ∃ locs, anchor_locations t n = Some locs ∧ ∀ l, l ∈ locs ↔ l ∈ v.*1.
Proof.
  intros Hs Hm [segs Hw]. eapply anchor_locations_loop_spec; [done..|]. by eapply walk_fuel.
Qed.

(** The chain of parents from a node, or nothing from a node that is gone. *)
Lemma path_nodes_loop_chain t n l f :
  sound t → chain (nm t) n l → length l ≤ f → path_nodes_loop f t (Some n) = Some l.
Proof.
  intros Hs Hl. revert f. induction Hl as [n e He Hp|n e p l He Hp Hl IH]; intros [|f] Hf;
    simpl in Hf; try lia; cbn [path_nodes_loop]; rewrite node_nm, He, Hp by done.
  - by destruct f.
  - by rewrite IH by lia.
Qed.

Lemma path_nodes_some t n :
  sound t → shape (nm t) → is_Some (path_nodes t n).
Proof.
  intros Hs Hm. unfold path_nodes. rewrite node_nm by done. destruct (nm t !! n) as [e|] eqn:He.
  - destruct (sh_chain _ Hm n ltac:(by eexists)) as [l Hl].
    rewrite (path_nodes_loop_chain t n l) by (try done; by eapply fuel_chain). by eexists.
  - destruct (fuel t); by eexists.
Qed.

Lemma descends_loop_chain t n l f a :
  sound t → chain (nm t) n l → length l ≤ f → is_Some (descends_loop f t (Some n) a).
Proof.
  intros Hs Hl. revert f. induction Hl as [n e He Hp|n e p l He Hp Hl IH]; intros [|f] Hf;
    simpl in Hf; try lia; cbn [descends_loop]; case_decide; try by eexists.
  - rewrite node_nm, He, Hp by done. destruct f; by eexists.
  - rewrite node_nm, He, Hp by done. apply IH. lia.
Qed.

Lemma descends_from_some t n a :
  sound t → shape (nm t) → is_Some (descends_from t n a).
Proof.
  intros Hs Hm. unfold descends_from. destruct (nm t !! n) as [e|] eqn:He.
  - destruct (sh_chain _ Hm n ltac:(by eexists)) as [l Hl].
    eapply descends_loop_chain; [done..|]. pose proof (fuel_chain t n l Hs Hl). lia.
  - cbn [descends_loop]. case_decide; [by eexists|]. rewrite node_nm, He by done.
    destruct (fuel t); by eexists.
Qed.

Lemma path_prefix_len_some t n local :
  sound t → shape (nm t) → is_Some (nm t !! n) → is_Some (path_prefix_len t n local).
Proof.
  intros Hs Hm Hn. destruct (contrib_pred_some _ Hm n Hn) as (own & p & Ho & Hp & _).
  destruct (view_total _ Hm n Hn) as (v & segs & Hw). inversion Hw as [|? own' p' v0 segs' Ho' Hp' Hw']; subst.
  assert (p' = p) as -> by congruence.
  rewrite (path_prefix_len_spec t n own p v0 local) by (try done; by exists segs'). by eexists.
Qed.

Lemma within_some t root l len :
  sound t → shape (nm t) → is_Some (within t root l len).
Proof.
  intros Hs Hm. unfold within. rewrite node_nm by done.
  destruct (nm t !! root) as [e|] eqn:He; [|by eexists].
  assert (∃ owner last, match pages e with
      | Owned backings _ _ => Some (root, length backings)
      | ParentSelection rs =>
          match parent e with Some owner => Some (owner, foldr max 0 rs.*2) | None => None end
      end = Some (owner, last) ∧ is_Some (nm t !! owner)) as (owner & last & -> & Hlive).
  { destruct (pages e) as [b th ph|rs] eqn:Hp.
    - eexists _, _. split; [done|]. by eexists.
    - destruct (shape_sel _ Hm _ _ _ He Hp) as (o & eo & b & th & ph & off & -> & Heo & _).
      eexists _, _. split; [done|]. by eexists. }
  case_decide; [by eexists|]. destruct (descends_from_some t (loc_node l) owner Hs Hm) as [d ->].
  destruct d; [|by eexists]. case_decide; [|by eexists].
  destruct (path_prefix_len_some t owner (last - 1) Hs Hm Hlive) as [n ->]. by eexists.
Qed.

(** ** Which cached roots are unused *)

Lemma live_reads_chain_some t n l f read reads :
  sound t → shape (nm t) → chain (nm t) n l → length l ≤ f →
  is_Some (live_reads_chain f t n read reads).
Proof.
  intros Hs Hm Hl. revert f read reads.
  induction Hl as [n e He Hp|n e p l He Hp Hl IH]; intros [|f] read reads Hf; simpl in Hf; try lia;
    cbn [live_reads_chain]; (case_decide; [by eexists|]); rewrite node_nm, He, Hp by done; [by eexists|].
  apply IH. lia.
Qed.

Lemma live_reads_loop_some t ns reads :
  sound t → shape (nm t) → (∀ n, n ∈ ns → is_Some (nm t !! n)) →
  is_Some (live_reads_loop t ns reads).
Proof.
  intros Hs Hm. revert reads. induction ns as [|n ns IH]; intros reads Hns; [by eexists|].
  cbn [live_reads_loop]. destruct (sh_chain _ Hm n ltac:(apply Hns; set_solver)) as [l Hl].
  destruct (live_reads_chain_some t n l (fuel t) None reads) as [r ->]; [done..|by eapply fuel_chain|].
  apply IH. set_solver.
Qed.

Lemma st_iter_ws t ws e : sound t → (ws, e) ∈ st_iter (working_sets t) ↔ wm t !! ws = Some e.
Proof.
  intros [_ Hv]. rewrite (st_iter_spec _ Hv). fold (wm t). apply elem_of_map_to_list.
Qed.

Lemma live_anchor t n :
  inv t → n ∈ omap (λ p, terminal p.2) (st_iter (working_sets t)) ∨ n ∈ hold_anchors t →
  is_Some (nm t !! n).
Proof.
  intros Hi Hn. apply (anchors_live t); [done|]. unfold anchors. rewrite elem_of_app.
  destruct Hn as [Hn|Hn]; [left|by right].
  apply list_elem_of_omap in Hn as ([ws e] & Hin & Ht). apply elem_of_ws_anchors.
  apply st_iter_ws in Hin; [|by destruct Hi]. eauto.
Qed.

Lemma live_reads_some t : inv t → is_Some (live_reads t).
Proof.
  intros Hi. pose proof Hi as [Hs [Hm _ _ _] _ _]. apply live_reads_loop_some; [done..|].
  intros n Hn. apply (live_anchor t); [done|]. apply elem_of_app in Hn as [?|?]; [by left|right].
  unfold hold_anchors. set_solver.
Qed.

Lemma filter_opt_some {A} (p : A → option bool) l :
  (∀ a, a ∈ l → is_Some (p a)) → is_Some (filter_opt p l).
Proof.
  induction l as [|a l IH]; intros Hp; [by eexists|]. cbn [filter_opt].
  destruct (Hp a) as [b ->]; [set_solver|]. destruct IH as [k ->]; [set_solver|]. by eexists.
Qed.

Lemma filter_opt_elem {A} (p : A → option bool) l k a :
  filter_opt p l = Some k → a ∈ k → a ∈ l.
Proof.
  revert k. induction l as [|x l IH]; intros k; [by intros [= <-]|]. cbn [filter_opt].
  destruct (p x) as [b|]; [|done]. destruct (filter_opt p l) as [k'|]; [|done].
  intros [= <-]. specialize (IH k' eq_refl). destruct b; set_solver.
Qed.

Lemma cache_root_live t n : inv t → n ∈ (map_to_list (cache_roots t)).*1 → is_Some (nm t !! n).
Proof. intros Hi Hn. apply (live_anchor t); [done|]. right. unfold hold_anchors. set_solver. Qed.

Lemma pin_live t n : inv t → n ∈ (map_to_list (pins t)).*1 → is_Some (nm t !! n).
Proof. intros Hi Hn. apply (live_anchor t); [done|]. right. unfold hold_anchors. set_solver. Qed.

Lemma unused_cache_roots_some t :
  inv t → ∃ l, unused_cache_roots t = Some l ∧ ∀ n, n ∈ l → is_Some (nm t !! n).
Proof.
  intros Hi. pose proof Hi as [Hs [Hm _ _ _] _ _]. unfold unused_cache_roots.
  case_decide; [by exists []; split; [|intros n ?%not_elem_of_nil]|].
  destruct (live_reads_some t Hi) as [reads ->].
  destruct (filter_opt_some (root_unused t reads) (map_to_list (cache_roots t)).*1) as [l Hl].
  - intros n Hn. destruct (cache_root_live t n Hi Hn) as [e He]. unfold root_unused.
    rewrite node_nm, He by done. destruct (pages e) as [b th ph|rs] eqn:Hp; [by eexists|].
    destruct (shape_sel _ Hm _ _ _ He Hp) as (o & eo & b & th & ph & off & -> & _). by eexists.
  - exists l. split; [done|]. intros n Hn. apply cache_root_live; [done|]. by eapply filter_opt_elem.
Qed.

(** ** What the cache asks about a root *)

Lemma holds_resident_some t n : sound t → shape (nm t) → is_Some (holds_resident t n).
Proof. intros Hs Hm. unfold holds_resident. destruct (path_nodes_some t n Hs Hm) as [l ->]. by eexists. Qed.

Lemma in_move_at_some t n : sound t → shape (nm t) → is_Some (in_move_at t n).
Proof.
  intros Hs Hm. unfold in_move_at. case_decide; [by eexists|].
  destruct (path_nodes_some t n Hs Hm) as [l ->]. by eexists.
Qed.

Lemma settled_on_device_some t n :
  sound t → shape (nm t) → is_Some (nm t !! n) → is_Some (settled_on_device t n).
Proof.
  intros Hs Hm Hn. destruct (view_total _ Hm n Hn) as [v Hv]. unfold settled_on_device.
  destruct (anchor_locations_spec t n v Hs Hm Hv) as (locs & -> & _). by eexists.
Qed.

Lemma through_loop_some t ns th ex :
  sound t → shape (nm t) → is_Some (through_loop t ns th ex).
Proof.
  intros Hs Hm. revert th ex. induction ns as [|n ns IH]; intros th ex; [by eexists|].
  cbn [through_loop]. destruct (path_nodes_some t n Hs Hm) as [l ->]. apply IH.
Qed.

Lemma staying_runs_some t th cs :
  sound t → (∀ c, c ∈ cs → is_Some (nm t !! c)) → is_Some (staying_runs t th cs).
Proof.
  intros Hs. induction cs as [|c cs IH]; intros Hc; [by eexists|]. cbn [staying_runs].
  rewrite node_nm by done. destruct (Hc c) as [e ->]; [set_solver|].
  destruct IH as [r Hr]; [set_solver|]. rewrite Hr. case_decide; [by eexists|].
  destruct (pages e); [by eexists|]. destruct r; by eexists.
Qed.

Lemma device_pages_freed_some t ns : sound t → shape (nm t) → is_Some (device_pages_freed t ns).
Proof.
  intros Hs Hm. unfold device_pages_freed.
  destruct (through_loop_some t ns ∅ ∅ Hs Hm) as [[th ex] ->].
  assert (Hall : Forall (λ p : NodeId * nat, is_Some (pages_freed_at t th ex p.1 p.2)) (map_to_list th)).
  { apply Forall_forall. intros [n d] _. unfold pages_freed_at. rewrite node_nm by done. simpl.
    destruct (nm t !! n) as [e|] eqn:He; [|by eexists].
    destruct (pages e) as [b ths phs|]; [|by eexists]. case_decide; [by eexists|].
    case_match; [by eexists|]. destruct (staying_runs_some t th (children e) Hs) as [[r|] ->]; [|by eexists..].
    intros c Hc. destruct (shape_child _ Hm _ _ _ He Hc) as (ec & ? & _). by eexists. }
  apply mapM_is_Some_2 in Hall as [cs Hcs]. rewrite Hcs. by eexists.
Qed.

(** ** The locations of working sets *)

Lemma working_set_locations_cases t ws :
  inv t →
  (∃ v, mapped t ws v ∧ working_set_locations ws t = (Ok v.*1, t)) ∨
  (wm t !! ws = None ∧ working_set_locations ws t = (Err UnknownWorkingSet, t)).
Proof.
  intros Hi. pose proof Hi as [Hs [Hm _ _ _] _ Hmp]. destruct (wm t !! ws) as [e|] eqn:He.
  - left. destruct (Hmp _ _ He) as [v Hv]. exists v. split; [by exists e|].
    by eapply working_set_locations_spec.
  - right. split; [done|]. unfold working_set_locations, mthen. by rewrite entry_spec, He.
Qed.

Lemma working_set_locations_calm t ws : inv t → calm (working_set_locations ws) t.
Proof.
  intros Hi. unfold calm. destruct (working_set_locations_cases t ws Hi) as [(v & _ & ->)|[_ ->]]; by eexists.
Qed.

Lemma locations_of_calm t visit l acc :
  (∀ ws, ws ∈ l → calm (visit ws) t) → calm (locations_of visit l acc) t.
Proof.
  revert acc. induction l as [|ws l IH]; intros acc Hl; [apply calm_ok|]. cbn [locations_of].
  apply calm_then; [apply Hl; set_solver|]. intros locs _. apply IH. set_solver.
Qed.

Lemma locations_calm t g : inv t → calm (locations g) t.
Proof. intros Hi. apply locations_of_calm. intros ws _. by apply working_set_locations_calm. Qed.

Lemma visit_or_skip_calm t ws : inv t → calm (visit_or_skip ws) t.
Proof. intros Hi. by apply calm_or_else, working_set_locations_calm. Qed.

Lemma visit_or_skip_mapped t ws locs l :
  inv t → visit_or_skip ws t = (Ok locs, t) → l ∈ locs → ∃ v, mapped t ws v ∧ l ∈ v.*1.
Proof.
  intros Hi. unfold visit_or_skip, mor_else.
  destruct (working_set_locations_cases t ws Hi) as [(v & Hv & ->)|[_ ->]]; intros [= <-] Hl.
  - by exists v.
  - by apply not_elem_of_nil in Hl.
Qed.

Lemma anchors_locations_some t ns acc :
  inv t → (∀ n, n ∈ ns → is_Some (nm t !! n)) → is_Some (anchors_locations t ns acc).
Proof.
  intros Hi. pose proof Hi as [Hs [Hm _ _ _] _ _]. revert acc.
  induction ns as [|n ns IH]; intros acc Hns; [by eexists|]. cbn [anchors_locations].
  destruct (view_total _ Hm n ltac:(apply Hns; set_solver)) as [v Hv].
  destruct (anchor_locations_spec t n v Hs Hm Hv) as (locs & -> & _). apply IH. set_solver.
Qed.

Lemma read_by_running_calm t g target l shared :
  inv t → calm (read_by_running_loop g target l shared) t.
Proof.
  intros Hi. revert shared. induction l as [|[ws e] l IH]; intros shared; [apply calm_ok|].
  cbn [read_by_running_loop]. case_decide; [apply calm_ok|]. case_match; [apply IH|].
  apply calm_then; [by apply working_set_locations_calm|]. intros locs _. apply IH.
Qed.

Lemma held_by_pins_some t target ns held :
  inv t → (∀ n, n ∈ ns → is_Some (nm t !! n)) → is_Some (held_by_pins_loop t target ns held).
Proof.
  intros Hi. pose proof Hi as [Hs [Hm _ _ _] _ _]. revert held.
  induction ns as [|n ns IH]; intros held Hns; [by eexists|]. cbn [held_by_pins_loop].
  case_decide; [by eexists|].
  destruct (view_total _ Hm n ltac:(apply Hns; set_solver)) as [v Hv].
  destruct (anchor_locations_spec t n v Hs Hm Hv) as (locs & -> & _). apply IH. set_solver.
Qed.

Lemma staying_calm t g target : inv t → calm (staying g target) t.
Proof.
  intros Hi. unfold staying. apply calm_then.
  - unfold locations_read_by_running. case_decide; [apply calm_ok|].
    apply calm_then; [apply calm_get|]. intros t' [= <-]. by apply read_by_running_calm.
  - intros running _. apply calm_then; [|intros; apply calm_ok]. apply calm_read.
    unfold locations_held_by_pins. case_decide; [by eexists|].
    apply held_by_pins_some; [done|]. intros n. by apply pin_live.
Qed.

(** ** The pages a move is to take *)

(** Pages listed once each, that are on the device. *)
Definition listed t (pages : list (TriePageLocation * PhysicalKvPageId)) : Prop :=
  NoDup pages.*1 ∧ ∀ l id, (l, id) ∈ pages → backing_at t l = Ok (Resident id).

Lemma resident_at_some t l p : resident_at t l = Some p → p.1 = l ∧ backing_at t l = Ok (Resident p.2).
Proof. unfold resident_at. by repeat case_match; intros [= <-]. Qed.

Lemma omap_resident_listed t ls : NoDup ls → listed t (omap (resident_at t) ls).
Proof.
  intros Hnd. assert (Hin : ∀ l id, (l, id) ∈ omap (resident_at t) ls → l ∈ ls ∧ backing_at t l = Ok (Resident id)).
  { intros l id (l' & Hl' & Hr)%list_elem_of_omap. apply resident_at_some in Hr as [H1 H2]. simpl in *. by subst. }
  split; [|intros l id H; by apply Hin]. clear Hin.
  induction ls as [|l ls IH]; [constructor|]. apply NoDup_cons in Hnd as [Hl Hnd]. csimpl.
  destruct (resident_at t l) as [[l' id]|] eqn:Hr; [|by apply IH].
  apply resident_at_some in Hr as [H1 _]. simpl in H1. subst l'. csimpl. apply NoDup_cons.
  split; [|by apply IH]. intros ([l2 id2] & -> & (l3 & Hl3 & Hr)%list_elem_of_omap)%list_elem_of_fmap.
  apply resident_at_some in Hr as [H1 _]. simpl in *. by subst.
Qed.

Lemma listed_take t k pages : listed t pages → listed t (take k pages).
Proof.
  intros [Hnd Hp]. split.
  - rewrite <-(take_drop k pages), fmap_app in Hnd. by apply NoDup_app in Hnd as (? & _).
  - intros l id Hin. apply Hp. rewrite <-(take_drop k pages). apply elem_of_app. by left.
Qed.

(** The pages that working sets map. *)
Definition mapped_by t (P : WorkingSetId → Prop) (l : TriePageLocation) : Prop :=
  ∃ ws v, P ws ∧ mapped t ws v ∧ l ∈ v.*1.

Lemma locations_of_spec t : inv t → ∀ l acc, ∃ r, locations_of working_set_locations l acc t = (r, t) ∧
  match r with
  | Ok ls => ∀ x, x ∈ ls ↔ x ∈ acc ∨ mapped_by t (.∈ l) x
  | Err _ => True
  | Panic => False
  end.
Proof.
  intros Hi. induction l as [|ws l IH]; intros acc; cbn [locations_of].
  { exists (Ok acc). split; [done|]. intros x. split; [by left|]. by intros [?|(ws & v & ?%not_elem_of_nil & _)]. }
  unfold mthen. destruct (working_set_locations_cases t ws Hi) as [(v & Hv & ->)|[_ ->]]; [|by eexists].
  destruct (IH (acc ∪ list_to_set v.*1)) as (r & -> & Hr). exists r. split; [done|].
  destruct r as [ls|e|]; [|done..]. intros x. rewrite Hr, elem_of_union, elem_of_list_to_set. split.
  - intros [[?|Hx]|(ws' & v' & ? & ? & ?)]; [by left| |]; right.
    + exists ws, v. split_and!; [by left|done..].
    + exists ws', v'. split_and!; [by right|done..].
  - intros [?|(ws' & v' & [->|Hin]%elem_of_cons & Hv' & Hx)]; [by left; left| |].
    + left. right. by rewrite (mapped_fun _ _ _ _ Hv Hv').
    + right. by exists ws', v'.
Qed.

Lemma locations_spec t g : inv t → ∃ r, locations g t = (r, t) ∧
  match r with
  | Ok ls => ∀ x, x ∈ ls ↔ mapped_by t (.∈ g) x
  | Err _ => True
  | Panic => False
  end.
Proof.
  intros Hi. destruct (locations_of_spec t Hi (elements g) ∅) as (r & Hl & Hr). exists r. split; [done|].
  destruct r as [ls|e|]; [|done..]. intros x. rewrite Hr. split.
  - intros [?%not_elem_of_empty|(ws & v & Hin%elem_of_elements & ?)]; [done|by exists ws, v].
  - intros (ws & v & Hin & ?). right. exists ws, v. by rewrite elem_of_elements.
Qed.

Lemma movable_calm t g :
  inv t → ∃ r, movable_resident_pages g t = (r, t) ∧
    match r with
    | Ok pages => listed t pages ∧
        ∀ l id, (l, id) ∈ pages → mapped_by t (.∈ g) l
    | Err _ => True
    | Panic => False
    end.
Proof.
  intros Hi. unfold movable_resident_pages. unfold mthen at 1.
  destruct (locations_spec t g Hi) as (r & Hl & Hr). rewrite Hl.
  destruct r as [S|e|]; [|by eexists|done]. unfold mthen at 1.
  destruct (staying_calm t g S Hi) as (r & -> & Hrp). destruct r as [st|e|]; [|by eexists|done].
  unfold mthen, mget, mok. eexists. split; [done|]. split.
  - apply omap_resident_listed, NoDup_filter, NoDup_elements.
  - intros l id (l' & [_ Hl']%list_elem_of_filter & Hr')%list_elem_of_omap.
    apply resident_at_some in Hr' as [H1 _]. simpl in H1. subst l'. apply elem_of_elements in Hl'.
    by apply Hr.
Qed.

(** What [collect_step] has seen and taken. *)
Definition collected t (skip : TriePageLocation → bool) (src : TriePageLocation → Prop)
    (acc : gset TriePageLocation * list (TriePageLocation * PhysicalKvPageId)) : Prop :=
  listed t acc.2 ∧ ∀ l id, (l, id) ∈ acc.2 → l ∈ acc.1 ∧ skip l = false ∧ src l.

Lemma collect_step_collected t skip src acc l :
  src l → collected t skip src acc → collected t skip src (collect_step t skip acc l).
Proof.
  intros Hsrc. destruct acc as [seen pages]. intros [[Hnd Hp] Hs]. unfold collect_step.
  assert (collected t skip src (seen, pages)) as Hsame by (split; [by split|done]).
  destruct (skip l) eqn:Hskip; simpl; [done|]. case_bool_decide as Hseen; [done|].
  destruct (resident_at t l) as [[l' id]|] eqn:Hr.
  - apply resident_at_some in Hr as [H1 H2]. simpl in H1, H2. subst l'. simpl in *. split; [split|].
    + simpl. rewrite fmap_app. apply NoDup_app. split_and!; [done| |apply NoDup_singleton].
      intros x ([x' id'] & -> & Hx)%list_elem_of_fmap [= ->]%list_elem_of_singleton. simpl in *.
      by apply Hseen, (Hs l id').
    + intros x y [Hxy|[= -> ->]%list_elem_of_singleton]%elem_of_app; [by apply Hp|done].
    + intros x y [Hxy|[= -> ->]%list_elem_of_singleton]%elem_of_app; simpl.
      * destruct (Hs _ _ Hxy) as (? & ? & ?). set_solver.
      * set_solver.
  - split; [by split|]. simpl in *. intros x y Hxy. destruct (Hs _ _ Hxy) as (? & ? & ?). set_solver.
Qed.

Lemma collect_from_calm {A} t (visit : A → tm (list TriePageLocation)) skip src l acc :
  (∀ a, a ∈ l → calm (visit a) t) → (∀ a locs, a ∈ l → visit a t = (Ok locs, t) → Forall src locs) →
  collected t skip src acc →
  ∃ r, collect_from visit skip l acc t = (r, t) ∧
    match r with Ok acc' => collected t skip src acc' | Err _ => True | Panic => False end.
Proof.
  intros Hv Hsrc. revert acc. induction l as [|a l IH]; intros acc Hacc; simpl.
  { by exists (Ok acc). }
  unfold mthen at 1. destruct (Hv a) as (r & Hva & Hr); [set_solver|]. rewrite Hva.
  destruct r as [locs|e|]; [|by exists (Err e)|done]. unfold mthen, mget.
  apply Hsrc in Hva; [|by left]. apply IH; [set_solver|intros a' locs' ?; apply Hsrc; by right|].
  clear Hr Hsrc. revert acc Hacc. induction Hva as [|x locs Hx _ IHl]; intros acc Hacc; [done|].
  simpl. by apply IHl, collect_step_collected.
Qed.

Lemma collected_nil t skip src : collected t skip src (∅, []).
Proof. split; [split; [constructor|]|]; by intros ? ? ?%not_elem_of_nil. Qed.

Lemma calm_snd {A B} (m : tm (A * B)) (Q : B → Prop) t :
  (∃ r, m t = (r, t) ∧ match r with Ok p => Q p.2 | Err _ => True | Panic => False end) →
  ∃ r, (r' ⇐ m ;; mok r'.2) t = (r, t) ∧ match r with Ok b => Q b | Err _ => True | Panic => False end.
Proof.
  intros (r & Hm & Hr). unfold mthen. rewrite Hm. destruct r as [p|e|]; [by exists (Ok p.2)|by exists (Err e)|done].
Qed.

Lemma stranded_calm t keep :
  inv t → ∃ r, stranded_pages keep t = (r, t) ∧
    match r with
    | Ok pages => listed t pages ∧ ∀ l id, (l, id) ∈ pages →
        ∃ ws e v, wm t !! ws = Some e ∧ suspended e = true ∧ mapped t ws v ∧ l ∈ v.*1
    | Err _ => True
    | Panic => False
    end.
Proof.
  intros Hi. pose proof Hi as [Hs _ _ _]. unfold stranded_pages. unfold mthen at 1, mget at 1. cbn zeta. unfold mthen at 1.
  destruct (locations_of_calm t visit_or_skip (filter (λ p, suspended p.2 = false ∨ p.1 ∈ keep) (st_iter (working_sets t))).*1 ∅)
    as (r & -> & Hr); [intros; by apply visit_or_skip_calm|]. destruct r as [run|e|]; [|by exists (Err e)|done].
  unfold mthen at 1, mread at 1.
  destruct (anchors_locations_some t (map_to_list (pins t)).*1 run Hi) as [run' ->]; [intros n; by apply pin_live|].
  set (src := λ l, ∃ ws e v, wm t !! ws = Some e ∧ suspended e = true ∧ mapped t ws v ∧ l ∈ v.*1).
  apply (calm_snd _ (λ pages, listed t pages ∧ ∀ l id, (l, id) ∈ pages → src l)).
  destruct (collect_from_calm t visit_or_skip (λ l, bool_decide (l ∈ run')) src
    (filter (λ p, suspended p.2 = true) (st_iter (working_sets t))).*1 (∅, []))
    as (r & Hc & Hr'); [intros; by apply visit_or_skip_calm| |apply collected_nil|].
  { intros ws locs ([ws' e] & Heq & [Hsus Hin]%list_elem_of_filter)%list_elem_of_fmap. simpl in Heq, Hsus. subst ws'.
    apply (st_iter_ws t ws e Hs) in Hin. intros Hvis. apply Forall_forall. intros l Hl.
    destruct (visit_or_skip_mapped t ws locs l Hi Hvis Hl) as (v & ? & ?). by exists ws, e, v. }
  exists r. split; [exact Hc|]. destruct r as [acc|e|]; [|done..]. destruct Hr' as [Hl Hsk].
  split; [done|]. intros l id Hin. by destruct (Hsk l id Hin) as (_ & _ & ?).
Qed.

Lemma cache_only_calm t roots above :
  inv t → (∀ n, n ∈ above → is_Some (nm t !! n)) →
  ∃ r, cache_only_pages roots above t = (r, t) ∧
    match r with
    | Ok pages => listed t pages ∧ ∀ l id, (l, id) ∈ pages → l ∉ swap_locations t
    | Err _ => True
    | Panic => False
    end.
Proof.
  intros Hi Habove. pose proof Hi as [Hs [Hm _ _ _] _ _]. unfold cache_only_pages. case_decide.
  { exists (Ok []). split; [done|]. split; [split; [constructor|]|]; by intros ? ? ?%not_elem_of_nil. }
  unfold mthen at 1, mget at 1. unfold mthen at 1.
  destruct (locations_of_calm t visit_or_skip (st_iter (working_sets t)).*1 ∅)
    as (r & -> & Hr); [intros; by apply visit_or_skip_calm|]. destruct r as [read|e|]; [|by exists (Err e)|done].
  unfold mthen at 1, mread at 1.
  destruct (anchors_locations_some t ((map_to_list (pins t)).*1 ++ above) read Hi) as [read' ->].
  { intros n [?|?]%elem_of_app; [by apply pin_live|by apply Habove]. }
  apply (calm_snd _ (λ pages, listed t pages ∧ ∀ l id, (l, id) ∈ pages → l ∉ swap_locations t)).
  destruct (collect_from_calm t (λ root, mread (λ t, anchor_locations t root))
    (λ l, bool_decide (l ∈ read') || bool_decide (l ∈ swap_locations t)) (λ _, True)
    (filter (λ root, is_Some (node t root)) roots) (∅, []))
    as (r & Hc & Hr'); [|intros; by apply Forall_true|apply collected_nil|].
  { intros n [Hn _]%list_elem_of_filter. rewrite node_nm in Hn by done. apply calm_read.
    destruct (view_total _ Hm n Hn) as [v Hv]. destruct (anchor_locations_spec t n v Hs Hm Hv) as (locs & -> & _).
    by eexists. }
  exists r. split; [exact Hc|]. destruct r as [acc|e|]; [|done..]. destruct Hr' as [Hl Hsk].
  split; [done|]. intros l id Hin. destruct (Hsk l id Hin) as (_ & Hf & _).
  apply orb_false_iff in Hf as [_ Hf]. by apply bool_decide_eq_false in Hf.
Qed.

Lemma suspended_readers_calm t pages : inv t → calm (suspended_readers pages) t.
Proof.
  intros Hi. unfold suspended_readers. apply calm_then; [apply calm_get|]. intros t' [= <-].
  generalize (∅ : gset WorkingSetId). induction (st_iter (working_sets t)) as [|[ws e] l IH]; intros rd;
    [apply calm_ok|]. cbn [suspended_readers_loop]. case_match; [apply IH|].
  apply calm_then; [by apply visit_or_skip_calm|]. intros locs _. apply IH.
Qed.

(** What is below the device, and whether a move is under way among it. *)
Lemma swapped_pages_calm t g :
  inv t → ∃ r, swapped_pages g t = (r, t) ∧
    match r with
    | Ok pages => NoDup pages.*1 ∧ (∀ l b, (l, b) ∈ pages → backing_at t l = Ok b ∧ is_resident b = false) ∧
        (∀ l b, mapped_by t (.∈ g) l → backing_at t l = Ok b → is_resident b = false → (l, b) ∈ pages) ∧
        (in_move g t = (Ok false, t) → ∀ l b, (l, b) ∈ pages → l ∉ swap_locations t)
    | Err _ => True
    | Panic => False
    end.
Proof.
  intros Hi. unfold swapped_pages, in_move. unfold mthen at 1.
  destruct (locations_spec t g Hi) as (r & Hl & Hr). rewrite Hl. destruct r as [S|e|]; [|by exists (Err e)|done].
  unfold mthen at 1, mget at 1. eexists. split; [done|].
  set (f := λ l, match backing_at t l with Ok (Resident _) => None | Ok swapped => Some (l, swapped) | _ => None end).
  assert (Hf : ∀ l p, f l = Some p → p.1 = l ∧ backing_at t l = Ok p.2 ∧ is_resident p.2 = false).
  { intros l p. unfold f. repeat case_match; intros [= <-]; done. }
  split_and!.
  - pose proof (NoDup_elements S) as Hnd. induction (elements S) as [|l ls IH]; [constructor|].
    apply NoDup_cons in Hnd as [Hnl Hnd]. csimpl. destruct (f l) as [p|] eqn:Hp; [|by apply IH].
    csimpl. apply NoDup_cons. split; [|by apply IH]. destruct (Hf _ _ Hp) as [-> _].
    intros (q & -> & (l' & Hl' & Hq)%list_elem_of_omap)%list_elem_of_fmap.
    destruct (Hf _ _ Hq) as [Heq _]. rewrite Heq in Hnl. done.
  - intros l b (l' & _ & Hq)%list_elem_of_omap. by destruct (Hf _ _ Hq) as (<- & ? & ?).
  - intros l b Hl' Hb Hres. apply list_elem_of_omap. exists l. split; [by apply elem_of_elements, Hr|].
    unfold f. rewrite Hb. by destruct b.
  - unfold mthen, mget. rewrite Hl. intros [= Hex] l b (l' & Hl' & Hq)%list_elem_of_omap Hsw.
    destruct (Hf _ _ Hq) as (Heq & _). simpl in Heq. subst l'.
    assert (existsb (λ l, bool_decide (l ∈ swap_locations t)) (elements S) = true); [|congruence].
    apply existsb_exists. exists l. split; [by apply list_elem_of_In|by apply bool_decide_eq_true].
Qed.

Lemma in_move_calm t g : inv t → calm (in_move g) t.
Proof.
  intros Hi. unfold in_move. apply calm_then; [by apply locations_calm|]. intros S _.
  apply calm_then; [apply calm_get|]. intros; apply calm_ok.
Qed.
End locate. End KvLocate.
