(* ===== verification/KvReads.v ===== *)
(** What the store reads of a page table without changing it: each of these calls
    answers a value or an error of its own, and leaves a settled table as it
    was. *)
From S2P Require Import Prelude Ids Store Runs KvTable KvOps KvMove KvTrie KvChange KvSpec KvInv.
From S2P Require Import KvRead KvState KvPath KvProps KvFree KvShare KvHold KvQuery KvCommit KvLocate.

Module KvReads.
Import Runs KvTable KvOps KvMove KvTrie KvChange KvSpec KvInv KvRead KvState KvPath KvProps KvFree
  KvShare KvHold KvQuery KvCommit KvLocate.

Section reads.
Context {WS NS : Type → Type}.
Context `{!KeyedStore WorkingSetId WS, !KeyedStore NodeId NS}.
Context `{!KeyedStoreLaws WorkingSetId WS, !KeyedStoreLaws NodeId NS}.
Abbreviation table := (KvPageTable WS NS).
Abbreviation tm := (method table KvTableError).
Implicit Types t : table.

Lemma calm_expect {A} (o : option A) t : is_Some o → calm (mexpect o : tm A) t.
Proof. intros [a ->]. apply calm_ok. Qed.
Lemma calm_pure {A} (f : table → outcome KvTableError A) t : f t ≠ Panic → calm (λ t, (f t, t)) t.
Proof. intros Hf. by exists (f t). Qed.

(** ** Entries *)

Lemma entry_calm t ws : inv t → calm (entry ws) t.
Proof.
  intros Hi. unfold calm. rewrite entry_spec by apply Hi. eexists. split; [done|]. by destruct (wm t !! ws).
Qed.

Lemma entry_then_calm {A} t ws (f : WorkingSetEntry → tm A) :
  inv t → (∀ e, wm t !! ws = Some e → calm (f e) t) → calm (mthen (entry ws) f) t.
Proof.
  intros Hi Hf. apply calm_then; [by apply entry_calm|]. intros e. rewrite entry_spec by apply Hi.
  destruct (wm t !! ws) as [e'|]; [|done]. intros [= <-]. by apply Hf.
Qed.

Lemma get_calm {A} t ws (f : WorkingSetEntry → A) : inv t → calm (e ⇐ entry ws ;; mok (f e)) t.
Proof. intros Hi. apply entry_then_calm; [done|]. intros. apply calm_ok. Qed.

(** ** Pages of a working set *)

(** The owner of a page, where the working set maps it. *)
Lemma page_owner_cases t ws i :
  inv t →
  (∃ l x, (l, x) ∈ all_cells (nm t) ∧ page_owner ws i t = (Ok (loc_node l, loc_local l), t)) ∨
  (∃ e, page_owner ws i t = (Err e, t)).
Proof.
  intros Hi. pose proof Hi as [Hs [Hm _ _ _] _ Hmp]. destruct (wm t !! ws) as [e|] eqn:He.
  - destruct (Hmp _ _ He) as [v Hv]. destruct (v !! i) as [[l x]|] eqn:Hx.
    + left. exists l, x. split; [|by apply (page_owner_spec t Hs Hm ws e v i l x)].
      eapply view_cells; [done..|apply Hv|]. by eapply list_elem_of_lookup_2.
    + right. eexists. eapply page_owner_unwritten; [done..|]. destruct Hv as [_ <-]. by apply lookup_ge_None.
  - right. exists UnknownWorkingSet. unfold page_owner. apply mthen_err. by rewrite entry_spec, He.
Qed.

(** A read of the page at an index. *)
Lemma page_read_calm {A} t ws i (f : NodeId * nat → tm A) :
  inv t →
  (∀ l x e b th ph, (l, x) ∈ all_cells (nm t) → node t (loc_node l) = Some e → pages e = Owned b th ph →
     loc_local l < length b → length th = length b → length ph = length b →
     calm (f (loc_node l, loc_local l)) t) →
  calm (mthen (page_owner ws i) f) t.
Proof.
  intros Hi Hf. pose proof Hi as [Hs [Hm _ _ _] _ _].
  destruct (page_owner_cases t ws i Hi) as [(l & x & Hx & Ho)|[e He]].
  - apply calm_then; [by eapply calm_ret|]. rewrite Ho. intros ? [= <-].
    destruct (all_cells_node t l x Hx) as (e & b & th & ph & He & Hp & Hb).
    pose proof (sh_pages _ Hm _ _ He) as Hok. unfold page_ok in Hok. rewrite Hp in Hok.
    apply lookup_lt_Some in Hb. rewrite <-node_nm in He by done.
    eapply Hf; [done..|lia|lia].
  - exists (Err e). split; [|done]. by apply mthen_err.
Qed.

Lemma page_hash_at_calm t ws i : inv t → calm (page_hash_at ws i) t.
Proof.
  intros Hi. apply page_read_calm; [done|]. intros l x e b th ph _ He Hp Hl Hth Hph. simpl.
  apply calm_then; [apply calm_read; rewrite He; by eexists|]. intros e'. unfold mread. rewrite He.
  intros [= <-]. rewrite Hp. apply calm_expect, lookup_lt_is_Some. lia.
Qed.

Lemma sealed_calm t ws i : inv t → calm (sealed ws i) t.
Proof. intros Hi. apply calm_then; [by apply page_hash_at_calm|]. intros. apply calm_ok. Qed.

Lemma page_token_hashes_calm t ws i : inv t → calm (page_token_hashes ws i) t.
Proof.
  intros Hi. apply page_read_calm; [done|]. intros l x e b th ph _ He Hp Hl Hth Hph. simpl.
  apply calm_then; [apply calm_read; rewrite He; by eexists|]. intros e'. unfold mread. rewrite He.
  intros [= <-]. rewrite Hp. apply calm_expect, lookup_lt_is_Some. lia.
Qed.

Lemma privately_writable_calm t ws i : inv t → calm (privately_writable ws i) t.
Proof.
  intros Hi. pose proof Hi as [Hs [Hm _ _ _] _ _].
  apply page_read_calm; [done|]. intros l x e b th ph _ He _ _ _ _. simpl.
  apply calm_then; [|intros; apply calm_ok]. apply calm_read. unfold page_readers. rewrite He.
  destruct (mapM_is_Some_2 (node t) (children e)) as [cs ->]; [|by eexists].
  apply Forall_forall. intros c Hc. rewrite node_nm in He by done.
  destruct (shape_child _ Hm _ _ _ He Hc) as (ec & Hec & _). simpl. rewrite node_nm, Hec by done. by eexists.
Qed.

Lemma flatten_calm t ws : inv t → calm (flatten ws) t.
Proof.
  intros Hi. destruct (wm t !! ws) as [e|] eqn:He.
  - destruct (inv_maps _ Hi _ _ He) as [v Hv]. eexists. split; [apply flatten_spec; [done|by exists e]|].
    apply ids_or_absent_no_panic.
  - exists (Err UnknownWorkingSet). split; [|done]. unfold flatten. apply mthen_err.
    by rewrite entry_spec, He by apply Hi.
Qed.

(** ** Prefixes *)

Lemma prefix_step_bound kept ls : ∀ acc,
  (foldl (prefix_step kept) acc ls).1 ≤ acc.1 + length ls.
Proof.
  induction ls as [|l ls IH]; intros acc; simpl; [lia|].
  specialize (IH (prefix_step kept acc l)).
  assert ((prefix_step kept acc l).1 ≤ S acc.1); [|lia].
  unfold prefix_step. simpl. destruct (acc.2 || negb (kept l)); lia.
Qed.

(** A prefix is no longer than what the working set maps. *)
Lemma prefix_while_cases t ws kept :
  inv t →
  (∃ e n, wm t !! ws = Some e ∧ n ≤ mapped_len e ∧ prefix_while ws kept t = (Ok n, t)) ∨
  prefix_while ws kept t = (Err UnknownWorkingSet, t).
Proof.
  intros Hi. unfold prefix_while.
  destruct (working_set_locations_cases t ws Hi) as [(v & (e & He & Hv & Hl) & Hw)|[_ Hw]]; [left|right; by apply mthen_err].
  eexists e, _. rewrite (mthen_ok _ _ _ _ _ Hw). split_and!; [done| |done].
  pose proof (prefix_step_bound (kept t) v.*1 (0, false)) as Hb. rewrite length_fmap, Hl in Hb. exact Hb.
Qed.

Lemma prefix_while_calm t ws kept : inv t → calm (prefix_while ws kept) t.
Proof.
  intros Hi. destruct (prefix_while_cases t ws kept Hi) as [(e & n & _ & _ & Hp)|Hp]; by eexists.
Qed.

(** ** Paths *)

Lemma segment_below_spec t c v segs upto :
  sound t → shape (nm t) → walk (nm t) c v segs →
  Forall2 (λ (p : NodeId * nat) (x : cell), resolve_location t p.1 p.2 = Some x.1)
    (concat (segment_below upto <$> reverse segs)) (take upto v).
Proof.
  intros Hs Hm. induction 1 as [|n own p v segs Ho Hp Hw IH]; [by rewrite take_nil|].
  rewrite reverse_cons, fmap_app, concat_app, take_app. apply Forall2_app; [done|].
  csimpl. rewrite app_nil_r. unfold segment_below. simpl.
  replace (Z.max (Z.of_nat (length v)) 0) with (Z.of_nat (length v)) by lia.
  apply Forall2_same_length_lookup. split.
  { unfold seg_end. simpl. rewrite length_fmap, length_seq, length_take. lia. }
  intros i q x Hq Hx. rewrite list_lookup_fmap in Hq. apply fmap_Some in Hq as (j & Hj & ->).
  apply lookup_seq in Hj as [-> Hj]. apply lookup_take_Some in Hx as [Hx _]. simpl.
  replace (Z.to_nat _) with i by lia. destruct x as [l x]. by eapply resolve_location_spec.
Qed.

(** The path to a page of a node is the prefix of the node's path. *)
Lemma path_locations_spec t n own v local :
  sound t → shape (nm t) → contrib (nm t) n = Some own → view (nm t) (Some n) v → local < length own →
  path_locations t n local = Some (take (length v - length own + local + 1) v).*1.
Proof.
  intros Hs Hm Ho Hv Hl. pose proof Hv as [segs Hw].
  inversion Hw as [|? own' p v0 segs0 Ho' Hp Hw0]; subst. simplify_eq.
  rewrite length_app. replace (length v0 + length own - length own + local + 1) with (length v0 + local + 1) by lia.
  unfold path_locations.
  rewrite (path_prefix_len_spec t n own p v0 local) by (try done; by eexists).
  rewrite (contribution_len_spec t Hs Hm _ _ Ho).
  replace (length v0 + local + 1 + length own - (local + 1)) with (length (v0 ++ own)) by (rewrite length_app; lia).
  rewrite (segments_spec t Hs Hm _ _ _ Hw). apply mapM_Some, Forall2_fmap_r.
  eapply Forall2_impl; [by eapply segment_below_spec|]. by intros [? ?] x.
Qed.

Lemma contrib_live t n : shape (nm t) → is_Some (nm t !! n) →
  ∃ own v, contrib (nm t) n = Some own ∧ view (nm t) (Some n) v ∧ 0 < length own ≤ length v.
Proof.
  intros Hm Hn. destruct (view_total _ Hm n Hn) as (v & segs & Hw).
  inversion Hw as [|? own p v0 segs0 Ho Hp Hw0]; subst.
  destruct (contrib_pred_some _ Hm n Hn) as (own' & p' & Ho' & _ & Hl). simplify_eq.
  exists own, (v0 ++ own). split_and!; [done|by eexists|done|]. rewrite length_app. lia.
Qed.

Lemma path_len_spec t n v :
  sound t → shape (nm t) → view (nm t) (Some n) v → path_len t n = Some (length v).
Proof.
  intros Hs Hm Hv. pose proof Hv as [segs Hw]. inversion Hw as [|? own p v0 segs0 Ho Hp Hw0]; subst.
  destruct (contrib_live t n Hm) as (own' & v' & Ho' & _ & Hl).
  { unfold contrib in Ho. by destruct (nm t !! n). }
  simplify_eq. unfold path_len. rewrite (contribution_len_spec t Hs Hm _ _ Ho).
  destruct (length own) as [|len] eqn:Hlen; [lia|].
  rewrite (path_prefix_len_spec t n own p v0) by (try done; by eexists).
  rewrite length_app, Hlen. f_equal. lia.
Qed.

Lemma path_keys_some t n : sound t → shape (nm t) → is_Some (nm t !! n) → is_Some (path_keys t n).
Proof.
  intros Hs Hm Hn. destruct (contrib_live t n Hm Hn) as (own & v & Ho & Hv & Hl).
  unfold path_keys. rewrite (contribution_len_spec t Hs Hm _ _ Ho).
  destruct (length own) as [|len] eqn:Hlen; [lia|].
  rewrite (path_locations_spec t n own v) by (try done; lia). by eexists.
Qed.
End reads.
End KvReads.
