(* ===== verification/KvLedger.v ===== *)
(** The books of a page table: what a call takes in, what it hands out, and what
    the cache and the pins keep of the paths they hold. *)
From S2P Require Import Prelude Ids Store Runs KvTable KvOps KvMove KvTrie KvChange KvSpec KvInv.
From S2P Require Import KvRead KvState KvPath KvProps KvFree KvShare KvHold KvQuery KvCommit KvCalls.
From S2P Require Import KvFrame KvLocate KvReads Hoare.

Module KvLedger.
Import Runs KvTable KvOps KvMove KvTrie KvChange KvSpec KvInv KvRead KvState KvPath KvProps KvFree
  KvShare KvHold KvQuery KvCommit KvCalls KvFrame KvLocate KvReads.

Section ledger.
Context {WS NS : Type → Type}.
Context `{!KeyedStore WorkingSetId WS, !KeyedStore NodeId NS}.
Context `{!KeyedStoreLaws WorkingSetId WS, !KeyedStoreLaws NodeId NS}.
Abbreviation table := (KvPageTable WS NS).
Abbreviation tm := (method table KvTableError).
Implicit Types t : table.

(** From [t] to [t'], with the pages [inn] taken in and the pages [out] handed
    out; what stays leased keeps its path. *)
Record trade t t' (inn out : list KvPageBacking) : Prop := {
  tr_settled : settled t';
  tr_pages : inn ++ held (nm t) ≡ₚ out ++ held (nm t');
  tr_views n v : is_Some (cache_roots t !! n) → is_Some (cache_roots t' !! n) →
    view (nm t) (Some n) v → ∃ v', view (nm t') (Some n) v' ∧ v'.*1 = v.*1;
}.

(** A trade of working sets: the holds stay. *)
Definition sets_trade t t' (inn out : list KvPageBacking) : Prop :=
  trade t t' inn out ∧ holds t' = holds t.

Lemma trade_refl t : settled t → trade t t [] [].
Proof. intros Hs. split; [done..|]. intros n v _ _ Hv. by exists v. Qed.

Lemma sets_refl t : settled t → sets_trade t t [] [].
Proof. intros Hs. split; [by apply trade_refl|done]. Qed.

Lemma same_nm_trade t t' :
  settled t' → nm t' = nm t → trade t t' [] [].
Proof. intros Hs Hn. split; [done|by rewrite Hn|]. intros n v _ _ Hv. exists v. by rewrite Hn. Qed.

Lemma holds_anchors t t' : holds t' = holds t → hold_anchors t' = hold_anchors t.
Proof. unfold holds, hold_anchors. by intros [= -> -> _]. Qed.

(** A method that leaves the holds alone, from what it answers. *)
Lemma leaves_holds {A} (m : tm A) t r t' : leaves holds m → m t = (r, t') → holds t' = holds t.
Proof. intros Hl Hm. specialize (Hl t). by rewrite Hm in Hl. Qed.

Lemma cells_held (m m' : trie) gone new :
  new ++ all_cells m ≡ₚ gone ++ all_cells m' → new.*2 ++ held m ≡ₚ gone.*2 ++ held m'.
Proof. intros Hp%(fmap_Permutation snd). by rewrite !fmap_app in Hp. Qed.

Lemma leased_held t n : is_Some (cache_roots t !! n) → n ∈ hold_anchors t.
Proof.
  intros [c Hc]. apply elem_of_app. left. apply list_elem_of_fmap. exists (n, c).
  by rewrite elem_of_map_to_list.
Qed.

Lemma pinned_held t n : is_Some (pins t !! n) → n ∈ hold_anchors t.
Proof.
  intros [c Hc]. apply elem_of_app. right. apply list_elem_of_fmap. exists (n, c).
  by rewrite elem_of_map_to_list.
Qed.

Lemma others_views t t' ws n v :
  others_kept t t' ws → is_Some (cache_roots t !! n) → view (nm t) (Some n) v →
  ∃ v', view (nm t') (Some n) v' ∧ v'.*1 = v.*1.
Proof. intros Ho Hn%leased_held Hv. exists v. split; [|done]. by apply (oth_views _ _ _ Ho). Qed.

(** ** Calls that only read *)

Lemma calm_wp {A} (m : tm A) t : calm m t → wp m (λ _ t', t' = t) (λ _ t', t' = t) t.
Proof. intros (r & Hm & Hr). unfold wp. rewrite Hm. by destruct r. Qed.

(** ** Notes *)

(** A change of the entries' own fields. *)
Definition noted t t' : Prop := settled t' ∧ nm t' = nm t ∧ holds t' = holds t ∧ roomy t t' ∧
  (∀ ws v, mapped t ws v → mapped t' ws v).

Lemma noted_refl t : settled t → noted t t.
Proof. intros Hs. unfold noted. split_and!; [done..|apply roomy_refl|done]. Qed.

Lemma noted_trans t1 t2 t3 : noted t1 t2 → noted t2 t3 → noted t1 t3.
Proof.
  intros (A1 & A2 & A3 & A4 & A5) (B1 & B2 & B3 & B4 & B5).
  unfold noted. split_and!; [done|congruence..| |auto].
  by eapply roomy_trans.
Qed.

Lemma noted_trade t t' : noted t t' → sets_trade t t' [] [].
Proof. intros (A1 & A2 & A3 & A4). split; [by apply same_nm_trade|done]. Qed.

Lemma put_entry_noted t ws e e' :
  settled t → wm t !! ws = Some e → terminal e' = terminal e → mapped_len e' = mapped_len e →
  noted t (put_entry t ws e').
Proof.
  intros Hset He Ht Hl. pose proof (inv_sound _ (proj1 Hset)) as Hs.
  destruct (put_entry_spec t ws e' Hs ltac:(by eexists)) as (Hk & Hn & Hw).
  pose proof Hset as [Hi Hg]. unfold noted. split_and!; [|done| |by apply keeps_roomy|].
  - split; [by eapply put_entry_inv|by rewrite Hn].
  - unfold holds. by destruct Hk as [-> -> -> _ _ _].
  - intros ws' v (e0 & He0 & Hv & Hlv). unfold mapped. rewrite Hw.
    destruct (decide (ws' = ws)) as [->|Hne].
    + simplify_eq. exists e'. split; [apply lookup_insert_eq|]. split; [by rewrite Hn, Ht|by rewrite Hl].
    + exists e0. rewrite lookup_insert_ne by done. split; [done|]. split; [by rewrite Hn|done].
Qed.

Lemma update_noted t ws f :
  settled t → (∀ e, terminal (f e) = terminal e ∧ mapped_len (f e) = mapped_len e) →
  wp (update_entry ws f) (λ _, noted t) (λ _ t', t' = t) t.
Proof.
  intros Hset Hf. pose proof (inv_sound _ (proj1 Hset)) as Hs.
  destruct (wm t !! ws) as [e|] eqn:He.
  - eapply wp_ret; [by apply (update_entry_spec t ws e f)|]. destruct (Hf e). by eapply put_entry_noted.
  - eapply wp_raise; [by apply update_entry_err|done].
Qed.

Lemma entry_wp t ws (Q : WorkingSetEntry → table → Prop) (X : KvTableError → table → Prop) :
  settled t → (∀ e, wm t !! ws = Some e → Q e t) → X UnknownWorkingSet t → wp (entry ws) Q X t.
Proof.
  intros Hset HQ HX. unfold wp. rewrite entry_spec by apply Hset.
  destruct (wm t !! ws) as [e|]; [by apply HQ|done].
Qed.

(** Each note, whatever it answers. *)
Lemma note_noted t ws x :
  settled t → wp (run_note ws x) (λ _, noted t) (λ _, noted t) t.
Proof.
  intros Hset. assert (Hr : ∀ (e : KvTableError) t', t' = t → noted t t') by (intros ? ? ->; by apply noted_refl).
  assert (Hu : ∀ t1 f, noted t t1 → (∀ e, terminal (f e) = terminal e ∧ mapped_len (f e) = mapped_len e) →
    wp (update_entry ws f) (λ _, noted t) (λ _, noted t) t1).
  { intros t1 f Ht1 Hf. eapply wp_mono; [by apply update_noted; [apply Ht1|]| |].
    - intros [] t' Ht'. by eapply noted_trans.
    - by intros _ t' ->. }
  destruct x; simpl; try by apply Hu; [apply noted_refl|].
  - unfold log_end. apply wp_then, entry_wp; [done| |by apply noted_refl]. intros e He.
    destruct (pending e !! seq) as [cut|]; [|by apply wp_ok, noted_refl].
    apply wp_then. eapply wp_mono; [by apply Hu; [apply noted_refl|]| |done]. intros [] t1 Ht1.
    destruct rows as [[start tokens]|]; by apply Hu.
  - unfold forget, freeze. apply wp_then, wp_then, entry_wp; [done| |by apply noted_refl]. intros e He.
    apply wp_then. eapply wp_mono; [by apply Hu; [apply noted_refl|]|done|done].
  - unfold forget, add_supplied. apply wp_then, wp_then, entry_wp; [done| |by apply noted_refl]. intros e He.
    apply wp_then. eapply wp_mono; [by apply Hu; [apply noted_refl|]|done|done].
  - unfold forget, reserve. apply wp_then, wp_then, entry_wp; [done| |by apply noted_refl]. intros e He.
    apply wp_then. eapply wp_mono; [by apply Hu; [apply noted_refl|]|done|done].
Qed.

(** ** Calls on working sets *)

Lemma create_wp t i j :
  settled t → room t i (S j) →
  wp create_working_set (λ _ t', sets_trade t t' [] [] ∧ room t' i j) (λ _ _, False) t.
Proof.
  intros Hset [Hr1 Hr2]. destruct (create_ok t j Hset Hr2)
    as (ws & t' & Hc & _ & Hset' & _ & Hn & _ & _ & Hnn & Hr').
  eapply wp_ret; [exact Hc|]. split; [|by split; [rewrite Hnn|]].
  split; [by apply same_nm_trade|]. eapply leaves_holds; [|exact Hc]. apply insert_entry_leaves.
Qed.

Lemma fork_wp t ws i j :
  settled t → room t i (S j) →
  wp (fork ws) (λ _ t', sets_trade t t' [] [] ∧ room t' i j) (λ _ t', t' = t) t.
Proof.
  intros Hset [Hr1 Hr2]. destruct (wm t !! ws) as [e|] eqn:He.
  - destruct (settled_maps _ _ _ Hset He) as [v Hv].
    destruct (fork_ok t ws e v j Hset He Hv Hr2)
      as (child & t' & ec & Hf & _ & Hset' & _ & _ & _ & _ & _ & _ & _ & _ & _ & _ & Hk & Hc & Hr').
    eapply wp_ret; [exact Hf|]. split; [|by apply Hr'].
    assert (Hh : holds t' = holds t) by (eapply leaves_holds; [apply fork_leaves|exact Hf]).
    split; [|done]. split; [done|unfold held; by rewrite Hc|].
    intros n w Hn _. by apply (others_views _ _ _ n w Hk).
  - eapply wp_raise; [|done]. unfold fork. apply mthen_err. by rewrite entry_spec, He by apply Hset.
Qed.

Lemma publish_wp t ws ps i j :
  settled t → room t (S i) j →
  wp (publish_appended ws ps)
    (λ _ t', sets_trade t t' (Resident ∘ pp_id <$> ps) [] ∧ room t' i j) (λ _ t', t' = t) t.
Proof.
  intros Hset Hr. destruct (wm t !! ws) as [e|] eqn:He.
  - destruct (settled_maps _ _ _ Hset He) as [v Hv].
    destruct (decide (page_len e < mapped_len e + length ps)) as [Hc|Hc].
    { eapply wp_raise; [|done]. unfold publish_appended, mthen at 1.
      rewrite entry_spec, He by apply Hset. by rewrite decide_True. }
    destruct (publish_ok t ws e v ps i j Hset He Hv Hr) as (t' & new & Hp & Hpb & Hnew & Hr'); [lia|].
    eapply wp_ret; [exact Hp|]. split; [|done]. destruct Hpb as [P1 P2 P3 P4 P5].
    split; [|eapply leaves_holds; [apply publish_appended_leaves|exact Hp]]. split; [done| |].
    + rewrite <-Hnew. apply (cells_held _ _ []). by rewrite P5.
    + intros n w Hn _. by apply (others_views _ _ _ n w P4).
  - eapply wp_raise; [|done]. unfold publish_appended, mthen. by rewrite entry_spec, He by apply Hset.
Qed.

Lemma replace_wp t ws from ps i j :
  settled t → room t (S (S i)) j →
  wp (replace_tail ws from ps)
    (λ out t', sets_trade t t' (Resident ∘ pp_id <$> ps) out ∧ room t' i j) (λ _ t', t' = t) t.
Proof.
  intros Hset Hr. destruct (wm t !! ws) as [e|] eqn:He.
  - destruct (settled_maps _ _ _ Hset He) as [v Hv].
    destruct (decide (mapped_len e < from)) as [Hf|Hf];
      [|destruct (decide (page_len e < from + length ps)) as [Hc|Hc]].
    1-2: eapply wp_raise; [|done]; unfold replace_tail, mthen at 1; rewrite entry_spec, He by apply Hset.
    + by rewrite decide_True.
    + by rewrite decide_False, decide_True by lia.
    + destruct (replace_ok t ws e v from ps i j Hset He Hv Hr)
        as (t' & gone & new & Hp & Hset' & _ & Hnew & Hk & Hc' & _ & Hr'); [lia..|].
      eapply wp_ret; [exact Hp|]. split; [|done].
      split; [|eapply leaves_holds; [apply replace_tail_leaves|exact Hp]]. split; [done| |].
      * rewrite <-Hnew. by apply cells_held.
      * intros n w Hn _. by apply (others_views _ _ _ n w Hk).
  - eapply wp_raise; [|done]. unfold replace_tail, mthen. by rewrite entry_spec, He by apply Hset.
Qed.

Lemma attach_wp t ws n own local i j :
  settled t → room t (S i) j → contrib (nm t) n = Some own → local < length own →
  wp (attach ws n local) (λ _ t', sets_trade t t' [] [] ∧ room t' i j) (λ _ t', t' = t) t.
Proof.
  intros Hset Hr Ho Hlt. pose proof Hset as [Hi Hg]. pose proof (inv_trie _ Hi) as [Hm _ _ _].
  destruct (view_total _ Hm n) as [vn Hvn]; [unfold contrib in Ho; by destruct (nm t !! n)|].
  destruct (wm t !! ws) as [e|] eqn:He.
  - destruct (settled_maps _ _ _ Hset He) as [v Hv].
    pose proof (attach_ok t ws e v n own vn local i j Hset He Hv Ho Hvn Hlt Hr) as Ha.
    cbn zeta in Ha. case_decide; [|by eapply wp_raise].
    destruct Ha as (t' & Ha & Hset' & _ & Hk & Hc & _ & Hr'). eapply wp_ret; [exact Ha|]. split; [|done].
    split; [|eapply leaves_holds; [apply attach_leaves|exact Ha]].
    split; [done|by apply (cells_held _ _ [] []); rewrite Hc|].
    intros k w Hn _. by apply (others_views _ _ _ k w Hk).
  - eapply wp_raise; [by apply (attach_unknown t ws n own local)|done].
Qed.

Lemma release_wp t ws :
  settled t →
  wp (release_working_set_backings ws)
    (λ out t', sets_trade t t' [] out ∧ roomy t t') (λ _ _, False) t.
Proof.
  intros Hset. destruct (wm t !! ws) as [e|] eqn:He.
  - destruct (release_ok t ws e Hset He) as (t' & gone & Hr & Hset' & _ & Hk & Hro & _ & []).
    eapply wp_ret; [exact Hr|]. split; [|done].
    split; [|eapply leaves_holds; [apply release_leaves|exact Hr]].
    split; [done|by apply (cells_held _ _ gone [])|].
    intros n w Hn _. by apply (others_views _ _ _ n w Hk).
  - destruct (release_unknown t ws Hset He) as (t' & Hr & Hset' & _ & Hn & Hro).
    eapply wp_ret; [exact Hr|]. split; [|done].
    split; [by apply same_nm_trade|eapply leaves_holds; [apply release_leaves|exact Hr]].
Qed.

(** ** Hashes *)

Lemma still_sets t t' : still t t' → holds t' = holds t → sets_trade t t' [] [] ∧ roomy t t'.
Proof.
  intros Hst Hh. split; [|by apply Hst]. split; [|done].
  split; [apply Hst|by apply (cells_held _ _ [] []); rewrite (sl_cells _ _ Hst)|].
  intros n v _ _ Hv. exists v. split; [by eapply still_view|done].
Qed.

Lemma commit_in_place_wp t ws i th ph :
  settled t →
  wp (commit_in_place ws i th ph)
    (λ _ t', sets_trade t t' [] [] ∧ roomy t t') (λ _ t', t' = t) t.
Proof.
  intros Hset. destruct (wm t !! ws) as [e|] eqn:He.
  - destruct (settled_maps _ _ _ Hset He) as [v Hv].
    pose proof (commit_in_place_ok t ws e v i (th, ph) Hset He Hv) as Hc.
    destruct (v !! i); [destruct Hc as (t' & Hc & Hst & _)|]; simpl in Hc.
    + eapply wp_ret; [exact Hc|]. apply still_sets; [done|].
      eapply leaves_holds; [apply commit_in_place_leaves|exact Hc].
    + by eapply wp_raise.
  - eapply wp_raise; [|done]. unfold commit_in_place, page_owner, mthen. by rewrite entry_spec, He by apply Hset.
Qed.

Lemma commit_hashes_wp t ws first hs :
  settled t →
  wp (commit_hashes ws first hs)
    (λ _ t', sets_trade t t' [] [] ∧ roomy t t') (λ _ t', t' = t) t.
Proof.
  intros Hset. destruct (wm t !! ws) as [e|] eqn:He.
  - destruct (settled_maps _ _ _ Hset He) as [v Hv].
    pose proof (commit_hashes_ok t ws e v first hs Hset He Hv) as Hc.
    case_decide; [by eapply wp_raise|]. destruct Hc as (t' & Hc & Hst & _).
    eapply wp_ret; [exact Hc|]. apply still_sets; [done|].
    eapply leaves_holds; [apply commit_hashes_leaves|exact Hc].
  - eapply wp_raise; [|done]. unfold commit_hashes, mthen. by rewrite entry_spec, He by apply Hset.
Qed.

(** ** Moves *)

Lemma set_suspended_wp t group b :
  settled t → wp (set_suspended group b) (λ _ t', noted t t') (λ _ _, False) t.
Proof.
  intros Hset. unfold set_suspended.
  apply (wp_for _ (λ _ t', noted t t')); [|by apply noted_refl].
  intros ws l t1 Ht1. apply wp_or_else. eapply wp_mono; [by apply update_noted; [apply Ht1|]| |].
  - intros [] t' Ht'. by eapply noted_trans.
  - by intros _ t' ->.
Qed.

Lemma put_cells_fst rs (v : list cell) : (put_cells rs <$> v).*1 = v.*1.
Proof.
  rewrite <-list_fmap_compose. apply list_fmap_ext. intros _ c _. simpl. unfold put_cells.
  revert c. induction rs as [|r rs IH]; intros c; [done|]. simpl. rewrite IH.
  unfold put_cell. by case_decide.
Qed.

Lemma replace_backings_wp t rs :
  settled t → NoDup (rs.*1.*1 : list TriePageLocation) →
  wp (replace_backings rs)
    (λ _ t', sets_trade t t' rs.*2 rs.*1.*2 ∧ roomy t t' ∧
      ∀ ws v, mapped t ws v → mapped t' ws (put_cells rs <$> v)) (λ _ t', t' = t) t.
Proof.
  intros Hset Hnd. destruct (replace_backings_rewrites t rs Hset Hnd) as [(t' & Hr & [R1 R2 R3] & Hp)|Hr].
  - eapply wp_ret; [exact Hr|]. split_and!; [|by apply frame_roomy|].
    2: { intros ws v (e & He & Hv & Hlen). exists e. split; [|split; [by apply R3|by rewrite length_fmap]].
      by rewrite (frame_wm _ _ R2). }
    split; [|eapply leaves_holds; [apply replace_backings_leaves|exact Hr]].
    split; [done..|]. intros n v _ _ Hv. exists (put_cells rs <$> v). split; [auto|apply put_cells_fst].
  - by eapply wp_raise.
Qed.

(** ** Holds *)

(** A call that changes who is held, to [h]. *)
Record hold_trade (cache : bool) t t' (inn out : list KvPageBacking) (h : gmap NodeId N) : Prop := {
  ht_trade : trade t t' inn out;
  ht_holds : holds_of cache t' = h;
  ht_other : holds_of (negb cache) t' = holds_of (negb cache) t;
  ht_swap : swap_locations t' = swap_locations t;
  ht_kept : all_kept t t';
}.

Definition one_more (h : gmap NodeId N) (n : NodeId) : gmap NodeId N :=
  <[n := (default 0 (h !! n) + 1)%N]> h.

Lemma add_anchor_swap n : leaves swap_locations (add_anchor n : tm unit).
Proof. intros t. pose proof (add_anchor_leaves n t) as H. by injection H. Qed.
Lemma remove_anchor_swap n : leaves swap_locations (remove_anchor n : tm _).
Proof. intros t. pose proof (remove_anchor_leaves n t) as H. by injection H. Qed.
Hint Resolve add_anchor_swap remove_anchor_swap : leaves.

Lemma take_hold_swap cache n : leaves swap_locations (take_hold cache n : tm unit).
Proof. destruct cache; simpl; unfold lease_cache_root, pin; leave. Qed.
Lemma drop_hold_swap cache n : leaves swap_locations (drop_hold cache n : tm _).
Proof. destruct cache; simpl; unfold release_cache_root, unpin; leave. Qed.

Lemma settled_hold_live t : settled t → ∀ n, n ∈ hold_anchors t → is_Some (nm t !! n).
Proof. intros Hset n Hn. apply (anchors_live t); [apply Hset|]. apply elem_of_app. by right. Qed.

(** A node just made, held. *)
Lemma hold_new_ok cache t t1 k new v :
  unheld t t1 k new v → holds t1 = holds t → settled t →
  ∃ t', take_hold cache k t1 = (Ok tt, t') ∧ hold_trade cache t t' new.*2 [] (one_more (holds_of cache t) k) ∧
    view (nm t') (Some k) v ∧ roomy t1 t'.
Proof.
  intros [U1 U2 U3 U4 U5 U6 U7] Hh Hset0. pose proof (settled_hold_live _ Hset0) as Hlive. clear Hset0.
  assert (Hof : ∀ b, holds_of b t1 = holds_of b t).
  { unfold holds in Hh. injection Hh as H1 H2 H3. by intros []. }
  destruct (take_hold_ok cache t1 k U1 U2 U3) as (t' & Ht & Hset & Hk & Hc & Hh' & Hr & Hv & Ho).
  exists t'. split_and!; [done| |by apply Hv|done]. split.
  - split; [done|apply (cells_held _ _ [] new); by rewrite Hc, U7|]. intros n w Hn%leased_held _ Hw. exists w. split; [|done].
    apply Hv, U5; [|done]. intros ? [= <-]. by apply Hlive.
  - by rewrite Hh', Hof.
  - by rewrite Ho, Hof.
  - unfold holds in Hh. injection Hh as _ _ <-. pose proof (take_hold_swap cache k t1) as Hsw. by rewrite Ht in Hsw.
  - destruct U6 as [W1 M1], Hk as [W2 M2]. split; [congruence|auto].
Qed.

Lemma settled_unheld t k v : settled t → view (nm t) (Some k) v → unheld t t k [] v.
Proof.
  intros Hset Hv. split; try done.
  - apply Hset.
  - apply no_garbage_above, Hset.
  - apply live_holdable; [done|]. destruct Hv as [segs Hw]. inversion Hw as [|? ? ? ? ? Ho _ _]; subst.
    unfold contrib in Ho. by destruct (nm t !! k).
Qed.

(** A live node held. *)
Lemma take_hold_trade cache t n :
  settled t → is_Some (nm t !! n) →
  ∃ t', take_hold cache n t = (Ok tt, t') ∧ hold_trade cache t t' [] [] (one_more (holds_of cache t) n) ∧
    roomy t t' ∧ (∀ k, is_Some (nm t !! k) → is_Some (nm t' !! k)).
Proof.
  intros Hset Hn. destruct (view_total _ (ok_shape _ _ _ (inv_trie _ (proj1 Hset))) n Hn) as [v Hv].
  destruct (hold_new_ok cache t t n [] v) as (t' & Ht & Htr & _ & Hr);
    [by apply settled_unheld|done..|].
  exists t'. split_and!; [done..|]. intros k Hk.
  destruct (take_hold_ok cache t n (proj1 Hset) (no_garbage_above _ n (proj2 Hset)) (live_holdable _ _ Hset Hn))
    as (t2 & Ht2 & _ & _ & _ & _ & _ & Hvs & _).
  rewrite Ht in Ht2. injection Ht2 as <-.
  destruct (view_total _ (ok_shape _ _ _ (inv_trie _ (proj1 Hset))) k Hk) as [w Hw].
  destruct (Hvs _ _ Hw) as [segs Hw']. inversion Hw' as [|? ? ? ? ? Ho _ _]; subst.
  unfold contrib in Ho. by destruct (nm t' !! k).
Qed.

(** A hold dropped. *)
Lemma drop_hold_wp cache t n :
  settled t →
  wp (drop_hold cache n)
    (λ out t', hold_trade cache t t' [] out (let_go (holds_of cache t) n).2 ∧ roomy t t') (λ _ _, False) t.
Proof.
  intros Hset. destruct (drop_hold_ok cache t n Hset)
    as (t' & gone & Hd & Hset' & Hk & [] & Hh & Hr & Ho & Hv).
  eapply wp_ret; [exact Hd|]. split; [|done]. split; [|done|done| |done].
  - split; [done|by apply (cells_held _ _ gone [])|]. intros k v _ Hk'%leased_held Hw. exists v. split; [|done]. by apply Hv.
  - pose proof (drop_hold_swap cache n t) as Hsw. by rewrite Hd in Hsw.
Qed.

(** A prefix of a working set kept and leased. *)
Lemma keep_lease_ok t ws e n i j :
  settled t → wm t !! ws = Some e → 0 < n ≤ mapped_len e → room t (S i) j →
  ∃ k t1 t' v, keep_prefix ws n t = (Ok (mkKept k n), t1) ∧ lease_cache_root k t1 = (Ok tt, t') ∧
    hold_trade true t t' [] [] (one_more (cache_roots t) k) ∧ room t' i j ∧
    view (nm t') (Some k) v ∧ length v = n.
Proof.
  intros Hset He Hn Hr. destruct (settled_maps _ _ _ Hset He) as [v Hv].
  destruct (keep_prefix_ok t ws e v n i j Hset He Hv Hn Hr) as (k & t1 & Hk & Hu & Hr1).
  destruct (hold_new_ok true t t1 k _ _ Hu) as (t' & Ht & Htr & Hvk & Hr').
  { eapply leaves_holds; [apply keep_prefix_leaves|exact Hk]. }
  { done. }
  exists k, t1, t', (take n v). split_and!; [done..|by apply Hr'|done|].
  destruct Hv as [_ Hl]. rewrite length_take. lia.
Qed.

(** A prefix of a kept path kept and leased. *)
Lemma keep_of_lease_ok t p v n i j :
  settled t → view (nm t) (Some (kept_terminal p)) v → length v = kept_pages p →
  0 < n ≤ kept_pages p → room t (S i) j →
  ∃ k t1 t' w, keep_prefix_of p n t = (Ok (mkKept k n), t1) ∧ lease_cache_root k t1 = (Ok tt, t') ∧
    hold_trade true t t' [] [] (one_more (cache_roots t) k) ∧ room t' i j ∧
    view (nm t') (Some k) w ∧ length w = n.
Proof.
  intros Hset [segs Hw] Hl Hn Hr. pose proof Hset as [[Hs [Hm Hct Ha Ht] _ _] Hg].
  destruct (boundary_ok t _ v segs n i j Hset Hw) as (k & t1 & Hb & Hu & Hr1); [|lia|done|].
  { intros a [= <-]. inversion Hw as [|? ? ? ? ? Ho _ _]; subst. unfold contrib in Ho.
    unfold path_of. destruct (nm t !! kept_terminal p) as [ea|] eqn:Hea; [|done]. simpl. by eapply Hg. }
  assert (Hkp : keep_prefix_of p n t = (Ok (mkKept k n), t1)).
  { unfold keep_prefix_of. unfold mthen at 1, mread at 1. rewrite <-Hl, (segments_spec t Hs Hm _ _ _ Hw).
    by rewrite (mthen_ok _ _ _ _ _ Hb). }
  destruct (hold_new_ok true t t1 k _ _ Hu) as (t' & Htk & Htr & Hvk & Hr').
  { eapply leaves_holds; [|exact Hkp]. unfold keep_prefix_of. leave. }
  { done. }
  exists k, t1, t', (take n v). split_and!; [done..|by apply Hr'|done|]. rewrite length_take. lia.
Qed.

(** ** Pins and the marks of moves *)

(** A trade that leaves the leases and the marks of moves alone. *)
Record steady t t' (out : list KvPageBacking) : Prop := {
  sd_trade : trade t t' [] out;
  sd_roots : cache_roots t' = cache_roots t;
  sd_kept : all_kept t t';
  sd_roomy : roomy t t';
}.

Lemma steady_refl t : settled t → steady t t [].
Proof. intros Hs. split; [by apply trade_refl|done|by split|apply roomy_refl]. Qed.

Lemma steady_trans t1 t2 t3 o1 o2 : steady t1 t2 o1 → steady t2 t3 o2 → steady t1 t3 (o1 ++ o2).
Proof.
  intros [[A1 A2 A3] B1 [W1 M1] C1] [[A1' A2' A3'] B1' [W2 M2] C1'].
  split; [split|congruence|split; [congruence|auto]|by eapply roomy_trans].
  - done.
  - simpl in *. by rewrite A2, A2', app_assoc.
  - intros n v Hn Hn' Hv. destruct (A3 n v Hn) as (v1 & Hv1 & Heq); [by rewrite B1|done|].
    destruct (A3' n v1) as (v2 & Hv2 & Heq2); [by rewrite B1|done..|]. exists v2. by rewrite Heq2.
Qed.

Lemma pin_steady t t' out h : hold_trade false t t' [] out h → roomy t t' → steady t t' out.
Proof. intros [H1 H2 H3 H4 H5] Hr. by split. Qed.

Lemma pin_wp t n :
  settled t → is_Some (nm t !! n) →
  wp (pin n) (λ _ t', steady t t' [] ∧ swap_locations t' = swap_locations t ∧
    (∀ k, is_Some (nm t !! k) → is_Some (nm t' !! k))) (λ _ _, False) t.
Proof.
  intros Hset Hn. destruct (take_hold_trade false t n Hset Hn) as (t' & Ht & Htr & Hr & Hl).
  eapply wp_ret; [exact Ht|]. split_and!; [by eapply pin_steady|apply Htr|done].
Qed.

Lemma terminals_of_wp t l acc :
  settled t → (∀ n, n ∈ acc → is_Some (nm t !! n)) →
  wp (terminals_of l acc) (λ S t', t' = t ∧ ∀ n, n ∈ S → is_Some (nm t !! n)) (λ _ t', t' = t) t.
Proof.
  intros Hset. revert acc. induction l as [|ws l IH]; intros acc Hacc; [done|]. cbn [terminals_of].
  apply wp_then, entry_wp; [done| |done]. intros e He. apply IH.
  destruct (terminal e) as [n|] eqn:Hn; [|done]. intros k [->%elem_of_singleton|?]%elem_of_union; [|by auto].
  by eapply terminal_path_pos; [apply Hset|..].
Qed.

Lemma pin_working_sets_wp t g :
  settled t →
  wp (pin_working_sets g) (λ _ t', steady t t' [] ∧ swap_locations t' = swap_locations t)
    (λ _ t', t' = t) t.
Proof.
  intros Hset. unfold pin_working_sets. eapply wp_bind; [by apply terminals_of_wp; [|set_solver]| |done].
  intros S t1 [-> HS]. apply wp_then.
  assert (Hel : ∀ n, n ∈ elements S → is_Some (nm t !! n)) by (intros n Hn%elem_of_elements; auto).
  set (I := λ (l : list NodeId) t', (∀ n, n ∈ l → is_Some (nm t' !! n)) ∧ steady t t' [] ∧
    swap_locations t' = swap_locations t).
  eapply wp_mono; [apply (wp_for _ I (λ _ _, False))| |by intros].
  - intros n l t1 (Hl & Hst & Hsw). eapply wp_mono; [apply pin_wp; [apply Hst|set_solver]| |by intros].
    intros [] t' (Hst' & Hsw' & Hl'). unfold I. split_and!; [set_solver| |congruence].
    exact (steady_trans _ _ _ [] [] Hst Hst').
  - unfold I. split_and!; [done|by apply steady_refl|done].
  - by intros [] t' (_ & ? & ?).
Qed.

Lemma unpin_terminals_wp l t :
  settled t →
  wp (unpin_terminals l) (λ out t', steady t t' out ∧ swap_locations t' = swap_locations t)
    (λ _ _, False) t.
Proof.
  unfold unpin_terminals. revert t. induction l as [|n l IH]; intros t Hset.
  { split; [by apply steady_refl|done]. }
  cbn [mextend]. eapply wp_bind; [by apply (drop_hold_wp false)| |done]. intros out t1 [Htr Hr].
  pose proof (pin_steady _ _ _ _ Htr Hr) as Hst. apply wp_then.
  eapply wp_mono; [apply IH, Hst| |by intros]. intros out' t2 [Hst' Hsw']. split.
  - by eapply steady_trans.
  - rewrite Hsw'. apply Htr.
Qed.

Lemma pin_swap_roots ls t r t' : pin_swap_locations ls t = (r, t') → cache_roots t' = cache_roots t.
Proof.
  intros Hp. assert (leaves cache_roots (pin_swap_locations ls : tm unit)) as H by (unfold pin_swap_locations; leave).
  specialize (H t). by rewrite Hp in H.
Qed.

Lemma pin_swap_wp t ls :
  settled t → NoDup ls → (∀ l, l ∈ ls → l ∉ swap_locations t) →
  wp (pin_swap_locations ls) (λ _ t', steady t t' [] ∧
    swap_locations t' = swap_locations t ∪ list_to_set ls) (λ _ _, False) t.
Proof.
  intros Hset Hnd Hl. destruct (pin_swap_ok ls t Hset Hnd Hl) as (t' & Hp & Hset' & Hk & Hn & Hs & Hr).
  eapply wp_ret; [exact Hp|]. split; [|done]. split; [|by apply pin_swap_roots in Hp|done|done].
  by apply same_nm_trade.
Qed.

Lemma unpin_swap_wp t ls :
  settled t →
  wp (unpin_swap_locations ls) (λ out t', steady t t' out ∧
    swap_locations t' = swap_locations t ∖ list_to_set ls) (λ _ _, False) t.
Proof.
  intros Hset. destruct (unpin_swap_ok t ls Hset) as (t' & gone & Hu & Hset' & Hk & Hs & Hr & [] & Hcr & _ & Hv).
  eapply wp_ret; [exact Hu|]. split; [|done]. split; [|done..].
  split; [done|by apply (cells_held _ _ gone [])|]. intros n v Hn%leased_held _ Hw. exists v. auto.
Qed.
End ledger.
End KvLedger.
