(* ===== verification/KvImport.v ===== *)
(** Sealed pages brought in from outside: [insert_cached] hangs a node of them
    below a run that is there, for the cache to hold. *)
From S2P Require Import Prelude Ids Store Runs KvTable KvOps KvMove KvTrie KvChange KvSpec KvInv.
From S2P Require Import KvRead KvState KvPath KvProps KvFree KvShare KvHold KvQuery KvCommit KvCalls.
From S2P Require Import KvFrame KvLocate KvReads Hoare KvLedger.

Module KvImport.
Import Runs KvTable KvOps KvMove KvTrie KvChange KvSpec KvInv KvRead KvState KvPath KvProps KvFree
  KvShare KvHold KvQuery KvCommit KvCalls KvFrame KvLocate KvReads KvLedger.

Section import.
Context {WS NS : Type → Type}.
Context `{!KeyedStore WorkingSetId WS, !KeyedStore NodeId NS}.
Context `{!KeyedStoreLaws WorkingSetId WS, !KeyedStoreLaws NodeId NS}.
Abbreviation table := (KvPageTable WS NS).
Abbreviation tm := (method table KvTableError).
Implicit Types t : table.

(** Where a new node may hang: below [c], all of whose way up is in use or
    selects. *)
Record hangs t t1 (c : option NodeId) (v : list cell) : Prop := {
  hg_inv : inv t1;
  hg_garbage k e : nm t1 !! k = Some e → path_anchors e = 0 →
    ∃ p l, c = Some p ∧ chain (nm t1) p l ∧ k ∈ l;
  hg_way p : c = Some p → ∃ l, chain (nm t1) p l ∧
    ∀ k, k ∈ l → 0 < path_of (nm t1) k ∨ selects (nm t1) k;
  hg_view : view (nm t1) c v;
  hg_views c w : (∀ q, c = Some q → is_Some (nm t !! q)) → view (nm t) c w → view (nm t1) c w;
  hg_kept : all_kept t t1;
  hg_cells : all_cells (nm t1) ≡ₚ all_cells (nm t);
  hg_dom k : is_Some (nm t !! k) → is_Some (nm t1 !! k);
}.

Lemma hangs_live t t1 p v : hangs t t1 (Some p) v → is_Some (nm t1 !! p).
Proof. intros H. destruct (hg_way _ _ _ _ H p eq_refl) as (l & Hl & _). by eapply chain_live. Qed.

Lemma leaf_unheld t t1 t2 n c v bs ths phs :
  hangs t t1 c v → 0 < length bs → length ths = length bs → length phs = length bs →
  inserted t1 t2 n (mkNode c [] (Owned bs ths phs) 0 0) →
  unheld t t2 n (cells n bs) (v ++ cells n bs).
Proof.
  intros Hh Hbs Hths Hphs Hins. pose proof Hh as [G1 G2 G3 G4 G5 [W1 M1] G7 G8].
  pose proof G1 as [Hs Hok Hho Hmp]. pose proof (ok_shape _ _ _ Hok) as Hm.
  pose proof (is_fresh _ _ _ _ Hins) as Hn. pose proof (is_nm _ _ _ _ Hins) as Hnm.
  assert (Hpar : ∀ p, c = Some p → is_Some (nm t1 !! p)) by (intros p ->; by eapply hangs_live).
  assert (Hpg : page_ok (nm t1) (mkNode c [] (Owned bs ths phs) 0 0)) by (split_and!; done).
  assert (Hview : ∀ q w, (∀ k, q = Some k → is_Some (nm t1 !! k)) → view (nm t1) q w → view (nm t2) q w).
  { intros q w Hq Hw. rewrite Hnm. by apply add_leaf_view. }
  assert (Hmaps : ∀ ws e v, wm t1 !! ws = Some e → maps t1 e v → maps t2 e v).
  { intros ws e w He [Hw Hl]. split; [|done]. apply Hview; [|done]. intros k Hk.
    apply (anchors_live t1); [done|]. by eapply anchor_of_ws. }
  assert (Hchain : ∀ k l, chain (nm t1) k l → chain (nm t2) k l).
  { intros k l Hk. rewrite Hnm. by apply add_leaf_chain_old. }
  assert (Hold : ∀ k, k ≠ n → path_of (nm t2) k = path_of (nm t1) k).
  { intros k Hk. rewrite Hnm. unfold path_of. rewrite add_leaf_lookup, decide_False by done.
    destruct (nm t1 !! k); simpl; [|done]. by case_decide. }
  assert (Hnew : ∀ p l, c = Some p → chain (nm t1) p l → chain (nm t2) n (n :: l)).
  { intros p l -> Hl. rewrite Hnm. by apply add_leaf_chain_new. }
  split.
  - split.
    + by eapply is_sound.
    + rewrite (inserted_anchors _ _ _ _ Hins). by eapply inserted_trie_ok.
    + by eapply inserted_holds.
    + intros ws e He. rewrite (inserted_wm _ _ _ _ Hins) in He. destruct (Hmp _ _ He) as [w Hw]. eauto.
  - intros k ek Hek Hz. rewrite Hnm in Hek.
    destruct (add_leaf_garbage _ _ _ _ _ Hn Hek Hz) as [->|(e0 & He0 & Hz0)].
    + destruct (sh_chain (nm t2)) with (n := n) as [l Hl].
      { rewrite Hnm. eapply ok_shape. rewrite <-Hnm. by eapply inserted_trie_ok. }
      { rewrite Hnm. by eexists. }
      exists l. split; [done|]. destruct (chain_cons _ _ _ Hl) as [? ->]. by left.
    + destruct (G2 _ _ He0 Hz0) as (p & l & Hp & Hl & Hk). exists (n :: l). split; [by eapply Hnew|by right].
  - destruct c as [p|].
    + destruct (G3 p eq_refl) as (l & Hl & Hpos). exists (n :: l). split; [by eapply Hnew|].
      intros k [->|Hk]%elem_of_cons Hkn; [done|].
      destruct (Hpos k Hk) as [Hz|(e & He & Ho)]; [left; by rewrite Hold|right].
      destruct (add_leaf_old (nm t1) n (mkNode (Some p) [] (Owned bs ths phs) 0 0) Hn _ _ He)
        as (e' & He' & _ & Hpg' & _). exists e'. rewrite Hnm, He', Hpg'. done.
    + exists [n]. split; [rewrite Hnm; by apply add_leaf_chain_new|].
      intros k ->%list_elem_of_singleton. done.
  - destruct (Hview c v) as [segs Hw]; [done..|].
    eexists. apply (walk_some _ n _ c); [| |exact Hw].
    + unfold contrib. by rewrite Hnm, add_leaf_new.
    + unfold pred. by rewrite Hnm, add_leaf_new.
  - intros q w Hq Hw. apply Hview; [|by apply G5]. intros k Hk. by apply G8, Hq.
  - split; [by rewrite (inserted_wm _ _ _ _ Hins)|]. intros ws w Hw.
    destruct (M1 _ _ Hw) as (e & He & Hwe). exists e. rewrite (inserted_wm _ _ _ _ Hins). eauto.
  - by rewrite Hnm, add_leaf_cells, G7.
Qed.

Lemma settled_way t p : settled t → is_Some (nm t !! p) →
  ∃ l, chain (nm t) p l ∧ ∀ k, k ∈ l → 0 < path_of (nm t) k.
Proof.
  intros [Hi Hg] Hp. destruct (inv_trie _ Hi) as [Hm Hct _ _].
  destruct (sh_chain _ Hm p Hp) as [l Hl]. exists l. split; [done|]. intros k Hk.
  eapply Nat.lt_le_trans; [|by eapply path_of_chain]. destruct Hp as [e He].
  unfold path_of. rewrite He. by apply (Hg p e).
Qed.

Lemma settled_hangs t c v : settled t → view (nm t) c v → (∀ p, c = Some p → is_Some (nm t !! p)) →
  hangs t t c v.
Proof.
  intros Hset Hv Hc. pose proof Hset as [Hi Hg]. split; try done.
  - intros k e He Hz. specialize (Hg _ _ He). lia.
  - intros p Hp. destruct (settled_way t p Hset (Hc p Hp)) as (l & Hl & Hpos). exists l. eauto.
Qed.

Lemma view_live (m : trie) n v : view m (Some n) v → is_Some (m !! n).
Proof.
  intros [segs Hw]. inversion Hw as [|? own ? ? ? Ho _ _]; subst. unfold contrib in Ho. by destruct (m !! n).
Qed.

(** A prefix node of a settled table hangs, where it has a path. *)
Lemma prefix_hangs t t1 n v :
  settled t → prefix_node t n t1 → view (nm t1) (Some n) v → hangs t t1 (Some n) v.
Proof.
  intros Hset Hpn Hv. pose proof Hset as [Hi Hg]. pose proof Hi as [Hs Hok Hho Hmp].
  pose proof Hok as [Hm Hct Ha Ht].
  inversion Hpn as [|? ? o eo off Hins Heo Hown Hoff]; subst.
  { apply settled_hangs; [done..|]. intros ? [= <-]. by eapply view_live. }
  pose proof (prefix_node_prefixed _ _ _ Hm Hpn) as [P1 P2 P3 P4 P5 P6 P7 P8 P9 P10].
  pose proof (is_fresh _ _ _ _ Hins) as Hn. pose proof (is_nm _ _ _ _ Hins) as Hnm.
  destruct (settled_way t o Hset ltac:(by eexists)) as (l & Hl & Hpos).
  assert (Hl' : chain (nm t1) n (n :: l)) by (rewrite Hnm; by apply add_leaf_chain_new).
  assert (Hkeep : ∀ ws e v, wm t !! ws = Some e → maps t e v → maps t1 e v).
  { intros ws e w He [Hw Hlw]. split; [|done]. apply P7; [|done..].
    intros a Ha'. by eapply terminal_path_pos. }
  split; [| | |done|auto| |done|].
  - split; [by apply P4|rewrite P2; by apply P6|by apply P3|].
    intros ws e He. rewrite P1 in He. destruct (Hmp _ _ He) as [w Hw]. eauto.
  - intros k e He Hz. injection (P9 Hg _ _ He Hz) as <-. exists n, (n :: l). set_solver.
  - intros ? [= <-]. exists (n :: l). split; [done|]. intros k [->|Hk]%elem_of_cons.
    + right. exists (selection o off). by rewrite Hnm, add_leaf_new.
    + left. specialize (Hpos k Hk). unfold path_of in *. rewrite Hnm.
      destruct (nm t !! k) as [ek|] eqn:Hek; rewrite ?Hek in Hpos; simpl in Hpos; [|lia].
      rewrite add_leaf_lookup, decide_False by (try done; intros ->; congruence).
      rewrite Hek. simpl. by case_decide.
  - by apply all_kept_frame.
  - intros k [ek Hek]. rewrite Hnm. destruct (add_leaf_old (nm t) n (selection o off) Hn _ _ Hek) as (e' & -> & _). by eexists.
Qed.

(** Below a page of an owner: the owner itself, or a prefix of it. *)
Lemma parent_hangs t at_ e b th ph i j :
  settled t → room t (S i) j → nm t !! loc_node at_ = Some e → pages e = Owned b th ph →
  loc_local at_ < length b →
  ∃ p t1 v, (if decide (loc_local at_ + 1 = length b) then mok (Some (loc_node at_))
    else n ⇐ make_prefix_selection (loc_node at_) (loc_local at_ + 1) ;; mok (Some n)) t = (Ok (Some p), t1) ∧
    hangs t t1 (Some p) v ∧ holds t1 = holds t ∧ room t1 i j.
Proof.
  intros Hset Hr He Hp Hlt. pose proof Hset as [Hi Hg]. pose proof Hi as [Hs [Hm Hct Ha Ht] _ _].
  destruct (view_total _ Hm (loc_node at_)) as (v & segs & Hw); [by eexists|].
  case_decide as Hend.
  - exists (loc_node at_), t, v. split_and!; [done| |done|by eapply room_le; [| |done]; lia].
    apply settled_hangs; [done|by exists segs|]. intros ? [= <-]. by eexists.
  - inversion Hw as [|? own p v0 segs0 Ho Hpr Hw0]; subst.
    assert (own = cells (loc_node at_) b) as ->.
    { unfold contrib in Ho. rewrite He, Hp in Ho. by injection Ho as <-. }
    destruct (make_prefix_selection_spec t (loc_node at_) _ p v0 (loc_local at_ + 1) i Hs Hm (proj1 Hr) Ho Hpr)
      as (n' & t1 & Hmk & Hpn & Hr1 & Hv1 & _); [by eexists|rewrite length_cells; lia|].
    exists n', t1, (v0 ++ take (loc_local at_ + 1) (cells (loc_node at_) b)).
    split_and!; [by rewrite (mthen_ok _ _ _ _ _ Hmk)|by apply prefix_hangs| |].
    + eapply leaves_holds; [|exact Hmk]. unfold make_prefix_selection, insert_selection. leave.
    + split; [done|]. rewrite (px_ws _ _ _ (prefix_node_prefixed _ _ _ Hm Hpn)). apply Hr.
Qed.

Lemma index_unheld t t2 n new v key k :
  unheld t t2 n new v → unheld t (index_node_start key k t2) n new v.
Proof. intros [[] U2 U3 U4 U5 U6 U7]. by split; [split|..]. Qed.

(** The pages of a node brought in, unheld still. *)
Lemma insert_cached_ok t after bs ths key keys i j :
  settled t → room t (S (S i)) j → length ths = length bs → length (key :: keys) = length bs →
  (∀ l, after = Some l → ∃ e b th ph, nm t !! loc_node l = Some e ∧ pages e = Owned b th ph ∧
     loc_local l < length b) →
  ∃ n t' v, insert_cached after bs ths (key :: keys) t = (Ok n, t') ∧
    unheld t t' n (cells n bs) v ∧ holds t' = holds t ∧ room t' i j.
Proof.
  intros Hset Hr Hths Hkeys Hafter. pose proof Hset as [Hi Hg]. pose proof Hi as [Hs _ _ _].
  assert (∃ c t1 v, match after with
      | Some at_ =>
          e ⇐ mread (λ t, node t (loc_node at_)) ;;
          match pages e with
          | Owned b _ _ =>
              if decide (loc_local at_ + 1 = length b) then mok (Some (loc_node at_))
              else n ⇐ make_prefix_selection (loc_node at_) (loc_local at_ + 1) ;; mok (Some n)
          | ParentSelection _ => mpanic
          end
      | None => mok None
      end t = (Ok c, t1) ∧ hangs t t1 c v ∧ holds t1 = holds t ∧ room t1 (S i) j)
    as (c & t1 & v & Hc & Hh & Hho & Hr1).
  { destruct after as [at_|].
    - destruct (Hafter at_ eq_refl) as (e & b & th & ph & He & Hp & Hl).
      destruct (parent_hangs t at_ e b th ph (S i) j Hset Hr He Hp Hl) as (p & t1 & v & Hc & Hrest).
      exists (Some p), t1, v. split; [|done]. unfold mthen at 1, mread. by rewrite node_nm, He, Hp.
    - exists None, t, []. split_and!; [done| |done|by eapply room_le; [| |done]; lia].
      apply settled_hangs; [done|by exists []; constructor|done]. }
  pose proof (hg_inv _ _ _ _ Hh) as Hi1.
  destruct (link_node_spec t1 (mkNode c [] (Owned bs ths (Some <$> (key :: keys))) 0 0) i)
    as (n & t2 & Hl & Hins & Hr2); [apply Hi1|apply Hr1| |].
  { simpl. intros p ->. by eapply hangs_live. }
  assert (Hu : unheld t t2 n (cells n bs) (v ++ cells n bs)).
  { eapply leaf_unheld; [done| |done| |done]; [simpl in Hkeys; lia|by rewrite length_fmap]. }
  exists n, (index_node_start key n t2), (v ++ cells n bs). split_and!.
  - unfold insert_cached. rewrite (mthen_ok _ _ _ _ _ Hc).
    unfold link_node in Hl. apply mthen_inv in Hl as (n' & t1' & Hin & Hl).
    rewrite (mthen_ok _ _ _ _ _ Hin). apply mthen_inv in Hl as ([] & t1'' & Hpu & Hl).
    injection Hl as -> ->. simpl in Hpu. by rewrite (mthen_ok _ _ _ _ _ Hpu).
  - by apply index_unheld.
  - rewrite <-Hho. unfold holds. simpl. by destruct Hins as [_ _ _ -> -> -> _ _].
  - split; [exact Hr2|]. simpl. rewrite (is_ws _ _ _ _ Hins). apply Hr1.
Qed.
End import.
End KvImport.
