(* ===== verification/KvBooks.v ===== *)
(** The books of the store: every page and slot of the three pools is in one
    place, free or waiting, in the page table, or lent to a caller; the leases,
    the paths and the owners the cache counts are the ones of its entries. *)
From S2P Require Import Prelude Ids Store Pool Runs KvTable KvOps KvMove KvTrie KvChange KvSpec KvInv.
From S2P Require Import KvRead KvState KvPath KvProps KvHold KvQuery KvCalls KvFrame KvLocate KvReads.
From S2P Require Import Hoare KvLedger KvImport KvHash KvStore.

Module KvBooks.
Import KvHash KvStore Runs KvTable KvOps KvMove KvTrie KvChange KvSpec KvInv KvRead KvState KvPath KvProps
  KvHold KvQuery KvCalls KvFrame KvLocate KvReads KvLedger KvImport.

(** ** Counting the entries of the cache *)

Section tally.
Context {K : Type} `{!EqDecision K} (f : KeptEntry → option K).
Implicit Types c : gmap N KeptEntry.

(** How many entries [f] gives [k]. *)
Definition tally c (k : K) : nat := size (filter (λ p : N * KeptEntry, f p.2 = Some k) c).

Lemma tally_insert c id e k :
  c !! id = None → tally (<[id := e]> c) k = (if decide (f e = Some k) then 1 else 0) + tally c k.
Proof.
  intros Hid. unfold tally. case_decide as Hk.
  - rewrite map_filter_insert_True, map_size_insert_None; [done| |done].
    by apply map_lookup_filter_None; left.
  - rewrite map_filter_insert_False by done. by rewrite delete_id.
Qed.

Lemma tally_delete c id e k :
  c !! id = Some e → tally c k = (if decide (f e = Some k) then 1 else 0) + tally (delete id c) k.
Proof.
  intros Hid. rewrite <-(insert_delete_id c id e Hid) at 1.
  apply tally_insert, lookup_delete_eq.
Qed.

Lemma tally_update c id e e' k :
  c !! id = Some e → f e' = f e → tally (<[id := e']> c) k = tally c k.
Proof.
  intros Hid Hf. rewrite <-insert_delete_eq, tally_insert by apply lookup_delete_eq.
  by rewrite Hf, (tally_delete c id e).
Qed.

Lemma tally_pos c id e k : c !! id = Some e → f e = Some k → 0 < tally c k.
Proof. intros Hid Hf. rewrite (tally_delete c id e) by done. rewrite decide_True by done. lia. Qed.

Lemma tally_zero c k : tally c k = 0 ↔ ∀ id e, c !! id = Some e → f e ≠ Some k.
Proof.
  split.
  - intros Hz id e Hid Hf. pose proof (tally_pos c id e k Hid Hf). lia.
  - intros Hc. unfold tally. rewrite map_size_empty_iff. apply map_empty_filter_2.
    intros id e Hid. simpl. by eapply Hc.
Qed.
End tally.

(** The node an entry leases. *)
Definition leased (e : KeptEntry) : option NodeId := Some (kept_terminal (path e)).

(** ** The places of a page *)

(** A list of backings, tier by tier. *)
Lemma tiers (b : list KvPageBacking) :
  b ≡ₚ (Resident <$> omap device_page b) ++ (Swapped <$> omap host_slot b) ++
    (OnDisk <$> omap disk_slot b).
Proof.
  induction b as [|[i|i|i] b IH]; csimpl; [done|by rewrite <-IH| |]; rewrite IH at 1; solve_perm.
Qed.

Lemma tiers_off_device (b : list KvPageBacking) :
  Forall (λ b, device_page b = None) b →
  b ≡ₚ (Swapped <$> omap host_slot b) ++ (OnDisk <$> omap disk_slot b).
Proof.
  intros Hb. rewrite (tiers b) at 1. assert (omap device_page b = []) as ->; [|done].
  induction Hb as [|x b Hx _ IH]; [done|]. csimpl. by rewrite Hx.
Qed.

Lemma tiers_device_split (b : list KvPageBacking) :
  b ≡ₚ (Resident <$> omap device_page b) ++ filter (λ b, device_page b = None) b.
Proof.
  induction b as [|[i|i|i] b IH]; csimpl; [done| | |].
  - rewrite filter_cons_False by done. by rewrite <-IH.
  - rewrite filter_cons_True by done. rewrite <-Permutation_middle. by rewrite <-IH.
  - rewrite filter_cons_True by done. rewrite <-Permutation_middle. by rewrite <-IH.
Qed.

Section books.
Context {WS NS : Type → Type}.
Context `{!KeyedStore WorkingSetId WS, !KeyedStore NodeId NS}.
Context `{!KeyedStoreLaws WorkingSetId WS, !KeyedStoreLaws NodeId NS}.
Abbreviation store := (KvStore WS NS).
Abbreviation page_table := (KvPageTable WS NS).
Abbreviation sm := (method store KvStoreError).
Implicit Types s : store.
Implicit Types t : page_table.

(** The ranges of ids of the three pools. *)
Definition extents s : (N * N) * (N * N) * (N * N) :=
  (Pool.extent (pool s), Pool.extent (host_pool s), Pool.extent (disk_pool s)).

(** Every page and slot there is. *)
Definition universe s : list KvPageBacking :=
  (Resident <$> Pool.ids_of (pool s)) ++ (Swapped <$> Pool.ids_of (host_pool s)) ++
  (OnDisk <$> Pool.ids_of (disk_pool s)).

(** What the pools hold back and what the table stores. *)
Definition stock s : list KvPageBacking :=
  (Resident <$> Pool.held (pool s)) ++ (Swapped <$> Pool.held (host_pool s)) ++
  (OnDisk <$> Pool.held (disk_pool s)) ++ held (nm (table s)).

(** Nothing is lost and nothing is twice, with [lent] out to callers. *)
Definition whole s (lent : list KvPageBacking) : Prop := lent ++ stock s ≡ₚ universe s.

(** The store between two calls, with [lent] out to callers and room for [n]
    more of whatever a call takes for good: node keys, working-set keys, ids of
    kept entries. *)
Record ready (x : (N * N) * (N * N) * (N * N)) (n : nat) s (lent : list KvPageBacking) : Prop := {
  rd_table : settled (table s);
  rd_extents : extents s = x;
  rd_range : Pool.in_range (pool s) ∧ Pool.in_range (host_pool s) ∧ Pool.in_range (disk_pool s);
  rd_whole : whole s lent;
  rd_leases k : default 0%N (cache_roots (table s) !! k) = N.of_nat (tally leased (cache s) k);
  rd_paths id e : cache s !! id = Some e →
    ∃ v, view (nm (table s)) (Some (kept_terminal (path e))) v ∧ length v = kept_pages (path e);
  rd_owners o : default 0 (owners s !! o) = tally kept_owner (cache s) o ∧ owners s !! o ≠ Some 0;
  rd_fresh id : is_Some (cache s !! id) → (id ≤ kept s)%N;
  rd_room : room (table s) n n;
  rd_ids : (kept s + N.of_nat n < 2 ^ 64)%N;
}.

Lemma ready_le x m n s B : m ≤ n → ready x n s B → ready x m s B.
Proof. intros Hle []. split; try done; [by eapply room_le|lia]. Qed.

Lemma ready_perm x n s B B' : B ≡ₚ B' → ready x n s B → ready x n s B'.
Proof. intros HB []. split; try done. unfold whole. by rewrite <-HB. Qed.

(** A change of the pools alone. *)
Lemma ready_pools x n s s' B B' :
  ready x n s B →
  table s' = table s → cache s' = cache s → owners s' = owners s → kept s' = kept s →
  extents s' = extents s → B' ++ stock s' ≡ₚ B ++ stock s → ready x n s' B'.
Proof.
  intros [] Ht Hc Ho Hk Hx Hw. split; rewrite ?Ht, ?Hc, ?Ho, ?Hk; try done; [congruence| |].
  - unfold extents, Pool.extent in Hx. injection Hx as H1 H2 H3 H4 H5 H6.
    unfold Pool.in_range. by rewrite H1, H2, H3, H4, H5, H6.
  - unfold whole. rewrite Hw. assert (universe s' = universe s) as ->; [|done].
    unfold extents, Pool.extent in Hx. injection Hx as H1 H2 H3 H4 H5 H6.
    unfold universe, Pool.ids_of. by rewrite H1, H2, H3, H4, H5, H6.
Qed.

(** A change of fields the books do not speak of. *)
Lemma ready_other x n s s' B :
  ready x n s B →
  table s' = table s → cache s' = cache s → owners s' = owners s → kept s' = kept s →
  pool s' = pool s → host_pool s' = host_pool s → disk_pool s' = disk_pool s → ready x n s' B.
Proof.
  intros Hr Ht Hc Ho Hk H1 H2 H3. eapply ready_pools; [exact Hr|done..| |].
  - unfold extents. by rewrite H1, H2, H3.
  - unfold stock. by rewrite H1, H2, H3, Ht.
Qed.

(** ** The pools *)

Lemma NoDup_universe s : NoDup (universe s).
Proof.
  unfold universe. rewrite !NoDup_app. split_and!.
  - apply NoDup_fmap_2; [by intros ? ? [=]|apply Pool.NoDup_ids_of].
  - intros y (i & -> & _)%list_elem_of_fmap. rewrite elem_of_app, !list_elem_of_fmap.
    by intros [(j & ? & _)|(j & ? & _)].
  - apply NoDup_fmap_2; [by intros ? ? [=]|apply Pool.NoDup_ids_of].
  - intros y (i & -> & _)%list_elem_of_fmap. rewrite list_elem_of_fmap. by intros (j & ? & _).
  - apply NoDup_fmap_2; [by intros ? ? [=]|apply Pool.NoDup_ids_of].
Qed.

Lemma lent_not_held s B b : whole s B → b ∈ B → b ∈ universe s ∧ b ∉ stock s.
Proof.
  intros Hw Hb. pose proof (NoDup_universe s) as Hnd. rewrite <-Hw in Hnd. split.
  - rewrite <-Hw. set_solver.
  - by eapply NoDup_app_disjoint.
Qed.

Lemma release_pages_ready x n s ids B :
  ready x n s ((Resident <$> ids) ++ B) →
  wp (release_pages ids) (λ _ s', ready x n s' B) (λ _ _, False) s.
Proof.
  intros Hr. unfold release_pages. apply wp_then, wp_get, wp_then, wp_guard.
  - apply Pool.release_asserts_gen; [apply Hr|..]; intros i Hi;
      (destruct (lent_not_held s _ (Resident i) (rd_whole _ _ _ _ Hr) ltac:(set_solver)) as [H1 H2]).
    + unfold universe in H1. rewrite !elem_of_app, !list_elem_of_fmap in H1. naive_solver.
    + intros Hh. apply H2. unfold stock. rewrite !elem_of_app. left. by apply list_elem_of_fmap_2.
  - apply wp_modify. eapply ready_pools; [exact Hr|done..|].
    unfold stock, Pool.held. simpl. rewrite !fmap_app. solve_perm.
Qed.

Lemma release_host_ready x n s ids B :
  ready x n s ((Swapped <$> ids) ++ B) →
  wp (release_host ids) (λ _ s', ready x n s' B) (λ _ _, False) s.
Proof.
  intros Hr. unfold release_host. apply wp_then, wp_get, wp_then, wp_guard.
  - apply Pool.release_asserts_gen; [apply Hr|..]; intros i Hi;
      (destruct (lent_not_held s _ (Swapped i) (rd_whole _ _ _ _ Hr) ltac:(set_solver)) as [H1 H2]).
    + unfold universe in H1. rewrite !elem_of_app, !list_elem_of_fmap in H1. naive_solver.
    + intros Hh. apply H2. unfold stock. rewrite !elem_of_app. right. left. by apply list_elem_of_fmap_2.
  - apply wp_modify. eapply ready_pools; [exact Hr|done..|].
    unfold stock, Pool.held. simpl. rewrite !fmap_app. solve_perm.
Qed.

Lemma release_disk_ready x n s ids B :
  ready x n s ((OnDisk <$> ids) ++ B) →
  wp (release_disk ids) (λ _ s', ready x n s' B) (λ _ _, False) s.
Proof.
  intros Hr. unfold release_disk. apply wp_then, wp_get, wp_then, wp_guard.
  - apply Pool.release_asserts_gen; [apply Hr|..]; intros i Hi;
      (destruct (lent_not_held s _ (OnDisk i) (rd_whole _ _ _ _ Hr) ltac:(set_solver)) as [H1 H2]).
    + unfold universe in H1. rewrite !elem_of_app, !list_elem_of_fmap in H1. naive_solver.
    + intros Hh. apply H2. unfold stock. rewrite !elem_of_app. right. right. left. by apply list_elem_of_fmap_2.
  - apply wp_modify. eapply ready_pools; [exact Hr|done..|].
    unfold stock, Pool.held. simpl. rewrite !fmap_app. solve_perm.
Qed.

Lemma release_swapped_ready x n s bs B :
  Forall (λ b, device_page b = None) bs → ready x n s (bs ++ B) →
  wp (release_swapped bs) (λ _ s', ready x n s' B) (λ _ _, False) s.
Proof.
  intros Hbs Hr. unfold release_swapped. rewrite decide_True by done. apply wp_then, wp_ok.
  eapply (ready_perm _ _ _ _ ((Swapped <$> omap host_slot bs) ++ (OnDisk <$> omap disk_slot bs) ++ B)) in Hr;
    [|rewrite (tiers_off_device bs) at 1 by done; solve_perm].
  eapply wp_bind; [by apply release_host_ready| |done]. intros [] s1 Hr1. by apply release_disk_ready.
Qed.

Lemma recycle_pages_ready x n s ids epoch B :
  ready x n s ((Resident <$> ids) ++ B) →
  wp (recycle_pages ids epoch) (λ _ s', ready x n s' B) (λ _ _, False) s.
Proof.
  intros Hr. apply wp_modify. destruct (Pool.recycle_held (pool s) ids epoch) as [Hh Hx].
  eapply ready_pools; [exact Hr|done..| |].
  - unfold extents. simpl. by rewrite Hx.
  - unfold stock. simpl. rewrite Hh, fmap_app. solve_perm.
Qed.

Lemma recycle_backings_ready x n s bs epoch B :
  ready x n s (bs ++ B) →
  wp (recycle_backings bs epoch) (λ _ s', ready x n s' B) (λ _ _, False) s.
Proof.
  intros Hr. unfold recycle_backings.
  eapply (ready_perm _ _ _ _ ((Resident <$> omap device_page bs) ++ filter (λ b, device_page b = None) bs ++ B)) in Hr;
    [|rewrite (tiers_device_split bs) at 1; solve_perm].
  eapply wp_bind; [by apply recycle_pages_ready| |done]. intros [] s1 Hr1.
  apply release_swapped_ready; [|done]. apply Forall_forall. by intros b [? _]%list_elem_of_filter.
Qed.

Lemma retire_idle_ready x n s B :
  ready x n s B → wp retire_idle (λ _ s', ready x n s' B) (λ _ _, False) s.
Proof.
  intros Hr. unfold retire_idle. unfold wp, mcall. cbn zeta.
  destruct (Pool.retire_through_spec (pool s)
    (match oldest s with Some oldest => (oldest - 1)%N | None => seq s end)) as (p & Hp & _ & _ & H1 & H2).
  rewrite Hp. eapply ready_pools; [exact Hr|done..| |].
  - unfold extents, Pool.extent. simpl. by rewrite H1, H2.
  - unfold stock. simpl. by rewrite (Pool.retire_through_held _ _ _ Hp).
Qed.

Lemma reserve_device_ready x n s k B :
  ready x n s B →
  wp (reserve_device_pages k) (λ o s', match o with
    | Some ids => length ids = k ∧ ready x n s' ((Resident <$> ids) ++ B)
    | None => s' = s end) (λ _ _, False) s.
Proof.
  intros Hr. unfold reserve_device_pages, wp. pose proof (Pool.alloc_held (pool s) k) as Ha.
  destruct (Pool.try_alloc_n (pool s) k) as [[ids|] p].
  - destruct Ha as (Hl & Hh & Hx & _). split; [done|]. eapply ready_pools; [exact Hr|done..| |].
    + unfold extents. simpl. by rewrite Hx.
    + unfold stock. simpl. rewrite Hh, fmap_app. solve_perm.
  - destruct Ha as [-> _]. by destruct s.
Qed.

Lemma alloc_host_ready x n s k B :
  ready x n s B →
  wp (alloc_host_slots k) (λ o s', table s' = table s ∧ disk_pool s' = disk_pool s ∧ match o with
    | Some ids => length ids = k ∧ ready x n s' ((Swapped <$> ids) ++ B)
    | None => s' = s ∧ host_swap_available s < k end) (λ _ _, False) s.
Proof.
  intros Hr. unfold alloc_host_slots, wp. pose proof (Pool.alloc_held (host_pool s) k) as Ha.
  destruct (Pool.try_alloc_n (host_pool s) k) as [[ids|] p].
  - destruct Ha as (Hl & Hh & Hx & _). split_and!; [done..|]. eapply ready_pools; [exact Hr|done..| |].
    + unfold extents. simpl. by rewrite Hx.
    + unfold stock. simpl. rewrite Hh, fmap_app. solve_perm.
  - destruct Ha as [-> ?]. by destruct s.
Qed.

Lemma alloc_disk_ready x n s k B :
  ready x n s B →
  wp (alloc_disk_slots k) (λ o s', table s' = table s ∧ match o with
    | Some ids => length ids = k ∧ ready x n s' ((OnDisk <$> ids) ++ B)
    | None => s' = s ∧ disk_swap_available s < k end) (λ _ _, False) s.
Proof.
  intros Hr. unfold alloc_disk_slots, wp. pose proof (Pool.alloc_held (disk_pool s) k) as Ha.
  destruct (Pool.try_alloc_n (disk_pool s) k) as [[ids|] p].
  - destruct Ha as (Hl & Hh & Hx & _). split_and!; [done..|]. eapply ready_pools; [exact Hr|done..| |].
    + unfold extents. simpl. by rewrite Hx.
    + unfold stock. simpl. rewrite Hh, fmap_app. solve_perm.
  - destruct Ha as [-> ?]. by destruct s.
Qed.

(** A table nothing anchors stores no page. *)
Lemma empty_held t : settled t → anchors t = [] → held (nm t) = [].
Proof.
  intros Hset HA. by rewrite (settled_unanchored t).
Qed.

(** ** Calls on the table *)

Lemma wp_tbl {A} (m : method page_table KvTableError A) (Q : A → store → Prop) X s :
  wp m (λ a t', Q a (set_table s t')) (λ e t', X (Table e) (set_table s t')) (table s) →
  wp (tbl m) Q X s.
Proof. unfold wp, tbl. by destruct (m (table s)) as [[a|e|] t']. Qed.

Lemma wp_tread {A} (f : page_table → option A) a (Q : A → store → Prop) X s :
  f (table s) = Some a → Q a s → wp (tread f) Q X s.
Proof. intros Hf HQ. by eapply (wp_read _ a). Qed.

Lemma set_table_id s : set_table s (table s) = s.
Proof. by destruct s. Qed.

(** A table traded with, where the cache and its leases are as they were. *)
Lemma ready_trade x n m s t' inn out B :
  ready x n s (inn ++ B) → trade (table s) t' inn out → cache_roots t' = cache_roots (table s) →
  room t' m m → m ≤ n → ready x m (set_table s t') (out ++ B).
Proof.
  intros [R1 R2 R3 R4 R5 R6 R7 R8 R9 R10] [T1 T2 T3] Hcr Hroom Hle. split; simpl; try done.
  - unfold whole in *. rewrite <-R4. unfold stock. simpl.
    rewrite (Permutation_app_comm out B), (Permutation_app_comm inn B), <-!app_assoc. f_equiv.
    transitivity ((Resident <$> Pool.held (pool s)) ++ (Swapped <$> Pool.held (host_pool s)) ++
      (OnDisk <$> Pool.held (disk_pool s)) ++ (out ++ held (nm t'))); [solve_perm|].
    rewrite <-T2. solve_perm.
  - intros k. by rewrite Hcr.
  - intros id e He. destruct (R6 id e He) as (v & Hv & Hl).
    assert (is_Some (cache_roots (table s) !! kept_terminal (path e))) as Hroot.
    { specialize (R5 (kept_terminal (path e))).
      pose proof (tally_pos leased (cache s) id e (kept_terminal (path e)) He eq_refl).
      destruct (cache_roots (table s) !! _); [by eexists|simpl in R5; lia]. }
    destruct (T3 _ v Hroot) as (v' & Hv' & Heq); [by rewrite Hcr|done|].
    exists v'. split; [done|]. rewrite <-Hl, <-(length_fmap fst v'), Heq. by rewrite length_fmap.
  - lia.
Qed.

Lemma ready_sets x n m s t' inn out B :
  ready x n s (inn ++ B) → sets_trade (table s) t' inn out → room t' m m → m ≤ n →
  ready x m (set_table s t') (out ++ B).
Proof. intros Hr [Ht Hh]. eapply ready_trade; [done..|]. by unfold holds in Hh; injection Hh. Qed.

Lemma ready_noted x n s t' B :
  ready x n s B → noted (table s) t' → ready x n (set_table s t') B.
Proof.
  intros Hr Hn. apply (ready_sets x n n s t' [] []); [done|by apply noted_trade| |done].
  apply Hn, Hr.
Qed.

Lemma ready_steady x n s t' out B :
  ready x n s B → steady (table s) t' out → ready x n (set_table s t') (out ++ B).
Proof. intros Hr [Ht Hc _ Hro]. apply (ready_trade x n n s t' []); [done..|by apply Hro, Hr|done]. Qed.

(** A call that only reads leaves the store as it was. *)
Lemma calm_tbl {A} (m : method page_table KvTableError A) x n s B :
  ready x n s B → (inv (table s) → calm m (table s)) →
  wp (tbl m) (λ _ s', s' = s) (λ _ s', s' = s) s.
Proof.
  intros Hr Hc. apply wp_tbl. eapply wp_mono; [apply calm_wp, Hc, Hr| |];
    simpl; intros ? ? ->; by rewrite set_table_id.
Qed.

(** The same, with the answer. *)
Lemma calm_tbl_eq {A} (m : method page_table KvTableError A) x n s B :
  ready x n s B → (inv (table s) → calm m (table s)) →
  wp (tbl m) (λ a s', s' = s ∧ m (table s) = (Ok a, table s)) (λ _ s', s' = s) s.
Proof.
  intros Hr Hc. destruct Hc as (r & Hm & Hn); [apply Hr|].
  unfold wp, tbl. rewrite Hm. destruct r; [|by rewrite set_table_id|done]. by rewrite set_table_id.
Qed.

Lemma note_ready x n s ws k B {A} (m : method page_table KvTableError A) :
  ready x n s B → (∀ t, forget m t = run_note ws k t) →
  wp (tbl m) (λ _ s', ready x n s' B) (λ _ s', ready x n s' B) s.
Proof.
  intros Hr Hm. pose proof (note_noted (table s) ws k (rd_table _ _ _ _ Hr)) as Hw.
  apply wp_tbl. unfold wp in *. rewrite <-Hm in Hw. unfold forget, mthen in Hw.
  destruct (m (table s)) as [[a|e|] t']; simpl in *; [by apply ready_noted..|done].
Qed.

(** ** What does not touch the table *)

Abbreviation off_table := (leaves table).

Lemma recycle_backings_off bs epoch : off_table (recycle_backings bs epoch : sm unit).
Proof. unfold recycle_backings, recycle_pages, release_swapped, release_host, release_disk. leave. Qed.

Lemma retire_idle_off : off_table (retire_idle : sm unit).
Proof. intros s. unfold retire_idle, mcall. cbn zeta. by destruct (Pool.retire_through _ _). Qed.

Lemma wp_leaves {Y A} (f : store → Y) (m : sm A) Q X s :
  leaves f m → wp m Q X s → wp m (λ a s', Q a s' ∧ f s' = f s) X s.
Proof. intros Hm. specialize (Hm s). unfold wp. by destruct (m s) as [[a|e|] s']. Qed.
End books.
End KvBooks.
