(* ===== verification/KvKeep.v ===== *)
(** The cache of kept prefixes keeps its books: an entry made is leased, owned and
    counted once, and an entry dropped gives back what it alone held. *)
From S2P Require Import Prelude Ids Store Pool Runs KvTable KvOps KvMove KvTrie KvChange KvSpec KvInv.
From S2P Require Import KvRead KvState KvPath KvProps KvHold KvCalls KvFrame KvLocate KvReads.
From S2P Require Import Hoare KvLedger KvImport KvHash KvStore KvBooks.

Module KvKeep.
Import KvHash KvStore Runs KvTable KvOps KvMove KvTrie KvChange KvSpec KvInv KvRead KvState KvPath KvProps
  KvHold KvCalls KvFrame KvLocate KvReads KvLedger KvImport KvBooks.

Section keep.
Context {WS NS : Type → Type}.
Context `{!KeyedStore WorkingSetId WS, !KeyedStore NodeId NS}.
Context `{!KeyedStoreLaws WorkingSetId WS, !KeyedStoreLaws NodeId NS}.
Abbreviation store := (KvStore WS NS).
Abbreviation sm := (method store KvStoreError).
Implicit Types s : store.

(** What keeping and dropping entries leaves as it was. *)
Definition spares s s' : Prop :=
  all_kept (table s) (table s') ∧ swap_locations (table s') = swap_locations (table s).

Lemma spares_refl s : spares s s.
Proof. by split; [split|]. Qed.
Lemma spares_trans s1 s2 s3 : spares s1 s2 → spares s2 s3 → spares s1 s3.
Proof. intros [[A1 A2] A3] [[B1 B2] B3]. split; [split; [congruence|auto]|congruence]. Qed.
Lemma spares_table s s' : table s' = table s → spares s s'.
Proof. intros Ht. unfold spares. rewrite Ht. by split; [split|]. Qed.

(** ** Making an entry *)

Definition owned_more (w : gmap ProcessId nat) (o : option ProcessId) : gmap ProcessId nat :=
  match o with Some p => <[p := default 0 (w !! p) + 1]> w | None => w end.

Lemma own_insert s (e : KeptEntry) :
  (own (kept_owner e) ;;; insert_kept e) s =
  (Ok tt, let s1 := set_kept (set_owners s (owned_more (owners s) (kept_owner e))) (as_u64 (kept s + 1)) in
          set_cache s1 (<[as_u64 (kept s + 1) := e]> (cache s))).
Proof. destruct s. by destruct (kept_owner e). Qed.

(** A new entry, once its node is leased. *)
Lemma ready_keep x n s t' inn B (e : KeptEntry) :
  ready x (S n) s (inn ++ B) →
  hold_trade true (table s) t' inn [] (one_more (cache_roots (table s)) (kept_terminal (path e))) →
  room t' n n →
  (∃ v, view (nm t') (Some (kept_terminal (path e))) v ∧ length v = kept_pages (path e)) →
  wp (own (kept_owner e) ;;; insert_kept e) (λ _ s', ready x n s' B ∧ table s' = t' ∧
    ∀ id e, cache s !! id = Some e → cache s' !! id = Some e) (λ _ _, False) (set_table s t').
Proof.
  intros [R1 R2 R3 R4 R5 R6 R7 R8 R9 R10] [[T1 T2 T3] H2 H3 H4 H5] Hroom Hpath.
  set (k := kept_terminal (path e)) in *.
  eapply wp_ret; [apply own_insert|]. cbn zeta. simpl.
  rewrite as_u64_small by lia.
  assert (Hid : cache s !! (kept s + 1)%N = None).
  { apply eq_None_not_Some. intros Hs%R8. lia. }
  split; [|split; [done|]].
  2: { intros id e' He'. simpl. rewrite lookup_insert_ne; [done|]. intros <-. by rewrite He' in Hid. }
  split; simpl; try done.
  - unfold whole in *. rewrite <-R4. unfold stock. simpl.
    rewrite (Permutation_app_comm inn B), <-!app_assoc. f_equiv.
    simpl in T2. transitivity ((Resident <$> Pool.held (pool s)) ++ (Swapped <$> Pool.held (host_pool s)) ++
      (OnDisk <$> Pool.held (disk_pool s)) ++ held (nm t')); [done|]. rewrite <-T2. solve_perm.
  - intros j. simpl in H2. rewrite H2, (tally_insert leased) by done. unfold one_more.
    change (leased e) with (Some k).
    destruct (decide (Some k = Some j)) as [[= <-]|Hne].
    + rewrite lookup_insert_eq. simpl. rewrite R5. lia.
    + rewrite lookup_insert_ne by congruence. rewrite R5. lia.
  - intros id' e' [[<- <-]|[Hne He']]%lookup_insert_Some; [done|].
    destruct (R6 id' e' He') as (v & Hv & Hl).
    assert (is_Some (cache_roots (table s) !! kept_terminal (path e'))) as Hroot.
    { specialize (R5 (kept_terminal (path e'))).
      pose proof (tally_pos leased (cache s) id' e' _ He' eq_refl).
      destruct (cache_roots (table s) !! _); [by eexists|simpl in R5; lia]. }
    destruct (T3 _ v Hroot) as (v' & Hv' & Heq); [|done|].
    { simpl in H2. rewrite H2. unfold one_more. destruct (decide (k = kept_terminal (path e'))) as [->|];
        [rewrite lookup_insert_eq; by eexists|by rewrite lookup_insert_ne]. }
    exists v'. split; [done|]. rewrite <-Hl, <-(length_fmap fst v'), Heq. by rewrite length_fmap.
  - intros o. destruct (R7 o) as [A1 A2]. rewrite (tally_insert kept_owner) by done.
    destruct (kept_owner e) as [p|]; simpl; [|done].
    destruct (decide (Some p = Some o)) as [[= ->]|Hne].
    + rewrite lookup_insert_eq. simpl. split; [lia|]. intros [=]. lia.
    + rewrite lookup_insert_ne by congruence. done.
  - intros id' Hs. destruct (decide (id' = kept s + 1)%N) as [->|Hne]; [lia|].
    rewrite lookup_insert_ne in Hs by done. specialize (R8 id' Hs). lia.
  - lia.
Qed.

(** [keep] keeps a prefix of a working set, or nothing. *)
Lemma keep_ready x n s ws pages o dec now B :
  ready x (S n) s B → (∀ e, wm (table s) !! ws = Some e → 0 < pages ≤ mapped_len e) →
  wp (keep ws pages o dec now) (λ _ s', ready x n s' B ∧ spares s s') (λ _ _, False) s.
Proof.
  intros Hr Hp. unfold keep. pose proof (rd_table _ _ _ _ Hr) as Hset.
  destruct (wm (table s) !! ws) as [e|] eqn:He.
  - destruct (keep_lease_ok (table s) ws e pages n n Hset He (Hp e eq_refl)) as
      (k & t1 & t' & v & Hk & Hl & Htr & Hroom & Hv & Hlen).
    { eapply room_le; [| |apply Hr]; lia. }
    apply wp_then, wp_or_else, wp_tbl. eapply wp_ret.
    { by rewrite (mthen_ok _ _ _ _ _ Hk). }
    apply wp_then, wp_tbl. eapply wp_ret; [exact Hl|].
    eapply wp_mono; [eapply (ready_keep x n s t' [] B (mkKeptEntry (mkKept k pages) o now dec)); [exact Hr|exact Htr|done|eauto]| |done].
    intros [] s' (Hr' & <- & _). split; [done|]. split; apply Htr.
  - apply wp_then, wp_or_else, wp_tbl. eapply wp_raise.
    { apply mthen_err. unfold keep_prefix. apply mthen_err. by rewrite entry_spec, He by apply Hset. }
    rewrite set_table_id. split; [by apply (ready_le x n (S n)); [lia|]|apply spares_refl].
Qed.

(** ** Dropping an entry *)

Lemma let_go_tally (h : gmap NodeId N) k j c :
  default 0%N (h !! k) = N.of_nat (S c) →
  default 0%N ((let_go h k).2 !! j) = if decide (k = j) then N.of_nat c else default 0%N (h !! j).
Proof.
  intros Hk. unfold let_go. destruct (h !! k) as [m|] eqn:Hm; [|done].
  cbn [default from_option id] in Hk. subst m.
  replace (N.of_nat (S c) - 1)%N with (N.of_nat c) by lia.
  case_decide as Hz; cbn [snd]; case_decide as Hj.
  - subst. by rewrite lookup_insert_eq.
  - by rewrite lookup_insert_ne.
  - subst. rewrite lookup_delete_eq. simpl. lia.
  - by rewrite lookup_delete_ne.
Qed.

Definition owned_less (w : gmap ProcessId nat) (o : option ProcessId) : gmap ProcessId nat :=
  match o with
  | Some p => match w !! p with
              | Some c => if decide (c - 1 = 0) then delete p w else <[p := c - 1]> w
              | None => w
              end
  | None => w
  end.

Lemma disown_steps s e :
  (∀ o, owners s !! o ≠ Some 0) → disown e s = (Ok tt, set_owners s (owned_less (owners s) (kept_owner e))).
Proof.
  intros Hpos. unfold disown. destruct (kept_owner e) as [o|]; [|by destruct s].
  unfold mthen, mget. simpl. destruct (owners s !! o) as [c|] eqn:Hc; [|by destruct s].
  unfold mguard. rewrite decide_True; [done|]. destruct c; [by destruct (Hpos o)|lia].
Qed.

Lemma owned_less_count (w : gmap ProcessId nat) (c c' : ProcessId → nat) o :
  (∀ p, default 0 (w !! p) = c p ∧ w !! p ≠ Some 0) →
  (∀ p, c p = (if decide (o = Some p) then 1 else 0) + c' p) →
  ∀ p, default 0 (owned_less w o !! p) = c' p ∧ owned_less w o !! p ≠ Some 0.
Proof.
  intros Hw Hc p. destruct (Hw p) as [A1 A2]. specialize (Hc p) as Hcp.
  destruct o as [q|]; simpl; [|simpl in Hcp; by rewrite Hcp in A1].
  destruct (decide (q = p)) as [->|Hne].
  - rewrite decide_True in Hcp by done. destruct (w !! p) as [k|] eqn:Hk; simpl in *; [|lia].
    case_decide as Hz.
    + rewrite lookup_delete_eq. simpl. split; [lia|done].
    + rewrite lookup_insert_eq. simpl. split; [lia|]. intros [=]. lia.
  - rewrite decide_False in Hcp by congruence. simpl in Hcp.
    destruct (w !! q) as [k|]; [|by rewrite A1]. case_decide.
    + rewrite lookup_delete_ne by done. by rewrite A1.
    + rewrite lookup_insert_ne by done. by rewrite A1.
Qed.

(** The books once an entry is gone and its lease too. *)
Lemma ready_drop x n s s1 t' out B id e :
  ready x n s B → cache s !! id = Some e →
  hold_trade true (table s) t' [] out (let_go (cache_roots (table s)) (kept_terminal (path e))).2 →
  roomy (table s) t' →
  cache s1 = delete id (cache s) → owners s1 = owned_less (owners s) (kept_owner e) → kept s1 = kept s →
  pool s1 = pool s → host_pool s1 = host_pool s → disk_pool s1 = disk_pool s → table s1 = t' →
  ready x n s1 (out ++ B).
Proof.
  intros [R1 R2 R3 R4 R5 R6 R7 R8 R9 R10] He [[T1 T2 T3] H2 H3 H4 H5] Hroom C1 C2 C3 C4 C5 C6 <-.
  set (k := kept_terminal (path e)) in *.
  assert (Hcount : ∀ j, default 0%N (cache_roots (table s1) !! j) = N.of_nat (tally leased (delete id (cache s)) j)).
  { intros j. simpl in H2. rewrite H2. rewrite (let_go_tally _ k j (tally leased (delete id (cache s)) k)).
    - case_decide as Hj; [by subst|]. rewrite R5, (tally_delete leased _ id e j He).
      change (leased e) with (Some k). rewrite decide_False by congruence. done.
    - rewrite R5, (tally_delete leased _ id e k He). by rewrite decide_True. }
  split; rewrite ?C1, ?C2, ?C3; try done.
  - unfold extents. by rewrite C4, C5, C6.
  - by rewrite C4, C5, C6.
  - unfold whole, universe, stock in *. rewrite C4, C5, C6. rewrite <-R4.
    rewrite (Permutation_app_comm out B), <-!app_assoc. f_equiv.
    simpl in T2. rewrite T2. solve_perm.
  - intros id' e' [Hne He']%lookup_delete_Some.
    destruct (R6 id' e' He') as (v & Hv & Hl).
    assert (0 < tally leased (delete id (cache s)) (kept_terminal (path e'))) as Hpos.
    { eapply (tally_pos leased _ id'); [by rewrite lookup_delete_ne|done]. }
    assert (is_Some (cache_roots (table s) !! kept_terminal (path e'))) as Hroot.
    { specialize (R5 (kept_terminal (path e'))).
      pose proof (tally_pos leased (cache s) id' e' _ He' eq_refl).
      destruct (cache_roots (table s) !! _); [by eexists|simpl in R5; lia]. }
    destruct (T3 _ v Hroot) as (v' & Hv' & Heq); [|done|].
    { specialize (Hcount (kept_terminal (path e'))).
      destruct (cache_roots (table s1) !! _); [by eexists|simpl in Hcount; lia]. }
    exists v'. split; [done|]. rewrite <-Hl, <-(length_fmap fst v'), Heq. by rewrite length_fmap.
  - apply (owned_less_count _ (tally kept_owner (cache s))); [done|]. intros p. by apply tally_delete.
  - intros id' Hs. apply R8. destruct (decide (id' = id)) as [->|]; [by eexists|by rewrite lookup_delete_ne in Hs].
  - by apply Hroom.
Qed.

Lemma release_entry_ready x n s s1 B id e epoch :
  ready x n s B → cache s !! id = Some e →
  cache s1 = delete id (cache s) → owners s1 = owned_less (owners s) (kept_owner e) → kept s1 = kept s →
  pool s1 = pool s → host_pool s1 = host_pool s → disk_pool s1 = disk_pool s → table s1 = table s →
  wp (release_entry e epoch) (λ _ s', ready x n s' B ∧ spares s s') (λ _ _, False) s1.
Proof.
  intros Hr He C1 C2 C3 C4 C5 C6 C7. unfold release_entry. apply wp_then, wp_tbl. rewrite C7.
  eapply wp_mono; [by apply (drop_hold_wp true), Hr| |done]. intros out t' [Htr Hro].
  assert (Hr1 : ready x n (set_table s1 t') (out ++ B)).
  { by eapply (ready_drop x n s _ t'); [exact Hr|exact He|exact Htr|exact Hro|..]. }
  eapply wp_bind; [apply (wp_leaves table); [apply recycle_backings_off|by apply recycle_backings_ready]| |done].
  intros [] s2 [Hr2 Ht2].
  eapply wp_bind; [apply (wp_leaves table); [apply retire_idle_off|by apply retire_idle_ready]| |done].
  intros [] s3 [Hr3 Ht3]. split; [done|]. unfold spares. rewrite Ht3, Ht2. split; apply Htr.
Qed.

Lemma drop_entries_ready x n keys epoch : ∀ s B,
  ready x n s B →
  wp (drop_entries keys epoch) (λ _ s', ready x n s' B ∧ spares s s') (λ _ _, False) s.
Proof.
  induction keys as [|key keys IH]; intros s B Hr; cbn [drop_entries].
  { by split; [|apply spares_refl]. }
  apply wp_then, wp_get. destruct (cache s !! key) as [entry|] eqn:He; [|by apply IH].
  apply wp_then, wp_modify, wp_then, wp_modify, wp_then.
  eapply wp_ret; [apply disown_steps; apply Hr|].
  eapply wp_bind; [by eapply (release_entry_ready x n s); [exact Hr|exact He|..]| |done].
  intros m s1 [Hr1 Hs1]. eapply wp_bind; [by apply IH| |done]. intros m' s2 [Hr2 Hs2].
  split; [done|by eapply spares_trans].
Qed.

(** ** Flat tables *)

Lemma refresh_flat_ready x n s ws B :
  ready x n s B →
  wp (refresh_flat ws) (λ _ s', ready x n s' B ∧ table s' = table s) (λ _ _, False) s.
Proof.
  intros Hr. unfold refresh_flat, tbl_or. apply wp_then, wp_or_else.
  assert (Hgo : ∀ f, wp (mmodify (λ s : store, set_flat s (<[ws := f]> (flat s))) : sm unit)
    (λ _ s', ready x n s' B ∧ table s' = table s) (λ _ _, False) s).
  { intros f. apply wp_modify. split; [|done]. by eapply ready_other. }
  eapply wp_mono; [eapply calm_tbl; [exact Hr|]| |].
  - intros Hi. apply calm_then; [by apply flatten_calm|]. intros. apply calm_ok.
  - intros f ? ->. apply Hgo.
  - intros e ? ->. apply Hgo.
Qed.

(** What the flat table of a set is refreshed to. *)
Definition flat_of (t : KvPageTable WS NS) (ws : WorkingSetId) : option (list PhysicalKvPageId) :=
  match (flatten ws t).1 with Ok f => Some f | _ => None end.

Lemma refresh_flat_step s ws :
  inv (table s) → refresh_flat ws s = (Ok tt, set_flat s (<[ws := flat_of (table s) ws]> (flat s))).
Proof.
  intros Hi. destruct (flatten_calm (table s) ws Hi) as (r & Hf & Hr).
  unfold refresh_flat, tbl_or, flat_of. unfold mthen at 1. unfold mor_else, tbl. unfold mthen at 1. rewrite Hf.
  destruct r as [f|e|]; simpl; [by rewrite set_table_id..|done].
Qed.

Lemma flat_table_ready x n s ws B :
  ready x n s B →
  wp (flat_table ws) (λ _ s', ready x n s' B ∧ table s' = table s)
    (λ _ s', ready x n s' B ∧ table s' = table s) s.
Proof.
  intros Hr. unfold flat_table. apply wp_then, wp_get.
  assert (Hgo : wp (f ⇐ tbl (flatten ws) ;; mmodify (λ s : store, set_flat s (<[ws := Some f]> (flat s))) ;;; mok f)
    (λ _ s', ready x n s' B ∧ table s' = table s) (λ _ s', ready x n s' B ∧ table s' = table s) s).
  { eapply wp_bind; [eapply calm_tbl; [exact Hr|by apply flatten_calm]| |].
    - intros f ? ->. apply wp_then, wp_modify, wp_ok. split; [|done]. by eapply ready_other.
    - by intros e ? ->. }
  destruct (flat s !! ws) as [[f|]|]; [by apply wp_ok|done..].
Qed.

(** ** Keeping *)

Lemma keep_sealed_prefix_ready x n s aliases ws now1 now2 B :
  ready x (S (S n)) s B →
  wp (keep_sealed_prefix aliases ws now1 now2) (λ _ s', ready x n s' B ∧ spares s s') (λ _ _, False) s.
Proof.
  intros Hr. pose proof (rd_table _ _ _ _ Hr) as [Hi Hg].
  unfold keep_sealed_prefix, owner_of. apply wp_then, wp_then, wp_or_else.
  assert (Hown : ∀ o, wp (mok (plex_id aliases <$> o) : sm (option ProcessId))
    (λ o, wp (all ⇐ tbl_or (sealed_resident_prefix ws) 0 ;;
      prompt ⇐ tbl_or (prompt_pages_of ws) 0 ;;
      let prompt := prompt `min` all in
      (if decide (0 < prompt) then keep ws prompt o false now1 else mok tt) ;;;
      (if decide (prompt < all) then keep ws all o true now2 else mok tt))
      (λ _ s', ready x n s' B ∧ spares s s') (λ _ _, False)) (λ _ _, False) s).
  2: { eapply wp_mono; [eapply calm_tbl; [exact Hr|by intros; apply get_calm]| |]; intros ? ? ->; apply Hown. }
  intros o. apply wp_ok. unfold tbl_or. apply wp_then, wp_or_else.
  assert (Hgo : ∀ all prompt, (∀ e, wm (table s) !! ws = Some e → all ≤ mapped_len e) → prompt ≤ all →
    wp ((if decide (0 < prompt) then keep ws prompt (plex_id aliases <$> o) false now1 else mok tt) ;;;
      (if decide (prompt < all) then keep ws all (plex_id aliases <$> o) true now2 else mok tt))
      (λ _ s', ready x n s' B ∧ spares s s') (λ _ _, False) s).
  { intros all prompt Hall Hp.
    eapply (wp_bind _ _ (λ _ s', ready x (S n) s' B ∧ spares s s') (λ _ _, False)); [| |done].
    - case_decide; [|apply wp_ok; split; [by eapply ready_le; [|done]; lia|apply spares_refl]].
      apply keep_ready; [done|]. intros e He. specialize (Hall e He). lia.
    - intros [] s1 [Hr1 Hs1]. case_decide.
      + eapply wp_mono; [apply keep_ready; [done|]| |done].
        * intros e He. destruct Hs1 as [[Hw _] _]. rewrite Hw in He. specialize (Hall e He). lia.
        * intros [] s2 [Hr2 Hs2]. split; [done|by eapply spares_trans].
      + apply wp_ok. split; [by eapply ready_le; [|done]; lia|done]. }
  assert (Hprompt : ∀ all, (∀ e, wm (table s) !! ws = Some e → all ≤ mapped_len e) →
    wp (prompt ⇐ mor_else (tbl (prompt_pages_of ws)) 0 ;;
      let prompt := prompt `min` all in
      (if decide (0 < prompt) then keep ws prompt (plex_id aliases <$> o) false now1 else mok tt) ;;;
      (if decide (prompt < all) then keep ws all (plex_id aliases <$> o) true now2 else mok tt))
      (λ _ s', ready x n s' B ∧ spares s s') (λ _ _, False) s).
  { intros all Hall. apply wp_then, wp_or_else.
    eapply wp_mono; [eapply calm_tbl; [exact Hr|by intros; apply get_calm]| |]; intros ? ? ->; apply Hgo; auto; lia. }
  destruct (prefix_while_cases (table s) ws (λ t l, sealed_at t l && settled_at t l) Hi)
    as [(e & k & He & Hk & Hp)|Hp].
  - apply wp_tbl. eapply wp_ret; [exact Hp|]. rewrite set_table_id. apply Hprompt.
    intros e' He'. by simplify_eq.
  - apply wp_tbl. eapply wp_raise; [exact Hp|]. rewrite set_table_id. apply Hprompt. intros; lia.
Qed.

Lemma keep_checkpoint_ready x n s ws pages o now B :
  ready x (S n) s B → 0 < pages →
  wp (keep_checkpoint ws pages o now) (λ _ s', ready x n s' B ∧ spares s s') (λ _ _, False) s.
Proof.
  intros Hr Hpos. pose proof (rd_table _ _ _ _ Hr) as [Hi Hg].
  assert (Hno : ready x n s B ∧ spares s s) by (split; [by eapply ready_le; [|done]; lia|apply spares_refl]).
  unfold keep_checkpoint, tbl_or. apply wp_then, wp_or_else, wp_tbl.
  destruct (prefix_while_cases (table s) ws (λ t l, sealed_at t l && settled_at t l) Hi)
    as [(e & k & He & Hk & Hp)|Hp].
  - eapply wp_ret; [by rewrite (mthen_ok _ _ _ _ _ Hp)|]. rewrite set_table_id.
    case_bool_decide; [|done]. apply keep_ready; [done|]. intros e' He'. simplify_eq. lia.
  - eapply wp_raise; [by apply mthen_err|]. by rewrite set_table_id.
Qed.

(** ** Releasing *)

Lemma discard_cache_ready x n s o B :
  ready x n s B → wp (discard_cache o) (λ _ s', ready x n s' B ∧ spares s s') (λ _ _, False) s.
Proof. intros Hr. unfold discard_cache. apply wp_then, wp_get. by apply drop_entries_ready. Qed.

Lemma release_working_set_ready x n s aliases ws epoch now1 now2 B :
  ready x (S (S n)) s B →
  wp (release_working_set aliases ws epoch now1 now2) (λ _ s', ready x n s' B) (λ _ _, False) s.
Proof.
  intros Hr. unfold release_working_set. apply wp_then, wp_get.
  eapply (wp_bind _ _ (λ _ s', ready x n s' B) (λ _ _, False)); [| |done].
  { destruct (KvStore.keeps s); [|by apply wp_ok; eapply ready_le; [|done]; lia].
    eapply wp_mono; [by apply keep_sealed_prefix_ready| |done]. by intros [] s' [? _]. }
  intros [] s1 Hr1. apply wp_then, wp_tbl.
  eapply wp_mono; [by apply release_wp, Hr1| |done]. intros out t' [Htr Hro].
  assert (Hr2 : ready x n (set_table s1 t') (out ++ B)).
  { by apply (ready_sets x n n s1 t' []); [..|apply Hro, Hr1|]. }
  eapply wp_bind; [by apply recycle_backings_ready| |done]. intros [] s3 Hr3.
  apply wp_modify. by eapply ready_other.
Qed.
End keep.
End KvKeep.
