(* ===== verification/KvReclaim.v ===== *)
(** Making room in the cache: entries split at the steps of their owners, groups
    of entries ranked and dropped, and entries no lookup hits given up. *)
From S2P Require Import Prelude Ids Store Pool Runs KvTable KvOps KvMove KvTrie KvChange KvSpec KvInv.
From S2P Require Import KvRead KvState KvPath KvProps KvHold KvQuery KvCalls KvFrame KvLocate KvReads.
From S2P Require Import Hoare KvLedger KvImport KvHash KvStore KvBooks KvKeep.

Module KvReclaim.
Import KvHash KvStore Runs KvTable KvOps KvMove KvTrie KvChange KvSpec KvInv KvRead KvState KvPath KvProps
  KvHold KvQuery KvCalls KvFrame KvLocate KvReads KvLedger KvImport KvBooks KvKeep.

Section reclaim.
Context {WS NS : Type → Type}.
Context `{!KeyedStore WorkingSetId WS, !KeyedStore NodeId NS}.
Context `{!KeyedStoreLaws WorkingSetId WS, !KeyedStoreLaws NodeId NS}.
Abbreviation store := (KvStore WS NS).
Abbreviation sm := (method store KvStoreError).
Implicit Types s : store.

(** ** Reads of the store *)

(** A call that answers and leaves the store as it was. *)
Definition still_answers {A} (m : sm A) s : Prop := wp m (λ _ s', s' = s) (λ _ _, False) s.

Lemma answers_ok {A} (a : A) s : still_answers (mok a) s.
Proof. done. Qed.
Lemma answers_get s : still_answers mget s.
Proof. done. Qed.
Lemma answers_tread {A} (f : KvPageTable WS NS → option A) s : is_Some (f (table s)) → still_answers (tread f) s.
Proof. intros [a Ha]. by eapply wp_tread. Qed.
Lemma answers_then {A C} (m : sm A) (k : A → sm C) s :
  still_answers m s → (∀ a, still_answers (k a) s) → still_answers (mthen m k) s.
Proof. intros Hm Hk. eapply wp_bind; [exact Hm| |done]. intros a ? ->. apply Hk. Qed.

(** The same, knowing the store the call read. *)
Lemma answers_with {C} (k : store → sm C) s : still_answers (k s) s → still_answers (mthen mget k) s.
Proof. done. Qed.

(** ** Splitting at steps *)

(** The heads a split makes: how many node keys it may take. *)
Definition heads s (keys : Keys) : list (N * KeptEntry * nat) :=
  concat (entry_heads s keys <$> map_to_list (cache s)).

Lemma heads_spec s keys id e pages :
  (id, e, pages) ∈ heads s keys → cache s !! id = Some e ∧ 0 < pages < kept_pages (path e).
Proof.
  unfold heads. rewrite elem_of_concat. intros (l & ([id' e'] & -> & Hin%elem_of_map_to_list)%list_elem_of_fmap & Hh).
  unfold entry_heads in Hh. simpl in Hh. destruct (kept_owner e') as [o|]; [|by apply not_elem_of_nil in Hh].
  apply list_elem_of_omap in Hh as (u & _ & Hu). cbn zeta in Hu. case_decide as Hd; [|done].
  simplify_eq. split; [done|lia].
Qed.

Lemma split_at_steps_ready x n s keys B :
  ready x (length (heads s keys) + n) s B →
  wp (split_at_steps keys) (λ _ s', ready x n s' B ∧ spares s s') (λ _ _, False) s.
Proof.
  intros Hr. unfold split_at_steps. apply wp_then, wp_get.
  destruct (negb (KvStore.keeps s)).
  { apply wp_ok. split; [by eapply ready_le; [|done]; lia|apply spares_refl]. }
  fold (heads s keys).
  set (I := λ (l : list (N * KeptEntry * nat)) s', ready x (length l + n) s' B ∧ spares s s' ∧
    ∀ h, h ∈ l → cache s' !! h.1.1 = Some h.1.2 ∧ 0 < h.2 < kept_pages (path h.1.2)).
  eapply wp_mono; [apply (wp_for _ I (λ _ _, False))| |done].
  - intros [[id e] pages] l s1 (Hr1 & Hs1 & Hl). destruct (Hl (id, e, pages)) as [He Hp]; [by left|].
    cbn [fst snd] in He, Hp. apply wp_then, wp_modify. cbv beta iota zeta.
    destruct (rd_paths _ _ _ _ Hr1 id e He) as (v & Hv & Hlen).
    destruct (keep_of_lease_ok (table s1) (path e) v pages (length l + n) (length l + n))
      as (k & t1 & t' & w & Hk & Hls & Htr & Hroom & Hw & Hwl); [apply Hr1|done|done|lia| |].
    { eapply room_le; [| |apply Hr1]; simpl; lia. }
    apply wp_then, wp_tbl. eapply wp_ret; [exact Hk|].
    apply wp_then, wp_tbl. eapply wp_ret; [exact Hls|].
    set (s2 := set_splits s1 ({[(id, pages)]} ∪ splits s1)).
    assert (Hr2 : ready x (S (length l + n)) s2 B) by by eapply ready_other.
    eapply wp_mono; [eapply (ready_keep x _ s2 t' [] B (mkKeptEntry (mkKept k pages) (kept_owner e) (last_use e) (decoded e)));
      [exact Hr2|exact Htr|done|eauto]| |done].
    intros [] s3 (Hr3 & Ht3 & Hc3). split_and!; [done| |].
    + eapply spares_trans; [exact Hs1|]. unfold spares. rewrite Ht3. split; apply Htr.
    + intros h Hh. destruct (Hl h) as [Hc Hlt]; [by right|]. split; [by apply Hc3|done].
  - split_and!; [done|apply spares_refl|]. intros [[id e] pages]. apply heads_spec.
  - intros [] s' (? & ? & _). done.
Qed.

(** ** The order of reclaim *)

Lemma group_loop_answers x n s keys unused entries groups B :
  ready x n s B → still_answers (group_loop keys unused entries groups) s.
Proof.
  intros Hr. pose proof (rd_table _ _ _ _ Hr) as [[Hs [Hm _ _ _] _ _] _].
  revert groups. induction entries as [|[id e] entries IH]; intros groups; [done|]. cbn [group_loop].
  cbn zeta. apply answers_then.
  { case_decide; [done|]. apply answers_then; [by apply answers_tread, in_move_at_some|].
    intros []; [done|]. apply answers_then; [by apply answers_tread, holds_resident_some|]. done. }
  intros skip. apply answers_with. apply IH.
Qed.

Lemma rank_groups_answers x n s groups B :
  ready x n s B → still_answers (rank_groups groups) s.
Proof.
  intros Hr. pose proof (rd_table _ _ _ _ Hr) as [[Hs [Hm _ _ _] _ _] _].
  induction groups as [|[[[o k] d] [ids u]] groups IH]; [done|]. cbn [rank_groups].
  apply answers_with, answers_then; [by apply answers_tread, device_pages_freed_some|].
  intros m. apply answers_then; [apply IH|]. done.
Qed.

Lemma unused_roots_answers x n s B :
  ready x n s B → wp (tread unused_cache_roots)
    (λ l s', s' = s ∧ ∀ k, k ∈ l → is_Some (nm (table s) !! k)) (λ _ _, False) s.
Proof.
  intros Hr. destruct (unused_cache_roots_some (table s)) as (l & Hl & Hlive); [apply Hr|].
  by eapply wp_tread.
Qed.

Lemma reclaim_order_answers x n s keys B : ready x n s B → still_answers (reclaim_order keys) s.
Proof.
  intros Hr. unfold reclaim_order. eapply wp_bind; [by eapply unused_roots_answers| |done].
  intros l ? [-> _]. case_decide; [done|]. apply answers_with.
  apply answers_then; [by eapply group_loop_answers|]. intros groups.
  apply answers_then; [by eapply rank_groups_answers|]. done.
Qed.

Lemma reclaim_loop_ready x n order epoch : ∀ s B,
  ready x n s B →
  wp (reclaim_loop order epoch) (λ _ s', ready x n s' B ∧ spares s s') (λ _ _, False) s.
Proof.
  induction order as [|[k ids] order IH]; intros s B Hr; cbn [reclaim_loop].
  { by split; [|apply spares_refl]. }
  eapply wp_bind; [by apply drop_entries_ready| |done]. intros m s1 [Hr1 Hs1].
  case_decide; [done|]. eapply wp_mono; [by apply IH| |done]. intros m' s2 [Hr2 Hs2].
  split; [done|by eapply spares_trans].
Qed.

Lemma reclaim_cache_ready x n s epoch keys B :
  ready x (length (heads s keys) + n) s B →
  wp (reclaim_cache epoch keys) (λ _ s', ready x n s' B ∧ spares s s') (λ _ _, False) s.
Proof.
  intros Hr. unfold reclaim_cache.
  eapply wp_bind; [by apply split_at_steps_ready| |done]. intros [] s1 [Hr1 Hs1].
  eapply wp_bind; [by eapply reclaim_order_answers| |done]. intros order ? ->.
  eapply wp_mono; [by apply reclaim_loop_ready| |done]. intros m s2 [Hr2 Hs2].
  split; [done|by eapply spares_trans].
Qed.

(** ** Entries below the device *)

Lemma off_device_loop_answers x n s unused entries B :
  ready x n s B → (∀ k, k ∈ unused → is_Some (nm (table s) !! k)) →
  still_answers (off_device_loop unused entries) s.
Proof.
  intros Hr Hl. pose proof (rd_table _ _ _ _ Hr) as [[Hs [Hm _ _ _] _ _] _].
  induction entries as [|[id e] entries IH]; [done|]. cbn [off_device_loop]. cbn zeta.
  apply answers_then.
  { case_decide; [|done]. apply answers_then; [|done]. apply answers_tread, settled_on_device_some; auto. }
  intros off. by apply answers_then.
Qed.

Lemma drop_entries_off_device_ready x n s B :
  ready x n s B →
  wp drop_entries_off_device (λ _ s', ready x n s' B ∧ spares s s') (λ _ _, False) s.
Proof.
  intros Hr. unfold drop_entries_off_device.
  eapply wp_bind; [by eapply unused_roots_answers| |done]. intros l ? [-> Hl].
  apply wp_then, wp_get.
  eapply wp_bind; [by eapply off_device_loop_answers| |done]. intros keys ? ->.
  apply wp_then, wp_get. eapply wp_bind; [by apply drop_entries_ready| |done]. done.
Qed.

(** ** Readers *)

Lemma release_reader_ready x n s pin B :
  ready x n s B → wp (release_reader pin) (λ _ s', ready x n s' B) (λ _ _, False) s.
Proof.
  intros Hr. unfold release_reader. apply wp_then, wp_tbl.
  eapply wp_mono; [by apply unpin_terminals_wp, Hr| |done]. intros out t' [Hst _].
  apply wp_then, wp_get.
  eapply wp_bind; [by eapply recycle_backings_ready, ready_steady| |done]. intros [] s1 Hr1.
  by apply retire_idle_ready.
Qed.

Lemma resident_ids_live t run ids l :
  sound t → resident_ids t run = Some ids → last run = Some l → is_Some (nm t !! loc_node l).
Proof.
  intros Hs. revert ids. induction run as [|l' run IH]; intros ids; [done|]. simpl.
  destruct (backing_at t l') as [[i| |]|e|] eqn:Hb; try done.
  destruct (resident_ids t run) as [ids'|] eqn:Hr; [|done]. intros _. rewrite last_cons.
  destruct (last run) eqn:Hl; intros [= <-]; [by eapply IH|].
  apply backing_at_spec in Hb as (e & _ & _ & _ & He & _); [by eexists|done].
Qed.

Lemma pin_resident_ready x n s run B :
  ready x n s B →
  wp (pin_resident run) (λ _ s', ready x n s' B) (λ _ _, False) s.
Proof.
  intros Hr. unfold pin_resident. apply wp_then, wp_get.
  destruct (last run) as [l|] eqn:Hl; [|done].
  destruct (resident_ids (table s) run) as [ids|] eqn:Hids; [|done].
  apply wp_then, wp_tbl. eapply wp_mono; [apply pin_wp; [apply Hr|]| |done].
  - eapply resident_ids_live; [apply Hr|done..].
  - intros [] t' (Hst & _). apply wp_ok. by apply (ready_steady x n s t' []).
Qed.

Lemma cached_runs_answers x n s B : ready x n s B → still_answers cached_runs s.
Proof.
  intros Hr. pose proof (rd_table _ _ _ _ Hr) as [[Hs [Hm _ _ _] _ _] _].
  unfold cached_runs. apply answers_with.
  assert (Hall : ∀ e, e ∈ (map_to_list (cache s)).*2 → is_Some (nm (table s) !! kept_terminal (path e))).
  { intros e ([id e'] & -> & Hin%elem_of_map_to_list)%list_elem_of_fmap.
    destruct (rd_paths _ _ _ _ Hr _ _ Hin) as (v & Hv & _). by eapply view_live. }
  induction (map_to_list (cache s)).*2 as [|e l IH]; [done|]. cbn [cached_runs_loop].
  apply answers_then; [apply answers_tread, path_keys_some; [done..|apply Hall; by left]|].
  intros keys. apply answers_then; [apply IH; intros; apply Hall; by right|]. done.
Qed.

(** ** Runs brought in *)

Lemma import_cached_ready x n s prefix ths phs slots now B :
  ready x (S (S n)) s ((Swapped <$> slots) ++ B) →
  length ths = length slots → length phs = length slots →
  wp (import_cached prefix ths phs slots now) (λ _ s', ready x n s' B) (λ _ _, False) s.
Proof.
  intros Hr Hths Hphs. pose proof (rd_table _ _ _ _ Hr) as Hset.
  pose proof Hset as [[Hs [Hm _ _ _] _ _] _].
  unfold import_cached. apply wp_then, wp_guard; [done|]. apply wp_then, wp_guard; [done|].
  case_decide as Hz.
  { apply wp_ok. destruct slots; [|done]. by eapply ready_le; [|done]; lia. }
  apply wp_then, wp_get. cbn zeta. case_decide as Hrun.
  { eapply wp_bind; [by apply release_host_ready| |done]. intros [] s1 Hr1.
    apply wp_ok. by eapply ready_le; [|done]; lia. }
  destruct phs as [|key keys]; [simpl in *; lia|].
  destruct (insert_cached_ok (table s) (if decide (prefix = []) then None else last (sealed_run (table s) prefix false))
    (Swapped <$> slots) ths key keys n (S n) Hset) as (k & t1 & v & Hins & Hu & Hh & Hroom).
  { eapply room_le; [| |apply Hr]; lia. }
  { by rewrite length_fmap. } { by rewrite length_fmap. }
  { intros l. case_decide; [done|]. intros Hl.
    pose proof (sealed_run_spec (table s) prefix false) as Hok.
    rewrite last_lookup in Hl. destruct (Hok _ _ Hl) as (key' & _ & e & b & th & ph & y & He & Hp & _ & Hb & _).
    rewrite node_nm in He by done. exists e, b, th, ph. split_and!; [done..|]. by eapply lookup_lt_Some. }
  apply wp_then, wp_tbl. eapply wp_ret; [exact Hins|].
  destruct (hold_new_ok true (table s) t1 k _ _ Hu Hh Hset) as (t' & Htk & Htr & Hv & Hro).
  apply wp_then, wp_tbl. eapply wp_ret; [exact Htk|].
  apply wp_then. eapply wp_tread.
  { simpl. apply (path_len_spec t' k v); [apply (tr_settled _ _ _ _ (ht_trade _ _ _ _ _ _ Htr))..|done]. }
  set (e := mkKeptEntry (mkKept k (length v)) None now false).
  eapply (wp_bind _ _ (λ _ s', ready x n s' B) (λ _ _, False)); [|done|done].
  change (wp (own (kept_owner e) ;;; insert_kept e) (λ _ s', ready x n s' B) (λ _ _, False) (set_table s t')).
  rewrite snd_cells in Htr.
  eapply wp_mono; [eapply (ready_keep x n s t' (Swapped <$> slots) B e)| |done].
  - by eapply ready_le; [|done]; lia.
  - exact Htr.
  - apply Hro. by eapply room_le; [| |exact Hroom]; lia.
  - by exists v.
  - by intros [] s' [? _].
Qed.
End reclaim.
End KvReclaim.
