(* ===== verification/KvWrites.v ===== *)
(** Working sets, prepared writes and content keys keep the books: whatever a call
    answers, every page is where it was or where the call says it put it. *)
From S2P Require Import Prelude Ids Store Pool Runs KvTable KvOps KvMove KvTrie KvChange KvSpec KvInv.
From S2P Require Import KvRead KvState KvPath KvProps KvFree KvHold KvQuery KvCommit KvCalls KvFrame.
From S2P Require Import KvLocate KvReads Hoare KvLedger KvImport KvHash KvStore KvBooks KvKeep KvReclaim.

Module KvWrites.
Import KvHash KvStore Runs KvTable KvOps KvMove KvTrie KvChange KvSpec KvInv KvRead KvState KvPath KvProps
  KvFree KvHold KvQuery KvCommit KvCalls KvFrame KvLocate KvReads KvLedger KvImport KvBooks KvKeep KvReclaim.

Section writes.
Context {WS NS : Type → Type}.
Context `{!KeyedStore WorkingSetId WS, !KeyedStore NodeId NS}.
Context `{!KeyedStoreLaws WorkingSetId WS, !KeyedStoreLaws NodeId NS}.
Context (derive : Context_ → list N → Hash256).
Abbreviation store := (KvStore WS NS).
Abbreviation sm := (method store KvStoreError).
Abbreviation gm := (method (store * list PhysicalKvPageId) KvStoreError).
Implicit Types s : store.

Lemma wp_catch {A} (m : sm A) h (Q : A → store → Prop) X s :
  wp m Q (λ e, wp (h e) Q X) s → wp (catch m h) Q X s.
Proof. unfold wp, catch. by destruct (m s) as [[a|e|] s']. Qed.

(** ** Working sets *)

Lemma create_working_set_ready x n s B :
  ready x (S n) s B → wp KvStore.create_working_set (λ _ s', ready x n s' B) (λ _ _, False) s.
Proof.
  intros Hr. unfold KvStore.create_working_set. apply wp_then, wp_tbl.
  eapply wp_mono; [apply (create_wp (table s) n n); [apply Hr|]| |done].
  { eapply room_le; [| |apply Hr]; lia. }
  intros ws t' [Htr Hro]. apply wp_then, wp_modify, wp_ok.
  apply (ready_other x n (set_table s t')); [|done..].
  apply (ready_sets x (S n) n s t' [] []); [done..|lia].
Qed.

Lemma fork_ready x n s ws B :
  ready x (S n) s B → wp (KvStore.fork ws) (λ _ s', ready x n s' B) (λ _ s', s' = s) s.
Proof.
  intros Hr. unfold KvStore.fork. apply wp_then, wp_tbl.
  eapply wp_mono; [apply (fork_wp (table s) ws n n); [apply Hr|]| |].
  { eapply room_le; [| |apply Hr]; lia. }
  - intros child t' [Htr Hro].
    assert (Hr1 : ready x n (set_table s t') B) by (apply (ready_sets x (S n) n s t' [] []); [done..|lia]).
    eapply wp_bind; [by apply refresh_flat_ready| |done]. by intros [] s1 [Hr2 _].
  - intros e t' ->. by rewrite set_table_id.
Qed.

(** ** Notes *)

Lemma forget_unit (m : method (KvPageTable WS NS) KvTableError unit) t : forget m t = m t.
Proof. unfold forget, mthen. by destruct (m t) as [[[]|e|] t']. Qed.

Lemma log_rows_ready x n s ws start tokens B :
  ready x n s B →
  wp (KvStore.log_rows ws start tokens) (λ _ s', ready x n s' B) (λ _ s', ready x n s' B) s.
Proof. intros Hr. eapply (note_ready x n s ws (LogRows start tokens)); [done|]. apply forget_unit. Qed.

Lemma log_end_ready x n s ws seq rows B :
  ready x n s B →
  wp (KvStore.log_end ws seq rows) (λ _ s', ready x n s' B) (λ _ s', ready x n s' B) s.
Proof. intros Hr. eapply (note_ready x n s ws (LogEnd seq rows)); [done|]. apply forget_unit. Qed.

Lemma set_owner_ready x n s ws o B :
  ready x n s B →
  wp (KvStore.set_owner ws o) (λ _ s', ready x n s' B) (λ _ s', ready x n s' B) s.
Proof. intros Hr. eapply (note_ready x n s ws (SetOwner o)); [done|]. apply forget_unit. Qed.

Lemma reach_prompt_ready x n s ws pages B :
  ready x n s B →
  wp (tbl (reach_prompt ws pages)) (λ _ s', ready x n s' B) (λ _ s', ready x n s' B) s.
Proof. intros Hr. eapply (note_ready x n s ws (ReachPrompt pages)); [done|]. apply forget_unit. Qed.

Lemma freeze_ready x n s ws to B :
  ready x n s B →
  wp (tbl (freeze ws to)) (λ _ s', ready x n s' B) (λ _ s', ready x n s' B) s.
Proof. intros Hr. by eapply (note_ready x n s ws (Freeze to)). Qed.

Lemma add_supplied_ready x n s ws k B :
  ready x n s B →
  wp (tbl (add_supplied ws k)) (λ _ s', ready x n s' B) (λ _ s', ready x n s' B) s.
Proof. intros Hr. by eapply (note_ready x n s ws (AddSupplied k)). Qed.

Lemma reserve_ready x n s ws pages B :
  ready x n s B →
  wp (KvStore.reserve ws pages) (λ _ s', ready x n s' B) (λ _ s', ready x n s' B) s.
Proof. intros Hr. by eapply (note_ready x n s ws (Reserve pages)). Qed.

Lemma log_begin_ready x n s ws cut B :
  ready x n s B →
  wp (KvStore.log_begin ws cut) (λ _ s', ready x n s' B) (λ _ s', ready x n s' B) s.
Proof.
  intros Hr. unfold KvStore.log_begin. apply wp_then, wp_modify, wp_then, wp_get.
  set (s1 := set_log_seq s (as_u64 (log_seq s + 1))).
  assert (Hr1 : ready x n s1 B) by by eapply ready_other.
  eapply wp_bind; [eapply (note_ready x n s1 ws (LogBegin (log_seq s1) cut)); [done|apply forget_unit]| |done].
  intros [] s2 Hr2. by apply wp_ok.
Qed.

(** ** Grants *)

(** The store with a grant of device pages beside it. *)
Definition granted x n B (p : store * list PhysicalKvPageId) : Prop :=
  ready x n p.1 ((Resident <$> p.2) ++ B).

Lemma wp_with_grant {A} (m : sm A) (Q : A → store * list PhysicalKvPageId → Prop) X s g :
  wp m (λ a s', Q a (s', g)) (λ e s', X e (s', g)) s → wp (with_grant m) Q X (s, g).
Proof. unfold wp, with_grant. simpl. by destruct (m s) as [[a|e|] s']. Qed.

(** Drawing from a grant: as many as asked for, from its front. *)
Lemma wp_draw k (Q : list PhysicalKvPageId → store * list PhysicalKvPageId → Prop) X s g :
  k ≤ length g → Q (take k g) (s, drop k g) → wp (draw k) Q X (s, g).
Proof. intros Hk HQ. unfold wp, draw. simpl. by rewrite decide_False by lia. Qed.

Lemma granted_draw x n B s k g :
  granted x n B (s, g) → ready x n s ((Resident <$> take k g) ++ ((Resident <$> drop k g) ++ B)).
Proof.
  unfold granted. simpl. intros Hr. by rewrite app_assoc, <-fmap_app, take_drop.
Qed.

Lemma backing_demand_ready x n s ws upto B :
  ready x n s B → wp (backing_demand ws upto) (λ _ s', s' = s) (λ _ s', s' = s) s.
Proof.
  intros Hr. unfold backing_demand.
  eapply wp_bind; [by eapply calm_tbl; [exact Hr|intros; apply get_calm]| |done].
  intros len ? ->. case_decide; [done|].
  eapply wp_bind; [by eapply calm_tbl; [exact Hr|intros; apply get_calm]| |done].
  by intros m ? ->.
Qed.

Lemma ensure_backed_ready x n s g ws upto B :
  granted x (S n) B (s, g) →
  wp (ensure_backed_reserved ws upto) (λ _, granted x n B) (λ _, granted x n B) (s, g).
Proof.
  intros Hr. assert (Hr0 : granted x n B (s, g)) by (by eapply ready_le; [|exact Hr]; lia).
  unfold ensure_backed_reserved. apply wp_then, wp_with_grant.
  eapply wp_mono; [by eapply backing_demand_ready| |by intros e ? ->]. intros k ? ->.
  apply wp_then, wp_get. simpl. case_decide; [done|]. case_decide; [done|].
  apply wp_then, wp_draw; [lia|]. pose proof (granted_draw _ _ _ _ k _ Hr) as Hd.
  apply wp_then, wp_with_grant, wp_catch, wp_tbl.
  eapply wp_mono; [apply (publish_wp (table s) ws _ n n); [apply Hd|]| |].
  { eapply room_le; [| |apply Hd]; lia. }
  - intros [] t' [Htr Hro].
    assert (Hr1 : ready x n (set_table s t') ((Resident <$> drop k g) ++ B)).
    { apply (ready_sets x (S n) n s t' (Resident <$> take k g) []); [done| |done|lia].
      by rewrite <-list_fmap_compose in Htr. }
    apply wp_then, wp_with_grant. eapply wp_mono; [by apply refresh_flat_ready| |done].
    intros [] s2 [Hr2 _]. exact Hr2.
  - intros e t' ->. rewrite set_table_id.
    eapply wp_bind; [by apply release_pages_ready| |done]. intros [] s2 Hr2. apply wp_err.
    by eapply ready_le; [|exact Hr2]; lia.
Qed.

(** ** Preparing a write *)

Lemma classify_loop_calm x n s B ws visible indexes : ∀ in_place cow,
  ready x n s B → Forall (λ i, i < length visible) indexes →
  wp (classify_loop ws visible indexes in_place cow) (λ _ s', s' = s) (λ _ s', s' = s) s.
Proof.
  induction indexes as [|i indexes IH]; intros in_place cow Hr Hall; [done|].
  apply Forall_cons in Hall as [Hi Hall]. cbn [classify_loop].
  eapply wp_bind; [by eapply calm_tbl; [exact Hr|intros; apply privately_writable_calm]| |done].
  intros private ? ->.
  eapply (wp_bind _ _ (λ _ s', s' = s) (λ _ s', s' = s)); [| |done].
  { destruct private; [|done]. eapply calm_tbl; [exact Hr|]. intros. by apply sealed_calm. }
  intros sealed ? ->. destruct sealed; [by apply IH|].
  apply wp_then. destruct (lookup_lt_is_Some_2 visible i Hi) as [id Hid].
  eapply wp_expect; [exact Hid|]. by apply IH.
Qed.

Lemma classify_write_ready x n s ws indexes B :
  ready x n s B →
  wp (classify_write ws indexes)
    (λ c s', ready x n s' B ∧ table s' = table s ∧ (cow_start c = None → cow_srcs c = []))
    (λ _ s', ready x n s' B ∧ table s' = table s) s.
Proof.
  intros Hr. unfold classify_write.
  eapply wp_bind; [by apply flat_table_ready| |done]. intros visible s1 [Hr1 Ht1]. cbn zeta.
  eapply wp_bind; [by eapply calm_tbl; [exact Hr1|intros; apply get_calm]| |by intros e ? ->].
  intros len ? ->. case_decide; [done|]. case_match; [done|].
  eapply wp_bind; [eapply classify_loop_calm; [exact Hr1|]| |by intros e ? ->].
  { apply Forall_forall. by intros i [? _]%list_elem_of_filter. }
  intros [ip cow] ? ->. simpl. by destruct cow.
Qed.

Lemma zip_expect_spec {A C D} (f : A → C → D) (l : list A) (ids : list C) :
  length l ≤ length ids →
  zip_expect f l ids = Some (zip_with f l ids, drop (length l) ids).
Proof.
  revert ids. induction l as [|a l IH]; intros [|id ids]; simpl; try done; [lia|].
  intros Hl. by rewrite IH by lia.
Qed.

(** The page a target takes from the allocation. *)
Definition moved_dst (t : PreparedTarget) : option PhysicalKvPageId :=
  match t with Cow _ _ dst | Fresh _ dst => Some dst | InPlace _ _ => None end.

Lemma omap_zip_with_all {A C} (f : A → C → PreparedTarget) (l : list A) (ids : list C) (g : C → PhysicalKvPageId) :
  (∀ a c, moved_dst (f a c) = Some (g c)) → length l ≤ length ids →
  omap moved_dst (zip_with f l ids) = g <$> take (length l) ids.
Proof.
  intros Hf. revert ids. induction l as [|a l IH]; intros [|c ids]; simpl; try done.
  intros Hl%le_S_n. rewrite Hf. simpl. by rewrite IH by lia.
Qed.

Lemma write_targets_spec c allocated :
  length allocated = required_pages c → (cow_start c = None → cow_srcs c = []) →
  ∃ ts, write_targets c allocated = Some ts ∧ omap moved_dst ts = allocated.
Proof.
  unfold required_pages. intros Hl Hnone. unfold write_targets.
  assert (Hin : omap moved_dst ((λ p, InPlace p.1 p.2) <$> in_place c) = []).
  { induction (in_place c) as [|p l IH]; [done|]. exact IH. }
  destruct (cow_start c) as [cs|].
  - rewrite zip_expect_spec by (rewrite length_imap; lia). rewrite length_imap.
    rewrite zip_expect_spec by (rewrite length_drop; lia). eexists. split; [done|].
    rewrite !omap_app, Hin.
    rewrite (omap_zip_with_all _ _ _ id) by (try done; rewrite length_imap; lia).
    rewrite (omap_zip_with_all _ _ _ id) by (try done; rewrite length_drop; lia).
    rewrite !list_fmap_id, length_imap. simpl.
    rewrite (take_ge (drop _ _)) by (rewrite length_drop; lia). apply take_drop.
  - rewrite Hnone in Hl by done. simpl in Hl.
    rewrite zip_expect_spec by lia. eexists. split; [done|].
    rewrite !omap_app, Hin. simpl.
    rewrite (omap_zip_with_all _ _ _ id) by (try done; lia).
    rewrite list_fmap_id, take_ge by lia. done.
Qed.

(** The pages of a prepared write: the ones its targets move in. *)
Definition write_ok (w : KvPreparedWrite) : Prop := omap moved_dst (targets w) = allocated w.

Lemma prepare_write_ready x n s g ws indexes B :
  granted x n B (s, g) →
  wp (prepare_write_reserved ws indexes)
    (λ w p, granted x n ((Resident <$> allocated w) ++ B) p ∧ write_ok w ∧ write_ws w = ws)
    (λ _, granted x n B) (s, g).
Proof.
  intros Hr. unfold prepare_write_reserved. apply wp_then, wp_with_grant.
  eapply wp_mono; [by apply classify_write_ready| |by intros e s' [? _]].
  intros c s1 (Hr1 & Ht1 & Hc). apply wp_then.
  destruct (decide (length g < required_pages c)) as [Hlt|Hge].
  { unfold wp, draw. simpl. rewrite decide_True by done. exact Hr1. }
  apply wp_draw; [lia|]. pose proof (granted_draw x n B s1 (required_pages c) g Hr1) as Hd.
  apply wp_with_grant. unfold finish_prepare_write.
  destruct (write_targets_spec c (take (required_pages c) g)) as (ts & Hts & Hok); [rewrite length_take; lia|done|].
  apply wp_then. eapply wp_expect; [exact Hts|]. apply wp_then, wp_modify, wp_then, wp_get, wp_ok.
  split_and!; [|done|done]. unfold granted. simpl.
  eapply ready_perm; [|eapply (ready_other x n s1); [exact Hd|done..]]. solve_perm.
Qed.

Lemma cancel_prepared_off w : leaves table (cancel_prepared w : sm unit).
Proof.
  unfold cancel_prepared, recycle_pages. apply leaves_then; [by apply leaves_modify|]. intros _.
  apply leaves_then; [by apply leaves_modify|]. intros _. apply retire_idle_off.
Qed.

Lemma cancel_prepared_ready x n s w B :
  ready x n s ((Resident <$> allocated w) ++ B) →
  wp (cancel_prepared w) (λ _ s', ready x n s' B) (λ _ _, False) s.
Proof.
  intros Hr. unfold cancel_prepared.
  eapply wp_bind; [by apply recycle_pages_ready| |done]. intros [] s1 Hr1.
  apply wp_then, wp_modify. eapply retire_idle_ready, ready_other; [exact Hr1|done..].
Qed.

Lemma settle_ready x n s k B :
  ready x n s B → wp (settle k) (λ _ s', ready x n s' B) (λ _ _, False) s.
Proof.
  intros Hr. unfold settle. apply wp_then, wp_modify. eapply retire_idle_ready, ready_other; [exact Hr|done..].
Qed.

(** ** Publishing a write *)

(** What is still true of the working set of a prepared write when it is
    published: the pages it wrote in place are mapped, the rest go where they
    were to go, and the reservation holds them. *)
Definition publishable s (w : KvPreparedWrite) : Prop :=
  ∃ e, wm (table s) !! write_ws w = Some e ∧
    (∀ i dst, InPlace i dst ∈ targets w → i < mapped_len e) ∧
    match write_cow_start w with
    | Some cs => cs ≤ mapped_len e ∧ cs + length (allocated w) ≤ page_len e
    | None => mapped_len e + length (allocated w) ≤ page_len e
    end.

(** From where on a write changes what the set maps. *)
Definition write_cut (w : KvPreparedWrite) (v : list cell) : nat :=
  match write_cow_start w with Some cs => cs | None => length v end.

Lemma recycle_backings_flat bs epoch :
  leaves (λ s : store, (table s, flat s)) (recycle_backings bs epoch : sm unit).
Proof. unfold recycle_backings, recycle_pages, release_swapped, release_host, release_disk. leave. Qed.

Lemma commit_in_place_sure x n s ws e i th ph B :
  ready x n s B → wm (table s) !! ws = Some e → i < mapped_len e →
  wp (tbl (commit_in_place ws i th ph))
    (λ _ s', ready x n s' B ∧ all_kept (table s) (table s')) (λ _ _, False) s.
Proof.
  intros Hr He Hi. pose proof (rd_table _ _ _ _ Hr) as Hset. apply wp_tbl.
  destruct (settled_maps _ _ _ Hset He) as [v Hv].
  pose proof (commit_in_place_ok (table s) ws e v i (th, ph) Hset He Hv) as Hc.
  destruct Hv as [_ Hl]. destruct (lookup_lt_is_Some_2 v i) as [y Hy]; [lia|]. rewrite Hy in Hc.
  destruct Hc as (t' & Hc & Hst & _). eapply wp_ret; [exact Hc|].
  destruct (still_sets (table s) t' Hst) as [Htr Hro].
  { eapply leaves_holds; [apply commit_in_place_leaves|exact Hc]. }
  split; [|split; apply Hst]. apply (ready_sets x n n s t' [] []); [done..|by apply Hro, Hr|done].
Qed.

(** Where pages land: after the first [cut] the set maps, and nowhere else. *)
Definition lands t t' (ws : WorkingSetId) (cut : list cell → nat) (ids : list PhysicalKvPageId) : Prop :=
  (∀ v, mapped t ws v → ∃ new, mapped t' ws (take (cut v) v ++ new) ∧ new.*2 = Resident <$> ids) ∧
  (∀ ws' v, ws' ≠ ws → mapped t ws' v → mapped t' ws' v).

Lemma others_mapped t t' ws ws' v : others_kept t t' ws → ws' ≠ ws → mapped t ws' v → mapped t' ws' v.
Proof. intros Ho Hne (e & He & Hv). exists e. by apply (oth_sets _ _ _ Ho). Qed.

Lemma lands_kept t t1 t2 ws cut ids : all_kept t t1 → lands t1 t2 ws cut ids → lands t t2 ws cut ids.
Proof. intros [_ Hk] [H1 H2]. split; [intros v Hv; by apply H1, Hk|intros ws' v Hne Hv; by apply H2, Hk]. Qed.

Lemma publish_sure x n s ws e ps B :
  ready x (S n) s ((Resident ∘ pp_id <$> ps) ++ B) → wm (table s) !! ws = Some e →
  mapped_len e + length ps ≤ page_len e →
  wp (tbl (publish_appended ws ps))
    (λ _ s', ready x n s' B ∧ lands (table s) (table s') ws length (pp_id <$> ps)) (λ _ _, False) s.
Proof.
  intros Hr He Hlen. pose proof (rd_table _ _ _ _ Hr) as Hset. apply wp_tbl.
  destruct (settled_maps _ _ _ Hset He) as [v Hv].
  assert (Hroom : room (table s) (S n) n) by (eapply room_le; [| |apply Hr]; lia).
  destruct (publish_ok (table s) ws e v ps n n Hset He Hv Hroom Hlen) as (t' & new & Hp & Hpb & Hnew & _).
  pose proof (publish_wp (table s) ws ps n n Hset Hroom) as Hw. unfold wp in *. rewrite Hp in *.
  destruct Hw as [Htr Hro]. split.
  2: { split; [|intros ws' w Hne; eapply others_mapped; [apply Hpb|done]].
    intros w (e' & He' & [Hw Hlw]). simplify_eq. destruct Hv as [Hv Hlv]. rewrite (view_fun _ _ _ _ Hw Hv).
    exists new. rewrite firstn_all. split; [apply Hpb|]. by rewrite Hnew, list_fmap_compose. }
  apply (ready_sets x (S n) n s t' (Resident ∘ pp_id <$> ps) []); [done..|lia].
Qed.

Lemma replace_sure x n s ws e from ps B :
  ready x (S (S n)) s ((Resident ∘ pp_id <$> ps) ++ B) → wm (table s) !! ws = Some e →
  from ≤ mapped_len e → from + length ps ≤ page_len e →
  wp (tbl (replace_tail ws from ps))
    (λ out s', ready x n s' (out ++ B) ∧ lands (table s) (table s') ws (λ _, from) (pp_id <$> ps)) (λ _ _, False) s.
Proof.
  intros Hr He Hf Hlen. pose proof (rd_table _ _ _ _ Hr) as Hset. apply wp_tbl.
  destruct (settled_maps _ _ _ Hset He) as [v Hv].
  assert (Hroom : room (table s) (S (S n)) n) by (eapply room_le; [| |apply Hr]; lia).
  destruct (replace_ok (table s) ws e v from ps n n Hset He Hv Hroom Hf Hlen) as (t' & gone & new & Hp & _ & Hm & Hnew & Ho & _).
  pose proof (replace_wp (table s) ws from ps n n Hset Hroom) as Hw. unfold wp in *. rewrite Hp in *.
  destruct Hw as [Htr Hro]. split.
  2: { split; [|intros ws' w Hne; by eapply others_mapped].
    intros w (e' & He' & [Hw Hlw]). simplify_eq. destruct Hv as [Hv Hlv]. rewrite (view_fun _ _ _ _ Hw Hv).
    exists new. split; [done|]. by rewrite Hnew, list_fmap_compose. }
  apply (ready_sets x (S (S n)) n s t' (Resident ∘ pp_id <$> ps) gone.*2); [done..|lia].
Qed.

(** The pages a publication moves are the ones that were allocated. *)
Lemma moved_pages (ts : list PreparedTarget) (cs : list PageCommit) :
  length cs = length ts →
  pp_id <$> omap (λ p : PreparedTarget * PageCommit, moved_page p.1 p.2) (zip ts cs) = omap moved_dst ts.
Proof.
  revert cs. induction ts as [|t ts IH]; intros [|c cs]; simpl; try done.
  intros [= Hl]. destruct t; simpl; rewrite ?IH by done; done.
Qed.

Lemma publish_prepared_ready x n s w commits B :
  ready x (S (S n)) s ((Resident <$> allocated w) ++ B) → write_ok w → publishable s w →
  wp (publish_prepared w commits)
    (λ k s', ready x n s' B ∧ length commits = length (targets w) ∧ k = write_seq w ∧ lands (table s) (table s') (write_ws w) (write_cut w) (allocated w) ∧
      (existsb changes_mapping (targets w) = true →
       flat s' !! write_ws w = Some (flat_of (table s') (write_ws w))))
    (λ e s', ready x n s' B ∧ length commits ≠ length (targets w) ∧ e = CommitMismatch ∧ table s' = table s) s.
Proof.
  intros Hr Hw (e & He & Hip & Hlen). unfold publish_prepared. case_decide as Hc.
  { eapply wp_bind; [apply (wp_leaves table); [apply cancel_prepared_off|by apply cancel_prepared_ready]| |done].
    intros [] s1 [Hr1 Ht1]. apply wp_err. split_and!; [|done..]. by eapply ready_le; [|exact Hr1]; lia. }
  set (both := zip (targets w) commits).
  set (I := λ (l : list (PreparedTarget * PageCommit)) s', ready x (S (S n)) s' ((Resident <$> allocated w) ++ B) ∧
    all_kept (table s) (table s') ∧ ∀ p, p ∈ l → p.1 ∈ targets w).
  eapply (wp_bind _ _ (λ _, I []) (λ _ _, False)); [apply (wp_for _ I)| |done].
  { intros [[i dst|i dst|i src dst] c] l s1 (Hr1 & Hw1 & Hl); cbn [fst snd].
    1, 3: apply wp_ok; split_and!; [done..|]; intros p Hp; apply Hl; by right.
    eapply wp_mono; [eapply commit_in_place_sure; [exact Hr1|by rewrite (proj1 Hw1)|]| |done].
    - apply (Hip i dst). apply (Hl (InPlace i dst, c)). by left.
    - intros [] s2 [Hr2 Hw2]. split_and!; [done|by eapply all_kept_trans|]. intros p Hp. apply Hl. by right. }
  { split_and!; [done|by split|]. intros [t c] Hp. unfold both in Hp. by apply elem_of_zip_l in Hp. }
  intros [] s1 (Hr1 & Hw1 & _).
  set (pages := omap (λ p : PreparedTarget * PageCommit, moved_page p.1 p.2) both).
  assert (Hpages : pp_id <$> pages = allocated w) by (unfold pages, both; by rewrite moved_pages, Hw).
  assert (Hplen : length pages = length (allocated w)) by by rewrite <-Hpages, length_fmap.
  assert (He1 : wm (table s1) !! write_ws w = Some e) by by rewrite (proj1 Hw1).
  rewrite <-Hpages, <-list_fmap_compose in Hr1.
  eapply (wp_bind _ _ (λ freed s', ready x n s' (freed ++ B) ∧
    lands (table s) (table s') (write_ws w) (write_cut w) (allocated w)) (λ _ _, False)); [| |done].
  { rewrite <-Hpages. unfold write_cut. destruct (write_cow_start w) as [cs|].
    - destruct Hlen. eapply wp_mono; [apply (replace_sure x n s1 (write_ws w) e cs pages); [done..|lia]| |done].
      intros out s2 [Hr2 Hl2]. split; [done|]. by eapply lands_kept.
    - case_decide as Hnil.
      + apply wp_ok. rewrite Hnil in Hr1 |- *. split; [by eapply ready_le; [|exact Hr1]; lia|].
        eapply lands_kept; [exact Hw1|]. split; [|done]. intros v Hv. exists []. by rewrite firstn_all, app_nil_r.
      + eapply wp_bind; [apply (publish_sure x n s1 (write_ws w) e pages B); [|done|lia]| |done].
        * by eapply ready_le; [|exact Hr1]; lia.
        * intros [] s2 [Hr2 Hl2]. apply wp_ok. split; [done|]. by eapply lands_kept. }
  intros freed s2 [Hr2 Hl2].
  eapply (wp_bind _ _ (λ _ s', ready x n s' (freed ++ B) ∧ table s' = table s2 ∧
    (existsb changes_mapping (targets w) = true →
       flat s' !! write_ws w = Some (flat_of (table s2) (write_ws w)))) (λ _ _, False)); [| |done].
  { destruct (existsb changes_mapping (targets w)); [|by apply wp_ok].
    eapply wp_ret; [apply refresh_flat_step, Hr2|]. split_and!; [by eapply ready_other|done|].
    intros _. apply lookup_insert_eq. }
  intros [] s3 (Hr3 & Ht3 & Hf3). rewrite <-Ht3 in Hl2, Hf3.
  eapply wp_bind; [apply (wp_leaves (λ s : store, (table s, flat s))); [apply recycle_backings_flat|by apply recycle_backings_ready]| |done].
  intros [] s4 [Hr4 [= Ht4 Hf4]]. apply wp_ok. rewrite Ht4, Hf4. by split_and!.
Qed.
End writes.
End KvWrites.
