(* ===== verification/KvSeal.v ===== *)
(** Content keys and hits keep the books: sealing rows, folding a working set into
    sealed pages, and attaching it to a cached run. *)
From S2P Require Import Prelude Ids Store Pool Runs KvTable KvOps KvMove KvTrie KvChange KvSpec KvInv.
From S2P Require Import KvRead KvState KvPath KvProps KvFree KvHold KvQuery KvCommit KvCalls KvFrame.
From S2P Require Import KvLocate KvReads Hoare KvLedger KvImport KvHash KvStore KvBooks KvKeep KvReclaim.
From S2P Require Import KvWrites.

Module KvSeal.
Import KvHash KvStore Runs KvTable KvOps KvMove KvTrie KvChange KvSpec KvInv KvRead KvState KvPath KvProps
  KvFree KvHold KvQuery KvCommit KvCalls KvFrame KvLocate KvReads KvLedger KvImport KvBooks KvKeep KvReclaim
  KvWrites.

(** ** The slots of a page *)

Lemma set_slots_some start page from to (slots : list Hash256) hashes :
  (0 < page)%N → (start ≤ from)%N → (to ≤ start + N.of_nat (length slots))%N →
  N.to_nat page ≤ length hashes → is_Some (set_slots start page from to slots hashes).
Proof.
  intros Hp Hf Ht. unfold set_slots.
  assert (Hl : ∀ k, k ∈ List.seq (N.to_nat from) (N.to_nat (to - from)) →
    (start ≤ N.of_nat k < start + N.of_nat (length slots))%N).
  { intros k Hk%elem_of_seq. lia. }
  induction (List.seq (N.to_nat from) (N.to_nat (to - from))) as [|k l IH] in hashes, Hl |- *; intros Hh;
    [by eexists|].
  simpl. destruct (lookup_lt_is_Some_2 slots (N.to_nat (N.of_nat k - start))) as [slot ->].
  { specialize (Hl k ltac:(by left)). lia. }
  pose proof (N.mod_lt (N.of_nat k) page ltac:(lia)). rewrite decide_True by lia.
  apply IH; [intros j Hj; apply Hl; by right|by rewrite length_insert].
Qed.

Lemma length_resize n l : length (resize n l) = n.
Proof. unfold resize. rewrite length_app, length_take, length_replicate. lia. Qed.

Section seal.
Context {WS NS : Type → Type}.
Context `{!KeyedStore WorkingSetId WS, !KeyedStore NodeId NS}.
Context `{!KeyedStoreLaws WorkingSetId WS, !KeyedStoreLaws NodeId NS}.
Context (derive : Context_ → list N → Hash256).
Abbreviation store := (KvStore WS NS).
Abbreviation sm := (method store KvStoreError).
Implicit Types s : store.

(** A call that leaves the store as it was, whatever it answers. *)
Definition looks {A} (m : sm A) s : Prop := wp m (λ _ s', s' = s) (λ _ s', s' = s) s.

Lemma looks_ok {A} (a : A) s : looks (mok a) s.
Proof. done. Qed.
Lemma looks_then {A C} (m : sm A) (k : A → sm C) s :
  looks m s → (∀ a, looks (k a) s) → looks (mthen m k) s.
Proof. intros Hm Hk. eapply wp_bind; [exact Hm| |done]. intros a ? ->. apply Hk. Qed.
Lemma looks_expect {A} (o : option A) s : is_Some o → looks (mexpect o) s.
Proof. by intros [a ->]. Qed.
Lemma looks_tbl {A} (m : method (KvPageTable WS NS) KvTableError A) x n s B :
  ready x n s B → (inv (table s) → calm m (table s)) → looks (tbl m) s.
Proof. apply calm_tbl. Qed.

Section book.
Context x n s B (Hr : ready x n s B).

Lemma chain_root_looks ws start page : looks (KvStore.chain_root ws start page) s.
Proof.
  unfold KvStore.chain_root. cbn zeta. case_decide; [done|]. apply looks_then; [|done].
  eapply looks_tbl; [exact Hr|]. intros. by apply page_token_hashes_calm.
Qed.

Lemma seal_loop_looks ws start page slots indexes :
  (0 < page)%N →
  looks (seal_loop derive ws start page (start + N.of_nat (length slots)) slots indexes) s.
Proof.
  intros Hp. induction indexes as [|i indexes IH]; [done|]. cbn [seal_loop].
  apply looks_then; [eapply looks_tbl; [exact Hr|]; intros; by apply page_token_hashes_calm|].
  intros hashes. apply looks_then; [apply looks_expect, set_slots_some; [done|lia..|]|].
  { rewrite length_resize. lia. }
  intros hashes'. cbn zeta. apply looks_then; [apply IH|]. done.
Qed.

Lemma keys_loop_looks ws indexes : looks (keys_loop ws indexes) s.
Proof.
  induction indexes as [|i indexes IH]; [done|]. cbn [keys_loop].
  apply looks_then; [eapply looks_tbl; [exact Hr|]; intros; by apply page_hash_at_calm|].
  intros [key|]; [|done]. by apply looks_then.
Qed.

Lemma page_keys_looks ws start slots page : looks (page_keys derive ws start slots page) s.
Proof.
  unfold page_keys. cbn zeta. apply looks_then; [apply keys_loop_looks|]. intros [keys|]; [|done].
  case_decide; [done|].
  apply looks_then; [eapply looks_tbl; [exact Hr|]; intros; by apply page_token_hashes_calm|].
  intros held. by case_decide.
Qed.

Lemma seal_rows_ready ws start slots page_size :
  wp (seal_rows derive ws start slots page_size) (λ _ s', ready x n s' B) (λ _ s', ready x n s' B) s.
Proof.
  unfold seal_rows. cbn zeta. case_decide; [done|].
  eapply wp_bind; [apply seal_loop_looks; unfold page_of; lia| |by intros ? ? ->].
  intros pages ? ->. apply wp_then, wp_tbl. eapply wp_mono; [apply commit_hashes_wp, Hr| |].
  - intros [] t' [Htr Hro]. apply wp_ok. apply (ready_sets x n n s t' [] []); [done..|by apply Hro, Hr|done].
  - intros e t' ->. by rewrite set_table_id.
Qed.
End book.

Lemma slice_of_some a b (l : list N) : (a ≤ b)%N → (b ≤ N.of_nat (length l))%N → is_Some (slice_of a b l).
Proof. intros Ha Hb. unfold slice_of. rewrite decide_True by done. by eexists. Qed.

Lemma fold_ready x n s B ws to decoded :
  ready x n s B →
  wp (fold derive ws to decoded) (λ _ s', ready x n s' B) (λ _ s', ready x n s' B) s.
Proof.
  intros Hr0. unfold fold. eapply wp_bind; [by apply freeze_ready| |done]. intros folded s1 Hr.
  clear Hr0 s. rename s1 into s. apply wp_then, wp_get. cbn zeta. case_decide as Hz; [done|].
  eapply wp_bind; [by eapply calm_tbl; [exact Hr|intros; apply prefix_while_calm]| |by intros ? ? ->].
  intros sealed ? ->.
  eapply wp_bind; [by eapply calm_tbl; [exact Hr|intros; apply get_calm]| |by intros ? ? ->].
  intros logged ? ->.
  eapply wp_bind; [by eapply calm_tbl; [exact Hr|intros; apply get_calm]| |by intros ? ? ->].
  intros mapped ? ->.
  set (full := N.min (N.min (N.of_nat (length logged)) folded / page_size s) (N.of_nat mapped)).
  case_decide as Hfull; [done|].
  eapply wp_bind; [eapply chain_root_looks; exact Hr| |by intros ? ? ->]. intros prev ? ->.
  destruct prev as [prev|]; [|done].
  assert (Hb : (full * page_size s ≤ N.of_nat (length logged))%N).
  { transitivity (N.min (N.of_nat (length logged)) folded); [|lia].
    transitivity (N.min (N.of_nat (length logged)) folded / page_size s * page_size s)%N.
    - apply N.mul_le_mono_r. unfold full. lia.
    - rewrite N.mul_comm. by apply N.Div0.mul_div_le. }
  destruct (slice_of_some (N.of_nat sealed * page_size s) (full * page_size s) logged) as [tokens Htk];
    [apply N.mul_le_mono_r; lia|done|].
  apply wp_then. eapply wp_expect; [exact Htk|]. apply wp_then, wp_get.
  eapply wp_bind; [eapply seal_rows_ready; exact Hr| |done]. intros m s1 Hr1.
  eapply (wp_bind _ _ (λ _ s', ready x n s' B) (λ _ s', ready x n s' B)); [| |done].
  { destruct decoded; [by apply wp_ok|]. by apply reach_prompt_ready. }
  intros [] s2 Hr2. by apply wp_ok.
Qed.

(** ** Attaching to a run *)

Lemma resident_run_take (t : KvPageTable WS NS) run :
  Forall (λ l, settled_at t l = true) (take (resident_run t run) run).
Proof.
  unfold resident_run. induction run as [|l run IH]; simpl; [constructor|].
  destruct (settled_at t l) eqn:Hl; simpl; [by constructor|constructor].
Qed.

Lemma settled_at_owned (t : KvPageTable WS NS) l :
  sound t → settled_at t l = true →
  ∃ own, contrib (nm t) (loc_node l) = Some own ∧ loc_local l < length own.
Proof.
  intros Hs [_ Hb]%andb_true_iff. destruct (backing_at t l) as [b| |] eqn:Hl; [|done..].
  apply backing_at_spec in Hl as (e & bs & th & ph & He & Hp & Hx); [|done].
  exists (cells (loc_node l) bs). unfold contrib. rewrite He, Hp. split; [done|].
  rewrite length_cells. by eapply lookup_lt_Some.
Qed.

Lemma last_Forall {A} (P : A → Prop) (l : list A) a : Forall P l → last l = Some a → P a.
Proof. rewrite Forall_forall. intros HP Ha. apply HP. rewrite last_lookup in Ha. by eapply list_elem_of_lookup_2. Qed.

(** Touching changes the time of use alone. *)
Lemma touch_ready x n s B id e now :
  ready x n s B → cache s !! id = Some e →
  ready x n (set_cache s (<[id := mkKeptEntry (path e) (kept_owner e) now (decoded e)]> (cache s))) B.
Proof.
  intros [R1 R2 R3 R4 R5 R6 R7 R8 R9 R10] He. split; try done; simpl.
  - intros k. by rewrite (tally_update leased _ id e).
  - intros id' e' [[<- <-]|[_ He']]%lookup_insert_Some; [by apply (R6 id e)|by eapply R6].
  - intros o. by rewrite (tally_update kept_owner _ id e).
  - intros id' Hs. apply R8. destruct (decide (id' = id)) as [->|]; [by eexists|by rewrite lookup_insert_ne in Hs].
Qed.

Lemma touch_loop_ready x n B last len now entries : ∀ s,
  ready x n s B → NoDup entries.*1 → (∀ id e, (id, e) ∈ entries → cache s !! id = Some e) →
  wp (touch_loop last len now entries) (λ _ s', ready x n s' B) (λ _ _, False) s.
Proof.
  induction entries as [|[id e] entries IH]; intros s Hr Hnd Hin; [done|]. cbn [touch_loop].
  pose proof (rd_table _ _ _ _ Hr) as [[Hs [Hm _ _ _] _ _] _].
  apply NoDup_cons in Hnd as [Hid Hnd].
  destruct (within_some (table s) (kept_terminal (path e)) last len Hs Hm) as [used Hu].
  apply wp_then. eapply wp_tread; [exact Hu|]. apply wp_then. destruct used.
  - apply wp_modify. apply IH; [apply touch_ready; [done|apply Hin; by left]|done|].
    intros id' e' He'. simpl. rewrite lookup_insert_ne; [apply Hin; by right|].
    intros <-. apply Hid. by apply (list_elem_of_fmap_2 fst) in He'.
  - apply wp_ok, IH; [done..|]. intros id' e' He'. apply Hin. by right.
Qed.

Lemma attach_run_ready x n s B ws run limit page_size now :
  ready x (S n) s B →
  wp (attach_run ws run limit page_size now) (λ _ s', ready x n s' B) (λ _ s', ready x n s' B) s.
Proof.
  intros Hr. assert (Hr0 : ready x n s B) by (by eapply ready_le; [|exact Hr]; lia).
  pose proof (rd_table _ _ _ _ Hr) as Hset. pose proof Hset as [[Hs [Hm _ _ _] _ _] _].
  unfold attach_run.
  eapply wp_bind; [by eapply calm_tbl; [exact Hr|intros; apply get_calm]| |by intros ? ? ->].
  intros held ? ->. apply wp_then, wp_get. cbn zeta.
  set (run1 := take (resident_run (table s) (take (N.to_nat limit) run)) (take (N.to_nat limit) run)).
  assert (Hrun1 : Forall (λ l, settled_at (table s) l = true) run1) by apply resident_run_take.
  eapply (wp_bind _ _ (λ r s', s' = s ∧ Forall (λ l, settled_at (table s) l = true) r) (λ _ _, False));
    [| |done].
  { destruct (last run1) as [l|] eqn:Hl; [|by apply wp_ok].
    destruct (settled_at_owned (table s) l Hs (last_Forall _ _ _ Hrun1 Hl)) as (own & Ho & Hlt).
    destruct (contrib_live (table s) (loc_node l) Hm) as (own' & v & Ho' & Hv & _).
    { unfold contrib in Ho. by destruct (nm (table s) !! loc_node l). }
    simplify_eq. apply wp_then. eapply wp_tread; [by eapply path_locations_spec|].
    apply wp_ok. split; [done|]. by apply Forall_take. }
  intros run2 ? [-> Hrun2]. destruct (last run2) as [l|] eqn:Hl; [|by apply wp_ok].
  case_decide; [by apply wp_ok|].
  destruct (settled_at_owned (table s) l Hs (last_Forall _ _ _ Hrun2 Hl)) as (own & Ho & Hlt).
  destruct (path_prefix_len_some (table s) (loc_node l) (loc_local l) Hs Hm) as [len Hlen].
  { unfold contrib in Ho. by destruct (nm (table s) !! loc_node l). }
  apply wp_then. eapply wp_tread; [exact Hlen|]. case_decide; [by apply wp_ok|].
  eapply (wp_bind _ _ (λ _ s', ready x n s' B) (λ _ s', ready x n s' B)); [| |done].
  { apply wp_catch. apply wp_then, wp_tbl.
    eapply wp_mono; [apply (attach_wp (table s) ws (loc_node l) own (loc_local l) n n); [done| |done..]| |].
    - eapply room_le; [| |apply Hr]; lia.
    - intros k t' [Htr Hro]. apply wp_ok. apply (ready_sets x (S n) n s t' [] []); [done..|lia].
    - intros e t' ->. rewrite set_table_id. by destruct e. }
  intros done_ s1 Hr1. destruct done_; [|by apply wp_ok]. cbn [negb].
  eapply wp_bind; [by apply add_supplied_ready| |done]. intros k s2 Hr2; simpl in Hr2.
  eapply wp_bind; [by apply freeze_ready| |done]. intros k3 s3 Hr3; simpl in Hr3.
  eapply wp_bind; [by apply reach_prompt_ready| |done]. intros [] s4 Hr4; simpl in Hr4.
  eapply wp_bind; [by apply refresh_flat_ready| |done]. intros [] s5 [Hr5 _].
  apply wp_then, wp_get. eapply wp_bind; [apply touch_loop_ready; [done|apply NoDup_fst_map_to_list|]| |done].
  { intros id e. by rewrite elem_of_map_to_list. }
  intros [] s6 Hr6. by apply wp_ok.
Qed.
End seal.
End KvSeal.
