(* ===== verification/KvTransfer.v ===== *)
(** Moves between the tiers keep the books: a move out lends the slots it takes, a
    move in the pages it was granted, and both come back whichever way it ends. *)
From S2P Require Import Prelude Ids Store Pool Runs KvTable KvOps KvMove KvTrie KvChange KvSpec KvInv.
From S2P Require Import KvRead KvState KvPath KvProps KvFree KvHold KvQuery KvCommit KvCalls KvFrame.
From S2P Require Import KvLocate KvReads Hoare KvLedger KvImport KvHash KvStore KvBooks KvKeep KvReclaim.
From S2P Require Import KvWrites.

Module KvTransfer.
Import KvHash KvStore Runs KvTable KvOps KvMove KvTrie KvChange KvSpec KvInv KvRead KvState KvPath KvProps
  KvFree KvHold KvQuery KvCommit KvCalls KvFrame KvLocate KvReads KvLedger KvImport KvBooks KvKeep KvReclaim
  KvWrites.

(** A move: no page twice, and a slot for each. *)
Definition txn_ok (txn : KvResidencyTxn) : Prop :=
  NoDup (location <$> txn_pages txn) ∧ Forall (λ p, device_page (swapped p) = None) (txn_pages txn).

Lemma slots_of (pages : list SwapPage) :
  Forall (λ b, device_page b = None) (swapped <$> pages) → Forall (λ p, device_page (swapped p) = None) pages.
Proof. by rewrite Forall_fmap. Qed.

(** What a move holds until it ends. *)
Definition out_lent (txn : KvResidencyTxn) : list KvPageBacking := swapped <$> txn_pages txn.
Definition in_lent (txn : KvResidencyTxn) : list KvPageBacking := Resident ∘ gpu_id <$> txn_pages txn.

Lemma txn_slots txn : txn_ok txn → Forall (λ b, device_page b = None) (out_lent txn).
Proof. intros [_ Hs]. by apply Forall_fmap. Qed.

Section transfer.
Context {WS NS : Type → Type}.
Context `{!KeyedStore WorkingSetId WS, !KeyedStore NodeId NS}.
Context `{!KeyedStoreLaws WorkingSetId WS, !KeyedStoreLaws NodeId NS}.
Abbreviation store := (KvStore WS NS).
Abbreviation sm := (method store KvStoreError).
Abbreviation gm := (method (store * list PhysicalKvPageId) KvStoreError).
Implicit Types s : store.

(** What is mapped stays mapped. *)
Definition maps_on s s' : Prop := ∀ ws v, mapped (table s) ws v → mapped (table s') ws v.

Lemma maps_on_trans s1 s2 s3 : maps_on s1 s2 → maps_on s2 s3 → maps_on s1 s3.
Proof. unfold maps_on. auto. Qed.
Lemma maps_on_table s s' : table s' = table s → maps_on s s'.
Proof. unfold maps_on. by intros ->. Qed.
Lemma maps_on_steady s t' out : steady (table s) t' out → maps_on s (set_table s t').
Proof. intros Hst. exact (proj2 (sd_kept _ _ _ Hst)). Qed.

(** What is mapped stays mapped, with these backings in the place of the old. *)
Definition remaps s s' (rs : list (TriePageLocation * KvPageBacking * KvPageBacking)) : Prop :=
  ∀ ws v, mapped (table s) ws v → mapped (table s') ws (put_cells rs <$> v).

(** ** The steps of a move *)

Lemma replace_backings_ready x n s rs B :
  ready x n s (rs.*2 ++ B) → NoDup (rs.*1.*1 : list TriePageLocation) →
  wp (tbl (replace_backings rs)) (λ _ s', ready x n s' (rs.*1.*2 ++ B) ∧ remaps s s' rs) (λ _ s', s' = s) s.
Proof.
  intros Hr Hnd. apply wp_tbl. eapply wp_mono; [apply replace_backings_wp; [apply Hr|done]| |].
  - intros [] t' (Htr & Hro & Hm). split; [|done]. by apply (ready_sets x n n s t' rs.*2 rs.*1.*2); [| |apply Hro, Hr|].
  - intros e t' ->. apply set_table_id.
Qed.

Lemma unpin_move_ready x n s txn B :
  ready x n s B →
  wp (unpin_move txn) (λ out s', ready x n s' (out ++ B) ∧ maps_on s s') (λ _ _, False) s.
Proof.
  intros Hr. unfold unpin_move. apply wp_then, wp_tbl.
  eapply wp_mono; [apply unpin_terminals_wp, Hr| |done]. intros o1 t1 [Hs1 _].
  pose proof (ready_steady _ _ _ _ _ _ Hr Hs1) as Hr1. apply wp_then, wp_tbl.
  eapply wp_mono; [apply unpin_swap_wp, Hr1| |done]. intros o2 t2 [Hs2 _]. apply wp_ok. split.
  - eapply ready_perm; [|by eapply ready_steady]. solve_perm.
  - eapply maps_on_trans; [by eapply maps_on_steady|by apply (maps_on_steady (set_table s t1) t2 o2)].
Qed.

Lemma end_move_off out : leaves table (end_move out : sm unit).
Proof.
  unfold end_move. apply leaves_then; [done|]. intros s.
  apply leaves_then; [apply recycle_backings_off|]. intros _. apply retire_idle_off.
Qed.

Lemma end_move_ready x n s out B :
  ready x n s (out ++ B) → wp (end_move out) (λ _ s', ready x n s' B ∧ maps_on s s') (λ _ _, False) s.
Proof.
  intros Hr. eapply wp_mono; [apply (wp_leaves table _ (λ _ s', ready x n s' B) (λ _ _, False)); [apply end_move_off|]| |done].
  - unfold end_move. apply wp_then, wp_get.
    eapply wp_bind; [by apply recycle_backings_ready| |done]. intros [] s1 Hr1. by apply retire_idle_ready.
  - intros [] s' [Hr' Ht']. split; [exact Hr'|by apply maps_on_table].
Qed.

Lemma set_suspended_ready x n s group b B :
  ready x n s B →
  wp (tbl (set_suspended group b)) (λ _ s', ready x n s' B ∧ maps_on s s') (λ _ _, False) s.
Proof.
  intros Hr. apply wp_tbl. eapply wp_mono; [apply set_suspended_wp, Hr| |done].
  intros [] t' Ht. split; [by apply ready_noted|]. by destruct Ht as (_ & _ & _ & _ & Hm).
Qed.

Lemma refresh_all_ready x n group s B :
  ready x n s B → wp (mfor group refresh_flat) (λ _ s', ready x n s' B ∧ maps_on s s') (λ _ _, False) s.
Proof.
  intros Hr. apply (wp_for _ (λ _ s', ready x n s' B ∧ maps_on s s')); [|by split; [|apply maps_on_table]].
  intros ws l s1 [Hr1 Hm1]. eapply wp_mono; [by apply refresh_flat_ready| |done].
  intros [] s2 [Hr2 Ht2]. split; [done|]. eapply maps_on_trans; [exact Hm1|by apply maps_on_table].
Qed.

Lemma pin_swap_ready x n s ls B :
  ready x n s B → NoDup ls → (∀ l, l ∈ ls → l ∉ swap_locations (table s)) →
  wp (tbl (pin_swap_locations ls)) (λ _ s', ready x n s' B ∧ maps_on s s') (λ _ _, False) s.
Proof.
  intros Hr Hnd Hl. apply wp_tbl. eapply wp_mono; [by apply pin_swap_wp; [apply Hr|..]| |done].
  intros [] t' [Hs _]. split; [by apply (ready_steady x n s t' [])|by eapply maps_on_steady].
Qed.

(** ** The ends of a move *)

Lemma abort_suspend_ready x n s txn B :
  ready x n s (out_lent txn ++ B) → txn_ok txn →
  wp (abort_suspend txn) (λ _ s', ready x n s' B) (λ _ _, False) s.
Proof.
  intros Hr Hok. unfold abort_suspend.
  eapply wp_bind; [by apply unpin_move_ready| |done]. intros out s1 [Hr1 _].
  eapply wp_bind; [apply (release_swapped_ready x n s1 _ (out ++ B))| |done].
  - by apply txn_slots.
  - eapply ready_perm; [|exact Hr1]. unfold out_lent. solve_perm.
  - intros [] s2 Hr2; simpl in Hr2. eapply wp_mono; [by apply end_move_ready|by intros [] s3 [? _]|done].
Qed.

Lemma abort_restore_ready x n s txn B :
  ready x n s (in_lent txn ++ B) →
  wp (abort_restore txn) (λ _ s', ready x n s' B) (λ _ _, False) s.
Proof.
  intros Hr. unfold abort_restore.
  eapply wp_bind; [by apply unpin_move_ready| |done]. intros out s1 [Hr1 _].
  eapply wp_bind; [apply (release_pages_ready x n s1 _ (out ++ B))| |done].
  - eapply ready_perm; [|exact Hr1]. unfold in_lent. rewrite <-list_fmap_compose. solve_perm.
  - intros [] s2 Hr2; simpl in Hr2. eapply wp_mono; [by apply end_move_ready|by intros [] s3 [? _]|done].
Qed.

(** What the commits write. *)
Definition out_writes (txn : KvResidencyTxn) : list (TriePageLocation * KvPageBacking * KvPageBacking) :=
  (λ p, (location p, Resident (gpu_id p), swapped p)) <$> txn_pages txn.
Definition in_writes (txn : KvResidencyTxn) : list (TriePageLocation * KvPageBacking * KvPageBacking) :=
  (λ p, (location p, swapped p, Resident (gpu_id p))) <$> txn_pages txn.

Lemma out_writes_parts txn :
  (out_writes txn).*1.*1 = location <$> txn_pages txn ∧ (out_writes txn).*1.*2 = in_lent txn ∧
  (out_writes txn).*2 = out_lent txn.
Proof. unfold out_writes, in_lent, out_lent. by rewrite <-!list_fmap_compose. Qed.
Lemma in_writes_parts txn :
  (in_writes txn).*1.*1 = location <$> txn_pages txn ∧ (in_writes txn).*1.*2 = out_lent txn ∧
  (in_writes txn).*2 = in_lent txn.
Proof. unfold in_writes, in_lent, out_lent. by rewrite <-!list_fmap_compose. Qed.

(** A commit once its backings are written: the sets are marked, the pins go and
    the flat tables are made anew. *)
Lemma settle_move_ready {A} x n s txn b B (k : list KvPageBacking → sm A) Q :
  ready x n s B →
  (∀ out s', ready x n s' (out ++ B) → maps_on s s' → wp (k out) Q (λ _ _, False) s') →
  wp (tbl (set_suspended (txn_sets txn) b) ;;; freed ⇐ unpin_move txn ;;
      mfor (elements (txn_sets txn)) refresh_flat ;;; k freed) Q (λ _ _, False) s.
Proof.
  intros Hr Hk. eapply wp_bind; [by apply set_suspended_ready| |done]. intros [] s1 [Hr1 Hm1].
  eapply wp_bind; [by apply unpin_move_ready| |done]. intros out s2 [Hr2 Hm2].
  eapply wp_bind; [by apply refresh_all_ready| |done]. intros [] s3 [Hr3 Hm3].
  apply Hk; [done|]. eapply maps_on_trans; [exact Hm1|]. by eapply maps_on_trans.
Qed.

Lemma remaps_on s s1 s2 rs : remaps s s1 rs → maps_on s1 s2 → remaps s s2 rs.
Proof. intros Hr Hm ws v Hv. by apply Hm, Hr. Qed.

Lemma recycle_pages_off ids epoch : leaves table (recycle_pages ids epoch : sm unit).
Proof. unfold recycle_pages. leave. Qed.
Lemma release_swapped_off bs : leaves table (release_swapped bs : sm unit).
Proof. unfold release_swapped, release_host, release_disk. leave. Qed.

Lemma commit_suspend_ready x n s txn B :
  ready x n s (out_lent txn ++ B) → txn_ok txn →
  wp (commit_suspend txn) (λ k s', k = page_count txn ∧ ready x n s' B ∧ remaps s s' (out_writes txn))
    (λ _ s', ready x n s' B) s.
Proof.
  intros Hr Hok. unfold commit_suspend. destruct (out_writes_parts txn) as (H11 & H12 & H2).
  fold (out_writes txn).
  eapply (wp_bind _ _ (λ _ s', ready x n s' (in_lent txn ++ B) ∧ remaps s s' (out_writes txn))
    (λ _ s', ready x n s' B)); [| |done].
  { apply wp_catch. rewrite <-H2 in Hr.
    eapply wp_mono; [apply (replace_backings_ready x n s _ B Hr); rewrite H11; apply Hok| |].
    - intros [] s1 Hr1. by rewrite <-H12.
    - intros e ? ->. rewrite H2 in Hr.
      eapply wp_bind; [by apply abort_suspend_ready| |done]. intros [] s1 Hr1. by apply wp_err. }
  intros [] s1 [Hr1 Hm1]. eapply wp_mono; [apply (settle_move_ready x n s1 txn _ _ _
    (λ k s', k = page_count txn ∧ ready x n s' B ∧ remaps s s' (out_writes txn)) Hr1)|done|done].
  intros out s4 Hr4 Hm4. apply wp_then, wp_get.
  eapply wp_bind; [apply (wp_leaves table); [apply recycle_pages_off|
    apply (recycle_pages_ready x n s4 _ _ (out ++ B))]| |done].
  { eapply ready_perm; [|exact Hr4]. unfold in_lent. rewrite <-list_fmap_compose. solve_perm. }
  intros [] s5 [Hr5 Ht5].
  eapply wp_bind; [by apply end_move_ready| |done]. intros [] s6 [Hr6 Hm6]. apply wp_ok. split_and!; [done..|].
  eapply remaps_on; [exact Hm1|]. eapply maps_on_trans; [exact Hm4|].
  eapply maps_on_trans; [by apply maps_on_table|exact Hm6].
Qed.

Lemma commit_restore_ready x n s txn B :
  ready x n s (in_lent txn ++ B) → txn_ok txn →
  wp (commit_restore txn) (λ k s', k = page_count txn ∧ ready x n s' B ∧ remaps s s' (in_writes txn))
    (λ _ s', ready x n s' B) s.
Proof.
  intros Hr Hok. unfold commit_restore. destruct (in_writes_parts txn) as (H11 & H12 & H2).
  fold (in_writes txn).
  eapply (wp_bind _ _ (λ _ s', ready x n s' (out_lent txn ++ B) ∧ remaps s s' (in_writes txn))
    (λ _ s', ready x n s' B)); [| |done].
  { apply wp_catch. rewrite <-H2 in Hr.
    eapply wp_mono; [apply (replace_backings_ready x n s _ B Hr); rewrite H11; apply Hok| |].
    - intros [] s1 Hr1. by rewrite <-H12.
    - intros e ? ->. rewrite H2 in Hr.
      eapply wp_bind; [by apply abort_restore_ready| |done]. intros [] s1 Hr1. by apply wp_err. }
  intros [] s1 [Hr1 Hm1]. eapply wp_mono; [apply (settle_move_ready x n s1 txn _ _ _
    (λ k s', k = page_count txn ∧ ready x n s' B ∧ remaps s s' (in_writes txn)) Hr1)|done|done].
  intros out s4 Hr4 Hm4.
  eapply wp_bind; [apply (wp_leaves table); [apply release_swapped_off|
    apply (release_swapped_ready x n s4 _ (out ++ B)); [by apply txn_slots|]]| |done].
  { eapply ready_perm; [|exact Hr4]. unfold out_lent. solve_perm. }
  intros [] s5 [Hr5 Ht5].
  eapply wp_bind; [by apply end_move_ready| |done]. intros [] s6 [Hr6 Hm6]. apply wp_ok. split_and!; [done..|].
  eapply remaps_on; [exact Hm1|]. eapply maps_on_trans; [exact Hm4|].
  eapply maps_on_trans; [by apply maps_on_table|exact Hm6].
Qed.

Lemma commit_promote_ready x n s txn B :
  ready x n s (in_lent txn ++ B) → txn_ok txn →
  wp (commit_promote txn) (λ pin s', pin = pinned txn ∧ ready x n s' B ∧ remaps s s' (in_writes txn))
    (λ _ s', ready x n s' B) s.
Proof.
  intros Hr Hok. unfold commit_promote. apply wp_catch.
  eapply wp_bind; [by apply (commit_restore_ready x n s (mkTxn (txn_sets txn) (txn_pages txn) []) B)| |].
  - intros k s1 (_ & Hr1 & Hm1). by apply wp_ok.
  - intros e s1 Hr1; simpl in Hr1.
    eapply wp_bind; [by apply release_reader_ready| |done]. intros [] s2 Hr2. by apply wp_err.
Qed.

(** ** Starting a move out *)

(** No page of the working sets [P] speaks of is in a move: what the code asserts
    of the pages it starts to move. *)
Definition idle s (P : WorkingSetId → WorkingSetEntry → Prop) : Prop :=
  ∀ ws e v l, wm (table s) !! ws = Some e → P ws e → mapped (table s) ws v → l ∈ v.*1 →
    l ∉ swap_locations (table s).

Lemma idle_spares s s' P : settled (table s) → spares s s' → idle s P → idle s' P.
Proof.
  intros Hset [[Hw Hm] Hl] Hi ws e v l He HP (e' & He' & Hv) Hin. rewrite Hl. rewrite Hw in He.
  destruct (settled_maps _ _ _ Hset He) as [v0 Hv0].
  destruct (Hm ws v0) as (e1 & He1 & Hv1); [by exists e|].
  assert (v0 = v) as ->.
  { rewrite Hw in He', He1. simplify_eq. destruct Hv1 as [Hv1 _], Hv as [Hv _]. by eapply view_fun. }
  eapply Hi; [done..|by exists e|done].
Qed.

Lemma length_zip_move {A C D} (f : A → C → D) (l : list A) (k : list C) :
  length l = length k → length (zip_with f l k) = length l.
Proof. intros Hl. rewrite length_zip_with. lia. Qed.

Lemma zip_out (pages : list (TriePageLocation * PhysicalKvPageId)) (slots : list KvPageBacking) :
  length pages = length slots →
  let l := zip_with (λ p b, mkSwap p.1 p.2 b) pages slots in
  location <$> l = pages.*1 ∧ swapped <$> l = slots ∧ ((λ p, (location p, gpu_id p)) <$> l) = pages.
Proof.
  revert slots. induction pages as [|[l i] pages IH]; intros [|b slots]; try done.
  intros [= Hl]. destruct (IH slots Hl) as (H1 & H2 & H3). simpl. split_and!; by f_equal.
Qed.

Lemma zip_in (below : list (TriePageLocation * KvPageBacking)) (ids : list PhysicalKvPageId) :
  length below = length ids →
  let l := zip_with (λ p id, mkSwap p.1 id p.2) below ids in
  location <$> l = below.*1 ∧ swapped <$> l = below.*2 ∧ gpu_id <$> l = ids.
Proof.
  revert ids. induction below as [|[l i] below IH]; intros [|b ids]; try done.
  intros [= Hl]. destruct (IH ids Hl) as (H1 & H2 & H3). simpl. split_and!; by f_equal.
Qed.

Lemma prepare_move_out_ready x n s group pages B :
  ready x n s B → NoDup pages.*1 → (∀ l id, (l, id) ∈ pages → l ∉ swap_locations (table s)) →
  length pages ≤ swap_available s →
  wp (prepare_move_out group pages)
    (λ txn s', ready x n s' (out_lent txn ++ B) ∧ txn_ok txn ∧ txn_sets txn = group ∧
      ((λ p, (location p, gpu_id p)) <$> txn_pages txn) = pages ∧ maps_on s s')
    (λ _ s', ready x n s' B) s.
Proof.
  intros Hr Hnd Hsw Hav. unfold prepare_move_out. apply wp_then, wp_get. cbn zeta.
  eapply wp_bind; [by apply alloc_host_ready| |done].
  intros [host|] s1 (Ht1 & Hd1 & H1); [|exfalso; destruct H1 as [_ H1]; lia].
  destruct H1 as [Hl1 Hr1]. apply wp_then, wp_ok.
  eapply wp_bind; [by apply alloc_disk_ready| |done].
  intros [disk|] s2 [Ht2 H2];
    [|exfalso; destruct H2 as [_ H2]; unfold swap_available, disk_swap_available, host_swap_available in *;
      rewrite Hd1 in H2; lia].
  destruct H2 as [Hl2 Hr2]. apply wp_then, wp_ok.
  set (slots := (Swapped <$> host) ++ (OnDisk <$> disk)).
  assert (Hslots : Forall (λ b, device_page b = None) slots).
  { apply Forall_app. split; by apply Forall_fmap, Forall_true. }
  assert (Hls : length pages = length slots).
  { unfold slots. rewrite length_app, !length_fmap. lia. }
  eapply (ready_perm _ _ _ _ (slots ++ B)) in Hr2; [|unfold slots; solve_perm].
  assert (Ht : table s2 = table s) by congruence. clear Ht1 Ht2.
  eapply (wp_bind _ _ (λ _ s', ready x n s' (slots ++ B) ∧ swap_locations (table s') = swap_locations (table s) ∧ maps_on s s')
    (λ _ s', ready x n s' B)); [| |done].
  { apply wp_catch, wp_tbl. eapply wp_mono; [apply pin_working_sets_wp, Hr2| |].
    - intros out t' [Hst Hsl]. split_and!; [by apply (ready_steady x n s2 t' [])| |].
      + simpl. by rewrite Hsl, Ht.
      + eapply maps_on_trans; [by apply (maps_on_table s s2)|by eapply maps_on_steady].
    - intros e t' ->. rewrite set_table_id.
      eapply wp_bind; [by apply release_swapped_ready| |done]. intros [] s3 Hr3. by apply wp_err. }
  intros pinned s3 (Hr3 & Hs3 & Hm3). destruct (zip_out pages slots Hls) as (Z1 & Z2 & Z3).
  eapply wp_bind; [apply pin_swap_ready; [exact Hr3|by rewrite Z1|]| |done].
  { rewrite Z1, Hs3. intros l ([l' id] & -> & Hin)%list_elem_of_fmap. by eapply Hsw. }
  intros [] s4 [Hr4 Hm4]. apply wp_ok. unfold txn_ok, out_lent. simpl. rewrite Z1, Z2.
  split_and!; [done|done| |done|done|by eapply maps_on_trans]. by apply slots_of; rewrite Z2.
Qed.

Lemma movable_ready x n s group B :
  ready x n s B → idle s (λ ws _, ws ∈ group) →
  wp (tbl (movable_resident_pages group))
    (λ pages s', s' = s ∧ NoDup pages.*1 ∧ ∀ l id, (l, id) ∈ pages → l ∉ swap_locations (table s))
    (λ _ s', s' = s) s.
Proof.
  intros Hr Hid. destruct (movable_calm (table s) group) as (r & Hm & Hp); [apply Hr|].
  unfold wp, tbl. rewrite Hm. destruct r as [pages|e|]; rewrite ?set_table_id; [|done..].
  destruct Hp as [[Hnd _] Hp]. split_and!; [done..|]. intros l id Hin.
  destruct (Hp l id Hin) as (ws & v & Hws & (e & He & Hv) & Hl). eapply Hid; [done..|by exists e|done].
Qed.

Lemma prepare_suspend_ready x n s group B :
  ready x n s B → idle s (λ ws _, ws ∈ group) →
  wp (prepare_suspend group)
    (λ o s', match o with
      | Some txn => ready x n s' (out_lent txn ++ B) ∧ txn_ok txn ∧ txn_sets txn = group ∧ 0 < page_count txn ∧ maps_on s s'
      | None => ready x n s' B end)
    (λ _ s', ready x n s' B) s.
Proof.
  intros Hr Hid. unfold prepare_suspend.
  eapply wp_bind; [by eapply movable_ready| |by intros e ? ->]. intros pages ? (-> & Hnd & Hsw).
  apply wp_then, wp_get.
  eapply (wp_bind _ _ (λ pages s', (ready x n s' B ∧ maps_on s s') ∧ NoDup pages.*1 ∧
    ∀ l id, (l, id) ∈ pages → l ∉ swap_locations (table s')) (λ _ s', ready x n s' B)); [| |done].
  { case_decide; [|apply wp_ok; split_and!; [done|by apply maps_on_table|done..]].
    eapply wp_bind; [by apply drop_entries_off_device_ready| |done]. intros [] s1 [Hr1 Hs1].
    eapply wp_mono; [eapply movable_ready; [exact Hr1|]| |by intros e ? ->].
    - eapply idle_spares; [apply Hr|done..].
    - intros pages' ? (-> & ? & ?). split_and!; [done|exact (proj2 (proj1 Hs1))|done..]. }
  clear Hid Hnd Hsw pages Hr. intros pages s1 ([Hr Hm1] & Hnd & Hsw). case_decide as Hpg; [by apply wp_ok|].
  apply wp_then, wp_get. cbn zeta. case_decide; [by apply wp_err|].
  eapply wp_bind; [apply prepare_move_out_ready; [done..|lia]| |done].
  intros txn s2 (Hr2 & Hok & Hg & Hp & Hm2). apply wp_ok. split_and!; [done..| |by eapply maps_on_trans].
  unfold page_count. rewrite <-(length_fmap (λ p, (location p, gpu_id p))), Hp. by destruct pages; [|simpl; lia].
Qed.

Lemma stranded_ready x n s keep B :
  ready x n s B → idle s (λ _ e, suspended e = true) →
  wp (tbl (stranded_pages keep))
    (λ pages s', s' = s ∧ NoDup pages.*1 ∧ ∀ l id, (l, id) ∈ pages → l ∉ swap_locations (table s))
    (λ _ s', s' = s) s.
Proof.
  intros Hr Hid. destruct (stranded_calm (table s) keep) as (r & Hm & Hp); [apply Hr|].
  unfold wp, tbl. rewrite Hm. destruct r as [pages|e|]; rewrite ?set_table_id; [|done..].
  destruct Hp as [[Hnd _] Hp]. split_and!; [done..|]. intros l id Hin.
  destruct (Hp l id Hin) as (ws & e & v & He & Hs & Hv & Hl). by eapply Hid.
Qed.

Lemma NoDup_take_fst {A C} k (l : list (A * C)) : NoDup l.*1 → NoDup (take k l).*1.
Proof. rewrite fmap_take, <-(take_drop k l.*1) at 1. by intros (? & _)%NoDup_app. Qed.

Lemma prepare_sweep_ready x n s keep room B :
  ready x n s B → idle s (λ _ e, suspended e = true) →
  wp (prepare_sweep keep room)
    (λ o s', match o with
      | Some txn => ready x n s' (out_lent txn ++ B) ∧ txn_ok txn ∧ page_count txn ≤ room
      | None => ready x n s' B end)
    (λ _ s', ready x n s' B) s.
Proof.
  intros Hr Hid. unfold prepare_sweep.
  eapply wp_bind; [by eapply stranded_ready| |by intros e ? ->]. intros pages ? (-> & Hnd & Hsw).
  apply wp_then, wp_get.
  eapply (wp_bind _ _ (λ pages s', ready x n s' B ∧ NoDup pages.*1 ∧
    ∀ l id, (l, id) ∈ pages → l ∉ swap_locations (table s')) (λ _ s', ready x n s' B)); [| |done].
  { case_decide; [|by apply wp_ok].
    eapply wp_bind; [by apply drop_entries_off_device_ready| |done]. intros [] s1 [Hr1 Hs1].
    eapply wp_mono; [eapply stranded_ready; [exact Hr1|]| |by intros e ? ->].
    - eapply idle_spares; [apply Hr|done..].
    - by intros pages' ? (-> & ? & ?). }
  clear s pages Hr Hid Hnd Hsw. intros pages s (Hr & Hnd & Hsw).
  apply wp_then, wp_get. cbn zeta. case_decide as Hpg; [by apply wp_ok|].
  eapply wp_bind; [by eapply calm_tbl; [exact Hr|intros; apply suspended_readers_calm]| |by intros e ? ->].
  intros readers ? ->.
  eapply wp_bind; [apply prepare_move_out_ready; [exact Hr|by apply NoDup_take_fst| |]| |done].
  { intros l id Hin. eapply (Hsw l id). rewrite <-(take_drop (room `min` swap_available s) pages). set_solver. }
  { rewrite length_take. lia. }
  intros txn s1 (Hr1 & Hok & Hg & Hp & _). apply wp_ok. split_and!; [done..|].
  unfold page_count. rewrite <-(length_fmap (λ p, (location p, gpu_id p))), Hp, length_take. lia.
Qed.

(** Demoting: what it lists is in no move. *)
Lemma demote_loop_ready x n keys room order : ∀ s B,
  ready x n s B → room ≤ swap_available s →
  wp (demote_loop keys room order)
    (λ o s', match o with
      | Some txn => ready x n s' (out_lent txn ++ B) ∧ txn_ok txn ∧ page_count txn ≤ room
      | None => ready x n s' B end)
    (λ _ s', ready x n s' B) s.
Proof.
  induction order as [|[key ids] order IH]; intros s B Hr Hroom; [done|]. cbn [demote_loop].
  apply wp_then, wp_get. cbn zeta.
  set (above := omap _ (map_to_list (cache s))).
  assert (Habove : ∀ k, k ∈ above → is_Some (nm (table s) !! k)).
  { intros k ([id e] & Hin & He)%list_elem_of_omap. simpl in He. case_decide; simplify_eq.
    apply elem_of_map_to_list in Hin. destruct (rd_paths _ _ _ _ Hr _ _ Hin) as (v & Hv & _). by eapply view_live. }
  destruct (cache_only_calm (table s) (roots s ids) above) as (r & Hm & Hp); [apply Hr|done|].
  apply wp_then. unfold wp at 1, tbl at 1. rewrite Hm. destruct r as [pages|e|]; rewrite ?set_table_id; [|done..].
  destruct Hp as [[Hnd _] Hp]. case_decide; [by apply IH|].
  eapply wp_bind; [apply prepare_move_out_ready; [exact Hr|by apply NoDup_take_fst| |]| |done].
  { intros l id Hin. eapply (Hp l id). rewrite <-(take_drop room pages). set_solver. }
  { rewrite length_take. lia. }
  intros txn s1 (Hr1 & Hok & Hg & Hpg & _). apply wp_ok. split_and!; [done..|].
  unfold page_count. rewrite <-(length_fmap (λ p, (location p, gpu_id p))), Hpg, length_take. lia.
Qed.

(** Splitting entries does not touch the pools. *)
Lemma tbl_leaves {X A} (f : store → X) (m : method (KvPageTable WS NS) KvTableError A) :
  (∀ s t, f (set_table s t) = f s) → leaves f (tbl m).
Proof. intros Hf s. unfold tbl. by destruct (m (table s)) as [[a|e|] t]; simpl. Qed.

Lemma split_at_steps_slots keys : leaves swap_available (split_at_steps keys : sm unit).
Proof.
  unfold split_at_steps, own, insert_kept. apply leaves_then; [done|]. intros s. case_match; [done|].
  apply leaves_for. intros [[id e] pages]. apply leaves_then; [by apply leaves_modify|]. intros _.
  apply leaves_then; [by apply tbl_leaves|]. intros p. apply leaves_then; [by apply tbl_leaves|]. leave.
Qed.

Lemma prepare_demote_ready x n s room keys B :
  ready x (length (heads s keys) + n) s B →
  wp (prepare_demote room keys)
    (λ o s', match o with
      | Some txn => ready x n s' (out_lent txn ++ B) ∧ txn_ok txn ∧ page_count txn ≤ room
      | None => ready x n s' B end)
    (λ _ s', ready x n s' B) s.
Proof.
  intros Hr. unfold prepare_demote. apply wp_then, wp_get. cbn zeta. case_decide.
  { apply wp_ok. eapply ready_le; [|exact Hr]. lia. }
  pose proof (split_at_steps_slots keys s) as Hsw.
  pose proof (split_at_steps_ready x n s keys B Hr) as Hsp. apply wp_then. unfold wp at 1 in Hsp. unfold wp at 1.
  destruct (split_at_steps keys s) as [[[]|e|] s1]; [|done..]. destruct Hsp as [Hr1 Hs1]. simpl in Hsw.
  eapply wp_bind; [by eapply reclaim_order_answers| |done]. intros order ? ->.
  eapply wp_mono; [apply demote_loop_ready; [exact Hr1|]| |done].
  { rewrite Hsw. unfold swap_available, host_swap_available. lia. }
  intros [txn|] s2; [|done]. intros (? & ? & ?). split_and!; [done..|lia].
Qed.

(** ** Starting a move in *)

Lemma granted_in x n B (s : store) (g : list PhysicalKvPageId) k (pages : list SwapPage) :
  gpu_id <$> pages = take k g → ready x n s ((Resident <$> take k g) ++ (Resident <$> drop k g) ++ B) →
  granted x n ((Resident ∘ gpu_id <$> pages) ++ B) (s, drop k g).
Proof. intros Hg Hr. unfold granted. simpl. rewrite list_fmap_compose, Hg. eapply ready_perm; [|exact Hr]. solve_perm. Qed.

Lemma prepare_restore_ready x n s g group B :
  granted x n B (s, g) →
  wp (prepare_restore group)
    (λ txn p, granted x n (in_lent txn ++ B) p ∧ txn_ok txn ∧ txn_sets txn = group ∧
      gpu_id <$> txn_pages txn = take (page_count txn) g ∧ maps_on s p.1 ∧
      ∀ l b, mapped_by (table s) (.∈ group) l → backing_at (table s) l = Ok b →
        l ∈ location <$> txn_pages txn ↔ is_resident b = false)
    (λ _, granted x n B) (s, g).
Proof.
  intros Hr. unfold prepare_restore. apply wp_then, wp_with_grant.
  eapply wp_mono; [eapply calm_tbl_eq; [exact Hr|intros; by apply in_move_calm]| |by intros e ? ->].
  intros moving s0 [-> Hmv]. destruct moving; [done|]. apply wp_then, wp_with_grant.
  destruct (swapped_pages_calm (table s) group) as (r & Hm & Hp); [apply Hr|].
  unfold wp at 1, tbl at 1. rewrite Hm. simpl fst. destruct r as [below|e|]; rewrite ?set_table_id; [|done..].
  destruct Hp as (Hnd & Hb & Hall & Hsw). specialize (Hsw Hmv). apply wp_then, wp_get. simpl. case_decide; [done|].
  apply wp_then, wp_with_grant, wp_tbl.
  eapply wp_mono; [apply pin_working_sets_wp, Hr| |by intros e t' ->; rewrite set_table_id].
  intros pinned t1 [Hs1 Hsl1]. pose proof (ready_steady _ _ _ _ [] _ Hr Hs1) as Hr1. simpl in Hr1.
  apply wp_then, wp_draw; [lia|]. cbn zeta.
  destruct (zip_in below (take (length below) g)) as (Z1 & Z2 & Z3); [rewrite length_take; lia|].
  pose proof (granted_draw _ _ _ _ (length below) _ Hr1) as Hd.
  apply wp_then, wp_with_grant. eapply wp_mono; [apply pin_swap_ready; [exact Hd|by rewrite Z1|]| |done].
  { rewrite Z1. simpl. rewrite Hsl1. intros l ([l' b] & -> & Hin)%list_elem_of_fmap. by eapply Hsw. }
  intros [] s2 [Hr2 Hm2]. apply wp_ok. unfold txn_ok, in_lent, page_count. cbn [txn_pages txn_sets fst snd].
  rewrite Z1, Z3, length_zip_move by (rewrite length_take; lia). split_and!; [by eapply granted_in|done| |done|done| |].
  - apply slots_of. rewrite Z2. apply Forall_fmap, Forall_forall.
    intros [l b] Hin. destruct (Hb l b Hin) as [_ Hb']. by destruct b.
  - eapply maps_on_trans; [by eapply maps_on_steady|exact Hm2].
  - intros l b Hl Hbk. split; [|intros Hres; by apply (list_elem_of_fmap_2 fst _ (l, b)), Hall].
    intros ([l' b'] & -> & Hin)%list_elem_of_fmap. destruct (Hb l' b' Hin) as [Hb1 Hb2]. cbn [fst] in Hbk. rewrite Hb1 in Hbk. by injection Hbk as <-.
Qed.

(** What the loop over a run finds below the device. *)
Definition below_of s (run : list TriePageLocation) (below : list (TriePageLocation * KvPageBacking)) : Prop :=
  (NoDup run → NoDup below.*1) ∧
  ∀ l b, (l, b) ∈ below → l ∈ run ∧ (l ∉ swap_locations (table s)) ∧ device_page b = None.

Lemma below_loop_spec s run :
  wp (below_loop run)
    (λ o s', s' = s ∧ match o with
      | Some below => below_of s run below ∧ ∀ l, l ∈ run → ∃ b, backing_at (table s) l = Ok b
      | None => True end)
    (λ _ s', s' = s) s.
Proof.
  induction run as [|l run IH]; cbn [below_loop].
  { split; [done|]. split; [split; [constructor|]|]; [intros l b|intros l]; by intros ?%not_elem_of_nil. }
  apply wp_then, wp_get. case_match eqn:Hpin; [done|]. unfold page_location_pinned in Hpin.
  apply bool_decide_eq_false in Hpin. apply wp_then, wp_tbl. unfold wp at 1.
  destruct (backing_at (table s) l) as [b|e|] eqn:Hb; rewrite ?set_table_id; [|done|].
  2: { unfold backing_at in Hb. by repeat case_match. }
  eapply wp_bind; [exact IH| |done]. intros below ? [-> Hbl]. apply wp_ok. split; [done|].
  assert (Hrun : (∀ l, l ∈ run → ∃ b, backing_at (table s) l = Ok b) →
    ∀ l', l' ∈ l :: run → ∃ b, backing_at (table s) l' = Ok b).
  { intros H l' [->|?]%elem_of_cons; [by exists b|by apply H]. }
  assert (Hmore : ∀ below, below_of s run below → device_page b = None → below_of s (l :: run) ((l, b) :: below)).
  { intros below' [H1 H2] Hdev. split.
    - intros [Hl Hnd]%NoDup_cons. simpl. apply NoDup_cons. split; [|by apply H1].
      intros ([l' b'] & -> & Hin)%list_elem_of_fmap. by apply Hl, (H2 l' b').
    - intros l' b' [[= -> ->]|Hin]%elem_of_cons; [split_and!; [by left|done..]|].
      destruct (H2 l' b' Hin) as (? & ? & ?). split_and!; [by right|done..]. }
  destruct b, below as [below|]; simpl; try done; destruct Hbl as [[H1 H2] H3]; (split; [|by apply Hrun]);
    [|by apply Hmore..].
  split; [by intros [_ ?]%NoDup_cons; apply H1|]. intros l' b' Hin. destruct (H2 l' b' Hin) as (? & ? & ?).
  split_and!; [by right|done..].
Qed.

Lemma prepare_promote_ready x n s g run B :
  granted x n B (s, g) → NoDup run →
  wp (prepare_promote run)
    (λ o p, match o with
      | Some txn => granted x n (in_lent txn ++ B) p ∧ txn_ok txn ∧ txn_sets txn = ∅
      | None => granted x n B p end)
    (λ _, granted x n B) (s, g).
Proof.
  intros Hr Hndr. unfold prepare_promote. destruct (last run) as [l|] eqn:Hl; [|done].
  apply wp_then, wp_with_grant. eapply wp_mono; [apply below_loop_spec| |by intros e ? ->].
  intros below ? [-> Hbl]. destruct below as [below|]; [|done]. destruct below as [|b0 below]; [done|].
  set (bl := b0 :: below) in *. destruct Hbl as [[Hnd Hb] Hlive]. specialize (Hnd Hndr).
  apply wp_then, wp_get. cbn [snd]. case_decide; [done|].
  assert (Hn : is_Some (nm (table s) !! loc_node l)).
  { destruct (Hlive l) as [b Hbk].
    - rewrite last_lookup in Hl. by eapply list_elem_of_lookup_2.
    - apply backing_at_spec in Hbk as (e & _ & _ & _ & He & _); [by eexists|]. apply Hr. }
  apply wp_then, wp_with_grant, wp_tbl. eapply wp_mono; [apply pin_wp; [apply Hr|exact Hn]| |done].
  intros [] t1 (Hs1 & Hsl1 & _). pose proof (ready_steady _ _ _ _ [] _ Hr Hs1) as Hr1. simpl in Hr1.
  apply wp_then, wp_draw; [lia|]. cbn zeta.
  destruct (zip_in bl (take (length bl) g)) as (Z1 & Z2 & Z3); [rewrite length_take; lia|].
  pose proof (granted_draw _ _ _ _ (length bl) _ Hr1) as Hd.
  apply wp_then, wp_with_grant. eapply wp_mono; [apply pin_swap_ready; [exact Hd|by rewrite Z1|]| |done].
  { rewrite Z1. cbn [table set_table]. rewrite Hsl1. intros l1 Hl1.
    apply (proj1 (list_elem_of_fmap fst bl l1)) in Hl1 as ([l' b] & -> & Hin). by eapply Hb. }
  intros [] s2 [Hr2 _]. cbn [fst snd] in Hr2. apply wp_ok. unfold txn_ok, in_lent. cbn [txn_pages txn_sets]. rewrite Z1.
  split_and!; [|done| |done].
  - by eapply granted_in.
  - apply slots_of. rewrite Z2. apply Forall_fmap, Forall_forall. intros [l1 b] Hin. by apply (Hb l1 b).
Qed.
End transfer.
End KvTransfer.
