(* ===== verification/KvWorld.v ===== *)
(** The clients of the store: the calls they make, what each call lends them and
    takes back, and the histories of calls. Grants of device pages, host slots,
    prepared writes and moves are tokens that are used once, as the values the code
    moves are. *)
From S2P Require Import Prelude Ids Store Pool Runs KvTable KvOps KvMove KvTrie KvChange KvSpec KvInv.
From S2P Require Import KvRead KvState KvPath KvProps KvFree KvHold KvQuery KvCommit KvCalls KvFrame.
From S2P Require Import KvLocate KvReads Hoare KvLedger KvImport KvHash KvStore KvBooks KvKeep KvReclaim.
From S2P Require Import KvWrites KvSeal KvTransfer.

Module KvWorld.
Import KvHash KvStore Runs KvTable KvOps KvMove KvTrie KvChange KvSpec KvInv KvRead KvState KvPath KvProps
  KvFree KvHold KvQuery KvCommit KvCalls KvFrame KvLocate KvReads KvLedger KvImport KvBooks KvKeep KvReclaim
  KvWrites KvSeal KvTransfer.

(** What a client holds. *)
Inductive token : Type :=
  | Grant (pages : list PhysicalKvPageId)
  | HostSlots (slots : list HostKvSlotId)
  | Writing (w : KvPreparedWrite)
  | MovingOut (txn : KvResidencyTxn)
  | MovingIn (txn : KvResidencyTxn).

(** The pages and slots it stands for. *)
Definition token_lent (k : token) : list KvPageBacking :=
  match k with
  | Grant pages => Resident <$> pages
  | HostSlots slots => Swapped <$> slots
  | Writing w => Resident <$> allocated w
  | MovingOut txn => out_lent txn
  | MovingIn txn => in_lent txn
  end.

Definition lent (ks : list token) : list KvPageBacking := concat (token_lent <$> ks).

Definition token_ok (k : token) : Prop :=
  match k with
  | Writing w => write_ok w
  | MovingOut txn | MovingIn txn => txn_ok txn
  | Grant _ | HostSlots _ => True
  end.

Lemma one_ok k : token_ok k → Forall token_ok [k].
Proof. intros Hk. by apply Forall_singleton. Qed.

Lemma lent_app ks ks' : lent (ks ++ ks') = lent ks ++ lent ks'.
Proof. unfold lent. by rewrite fmap_app, concat_app. Qed.
Lemma lent_cons k ks : lent (k :: ks) = token_lent k ++ lent ks.
Proof. done. Qed.
Lemma lent_perm ks ks' : ks ≡ₚ ks' → lent ks ≡ₚ lent ks'.
Proof. unfold lent. by intros ->. Qed.

(** The calls, by what they are about. *)
Inductive set_call : Type :=
  | CreateWorkingSet
  | ForkSet (ws : WorkingSetId)
  | ReserveSet (ws : WorkingSetId) (pages : nat)
  | LogRows_ (ws : WorkingSetId) (start : N) (tokens : list N)
  | LogBegin_ (ws : WorkingSetId) (cut : N)
  | LogEnd_ (ws : WorkingSetId) (seq : N) (rows : option (N * list N))
  | SetOwner_ (ws : WorkingSetId) (owner : ProcessId)
  | FlatTable (ws : WorkingSetId)
  | SealRows (ws : WorkingSetId) (start : N) (slots : list Hash256) (page_size : N)
  | Fold (ws : WorkingSetId) (to : N) (decoded : bool)
  | AttachRun (ws : WorkingSetId) (run : list TriePageLocation) (limit page_size : N) (now : Instant)
  | MarkSuspended (group : gset WorkingSetId)
  | ReleaseSet (aliases : gmap ProcessId ProcessId) (ws : WorkingSetId) (epoch : N) (now1 now2 : Instant).

Inductive write_call : Type :=
  | ReserveDevicePages (count : nat)
  | ReleaseReservation (pages : list PhysicalKvPageId)
  | EnsureBacked (pages : list PhysicalKvPageId) (ws : WorkingSetId) (end_ : nat)
  | PrepareWrite (pages : list PhysicalKvPageId) (ws : WorkingSetId) (indexes : list nat)
  | PublishPrepared (w : KvPreparedWrite) (commits : list PageCommit)
  | CancelPrepared (w : KvPreparedWrite)
  | Settle (seq : N).

Inductive cache_call : Type :=
  | KeepCheckpoint (ws : WorkingSetId) (pages : nat) (owner : option ProcessId) (now : Instant)
  | DiscardCache (owner : ProcessId)
  | ReclaimCache (epoch : N) (keys : Keys)
  | AllocHostSlots (n : nat)
  | FreeHostSlots (slots : list HostKvSlotId)
  | ImportCached (slots : list HostKvSlotId) (prefix : list Hash256)
      (token_hashes : list (list (option Hash256))) (page_hashes : list Hash256) (now : Instant)
  | PinResident (run : list TriePageLocation)
  | ReleaseReader (pin : ReaderPin).

Inductive move_call : Type :=
  | PrepareSuspend (group : gset WorkingSetId)
  | PrepareSweep (keep : gset WorkingSetId) (room : nat)
  | PrepareDemote (room : nat) (keys : Keys)
  | CommitSuspend (txn : KvResidencyTxn)
  | AbortSuspend (txn : KvResidencyTxn)
  | PrepareRestore (pages : list PhysicalKvPageId) (group : gset WorkingSetId)
  | PreparePromote (pages : list PhysicalKvPageId) (run : list TriePageLocation)
  | CommitRestore (txn : KvResidencyTxn)
  | AbortRestore (txn : KvResidencyTxn)
  | CommitPromote (txn : KvResidencyTxn).

Inductive store_call : Type :=
  | SetCall (c : set_call)
  | WriteCall (c : write_call)
  | CacheCall (c : cache_call)
  | MoveCall (c : move_call).

(** The tokens a call uses up. *)
Definition uses (c : store_call) : list token :=
  match c with
  | SetCall _ => []
  | WriteCall (ReserveDevicePages _) | WriteCall (Settle _) => []
  | WriteCall (ReleaseReservation g) | WriteCall (EnsureBacked g _ _) | WriteCall (PrepareWrite g _ _) => [Grant g]
  | WriteCall (PublishPrepared w _) | WriteCall (CancelPrepared w) => [Writing w]
  | CacheCall (FreeHostSlots slots) | CacheCall (ImportCached slots _ _ _ _) => [HostSlots slots]
  | CacheCall _ => []
  | MoveCall (CommitSuspend txn) | MoveCall (AbortSuspend txn) => [MovingOut txn]
  | MoveCall (CommitRestore txn) | MoveCall (AbortRestore txn) | MoveCall (CommitPromote txn) => [MovingIn txn]
  | MoveCall (PrepareRestore g _) | MoveCall (PreparePromote g _) => [Grant g]
  | MoveCall _ => []
  end.

Section world.
Context {WS NS : Type → Type}.
Context `{!KeyedStore WorkingSetId WS, !KeyedStore NodeId NS}.
Context `{!KeyedStoreLaws WorkingSetId WS, !KeyedStoreLaws NodeId NS}.
Context (derive : Context_ → list N → Hash256).
Abbreviation store := (KvStore WS NS).
Abbreviation sm := (method store KvStoreError).
Abbreviation gm := (method (store * list PhysicalKvPageId) KvStoreError).
Implicit Types s : store.

(** A call, whose answer is the tokens it hands out; an error hands out [lost]. *)
Definition handing {A} (m : sm A) (out : A → list token) (lost : list token) : sm (list token) := λ s,
  match m s with
  | (Ok a, s) => (Ok (out a), s)
  | (Err _, s) => (Ok lost, s)
  | (Panic, s) => (Panic, s)
  end.

(** A call that borrows a grant: what is left of it comes back. *)
Definition borrowing {A} (g : list PhysicalKvPageId) (m : gm A) (out : A → list token) : sm (list token) := λ s,
  match m (s, g) with
  | (Ok a, (s, g)) => (Ok (Grant g :: out a), s)
  | (Err _, (s, g)) => (Ok [Grant g], s)
  | (Panic, (s, _)) => (Panic, s)
  end.

Definition plain {A} (m : sm A) : sm (list token) := handing m (λ _, []) [].

Definition perform_set (c : set_call) : sm (list token) :=
  match c with
  | CreateWorkingSet => plain KvStore.create_working_set
  | ForkSet ws => plain (KvStore.fork ws)
  | ReserveSet ws pages => plain (KvStore.reserve ws pages)
  | LogRows_ ws start tokens => plain (KvStore.log_rows ws start tokens)
  | LogBegin_ ws cut => plain (KvStore.log_begin ws cut)
  | LogEnd_ ws seq rows => plain (KvStore.log_end ws seq rows)
  | SetOwner_ ws owner => plain (KvStore.set_owner ws owner)
  | FlatTable ws => plain (flat_table ws)
  | SealRows ws start slots page_size => plain (seal_rows derive ws start slots page_size)
  | Fold ws to decoded => plain (fold derive ws to decoded)
  | AttachRun ws run limit page_size now => plain (attach_run ws run limit page_size now)
  | MarkSuspended group => plain (mark_suspended group)
  | ReleaseSet aliases ws epoch now1 now2 => plain (release_working_set aliases ws epoch now1 now2)
  end.

Definition perform_write (c : write_call) : sm (list token) :=
  match c with
  | ReserveDevicePages count => handing (reserve_device_pages count) (λ o, Grant <$> option_list o) []
  | ReleaseReservation pages => plain (release_device_reservation pages)
  | EnsureBacked pages ws end_ => borrowing pages (ensure_backed_reserved ws end_) (λ _, [])
  | PrepareWrite pages ws indexes => borrowing pages (prepare_write_reserved ws indexes) (λ w, [Writing w])
  | PublishPrepared w commits => plain (publish_prepared w commits)
  | CancelPrepared w => plain (cancel_prepared w)
  | Settle seq => plain (settle seq)
  end.

Definition perform_cache (c : cache_call) : sm (list token) :=
  match c with
  | KeepCheckpoint ws pages owner now => plain (keep_checkpoint ws pages owner now)
  | DiscardCache owner => plain (discard_cache owner)
  | ReclaimCache epoch keys => plain (reclaim_cache epoch keys)
  | AllocHostSlots n => handing (alloc_host_slots n) (λ o, HostSlots <$> option_list o) []
  | FreeHostSlots slots => plain (free_host_slots slots)
  | ImportCached slots prefix ths phs now => plain (import_cached prefix ths phs slots now)
  | PinResident run => plain (pin_resident run)
  | ReleaseReader pin => plain (release_reader pin)
  end.

Definition perform_move (c : move_call) : sm (list token) :=
  match c with
  | PrepareSuspend group => handing (prepare_suspend group) (λ o, MovingOut <$> option_list o) []
  | PrepareSweep keep room => handing (prepare_sweep keep room) (λ o, MovingOut <$> option_list o) []
  | PrepareDemote room keys => handing (prepare_demote room keys) (λ o, MovingOut <$> option_list o) []
  | CommitSuspend txn => plain (commit_suspend txn)
  | AbortSuspend txn => plain (abort_suspend txn)
  | PrepareRestore pages group => borrowing pages (prepare_restore group) (λ txn, [MovingIn txn])
  | PreparePromote pages run => borrowing pages (prepare_promote run) (λ o, MovingIn <$> option_list o)
  | CommitRestore txn => plain (commit_restore txn)
  | AbortRestore txn => plain (abort_restore txn)
  | CommitPromote txn => plain (commit_promote txn)
  end.

Definition perform (c : store_call) : sm (list token) :=
  match c with
  | SetCall c => perform_set c
  | WriteCall c => perform_write c
  | CacheCall c => perform_cache c
  | MoveCall c => perform_move c
  end.

(** What the callers keep to: a write is published while its working set still has
    room for it; a checkpoint has a page; an import brings hashes for its slots; a
    run is listed once; and pages in a move are not asked to move again. *)
Definition legal (c : store_call) s : Prop :=
  match c with
  | WriteCall (PublishPrepared w _) => publishable s w
  | CacheCall (KeepCheckpoint _ pages _ _) => 0 < pages
  | CacheCall (ImportCached slots _ ths phs _) => length ths = length slots ∧ length phs = length slots
  | MoveCall (PrepareSuspend group) => idle s (λ ws _, ws ∈ group)
  | MoveCall (PrepareSweep _ _) => idle s (λ _ e, suspended e = true)
  | MoveCall (PreparePromote _ run) => NoDup run
  | _ => True
  end.

(** The most keys a call uses. *)
Definition cost (c : store_call) s : nat :=
  match c with
  | SetCall CreateWorkingSet | SetCall (ForkSet _) | SetCall (AttachRun _ _ _ _ _) => 1
  | SetCall (ReleaseSet _ _ _ _ _) => 2
  | WriteCall (EnsureBacked _ _ _) => 1
  | WriteCall (PublishPrepared _ _) => 2
  | CacheCall (KeepCheckpoint _ _ _ _) => 1
  | CacheCall (ImportCached _ _ _ _ _) => 2
  | CacheCall (ReclaimCache _ keys) => length (heads s keys)
  | MoveCall (PrepareDemote _ keys) => length (heads s keys)
  | _ => 0
  end.

(** The worlds that calls lead to from a new store, with the keys they used. *)
Inductive reaches (s0 : store) : nat → store → list token → Prop :=
  | reaches_new : reaches s0 0 s0 []
  | reaches_call n s ks c rest out s' :
      reaches s0 n s ks → ks ≡ₚ uses c ++ rest → legal c s → perform c s = (Ok out, s') →
      reaches s0 (cost c s + n) s' (out ++ rest).

(** ** Each call keeps the books *)

(** A call goes well: it panics not, and its tokens are in the books. *)
Definition well x n B (m : sm (list token)) s : Prop :=
  wp m (λ out s', ready x n s' (lent out ++ B) ∧ Forall token_ok out) (λ _ _, False) s.

Lemma handing_well {A} (m : sm A) (out : A → list token) lost x n B s :
  wp m (λ a s', ready x n s' (lent (out a) ++ B) ∧ Forall token_ok (out a))
    (λ _ s', ready x n s' (lent lost ++ B) ∧ Forall token_ok lost) s →
  well x n B (handing m out lost) s.
Proof. unfold well, wp, handing. by destruct (m s) as [[a|e|] s']. Qed.

Lemma plain_well {A} (m : sm A) (Q : A → store → Prop) X x n B s :
  wp m Q X s → (∀ a s', Q a s' → ready x n s' B) → (∀ e s', X e s' → ready x n s' B) →
  well x n B (plain m) s.
Proof.
  intros Hm HQ HX. apply handing_well. eapply wp_mono; [exact Hm| |]; intros a s' H; (split; [|done]); eauto.
Qed.

Lemma borrowing_well {A} g (m : gm A) (out : A → list token) x n B s :
  wp m (λ a p, granted x n (lent (out a) ++ B) p ∧ Forall token_ok (out a)) (λ _, granted x n B) (s, g) →
  well x n B (borrowing g m out) s.
Proof.
  unfold well, wp, borrowing, granted. destruct (m (s, g)) as [[a|e|] [s' g']]; simpl; [| |done].
  - intros [Hr Hok]. split; [|by constructor]. by rewrite lent_cons, <-app_assoc.
  - intros Hr. split; [|by apply one_ok]. rewrite lent_cons, <-app_assoc. exact Hr.
Qed.

Lemma set_call_well x n s c B :
  ready x (cost (SetCall c) s + n) s B → well x n B (perform_set c) s.
Proof.
  destruct c; intros Hr; simpl in Hr.
  - eapply plain_well; [by apply create_working_set_ready|done..].
  - eapply plain_well; [by apply fork_ready|done|]. intros e s' ->. by eapply ready_le; [|exact Hr]; lia.
  - eapply plain_well; [by apply reserve_ready|done..].
  - eapply plain_well; [by apply log_rows_ready|done..].
  - eapply plain_well; [by apply log_begin_ready|done..].
  - eapply plain_well; [by apply log_end_ready|done..].
  - eapply plain_well; [by apply set_owner_ready|done..].
  - eapply plain_well; [by apply flat_table_ready|by intros ? ? [? _]..].
  - eapply plain_well; [eapply seal_rows_ready; exact Hr|done..].
  - eapply plain_well; [by apply fold_ready|done..].
  - eapply plain_well; [by apply attach_run_ready|done..].
  - eapply plain_well; [by apply set_suspended_ready|by intros ? ? [? _]|done].
  - eapply plain_well; [by apply release_working_set_ready|done..].
Qed.

Lemma write_call_well x n s c B :
  ready x (cost (WriteCall c) s + n) s (lent (uses (WriteCall c)) ++ B) → Forall token_ok (uses (WriteCall c)) →
  legal (WriteCall c) s → well x n B (perform_write c) s.
Proof.
  destruct c; intros Hr Hok Hl; simpl in Hr, Hl; rewrite ?lent_cons, <-?app_assoc in Hr; simpl in Hr.
  - apply handing_well. eapply wp_mono; [by apply reserve_device_ready| |done].
    intros [ids|] s' H; simpl.
    + destruct H as [_ Hr']. split; [|by apply one_ok]. by rewrite lent_cons, <-app_assoc.
    + subst s'. by split.
  - eapply plain_well; [by apply release_pages_ready|done..].
  - apply borrowing_well. eapply wp_mono; [by apply ensure_backed_ready| |done]. intros k p Hp. by split.
  - apply borrowing_well. eapply wp_mono; [by apply prepare_write_ready| |done].
    intros w p (Hp & Hw & _). split; [|by apply one_ok]. rewrite lent_cons, <-app_assoc. exact Hp.
  - apply Forall_cons in Hok as [Hok _]. eapply plain_well; [by apply publish_prepared_ready| |]; by intros ? ? [? _].
  - eapply plain_well; [by apply cancel_prepared_ready|done..].
  - eapply plain_well; [by apply settle_ready|done..].
Qed.

Lemma cache_call_well x n s c B :
  ready x (cost (CacheCall c) s + n) s (lent (uses (CacheCall c)) ++ B) →
  legal (CacheCall c) s → well x n B (perform_cache c) s.
Proof.
  destruct c; intros Hr Hl; simpl in Hr, Hl; rewrite ?lent_cons, <-?app_assoc in Hr; simpl in Hr.
  - eapply plain_well; [by apply keep_checkpoint_ready| |done]. by intros ? ? [? _].
  - eapply plain_well; [by apply discard_cache_ready| |done]. by intros ? ? [? _].
  - eapply plain_well; [by apply reclaim_cache_ready| |done]. by intros ? ? [? _].
  - apply handing_well. eapply wp_mono; [by apply alloc_host_ready| |done].
    intros [ids|] s' (_ & _ & H); simpl.
    + destruct H as [_ Hr']. split; [|by apply one_ok]. by rewrite lent_cons, <-app_assoc.
    + destruct H as [-> _]. by split.
  - eapply plain_well; [by apply release_host_ready|done..].
  - destruct Hl. eapply plain_well; [by apply import_cached_ready|done..].
  - eapply plain_well; [by apply pin_resident_ready|done..].
  - eapply plain_well; [by apply release_reader_ready|done..].
Qed.

(** A move that starts hands out itself. *)
Lemma moving_out_well (m : sm (option KvResidencyTxn)) (P : KvResidencyTxn → store → Prop) x n B s :
  wp m (λ o s', match o with
      | Some txn => ready x n s' (out_lent txn ++ B) ∧ txn_ok txn ∧ P txn s'
      | None => ready x n s' B end) (λ _ s', ready x n s' B) s →
  well x n B (handing m (λ o, MovingOut <$> option_list o) []) s.
Proof.
  intros Hm. apply handing_well. eapply wp_mono; [exact Hm| |done]. intros [txn|] s' H; simpl; [|by split].
  destruct H as (Hr & Hok & _). split; [|by apply one_ok]. by rewrite lent_cons, <-app_assoc.
Qed.

Lemma move_call_well x n s c B :
  ready x (cost (MoveCall c) s + n) s (lent (uses (MoveCall c)) ++ B) → Forall token_ok (uses (MoveCall c)) →
  legal (MoveCall c) s → well x n B (perform_move c) s.
Proof.
  destruct c; intros Hr Hok Hl; simpl in Hr, Hl; rewrite ?lent_cons, <-?app_assoc in Hr; simpl in Hr;
    try (apply Forall_cons in Hok as [Hok _]).
  - by eapply moving_out_well, prepare_suspend_ready.
  - by eapply moving_out_well, prepare_sweep_ready.
  - by eapply moving_out_well, prepare_demote_ready.
  - eapply plain_well; [by apply commit_suspend_ready| |done]. by intros ? ? (_ & ? & _).
  - eapply plain_well; [by apply abort_suspend_ready|done..].
  - apply borrowing_well. eapply wp_mono; [by apply prepare_restore_ready| |done].
    intros txn p (Hp & Ht & _). split; [|by apply one_ok]. rewrite lent_cons, <-app_assoc. exact Hp.
  - apply borrowing_well. eapply wp_mono; [by apply prepare_promote_ready| |done].
    intros [txn|] p H; simpl; [|by split]. destruct H as (Hp & Ht & _).
    split; [|by apply one_ok]. rewrite lent_cons, <-app_assoc. exact Hp.
  - eapply plain_well; [by apply commit_restore_ready| |done]. by intros ? ? (_ & ? & _).
  - eapply plain_well; [by apply abort_restore_ready|done..].
  - eapply plain_well; [by apply commit_promote_ready| |done]. by intros ? ? (_ & ? & _).
Qed.

Lemma perform_well x n s c B :
  ready x (cost c s + n) s (lent (uses c) ++ B) → Forall token_ok (uses c) → legal c s →
  well x n B (perform c) s.
Proof.
  destruct c; intros Hr Hok Hl; simpl.
  - by apply set_call_well.
  - by apply write_call_well.
  - by apply cache_call_well.
  - by apply move_call_well.
Qed.

(** ** Histories *)

Lemma new_ready cap host disk seed s N :
  new_with_swap derive cap host disk seed = Some s → room (KvTable.new : KvPageTable WS NS) N N →
  (N.of_nat N < 2 ^ 64)%N → ready ((0, cap), (0, host), (0, disk))%N N s [].
Proof.
  unfold new_with_swap. intros Hs HN Hlt.
  destruct (Pool.new cap) as [p1|] eqn:H1; [|done]. destruct (Pool.new host) as [p2|] eqn:H2; [|done].
  destruct (Pool.new disk) as [p3|] eqn:H3; [|done]. injection Hs as <-.
  apply Pool.new_range_held in H1 as (R1 & B1 & C1 & P1). apply Pool.new_range_held in H2 as (R2 & B2 & C2 & P2).
  apply Pool.new_range_held in H3 as (R3 & B3 & C3 & P3).
  assert (Hnm : nm (KvTable.new : KvPageTable WS NS) = ∅) by apply st_new_spec.
  split; simpl.
  - apply new_settled.
  - unfold extents, Pool.extent. simpl. by rewrite B1, B2, B3, C1, C2, C3.
  - unfold Pool.in_range. by rewrite B1, B2, B3, C1, C2, C3.
  - unfold whole, stock, universe. simpl. rewrite P1, P2, P3, Hnm. change (held (∅ : trie)) with ([] : list KvPageBacking).
    by rewrite app_nil_r.
  - intros k. by rewrite lookup_empty.
  - intros id e. by rewrite lookup_empty.
  - intros o. by rewrite lookup_empty.
  - intros id. rewrite lookup_empty. by intros [].
  - done.
  - done.
Qed.

Lemma reaches_ready x N s0 n s ks : reaches s0 n s ks →
  ∀ k, n + k ≤ N → ready x N s0 [] → ready x k s (lent ks) ∧ Forall token_ok ks.
Proof.
  induction 1 as [|n s ks c rest out s' Hr IH Hks Hl Hp]; intros k Hk H0.
  { split; [by eapply ready_le; [|exact H0]; lia|done]. }
  destruct (IH (cost c s + k)) as [Hrs Hok]; [lia|done|]. rewrite Hks in Hok. apply Forall_app in Hok as [Hu Hrest].
  apply lent_perm in Hks. rewrite lent_app in Hks.
  pose proof (perform_well x k s c (lent rest) (ready_perm _ _ _ _ _ Hks Hrs) Hu Hl) as Hw.
  unfold well, wp in Hw. rewrite Hp in Hw. destruct Hw as [Hr' Hout]. split; [by rewrite lent_app|by apply Forall_app].
Qed.
End world.
End KvWorld.
