(* ===== verification/KvStoreThm.v ===== *)
(** What the store promises: no history of its clients' calls makes it panic, every
    page and slot is at all times in exactly one place, and the leases, the paths
    and the owners of the cache are the ones of its entries; then what single calls
    do. *)
From S2P Require Import Prelude Ids Store Pool GenMap Runs KvTable KvOps KvMove KvTrie KvChange KvSpec KvInv.
From S2P Require Import KvRead KvState KvPath KvProps KvFree KvHold KvQuery KvCommit KvCalls KvFrame.
From S2P Require Import KvLocate KvReads Hoare KvLedger KvImport KvHash KvStore KvBooks KvKeep KvReclaim.
From S2P Require Import KvWrites KvSeal KvTransfer KvWorld.

Module KvStoreThm.
Import KvHash KvStore Runs KvTable KvOps KvMove KvTrie KvChange KvSpec KvInv KvRead KvState KvPath KvProps
  KvFree KvHold KvQuery KvCommit KvCalls KvFrame KvLocate KvReads KvLedger KvImport KvBooks KvKeep KvReclaim
  KvWrites KvSeal KvTransfer KvWorld.

Section thm.
Context {WS NS : Type → Type}.
Context `{!KeyedStore WorkingSetId WS, !KeyedStore NodeId NS}.
Context `{!KeyedStoreLaws WorkingSetId WS, !KeyedStoreLaws NodeId NS}.
Context (derive : Context_ → list N → Hash256).
Abbreviation store := (KvStore WS NS).
Implicit Types s : store.

(** ** Histories *)

(** A new store with pools of these sizes, whose keys last for [N] uses. *)
Definition starts (cap host disk : N) (seed : Hash256) (k : nat) s : Prop :=
  new_with_swap derive cap host disk seed = Some s ∧ room (KvTable.new : KvPageTable WS NS) k k ∧
  (N.of_nat k < 2 ^ 64)%N.

Lemma history_ready cap host disk seed k s0 n s ks m :
  starts cap host disk seed k s0 → reaches derive s0 n s ks → n + m ≤ k →
  ready ((0, cap), (0, host), (0, disk))%N m s (lent ks) ∧ Forall token_ok ks.
Proof.
  intros (Hn & Hr & Hlt) Hre Hk. eapply reaches_ready; [exact Hre|exact Hk|]. by eapply new_ready.
Qed.

(** C1. Take a store made by [new_with_swap] and any history of calls: working sets
    made, forked, reserved, sealed, attached and released; grants drawn; writes
    prepared, published, cancelled and settled in any order; cache entries kept,
    imported, discarded and reclaimed; moves out and in that are begun, committed and
    aborted while other calls run. Every call that uses tokens the client holds and
    keeps its contract ([legal]) then answers: no [expect], [unreachable!], index,
    subtraction or debug assertion of the store, the table or the pools fails. The
    bound on [n] is the number of keys a generational map has. *)
Theorem store_history_safe cap host disk seed k s0 n s ks c rest :
  starts cap host disk seed k s0 → reaches derive s0 n s ks → ks ≡ₚ uses c ++ rest → legal c s →
  cost c s + n ≤ k → ∃ out s', perform derive c s = (Ok out, s').
Proof.
  intros H0 Hre Hks Hl Hk. destruct (history_ready _ _ _ _ _ _ _ _ _ (cost c s) H0 Hre ltac:(lia)) as [Hr Hok].
  rewrite Hks in Hok. apply Forall_app in Hok as [Hu _]. apply lent_perm in Hks. rewrite lent_app in Hks.
  rewrite <-(Nat.add_0_r (cost c s)) in Hr.
  pose proof (perform_well derive _ 0 s c (lent rest) (ready_perm _ _ _ _ _ Hks Hr) Hu Hl) as Hw.
  apply wp_case in Hw as [(out & s' & Hp & _)|(_ & _ & _ & [])]. eauto.
Qed.

(** The pages and slots of pools of these sizes. *)
Definition exists_in (cap host disk : N) (b : KvPageBacking) : Prop :=
  match b with
  | Resident id => (index id < cap)%N
  | Swapped slot => (index slot < host)%N
  | OnDisk slot => (index slot < disk)%N
  end.

Lemma elem_of_universe cap host disk s b :
  extents s = ((0, cap), (0, host), (0, disk))%N → b ∈ universe s ↔ exists_in cap host disk b.
Proof.
  unfold extents, Pool.extent. intros [= B1 C1 B2 C2 B3 C3]. unfold universe.
  rewrite !elem_of_app, !list_elem_of_fmap. destruct b as [i|i|i]; cbn [exists_in]; split.
  - intros [(j & [= ->] & Hj%Pool.elem_of_ids_of)|[(j & ? & _)|(j & ? & _)]]; [lia|done..].
  - intros Hi. left. exists i. split; [done|]. apply Pool.elem_of_ids_of. lia.
  - intros [(j & ? & _)|[(j & [= ->] & Hj%Pool.elem_of_ids_of)|(j & ? & _)]]; [done|lia|done].
  - intros Hi. right. left. exists i. split; [done|]. apply Pool.elem_of_ids_of. lia.
  - intros [(j & ? & _)|[(j & ? & _)|(j & [= ->] & Hj%Pool.elem_of_ids_of)]]; [done..|lia].
  - intros Hi. right. right. exists i. split; [done|]. apply Pool.elem_of_ids_of. lia.
Qed.

(** C2. Conservation: at each moment of a history the pages and slots that clients hold
    ([lent]) and the ones the store has ([stock]: free, pending until an epoch, or
    stored in the table) are together all that exist, each exactly once. So none is
    lost, none is given to two, and no page is freed while something still maps it. *)
Theorem store_history_books cap host disk seed k s0 n s ks :
  starts cap host disk seed k s0 → reaches derive s0 n s ks → n ≤ k →
  NoDup (lent ks ++ stock s) ∧ (∀ b, b ∈ lent ks ++ stock s ↔ exists_in cap host disk b).
Proof.
  intros H0 Hre Hk. destruct (history_ready _ _ _ _ _ _ _ _ _ 0 H0 Hre ltac:(lia)) as [Hr _].
  pose proof (rd_whole _ _ _ _ Hr) as Hw. unfold whole in Hw.
  split; [rewrite Hw; apply NoDup_universe|]. intros b. rewrite Hw. apply elem_of_universe, Hr.
Qed.

(** C3. The cache agrees with the table throughout a history: the leases counted at a
    node are as many as there are entries ending there; an entry's path is one the
    table still has, of the length the entry says; and a process is said to own
    cached pages exactly when an entry names it. *)
Theorem store_history_cache cap host disk seed k s0 n s ks :
  starts cap host disk seed k s0 → reaches derive s0 n s ks → n ≤ k →
  (∀ root, default 0%N (cache_roots (table s) !! root) = N.of_nat (tally leased (cache s) root)) ∧
  (∀ id e, cache s !! id = Some e →
     ∃ v, view (nm (table s)) (Some (kept_terminal (path e))) v ∧ length v = kept_pages (path e)) ∧
  (∀ o, owns_cache s o = true ↔ ∃ id e, cache s !! id = Some e ∧ kept_owner e = Some o).
Proof.
  intros H0 Hre Hk. destruct (history_ready _ _ _ _ _ _ _ _ _ 0 H0 Hre ltac:(lia)) as [Hr _].
  split_and!; [apply Hr..|]. intros o. unfold owns_cache. rewrite bool_decide_eq_true.
  destruct (rd_owners _ _ _ _ Hr o) as [Ho Hz]. split.
  - intros [c Hc]. destruct (decide (∃ id e, cache s !! id = Some e ∧ kept_owner e = Some o)) as [?|Hno].
    + done.
    + exfalso. rewrite Hc in Ho, Hz. simpl in Ho. subst c. apply Hz. f_equal. apply tally_zero.
      intros id e He Ho. apply Hno. eauto.
  - intros (id & e & He & Heo). pose proof (tally_pos kept_owner _ _ _ _ He Heo) as Hp.
    destruct (owners s !! o); [by eexists|]. simpl in Ho. lia.
Qed.

(** A tier of a list laid out by tiers. *)
Lemma omap_all {A C} (f : A → C) (g : C → option A) (l : list A) : (∀ a, g (f a) = Some a) → omap g (f <$> l) = l.
Proof. intros Hg. induction l as [|a l IH]; [done|]. csimpl. by rewrite Hg, IH. Qed.
Lemma omap_none {A C D} (f : A → C) (g : C → option D) (l : list A) : (∀ a, g (f a) = None) → omap g (f <$> l) = [].
Proof. intros Hg. induction l as [|a l IH]; [done|]. csimpl. by rewrite Hg, IH. Qed.

Lemma tiers_perm ids ids' hs hs' ds ds' :
  (Resident <$> ids) ++ (Swapped <$> hs) ++ (OnDisk <$> ds) ≡ₚ
    (Resident <$> ids') ++ (Swapped <$> hs') ++ (OnDisk <$> ds') →
  ids ≡ₚ ids' ∧ hs ≡ₚ hs' ∧ ds ≡ₚ ds'.
Proof.
  intros Hp.
  pose proof (omap_Permutation device_page _ _ Hp) as H1. pose proof (omap_Permutation host_slot _ _ Hp) as H2.
  pose proof (omap_Permutation disk_slot _ _ Hp) as H3. rewrite !omap_app in H1. rewrite !omap_app in H2. rewrite !omap_app in H3.
  rewrite !(omap_all Resident device_page), !(omap_none Swapped device_page), !(omap_none OnDisk device_page),
    !app_nil_r in H1 by done.
  rewrite !(omap_all Swapped host_slot), !(omap_none Resident host_slot), !(omap_none OnDisk host_slot),
    !app_nil_r in H2 by done.
  rewrite !(omap_all OnDisk disk_slot), !(omap_none Resident disk_slot), !(omap_none Swapped disk_slot) in H3 by done.
  done.
Qed.

(** C6. Nothing leaks: in a history whose clients hold no token, once no node of the
    table is anchored (no working set maps a page, no lease or pin is out), every
    device page and every host and disk slot is back in its pool, free or waiting
    for its epoch. *)
Theorem store_history_returns cap host disk seed k s0 n s :
  starts cap host disk seed k s0 → reaches derive s0 n s [] → n ≤ k → anchors (table s) = [] →
  Pool.held (pool s) ≡ₚ Pool.ids_of (pool s) ∧ Pool.held (host_pool s) ≡ₚ Pool.ids_of (host_pool s) ∧
  Pool.held (disk_pool s) ≡ₚ Pool.ids_of (disk_pool s).
Proof.
  intros H0 Hre Hk HA. destruct (history_ready _ _ _ _ _ _ _ _ _ 0 H0 Hre ltac:(lia)) as [Hr _].
  pose proof (rd_whole _ _ _ _ Hr) as Hw. unfold whole, stock, universe in Hw.
  rewrite (empty_held (table s) (rd_table _ _ _ _ Hr) HA), app_nil_r in Hw. by apply tiers_perm.
Qed.
(** ** Content keys *)

Lemma chain_last_inj I I' domain ts ts' :
  (∀ c b, is_hash (derive c b)) → Forall is_u32 ts → Forall is_u32 ts' →
  slot_inputs derive domain None 0 ts ⊆ I → slot_inputs derive domain None 0 ts' ⊆ I' →
  last (chain_slots derive domain None 0 ts) = last (chain_slots derive domain None 0 ts') →
  ts = ts' ∨ collision derive I I'.
Proof.
  intros Hd. revert ts'. induction ts as [|t ts IH] using rev_ind; intros ts' Hu Hu' HI HI'.
  { destruct ts' as [|t' ts' _] using rev_ind; [by left|]. rewrite chain_slots_app, last_app. done. }
  apply Forall_app in Hu as [Hu [Ht _]%Forall_cons].
  destruct ts' as [|t' ts' _] using rev_ind; [rewrite chain_slots_app, last_app; done|].
  apply Forall_app in Hu' as [Hu' [Ht' _]%Forall_cons].
  rewrite slot_inputs_app in HI, HI'. apply list_subseteq_app_iff_l in HI as [HI Hi], HI' as [HI' Hi'].
  rewrite !chain_slots_app, !last_app. simpl. intros [= H].
  assert (Hlast : ∀ ts h, last (chain_slots derive domain None 0 ts) = Some h → is_hash h).
  { intros ts0 h Hh. eapply chain_slots_hash; [done|]. rewrite last_lookup in Hh. by eapply list_elem_of_lookup_2. }
  eapply slot_hash_inj in H as [(Hp & -> & _)|?];
    [|by right|apply Hi; simpl; by left|apply Hi'; simpl; by left|intros ?; rewrite chain_end_none; by eapply Hlast
     |intros ?; rewrite chain_end_none; by eapply Hlast|done|done| |].
  - rewrite !chain_end_none in Hp. destruct (IH ts' Hu Hu' HI HI' Hp) as [->|?]; [by left|by right].
  - apply N.mod_lt. done.
  - apply N.mod_lt. done.
Qed.

Lemma last_drop {A} k (l : list A) : k < length l → last (drop k l) = last l.
Proof.
  intros Hk. rewrite <-(take_drop k l) at 2. rewrite last_app.
  destruct (last (drop k l)) eqn:Hl; [done|]. apply last_None in Hl.
  apply (f_equal length) in Hl. rewrite length_drop in Hl. simpl in Hl. lia.
Qed.

Lemma take_chain_slots domain prev start ts k :
  take k (chain_slots derive domain prev start ts) = chain_slots derive domain prev start (take k ts).
Proof. revert prev start k. induction ts as [|t ts IH]; intros prev start [|k]; simpl; [done..|]. by rewrite IH. Qed.

(** A key is the hash of its page of slots. *)
Lemma fill_keys_lookup page slots : ∀ partial i key,
  (length partial < N.to_nat page) →
  fill_keys derive page slots partial !! i = Some key →
  (S i * N.to_nat page ≤ length partial + length slots) ∧
  key = page_hash derive (take (N.to_nat page) (drop (i * N.to_nat page) (partial ++ (Some <$> slots)))).
Proof.
  induction slots as [|slot slots IH]; intros partial i key Hp; [done|]. cbn [fill_keys].
  case_decide as Hfull.
  - rewrite length_app in Hfull. simpl in Hfull. destruct i as [|i]; intros Hk.
    + injection Hk as <-. split; [simpl; lia|].
      rewrite fmap_cons, (cons_middle _ partial (Some <$> slots)), app_assoc. rewrite drop_0, take_app_length' by (rewrite length_app; simpl; lia). done.
    + apply IH in Hk as [Hl ->]; [|simpl; lia]. split; [simpl in *; lia|].
      rewrite fmap_cons, (cons_middle _ partial (Some <$> slots)), app_assoc. cbn [Nat.mul].
      rewrite <-drop_drop, (drop_app_length' (partial ++ _)) by (rewrite length_app; simpl; lia). done.
  - intros Hk. rewrite length_app in Hfull. simpl in Hfull. apply IH in Hk as [Hl ->]; [|rewrite length_app; simpl; lia].
    rewrite length_app in Hl. simpl in *. split; [lia|]. by rewrite <-app_assoc.
Qed.

(** All that is hashed to name the pages of these tokens: their slots and the pages. *)
Definition hashed (domain page : N) (ts : list N) : list (Context_ * list N) :=
  let slots := Some <$> chain_slots derive domain None 0 ts in
  slot_inputs derive domain None 0 ts ++
  ((λ i, (PAGE_CONTEXT, page_input (take (N.to_nat page) (drop (i * N.to_nat page) slots)))) <$>
     List.seq 0 (length ts / N.to_nat page)).

(** C8. A content key names its whole prefix. Pages [i] and [i'] of two token sequences
    hashed under one domain have one key only if they are the same page and the
    sequences agree up to its end, unless the hash gives one value to two different inputs
    among those that were hashed to name them. The
    bytes hashed are injective at every width: tokens and positions of 32 bits,
    hashes of 32 bytes, lengths of 64 bits. *)
Theorem content_key_identity domain page ts ts' i i' key :
  (0 < page < 2 ^ 64)%N → (∀ c b, is_hash (derive c b)) → Forall is_u32 ts → Forall is_u32 ts' →
  fill_keys derive page (chain_slots derive domain None 0 ts) [] !! i = Some key →
  fill_keys derive page (chain_slots derive domain None 0 ts') [] !! i' = Some key →
  (i = i' ∧ take (S i * N.to_nat page) ts = take (S i * N.to_nat page) ts') ∨
  collision derive (hashed domain page ts) (hashed domain page ts').
Proof.
  intros Hpage Hd Hu Hu' H1 H2. set (p := N.to_nat page) in *.
  apply fill_keys_lookup in H1 as [L1 ->]; [|simpl; lia]. apply fill_keys_lookup in H2 as [L2 H2]; [|simpl; lia].
  rewrite length_chain_slots in L1, L2. simpl app in H2. fold p in L1, L2, H2. simpl length in L1, L2.
  assert (Hslot : ∀ k us h, Some h ∈ take p (drop (k * p) (Some <$> chain_slots derive domain None 0 us)) → is_hash h).
  { intros k us h (j & Hj & _)%elem_of_take. rewrite lookup_drop, list_lookup_fmap_Some in Hj.
    destruct Hj as (h' & [= <-] & Hj). eapply chain_slots_hash; [done|]. by eapply list_elem_of_lookup_2. }
  assert (Hlen : ∀ k us, S k * p ≤ length us →
    length (take p (drop (k * p) (Some <$> chain_slots derive domain None 0 us))) = p).
  { intros k us Hk. rewrite length_take, length_drop, length_fmap, length_chain_slots. lia. }
  assert (Hpin : ∀ k us, S k * p ≤ length us →
    (PAGE_CONTEXT, page_input (take p (drop (k * p) (Some <$> chain_slots derive domain None 0 us)))) ∈ hashed domain page us).
  { intros k us Hk. unfold hashed. fold p. apply elem_of_app. right. apply list_elem_of_fmap. exists k.
    split; [done|]. apply elem_of_seq. split; [lia|]. apply Nat.div_le_lower_bound; lia. }
  eapply page_hash_inj in H2 as [H2|?]; [|by right|by apply Hpin|by apply Hpin|by apply Hslot|by apply Hslot|rewrite Hlen by done; unfold p; lia|rewrite Hlen by done; unfold p; lia].
  assert (Hend : ∀ k us, S k * p ≤ length us →
    last (take p (drop (k * p) (Some <$> chain_slots derive domain None 0 us))) =
    Some <$> last (chain_slots derive domain None 0 (take (S k * p) us))).
  { intros k us Hk. rewrite <-take_chain_slots, <-fmap_last, fmap_take, take_drop_commute, last_drop.
    - by rewrite (Nat.add_comm (k * p)).
    - rewrite length_take, length_fmap, length_chain_slots. lia. }
  apply (f_equal last) in H2. rewrite !Hend in H2 by done.
  apply (inj (fmap Some)) in H2.
  assert (Hsin : ∀ k us, slot_inputs derive domain None 0 (take k us) ⊆ hashed domain page us).
  { intros k us. rewrite <-(take_drop k us) at 2. unfold hashed. rewrite slot_inputs_app. set_solver. }
  eapply chain_last_inj in H2 as [H2|?]; [left|by right|done|by apply Forall_take|by apply Forall_take|apply Hsin|apply Hsin].
  assert (i = i') as <-; [|done]. apply (f_equal length) in H2. rewrite !length_take_le in H2 by done.
  assert (S i = S i') by (apply (Nat.mul_cancel_r _ _ p); [unfold p; lia|done]). lia.
Qed.

(** ** Publishing a write *)

(** A call from a history, by what is known of it. *)
Lemma history_call cap host disk seed k s0 n s ks rest u m :
  starts cap host disk seed k s0 → reaches derive s0 n s ks → n + m ≤ k → ks ≡ₚ u ++ rest →
  ready ((0, cap), (0, host), (0, disk))%N m s (lent u ++ lent rest) ∧ Forall token_ok u.
Proof.
  intros H0 Hre Hk Hks. destruct (history_ready _ _ _ _ _ _ _ _ _ m H0 Hre Hk) as [Hr Hok].
  rewrite Hks in Hok. apply Forall_app in Hok as [Hu _]. split; [|done].
  rewrite <-lent_app. eapply ready_perm; [by apply lent_perm|done].
Qed.

(** C4. Publishing a prepared write with a commit per target keeps the pages before the
    first copied one (or all), maps the allocated pages after them in order, leaves
    what other working sets map, refreshes the flat table, and answers the
    write's number. With a different number of commits the write is cancelled and the
    table is as it was. *)
Theorem publish_prepared_correct cap host disk seed k s0 n s ks rest w commits :
  starts cap host disk seed k s0 → reaches derive s0 n s ks → n + 2 ≤ k →
  ks ≡ₚ Writing w :: rest → publishable s w →
  if decide (length commits = length (targets w)) then
    ∃ s', publish_prepared w commits s = (Ok (write_seq w), s') ∧
      (∀ v, mapped (table s) (write_ws w) v →
         ∃ new, mapped (table s') (write_ws w) (take (write_cut w v) v ++ new) ∧ new.*2 = Resident <$> allocated w) ∧
      (∀ ws v, ws ≠ write_ws w → mapped (table s) ws v → mapped (table s') ws v) ∧
      (existsb changes_mapping (targets w) = true →
         flat s' !! write_ws w = Some (flat_of (table s') (write_ws w)))
  else ∃ s', publish_prepared w commits s = (Err CommitMismatch, s') ∧ table s' = table s.
Proof.
  intros H0 Hre Hk Hks Hp. destruct (history_call _ _ _ _ _ _ _ _ _ rest [Writing w] 2 H0 Hre Hk Hks) as [Hr Hok].
  apply Forall_cons in Hok as [Hok _]. rewrite lent_cons in Hr. simpl in Hr. rewrite app_nil_r in Hr.
  pose proof (publish_prepared_ready _ 0 s w commits (lent rest) Hr Hok Hp) as Hw.
  apply wp_case in Hw as [(a & s' & Hc & _ & Hl & -> & [L1 L2] & Hf)|(e & s' & Hc & _ & Hl & -> & Ht)].
  - case_decide; [|done]. exists s'. split_and!; [done|exact L1|exact L2|exact Hf].
  - case_decide; [done|]. by exists s'.
Qed.
(** ** Moving out and back *)

Lemma put_cells_out rs (c : cell) : c.1 ∉ rs.*1.*1 → put_cells rs c = c.
Proof.
  unfold put_cells. revert c. induction rs as [|q rs IH]; intros c Hc; [done|]. simpl in *.
  apply not_elem_of_cons in Hc as [Hq Hc]. unfold put_cell at 2. rewrite decide_False by done. by apply IH.
Qed.

Lemma put_cells_in rs (r : TriePageLocation * KvPageBacking * KvPageBacking) (c : cell) :
  NoDup (rs.*1.*1) → r ∈ rs → r.1.1 = c.1 → put_cells rs c = (c.1, r.2).
Proof.
  revert c. induction rs as [|q rs IH]; intros c Hnd Hin Heq; [by apply not_elem_of_nil in Hin|].
  simpl in Hnd. apply NoDup_cons in Hnd as [Hq Hnd].
  change (put_cells (q :: rs) c) with (put_cells rs (put_cell q.1.1 q.2 c)). unfold put_cell.
  apply elem_of_cons in Hin as [->|Hin].
  - rewrite decide_True by done. apply (put_cells_out rs (c.1, q.2)). simpl. by rewrite <-Heq.
  - rewrite decide_False; [by apply IH|].
    intros Heq'. apply Hq. rewrite <-Heq', <-Heq. by do 2 apply list_elem_of_fmap_2.
Qed.

(** The backings a mapped page has are the ones the table stores. *)
Lemma mapped_backing (t : KvPageTable WS NS) ws v l b :
  inv t → mapped t ws v → (l, b) ∈ v → backing_at t l = Ok b.
Proof.
  intros [Hs [Hm _ _ _] _ _] (e & _ & Hv & _) Hin. apply backing_at_spec; [done|].
  apply (all_cells_node t l b). by eapply view_cells.
Qed.

Lemma ids_all_resident bs : ∀ i,
  Forall (λ b, is_resident b = true) bs → ∃ ids, ids_or_absent i bs = Ok ids ∧ bs = Resident <$> ids.
Proof.
  induction bs as [|b bs IH]; intros i Hbs; [by exists []|]. apply Forall_cons in Hbs as [Hb Hbs].
  destruct (IH (S i) Hbs) as (ids & Hi & ->). destruct b as [id|id|id]; [|done..].
  exists (id :: ids). simpl. by rewrite Hi.
Qed.

(** What a set maps after a move in that takes every page it has below the device. *)
Lemma moved_in t ws v txn g :
  inv t → mapped t ws v → NoDup (location <$> txn_pages txn) →
  (∀ l b, (l, b) ∈ v → l ∈ location <$> txn_pages txn ↔ is_resident b = false) →
  gpu_id <$> txn_pages txn = take (page_count txn) g →
  Forall (λ b, is_resident b = true) (put_cells (in_writes txn) <$> v).*2 ∧
  ∀ i l b, v !! i = Some (l, b) → ∃ b', (put_cells (in_writes txn) <$> v).*2 !! i = Some b' ∧
    if is_resident b then b' = b else ∃ id, b' = Resident id ∧ id ∈ take (page_count txn) g.
Proof.
  intros Hi Hv Hnd Hall Hg. destruct (in_writes_parts txn) as (P1 & P2 & P3).
  assert (Hput : ∀ l b, (l, b) ∈ v → ∃ b', put_cells (in_writes txn) (l, b) = (l, b') ∧ is_resident b' = true ∧
    if is_resident b then b' = b else ∃ id, b' = Resident id ∧ id ∈ take (page_count txn) g).
  { intros l b Hin. destruct (is_resident b) eqn:Hb.
    - exists b. rewrite put_cells_out; [done|]. rewrite P1. intros Hl. apply (Hall l b Hin) in Hl. congruence.
    - apply (Hall l b Hin), list_elem_of_fmap in Hb as (p & -> & Hp). exists (Resident (gpu_id p)).
      rewrite (put_cells_in _ (location p, swapped p, Resident (gpu_id p))); [|by rewrite P1| |done].
      + split_and!; [done..|]. exists (gpu_id p). split; [done|]. rewrite <-Hg. by apply list_elem_of_fmap_2.
      + unfold in_writes. by apply (list_elem_of_fmap_2 (λ p, (location p, swapped p, Resident (gpu_id p)))). }
  split.
  - apply Forall_forall. intros b (c & -> & (d & -> & Hd)%list_elem_of_fmap)%list_elem_of_fmap.
    destruct d as [l b]. by destruct (Hput l b Hd) as (b' & -> & ? & _).
  - intros i l b Hvi. rewrite !list_lookup_fmap, Hvi. simpl.
    destruct (Hput l b) as (b1 & -> & _ & Hb1); [by eapply list_elem_of_lookup_2|]. by exists b1.
Qed.

(** The two halves of a restore, run one after the other. *)
Lemma restore_steps x n s g B group txn s1 g1 m s2 ws v :
  granted x n B (s, g) → prepare_restore group (s, g) = (Ok txn, (s1, g1)) →
  commit_restore txn s1 = (Ok m, s2) → ws ∈ group → mapped (table s) ws v →
  m = page_count txn ∧ ready x n s2 ((Resident <$> g1) ++ B) ∧ ∃ ids,
    flatten ws (table s2) = (Ok ids, table s2) ∧ length ids = length v ∧
    ∀ i l b id, v !! i = Some (l, b) → ids !! i = Some id →
      if is_resident b then b = Resident id else id ∈ take m g.
Proof.
  intros Hr Hp Hc Hws Hv. pose proof (prepare_restore_ready x n s g group B Hr) as Hw.
  unfold wp in Hw. rewrite Hp in Hw. destruct Hw as (Hg & Hok & _ & Hids & Hm & Hall).
  unfold granted in Hg. cbn [fst snd] in Hg, Hm.
  eapply (ready_perm _ _ _ _ (in_lent txn ++ (Resident <$> g1) ++ B)) in Hg; [|solve_perm].
  pose proof (commit_restore_ready x n s1 txn _ Hg Hok) as Hw. unfold wp in Hw. rewrite Hc in Hw.
  destruct Hw as (-> & Hr2 & Hre). split_and!; [done..|].
  destruct (moved_in (table s) ws v txn g) as [Hres Hcell]; [apply Hr|done|apply Hok| |done|].
  { intros l b Hin. apply Hall; [exists ws, v; split_and!; [done..|by apply (list_elem_of_fmap_2 fst) in Hin]|].
    eapply mapped_backing; [apply Hr|done..]. }
  destruct (ids_all_resident _ 0 Hres) as (ids & Hio & Hbs). exists ids.
  rewrite (flatten_spec (table s2) ws _ (proj1 (rd_table _ _ _ _ Hr2)) (Hre _ _ (Hm _ _ Hv))), Hio.
  assert (Hlen : length ids = length v) by (apply (f_equal length) in Hbs; by rewrite !length_fmap in Hbs).
  split_and!; [done..|]. intros i l b id Hvi Hid.
  destruct (Hcell i l b Hvi) as (b' & Hb' & Hd). rewrite Hbs, list_lookup_fmap, Hid in Hb'. injection Hb' as <-.
  destruct (is_resident b); [done|]. by destruct Hd as (id' & [= <-] & ?).
Qed.

(** C5. A group of working sets suspended and restored, in whatever state the rest of the
    store is: each set has as many pages as before, all on the device. A page that
    was moved is on one of the granted pages; one that was not moved (another reader
    kept it) has the very page it had. *)
Theorem suspend_restore_roundtrip cap host disk seed k s0 n s ks rest g group out s1 m s2 inn s3 g3 m' s4 ws v :
  starts cap host disk seed k s0 → reaches derive s0 n s ks → n ≤ k → ks ≡ₚ Grant g :: rest →
  idle s (λ ws _, ws ∈ group) →
  prepare_suspend group s = (Ok (Some out), s1) → commit_suspend out s1 = (Ok m, s2) →
  prepare_restore group (s2, g) = (Ok inn, (s3, g3)) → commit_restore inn s3 = (Ok m', s4) →
  ws ∈ group → mapped (table s) ws v → Forall (λ b, is_resident b = true) v.*2 →
  ∃ ids, flatten ws (table s4) = (Ok ids, table s4) ∧ length ids = length v ∧
    ∀ i l id id', v !! i = Some (l, Resident id) → ids !! i = Some id' →
      if decide (l ∈ location <$> txn_pages out) then id' ∈ take m' g else id' = id.
Proof.
  intros H0 Hre Hk Hks Hid Hps Hcs Hpr Hcr Hws Hv Hres.
  destruct (history_call _ _ _ _ _ _ _ _ _ rest [Grant g] 0 H0 Hre ltac:(lia) Hks) as [Hr _].
  rewrite lent_cons in Hr. simpl in Hr. rewrite app_nil_r in Hr.
  pose proof (prepare_suspend_ready _ 0 s group _ Hr Hid) as Hw. unfold wp in Hw. rewrite Hps in Hw.
  destruct Hw as (Hr1 & Hok & _ & _ & Hm1).
  pose proof (commit_suspend_ready _ 0 s1 out _ Hr1 Hok) as Hw. unfold wp in Hw. rewrite Hcs in Hw.
  destruct Hw as (_ & Hr2 & Hre2). specialize (Hre2 _ _ (Hm1 _ _ Hv)).
  destruct (restore_steps _ _ s2 g _ group inn s3 g3 m' s4 ws _ Hr2 Hpr Hcr Hws Hre2)
    as (_ & _ & ids & Hf & Hlen & Hcell).
  exists ids. split; [done|]. rewrite length_fmap in Hlen. split; [done|].
  destruct (out_writes_parts out) as (P1 & _). intros i l id id' Hvi Hid'. case_decide as Hl.
  - apply list_elem_of_fmap in Hl as (p & -> & Hp).
    specialize (Hcell i (location p) (swapped p) id'). rewrite list_lookup_fmap, Hvi in Hcell. simpl in Hcell.
    rewrite (put_cells_in _ (location p, Resident (gpu_id p), swapped p)) in Hcell;
      [|rewrite P1; apply Hok| |done].
    + specialize (Hcell eq_refl Hid'). destruct Hok as [_ Hslots]. rewrite Forall_forall in Hslots.
      specialize (Hslots p Hp). by destruct (swapped p).
    + unfold out_writes. by apply (list_elem_of_fmap_2 (λ p, (location p, Resident (gpu_id p), swapped p))).
  - specialize (Hcell i l (Resident id) id'). rewrite list_lookup_fmap, Hvi in Hcell. simpl in Hcell.
    rewrite put_cells_out in Hcell by by rewrite P1. by injection (Hcell eq_refl Hid').
Qed.
(** ** Epochs *)

(** A batch waits for a write as old as it, or for the store to reach its epoch. *)
Definition waits s (epoch : N) : Prop :=
  (∃ k, k ∈ outstanding s ∧ (k ≤ epoch)%N) ∨ (outstanding s = ∅ ∧ (seq s < epoch)%N).

Lemma oldest_spec s :
  match oldest s with
  | Some o => o ∈ outstanding s ∧ ∀ k, k ∈ outstanding s → (o ≤ k)%N
  | None => outstanding s = ∅
  end.
Proof.
  unfold oldest. assert (He : ∀ k, k ∈ outstanding s ↔ k ∈ elements (outstanding s)) by (intros k; by rewrite elem_of_elements).
  destruct (elements (outstanding s)) as [|x l] eqn:Hl.
  { apply leibniz_equiv, elements_empty_inv. by rewrite Hl. }
  setoid_rewrite He. clear He Hl. induction l as [|y l IH]; simpl.
  - split; [by left|]. by intros k ->%list_elem_of_singleton.
  - destruct IH as [IH1 IH2]. split.
    + destruct (N.min_spec y (foldr N.min x l)) as [[_ ->]|[_ ->]]; set_solver.
    + intros k [->|[->|Hk]%elem_of_cons]%elem_of_cons.
      * specialize (IH2 x ltac:(by left)). lia.
      * lia.
      * specialize (IH2 k ltac:(by right)). lia.
Qed.

(** [retire_idle] frees exactly the pages of the pending batches that need not wait:
    a batch waits for every outstanding write that is as old as its epoch, and, where
    none is outstanding, for the store to have reached the epoch. *)
Theorem retire_idle_correct s :
  0%N ∉ outstanding s →
  ∃ p, retire_idle s = (Ok tt, set_pool s p) ∧
    (∀ epoch ids, (epoch, ids) ∈ Pool.pending p ↔ (epoch, ids) ∈ Pool.pending (pool s) ∧ waits s epoch) ∧
    (∀ id, id ∈ Pool.free p ↔ id ∈ Pool.free (pool s) ∨
       ∃ epoch ids, (epoch, ids) ∈ Pool.pending (pool s) ∧ id ∈ ids ∧ ¬ waits s epoch).
Proof.
  intros H0. unfold retire_idle, mcall. cbn zeta. set (through := match oldest s with Some o => _ | None => _ end).
  destruct (Pool.retire_through_spec (pool s) through) as (p & -> & Hp & Hf & _). exists p. split; [done|].
  assert (Hdue : ∀ epoch, (epoch ≤ through)%N ↔ ¬ waits s epoch).
  { intros epoch. unfold waits, through. pose proof (oldest_spec s) as Ho. destruct (oldest s) as [o|].
    - destruct Ho as [Hin Hle]. split.
      + intros He [(k & Hk & Hke)|[He' _]]; [|by rewrite He' in Hin].
        specialize (Hle k Hk). assert (k ≠ 0%N) by (by intros ->). lia.
      + intros Hn. destruct (decide (o ≤ epoch)%N); [|lia]. exfalso. apply Hn. left. by exists o.
    - rewrite Ho. split.
      + intros He [(k & Hk & _)|[_ Hlt]]; [by apply not_elem_of_empty in Hk|lia].
      + intros Hn. destruct (decide (seq s < epoch)%N); [|lia]. exfalso. apply Hn. by right. }
  split.
  - intros epoch ids. rewrite Hp, list_elem_of_filter. unfold Pool.due. simpl. rewrite Hdue. split.
    + intros [Hn ?]. split; [done|]. by apply dec_stable.
    + intros [? ?]. split; [|done]. by intros Hn.
  - intros id. rewrite Hf, elem_of_app, elem_of_concat. split.
    + intros [?|(ids & ([epoch ids'] & -> & [Hd Hin]%list_elem_of_filter)%list_elem_of_fmap & Hid)]; [by left|right].
      exists epoch, ids'. split_and!; [done..|]. by apply Hdue.
    + intros [?|(epoch & ids & Hin & Hid & Hw)]; [by left|right]. exists ids. split; [|done].
      apply list_elem_of_fmap. exists (epoch, ids). split; [done|]. apply list_elem_of_filter. split; [|done].
      by apply Hdue.
Qed.

(** ** The cache gives way *)

(** The calls that drop what is cached, or keep more. *)
Definition about_cache (c : store_call) : Prop :=
  match c with
  | CacheCall (KeepCheckpoint _ _ _ _) | CacheCall (DiscardCache _) | CacheCall (ReclaimCache _ _) => True
  | _ => False
  end.

(** Keeping a checkpoint, discarding a process' cache and reclaiming the cache spare
    the clients: entries of working sets, the pages they map and the pages in a move
    stay as they are, and nothing is lent. *)
Theorem cache_gives_way cap host disk seed k s0 n s ks c out s' :
  starts cap host disk seed k s0 → reaches derive s0 n s ks → cost c s + n ≤ k → about_cache c → legal c s →
  perform derive c s = (Ok out, s') →
  out = [] ∧ (∀ ws e, wm (table s) !! ws = Some e → wm (table s') !! ws = Some e) ∧
  (∀ ws v, mapped (table s) ws v → mapped (table s') ws v) ∧
  swap_locations (table s') = swap_locations (table s).
Proof.
  intros H0 Hre Hk Hc Hl Hp. destruct (history_ready _ _ _ _ _ _ _ _ _ (cost c s + 0) H0 Hre ltac:(lia)) as [Hr _].
  assert (Hgo : ∀ A (m : method store KvStoreError A), perform derive c = plain m →
    wp m (λ _ s', ready ((0, cap), (0, host), (0, disk))%N 0 s' (lent ks) ∧ spares s s') (λ _ _, False) s →
    out = [] ∧ spares s s').
  { intros A m Hm Hw. rewrite Hm in Hp. unfold plain, handing in Hp. unfold wp in Hw.
    destruct (m s) as [[a|e|] s1]; [|done..]. injection Hp as <- <-. by destruct Hw. }
  assert (out = [] ∧ spares s s') as [-> [[Hw Hm] Hsw]].
  { destruct c as [c|c|c|c]; try done. destruct c; try done; simpl in Hr, Hl; (eapply Hgo; [done|]).
    - by apply keep_checkpoint_ready.
    - by apply discard_cache_ready.
    - by apply reclaim_cache_ready. }
  split_and!; [done| |done|done]. intros ws e He. by rewrite Hw.
Qed.
(** ** Classifying a write *)

Lemma elem_of_dedup_sorted l x : x ∈ dedup_sorted l ↔ x ∈ l.
Proof.
  induction l as [|a l IH]; [done|]. simpl. rewrite elem_of_cons, <-IH.
  destruct (dedup_sorted l) as [|y k]; [set_solver|]. case_decide; set_solver.
Qed.

Lemma dedup_sorted_last l : last (dedup_sorted l) = last l.
Proof.
  induction l as [|a l IH]; [done|]. simpl. rewrite last_cons. rewrite <-IH.
  destruct (dedup_sorted l) as [|y k] eqn:Hd; [done|]. case_decide as Ha.
  - by destruct (last (y :: k)) eqn:Hl; [|apply last_None in Hl].
  - by rewrite last_cons.
Qed.

(** The greatest index is the last. *)
Lemma sort_dedup_spec l : 
  (∀ x, x ∈ sort_dedup l ↔ x ∈ l) ∧ ∀ x, x ∈ l → ∃ m, last (sort_dedup l) = Some m ∧ x ≤ m.
Proof.
  assert (Hel : ∀ x, x ∈ sort_dedup l ↔ x ∈ l).
  { intros x. unfold sort_dedup. by rewrite elem_of_dedup_sorted, merge_sort_Permutation. }
  split; [done|]. intros x Hx. unfold sort_dedup. rewrite dedup_sorted_last.
  pose proof (StronglySorted_merge_sort (≤) l) as Hs. rewrite <-(merge_sort_Permutation (≤) l) in Hx.
  induction Hs as [|a k Hs IH Ha]; [by apply not_elem_of_nil in Hx|]. rewrite last_cons.
  apply elem_of_cons in Hx as [->|Hx].
  - destruct (last k) as [m|] eqn:Hl; [|by eauto]. exists m. split; [done|].
    rewrite Forall_forall in Ha. apply Ha. rewrite last_lookup in Hl. by eapply list_elem_of_lookup_2.
  - destruct (IH Hx) as (m & -> & ?). by exists m.
Qed.

Lemma contiguous_seq from l : contiguous from l = true → l = List.seq from (length l).
Proof.
  revert from. induction l as [|i l IH]; intros from; [done|]. simpl.
  intros [->%bool_decide_eq_true Hc]%andb_true_iff. f_equal. by apply IH.
Qed.

(** A page that is written where it is. *)
Definition in_place_ok (t : KvPageTable WS NS) (ws : WorkingSetId) (i : nat) : Prop :=
  privately_writable ws i t = (Ok true, t) ∧ sealed ws i t = (Ok false, t).

(** What the loop has found of the indexes [seen]. *)
Record classified t ws (visible : list PhysicalKvPageId) (seen : list nat)
    (ip : list (nat * PhysicalKvPageId)) (cow : option nat) : Prop := {
  cl_ip i id : (i, id) ∈ ip → i ∈ seen ∧ in_place_ok t ws i ∧ visible !! i = Some id;
  cl_cow c : cow = Some c → c ∈ seen ∧ ¬ in_place_ok t ws c;
  cl_all i : i ∈ seen → i ∈ ip.*1 ∨ ∃ c, cow = Some c ∧ c ≤ i;
}.

Lemma classified_copy t ws visible seen ip cow i :
  classified t ws visible seen ip cow → ¬ in_place_ok t ws i →
  classified t ws visible (seen ++ [i]) ip (Some (match cow with Some c => c `min` i | None => i end)).
Proof.
  intros [H1 H2 H3] Hi. split.
  - intros j id Hj. destruct (H1 j id Hj) as (? & ? & ?). split_and!; [set_solver|done..].
  - intros c [= <-]. destruct cow as [c'|]; [|split; [set_solver|done]].
    destruct (Nat.min_spec c' i) as [[_ ->]|[_ ->]]; [|split; [set_solver|done]].
    destruct (H2 c' eq_refl). split; [set_solver|done].
  - intros j [Hj| ->%list_elem_of_singleton]%elem_of_app.
    + destruct (H3 j Hj) as [?|(c & -> & ?)]; [by left|right]. eexists. split; [done|]. lia.
    + right. eexists. split; [done|]. destruct cow; lia.
Qed.

Lemma classified_in_place t ws visible seen ip cow i id :
  classified t ws visible seen ip cow → in_place_ok t ws i → visible !! i = Some id →
  classified t ws visible (seen ++ [i]) (ip ++ [(i, id)]) cow.
Proof.
  intros [H1 H2 H3] Hi Hid. split.
  - intros j id' [Hj|[= -> ->]%list_elem_of_singleton]%elem_of_app; [|split_and!; [set_solver|done..]].
    destruct (H1 j id' Hj) as (? & ? & ?). split_and!; [set_solver|done..].
  - intros c Hc. destruct (H2 c Hc). split; [set_solver|done].
  - intros j [Hj| ->%list_elem_of_singleton]%elem_of_app; rewrite fmap_app; [|left; set_solver].
    destruct (H3 j Hj) as [?|?]; [left; set_solver|by right].
Qed.

Lemma classify_loop_spec x n s B ws visible indexes : ∀ seen ip cow,
  ready x n s B → Forall (λ i, i < length visible) indexes → classified (table s) ws visible seen ip cow →
  wp (classify_loop ws visible indexes ip cow)
    (λ r s', s' = s ∧ classified (table s) ws visible (seen ++ indexes) r.1 r.2) (λ _ s', s' = s) s.
Proof.
  induction indexes as [|i indexes IH]; intros seen ip cow Hr Hall Hcl; [by rewrite app_nil_r|].
  apply Forall_cons in Hall as [Hi Hall]. cbn [classify_loop]. rewrite cons_middle, app_assoc.
  eapply wp_bind; [by eapply calm_tbl_eq; [exact Hr|intros; apply privately_writable_calm]| |done].
  intros private ? [-> Hpriv].
  eapply (wp_bind _ _ (λ b s', s' = s ∧ (b = false ↔ in_place_ok (table s) ws i)) (λ _ s', s' = s)); [| |done].
  { unfold in_place_ok. rewrite Hpriv. destruct private; [|split; [done|]; by split; [|intros [? _]]].
    eapply wp_mono; [eapply calm_tbl_eq; [exact Hr|]; intros; by apply sealed_calm| |done].
    intros b ? [-> ->]. split; [done|]. by split; [intros ->|intros [_ [= ->]]]. }
  intros sealed ? [-> Hb]. destruct sealed.
  - apply IH; [done..|]. apply classified_copy; [done|]. intros Hok%Hb. done.
  - apply wp_then. destruct (lookup_lt_is_Some_2 visible i Hi) as [id Hid].
    eapply wp_expect; [exact Hid|]. apply IH; [done..|]. apply classified_in_place; [done|by apply Hb|done].
Qed.

(** What a classification says: each index is fresh, written in place or copied;
    the ones written in place are mapped where they were, read by this set alone
    and not sealed; everything from the first that is not is copied; and the fresh
    ones follow what is mapped. *)
Record class_ok t ws (visible : list PhysicalKvPageId) (indexes : list nat) (c : WriteClassification) : Prop := {
  co_len len i : page_len_of ws t = (Ok len, t) → i ∈ indexes → i < len;
  co_all i : i ∈ indexes → i ∈ fresh c ∨ i ∈ (in_place c).*1 ∨ ∃ cs, cow_start c = Some cs ∧ cs ≤ i;
  co_in_place i id : (i, id) ∈ in_place c →
    i ∈ indexes ∧ in_place_ok t ws i ∧ visible !! i = Some id ∧ ∀ cs, cow_start c = Some cs → i < cs;
  co_cow cs : cow_start c = Some cs → cs ∈ indexes ∧ cs < length visible ∧ ¬ in_place_ok t ws cs;
  co_srcs : cow_srcs c = match cow_start c with Some cs => drop cs visible | None => [] end;
  co_fresh i : i ∈ fresh c ↔ i ∈ indexes ∧ length visible ≤ i;
  co_seq : fresh c = List.seq (length visible) (length (fresh c));
}.

(** The classification made of what the loop found. *)
Lemma class_of_loop t ws visible indexes sorted (r : list (nat * PhysicalKvPageId) * option nat) fr :
  (∀ i, i ∈ sorted ↔ i ∈ indexes) → (∀ len i, page_len_of ws t = (Ok len, t) → i ∈ indexes → i < len) →
  fr = filter (λ i, length visible ≤ i) sorted → contiguous (length visible) fr = true →
  classified t ws visible (filter (λ i, i < length visible) sorted) r.1 r.2 →
  class_ok t ws visible indexes
    match r.2 with
    | Some cs => mkClass (filter (λ p, p.1 < cs) r.1) (Some cs) (drop cs visible) fr
    | None => mkClass r.1 None [] fr
    end.
Proof.
  intros Hel Hlen Hfr Hc [C1 C2 C3].
  assert (Hfresh : ∀ i, i ∈ fr ↔ i ∈ indexes ∧ length visible ≤ i).
  { intros i. rewrite Hfr, list_elem_of_filter, Hel. naive_solver. }
  assert (Hin : ∀ i, i ∈ filter (λ i, i < length visible) sorted ↔ i < length visible ∧ i ∈ indexes).
  { intros i. by rewrite list_elem_of_filter, Hel. }
  apply contiguous_seq in Hc.
  assert (Hall : ∀ i, i ∈ indexes → i ∈ fr ∨ i ∈ r.1.*1 ∨ ∃ c, r.2 = Some c ∧ c ≤ i).
  { intros i Hi. destruct (decide (length visible ≤ i)); [left; by apply Hfresh|right].
    apply C3, Hin. split; [lia|done]. }
  destruct (r.2) as [cs|] eqn:Hr; split; simpl; try done.
  - intros i Hi. destruct (Hall i Hi) as [?|[([j id] & -> & Hj)%list_elem_of_fmap|(c & [= <-] & ?)]]; [by left| |]; right.
    + destruct (decide (j < cs)); [left|right; exists cs; split; [done|simpl; lia]].
      apply (list_elem_of_fmap_2 fst _ (j, id)), list_elem_of_filter. done.
    + right. by exists cs.
  - intros i id [Hi Hp]%list_elem_of_filter. destruct (C1 i id Hp) as ([? ?]%Hin & ? & ?).
    split_and!; [done..|]. by intros c [= <-].
  - intros c [= <-]. destruct (C2 cs eq_refl) as [[? ?]%Hin ?]. done.
  - intros i id Hp. destruct (C1 i id Hp) as ([? ?]%Hin & ? & ?). done.
Qed.

(** C7. [classify_write] answers against the flat table, which it may only fill in. Each
    index asked is fresh, or written in place, or copied as part of the tail from
    [cow_start]; a page written in place is where it was, read by this working set
    alone and not sealed; [cow_start] is one that may not be written; the sources are
    the whole tail; the fresh indexes are those that follow what is mapped, with no
    gap; and every index is within the reservation. *)
Theorem classify_write_correct cap host disk seed k s0 n s ks ws indexes visible s1 :
  starts cap host disk seed k s0 → reaches derive s0 n s ks → n ≤ k → flat_table ws s = (Ok visible, s1) →
  wp (classify_write ws indexes) (λ c s', s' = s1 ∧ class_ok (table s1) ws visible indexes c)
    (λ _ s', s' = s1) s.
Proof.
  intros H0 Hre Hk Hf. destruct (history_ready _ _ _ _ _ _ _ _ _ 0 H0 Hre ltac:(lia)) as [Hr _].
  pose proof (flat_table_ready _ 0 s ws _ Hr) as Hw. unfold wp in Hw. rewrite Hf in Hw. destruct Hw as [Hr1 _].
  clear Hr. unfold classify_write. apply wp_then. eapply wp_ret; [exact Hf|]. cbn zeta.
  eapply wp_bind; [by eapply calm_tbl_eq; [exact Hr1|intros; apply get_calm]| |by intros e ? ->].
  intros len ? [-> Hlen]. destruct (sort_dedup_spec indexes) as [Hel Hmax].
  case_decide as Hex; [done|]. case_match eqn:Hcont; [done|]. apply negb_false_iff in Hcont.
  eapply wp_bind; [apply (classify_loop_spec _ 0 s1 _ ws visible _ [] [] None Hr1)| |by intros e ? ->].
  { apply Forall_forall. by intros i [? _]%list_elem_of_filter. }
  { split; [by intros ? ? ?%not_elem_of_nil|done|by intros ? ?%not_elem_of_nil]. }
  intros r ? [-> Hcl]. assert (class_ok (table s1) ws visible indexes
    match r.2 with
    | Some cs => mkClass (filter (λ p, p.1 < cs) r.1) (Some cs) (drop cs visible)
        (filter (λ i, length visible ≤ i) (sort_dedup indexes))
    | None => mkClass r.1 None [] (filter (λ i, length visible ≤ i) (sort_dedup indexes))
    end) as Hok.
  { eapply class_of_loop; [exact Hel| |done|done|exact Hcl].
    intros len' i Hl' Hi. unfold page_len_of in *. rewrite Hlen in Hl'. injection Hl' as <-.
    destruct (Hmax i Hi) as (m & Hm & Him). rewrite Hm in Hex. simpl in Hex.
    destruct (decide (len ≤ m)); [|lia]. exfalso. apply Hex. by constructor. }
  destruct (r.2); by apply wp_ok.
Qed.
End thm.
End KvStoreThm.
