(* ===== verification/KvSample.v ===== *)
(** A history of the store to see its theorems on, and each theorem at a point of it. *)
From S2P Require Import Prelude Ids Store Pool GenMap Runs KvTable KvOps KvMove KvTrie KvChange KvSpec KvInv.
From S2P Require Import KvRead KvState KvPath KvProps KvFree KvHold KvQuery KvCommit KvCalls KvFrame.
From S2P Require Import KvLocate KvReads Hoare KvLedger KvImport KvHash KvStore KvBooks KvKeep KvReclaim.
From S2P Require Import KvWrites KvSeal KvTransfer KvWorld KvStoreThm.

Module KvSample.
Import GenMap KvHash KvStore Runs KvTable KvOps KvMove KvTrie KvChange KvSpec KvInv KvRead KvState KvPath KvProps
  KvFree KvHold KvQuery KvCommit KvCalls KvFrame KvLocate KvReads KvLedger KvImport KvBooks KvKeep KvReclaim
  KvWrites KvSeal KvTransfer KvWorld KvStoreThm.

(** ** The history

    A store of eight device pages and four slots on either tier. A client writes
    three pages of a set, whose first two are then kept; forks the set, and
    prepares a write to the fork's last page and one past it. *)

Abbreviation sample_store := (KvStore (GenMap.GenMap WsMarker) (GenMap.GenMap NodeMarker)).

(** A hash of 32 bytes for the examples. *)
Definition toy_hash (c : Context_) (b : list N) : Hash256 :=
  foldl (λ h x, ((h * 257 + x + 1) mod 2 ^ 256)%N)
    (match c with DOMAIN_CONTEXT => 1%N | SLOT_CONTEXT => 2%N | PAGE_CONTEXT => 3%N end) b.

Abbreviation go := (perform (WS := GenMap.GenMap WsMarker) (NS := GenMap.GenMap NodeMarker) toy_hash).

Definition empty_store : sample_store :=
  let p {I} := Pool.mkPool [] [] 0 0 : Pool.Pool I in mkStore KvTable.new p p p ∅ 0 ∅ ∅ ∅ false 0 0 0 0 ∅.
Definition store0 : sample_store := Eval vm_compute in default empty_store (new_with_swap toy_hash 8 4 4 99).

Definition answer (r : outcome KvStoreError (list token) * sample_store) : list token :=
  match r.1 with Ok out => out | _ => [] end.
Definition answers (r : outcome KvStoreError (list token) * sample_store) : bool :=
  match r.1 with Ok _ => true | _ => false end.

(** The store and the tokens after a call that leaves [rest] unused. *)
Definition after (w : sample_store * list token) (c : store_call) (rest : list token) : sample_store * list token :=
  ((go c w.1).2, answer (go c w.1) ++ rest).

Definition ws_key (i : N) : WorkingSetId := mkGenKey i 0.
Definition grant_of (ks : list token) : list PhysicalKvPageId :=
  concat (omap (λ k, match k with Grant g => Some g | _ => None end) ks).
Definition no_write : KvPreparedWrite := mkWrite (ws_key 0) [] [] None 0.
Definition write_of (ks : list token) : KvPreparedWrite :=
  default no_write (head (omap (λ k, match k with Writing w => Some w | _ => None end) ks)).

Definition commit_of (h : N) : PageCommit := mkCommit [Some h] (Some h).

Definition world1 := Eval vm_compute in after (store0, []) (SetCall CreateWorkingSet) [].
Definition world2 := Eval vm_compute in after world1 (SetCall (ReserveSet (ws_key 0) 4)) [].
Definition world3 := Eval vm_compute in after world2 (WriteCall (ReserveDevicePages 6)) [].
Definition world4 := Eval vm_compute in after world3 (WriteCall (PrepareWrite (grant_of world3.2) (ws_key 0) [2; 0; 1; 1])) [].
Definition write1 := Eval vm_compute in write_of world4.2.
Definition world5 := Eval vm_compute in after world4 (WriteCall (PublishPrepared write1 (commit_of <$> [70; 71; 72]%N))) [Grant (grant_of world4.2)].
Definition world6 := Eval vm_compute in after world5 (WriteCall (Settle (write_seq write1))) world5.2.
Definition world7 := Eval vm_compute in after world6 (CacheCall (KeepCheckpoint (ws_key 0) 2 (Some 5%N) 1)) world6.2.
Definition world8 := Eval vm_compute in after world7 (SetCall (ForkSet (ws_key 0))) world7.2.
Definition world9 := Eval vm_compute in after world8 (WriteCall (PrepareWrite (grant_of world8.2) (ws_key 1) [3; 2])) [].

(** From the first write on, another client returns its grant and frees the set. *)
Definition world10 := Eval vm_compute in after world6 (WriteCall (ReleaseReservation (grant_of world6.2))) [].
Definition world11 := Eval vm_compute in after world10 (SetCall (ReleaseSet ∅ (ws_key 0) 1 2 3)) [].
Definition write9 := Eval vm_compute in write_of world9.2.

Lemma after_reaches n m w c rest :
  reaches toy_hash store0 n w.1 w.2 → m = cost c w.1 + n → w.2 ≡ₚ uses c ++ rest → legal c w.1 → answers (go c w.1) = true →
  reaches toy_hash store0 m (after w c rest).1 (after w c rest).2.
Proof.
  intros Hr -> Hks Hl Ha. unfold after, answer, answers in *. cbn [fst snd] in *.
  destruct (go c w.1) as [[out|e|] s'] eqn:Hc; [|done..]. by eapply reaches_call.
Qed.

(** A write that has no page in place, into a set with room for it. *)
Lemma publishable_now (s : sample_store) w e :
  wm (table s) !! write_ws w = Some e → forallb changes_mapping (targets w) = true →
  match write_cow_start w with
  | Some cs => cs ≤ mapped_len e ∧ cs + length (allocated w) ≤ page_len e
  | None => mapped_len e + length (allocated w) ≤ page_len e
  end → publishable s w.
Proof.
  intros He Hc Hl. exists e. split_and!; [done| |done]. intros i dst Hin.
  rewrite forallb_forall in Hc. apply list_elem_of_In in Hin. by specialize (Hc _ Hin).
Qed.

(** One more call of a history. *)
Lemma next_reaches n m w c rest w' :
  reaches toy_hash store0 n w.1 w.2 → m = cost c w.1 + n → w.2 ≡ₚ uses c ++ rest → legal c w.1 →
  answers (go c w.1) = true → after w c rest = w' → reaches toy_hash store0 m w'.1 w'.2.
Proof. intros H1 H2 H3 H4 H5 <-. by eapply after_reaches. Qed.

Lemma world4_publishable : publishable world4.1 write1.
Proof. eapply publishable_now; [vm_compute; reflexivity|by vm_compute|vm_compute; lia]. Qed.

(** The call is the one the world was made with. *)
Ltac next_call n w c rest :=
  apply (next_reaches n _ w c rest); [|reflexivity|vm_compute; reflexivity|try exact I|vm_compute; reflexivity|
    vm_compute; reflexivity].

Lemma world4_reaches : reaches toy_hash store0 1 world4.1 world4.2.
Proof.
  next_call 1 world3 (WriteCall (PrepareWrite (grant_of world3.2) (ws_key 0) [2; 0; 1; 1])) (@nil token).
  next_call 1 world2 (WriteCall (ReserveDevicePages 6)) (@nil token).
  next_call 1 world1 (SetCall (ReserveSet (ws_key 0) 4)) (@nil token).
  next_call 0 (store0, @nil token) (SetCall CreateWorkingSet) (@nil token). apply reaches_new.
Qed.

Lemma world6_reaches : reaches toy_hash store0 3 world6.1 world6.2.
Proof.
  next_call 3 world5 (WriteCall (Settle (write_seq write1))) world5.2.
  apply (next_reaches 1 _ world4 (WriteCall (PublishPrepared write1 (commit_of <$> [70; 71; 72]%N)))
    [Grant (grant_of world4.2)]); [apply world4_reaches|reflexivity| |apply world4_publishable|
    vm_compute; reflexivity|vm_compute; reflexivity].
  vm_compute. apply Permutation_swap.
Qed.

Lemma world8_reaches : reaches toy_hash store0 5 world8.1 world8.2.
Proof.
  next_call 4 world7 (SetCall (ForkSet (ws_key 0))) world7.2.
  next_call 3 world6 (CacheCall (KeepCheckpoint (ws_key 0) 2 (Some 5%N) 1)) world6.2; [|simpl; lia].
  apply world6_reaches.
Qed.

Lemma world9_reaches : reaches toy_hash store0 5 world9.1 world9.2.
Proof.
  next_call 5 world8 (WriteCall (PrepareWrite (grant_of world8.2) (ws_key 1) [3; 2])) (@nil token).
  apply world8_reaches.
Qed.

Lemma sample_starts : starts toy_hash 8 4 4 99 1000 store0.
Proof.
  split; [by vm_compute|]. split; [|by vm_compute].
  split; unfold st_room; simpl; unfold GenMap.room; simpl; lia.
Qed.

Lemma world11_reaches : reaches toy_hash store0 5 world11.1 world11.2.
Proof.
  next_call 3 world10 (SetCall (ReleaseSet ∅ (ws_key 0) 1 2 3)) (@nil token).
  next_call 3 world6 (WriteCall (ReleaseReservation (grant_of world6.2))) (@nil token). apply world6_reaches.
Qed.

(** ** The theorems at points of it *)

Lemma write9_publishable : publishable world9.1 write9.
Proof. eapply publishable_now; [vm_compute; reflexivity|by vm_compute|vm_compute; lia]. Qed.

Lemma world9_tokens : world9.2 ≡ₚ Writing write9 :: [Grant (grant_of world9.2)].
Proof. vm_compute. apply Permutation_swap. Qed.

Lemma store_history_safe_witness :
  ∃ out s', go (WriteCall (PublishPrepared write9 (commit_of <$> [73%N]))) world9.1 = (Ok out, s').
Proof.
  apply (store_history_safe toy_hash 8 4 4 99 1000 store0 5 world9.1 world9.2 _ [Grant (grant_of world9.2)]);
    [apply sample_starts|apply world9_reaches|apply world9_tokens|apply write9_publishable|simpl; lia].
Defined.

Lemma store_history_books_witness :
  NoDup (lent world9.2 ++ stock world9.1) ∧ (∀ b, b ∈ lent world9.2 ++ stock world9.1 ↔ exists_in 8 4 4 b).
Proof.
  apply (store_history_books toy_hash 8 4 4 99 1000 store0 5); [apply sample_starts|apply world9_reaches|lia].
Defined.

Lemma store_history_cache_witness :
  (∀ root, default 0%N (cache_roots (table world8.1) !! root) = N.of_nat (tally leased (cache world8.1) root)) ∧
  (∀ id e, cache world8.1 !! id = Some e →
     ∃ v, view (nm (table world8.1)) (Some (kept_terminal (path e))) v ∧ length v = kept_pages (path e)) ∧
  (∀ o, owns_cache world8.1 o = true ↔ ∃ id e, cache world8.1 !! id = Some e ∧ kept_owner e = Some o).
Proof.
  apply (store_history_cache toy_hash 8 4 4 99 1000 store0 5 world8.1 world8.2);
    [apply sample_starts|apply world8_reaches|lia].
Defined.

Lemma store_history_returns_witness :
  Pool.held (pool world11.1) ≡ₚ Pool.ids_of (pool world11.1) ∧
  Pool.held (host_pool world11.1) ≡ₚ Pool.ids_of (host_pool world11.1) ∧
  Pool.held (disk_pool world11.1) ≡ₚ Pool.ids_of (disk_pool world11.1).
Proof.
  apply (store_history_returns toy_hash 8 4 4 99 1000 store0 5);
    [apply sample_starts|exact world11_reaches|lia|vm_compute; reflexivity].
Defined.

Lemma toy_hash_bytes c b : is_hash (toy_hash c b).
Proof.
  unfold toy_hash. induction b as [|x b _] using rev_ind; [by destruct c|].
  rewrite foldl_app. cbn [foldl]. apply N.mod_lt. done.
Qed.

Lemma content_key_identity_witness :
  (1 = 1 ∧ take 4 [7; 8; 9; 10]%N = take 4 [7; 8; 9; 10; 11]%N) ∨
  collision toy_hash (hashed toy_hash 5 2 [7; 8; 9; 10]%N) (hashed toy_hash 5 2 [7; 8; 9; 10; 11]%N).
Proof.
  eapply (content_key_identity toy_hash 5 2 [7; 8; 9; 10]%N [7; 8; 9; 10; 11]%N 1 1);
    [lia|apply toy_hash_bytes|repeat constructor|repeat constructor|vm_compute; reflexivity|vm_compute; reflexivity].
Defined.

Lemma publish_prepared_correct_witness :
  ∃ s', publish_prepared write9 (commit_of <$> [73; 74]%N) world9.1 = (Ok (write_seq write9), s') ∧
    (∀ v, mapped (table world9.1) (ws_key 1) v →
       ∃ new, mapped (table s') (ws_key 1) (take 2 v ++ new) ∧ new.*2 = Resident <$> allocated write9) ∧
    (∀ ws v, ws ≠ ws_key 1 → mapped (table world9.1) ws v → mapped (table s') ws v) ∧
    (existsb changes_mapping (targets write9) = true → flat s' !! ws_key 1 = Some (flat_of (table s') (ws_key 1))).
Proof.
  pose proof (publish_prepared_correct toy_hash 8 4 4 99 1000 store0 5 world9.1 world9.2
    [Grant (grant_of world9.2)] write9 (commit_of <$> [73; 74]%N) sample_starts world9_reaches ltac:(lia)
    world9_tokens write9_publishable) as H.
  rewrite decide_True in H by done. exact H.
Defined.

Lemma retire_idle_correct_witness :
  ∃ p, retire_idle world9.1 = (Ok tt, set_pool world9.1 p) ∧
    (∀ epoch ids, (epoch, ids) ∈ Pool.pending p ↔ (epoch, ids) ∈ Pool.pending (pool world9.1) ∧ waits world9.1 epoch) ∧
    (∀ id, id ∈ Pool.free p ↔ id ∈ Pool.free (pool world9.1) ∨
       ∃ epoch ids, (epoch, ids) ∈ Pool.pending (pool world9.1) ∧ id ∈ ids ∧ ¬ waits world9.1 epoch).
Proof.
  apply (retire_idle_correct world9.1). apply (bool_decide_eq_false_1 (0%N ∈ outstanding world9.1)). by vm_compute.
Defined.

Definition world8_dropped := Eval vm_compute in (go (CacheCall (DiscardCache 5)) world8.1).2.

Lemma cache_gives_way_witness :
  [] = ([] : list token) ∧
  (∀ ws e, wm (table world8.1) !! ws = Some e → wm (table world8_dropped) !! ws = Some e) ∧
  (∀ ws v, mapped (table world8.1) ws v → mapped (table world8_dropped) ws v) ∧
  swap_locations (table world8_dropped) = swap_locations (table world8.1).
Proof.
  apply (cache_gives_way toy_hash 8 4 4 99 1000 store0 5 world8.1 world8.2 (CacheCall (DiscardCache 5)) []);
    [apply sample_starts|apply world8_reaches|simpl; lia|exact I|exact I|vm_compute; reflexivity].
Defined.

Definition flat8 := Eval vm_compute in
  match flat_table (WS := GenMap WsMarker) (NS := GenMap NodeMarker) (ws_key 1) world8.1 with
  | (Ok l, s) => (l, s)
  | (_, s) => ([], s)
  end.

Lemma classify_write_correct_witness :
  wp (classify_write (ws_key 1) [3; 2])
    (λ c s', s' = flat8.2 ∧ class_ok (table flat8.2) (ws_key 1) flat8.1 [3; 2] c) (λ _ s', s' = flat8.2) world8.1.
Proof.
  apply (classify_write_correct toy_hash 8 4 4 99 1000 store0 5 world8.1 world8.2);
    [apply sample_starts|apply world8_reaches|lia|vm_compute; reflexivity].
Defined.

(** The set of the first write, moved out and brought back. *)
Definition moved : gset WorkingSetId := {[ws_key 0]}.
Definition no_txn : KvResidencyTxn := mkTxn ∅ [] [].
Definition suspending := Eval vm_compute in
  match prepare_suspend moved world6.1 with (Ok (Some t), s) => (t, s) | (_, s) => (no_txn, s) end.
Definition suspended6 := Eval vm_compute in (commit_suspend suspending.1 suspending.2).2.
Definition restoring := Eval vm_compute in
  match prepare_restore moved (suspended6, grant_of world6.2) with
  | (Ok t, (s, g)) => (t, s, g) | (_, (s, g)) => (no_txn, s, g) end.
Definition restored6 := Eval vm_compute in (commit_restore restoring.1.1 restoring.1.2).2.

Definition view6 : list cell :=
  [(mkLoc (mkGenKey 0 0) 0, Resident (PhysicalKvPage 5)); (mkLoc (mkGenKey 0 0) 1, Resident (PhysicalKvPage 4));
   (mkLoc (mkGenKey 0 0) 2, Resident (PhysicalKvPage 3))].

Lemma mapped6 : mapped (table world6.1) (ws_key 0) view6.
Proof.
  eexists. split; [vm_compute; reflexivity|]. split; [|by vm_compute].
  eexists. change view6 with ([] ++ view6).
  eapply (walk_some _ (mkGenKey 0 0) _ None); [vm_compute; reflexivity..|]. constructor.
Qed.

Lemma world6_tokens : world6.2 ≡ₚ Grant (grant_of world6.2) :: [].
Proof. by vm_compute. Qed.

Lemma idle6 : idle world6.1 (λ ws _, ws ∈ moved).
Proof.
  intros ws e v l _ _ _ _. assert (swap_locations (table world6.1) = ∅) as -> by by vm_compute. set_solver.
Qed.

Lemma suspend_restore_roundtrip_witness :
  ∃ ids, flatten (ws_key 0) (table restored6) = (Ok ids, table restored6) ∧ length ids = 3 ∧
    ∀ i l id id', view6 !! i = Some (l, Resident id) → ids !! i = Some id' →
      if decide (l ∈ location <$> txn_pages suspending.1) then id' ∈ take 3 (grant_of world6.2) else id' = id.
Proof.
  apply (suspend_restore_roundtrip toy_hash 8 4 4 99 1000 store0 3 world6.1 world6.2 [] (grant_of world6.2) moved
    suspending.1 suspending.2 3 suspended6 restoring.1.1 restoring.1.2 restoring.2 3 restored6 (ws_key 0) view6);
    [apply sample_starts|apply world6_reaches|lia|apply world6_tokens|apply idle6|vm_compute; reflexivity..| | |].
  - by apply elem_of_singleton.
  - apply mapped6.
  - by repeat constructor.
Defined.

End KvSample.
