(* ===== verification/RsStore.v ===== *)
(** The store of recurrent state ([crates/runtime/src/store/rs.rs] with the prepared
    writes of [rs/write.rs]): working sets hold a state slot and a buffer of pages,
    forks and checkpoints share them by counting references, a write copies what is
    shared, and what the last holder drops waits for the fires that still touch it.
    A method takes the store and gives an outcome and the store it leaves; the ones
    that may draw on a grant take it beside the store and leave what remains. *)
From S2P Require Import Prelude Ids Store Pool KvTable KvHash KvStore.

(** One numbering covers the four pools of the store. *)
Inductive RsSlotId : Type := RsSlot (n : N).
#[export] Instance RsSlotId_pool_id : PoolId RsSlotId :=
  {| from_index := RsSlot; index := λ '(RsSlot n), n |}.
#[export] Instance RsSlotId_laws : PoolIdLaws RsSlotId.
Proof. by split; [|intros []]. Qed.
#[export] Instance RsSlotId_eq_dec : EqDecision RsSlotId.
Proof. solve_decision. Defined.
#[export] Program Instance RsSlotId_countable : Countable RsSlotId :=
  inj_countable' (λ '(RsSlot n), n) RsSlot _.
Next Obligation. by intros []. Qed.

Inductive RsWsMarker : Set := .
Abbreviation RsWorkingSetId := (GenKey RsWsMarker).

Module RsStore.
Import KvTable.

(** ** Data *)

Record RsGeometry : Type := mkGeom { state_size : N; buffer_page_tokens : N }.
Record RingGeometry : Type := mkRingGeom { tokens : N; page_size : N }.
Record RingState : Type := mkRing { retired : N; committed : N; head : N }.
Definition default_ring : RingState := mkRing 0 0 0.

Record RingAdvance : Type := mkAdvance {
  positioned : bool;
  settled_ : N;
  reach : N;
  fold_ : option N;
  commit_end : N;
  new_head : option N;
}.

Record RsUnits : Type := mkUnits { u_slots : N; u_pages : N }.
#[export] Instance RsUnits_eq_dec : EqDecision RsUnits.
Proof. solve_decision. Defined.

Inductive RsError : Type :=
  | UnknownWorkingSet
  | BelowFrozen (slot frozen : N)
  | DuplicateWorkingSet
  | OutOfSlots (requested available : RsUnits)
  | GrantMismatch (required granted : RsUnits).

Definition RS_TRANSLATION_UNMAPPED : N := u32_max.

Definition is_zero (u : RsUnits) : bool := bool_decide (u_slots u = 0%N) && bool_decide (u_pages u = 0%N).
Definition covers (u need : RsUnits) : bool :=
  bool_decide (u_slots need ≤ u_slots u)%N && bool_decide (u_pages need ≤ u_pages u)%N.
Definition add (u v : RsUnits) : RsUnits :=
  mkUnits (sat_add u32_max (u_slots u) (u_slots v)) (sat_add u32_max (u_pages u) (u_pages v)).
Definition sub (u v : RsUnits) : RsUnits :=
  mkUnits (u_slots u - u_slots v) (u_pages u - u_pages v).

Record RsGrant : Type := mkGrant { g_slots : list RsSlotId; g_pages : list RsSlotId }.
Definition grant_units (g : RsGrant) : RsUnits :=
  mkUnits (as_u32 (N.of_nat (length (g_slots g)))) (as_u32 (N.of_nat (length (g_pages g)))).
Definition is_empty (g : RsGrant) : bool := bool_decide (g_slots g = []) && bool_decide (g_pages g = []).

Record RsCopyPlan : Type := mkPlan { p_slots : list (N * N); p_pages : list (N * N) }.

(** Indexes into a buffer are [nat]s; positions in tokens are [N]s. *)
Record RsEntry : Type := mkEntry {
  geom : RsGeometry;
  folded : option RsSlotId;
  buffer : list (option RsSlotId);
  base : N;
  frozen : N;
  ring_state : option RingState;
}.

Record RsResidencyTxn : Type := mkTxn {
  scope : list RsWorkingSetId;
  moves : list (RsSlotId * RsSlotId);
  plan : RsCopyPlan;
  is_ring_txn : bool;
}.

Record Touch : Type := mkTouch { writes : list RsSlotId; reads : list RsSlotId }.

Record RsCheckpoint : Type := mkCheckpoint {
  snapshot : RsWorkingSetId;
  owner : option ProcessId;
  last_use : N;
}.

Record RsStateTarget : Type := mkState {
  slot : RsSlotId;
  reset : bool;
  copy_from : option RsSlotId;
  fold_tokens : option N;
}.

Inductive RsBufferTarget : Type :=
  | Fresh (index : nat) (dst : RsSlotId)
  | InPlace (index : nat) (dst : RsSlotId)
  | Cow (index : nat) (src dst : RsSlotId).

Definition target_src (t : RsBufferTarget) : option RsSlotId :=
  match t with Cow _ src _ => Some src | _ => None end.
Definition target_dst (t : RsBufferTarget) : RsSlotId :=
  match t with Fresh _ dst | InPlace _ dst | Cow _ _ dst => dst end.

Record RsPreparedWrite : Type := mkWrite {
  w_ws : RsWorkingSetId;
  w_state : option RsStateTarget;
  w_buffers : list RsBufferTarget;
  w_allocated : list RsSlotId;
  w_seq : N;
  w_snapshots : list (N * RsSlotId);
}.

Definition buffer_copy_plan (w : RsPreparedWrite) : list (RsSlotId * RsSlotId) :=
  omap (λ t, match t with Cow _ src dst => Some (src, dst) | _ => None end) (w_buffers w).

Record RsPendingFold : Type := mkFold { fold_ws : RsWorkingSetId; fold_count : N }.

Record RsSnapshot : Type := mkSnapshot {
  sn_ws : RsWorkingSetId;
  sn_row : N;
  sn_slot : RsSlotId;
  sn_snapshot : RsWorkingSetId;
}.

Record RsPublished : Type := mkPublished { seqs : list N; snapshots : list RsSnapshot }.

(** The order of the ids, as a [BTreeMap] has them. *)
Definition id_le (a b : RsSlotId) : Prop := (index a ≤ index b)%N.
#[export] Instance id_le_dec : RelDecision id_le.
Proof. intros a b. unfold id_le. apply _. Defined.

(** What an entry holds, with [Self::slots]. *)
Definition entry_slots (e : RsEntry) : list RsSlotId :=
  option_list (folded e) ++ omap id (buffer e).

(** ** The store *)

Section store.
Context {WS : Type → Type} `{!KeyedStore RsWorkingSetId WS}.

Record RsStore : Type := mkStore {
  slots : Pool.Pool RsSlotId;
  pages : Pool.Pool RsSlotId;
  host_slots : Pool.Pool RsSlotId;
  host_pages : Pool.Pool RsSlotId;
  pages_at : N;
  ring : option RingGeometry;
  refs : gmap RsSlotId N;
  working_sets : WS RsEntry;
  seq_ : N;
  inflight : gmap N Touch;
  checkpoints : gmap Hash256 RsCheckpoint;
}.
Implicit Types s : RsStore.
Abbreviation sm := (method RsStore RsError).

Definition set_slots s x : RsStore :=
  mkStore x (pages s) (host_slots s) (host_pages s) (pages_at s) (ring s) (refs s) (working_sets s)
    (seq_ s) (inflight s) (checkpoints s).
Definition set_pages s x : RsStore :=
  mkStore (slots s) x (host_slots s) (host_pages s) (pages_at s) (ring s) (refs s) (working_sets s)
    (seq_ s) (inflight s) (checkpoints s).
Definition set_host_slots s x : RsStore :=
  mkStore (slots s) (pages s) x (host_pages s) (pages_at s) (ring s) (refs s) (working_sets s)
    (seq_ s) (inflight s) (checkpoints s).
Definition set_host_pages s x : RsStore :=
  mkStore (slots s) (pages s) (host_slots s) x (pages_at s) (ring s) (refs s) (working_sets s)
    (seq_ s) (inflight s) (checkpoints s).
Definition set_refs s x : RsStore :=
  mkStore (slots s) (pages s) (host_slots s) (host_pages s) (pages_at s) (ring s) x (working_sets s)
    (seq_ s) (inflight s) (checkpoints s).
Definition set_working_sets s x : RsStore :=
  mkStore (slots s) (pages s) (host_slots s) (host_pages s) (pages_at s) (ring s) (refs s) x
    (seq_ s) (inflight s) (checkpoints s).
Definition set_seq s x : RsStore :=
  mkStore (slots s) (pages s) (host_slots s) (host_pages s) (pages_at s) (ring s) (refs s) (working_sets s)
    x (inflight s) (checkpoints s).
Definition set_inflight s x : RsStore :=
  mkStore (slots s) (pages s) (host_slots s) (host_pages s) (pages_at s) (ring s) (refs s) (working_sets s)
    (seq_ s) x (checkpoints s).
Definition set_checkpoints s x : RsStore :=
  mkStore (slots s) (pages s) (host_slots s) (host_pages s) (pages_at s) (ring s) (refs s) (working_sets s)
    (seq_ s) (inflight s) x.

Definition build (slots pages host_slots host_pages : Pool.Pool RsSlotId) (pages_at : N)
    (ring : option RingGeometry) : RsStore :=
  mkStore slots pages host_slots host_pages pages_at ring ∅ st_new 0 ∅ ∅.

(** [None] is an overflow of the numbering, which panics. *)
Definition new (slots pages host_slots host_pages : N) : option RsStore :=
  host ← checked_add_u32 slots pages;
  sp ← Pool.new slots;
  pp ← Pool.new_range slots pages;
  hs ← Pool.new_range host host_slots;
  at_ ← checked_add_u32 host host_slots;
  hp ← Pool.new_range at_ host_pages;
  Some (build sp pp hs hp slots None).

Definition new_ring (geom : RingGeometry) (pages host_pages : N) : option RsStore :=
  let host := N.max pages 1 in
  sp ← Pool.new 0;
  pp ← Pool.new_range 1 (pages - 1);
  hs ← Pool.new_range host 0;
  hp ← Pool.new_range host host_pages;
  Some (build sp pp hs hp 0 (Some geom)).

Definition is_ring s : bool := bool_decide (is_Some (ring s)).

(** ** Numbering *)

Definition is_page s (id : RsSlotId) : bool :=
  (bool_decide (pages_at s ≤ index id)%N && bool_decide (index id < Pool.base (host_slots s))%N)
  || Pool.contains (host_pages s) id.

Definition engine_id s (id : RsSlotId) : N :=
  if Pool.contains (host_pages s) id then (index id - Pool.base (host_pages s))%N
  else if Pool.contains (host_slots s) id then (index id - Pool.base (host_slots s))%N
  else if is_page s id then (index id - pages_at s)%N
  else index id.

(** [None] is an overflow. *)
Definition page_id s (page : N) : option RsSlotId := RsSlot <$> checked_add_u32 page (pages_at s).

(** The ids are distinct ones of a 32-bit numbering, so the counts do not overflow. *)
Definition units s (ids : list RsSlotId) : RsUnits :=
  mkUnits (N.of_nat (length (filter (λ id, is_page s id = false) ids)))
          (N.of_nat (length (filter (λ id, is_page s id = true) ids))).

Definition is_host s (id : RsSlotId) : bool := bool_decide (Pool.base (host_slots s) ≤ index id)%N.
Definition holds_host s (e : RsEntry) : bool := existsb (is_host s) (entry_slots e).

(** ** Pools *)

(** The least key of [inflight]. *)
Definition oldest s : option N :=
  match (map_to_list (inflight s)).*1 with
  | [] => None
  | x :: l => Some (foldr N.min x l)
  end.

Definition retire_idle : sm unit :=
  mcall (λ s,
    let completed := match oldest s with Some oldest => (oldest - 1)%N | None => u64_max end in
    sp ← Pool.retire_through (slots s) completed;
    pp ← Pool.retire_through (pages s) completed;
    Some (tt, set_pages (set_slots s sp) pp)).

Definition recycle (ids : list RsSlotId) (epoch : N) : sm unit :=
  mfor ids (λ id, mmodify (λ s,
    if is_page s id then set_pages s (Pool.recycle_after_epoch (pages s) [id] epoch)
    else set_slots s (Pool.recycle_after_epoch (slots s) [id] epoch))).

(** [release_reserved] on the four pools, with its debug assertions. *)
Definition release_slots (ids : list RsSlotId) : sm unit :=
  s ⇐ mget ;;
  mguard (Pool.release_reserved_asserts (slots s) ids = true) ;;;
  mmodify (λ s, set_slots s (Pool.release_reserved (slots s) ids)).
Definition release_pages (ids : list RsSlotId) : sm unit :=
  s ⇐ mget ;;
  mguard (Pool.release_reserved_asserts (pages s) ids = true) ;;;
  mmodify (λ s, set_pages s (Pool.release_reserved (pages s) ids)).
Definition release_host_slots (ids : list RsSlotId) : sm unit :=
  s ⇐ mget ;;
  mguard (Pool.release_reserved_asserts (host_slots s) ids = true) ;;;
  mmodify (λ s, set_host_slots s (Pool.release_reserved (host_slots s) ids)).
Definition release_host_pages (ids : list RsSlotId) : sm unit :=
  s ⇐ mget ;;
  mguard (Pool.release_reserved_asserts (host_pages s) ids = true) ;;;
  mmodify (λ s, set_host_pages s (Pool.release_reserved (host_pages s) ids)).

Definition release_device (ids : list RsSlotId) : sm unit :=
  mfor ids (λ id, s ⇐ mget ;; if is_page s id then release_pages [id] else release_slots [id]).
Definition release_host (ids : list RsSlotId) : sm unit :=
  mfor ids (λ id, s ⇐ mget ;; if is_page s id then release_host_pages [id] else release_host_slots [id]).

Definition try_alloc_slots (n : nat) : sm (option (list RsSlotId)) := λ s,
  let '(ids, p) := Pool.try_alloc_n (slots s) n in (Ok ids, set_slots s p).
Definition try_alloc_pages (n : nat) : sm (option (list RsSlotId)) := λ s,
  let '(ids, p) := Pool.try_alloc_n (pages s) n in (Ok ids, set_pages s p).
Definition try_alloc_host_slots (n : nat) : sm (option (list RsSlotId)) := λ s,
  let '(ids, p) := Pool.try_alloc_n (host_slots s) n in (Ok ids, set_host_slots s p).
Definition try_alloc_host_pages (n : nat) : sm (option (list RsSlotId)) := λ s,
  let '(ids, p) := Pool.try_alloc_n (host_pages s) n in (Ok ids, set_host_pages s p).

Definition alloc (need : RsUnits) : sm (option (list RsSlotId * list RsSlotId)) :=
  sl ⇐ try_alloc_slots (N.to_nat (u_slots need)) ;;
  match sl with
  | None => mok None
  | Some sl =>
      pg ⇐ try_alloc_pages (N.to_nat (u_pages need)) ;;
      match pg with
      | None => release_slots sl ;;; mok None
      | Some pg => mok (Some (sl, pg))
      end
  end.

Definition reserve (need : RsUnits) : sm (option RsGrant) :=
  o ⇐ alloc need ;; mok ((λ p, mkGrant p.1 p.2) <$> o).
Definition release_reservation (grant : RsGrant) : sm unit :=
  release_slots (g_slots grant) ;;; release_pages (g_pages grant).

Definition available s : RsUnits :=
  mkUnits (as_u32 (N.of_nat (Pool.available (slots s)))) (as_u32 (N.of_nat (Pool.available (pages s)))).
Definition capacity s : RsUnits := mkUnits (Pool.capacity (slots s)) (Pool.capacity (pages s)).
Definition host_available s : RsUnits :=
  mkUnits (as_u32 (N.of_nat (Pool.available (host_slots s))))
          (as_u32 (N.of_nat (Pool.available (host_pages s)))).
Definition host_capacity s : RsUnits := mkUnits (Pool.capacity (host_slots s)) (Pool.capacity (host_pages s)).

(** ** Working sets and references *)

Definition entry (ws : RsWorkingSetId) : sm RsEntry :=
  s ⇐ mget ;; mok_or (st_get (working_sets s) ws) UnknownWorkingSet.
(** A write through [get_mut]. *)
Definition put_entry (ws : RsWorkingSetId) (e : RsEntry) : sm unit :=
  mmodify (λ s, set_working_sets s (st_set (working_sets s) ws e)).
Definition insert_entry (e : RsEntry) : sm RsWorkingSetId :=
  mcall (λ s, '(k, w) ← st_insert (working_sets s) e; Some (k, set_working_sets s w)).
(** [self.entry(ws).expect(..)]. *)
Definition expect_entry (ws : RsWorkingSetId) : sm RsEntry :=
  s ⇐ mget ;; mexpect (st_get (working_sets s) ws).

Definition ref_count s (id : RsSlotId) : N := default 1%N (refs s !! id).

(** [*self.refs.entry(id).or_insert(1) += 1], for each. *)
Definition share (ids : list RsSlotId) : sm unit :=
  mfor ids (λ id,
    s ⇐ mget ;;
    count ⇐ mexpect (checked_add_u32 (ref_count s id) 1) ;;
    mmodify (λ s, set_refs s (<[id := count]> (refs s)))).

Definition touches (t : Touch) (id : RsSlotId) : bool :=
  bool_decide (id ∈ writes t) || bool_decide (id ∈ reads t).

(** The newest fire that touches [id]. *)
Definition newest_touching s (id : RsSlotId) : option N :=
  match (filter (λ p, touches p.2 id = true) (map_to_list (inflight s))).*1 with
  | [] => None
  | x :: l => Some (foldr N.max x l)
  end.

(** [oldest - 1] of a fire numbered 0 panics. *)
Definition drop_epoch s (id : RsSlotId) : option N :=
  match newest_touching s id with
  | Some seq => Some seq
  | None =>
      match oldest s with
      | Some oldest => if decide (oldest = 0%N) then None else Some (oldest - 1)%N
      | None => Some (seq_ s)
      end
  end.

(** A count of 0 that would go below it panics. *)
Definition decref (id : RsSlotId) : sm bool :=
  s ⇐ mget ;;
  mguard (0 < ref_count s id)%N ;;;
  let count := (ref_count s id - 1)%N in
  if decide (count ≠ 0%N) then
    mmodify (λ s, set_refs s (<[id := count]> (refs s))) ;;; mok false
  else
    mmodify (λ s, set_refs s (delete id (refs s))) ;;;
    s ⇐ mget ;;
    if is_host s id then release_host [id] ;;; mok true
    else
      epoch ⇐ mexpect (drop_epoch s id) ;;
      recycle [id] epoch ;;; mok true.

(** [filter(|id| self.decref(id)).count()]. *)
Fixpoint decref_all (ids : list RsSlotId) : sm nat :=
  match ids with
  | [] => mok 0
  | id :: ids => b ⇐ decref id ;; n ⇐ decref_all ids ;; mok ((if (b : bool) then 1 else 0) + n)
  end.

Definition live_ring s (e : RsEntry) : option RingState :=
  if decide (0 < Pool.capacity (pages s))%N then ring_state e else None.

Definition create_working_set (geom : RsGeometry) : sm RsWorkingSetId :=
  s ⇐ mget ;;
  insert_entry (mkEntry geom None [] 0 0 ((λ _, default_ring) <$> ring s)).

Definition fork (ws : RsWorkingSetId) : sm RsWorkingSetId :=
  e ⇐ entry ws ;;
  share (entry_slots e) ;;;
  insert_entry e.

Definition release_working_set (ws : RsWorkingSetId) : sm nat :=
  s ⇐ mget ;;
  match st_remove (working_sets s) ws with
  | (None, _) => mok 0
  | (Some e, w) => mmodify (λ s, set_working_sets s w) ;;; decref_all (entry_slots e)
  end.

Definition note_reads (seq : N) (ids : list RsSlotId) : sm unit :=
  mmodify (λ s,
    match inflight s !! seq with
    | Some t => set_inflight s (<[seq := mkTouch (writes t) (reads t ++ ids)]> (inflight s))
    | None => s
    end).

Definition busy_slots s : gset RsSlotId :=
  list_to_set (concat ((writes ∘ snd) <$> map_to_list (inflight s))).

(** ** Checkpoints *)

Fixpoint drop_keys (keys : list Hash256) : sm nat :=
  match keys with
  | [] => mok 0
  | key :: keys =>
      s ⇐ mget ;;
      match checkpoints s !! key with
      | None => drop_keys keys
      | Some c =>
          mmodify (λ s, set_checkpoints s (delete key (checkpoints s))) ;;;
          n ⇐ release_working_set (snapshot c) ;;
          m ⇐ drop_keys keys ;;
          mok (n + m)
      end
  end.

Definition drop_checkpoints (drop : RsStore → RsWorkingSetId → bool) : sm nat :=
  s ⇐ mget ;;
  let keys := (filter (λ p, drop s (snapshot p.2) = true) (map_to_list (checkpoints s))).*1 in
  drop_keys keys ;;;
  mok (length keys).

(** [*held.entry(id).or_insert(0) += 1] for each. *)
Definition count_slot (held : gmap RsSlotId N) (id : RsSlotId) : gmap RsSlotId N :=
  <[id := (default 0 (held !! id) + 1)%N]> held.

Definition held_within s (scope : gset RsWorkingSetId) : gmap RsSlotId N :=
  foldl count_slot ∅ (concat (entry_slots <$> omap (st_get (working_sets s)) (elements scope))).

Definition any_slot s (ws : RsWorkingSetId) (P : RsSlotId → bool) : bool :=
  match st_get (working_sets s) ws with Some e => existsb P (entry_slots e) | None => false end.

Definition sharing_checkpoints s (sets : gset RsWorkingSetId) : gset RsWorkingSetId :=
  let held := held_within s sets in
  list_to_set (filter (λ ws, any_slot s ws (λ id, bool_decide (is_Some (held !! id))) = true)
    (snapshot <$> (map_to_list (checkpoints s)).*2)).

Definition yield_checkpoints (sets : list RsWorkingSetId) : sm nat :=
  s ⇐ mget ;;
  let sharing := sharing_checkpoints s (list_to_set sets) in
  drop_checkpoints (λ _ ws, bool_decide (ws ∈ sharing)).

(** The latest use and the key of a group, in the order of reclaim: [(key, last_use)]. *)
Definition group_le (a b : Z * N * list Hash256) : Prop :=
  (a.1.1 < b.1.1)%Z ∨ (a.1.1 = b.1.1 ∧ (a.1.2 ≤ b.1.2)%N).
#[local] Instance group_le_dec : RelDecision group_le.
Proof. intros a b. unfold group_le. apply _. Defined.

(** What the working sets no checkpoint hides hold. *)
Definition live_slots s : gset RsSlotId :=
  let hidden : gset RsWorkingSetId := list_to_set (snapshot <$> (map_to_list (checkpoints s)).*2) in
  list_to_set (concat ((λ p, entry_slots p.2) <$>
    filter (λ p, p.1 ∉ hidden) (st_iter (working_sets s)))).

Definition join_group (keys : KvStore.Keys) s (live : gset RsSlotId)
    (groups : gmap (option ProcessId * Z) (list Hash256 * N)) (p : Hash256 * RsCheckpoint) :
    gmap (option ProcessId * Z) (list Hash256 * N) :=
  match st_get (working_sets s) (snapshot p.2) with
  | None => groups
  | Some e =>
      if existsb (λ id, bool_decide (id ∉ live)) (entry_slots e) then
        let k := (owner p.2, KvStore.key_at keys (owner p.2) (frozen e - 1)%N) in
        let g := default ([], last_use p.2) (groups !! k) in
        <[k := (g.1 ++ [p.1], N.max g.2 (last_use p.2))]> groups
      else groups
  end.

Fixpoint reclaim_loop (order : list (Z * N * list Hash256)) : sm nat :=
  match order with
  | [] => mok 0
  | (_, keys) :: order =>
      n ⇐ drop_keys keys ;;
      if decide (0 < n) then mok n else reclaim_loop order
  end.

Definition reclaim_cache (keys : KvStore.Keys) : sm nat :=
  s ⇐ mget ;;
  if decide (checkpoints s = ∅) then mok 0
  else
    let groups := foldl (join_group keys s (live_slots s)) ∅ (map_to_list (checkpoints s)) in
    let order := merge_sort group_le ((λ p, (p.1.2, p.2.2, p.2.1)) <$> map_to_list groups) in
    freed ⇐ reclaim_loop order ;;
    retire_idle ;;;
    mok freed.

Definition discard_cache (o : ProcessId) : sm nat :=
  s ⇐ mget ;;
  freed ⇐ drop_keys (filter (λ p, owner p.2 = Some o) (map_to_list (checkpoints s))).*1 ;;
  retire_idle ;;;
  mok freed.

Definition unsettled s (ws : RsWorkingSetId) : bool :=
  match st_get (working_sets s) ws with
  | None => true
  | Some e => existsb (λ id, bool_decide (id ∈ busy_slots s)) (entry_slots e)
  end.

(** [now] is the reading of the clock. *)
Definition keep (snap : RsWorkingSetId) (key : Hash256) (o : option ProcessId) (now : N) : sm unit :=
  s ⇐ mget ;;
  let old := checkpoints s !! key in
  mmodify (λ s, set_checkpoints s (<[key := mkCheckpoint snap o now]> (checkpoints s))) ;;;
  match old with
  | Some old => release_working_set (snapshot old) ;;; mok tt
  | None => mok tt
  end.

Definition checkpoint (ws : RsWorkingSetId) (key : Hash256) (o : option ProcessId) (now : N) : sm bool :=
  e ⇐ entry ws ;;
  s ⇐ mget ;;
  if decide (is_Some (ring_state e)) then mok false
  else if decide (folded e = None) then mok false
  else if holds_host s e || unsettled s ws then mok false
  else
    snap ⇐ fork ws ;;
    keep snap key o now ;;;
    mok true.

Definition has_checkpoint s (key : Hash256) : bool :=
  match checkpoints s !! key with Some c => negb (unsettled s (snapshot c)) | None => false end.

Definition adopt_checkpoint (ws : RsWorkingSetId) (key : Hash256) (now : N) : sm bool :=
  e ⇐ entry ws ;;
  let fresh := bool_decide (folded e = None) && bool_decide (Forall (λ p, p = None) (buffer e)) in
  s ⇐ mget ;;
  match checkpoints s !! key with
  | None => mok false
  | Some c =>
      if negb (fresh && negb (unsettled s (snapshot c))) then mok false
      else
        from ⇐ entry (snapshot c) ;;
        share (entry_slots from) ;;;
        e ⇐ entry ws ;;
        put_entry ws (mkEntry (geom e) (folded from) (buffer from) (base from) (frozen from) (ring_state e)) ;;;
        mmodify (λ s, set_checkpoints s
          match checkpoints s !! key with
          | Some c => <[key := mkCheckpoint (snapshot c) (owner c) now]> (checkpoints s)
          | None => checkpoints s
          end) ;;;
        mok true
  end.

Definition forget_state (ws : RsWorkingSetId) : sm unit :=
  e ⇐ entry ws ;;
  put_entry ws (mkEntry (geom e) None [] 0 0 (ring_state e)) ;;;
  decref_all (entry_slots e) ;;;
  mok tt.

(** ** Rings *)

Definition lookup_page (e : RsEntry) (index : nat) : option RsSlotId := mjoin (buffer e !! index).

Definition ring_targets s (e : RsEntry) (pages : list nat) : list (nat * option RsSlotId) :=
  match live_ring s e with
  | None => []
  | Some _ => (λ page, (page, lookup_page e page)) <$> KvStore.sort_dedup pages
  end.

(** A slot is shared, or none is held. *)
Definition takes_fresh s (o : option RsSlotId) : bool :=
  match o with None => true | Some id => bool_decide (1 < ref_count s id)%N end.

Definition targets_demand s (targets : list (nat * option RsSlotId)) : N :=
  as_u32 (N.of_nat (length (filter (λ t, takes_fresh s t.2 = true) targets))).

Definition ring_demand (ws : RsWorkingSetId) (pages : list nat) : sm RsUnits :=
  e ⇐ entry ws ;;
  s ⇐ mget ;;
  mok (mkUnits 0 (targets_demand s (ring_targets s e pages))).

Definition ring_translation (ws : RsWorkingSetId) (indexes : list nat) : sm (list N) :=
  e ⇐ entry ws ;;
  s ⇐ mget ;;
  mok match live_ring s e with
      | None => []
      | Some _ =>
          (λ page, match lookup_page e page with Some id => engine_id s id | None => 0%N end) <$> indexes
      end.

(** The ring moved by what a fire commits. *)
Definition advance_ring (r : RingState) (a : RingAdvance) : RingState :=
  let committed := match fold_ a with
    | None => N.max (committed r) (N.min (settled_ a) (head r))
    | Some _ => committed r end in
  let head := match new_head a with Some h => h | None => head r end in
  let committed := match fold_ a with
    | Some fold => sat_add u32_max committed (N.min fold (commit_end a - committed))
    | None => committed end in
  mkRing (retired r) committed head.

(** The first page, in sequence order, that stays. *)
Definition ring_first (g : RingGeometry) (r : RingState) (a : RingAdvance) : N :=
  let reach := if positioned a then committed r else reach a in
  ((reach - tokens g) / N.max (page_size g) 1)%N.

(** [buffer.get_mut(page).and_then(Option::take)] for each page. *)
Fixpoint take_pages (pages : list nat) (buffer : list (option RsSlotId)) :
    list RsSlotId * list (option RsSlotId) :=
  match pages with
  | [] => ([], buffer)
  | page :: pages =>
      match mjoin (buffer !! page) with
      | Some id => let '(ids, b) := take_pages pages (<[page := None]> buffer) in (id :: ids, b)
      | None => take_pages pages buffer
      end
  end.

(** The slice of [order] that falls behind. *)
Definition pages_behind (order : list nat) (retired first : N) : list nat :=
  drop (N.to_nat retired `min` length order) (take (N.to_nat first `min` length order) order).

Definition ring_advance (ws : RsWorkingSetId) (a : RingAdvance) (order : list nat) : sm unit :=
  s ⇐ mget ;;
  match ring s with
  | None => mok tt
  | Some g =>
      e ⇐ expect_entry ws ;;
      match ring_state e with
      | None => mok tt
      | Some r =>
          let r' := advance_ring r a in
          let first := ring_first g r' a in
          if decide (first ≤ retired r)%N then
            put_entry ws (mkEntry (geom e) (folded e) (buffer e) (base e) (frozen e) (Some r'))
          else
            let '(dropped, b) := take_pages (pages_behind order (retired r) first) (buffer e) in
            put_entry ws (mkEntry (geom e) (folded e) b (base e) (frozen e)
              (Some (mkRing first (committed r') (head r')))) ;;;
            decref_all dropped ;;;
            mok tt
      end
  end.

(** ** Groups of lanes *)

(** [writes.filter(|writes| !writes.is_empty())]. *)
Definition nonempty (r : option (N * N)) : option (N * N) :=
  match r with Some r => if decide (r.1 < r.2)%N then Some r else None | None => None end.

(** A position below the base panics, as the subtraction overflows. *)
Definition buffer_targets (e : RsEntry) (w : option (N * N)) : sm (list (nat * option RsSlotId)) :=
  match nonempty w with
  | None => mok []
  | Some (start, end_) =>
      if decide (start < frozen e)%N then merr (BelowFrozen start (frozen e))
      else
        let page := N.max (buffer_page_tokens (geom e)) 1 in
        let base := if decide (buffer e = []) then frozen e else base e in
        mguard (base ≤ start)%N ;;;
        let first := N.to_nat ((start - base) / page) in
        let last := N.to_nat ((end_ - 1 - base) / page) in
        mok ((λ index, (index, lookup_page e index)) <$> seq first (S last - first))
  end.

(** Whether a write of the state takes a slot. *)
Definition takes_state s (e : RsEntry) (write_state fresh : bool) : bool :=
  write_state && (fresh || takes_fresh s (folded e)).

Definition group_demand (ws : RsWorkingSetId) (write_state fresh : bool) (w : option (N * N)) : sm RsUnits :=
  e ⇐ entry ws ;;
  s ⇐ mget ;;
  targets ⇐ buffer_targets e w ;;
  mok (mkUnits (if takes_state s e write_state fresh then 1 else 0) (targets_demand s targets)).

(** ** Writes *)

(** Beside the store, the grant lent with [Option<&mut RsGrant>]. *)
Abbreviation gm := (method (RsStore * option RsGrant) RsError).
Definition with_grant {A} (m : sm A) : gm A := λ g, let '(r, s) := m g.1 in (r, (s, g.2)).

(** The slots and pages of a write: from the grant, or from the pools. *)
Definition draw (need : RsUnits) : gm (list RsSlotId * list RsSlotId) :=
  g ⇐ mget ;;
  match g.2 with
  | Some grant =>
      if negb (covers (grant_units grant) need) then merr (GrantMismatch need (grant_units grant))
      else
        let n := N.to_nat (u_slots need) in
        let m := N.to_nat (u_pages need) in
        mguard (n ≤ length (g_slots grant)) ;;;
        mguard (m ≤ length (g_pages grant)) ;;;
        mmodify (λ g, (g.1, Some (mkGrant (drop n (g_slots grant)) (drop m (g_pages grant))))) ;;;
        mok (take n (g_slots grant), take m (g_pages grant))
  | None =>
      o ⇐ with_grant (alloc need) ;;
      g ⇐ mget ;;
      mok_or o (OutOfSlots need (available g.1))
  end.

(** The state a write lands in, with the iterator over fresh slots. *)
Definition state_target s (e : RsEntry) (write_state fresh : bool) (fold_tokens : option N)
    (ids : list RsSlotId) : option (option RsStateTarget) :=
  if negb write_state then Some None
  else
    match folded e with
    | None => id ← ids !! 0; Some (Some (mkState id true None fold_tokens))
    | Some old =>
        if fresh || bool_decide (1 < ref_count s old)%N then
          id ← ids !! 0; Some (Some (mkState id false (Some old) fold_tokens))
        else Some (Some (mkState old false None fold_tokens))
    end.

(** The buffer pages a write lands in, with the iterator over fresh pages. *)
Fixpoint write_targets s (targets : list (nat * option RsSlotId)) (ids : list RsSlotId) :
    option (list RsBufferTarget) :=
  match targets with
  | [] => Some []
  | (index, None) :: targets =>
      match ids with
      | [] => None
      | dst :: ids => cons (Fresh index dst) <$> write_targets s targets ids
      end
  | (index, Some src) :: targets =>
      if decide (1 < ref_count s src)%N then
        match ids with
        | [] => None
        | dst :: ids => cons (Cow index src dst) <$> write_targets s targets ids
        end
      else cons (InPlace index src) <$> write_targets s targets ids
  end.

(** What a write writes, and what it copies. *)
Definition touch_of (state : option RsStateTarget) (buffers : list RsBufferTarget) : Touch :=
  mkTouch (option_list (slot <$> state) ++ (target_dst <$> buffers))
    (option_list (state ≫= copy_from) ++ omap target_src buffers).

Definition prepare_targets (ws : RsWorkingSetId) (write_state fresh : bool) (fold_tokens : option N)
    (targets : list (nat * option RsSlotId)) : gm RsPreparedWrite :=
  e ⇐ with_grant (entry ws) ;;
  g ⇐ mget ;;
  mguard (holds_host g.1 e = false) ;;;
  let need := mkUnits (if takes_state g.1 e write_state fresh then 1 else 0) (targets_demand g.1 targets) in
  ids ⇐ draw need ;;
  g ⇐ mget ;;
  state ⇐ mexpect (state_target g.1 e write_state fresh fold_tokens ids.1) ;;
  buffers ⇐ mexpect (write_targets g.1 targets ids.2) ;;
  with_grant (mmodify (λ s, set_seq s (as_u64 (seq_ s + 1)))) ;;;
  with_grant (mmodify (λ s, set_inflight s (<[seq_ s := touch_of state buffers]> (inflight s)))) ;;;
  g ⇐ mget ;;
  mok (mkWrite ws state buffers (ids.1 ++ ids.2) (seq_ g.1) []).

Definition prepare_ring (ws : RsWorkingSetId) (pages : list nat) : gm RsPreparedWrite :=
  e ⇐ with_grant (entry ws) ;;
  g ⇐ mget ;;
  prepare_targets ws false false None (ring_targets g.1 e pages).

(** [Vec::resize(n, None)] where it grows. *)
Definition grow (n : nat) (b : list (option RsSlotId)) : list (option RsSlotId) :=
  b ++ replicate (n - length b) None.

(** The buffer sized for the positions a write covers. *)
Definition size_buffer (ws : RsWorkingSetId) (w : option (N * N)) : sm unit :=
  match nonempty w with
  | None => mok tt
  | Some (_, end_) =>
      e ⇐ entry ws ;;
      let base := if decide (buffer e = []) then frozen e else base e in
      let page := N.max (buffer_page_tokens (geom e)) 1 in
      put_entry ws (mkEntry (geom e) (folded e)
        (grow (N.to_nat (KvStore.div_ceil (end_ - base) page)) (buffer e)) base (frozen e) (ring_state e))
  end.

Definition prepare_group (ws : RsWorkingSetId) (write_state fresh : bool) (fold : option N)
    (w : option (N * N)) : gm RsPreparedWrite :=
  with_grant (size_buffer ws w) ;;;
  e ⇐ with_grant (entry ws) ;;
  targets ⇐ with_grant (buffer_targets e w) ;;
  prepare_targets ws write_state fresh fold targets.

Definition prepare_snapshots (prepared : RsPreparedWrite) (rows : list N) : gm RsPreparedWrite :=
  if decide (rows = []) then mok prepared
  else
    let need := mkUnits (as_u32 (N.of_nat (length rows))) 0 in
    g ⇐ mget ;;
    ids ⇐ match g.2 with
          | Some grant =>
              if decide (length rows ≤ length (g_slots grant)) then
                mmodify (λ g, (g.1, Some (mkGrant (drop (length rows) (g_slots grant)) (g_pages grant)))) ;;;
                mok (take (length rows) (g_slots grant))
              else merr (GrantMismatch need (grant_units grant))
          | None =>
              o ⇐ with_grant (alloc need) ;;
              g ⇐ mget ;;
              p ⇐ mok_or o (OutOfSlots need (available g.1)) ;;
              mok p.1
          end ;;
    with_grant (mmodify (λ s,
      match inflight s !! w_seq prepared with
      | Some t => set_inflight s (<[w_seq prepared := mkTouch (writes t ++ ids) (reads t)]> (inflight s))
      | None => s
      end)) ;;;
    mok (mkWrite (w_ws prepared) (w_state prepared) (w_buffers prepared) (w_allocated prepared ++ ids)
           (w_seq prepared) (zip rows ids)).

Definition cancel_prepared (prepared : RsPreparedWrite) : sm unit :=
  recycle (w_allocated prepared) (w_seq prepared) ;;;
  mmodify (λ s, set_inflight s (delete (w_seq prepared) (inflight s))) ;;;
  retire_idle.

Definition cancel_batch (prepared : list RsPreparedWrite) : sm unit := mfor prepared cancel_prepared.

Definition settle (published : RsPublished) : sm unit :=
  mmodify (λ s, set_inflight s (foldl (λ m seq, delete seq m) (inflight s) (seqs published))) ;;;
  retire_idle.

(** ** Publishing *)

(** [match call { Err(e) => handler, ok => ok }]. *)
Definition catch {A} (m : sm A) (h : RsError → sm A) : sm A := λ s,
  match m s with
  | (Err e, s) => h e s
  | r => r
  end.

Definition set_buffer_page (ws : RsWorkingSetId) (index : nat) (dst : RsSlotId) : sm unit :=
  e ⇐ expect_entry ws ;;
  put_entry ws (mkEntry (geom e) (folded e) (<[index := Some dst]> (grow (S index) (buffer e))) (base e)
    (frozen e) (ring_state e)).

(** A row past the end of the numbering panics. *)
Fixpoint publish_snapshots (ws : RsWorkingSetId) (geom : RsGeometry) (frozen : N)
    (rows : list (N * RsSlotId)) : sm (list RsSnapshot) :=
  match rows with
  | [] => mok []
  | (row, slot) :: rows =>
      mmodify (λ s, set_refs s (<[slot := 1%N]> (refs s))) ;;;
      at_ ⇐ mexpect (checked_add_u32 frozen row) ;;
      snap ⇐ insert_entry (mkEntry geom (Some slot) [] at_ at_ None) ;;
      rest ⇐ publish_snapshots ws geom frozen rows ;;
      mok (mkSnapshot ws row slot snap :: rest)
  end.

Definition publish_state (ws : RsWorkingSetId) (state : RsStateTarget) : sm unit :=
  e ⇐ expect_entry ws ;;
  if decide (folded e = Some (slot state)) then mok tt
  else
    mmodify (λ s, set_refs s (<[slot state := 1%N]> (refs s))) ;;;
    put_entry ws (mkEntry (geom e) (Some (slot state)) (buffer e) (base e) (frozen e) (ring_state e)) ;;;
    match folded e with
    | Some old => decref old ;;; mok tt
    | None => mok tt
    end.

Definition publish_target (ws : RsWorkingSetId) (t : RsBufferTarget) : sm unit :=
  match t with
  | Fresh index dst =>
      mmodify (λ s, set_refs s (<[dst := 1%N]> (refs s))) ;;; set_buffer_page ws index dst
  | Cow index src dst =>
      mmodify (λ s, set_refs s (<[dst := 1%N]> (refs s))) ;;; set_buffer_page ws index dst ;;;
      decref src ;;; mok tt
  | InPlace _ _ => mok tt
  end.

(** The folds and the snapshots it adds. *)
Definition publish_prevalidated (prepared : RsPreparedWrite) :
    sm (list RsPendingFold * list RsSnapshot) :=
  let ws := w_ws prepared in
  e ⇐ expect_entry ws ;;
  snaps ⇐ publish_snapshots ws (geom e) (frozen e) (w_snapshots prepared) ;;
  match w_state prepared with Some state => publish_state ws state | None => mok tt end ;;;
  mfor (w_buffers prepared) (publish_target ws) ;;;
  mok (match w_state prepared ≫= fold_tokens with Some count => [mkFold ws count] | None => [] end, snaps).

Fixpoint validate (seen : list RsWorkingSetId) (prepared : list RsPreparedWrite) : sm unit :=
  match prepared with
  | [] => mok tt
  | write :: prepared =>
      entry (w_ws write) ;;;
      if decide (w_ws write ∈ seen) then merr DuplicateWorkingSet
      else validate (seen ++ [w_ws write]) prepared
  end.

Fixpoint publish_loop (prepared : list RsPreparedWrite) : sm (list RsPendingFold * list RsSnapshot) :=
  match prepared with
  | [] => mok ([], [])
  | write :: prepared =>
      p ⇐ publish_prevalidated write ;;
      q ⇐ publish_loop prepared ;;
      mok (p.1 ++ q.1, p.2 ++ q.2)
  end.

Definition publish_batch (prepared : list RsPreparedWrite) : sm (RsPublished * list RsPendingFold) :=
  catch (validate [] prepared) (λ e, cancel_batch prepared ;;; merr e) ;;;
  p ⇐ publish_loop prepared ;;
  mok (mkPublished (w_seq <$> prepared) p.2, p.1).

Definition fold (ws : RsWorkingSetId) (count : N) : sm unit :=
  s ⇐ mget ;;
  match st_get (working_sets s) ws with
  | None => mok tt
  | Some e =>
      let frozen' := sat_add u32_max (frozen e) count in
      let page := N.max (buffer_page_tokens (geom e)) 1 in
      let drop_ := N.to_nat ((frozen' - base e) / page) `min` length (buffer e) in
      base' ⇐ mexpect (checked_add_u32 (base e) (N.of_nat drop_ * page)) ;;
      let left := drop drop_ (buffer e) in
      put_entry ws (mkEntry (geom e) (folded e) left (if decide (left = []) then frozen' else base') frozen'
        (ring_state e)) ;;;
      decref_all (omap id (take drop_ (buffer e))) ;;;
      mok tt
  end.

Definition commit_folds (folds : list RsPendingFold) : sm unit :=
  mfor folds (λ f, fold (fold_ws f) (fold_count f)).

Definition frozen_of (ws : RsWorkingSetId) : sm N := e ⇐ entry ws ;; mok (frozen e).
Definition base_of (ws : RsWorkingSetId) : sm N :=
  e ⇐ entry ws ;; mok (if decide (buffer e = []) then frozen e else base e).
Definition buffer_translation (ws : RsWorkingSetId) : sm (list N) :=
  e ⇐ entry ws ;;
  s ⇐ mget ;;
  mok ((λ o, match o with Some id => engine_id s id | None => RS_TRANSLATION_UNMAPPED end) <$> buffer e).
Definition folded_slot (ws : RsWorkingSetId) : sm (option RsSlotId) := e ⇐ entry ws ;; mok (folded e).

(** ** Residency *)

Definition held s (sets : list RsWorkingSetId) : RsUnits :=
  units s (elements (list_to_set (filter (λ id, is_host s id = false)
    (concat (entry_slots <$> omap (st_get (working_sets s)) sets))) : gset RsSlotId)).

(** The keys of a [BTreeMap]. *)
Definition sorted_keys (m : gmap RsSlotId N) : list RsSlotId := merge_sort id_le (map_to_list m).*1.

(** A slot swapped for another, and how often it was held. *)
Definition swap_slot (from to : RsSlotId) (o : option RsSlotId) : option RsSlotId :=
  if decide (o = Some from) then Some to else o.
Definition swap_entry (from to : RsSlotId) (e : RsEntry) : RsEntry :=
  mkEntry (geom e) (swap_slot from to (folded e)) (swap_slot from to <$> buffer e) (base e) (frozen e)
    (ring_state e).

Fixpoint swap_within (scope : list RsWorkingSetId) (from to : RsSlotId) : sm N :=
  match scope with
  | [] => mok 0%N
  | ws :: scope =>
      s ⇐ mget ;;
      n ⇐ match st_get (working_sets s) ws with
          | Some e =>
              put_entry ws (swap_entry from to e) ;;;
              mok (N.of_nat (length (filter (λ id, id = from) (entry_slots e))))
          | None => mok 0%N
          end ;;
      m ⇐ swap_within scope from to ;;
      mok (n + m)%N
  end.

(** A slot of the sets that is not among the shared ones panics. *)
Fixpoint private_loop s (shared : gmap RsSlotId N) (ids : list RsSlotId) : option (list RsSlotId) :=
  match ids with
  | [] => Some []
  | id :: ids =>
      if is_host s id then private_loop s shared ids
      else
        n ← shared !! id;
        rest ← private_loop s shared ids;
        Some (if decide (ref_count s id = n) then id :: rest else rest)
  end.

Definition private s (sets : gset RsWorkingSetId) : option (list RsSlotId) :=
  private_loop s (held_within s (sharing_checkpoints s sets ∪ sets)) (sorted_keys (held_within s sets)).

Definition suspendable (sets : gset RsWorkingSetId) : sm RsUnits :=
  s ⇐ mget ;; ids ⇐ mexpect (private s sets) ;; mok (units s ids).

Definition swapped s (sets : gset RsWorkingSetId) : list RsSlotId :=
  filter (λ id, is_host s id = true) (sorted_keys (held_within s sets)).
Definition swapped_units s (sets : gset RsWorkingSetId) : RsUnits := units s (swapped s sets).

(** A move joins the plan of its kind, in the engine's numbering. *)
Definition plan_move s (plan : RsCopyPlan) (m : RsSlotId * RsSlotId) : RsCopyPlan :=
  let '(device, host) := if is_host s m.1 then (m.2, m.1) else m in
  let pair := (engine_id s device, engine_id s host) in
  if is_page s device then mkPlan (p_slots plan) (p_pages plan ++ [pair])
  else mkPlan (p_slots plan ++ [pair]) (p_pages plan).

Definition txn s (sets : gset RsWorkingSetId) (moves : list (RsSlotId * RsSlotId)) : RsResidencyTxn :=
  mkTxn (elements sets) moves (foldl (plan_move s) (mkPlan [] []) moves) (is_ring s).

Definition prepare_suspend (sets : gset RsWorkingSetId) : sm (option RsResidencyTxn) :=
  s ⇐ mget ;;
  ids ⇐ mexpect (private s sets) ;;
  let ids := filter (λ id, id ∉ busy_slots s) ids in
  if decide (ids = []) then mok None
  else
    let pg := filter (λ id, is_page s id = true) ids in
    let sl := filter (λ id, is_page s id = false) ids in
    hs ⇐ try_alloc_host_slots (length sl) ;;
    match hs with
    | None => mok None
    | Some hs =>
        hp ⇐ try_alloc_host_pages (length pg) ;;
        match hp with
        | None => release_host_slots hs ;;; mok None
        | Some hp =>
            drop_checkpoints (λ s ws, any_slot s ws (λ id, bool_decide (id ∈ sl ++ pg))) ;;;
            s ⇐ mget ;;
            mok (Some (txn s sets (zip (sl ++ pg) (hs ++ hp))))
        end
    end.

(** A page's count goes with it to its new slot. *)
Definition move_count (from to : RsSlotId) : sm unit :=
  mmodify (λ s, match refs s !! from with
    | Some count => set_refs s (<[to := count]> (delete from (refs s)))
    | None => s end).

Fixpoint suspend_loop (scope : list RsWorkingSetId) (held : gmap RsSlotId N) (busy : gset RsSlotId)
    (epoch : N) (moves : list (RsSlotId * RsSlotId)) : sm (list RsSlotId) :=
  match moves with
  | [] => mok []
  | (device, host) :: moves =>
      let within := default 0%N (held !! device) in
      if decide (within = 0%N) then
        release_host [host] ;;; suspend_loop scope held busy epoch moves
      else
        s ⇐ mget ;;
        mguard (ref_count s device = within ∧ device ∉ busy) ;;;
        swap_within scope device host ;;;
        move_count device host ;;;
        recycle [device] epoch ;;;
        freed ⇐ suspend_loop scope held busy epoch moves ;;
        mok (device :: freed)
  end.

Definition commit_suspend (t : RsResidencyTxn) : sm RsUnits :=
  s ⇐ mget ;;
  freed ⇐ suspend_loop (scope t) (held_within s (list_to_set (scope t))) (busy_slots s) (seq_ s) (moves t) ;;
  retire_idle ;;;
  s ⇐ mget ;;
  mok (units s freed).

Definition abort_suspend (t : RsResidencyTxn) : sm unit := release_host (moves t).*2.

(** A device slot or page of the grant for each that is swapped. *)
Fixpoint restore_moves s (ids slots pages : list RsSlotId) : option (list (RsSlotId * RsSlotId)) :=
  match ids with
  | [] => Some []
  | host :: ids =>
      if is_page s host then
        match pages with
        | device :: pages => cons (host, device) <$> restore_moves s ids slots pages
        | [] => None
        end
      else
        match slots with
        | device :: slots => cons (host, device) <$> restore_moves s ids slots pages
        | [] => None
        end
  end.

(** The grant is lent with [&mut]. *)
Definition prepare_restore (sets : gset RsWorkingSetId) : gm RsResidencyTxn :=
  g ⇐ mget ;;
  let ids := swapped g.1 sets in
  ids' ⇐ draw (units g.1 ids) ;;
  moves ⇐ mexpect (restore_moves g.1 ids ids'.1 ids'.2) ;;
  mok (txn g.1 sets moves).

Fixpoint restore_loop (scope : list RsWorkingSetId) (moves : list (RsSlotId * RsSlotId)) : sm nat :=
  match moves with
  | [] => mok 0
  | (host, device) :: moves =>
      n ⇐ swap_within scope host device ;;
      if decide (n = 0%N) then release_device [device] ;;; restore_loop scope moves
      else
        move_count host device ;;;
        release_host [host] ;;;
        m ⇐ restore_loop scope moves ;;
        mok (S m)
  end.

Definition commit_restore (t : RsResidencyTxn) : sm nat := restore_loop (scope t) (moves t).
Definition abort_restore (t : RsResidencyTxn) : sm unit := release_device (moves t).*2.
End store.
Arguments RsStore : clear implicits.
End RsStore.
