(* ===== verification/RsBooks.v ===== *)
(** The books of the recurrent-state store: every slot and page is in one place, the
    references counted are the ones working sets have, and what a fire in flight
    touches is not free. While a method runs, some references are in its hand: they
    are counted and no entry has them yet, or no longer. *)
From S2P Require Import Prelude Ids Store Pool KvTable KvStore Hoare RsStore.

Module RsBooks.
Import RsStore.

(** ** Counting in lists *)

Definition mult (x : RsSlotId) (l : list RsSlotId) : nat := length (filter (λ y, y = x) l).

Lemma mult_app x l k : mult x (l ++ k) = mult x l + mult x k.
Proof. unfold mult. by rewrite filter_app, length_app. Qed.
Lemma mult_cons x y l : mult x (y :: l) = (if decide (y = x) then 1 else 0) + mult x l.
Proof. unfold mult. rewrite filter_cons. by case_decide. Qed.
Lemma mult_nil x : mult x [] = 0.
Proof. done. Qed.
#[export] Instance mult_proper x : Proper (Permutation ==> eq) (mult x).
Proof. intros l k Hlk. unfold mult. by rewrite Hlk. Qed.
Lemma mult_zero x l : mult x l = 0 ↔ x ∉ l.
Proof.
  induction l as [|y l IH]; [by split; [intros _ ?%not_elem_of_nil|]|].
  rewrite mult_cons, not_elem_of_cons, <-IH. case_decide; naive_solver lia.
Qed.
Lemma mult_pos x l : x ∈ l → 0 < mult x l.
Proof. intros Hx. destruct (decide (mult x l = 0)) as [Hz%mult_zero|]; [done|lia]. Qed.
Lemma mult_NoDup x l : NoDup l → mult x l ≤ 1.
Proof.
  induction 1 as [|y l Hy _ IH]; [rewrite mult_nil; lia|]. rewrite mult_cons.
  case_decide as Hyx; [|lia]. subst. apply mult_zero in Hy. lia.
Qed.

(** ** The layout of the numbering *)

(** The ranges of the four pools, and where the device pages begin. *)
Record layout : Type := mkLayout {
  x_slots : N * N;
  x_pages : N * N;
  x_host_slots : N * N;
  x_host_pages : N * N;
  x_pages_at : N;
}.

Definition within (r : N * N) (id : RsSlotId) : Prop := (r.1 ≤ index id < r.1 + r.2)%N.
#[export] Instance within_dec r id : Decision (within r id).
Proof. unfold within. apply _. Defined.

(** The ranges follow one another. *)
Record layout_ok (x : layout) : Prop := {
  lo_slots : ((x_slots x).1 + (x_slots x).2 ≤ x_pages_at x)%N;
  lo_at : (x_pages_at x ≤ (x_host_slots x).1)%N;
  lo_pages : (x_pages_at x ≤ (x_pages x).1)%N;
  lo_device : ((x_pages x).1 + (x_pages x).2 ≤ (x_host_slots x).1)%N;
  lo_host : ((x_host_slots x).1 + (x_host_slots x).2 ≤ (x_host_pages x).1)%N;
  lo_end : ((x_host_pages x).1 + (x_host_pages x).2 ≤ u32_max)%N;
}.

(** The four kinds of ids. *)
Definition exists_in (x : layout) (id : RsSlotId) : Prop :=
  within (x_slots x) id ∨ within (x_pages x) id ∨ within (x_host_slots x) id ∨ within (x_host_pages x) id.
Definition paged (x : layout) (id : RsSlotId) : Prop := within (x_pages x) id ∨ within (x_host_pages x) id.
Definition hosted (x : layout) (id : RsSlotId) : Prop := within (x_host_slots x) id ∨ within (x_host_pages x) id.
#[export] Instance paged_dec x id : Decision (paged x id).
Proof. unfold paged. apply _. Defined.

(** ** Entries *)

(** What the entries of these working sets hold. *)
Definition all_slots (m : gmap RsWorkingSetId RsEntry) : list RsSlotId :=
  concat ((entry_slots ∘ snd) <$> map_to_list m).

Lemma all_slots_insert m ws e : m !! ws = None → all_slots (<[ws := e]> m) ≡ₚ entry_slots e ++ all_slots m.
Proof. intros Hws. unfold all_slots. by rewrite map_to_list_insert. Qed.
Lemma all_slots_delete m ws e : m !! ws = Some e → all_slots m ≡ₚ entry_slots e ++ all_slots (delete ws m).
Proof.
  intros Hws. rewrite <-(insert_delete_id m ws e) at 1 by done. apply all_slots_insert, lookup_delete_eq.
Qed.
Lemma all_slots_update m ws e e' :
  m !! ws = Some e → entry_slots e ++ all_slots (<[ws := e']> m) ≡ₚ entry_slots e' ++ all_slots m.
Proof.
  intros Hws. rewrite <-insert_delete_eq, all_slots_insert by apply lookup_delete_eq.
  rewrite (all_slots_delete m ws e) by done. solve_perm.
Qed.
Lemma elem_of_all_slots m id : id ∈ all_slots m ↔ ∃ ws e, m !! ws = Some e ∧ id ∈ entry_slots e.
Proof.
  unfold all_slots. rewrite elem_of_concat. split.
  - intros (l & ([ws e] & -> & Hin%elem_of_map_to_list)%list_elem_of_fmap & Hid). eauto.
  - intros (ws & e & Hws & Hid). exists (entry_slots e). split; [|done].
    apply list_elem_of_fmap. exists (ws, e). split; [done|]. by apply elem_of_map_to_list.
Qed.

(** No entry has a slot twice, so a slot is in as many entries as it is counted. *)
Lemma mult_all_slots m id :
  (∀ ws e, m !! ws = Some e → NoDup (entry_slots e)) → mult id (all_slots m) ≤ size m.
Proof.
  induction m as [|ws e m Hws IH] using map_ind; intros Hnd; [done|].
  rewrite all_slots_insert, map_size_insert_None, mult_app by done.
  assert (mult id (entry_slots e) ≤ 1) by (apply mult_NoDup, (Hnd ws); by rewrite lookup_insert_eq).
  assert (mult id (all_slots m) ≤ size m); [|lia]. apply IH. intros ws' e' Hws'. apply (Hnd ws').
  rewrite lookup_insert_ne; [done|]. by intros <-; rewrite Hws in Hws'.
Qed.

Lemma elem_of_entry_slots e id : id ∈ entry_slots e ↔ folded e = Some id ∨ Some id ∈ buffer e.
Proof.
  unfold entry_slots. rewrite elem_of_app, list_elem_of_omap. split.
  - intros [Hf|(o & Ho & [= Hid])]; [left|right; by subst]. destruct (folded e); [|by apply not_elem_of_nil in Hf].
    by apply list_elem_of_singleton in Hf as ->.
  - intros [->|Hb]; [left; by left|right]. by exists (Some id).
Qed.

(** An entry's slots are distinct and of their kinds, and its positions are in order. *)
Record entry_ok (x : layout) (e : RsEntry) : Prop := {
  eo_nodup : NoDup (entry_slots e);
  eo_folded id : folded e = Some id → ¬ paged x id;
  eo_buffer id : Some id ∈ buffer e → paged x id;
  eo_base : (base e ≤ frozen e)%N;
  eo_frozen : (frozen e ≤ u32_max)%N;
}.

(** ** The store between two calls *)

Section books.
Context {WS : Type → Type}.
Context `{!KeyedStore RsWorkingSetId WS, !KeyedStoreLaws RsWorkingSetId WS}.
Abbreviation store := (RsStore WS).
Abbreviation sm := (method store RsError).
Implicit Types s : store.

Abbreviation wm s := (st_map (working_sets s)).

Definition extents s : layout :=
  mkLayout (Pool.extent (slots s)) (Pool.extent (pages s)) (Pool.extent (host_slots s))
    (Pool.extent (host_pages s)) (pages_at s).

(** Every slot and page there is, and those that nobody outside has. *)
Definition universe s : list RsSlotId :=
  Pool.ids_of (slots s) ++ Pool.ids_of (pages s) ++ Pool.ids_of (host_slots s) ++ Pool.ids_of (host_pages s).
Definition stock s : list RsSlotId :=
  Pool.held (slots s) ++ Pool.held (pages s) ++ Pool.held (host_slots s) ++ Pool.held (host_pages s) ++
  (map_to_list (refs s)).*1.

(** ** One of the four pools *)

Inductive place : Set := AtSlots | AtPages | AtHostSlots | AtHostPages.
#[export] Instance place_eq_dec : EqDecision place.
Proof. solve_decision. Defined.

Definition pool_at (w : place) s : Pool.Pool RsSlotId :=
  match w with AtSlots => slots s | AtPages => pages s | AtHostSlots => host_slots s | AtHostPages => host_pages s end.
Definition put_pool (w : place) s (p : Pool.Pool RsSlotId) : store :=
  match w with
  | AtSlots => set_slots s p | AtPages => set_pages s p
  | AtHostSlots => set_host_slots s p | AtHostPages => set_host_pages s p
  end.
Definition range_at (w : place) (x : layout) : N * N :=
  match w with
  | AtSlots => x_slots x | AtPages => x_pages x | AtHostSlots => x_host_slots x | AtHostPages => x_host_pages x
  end.

(** An id out of the store: given to a caller, given to the write of a number, or
    dropped and about to wait. *)
Inductive tag : Set := Given | Writing (q : N) | Dropped.
Abbreviation loan := (tag * RsSlotId)%type.

(** The fires that a loan keeps an id for. *)
Definition shelters (o : tag) (q : N) : Prop :=
  match o with Given => False | Writing q' => q' = q | Dropped => True end.
Definition sheltered (B : list loan) (q : N) (id : RsSlotId) : Prop := ∃ o, (o, id) ∈ B ∧ shelters o q.

(** A fire's slot that waits is in a batch no older than the fire. *)
Definition waiting s (q : N) (id : RsSlotId) : Prop :=
  ∃ epoch ids, ((epoch, ids) ∈ Pool.pending (slots s) ∨ (epoch, ids) ∈ Pool.pending (pages s)) ∧
    id ∈ ids ∧ (q ≤ epoch)%N.

Record ready (x : layout) (n : nat) s (B : list loan) (H : list RsSlotId) : Prop := {
  rd_valid : st_valid (working_sets s);
  rd_room : st_room (working_sets s) n;
  rd_size : (N.of_nat (size (wm s) + n) ≤ u32_max)%N;
  rd_extents : extents s = x;
  rd_layout : layout_ok x;
  rd_whole : B.*2 ++ stock s ≡ₚ universe s;
  rd_places w id : id ∈ Pool.held (pool_at w s) → within (range_at w x) id;
  rd_refs id : default 0%N (refs s !! id) = N.of_nat (mult id (all_slots (wm s) ++ H)) ∧ refs s !! id ≠ Some 0%N;
  rd_due w e ids : (e, ids) ∈ Pool.pending (pool_at w s) → (w = AtSlots ∨ w = AtPages) ∧ (e ≤ u64_max)%N;
  rd_entries ws e : wm s !! ws = Some e → entry_ok x e;
  rd_seqs q t : inflight s !! q = Some t → (0 < q ≤ seq_ s)%N;
  rd_seq : (seq_ s + N.of_nat n < 2 ^ 64)%N;
  rd_touched q t id : inflight s !! q = Some t → touches t id = true →
    ¬ hosted x id ∧ (is_Some (refs s !! id) ∨ waiting s q id ∨ sheltered B q id);
  rd_kept key c : checkpoints s !! key = Some c → is_Some (wm s !! snapshot c);
  rd_apart key key' c c' : checkpoints s !! key = Some c → checkpoints s !! key' = Some c' →
    snapshot c = snapshot c' → key = key';
}.

Lemma rs_ready_le x m n s B H : m ≤ n → ready x n s B H → ready x m s B H.
Proof. intros Hle []. split; try done; [by eapply st_room_le|lia..]. Qed.

Lemma rs_ready_perm x n s B B' H H' : B ≡ₚ B' → H ≡ₚ H' → ready x n s B H → ready x n s B' H'.
Proof.
  intros HB HH []. split; try done.
  - by rewrite <-HB.
  - intros id. by rewrite <-HH.
  - intros q t id Hq Ht. unfold sheltered. setoid_rewrite <-HB. eauto.
Qed.

(** ** Numbering *)

Lemma extent_within (p : Pool.Pool RsSlotId) id : id ∈ Pool.ids_of p ↔ within (Pool.extent p) id.
Proof. apply Pool.elem_of_ids_of. Qed.

Lemma rs_elem_of_universe s id : id ∈ universe s ↔ exists_in (extents s) id.
Proof. unfold universe, exists_in. rewrite !elem_of_app, !extent_within. done. Qed.

Lemma within_apart r r' id : (r.1 + r.2 ≤ r'.1)%N → within r id → ¬ within r' id.
Proof. unfold within. lia. Qed.

Lemma rs_NoDup_universe s : layout_ok (extents s) → NoDup (universe s).
Proof.
  intros []. unfold universe. simpl in *.
  assert (Hd : ∀ (p p' : Pool.Pool RsSlotId), ((Pool.extent p).1 + (Pool.extent p).2 ≤ (Pool.extent p').1)%N →
    ∀ id, id ∈ Pool.ids_of p → id ∉ Pool.ids_of p').
  { intros p p' Hle id. rewrite !extent_within. by apply within_apart. }
  rewrite !NoDup_app. split_and!; try apply Pool.NoDup_ids_of; intros id Hid; rewrite ?elem_of_app.
  - intros [H|[H|H]]; revert H; apply (Hd (slots s)); simpl; try done; lia.
  - intros [H|H]; revert H; apply (Hd (pages s)); simpl; try done; lia.
  - revert Hid. apply Hd. simpl. lia.
Qed.

(** The kind of an id that exists. *)
Lemma contains_within (p : Pool.Pool RsSlotId) id :
  ((Pool.extent p).1 + (Pool.extent p).2 ≤ u32_max)%N → Pool.contains p id = true ↔ within (Pool.extent p) id.
Proof.
  unfold Pool.contains, sat_add, within, Pool.extent. simpl. intros Hle.
  rewrite andb_true_iff, !bool_decide_eq_true. lia.
Qed.

Lemma is_page_spec s id :
  layout_ok (extents s) → exists_in (extents s) id → is_page s id = true ↔ paged (extents s) id.
Proof.
  intros [] Hex. simpl in *. unfold is_page. rewrite orb_true_iff, andb_true_iff, !bool_decide_eq_true.
  rewrite contains_within by done. unfold exists_in, paged, within in *. simpl in *. lia.
Qed.

Lemma is_host_spec s id :
  layout_ok (extents s) → exists_in (extents s) id → is_host s id = true ↔ hosted (extents s) id.
Proof.
  intros [] Hex. simpl in *. unfold is_host. rewrite bool_decide_eq_true.
  unfold exists_in, hosted, within in *. simpl in *. lia.
Qed.

(** ** What a change of the pools keeps *)

(** Everything but the pools and the counts is as it was. *)
Definition frame s s' : Prop :=
  working_sets s' = working_sets s ∧ seq_ s' = seq_ s ∧ inflight s' = inflight s ∧
  checkpoints s' = checkpoints s ∧ ring s' = ring s.
#[export] Instance frame_refl : Reflexive frame.
Proof. by intros s. Qed.
#[export] Instance frame_trans : Transitive frame.
Proof. intros s1 s2 s3 (?&?&?&?&?) (?&?&?&?&?). unfold frame. split_and!; congruence. Qed.

Lemma put_pool_frame w s p : frame s (put_pool w s p) ∧ refs (put_pool w s p) = refs s.
Proof. by destruct w. Qed.

Lemma pool_at_put w s p : pool_at w (put_pool w s p) = p.
Proof. by destruct w. Qed.
Lemma pool_at_put_ne w w' s p : w' ≠ w → pool_at w' (put_pool w s p) = pool_at w' s.
Proof. by destruct w, w'. Qed.

Lemma pool_at_range w s : Pool.extent (pool_at w s) = range_at w (extents s).
Proof. by destruct w. Qed.

Lemma put_pool_extents w s p : Pool.extent p = Pool.extent (pool_at w s) → extents (put_pool w s p) = extents s.
Proof. destruct w; unfold extents; simpl; by intros ->. Qed.

Lemma put_pool_stock w s p : Pool.held (pool_at w s) ++ stock (put_pool w s p) ≡ₚ Pool.held p ++ stock s.
Proof. destruct w; unfold stock; simpl; solve_perm. Qed.

Lemma universe_extents s s' : extents s' = extents s → universe s' = universe s.
Proof.
  unfold extents, universe, Pool.ids_of, Pool.extent. intros [= H1 H2 H3 H4 H5 H6 H7 H8 _].
  by rewrite H1, H2, H3, H4, H5, H6, H7, H8.
Qed.

(** A change of the pools alone, under which what a fire touches stays away. *)
Lemma rs_ready_pools x n s s' B B' H :
  ready x n s B H → frame s s' → refs s' = refs s → extents s' = extents s →
  B'.*2 ++ stock s' ≡ₚ B.*2 ++ stock s →
  (∀ w id, id ∈ Pool.held (pool_at w s') → within (range_at w x) id) →
  (∀ q t id, inflight s !! q = Some t → touches t id = true → waiting s q id ∨ sheltered B q id →
     waiting s' q id ∨ sheltered B' q id) →
  (∀ w e ids, (e, ids) ∈ Pool.pending (pool_at w s') →
     (e, ids) ∈ Pool.pending (pool_at w s) ∨ ((w = AtSlots ∨ w = AtPages) ∧ (e ≤ u64_max)%N)) →
  ready x n s' B' H.
Proof.
  intros [] (F1 & F2 & F3 & F4 & F5) Hr Hx Hst Hpl Ht Hd. split; rewrite ?F1, ?F2, ?F3, ?F4, ?Hr; try done.
  - congruence.
  - by rewrite Hst, (universe_extents s s').
  - intros w e ids Hp. destruct (Hd w e ids Hp); [by eapply rd_due0|done].
  - intros q t id Hq Htch. destruct (rd_touched0 q t id Hq Htch) as [Hh [?|?]]; (split; [done|]); [by left|right].
    by eapply Ht.
Qed.

(** What is lent changes hands. *)
Lemma ready_relend x n s B B' H :
  ready x n s B H → B'.*2 ≡ₚ B.*2 →
  (∀ q t id, inflight s !! q = Some t → touches t id = true → sheltered B q id → sheltered B' q id) →
  ready x n s B' H.
Proof.
  intros Hr HB Hs. eapply rs_ready_pools; [exact Hr|done..| |apply (rd_places _ _ _ _ _ Hr)| |].
  - by rewrite HB.
  - intros q t id Hq Ht [?|?]; [by left|right]. by eapply Hs.
  - intros. by left.
Qed.

(** An id lent is one of the pools', and not in them. *)
Lemma lent_apart x n s B H id : ready x n s B H → id ∈ B.*2 → exists_in x id ∧ id ∉ stock s.
Proof.
  intros Hr Hid. pose proof (rs_NoDup_universe s) as Hnd. rewrite (rd_extents _ _ _ _ _ Hr) in Hnd.
  specialize (Hnd (rd_layout _ _ _ _ _ Hr)). rewrite <-(rd_whole _ _ _ _ _ Hr) in Hnd. split.
  - rewrite <-(rd_extents _ _ _ _ _ Hr), <-rs_elem_of_universe, <-(rd_whole _ _ _ _ _ Hr). set_solver.
  - by eapply NoDup_app_disjoint.
Qed.

Lemma stock_pool w s id : id ∈ Pool.held (pool_at w s) → id ∈ stock s.
Proof. unfold stock. rewrite !elem_of_app. destruct w; simpl; tauto. Qed.

Lemma layout_range x w : layout_ok x → ((range_at w x).1 + (range_at w x).2 ≤ u32_max)%N.
Proof. intros []. destruct w; simpl; lia. Qed.

Lemma within_exists x w id : within (range_at w x) id → exists_in x id.
Proof. unfold exists_in. destruct w; simpl; tauto. Qed.

(** *** Giving back *)

Definition loans (o : tag) (ids : list RsSlotId) : list loan := (λ id, (o, id)) <$> ids.
Lemma loans_snd o ids : (loans o ids).*2 = ids.
Proof. unfold loans. rewrite <-list_fmap_compose. by apply list_fmap_id. Qed.
Lemma loans_app o ids ids' : loans o (ids ++ ids') = loans o ids ++ loans o ids'.
Proof. apply fmap_app. Qed.
Lemma elem_of_loans o o' id ids : (o', id) ∈ loans o ids ↔ o' = o ∧ id ∈ ids.
Proof. unfold loans. rewrite list_elem_of_fmap. naive_solver. Qed.

Definition release_at (w : place) (ids : list RsSlotId) : sm unit :=
  s ⇐ mget ;;
  mguard (Pool.release_reserved_asserts (pool_at w s) ids = true) ;;;
  mmodify (λ s, put_pool w s (Pool.release_reserved (pool_at w s) ids)).

Lemma release_at_ready x n s w ids B H :
  ready x n s (loans Given ids ++ B) H → Forall (within (range_at w x)) ids →
  wp (release_at w ids) (λ _ s', ready x n s' B H ∧ frame s s' ∧ refs s' = refs s) (λ _ _, False) s.
Proof.
  intros Hr Hw. rewrite Forall_forall in Hw. unfold release_at. apply wp_then, wp_get, wp_then, wp_guard.
  - apply Pool.release_asserts_gen.
    + unfold Pool.in_range. pose proof (layout_range x w (rd_layout _ _ _ _ _ Hr)) as Hl.
      rewrite <-(rd_extents _ _ _ _ _ Hr), <-pool_at_range in Hl. exact Hl.
    + intros id Hid. rewrite extent_within, pool_at_range, (rd_extents _ _ _ _ _ Hr). by apply Hw.
    + intros id Hid Hheld. apply (lent_apart x n s _ H id Hr); [|by eapply stock_pool].
      rewrite fmap_app, loans_snd. set_solver.
  - apply wp_modify. destruct (put_pool_frame w s (Pool.release_reserved (pool_at w s) ids)) as [Hf Hrf].
    split_and!; [|done..]. eapply rs_ready_pools; [exact Hr|done|done|by apply put_pool_extents| | | |].
    + pose proof (put_pool_stock w s (Pool.release_reserved (pool_at w s) ids)) as Hst.
      rewrite fmap_app, loans_snd. apply (Permutation_app_inv_l (Pool.held (pool_at w s))).
      transitivity (B.*2 ++ Pool.held (pool_at w s) ++ stock (put_pool w s (Pool.release_reserved (pool_at w s) ids))); [solve_perm|].
      rewrite Hst. unfold Pool.held. simpl. solve_perm.
    + intros w' id Hid. destruct (decide (w' = w)) as [->|Hne].
      * rewrite pool_at_put in Hid. unfold Pool.held in Hid. simpl in Hid.
        rewrite !elem_of_app in Hid. destruct Hid as [[Hid|Hid]|Hid]; [|by apply Hw|];
          apply (rd_places _ _ _ _ _ Hr w); unfold Pool.held; set_solver.
      * rewrite pool_at_put_ne in Hid by done. by apply (rd_places _ _ _ _ _ Hr).
    + intros q t id Hq Ht [Hwt|Hin]; [left|right].
      * destruct Hwt as (epoch & l & Hp & Hid & Hle). exists epoch, l. split_and!; [|done..].
        by destruct w.
      * destruct Hin as (o & [[-> _]%elem_of_loans|Hin]%elem_of_app & Ho); [done|]. by exists o.
    + intros w' e l Hp. left. by destruct w, w'.
Qed.

(** The kind of an id that exists decides the pool. *)
Lemma place_device x s id :
  extents s = x → layout_ok x → exists_in x id → ¬ hosted x id →
  (is_page s id = true ∧ within (x_pages x) id) ∨ (is_page s id = false ∧ within (x_slots x) id).
Proof.
  intros <- Hl Hex Hh. pose proof (is_page_spec s id Hl Hex) as Hp. unfold exists_in, hosted, paged in *.
  destruct (is_page s id); [left|right]; (split; [done|]).
  - destruct (proj1 Hp eq_refl); tauto.
  - assert (¬ within (x_pages (extents s)) id) by (intros H; assert (false = true) by (apply Hp; by left); done). tauto.
Qed.

Lemma place_host x s id :
  extents s = x → layout_ok x → hosted x id →
  (is_page s id = true ∧ within (x_host_pages x) id) ∨ (is_page s id = false ∧ within (x_host_slots x) id).
Proof.
  intros <- Hl Hh. assert (Hex : exists_in (extents s) id) by (unfold exists_in, hosted in *; tauto).
  pose proof (is_page_spec s id Hl Hex) as Hp. unfold paged, hosted in *.
  destruct (is_page s id); [left|right]; (split; [done|]).
  - destruct (proj1 Hp eq_refl) as [H1|?]; [|done]. exfalso. destruct Hl. unfold within in *. simpl in *. lia.
  - destruct Hh as [?|H]; [done|]. assert (false = true) by (apply Hp; by right). done.
Qed.

(** The number of an id, by the pool it is of. *)
Lemma numbering s v id :
  layout_ok (extents s) → within (range_at v (extents s)) id →
  engine_id s id = (match v with
    | AtHostPages => index id - Pool.base (host_pages s) | AtHostSlots => index id - Pool.base (host_slots s)
    | AtPages => index id - pages_at s | AtSlots => index id end)%N.
Proof.
  intros Hl Hv. assert (Hex : exists_in (extents s) id) by (unfold exists_in; destruct v; tauto).
  pose proof (is_page_spec s id Hl Hex) as Hp. pose proof (contains_within (host_pages s) id) as C1.
  pose proof (contains_within (host_slots s) id) as C2. destruct Hl. unfold engine_id.
  unfold exists_in, hosted, paged, within in *. simpl in *.
  specialize (C1 ltac:(lia)). specialize (C2 ltac:(lia)).
  destruct v, (is_page s id), (Pool.contains (host_pages s) id), (Pool.contains (host_slots s) id);
    simpl in *; naive_solver lia.
Qed.

Lemma place_extents s s' id : extents s' = extents s → is_host s' id = is_host s id ∧ is_page s' id = is_page s id.
Proof. intros [= _ _ _ _ H1 H2 H3 H4 H5]. unfold is_host, is_page, Pool.contains. by rewrite H1, H3, H4, H5. Qed.
Lemma engine_id_extents s s' id : extents s' = extents s → engine_id s' id = engine_id s id.
Proof.
  intros [= _ _ _ _ H1 H2 H3 H4 H5]. unfold engine_id, is_page, Pool.contains. by rewrite H1, H2, H3, H4, H5.
Qed.

(** So by the layout alone. *)
Definition numbered (x : layout) (id : RsSlotId) : N :=
  if decide ((x_host_pages x).1 ≤ index id)%N then index id - (x_host_pages x).1
  else if decide ((x_host_slots x).1 ≤ index id)%N then index id - (x_host_slots x).1
  else if decide (x_pages_at x ≤ index id)%N then index id - x_pages_at x
  else index id.

Lemma engine_id_numbered s id :
  layout_ok (extents s) → exists_in (extents s) id → engine_id s id = numbered (extents s) id.
Proof.
  intros Hl Hex. pose proof Hl as []. unfold exists_in in Hex. unfold numbered.
  destruct Hex as [H|[H|[H|H]]];
    [rewrite (numbering s AtSlots)|rewrite (numbering s AtPages)|rewrite (numbering s AtHostSlots)|rewrite (numbering s AtHostPages)];
    try done; unfold within in H; simpl in *; repeat case_decide; lia.
Qed.

Lemma rs_release_host_ready x n ids s B H :
  ready x n s (loans Given ids ++ B) H → Forall (hosted x) ids →
  wp (release_host ids) (λ _ s', ready x n s' B H ∧ frame s s' ∧ refs s' = refs s) (λ _ _, False) s.
Proof.
  revert s. induction ids as [|id ids IH]; intros s Hr Hall; [by apply wp_ok|].
  apply Forall_cons in Hall as [Hid Hall]. unfold release_host. cbn [mfor].
  eapply (wp_bind _ _ (λ _ s', ready x n s' (loans Given ids ++ B) H ∧ frame s s' ∧ refs s' = refs s) (λ _ _, False)); [| |done].
  - apply wp_then, wp_get. destruct (place_host x s id) as [[-> Hw]|[-> Hw]]; [apply Hr|apply Hr|done| |].
    + apply (release_at_ready x n s AtHostPages [id]); [exact Hr|by apply Forall_singleton].
    + apply (release_at_ready x n s AtHostSlots [id]); [exact Hr|by apply Forall_singleton].
  - intros [] s1 (Hr1 & F1 & R1). eapply wp_mono; [by apply IH| |done]. simpl.
    intros _ s2 (Hr2 & F2 & R2). split_and!; [done|by etrans|congruence].
Qed.

Lemma release_device_ready x n ids s B H :
  ready x n s (loans Given ids ++ B) H → Forall (λ id, ¬ hosted x id) ids →
  wp (release_device ids) (λ _ s', ready x n s' B H ∧ frame s s' ∧ refs s' = refs s) (λ _ _, False) s.
Proof.
  revert s. induction ids as [|id ids IH]; intros s Hr Hall; [by apply wp_ok|].
  apply Forall_cons in Hall as [Hid Hall]. unfold release_device. cbn [mfor].
  eapply (wp_bind _ _ (λ _ s', ready x n s' (loans Given ids ++ B) H ∧ frame s s' ∧ refs s' = refs s) (λ _ _, False)); [| |done].
  - apply wp_then, wp_get. destruct (place_device x s id) as [[-> Hw]|[-> Hw]]; [apply Hr|apply Hr| |done| |].
    { eapply lent_apart; [exact Hr|]. by left. }
    + apply (release_at_ready x n s AtPages [id]); [exact Hr|by apply Forall_singleton].
    + apply (release_at_ready x n s AtSlots [id]); [exact Hr|by apply Forall_singleton].
  - intros [] s1 (Hr1 & F1 & R1). eapply wp_mono; [by apply IH| |done]. simpl.
    intros _ s2 (Hr2 & F2 & R2). split_and!; [done|by etrans|congruence].
Qed.

(** *** Waiting for an epoch *)

Definition recycled s (id : RsSlotId) (epoch : N) : store :=
  if is_page s id then set_pages s (Pool.recycle_after_epoch (pages s) [id] epoch)
  else set_slots s (Pool.recycle_after_epoch (slots s) [id] epoch).

Definition recycle_place s (id : RsSlotId) : place := if is_page s id then AtPages else AtSlots.
Lemma recycled_held s id epoch w id' :
  id' ∈ Pool.held (pool_at w (recycled s id epoch)) ↔
    id' ∈ Pool.held (pool_at w s) ∨ (w = recycle_place s id ∧ id' = id).
Proof.
  unfold recycled, recycle_place, Pool.held. destruct (is_page s id), w; simpl;
    rewrite ?fmap_app, ?concat_app; set_solver.
Qed.

Lemma recycle_place_range x s id :
  extents s = x → layout_ok x → exists_in x id → ¬ hosted x id → within (range_at (recycle_place s id) x) id.
Proof.
  intros Hx Hl Hex Hh. unfold recycle_place.
  by destruct (place_device x s id Hx Hl Hex Hh) as [[-> ?]|[-> ?]].
Qed.

Lemma recycled_spec s id epoch :
  frame s (recycled s id epoch) ∧ refs (recycled s id epoch) = refs s ∧
  extents (recycled s id epoch) = extents s ∧ stock (recycled s id epoch) ≡ₚ id :: stock s ∧
  (∀ q id', waiting s q id' → waiting (recycled s id epoch) q id') ∧
  (∀ q, (q ≤ epoch)%N → waiting (recycled s id epoch) q id).
Proof.
  unfold recycled. destruct (is_page s id); (split_and!; [done..| | |]).
  - unfold stock. simpl. unfold Pool.held at 2. simpl. rewrite fmap_app, concat_app. unfold Pool.held. simpl. solve_perm.
  - intros q id' (e & l & [Hp|Hp] & ? & ?); exists e, l; (split; [|done]); [by left|right; simpl; set_solver].
  - intros q Hq. exists epoch, [id]. split; [right; simpl; set_solver|]. split; [by left|done].
  - unfold stock. simpl. unfold Pool.held at 1. simpl. rewrite fmap_app, concat_app. unfold Pool.held. simpl. solve_perm.
  - intros q id' (e & l & [Hp|Hp] & ? & ?); exists e, l; (split; [|done]); [left; simpl; set_solver|by right].
  - intros q Hq. exists epoch, [id]. split; [left; simpl; set_solver|]. split; [by left|done].
Qed.

Lemma recycle_ready x n ids o epoch s B H :
  ready x n s (loans o ids ++ B) H → Forall (λ id, ¬ hosted x id) ids → (epoch ≤ u64_max)%N →
  (∀ q t id, id ∈ ids → inflight s !! q = Some t → touches t id = true → shelters o q → (q ≤ epoch)%N) →
  wp (recycle ids epoch) (λ _ s', ready x n s' B H ∧ frame s s' ∧ refs s' = refs s) (λ _ _, False) s.
Proof.
  revert s. induction ids as [|id ids IH]; intros s Hr Hall Hle Ho; [by apply wp_ok|]. unfold recycle. cbn [mfor].
  apply Forall_cons in Hall as [Hid Hall].
  apply wp_then, wp_modify. change (if is_page s id then _ else _) with (recycled s id epoch).
  destruct (recycled_spec s id epoch) as (F1 & R1 & X1 & S1 & W1 & W2).
  eapply wp_mono; [apply IH; [|done|done|]| |done].
  - eapply rs_ready_pools; [exact Hr|done..| | | |].
    + rewrite S1. simpl. by rewrite Permutation_middle.
    + intros w id' [?|[-> ->]]%recycled_held; [by apply (rd_places _ _ _ _ _ Hr)|].
      apply recycle_place_range; [apply Hr|apply Hr| |done]. eapply lent_apart; [exact Hr|]. by left.
    + intros q t id' Hq Ht [Hw|(o' & Hin & Hsh)]; [left; by apply W1|].
      apply elem_of_cons in Hin as [[= -> ->]|?]; [|right; by exists o'].
      left. apply W2. eapply Ho; [by left|done..].
    + intros w e l Hp. unfold recycled in Hp. destruct (is_page s id), w; simpl in Hp; try (by left);
        apply elem_of_app in Hp as [?|[= -> ->]%list_elem_of_singleton]; (by left) || (right; split; [tauto|done]).
  - intros q t id' Hid' Hq. destruct F1 as (_ & _ & F1 & _). rewrite F1 in Hq. eapply Ho; [by right|done].
  - simpl. intros _ s2 (Hr2 & F2 & R2). split_and!; [done|by etrans|congruence].
Qed.

(** The least number in flight. *)
Lemma rs_oldest_spec s :
  match oldest s with
  | Some o => is_Some (inflight s !! o) ∧ ∀ q, is_Some (inflight s !! q) → (o ≤ q)%N
  | None => inflight s = ∅
  end.
Proof.
  unfold oldest. assert (He : ∀ q, is_Some (inflight s !! q) ↔ q ∈ (map_to_list (inflight s)).*1).
  { intros q. rewrite list_elem_of_fmap. split.
    - intros [t Ht]. exists (q, t). split; [done|]. by apply elem_of_map_to_list.
    - intros ([q' t] & -> & Hin%elem_of_map_to_list). by exists t. }
  destruct ((map_to_list (inflight s)).*1) as [|x l] eqn:Hl.
  { apply fmap_nil_inv, map_to_list_empty_iff in Hl. done. }
  setoid_rewrite He. clear He Hl. induction l as [|y l IH]; simpl.
  - split; [by left|]. by intros k ->%list_elem_of_singleton.
  - destruct IH as [IH1 IH2]. split.
    + destruct (N.min_spec y (foldr N.min x l)) as [[_ ->]|[_ ->]]; set_solver.
    + intros k [->|[->|Hk]%elem_of_cons]%elem_of_cons.
      * specialize (IH2 x ltac:(by left)). lia.
      * lia.
      * specialize (IH2 k ltac:(by right)). lia.
Qed.

Lemma newest_spec s id :
  match newest_touching s id with
  | Some m => is_Some (inflight s !! m) ∧ ∀ q t, inflight s !! q = Some t → touches t id = true → (q ≤ m)%N
  | None => ∀ q t, inflight s !! q = Some t → touches t id = false
  end.
Proof.
  unfold newest_touching.
  assert (He : ∀ q t, inflight s !! q = Some t → touches t id = true →
    q ∈ (filter (λ p : N * Touch, touches p.2 id = true) (map_to_list (inflight s))).*1).
  { intros q t Hq Ht. apply list_elem_of_fmap. exists (q, t). split; [done|].
    apply list_elem_of_filter. split; [done|]. by apply elem_of_map_to_list. }
  assert (Hf : ∀ q, q ∈ (filter (λ p : N * Touch, touches p.2 id = true) (map_to_list (inflight s))).*1 →
    is_Some (inflight s !! q)).
  { intros q ([q' t] & -> & [_ Hq]%list_elem_of_filter)%list_elem_of_fmap. exists t. by apply elem_of_map_to_list in Hq. }
  destruct ((filter _ _).*1) as [|x l].
  { intros q t Hq. destruct (touches t id) eqn:Ht; [|done]. specialize (He q t Hq Ht).
    by apply not_elem_of_nil in He. }
  split.
  { apply Hf. clear He Hf. induction l as [|y l IH]; simpl; [by left|].
    destruct (N.max_spec y (foldr N.max x l)) as [[_ ->]|[_ ->]]; set_solver. }
  clear Hf. intros q t Hq Ht. specialize (He q t Hq Ht). clear Hq Ht. revert He. induction l as [|y l IH]; simpl.
  - by intros ->%list_elem_of_singleton.
  - intros [->|[->|Hk]%elem_of_cons]%elem_of_cons.
    + specialize (IH ltac:(by left)). lia.
    + lia.
    + specialize (IH ltac:(by right)). lia.
Qed.

Lemma rs_retire_idle_ready x n s B H :
  ready x n s B H →
  wp retire_idle (λ _ s', ready x n s' B H ∧ frame s s' ∧ refs s' = refs s) (λ _ _, False) s.
Proof.
  intros Hr. unfold retire_idle, wp, mcall. cbn zeta.
  set (c := match oldest s with Some o => _ | None => _ end).
  destruct (Pool.retire_through_spec (slots s) c) as (sp & Hsp & P1 & _ & B1 & C1).
  destruct (Pool.retire_through_spec (pages s) c) as (pp & Hpp & P2 & _ & B2 & C2).
  rewrite Hsp. cbn [mbind option_bind]. rewrite Hpp. cbn [mbind option_bind].
  split_and!; [|done..]. eapply rs_ready_pools; [exact Hr|done..| | | | |].
  - unfold extents, Pool.extent. simpl. by rewrite B1, B2, C1, C2.
  - unfold stock. simpl. by rewrite (Pool.retire_through_held _ _ _ Hsp), (Pool.retire_through_held _ _ _ Hpp).
  - intros w id Hid. apply (rd_places _ _ _ _ _ Hr). destruct w; simpl in *; [| |done..].
    + by rewrite <-(Pool.retire_through_held _ _ _ Hsp).
    + by rewrite <-(Pool.retire_through_held _ _ _ Hpp).
  - intros q t id Hq Ht [(e & l & Hp & Hid & Hle)|?]; [left|by right].
    assert (¬ (e ≤ c)%N) as Hc.
    { pose proof (rs_oldest_spec s) as Ho. unfold c. destruct (oldest s) as [o|].
      - destruct Ho as [[t' Ht'] Hmin]. specialize (Hmin q ltac:(by eexists)).
        pose proof (rd_seqs _ _ _ _ _ Hr _ _ Ht'). lia.
      - rewrite Ho in Hq. by rewrite lookup_empty in Hq. }
    exists e, l. split_and!; [|done..]. simpl. destruct Hp as [Hp|Hp]; [left; rewrite P1|right; rewrite P2];
      by apply list_elem_of_filter.
  - intros w e l Hp. left. destruct w; simpl in *; [| |done..]; [rewrite P1 in Hp|rewrite P2 in Hp];
      by apply list_elem_of_filter in Hp as [_ ?].
Qed.

(** *** Drawing *)

Definition try_alloc_at (w : place) (k : nat) : sm (option (list RsSlotId)) := λ s,
  let '(ids, p) := Pool.try_alloc_n (pool_at w s) k in (Ok ids, put_pool w s p).

Lemma try_alloc_at_ready x n s w k B H :
  ready x n s B H →
  wp (try_alloc_at w k) (λ o s', match o with
    | Some ids => length ids = k ∧ Forall (within (range_at w x)) ids ∧
        ready x n s' (loans Given ids ++ B) H ∧ frame s s' ∧ refs s' = refs s
    | None => s' = s ∧ Pool.available (pool_at w s) < k end) (λ _ _, False) s.
Proof.
  intros Hr. unfold try_alloc_at, wp. pose proof (Pool.alloc_held (pool_at w s) k) as Ha.
  destruct (Pool.try_alloc_n (pool_at w s) k) as [[ids|] p] eqn:Hp.
  - destruct Ha as (Hl & Hh & Hx & _). destruct (put_pool_frame w s p) as [Hf Hrf].
    apply Pool.try_alloc_n_Some in Hp as (_ & _ & Hpd & _).
    split_and!; [done| | |done..].
    + apply Forall_forall. intros id Hid. apply (rd_places _ _ _ _ _ Hr). rewrite Hh. set_solver.
    + eapply rs_ready_pools; [exact Hr|done|done|by apply put_pool_extents| | | |].
      * pose proof (put_pool_stock w s p) as Hst. rewrite fmap_app, loans_snd.
        apply (Permutation_app_inv_l (Pool.held p)). transitivity (B.*2 ++ Pool.held (pool_at w s) ++ stock (put_pool w s p)).
        { rewrite Hh. solve_perm. }
        rewrite Hst. solve_perm.
      * intros w' id Hid. apply (rd_places _ _ _ _ _ Hr). destruct (decide (w' = w)) as [->|Hne].
        -- rewrite pool_at_put in Hid. rewrite Hh. set_solver.
        -- by rewrite pool_at_put_ne in Hid.
      * intros q t id Hq Ht [(e & l & Hw & Hid & Hle)|(o & ? & ?)]; [left|right; exists o; set_solver].
        exists e, l. split_and!; [|done..]. destruct w; simpl in *; by rewrite ?Hpd.
      * intros w' e l Hp'. left. destruct (decide (w' = w)) as [->|Hne].
        -- by rewrite pool_at_put, Hpd in Hp'.
        -- by rewrite pool_at_put_ne in Hp'.
  - destruct Ha as [-> ?]. split; [|done]. by destruct w, s.
Qed.

(** ** References *)

Lemma ref_exists x n s B H id : ready x n s B H → is_Some (refs s !! id) → exists_in x id ∧ id ∉ B.*2.
Proof.
  intros Hr [c Hc]. assert (Hst : id ∈ stock s).
  { unfold stock. rewrite !elem_of_app. do 4 right. apply list_elem_of_fmap. exists (id, c). split; [done|].
    by apply elem_of_map_to_list. }
  split; [|intros Hid; by apply (lent_apart _ _ _ _ _ id Hr)].
  rewrite <-(rd_extents _ _ _ _ _ Hr), <-rs_elem_of_universe, <-(rd_whole _ _ _ _ _ Hr). set_solver.
Qed.

Lemma ref_held x n s B H id :
  ready x n s B H → is_Some (refs s !! id) ↔ id ∈ all_slots (wm s) ++ H.
Proof.
  intros Hr. destruct (rd_refs _ _ _ _ _ Hr id) as [Hc Hz]. split.
  - intros [c Hid]. rewrite Hid in Hc, Hz. simpl in Hc. destruct (decide (id ∈ all_slots (wm s) ++ H)) as [|Hn]; [done|].
    apply mult_zero in Hn. rewrite Hn in Hc. by subst.
  - intros Hin%mult_pos. destruct (refs s !! id); [done|]. simpl in Hc. lia.
Qed.

Lemma ref_count_held x n s B H id :
  ready x n s B H → id ∈ all_slots (wm s) ++ H → ref_count s id = N.of_nat (mult id (all_slots (wm s) ++ H)).
Proof.
  intros Hr Hin. pose proof (proj2 (ref_held _ _ _ _ _ id Hr) Hin) as [c Hc].
  destruct (rd_refs _ _ _ _ _ Hr id) as [Hcnt _]. unfold ref_count. rewrite Hc in *. done.
Qed.

Lemma keys_insert (m : gmap RsSlotId N) id c :
  m !! id = None → (map_to_list (<[id := c]> m)).*1 ≡ₚ id :: (map_to_list m).*1.
Proof. intros Hid. by rewrite map_to_list_insert. Qed.
Lemma rs_keys_delete (m : gmap RsSlotId N) id :
  is_Some (m !! id) → (map_to_list m).*1 ≡ₚ id :: (map_to_list (delete id m)).*1.
Proof. intros [c Hc]. rewrite <-(insert_delete_id m id c Hc) at 1. apply keys_insert, lookup_delete_eq. Qed.
Lemma keys_update (m : gmap RsSlotId N) id c :
  is_Some (m !! id) → (map_to_list (<[id := c]> m)).*1 ≡ₚ (map_to_list m).*1.
Proof. intros Hc. rewrite <-insert_delete_eq, keys_insert by apply lookup_delete_eq. by rewrite <-rs_keys_delete. Qed.

Lemma set_refs_frame s m : frame s (set_refs s m) ∧ extents (set_refs s m) = extents s.
Proof. done. Qed.

(** A change of the counts alone. *)
Lemma ready_refs x n s m B B' H H' :
  ready x n s B H → B'.*2 ++ (map_to_list m).*1 ≡ₚ B.*2 ++ (map_to_list (refs s)).*1 →
  (∀ id, default 0%N (m !! id) = N.of_nat (mult id (all_slots (wm s) ++ H')) ∧ m !! id ≠ Some 0%N) →
  (∀ q t id, inflight s !! q = Some t → touches t id = true → is_Some (refs s !! id) ∨ sheltered B q id →
     is_Some (m !! id) ∨ sheltered B' q id) →
  ready x n (set_refs s m) B' H'.
Proof.
  intros [] HB Hm Ht. split; simpl; try done.
  - change (universe (set_refs s m)) with (universe s). rewrite <-rd_whole0. unfold stock. simpl.
    transitivity (Pool.held (slots s) ++ Pool.held (pages s) ++ Pool.held (host_slots s) ++
      Pool.held (host_pages s) ++ (B'.*2 ++ (map_to_list m).*1)); [solve_perm|]. rewrite HB. solve_perm.
  - intros q t id Hq Htch. destruct (rd_touched0 q t id Hq Htch) as [Hh Hor]. split; [done|].
    destruct Hor as [?|[?|?]]; [| by right; left|]; destruct (Ht q t id Hq Htch); tauto.
Qed.

Lemma decref_ready x n s id B H :
  ready x n s B (id :: H) →
  wp (decref id) (λ b s', ready x n s' B H ∧ frame s s' ∧ (b = true ↔ id ∉ all_slots (wm s) ++ H)) (λ _ _, False) s.
Proof.
  intros Hr. assert (Hin : id ∈ all_slots (wm s) ++ id :: H) by set_solver.
  pose proof (ref_count_held _ _ _ _ _ id Hr Hin) as Hc.
  rewrite <-Permutation_middle, mult_cons, decide_True in Hc by done.
  pose proof (proj2 (ref_held _ _ _ _ _ id Hr) Hin) as Hsome.
  unfold decref. apply wp_then, wp_get, wp_then, wp_guard; [lia|].
  assert (Hother : ∀ id', id' ≠ id → mult id' (all_slots (wm s) ++ id :: H) = mult id' (all_slots (wm s) ++ H)).
  { intros id' Hne. rewrite <-Permutation_middle, mult_cons. by rewrite decide_False. }
  case_decide as Hz.
  - apply wp_then, wp_modify, wp_ok. split_and!; [|done|].
    + eapply ready_refs; [exact Hr| | |].
      * by rewrite keys_update.
      * intros id'. destruct (decide (id' = id)) as [->|Hne].
        -- rewrite lookup_insert_eq. simpl. split; [lia|congruence].
        -- rewrite lookup_insert_ne, <-Hother by done. apply (rd_refs _ _ _ _ _ Hr).
      * intros q t id' _ _ [Hs|?]; [left|by right]. destruct (decide (id' = id)) as [->|Hne].
        -- rewrite lookup_insert_eq. by eexists.
        -- by rewrite lookup_insert_ne.
    + split; [done|]. intros Hn%mult_zero. lia.
  - apply wp_then, wp_modify, wp_then, wp_get.
    assert (Hm : mult id (all_slots (wm s) ++ H) = 0) by lia.
    assert (Hr1 : ready x n (set_refs s (delete id (refs s))) ((Dropped, id) :: B) H).
    { eapply ready_refs; [exact Hr| | |].
      - rewrite (rs_keys_delete (refs s) id Hsome), fmap_cons. by rewrite <-Permutation_middle.
      - intros id'. destruct (decide (id' = id)) as [->|Hne].
        + rewrite lookup_delete_eq, Hm. done.
        + rewrite lookup_delete_ne, <-Hother by done. apply (rd_refs _ _ _ _ _ Hr).
      - intros q t id' _ _ [Hs|(o & Ho & Hsh)]; [|right; exists o; set_solver].
        destruct (decide (id' = id)) as [->|Hne]; [right; exists Dropped; set_solver|left].
        by rewrite lookup_delete_ne. }
    destruct (ref_exists _ _ _ _ _ id Hr Hsome) as [Hex _].
    pose proof (is_host_spec s id) as Hhost. rewrite (rd_extents _ _ _ _ _ Hr) in Hhost.
    specialize (Hhost (rd_layout _ _ _ _ _ Hr) Hex).
    change (is_host (set_refs s (delete id (refs s))) id) with (is_host s id).
    destruct (is_host s id).
    + assert (Hr2 : ready x n (set_refs s (delete id (refs s))) (loans Given [id] ++ B) H).
      { eapply ready_relend; [exact Hr1|done|]. intros q t id' Hq Ht (o & Hin' & Hsh).
        apply elem_of_cons in Hin' as [[= -> ->]|?]; [|exists o; set_solver].
        exfalso. apply (rd_touched _ _ _ _ _ Hr q t id Hq Ht). by apply Hhost. }
      eapply wp_bind; [apply rs_release_host_ready; [exact Hr2|apply Forall_singleton; by apply Hhost]| |done].
      intros [] s' (Hr' & F' & _). apply wp_ok. split_and!; [done| |].
      * by etrans; [|exact F'].
      * split; [intros _; by apply mult_zero|done].
    + assert (Hnh : ¬ hosted x id) by (intros Hh%Hhost; done).
      set (s1 := set_refs s (delete id (refs s))) in *.
      assert (∃ e, drop_epoch s1 id = Some e ∧ (e ≤ u64_max)%N ∧ ∀ q t, inflight s1 !! q = Some t → touches t id = true → (q ≤ e)%N)
        as (e & He & Hmax & Hle).
      { pose proof (rd_seq _ _ _ _ _ Hr1) as Hsq. unfold drop_epoch, u64_max.
        pose proof (newest_spec s1 id) as Hnew. destruct (newest_touching s1 id) as [m|].
        - destruct Hnew as [[t Ht] Hnew]. pose proof (rd_seqs _ _ _ _ _ Hr1 _ _ Ht).
          exists m. split_and!; [done|lia|done].
        - pose proof (rs_oldest_spec s1) as Hold. destruct (oldest s1) as [o|].
          + destruct Hold as [[t Ht] _]. pose proof (rd_seqs _ _ _ _ _ Hr1 _ _ Ht). rewrite decide_False by lia.
            eexists. split_and!; [done|lia|]. intros q t' Hq Ht'. by rewrite (Hnew q t' Hq) in Ht'.
          + eexists. split_and!; [done|lia|]. intros q t' Hq. by rewrite Hold, lookup_empty in Hq. }
      rewrite He. apply wp_then, wp_ok.
      eapply wp_bind; [apply (recycle_ready x n [id] Dropped e); [exact Hr1|by apply Forall_singleton|done|]| |done].
      * intros q t id' ->%list_elem_of_singleton Hq Ht _. by eapply Hle.
      * intros [] s' (Hr' & F' & _). apply wp_ok. split_and!; [done| |].
        -- by etrans; [|exact F'].
        -- split; [intros _; by apply mult_zero|done].
Qed.

Lemma decref_all_ready x n ids s B H :
  ready x n s B (ids ++ H) →
  wp (decref_all ids) (λ _ s', ready x n s' B H ∧ frame s s') (λ _ _, False) s.
Proof.
  revert s. induction ids as [|id ids IH]; intros s Hr; [by apply wp_ok|]. cbn [decref_all].
  eapply wp_bind; [by apply decref_ready| |done]. intros b s1 (Hr1 & F1 & _).
  eapply wp_bind; [by apply IH| |done]. intros k s2 [Hr2 F2]. apply wp_ok. split; [done|by etrans].
Qed.

(** A slot that was lent has its first reference. *)
Lemma claim_ready x n s o id B H :
  ready x n s ((o, id) :: B) H →
  ready x n (set_refs s (<[id := 1%N]> (refs s))) B (id :: H).
Proof.
  intros Hr. assert (Hnone : refs s !! id = None).
  { apply eq_None_not_Some. intros Hs. apply (ref_exists _ _ _ _ _ id Hr Hs). by left. }
  eapply ready_refs; [exact Hr| | |].
  - rewrite keys_insert, fmap_cons by done. by rewrite <-Permutation_middle.
  - intros id'. rewrite <-Permutation_middle, mult_cons. destruct (rd_refs _ _ _ _ _ Hr id') as [Hc Hz].
    destruct (decide (id' = id)) as [->|Hne].
    + rewrite lookup_insert_eq, decide_True by done. rewrite Hnone in Hc. simpl in *. split; [lia|done].
    + by rewrite lookup_insert_ne, decide_False by done.
  - intros q t id' _ _ [Hs|(o' & [[= -> ->]|Hin]%elem_of_cons & Hsh)].
    + left. destruct (decide (id' = id)) as [->|]; [by rewrite Hnone in Hs; destruct Hs|].
      by rewrite lookup_insert_ne.
    + left. rewrite lookup_insert_eq. by eexists.
    + right. by exists o'.
Qed.

(** References taken in hand to slots that entries have. *)
Lemma share_ready x n ids s B H :
  ready x (S n) s B H → NoDup ids → (∀ id, id ∈ ids → id ∈ all_slots (wm s) ∧ mult id H = 0) →
  wp (share ids) (λ _ s', ready x (S n) s' B (ids ++ H) ∧ frame s s') (λ _ _, False) s.
Proof.
  revert s H. induction ids as [|id ids IH]; intros s H Hr Hnd Hin; [by apply wp_ok|].
  apply NoDup_cons in Hnd as [Hid Hnd]. destruct (Hin id ltac:(by left)) as [Ha Hz].
  unfold share. cbn [mfor]. apply wp_then, wp_then, wp_get.
  assert (Hin' : id ∈ all_slots (wm s) ++ H) by set_solver.
  pose proof (ref_count_held _ _ _ _ _ id Hr Hin') as Hc. rewrite mult_app, Hz, Nat.add_0_r in Hc.
  pose proof (mult_all_slots (wm s) id) as Hle.
  specialize (Hle ltac:(intros ws e He; apply (rd_entries _ _ _ _ _ Hr _ _ He))).
  pose proof (rd_size _ _ _ _ _ Hr) as Hsz.
  rewrite Hc. unfold checked_add_u32. rewrite decide_True by lia. apply wp_then, wp_ok, wp_modify.
  set (s1 := set_refs s _).
  assert (Hr1 : ready x (S n) s1 B (id :: H)).
  { eapply ready_refs; [exact Hr| | |].
    - rewrite keys_update; [done|]. by apply (ref_held _ _ _ _ _ id Hr).
    - intros id'. rewrite <-Permutation_middle, mult_cons. destruct (rd_refs _ _ _ _ _ Hr id') as [Hc' Hz'].
      destruct (decide (id' = id)) as [->|Hne].
      + rewrite lookup_insert_eq, decide_True, mult_app, Hz by done. simpl. split; [lia|]. intros [= ?]. lia.
      + by rewrite lookup_insert_ne, decide_False by done.
    - intros q t id' _ _ [Hs|?]; [left|by right]. destruct (decide (id' = id)) as [->|].
      + rewrite lookup_insert_eq. by eexists.
      + by rewrite lookup_insert_ne. }
  eapply wp_mono; [apply (IH s1 (id :: H)); [exact Hr1|done|]| |done].
  - intros id' Hid'. destruct (Hin id' ltac:(by right)) as [Ha' Hz']. split; [done|].
    rewrite mult_cons, Hz', decide_False; [done|]. by intros ->.
  - intros [] s2 [Hr2 F2]. split; [|by etrans; [|exact F2]].
    eapply rs_ready_perm; [done| |exact Hr2]. solve_perm.
Qed.
End books.
End RsBooks.
