(* ===== verification/RsKeep.v ===== *)
(** The methods of the recurrent-state store that make, share, drop and fold working
    sets, keep and drop checkpoints, and draw on the pools keep its books. *)
From S2P Require Import Prelude Ids Store Pool KvTable KvStore Hoare RsStore RsBooks.

Module RsKeep.
Import RsStore RsBooks.

Section keep.
Context {WS : Type → Type}.
Context `{!KeyedStore RsWorkingSetId WS, !KeyedStoreLaws RsWorkingSetId WS}.
Abbreviation store := (RsStore WS).
Abbreviation sm := (method store RsError).
Implicit Types s : store.
Abbreviation wm s := (st_map (working_sets s)).
Abbreviation never := (λ _ _, False).

(** Everything but the pools, the counts and the working sets is as it was. *)
Definition calm s s' : Prop :=
  seq_ s' = seq_ s ∧ inflight s' = inflight s ∧ checkpoints s' = checkpoints s ∧ ring s' = ring s.
#[export] Instance calm_refl : Reflexive calm.
Proof. by intros s. Qed.
#[export] Instance calm_trans : Transitive calm.
Proof. intros s1 s2 s3 (?&?&?&?) (?&?&?&?). unfold calm. split_and!; congruence. Qed.
Lemma frame_calm s s' : frame s s' → calm s s' ∧ wm s' = wm s.
Proof. intros (-> & ? & ? & ? & ?). by unfold calm. Qed.

(** ** Entries *)

Lemma get_spec x n s B H ws : ready x n s B H → st_get (working_sets s) ws = wm s !! ws.
Proof. intros Hr. apply st_get_spec, Hr. Qed.

Lemma entry_ready x n s B H ws :
  ready x n s B H →
  wp (entry ws) (λ e s', s' = s ∧ wm s !! ws = Some e) (λ err s', s' = s ∧ wm s !! ws = None ∧ err = UnknownWorkingSet) s.
Proof.
  intros Hr. unfold entry, wp, mthen, mget, mok_or. rewrite (get_spec _ _ _ _ _ _ Hr).
  by destruct (wm s !! ws).
Qed.

Lemma entry_get x n s B H ws e : ready x n s B H → wm s !! ws = Some e → entry ws s = (Ok e, s).
Proof. intros Hr He. unfold entry, mthen, mget, mok_or. by rewrite (get_spec _ _ _ _ _ _ Hr), He. Qed.

Lemma expect_entry_get x n s B H ws e : ready x n s B H → wm s !! ws = Some e → expect_entry ws s = (Ok e, s).
Proof. intros Hr He. unfold expect_entry, mthen, mget. by rewrite (get_spec _ _ _ _ _ _ Hr), He. Qed.

(** The same slots in other hands. *)
Lemma refs_perm (f : gmap RsSlotId N) l l' :
  l ≡ₚ l' → (∀ id, default 0%N (f !! id) = N.of_nat (mult id l) ∧ f !! id ≠ Some 0%N) →
  ∀ id, default 0%N (f !! id) = N.of_nat (mult id l') ∧ f !! id ≠ Some 0%N.
Proof. intros Hl Hf id. by rewrite <-Hl. Qed.

Lemma put_entry_ready x n s ws e e' B H H' :
  ready x n s B H → wm s !! ws = Some e → entry_ok x e' → entry_slots e ++ H ≡ₚ entry_slots e' ++ H' →
  wp (put_entry ws e') (λ _ s', ready x n s' B H' ∧ calm s s' ∧ refs s' = refs s ∧ wm s' = <[ws := e']> (wm s)) never s.
Proof.
  intros Hr He Hok HH. unfold put_entry. apply wp_modify.
  destruct (st_set_spec (working_sets s) ws e' (rd_valid _ _ _ _ _ Hr) ltac:(by eexists)) as (Hm & Hv & Hroom).
  split_and!; [|done..]. destruct Hr. split; simpl; try done.
  - by apply Hroom.
  - rewrite Hm, map_size_insert_Some by by eexists. done.
  - eapply refs_perm; [|exact rd_refs0]. rewrite Hm. apply (Permutation_app_inv_l (entry_slots e)).
    rewrite (assoc app _ (all_slots _) H'), all_slots_update by done.
    transitivity (all_slots (wm s) ++ (entry_slots e' ++ H')); [rewrite <-HH|]; solve_perm.
  - intros ws' e''. rewrite Hm. intros [[<- <-]|[_ ?]]%lookup_insert_Some; eauto.
  - intros key c Hc. rewrite Hm. destruct (decide (snapshot c = ws)) as [->|].
    + rewrite lookup_insert_eq. by eexists.
    + rewrite lookup_insert_ne by done. eauto.
Qed.

Lemma insert_entry_ready x n s e B H :
  ready x (S n) s B (entry_slots e ++ H) → entry_ok x e →
  wp (insert_entry e) (λ k s', ready x n s' B H ∧ calm s s' ∧ refs s' = refs s ∧
    wm s !! k = None ∧ wm s' = <[k := e]> (wm s)) never s.
Proof.
  intros Hr Hok. unfold insert_entry, wp, mcall.
  destruct (st_insert_spec (working_sets s) e n (rd_valid _ _ _ _ _ Hr) (rd_room _ _ _ _ _ Hr))
    as (k & w & Hins & Hk & Hm & Hv & Hroom).
  rewrite Hins. cbn [mbind option_bind]. split_and!; [|done..]. destruct Hr. split; simpl; try done.
  - rewrite Hm, map_size_insert_None by done. lia.
  - eapply refs_perm; [|exact rd_refs0]. rewrite Hm, all_slots_insert by done. solve_perm.
  - intros ws' e''. rewrite Hm. intros [[<- <-]|[_ ?]]%lookup_insert_Some; eauto.
  - lia.
  - intros key c Hc. rewrite Hm. destruct (decide (snapshot c = k)) as [->|].
    + rewrite lookup_insert_eq. by eexists.
    + rewrite lookup_insert_ne by done. eauto.
Qed.

Lemma release_ready x n s ws B H :
  ready x n s B H → (∀ key c, checkpoints s !! key = Some c → snapshot c ≠ ws) →
  wp (release_working_set ws) (λ _ s', ready x n s' B H ∧ calm s s' ∧ wm s' = delete ws (wm s)) never s.
Proof.
  intros Hr Hkept. unfold release_working_set. apply wp_then, wp_get.
  destruct (st_remove_spec (working_sets s) ws (rd_valid _ _ _ _ _ Hr)) as (Hget & Hm & Hv & Hroom).
  destruct (st_remove (working_sets s) ws) as [[e|] w]; simpl in *; symmetry in Hget; last first.
  { apply wp_ok. split_and!; [done..|]. by rewrite delete_id. }
  apply wp_then, wp_modify. assert (Hr1 : ready x n (set_working_sets s w) B (entry_slots e ++ H)).
  { destruct Hr. split; simpl; try done.
    - by apply Hroom.
    - rewrite Hm, map_size_delete_Some by by eexists. lia.
    - eapply refs_perm; [|exact rd_refs0]. rewrite Hm, (all_slots_delete (wm s) ws e) by done. solve_perm.
    - intros ws' e'. rewrite Hm. intros [_ ?]%lookup_delete_Some. eauto.
    - intros key c Hc. rewrite Hm, lookup_delete_ne; [eauto|]. intros Heq. by eapply Hkept. }
  eapply wp_mono; [by apply decref_all_ready| |done]. intros k s' [Hr' Hf].
  apply frame_calm in Hf as [Hc Hw]. split_and!; [done|exact Hc|]. rewrite Hw. exact Hm.
Qed.

(** ** Working sets *)

Lemma empty_ok x g o : entry_ok x (mkEntry g None [] 0 0 o).
Proof. split; simpl; try done; [constructor|by intros id ?%not_elem_of_nil]. Qed.

Lemma create_ready x n s g B H :
  ready x (S n) s B H →
  wp (create_working_set g) (λ k s', ready x n s' B H ∧ calm s s' ∧
    wm s !! k = None ∧ wm s' = <[k := mkEntry g None [] 0 0 ((λ _, default_ring) <$> ring s)]> (wm s)) never s.
Proof.
  intros Hr. unfold create_working_set. apply wp_then, wp_get.
  eapply wp_mono; [apply insert_entry_ready; [exact Hr|apply empty_ok]| |done]. naive_solver.
Qed.

Lemma rs_fork_ready x n s ws B :
  ready x (S n) s B [] →
  wp (fork ws) (λ k s', ready x n s' B [] ∧ calm s s' ∧ ∃ e, wm s !! ws = Some e ∧ wm s !! k = None ∧ wm s' = <[k := e]> (wm s))
    (λ err s', s' = s ∧ wm s !! ws = None ∧ err = UnknownWorkingSet) s.
Proof.
  intros Hr. unfold fork. eapply wp_bind; [by eapply entry_ready| |done]. intros e ? [-> He].
  pose proof (rd_entries _ _ _ _ _ Hr _ _ He) as Hok.
  eapply wp_bind; [apply share_ready; [exact Hr|apply Hok|]| |done].
  { intros id Hid. split; [|done]. apply elem_of_all_slots. eauto. }
  intros [] s1 [Hr1 Hf]. apply frame_calm in Hf as [Hc Hw].
  eapply wp_mono; [by apply insert_entry_ready| |done].
  intros k s' (Hr' & Hc' & _ & Hk & Hw'). rewrite Hw in Hk, Hw'. split_and!; [done|by etrans|eauto].
Qed.

Lemma forget_ready x n s ws B H :
  ready x n s B H →
  wp (forget_state ws) (λ _ s', ready x n s' B H ∧ calm s s' ∧ ∃ e, wm s !! ws = Some e ∧
      wm s' = <[ws := mkEntry (geom e) None [] 0 0 (ring_state e)]> (wm s)) (λ _ s', s' = s) s.
Proof.
  intros Hr. unfold forget_state. eapply wp_bind; [by eapply entry_ready| |by intros ? ? [? _]]. intros e ? [-> He].
  eapply wp_bind; [eapply (put_entry_ready x n s ws e _ B H (entry_slots e ++ H)); [done..|apply empty_ok|done]| |done].
  intros [] s1 (Hr1 & Hc1 & _ & Hw1).
  eapply wp_bind; [by apply decref_all_ready| |done]. intros k s2 [Hr2 Hf]. apply frame_calm in Hf as [Hc2 Hw2].
  apply wp_ok. split_and!; [done|by etrans|]. exists e. split; [done|]. by rewrite Hw2.
Qed.

(** ** Checkpoints *)

(** A working set that a checkpoint hides. *)
Definition hidden s (ws : RsWorkingSetId) : Prop := ∃ key c, checkpoints s !! key = Some c ∧ snapshot c = ws.

(** Only checkpoints and what they hide may go. *)
Definition spares s s' : Prop :=
  seq_ s' = seq_ s ∧ inflight s' = inflight s ∧ ring s' = ring s ∧ checkpoints s' ⊆ checkpoints s ∧
  wm s' ⊆ wm s ∧ ∀ ws, ¬ hidden s ws → wm s' !! ws = wm s !! ws.
#[export] Instance spares_refl : Reflexive spares.
Proof. by intros s. Qed.
#[export] Instance spares_trans : Transitive spares.
Proof.
  intros s1 s2 s3 (A1&A2&A3&A4&A5&A6) (B1&B2&B3&B4&B5&B6). unfold spares.
  split_and!; [congruence..|by etrans|by etrans|]. intros ws Hws. rewrite <-A6 by done. apply B6.
  intros (key & c & Hc & <-). apply Hws. exists key, c. split; [|done]. by eapply lookup_weaken.
Qed.
Lemma calm_spares s s' : calm s s' → wm s' = wm s → spares s s'.
Proof. intros (?&?&Hc&?) Hw. unfold spares. rewrite Hc, Hw. done. Qed.

(** A change of the checkpoints alone. *)
Lemma ready_checkpoints x n s m B H :
  ready x n s B H → (∀ key c, m !! key = Some c → is_Some (wm s !! snapshot c)) →
  (∀ key key' c c', m !! key = Some c → m !! key' = Some c' → snapshot c = snapshot c' → key = key') →
  ready x n (set_checkpoints s m) B H.
Proof. intros [] Hk Ha. by split. Qed.

(** The checkpoints asked for are gone, with what they hid. *)
Lemma drop_keys_gone x n keys s B H :
  ready x n s B H → wp (drop_keys keys) (λ _ s', ready x n s' B H ∧ spares s s' ∧
    ∀ key c, key ∈ keys → checkpoints s !! key = Some c → wm s' !! snapshot c = None) never s.
Proof.
  revert s. induction keys as [|key keys IH]; intros s Hr.
  { apply wp_ok. split_and!; [done..|]. by intros ? ? ?%not_elem_of_nil. }
  cbn [drop_keys].
  apply wp_then, wp_get. destruct (checkpoints s !! key) as [c|] eqn:Hc.
  2: { eapply wp_mono; [by apply IH| |done]. intros k s' (Hr' & Hs' & Hg). split_and!; [done..|].
       intros key' c' [->|Hin]%elem_of_cons Hc'; [congruence|by eapply Hg]. }
  apply wp_then, wp_modify. set (s1 := set_checkpoints s (delete key (checkpoints s))).
  assert (Hr1 : ready x n s1 B H).
  { apply ready_checkpoints; [done|..].
    - intros key' c' [_ Hc']%lookup_delete_Some. by eapply (rd_kept _ _ _ _ _ Hr).
    - intros key1 key2 c1 c2 [_ H1]%lookup_delete_Some [_ H2]%lookup_delete_Some. by eapply (rd_apart _ _ _ _ _ Hr). }
  eapply wp_bind; [apply (release_ready x n s1 (snapshot c) B H Hr1)| |done].
  { intros key' c' Hc' Heq. simpl in Hc'. apply lookup_delete_Some in Hc' as [Hne Hc']. apply Hne. symmetry. by eapply (rd_apart _ _ _ _ _ Hr). }
  intros k s2 (Hr2 & (C1 & C2 & C3 & C4) & W2).
  assert (Hsp : spares s s2).
  { unfold spares. rewrite C1, C2, C3, C4, W2. split_and!; [done..| | |].
    - apply delete_subseteq.
    - apply delete_subseteq.
    - intros ws Hws. apply lookup_delete_ne. intros <-. apply Hws. by exists key, c. }
  eapply wp_bind; [by apply IH| |done]. intros k' s3 (Hr3 & Hsp3 & Hg). apply wp_ok. split_and!; [done|by etrans|].
  intros key' c' Hin Hc'. destruct (decide (key' = key)) as [->|Hne].
  - rewrite Hc in Hc'. injection Hc' as <-. destruct (wm s3 !! snapshot c) eqn:Hs3; [|done].
    assert (Hs2 : wm s2 !! snapshot c = Some r) by (eapply lookup_weaken; [done|apply Hsp3]).
    rewrite W2 in Hs2. simpl in Hs2. by rewrite lookup_delete_eq in Hs2.
  - apply (Hg key' c'); [by apply elem_of_cons in Hin as [->|?]|]. rewrite C3. simpl. by rewrite lookup_delete_ne.
Qed.
Lemma drop_keys_ready x n keys s B H :
  ready x n s B H → wp (drop_keys keys) (λ _ s', ready x n s' B H ∧ spares s s') never s.
Proof. intros Hr. eapply wp_mono; [by apply drop_keys_gone| |done]. by intros k s' (? & ? & _). Qed.

Lemma drop_checkpoints_ready x n d s B H :
  ready x n s B H → wp (drop_checkpoints d) (λ _ s', ready x n s' B H ∧ spares s s') never s.
Proof.
  intros Hr. unfold drop_checkpoints. apply wp_then, wp_get.
  eapply wp_bind; [by apply drop_keys_ready| |done]. intros k s' H'. by apply wp_ok.
Qed.

Lemma yield_ready x n sets s B H :
  ready x n s B H → wp (yield_checkpoints sets) (λ _ s', ready x n s' B H ∧ spares s s') never s.
Proof. intros Hr. apply wp_then, wp_get. by apply drop_checkpoints_ready. Qed.

Lemma retire_spares x n s B H :
  ready x n s B H → wp retire_idle (λ _ s', ready x n s' B H ∧ spares s s') never s.
Proof.
  intros Hr. eapply wp_mono; [by apply rs_retire_idle_ready| |done]. intros _ s' (Hr' & Hf & _). split; [done|].
  apply frame_calm in Hf as [Hc Hw]. by apply calm_spares.
Qed.

Lemma discard_ready x n o s B H :
  ready x n s B H → wp (discard_cache o) (λ _ s', ready x n s' B H ∧ spares s s') never s.
Proof.
  intros Hr. unfold discard_cache. apply wp_then, wp_get.
  eapply wp_bind; [by apply drop_keys_ready| |done]. intros k s1 [Hr1 S1].
  eapply wp_bind; [by apply retire_spares| |done]. intros [] s2 [Hr2 S2]. apply wp_ok. split; [done|by etrans].
Qed.

Lemma rs_reclaim_loop_ready x n order s B H :
  ready x n s B H → wp (reclaim_loop order) (λ _ s', ready x n s' B H ∧ spares s s') never s.
Proof.
  revert s. induction order as [|[k keys] order IH]; intros s Hr; [by apply wp_ok|]. cbn [reclaim_loop].
  eapply wp_bind; [by apply drop_keys_ready| |done]. intros m s1 [Hr1 S1].
  case_decide; [by apply wp_ok|]. eapply wp_mono; [by apply IH| |done].
  intros m' s2 [Hr2 S2]. split; [done|by etrans].
Qed.

Lemma reclaim_ready x n keys s B H :
  ready x n s B H → wp (reclaim_cache keys) (λ _ s', ready x n s' B H ∧ spares s s') never s.
Proof.
  intros Hr. unfold reclaim_cache. apply wp_then, wp_get. case_decide; [by apply wp_ok|]. cbn zeta.
  eapply wp_bind; [by apply rs_reclaim_loop_ready| |done]. intros k s1 [Hr1 S1].
  eapply wp_bind; [by apply retire_spares| |done]. intros [] s2 [Hr2 S2]. apply wp_ok. split; [done|by etrans].
Qed.

(** A working set that no checkpoint hides is kept under a key. *)
Lemma rs_keep_ready x n s snap key o now B H :
  ready x n s B H → is_Some (wm s !! snap) → ¬ hidden s snap →
  wp (keep snap key o now) (λ _ s', ready x n s' B H ∧
    seq_ s' = seq_ s ∧ inflight s' = inflight s ∧ ring s' = ring s ∧
    checkpoints s' = <[key := mkCheckpoint snap o now]> (checkpoints s) ∧
    (∀ ws, ¬ hidden s ws → wm s' !! ws = wm s !! ws)) never s.
Proof.
  intros Hr Hsome Hh. unfold keep. apply wp_then, wp_get, wp_then, wp_modify.
  set (s1 := set_checkpoints s _). assert (Hr1 : ready x n s1 B H).
  { apply ready_checkpoints; [done|..].
    - intros key' c' [[<- <-]|[_ Hc']]%lookup_insert_Some; [done|]. by eapply (rd_kept _ _ _ _ _ Hr).
    - intros key1 key2 c1 c2 [[<- <-]|[_ H1]]%lookup_insert_Some [[<- <-]|[_ H2]]%lookup_insert_Some Heq; [done| | |].
      + exfalso. apply Hh. by exists key2, c2.
      + exfalso. apply Hh. by exists key1, c1.
      + by eapply (rd_apart _ _ _ _ _ Hr). }
  destruct (checkpoints s !! key) as [old|] eqn:Hold; [|by apply wp_ok].
  eapply wp_bind; [apply (release_ready x n s1 (snapshot old) B H Hr1)| |done].
  { intros key' c' Hc' Heq. simpl in Hc'. apply lookup_insert_Some in Hc' as [[<- <-]|[Hne Hc']]; simpl in *.
    - apply Hh. exists key, old. done.
    - apply Hne. by eapply (rd_apart _ _ _ _ _ Hr). }
  intros k s2 (Hr2 & (C1 & C2 & C3 & C4) & W2). apply wp_ok. split_and!; [done..|].
  intros ws Hws. rewrite W2. apply lookup_delete_ne. intros <-. apply Hws. by exists key, old.
Qed.

Lemma checkpoint_ready x n s ws key o now B :
  ready x (S n) s B [] →
  wp (checkpoint ws key o now) (λ b s', ready x n s' B [] ∧ inflight s' = inflight s ∧
      (∀ ws', is_Some (wm s !! ws') → ¬ hidden s ws' → wm s' !! ws' = wm s !! ws') ∧
      if b then ∃ e snap, wm s !! ws = Some e ∧ unsettled s ws = false ∧ wm s' !! snap = Some e ∧
        checkpoints s' = <[key := mkCheckpoint snap o now]> (checkpoints s)
      else s' = s) (λ _ s', s' = s) s.
Proof.
  intros Hr. assert (Hno : ready x n s B []) by (eapply rs_ready_le; [|exact Hr]; lia).
  unfold checkpoint. eapply wp_bind; [by eapply entry_ready| |by intros ? ? [? _]]. intros e ? [-> He].
  apply wp_then, wp_get. case_decide; [by apply wp_ok|]. case_decide; [by apply wp_ok|].
  destruct (holds_host s e || unsettled s ws) eqn:Hun; [by apply wp_ok|]. apply orb_false_iff in Hun as [_ Hun].
  eapply wp_bind; [by apply rs_fork_ready| |by intros ? ? [? _]].
  intros snap s1 (Hr1 & (C1 & C2 & C3 & C4) & e' & He' & Hsnap & W1). rewrite He in He'. injection He' as <-.
  assert (Hfresh : ¬ hidden s1 snap).
  { intros (k & c & Hc & <-). rewrite C3 in Hc. destruct (rd_kept _ _ _ _ _ Hr _ _ Hc) as [? Hs]. congruence. }
  eapply wp_bind; [apply (rs_keep_ready x n s1 snap key o now B [] Hr1)| |done]; [|done|].
  { rewrite W1, lookup_insert_eq. by eexists. }
  intros [] s2 (Hr2 & D1 & D2 & D3 & D4 & D5). apply wp_ok. split_and!; [done|congruence| |].
  - intros ws' [e'' Hs] Hh. rewrite D5.
    + rewrite W1. apply lookup_insert_ne. intros <-. congruence.
    + intros (k & c & Hc & <-). apply Hh. exists k, c. by rewrite C3 in Hc.
  - exists e, snap. split_and!; [done|done| |by rewrite D4, C3]. rewrite D5 by done. by rewrite W1, lookup_insert_eq.
Qed.

(** What a working set holds once it takes up where a checkpoint is. *)
Definition adopted (e from : RsEntry) : RsEntry :=
  mkEntry (geom e) (folded from) (buffer from) (base from) (frozen from) (ring_state e).

Lemma adopted_ok x e from : entry_ok x from → entry_ok x (adopted e from).
Proof. by intros []. Qed.

Lemma fresh_slots e : folded e = None → Forall (λ p, p = None) (buffer e) → entry_slots e = [].
Proof.
  intros Hf Hb. unfold entry_slots. rewrite Hf. simpl. induction Hb as [|p l -> _ IH]; [done|]. exact IH.
Qed.

Lemma slots_fresh e : entry_slots e = [] → folded e = None ∧ Forall (λ p, p = None) (buffer e).
Proof.
  unfold entry_slots. intros [Hf Hb]%app_eq_nil. split; [by destruct (folded e)|].
  induction (buffer e) as [|[v|] b IH]; [done|done|]. csimpl in Hb. constructor; [done|by apply IH].
Qed.

Lemma adopt_ready x n s ws key now B :
  ready x (S n) s B [] →
  wp (adopt_checkpoint ws key now) (λ b s', ready x (S n) s' B [] ∧ inflight s' = inflight s ∧
      if b then ∃ e c from, wm s !! ws = Some e ∧ checkpoints s !! key = Some c ∧
        wm s !! snapshot c = Some from ∧ unsettled s (snapshot c) = false ∧
        wm s' = <[ws := adopted e from]> (wm s)
      else s' = s ∧ ∀ e c, wm s !! ws = Some e → checkpoints s !! key = Some c → entry_slots e = [] →
        unsettled s (snapshot c) = true) (λ _ s', s' = s ∧ (wm s !! ws = None ∨
        ∃ c, checkpoints s !! key = Some c ∧ wm s !! snapshot c = None)) s.
Proof.
  intros Hr. unfold adopt_checkpoint. eapply wp_bind; [by eapply entry_ready| |by intros err s' (? & ? & _); split; [|left]].
  intros e ? [-> He].
  cbn zeta. apply wp_then, wp_get. destruct (checkpoints s !! key) as [c|] eqn:Hc; [|by apply wp_ok].
  case_match eqn:Hfr.
  { apply wp_ok. split_and!; [done..|]. intros e' c' He' [= <-] Hnil. rewrite He in He'. injection He' as <-.
    apply slots_fresh in Hnil as [Hf Hb]. rewrite Hf, bool_decide_eq_true_2 in Hfr by done.
    rewrite bool_decide_eq_true_2 in Hfr by done. simpl in Hfr. by destruct (unsettled s (snapshot c)). } apply negb_false_iff, andb_true_iff in Hfr as [Hfr Hset%negb_true_iff].
  apply andb_true_iff in Hfr as [Hf%bool_decide_eq_true Hb%bool_decide_eq_true].
  pose proof (fresh_slots e Hf Hb) as Hnone.
  eapply wp_bind; [by eapply entry_ready| |by intros err s' (? & ? & _); split; [|right; exists c]]. intros from ? [-> Hfrom].
  pose proof (rd_entries _ _ _ _ _ Hr _ _ Hfrom) as Hok.
  eapply wp_bind; [apply share_ready; [exact Hr|apply Hok|]| |done].
  { intros id Hid. split; [|done]. apply elem_of_all_slots. eauto. }
  intros [] s1 [Hr1 Hfm]. apply frame_calm in Hfm as [(C1 & C2 & C3 & C4) W1].
  apply wp_then. eapply wp_ret; [eapply entry_get; [exact Hr1|by rewrite W1]|].
  eapply wp_bind; [eapply (put_entry_ready x _ s1 ws e (adopted e from) B _ []);
    [exact Hr1|by rewrite W1|by apply adopted_ok|]| |done].
  { rewrite Hnone. solve_perm. }
  intros [] s2 (Hr2 & (D1 & D2 & D3 & D4) & _ & W2). apply wp_then, wp_modify, wp_ok.
  rewrite D3, C3, Hc. split_and!; [|simpl; congruence|].
  - apply ready_checkpoints; [done|..].
    + intros key' c' [[<- <-]|[_ Hc']]%lookup_insert_Some; simpl; [|by eapply (rd_kept _ _ _ _ _ Hr2); rewrite D3, C3].
      eapply (rd_kept _ _ _ _ _ Hr2 key c). by rewrite D3, C3.
    + pose proof (rd_apart _ _ _ _ _ Hr) as Ha.
      intros key1 key2 c1 c2 [[<- <-]|[_ H1]]%lookup_insert_Some [[<- <-]|[_ H2]]%lookup_insert_Some Heq; eauto.
  - exists e, c, from. split_and!; [done..|]. simpl. by rewrite W2, W1.
Qed.

(** ** Folding *)

(** The pages of a buffer, from where [d] of them are gone. *)
Lemma entry_slots_drop e d :
  entry_slots e ≡ₚ (option_list (folded e) ++ omap id (drop d (buffer e))) ++ omap id (take d (buffer e)).
Proof. unfold entry_slots. rewrite <-(take_drop d (buffer e)) at 1. rewrite omap_app. solve_perm. Qed.

(** The pages a fold drops, and what it leaves. *)
Definition folded_pages (e : RsEntry) (count : N) : nat :=
  N.to_nat ((sat_add u32_max (frozen e) count - base e) / N.max (buffer_page_tokens (geom e)) 1) `min` length (buffer e).
Definition fold_entry (e : RsEntry) (count : N) : RsEntry :=
  let frozen' := sat_add u32_max (frozen e) count in
  let left := drop (folded_pages e count) (buffer e) in
  mkEntry (geom e) (folded e) left
    (if decide (left = []) then frozen'
     else base e + N.of_nat (folded_pages e count) * N.max (buffer_page_tokens (geom e)) 1)%N
    frozen' (ring_state e).

Lemma fold_entry_ok x e count :
  entry_ok x e → entry_ok x (fold_entry e count) ∧
  (base e + N.of_nat (folded_pages e count) * N.max (buffer_page_tokens (geom e)) 1 ≤ sat_add u32_max (frozen e) count)%N.
Proof.
  intros []. set (page := N.max (buffer_page_tokens (geom e)) 1).
  assert (Hle : (base e + N.of_nat (folded_pages e count) * page ≤ sat_add u32_max (frozen e) count)%N).
  { unfold folded_pages. fold page. pose proof (N.Div0.mul_div_le (sat_add u32_max (frozen e) count - base e) page) as Hd.
    assert (base e ≤ sat_add u32_max (frozen e) count)%N by (unfold sat_add; lia).
    assert (N.of_nat (N.to_nat ((sat_add u32_max (frozen e) count - base e) / page) `min` length (buffer e)) ≤
      (sat_add u32_max (frozen e) count - base e) / page)%N by lia. nia. }
  split; [|done]. split; simpl.
  - pose proof (entry_slots_drop e (folded_pages e count)) as Hp. rewrite Hp in eo_nodup0.
    by apply NoDup_app in eo_nodup0 as (? & _).
  - done.
  - intros id Hid%elem_of_drop_elem. eauto.
  - case_decide; [done|exact Hle].
  - unfold sat_add. lia.
Qed.

Lemma rs_fold_ready x n s ws count B H :
  ready x n s B H →
  wp (fold ws count) (λ _ s', ready x n s' B H ∧ calm s s' ∧
    wm s' = match wm s !! ws with Some e => <[ws := fold_entry e count]> (wm s) | None => wm s end) never s.
Proof.
  intros Hr. unfold fold. apply wp_then, wp_get. rewrite (get_spec _ _ _ _ _ _ Hr).
  destruct (wm s !! ws) as [e|] eqn:He; [|by apply wp_ok].
  destruct (fold_entry_ok x e count (rd_entries _ _ _ _ _ Hr _ _ He)) as [Hok Hle]. cbn zeta.
  change (N.to_nat (_ / _) `min` _) with (folded_pages e count).
  apply wp_then. unfold checked_add_u32. rewrite decide_True by (unfold sat_add in Hle; lia). apply wp_ok.
  change (mkEntry _ _ _ _ _ _) with (fold_entry e count).
  eapply wp_bind; [eapply (put_entry_ready x n s ws e _ B H (omap id (take (folded_pages e count) (buffer e)) ++ H));
    [done..|]| |done].
  { rewrite (entry_slots_drop e (folded_pages e count)) at 1. unfold fold_entry, entry_slots. simpl. solve_perm. }
  intros [] s1 (Hr1 & Hc1 & _ & Hw1). eapply wp_bind; [by apply decref_all_ready| |done].
  intros k s2 [Hr2 Hf]. apply frame_calm in Hf as [Hc2 Hw2]. apply wp_ok. split_and!; [done|by etrans|by rewrite Hw2].
Qed.

Lemma commit_folds_ready x n folds s B H :
  ready x n s B H → wp (commit_folds folds) (λ _ s', ready x n s' B H ∧ calm s s') never s.
Proof.
  intros Hr. unfold commit_folds. eapply wp_mono; [eapply (wp_for _ (λ _ s', ready x n s' B H ∧ calm s s') never)| |done].
  - intros f l s1 [Hr1 C1]. eapply wp_mono; [by apply rs_fold_ready| |done].
    intros _ s2 (Hr2 & C2 & _). split; [done|by etrans].
  - done.
  - done.
Qed.

(** ** Rings *)

Lemma take_pages_spec pages : ∀ b dropped b',
  take_pages pages b = (dropped, b') →
  omap id b ≡ₚ dropped ++ omap id b' ∧ length b' = length b ∧
  ∀ i, b' !! i = if decide (i ∈ pages) then const None <$> (b !! i) else b !! i.
Proof.
  induction pages as [|p pages IH]; intros b dropped b'; simpl; [by intros [= <- <-]|].
  destruct (mjoin (b !! p)) as [id|] eqn:Hp.
  - destruct (take_pages pages (<[p := None]> b)) as [ids b1] eqn:Ht. intros [= <- <-].
    apply IH in Ht as (Hperm & Hlen & Hlook).
    assert (Hbp : b !! p = Some (Some id)) by (destruct (b !! p) as [[]|]; naive_solver).
    split_and!.
    + simpl. rewrite <-Hperm. rewrite <-(take_drop_middle b p _ Hbp) at 1.
      rewrite (insert_take_drop b p) by by eapply lookup_lt_Some. rewrite !omap_app. csimpl. solve_perm.
    + by rewrite Hlen, length_insert.
    + intros i. rewrite Hlook. destruct (decide (i = p)) as [->|Hne].
      * rewrite (decide_True (P := p ∈ p :: pages)) by by left.
        rewrite list_lookup_insert_eq by by eapply lookup_lt_Some. rewrite Hbp. by case_decide.
      * rewrite list_lookup_insert_ne by done. repeat case_decide; [done|set_solver..|done].
  - intros Ht. apply IH in Ht as (Hperm & Hlen & Hlook). split_and!; [done..|]. intros i. rewrite Hlook.
    destruct (decide (i = p)) as [->|Hne].
    + rewrite (decide_True (P := p ∈ p :: pages)) by by left.
      case_decide; [done|]. destruct (b !! p) as [[]|]; naive_solver.
    + repeat case_decide; [done|set_solver..|done].
Qed.

(** The ring's entry once it is advanced, and the pages it gives back. *)
Definition advanced_ring (g : RingGeometry) (r : RingState) (a : RingAdvance) : RingState :=
  let r' := advance_ring r a in
  if decide (ring_first g r' a ≤ retired r)%N then r' else mkRing (ring_first g r' a) (committed r') (head r').
Definition advance_behind (g : RingGeometry) (r : RingState) (a : RingAdvance) (order : list nat) : list nat :=
  let first := ring_first g (advance_ring r a) a in
  if decide (first ≤ retired r)%N then [] else pages_behind order (retired r) first.

Lemma ring_advance_ready x n s ws a order B H :
  ready x n s B H → is_Some (wm s !! ws) →
  wp (ring_advance ws a order) (λ _ s', ready x n s' B H ∧ calm s s' ∧
    ∀ e, wm s !! ws = Some e → wm s' = match ring s, ring_state e with
      | Some g, Some r => <[ws := mkEntry (geom e) (folded e) (take_pages (advance_behind g r a order) (buffer e)).2
          (base e) (frozen e) (Some (advanced_ring g r a))]> (wm s)
      | _, _ => wm s end) never s.
Proof.
  intros Hr [e He]. unfold ring_advance. apply wp_then, wp_get.
  destruct (ring s) as [g|]; [|by apply wp_ok]. apply wp_then. eapply wp_ret; [by eapply expect_entry_get|].
  pose proof (rd_entries _ _ _ _ _ Hr _ _ He) as Hok.
  destruct (ring_state e) as [r|] eqn:Hring; [|apply wp_ok; split_and!; [done..|]; intros e' He'; rewrite He in He';
    by injection He' as <-; rewrite Hring]. cbn zeta.
  assert (Hwm : ∀ s', wm s' = <[ws := mkEntry (geom e) (folded e) (take_pages (advance_behind g r a order) (buffer e)).2
      (base e) (frozen e) (Some (advanced_ring g r a))]> (wm s) →
    ∀ e', wm s !! ws = Some e' → wm s' = match ring_state e' with
      | Some r => <[ws := mkEntry (geom e') (folded e') (take_pages (advance_behind g r a order) (buffer e')).2
          (base e') (frozen e') (Some (advanced_ring g r a))]> (wm s) | None => wm s end).
  { intros s' Hs' e' He'. rewrite He in He'. injection He' as <-. by rewrite Hring. }
  destruct (decide (ring_first g (advance_ring r a) a ≤ retired r)%N) as [Hd|Hd].
  - eapply wp_mono; [eapply (put_entry_ready x n s ws e _ B H H); [done..| |done]| |done].
    { by destruct Hok. }
    intros _ s' (Hr' & Hc & _ & Hw). split_and!; [done..|]. apply Hwm. rewrite Hw.
    unfold advance_behind, advanced_ring. by rewrite !decide_True.
  - assert (Hbeh : advance_behind g r a order = pages_behind order (retired r) (ring_first g (advance_ring r a) a)).
    { unfold advance_behind. by rewrite decide_False. }
    rewrite <-Hbeh. destruct (take_pages (advance_behind g r a order) (buffer e)) as [dropped b] eqn:Ht.
    destruct (take_pages_spec _ _ _ _ Ht) as (Hperm & Hlen & Hlook).
    eapply wp_bind; [eapply (put_entry_ready x n s ws e _ B H (dropped ++ H)); [done..| |]| |done].
    + destruct Hok. split; simpl; try done.
      * unfold entry_slots in *. simpl. rewrite Hperm in eo_nodup0. eapply sublist_NoDup; [exact eo_nodup0|].
        apply sublist_app; [done|]. by apply sublist_inserts_l.
      * intros id [i Hi]%list_elem_of_lookup. rewrite Hlook in Hi. case_decide.
        -- destruct (buffer e !! i); naive_solver.
        -- by eapply eo_buffer0, list_elem_of_lookup_2.
    + unfold entry_slots. simpl. rewrite Hperm. solve_perm.
    + intros [] s1 (Hr1 & Hc1 & _ & Hw1). eapply wp_bind; [by apply decref_all_ready| |done].
      intros k s2 [Hr2 Hf]. apply frame_calm in Hf as [Hc2 Hw2]. apply wp_ok. split_and!; [done|by etrans|].
      apply Hwm. rewrite Hw2, Hw1. unfold advanced_ring. by rewrite decide_False.
Qed.
End keep.
End RsKeep.
