(* ===== verification/RsWrites.v ===== *)
(** Drawing on the pools, preparing writes and taking them back, settling, and
    publishing keep the books of the recurrent-state store. A prepared write has the
    slots and pages it drew until it is published or cancelled. *)
From S2P Require Import Prelude Ids Store Pool KvTable KvStore Hoare RsStore RsBooks RsKeep.

Module RsWrites.
Import RsStore RsBooks RsKeep.

(** ** Grants *)

Definition grant_loans (o : option RsGrant) : list (tag * RsSlotId) :=
  match o with Some g => loans Given (g_slots g ++ g_pages g) | None => [] end.
Definition grant_ok (x : layout) (o : option RsGrant) : Prop :=
  match o with
  | Some g => Forall (within (x_slots x)) (g_slots g) ∧ Forall (within (x_pages x)) (g_pages g)
  | None => True
  end.

(** ** Prepared writes *)

(** The state is in a slot of its own; otherwise it is written where it is. *)
Definition fresh_state (st : RsStateTarget) : bool := reset st || bool_decide (is_Some (copy_from st)).
Definition taken_state (o : option RsStateTarget) : list RsSlotId :=
  match o with Some st => if fresh_state st then [slot st] else [] | None => [] end.
Definition target_index (t : RsBufferTarget) : nat :=
  match t with Fresh i _ | InPlace i _ | Cow i _ _ => i end.
Definition taken_page (t : RsBufferTarget) : option RsSlotId :=
  match t with Fresh _ d | Cow _ _ d => Some d | InPlace _ _ => None end.

Record write_ok (x : layout) (w : RsPreparedWrite) : Prop := {
  wo_whole : w_allocated w ≡ₚ taken_state (w_state w) ++ omap taken_page (w_buffers w) ++ (w_snapshots w).*2;
  wo_state : Forall (within (x_slots x)) (taken_state (w_state w));
  wo_pages : Forall (within (x_pages x)) (omap taken_page (w_buffers w));
  wo_rows : Forall (within (x_slots x)) (w_snapshots w).*2;
  wo_indexes : NoDup (target_index <$> w_buffers w);
  wo_seq : (w_seq w ≤ u64_max)%N;
}.

(** The write is as it was prepared for the entry. *)
Record fits (e : RsEntry) (w : RsPreparedWrite) : Prop := {
  fi_state st : w_state w = Some st → fresh_state st = false → folded e = Some (slot st);
  fi_buffers t : t ∈ w_buffers w → lookup_page e (target_index t) = match t with
    | Fresh _ _ => None | InPlace _ d => Some d | Cow _ src _ => Some src end;
  fi_rows row id : (row, id) ∈ w_snapshots w → (frozen e + row ≤ u32_max)%N;
}.

Definition write_loans (w : RsPreparedWrite) : list (tag * RsSlotId) := loans (Writing (w_seq w)) (w_allocated w).

(** ** What a write leaves in its entry *)

Definition land_page (b : list (option RsSlotId)) (i : nat) (d : RsSlotId) : list (option RsSlotId) :=
  <[i := Some d]> (grow (S i) b).
Definition land_target (b : list (option RsSlotId)) (t : RsBufferTarget) : list (option RsSlotId) :=
  match taken_page t with Some d => land_page b (target_index t) d | None => b end.
Definition with_buffer (e : RsEntry) (b : list (option RsSlotId)) : RsEntry :=
  mkEntry (geom e) (folded e) b (base e) (frozen e) (ring_state e).
Definition with_state (e : RsEntry) (o : option RsStateTarget) : RsEntry :=
  mkEntry (geom e) (match o with Some st => Some (slot st) | None => folded e end) (buffer e) (base e) (frozen e)
    (ring_state e).
Definition landed (e : RsEntry) (w : RsPreparedWrite) : RsEntry :=
  with_buffer (with_state e (w_state w)) (foldl land_target (buffer e) (w_buffers w)).

Lemma lookup_grow n b i : mjoin (grow n b !! i) = mjoin (b !! i).
Proof.
  unfold grow. destruct (decide (i < length b)).
  - by rewrite lookup_app_l.
  - rewrite lookup_app_r, (lookup_ge_None_2 b i) by lia.
    destruct (replicate _ None !! (i - length b)) as [o|] eqn:Ho; [|done].
    by apply lookup_replicate in Ho as [-> _].
Qed.
Lemma omap_grow n b : omap id (grow n b) = omap id b.
Proof.
  unfold grow. rewrite omap_app.
  assert (Hn : ∀ k, omap id (replicate k (None : option RsSlotId)) = []) by (induction k; [done|]; simpl; done).
  by rewrite Hn, app_nil_r.
Qed.
Lemma length_grow n b : length (grow n b) = n `max` length b.
Proof. unfold grow. rewrite length_app, length_replicate. lia. Qed.

Lemma lookup_land_page b i d j : mjoin (land_page b i d !! j) = if decide (j = i) then Some d else mjoin (b !! j).
Proof.
  unfold land_page. case_decide as Hj.
  - subst. rewrite list_lookup_insert_eq; [done|]. rewrite length_grow. lia.
  - by rewrite list_lookup_insert_ne, lookup_grow.
Qed.

Lemma omap_insert_page (b : list (option RsSlotId)) i o o' :
  b !! i = Some o → option_list o ++ omap id (<[i := o']> b) ≡ₚ option_list o' ++ omap id b.
Proof.
  intros Hi. rewrite <-(take_drop_middle b i _ Hi) at 2.
  rewrite insert_take_drop by by eapply lookup_lt_Some. rewrite !omap_app. csimpl.
  destruct o, o'; simpl; solve_perm.
Qed.

Lemma omap_land_page b i d : option_list (mjoin (b !! i)) ++ omap id (land_page b i d) ≡ₚ d :: omap id b.
Proof.
  unfold land_page. rewrite <-(lookup_grow (S i)). rewrite <-(omap_grow (S i) b).
  destruct (lookup_lt_is_Some_2 (grow (S i) b) i) as [o Ho]; [rewrite length_grow; lia|].
  rewrite Ho. exact (omap_insert_page _ _ _ (Some d) Ho).
Qed.

Section writes.
Context {WS : Type → Type}.
Context `{!KeyedStore RsWorkingSetId WS, !KeyedStoreLaws RsWorkingSetId WS}.
Abbreviation store := (RsStore WS).
Abbreviation sm := (method store RsError).
Abbreviation gm := (method (store * option RsGrant) RsError).
Implicit Types s : store.
Abbreviation wm s := (st_map (working_sets s)).
Abbreviation never := (λ _ _, False).

(** A store and the grant lent with it. *)
Definition granted x n B H (p : store * option RsGrant) : Prop :=
  ready x n p.1 (grant_loans p.2 ++ B) H ∧ grant_ok x p.2.

Lemma with_grant_wp {A} (m : sm A) Q X s (o : option RsGrant) :
  wp m Q X s → wp (with_grant m) (λ a p, Q a p.1 ∧ p.2 = o) (λ e p, X e p.1 ∧ p.2 = o) (s, o).
Proof. unfold wp, with_grant. simpl. by destruct (m s) as [[a|e|] s']. Qed.

(** ** Drawing *)

Lemma alloc_ready x n need s B H :
  ready x n s B H →
  wp (alloc need) (λ o s', frame s s' ∧ refs s' = refs s ∧ match o with
    | Some (sl, pg) => N.of_nat (length sl) = u_slots need ∧ N.of_nat (length pg) = u_pages need ∧
        Forall (within (x_slots x)) sl ∧ Forall (within (x_pages x)) pg ∧
        ready x n s' (loans Given (sl ++ pg) ++ B) H
    | None => ready x n s' B H end) never s.
Proof.
  intros Hr. unfold alloc.
  eapply wp_bind; [apply (try_alloc_at_ready x n s AtSlots _ B H Hr)| |done]. intros [sl|] s1; simpl; last first.
  { intros [-> _]. by apply wp_ok. }
  intros (L1 & W1 & Hr1 & F1 & R1).
  eapply wp_bind; [apply (try_alloc_at_ready x n s1 AtPages _ _ H Hr1)| |done]. intros [pg|] s2; simpl.
  - intros (L2 & W2 & Hr2 & F2 & R2). apply wp_ok. split_and!; [by etrans|congruence|lia|lia|done|done|].
    eapply rs_ready_perm; [|done|exact Hr2]. rewrite loans_app. solve_perm.
  - intros [-> _]. eapply wp_bind; [apply (release_at_ready x n s1 AtSlots sl B H Hr1 W1)| |done].
    intros [] s2 (Hr2 & F2 & R2). apply wp_ok. split_and!; [by etrans|congruence|done].
Qed.

Lemma rs_reserve_ready x n need s B H :
  ready x n s B H →
  wp (reserve need) (λ o s', granted x n B H (s', o) ∧ frame s s') never s.
Proof.
  intros Hr. unfold reserve. eapply wp_bind; [by apply alloc_ready| |done].
  intros [[sl pg]|] s' (F & _ & Hs); apply wp_ok; (split; [|done]); split; simpl; try done.
  - by destruct Hs as (_ & _ & _ & _ & ?).
  - by destruct Hs as (_ & _ & ? & ? & _).
Qed.

Lemma release_reservation_ready x n g s B H :
  granted x n B H (s, Some g) →
  wp (release_reservation g) (λ _ s', ready x n s' B H ∧ frame s s') never s.
Proof.
  intros [Hr [W1 W2]]. unfold release_reservation. simpl in Hr.
  eapply wp_bind; [apply (release_at_ready x n s AtSlots (g_slots g) (loans Given (g_pages g) ++ B) H); [|done]| |done].
  { by rewrite loans_app, <-app_assoc in Hr. }
  intros [] s1 (Hr1 & F1 & R1).
  eapply wp_mono; [apply (release_at_ready x n s1 AtPages (g_pages g) B H Hr1 W2)| |done].
  intros [] s2 (Hr2 & F2 & R2). split; [done|by etrans].
Qed.

Lemma as_u32_le n : (as_u32 n ≤ n)%N.
Proof. unfold as_u32. apply N.Div0.mod_le. Qed.

Lemma draw_ready x n need p B H :
  granted x n B H p →
  wp (draw need) (λ ids p', granted x n (loans Given (ids.1 ++ ids.2) ++ B) H p' ∧ frame p.1 p'.1 ∧
      refs p'.1 = refs p.1 ∧ N.of_nat (length ids.1) = u_slots need ∧ N.of_nat (length ids.2) = u_pages need ∧
      Forall (within (x_slots x)) ids.1 ∧ Forall (within (x_pages x)) ids.2)
    (λ _ p', granted x n B H p' ∧ frame p.1 p'.1) p.
Proof.
  destruct p as [s o]. intros [Hr Hok]. unfold draw. apply wp_then, wp_get. simpl in *.
  destruct o as [g|].
  - simpl in *. case_match eqn:Hcov; [by apply wp_err|]. apply negb_false_iff in Hcov.
    unfold covers in Hcov. simpl in Hcov. apply andb_true_iff in Hcov as [C1%bool_decide_eq_true C2%bool_decide_eq_true].
    pose proof (as_u32_le (N.of_nat (length (g_slots g)))). pose proof (as_u32_le (N.of_nat (length (g_pages g)))).
    cbn zeta. apply wp_then, wp_guard; [lia|]. apply wp_then, wp_guard; [lia|].
    apply wp_then, wp_modify, wp_ok. destruct Hok as [W1 W2]. simpl.
    split_and!; try done; [|rewrite length_take; lia|rewrite length_take; lia|by apply Forall_take|by apply Forall_take].
    split; simpl; [|split; by apply Forall_drop]. eapply rs_ready_perm; [|done|exact Hr].
    rewrite <-(take_drop (N.to_nat (u_slots need)) (g_slots g)) at 1.
    rewrite <-(take_drop (N.to_nat (u_pages need)) (g_pages g)) at 1. rewrite !loans_app. solve_perm.
  - simpl in *. eapply wp_bind; [apply with_grant_wp, (alloc_ready x n need s B H Hr)| |by intros ? ? [? _]].
    intros a [s' o'] [(F & R & Ha) Ho]. simpl in *. subst o'. apply wp_then, wp_get. destruct a as [[sl pg]|]; simpl.
    + destruct Ha as (L1 & L2 & W1 & W2 & Hr'). apply wp_ok. done.
    + apply wp_err. done.
Qed.

(** ** Preparing *)

(** A fire that starts: it touches what entries have and what is drawn for it. *)
Lemma ready_fire x n s t ids B H :
  ready x (S n) s (loans Given ids ++ B) H →
  (∀ id, touches t id = true → ¬ hosted x id ∧ (is_Some (refs s !! id) ∨ id ∈ ids)) →
  let q := as_u64 (seq_ s + 1) in
  ready x n (set_inflight (set_seq s q) (<[q := t]> (inflight s))) (loans (Writing q) ids ++ B) H ∧ q = (seq_ s + 1)%N.
Proof.
  intros Hr Ht q. assert (Hq : q = (seq_ s + 1)%N).
  { unfold q, as_u64. pose proof (rd_seq _ _ _ _ _ Hr). rewrite N.mod_small; lia. }
  split; [|done]. destruct Hr. split; simpl; try done.
  - eapply st_room_le; [|done]. lia.
  - lia.
  - rewrite <-rd_whole0, !fmap_app, !loans_snd. done.
  - intros q' t' [[<- <-]|[_ Hq']]%lookup_insert_Some; [lia|]. specialize (rd_seqs0 _ _ Hq'). lia.
  - lia.
  - intros q' t' id [[<- <-]|[Hne Hq']]%lookup_insert_Some Hid.
    + destruct (Ht id Hid) as [? [?|?]]; (split; [done|]); [by left|]. right; right. exists (Writing q).
      split; [|done]. apply elem_of_app. left. by apply elem_of_loans.
    + destruct (rd_touched0 _ _ _ Hq' Hid) as [? [?|[?|(o & Hin & Hs)]]]; (split; [done|]);
        [by left|by right; left|right; right]. exists o. split; [|done].
      apply elem_of_app in Hin as [[-> _]%elem_of_loans|Hin]; [done|]. set_solver.
Qed.

(** A buffer target for what the index held. *)
Definition target_fits s (p : nat * option RsSlotId) (t : RsBufferTarget) : Prop :=
  match t with
  | Fresh i _ => p = (i, None)
  | InPlace i d => p = (i, Some d) ∧ (ref_count s d ≤ 1)%N
  | Cow i src _ => p = (i, Some src) ∧ (1 < ref_count s src)%N
  end.

Lemma rs_write_targets_spec s targets : ∀ ids,
  length (filter (λ t, takes_fresh s t.2 = true) targets) = length ids →
  ∃ ts, write_targets s targets ids = Some ts ∧ omap taken_page ts = ids ∧ Forall2 (target_fits s) targets ts.
Proof.
  induction targets as [|[i o] targets IH]; intros ids; [destruct ids; [|done]; intros _; by exists []|].
  rewrite filter_cons. simpl. destruct o as [src|]; simpl.
  - case_decide as Hc; rewrite bool_decide_eq_true in Hc; [rewrite decide_True by done|rewrite decide_False by done].
    + destruct ids as [|d ids]; [done|]. intros [= Hl]. destruct (IH ids Hl) as (ts & -> & Hp & Hf).
      eexists. split; [done|]. csimpl. rewrite Hp. by repeat constructor.
    + intros Hl. destruct (IH ids Hl) as (ts & -> & Hp & Hf).
      eexists. split; [done|]. split; [done|]. constructor; [|done]. split; [done|lia].
  - destruct ids as [|d ids]; [done|]. intros [= Hl]. destruct (IH ids Hl) as (ts & -> & Hp & Hf).
    eexists. split; [done|]. csimpl. rewrite Hp. by repeat constructor.
Qed.

(** The state target for what the entry holds. *)
Definition state_fits s (e : RsEntry) (write_state fresh : bool) (o : option RsStateTarget) : Prop :=
  match o with
  | None => write_state = false
  | Some st => write_state = true ∧ match folded e with
      | None => reset st = true ∧ copy_from st = None
      | Some old => reset st = false ∧
          if fresh || bool_decide (1 < ref_count s old)%N then copy_from st = Some old
          else copy_from st = None ∧ slot st = old
      end
  end.

Lemma state_target_spec s e write_state fresh fold ids :
  length ids = (if takes_state s e write_state fresh then 1 else 0) →
  ∃ o, state_target s e write_state fresh fold ids = Some o ∧ state_fits s e write_state fresh o ∧
    taken_state o = ids ∧ o ≫= fold_tokens = (if write_state then fold else None).
Proof.
  unfold takes_state, state_target, takes_fresh. destruct write_state; simpl.
  - destruct (folded e) as [old|] eqn:Hf; simpl.
    + destruct (fresh || bool_decide (1 < ref_count s old)%N) eqn:Hc.
      * destruct ids as [|d [|]]; try done. intros _. eexists. split; [done|]. simpl. rewrite Hf, Hc. done.
      * destruct ids; [|done]. intros _. eexists. split; [done|]. simpl. rewrite Hf, Hc. done.
    + rewrite orb_true_r. destruct ids as [|d [|]]; try done. intros _. eexists. split; [done|]. simpl. by rewrite Hf.
  - destruct ids; [|done]. intros _. by exists None.
Qed.

(** The entry has none of its slots in host memory. *)
Definition resident s (ws : RsWorkingSetId) : Prop :=
  ∀ e, wm s !! ws = Some e → holds_host s e = false.

Lemma resident_slots x n s B H ws e :
  ready x n s B H → wm s !! ws = Some e → holds_host s e = false →
  ∀ id, id ∈ entry_slots e → ¬ hosted x id ∧ is_Some (refs s !! id).
Proof.
  intros Hr He Hh id Hid.
  assert (Hrf : is_Some (refs s !! id)).
  { apply (ref_held _ _ _ _ _ id Hr), elem_of_app. left. apply elem_of_all_slots. eauto. }
  split; [|done]. destruct (ref_exists _ _ _ _ _ id Hr Hrf) as [Hex _].
  pose proof (is_host_spec s id) as Hs. rewrite (rd_extents _ _ _ _ _ Hr) in Hs.
  intros Hho. apply Hs in Hho; [|apply Hr|done]. unfold holds_host in Hh.
  enough (existsb (is_host s) (entry_slots e) = true) by congruence.
  apply existsb_exists. exists id. split; [by apply list_elem_of_In|done].
Qed.

(** What a prepared write is, of the entry it was prepared for. *)
Record prepared s e (ws : RsWorkingSetId) (write_state fresh : bool) (fold : option N)
    (targets : list (nat * option RsSlotId)) (w : RsPreparedWrite) s' : Prop := {
  pr_ws : w_ws w = ws;
  pr_entry : wm s !! ws = Some e;
  pr_rows : w_snapshots w = [];
  pr_state : state_fits s e write_state fresh (w_state w);
  pr_fold : w_state w ≫= fold_tokens = if write_state then fold else None;
  pr_buffers : Forall2 (target_fits s) targets (w_buffers w);
  pr_seq : w_seq w = seq_ s' ∧ seq_ s' = (seq_ s + 1)%N;
  pr_inflight : inflight s' = <[w_seq w := touch_of (w_state w) (w_buffers w)]> (inflight s);
  pr_rest : working_sets s' = working_sets s ∧ refs s' = refs s ∧ checkpoints s' = checkpoints s ∧ ring s' = ring s;
}.

Lemma target_fits_index s targets ts : Forall2 (target_fits s) targets ts → target_index <$> ts = targets.*1.
Proof. induction 1 as [|p t ps ts' Ht _ IH]; [done|]. csimpl. rewrite IH. destruct t; simpl in Ht; naive_solver. Qed.

(** What a fire writes is the state's slot and the pages, and reads what it copies. *)
Lemma touch_of_spec s e write_state fresh targets o ts id :
  state_fits s e write_state fresh o → Forall2 (target_fits s) targets ts →
  (∀ i v, (i, v) ∈ targets → v = lookup_page e i) → touches (touch_of o ts) id = true →
  id ∈ entry_slots e ∨ id ∈ taken_state o ++ omap taken_page ts.
Proof.
  intros Ho Hts Hl. unfold touches, touch_of. simpl. rewrite orb_true_iff, !bool_decide_eq_true, !elem_of_app.
  assert (Hb : ∀ t, t ∈ ts → t ∈ ts ∧ ∃ p, p ∈ targets ∧ target_fits s p t).
  { intros t [i Hi]%list_elem_of_lookup. destruct (Forall2_lookup_r _ _ _ _ _ Hts Hi) as (p & Hp & ?).
    split; [by eapply list_elem_of_lookup_2|]. exists p. split; [by eapply list_elem_of_lookup_2|done]. }
  assert (Hp : ∀ i v, (i, Some v) ∈ targets → v ∈ entry_slots e).
  { intros i v Hv%Hl. apply elem_of_entry_slots. right. unfold lookup_page in Hv.
    destruct (buffer e !! i) as [[]|] eqn:Hi; simpl in Hv; try done. injection Hv as ->. by eapply list_elem_of_lookup_2. }
  intros [[Hs|(t & -> & (Ht & p & Hpt & Hft)%Hb)%list_elem_of_fmap]|[Hs|(t & (Ht & p & Hpt & Hft)%Hb & Hsrc)%list_elem_of_omap]].
  - destruct o as [st|]; [|by apply not_elem_of_nil in Hs]. apply list_elem_of_singleton in Hs as ->.
    destruct Ho as [_ Ho]. simpl. unfold fresh_state. destruct (folded e) as [old|] eqn:Hf.
    + destruct Ho as [-> Ho]. destruct (fresh || _); [rewrite Ho; simpl; right; left; by left|].
      destruct Ho as [-> ->]. simpl. left. apply elem_of_entry_slots. by left.
    + destruct Ho as [-> _]. simpl. right; left; by left.
  - destruct t as [i d|i d|i src d]; simpl in *.
    + right; right. apply list_elem_of_omap. by exists (Fresh i d).
    + destruct Hft as [-> _]. left. by eapply Hp.
    + right; right. apply list_elem_of_omap. by exists (Cow i src d).
  - destruct o as [st|]; [|by apply not_elem_of_nil in Hs]. simpl in Hs. destruct Ho as [_ Ho].
    destruct (folded e) as [old|] eqn:Hf.
    + destruct Ho as [_ Ho]. destruct (fresh || _); [|destruct Ho as [Ho _]]; rewrite Ho in Hs; simpl in Hs;
        [|by apply not_elem_of_nil in Hs]. apply list_elem_of_singleton in Hs as ->. left. apply elem_of_entry_slots. by left.
    + destruct Ho as [_ Ho]. rewrite Ho in Hs. by apply not_elem_of_nil in Hs.
  - destruct t as [i d|i d|i src d]; simpl in *; try done. injection Hsrc as <-. destruct Hft as [-> _].
    left. by eapply Hp.
Qed.

Lemma as_u32_fits n : (n ≤ u32_max)%N → as_u32 n = n.
Proof. intros. unfold as_u32, u32_max in *. apply N.mod_small. lia. Qed.

Lemma prepare_targets_ready x n p ws write_state fresh fold targets B H :
  granted x (S n) B H p → resident p.1 ws →
  (∀ e, wm p.1 !! ws = Some e → NoDup targets.*1 ∧ (N.of_nat (length targets) ≤ u32_max)%N ∧
     ∀ i v, (i, v) ∈ targets → v = lookup_page e i) →
  wp (prepare_targets ws write_state fresh fold targets)
    (λ w p', granted x n (write_loans w ++ B) H p' ∧ write_ok x w ∧
       ∃ e, prepared p.1 e ws write_state fresh fold targets w p'.1)
    (λ _ p', granted x n B H p' ∧ frame p.1 p'.1) p.
Proof.
  destruct p as [s o]. intros Hg Hres Htg. simpl in *.
  assert (Hno : granted x n B H (s, o)) by (destruct Hg; split; [by eapply rs_ready_le; [|done]; lia|done]).
  unfold prepare_targets.
  eapply wp_bind; [apply with_grant_wp, (entry_ready x _ s _ H ws (proj1 Hg))| |].
  2: { intros e [s' o'] [(Hs' & _) Ho']. simpl in *. by subst s' o'. }
  intros e [s' o'] [[Hs' He] Ho']. simpl in *. subst s' o'. destruct (Htg e He) as (Hnd & Hlen & Hlook).
  apply wp_then, wp_get. simpl. apply wp_then, wp_guard; [by eapply Hres|]. cbn zeta.
  pose proof (resident_slots x _ s _ H ws e (proj1 Hg) He (Hres e He)) as Hslots. simpl in Hslots.
  eapply wp_bind; [apply (draw_ready x _ _ _ _ _ Hg)| |].
  2: { intros err p' [[? ?] ?]. split; [|done]. split; [|done]. by eapply rs_ready_le; [|done]; lia. }
  intros [sl pg] [s1 o1] ([Hr1 Hok1] & F1 & R1 & L1 & L2 & W1 & W2). simpl in *.
  apply wp_then, wp_get. simpl.
  assert (Hrc : ref_count s1 = ref_count s) by (unfold ref_count; by rewrite R1).
  unfold targets_demand in L2. rewrite as_u32_fits in L2.
  2: { etrans; [|exact Hlen]. pose proof (length_filter (λ t : nat * option RsSlotId, takes_fresh s t.2 = true) targets). lia. }
  destruct (state_target_spec s e write_state fresh fold sl) as (st & Hst & Hsf & Hts & Hfo).
  { destruct (takes_state s e write_state fresh); lia. }
  destruct (rs_write_targets_spec s targets pg) as (ts & Hwt & Hpg & Hft); [lia|].
  assert (Hst1 : state_target s1 e write_state fresh fold sl = Some st).
  { rewrite <-Hst. unfold state_target. by rewrite Hrc. }
  assert (Hwt1 : write_targets s1 targets pg = Some ts).
  { rewrite <-Hwt. clear -Hrc. revert pg. induction targets as [|[i [v|]] targets IH]; intros pg; simpl; [done|..].
    - rewrite Hrc. case_decide; [destruct pg|]; by rewrite ?IH.
    - destruct pg; by rewrite ?IH. }
  apply wp_then. eapply wp_expect; [exact Hst1|]. apply wp_then. eapply wp_expect; [exact Hwt1|].
  destruct F1 as (F1 & F2 & F3 & F4 & F5).
  destruct (ready_fire x n s1 (touch_of st ts) (sl ++ pg) (grant_loans o1 ++ B) H) as [Hr2 Hq].
  { eapply rs_ready_perm; [|done|exact Hr1]. solve_perm. }
  { intros id [Hin|Hin]%(touch_of_spec s e write_state fresh targets st ts id Hsf Hft Hlook).
    - destruct (Hslots id Hin). rewrite R1. split; [done|by left].
    - rewrite Hts, Hpg in Hin. split; [|by right]. pose proof (rd_layout _ _ _ _ _ Hr1) as [].
      rewrite Forall_forall in W1, W2. apply elem_of_app in Hin as [Hin%W1|Hin%W2];
        unfold hosted, within in *; lia. }
  repeat (apply wp_then; unfold with_grant, wp, mmodify; simpl). unfold wp, mget, mok, mthen. simpl.
  split_and!; [split; [|done]| |].
  - eapply rs_ready_perm; [|done|exact Hr2]. unfold write_loans. simpl. solve_perm.
  - split; simpl.
    + by rewrite Hts, Hpg, app_nil_r.
    + by rewrite Hts.
    + by rewrite Hpg.
    + constructor.
    + by rewrite (target_fits_index s targets ts Hft).
    + unfold as_u64, u64_max. pose proof (N.mod_lt (seq_ s1 + 1) (2 ^ 64)). lia.
  - exists e. split; simpl; try done.
    + by rewrite Hq, F2.
    + by rewrite F3.
Qed.

(** *** Targets *)

Lemma dedup_sorted_NoDup l : StronglySorted (≤) l → NoDup (KvStore.dedup_sorted l).
Proof.
  intros Hs. assert (Hd : StronglySorted (<) (KvStore.dedup_sorted l) ∧ ∀ y, y ∈ KvStore.dedup_sorted l → y ∈ l).
  { induction Hs as [|a l Hs [IH1 IH2] Ha]; [by split; [constructor|]|]. simpl.
    rewrite Forall_forall in Ha. destruct (KvStore.dedup_sorted l) as [|y k] eqn:Hk.
    - split; [by repeat constructor|]. set_solver.
    - case_decide as Hay; [split; [done|set_solver]|]. split; [|set_solver]. constructor; [done|].
      pose proof (Ha y (IH2 y ltac:(by left))). apply StronglySorted_inv in IH1 as [_ Hy]. constructor; [lia|].
      eapply Forall_impl; [exact Hy|]. simpl. lia. }
  destruct Hd as [Hd _]. clear Hs. induction Hd as [|a k Hd IH Ha]; constructor; [|done].
  intros Hin. rewrite Forall_forall in Ha. specialize (Ha a Hin). lia.
Qed.
Lemma dedup_sorted_length l : length (KvStore.dedup_sorted l) ≤ length l.
Proof. induction l as [|a l IH]; [done|]. simpl. destruct (KvStore.dedup_sorted l); [simpl; lia|]. case_decide; simpl in *; lia. Qed.

Lemma ring_targets_spec s e pages :
  (N.of_nat (length pages) ≤ u32_max)%N →
  NoDup (ring_targets s e pages).*1 ∧ (N.of_nat (length (ring_targets s e pages)) ≤ u32_max)%N ∧
  ∀ i v, (i, v) ∈ ring_targets s e pages → v = lookup_page e i.
Proof.
  intros Hlen. unfold ring_targets. destruct (live_ring s e); [|split_and!; [constructor|simpl; lia|by intros i v ?%not_elem_of_nil]].
  split_and!.
  - rewrite <-list_fmap_compose. change (fst ∘ _) with (@id nat). rewrite list_fmap_id.
    apply dedup_sorted_NoDup, StronglySorted_merge_sort; apply _.
  - rewrite length_fmap. unfold KvStore.sort_dedup. pose proof (dedup_sorted_length (merge_sort (≤) pages)).
    pose proof (Permutation_length (merge_sort_Permutation (≤) pages)). lia.
  - intros i v (p & [= -> ->] & _)%list_elem_of_fmap. done.
Qed.

Lemma buffer_targets_spec x s e w :
  entry_ok x e → (∀ a b, w = Some (a, b) → (b ≤ u32_max)%N) →
  wp (buffer_targets e w) (λ ts s', s' = s ∧ NoDup ts.*1 ∧ (N.of_nat (length ts) ≤ u32_max)%N ∧
    ∀ i v, (i, v) ∈ ts → v = lookup_page e i) (λ _ s', s' = s) s.
Proof.
  intros Hok Hw. unfold buffer_targets. destruct (nonempty w) as [[start end_]|] eqn:Hne.
  2: { apply wp_ok. split_and!; [done|constructor|simpl; lia|by intros i v ?%not_elem_of_nil]. }
  assert (start < end_ ∧ end_ ≤ u32_max)%N as [Hse Hend].
  { unfold nonempty in Hne. destruct w as [[a b]|]; [|done]. case_decide; [|done]. injection Hne as -> ->. eauto. }
  case_decide as Hbf; [by apply wp_err|]. cbn zeta. apply wp_then, wp_guard.
  { pose proof (eo_base _ _ Hok). case_decide; lia. }
  apply wp_ok. split_and!; [done| | |].
  - rewrite <-list_fmap_compose. change (fst ∘ _) with (@id nat). rewrite list_fmap_id. apply NoDup_seq.
  - rewrite length_fmap, length_seq. set (b := if decide _ then _ else _).
    clearbody b. assert (∀ q r, q ≤ end_ - 1 - b → N.of_nat (S (N.to_nat q) - N.to_nat r) ≤ u32_max)%N as Hq
      by (intros q r; lia). apply Hq.
    apply N.Div0.div_le_upper_bound. set (p := N.max _ 1). assert (1 ≤ p)%N by (unfold p; lia). nia.
  - intros i v (p & [= -> ->] & _)%list_elem_of_fmap. done.
Qed.

(** The entry with its buffer sized for what a write covers. *)
Definition sized (e : RsEntry) (w : option (N * N)) : RsEntry :=
  match nonempty w with
  | None => e
  | Some (_, end_) =>
      let base := if decide (buffer e = []) then frozen e else base e in
      let page := N.max (buffer_page_tokens (geom e)) 1 in
      mkEntry (geom e) (folded e) (grow (N.to_nat (KvStore.div_ceil (end_ - base) page)) (buffer e)) base (frozen e)
        (ring_state e)
  end.

Lemma sized_slots e w : entry_slots (sized e w) = entry_slots e.
Proof. unfold sized. destruct (nonempty w) as [[a b]|]; [|done]. unfold entry_slots. simpl. by rewrite omap_grow. Qed.
Lemma sized_page e w i : lookup_page (sized e w) i = lookup_page e i.
Proof. unfold sized, lookup_page. destruct (nonempty w) as [[a b]|]; [|done]. simpl. apply lookup_grow. Qed.
Lemma elem_of_grow n b (id : RsSlotId) : Some id ∈ grow n b ↔ Some id ∈ b.
Proof.
  unfold grow. rewrite elem_of_app. split; [|by left]. intros [?|Hr]; [done|].
  apply elem_of_replicate in Hr as [? _]. done.
Qed.
Lemma sized_ok x e w : entry_ok x e → entry_ok x (sized e w).
Proof.
  intros Hok. pose proof (sized_slots e w) as Hsl. destruct Hok. unfold sized in *.
  destruct (nonempty w) as [[a b]|]; [|done]. split; simpl; try done.
  - by rewrite Hsl.
  - intros id. rewrite elem_of_grow. apply eo_buffer0.
  - case_decide; [done|exact eo_base0].
Qed.

Lemma size_buffer_ready x n s ws w B H :
  ready x n s B H →
  wp (size_buffer ws w) (λ _ s', ready x n s' B H ∧ calm s s' ∧ refs s' = refs s ∧
      (∀ e, wm s !! ws = Some e → wm s' = <[ws := sized e w]> (wm s)) ∧ (wm s !! ws = None → s' = s))
    (λ _ s', s' = s) s.
Proof.
  intros Hr. unfold size_buffer. destruct (nonempty w) as [[a b]|] eqn:Hw.
  2: { apply wp_ok. split_and!; [done..| |done]. intros e He. unfold sized. by rewrite Hw, insert_id. }
  eapply wp_bind; [by eapply entry_ready| |by intros ? ? [? _]]. intros e ? [-> He]. cbn zeta.
  pose proof (put_entry_ready x n s ws e (sized e w) B H H Hr He (sized_ok x e w (rd_entries _ _ _ _ _ Hr _ _ He))
    ltac:(by rewrite sized_slots)) as Hp.
  unfold sized at 1 in Hp. rewrite Hw in Hp. eapply wp_mono; [exact Hp| |done].
  intros [] s' (Hr' & Hc & Hf & Hw'). split_and!; [done..| |by rewrite He].
  intros e' He'. rewrite He in He'. by injection He' as <-.
Qed.

(** *** Writes *)

Lemma prepare_ring_ready x n p ws pages B H :
  granted x (S n) B H p → resident p.1 ws → (N.of_nat (length pages) ≤ u32_max)%N →
  wp (prepare_ring ws pages)
    (λ w p', granted x n (write_loans w ++ B) H p' ∧ write_ok x w ∧
       ∃ e, prepared p.1 e ws false false None (ring_targets p.1 e pages) w p'.1)
    (λ _ p', granted x n B H p' ∧ frame p.1 p'.1) p.
Proof.
  destruct p as [s o]. intros Hg Hres Hlen. unfold prepare_ring. simpl in Hres.
  eapply wp_bind; [apply with_grant_wp, (entry_ready x _ s _ H ws (proj1 Hg))| |].
  2: { intros e [s' o'] [(Hs' & _) Ho']. simpl in *. subst s' o'. split; [|done].
       split; [eapply rs_ready_le; [|apply Hg]; lia|apply Hg]. }
  intros e [s' o'] [[Hs' He] Ho']. simpl in *. subst s' o'. apply wp_then, wp_get. simpl.
  eapply wp_mono; [apply (prepare_targets_ready x n _ ws false false None (ring_targets s e pages) B H Hg Hres)| |done].
  - simpl. intros e' He'. rewrite He in He'. injection He' as <-. by apply ring_targets_spec.
  - intros w p' (Hp & Hw & e' & Hpr). split_and!; [done..|]. exists e'.
    pose proof (pr_entry _ _ _ _ _ _ _ _ _ Hpr) as He'. simpl in He'. rewrite He in He'. by injection He' as <-.
Qed.

(** What the store has when a write is prepared on it, the buffer sized. *)
Definition group_sized s (ws : RsWorkingSetId) (w : option (N * N)) s1 : Prop :=
  calm s s1 ∧ refs s1 = refs s ∧ ∀ e, wm s !! ws = Some e → wm s1 = <[ws := sized e w]> (wm s).

Lemma prepare_group_ready x n p ws write_state fresh fold r B H :
  granted x (S n) B H p → resident p.1 ws → (∀ a b, r = Some (a, b) → (b ≤ u32_max)%N) →
  wp (prepare_group ws write_state fresh fold r)
    (λ w p', granted x n (write_loans w ++ B) H p' ∧ write_ok x w ∧
       ∃ e s1 targets, wm p.1 !! ws = Some e ∧ group_sized p.1 ws r s1 ∧
         buffer_targets (sized e r) r s1 = (Ok targets, s1) ∧
         prepared s1 (sized e r) ws write_state fresh fold targets w p'.1)
    (λ _ p', granted x n B H p' ∧ calm p.1 p'.1 ∧ (wm p'.1 = wm p.1 ∨ ∃ e, wm p.1 !! ws = Some e ∧
       wm p'.1 = <[ws := sized e r]> (wm p.1))) p.
Proof.
  destruct p as [s o]. intros Hg Hres Hb. unfold prepare_group. simpl in Hres.
  assert (Hno : granted x n B H (s, o)) by (split; [eapply rs_ready_le; [|apply Hg]; lia|apply Hg]).
  eapply wp_bind; [apply with_grant_wp, (size_buffer_ready x _ s ws r _ H (proj1 Hg))| |].
  2: { intros e [s' o'] [Hs' Ho']. simpl in *. subst s' o'. split_and!; [done..|by left]. }
  intros [] [s1 o1] [(Hr1 & Hc1 & Hf1 & Hw1 & Hs1) Ho]. simpl in *. subst o1.
  assert (Hg1 : granted x (S n) B H (s1, o)) by (split; [done|apply Hg]).
  assert (Hno1 : granted x n B H (s1, o)) by (split; [eapply rs_ready_le; [|exact Hr1]; lia|apply Hg]).
  eapply wp_bind; [apply with_grant_wp, (entry_ready x _ s1 _ H ws Hr1)| |].
  2: { intros err [s' o'] [(Hs' & Hn & _) Ho']. simpl in *. subst s' o'. split_and!; [done..|].
       destruct (wm s !! ws) as [e|] eqn:He; [right; exists e; split; [done|by apply Hw1]|left].
       by rewrite Hs1. }
  intros e1 [s' o'] [[Hs' He1] Ho']. simpl in *. subst s' o'.
  destruct (wm s !! ws) as [e|] eqn:He; [|by rewrite Hs1, He in He1].
  specialize (Hw1 e eq_refl). rewrite Hw1, lookup_insert_eq in He1. injection He1 as <-.
  pose proof (rd_entries _ _ _ _ _ Hr1 ws (sized e r)) as Hok. rewrite Hw1, lookup_insert_eq in Hok. specialize (Hok eq_refl).
  pose proof (buffer_targets_spec x s1 (sized e r) r Hok Hb) as Ht.
  unfold wp in Ht. destruct (buffer_targets (sized e r) r s1) as [[targets|err|] s2] eqn:Hbt; [| |done].
  2: { subst s2. apply wp_then. eapply (wp_raise _ err); [unfold with_grant; simpl; by rewrite Hbt|].
       split_and!; [done..|]. right. by exists e. }
  destruct Ht as (-> & Hnd & Hlen & Hlook).
  apply wp_then. eapply (wp_ret _ targets); [unfold with_grant; simpl; by rewrite Hbt|].
  eapply wp_mono; [apply (prepare_targets_ready x n (s1, o) ws write_state fresh fold targets B H Hg1)| |].
  - intros e' He'. simpl in He'. rewrite Hw1, lookup_insert_eq in He'. injection He' as <-.
    specialize (Hres e He). unfold holds_host in *. simpl. rewrite sized_slots.
    assert (Hih : is_host s1 = is_host s); [|by rewrite Hih].
    pose proof (rd_extents _ _ _ _ _ (proj1 Hg)) as X1. pose proof (rd_extents _ _ _ _ _ Hr1) as X2.
    unfold is_host. simpl in X1. rewrite <-X1 in X2. unfold extents, Pool.extent in X2.
    injection X2 as _ _ _ _ Hbase _ _ _ _. by rewrite Hbase.
  - simpl. intros e' He'. rewrite Hw1, lookup_insert_eq in He'. by injection He' as <-.
  - intros w p' (Hp & Hw & e' & Hpr). split_and!; [done..|]. exists e, s1, targets.
    pose proof (pr_entry _ _ _ _ _ _ _ _ _ Hpr) as He'. simpl in He'. rewrite Hw1, lookup_insert_eq in He'.
    injection He' as <-. split_and!; [done| |done|done]. split; [done|]. split; [done|].
    intros e' He'. rewrite He in He'. by injection He' as <-.
  - simpl. intros err p' [Hp Hf]. apply frame_calm in Hf as [Hc Hw]. split_and!; [done|by etrans|].
    right. exists e. split; [done|]. by rewrite Hw.
Qed.

(** ** Fires in flight *)

(** A change of the fires alone. *)
Lemma ready_inflight x n s m B H :
  ready x n s B H → (∀ q t, m !! q = Some t → (0 < q ≤ seq_ s)%N) →
  (∀ q t id, m !! q = Some t → touches t id = true →
    ¬ hosted x id ∧ (is_Some (refs s !! id) ∨ waiting s q id ∨ sheltered B q id)) →
  ready x n (set_inflight s m) B H.
Proof. intros [] Hq Ht. by split. Qed.

Lemma ready_fewer x n s m B H : ready x n s B H → m ⊆ inflight s → ready x n (set_inflight s m) B H.
Proof.
  intros Hr Hm. apply ready_inflight; [done|..].
  - intros q t Hq. eapply (rd_seqs _ _ _ _ _ Hr), lookup_weaken; done.
  - intros q t id Hq. eapply (rd_touched _ _ _ _ _ Hr), lookup_weaken; done.
Qed.

(** What is given becomes a write's. *)
Lemma ready_retag x n s o ids B H :
  ready x n s (loans Given ids ++ B) H → ready x n s (loans o ids ++ B) H.
Proof.
  intros Hr. eapply ready_relend; [exact Hr| |].
  - by rewrite !fmap_app, !loans_snd.
  - intros q t id _ _ (o' & [[-> _]%elem_of_loans|Hin]%elem_of_app & Hs); [done|].
    exists o'. set_solver.
Qed.

Lemma device_within x id : layout_ok x → within (x_slots x) id ∨ within (x_pages x) id → ¬ hosted x id.
Proof. intros [] Hw Hh. unfold hosted, within in *. lia. Qed.

Lemma write_device x w : layout_ok x → write_ok x w → Forall (λ id, ¬ hosted x id) (w_allocated w).
Proof.
  intros Hl [Hw Hs Hp Hr _ _]. rewrite Hw, !Forall_app. split_and!; (eapply Forall_impl; [done|]); intros id Hid;
    apply device_within; tauto.
Qed.

(** Which slot each row of a fire has. *)
Definition with_rows (w : RsPreparedWrite) (rows : list N) (ids : list RsSlotId) : RsPreparedWrite :=
  mkWrite (w_ws w) (w_state w) (w_buffers w) (w_allocated w ++ ids) (w_seq w) (zip rows ids).

Lemma with_rows_ok x w rows ids :
  write_ok x w → w_snapshots w = [] → length ids = length rows → Forall (within (x_slots x)) ids →
  write_ok x (with_rows w rows ids).
Proof.
  intros [Hw Hs Hp Hr Hi Hq] Hnil Hlen Hids.
  assert (Hz : (zip rows ids).*2 = ids) by (apply snd_zip; lia).
  split; unfold with_rows; simpl; rewrite ?Hz; try done. rewrite Hw, Hnil. simpl. rewrite app_nil_r. solve_perm.
Qed.

(** A fire takes up more slots. *)
Lemma ready_rows x n s q ids B H :
  ready x n s (loans (Writing q) ids ++ B) H → Forall (within (x_slots x)) ids →
  ready x n (match inflight s !! q with
    | Some t => set_inflight s (<[q := mkTouch (writes t ++ ids) (reads t)]> (inflight s))
    | None => s end) (loans (Writing q) ids ++ B) H.
Proof.
  intros Hr Hids. destruct (inflight s !! q) as [t|] eqn:Hq; [|done]. apply ready_inflight; [done|..].
  - intros q' t' [[<- <-]|[_ Hq']]%lookup_insert_Some; by eapply (rd_seqs _ _ _ _ _ Hr).
  - intros q' t' id [[<- <-]|[_ Hq']]%lookup_insert_Some Hid; [|by eapply (rd_touched _ _ _ _ _ Hr)].
    destruct (decide (id ∈ ids)) as [Hin|Hin].
    + split.
      * apply device_within; [apply Hr|]. left. rewrite Forall_forall in Hids. by apply Hids.
      * right; right. exists (Writing q). split; [|done]. apply elem_of_app. left. by apply elem_of_loans.
    + apply (rd_touched _ _ _ _ _ Hr q t); [done|]. unfold touches in *. simpl in Hid.
      rewrite orb_true_iff, !bool_decide_eq_true in *. set_solver.
Qed.

(** A fire in flight that writes these slots besides. *)
Definition grown (t t' : Touch) (ids : list RsSlotId) : Prop :=
  writes t ⊆ writes t' ∧ reads t' = reads t ∧ ∀ id, id ∈ writes t' → id ∈ writes t ∨ id ∈ ids.
Lemma grown_refl t ids : grown t t ids.
Proof. split_and!; auto. Qed.

Lemma prepare_snapshots_ready x n p w rows B H :
  granted x n (write_loans w ++ B) H p → write_ok x w → w_snapshots w = [] → (N.of_nat (length rows) ≤ u32_max)%N →
  wp (prepare_snapshots w rows)
    (λ w' p', granted x n (write_loans w' ++ B) H p' ∧ write_ok x w' ∧
       (∃ ids, length ids = length rows ∧ w' = if decide (rows = []) then w else with_rows w rows ids) ∧
       wm p'.1 = wm p.1 ∧ refs p'.1 = refs p.1 ∧
       ∀ q t, inflight p.1 !! q = Some t → ∃ t', inflight p'.1 !! q = Some t' ∧
         grown t t' (w_allocated w'))
    (λ _ p', granted x n (write_loans w ++ B) H p' ∧ frame p.1 p'.1) p.
Proof.
  destruct p as [s o]. intros Hg Hok Hnil Hlen. unfold prepare_snapshots.
  case_decide as Hrows.
  { apply wp_ok. split_and!; [done..| |done|done|eauto using grown_refl]. exists []. by rewrite Hrows. }
  cbn zeta. apply wp_then, wp_get. simpl.
  set (m := match o with Some _ => _ | None => _ end).
  assert (Hm : wp m (λ ids p', granted x n (loans Given ids ++ write_loans w ++ B) H p' ∧ frame s p'.1 ∧
      refs p'.1 = refs s ∧ length ids = length rows ∧ Forall (within (x_slots x)) ids)
    (λ _ p', granted x n (write_loans w ++ B) H p' ∧ frame s p'.1) (s, o)).
  { unfold m. destruct o as [g|]; simpl.
    - case_decide as Hle; [|by apply wp_err]. apply wp_then, wp_modify, wp_ok. simpl.
      destruct Hg as [Hr [W1 W2]]. simpl in *. split_and!; [|done|done|rewrite length_take; lia|by apply Forall_take].
      split; simpl; [|split; [by apply Forall_drop|done]]. eapply rs_ready_perm; [|done|exact Hr].
      rewrite <-(take_drop (length rows) (g_slots g)) at 1. rewrite !loans_app. solve_perm.
    - destruct Hg as [Hr _]. simpl in Hr.
      eapply wp_bind; [apply with_grant_wp, (alloc_ready x n _ s _ H Hr)| |by intros ? ? [? _]].
      intros a [s' o'] [(F & R & Ha) Ho]. simpl in *. subst o'. apply wp_then, wp_get.
      destruct a as [[sl pg]|]; apply wp_then; simpl.
      + destruct Ha as (L1 & L2 & W1 & W2 & Hr'). apply wp_ok, wp_ok. simpl in *.
        rewrite as_u32_fits in L1 by done. destruct pg; [|simpl in L2; lia]. rewrite app_nil_r in Hr'.
        split_and!; try done. lia.
      + by apply wp_err. }
  eapply wp_bind; [exact Hm| |by intros ? ?]. clear m Hm.
  intros ids [s1 o1] ([Hr1 Hok1] & (F1 & F2 & F3 & F4 & F5) & R1 & L1 & W1). simpl in *.
  assert (Hr2 : ready x n s1 (loans (Writing (w_seq w)) ids ++ grant_loans o1 ++ write_loans w ++ B) H).
  { apply ready_retag. eapply rs_ready_perm; [|done|exact Hr1]. solve_perm. }
  apply (ready_rows x n s1 (w_seq w) ids _ H) in Hr2; [|done].
  apply wp_then. unfold with_grant, wp, mmodify. simpl. unfold mok. simpl.
  change (mkWrite _ _ _ _ _ _) with (with_rows w rows ids).
  split_and!; [split; [|done]| | | | |].
  - eapply rs_ready_perm; [|done|exact Hr2]. unfold write_loans, with_rows. simpl. rewrite loans_app. solve_perm.
  - by apply with_rows_ok.
  - exists ids. done.
  - destruct (inflight s1 !! w_seq w); simpl; by rewrite F1.
  - by destruct (inflight s1 !! w_seq w).
  - intros q t Hq. rewrite <-F3 in Hq. destruct (inflight s1 !! w_seq w) as [t0|] eqn:Ht0; simpl; [|eauto using grown_refl].
    destruct (decide (q = w_seq w)) as [->|Hne]; [|rewrite lookup_insert_ne by done; eauto using grown_refl].
    rewrite Ht0 in Hq. injection Hq as <-. rewrite lookup_insert_eq. eexists. split; [done|].
    unfold grown. simpl. set_solver.
Qed.
End writes.
End RsWrites.
