(* ===== verification/RsPublish.v ===== *)
(** Cancelling, settling, noting what a fire reads and publishing keep the books of
    the recurrent-state store: a write that lands takes the slots it drew into its
    working set and drops what was there. *)
From S2P Require Import Prelude Ids Store Pool KvTable KvStore Hoare RsStore RsBooks RsKeep RsWrites.

Module RsPublish.
Import RsStore RsBooks RsKeep RsWrites.

Section publish.
Context {WS : Type → Type}.
Context `{!KeyedStore RsWorkingSetId WS, !KeyedStoreLaws RsWorkingSetId WS}.
Abbreviation store := (RsStore WS).
Abbreviation sm := (method store RsError).
Implicit Types s : store.
Abbreviation wm s := (st_map (working_sets s)).
Abbreviation never := (λ _ _, False).

(** ** Taking a write back *)

(** Only the pools and the fires move. *)
Definition quiet s s' : Prop :=
  working_sets s' = working_sets s ∧ refs s' = refs s ∧ checkpoints s' = checkpoints s ∧
  ring s' = ring s ∧ seq_ s' = seq_ s.
#[export] Instance quiet_refl : Reflexive quiet.
Proof. by intros s. Qed.
#[export] Instance quiet_trans : Transitive quiet.
Proof. intros s1 s2 s3 (?&?&?&?&?) (?&?&?&?&?). unfold quiet. split_and!; congruence. Qed.
Lemma frame_quiet s s' : frame s s' → refs s' = refs s → quiet s s'.
Proof. intros (?&?&?&?&?) ?. unfold quiet. done. Qed.

Lemma cancel_ready x n w s B H :
  ready x n s (write_loans w ++ B) H → write_ok x w →
  wp (cancel_prepared w) (λ _ s', ready x n s' B H ∧ quiet s s' ∧
    inflight s' = delete (w_seq w) (inflight s)) never s.
Proof.
  intros Hr Hw. unfold cancel_prepared.
  eapply wp_bind; [apply (recycle_ready x n (w_allocated w) (Writing (w_seq w)) (w_seq w) s B H Hr)| |done].
  - apply write_device; [apply Hr|done].
  - apply Hw.
  - intros q t id _ _ _ Hs. simpl in Hs. lia.
  - intros [] s1 (Hr1 & F1 & R1). pose proof (frame_quiet _ _ F1 R1) as Q1. destruct F1 as (_ & _ & I1 & _ & _).
    apply wp_then, wp_modify.
    assert (Hr2 : ready x n (set_inflight s1 (delete (w_seq w) (inflight s1))) B H).
    { apply ready_fewer; [done|]. apply delete_subseteq. }
    eapply wp_mono; [apply (rs_retire_idle_ready x n _ B H Hr2)| |done].
    intros [] s2 (Hr3 & F3 & R3). pose proof (frame_quiet _ _ F3 R3) as Q3. split_and!; [done|by etrans; [exact Q1|]|].
    destruct F3 as (_ & _ & -> & _ & _). simpl. by rewrite I1.
Qed.

Definition batch_loans (ws : list RsPreparedWrite) : list (tag * RsSlotId) := concat (write_loans <$> ws).

Lemma cancel_batch_ready x n ws s B H :
  ready x n s (batch_loans ws ++ B) H → Forall (write_ok x) ws →
  wp (cancel_batch ws) (λ _ s', ready x n s' B H ∧ quiet s s') never s.
Proof.
  revert s. induction ws as [|w ws IH]; intros s Hr Hok; [by apply wp_ok|].
  apply Forall_cons in Hok as [Hw Hok]. unfold cancel_batch. cbn [mfor].
  eapply wp_bind; [apply (cancel_ready x n w s (batch_loans ws ++ B) H)| |done].
  - eapply rs_ready_perm; [|done|exact Hr]. unfold batch_loans. csimpl. by rewrite app_assoc.
  - done.
  - intros [] s1 (Hr1 & Q1 & _). eapply wp_mono; [by apply IH| |done]. intros [] s2 [Hr2 Q2]. split; [done|by etrans].
Qed.

Lemma foldl_delete_subseteq (seqs : list N) (m : gmap N Touch) : foldl (λ m seq, delete seq m) m seqs ⊆ m.
Proof.
  revert m. induction seqs as [|q seqs IH]; intros m; simpl; [done|]. etrans; [apply IH|apply delete_subseteq].
Qed.

Lemma rs_settle_ready x n p s B H :
  ready x n s B H →
  wp (settle p) (λ _ s', ready x n s' B H ∧ quiet s s' ∧
    inflight s' = foldl (λ m seq, delete seq m) (inflight s) (seqs p)) never s.
Proof.
  intros Hr. unfold settle. apply wp_then, wp_modify.
  assert (Hr1 : ready x n (set_inflight s (foldl (λ m seq, delete seq m) (inflight s) (seqs p))) B H).
  { apply ready_fewer; [done|]. apply foldl_delete_subseteq. }
  eapply wp_mono; [by apply rs_retire_idle_ready| |done]. intros [] s2 (Hr2 & F2 & R2).
  split_and!; [done|by etrans; [|by apply frame_quiet]|]. by destruct F2 as (_ & _ & -> & _ & _).
Qed.

(** What the fire of a number touches. *)
Definition touched s (q : N) (id : RsSlotId) : Prop := ∃ t, inflight s !! q = Some t ∧ touches t id = true.

Lemma note_reads_ready x n q ids s B H :
  ready x n s B H → Forall (λ id, ¬ hosted x id ∧ is_Some (refs s !! id) ∨ touched s q id) ids →
  wp (note_reads q ids) (λ _ s', ready x n s' B H ∧ quiet s s' ∧
    inflight s' = match inflight s !! q with
      | Some t => <[q := mkTouch (writes t) (reads t ++ ids)]> (inflight s) | None => inflight s end) never s.
Proof.
  intros Hr Hids. rewrite Forall_forall in Hids. unfold note_reads. apply wp_modify.
  destruct (inflight s !! q) as [t|] eqn:Hq; [|done]. split_and!; [|done..]. apply ready_inflight; [done|..].
  - intros q' t' [[<- <-]|[_ Hq']]%lookup_insert_Some; by eapply (rd_seqs _ _ _ _ _ Hr).
  - intros q' t' id [[<- <-]|[_ Hq']]%lookup_insert_Some Hid; [|by eapply (rd_touched _ _ _ _ _ Hr)].
    destruct (decide (id ∈ ids)) as [Hin|Hin].
    + destruct (Hids id Hin) as [[? ?]|(t' & Ht' & Htid)]; [split; [done|by left]|].
      by apply (rd_touched _ _ _ _ _ Hr q t').
    + apply (rd_touched _ _ _ _ _ Hr q t); [done|]. unfold touches in *. simpl in Hid.
      rewrite orb_true_iff, !bool_decide_eq_true in *. set_solver.
Qed.

(** ** Publishing *)

(** The first reference to a slot that was drawn. *)
Definition claimed s (id : RsSlotId) : store := set_refs s (<[id := 1%N]> (refs s)).

(** An entry takes up a slot that was drawn, and lets go of others. *)
Lemma take_up_ready x n s ws e e' o id out B H :
  ready x n s ((o, id) :: B) H → wm s !! ws = Some e →
  id :: entry_slots e ≡ₚ entry_slots e' ++ out →
  (∀ v, folded e' = Some v → ¬ paged x v) → (∀ v, Some v ∈ buffer e' → paged x v) →
  base e' = base e → frozen e' = frozen e →
  wp (mmodify (λ s, set_refs s (<[id := 1%N]> (refs s))) ;;; put_entry ws e')
    (λ _ s', ready x n s' B (out ++ H) ∧ calm s s' ∧ wm s' = <[ws := e']> (wm s)) never s.
Proof.
  intros Hr He Hperm Hf Hb Hba Hfr. apply wp_then, wp_modify.
  pose proof (claim_ready x n s o id B H Hr) as Hr1.
  pose proof (rd_entries _ _ _ _ _ Hr _ _ He) as [].
  assert (Hnin : id ∉ entry_slots e).
  { intros Hin. assert (Hrf : is_Some (refs s !! id)).
    { apply (ref_held _ _ _ _ _ id Hr), elem_of_app. left. apply elem_of_all_slots. eauto. }
    destruct (ref_exists _ _ _ _ _ id Hr Hrf) as [_ Hn]. apply Hn. by left. }
  assert (Hnd : NoDup (entry_slots e' ++ out)).
  { rewrite <-Hperm. by constructor. }
  eapply wp_mono; [apply (put_entry_ready x n _ ws e e' B (id :: H) (out ++ H) Hr1 He)| |done].
  - split; rewrite ?Hba, ?Hfr; try done. by apply NoDup_app in Hnd as (? & _).
  - rewrite app_assoc, <-Hperm. simpl. solve_perm.
  - intros [] s' (Hr' & Hc & _ & Hw). done.
Qed.

Lemma slots_not_paged x id : layout_ok x → within (x_slots x) id → ¬ paged x id.
Proof. intros [] Hw Hp. unfold paged, within in *. lia. Qed.

(** *** Pages *)

Lemma set_buffer_page_eq ws i d s e :
  expect_entry ws s = (Ok e, s) →
  set_buffer_page ws i d s = put_entry ws (with_buffer e (land_page (buffer e) i d)) s.
Proof. intros He. unfold set_buffer_page, mthen. by rewrite He. Qed.

Lemma wp_eq {A} (m m' : sm A) Q X s : m s = m' s → wp m' Q X s → wp m Q X s.
Proof. unfold wp. by intros ->. Qed.

Lemma wp_assoc {A A' C} (m : sm A) (k : A → sm A') (l : A' → sm C) Q X s :
  wp (mthen (mthen m k) l) Q X s → wp (mthen m (λ a, mthen (k a) l)) Q X s.
Proof. unfold wp, mthen. by destruct (m s) as [[a|e|] s']. Qed.

Lemma page_lands_ready x n s ws e o i d B H :
  ready x n s ((o, d) :: B) H → wm s !! ws = Some e → within (x_pages x) d →
  wp (mmodify (λ s, set_refs s (<[d := 1%N]> (refs s))) ;;; set_buffer_page ws i d)
    (λ _ s', ready x n s' B (option_list (lookup_page e i) ++ H) ∧ calm s s' ∧
       wm s' = <[ws := with_buffer e (land_page (buffer e) i d)]> (wm s)) never s.
Proof.
  intros Hr He Hd. pose proof (claim_ready x n s o d B H Hr) as Hr1.
  eapply (wp_eq _ (mmodify (λ s, set_refs s (<[d := 1%N]> (refs s))) ;;;
    put_entry ws (with_buffer e (land_page (buffer e) i d)))).
  { unfold mthen, mmodify. apply set_buffer_page_eq. by eapply expect_entry_get. }
  pose proof (rd_entries _ _ _ _ _ Hr _ _ He) as [].
  eapply take_up_ready; [exact Hr|exact He|..]; try done.
  - unfold entry_slots, with_buffer. simpl. pose proof (omap_land_page (buffer e) i d) as Hp.
    unfold lookup_page. transitivity (option_list (folded e) ++ (d :: omap id (buffer e))); [solve_perm|].
    rewrite <-Hp. solve_perm.
  - intros v. simpl. intros [j Hj]%list_elem_of_lookup. destruct (decide (j = i)) as [->|Hne].
    + pose proof (lookup_land_page (buffer e) i d i) as Hl. rewrite Hj, decide_True in Hl by done.
      injection Hl as ->. by left.
    + pose proof (lookup_land_page (buffer e) i d j) as Hl. rewrite Hj, decide_False in Hl by done.
      simpl in Hl. apply eo_buffer0. destruct (buffer e !! j) as [[]|] eqn:Hb; simpl in Hl; try done.
      injection Hl as ->. by eapply list_elem_of_lookup_2.
Qed.

Lemma targets_land_ready x n q ws ts : ∀ s e B H,
  ready x n s (loans (Writing q) (omap taken_page ts) ++ B) H → wm s !! ws = Some e →
  (∀ t, t ∈ ts → lookup_page e (target_index t) = match t with
    | Fresh _ _ => None | InPlace _ d => Some d | Cow _ src _ => Some src end) →
  NoDup (target_index <$> ts) → Forall (within (x_pages x)) (omap taken_page ts) →
  wp (mfor ts (publish_target ws)) (λ _ s', ready x n s' B H ∧ calm s s' ∧
    wm s' = <[ws := with_buffer e (foldl land_target (buffer e) ts)]> (wm s)) never s.
Proof.
  induction ts as [|t ts IH]; intros s e B H Hr He Hl Hnd Hw.
  { apply wp_ok. split_and!; [done..|]. rewrite insert_id; [done|]. rewrite He. by destruct e. }
  cbn [mfor]. csimpl in Hnd. apply NoDup_cons in Hnd as [Hi Hnd].
  assert (Hrest : ∀ i d, target_index t = i → ∀ t', t' ∈ ts →
    lookup_page (with_buffer e (land_page (buffer e) i d)) (target_index t') = lookup_page e (target_index t')).
  { intros i d <- t' Ht'. unfold lookup_page. simpl. rewrite lookup_land_page, decide_False; [done|].
    intros Heq. apply Hi. rewrite <-Heq. by apply list_elem_of_fmap_2. }
  assert (Hgo : ∀ i d s1, target_index t = i → taken_page t = Some d →
    ready x n s1 (loans (Writing q) (omap taken_page ts) ++ B) H ∧ calm s s1 ∧
      wm s1 = <[ws := with_buffer e (land_page (buffer e) i d)]> (wm s) →
    Forall (within (x_pages x)) (omap taken_page ts) →
    wp (mfor ts (publish_target ws)) (λ _ s', ready x n s' B H ∧ calm s s' ∧
      wm s' = <[ws := with_buffer e (foldl land_target (buffer e) (t :: ts))]> (wm s)) never s1).
  { intros i d s1 Hti Htd (Hr1 & Hc1 & Hw1) Hwi. eapply wp_mono; [eapply (IH s1 (with_buffer e (land_page (buffer e) i d)) B H Hr1)| |done].
    - by rewrite Hw1, lookup_insert_eq.
    - intros t' Ht'. rewrite (Hrest i d Hti t' Ht'). apply Hl. by right.
    - done.
    - done.
    - intros [] s' (Hr' & Hc' & Hw'). split_and!; [done|by etrans|]. rewrite Hw', Hw1, insert_insert_eq.
      simpl. unfold land_target at 3. by rewrite Htd, Hti. }
  pose proof (Hl t ltac:(by left)) as Hlt.
  destruct t as [i d|i d|i src d]; csimpl in Hr; csimpl in Hw; cbn [publish_target target_index] in *.
  - apply Forall_cons in Hw as [Hd Hw].
    eapply wp_bind; [eapply (page_lands_ready x n s ws e _ i d _ H Hr He Hd)| |done].
    rewrite Hlt. simpl. intros [] s1 H1. by apply (Hgo i d).
  - apply wp_then, wp_ok.
    eapply wp_mono; [apply (IH s e B H Hr He)| |done]; [|done..]. intros t' Ht'. apply Hl. by right.
  - apply Forall_cons in Hw as [Hd Hw].
    eapply (wp_bind _ _ (λ _ s1, ready x n s1 (loans (Writing q) (omap taken_page ts) ++ B) H ∧ calm s s1 ∧
      wm s1 = <[ws := with_buffer e (land_page (buffer e) i d)]> (wm s)) never); [| |done].
    + pose proof (page_lands_ready x n s ws e _ i d _ H Hr He Hd) as Hp. rewrite Hlt in Hp. simpl in Hp.
      apply wp_assoc. eapply wp_bind; [exact Hp| |done].
      intros [] s1 (Hr1 & Hc1 & Hw1). eapply wp_bind; [by apply decref_ready| |done].
      intros b s2 (Hr2 & F2 & _). apply frame_calm in F2 as [Hc2 Hw2]. apply wp_ok.
      split_and!; [done|by etrans|by rewrite Hw2].
    + intros [] s1 H1. by apply (Hgo i d).
Qed.

(** *** The state *)

Lemma with_state_same e st : folded e = Some (slot st) → with_state e (Some st) = e.
Proof. intros Hf. destruct e. unfold with_state. simpl in *. by rewrite Hf. Qed.

Lemma state_lands_ready x n q ws o s e B H :
  ready x n s (loans (Writing q) (taken_state o) ++ B) H → wm s !! ws = Some e →
  (∀ st, o = Some st → fresh_state st = false → folded e = Some (slot st)) →
  Forall (within (x_slots x)) (taken_state o) →
  wp (match o with Some st => publish_state ws st | None => mok tt end) (λ _ s', ready x n s' B H ∧ calm s s' ∧
    wm s' = <[ws := with_state e o]> (wm s)) never s.
Proof.
  intros Hr He Hfit Hw. destruct o as [st|]; last first.
  { apply wp_ok. split_and!; [done..|]. rewrite insert_id; [done|]. rewrite He. by destruct e. }
  unfold publish_state. apply wp_then. eapply wp_ret; [by eapply expect_entry_get|].
  simpl in Hr, Hw. destruct (fresh_state st) eqn:Hfr.
  - apply Forall_cons in Hw as [Hw _]. simpl in Hr.
    assert (Hne : folded e ≠ Some (slot st)).
    { intros Hf. assert (Hrf : is_Some (refs s !! slot st)).
      { apply (ref_held _ _ _ _ _ _ Hr), elem_of_app. left. apply elem_of_all_slots. exists ws, e.
        split; [done|]. apply elem_of_entry_slots. by left. }
      destruct (ref_exists _ _ _ _ _ _ Hr Hrf) as [_ Hn]. apply Hn. by left. }
    rewrite decide_False by done.
    pose proof (rd_entries _ _ _ _ _ Hr _ _ He) as [].
    pose proof (take_up_ready x n s ws e (with_state e (Some st)) _ (slot st) (option_list (folded e)) B H Hr He) as Hp.
    apply wp_assoc. eapply wp_bind; [apply Hp| |done].
    + unfold entry_slots, with_state. simpl. solve_perm.
    + simpl. intros v [= <-]. apply slots_not_paged; [apply Hr|done].
    + done.
    + done.
    + done.
    + intros [] s1 (Hr1 & Hc1 & Hw1). destruct (folded e) as [old|]; [|by apply wp_ok].
      eapply wp_bind; [apply decref_ready; exact Hr1| |done].
      intros b s2 (Hr2 & F2 & _). apply frame_calm in F2 as [Hc2 Hw2]. apply wp_ok.
      split_and!; [done|by etrans|by rewrite Hw2].
  - pose proof (Hfit st eq_refl Hfr) as Hf. rewrite decide_True by done. apply wp_ok.
    split_and!; [done..|]. by rewrite with_state_same, insert_id.
Qed.

(** *** The rows *)

(** Each row of a fire has a working set of its own that nobody had. *)
Record rows_land (m m' : gmap RsWorkingSetId RsEntry) (ws : RsWorkingSetId) (g : RsGeometry) (at_ : N)
    (rows : list (N * RsSlotId)) (snaps : list RsSnapshot) : Prop := {
  rl_rows : (λ r, (sn_row r, sn_slot r)) <$> snaps = rows;
  rl_ws : Forall (λ r, sn_ws r = ws) snaps;
  rl_old : m ⊆ m';
  rl_new r : r ∈ snaps → m !! sn_snapshot r = None ∧
    m' !! sn_snapshot r = Some (mkEntry g (Some (sn_slot r)) [] (at_ + sn_row r) (at_ + sn_row r) None);
  rl_dom k : is_Some (m' !! k) → is_Some (m !! k) ∨ k ∈ sn_snapshot <$> snaps;
}.

Lemma rows_land_nil m ws g at_ : rows_land m m ws g at_ [] [].
Proof. split; try done; [by intros r ?%not_elem_of_nil|by left]. Qed.

Lemma rows_land_cons m m' ws g at_ row slot k rows snaps :
  m !! k = None → rows_land (<[k := mkEntry g (Some slot) [] (at_ + row) (at_ + row) None]> m) m' ws g at_ rows snaps →
  rows_land m m' ws g at_ ((row, slot) :: rows) (mkSnapshot ws row slot k :: snaps).
Proof.
  intros Hk []. assert (Hsub : m ⊆ <[k := mkEntry g (Some slot) [] (at_ + row) (at_ + row) None]> m) by (by apply insert_subseteq).
  split.
  - csimpl. by rewrite rl_rows0.
  - by constructor.
  - by etrans.
  - intros r [->|Hr]%elem_of_cons; simpl.
    + split; [done|]. eapply lookup_weaken; [|exact rl_old0]. by rewrite lookup_insert_eq.
    + destruct (rl_new0 r Hr) as [Hn ?]. split; [|done]. destruct (m !! sn_snapshot r) eqn:Hm; [|done].
      by rewrite (lookup_weaken _ _ _ _ Hm Hsub) in Hn.
  - intros k' Hs. csimpl. destruct (rl_dom0 k' Hs) as [[e' He']|?]; [|right; by right].
    apply lookup_insert_Some in He' as [[<- _]|[_ ?]]; [right; by left|left; by eexists].
Qed.

Lemma row_ok x g id at_ : layout_ok x → within (x_slots x) id → (at_ ≤ u32_max)%N →
  entry_ok x (mkEntry g (Some id) [] at_ at_ None).
Proof.
  intros Hl Hw Hat. split; simpl; try done.
  - apply NoDup_singleton.
  - intros v [= <-]. by apply slots_not_paged.
  - by intros v ?%not_elem_of_nil.
Qed.

Lemma rows_ready x n q ws g at_ rows : ∀ s B H,
  ready x (length rows + n) s (loans (Writing q) rows.*2 ++ B) H → Forall (within (x_slots x)) rows.*2 →
  Forall (λ r, (at_ + r.1 ≤ u32_max)%N) rows →
  wp (publish_snapshots ws g at_ rows) (λ snaps s', ready x n s' B H ∧ calm s s' ∧
    rows_land (wm s) (wm s') ws g at_ rows snaps) never s.
Proof.
  induction rows as [|[row slot] rows IH]; intros s B H Hr Hw Hat.
  { apply wp_ok. split_and!; [done..|]. apply rows_land_nil. }
  cbn [publish_snapshots]. csimpl in Hw. apply Forall_cons in Hw as [Hs Hw]. apply Forall_cons in Hat as [Ha Hat].
  simpl in Ha. apply wp_then, wp_modify. pose proof (claim_ready x _ s _ slot _ H Hr) as Hr1.
  apply wp_then. unfold checked_add_u32. rewrite decide_True by done. apply wp_ok.
  eapply wp_bind; [apply (insert_entry_ready x (length rows + n) _ (mkEntry g (Some slot) [] (at_ + row) (at_ + row) None) _ H Hr1)| |done].
  { apply row_ok; [apply Hr|done..]. }
  intros k s1 (Hr2 & Hc2 & _ & Hk & Hw2).
  eapply wp_bind; [by apply IH| |done]. intros snaps s2 (Hr3 & Hc3 & Hl). apply wp_ok.
  split_and!; [done|by etrans; [exact Hc2|]|]. apply rows_land_cons; [exact Hk|]. by rewrite Hw2 in Hl.
Qed.

(** *** A write *)

(** What publishing a write to the entry makes of the working sets. *)
Definition lands (m m' : gmap RsWorkingSetId RsEntry) (e : RsEntry) (w : RsPreparedWrite) (snaps : list RsSnapshot) : Prop :=
  ∃ m1, rows_land m m1 (w_ws w) (geom e) (frozen e) (w_snapshots w) snaps ∧ m' = <[w_ws w := landed e w]> m1.

Lemma publish_write_ready x n w s e B H :
  ready x (length (w_snapshots w) + n) s (write_loans w ++ B) H → write_ok x w →
  wm s !! w_ws w = Some e → fits e w →
  wp (publish_prevalidated w) (λ r s', ready x n s' B H ∧ calm s s' ∧ lands (wm s) (wm s') e w r.2 ∧
    r.1 = match w_state w ≫= fold_tokens with Some c => [mkFold (w_ws w) c] | None => [] end) never s.
Proof.
  intros Hr [] He []. unfold publish_prevalidated. cbn zeta.
  apply wp_then. eapply wp_ret; [by eapply expect_entry_get|].
  eapply wp_bind; [apply (rows_ready x n (w_seq w) (w_ws w) (geom e) (frozen e) (w_snapshots w) s
    (loans (Writing (w_seq w)) (taken_state (w_state w)) ++ loans (Writing (w_seq w)) (omap taken_page (w_buffers w)) ++ B) H)| |done].
  { eapply rs_ready_perm; [|done|exact Hr]. unfold write_loans, loans. rewrite wo_whole0, !fmap_app. solve_perm. }
  { done. }
  { apply Forall_forall. intros [row id] Hin. by apply (fi_rows0 row id). }
  intros snaps s1 (Hr1 & Hc1 & Hl).
  assert (He1 : wm s1 !! w_ws w = Some e) by (eapply lookup_weaken; [done|apply Hl]).
  eapply wp_bind; [eapply (state_lands_ready x n _ (w_ws w) (w_state w) s1 e _ H Hr1 He1)| |done]; [done..|].
  intros [] s2 (Hr2 & Hc2 & Hw2).
  eapply wp_bind; [eapply (targets_land_ready x n _ (w_ws w) (w_buffers w) s2 (with_state e (w_state w)) B H Hr2)| |done]; [|done..|].
  { by rewrite Hw2, lookup_insert_eq. }
  intros [] s3 (Hr3 & Hc3 & Hw3). apply wp_ok. split_and!; [done|by etrans; [exact Hc1|etrans]| |done].
  exists (wm s1). split; [done|]. simpl. by rewrite Hw3, Hw2, insert_insert_eq.
Qed.

(** *** A batch *)

Lemma validate_ready x n ws s B H : ∀ seen, ready x n s B H →
  wp (validate seen ws) (λ _ s', s' = s ∧ NoDup (w_ws <$> ws) ∧ (∀ w, w ∈ ws → (w_ws w ∉ seen) ∧ is_Some (wm s !! w_ws w)))
    (λ _ s', s' = s) s.
Proof.
  induction ws as [|w ws IH]; intros seen Hr; cbn [validate].
  { apply wp_ok. split_and!; [done|constructor|]. by intros w ?%not_elem_of_nil. }
  eapply wp_bind; [by eapply entry_ready| |by intros ? ? [? _]]. intros e ? [-> He].
  case_decide as Hin; [by apply wp_err|]. eapply wp_mono; [by apply IH| |done].
  intros [] s' (-> & Hnd & Hall). split; [done|]. split.
  - csimpl. constructor; [|done]. intros (w' & Heq & Hw')%list_elem_of_fmap. destruct (Hall w' Hw') as [Hn _].
    apply Hn. rewrite <-Heq. set_solver.
  - intros w' [->|Hw']%elem_of_cons; [split; [done|by eexists]|]. destruct (Hall w' Hw') as [Hn ?]. split; [set_solver|done].
Qed.

(** What publishing a batch makes of the working sets, write by write. *)
Inductive batch_lands : gmap RsWorkingSetId RsEntry → list RsPreparedWrite → list RsSnapshot →
    gmap RsWorkingSetId RsEntry → Prop :=
  | batch_nil m : batch_lands m [] [] m
  | batch_cons m m1 m2 w ws e snaps snaps' : m !! w_ws w = Some e → lands m m1 e w snaps →
      batch_lands m1 ws snaps' m2 → batch_lands m (w :: ws) (snaps ++ snaps') m2.

Definition batch_rows (ws : list RsPreparedWrite) : nat := sum_list (length ∘ w_snapshots <$> ws).
Definition batch_folds (ws : list RsPreparedWrite) : list RsPendingFold :=
  omap (λ w, mkFold (w_ws w) <$> (w_state w ≫= fold_tokens)) ws.

Lemma lands_other m m' e w snaps k e' : lands m m' e w snaps → k ≠ w_ws w → m !! k = Some e' → m' !! k = Some e'.
Proof.
  intros (m1 & Hl & ->) Hne Hk. rewrite lookup_insert_ne by done. eapply lookup_weaken; [exact Hk|apply Hl].
Qed.

Lemma publish_loop_ready x n ws : ∀ s B H,
  ready x (batch_rows ws + n) s (batch_loans ws ++ B) H → Forall (write_ok x) ws → NoDup (w_ws <$> ws) →
  (∀ w, w ∈ ws → ∃ e, wm s !! w_ws w = Some e ∧ fits e w) →
  wp (publish_loop ws) (λ r s', ready x n s' B H ∧ calm s s' ∧ batch_lands (wm s) ws r.2 (wm s') ∧
    r.1 = batch_folds ws) never s.
Proof.
  induction ws as [|w ws IH]; intros s B H Hr Hok Hnd Hfit.
  { apply wp_ok. split_and!; [done..|constructor|done]. }
  apply Forall_cons in Hok as [Hw Hok]. csimpl in Hnd. apply NoDup_cons in Hnd as [Hnin Hnd].
  destruct (Hfit w ltac:(by left)) as (e & He & Hf). cbn [publish_loop].
  eapply wp_bind; [apply (publish_write_ready x (batch_rows ws + n) w s e (batch_loans ws ++ B) H)| |done]; [|done..|].
  { eapply rs_ready_le; [|eapply rs_ready_perm; [|done|exact Hr]].
    - unfold batch_rows. csimpl. lia.
    - unfold batch_loans. csimpl. by rewrite app_assoc. }
  intros [folds snaps] s1 (Hr1 & Hc1 & Hl & Hfo). simpl in *.
  eapply wp_bind; [apply (IH s1 B H Hr1 Hok Hnd)| |done].
  { intros w' Hw'. destruct (Hfit w' ltac:(by right)) as (e' & He' & Hf'). exists e'. split; [|done].
    eapply lands_other; [exact Hl| |done]. intros Heq. apply Hnin. rewrite <-Heq. by apply list_elem_of_fmap_2. }
  intros [folds' snaps'] s2 (Hr2 & Hc2 & Hl2 & Hfo2). simpl in *. apply wp_ok. simpl.
  split_and!; [done|by etrans|by econstructor|]. rewrite Hfo, Hfo2. unfold batch_folds. csimpl.
  by destruct (w_state w ≫= fold_tokens).
Qed.

Lemma publish_batch_ready x n ws s B H :
  ready x (batch_rows ws + n) s (batch_loans ws ++ B) H → Forall (write_ok x) ws →
  (∀ w e, w ∈ ws → wm s !! w_ws w = Some e → fits e w) →
  wp (publish_batch ws) (λ r s', ready x n s' B H ∧ calm s s' ∧ batch_lands (wm s) ws (snapshots r.1) (wm s') ∧
      seqs r.1 = w_seq <$> ws ∧ r.2 = batch_folds ws)
    (λ _ s', ready x n s' B H ∧ quiet s s') s.
Proof.
  intros Hr Hok Hfit. unfold publish_batch, catch.
  pose proof (validate_ready x _ ws s _ H [] Hr) as Hv. unfold wp in Hv. unfold mthen at 1.
  assert (Hno : ready x n s (batch_loans ws ++ B) H) by (eapply rs_ready_le; [|exact Hr]; lia).
  unfold wp at 1. unfold mthen at 1. destruct (validate [] ws s) as [[[]|err|] s1]; [| |done].
  - destruct Hv as (-> & Hnd & Hall).
    pose proof (publish_loop_ready x n ws s B H Hr Hok Hnd) as Hp. unfold wp in Hp.
    assert (Hfit' : ∀ w, w ∈ ws → ∃ e, wm s !! w_ws w = Some e ∧ fits e w).
    { intros w Hw. destruct (Hall w Hw) as [_ [e He]]. exists e. split; [done|by eapply Hfit]. }
    specialize (Hp Hfit'). unfold mthen. destruct (publish_loop ws s) as [[[folds snaps]|err|] s1]; [|done..].
    destruct Hp as (? & ? & ? & ?). simpl in *. done.
  - subst s1. pose proof (cancel_batch_ready x n ws s B H Hno Hok) as Hc. unfold wp in Hc. unfold mthen.
    destruct (cancel_batch ws s) as [[[]|?|] s1]; [|done..]. exact Hc.
Qed.
End publish.
End RsPublish.
