(* ===== verification/RsMoves.v ===== *)
(** Moving working sets between the device and host memory keeps the books of the
    recurrent-state store: a slot is swapped for another in all that hold it, with its
    count, and the slot left is given back. *)
From S2P Require Import Prelude Ids Store Pool KvTable KvStore Hoare RsStore RsBooks RsKeep RsWrites RsPublish.

Module RsMoves.
Import RsStore RsBooks RsKeep RsWrites RsPublish.

(** ** Swapping a slot for another *)

Definition swap_id (from to id : RsSlotId) : RsSlotId := if decide (id = from) then to else id.

Lemma swap_slot_fmap from to o : swap_slot from to o = swap_id from to <$> o.
Proof. unfold swap_slot, swap_id. destruct o as [v|]; simpl; repeat case_decide; naive_solver. Qed.
Lemma swap_entry_slots from to e : entry_slots (swap_entry from to e) = swap_id from to <$> entry_slots e.
Proof.
  unfold entry_slots, swap_entry. simpl. rewrite swap_slot_fmap, fmap_app. f_equal; [by destruct (folded e)|].
  induction (buffer e) as [|o b IH]; [done|]. csimpl. rewrite swap_slot_fmap. destruct o; csimpl; by rewrite IH.
Qed.
Lemma swap_entry_none from to e : from ∉ entry_slots e → swap_entry from to e = e.
Proof.
  intros Hn. destruct e as [g f b ba fr r]. unfold swap_entry. simpl in *.
  assert (Hf : swap_slot from to f = f).
  { unfold swap_slot. case_decide as Hf; [|done]. exfalso. apply Hn, elem_of_entry_slots. by left. }
  assert (Hb : swap_slot from to <$> b = b).
  { assert (Hnb : Some from ∉ b) by (intros Hin; apply Hn, elem_of_entry_slots; by right). clear -Hnb.
    induction b as [|o b IH]; [done|]. csimpl. rewrite IH by set_solver. f_equal. unfold swap_slot.
    case_decide; [|done]. subst. exfalso. apply Hnb. by left. }
  by rewrite Hf, Hb.
Qed.

Lemma swap_id_fmap_mult from to l id :
  from ≠ to → mult to l = 0 →
  mult id (swap_id from to <$> l) = if decide (id = from) then 0 else if decide (id = to) then mult from l else mult id l.
Proof.
  intros Hne. induction l as [|y l IH]; intros Hto; [csimpl; rewrite !mult_nil; by repeat case_decide|].
  csimpl. rewrite mult_cons in Hto. rewrite !mult_cons, IH by lia. unfold swap_id.
  repeat case_decide; subst; try congruence; lia.
Qed.

Lemma swap_id_NoDup from to l : to ∉ l → NoDup l → NoDup (swap_id from to <$> l).
Proof.
  intros Hto. induction 1 as [|y l Hy Hnd IH]; [constructor|]. csimpl. apply not_elem_of_cons in Hto as [Hty Hto].
  constructor; [|by apply IH]. intros (z & Heq & Hz)%list_elem_of_fmap. unfold swap_id in Heq.
  repeat case_decide; subst; set_solver.
Qed.

Section moves.
Context {WS : Type → Type}.
Context `{!KeyedStore RsWorkingSetId WS, !KeyedStoreLaws RsWorkingSetId WS}.
Abbreviation store := (RsStore WS).
Abbreviation sm := (method store RsError).
Implicit Types s : store.
Abbreviation wm s := (st_map (working_sets s)).
Abbreviation never := (λ _ _, False).

(** All that hold [id] are in the scope. *)
Definition contained (m : gmap RsWorkingSetId RsEntry) (scope : list RsWorkingSetId) (id : RsSlotId) : Prop :=
  ∀ ws e, m !! ws = Some e → id ∈ entry_slots e → ws ∈ scope.

(** How often the sets of the scope hold [id]. *)
Definition held_in (m : gmap RsWorkingSetId RsEntry) (scope : list RsWorkingSetId) (id : RsSlotId) : nat :=
  mult id (concat (entry_slots <$> omap (m !!.) scope)).

Lemma all_slots_fmap (f : RsSlotId → RsSlotId) (g : RsEntry → RsEntry) m :
  (∀ e, entry_slots (g e) = f <$> entry_slots e) → all_slots (g <$> m) ≡ₚ f <$> all_slots m.
Proof.
  intros Hg. induction m as [|ws e m Hws IH] using map_ind; [done|].
  rewrite fmap_insert, !all_slots_insert; [|done|by rewrite lookup_fmap, Hws]. by rewrite Hg, IH, fmap_app.
Qed.

(** What is contained in the scope is held by no other. *)
Lemma held_in_all m scope id : NoDup scope → contained m scope id → held_in m scope id = mult id (all_slots m).
Proof.
  intros Hnd. revert m. unfold held_in. induction Hnd as [|ws scope Hws Hnd IH]; intros m Hc.
  - symmetry. apply mult_zero. intros (ws & e & Hm & Hid)%elem_of_all_slots. specialize (Hc ws e Hm Hid).
    by apply not_elem_of_nil in Hc.
  - csimpl. destruct (m !! ws) as [e|] eqn:He.
    + csimpl. rewrite mult_app, (all_slots_delete m ws e He), mult_app. f_equal.
      rewrite <-(IH (delete ws m)).
      * f_equal. f_equal. f_equal. clear -Hws. induction scope as [|k scope IH]; [done|].
        apply not_elem_of_cons in Hws as [Hk Hws]. csimpl. by rewrite lookup_delete_ne, IH.
      * intros k e' [Hne Hk]%lookup_delete_Some Hid. specialize (Hc k e' Hk Hid).
        by apply elem_of_cons in Hc as [->|?].
    + apply IH. intros k e' Hk Hid. specialize (Hc k e' Hk Hid).
      apply elem_of_cons in Hc as [->|?]; [congruence|done].
Qed.

(** Sets of the scope swap a slot; others may not hold it. *)
Definition swap_map (from to : RsSlotId) (m : gmap RsWorkingSetId RsEntry) : gmap RsWorkingSetId RsEntry :=
  swap_entry from to <$> m.

Lemma swap_within_spec scope from to : ∀ s,
  st_valid (working_sets s) → NoDup scope →
  ∃ w k, swap_within scope from to s = (Ok k, set_working_sets s w) ∧ st_valid w ∧
    (∀ n, st_room (working_sets s) n → st_room w n) ∧
    k = N.of_nat (held_in (wm s) scope from) ∧
    ∀ ws, st_map w !! ws = if decide (ws ∈ scope) then swap_entry from to <$> wm s !! ws else wm s !! ws.
Proof.
  induction scope as [|ws scope IH]; intros s Hv Hnd.
  { exists (working_sets s), 0%N. split_and!; try done. by destruct s. }
  apply NoDup_cons in Hnd as [Hws Hnd]. cbn [swap_within]. unfold mthen at 1, mget at 1.
  rewrite (st_get_spec _ _ Hv). destruct (wm s !! ws) as [e|] eqn:He.
  - destruct (st_set_spec (working_sets s) ws (swap_entry from to e) Hv ltac:(by eexists)) as (Hm & Hv1 & Hroom).
    set (s1 := set_working_sets s (st_set (working_sets s) ws (swap_entry from to e))).
    destruct (IH s1 Hv1 Hnd) as (w & k & Hk & Hvw & Hrw & Hkh & Hmap).
    exists w, (N.of_nat (mult from (entry_slots e)) + k)%N. split_and!; [|done|by eauto| |].
    + unfold mthen at 1. unfold mthen at 1. unfold put_entry, mmodify, mok. fold s1. unfold mthen. by rewrite Hk.
    + rewrite Hkh. unfold held_in. csimpl. rewrite He. csimpl. rewrite mult_app. unfold s1. simpl.
      replace (omap (st_map (st_set (working_sets s) ws (swap_entry from to e)) !!.) scope) with
        (omap (wm s !!.) scope); [lia|]. rewrite Hm. clear -Hws. induction scope as [|j scope IH]; [done|].
      apply not_elem_of_cons in Hws as [Hj Hws]. csimpl. rewrite lookup_insert_ne by done. by rewrite IH.
    + intros j. rewrite Hmap. unfold s1. simpl. rewrite Hm. destruct (decide (j = ws)) as [->|Hne].
      * rewrite lookup_insert_eq. rewrite decide_False by done. by rewrite decide_True, He by set_solver.
      * rewrite lookup_insert_ne by done. repeat case_decide; set_solver.
  - destruct (IH s Hv Hnd) as (w & k & Hk & Hvw & Hrw & Hkh & Hmap). exists w, k. split_and!; [|done|done| |].
    + unfold mthen at 1. unfold mok at 1. unfold mthen at 1. rewrite Hk. by unfold mok; rewrite N.add_0_l.
    + rewrite Hkh. unfold held_in. csimpl. by rewrite He.
    + intros j. rewrite Hmap. destruct (decide (j = ws)) as [->|Hne].
      * rewrite decide_False, decide_True by set_solver. by rewrite He.
      * repeat case_decide; set_solver.
Qed.

(** A count goes with its slot. *)
Definition moved s (w : WS RsEntry) (from to : RsSlotId) (c : N) : store :=
  set_refs (set_working_sets s w) (<[to := c]> (delete from (refs s))).

Lemma swap_ready x n s w scope from to c B :
  ready x n s ((Given, to) :: B) [] → contained (wm s) scope from → from ≠ to → (paged x from ↔ paged x to) →
  refs s !! from = Some c → st_valid w → (∀ n, st_room (working_sets s) n → st_room w n) →
  (∀ ws, st_map w !! ws = if decide (ws ∈ scope) then swap_entry from to <$> wm s !! ws else wm s !! ws) →
  ready x n (moved s w from to c) ((Dropped, from) :: B) [] ∧ st_map w = swap_map from to (wm s).
Proof.
  intros Hr Hcont Hne Hpg Hc Hvw Hrw Hmap.
  assert (Hw : st_map w = swap_map from to (wm s)).
  { apply map_eq. intros ws. rewrite Hmap. unfold swap_map. rewrite lookup_fmap. case_decide as Hin; [done|].
    destruct (wm s !! ws) as [e|] eqn:He; [|done]. csimpl. f_equal. symmetry. apply swap_entry_none.
    intros Hid. apply Hin. by eapply Hcont. }
  split; [|done].
  assert (Hto : to ∉ all_slots (wm s)).
  { intros Hin. assert (Hrf : is_Some (refs s !! to)).
    { apply (ref_held _ _ _ _ _ to Hr), elem_of_app. by left. }
    destruct (ref_exists _ _ _ _ _ to Hr Hrf) as [_ Hn]. apply Hn. by left. }
  assert (Hto0 : refs s !! to = None).
  { destruct (refs s !! to) as [c'|] eqn:Ht; [|done]. exfalso.
    destruct (ref_exists _ _ _ _ _ to Hr ltac:(by eexists)) as [_ Hn]. apply Hn. by left. }
  assert (Hsl : all_slots (st_map w) ≡ₚ swap_id from to <$> all_slots (wm s)).
  { rewrite Hw. apply all_slots_fmap. intros e. apply swap_entry_slots. }
  pose proof (rd_refs _ _ _ _ _ Hr) as Hrefs. destruct Hr. split; simpl; try done.
  - by apply Hrw.
  - rewrite Hw. unfold swap_map. by rewrite map_size_fmap.
  - change (universe (moved s w from to c)) with (universe s). rewrite <-rd_whole0. unfold stock, moved. csimpl.
    rewrite keys_insert by (by rewrite lookup_delete_ne).
    transitivity ([to] ++ B.*2 ++ Pool.held (slots s) ++ Pool.held (pages s) ++ Pool.held (host_slots s) ++
      Pool.held (host_pages s) ++ (from :: (map_to_list (delete from (refs s))).*1)); [solve_perm|].
    rewrite <-(rs_keys_delete (refs s) from) by by eexists. solve_perm.
  - intros id. rewrite app_nil_r, Hsl. rewrite swap_id_fmap_mult; [|done|by apply mult_zero].
    destruct (Hrefs id) as [Hci Hzi]. rewrite app_nil_r in Hci.
    destruct (decide (id = to)) as [->|Hnt].
    + rewrite lookup_insert_eq, decide_False by done. simpl.
      destruct (Hrefs from) as [Hcf Hzf]. rewrite app_nil_r, Hc in Hcf. rewrite Hc in Hzf. simpl in Hcf.
      split; [done|]. intros [= ->]. by apply Hzf.
    + rewrite lookup_insert_ne by done. destruct (decide (id = from)) as [->|Hnf].
      * by rewrite lookup_delete_eq.
      * by rewrite lookup_delete_ne.
  - intros ws e'. rewrite Hw. unfold swap_map. rewrite lookup_fmap. intros (e & He & ->)%fmap_Some.
    specialize (rd_entries0 ws e He). pose proof (swap_entry_slots from to e) as Hse. destruct rd_entries0.
    assert (Hnt : to ∉ entry_slots e) by (intros Hin; apply Hto, elem_of_all_slots; eauto).
    split; try done.
    + rewrite Hse. by apply swap_id_NoDup.
    + intros id. simpl. unfold swap_slot. case_decide as Hf; [|apply eo_folded0]. intros [= <-].
      rewrite <-Hpg. by apply eo_folded0.
    + intros id. simpl. intros (o & Ho & Hin)%list_elem_of_fmap. unfold swap_slot in Ho.
      case_decide as Hf; [|subst; by apply eo_buffer0]. injection Ho as ->. subst. apply Hpg. by apply eo_buffer0.
  - intros q t id Hq Ht. destruct (rd_touched0 q t id Hq Ht) as [Hh Hor]. split; [done|].
    destruct Hor as [Hs|[Hwt|(o & Ho & Hsh)]].
    + destruct (decide (id = from)) as [->|Hnf]; [right; right; exists Dropped; set_solver|left].
      destruct (decide (id = to)) as [->|Hnt]; [by rewrite Hto0 in Hs; destruct Hs|].
      by rewrite lookup_insert_ne, lookup_delete_ne.
    + by right; left.
    + apply elem_of_cons in Ho as [[= -> ->]|Ho]; [done|]. right; right. exists o. set_solver.
  - intros key c' Hk. rewrite Hw. unfold swap_map. rewrite lookup_fmap, fmap_is_Some. by eapply rd_kept0.
Qed.

(** A host slot that is dropped waits for nobody. *)
Lemma ready_host_drop x n s id B H :
  ready x n s ((Dropped, id) :: B) H → hosted x id → ready x n s (loans Given [id] ++ B) H.
Proof.
  intros Hr Hh. eapply ready_relend; [exact Hr|done|].
  intros q t id' Hq Ht (o & [[= -> ->]|Ho]%elem_of_cons & Hs).
  - exfalso. by apply (rd_touched _ _ _ _ _ Hr q t id Hq Ht).
  - exists o. set_solver.
Qed.

(** ** What moves *)

(** A slot and where it goes are of a kind, one on the device and one on the host. *)
Record move_ok (x : layout) (device host : RsSlotId) : Prop := {
  mo_device : ¬ hosted x device;
  mo_host : hosted x host;
  mo_kind : paged x device ↔ paged x host;
  mo_exists : exists_in x device;
}.

(** What the engine is told of moves out of the device, or into it: the numbers on the
    device and on the host, of the states and of the pages. *)
Definition told_pair (x : layout) (out : bool) (m : RsSlotId * RsSlotId) : N * N :=
  if out then (numbered x m.1, numbered x m.2) else (numbered x m.2, numbered x m.1).
Definition plan_at (x : layout) (out : bool) (ms : list (RsSlotId * RsSlotId)) : RsCopyPlan :=
  mkPlan (told_pair x out <$> filter (λ m : RsSlotId * RsSlotId, ¬ paged x m.1) ms)
    (told_pair x out <$> filter (λ m : RsSlotId * RsSlotId, paged x m.1) ms).

Lemma plan_moves x s (out : bool) ms : ∀ sl pg,
  extents s = x → layout_ok x →
  Forall (λ m : RsSlotId * RsSlotId, if out then move_ok x m.1 m.2 else move_ok x m.2 m.1) ms →
  foldl (plan_move s) (mkPlan sl pg) ms = mkPlan (sl ++ p_slots (plan_at x out ms)) (pg ++ p_pages (plan_at x out ms)).
Proof.
  intros sl pg <- Hl. revert sl pg. induction ms as [|[a b] ms IH]; intros sl pg Hall; [by rewrite !app_nil_r|].
  apply Forall_cons in Hall as [Hm Hall]. cbn [foldl].
  assert (Hex : exists_in (extents s) a ∧ exists_in (extents s) b).
  { destruct out; destruct Hm as [_ Hh _ Hd]; simpl in *; split; try done; destruct Hh; unfold exists_in; tauto. }
  destruct Hex as [Ha Hb]. pose proof (is_host_spec s a Hl Ha) as Hho. pose proof (is_page_spec s a Hl Ha) as Hpa.
  pose proof (is_page_spec s b Hl Hb) as Hpb.
  assert (Hstep : plan_move s (mkPlan sl pg) (a, b) =
    if decide (paged (extents s) a) then mkPlan sl (pg ++ [told_pair (extents s) out (a, b)])
    else mkPlan (sl ++ [told_pair (extents s) out (a, b)]) pg).
  { unfold plan_move, told_pair. simpl. rewrite <-!engine_id_numbered by done.
    destruct out; destruct Hm as [Hd Hh Hk _]; simpl in *.
    - destruct (is_host s a); [by destruct Hd; apply Hho|].
      destruct (is_page s a); case_decide as Hp; try done; exfalso; naive_solver.
    - destruct (is_host s a); [|by exfalso; naive_solver].
      destruct (is_page s b); case_decide as Hp; try done; exfalso; naive_solver. }
  rewrite Hstep. unfold plan_at. cbn [p_slots p_pages]. rewrite !filter_cons. cbn [fst].
  destruct (decide (paged (extents s) a)) as [Hp|Hp].
  - rewrite IH by done. rewrite decide_False by tauto. cbn [fmap list_fmap]. by rewrite <-app_assoc.
  - rewrite IH by done. rewrite decide_True by done. cbn [fmap list_fmap]. by rewrite <-app_assoc.
Qed.

Lemma txn_plan x s (out : bool) sets ms :
  extents s = x → layout_ok x →
  Forall (λ m : RsSlotId * RsSlotId, if out then move_ok x m.1 m.2 else move_ok x m.2 m.1) ms →
  plan (txn s sets ms) = plan_at x out ms.
Proof. intros Hx Hl Hm. unfold txn. cbn [plan]. rewrite (plan_moves x s out ms) by done. done. Qed.

Record out_ok (x : layout) (t : RsResidencyTxn) : Prop := {
  oo_scope : NoDup (scope t);
  oo_from : NoDup (moves t).*1;
  oo_moves : Forall (λ m, move_ok x m.1 m.2) (moves t);
  oo_plan : plan t = plan_at x true (moves t);
}.
Record in_ok (x : layout) (t : RsResidencyTxn) : Prop := {
  io_scope : NoDup (scope t);
  io_moves : Forall (λ m, move_ok x m.2 m.1) (moves t);
  io_plan : plan t = plan_at x false (moves t);
}.

(** No fire writes it. *)
Definition idle_slot s (id : RsSlotId) : Prop := id ∉ busy_slots s.

Lemma held_within_mult s sc id :
  st_valid (working_sets s) →
  held_within s sc !! id = let k := held_in (wm s) (elements sc) id in if decide (k = 0) then None else Some (N.of_nat k).
Proof.
  intros Hv. unfold held_within, held_in. cbn zeta.
  replace (omap (st_get (working_sets s)) (elements sc)) with (omap (wm s !!.) (elements sc)).
  2: { apply list_omap_ext, Forall2_same_length_lookup_2; [done|]. intros i y z Hy Hz.
       rewrite Hy in Hz. injection Hz as ->. by rewrite (st_get_spec _ _ Hv). }
  generalize (concat (entry_slots <$> omap (wm s !!.) (elements sc))). intros l.
  assert (Hgen : ∀ m, foldl count_slot m l !! id =
    if decide (mult id l = 0) then m !! id else Some (default 0 (m !! id) + N.of_nat (mult id l))%N).
  { induction l as [|y l IH]; intros m; simpl; [done|]. rewrite IH, mult_cons. unfold count_slot.
    destruct (decide (y = id)) as [->|Hne].
    - rewrite lookup_insert_eq. simpl. case_decide; f_equal; lia.
    - by rewrite lookup_insert_ne, Nat.add_0_l. }
  rewrite Hgen, lookup_empty. by case_decide.
Qed.

(** ** Committing *)

(** The sets of the scope once the slots they hold of these are swapped. *)
Definition swap_held (scope : list RsWorkingSetId) (m : gmap RsWorkingSetId RsEntry) (p : RsSlotId * RsSlotId) :
    gmap RsWorkingSetId RsEntry :=
  if decide (held_in m scope p.1 = 0) then m else swap_map p.1 p.2 m.
Definition swap_moves (scope : list RsWorkingSetId) (m : gmap RsWorkingSetId RsEntry) (ms : list (RsSlotId * RsSlotId)) :
    gmap RsWorkingSetId RsEntry := foldl (swap_held scope) m ms.

Lemma omap_swap_map from to m scope :
  concat (entry_slots <$> omap (swap_map from to m !!.) scope) =
  swap_id from to <$> concat (entry_slots <$> omap (m !!.) scope).
Proof.
  induction scope as [|ws scope IH]; [done|]. csimpl. unfold swap_map at 1. rewrite lookup_fmap.
  destruct (m !! ws) as [e|]; csimpl; [|done]. by rewrite IH, swap_entry_slots, fmap_app.
Qed.
Lemma swap_id_other_mult from to l id : id ≠ from → id ≠ to → mult id (swap_id from to <$> l) = mult id l.
Proof.
  intros Hf Ht. induction l as [|y l IH]; [done|]. csimpl. rewrite !mult_cons, IH. unfold swap_id.
  repeat case_decide; congruence.
Qed.
Lemma held_in_swap from to m scope id :
  id ≠ from → id ≠ to → held_in (swap_map from to m) scope id = held_in m scope id.
Proof. intros. unfold held_in. rewrite omap_swap_map. by apply swap_id_other_mult. Qed.
Lemma contained_swap from to m scope id : id ≠ to → contained m scope id → contained (swap_map from to m) scope id.
Proof.
  intros Ht Hc ws e'. unfold swap_map. rewrite lookup_fmap. intros (e & He & ->)%fmap_Some.
  rewrite swap_entry_slots. intros (y & Hy & Hin)%list_elem_of_fmap. unfold swap_id in Hy.
  case_decide; [congruence|]. subst. by eapply Hc.
Qed.

(** The working sets as another store of theirs has them. *)
Lemma ready_same_map x n s w B H :
  ready x n s B H → st_valid w → (∀ k, st_room (working_sets s) k → st_room w k) → st_map w = wm s →
  ready x n (set_working_sets s w) B H.
Proof. intros [] Hv Hrm Hm. split; simpl; rewrite ?Hm; try done. by apply Hrm. Qed.

Lemma move_count_moved s w from to c :
  refs s !! from = Some c → move_count from to (set_working_sets s w) = (Ok tt, moved s w from to c).
Proof. intros Hc. unfold move_count, mmodify. simpl. by rewrite Hc. Qed.

Lemma held_ref x n s B scope id :
  ready x n s B [] → held_in (wm s) scope id ≠ 0 → is_Some (refs s !! id).
Proof.
  intros Hr Hh. apply (ref_held _ _ _ _ _ id Hr). rewrite app_nil_r.
  assert (Hin : id ∈ concat (entry_slots <$> omap (wm s !!.) scope)).
  { destruct (decide (id ∈ concat (entry_slots <$> omap (wm s !!.) scope))) as [|Hn]; [done|].
    exfalso. apply Hh. by apply mult_zero. }
  apply elem_of_concat in Hin as (l & (e & -> & (ws & _ & He)%list_elem_of_omap)%list_elem_of_fmap & Hid).
  apply elem_of_all_slots. eauto.
Qed.

Lemma suspend_loop_ready x n scope held busy epoch ms : ∀ s B,
  ready x n s (loans Given ms.*2 ++ B) [] → NoDup scope → NoDup ms.*1 → Forall (λ m, move_ok x m.1 m.2) ms →
  (∀ d, d ∈ ms.*1 → default 0%N (held !! d) = N.of_nat (held_in (wm s) scope d)) →
  (∀ d, d ∈ ms.*1 → held_in (wm s) scope d ≠ 0 → contained (wm s) scope d ∧ d ∉ busy) →
  (∀ q, is_Some (inflight s !! q) → (q ≤ epoch)%N) → (epoch ≤ u64_max)%N →
  wp (suspend_loop scope held busy epoch ms) (λ freed s', ready x n s' B [] ∧ calm s s' ∧
    wm s' = swap_moves scope (wm s) ms ∧ freed = filter (λ d, held_in (wm s) scope d ≠ 0) ms.*1) never s.
Proof.
  induction ms as [|[d h] ms IH]; intros s B Hr Hsc Hnd Hok Hheld Hcon Hep Hmx; [by apply wp_ok|].
  csimpl in Hnd. apply NoDup_cons in Hnd as [Hd Hnd]. apply Forall_cons in Hok as [[Hdev Hhost Hkind] Hok]. simpl in *.
  cbn [suspend_loop]. cbn zeta. rewrite (Hheld d) by by left.
  unfold swap_moves. cbn [foldl]. unfold swap_held at 2. simpl.
  assert (Hlay : layout_ok x) by apply Hr.
  destruct (decide (N.of_nat (held_in (wm s) scope d) = 0)%N) as [Hz|Hz].
  - assert (Hz' : held_in (wm s) scope d = 0) by lia. rewrite decide_True by done.
    eapply wp_bind; [apply (rs_release_host_ready x n [h] s (loans Given ms.*2 ++ B) [] Hr); by apply Forall_singleton| |done].
    intros [] s1 (Hr1 & F1 & _). apply frame_calm in F1 as [Hc1 Hw1].
    eapply wp_mono; [apply (IH s1 B Hr1)| |done]; try done.
    + intros d' Hd'. rewrite Hw1. apply Hheld. by right.
    + intros d' Hd'. rewrite Hw1. apply Hcon. by right.
    + intros q. destruct Hc1 as (_ & -> & _). apply Hep.
    + intros freed s2 (Hr2 & Hc2 & Hw2 & Hf). split_and!; [done|by etrans|by rewrite Hw2, Hw1|].
      rewrite filter_cons_False by (intros Hn; by apply Hn). by rewrite Hf, Hw1.
  - assert (Hz' : held_in (wm s) scope d ≠ 0) by lia. rewrite decide_False by done.
    destruct (Hcon d ltac:(by left) Hz') as [Hcd Hbd].
    destruct (held_ref x n s _ scope d Hr Hz') as [c Hc].
    apply wp_then, wp_get, wp_then, wp_guard.
    { split; [|done]. rewrite (held_in_all (wm s) scope d Hsc Hcd). unfold ref_count. rewrite Hc. simpl.
      destruct (rd_refs _ _ _ _ _ Hr d) as [Hcd' _]. by rewrite app_nil_r, Hc in Hcd'. }
    destruct (swap_within_spec scope d h s (rd_valid _ _ _ _ _ Hr) Hsc) as (w & k & Hk & Hvw & Hrw & _ & Hmap).
    apply wp_then. eapply wp_ret; [exact Hk|]. apply wp_then. eapply wp_ret; [by apply move_count_moved|].
    assert (Hdh : d ≠ h) by (by intros ->).
    destruct (swap_ready x n s w scope d h c (loans Given ms.*2 ++ B) Hr Hcd Hdh Hkind Hc Hvw Hrw Hmap) as [Hr1 Hw1].
    set (s1 := moved s w d h c) in *.
    eapply wp_bind; [apply (recycle_ready x n [d] Dropped epoch s1 (loans Given ms.*2 ++ B) [] Hr1); [by apply Forall_singleton|done|]| |done].
    { intros q t id _ Hq _ _. apply Hep. by exists t. }
    intros [] s2 (Hr2 & F2 & _). apply frame_calm in F2 as [Hc2 Hw2].
    change (wm s1) with (st_map w) in Hw2. rewrite Hw1 in Hw2.
    assert (Hne : ∀ d', d' ∈ ms.*1 → d' ≠ d ∧ d' ≠ h).
    { intros d' Hd'. split; [by intros ->|]. intros ->. rewrite Forall_forall in Hok.
      apply list_elem_of_fmap in Hd' as ([d1 h1] & -> & Hin). by destruct (Hok _ Hin). }
    eapply wp_bind; [apply (IH s2 B Hr2)| |done]; try done.
    + intros d' Hd'. rewrite Hw2, held_in_swap by (by apply Hne). apply Hheld. by right.
    + intros d' Hd'. rewrite Hw2, held_in_swap by (by apply Hne). intros Hz2.
      destruct (Hcon d' ltac:(by right) Hz2). split; [|done]. apply contained_swap; [by apply Hne|done].
    + intros q. destruct Hc2 as (_ & -> & _). apply Hep.
    + intros freed s3 (Hr3 & Hc3 & Hw3 & Hf). apply wp_ok. split_and!; [done| |by rewrite Hw3, Hw2|].
      * etrans; [|exact Hc3]. etrans; [|exact Hc2]. done.
      * rewrite filter_cons_True by done. rewrite Hf. f_equal. apply filter_ext_elem.
        intros d' Hd'. rewrite Hw2, held_in_swap by (by apply Hne). done.
Qed.

Lemma held_in_perm m sc sc' id : sc ≡ₚ sc' → held_in m sc id = held_in m sc' id.
Proof. intros Hp. unfold held_in. by rewrite Hp. Qed.

(** What a move out still finds is private to its scope, and settled. *)
Definition settled s (t : RsResidencyTxn) : Prop :=
  ∀ d, d ∈ (moves t).*1 → held_in (wm s) (scope t) d ≠ 0 → contained (wm s) (scope t) d ∧ idle_slot s d.

Definition txn_loans (t : RsResidencyTxn) : list (tag * RsSlotId) := loans Given (moves t).*2.

Lemma rs_commit_suspend_ready x n t s B :
  ready x n s (txn_loans t ++ B) [] → out_ok x t → settled s t →
  wp (commit_suspend t) (λ u s', ready x n s' B [] ∧ calm s s' ∧ wm s' = swap_moves (scope t) (wm s) (moves t) ∧
    u = units s' (filter (λ d, held_in (wm s) (scope t) d ≠ 0) (moves t).*1)) never s.
Proof.
  intros Hr [] Hset. unfold commit_suspend. apply wp_then, wp_get.
  eapply wp_bind; [apply (suspend_loop_ready x n (scope t) (held_within s (list_to_set (scope t))) (busy_slots s) (seq_ s)
    (moves t) s B Hr oo_scope0 oo_from0 oo_moves0)| |done].
  - intros d _. rewrite held_within_mult by apply Hr. cbn zeta.
    rewrite (held_in_perm (wm s) (elements (list_to_set (scope t) : gset RsWorkingSetId)) (scope t) d) by by apply elements_list_to_set.
    case_decide as Hz; [by rewrite Hz|done].
  - exact Hset.
  - intros q [t' Ht']. pose proof (rd_seqs _ _ _ _ _ Hr _ _ Ht'). lia.
  - pose proof (rd_seq _ _ _ _ _ Hr). unfold u64_max. lia.
  - intros freed s1 (Hr1 & Hc1 & Hw1 & Hf). eapply wp_bind; [by apply rs_retire_idle_ready| |done].
    intros [] s2 (Hr2 & F2 & _). apply frame_calm in F2 as [Hc2 Hw2]. apply wp_then, wp_get, wp_ok.
    split_and!; [done|by etrans|by rewrite Hw2|by rewrite Hf].
Qed.

Lemma rs_abort_suspend_ready x n t s B H :
  ready x n s (txn_loans t ++ B) H → out_ok x t →
  wp (abort_suspend t) (λ _ s', ready x n s' B H ∧ frame s s' ∧ refs s' = refs s) never s.
Proof.
  intros Hr []. unfold abort_suspend. apply rs_release_host_ready; [exact Hr|].
  rewrite Forall_fmap. eapply Forall_impl; [exact oo_moves0|]. by intros m [].
Qed.

Lemma rs_abort_restore_ready x n t s B H :
  ready x n s (txn_loans t ++ B) H → in_ok x t →
  wp (abort_restore t) (λ _ s', ready x n s' B H ∧ frame s s' ∧ refs s' = refs s) never s.
Proof.
  intros Hr []. unfold abort_restore. apply release_device_ready; [exact Hr|].
  rewrite Forall_fmap. eapply Forall_impl; [exact io_moves0|]. by intros m [].
Qed.

(** What is swapped in is held in the scope alone. *)
Definition owned s (t : RsResidencyTxn) : Prop := ∀ h, h ∈ (moves t).*1 → contained (wm s) (scope t) h.

Lemma swap_map_none from to m : from ∉ all_slots m → swap_map from to m = m.
Proof.
  intros Hn. apply map_eq. intros ws. unfold swap_map. rewrite lookup_fmap. destruct (m !! ws) as [e|] eqn:He; [|done].
  csimpl. f_equal. apply swap_entry_none. intros Hin. apply Hn, elem_of_all_slots. eauto.
Qed.

Lemma restore_loop_ready x n scope ms : ∀ s B,
  ready x n s (loans Given ms.*2 ++ B) [] → NoDup scope → Forall (λ m, move_ok x m.2 m.1) ms →
  (∀ h, h ∈ ms.*1 → contained (wm s) scope h) →
  wp (restore_loop scope ms) (λ _ s', ready x n s' B [] ∧ calm s s' ∧
    wm s' = swap_moves scope (wm s) ms) never s.
Proof.
  induction ms as [|[h d] ms IH]; intros s B Hr Hsc Hok Hcon; [by apply wp_ok|].
  apply Forall_cons in Hok as [[Hdev Hhost Hkind] Hok]. simpl in *. cbn [restore_loop].
  unfold swap_moves. cbn [foldl]. unfold swap_held at 2. simpl.
  destruct (swap_within_spec scope h d s (rd_valid _ _ _ _ _ Hr) Hsc) as (w & k & Hk & Hvw & Hrw & Hkh & Hmap).
  apply wp_then. eapply wp_ret; [exact Hk|]. assert (Hch : contained (wm s) scope h) by (apply Hcon; by left).
  assert (Hdh : h ≠ d) by (by intros ->).
  assert (Hrest : ∀ m, m = wm s ∨ m = swap_map h d (wm s) → ∀ h', h' ∈ ms.*1 → contained m scope h').
  { intros m [->| ->] h' Hh'; [by apply Hcon; right|]. apply contained_swap; [|by apply Hcon; right].
    intros ->. rewrite Forall_forall in Hok. apply list_elem_of_fmap in Hh' as ([h1 d1] & -> & Hin). by destruct (Hok _ Hin). }
  destruct (decide (held_in (wm s) scope h = 0)) as [Hz|Hz].
  - rewrite decide_True by lia. rewrite (held_in_all _ _ _ Hsc Hch) in Hz. apply mult_zero in Hz.
    assert (Hw : st_map w = wm s).
    { apply map_eq. intros ws. rewrite Hmap. case_decide; [|done]. rewrite <-lookup_fmap. fold (swap_map h d (wm s)). by rewrite swap_map_none. }
    pose proof (ready_same_map x n s w _ [] Hr Hvw Hrw Hw) as Hr1. set (s1 := set_working_sets s w) in *.
    eapply wp_bind; [apply (release_device_ready x n [d] s1 (loans Given ms.*2 ++ B) [] Hr1); by apply Forall_singleton| |done].
    intros [] s2 (Hr2 & F2 & _). apply frame_calm in F2 as [Hc2 Hw2]. change (wm s1) with (st_map w) in Hw2. rewrite Hw in Hw2.
    eapply wp_mono; [apply (IH s2 B Hr2 Hsc Hok)| |done].
    + rewrite Hw2. apply Hrest. by left.
    + intros k' s3 (Hr3 & Hc3 & Hw3). split_and!; [done| |by rewrite Hw3, Hw2]. etrans; [|exact Hc3]. exact Hc2.
  - rewrite decide_False by lia. destruct (held_ref x n s _ scope h Hr Hz) as [c Hc].
    apply wp_then. eapply wp_ret; [by apply move_count_moved|].
    destruct (swap_ready x n s w scope h d c (loans Given ms.*2 ++ B) Hr Hch Hdh ltac:(by symmetry) Hc Hvw Hrw Hmap) as [Hr1 Hw1].
    apply ready_host_drop in Hr1; [|done]. set (s1 := moved s w h d c) in *.
    eapply wp_bind; [apply (rs_release_host_ready x n [h] s1 (loans Given ms.*2 ++ B) [] Hr1); by apply Forall_singleton| |done].
    intros [] s2 (Hr2 & F2 & _). apply frame_calm in F2 as [Hc2 Hw2]. change (wm s1) with (st_map w) in Hw2. rewrite Hw1 in Hw2.
    eapply wp_bind; [apply (IH s2 B Hr2 Hsc Hok)| |done].
    + rewrite Hw2. apply Hrest. by right.
    + intros k' s3 (Hr3 & Hc3 & Hw3). apply wp_ok. split_and!; [done| |by rewrite Hw3, Hw2]. etrans; [|exact Hc3]. exact Hc2.
Qed.

Lemma rs_commit_restore_ready x n t s B :
  ready x n s (txn_loans t ++ B) [] → in_ok x t → owned s t →
  wp (commit_restore t) (λ _ s', ready x n s' B [] ∧ calm s s' ∧
    wm s' = swap_moves (scope t) (wm s) (moves t)) never s.
Proof. intros Hr [] Ho. by apply restore_loop_ready. Qed.

(** ** Preparing a move out *)

Lemma held_in_pos m scope id :
  held_in m scope id ≠ 0 ↔ ∃ ws e, ws ∈ scope ∧ m !! ws = Some e ∧ id ∈ entry_slots e.
Proof.
  unfold held_in. rewrite mult_zero. split.
  - intros Hn. apply dec_stable in Hn.
    apply elem_of_concat in Hn as (l & (e & -> & (ws & Hws & He)%list_elem_of_omap)%list_elem_of_fmap & Hid). eauto.
  - intros (ws & e & Hws & He & Hid) Hn. apply Hn, elem_of_concat. exists (entry_slots e). split; [|done].
    apply list_elem_of_fmap. exists e. split; [done|]. apply list_elem_of_omap. eauto.
Qed.

(** What the scope counts for all is held by no other. *)
Lemma held_in_contained m scope id : NoDup scope → held_in m scope id = mult id (all_slots m) → contained m scope id.
Proof.
  intros Hnd. revert m. unfold held_in. induction Hnd as [|ws scope Hws Hnd IH]; intros m Heq k e Hk Hid.
  - simpl in Heq. rewrite mult_nil in Heq. symmetry in Heq. apply mult_zero in Heq.
    exfalso. apply Heq, elem_of_all_slots. eauto.
  - csimpl in Heq. destruct (decide (k = ws)) as [->|Hne]; [by left|right].
    destruct (m !! ws) as [e'|] eqn:He; [|by eapply (IH m)].
    csimpl in Heq. rewrite mult_app, (all_slots_delete m ws e' He), mult_app in Heq.
    assert (Homap : omap (m !!.) scope = omap (delete ws m !!.) scope).
    { clear -Hws. induction scope as [|j scope IH]; [done|]. apply not_elem_of_cons in Hws as [Hj Hws].
      csimpl. by rewrite lookup_delete_ne, IH. }
    rewrite Homap in Heq. eapply (IH (delete ws m) ltac:(lia) k e); [|done]. by rewrite lookup_delete_ne.
Qed.

Lemma private_loop_spec s shared ids :
  (∀ id, id ∈ ids → is_host s id = false → is_Some (shared !! id)) →
  private_loop s shared ids = Some (filter (λ id, is_host s id = false ∧ shared !! id = Some (ref_count s id)) ids).
Proof.
  induction ids as [|id ids IH]; intros Hin; [done|]. cbn [private_loop].
  rewrite IH by (intros id' Hid'; apply Hin; by right). rewrite filter_cons.
  destruct (is_host s id) eqn:Hh.
  { rewrite decide_False by (by intros [? _]). done. }
  destruct (Hin id ltac:(by left) Hh) as [k Hk]. rewrite Hk. simpl. f_equal.
  repeat case_decide; naive_solver.
Qed.

Lemma private_spec x n s B sets :
  ready x n s B [] →
  ∃ ids, private s sets = Some ids ∧ NoDup ids ∧
    ∀ id, id ∈ ids → is_host s id = false ∧ held_in (wm s) (elements sets) id ≠ 0 ∧
      contained (wm s) (elements (sharing_checkpoints s sets ∪ sets)) id.
Proof.
  intros Hr. pose proof (rd_valid _ _ _ _ _ Hr) as Hv. unfold private.
  assert (Hkeys : ∀ id, id ∈ sorted_keys (held_within s sets) → held_in (wm s) (elements sets) id ≠ 0).
  { intros id. unfold sorted_keys. rewrite merge_sort_Permutation. intros ([k c] & -> & Hk%elem_of_map_to_list)%list_elem_of_fmap.
    rewrite held_within_mult in Hk by done. cbn zeta in Hk. simpl. by case_decide. }
  rewrite private_loop_spec.
  2: { intros id Hid%Hkeys _. rewrite held_within_mult by done. cbn zeta. rewrite decide_False; [by eexists|].
       apply held_in_pos. apply held_in_pos in Hid as (ws & e & Hws & He & Hid). exists ws, e.
       split_and!; [|done..]. apply elem_of_elements. apply elem_of_elements in Hws. set_solver. }
  eexists. split; [done|]. split.
  - apply NoDup_filter. unfold sorted_keys. rewrite merge_sort_Permutation. apply NoDup_fst_map_to_list.
  - intros id [[Hh Hc] Hid%Hkeys]%list_elem_of_filter. split_and!; [done|done|].
    rewrite held_within_mult in Hc by done. cbn zeta in Hc. case_decide as Hz; [done|]. injection Hc as Hc.
    apply held_in_contained; [apply NoDup_elements|].
    destruct (held_ref x n s _ _ id Hr Hid) as [c Hrc]. destruct (rd_refs _ _ _ _ _ Hr id) as [Hcnt _].
    unfold ref_count in Hc. rewrite Hrc in *. rewrite app_nil_r in Hcnt. simpl in *. lia.
Qed.


Lemma any_slot_spec x n s B H ws P :
  ready x n s B H → any_slot s ws P = true ↔ ∃ e id, wm s !! ws = Some e ∧ id ∈ entry_slots e ∧ P id = true.
Proof.
  intros Hr. unfold any_slot. rewrite (st_get_spec _ _ (rd_valid _ _ _ _ _ Hr)). destruct (wm s !! ws) as [e|]; [|naive_solver].
  rewrite existsb_exists. split.
  - intros (id & Hid%list_elem_of_In & HP). eauto.
  - intros (e' & id & [= <-] & Hid & HP). exists id. split; [by apply list_elem_of_In|done].
Qed.

(** Checkpoints go that hold what moves. *)
Lemma drop_holding_ready x n s B H (ids : list RsSlotId) :
  ready x n s B H →
  wp (drop_checkpoints (λ s ws, any_slot s ws (λ id, bool_decide (id ∈ ids)))) (λ _ s', ready x n s' B H ∧ spares s s' ∧
    ∀ ws e id, wm s' !! ws = Some e → id ∈ entry_slots e → id ∈ ids → ¬ hidden s ws) never s.
Proof.
  intros Hr. unfold drop_checkpoints. apply wp_then, wp_get. cbn zeta.
  set (keys := (filter _ _).*1). eapply wp_bind; [apply (drop_keys_gone x n keys s B H Hr)| |done].
  intros k s' (Hr' & Hs & Hg). apply wp_ok. split_and!; [done..|].
  intros ws e id He Hid Hin (key & c & Hc & <-).
  assert (He0 : wm s !! snapshot c = Some e) by (eapply lookup_weaken; [done|apply Hs]).
  enough (wm s' !! snapshot c = None) by congruence. apply (Hg key c); [|done].
  unfold keys. apply list_elem_of_fmap. exists (key, c). split; [done|]. apply list_elem_of_filter.
  split; [|by apply elem_of_map_to_list]. simpl. eapply any_slot_spec; [exact Hr|].
  exists e, id. split_and!; [done..|]. by apply bool_decide_eq_true.
Qed.

Lemma elem_of_zip_both {A C} (l : list A) (k : list C) a c : (a, c) ∈ zip l k → a ∈ l ∧ c ∈ k.
Proof. intros Hin. split; [by eapply elem_of_zip_l|by eapply elem_of_zip_r]. Qed.

(** Device and host slots of a kind, paired. *)
Lemma zip_moves x (sl pg hs hp : list RsSlotId) :
  layout_ok x → length hs = length sl → length hp = length pg →
  Forall (within (x_slots x)) sl → Forall (within (x_pages x)) pg →
  Forall (within (x_host_slots x)) hs → Forall (within (x_host_pages x)) hp →
  Forall (λ m, move_ok x m.1 m.2) (zip (sl ++ pg) (hs ++ hp)).
Proof.
  intros [] L1 L2 W1 W2 W3 W4. rewrite zip_with_app by done. apply Forall_app. rewrite !Forall_forall in *. split;
    intros [d h] [Hd Hh]%elem_of_zip_both.
  - specialize (W1 d Hd). specialize (W3 h Hh). unfold within in *. simpl.
    split; unfold exists_in, hosted, paged, within; lia.
  - specialize (W2 d Hd). specialize (W4 h Hh). unfold within in *. simpl.
    split; unfold exists_in, hosted, paged, within; lia.
Qed.

Lemma rs_prepare_suspend_ready x n sets s B :
  ready x n s B [] →
  wp (prepare_suspend sets) (λ o s', match o with
    | Some t => ready x n s' (txn_loans t ++ B) [] ∧ out_ok x t ∧ spares s s' ∧ scope t = elements sets ∧ settled s' t
    | None => ready x n s' B [] ∧ frame s s' ∧ refs s' = refs s end) never s.
Proof.
  intros Hr. unfold prepare_suspend. apply wp_then, wp_get.
  destruct (private_spec x n s B sets Hr) as (ids0 & Hids & Hnd0 & Hall0). apply wp_then. eapply wp_expect; [exact Hids|].
  cbn zeta. set (ids := filter (λ id, id ∉ busy_slots s) ids0).
  assert (Hnd : NoDup ids) by by apply NoDup_filter.
  assert (Hall : ∀ id, id ∈ ids → (id ∉ busy_slots s) ∧ ¬ hosted x id ∧ exists_in x id ∧
    contained (wm s) (elements (sharing_checkpoints s sets ∪ sets)) id).
  { intros id [Hb Hid]%list_elem_of_filter. destruct (Hall0 id Hid) as (Hh & Hz & Hc). split; [done|].
    destruct (ref_exists _ _ _ _ _ id Hr (held_ref x n s _ _ id Hr Hz)) as [Hex _]. split_and!; [|done..].
    pose proof (is_host_spec s id) as Hs. rewrite (rd_extents _ _ _ _ _ Hr) in Hs.
    intros Hho. apply Hs in Hho; [congruence|apply Hr|done]. }
  case_decide as Hnil; [by apply wp_ok|].
  set (pg := filter (λ id, is_page s id = true) ids). set (sl := filter (λ id, is_page s id = false) ids).
  assert (Hel : ∀ id, id ∈ sl ++ pg → id ∈ ids).
  { intros id [[_ ?]%list_elem_of_filter|[_ ?]%list_elem_of_filter]%elem_of_app; done. }
  assert (Hndm : NoDup (sl ++ pg)).
  { apply NoDup_app. split_and!; [by apply NoDup_filter| |by apply NoDup_filter].
    intros id [Hf _]%list_elem_of_filter [Ht _]%list_elem_of_filter. congruence. }
  assert (Wsl : Forall (within (x_slots x)) sl).
  { apply Forall_forall. intros id [Hf Hid]%list_elem_of_filter. destruct (Hall id Hid) as (_ & Hh & Hex & _).
    destruct (place_device x s id) as [[? ?]|[_ ?]]; [apply Hr|apply Hr|done|done|congruence|done]. }
  assert (Wpg : Forall (within (x_pages x)) pg).
  { apply Forall_forall. intros id [Hf Hid]%list_elem_of_filter. destruct (Hall id Hid) as (_ & Hh & Hex & _).
    destruct (place_device x s id) as [[_ ?]|[? ?]]; [apply Hr|apply Hr|done|done|done|congruence]. }
  eapply wp_bind; [apply (try_alloc_at_ready x n s AtHostSlots _ B [] Hr)| |done]. intros [hs|] s1; simpl.
  2: { intros [-> _]. by apply wp_ok. }
  intros (L1 & W1 & Hr1 & F1 & R1).
  eapply wp_bind; [apply (try_alloc_at_ready x n s1 AtHostPages _ _ [] Hr1)| |done]. intros [hp|] s2; simpl.
  2: { intros [-> _]. eapply wp_bind; [apply (release_at_ready x n s1 AtHostSlots hs B [] Hr1 W1)| |done].
       intros [] s2 (Hr2 & F2 & R2). apply wp_ok. split_and!; [done|by etrans|congruence]. }
  intros (L2 & W2 & Hr2 & F2 & R2).
  eapply wp_bind; [apply (drop_holding_ready x n s2 _ [] (sl ++ pg) Hr2)| |done].
  intros k s3 (Hr3 & Hsp & Hgone). apply wp_then, wp_get, wp_ok.
  assert (Hlen : length (hs ++ hp) = length (sl ++ pg)) by (rewrite !length_app; lia).
  assert (Hsp3 : spares s s3).
  { etrans; [|exact Hsp]. apply frame_calm in F1 as [C1 Wm1]. apply frame_calm in F2 as [C2 Wm2].
    apply calm_spares; [by etrans|congruence]. }
  split_and!; [| |done|done|].
  - unfold txn_loans. simpl. rewrite snd_zip by lia. eapply rs_ready_perm; [|done|exact Hr3]. rewrite loans_app. solve_perm.
  - pose proof (rd_layout _ _ _ _ _ Hr) as Hlay.
    assert (Hms : Forall (λ m, move_ok x m.1 m.2) (zip (sl ++ pg) (hs ++ hp))) by by apply zip_moves.
    split; [simpl; apply NoDup_elements|simpl; by rewrite fst_zip by lia|done|].
    apply (txn_plan x s3 true); [apply Hr3|done|done].
  - intros d. simpl. rewrite fst_zip by lia. intros Hd _. destruct (Hall d (Hel d Hd)) as (Hb & _ & _ & Hc).
    destruct Hsp3 as (_ & I3 & _ & _ & W3 & _). split.
    + intros ws e He Hid. apply elem_of_elements. assert (He0 : wm s !! ws = Some e) by (by eapply lookup_weaken).
      specialize (Hc ws e He0 Hid). apply elem_of_elements, elem_of_union in Hc as [Hc|?]; [|done]. exfalso.
      assert (Hck : checkpoints s2 = checkpoints s).
      { destruct F1 as (_ & _ & _ & E1 & _), F2 as (_ & _ & _ & E2 & _). congruence. }
      apply (Hgone ws e d He Hid Hd). unfold sharing_checkpoints in Hc. cbn zeta in Hc.
      apply elem_of_list_to_set, list_elem_of_filter in Hc as [_ (c & -> & ([key c'] & -> & Hk%elem_of_map_to_list)%list_elem_of_fmap)%list_elem_of_fmap].
      exists key, c'. by rewrite Hck.
    + unfold idle_slot, busy_slots. rewrite I3. exact Hb.
Qed.

(** ** Preparing a move in *)

Abbreviation gm := (method (store * option RsGrant) RsError).

Lemma restore_moves_spec s ids : ∀ sl pg,
  length (filter (λ id, is_page s id = false) ids) = length sl →
  length (filter (λ id, is_page s id = true) ids) = length pg →
  ∃ ms, restore_moves s ids sl pg = Some ms ∧ ms.*1 = ids ∧ ms.*2 ≡ₚ sl ++ pg ∧
    ∀ h d, (h, d) ∈ ms → if is_page s h then d ∈ pg else d ∈ sl.
Proof.
  induction ids as [|h ids IH]; intros sl pg Hs Hp.
  { destruct sl, pg; try done. exists []. split_and!; [done..|]. by intros ? ? ?%not_elem_of_nil. }
  rewrite filter_cons in Hs, Hp. cbn [restore_moves]. destruct (is_page s h) eqn:Hh; simpl in Hs, Hp.
  - destruct pg as [|d pg]; [done|]. injection Hp as Hp. destruct (IH sl pg Hs Hp) as (ms & -> & H1 & H2 & H3).
    exists ((h, d) :: ms). split_and!; [done|csimpl; by rewrite H1|csimpl; rewrite H2; solve_perm|].
    intros h' d' [[= -> ->]|Hin]%elem_of_cons; [rewrite Hh; by left|]. specialize (H3 h' d' Hin). destruct (is_page s h'); set_solver.
  - destruct sl as [|d sl]; [done|]. injection Hs as Hs. destruct (IH sl pg Hs Hp) as (ms & -> & H1 & H2 & H3).
    exists ((h, d) :: ms). split_and!; [done|csimpl; by rewrite H1|csimpl; rewrite H2; solve_perm|].
    intros h' d' [[= -> ->]|Hin]%elem_of_cons; [rewrite Hh; by left|]. specialize (H3 h' d' Hin). destruct (is_page s h'); set_solver.
Qed.

Lemma swapped_spec x n s B H sets id :
  ready x n s B H → id ∈ swapped s sets → hosted x id ∧ exists_in x id.
Proof.
  intros Hr [Hh Hid]%list_elem_of_filter. unfold sorted_keys in Hid. rewrite merge_sort_Permutation in Hid.
  apply list_elem_of_fmap in Hid as ([k c] & -> & Hk%elem_of_map_to_list). simpl in *.
  rewrite held_within_mult in Hk by apply Hr. cbn zeta in Hk. case_decide as Hz; [done|].
  apply held_in_pos in Hz as (ws & e & _ & He & Hid).
  assert (Hrf : is_Some (refs s !! k)).
  { apply (ref_held _ _ _ _ _ k Hr), elem_of_app. left. apply elem_of_all_slots. eauto. }
  destruct (ref_exists _ _ _ _ _ k Hr Hrf) as [Hex _]. split; [|done].
  pose proof (is_host_spec s k) as Hs. rewrite (rd_extents _ _ _ _ _ Hr) in Hs. apply Hs; [apply Hr|done|done].
Qed.

Lemma rs_prepare_restore_ready x n sets p B :
  granted x n B [] p →
  wp (prepare_restore sets) (λ t p', granted x n (txn_loans t ++ B) [] p' ∧ frame p.1 p'.1 ∧ refs p'.1 = refs p.1 ∧
      in_ok x t ∧ scope t = elements sets ∧ (moves t).*1 = swapped p.1 sets)
    (λ _ p', granted x n B [] p' ∧ frame p.1 p'.1) p.
Proof.
  destruct p as [s o]. intros Hg. unfold prepare_restore. apply wp_then, wp_get. cbn zeta. simpl.
  eapply wp_bind; [apply (draw_ready x n (units s (swapped s sets)) _ B [] Hg)| |by intros ? ?].
  intros [sl pg] [s1 o1] ([Hr1 Ho1] & F1 & R1 & L1 & L2 & W1 & W2). simpl in *.
  destruct (restore_moves_spec s (swapped s sets) sl pg) as (ms & Hms & M1 & M2 & M3); [lia|lia|].
  apply wp_then. eapply wp_expect; [exact Hms|]. apply wp_ok.
  assert (Hr : ready x n s (grant_loans o ++ B) []) by apply Hg.
  assert (Hlay : layout_ok x) by apply Hr.
  split_and!; [|done|done| |done|done].
  - split; [|done]. eapply rs_ready_perm; [|done|exact Hr1]. unfold txn_loans. simpl. unfold loans. rewrite M2. solve_perm.
  - assert (Hall : Forall (λ m, move_ok x m.2 m.1) ms); [|split; [simpl; apply NoDup_elements|done|by apply (txn_plan x s false); [apply Hr|..]]].
    apply Forall_forall. intros [h d] Hin. simpl.
    assert (Hh : h ∈ swapped s sets) by (rewrite <-M1; by apply (list_elem_of_fmap_2 fst _ (h, d))).
    destruct (swapped_spec x n s _ _ sets h Hr Hh) as [Hho Hex].
    pose proof (place_host x s h (rd_extents _ _ _ _ _ Hr) Hlay Hho) as Hpl.
    specialize (M3 h d Hin). rewrite Forall_forall in W1, W2. destruct Hlay.
    destruct Hpl as [[Hp Hw]|[Hp Hw]]; rewrite Hp in M3.
    + specialize (W2 d M3). unfold within in *. split; unfold exists_in, hosted, paged, within; lia.
    + specialize (W1 d M3). unfold within in *. split; unfold exists_in, hosted, paged, within; lia.
Qed.

(** What can move out is counted. *)
Lemma suspendable_ready x n sets s B :
  ready x n s B [] → wp (suspendable sets) (λ _ s', s' = s) never s.
Proof.
  intros Hr. unfold suspendable. apply wp_then, wp_get.
  destruct (private_spec x n s B sets Hr) as (ids & Hids & _). apply wp_then. eapply wp_expect; [exact Hids|]. by apply wp_ok.
Qed.
End moves.
End RsMoves.
