(* ===== verification/RsWorld.v ===== *)
(** The clients of the recurrent-state store: the calls they make, what each call
    lends them and takes back, and the histories of calls. Grants, prepared writes and
    moves are tokens that are used once, as the values the code moves are. *)
From S2P Require Import Prelude Ids Store Pool KvTable KvHash KvStore Hoare RsStore RsBooks RsKeep RsWrites RsPublish RsMoves.

Module RsWorld.
Import KvTable RsStore RsBooks RsKeep RsWrites RsPublish RsMoves.

(** What a client holds. *)
Inductive token : Type :=
  | Grant (g : RsGrant)
  | Prepared (w : RsPreparedWrite)
  | MovingOut (t : RsResidencyTxn)
  | MovingIn (t : RsResidencyTxn).

(** The slots and pages it stands for. *)
Definition token_loans (k : token) : list (tag * RsSlotId) :=
  match k with
  | Grant g => grant_loans (Some g)
  | Prepared w => write_loans w
  | MovingOut t | MovingIn t => txn_loans t
  end.
Definition lent (ks : list token) : list (tag * RsSlotId) := concat (token_loans <$> ks).

Definition token_ok (x : layout) (k : token) : Prop :=
  match k with
  | Grant g => grant_ok x (Some g)
  | Prepared w => write_ok x w
  | MovingOut t => out_ok x t
  | MovingIn t => in_ok x t
  end.

Lemma rs_lent_app ks ks' : lent (ks ++ ks') = lent ks ++ lent ks'.
Proof. unfold lent. by rewrite fmap_app, concat_app. Qed.
Lemma rs_lent_cons k ks : lent (k :: ks) = token_loans k ++ lent ks.
Proof. done. Qed.
Lemma lent_one k : lent [k] = token_loans k.
Proof. unfold lent. simpl. apply app_nil_r. Qed.
Lemma rs_lent_perm ks ks' : ks ≡ₚ ks' → lent ks ≡ₚ lent ks'.
Proof. unfold lent. by intros ->. Qed.
Lemma lent_writes ws : lent (Prepared <$> ws) = batch_loans ws.
Proof. unfold lent, batch_loans. by rewrite <-list_fmap_compose. Qed.

(** The calls, by what they are about. *)
Inductive set_call : Type :=
  | Create (g : RsGeometry)
  | Fork (ws : RsWorkingSetId)
  | Release (ws : RsWorkingSetId)
  | Forget (ws : RsWorkingSetId)
  | FoldSet (ws : RsWorkingSetId) (count : N)
  | CommitFolds (folds : list RsPendingFold)
  | AdvanceRing (ws : RsWorkingSetId) (a : RingAdvance) (order : list nat).

Inductive cache_call : Type :=
  | Checkpoint (ws : RsWorkingSetId) (key : Hash256) (o : option ProcessId) (now : N)
  | Keep (snap : RsWorkingSetId) (key : Hash256) (o : option ProcessId) (now : N)
  | Adopt (ws : RsWorkingSetId) (key : Hash256) (now : N)
  | Yield (sets : list RsWorkingSetId)
  | Reclaim (keys : KvStore.Keys)
  | Discard (o : ProcessId)
  | RetireIdle.

Inductive write_call : Type :=
  | Reserve (need : RsUnits)
  | GiveBack (g : RsGrant)
  | PrepareRing (g : option RsGrant) (ws : RsWorkingSetId) (indexes : list nat)
  | PrepareGroup (g : option RsGrant) (ws : RsWorkingSetId) (write_state fresh : bool) (count : option N)
      (range : option (N * N))
  | PrepareRows (g : option RsGrant) (w : RsPreparedWrite) (rows : list N)
  | Cancel (w : RsPreparedWrite)
  | Publish (ws : list RsPreparedWrite)
  | NoteReads (q : N) (ids : list RsSlotId)
  | Settle (p : RsPublished).

Inductive move_call : Type :=
  | PrepareSuspend (sets : gset RsWorkingSetId)
  | CommitSuspend (t : RsResidencyTxn)
  | AbortSuspend (t : RsResidencyTxn)
  | PrepareRestore (g : RsGrant) (sets : gset RsWorkingSetId)
  | CommitRestore (t : RsResidencyTxn)
  | AbortRestore (t : RsResidencyTxn).

Inductive call : Type :=
  | SetCall (c : set_call)
  | CacheCall (c : cache_call)
  | WriteCall (c : write_call)
  | MoveCall (c : move_call).

Definition grants (o : option RsGrant) : list token := Grant <$> option_list o.

(** The tokens a call uses up. *)
Definition uses (c : call) : list token :=
  match c with
  | SetCall _ | CacheCall _ => []
  | WriteCall c => match c with
      | GiveBack g => [Grant g]
      | PrepareRing g _ _ | PrepareGroup g _ _ _ _ _ => grants g
      | PrepareRows g w _ => grants g ++ [Prepared w]
      | Cancel w => [Prepared w]
      | Publish ws => Prepared <$> ws
      | Reserve _ | NoteReads _ _ | Settle _ => []
      end
  | MoveCall c => match c with
      | CommitSuspend t | AbortSuspend t => [MovingOut t]
      | PrepareRestore g _ => [Grant g]
      | CommitRestore t | AbortRestore t => [MovingIn t]
      | PrepareSuspend _ => []
      end
  end.

Section world.
Context {WS : Type → Type}.
Context `{!KeyedStore RsWorkingSetId WS, !KeyedStoreLaws RsWorkingSetId WS}.
Abbreviation store := (RsStore WS).
Abbreviation sm := (method store RsError).
Abbreviation gm := (method (store * option RsGrant) RsError).
Implicit Types s : store.
Abbreviation wm s := (st_map (working_sets s)).
Abbreviation never := (λ _ _, False).

(** A call, whose answer is the tokens it hands out; an error hands out [lost]. *)
Definition handing {A} (m : sm A) (out : A → list token) (lost : list token) : sm (list token) := λ s,
  match m s with
  | (Ok a, s) => (Ok (out a), s)
  | (Err _, s) => (Ok lost, s)
  | (Panic, s) => (Panic, s)
  end.
Definition plain {A} (m : sm A) : sm (list token) := handing m (λ _, []) [].

(** A call that may borrow a grant: what is left of it comes back. *)
Definition borrowing {A} (g : option RsGrant) (m : gm A) (out : A → list token) (lost : list token) : sm (list token) := λ s,
  match m (s, g) with
  | (Ok a, (s, g)) => (Ok (grants g ++ out a), s)
  | (Err _, (s, g)) => (Ok (grants g ++ lost), s)
  | (Panic, (s, _)) => (Panic, s)
  end.

Definition perform_set (c : set_call) : sm (list token) :=
  match c with
  | Create g => plain (create_working_set g)
  | Fork ws => plain (fork ws)
  | Release ws => plain (release_working_set ws)
  | Forget ws => plain (forget_state ws)
  | FoldSet ws count => plain (fold ws count)
  | CommitFolds folds => plain (commit_folds folds)
  | AdvanceRing ws a order => plain (ring_advance ws a order)
  end.

Definition perform_cache (c : cache_call) : sm (list token) :=
  match c with
  | Checkpoint ws key o now => plain (checkpoint ws key o now)
  | Keep snap key o now => plain (keep snap key o now)
  | Adopt ws key now => plain (adopt_checkpoint ws key now)
  | Yield sets => plain (yield_checkpoints sets)
  | Reclaim keys => plain (reclaim_cache keys)
  | Discard o => plain (discard_cache o)
  | RetireIdle => plain retire_idle
  end.

Definition perform_write (c : write_call) : sm (list token) :=
  match c with
  | Reserve need => handing (reserve need) grants []
  | GiveBack g => plain (release_reservation g)
  | PrepareRing g ws pages => borrowing g (prepare_ring ws pages) (λ w, [Prepared w]) []
  | PrepareGroup g ws write_state fresh fold writes =>
      borrowing g (prepare_group ws write_state fresh fold writes) (λ w, [Prepared w]) []
  | PrepareRows g w rows => borrowing g (prepare_snapshots w rows) (λ w, [Prepared w]) [Prepared w]
  | Cancel w => plain (cancel_prepared w)
  | Publish ws => plain (publish_batch ws)
  | NoteReads q ids => plain (note_reads q ids)
  | Settle p => plain (settle p)
  end.

Definition perform_move (c : move_call) : sm (list token) :=
  match c with
  | PrepareSuspend sets => handing (prepare_suspend sets) (λ o, MovingOut <$> option_list o) []
  | CommitSuspend t => plain (commit_suspend t)
  | AbortSuspend t => plain (abort_suspend t)
  | PrepareRestore g sets => borrowing (Some g) (prepare_restore sets) (λ t, [MovingIn t]) []
  | CommitRestore t => plain (commit_restore t)
  | AbortRestore t => plain (abort_restore t)
  end.

Definition perform (c : call) : sm (list token) :=
  match c with
  | SetCall c => perform_set c
  | CacheCall c => perform_cache c
  | WriteCall c => perform_write c
  | MoveCall c => perform_move c
  end.

(** What the callers keep to: a snapshot that is kept is not released by others nor kept
    twice; a fire is prepared for sets that are on the device, within the numbering of
    tokens; a write is published to the set it was prepared for; a fire reads what is
    held on the device, or what it touches already; and what moves is private to the sets
    moved, and settled. *)
Definition legal (c : call) s : Prop :=
  match c with
  | SetCall (Release ws) => ¬ hidden s ws
  | SetCall (AdvanceRing ws _ _) => is_Some (wm s !! ws)
  | CacheCall (Keep snap _ _ _) => is_Some (wm s !! snap) ∧ ¬ hidden s snap
  | WriteCall (PrepareRing _ ws pages) => resident s ws ∧ (N.of_nat (length pages) ≤ u32_max)%N
  | WriteCall (PrepareGroup _ ws _ _ _ writes) => resident s ws ∧ ∀ a b, writes = Some (a, b) → (b ≤ u32_max)%N
  | WriteCall (PrepareRows _ w rows) => w_snapshots w = [] ∧ (N.of_nat (length rows) ≤ u32_max)%N
  | WriteCall (Publish ws) => ∀ w e, w ∈ ws → wm s !! w_ws w = Some e → fits e w
  | WriteCall (NoteReads q ids) => Forall (λ id, is_host s id = false ∧ is_Some (refs s !! id) ∨ touched s q id) ids
  | MoveCall (CommitSuspend t) => settled s t
  | MoveCall (CommitRestore t) => owned s t
  | _ => True
  end.

(** The most keys and fires a call uses. *)
Definition cost (c : call) : nat :=
  match c with
  | SetCall (Create _) | SetCall (Fork _) | CacheCall (Checkpoint _ _ _ _) | CacheCall (Adopt _ _ _) => 1
  | WriteCall (PrepareRing _ _ _) | WriteCall (PrepareGroup _ _ _ _ _ _) => 1
  | WriteCall (Publish ws) => batch_rows ws
  | _ => 0
  end.

(** The worlds that calls lead to from a new store, with the keys they used. *)
Inductive reaches (s0 : store) : nat → store → list token → Prop :=
  | reaches_new : reaches s0 0 s0 []
  | reaches_call n s ks c rest out s' :
      reaches s0 n s ks → ks ≡ₚ uses c ++ rest → legal c s → perform c s = (Ok out, s') →
      reaches s0 (cost c + n) s' (out ++ rest).

(** ** Each call keeps the books *)

(** A call goes well: it panics not, and its tokens are in the books. *)
Definition well x n B (m : sm (list token)) s : Prop :=
  wp m (λ out s', ready x n s' (lent out ++ B) [] ∧ Forall (token_ok x) out) never s.

Lemma rs_handing_well {A} (m : sm A) (out : A → list token) lost x n B s :
  wp m (λ a s', ready x n s' (lent (out a) ++ B) [] ∧ Forall (token_ok x) (out a))
    (λ _ s', ready x n s' (lent lost ++ B) [] ∧ Forall (token_ok x) lost) s →
  well x n B (handing m out lost) s.
Proof. unfold well, wp, handing. by destruct (m s) as [[a|e|] s']. Qed.

Lemma rs_plain_well {A} (m : sm A) (Q : A → store → Prop) X x n B s :
  wp m Q X s → (∀ a s', Q a s' → ready x n s' B []) → (∀ e s', X e s' → ready x n s' B []) →
  well x n B (plain m) s.
Proof.
  intros Hm HQ HX. apply rs_handing_well. eapply wp_mono; [exact Hm| |]; intros a s' H; (split; [|done]); eauto.
Qed.

Lemma grants_lent o : lent (grants o) = grant_loans o.
Proof. destruct o; [apply lent_one|done]. Qed.
Lemma grants_ok x o : Forall (token_ok x) (grants o) ↔ grant_ok x o.
Proof.
  destruct o as [g|]; [|split; [done|constructor]]. change (grants (Some g)) with [Grant g]. exact (Forall_singleton (token_ok x) (Grant g)).
Qed.

Lemma rs_borrowing_well {A} g (m : gm A) (out : A → list token) lost x n B s :
  wp m (λ a p, granted x n (lent (out a) ++ B) [] p ∧ Forall (token_ok x) (out a))
    (λ _ p, granted x n (lent lost ++ B) [] p ∧ Forall (token_ok x) lost) (s, g) →
  well x n B (borrowing g m out lost) s.
Proof.
  unfold well, wp, borrowing, granted. destruct (m (s, g)) as [[a|e|] [s' g']]; simpl; [| |done].
  - intros [[Hr Hg] Hok]. rewrite rs_lent_app, grants_lent, <-app_assoc, Forall_app, grants_ok. done.
  - intros [[Hr Hg] Hok]. rewrite rs_lent_app, grants_lent, <-app_assoc, Forall_app, grants_ok. done.
Qed.

Lemma rs_set_call_well x n s c B :
  ready x (cost (SetCall c) + n) s B [] → legal (SetCall c) s → well x n B (perform_set c) s.
Proof.
  destruct c; intros Hr Hl; simpl in Hr, Hl.
  - eapply rs_plain_well; [by apply create_ready|by intros ? ? [? _]|done].
  - eapply rs_plain_well; [by apply rs_fork_ready|by intros ? ? [? _]|]. intros e s' (-> & _). eapply rs_ready_le; [|exact Hr]. lia.
  - eapply rs_plain_well; [apply release_ready; [exact Hr|]|by intros ? ? [? _]|done].
    intros key c Hc <-. apply Hl. by exists key, c.
  - eapply rs_plain_well; [by apply forget_ready|by intros ? ? [? _]|by intros ? ? ->].
  - eapply rs_plain_well; [by apply rs_fold_ready|by intros ? ? [? _]|done].
  - eapply rs_plain_well; [by apply commit_folds_ready|by intros ? ? [? _]|done].
  - eapply rs_plain_well; [by apply ring_advance_ready|by intros ? ? [? _]|done].
Qed.

Lemma rs_cache_call_well x n s c B :
  ready x (cost (CacheCall c) + n) s B [] → legal (CacheCall c) s → well x n B (perform_cache c) s.
Proof.
  destruct c; intros Hr Hl; simpl in Hr, Hl.
  - eapply rs_plain_well; [by apply checkpoint_ready|by intros ? ? [? _]|]. intros e s' ->. eapply rs_ready_le; [|exact Hr]. lia.
  - destruct Hl. eapply rs_plain_well; [by apply rs_keep_ready|by intros ? ? [? _]|done].
  - eapply rs_plain_well; [by apply adopt_ready| |].
    + intros b s' [Hr' _]. eapply rs_ready_le; [|exact Hr']. lia.
    + intros e s' [-> _]. eapply rs_ready_le; [|exact Hr]. lia.
  - eapply rs_plain_well; [by apply yield_ready|by intros ? ? [? _]|done].
  - eapply rs_plain_well; [by apply reclaim_ready|by intros ? ? [? _]|done].
  - eapply rs_plain_well; [by apply discard_ready|by intros ? ? [? _]|done].
  - eapply rs_plain_well; [by apply rs_retire_idle_ready|by intros ? ? [? _]|done].
Qed.

Lemma rs_write_call_well x n s c B :
  ready x (cost (WriteCall c) + n) s (lent (uses (WriteCall c)) ++ B) [] → Forall (token_ok x) (uses (WriteCall c)) →
  legal (WriteCall c) s → well x n B (perform_write c) s.
Proof.
  destruct c; intros Hr Hok Hl; simpl in Hr, Hl, Hok.
  - apply rs_handing_well. eapply wp_mono; [by apply rs_reserve_ready| |done]. intros o s' [[Hr' Ho] _].
    rewrite grants_lent, grants_ok. done.
  - rewrite lent_one in Hr. rewrite Forall_singleton in Hok.
    eapply rs_plain_well; [apply (release_reservation_ready x n g s B []); by split|by intros ? ? [? _]|done].
  - rewrite grants_lent in Hr. apply grants_ok in Hok. destruct Hl.
    apply rs_borrowing_well. eapply wp_mono; [apply (prepare_ring_ready x n (s, g) ws indexes B []); [by split|done..]| |].
    + intros w p (Hp & Hw & _). rewrite lent_one, Forall_singleton. done.
    + intros e p [Hp _]. split; [done|constructor].
  - rewrite grants_lent in Hr. apply grants_ok in Hok. destruct Hl.
    apply rs_borrowing_well. eapply wp_mono; [apply (prepare_group_ready x n (s, g) ws write_state fresh count range B []); [by split|done..]| |].
    + intros w p (Hp & Hw & _). rewrite lent_one, Forall_singleton. done.
    + intros e p [Hp _]. split; [done|constructor].
  - rewrite rs_lent_app, grants_lent, lent_one, <-app_assoc in Hr. apply Forall_app in Hok as [Hok Hw].
    apply grants_ok in Hok. rewrite Forall_singleton in Hw. destruct Hl as [Hnil Hlen].
    apply rs_borrowing_well. eapply wp_mono; [apply (prepare_snapshots_ready x n (s, g) w rows B []); [by split|done..]| |].
    + intros w' p (Hp & Hw' & _). rewrite lent_one, Forall_singleton. done.
    + intros e p [Hp _]. rewrite lent_one, Forall_singleton. done.
  - rewrite lent_one in Hr. rewrite Forall_singleton in Hok.
    eapply rs_plain_well; [by apply cancel_ready|by intros ? ? [? _]|done].
  - rewrite lent_writes in Hr. rewrite Forall_fmap in Hok.
    eapply rs_plain_well; [by apply publish_batch_ready|by intros ? ? [? _]|by intros ? ? [? _]].
  - eapply rs_plain_well; [apply note_reads_ready; [exact Hr|]|by intros ? ? [? _]|done].
    eapply Forall_impl; [exact Hl|]. intros id [[Hh Hs]|?]; [|by right]. left. split; [|done].
    destruct (ref_exists _ _ _ _ _ id Hr Hs) as [Hex _].
    pose proof (is_host_spec s id) as Hsp. rewrite (rd_extents _ _ _ _ _ Hr) in Hsp.
    intros Hho. apply Hsp in Hho; [congruence|apply Hr|done].
  - eapply rs_plain_well; [by apply rs_settle_ready|by intros ? ? [? _]|done].
Qed.

Lemma rs_move_call_well x n s c B :
  ready x (cost (MoveCall c) + n) s (lent (uses (MoveCall c)) ++ B) [] → Forall (token_ok x) (uses (MoveCall c)) →
  legal (MoveCall c) s → well x n B (perform_move c) s.
Proof.
  destruct c; intros Hr Hok Hl; simpl in Hr, Hl, Hok; rewrite ?lent_one, ?Forall_singleton in *.
  - apply rs_handing_well. eapply wp_mono; [by apply rs_prepare_suspend_ready| |done].
    intros [t|] s' H; simpl.
    + destruct H as (Hr' & Hok' & _). rewrite lent_one, Forall_singleton. done.
    + destruct H as [Hr' _]. split; [done|constructor].
  - eapply rs_plain_well; [by apply rs_commit_suspend_ready|by intros ? ? [? _]|done].
  - eapply rs_plain_well; [by apply rs_abort_suspend_ready|by intros ? ? [? _]|done].
  - apply rs_borrowing_well. eapply wp_mono; [apply (rs_prepare_restore_ready x n sets (s, Some g) B); by split| |].
    + intros t p (Hp & _ & _ & Ht & _). rewrite lent_one, Forall_singleton. done.
    + intros e p [Hp _]. split; [done|constructor].
  - eapply rs_plain_well; [by apply rs_commit_restore_ready|by intros ? ? [? _]|done].
  - eapply rs_plain_well; [by apply rs_abort_restore_ready|by intros ? ? [? _]|done].
Qed.

Lemma rs_perform_well x n s c B :
  ready x (cost c + n) s (lent (uses c) ++ B) [] → Forall (token_ok x) (uses c) → legal c s →
  well x n B (perform c) s.
Proof.
  destruct c; intros Hr Hok Hl; cbn [perform].
  - by apply rs_set_call_well.
  - by apply rs_cache_call_well.
  - by apply rs_write_call_well.
  - by apply rs_move_call_well.
Qed.

(** ** Histories *)

(** A store of the two kinds, whose keys last for [k] uses. *)
Definition starts (k : nat) s : Prop :=
  ((∃ slots pages host_slots host_pages, new slots pages host_slots host_pages = Some s) ∨
   (∃ g pages host_pages, new_ring g pages host_pages = Some s)) ∧
  st_room (st_new : WS RsEntry) k ∧ (N.of_nat k ≤ u32_max)%N.

(** A pool as it is made. *)
Definition untouched (p : Pool.Pool RsSlotId) : Prop := Pool.held p ≡ₚ Pool.ids_of p ∧ Pool.pending p = [].
Lemma new_range_untouched b c p :
  Pool.new_range b c = Some p → untouched p ∧ (b + c ≤ u32_max)%N ∧ Pool.base p = b ∧ Pool.capacity p = c.
Proof.
  intros Hn. destruct (Pool.new_range_held b c p Hn) as (? & ? & ? & ?). split_and!; try done. split; [done|].
  unfold Pool.new_range in Hn. destruct (checked_add_u32 b c); [|done]. by injection Hn as <-.
Qed.

Lemma build_ready sp pp hs hp at_ r k :
  untouched sp → untouched pp → untouched hs → untouched hp → st_room (st_new : WS RsEntry) k → (N.of_nat k ≤ u32_max)%N →
  let s := build sp pp hs hp at_ r in layout_ok (extents s) → ready (extents s) k s [] [].
Proof.
  intros [H1 E1] [H2 E2] [H3 E3] [H4 E4] Hroom Hk s Hl. destruct (st_new_spec (T := RsEntry)) as [Hv Hm].
  split; simpl; rewrite ?Hm; try done.
  - unfold stock, universe. simpl. rewrite H1, H2, H3, H4. by rewrite app_nil_r.
  - intros w id. destruct w; simpl; rewrite ?H1, ?H2, ?H3, ?H4; by rewrite extent_within.
  - intros w e l. destruct w; simpl; rewrite ?E1, ?E2, ?E3, ?E4; by intros ?%not_elem_of_nil.
  - unfold u32_max in Hk. lia.
Qed.

Lemma starts_ready k s : starts k s → ready (extents s) k s [] [].
Proof.
  intros [[(a & b & c & d & Hn)|(g & b & d & Hn)] [Hroom Hk]].
  - unfold new in Hn. destruct (checked_add_u32 a b) as [host|] eqn:Hh; [|done]. cbn [mbind option_bind] in Hn.
    destruct (Pool.new a) as [sp|] eqn:H1; [|done]. cbn [mbind option_bind] in Hn.
    destruct (Pool.new_range a b) as [pp|] eqn:H2; [|done]. cbn [mbind option_bind] in Hn.
    destruct (Pool.new_range host c) as [hs|] eqn:H3; [|done]. cbn [mbind option_bind] in Hn.
    destruct (checked_add_u32 host c) as [at_|] eqn:Hat; [|done]. cbn [mbind option_bind] in Hn.
    destruct (Pool.new_range at_ d) as [hp|] eqn:H4; [|done]. injection Hn as <-.
    apply new_range_untouched in H1 as (P1 & R1 & B1 & C1), H2 as (P2 & R2 & B2 & C2), H3 as (P3 & R3 & B3 & C3),
      H4 as (P4 & R4 & B4 & C4).
    unfold checked_add_u32 in Hh, Hat. repeat case_decide; simplify_eq.
    apply build_ready; [done..|]. split; simpl; rewrite ?B1, ?B2, ?B3, ?B4, ?C1, ?C2, ?C3, ?C4; lia.
  - unfold new_ring in Hn. cbn zeta in Hn.
    destruct (Pool.new 0) as [sp|] eqn:H1; [|done]. cbn [mbind option_bind] in Hn.
    destruct (Pool.new_range 1 (b - 1)) as [pp|] eqn:H2; [|done]. cbn [mbind option_bind] in Hn.
    destruct (Pool.new_range (N.max b 1) 0) as [hs|] eqn:H3; [|done]. cbn [mbind option_bind] in Hn.
    destruct (Pool.new_range (N.max b 1) d) as [hp|] eqn:H4; [|done]. injection Hn as <-.
    apply new_range_untouched in H1 as (P1 & R1 & B1 & C1), H2 as (P2 & R2 & B2 & C2), H3 as (P3 & R3 & B3 & C3),
      H4 as (P4 & R4 & B4 & C4).
    apply build_ready; [done..|]. split; simpl; rewrite ?B1, ?B2, ?B3, ?B4, ?C1, ?C2, ?C3, ?C4; lia.
Qed.

Lemma rs_reaches_ready x N s0 n s ks : reaches s0 n s ks →
  ∀ k, n + k ≤ N → ready x N s0 [] [] → ready x k s (lent ks) [] ∧ Forall (token_ok x) ks.
Proof.
  induction 1 as [|n s ks c rest out s' Hr IH Hks Hl Hp]; intros k Hk H0.
  { split; [by eapply rs_ready_le; [|exact H0]; lia|constructor]. }
  destruct (IH (cost c + k)) as [Hrs Hok]; [lia|done|]. rewrite Hks in Hok. apply Forall_app in Hok as [Hu Hrest].
  apply rs_lent_perm in Hks. rewrite rs_lent_app in Hks.
  pose proof (rs_perform_well x k s c (lent rest) (rs_ready_perm _ _ _ _ _ _ _ Hks (Permutation_refl _) Hrs) Hu Hl) as Hw.
  unfold well, wp in Hw. rewrite Hp in Hw. destruct Hw as [Hr' Hout]. rewrite rs_lent_app. split; [done|by apply Forall_app].
Qed.

Lemma rs_history_ready k s0 n s ks m :
  starts k s0 → reaches s0 n s ks → n + m ≤ k → ready (extents s0) m s (lent ks) [] ∧ Forall (token_ok (extents s0)) ks.
Proof. intros H0 Hre Hk. eapply rs_reaches_ready; [exact Hre|exact Hk|]. by apply starts_ready. Qed.
End world.
End RsWorld.
