(* ===== verification/RsThm.v ===== *)
(** What the recurrent-state store promises: no history of its clients' calls makes it
    panic, every slot and page is at all times in one place and counted as often as it
    is held, what a fire in flight touches is nobody else's, and forks, checkpoints and
    moves keep what the working sets hold. *)
From S2P Require Import Prelude Ids Store Pool KvTable KvStore Hoare RsStore RsBooks RsKeep RsWrites RsPublish RsMoves RsWorld.

Module RsThm.
Import KvTable RsStore RsBooks RsKeep RsWrites RsPublish RsMoves RsWorld.

Section thm.
Context {WS : Type → Type}.
Context `{!KeyedStore RsWorkingSetId WS, !KeyedStoreLaws RsWorkingSetId WS}.
Abbreviation store := (RsStore WS).
Abbreviation sm := (method store RsError).
Implicit Types s : store.
Abbreviation wm s := (st_map (working_sets s)).

(** ** Histories *)

(** C9. Take a store made by [new] or [new_ring] and any history of calls: working sets
    made, forked, released, folded and forgotten; checkpoints kept, adopted, reclaimed and
    discarded; grants drawn; writes prepared, published, cancelled and settled in any
    order; rings advanced; moves out and in begun, committed and aborted while other calls
    run. Every call that uses tokens the client holds and keeps its contract ([legal])
    then answers: no [expect], index, assertion or subtraction of the store or its pools
    fails. The bound on [n] is the number of keys a generational map has. *)
Theorem rs_history_safe k s0 n s ks c rest :
  starts k s0 → reaches s0 n s ks → ks ≡ₚ uses c ++ rest → legal c s → cost c + n ≤ k →
  ∃ out s', perform c s = (Ok out, s').
Proof.
  intros H0 Hre Hks Hl Hk. destruct (rs_history_ready k s0 n s ks (cost c) H0 Hre ltac:(lia)) as [Hr Hok].
  rewrite Hks in Hok. apply Forall_app in Hok as [Hu _]. apply rs_lent_perm in Hks. rewrite rs_lent_app in Hks.
  rewrite <-(Nat.add_0_r (cost c)) in Hr.
  pose proof (rs_perform_well _ 0 s c (lent rest) (rs_ready_perm _ _ _ _ _ _ _ Hks (Permutation_refl _) Hr) Hu Hl) as Hw.
  apply wp_case in Hw as [(out & s' & Hp & _)|(_ & _ & _ & [])]. eauto.
Qed.

(** C10. Conservation: at each moment of a history the slots and pages that clients hold
    and those the store has (free, waiting for a fire, or referenced) are all there are,
    each in one place; and a slot is referenced exactly as often as working sets hold it,
    so it is dropped when the last of them lets go and not before. *)
Theorem rs_history_books k s0 n s ks :
  starts k s0 → reaches s0 n s ks → n ≤ k →
  NoDup ((lent ks).*2 ++ stock s) ∧
  (∀ id, id ∈ (lent ks).*2 ++ stock s ↔ exists_in (extents s0) id) ∧
  (∀ id, refs s !! id = if decide (mult id (all_slots (wm s)) = 0) then None
    else Some (N.of_nat (mult id (all_slots (wm s))))).
Proof.
  intros H0 Hre Hk. destruct (rs_history_ready k s0 n s ks 0 H0 Hre ltac:(lia)) as [Hr _].
  pose proof (rd_extents _ _ _ _ _ Hr) as Hx. split_and!.
  - rewrite (rd_whole _ _ _ _ _ Hr). apply rs_NoDup_universe. rewrite Hx. apply Hr.
  - intros id. rewrite (rd_whole _ _ _ _ _ Hr), rs_elem_of_universe. by rewrite Hx.
  - intros id. destruct (rd_refs _ _ _ _ _ Hr id) as [Hc Hz]. rewrite app_nil_r in Hc.
    destruct (refs s !! id) as [c|]; simpl in Hc; case_decide as Hm; try done; [|congruence|lia].
    exfalso. apply Hz. f_equal. lia.
Qed.

(** C11. What working sets hold is of its type: a state is in a slot and a buffer's pages
    are pages, on the device or the host; no set holds one twice; what is buffered begins
    no later than what is frozen ends, within 32 bits; and the number the engine is given
    for a slot or page is below the capacity of its pool. *)
Theorem rs_history_types k s0 n s ks ws e :
  starts k s0 → reaches s0 n s ks → n ≤ k → wm s !! ws = Some e →
  (∀ id, folded e = Some id → within (Pool.extent (slots s)) id ∨ within (Pool.extent (host_slots s)) id) ∧
  (∀ id, Some id ∈ buffer e → within (Pool.extent (pages s)) id ∨ within (Pool.extent (host_pages s)) id) ∧
  NoDup (entry_slots e) ∧ (base e ≤ frozen e ≤ u32_max)%N ∧
  (∀ id, id ∈ entry_slots e → engine_id s id <
    (if is_host s id then if is_page s id then Pool.capacity (host_pages s) else Pool.capacity (host_slots s)
     else if is_page s id then (Pool.base (pages s) - pages_at s) + Pool.capacity (pages s)
     else Pool.base (slots s) + Pool.capacity (slots s)))%N.
Proof.
  intros H0 Hre Hk He. destruct (rs_history_ready k s0 n s ks 0 H0 Hre ltac:(lia)) as [Hr _].
  rewrite <-(rd_extents _ _ _ _ _ Hr) in Hr. pose proof (rd_layout _ _ _ _ _ Hr) as Hl.
  destruct (rd_entries _ _ _ _ _ Hr ws e He) as [Hnd Hf Hb Hba Hfr].
  assert (Hex : ∀ id, id ∈ entry_slots e → exists_in (extents s) id).
  { intros id Hid. eapply (ref_exists _ _ _ _ _ id Hr). apply (ref_held _ _ _ _ _ id Hr), elem_of_app. left.
    apply elem_of_all_slots. eauto. }
  split_and!; [| |done|done|done|].
  - intros id Hid. specialize (Hf id Hid). destruct (Hex id) as [?|[?|[?|?]]];
      [apply elem_of_entry_slots; by left|by left|exfalso; apply Hf; by left|by right|exfalso; apply Hf; by right].
  - intros id Hid. exact (Hb id Hid).
  - intros id Hid. specialize (Hex id Hid). pose proof (is_host_spec s id Hl Hex) as Hh.
    pose proof (is_page_spec s id Hl Hex) as Hp. pose proof (contains_within (host_pages s) id) as C1.
    pose proof (contains_within (host_slots s) id) as C2. destruct Hl. unfold engine_id.
    unfold exists_in, hosted, paged, within in *. simpl in *.
    specialize (C1 ltac:(lia)). specialize (C2 ltac:(lia)).
    destruct (is_host s id), (is_page s id), (Pool.contains (host_pages s) id), (Pool.contains (host_slots s) id);
      naive_solver lia.
Qed.

(** ** Fires in flight *)

Lemma elem_of_lent ks o id : (o, id) ∈ lent ks ↔ ∃ k, k ∈ ks ∧ (o, id) ∈ token_loans k.
Proof.
  unfold lent. rewrite elem_of_concat. split.
  - intros (l & (k & -> & Hk)%list_elem_of_fmap & Hid). eauto.
  - intros (k & Hk & Hid). exists (token_loans k). split; [|done]. by apply list_elem_of_fmap_2.
Qed.

(** What is free, and what waits. *)
Definition frees s : list RsSlotId :=
  Pool.free (slots s) ++ Pool.free (pages s) ++ Pool.free (host_slots s) ++ Pool.free (host_pages s).
Definition pend s : list RsSlotId :=
  concat (Pool.pending (slots s)).*2 ++ concat (Pool.pending (pages s)).*2 ++
  concat (Pool.pending (host_slots s)).*2 ++ concat (Pool.pending (host_pages s)).*2.

Lemma stock_parts s : stock s ≡ₚ frees s ++ (pend s ++ (map_to_list (refs s)).*1).
Proof. unfold stock, frees, pend, Pool.held. solve_perm. Qed.

Lemma NoDup_loan (B : list (tag * RsSlotId)) o o' id : NoDup B.*2 → (o, id) ∈ B → (o', id) ∈ B → o = o'.
Proof.
  induction B as [|[o1 i1] B IH]; intros Hnd H1 H2; [by apply not_elem_of_nil in H1|].
  csimpl in Hnd. apply NoDup_cons in Hnd as [Hi Hnd].
  assert (Hno : ∀ o2, (o2, i1) ∉ B) by (intros o2 Hin; by apply Hi, (list_elem_of_fmap_2 snd _ (o2, i1))).
  apply elem_of_cons in H1 as [H1|H1], H2 as [H2|H2]; [congruence| | |eauto].
  - injection H1 as -> ->. exfalso. by eapply Hno.
  - injection H2 as -> ->. exfalso. by eapply Hno.
Qed.

Lemma token_loan_tag k o id : (o, id) ∈ token_loans k → ∀ q, shelters o q → ∃ w, k = Prepared w ∧ w_seq w = q.
Proof.
  destruct k as [g|w|t|t]; simpl; unfold write_loans, txn_loans; intros [-> _]%elem_of_loans q Hq; simpl in Hq; try done.
  eauto.
Qed.

(** C12. Nothing a fire touches is reused while the fire is in flight: a slot or page that
    an unsettled fire writes or reads is not free, and no client has it, but for the
    fire's own write while that is still to be published. *)
Theorem rs_no_reuse_in_flight k s0 n s ks q t id :
  starts k s0 → reaches s0 n s ks → n ≤ k → inflight s !! q = Some t → touches t id = true →
  (id ∉ frees s) ∧
  ∀ c, c ∈ ks → id ∈ (token_loans c).*2 → ∃ w, c = Prepared w ∧ w_seq w = q.
Proof.
  intros H0 Hre Hk Hq Ht. destruct (rs_history_ready k s0 n s ks 0 H0 Hre ltac:(lia)) as [Hr _].
  destruct (rd_touched _ _ _ _ _ Hr q t id Hq Ht) as [Hh Hor].
  assert (Hnd : NoDup ((lent ks).*2 ++ stock s)).
  { rewrite (rd_whole _ _ _ _ _ Hr). apply rs_NoDup_universe. rewrite (rd_extents _ _ _ _ _ Hr). apply Hr. }
  apply NoDup_app in Hnd as (HndB & Hdisj & Hst).
  pose proof (stock_parts s) as Hparts. rewrite Hparts in Hst.
  assert (Hkept : is_Some (refs s !! id) ∨ waiting s q id → id ∈ pend s ++ (map_to_list (refs s)).*1).
  { unfold pend. rewrite !elem_of_app. intros [[c Hc]|(ep & l & Hp & Hid & _)].
    - right. apply list_elem_of_fmap. exists (id, c). split; [done|]. by apply elem_of_map_to_list.
    - left. destruct Hp as [Hp|Hp]; [left|right; left]; apply elem_of_concat; exists l; (split; [|done]);
        by apply (list_elem_of_fmap_2 snd _ (ep, l)). }
  assert (Hfree : id ∈ (lent ks).*2 ∨ is_Some (refs s !! id) ∨ waiting s q id → id ∉ frees s).
  { intros [Hin|Hin%Hkept] Hf.
    - apply (Hdisj id Hin). rewrite Hparts. apply elem_of_app. by left.
    - by eapply (NoDup_app_disjoint (frees s)). }
  assert (Hout : is_Some (refs s !! id) ∨ waiting s q id → id ∉ (lent ks).*2).
  { intros Hin%Hkept Hl. apply (Hdisj id Hl). rewrite Hparts. apply elem_of_app. by right. }
  assert (Hin : ∀ c, c ∈ ks → id ∈ (token_loans c).*2 → ∃ o, (o, id) ∈ token_loans c ∧ (o, id) ∈ lent ks).
  { intros c Hc ([o id'] & -> & Hl)%list_elem_of_fmap. exists o. split; [done|]. apply elem_of_lent. eauto. }
  destruct Hor as [?|[?|(o & Ho & Hs)]].
  - split; [by apply Hfree; right; left|]. intros c Hc (o & _ & Hl)%Hin; [|done]. exfalso.
    apply Hout; [by left|]. by apply (list_elem_of_fmap_2 snd _ (o, id)).
  - split; [by apply Hfree; right; right|]. intros c Hc (o & _ & Hl)%Hin; [|done]. exfalso.
    apply Hout; [by right|]. by apply (list_elem_of_fmap_2 snd _ (o, id)).
  - split; [apply Hfree; left; by apply (list_elem_of_fmap_2 snd _ (o, id))|].
    intros c Hc (o' & Ho' & Hl)%Hin; [|done]. rewrite (NoDup_loan _ _ _ _ HndB Hl Ho) in Ho'.
    by eapply token_loan_tag.
Qed.

(** *** What no fire touches goes at once *)

(** A slot that waits is due by then. *)
Definition due_by s (id : RsSlotId) (limit : N) : Prop :=
  ∀ epoch ids, (epoch, ids) ∈ Pool.pending (slots s) → id ∈ ids → (epoch ≤ limit)%N.

Definition fires_as s s' : Prop := inflight s' = inflight s ∧ seq_ s' = seq_ s.
Lemma drop_epoch_as s s' id : fires_as s s' → drop_epoch s' id = drop_epoch s id.
Proof. intros [Hf Hs]. unfold drop_epoch, newest_touching, oldest. by rewrite Hf, Hs. Qed.

Lemma recycle_due s s' ids epoch id limit : recycle ids epoch s = (Ok tt, s') →
  (id ∈ ids → (epoch ≤ limit)%N) → due_by s id limit → due_by s' id limit ∧ fires_as s s'.
Proof.
  revert s. induction ids as [|i ids IH]; intros s Hrec Hid Hdue; [by injection Hrec as <-|].
  unfold recycle in Hrec. cbn [mfor] in Hrec. unfold mthen at 1, mmodify in Hrec.
  destruct (IH _ Hrec) as [H1 H2]; [intros ?; apply Hid; by right|..].
  - destruct (is_page s i); [exact Hdue|]. intros ep l. simpl. rewrite elem_of_app.
    intros [Hin|Hin]; [by eapply Hdue|]. apply list_elem_of_singleton in Hin. injection Hin as -> ->.
    intros ->%list_elem_of_singleton. apply Hid. by left.
  - split; [exact H1|]. destruct H2 as [F G]. split; [rewrite F|rewrite G]; by destruct (is_page s i).
Qed.

Lemma release_host_due ids s out s' : release_host ids s = (Ok out, s') → slots s' = slots s ∧ fires_as s s'.
Proof.
  revert s. induction ids as [|i ids IH]; intros s Hrel; [by injection Hrel as _ <-|].
  unfold release_host in Hrel. cbn [mfor] in Hrel. unfold mthen at 1 2, mget in Hrel.
  unfold release_host_pages, release_host_slots, mthen, mget, mguard, mmodify in Hrel.
  destruct (is_page s i); case_decide; try done; by apply IH in Hrel.
Qed.

Lemma decref_due s s' i b id limit : decref i s = (Ok b, s') →
  (i = id → ∀ epoch, drop_epoch s id = Some epoch → (epoch ≤ limit)%N) →
  due_by s id limit → due_by s' id limit ∧ fires_as s s'.
Proof.
  intros Hd Hi Hdue. unfold decref, mthen, mget, mguard, mmodify, mok in Hd. case_decide; [|done]. cbn zeta in Hd. case_decide.
  - by injection Hd as _ <-.
  - set (s1 := set_refs s _) in Hd. change (is_host s1 i) with (is_host s i) in Hd. destruct (is_host s i).
    + destruct (release_host [i] s1) as [[[]|err|] s2] eqn:Hh; [|done..]. injection Hd as _ <-.
      apply release_host_due in Hh as [Hs Hf]. unfold due_by. by rewrite Hs.
    + change (drop_epoch s1 i) with (drop_epoch s i) in Hd. destruct (drop_epoch s i) as [ep|] eqn:Hep; [|done]. cbn [mexpect] in Hd.
      unfold mok in Hd. destruct (recycle [i] ep s1) as [[[]|err|] s2] eqn:Hrec; [|done..]. injection Hd as _ <-.
      apply (recycle_due s1 s2 [i] ep id limit Hrec); [|exact Hdue].
      intros Hin%list_elem_of_singleton. subst i. by apply Hi.
Qed.

Lemma decref_all_due ids s n s' id limit : decref_all ids s = (Ok n, s') →
  (∀ epoch, drop_epoch s id = Some epoch → (epoch ≤ limit)%N) →
  due_by s id limit → due_by s' id limit ∧ fires_as s s'.
Proof.
  revert s n. induction ids as [|i ids IH]; intros s n Hd Hep Hdue; [by injection Hd as _ <-|].
  cbn [decref_all] in Hd. unfold mthen in Hd. destruct (decref i s) as [[b|err|] s1] eqn:H1; [|done..].
  destruct (decref_all ids s1) as [[m|err|] s2] eqn:H2; [|done..]. injection Hd as _ <-.
  destruct (decref_due s s1 i b id limit H1 ltac:(done) Hdue) as [D1 F1].
  destruct (IH s1 m H2) as [D2 [F2 G2]]; [by rewrite (drop_epoch_as s)|done|]. destruct F1 as [F1 G1].
  split; [done|split; congruence].
Qed.

(** A state on the device that one set alone has and no fire touches is free as soon as the
    set is released, whatever fires are in flight. *)
Lemma released_untouched x n s B ws e id :
  ready x n s B [] → ¬ hidden s ws → wm s !! ws = Some e → folded e = Some id → within (x_slots x) id →
  ref_count s id = 1%N → (∀ q t, inflight s !! q = Some t → touches t id = false) →
  ∃ c s1 s2, release_working_set ws s = (Ok c, s1) ∧ retire_idle s1 = (Ok tt, s2) ∧
    inflight s2 = inflight s ∧ id ∈ Pool.free (slots s2).
Proof.
  intros Hr Hvis He Hf Hw Hone Hno.
  assert (Hide : id ∈ entry_slots e) by (apply elem_of_entry_slots; by left).
  assert (Hall : id ∈ all_slots (wm s) ++ []) by (rewrite app_nil_r; apply elem_of_all_slots; eauto).
  pose proof (proj2 (ref_held _ _ _ _ _ id Hr) Hall) as Hrf. destruct (ref_exists _ _ _ _ _ id Hr Hrf) as [Hex Hidb].
  set (limit := match oldest s with Some o => (o - 1)%N | None => u64_max end).
  assert (Hep : ∀ epoch, drop_epoch s id = Some epoch → (epoch ≤ limit)%N).
  { assert (Hnew : newest_touching s id = None).
    { unfold newest_touching. rewrite filter_none; [done|]. apply Forall_forall. intros [q t] Hin. simpl.
      apply elem_of_map_to_list, Hno in Hin. by rewrite Hin. }
    unfold drop_epoch. rewrite Hnew. unfold limit. pose proof (rd_seq _ _ _ _ _ Hr) as Hsq.
    destruct (oldest s); [case_decide; [done|]|]; intros ep [= <-]; unfold u64_max; lia. }
  pose proof (release_ready x n s ws B [] Hr) as Hwp. unfold wp in Hwp.
  destruct (release_working_set ws s) as [[c|err|] s1] eqn:Hrel.
  2, 3: exfalso; apply Hwp; intros key c Hc <-; by apply Hvis; exists key, c.
  destruct Hwp as (Hr1 & Hc1 & Hw1); [intros key c' Hc <-; by apply Hvis; exists key, c'|].
  assert (Hdue : due_by s1 id limit ∧ fires_as s s1).
  { unfold release_working_set, mthen, mget, mmodify in Hrel.
    destruct (st_remove_spec (working_sets s) ws (rd_valid _ _ _ _ _ Hr)) as (Hget & _).
    destruct (st_remove (working_sets s) ws) as [o w]. simpl in Hget. rewrite He in Hget. subst o.
    refine (decref_all_due _ (set_working_sets s w) c s1 id limit Hrel Hep _).
    intros ep l Hin Hid. exfalso.
    assert (Hnd : NoDup (B.*2 ++ stock s)).
    { rewrite (rd_whole _ _ _ _ _ Hr). apply rs_NoDup_universe. rewrite (rd_extents _ _ _ _ _ Hr). apply Hr. }
    apply NoDup_app in Hnd as (_ & _ & Hnd). rewrite stock_parts in Hnd. apply NoDup_app in Hnd as (_ & _ & Hnd).
    apply NoDup_app in Hnd as (_ & Hd & _). apply (Hd id).
    - unfold pend. rewrite !elem_of_app. left. apply elem_of_concat. exists l. split; [|done].
      by apply (list_elem_of_fmap_2 snd _ (ep, l)).
    - destruct Hrf as [v Hv]. apply list_elem_of_fmap. exists (id, v). split; [done|]. by apply elem_of_map_to_list. }
  destruct Hdue as [Hdue [Hin1 Hseq1]].
  assert (Hheld : id ∈ Pool.held (slots s1)).
  { assert (Hst : id ∈ B.*2 ++ stock s1).
    { rewrite (rd_whole _ _ _ _ _ Hr1). apply rs_elem_of_universe. by rewrite (rd_extents _ _ _ _ _ Hr1). }
    apply elem_of_app in Hst as [?|Hst]; [done|].
    assert (Hgo : ∀ w, id ∈ Pool.held (pool_at w s1) → id ∈ Pool.held (slots s1)).
    { intros w Hin. pose proof (rd_places _ _ _ _ _ Hr1 w id Hin) as Hat. pose proof (rd_layout _ _ _ _ _ Hr1) as [].
      destruct w; [done|exfalso..]; unfold within in *; simpl in *; lia. }
    unfold stock in Hst. rewrite !elem_of_app in Hst. destruct Hst as [Hst|[Hst|[Hst|[Hst|Hst]]]];
      [exact (Hgo AtSlots Hst)|exact (Hgo AtPages Hst)|exact (Hgo AtHostSlots Hst)|exact (Hgo AtHostPages Hst)|].
    exfalso. apply list_elem_of_fmap in Hst as ([i v] & -> & Hv%elem_of_map_to_list). simpl in *.
    destruct (rd_refs _ _ _ _ _ Hr1 i) as [Hm Hz]. rewrite Hv, app_nil_r, Hw1 in Hm. simpl in Hm.
    pose proof (ref_count_held _ _ _ _ _ i Hr Hall) as Hcount.
    rewrite Hone, app_nil_r, (all_slots_delete (wm s) ws e He), mult_app in Hcount.
    pose proof (mult_pos _ _ Hide). apply Hz. rewrite Hv. f_equal. lia. }
  destruct (Pool.retire_through_spec (slots s1) limit) as (sp & Hsp & _ & P2 & _).
  destruct (Pool.retire_through_spec (pages s1) limit) as (pp & Hpp & _).
  exists c, s1, (set_pages (set_slots s1 sp) pp). split; [done|]. split.
  { unfold retire_idle, mcall. cbn zeta. replace (oldest s1) with (oldest s) by (unfold oldest; by rewrite Hin1).
    fold limit. rewrite Hsp. cbn [mbind option_bind]. by rewrite Hpp. }
  split; [exact Hin1|]. simpl. rewrite P2. unfold Pool.held in Hheld. apply elem_of_app in Hheld as [?|Hpd]; [set_solver|].
  apply elem_of_app. right. apply elem_of_concat in Hpd as (l & Hl & Hidl). apply list_elem_of_fmap in Hl as ([ep l'] & -> & Hb).
  apply elem_of_concat. exists l'. split; [|done]. apply list_elem_of_fmap. exists (ep, l'). split; [done|].
  apply list_elem_of_filter. split; [|done]. by eapply Hdue.
Qed.

(** A pool that has lent nothing has all its ids. *)
Lemma pool_whole x n s w :
  ready x n s [] [] → Pool.pending (pool_at w s) = [] → refs s = ∅ →
  Pool.free (pool_at w s) ≡ₚ Pool.ids_of (pool_at w s).
Proof.
  intros Hr Hp Hrf. assert (Hh : Pool.free (pool_at w s) = Pool.held (pool_at w s)).
  { unfold Pool.held. by rewrite Hp, app_nil_r. }
  assert (Hst : stock s ≡ₚ universe s) by apply (rd_whole _ _ _ _ _ Hr).
  assert (Hnd : NoDup (stock s)).
  { rewrite Hst. apply rs_NoDup_universe. rewrite (rd_extents _ _ _ _ _ Hr). apply Hr. }
  assert (Hst' : stock s = Pool.held (pool_at AtSlots s) ++ Pool.held (pool_at AtPages s) ++
    Pool.held (pool_at AtHostSlots s) ++ Pool.held (pool_at AtHostPages s)).
  { unfold stock. rewrite Hrf, map_to_list_empty. simpl. by rewrite app_nil_r. }
  rewrite Hh. apply NoDup_Permutation; [|apply Pool.NoDup_ids_of|].
  - rewrite Hst', !NoDup_app in Hnd. destruct w; tauto.
  - intros id. split; intros Hid.
    + apply extent_within. rewrite pool_at_range, (rd_extents _ _ _ _ _ Hr). by apply (rd_places _ _ _ _ _ Hr).
    + assert (Hin : id ∈ stock s).
      { rewrite Hst. unfold universe. rewrite !elem_of_app. destruct w; tauto. }
      apply extent_within in Hid. rewrite pool_at_range, (rd_extents _ _ _ _ _ Hr) in Hid.
      rewrite Hst', !elem_of_app in Hin. pose proof (rd_layout _ _ _ _ _ Hr) as [].
      assert (Hgo : ∀ w', id ∈ Pool.held (pool_at w' s) → id ∈ Pool.held (pool_at w s)).
      { intros w' Hw'. pose proof (rd_places _ _ _ _ _ Hr w' id Hw') as Hin'. destruct (decide (w' = w)) as [->|Hne]; [done|].
        exfalso. destruct w, w'; simpl in *; unfold within in *; (done || lia). }
      destruct Hin as [Hin|[Hin|[Hin|Hin]]]; by eapply Hgo.
Qed.

(** All comes back: when the clients hold nothing, no working set is left and no fire
    is in flight, the next idle retirement leaves every device slot and page free, with
    the host pools whole, and the accounting at capacity. *)
Theorem rs_returns k s0 n s :
  starts k s0 → reaches s0 n s [] → n ≤ k → wm s = ∅ → inflight s = ∅ →
  ∃ s', retire_idle s = (Ok tt, s') ∧ refs s' = ∅ ∧ checkpoints s' = ∅ ∧
    ∀ p, p ∈ [slots s'; pages s'; host_slots s'; host_pages s'] → Pool.pending p = [] ∧ Pool.free p ≡ₚ Pool.ids_of p.
Proof.
  intros H0 Hre Hk Hw Hi. destruct (rs_history_ready k s0 n s [] 0 H0 Hre ltac:(lia)) as [Hr _].
  pose proof (rs_retire_idle_ready _ 0 s [] [] Hr) as Hwp.
  assert (Hpend : ∃ s', retire_idle s = (Ok tt, s') ∧ ∀ w, Pool.pending (pool_at w s') = []).
  { unfold retire_idle, mcall. cbn zeta. pose proof (rs_oldest_spec s) as Ho. destruct (oldest s) as [o|].
    { destruct Ho as [[t Ht] _]. by rewrite Hi, lookup_empty in Ht. }
    destruct (Pool.retire_through_spec (slots s) u64_max) as (sp & Hsp & P1 & _).
    destruct (Pool.retire_through_spec (pages s) u64_max) as (pp & Hpp & P2 & _).
    rewrite Hsp. cbn [mbind option_bind]. rewrite Hpp. cbn [mbind option_bind]. eexists. split; [done|].
    assert (Hnil : ∀ l : list (N * list RsSlotId), (∀ e ids, (e, ids) ∉ l) → l = []).
    { intros [|[e ids] l] Hl; [done|]. exfalso. apply (Hl e ids). by left. }
    intros w. apply Hnil. intros e ids Hin. destruct w; simpl in Hin.
    - rewrite P1 in Hin. apply list_elem_of_filter in Hin as [Hd Hin].
      destruct (rd_due _ _ _ _ _ Hr AtSlots e ids Hin) as [_ Hle]. by apply Hd.
    - rewrite P2 in Hin. apply list_elem_of_filter in Hin as [Hd Hin].
      destruct (rd_due _ _ _ _ _ Hr AtPages e ids Hin) as [_ Hle]. by apply Hd.
    - by destruct (rd_due _ _ _ _ _ Hr AtHostSlots e ids Hin) as [[|] _].
    - by destruct (rd_due _ _ _ _ _ Hr AtHostPages e ids Hin) as [[|] _]. }
  destruct Hpend as (s' & Hs' & Hp). unfold wp in Hwp. rewrite Hs' in Hwp. destruct Hwp as (Hr' & Hf & Hrf).
  exists s'. destruct Hf as (Fw & _ & _ & Fc & _).
  assert (Hrefs : refs s = ∅).
  { apply map_empty. intros id. destruct (rd_refs _ _ _ _ _ Hr id) as [Hc Hz]. rewrite Hw in Hc.
    destruct (refs s !! id) as [c|]; [|done]. simpl in Hc. exfalso. apply Hz. by subst. }
  split_and!; [done|by rewrite Hrf| |].
  - rewrite Fc. apply map_empty. intros key. destruct (checkpoints s !! key) as [c|] eqn:Hc; [|done].
    destruct (rd_kept _ _ _ _ _ Hr key c Hc) as [e He]. by rewrite Hw, lookup_empty in He.
  - assert (Hall : ∀ w, Pool.pending (pool_at w s') = [] ∧ Pool.free (pool_at w s') ≡ₚ Pool.ids_of (pool_at w s')).
    { intros w. split; [done|]. apply (pool_whole _ 0 s' w Hr'); [done|by rewrite Hrf]. }
    intros p Hin. rewrite !elem_of_cons in Hin. destruct Hin as [->|[->|[->|[->|Hn]]]];
      [exact (Hall AtSlots)|exact (Hall AtPages)|exact (Hall AtHostSlots)|exact (Hall AtHostPages)|by apply not_elem_of_nil in Hn].
Qed.
End thm.
End RsThm.
