(* ===== verification/RsShare.v ===== *)
(** What working sets hold, seen through the memory their slots are in: a write touches
    no other set, a write that copies what is shared keeps the contents, and so does a
    move between the device and the host. *)
From S2P Require Import Prelude Ids Store Pool KvTable KvStore Hoare RsStore RsBooks RsKeep RsWrites RsPublish RsMoves RsWorld.

Module RsShare.
Import KvTable RsStore RsBooks RsKeep RsWrites RsPublish RsMoves RsWorld.

(** ** Contents *)

Section view.
Context {V : Type}.
Implicit Types mem : RsSlotId → V.

(** What a working set holds, with the slots read. *)
Definition read mem (o : option RsSlotId) : option V :=
  match o with Some id => Some (mem id) | None => None end.
Definition view mem (e : RsEntry) : option V * list (option V) * N * N :=
  (read mem (folded e), read mem <$> buffer e, base e, frozen e).

(** The memory after copies: a destination has what its source had. *)
Definition carry (copies : list (RsSlotId * RsSlotId)) mem : RsSlotId → V := λ id,
  match filter (λ p, p.2 = id) copies with
  | p :: _ => mem p.1
  | [] => mem id
  end.

Lemma carry_dst copies mem src dst : NoDup copies.*2 → (src, dst) ∈ copies → carry copies mem dst = mem src.
Proof.
  intros Hnd Hin. unfold carry. assert (Hf : (src, dst) ∈ filter (λ p, p.2 = dst) copies) by by apply list_elem_of_filter.
  destruct (filter _ copies) as [|p l] eqn:Hl; [by apply not_elem_of_nil in Hf|].
  assert (Hp : p ∈ filter (λ p, p.2 = dst) copies) by (rewrite Hl; by left). clear Hl.
  apply list_elem_of_filter in Hp as [Hp2 Hp]. f_equal.
  induction copies as [|c copies IH]; [by apply not_elem_of_nil in Hin|]. csimpl in Hnd. apply NoDup_cons in Hnd as [Hc Hnd].
  assert (Hno : ∀ y, y ∈ copies → y.2 ≠ c.2) by (intros y Hy Heq; apply Hc; rewrite <-Heq; by apply list_elem_of_fmap_2).
  apply elem_of_cons in Hin as [Hin|Hin], Hp as [Hp|Hp].
  - by rewrite Hp, <-Hin.
  - exfalso. apply (Hno p Hp). by rewrite <-Hin.
  - exfalso. apply (Hno (src, dst) Hin). by rewrite <-Hp.
  - by apply IH.
Qed.
Lemma carry_other copies mem id : id ∉ copies.*2 → carry copies mem id = mem id.
Proof.
  intros Hn. unfold carry. destruct (filter _ copies) as [|p l] eqn:Hl; [done|]. exfalso.
  assert (Hp : p ∈ filter (λ p, p.2 = id) copies) by (rewrite Hl; by left).
  apply list_elem_of_filter in Hp as [<- Hp]. apply Hn. by apply list_elem_of_fmap_2.
Qed.

Lemma view_ext mem mem' e : (∀ id, id ∈ entry_slots e → mem' id = mem id) → view mem' e = view mem e.
Proof.
  intros Hm. unfold view. assert (Hf : read mem' (folded e) = read mem (folded e)).
  { destruct (folded e) eqn:Hf; [|done]. simpl. f_equal. apply Hm, elem_of_entry_slots. by left. }
  assert (Hb : read mem' <$> buffer e = read mem <$> buffer e); [|by rewrite Hf, Hb].
  assert (Hm' : ∀ id, Some id ∈ buffer e → mem' id = mem id) by (intros id Hid; apply Hm, elem_of_entry_slots; by right).
  clear -Hm'. induction (buffer e) as [|o b IH]; [done|]. csimpl. rewrite IH by (intros id Hid; apply Hm'; by right).
  f_equal. destruct o as [id|]; [|done]. simpl. f_equal. apply Hm'. by left.
Qed.

(** A swapped slot is read where it went. *)
Lemma view_swap mem from to e : mem to = mem from → view mem (swap_entry from to e) = view mem e.
Proof.
  intros Hm. assert (Hs : ∀ o, read mem (swap_slot from to o) = read mem o).
  { intros o. unfold swap_slot. case_decide; [subst; simpl; congruence|done]. }
  unfold view, swap_entry. simpl. rewrite Hs, <-list_fmap_compose.
  assert (Hb : (read mem ∘ swap_slot from to) <$> buffer e = read mem <$> buffer e); [|by rewrite Hb].
  apply list_fmap_ext. intros i o _. apply Hs.
Qed.
End view.

Section share.
Context {WS : Type → Type}.
Context `{!KeyedStore RsWorkingSetId WS, !KeyedStoreLaws RsWorkingSetId WS}.
Abbreviation store := (RsStore WS).
Abbreviation sm := (method store RsError).
Implicit Types s : store.
Abbreviation wm s := (st_map (working_sets s)).

(** ** Writes *)

Lemma two_holders m ws ws' e e' id :
  m !! ws = Some e → m !! ws' = Some e' → ws' ≠ ws → id ∈ entry_slots e → id ∈ entry_slots e' →
  2 ≤ mult id (all_slots m).
Proof.
  intros He He' Hne Hid Hid'. rewrite (all_slots_delete m ws e He), mult_app.
  rewrite (all_slots_delete (delete ws m) ws' e') by by rewrite lookup_delete_ne.
  rewrite mult_app. pose proof (mult_pos _ _ Hid). pose proof (mult_pos _ _ Hid'). lia.
Qed.

Lemma ref_count_mult x n s B id : ready x n s B [] → id ∈ all_slots (wm s) → ref_count s id = N.of_nat (mult id (all_slots (wm s))).
Proof.
  intros Hr Hin. pose proof (ref_count_held _ _ _ _ _ id Hr) as Hc. rewrite app_nil_r in Hc. by apply Hc.
Qed.

(** What is lent is in no set. *)
Lemma lent_unheld x n s B ws e id : ready x n s B [] → id ∈ B.*2 → wm s !! ws = Some e → id ∉ entry_slots e.
Proof.
  intros Hr Hb He Hid. assert (Hrf : is_Some (refs s !! id)).
  { apply (ref_held _ _ _ _ _ id Hr), elem_of_app. left. apply elem_of_all_slots. eauto. }
  by apply (ref_exists _ _ _ _ _ id Hr Hrf).
Qed.

Lemma prepared_isolated x n s s' B' e ws write_state fresh count targets w :
  prepared s e ws write_state fresh count targets w s' →
  ready x n s' (write_loans w ++ B') [] → write_ok x w →
  (∀ i v, (i, v) ∈ targets → v = lookup_page e i) →
  ∀ id, id ∈ writes (touch_of (w_state w) (w_buffers w)) →
  ∀ ws' e', ws' ≠ ws → wm s' !! ws' = Some e' → id ∉ entry_slots e'.
Proof.
  intros [] Hr' Hok Hl id Hid ws' e' Hne He'. destruct pr_rest0 as (Hws & Hrf & _).
  assert (He2 : wm s' !! ws = Some e) by by rewrite Hws.
  assert (Htaken : id ∈ w_allocated w → id ∉ entry_slots e').
  { intros Ha. eapply (lent_unheld x n s'); [exact Hr'| |exact He']. unfold write_loans.
    rewrite fmap_app, loans_snd. set_solver. }
  assert (Hown : id ∈ entry_slots e → (ref_count s id ≤ 1)%N → id ∉ entry_slots e').
  { intros Hin Hc Hin'. pose proof (two_holders (wm s') ws ws' e e' id He2 He' Hne Hin Hin') as H2.
    assert (Hcs : ref_count s id = ref_count s' id) by (unfold ref_count; by rewrite Hrf).
    rewrite Hcs, (ref_count_mult x n s' _ id Hr') in Hc; [lia|]. apply elem_of_all_slots. eauto. }
  unfold touch_of in Hid. simpl in Hid. apply elem_of_app in Hid as [Hid|(t & -> & Ht)%list_elem_of_fmap].
  - destruct (w_state w) as [st|] eqn:Hst; [|by apply not_elem_of_nil in Hid]. apply list_elem_of_singleton in Hid as ->.
    simpl in *. destruct pr_state0 as [_ Hs]. destruct (fresh_state st) eqn:Hfs.
    + apply Htaken. rewrite (wo_whole _ _ Hok), Hst. simpl. rewrite Hfs. by left.
    + unfold fresh_state in Hfs. apply orb_false_iff in Hfs as [Hr1 Hc1%bool_decide_eq_false].
      destruct (folded e) as [old|] eqn:Hf; [|destruct Hs; congruence]. destruct Hs as [_ Hs].
      destruct (fresh || bool_decide (1 < ref_count s old)%N) eqn:Hd.
      * exfalso. apply Hc1. rewrite Hs. by eexists.
      * destruct Hs as [_ <-]. apply orb_false_iff in Hd as [_ Hd%bool_decide_eq_false].
        apply Hown; [apply elem_of_entry_slots; by left|lia].
  - destruct (target_dst t) as [d'] eqn:Hd. rewrite <-Hd in *. clear Hd d'.
    apply list_elem_of_lookup in Ht as [i Hi]. destruct (Forall2_lookup_r _ _ _ _ _ pr_buffers0 Hi) as (p & Hp & Hf).
    apply list_elem_of_lookup_2 in Hp, Hi. destruct t as [j d|j d|j src d]; simpl in *.
    + apply Htaken. rewrite (wo_whole _ _ Hok), !elem_of_app. right; left. apply list_elem_of_omap. by exists (Fresh j d).
    + destruct Hf as [-> Hc]. apply Hown; [|done]. apply elem_of_entry_slots. right. apply Hl in Hp.
      unfold lookup_page in Hp. destruct (buffer e !! j) as [[]|] eqn:Hb; simpl in Hp; try done.
      injection Hp as ->. by eapply list_elem_of_lookup_2.
    + apply Htaken. rewrite (wo_whole _ _ Hok), !elem_of_app. right; left. apply list_elem_of_omap. by exists (Cow j src d).
Qed.

(** A write fits the entry it was prepared for. *)
Lemma prepared_fits s s' e ws write_state fresh count targets w :
  prepared s e ws write_state fresh count targets w s' → (∀ i v, (i, v) ∈ targets → v = lookup_page e i) → fits e w.
Proof.
  intros [] Hl. split.
  - intros st Hst Hf. rewrite Hst in pr_state0. destruct pr_state0 as [_ Hs]. unfold fresh_state in Hf.
    apply orb_false_iff in Hf as [Hr1 Hc1%bool_decide_eq_false].
    destruct (folded e) as [old|]; [|destruct Hs; congruence]. destruct Hs as [_ Hs].
    destruct (fresh || _); [|by destruct Hs as [_ ->]]. exfalso. apply Hc1. rewrite Hs. by eexists.
  - intros t [i Hi]%list_elem_of_lookup. destruct (Forall2_lookup_r _ _ _ _ _ pr_buffers0 Hi) as (p & Hp & Hf).
    apply list_elem_of_lookup_2 in Hp. destruct t as [j d|j d|j src d]; simpl in *.
    + subst. by apply Hl in Hp.
    + destruct Hf as [-> _]. by apply Hl in Hp.
    + destruct Hf as [-> _]. by apply Hl in Hp.
  - rewrite pr_rows0. by intros row id ?%not_elem_of_nil.
Qed.

(** A call that prepares a fire of a set. *)
Definition prepares (c : call) : option RsWorkingSetId :=
  match c with
  | WriteCall (PrepareRing _ ws _) | WriteCall (PrepareGroup _ ws _ _ _ _) => Some ws
  | _ => None
  end.

(** What is known once a write of the set is prepared: it fits the set, which holds what
    it held, and shares nothing it writes. *)
Record known x n s (ws : RsWorkingSetId) (w : RsPreparedWrite) s' : Prop := {
  kn_ws : w_ws w = ws;
  kn_rows : w_snapshots w = [];
  kn_ok : write_ok x w;
  kn_ready : ∃ B, ready x n s' (write_loans w ++ B) [];
  kn_entry : ∃ e e1, wm s !! ws = Some e ∧ wm s' = <[ws := e1]> (wm s) ∧ entry_slots e1 = entry_slots e ∧
    folded e1 = folded e ∧ frozen e1 = frozen e ∧ (∀ i, lookup_page e1 i = lookup_page e i) ∧ fits e1 w ∧
    ∀ st old, w_state w = Some st → folded e = Some old →
      reset st = false ∧ (fresh_state st = true → copy_from st = Some old);
  kn_apart id : id ∈ writes (touch_of (w_state w) (w_buffers w)) →
    ∀ ws' e', ws' ≠ ws → wm s' !! ws' = Some e' → id ∉ entry_slots e';
}.

Lemma prepared_known x n s e s1 e1 s' B ws write_state fresh count targets w :
  wm s !! ws = Some e → wm s1 = <[ws := e1]> (wm s) → entry_slots e1 = entry_slots e →
  folded e1 = folded e → frozen e1 = frozen e → (∀ i, lookup_page e1 i = lookup_page e i) →
  prepared s1 e1 ws write_state fresh count targets w s' → (∀ i v, (i, v) ∈ targets → v = lookup_page e1 i) →
  ready x n s' (write_loans w ++ B) [] → write_ok x w → known x n s ws w s'.
Proof.
  intros He H1 Hsl Hf Hfr Hl Hp Ht Hr Hok. pose proof (prepared_fits _ _ _ _ _ _ _ _ _ Hp Ht) as Hfit.
  pose proof (prepared_isolated x n s1 s' B e1 ws _ _ _ _ w Hp Hr Hok Ht) as Hiso.
  destruct Hp. destruct pr_rest0 as (Hws & _). split; try done; [by eauto|].
  exists e, e1. split_and!; try done; [by rewrite Hws|].
  intros st old Hst Ho. rewrite Hst in pr_state0. destruct pr_state0 as [_ Hs]. rewrite Hf, Ho in Hs.
  destruct Hs as [Hrs Hs]. split; [done|]. intros Hfs. unfold fresh_state in Hfs. rewrite Hrs in Hfs. simpl in Hfs.
  destruct (fresh || _); [done|]. destruct Hs as [Hs _]. rewrite Hs in Hfs. done.
Qed.

Lemma not_granted w o : Prepared w ∉ grants o.
Proof. destruct o as [g|]; [intros [=]%list_elem_of_singleton|apply not_elem_of_nil]. Qed.

Lemma prepares_spec x n s c ws B out s' w :
  ready x (S n) s (lent (uses c) ++ B) [] → Forall (token_ok x) (uses c) → legal c s → prepares c = Some ws →
  perform c s = (Ok out, s') → Prepared w ∈ out → known x n s ws w s'.
Proof.
  intros Hr Hok Hl Hc Hp Hw. destruct c as [c|c|c|c]; try done. destruct c; try done; injection Hc as ->;
    cbn [uses legal perform perform_write] in *; rewrite grants_lent in Hr; apply grants_ok in Hok; destruct Hl as [Hres Hlim].
  - pose proof (prepare_ring_ready x n (s, g) ws indexes B [] ltac:(by split) Hres Hlim) as Hwp.
    unfold borrowing in Hp. unfold wp in Hwp. destruct (prepare_ring ws indexes (s, g)) as [[w'|err|] [s1 g1]]; [| |done].
    + injection Hp as <- <-. apply elem_of_app in Hw as [Hw%not_granted|Hw%list_elem_of_singleton]; [done|].
      injection Hw as ->. destruct Hwp as ([Hr1 _] & Hwo & e & Hpr). simpl in *.
      pose proof (pr_entry _ _ _ _ _ _ _ _ _ Hpr) as He.
      eapply (prepared_known x n s e s e s1 (grant_loans g1 ++ B)); try done.
      * by rewrite insert_id.
      * by destruct (ring_targets_spec s e indexes Hlim) as (_ & _ & ?).
      * eapply rs_ready_perm; [|done|exact Hr1]. solve_perm.
    + injection Hp as <- <-. rewrite app_nil_r in Hw. by apply not_granted in Hw.
  - pose proof (prepare_group_ready x n (s, g) ws write_state fresh count range B [] ltac:(by split) Hres Hlim) as Hwp.
    unfold borrowing in Hp. unfold wp in Hwp.
    destruct (prepare_group ws write_state fresh count range (s, g)) as [[w'|err|] [s1 g1]]; [| |done].
    + injection Hp as <- <-. apply elem_of_app in Hw as [Hw%not_granted|Hw%list_elem_of_singleton]; [done|].
      injection Hw as ->. destruct Hwp as ([Hr1 _] & Hwo & e & s2 & targets & He & (Hc2 & Hrf2 & Hw2) & Ht & Hpr). simpl in *.
      pose proof (rd_entries _ _ _ _ _ Hr ws e He) as Hoke.
      pose proof (buffer_targets_spec x s2 (sized e range) range (sized_ok x e range Hoke) Hlim) as Hts.
      unfold wp in Hts. rewrite Ht in Hts. destruct Hts as (_ & _ & _ & Hlook).
      eapply (prepared_known x n s e s2 (sized e range) s1 (grant_loans g1 ++ B)); try done.
      * by apply Hw2.
      * apply sized_slots.
      * unfold sized. by destruct (nonempty range) as [[]|].
      * unfold sized. by destruct (nonempty range) as [[]|].
      * apply sized_page.
      * eapply rs_ready_perm; [|done|exact Hr1]. solve_perm.
    + injection Hp as <- <-. rewrite app_nil_r in Hw. by apply not_granted in Hw.
Qed.

(** C13. A fire writes for one working set alone. Whatever a fire makes of the slots and
    pages it may write, every other working set has the entry it had and reads what it
    read: a write that is not in a slot of its own is in one that only its set holds. And
    it can be published as it is. *)
Theorem prepare_isolates {V} k s0 n s ks c ws rest out s' w :
  starts k s0 → reaches s0 n s ks → ks ≡ₚ uses c ++ rest → legal c s → S n ≤ k → prepares c = Some ws →
  perform c s = (Ok out, s') → Prepared w ∈ out →
  w_ws w = ws ∧ (∀ e, wm s' !! ws = Some e → fits e w) ∧
  ∀ (mem mem' : RsSlotId → V), (∀ id, id ∉ writes (touch_of (w_state w) (w_buffers w)) → mem' id = mem id) →
  ∀ ws' e, ws' ≠ ws → wm s !! ws' = Some e → wm s' !! ws' = Some e ∧ view mem' e = view mem e.
Proof.
  intros H0 Hre Hks Hl Hk Hc Hp Hw. destruct (rs_history_ready k s0 n s ks 1 H0 Hre ltac:(lia)) as [Hr Hok].
  rewrite Hks in Hok. apply Forall_app in Hok as [Hu _]. apply rs_lent_perm in Hks. rewrite rs_lent_app in Hks.
  apply (rs_ready_perm _ _ _ _ _ _ _ Hks (Permutation_refl _)) in Hr.
  destruct (prepares_spec _ 0 s c ws _ out s' w Hr Hu Hl Hc Hp Hw) as [K1 K2 K3 K4 (e & e1 & He & Hs' & _ & _ & _ & _ & Hf & _) K6].
  split_and!; [done| |].
  - intros e' He'. rewrite Hs', lookup_insert_eq in He'. by injection He' as <-.
  - intros mem mem' Hm ws' e' Hne He'. assert (He2 : wm s' !! ws' = Some e') by by rewrite Hs', lookup_insert_ne.
    split; [done|]. apply view_ext. intros id Hid. apply Hm. intros Hin. by eapply (K6 id Hin ws' e').
Qed.

(** *** Publishing what was prepared *)

Lemma land_out ts i : ∀ b,
  (∀ t, t ∈ ts → is_Some (taken_page t) → target_index t ≠ i) → mjoin (foldl land_target b ts !! i) = mjoin (b !! i).
Proof.
  induction ts as [|t ts IH]; intros b Hn; [done|]. simpl. rewrite IH by (intros t' Ht'; apply Hn; by right).
  unfold land_target. destruct (taken_page t) as [d|] eqn:Hd; [|done]. rewrite lookup_land_page, decide_False; [done|].
  intros ->. by apply (Hn t ltac:(by left) ltac:(by eexists)).
Qed.
Lemma land_in ts t d : ∀ b,
  NoDup (target_index <$> ts) → t ∈ ts → taken_page t = Some d →
  mjoin (foldl land_target b ts !! target_index t) = Some d.
Proof.
  induction ts as [|t0 ts IH]; intros b Hnd Ht Hd; [by apply not_elem_of_nil in Ht|]. simpl.
  csimpl in Hnd. apply NoDup_cons in Hnd as [Hn Hnd]. apply elem_of_cons in Ht as [->|Ht]; [|by apply IH].
  rewrite land_out.
  - unfold land_target. by rewrite Hd, lookup_land_page, decide_True.
  - intros t' Ht' _ Heq. apply Hn. rewrite <-Heq. by apply list_elem_of_fmap_2.
Qed.

(** What the engine copies before the fire runs. *)
Definition copies (w : RsPreparedWrite) : list (RsSlotId * RsSlotId) :=
  match w_state w with
  | Some st => (λ src, (src, slot st)) <$> option_list (copy_from st)
  | None => []
  end ++ buffer_copy_plan w.

Lemma copies_taken x w :
  NoDup (w_allocated w) → write_ok x w → NoDup (copies w).*2 ∧ ∀ id, id ∈ (copies w).*2 → id ∈ w_allocated w.
Proof.
  intros Hnd [Hw _ _ _ _ _]. rewrite Hw in Hnd.
  assert (Hsub : (copies w).*2 `sublist_of` taken_state (w_state w) ++ omap taken_page (w_buffers w)).
  { unfold copies. rewrite fmap_app. apply sublist_app.
    - destruct (w_state w) as [st|]; [|done]. simpl. unfold fresh_state.
      destruct (copy_from st) as [src|]; simpl; [|apply sublist_nil_l]. by rewrite orb_true_r.
    - unfold buffer_copy_plan. clear. induction (w_buffers w) as [|t ts IH]; [done|]. destruct t; csimpl.
      + by apply sublist_cons.
      + done.
      + by apply sublist_skip. }
  split.
  - eapply sublist_NoDup; [|exact Hsub]. rewrite app_assoc in Hnd. by apply NoDup_app in Hnd as (? & _).
  - intros id Hid. rewrite Hw, app_assoc. apply elem_of_app. left. by eapply elem_of_sublist.
Qed.

Lemma landed_contents {V} x w e1 e (mem : RsSlotId → V) :
  NoDup (w_allocated w) → write_ok x w → fits e1 w → folded e1 = folded e → (∀ i, lookup_page e1 i = lookup_page e i) →
  (∀ id, id ∈ entry_slots e → id ∉ w_allocated w) →
  (∀ st old, w_state w = Some st → folded e = Some old → reset st = false ∧ (fresh_state st = true → copy_from st = Some old)) →
  (∀ v, folded e = Some v → ∃ v', folded (landed e1 w) = Some v' ∧ carry (copies w) mem v' = mem v) ∧
  (∀ i v, lookup_page e i = Some v → ∃ v', lookup_page (landed e1 w) i = Some v' ∧ carry (copies w) mem v' = mem v).
Proof.
  intros Hnd Hok Hfit Hf Hl Hapart Hst. destruct (copies_taken x w Hnd Hok) as [Hcn Hca].
  assert (Hstay : ∀ v, v ∈ entry_slots e → carry (copies w) mem v = mem v).
  { intros v Hv. apply carry_other. intros Hin%Hca. by eapply Hapart. }
  split.
  - intros v Hv. assert (Hve : v ∈ entry_slots e) by (apply elem_of_entry_slots; by left).
    unfold landed, with_state. simpl. destruct (w_state w) as [st|] eqn:Hw; [|exists v; rewrite Hf; auto].
    exists (slot st). split; [done|]. destruct (Hst st v eq_refl Hv) as [_ Hc]. destruct (fresh_state st) eqn:Hfs.
    + apply carry_dst; [done|]. unfold copies. rewrite Hw, (Hc eq_refl). by left.
    + pose proof (fi_state _ _ Hfit st Hw Hfs) as Hs. rewrite Hf, Hv in Hs. injection Hs as <-. by apply Hstay.
  - intros i v Hv. assert (Hve : v ∈ entry_slots e).
    { apply elem_of_entry_slots. right. unfold lookup_page in Hv.
      destruct (buffer e !! i) as [[]|] eqn:Hb; simpl in Hv; try done. injection Hv as ->. by eapply list_elem_of_lookup_2. }
    unfold lookup_page, landed, with_buffer. simpl.
    destruct (decide (Exists (λ t, is_Some (taken_page t) ∧ target_index t = i) (w_buffers w))) as [Hex|Hno].
    + apply Exists_exists in Hex as (t & Ht & [d Hd] & <-). rewrite (land_in _ t d) by (done || apply Hok).
      exists d. split; [done|]. pose proof (fi_buffers _ _ Hfit t Ht) as Hfb. rewrite Hl, Hv in Hfb.
      destruct t as [j d'|j d'|j src d']; simpl in *; try done. injection Hd as ->. injection Hfb as ->.
      apply carry_dst; [done|]. unfold copies. apply elem_of_app. right. apply list_elem_of_omap. by exists (Cow j src d).
    + rewrite land_out.
      * exists v. split; [rewrite <-Hv, <-Hl; done|by apply Hstay].
      * intros t Ht Hd Heq. apply Hno, Exists_exists. eauto.
Qed.

(** Where a write lands. *)
Lemma landed_elsewhere w e1 i : i ∉ target_index <$> w_buffers w → lookup_page (landed e1 w) i = lookup_page e1 i.
Proof.
  intros Hi. unfold lookup_page, landed, with_buffer. simpl. apply land_out. intros t Ht _ <-. apply Hi.
  by apply list_elem_of_fmap_2.
Qed.
Lemma landed_places x w e1 : write_ok x w → fits e1 w →
  folded (landed e1 w) = match w_state w with Some st => Some (slot st) | None => folded e1 end ∧
  (∀ t, t ∈ w_buffers w → lookup_page (landed e1 w) (target_index t) = Some (target_dst t)) ∧
  ∀ id, id ∈ writes (touch_of (w_state w) (w_buffers w)) → id ∈ entry_slots (landed e1 w).
Proof.
  intros Hok Hfit.
  assert (L1 : folded (landed e1 w) = match w_state w with Some st => Some (slot st) | None => folded e1 end) by done.
  assert (L2 : ∀ t, t ∈ w_buffers w → lookup_page (landed e1 w) (target_index t) = Some (target_dst t)).
  { intros t Ht. unfold lookup_page, landed, with_buffer. simpl. destruct (taken_page t) as [d|] eqn:Hd.
    - rewrite (land_in _ t d) by (done || apply Hok). destruct t; by simplify_eq/=.
    - rewrite land_out.
      + pose proof (fi_buffers _ _ Hfit t Ht) as Hf. by destruct t.
      + intros t' Ht' [d Hd'] Heq. enough (t' = t) by congruence.
        apply list_elem_of_lookup in Ht as [i Hi], Ht' as [j Hj].
        enough (j = i) by congruence. eapply NoDup_lookup; [apply (wo_indexes _ _ Hok)|rewrite list_lookup_fmap, Hj; simpl; by rewrite Heq|by rewrite list_lookup_fmap, Hi]. }
  split_and!; [done..|]. intros id. unfold touch_of. simpl. rewrite elem_of_app, elem_of_entry_slots, L1.
  intros [Hid|(t & -> & Ht)%list_elem_of_fmap].
  - destruct (w_state w) as [st|]; [|by apply not_elem_of_nil in Hid]. apply list_elem_of_singleton in Hid as ->. by left.
  - right. specialize (L2 t Ht). unfold lookup_page in L2. destruct (buffer (landed e1 w) !! target_index t) as [[]|] eqn:Hb; simpl in L2; try done.
    injection L2 as ->. by eapply list_elem_of_lookup_2.
Qed.

Lemma rows_land_none m m' ws g at_ snaps : rows_land m m' ws g at_ [] snaps → m' = m.
Proof.
  intros []. destruct snaps; [|done]. apply map_eq. intros j. destruct (m' !! j) as [e'|] eqn:Hj.
  - destruct (rl_dom0 j ltac:(by eexists)) as [[e'' Hj']|Hn]; [|by apply not_elem_of_nil in Hn].
    rewrite Hj', <-Hj. by apply (lookup_weaken _ m') in Hj'.
  - destruct (m !! j) as [e''|] eqn:Hj'; [|done]. by rewrite (lookup_weaken _ m' _ _ Hj' rl_old0) in Hj.
Qed.

(** What a write drew is distinct, and in no set. *)
Lemma drawn_fresh x n s B w :
  ready x n s (write_loans w ++ B) [] →
  NoDup (w_allocated w) ∧ ∀ ws e id, wm s !! ws = Some e → id ∈ entry_slots e → id ∉ w_allocated w.
Proof.
  intros Hr. split.
  - pose proof (rs_NoDup_universe s) as Hnd. rewrite (rd_extents _ _ _ _ _ Hr) in Hnd.
    specialize (Hnd (rd_layout _ _ _ _ _ Hr)). rewrite <-(rd_whole _ _ _ _ _ Hr) in Hnd.
    apply NoDup_app in Hnd as [Hnd _]. unfold write_loans in Hnd. rewrite fmap_app, loans_snd in Hnd.
    by apply NoDup_app in Hnd as [Hnd _].
  - intros ws e id He Hid Ha. eapply (lent_unheld x n s _ ws e id Hr); [|done|done].
    unfold write_loans. rewrite fmap_app, loans_snd. set_solver.
Qed.

(** A write that is known is published. *)
Lemma publish_known x n s ws w s' :
  known x n s ws w s' → ∃ r s2 e1, publish_batch [w] s' = (Ok r, s2) ∧ wm s' !! ws = Some e1 ∧
    wm s2 = <[ws := landed e1 w]> (wm s').
Proof.
  intros [K1 K2 K3 [B K4] (e & e1 & He & Hs' & _ & _ & _ & _ & Hfit & _) _].
  assert (He1 : wm s' !! ws = Some e1) by by rewrite Hs', lookup_insert_eq.
  assert (Hb : ready x (batch_rows [w] + n) s' (batch_loans [w] ++ B) []).
  { unfold batch_rows, batch_loans. simpl. by rewrite K2, app_nil_r. }
  assert (Hall : ∀ w', w' ∈ [w] → ∃ e, wm s' !! w_ws w' = Some e ∧ fits e w').
  { intros w' ->%list_elem_of_singleton. rewrite K1. eauto. }
  pose proof (publish_loop_ready x n [w] s' B [] Hb ltac:(by apply Forall_singleton) ltac:(apply NoDup_singleton) Hall) as Hp.
  assert (Hv : validate [] [w] s' = (Ok tt, s')).
  { cbn [validate]. unfold mthen at 1. rewrite K1, (entry_get x n s' _ [] ws e1 K4 He1).
    rewrite decide_False by apply not_elem_of_nil. done. }
  unfold wp in Hp. unfold publish_batch, catch, mthen. rewrite Hv.
  destruct (publish_loop [w] s') as [[r|err|] s2]; [|done..].
  destruct Hp as (_ & _ & Hlands & _).
  eexists _, s2, e1. split_and!; [done..|]. inversion Hlands as [|m m1 m2 w' ws' e' snaps snaps' He' Hland Hrest]; subst.
  rewrite He1 in He'. injection He' as <-. inversion Hrest; subst.
  destruct Hland as (m1' & Hrows & ->). f_equal. rewrite K2 in Hrows. by eapply rows_land_none.
Qed.

(** C14. Copy on write keeps what a set holds. A prepared write can be published at once;
    the other sets have then what they had. The state and the pages the fire writes are
    where the set then has them, in slots that no other set holds; outside the write the set
    has the very slots it had. And wherever it held a state or a page it holds one that
    reads, once the copies the write asks for are made, what that read before, shared or
    not. *)
Theorem fire_copies_on_write {V} k s0 n s ks c ws rest out s' w (mem : RsSlotId → V) :
  starts k s0 → reaches s0 n s ks → ks ≡ₚ uses c ++ rest → legal c s → S n ≤ k → prepares c = Some ws →
  perform c s = (Ok out, s') → Prepared w ∈ out →
  ∃ r s2 e e2, publish_batch [w] s' = (Ok r, s2) ∧ wm s !! ws = Some e ∧ wm s2 = <[ws := e2]> (wm s) ∧
    frozen e2 = frozen e ∧
    (∀ id, id ∈ writes (touch_of (w_state w) (w_buffers w)) →
       id ∈ entry_slots e2 ∧ ∀ ws' e', ws' ≠ ws → wm s2 !! ws' = Some e' → id ∉ entry_slots e') ∧
    folded e2 = match w_state w with Some st => Some (slot st) | None => folded e end ∧
    (∀ t, t ∈ w_buffers w → lookup_page e2 (target_index t) = Some (target_dst t)) ∧
    (∀ i, i ∉ target_index <$> w_buffers w → lookup_page e2 i = lookup_page e i) ∧
    (∀ v, folded e = Some v → ∃ v', folded e2 = Some v' ∧ carry (copies w) mem v' = mem v) ∧
    (∀ i v, lookup_page e i = Some v → ∃ v', lookup_page e2 i = Some v' ∧ carry (copies w) mem v' = mem v).
Proof.
  intros H0 Hre Hks Hl Hk Hc Hp Hw. destruct (rs_history_ready k s0 n s ks 1 H0 Hre ltac:(lia)) as [Hr Hok].
  rewrite Hks in Hok. apply Forall_app in Hok as [Hu _]. apply rs_lent_perm in Hks. rewrite rs_lent_app in Hks.
  apply (rs_ready_perm _ _ _ _ _ _ _ Hks (Permutation_refl _)) in Hr.
  pose proof (prepares_spec _ 0 s c ws _ out s' w Hr Hu Hl Hc Hp Hw) as Hkn.
  destruct (publish_known _ _ _ _ _ _ Hkn) as (r & s2 & e1' & Hb & He1 & Hs2).
  destruct Hkn as [K1 K2 K3 [B K4] (e & e1 & He & Hs' & Hsl & Hf & Hfr & Hlk & Hfit & Hst) K6].
  rewrite Hs', lookup_insert_eq in He1. injection He1 as <-.
  destruct (drawn_fresh _ _ _ _ _ K4) as [Hnd Hfresh].
  destruct (landed_contents _ w e1 e mem Hnd K3 Hfit Hf Hlk) as [C1 C2]; [|exact Hst|].
  { intros id Hid. apply (Hfresh ws e1); [by rewrite Hs', lookup_insert_eq|by rewrite Hsl]. }
  destruct (landed_places _ w e1 K3 Hfit) as (L1 & L2 & L3).
  exists r, s2, e, (landed e1 w). split_and!; try done.
  - by rewrite Hs2, Hs', insert_insert_eq.
  - intros id Hid. split; [by apply L3|]. intros ws' e' Hne. rewrite Hs2, lookup_insert_ne by done. by apply K6.
  - by rewrite L1, Hf.
  - intros i Hi. rewrite <-Hlk. by apply landed_elsewhere.
Qed.

(** ** Moves *)

Lemma swap_moves_view {V} (mem : RsSlotId → V) sc ms : ∀ m ws e,
  (∀ p, p ∈ ms → mem p.2 = mem p.1) → m !! ws = Some e →
  ∃ e', swap_moves sc m ms !! ws = Some e' ∧ view mem e' = view mem e.
Proof.
  induction ms as [|p ms IH]; intros m ws e Hm He; [by exists e|].
  unfold swap_moves. cbn [foldl]. fold (swap_moves sc (swap_held sc m p) ms).
  assert (Hstep : ∃ e1, swap_held sc m p !! ws = Some e1 ∧ view mem e1 = view mem e).
  { unfold swap_held. case_decide; [by exists e|]. exists (swap_entry p.1 p.2 e). split.
    - unfold swap_map. by rewrite lookup_fmap, He.
    - apply view_swap, Hm. by left. }
  destruct Hstep as (e1 & He1 & Hv1). destruct (IH _ ws e1 ltac:(intros q Hq; apply Hm; by right) He1) as (e' & He' & Hv').
  exists e'. split; [done|congruence].
Qed.

Lemma swap_moves_dom sc ms : ∀ m, dom (swap_moves sc m ms) = dom m.
Proof.
  induction ms as [|p ms IH]; intros m; [done|].
  unfold swap_moves. cbn [foldl]. fold (swap_moves sc (swap_held sc m p) ms). rewrite IH.
  unfold swap_held. case_decide; [done|]. unfold swap_map. apply dom_fmap_L.
Qed.

(** The move a call commits, and whether it leaves the device. *)
Definition commits (c : call) : option (bool * RsResidencyTxn) :=
  match c with
  | MoveCall (CommitSuspend t) => Some (true, t)
  | MoveCall (CommitRestore t) => Some (false, t)
  | _ => None
  end.

Lemma commits_spec x n s c out t B tokens s' :
  ready x (cost c + n) s (lent (uses c) ++ B) [] → Forall (token_ok x) (uses c) → legal c s → commits c = Some (out, t) →
  perform c s = (Ok tokens, s') →
  ready x n s' B [] ∧
  wm s' = swap_moves (scope t) (wm s) (moves t) ∧ inflight s' = inflight s ∧ checkpoints s' = checkpoints s.
Proof.
  intros Hr Hok Hl Hc Hp. destruct c as [c|c|c|c]; try done. destruct c as [| t' | | | t' | ]; try done; injection Hc as <- ->;
    cbn [uses legal perform perform_move cost] in *; rewrite lent_one in Hr; rewrite Forall_singleton in Hok;
    unfold plain, handing in Hp.
  - pose proof (rs_commit_suspend_ready x n t s B Hr Hok Hl) as Hw. unfold wp in Hw.
    destruct (commit_suspend t s) as [[a|err|] s1]; [|done..]. injection Hp as _ <-.
    by destruct Hw as (? & (_ & ? & ? & _) & ? & _).
  - pose proof (rs_commit_restore_ready x n t s B Hr Hok Hl) as Hw. unfold wp in Hw.
    destruct (commit_restore t s) as [[a|err|] s1]; [|done..]. injection Hp as _ <-.
    by destruct Hw as (? & (_ & ? & ? & _) & ?).
Qed.

(** *** The engine's memory

    It has states and pages, on the device and on the host, and knows each by its number. *)

Definition Memory (V : Type) : Type := bool → bool → N → V.
(** What is in a slot: on the host or not, a page or a state. *)
Definition at_slot {V} s (m : Memory V) (id : RsSlotId) : V := m (is_host s id) (is_page s id) (engine_id s id).

Lemma at_slot_extents {V} s s' (m : Memory V) id : extents s' = extents s → at_slot s' m id = at_slot s m id.
Proof. intros Hx. unfold at_slot. destruct (place_extents s s' id Hx) as [-> ->]. by rewrite (engine_id_extents s s'). Qed.

(** Numbered places copied, all at once. *)
Definition copied {V} (pairs : list (N * N)) (src dst : N → V) : N → V := λ n,
  match filter (λ p, p.2 = n) pairs with
  | p :: _ => src p.1
  | [] => dst n
  end.
(** The engine copies as a plan tells it: the first of a pair is on the device, the second on
    the host. *)
Definition run_plan {V} (out : bool) (plan : RsCopyPlan) (m : Memory V) : Memory V := λ host page,
  let pairs := if page then p_pages plan else p_slots plan in
  if eqb host out then copied (if out then pairs else (λ p, (p.2, p.1)) <$> pairs) (m (negb host) page) (m host page)
  else m host page.

Lemma filter_fmap_iff {A C} (g : A → C) (P : A → Prop) (Q : C → Prop) (R : A → Prop)
    `{∀ x, Decision (P x), ∀ x, Decision (Q x), ∀ x, Decision (R x)} (l : list A) :
  (∀ a, a ∈ l → P a ∧ Q (g a) ↔ R a) → filter Q (g <$> filter P l) = g <$> filter R l.
Proof.
  induction l as [|a l IH]; intros Hl; [done|]. specialize (IH ltac:(intros b Hb; apply Hl; by right)).
  pose proof (Hl a ltac:(by left)) as Ha. rewrite !filter_cons.
  destruct (decide (P a)), (decide (R a)); csimpl; rewrite ?filter_cons, ?IH;
    try destruct (decide (Q (g a))); try done; tauto.
Qed.

(** The numbers of a kind, side by side. *)
Lemma pairs_told x (out : bool) (page : bool) ms :
  (if out then (if page then p_pages (plan_at x out ms) else p_slots (plan_at x out ms))
   else (λ p, (p.2, p.1)) <$> (if page then p_pages (plan_at x out ms) else p_slots (plan_at x out ms))) =
  (λ m, (numbered x m.1, numbered x m.2)) <$> filter (λ m : RsSlotId * RsSlotId, bool_decide (paged x m.1) = page) ms.
Proof.
  assert (Hf : filter (λ m : RsSlotId * RsSlotId, bool_decide (paged x m.1) = page) ms =
    if page then filter (λ m : RsSlotId * RsSlotId, paged x m.1) ms else filter (λ m : RsSlotId * RsSlotId, ¬ paged x m.1) ms).
  { destruct page; apply list_filter_iff; intros m; [by rewrite bool_decide_eq_true|by rewrite bool_decide_eq_false]. }
  rewrite Hf. unfold plan_at, told_pair. by destruct out, page; simpl; rewrite <-?list_fmap_compose.
Qed.

(** Two slots of one side and kind with the same number are one. *)
Lemma same_place s id id' :
  layout_ok (extents s) → exists_in (extents s) id → exists_in (extents s) id' →
  is_host s id = is_host s id' → is_page s id = is_page s id' → engine_id s id = engine_id s id' → id = id'.
Proof.
  intros Hl H1 H2 Hh Hp He. rewrite !engine_id_numbered in He by done.
  pose proof (is_host_spec s id Hl H1) as A1. pose proof (is_host_spec s id' Hl H2) as A2.
  pose proof (is_page_spec s id Hl H1) as B1. pose proof (is_page_spec s id' Hl H2) as B2.
  rewrite Hh in A1. rewrite Hp in B1. rewrite A2 in A1. rewrite B2 in B1. clear A2 B2 Hh Hp.
  destruct id as [i], id' as [j], Hl. f_equal. unfold exists_in, hosted, paged, within, numbered in *. simpl in *.
  repeat case_decide; lia.
Qed.

Lemma engine_carries {V} s out ms (m : Memory V) id :
  layout_ok (extents s) → exists_in (extents s) id →
  Forall (λ p : RsSlotId * RsSlotId, if out : bool then move_ok (extents s) p.1 p.2 else move_ok (extents s) p.2 p.1) ms →
  at_slot s (run_plan out (plan_at (extents s) out ms) m) id = carry ms (at_slot s m) id.
Proof.
  intros Hl Hid Hms. rewrite Forall_forall in Hms.
  assert (Hp : ∀ a b, (a, b) ∈ ms → exists_in (extents s) a ∧ exists_in (extents s) b ∧ is_host s a = negb out ∧
    is_host s b = out ∧ is_page s a = is_page s b ∧ bool_decide (paged (extents s) a) = is_page s b).
  { intros a b Hin. specialize (Hms _ Hin). simpl in Hms.
    assert (Hex : exists_in (extents s) a ∧ exists_in (extents s) b).
    { destruct out; destruct Hms as [_ Hh _ Hd]; split; try done; destruct Hh; unfold exists_in; tauto. }
    destruct Hex as [Ha Hb]. split; [done|]. split; [done|].
    pose proof (is_host_spec s a Hl Ha) as A1. pose proof (is_host_spec s b Hl Hb) as A2.
    pose proof (is_page_spec s a Hl Ha) as B1. pose proof (is_page_spec s b Hl Hb) as B2.
    destruct (bool_decide_reflect (paged (extents s) a));
      destruct out, Hms, (is_host s a), (is_host s b), (is_page s a), (is_page s b); naive_solver. }
  unfold at_slot at 1, run_plan, carry. rewrite pairs_told.
  assert (Hnum : Forall (λ p, engine_id s p.1 = numbered (extents s) p.1 ∧ engine_id s p.2 = numbered (extents s) p.2) ms).
  { apply Forall_forall. intros [a b] (Ha & Hb & _)%Hp. by rewrite !engine_id_numbered. }
  destruct (eqb (is_host s id) out) eqn:Hside.
  - apply eqb_prop in Hside. unfold copied.
    rewrite (filter_fmap_iff _ _ _ (λ p : RsSlotId * RsSlotId, p.2 = id)).
    + destruct (filter _ ms) as [|[a b] l] eqn:Hf; [done|].
      assert (Hin : (a, b) ∈ filter (λ p, p.2 = id) ms) by (rewrite Hf; by left).
      apply list_elem_of_filter in Hin as [<- Hin]. simpl in *. destruct (Hp a b Hin) as (Ha & Hb & Hha & Hhb & Hpp & _).
      unfold at_slot. rewrite Hha, Hhb, Hpp, <-engine_id_numbered by done. done.
    + intros [a b] Hin. destruct (Hp a b Hin) as (Ha & Hb & Hha & Hhb & Hpp & Hpd). simpl. rewrite Hpd.
      rewrite <-engine_id_numbered by done. split.
      * intros [H1 H2]. apply (same_place s); try done. congruence.
      * by intros ->.
  - rewrite filter_none; [done|]. apply Forall_forall. intros [a b] Hin Heq. simpl in Heq. subst b.
    destruct (Hp a id Hin) as (_ & _ & _ & Hh & _). rewrite Hh in Hside. by rewrite eqb_reflx in Hside.
Qed.

(** C15. A move keeps what working sets hold. When a suspend or a restore is committed after
    the engine copied what its plan tells, number by number, from the device to the host or
    back, every working set reads what it read before, each slot where it is now; no set
    comes or goes, and the checkpoints and the fires in flight are left alone. *)
Theorem moves_keep_contents {V} k s0 n s ks c out t rest tokens s' (m : Memory V) :
  starts k s0 → reaches s0 n s ks → ks ≡ₚ uses c ++ rest → legal c s → n ≤ k → commits c = Some (out, t) →
  perform c s = (Ok tokens, s') →
  dom (wm s') = dom (wm s) ∧ inflight s' = inflight s ∧ checkpoints s' = checkpoints s ∧
  ∀ ws e, wm s !! ws = Some e → ∃ e', wm s' !! ws = Some e' ∧
    view (at_slot s' (run_plan out (plan t) m)) e' = view (at_slot s m) e.
Proof.
  intros H0 Hre Hks Hl Hk Hc Hp. destruct (rs_history_ready k s0 n s ks 0 H0 Hre ltac:(lia)) as [Hr Hok].
  rewrite Hks in Hok. apply Forall_app in Hok as [Hu _]. apply rs_lent_perm in Hks. rewrite rs_lent_app in Hks.
  apply (rs_ready_perm _ _ _ _ _ _ _ Hks (Permutation_refl _)) in Hr.
  pose proof (rd_extents _ _ _ _ _ Hr) as Hx. pose proof (rd_layout _ _ _ _ _ Hr) as Hlay. rewrite <-Hx in *. clear Hx.
  assert (Hcost : cost c = 0) by (destruct c as [c|c|c|c]; try done; by destruct c).
  destruct (commits_spec _ 0 s c out t (lent rest) tokens s' ltac:(by rewrite Hcost) Hu Hl Hc Hp) as (Hr' & Hw & Hi & Hck).
  assert (Hmv : lent (uses c) = txn_loans t ∧ plan t = plan_at (extents s) out (moves t) ∧
    Forall (λ p : RsSlotId * RsSlotId, if out then move_ok (extents s) p.1 p.2 else move_ok (extents s) p.2 p.1) (moves t)).
  { destruct c as [c|c|c|c]; try done. destruct c; try done; injection Hc as <- ->; cbn [uses] in Hu |- *;
      rewrite lent_one; rewrite Forall_singleton in Hu; by destruct Hu. }
  destruct Hmv as (Hl1 & Hplan & Hmv). rewrite Hl1 in Hr.
  assert (Hmix : ∀ d, d ∈ (moves t).*1 → d ∉ (moves t).*2).
  { rewrite Forall_forall in Hmv.
    intros d ([d1 h1] & -> & H1)%list_elem_of_fmap ([d2 h2] & Heq & H2)%list_elem_of_fmap. simpl in *. subst h2.
    specialize (Hmv _ H1) as M1. specialize (Hmv _ H2). destruct out; by destruct M1, Hmv. }
  assert (Hnd : NoDup (moves t).*2 ∧ ∀ ws e id, wm s !! ws = Some e → id ∈ entry_slots e → id ∉ (moves t).*2).
  { split.
    - pose proof (rs_NoDup_universe s Hlay) as Hnd. rewrite <-(rd_whole _ _ _ _ _ Hr) in Hnd.
      apply NoDup_app in Hnd as [Hnd _]. unfold txn_loans in Hnd. rewrite fmap_app, loans_snd in Hnd.
      by apply NoDup_app in Hnd as [Hnd _].
    - intros ws e id He Hid Ha. eapply (lent_unheld _ 0 s _ ws e id Hr); [|done|done].
      unfold txn_loans. rewrite fmap_app, loans_snd. set_solver. }
  destruct Hnd as [Hnd Hap]. set (mem := at_slot s m).
  assert (Hcar : ∀ p, p ∈ moves t → carry (moves t) mem p.2 = carry (moves t) mem p.1).
  { intros [d h] Hin. simpl. rewrite (carry_dst _ _ d h Hnd Hin). symmetry. apply carry_other, Hmix.
    by apply (list_elem_of_fmap_2 fst _ (d, h)). }
  split_and!; [|done|done|].
  - rewrite Hw. apply swap_moves_dom.
  - intros ws e He. rewrite Hw. destruct (swap_moves_view (carry (moves t) mem) (scope t) (moves t) (wm s) ws e Hcar He) as (e' & He' & Hv).
    exists e'. split; [done|]. transitivity (view (carry (moves t) mem) e').
    + apply view_ext. intros id Hid. rewrite Hplan, (at_slot_extents s s') by apply Hr'. apply engine_carries; [done| |done].
      rewrite <-Hw in He'. apply (ref_exists _ _ _ _ _ id Hr'), (ref_held _ _ _ _ _ id Hr'), elem_of_app. left.
      apply elem_of_all_slots. eauto.
    + rewrite Hv. apply view_ext. intros id Hid. apply carry_other. by eapply Hap.
Qed.
End share.
End RsShare.
