(* ===== verification/RsCalls.v ===== *)
(** What single calls of the recurrent-state store do: folding, advancing a ring, keeping
    and adopting a checkpoint, giving the cache up, and beginning a move. *)
From S2P Require Import Prelude Ids Store Pool KvTable KvStore Hoare RsStore RsBooks RsKeep RsWrites RsPublish RsMoves RsWorld.

Module RsCalls.
Import KvTable RsStore RsBooks RsKeep RsWrites RsPublish RsMoves RsWorld.

Section calls.
Context {WS : Type → Type}.
Context `{!KeyedStore RsWorkingSetId WS, !KeyedStoreLaws RsWorkingSetId WS}.
Abbreviation store := (RsStore WS).
Abbreviation sm := (method store RsError).
Implicit Types s : store.
Abbreviation wm s := (st_map (working_sets s)).

(** A call of a history, with what it starts from. *)
Lemma rs_history_call k s0 n s ks c rest m :
  starts k s0 → reaches s0 n s ks → ks ≡ₚ uses c ++ rest → cost c + m + n ≤ k →
  ready (extents s0) (cost c + m) s (lent (uses c) ++ lent rest) [] ∧ Forall (token_ok (extents s0)) (uses c).
Proof.
  intros H0 Hre Hks Hk. destruct (rs_history_ready k s0 n s ks (cost c + m) H0 Hre ltac:(lia)) as [Hr Hok].
  rewrite Hks in Hok. apply Forall_app in Hok as [Hu _]. apply rs_lent_perm in Hks. rewrite rs_lent_app in Hks.
  split; [|done]. by apply (rs_ready_perm _ _ _ _ _ _ _ Hks (Permutation_refl _)) in Hr.
Qed.

Lemma plain_ok {A} (m : sm A) Q s out s' :
  plain m s = (Ok out, s') → wp m (λ _, Q) (λ _ _, False) s → out = [] ∧ Q s'.
Proof. unfold plain, handing, wp. destruct (m s) as [[a|e|] s1]; [|done..]. by intros [= <- <-]. Qed.

(** ** Folding *)

(** A token's page in a buffer: where the buffer begins, page after page. *)
Definition page_of (e : RsEntry) (pos : N) : option RsSlotId :=
  if decide (base e ≤ pos)%N then lookup_page e (N.to_nat ((pos - base e) / N.max (buffer_page_tokens (geom e)) 1))
  else None.

Lemma page_of_fold e count pos :
  (base e ≤ frozen e)%N → (frozen e ≤ u32_max)%N → (sat_add u32_max (frozen e) count ≤ pos)%N →
  page_of (fold_entry e count) pos = page_of e pos.
Proof.
  intros Hb Hf Hp. set (page := N.max (buffer_page_tokens (geom e)) 1). assert (Hpg : (page ≠ 0)%N) by (unfold page; lia).
  assert (Hfr : (frozen e ≤ sat_add u32_max (frozen e) count)%N) by (unfold sat_add; lia).
  unfold page_of. simpl. fold page.
  set (d := folded_pages e count).
  assert (Hd : d = N.to_nat ((sat_add u32_max (frozen e) count - base e) / page) `min` length (buffer e)) by done.
  assert (Hle : (N.of_nat d * page ≤ sat_add u32_max (frozen e) count - base e)%N).
  { pose proof (N.Div0.mul_div_le (sat_add u32_max (frozen e) count - base e) page).
    assert (N.of_nat d ≤ (sat_add u32_max (frozen e) count - base e) / page)%N by lia. nia. }
  rewrite (decide_True (P := (base e ≤ pos)%N)) by lia.
  assert (Hnone : drop d (buffer e) = [] → lookup_page e (N.to_nat ((pos - base e) / page)) = None).
  { intros Hnil. apply (f_equal length) in Hnil. rewrite length_drop in Hnil. simpl in Hnil. unfold lookup_page.
    rewrite lookup_ge_None_2; [done|].
    assert ((sat_add u32_max (frozen e) count - base e) / page ≤ (pos - base e) / page)%N by (apply N.Div0.div_le_mono; lia).
    lia. }
  destruct (decide (drop d (buffer e) = [])) as [Hnil|Hne].
  - rewrite decide_True by done. rewrite Hnone by done. unfold lookup_page, fold_entry. simpl. fold d. by rewrite Hnil.
  - rewrite decide_True by lia. unfold lookup_page, fold_entry. simpl. fold d. rewrite lookup_drop. do 2 f_equal.
    replace (pos - base e)%N with (pos - (base e + N.of_nat d * page) + N.of_nat d * page)%N by lia.
    rewrite N.div_add by done. lia.
Qed.

(** A fold moves the boundary and nothing that is still ahead of it. What is frozen
    grows by the count, up to 32 bits; a position at or past the new boundary is in the
    page it was in, though the buffer begins later; and no other set, fire or checkpoint
    changes. *)
Theorem fold_correct k s0 n s ks ws count out s' :
  starts k s0 → reaches s0 n s ks → n ≤ k → perform (SetCall (FoldSet ws count)) s = (Ok out, s') →
  calm s s' ∧ (∀ ws', ws' ≠ ws → wm s' !! ws' = wm s !! ws') ∧
  ∀ e, wm s !! ws = Some e → ∃ e', wm s' !! ws = Some e' ∧ geom e' = geom e ∧ folded e' = folded e ∧
    ring_state e' = ring_state e ∧ frozen e' = N.min (frozen e + count) u32_max ∧ (base e ≤ base e' ≤ frozen e')%N ∧
    ∀ pos, (frozen e' ≤ pos)%N → page_of e' pos = page_of e pos.
Proof.
  intros H0 Hre Hk Hp. destruct (rs_history_call k s0 n s ks (SetCall (FoldSet ws count)) ks 0 H0 Hre ltac:(done) ltac:(simpl; lia)) as [Hr _].
  simpl in Hr. pose proof (rs_fold_ready _ 0 s ws count _ [] Hr) as Hw. cbn [perform perform_set] in Hp.
  destruct (plain_ok _ (λ s', calm s s' ∧ wm s' = match wm s !! ws with Some e => <[ws := fold_entry e count]> (wm s) | None => wm s end)
    s out s' Hp) as [_ [Hc Hm]].
  { eapply wp_mono; [exact Hw| |done]. naive_solver. }
  split_and!; [done| |].
  - intros ws' Hne. rewrite Hm. destruct (wm s !! ws); [by rewrite lookup_insert_ne|done].
  - intros e He. rewrite He in Hm. pose proof (rd_entries _ _ _ _ _ Hr ws e He) as Hok.
    destruct (fold_entry_ok _ e count Hok) as [[_ _ _ Hb' _] _]. destruct Hok as [_ _ _ Hb Hf].
    exists (fold_entry e count). split_and!; [by rewrite Hm, lookup_insert_eq|done..| | | |].
    + simpl. unfold sat_add. lia.
    + simpl. case_decide; [unfold sat_add; lia|lia].
    + exact Hb'.
    + intros pos Hpos. by apply page_of_fold.
Qed.

(** ** Rings *)

Lemma elem_of_pages_behind order from to page :
  page ∈ pages_behind order from to ↔ ∃ i, order !! i = Some page ∧ (from ≤ N.of_nat i < to)%N.
Proof.
  unfold pages_behind. rewrite list_elem_of_lookup. split.
  - intros [j Hj]. rewrite lookup_drop in Hj. apply lookup_take_Some in Hj as [Hj Hlt].
    apply lookup_lt_Some in Hj as Hl. eexists. split; [exact Hj|]. lia.
  - intros (i & Hi & Hle). apply lookup_lt_Some in Hi as Hl. exists (i - N.to_nat from `min` length order).
    rewrite lookup_drop. apply lookup_take_Some. replace (_ + _) with i by lia. split; [done|lia].
Qed.

(** Where the window of a ring begins, in pages of the sequence. *)
Definition window_at (g : RingGeometry) (reach : N) : N := ((reach - tokens g) / N.max (page_size g) 1)%N.

(** Advancing a ring gives back what has fallen behind its window, and no more. Of the
    pages in sequence order, those between the old mark and the new are gone, every other
    page is as it was; the mark never goes back; and the page of any token within the
    window of what the ring reaches is not behind it. *)
Theorem ring_advance_correct k s0 n s ks ws a order g r e out s' :
  starts k s0 → reaches s0 n s ks → n ≤ k → ring s = Some g → wm s !! ws = Some e → ring_state e = Some r →
  perform (SetCall (AdvanceRing ws a order)) s = (Ok out, s') →
  ∃ e' r', wm s' = <[ws := e']> (wm s) ∧ ring_state e' = Some r' ∧
    committed r' = committed (advance_ring r a) ∧ head r' = default (head r) (new_head a) ∧
    retired r' = N.max (retired r) (window_at g (if positioned a then committed r' else reach a)) ∧
    (∀ page, lookup_page e' page =
       if decide (page ∈ pages_behind order (retired r) (retired r')) then None else lookup_page e page) ∧
    (∀ page, page ∈ pages_behind order (retired r) (retired r') ↔
       ∃ i, order !! i = Some page ∧ (retired r ≤ N.of_nat i < retired r')%N) ∧
    ∀ pos, (pos < (if positioned a then committed r' else reach a) ≤ pos + tokens g)%N →
      (retired r' ≤ N.max (retired r) (pos / N.max (page_size g) 1))%N.
Proof.
  intros H0 Hre Hk Hg He Hrs Hp.
  destruct (rs_history_call k s0 n s ks (SetCall (AdvanceRing ws a order)) ks 0 H0 Hre ltac:(done) ltac:(simpl; lia)) as [Hr _].
  simpl in Hr. pose proof (ring_advance_ready _ 0 s ws a order _ [] Hr ltac:(by eexists)) as Hw. cbn [perform perform_set] in Hp.
  destruct (plain_ok _ (λ s', wm s' = <[ws := mkEntry (geom e) (folded e) (take_pages (advance_behind g r a order) (buffer e)).2
    (base e) (frozen e) (Some (advanced_ring g r a))]> (wm s)) s out s' Hp) as [_ Hm].
  { eapply wp_mono; [exact Hw| |done]. intros [] s1 (_ & _ & Hall). by rewrite (Hall e He), Hg, Hrs. }
  eexists _, (advanced_ring g r a). split_and!; [exact Hm|done|..].
  - unfold advanced_ring. by case_decide.
  - unfold advanced_ring, advance_ring. case_decide; simpl; by destruct (new_head a).
  - unfold advanced_ring. case_decide as Hd; unfold ring_first, window_at in *; simpl in *; lia.
  - intros page. destruct (take_pages (advance_behind g r a order) (buffer e)) as [dropped b] eqn:Ht.
    destruct (take_pages_spec _ _ _ _ Ht) as (_ & _ & Hl). unfold lookup_page. simpl. rewrite Hl.
    assert (Hb : page ∈ advance_behind g r a order ↔ page ∈ pages_behind order (retired r) (retired (advanced_ring g r a))).
    { unfold advance_behind, advanced_ring. case_decide as Hd; simpl; [|done].
      rewrite elem_of_pages_behind. split; [by intros ?%not_elem_of_nil|intros (i & _ & ?); lia]. }
    repeat case_decide; try tauto. by destruct (buffer e !! page).
  - intros page. apply elem_of_pages_behind.
  - intros pos Hpos. assert (Hrt : retired (advanced_ring g r a) =
      N.max (retired r) (window_at g (if positioned a then committed (advanced_ring g r a) else reach a))).
    { unfold advanced_ring. case_decide as Hd; unfold ring_first, window_at in *; simpl in *; lia. }
    rewrite Hrt. apply N.max_le_compat_l. unfold window_at. apply N.Div0.div_le_mono. lia.
Qed.

(** ** Checkpoints *)

(** What a set holds is settled, or not, by its slots and the fires. *)
Lemma unsettled_same x n n' s s' B H B' H' ws ws' e :
  ready x n s B H → ready x n' s' B' H' → inflight s' = inflight s → wm s !! ws = Some e → wm s' !! ws' = Some e →
  unsettled s' ws' = unsettled s ws.
Proof.
  intros Hr Hr' Hi He He'. unfold unsettled. rewrite (get_spec _ _ _ _ _ _ Hr), (get_spec _ _ _ _ _ _ Hr'), He, He'.
  assert (Hb : busy_slots s' = busy_slots s) by (unfold busy_slots; by rewrite Hi). by rewrite Hb.
Qed.

(** What is kept can be adopted. When a checkpoint of a working set is kept under a key,
    any set that holds nothing can adopt it at once, and has then the state, the pages and
    the positions of the set that was kept, with its own geometry and ring; the set that
    was kept has what it had; and the two share: each slot is held once more than the
    keeping left it. *)
Theorem checkpoint_adopt k s0 n s ks ws key o now now' s1 ws' e' :
  starts k s0 → reaches s0 n s ks → 2 + n ≤ k → checkpoint ws key o now s = (Ok true, s1) →
  ¬ hidden s ws → wm s1 !! ws' = Some e' → entry_slots e' = [] →
  ∃ s2 e, adopt_checkpoint ws' key now' s1 = (Ok true, s2) ∧ wm s !! ws = Some e ∧ wm s1 !! ws = Some e ∧
    wm s2 = <[ws' := adopted e' e]> (wm s1) ∧
    ∀ id, id ∈ entry_slots e → mult id (all_slots (wm s2)) = S (mult id (all_slots (wm s1))).
Proof.
  intros H0 Hre Hk Hc Hh He' Hnil. destruct (rs_history_ready k s0 n s ks 2 H0 Hre ltac:(lia)) as [Hr _].
  pose proof (checkpoint_ready _ 1 s ws key o now _ Hr) as Hw. unfold wp in Hw. rewrite Hc in Hw.
  destruct Hw as (Hr1 & Hi1 & Hold & e & snap & He & Hun & Hsnap & Hck).
  pose proof (adopt_ready _ 0 s1 ws' key now' _ Hr1) as Ha. unfold wp in Ha.
  assert (Hlk : checkpoints s1 !! key = Some (mkCheckpoint snap o now)) by by rewrite Hck, lookup_insert_eq.
  assert (Huns : unsettled s1 snap = false).
  { rewrite <-Hun. by eapply unsettled_same. }
  assert (He1 : wm s1 !! ws = Some e) by (rewrite Hold; [done|by eexists|done]).
  destruct (adopt_checkpoint ws' key now' s1) as [[[]|err|] s2]; [| | |done].
  - destruct Ha as (_ & _ & e2 & c & from & He2 & Hc2 & Hfrom & _ & Hm). exists s2, e.
    rewrite Hlk in Hc2. injection Hc2 as <-. simpl in Hfrom. rewrite Hsnap in Hfrom. injection Hfrom as <-.
    rewrite He' in He2. injection He2 as <-. split_and!; [done..|].
    intros id Hid. pose proof (all_slots_update (wm s1) ws' e' (adopted e' e) He') as Hp. rewrite <-Hm, Hnil in Hp.
    simpl in Hp. rewrite Hp, mult_app. pose proof (rd_entries _ _ _ _ _ Hr ws e He) as [Hnd _ _ _ _].
    pose proof (mult_NoDup id _ Hnd). pose proof (mult_pos id _ Hid).
    change (entry_slots (adopted e' e)) with (entry_slots e). lia.
  - destruct Ha as (_ & _ & -> & Hno). specialize (Hno e' _ He' Hlk Hnil). simpl in Hno. congruence.
  - destruct Ha as [_ [Hn|(c & Hc2 & Hn)]]; [congruence|]. rewrite Hlk in Hc2. injection Hc2 as <-. simpl in Hn. congruence.
Qed.

(** ** The cache gives way *)

(** The calls that drop what is cached. *)
Definition drops_cache (c : call) : Prop :=
  match c with CacheCall (Yield _) | CacheCall (Reclaim _) | CacheCall (Discard _) => True | _ => False end.

(** Giving the cache up spares the clients: yielding, reclaiming and discarding hand out
    nothing and leave every working set no checkpoint hides as it was, the fires too;
    checkpoints only go, and with each goes the set it hid. *)
Theorem cache_spares_sets k s0 n s ks c out s' :
  starts k s0 → reaches s0 n s ks → n ≤ k → drops_cache c → perform c s = (Ok out, s') →
  out = [] ∧ (∀ ws, ¬ hidden s ws → wm s' !! ws = wm s !! ws) ∧ inflight s' = inflight s ∧
  checkpoints s' ⊆ checkpoints s ∧
  (∀ id, is_Some (refs s !! id) → refs s' !! id = None → ∀ ws e, wm s !! ws = Some e → id ∈ entry_slots e → hidden s ws).
Proof.
  intros H0 Hre Hk Hc Hp. destruct (rs_history_ready k s0 n s ks 0 H0 Hre ltac:(lia)) as [Hr _].
  assert (Hgo : out = [] ∧ ready (extents s0) 0 s' (lent ks) [] ∧ spares s s').
  { destruct c as [c|c|c|c]; try done. destruct c; try done; cbn [perform perform_cache] in Hp;
      apply (plain_ok _ (λ s', ready (extents s0) 0 s' (lent ks) [] ∧ spares s s') s out s' Hp).
    - by apply yield_ready.
    - by apply reclaim_ready.
    - by apply discard_ready. }
  destruct Hgo as (-> & Hr' & (S1 & S2 & S3 & S4 & S5 & S6)). split_and!; try done.
  intros id Hs Hn ws e He Hid. destruct (decide (Exists (λ p, snapshot p.2 = ws) (map_to_list (checkpoints s)))) as [Hex|Hno].
  { apply Exists_exists in Hex as ([key c'] & Hin%elem_of_map_to_list & <-). by exists key, c'. }
  exfalso. assert (He' : wm s' !! ws = Some e).
  { rewrite S6; [done|]. intros (key & c' & Hc' & Heq). apply Hno, Exists_exists. exists (key, c').
    split; [by apply elem_of_map_to_list|done]. }
  assert (Hrf : is_Some (refs s' !! id)).
  { apply (ref_held _ _ _ _ _ id Hr'), elem_of_app. left. apply elem_of_all_slots. eauto. }
  rewrite Hn in Hrf. by destruct Hrf.
Qed.

(** ** Moves *)

(** A move out begins soundly. Either nothing moves and nothing changes hands, or the
    move that is handed out is for the sets asked, is one that may be committed at once
    (each slot is held by these sets alone, and no fire writes it), and moves slots to
    host slots and pages to host pages; only checkpoints may have gone for it. *)
Theorem suspend_begins k s0 n s ks sets out s' :
  starts k s0 → reaches s0 n s ks → n ≤ k → perform (MoveCall (PrepareSuspend sets)) s = (Ok out, s') →
  (∀ ws, ¬ hidden s ws → wm s' !! ws = wm s !! ws) ∧ inflight s' = inflight s ∧
  (out = [] ∨ ∃ t, out = [MovingOut t] ∧ scope t = elements sets ∧ out_ok (extents s0) t ∧
     legal (MoveCall (CommitSuspend t)) s').
Proof.
  intros H0 Hre Hk Hp. destruct (rs_history_ready k s0 n s ks 0 H0 Hre ltac:(lia)) as [Hr _].
  cbn [perform perform_move] in Hp. unfold handing in Hp.
  pose proof (rs_prepare_suspend_ready _ 0 sets s _ Hr) as Hw. unfold wp in Hw.
  destruct (prepare_suspend sets s) as [[[t|]|err|] s1]; [| |done..]; injection Hp as <- <-.
  - destruct Hw as (_ & Hok & (_ & Hi & _ & _ & _ & S6) & Hsc & Hset). split_and!; [done..|]. right. by exists t.
  - destruct Hw as (_ & Hf & _). apply frame_calm in Hf as [(_ & Hi & _) Hw]. split_and!; [by rewrite Hw|done|by left].
Qed.

(** ** Numbering *)

(** A device page by its number. *)
Lemma page_number s id :
  layout_ok (extents s) → within (x_pages (extents s)) id →
  page_id s (engine_id s id) = Some id ∧ (engine_id s id < RS_TRANSLATION_UNMAPPED)%N.
Proof.
  intros Hl Hid. rewrite (numbering s AtPages id Hl Hid). destruct id as [i], Hl.
  unfold within, page_id, checked_add_u32, RS_TRANSLATION_UNMAPPED in *. simpl in *.
  split; [|lia]. rewrite decide_True by lia. simpl. do 2 f_equal. lia.
Qed.

(** The numbers the engine is given tell slots apart. Of the four pools, two slots of one
    have different numbers; a device state keeps its own number; and [page_id] gives
    back the device page whose number the engine has. *)
Theorem engine_numbers k s0 n s ks w :
  starts k s0 → reaches s0 n s ks → n ≤ k →
  (∀ id id', within (range_at w (extents s)) id → within (range_at w (extents s)) id' →
     engine_id s id = engine_id s id' → id = id') ∧
  (∀ id, within (x_slots (extents s)) id → engine_id s id = index id) ∧
  ∀ id, within (x_pages (extents s)) id → page_id s (engine_id s id) = Some id.
Proof.
  intros H0 Hre Hk. destruct (rs_history_ready k s0 n s ks 0 H0 Hre ltac:(lia)) as [Hr _].
  rewrite <-(rd_extents _ _ _ _ _ Hr) in Hr. pose proof (rd_layout _ _ _ _ _ Hr) as Hl.
  split_and!.
  - intros [i] [j] Hi Hj Heq. rewrite (numbering s w _ Hl Hi), (numbering s w _ Hl Hj) in Heq. f_equal. destruct Hl.
    unfold within in *. destruct w; simpl in *; lia.
  - intros id Hid. exact (numbering s AtSlots id Hl Hid).
  - intros id Hid. by apply page_number.
Qed.
End calls.
End RsCalls.
