(* ===== verification/RsSample.v ===== *)
(** A history of the recurrent-state store to see its theorems on, and each theorem at a
    point of it. *)
From S2P Require Import Prelude Ids Store Pool GenMap KvTable KvStore Hoare RsStore RsBooks RsKeep RsWrites RsPublish.
From S2P Require Import RsMoves RsWorld RsThm RsShare RsCalls.

Module RsSample.
Import GenMap KvTable RsStore RsBooks RsKeep RsWrites RsPublish RsMoves RsWorld RsThm RsShare RsCalls.

(** ** The history

    A store of four slots and four pages on the device and as many on the host. A client
    has a set take up a state of six tokens and buffer four more, forks it, and prepares
    a write of the fork's state and of its buffer's last page and one past it. *)

Abbreviation sample_store := (RsStore (GenMap.GenMap RsWsMarker)).
Abbreviation go := (perform (WS := GenMap.GenMap RsWsMarker)).

Definition no_store : sample_store :=
  let p := Pool.mkPool [] [] 0 0 in build p p p p 0 None.
Definition store0 : sample_store := Eval vm_compute in default no_store (new 4 4 4 4).

Definition answer (r : outcome RsError (list token) * sample_store) : list token :=
  match r.1 with Ok out => out | _ => [] end.
Definition answers (r : outcome RsError (list token) * sample_store) : bool :=
  match r.1 with Ok _ => true | _ => false end.

(** The store and the tokens after a call that leaves [rest] unused. *)
Definition after (w : sample_store * list token) (c : call) (rest : list token) : sample_store * list token :=
  ((go c w.1).2, answer (go c w.1) ++ rest).

Definition ws_key (i : N) : RsWorkingSetId := mkGenKey i 0.
Definition grant_of (ks : list token) : option RsGrant :=
  hd_error (omap (λ k, match k with Grant g => Some g | _ => None end) ks).
Definition no_write : RsPreparedWrite := mkWrite (ws_key 0) None [] [] 0 [].
Definition write_of (ks : list token) : RsPreparedWrite :=
  default no_write (hd_error (omap (λ k, match k with Prepared w => Some w | _ => None end) ks)).
Definition geometry : RsGeometry := mkGeom 1024 4.

Definition world1 := Eval vm_compute in after (store0, []) (SetCall (Create geometry)) [].
Definition world2 := Eval vm_compute in after world1 (WriteCall (Reserve (mkUnits 3 3))) [].
Definition world3 := Eval vm_compute in
  after world2 (WriteCall (PrepareGroup (grant_of world2.2) (ws_key 0) true false (Some 6%N) None)) [].
Definition write3 := Eval vm_compute in write_of world3.2.
Definition world4 := Eval vm_compute in after world3 (WriteCall (Publish [write3])) (grants (grant_of world3.2)).
Definition world5 := Eval vm_compute in after world4 (SetCall (CommitFolds [mkFold (ws_key 0) 6])) world4.2.
Definition world6 := Eval vm_compute in after world5 (WriteCall (Settle (mkPublished [w_seq write3] []))) world5.2.
Definition world7 := Eval vm_compute in
  after world6 (WriteCall (PrepareGroup (grant_of world6.2) (ws_key 0) false false None (Some (6, 10)%N))) [].
Definition write7 := Eval vm_compute in write_of world7.2.
Definition world8 := Eval vm_compute in after world7 (WriteCall (Publish [write7])) (grants (grant_of world7.2)).
Definition world9 := Eval vm_compute in after world8 (WriteCall (Settle (mkPublished [w_seq write7] []))) world8.2.
Definition world10 := Eval vm_compute in after world9 (SetCall (Fork (ws_key 0))) world9.2.
Definition call11 : call := Eval vm_compute in
  WriteCall (PrepareGroup (grant_of world10.2) (ws_key 1) true false None (Some (9, 14)%N)).
Definition world11 := Eval vm_compute in after world10 call11 [].
Definition write11 := Eval vm_compute in write_of world11.2.

(** One more call of a history. *)
Lemma rs_next_reaches s0 n m w c rest w' :
  reaches s0 n w.1 w.2 → m = cost c + n → w.2 ≡ₚ uses c ++ rest → legal c w.1 →
  answers (go c w.1) = true → after w c rest = w' → reaches s0 m w'.1 w'.2.
Proof.
  intros Hr -> Hks Hl Ha <-. unfold after, answer, answers in *. cbn [fst snd] in *.
  destruct (go c w.1) as [[out|e|] s'] eqn:Hc; [|done..]. by eapply reaches_call.
Qed.

Lemma fits_now e w :
  match w_state w with Some st => fresh_state st = true ∨ folded e = Some (slot st) | None => True end →
  Forall (λ t, lookup_page e (target_index t) = match t with
    | Fresh _ _ => None | InPlace _ d => Some d | Cow _ src _ => Some src end) (w_buffers w) →
  Forall (λ r, (frozen e + r.1 ≤ u32_max)%N) (w_snapshots w) → fits e w.
Proof.
  intros Hs Hb Hr. split; [|exact (proj1 (Forall_forall _ _) Hb)|].
  - intros st Hst Hf. rewrite Hst in Hs. destruct Hs as [Hs|Hs]; [congruence|done].
  - intros row id Hin. exact (proj1 (Forall_forall _ _) Hr (row, id) Hin).
Qed.
Lemma publish_now (s : sample_store) w e :
  st_map (working_sets s) !! w_ws w = Some e → fits e w → legal (WriteCall (Publish [w])) s.
Proof. intros He Hf w' e' ->%list_elem_of_singleton. rewrite He. by intros [= <-]. Qed.

(** The call is the one the world was made with; what is legal is computed. *)
Ltac computed := vm_compute; reflexivity.
Ltac resident_now := intros ? Hres; vm_compute in Hres; injection Hres as <-; vm_compute; reflexivity.
Ltac fits_computed := apply fits_now; [vm_compute; tauto|repeat constructor|repeat constructor].
Ltac next_call s0 n w c rest :=
  apply (rs_next_reaches s0 n _ w c rest); [|reflexivity|try computed|try exact I|computed|computed].

Lemma range_ok (a b : N) : (b ≤ u32_max)%N → ∀ x y, Some (a, b) = Some (x, y) → (y ≤ u32_max)%N.
Proof. intros Hb x y [= _ <-]. done. Qed.

Lemma world2_reaches : reaches store0 1 world2.1 world2.2.
Proof.
  next_call store0 1 world1 (WriteCall (Reserve (mkUnits 3 3))) (@nil token).
  next_call store0 0 (store0, @nil token) (SetCall (Create geometry)) (@nil token). apply reaches_new.
Qed.

Lemma rs_world6_reaches : reaches store0 2 world6.1 world6.2.
Proof.
  next_call store0 2 world5 (WriteCall (Settle (mkPublished [w_seq write3] []))) world5.2.
  next_call store0 2 world4 (SetCall (CommitFolds [mkFold (ws_key 0) 6])) world4.2.
  next_call store0 2 world3 (WriteCall (Publish [write3])) (grants (grant_of world3.2)).
  - next_call store0 1 world2 (WriteCall (PrepareGroup (grant_of world2.2) (ws_key 0) true false (Some 6%N) None)) (@nil token).
    + apply world2_reaches.
    + split; [resident_now|done].
  - vm_compute. apply Permutation_swap.
  - eapply publish_now; [computed|fits_computed].
Qed.

Lemma rs_world9_reaches : reaches store0 3 world9.1 world9.2.
Proof.
  next_call store0 3 world8 (WriteCall (Settle (mkPublished [w_seq write7] []))) world8.2.
  next_call store0 3 world7 (WriteCall (Publish [write7])) (grants (grant_of world7.2)).
  - next_call store0 2 world6 (WriteCall (PrepareGroup (grant_of world6.2) (ws_key 0) false false None (Some (6, 10)%N))) (@nil token).
    + apply rs_world6_reaches.
    + split; [resident_now|by apply range_ok].
  - vm_compute. apply Permutation_swap.
  - eapply publish_now; [computed|fits_computed].
Qed.

Lemma world10_reaches : reaches store0 4 world10.1 world10.2.
Proof. next_call store0 3 world9 (SetCall (Fork (ws_key 0))) world9.2. apply rs_world9_reaches. Qed.

Lemma legal11 : legal call11 world10.1.
Proof. split; [resident_now|by apply range_ok]. Qed.

Lemma rs_world11_reaches : reaches store0 5 world11.1 world11.2.
Proof. next_call store0 4 world10 call11 (@nil token); [apply world10_reaches|apply legal11]. Qed.

Lemma rs_sample_starts : starts 1000 store0.
Proof.
  split; [left; exists 4%N, 4%N, 4%N, 4%N; by vm_compute|]. split; [|by vm_compute].
  unfold st_room; simpl; unfold GenMap.room; simpl; lia.
Qed.

(** ** The theorems at points of it *)

Lemma write11_in : Prepared write11 ∈ world11.2.
Proof. vm_compute. right. left. Qed.

Lemma rs_history_safe_witness : ∃ out s', go (WriteCall (Publish [write11])) world11.1 = (Ok out, s').
Proof.
  apply (rs_history_safe 1000 store0 5 world11.1 world11.2 _ (grants (grant_of world11.2)));
    [apply rs_sample_starts|apply rs_world11_reaches|vm_compute; apply Permutation_swap|eapply publish_now; [computed|fits_computed]|simpl; lia].
Defined.

Lemma rs_history_books_witness :
  NoDup ((lent world11.2).*2 ++ stock world11.1) ∧
  (∀ id, id ∈ (lent world11.2).*2 ++ stock world11.1 ↔ exists_in (extents store0) id) ∧
  (∀ id, refs world11.1 !! id = if decide (mult id (all_slots (st_map (working_sets world11.1))) = 0) then None
    else Some (N.of_nat (mult id (all_slots (st_map (working_sets world11.1)))))).
Proof.
  apply (rs_history_books 1000 store0 5); [apply rs_sample_starts|apply rs_world11_reaches|lia].
Defined.

Definition entry9 : RsEntry := Eval vm_compute in
  default (mkEntry geometry None [] 0 0 None) (st_get (working_sets world9.1) (ws_key 0)).

Lemma rs_history_types_witness :
  (∀ id, folded entry9 = Some id → within (Pool.extent (slots world9.1)) id ∨ within (Pool.extent (host_slots world9.1)) id) ∧
  (∀ id, Some id ∈ buffer entry9 → within (Pool.extent (pages world9.1)) id ∨ within (Pool.extent (host_pages world9.1)) id) ∧
  NoDup (entry_slots entry9) ∧ (base entry9 ≤ frozen entry9 ≤ u32_max)%N ∧
  (∀ id, id ∈ entry_slots entry9 → engine_id world9.1 id <
    (if is_host world9.1 id then if is_page world9.1 id then Pool.capacity (host_pages world9.1) else Pool.capacity (host_slots world9.1)
     else if is_page world9.1 id then (Pool.base (pages world9.1) - pages_at world9.1) + Pool.capacity (pages world9.1)
     else Pool.base (slots world9.1) + Pool.capacity (slots world9.1)))%N.
Proof.
  apply (rs_history_types 1000 store0 3 world9.1 world9.2 (ws_key 0) entry9);
    [apply rs_sample_starts|apply rs_world9_reaches|lia|computed].
Defined.

Definition touch11 : Touch := touch_of (w_state write11) (w_buffers write11).

Lemma rs_no_reuse_in_flight_witness :
  (RsSlot 2 ∉ frees world11.1) ∧
  ∀ c, c ∈ world11.2 → RsSlot 2 ∈ (token_loans c).*2 → ∃ w, c = Prepared w ∧ w_seq w = w_seq write11.
Proof.
  apply (rs_no_reuse_in_flight 1000 store0 5 world11.1 world11.2 (w_seq write11) touch11);
    [apply rs_sample_starts|apply rs_world11_reaches|lia|computed|computed].
Defined.

(** From the first state on, another client gives back its grant and frees the set. *)
Definition world12 := Eval vm_compute in after world6 (SetCall (Release (ws_key 0))) world6.2.
Definition grant12 : RsGrant := default (mkGrant [] []) (grant_of world12.2).
Definition world13 := Eval vm_compute in after world12 (WriteCall (GiveBack grant12)) [].

Lemma world13_reaches : reaches store0 2 world13.1 world13.2.
Proof.
  next_call store0 2 world12 (WriteCall (GiveBack grant12)) (@nil token).
  next_call store0 2 world6 (SetCall (Release (ws_key 0))) world6.2; [apply rs_world6_reaches|].
  intros (key & c & Hc & _). vm_compute in Hc. done.
Qed.

Lemma rs_returns_witness :
  ∃ s', retire_idle world13.1 = (Ok tt, s') ∧ refs s' = ∅ ∧ checkpoints s' = ∅ ∧
    ∀ p, p ∈ [slots s'; pages s'; host_slots s'; host_pages s'] → Pool.pending p = [] ∧ Pool.free p ≡ₚ Pool.ids_of p.
Proof.
  apply (rs_returns 1000 store0 2); [apply rs_sample_starts|exact world13_reaches|lia|computed|computed].
Defined.

Lemma prepare_isolates_witness :
  w_ws write11 = ws_key 1 ∧
  (∀ e, st_map (working_sets world11.1) !! ws_key 1 = Some e → fits e write11) ∧
  ∀ (mem mem' : RsSlotId → N), (∀ id, id ∉ writes (touch_of (w_state write11) (w_buffers write11)) → mem' id = mem id) →
  ∀ ws' e, ws' ≠ ws_key 1 → st_map (working_sets world10.1) !! ws' = Some e →
    st_map (working_sets world11.1) !! ws' = Some e ∧ view mem' e = view mem e.
Proof.
  apply (prepare_isolates 1000 store0 4 world10.1 world10.2 call11 (ws_key 1) [] world11.2 world11.1 write11);
    [apply rs_sample_starts|apply world10_reaches|computed|apply legal11|lia|done|computed|apply write11_in].
Defined.

Lemma fire_copies_on_write_witness :
  ∃ r s2 e e2, publish_batch [write11] world11.1 = (Ok r, s2) ∧ st_map (working_sets world10.1) !! ws_key 1 = Some e ∧
    st_map (working_sets s2) = <[ws_key 1 := e2]> (st_map (working_sets world10.1)) ∧ frozen e2 = frozen e ∧
    (∀ id, id ∈ writes (touch_of (w_state write11) (w_buffers write11)) →
       id ∈ entry_slots e2 ∧ ∀ ws' e', ws' ≠ ws_key 1 → st_map (working_sets s2) !! ws' = Some e' → id ∉ entry_slots e') ∧
    folded e2 = match w_state write11 with Some st => Some (slot st) | None => folded e end ∧
    (∀ t, t ∈ w_buffers write11 → lookup_page e2 (target_index t) = Some (target_dst t)) ∧
    (∀ i, i ∉ target_index <$> w_buffers write11 → lookup_page e2 i = lookup_page e i) ∧
    (∀ v, folded e = Some v → ∃ v', folded e2 = Some v' ∧ carry (copies write11) index v' = index v) ∧
    (∀ i v, lookup_page e i = Some v → ∃ v', lookup_page e2 i = Some v' ∧ carry (copies write11) index v' = index v).
Proof.
  apply (fire_copies_on_write 1000 store0 4 world10.1 world10.2 call11 (ws_key 1) [] world11.2 world11.1 write11 index);
    [apply rs_sample_starts|apply world10_reaches|computed|apply legal11|lia|done|computed|apply write11_in].
Defined.

(** The set of the first write moves out. *)
Definition sets0 : gset RsWorkingSetId := {[ws_key 0]}.
Definition world20 := Eval vm_compute in after world9 (MoveCall (PrepareSuspend sets0)) world9.2.
Definition move20 : RsResidencyTxn := Eval vm_compute in
  default (mkTxn [] [] (mkPlan [] []) false) (hd_error (omap (λ k, match k with MovingOut t => Some t | _ => None end) world20.2)).

Lemma suspend_begins_witness :
  (∀ ws, ¬ hidden world9.1 ws → st_map (working_sets (go (MoveCall (PrepareSuspend sets0)) world9.1).2) !! ws =
     st_map (working_sets world9.1) !! ws) ∧
  inflight (go (MoveCall (PrepareSuspend sets0)) world9.1).2 = inflight world9.1 ∧
  ([MovingOut move20] = [] ∨ ∃ t, [MovingOut move20] = [MovingOut t] ∧ scope t = elements sets0 ∧ out_ok (extents store0) t ∧
     legal (MoveCall (CommitSuspend t)) (go (MoveCall (PrepareSuspend sets0)) world9.1).2).
Proof.
  apply (suspend_begins 1000 store0 3 world9.1 world9.2 sets0 [MovingOut move20]);
    [apply rs_sample_starts|apply rs_world9_reaches|lia|computed].
Defined.

Lemma legal21 : legal (MoveCall (CommitSuspend move20)) world20.1.
Proof.
  intros d _ _. split.
  - intros ws e He _. apply elem_of_map_to_list in He. vm_compute in He.
    apply elem_of_cons in He as [[= -> _]|He]; [left|by apply not_elem_of_nil in He].
  - unfold idle_slot. assert (Hb : busy_slots world20.1 = ∅) by by vm_compute. rewrite Hb. apply not_elem_of_empty.
Qed.

Lemma world20_reaches : reaches store0 3 world20.1 world20.2.
Proof. next_call store0 3 world9 (MoveCall (PrepareSuspend sets0)) world9.2. apply rs_world9_reaches. Qed.

Definition world21 := Eval vm_compute in after world20 (MoveCall (CommitSuspend move20)) world9.2.

(** A memory whose places all differ. *)
Definition told20 : Memory (bool * bool * N) := λ host page num, (host, page, num).

Lemma moves_keep_contents_witness :
  dom (st_map (working_sets world21.1)) = dom (st_map (working_sets world20.1)) ∧
  inflight world21.1 = inflight world20.1 ∧ checkpoints world21.1 = checkpoints world20.1 ∧
  ∀ ws e, st_map (working_sets world20.1) !! ws = Some e → ∃ e', st_map (working_sets world21.1) !! ws = Some e' ∧
    view (at_slot world21.1 (run_plan true (plan move20) told20)) e' = view (at_slot world20.1 told20) e.
Proof.
  apply (moves_keep_contents 1000 store0 3 world20.1 world20.2 (MoveCall (CommitSuspend move20)) true move20 world9.2 [] world21.1 told20);
    [apply rs_sample_starts|apply world20_reaches|computed|apply legal21|lia|done|computed].
Defined.

Definition folded9 := Eval vm_compute in (go (SetCall (FoldSet (ws_key 0) 4)) world9.1).2.

Lemma fold_correct_witness :
  calm world9.1 folded9 ∧
  (∀ ws', ws' ≠ ws_key 0 → st_map (working_sets folded9) !! ws' = st_map (working_sets world9.1) !! ws') ∧
  ∀ e, st_map (working_sets world9.1) !! ws_key 0 = Some e → ∃ e', st_map (working_sets folded9) !! ws_key 0 = Some e' ∧
    geom e' = geom e ∧ folded e' = folded e ∧ ring_state e' = ring_state e ∧ frozen e' = N.min (frozen e + 4) u32_max ∧
    (base e ≤ base e' ≤ frozen e')%N ∧ ∀ pos, (frozen e' ≤ pos)%N → page_of e' pos = page_of e pos.
Proof.
  apply (fold_correct 1000 store0 3 world9.1 world9.2 (ws_key 0) 4 []);
    [apply rs_sample_starts|apply rs_world9_reaches|lia|computed].
Defined.

(** A checkpoint of the set is kept, and a new set adopts it. *)
Definition world30 := Eval vm_compute in after world9 (SetCall (Create geometry)) world9.2.
Definition kept30 := Eval vm_compute in (checkpoint (ws_key 0) 77 (Some 5%N) 1 world30.1).2.
Definition entry30 : RsEntry := mkEntry geometry None [] 0 0 None.

Lemma world30_reaches : reaches store0 4 world30.1 world30.2.
Proof. next_call store0 3 world9 (SetCall (Create geometry)) world9.2. apply rs_world9_reaches. Qed.

Lemma not_hidden30 : ¬ hidden world30.1 (ws_key 0).
Proof. intros (key & c & Hc & _). vm_compute in Hc. done. Qed.

Lemma checkpoint_adopt_witness :
  ∃ s2 e, adopt_checkpoint (ws_key 1) 77 2 kept30 = (Ok true, s2) ∧ st_map (working_sets world30.1) !! ws_key 0 = Some e ∧
    st_map (working_sets kept30) !! ws_key 0 = Some e ∧
    st_map (working_sets s2) = <[ws_key 1 := adopted entry30 e]> (st_map (working_sets kept30)) ∧
    ∀ id, id ∈ entry_slots e → mult id (all_slots (st_map (working_sets s2))) = S (mult id (all_slots (st_map (working_sets kept30)))).
Proof.
  apply (checkpoint_adopt 1000 store0 4 world30.1 world30.2 (ws_key 0) 77 (Some 5%N) 1 2 kept30 (ws_key 1) entry30);
    [apply rs_sample_starts|apply world30_reaches|lia|computed|apply not_hidden30|computed|done].
Defined.

Definition world31 := Eval vm_compute in after world30 (CacheCall (Checkpoint (ws_key 0) 77 (Some 5%N) 1)) world30.2.
Definition dropped31 := Eval vm_compute in (go (CacheCall (Discard 5)) world31.1).2.

Lemma world31_reaches : reaches store0 5 world31.1 world31.2.
Proof.
  next_call store0 4 world30 (CacheCall (Checkpoint (ws_key 0) 77 (Some 5%N) 1)) world30.2. apply world30_reaches.
Qed.

Lemma cache_spares_sets_witness :
  [] = ([] : list token) ∧
  (∀ ws, ¬ hidden world31.1 ws → st_map (working_sets dropped31) !! ws = st_map (working_sets world31.1) !! ws) ∧
  inflight dropped31 = inflight world31.1 ∧ checkpoints dropped31 ⊆ checkpoints world31.1 ∧
  (∀ id, is_Some (refs world31.1 !! id) → refs dropped31 !! id = None →
    ∀ ws e, st_map (working_sets world31.1) !! ws = Some e → id ∈ entry_slots e → hidden world31.1 ws).
Proof.
  apply (cache_spares_sets 1000 store0 5 world31.1 world31.2 (CacheCall (Discard 5)));
    [apply rs_sample_starts|apply world31_reaches|lia|exact I|computed].
Defined.

Lemma engine_numbers_witness :
  (∀ id id', within (range_at AtHostPages (extents world11.1)) id → within (range_at AtHostPages (extents world11.1)) id' →
     engine_id world11.1 id = engine_id world11.1 id' → id = id') ∧
  (∀ id, within (x_slots (extents world11.1)) id → engine_id world11.1 id = index id) ∧
  ∀ id, within (x_pages (extents world11.1)) id → page_id world11.1 (engine_id world11.1 id) = Some id.
Proof.
  apply (engine_numbers 1000 store0 5 world11.1 world11.2 AtHostPages);
    [apply rs_sample_starts|apply rs_world11_reaches|lia].
Defined.

(** ** A ring

    A window of four tokens in pages of two: a set writes four pages and its ring is
    advanced to eight tokens. *)

Definition window : RingGeometry := mkRingGeom 4 2.
Definition ring0 : sample_store := Eval vm_compute in default no_store (new_ring window 7 4).
Definition ring1 := Eval vm_compute in after (ring0, []) (SetCall (Create geometry)) [].
Definition ring2 := Eval vm_compute in after ring1 (WriteCall (PrepareRing None (ws_key 0) [0; 1; 2; 3])) [].
Definition ring_write := Eval vm_compute in write_of ring2.2.
Definition ring3 := Eval vm_compute in after ring2 (WriteCall (Publish [ring_write])) [].
Definition advance8 : RingAdvance := mkAdvance false 8 8 None 8 (Some 8%N).
Definition ring4 := Eval vm_compute in (go (SetCall (AdvanceRing (ws_key 0) advance8 [0; 1; 2; 3])) ring3.1).2.

Lemma ring_starts : starts 1000 ring0.
Proof.
  split; [right; exists window, 7%N, 4%N; by vm_compute|]. split; [|by vm_compute].
  unfold st_room; simpl; unfold GenMap.room; simpl; lia.
Qed.

Lemma ring3_reaches : reaches ring0 2 ring3.1 ring3.2.
Proof.
  next_call ring0 2 ring2 (WriteCall (Publish [ring_write])) (@nil token).
  - next_call ring0 1 ring1 (WriteCall (PrepareRing None (ws_key 0) [0; 1; 2; 3])) (@nil token).
    + next_call ring0 0 (ring0, @nil token) (SetCall (Create geometry)) (@nil token). apply reaches_new.
    + split; [resident_now|done].
  - eapply publish_now; [computed|fits_computed].
Qed.

Definition entry_ring : RsEntry := Eval vm_compute in default entry30 (st_get (working_sets ring3.1) (ws_key 0)).

Lemma ring_advance_correct_witness :
  ∃ e' r', st_map (working_sets ring4) = <[ws_key 0 := e']> (st_map (working_sets ring3.1)) ∧ ring_state e' = Some r' ∧
    committed r' = committed (advance_ring default_ring advance8) ∧ RsStore.head r' = default 0%N (new_head advance8) ∧
    retired r' = N.max 0 (window_at window (if positioned advance8 then committed r' else reach advance8)) ∧
    (∀ page, lookup_page e' page =
       if decide (page ∈ pages_behind [0; 1; 2; 3] 0 (retired r')) then None else lookup_page entry_ring page) ∧
    (∀ page, page ∈ pages_behind [0; 1; 2; 3] 0 (retired r') ↔
       ∃ i, [0; 1; 2; 3] !! i = Some page ∧ (0 ≤ N.of_nat i < retired r')%N) ∧
    ∀ pos, (pos < (if positioned advance8 then committed r' else reach advance8) ≤ pos + tokens window)%N →
      (retired r' ≤ N.max 0 (pos / N.max (page_size window) 1))%N.
Proof.
  apply (ring_advance_correct 1000 ring0 2 ring3.1 ring3.2 (ws_key 0) advance8 [0; 1; 2; 3] window default_ring entry_ring []);
    [apply ring_starts|apply ring3_reaches|lia|computed|computed|computed|computed].
Defined.
End RsSample.
