(* ===== verification/RsFire.v ===== *)
(** A fire's recurrent state ([crates/runtime/src/pipeline/fire/rs.rs]): what a plan
    demands of the store, and the preparation of a fire, which writes each group's state
    and buffer or each row's ring pages, publishes them and tells the lanes where they
    are. The store and the grant that is lent are the state; an error is a value, for the
    message the code formats. *)
From S2P Require Import Prelude Ids Store Pool KvTable KvStore RsStore.

Module RsFire.
Import KvTable RsStore.

(** ** What the engine is told ([crates/engine/src/fire.rs], [transfer.rs]) *)

Inductive FoldLen : Type := HostLen (count : N) | DeviceLen.
Inductive RsVerb : Type :=
  | FoldVerb
  | Buffer (pages : list N) (base folded : N) (fold : FoldLen).
Inductive RsReset : Type := Inferred | FreshState | HeldState.

Record StateMove : Type := mkStateMove {
  src_slot_id : N; dst_slot_id : N; src_token_offset : N; dst_token_offset : N; token_count : N }.
Inductive StateDirection : Type := DeviceToDevice | DeviceToHost | HostToDevice.
Record StateCopy : Type := mkStateCopy {
  state_moves : list StateMove; state_pages : list StateMove; direction : StateDirection }.

Definition RS_FLAG_RESET : N := 1.

(** ** Plans *)

Inductive GroupFold : Type := NoFold | HostFold (count : N) | DeviceFold.
#[export] Instance GroupFold_eq_dec : EqDecision GroupFold.
Proof. solve_decision. Defined.

Record GroupPlan : Type := mkGroup {
  lanes : list nat;
  group_writes : option (N * N);
  group_fold : GroupFold;
  group_rows : list N;
}.
Record RingRow : Type := mkRow { row_pages : list nat; translate : list nat; advance : RingAdvance }.
Inductive RsPlan : Type := Groups (groups : list GroupPlan) | Ring (rows : list RingRow).

(** The messages, by what they say. *)
Inductive FireError : Type :=
  | StoreError (e : RsError)
  | NoRecurrentState (count : nat)
  | EmptyIndptr
  | LaneCount (lanes bound : nat)
  | EmptyShared (lanes : list nat)
  | RowCount (rows sets : nat)
  | RowError (row : nat) (e : RsError)
  | LanesError (lanes : list nat) (e : FireError)
  | SharedRing (lane : nat).

Inductive ReservedError : Type := Stale | Fatal (e : FireError).

Definition validate_count (rs_count : nat) (qo_indptr : list N) (has_recurrent_state : bool) : nat + FireError :=
  if negb has_recurrent_state then
    if decide (rs_count = 0) then inl (length qo_indptr - 1) else inr (NoRecurrentState rs_count)
  else
    match qo_indptr with
    | [] => inr EmptyIndptr
    | _ :: rest =>
        if decide (rs_count ≠ length rest) then inr (LaneCount (length rest) rs_count) else inl (length rest)
    end.

Record PreparedRs : Type := mkPrepared {
  slot_ids : list N;
  slot_flags : list N;
  state_copies : list N * list N;
  page_copies : list N * list N;
  buffer_slot_ids : list N;
  verbs : list RsVerb;
  window : list (list N);
  window_copies : list (N * N);
  fire_snapshots : list RsSnapshot;
  txn_ : option RsPublished;
}.
Definition no_prepared : PreparedRs := mkPrepared [] [] ([], []) ([], []) [] [] [] [] [] None.

Definition state_copy (out : PreparedRs) : option StateCopy :=
  let moves (p : list N * list N) := zip_with (λ src dst, mkStateMove src dst 0 0 0) p.1 p.2 in
  let copy := mkStateCopy (moves (state_copies out)) (moves (page_copies out)) DeviceToDevice in
  if decide (state_moves copy = []) then if decide (state_pages copy = []) then None else Some copy else Some copy.

(** The fields of a lane that a preparation is applied to. *)
Record Lane : Type := mkLane {
  l_rs : RsVerb;
  l_rs_slot : option N;
  l_rs_reset : RsReset;
  l_window : list N;
  l_snapshots : list (N * N);
  l_window_copies : list (N * N);
}.

Definition apply_lane (out : PreparedRs) (row : nat) (l : Lane) : Lane :=
  mkLane (default (l_rs l) (verbs out !! row)) (slot_ids out !! row)
    (match slot_flags out !! row with
     | Some flags => if decide (N.land flags RS_FLAG_RESET ≠ 0%N) then FreshState else HeldState
     | None => l_rs_reset l
     end)
    (default (l_window l) (window out !! row)) (l_snapshots l) (l_window_copies l).
Definition apply_snapshots (out : PreparedRs) (ls : list Lane) : list Lane :=
  match ls with
  | [l] => [mkLane (l_rs l) (l_rs_slot l) (l_rs_reset l) (l_window l)
              ((λ s, (sn_row s, index (sn_slot s))) <$> fire_snapshots out) (l_window_copies l)]
  | ls => ls
  end.
Definition apply_copies (out : PreparedRs) (ls : list Lane) : list Lane :=
  match ls with
  | l :: rest =>
      if decide (window_copies out = []) then l :: rest
      else mkLane (l_rs l) (l_rs_slot l) (l_rs_reset l) (l_window l) (l_snapshots l) (window_copies out) :: rest
  | [] => []
  end.
Definition apply_to (out : PreparedRs) (ls : list Lane) : list Lane :=
  apply_copies out (apply_snapshots out (imap (apply_lane out) ls)).

(** A group's write: whether of the state, to a fresh slot, the count and the slots. *)
Definition GroupWrite : Type := bool * bool * option N * option (N * N).

(** ** The preparation *)

Section fire.
Context {WS : Type → Type} `{!KeyedStore RsWorkingSetId WS}.
Abbreviation store := (RsStore WS).
Implicit Types s : store.
Abbreviation sm := (method store RsError).
Abbreviation lm := (method (store * option RsGrant) RsError).
Abbreviation fsm := (method store FireError).
Abbreviation fm := (method (store * option RsGrant) FireError).

(** [map_err]. *)
Definition relay {St A} (h : RsError → FireError) (m : method St RsError A) : method St FireError A := λ st,
  match m st with
  | (Ok a, st) => (Ok a, st)
  | (Err e, st) => (Err (h e), st)
  | (Panic, st) => (Panic, st)
  end.
Definition on_store {A} (m : fsm A) : fm A := λ g, let '(r, s) := m g.1 in (r, (s, g.2)).

(** [RsTxn::abandon] and [settle]. *)
Definition abandon (t : RsPublished) : sm unit :=
  mfor (snapshots t) (λ snap, release_working_set (sn_snapshot snap) ;;; mok tt).
Definition settle_fire (t : option RsPublished) : sm unit :=
  match t with Some p => settle p | None => mok tt end.

Definition group_write (g : GroupPlan) (ws : RsWorkingSetId) : fsm GroupWrite :=
  held ⇐ relay StoreError (folded_slot ws) ;;
  let fold := match group_fold g with HostFold count => if decide (0 < count)%N then Some count else None | _ => None end in
  let folds := bool_decide (is_Some fold) || bool_decide (group_fold g = DeviceFold) in
  if bool_decide (held = None) && folds && bool_decide (1 < length (lanes g)) then merr (EmptyShared (lanes g))
  else
    mok (folds || bool_decide (held = None),
         folds && bool_decide (is_Some held) && bool_decide (1 < length (lanes g)), fold, group_writes g).

Fixpoint demand_rows (total : RsUnits) (rows : list (RsWorkingSetId * RingRow)) : fsm RsUnits :=
  match rows with
  | [] => mok total
  | (ws, row) :: rows => u ⇐ relay StoreError (ring_demand ws (row_pages row)) ;; demand_rows (add total u) rows
  end.
(** [working_sets[group.lanes[0]]]. *)
Definition first_set (sets : list RsWorkingSetId) (g : GroupPlan) : option RsWorkingSetId :=
  lane ← lanes g !! 0; sets !! lane.
Fixpoint demand_groups (sets : list RsWorkingSetId) (total : RsUnits) (groups : list GroupPlan) : fsm RsUnits :=
  match groups with
  | [] => mok total
  | g :: groups =>
      ws ⇐ mexpect (first_set sets g) ;;
      w ⇐ group_write g ws ;;
      let '(write_state, fresh, _, writes) := w in
      u ⇐ relay StoreError (group_demand ws write_state fresh writes) ;;
      let total := add total u in
      slots ⇐ mexpect (checked_add_u32 (u_slots total) (as_u32 (N.of_nat (length (group_rows g))))) ;;
      demand_groups sets (mkUnits slots (u_pages total)) groups
  end.
Definition demand (sets : list RsWorkingSetId) (plan : RsPlan) : fsm RsUnits :=
  match plan with
  | Ring rows => demand_rows (mkUnits 0 0) (zip sets rows)
  | Groups groups => demand_groups sets (mkUnits 0 0) groups
  end.

(** What a fire is taken to read: every number but 0 and the unmapped one. *)
Definition live (id : N) : bool := bool_decide (id ≠ 0%N) && bool_decide (id ≠ RS_TRANSLATION_UNMAPPED).
Definition verb_pages (v : RsVerb) : list N := match v with Buffer pages _ _ _ => pages | FoldVerb => [] end.
Definition read_slots (out : PreparedRs) : list RsSlotId :=
  RsSlot <$> filter (λ id, live id = true) (slot_ids out ++ buffer_slot_ids out ++ (state_copies out).1).
Definition read_pages (out : PreparedRs) : list N :=
  filter (λ id, live id = true) (concat (window out) ++ (page_copies out).1 ++ concat (verb_pages <$> verbs out)).

Definition note_fire (published : RsPublished) (out : PreparedRs) : fsm unit :=
  match last (seqs published) with
  | None => mok tt
  | Some seq =>
      s ⇐ mget ;;
      pages ⇐ mexpect (mapM (page_id s) (read_pages out)) ;;
      relay StoreError (note_reads seq (read_slots out ++ pages))
  end.

(** A ring plan. *)
Fixpoint prepare_rows (index : nat) (rows : list (RsWorkingSetId * RingRow)) (prepared : list RsPreparedWrite) :
    fm (list RsPreparedWrite) :=
  match rows with
  | [] => mok prepared
  | (ws, row) :: rows => λ g,
      match prepare_ring ws (row_pages row) g with
      | (Ok w, g) => prepare_rows (S index) rows (prepared ++ [w]) g
      | (Err e, g) => (on_store (relay StoreError (cancel_batch prepared)) ;;; merr (RowError index e)) g
      | (Panic, g) => (Panic, g)
      end
  end.

Definition copies_of s (prepared : list RsPreparedWrite) : list (N * N) :=
  concat ((λ w, (λ p, (engine_id s p.1, engine_id s p.2)) <$> buffer_copy_plan w) <$> prepared).

Fixpoint translate_rows (rows : list (RsWorkingSetId * RingRow)) : fsm (list (list N)) :=
  match rows with
  | [] => mok []
  | (ws, row) :: rows =>
      t ⇐ relay StoreError (ring_translation ws (translate row)) ;;
      rest ⇐ translate_rows rows ;;
      mok (t :: rest)
  end.

(** The rest of it, once every row is prepared. *)
Definition publish_rows (rows : list (RsWorkingSetId * RingRow)) (prepared : list RsPreparedWrite) : fm PreparedRs :=
  g ⇐ mget ;;
  let copies := copies_of g.1 prepared in
  on_store (
    p ⇐ relay StoreError (publish_batch prepared) ;;
    relay StoreError (commit_folds p.2) ;;;
    win ⇐ translate_rows rows ;;
    note_fire p.1 (mkPrepared [] [] ([], []) ([], []) [] [] win copies [] None) ;;;
    mfor rows (λ r, relay StoreError (ring_advance r.1 (advance r.2) (translate r.2))) ;;;
    mok (mkPrepared [] [] ([], []) ([], []) [] [] win copies [] (Some p.1))).

Definition prepare_ring_rows (sets : list RsWorkingSetId) (rows : list RingRow) : fm PreparedRs :=
  if decide (length rows ≠ length sets) then merr (RowCount (length rows) (length sets))
  else prepared ⇐ prepare_rows 0 (zip sets rows) [] ;; publish_rows (zip sets rows) prepared.

(** A group plan: what one lane is told, by its place in its group. *)
Definition lane_slots (out : PreparedRs) (at_ lane : nat) (state : option RsStateTarget) (held : option RsSlotId) :
    fm PreparedRs :=
  let put id flag copies := mkPrepared (<[lane := id]> (slot_ids out))
      (if (flag : bool) then <[lane := RS_FLAG_RESET]> (slot_flags out) else slot_flags out)
      copies (page_copies out) (buffer_slot_ids out) (verbs out) (window out) (window_copies out)
      (fire_snapshots out) (txn_ out) in
  let go id flag copies := mguard (lane < length (slot_ids out)) ;;; mok (put id flag copies) in
  match decide (0 < at_), state, held with
  | left _, Some st, None => go (index (slot st)) true (state_copies out)
  | right _, Some st, _ =>
      go (index (slot st)) (reset st)
        match copy_from st with
        | Some src => ((state_copies out).1 ++ [index src], (state_copies out).2 ++ [index (slot st)])
        | None => state_copies out
        end
  | _, _, Some slot => go (index slot) false (state_copies out)
  | _, _, None => mok out
  end.
Fixpoint group_slots (out : PreparedRs) (at_ : nat) (ls : list nat) (state : option RsStateTarget)
    (held : option RsSlotId) : fm PreparedRs :=
  match ls with
  | [] => mok out
  | lane :: ls => out ⇐ lane_slots out at_ lane state held ;; group_slots out (S at_) ls state held
  end.

Definition group_buffers s (out : PreparedRs) (ts : list RsBufferTarget) : PreparedRs :=
  let cows := omap (λ t, match t with Cow _ src dst => Some (engine_id s src, engine_id s dst) | _ => None end) ts in
  mkPrepared (slot_ids out) (slot_flags out) (state_copies out)
    ((page_copies out).1 ++ cows.*1, (page_copies out).2 ++ cows.*2)
    (buffer_slot_ids out ++ (index ∘ target_dst <$> ts)) (verbs out) (window out) (window_copies out)
    (fire_snapshots out) (txn_ out).

(** [.and_then(..)] after [group.write(..)]: the write with its rows, or an error that
    leaves nothing of it. *)
Definition write_group (ws : RsWorkingSetId) (g : GroupPlan) : fm RsPreparedWrite :=
  w ⇐ on_store (group_write g ws) ;;
  let '(write_state, fresh, fold, writes) := w in
  write ⇐ relay StoreError (prepare_group ws write_state fresh fold writes) ;;
  λ g', match prepare_snapshots write (group_rows g) g' with
        | (Ok w, g') => (Ok w, g')
        | (Err e, g') => (on_store (relay StoreError (cancel_prepared write)) ;;; merr (StoreError e)) g'
        | (Panic, g') => (Panic, g')
        end.

Fixpoint prepare_groups (sets : list RsWorkingSetId) (groups : list GroupPlan) (out : PreparedRs)
    (prepared : list RsPreparedWrite) : fm (PreparedRs * list RsPreparedWrite) :=
  match groups with
  | [] => mok (out, prepared)
  | g :: groups =>
      ws ⇐ mexpect (first_set sets g) ;;
      held ⇐ relay StoreError (with_grant (folded_slot ws)) ;;
      λ st, match write_group ws g st with
            | (Ok w, st) =>
                (out ⇐ group_slots out 0 (lanes g) (w_state w) held ;;
                 st ⇐ mget ;;
                 prepare_groups sets groups (group_buffers st.1 out (w_buffers w)) (prepared ++ [w])) st
            | (Err e, st) => (on_store (relay StoreError (cancel_batch prepared)) ;;; merr (LanesError (lanes g) e)) st
            | (Panic, st) => (Panic, st)
            end
  end.

(** The verbs of a group's lanes. *)
Fixpoint group_verbs (vs : list RsVerb) (at_ : nat) (ls : list nat) (fold : GroupFold) (pages : list N)
    (base folded : N) : fsm (list RsVerb) :=
  match ls with
  | [] => mok vs
  | lane :: ls =>
      let len := match at_, fold with
        | 0, HostFold count => HostLen count
        | 0, DeviceFold => DeviceLen
        | _, _ => HostLen 0
        end in
      mguard (lane < length vs) ;;;
      group_verbs (<[lane := Buffer pages base folded len]> vs) (S at_) ls fold pages base folded
  end.

(** What a group's lanes read of its buffer. *)
Definition read_buffer (ws : RsWorkingSetId) : sm (list N * N * N) :=
  pages ⇐ buffer_translation ws ;; base ⇐ base_of ws ;; folded ⇐ frozen_of ws ;; mok (pages, base, folded).

Fixpoint prepare_verbs (sets : list RsWorkingSetId) (groups : list GroupPlan) (p : RsPublished * list RsPendingFold)
    (vs : list RsVerb) : fsm (list RsVerb) :=
  match groups with
  | [] => mok vs
  | g :: groups =>
      match group_writes g with
      | None => prepare_verbs sets groups p vs
      | Some _ =>
          ws ⇐ mexpect (first_set sets g) ;;
          λ s, match read_buffer ws s with
               | (Ok (pages, base, folded), s) =>
                   (vs ⇐ group_verbs vs 0 (lanes g) (group_fold g) pages base folded ;;
                    prepare_verbs sets groups p vs) s
               | (Err e, s) =>
                   (relay StoreError (commit_folds p.2) ;;; relay StoreError (settle p.1) ;;; merr (StoreError e)) s
               | (Panic, s) => (Panic, s)
               end
      end
  end.

Definition prepare_group_plan (sets : list RsWorkingSetId) (groups : list GroupPlan) : fm PreparedRs :=
  let n := length sets in
  let out := mkPrepared (replicate n 0%N) (replicate n 0%N) ([], []) ([], []) [] (replicate n FoldVerb) [] [] [] None in
  r ⇐ prepare_groups sets groups out [] ;;
  let '(out, prepared) := r in
  on_store (
    p ⇐ relay StoreError (publish_batch prepared) ;;
    vs ⇐ prepare_verbs sets groups p (verbs out) ;;
    let out := mkPrepared (slot_ids out) (slot_flags out) (state_copies out) (page_copies out) (buffer_slot_ids out)
      vs (window out) (window_copies out) (fire_snapshots out) (txn_ out) in
    note_fire p.1 out ;;;
    relay StoreError (commit_folds p.2) ;;;
    mok (mkPrepared (slot_ids out) (slot_flags out) (state_copies out) (page_copies out) (buffer_slot_ids out)
      vs (window out) (window_copies out) (snapshots p.1) (Some p.1))).

(** The first lane that names an earlier lane's set. *)
Fixpoint repeats (index : nat) (seen sets : list RsWorkingSetId) : option nat :=
  match sets with
  | [] => None
  | ws :: sets => if decide (ws ∈ seen) then Some index else repeats (S index) (seen ++ [ws]) sets
  end.

Definition prepare_many (sets : list RsWorkingSetId) (plan : RsPlan) : fm PreparedRs :=
  if decide (sets = []) then mok no_prepared
  else
    match plan with
    | Ring rows =>
        match repeats 0 [] sets with
        | Some lane => merr (SharedRing lane)
        | None => prepare_ring_rows sets rows
        end
    | Groups groups => prepare_group_plan sets groups
    end.

(** A fire is prepared of its grant, or not at all: the demand is what it is now. The
    grant is lent with [&mut]. *)
Definition prepare_rs_reserved (sets : list RsWorkingSetId) (plan : RsPlan) :
    method (store * RsGrant) ReservedError PreparedRs := λ g,
  match demand sets plan g.1 with
  | (Ok required, s) =>
      if negb (covers (grant_units g.2) required) then (Err Stale, (s, g.2))
      else
        match prepare_many sets plan (s, Some g.2) with
        | (Ok out, (s, o)) => (Ok out, (s, default g.2 o))
        | (Err e, (s, o)) => (Err (Fatal e), (s, default g.2 o))
        | (Panic, (s, o)) => (Panic, (s, default g.2 o))
        end
  | (Err e, s) => (Err (Fatal e), (s, g.2))
  | (Panic, s) => (Panic, (s, g.2))
  end.
End fire.
End RsFire.
