(* ===== verification/RsFireRun.v ===== *)
(** The preparation of a fire as a run of the store's calls: each step is a call of a
    history, so that what is shown of every history holds of the store in the middle of a
    preparation and after it. *)
From S2P Require Import Prelude Ids Store Pool KvTable KvStore Hoare RsStore RsBooks RsKeep RsWrites RsPublish RsMoves RsWorld.
From S2P Require Import KvStoreThm RsShare RsCalls RsFire.

Module RsFireRun.
Import KvTable RsStore RsBooks RsKeep RsWrites RsPublish RsMoves RsWorld RsShare RsCalls RsFire.

(** A method that goes on by what another gave. *)
Lemma wp_split {St E E' A B} (m : method St E A) (ok : A → method St E' B) (bad : E → method St E' B) Q X st :
  wp m (λ a, wp (ok a) Q X) (λ e, wp (bad e) Q X) st →
  wp (λ st, match m st with
            | (Ok a, st) => ok a st | (Err e, st) => bad e st | (Panic, st) => (Panic, st) end) Q X st.
Proof. unfold wp. by destruct (m st) as [[a|e|] st']. Qed.

Lemma wp_relay {St A} h (m : method St RsError A) Q X st :
  wp m Q (λ e, X (h e)) st → wp (relay h m) Q X st.
Proof. unfold wp, relay. by destruct (m st) as [[a|e|] st']. Qed.

Lemma wp_relay_const {St A} h (m : method St RsError A) Q (X : St → Prop) st :
  wp m Q (λ _, X) st → wp (relay h m) Q (λ _, X) st.
Proof. apply (wp_relay h m Q (λ _, X) st). Qed.

Lemma wp_relay_sure {St A} h (m : method St RsError A) Q st :
  wp m Q (λ _ _, False) st → wp (relay h m) Q (λ _ _, False) st.
Proof. apply (wp_relay h m Q (λ _ _, False) st). Qed.

Section run.
Context {WS : Type → Type}.
Context `{!KeyedStore RsWorkingSetId WS, !KeyedStoreLaws RsWorkingSetId WS}.
Abbreviation store := (RsStore WS).
Implicit Types s : store.
Abbreviation wm s := (st_map (working_sets s)).
Abbreviation never := (λ _ _, False).

Lemma wp_on_store {A} (m : method store FireError A) (Q : A → store * option RsGrant → Prop) X s g :
  wp m (λ a s, Q a (s, g)) (λ e s, X e (s, g)) s → wp (on_store m) Q X (s, g).
Proof. unfold wp, on_store. simpl. by destruct (m s) as [[a|e|] s']. Qed.

(** ** Steps *)

Definition arrives (s0 : store) n s (ks : list token) : Prop := ∃ ks', reaches s0 n s ks' ∧ ks' ≡ₚ ks.

#[export] Instance arrives_proper s0 n s : Proper (Permutation ==> iff) (arrives s0 n s).
Proof. intros ks ks' Hk. split; intros (l & Hr & Hl); exists l; (split; [done|]); by rewrite Hl, Hk. Qed.

Lemma arrives_perm s0 n s ks ks' : arrives s0 n s ks → ks ≡ₚ ks' → arrives s0 n s ks'.
Proof. by intros H <-. Qed.
Lemma arrives_call s0 n m s ks c rest out s' ks' :
  arrives s0 n s ks → ks ≡ₚ uses c ++ rest → legal c s → perform c s = (Ok out, s') → m = cost c + n →
  ks' ≡ₚ out ++ rest → arrives s0 m s' ks'.
Proof.
  intros (l & Hr & Hl) Hk Hleg Hp -> ->. exists (out ++ rest). split; [|done].
  eapply reaches_call; [exact Hr|by rewrite Hl|done..].
Qed.

(** What cost nothing, as a call that hands nothing out. *)
Lemma arrives_plain {A} s0 n s c ks (m : method store RsError A) a s' :
  arrives s0 n s (uses c ++ ks) → legal c s → cost c = 0 → perform c = plain m → m s = (Ok a, s') → arrives s0 n s' ks.
Proof.
  intros Ha Hl Hc Hp Hm. apply (arrives_call s0 n n s _ c ks [] s' ks Ha); [done|done| |by rewrite Hc|done].
  rewrite Hp. unfold plain, handing. by rewrite Hm.
Qed.

(** A call that may borrow a grant: what is left of it comes back. *)
Lemma arrives_borrow {A} s0 n s g used ks c (m : method (store * option RsGrant) RsError A) out lost Q X :
  arrives s0 n s (grants g ++ used ++ ks) → legal c s → uses c = grants g ++ used → perform c = borrowing g m out lost →
  wp m Q X (s, g) →
  wp m (λ a p, arrives s0 (cost c + n) p.1 (grants p.2 ++ out a ++ ks) ∧ Q a p)
    (λ e p, arrives s0 (cost c + n) p.1 (grants p.2 ++ lost ++ ks) ∧ X e p) (s, g).
Proof.
  intros Ha Hl Hu Hp Hm. unfold wp in *.
  assert (Hcall : ∀ o s', perform c s = (Ok o, s') → arrives s0 (cost c + n) s' (o ++ ks)).
  { intros o s' Hpo. apply (arrives_call s0 n _ s _ c ks o s' _ Ha); try done. by rewrite Hu, <-app_assoc. }
  rewrite Hp in Hcall. unfold borrowing in Hcall. destruct (m (s, g)) as [[a|e|] [s' g']]; [| |done]; simpl.
  - split; [|done]. rewrite app_assoc. by apply Hcall.
  - split; [|done]. rewrite app_assoc. by apply Hcall.
Qed.

(** Only the pools and the fires have moved. *)
Definition still s s' : Prop :=
  working_sets s' = working_sets s ∧ refs s' = refs s ∧ checkpoints s' = checkpoints s ∧ ring s' = ring s ∧
  extents s' = extents s.
#[export] Instance still_refl : Reflexive still.
Proof. by intros s. Qed.
#[export] Instance still_trans : Transitive still.
Proof. intros s1 s2 s3 (?&?&?&?&?) (?&?&?&?&?). unfold still. split_and!; congruence. Qed.
Lemma quiet_still s s' : quiet s s' → extents s' = extents s → still s s'.
Proof. by intros (?&?&?&?&?) ?. Qed.

Lemma still_capacity s s' : extents s' = extents s → Pool.capacity (pages s') = Pool.capacity (pages s).
Proof. by intros [= _ _ _ ? _ _ _ _ _]. Qed.
Lemma still_live s s' e : still s s' → live_ring s' e = live_ring s e.
Proof. intros (_ & _ & _ & _ & Hx). unfold live_ring. by rewrite (still_capacity s s' Hx). Qed.
Lemma still_targets s s' e l : still s s' → ring_targets s' e l = ring_targets s e l.
Proof. intros Hs. unfold ring_targets. by rewrite (still_live s s'). Qed.
Lemma still_count s s' id : still s s' → ref_count s' id = ref_count s id.
Proof. intros (_ & Hr & _). unfold ref_count. by rewrite Hr. Qed.
Lemma still_host s s' e : extents s' = extents s → holds_host s' e = holds_host s e.
Proof. intros [= _ _ _ _ Hb _ _ _ _]. unfold holds_host, is_host. by rewrite Hb. Qed.
Lemma still_resident s s' ws : still s s' → resident s ws → resident s' ws.
Proof.
  intros (Hw & _ & _ & _ & Hx) Hres e He. rewrite Hw in He. rewrite (still_host s s' e Hx). by apply Hres.
Qed.

Lemma validate_ok x n s B H ws : ∀ seen,
  ready x n s B H → NoDup (w_ws <$> ws) → (∀ w, w ∈ ws → (w_ws w ∉ seen) ∧ is_Some (wm s !! w_ws w)) →
  validate seen ws s = (Ok tt, s).
Proof.
  induction ws as [|w ws IH]; intros seen Hr Hnd Hall; [done|]. cbn [validate]. csimpl in Hnd.
  apply NoDup_cons in Hnd as [Hn Hnd]. destruct (Hall w ltac:(by left)) as [Hs [e He]].
  unfold mthen. rewrite (entry_get _ _ _ _ _ _ e Hr He), decide_False by done. apply IH; [done..|].
  intros w' Hw'. destruct (Hall w' ltac:(by right)) as [Hs' ?]. split; [|done].
  rewrite elem_of_app, list_elem_of_singleton. intros [?|Heq]; [done|]. apply Hn. rewrite <-Heq.
  by apply list_elem_of_fmap_2.
Qed.

Section history.
Context (k : nat) (s0 : store) (start : starts k s0).
Abbreviation at_ := (arrives s0).

Lemma at_ready n s ks m :
  at_ n s ks → n + m ≤ k → ready (extents s0) m s (lent ks) [] ∧ Forall (token_ok (extents s0)) ks.
Proof.
  intros (l & Hr & Hl) Hk. destruct (rs_history_ready k s0 n s l m start Hr Hk) as [Hrd Hok]. rewrite Hl in Hok.
  split; [|done]. by eapply rs_ready_perm; [apply rs_lent_perm| |].
Qed.

(** The counts are those of what the working sets hold. *)
Lemma refs_same n n' s s' ks ks' :
  at_ n s ks → at_ n' s' ks' → n ≤ k → n' ≤ k → all_slots (wm s') ≡ₚ all_slots (wm s) → refs s' = refs s.
Proof.
  intros H H' Hn Hn' Hw. destruct (at_ready _ _ _ 0 H ltac:(lia)) as [Hr _].
  destruct (at_ready _ _ _ 0 H' ltac:(lia)) as [Hr' _]. apply map_eq. intros id.
  destruct (rd_refs _ _ _ _ _ Hr id) as [C Z], (rd_refs _ _ _ _ _ Hr' id) as [C' Z']. rewrite !mult_app, Hw in C'.
  rewrite mult_app in C.
  destruct (refs s !! id) as [c|], (refs s' !! id) as [c'|]; simpl in *; congruence.
Qed.

Lemma at_extents n s ks : at_ n s ks → n ≤ k → extents s = extents s0.
Proof. intros H Hn. destruct (at_ready _ _ _ 0 H ltac:(lia)) as [Hr _]. apply Hr. Qed.

(** ** A row of a ring *)

(** A write prepared for a row, as of the store where its preparation began. *)
Definition row_write s (r : RsWorkingSetId * RingRow) (w : RsPreparedWrite) : Prop :=
  ∃ e, wm s !! r.1 = Some e ∧ w_ws w = r.1 ∧ w_snapshots w = [] ∧ w_state w = None ∧
    Forall2 (target_fits s) (ring_targets s e (row_pages r.2)) (w_buffers w).

Definition row_ok s (r : RsWorkingSetId * RingRow) : Prop :=
  resident s r.1 ∧ (N.of_nat (length (row_pages r.2)) ≤ u32_max)%N.

Lemma still_row_ok s s' r : still s s' → row_ok s r → row_ok s' r.
Proof. intros Hs [? ?]. split; [by eapply still_resident|done]. Qed.
Lemma still_row_write s s' r w : still s s' → row_write s' r w → row_write s r w.
Proof.
  intros Hs (e & He & ? & ? & ? & Ht). destruct (Hs) as (Hw & _). exists e. rewrite <-Hw. split_and!; try done.
  rewrite (still_targets s s') in Ht by done. eapply Forall2_impl; [exact Ht|]. intros p [i d|i d|i src d]; simpl; [done|..];
    by rewrite (still_count s s').
Qed.

Lemma ring_step n s g ks ws pages :
  at_ n s (grants g ++ ks) → resident s ws → (N.of_nat (length pages) ≤ u32_max)%N → S n ≤ k →
  wp (prepare_ring ws pages)
    (λ w p, at_ (S n) p.1 (grants p.2 ++ Prepared w :: ks) ∧ write_ok (extents s0) w ∧
       ∃ e, prepared s e ws false false None (ring_targets s e pages) w p.1)
    (λ _ p, at_ (S n) p.1 (grants p.2 ++ ks) ∧ frame s p.1) (s, g).
Proof.
  intros Ha Hres Hlen Hk. destruct (at_ready _ _ _ 1 Ha ltac:(lia)) as [Hr Hok].
  rewrite rs_lent_app, grants_lent in Hr. apply Forall_app in Hok as [Hg _]. apply grants_ok in Hg.
  pose proof (prepare_ring_ready _ 0 (s, g) ws pages (lent ks) [] (conj Hr Hg) Hres Hlen) as Hwp.
  assert (Ha' : at_ n s (grants g ++ [] ++ ks)) by done.
  pose proof (arrives_borrow s0 n s g [] ks (WriteCall (PrepareRing g ws pages)) _ _ _ _ _ Ha' (conj Hres Hlen)
    (eq_sym (app_nil_r _)) eq_refl Hwp) as Hb.
  eapply wp_mono; [exact Hb|..]; [intros w p (? & _ & ? & ?)|intros e p (? & _ & ?)]; done.
Qed.

(** ** Taking a batch back *)

Definition without (m : gmap N Touch) (ws : list RsPreparedWrite) : gmap N Touch :=
  foldl (λ m q, delete q m) m (w_seq <$> ws).

Lemma cancel_run n s ws ks :
  at_ n s ((Prepared <$> ws) ++ ks) → n ≤ k →
  wp (cancel_batch ws) (λ _ s', at_ n s' ks ∧ quiet s s' ∧ inflight s' = without (inflight s) ws) never s.
Proof.
  revert s. induction ws as [|w ws IH]; intros s Ha Hk; [by apply wp_ok|].
  destruct (at_ready _ _ _ 0 Ha ltac:(lia)) as [Hr Hok]. csimpl in Hok. apply Forall_cons in Hok as [Hw _].
  pose proof (cancel_ready _ 0 w s _ [] Hr Hw) as Hc. unfold cancel_batch. cbn [mfor].
  unfold wp in Hc. destruct (cancel_prepared w s) as [[[]|e|] s1] eqn:Hs1; [|done..]. destruct Hc as (_ & Q1 & I1).
  apply wp_then. eapply wp_ret; [exact Hs1|]. eapply wp_mono; [apply IH; [|done]| |done].
  - by apply (arrives_plain s0 n s (WriteCall (Cancel w)) _ (cancel_prepared w) tt s1 Ha).
  - intros [] s2 (Ha2 & Q2 & I2). split_and!; [done|by etrans|]. unfold without in *. csimpl. by rewrite I2, I1.
Qed.

Lemma cancel_lent n s g ws ks :
  at_ n s (grants g ++ (Prepared <$> ws) ++ ks) → n ≤ k →
  wp (on_store (relay StoreError (cancel_batch ws)))
    (λ _ p, at_ n p.1 (grants p.2 ++ ks) ∧ quiet s p.1 ∧ inflight p.1 = without (inflight s) ws) never (s, g).
Proof.
  intros Ha Hk. apply wp_on_store, wp_relay. eapply wp_mono; [apply (cancel_run n s ws (grants g ++ ks))| |done].
  - eapply arrives_perm; [exact Ha|solve_perm].
  - done.
  - by intros [] s'.
Qed.

(** ** The rows of a ring *)

Lemma foldl_delete_first (l : list N) : ∀ (m : gmap N Touch) q,
  delete q (foldl (λ m q, delete q m) m l) = foldl (λ m q, delete q m) (delete q m) l.
Proof. induction l as [|q' l IH]; intros m q; simpl; [done|]. by rewrite IH, delete_delete. Qed.
Lemma without_snoc (m : gmap N Touch) w t ws :
  m !! w_seq w = None → without (<[w_seq w := t]> m) (ws ++ [w]) = without m ws.
Proof.
  intros Hq. unfold without. rewrite fmap_app, foldl_app. simpl. rewrite foldl_delete_first.
  by rewrite delete_insert_id.
Qed.

(** The rows prepared, of those prepared so far: what remains as it was, and what is in
    flight. *)
Definition rows_prepared s prepared (rows : list (RsWorkingSetId * RingRow)) ws s' : Prop :=
  still s s' ∧ without (inflight s') ws = without (inflight s) prepared ∧
  (∀ q t, inflight s !! q = Some t → inflight s' !! q = Some t) ∧
  ∃ added, ws = prepared ++ added ∧ Forall2 (row_write s) rows added ∧
    Forall (λ w, inflight s' !! w_seq w = Some (touch_of None (w_buffers w))) added.

Lemma rows_prepared_cons s s1 s2 prepared w ws r rows :
  still s s1 → inflight s !! w_seq w = None → row_write s r w →
  inflight s1 = <[w_seq w := touch_of None (w_buffers w)]> (inflight s) →
  rows_prepared s1 (prepared ++ [w]) rows ws s2 → rows_prepared s prepared (r :: rows) ws s2.
Proof.
  intros Hs Hq Hw Hi (Hs2 & Hout & Hk & added & -> & Hrows & Hin). split_and!.
  - by etrans.
  - rewrite Hout, Hi. by apply without_snoc.
  - intros q t Ht. apply Hk. rewrite Hi, lookup_insert_ne; [done|]. intros <-. congruence.
  - exists (w :: added). split_and!.
    + by rewrite <-app_assoc.
    + constructor; [done|]. eapply Forall2_impl; [exact Hrows|]. intros r' w'. by apply still_row_write.
    + constructor; [|done]. apply Hk. by rewrite Hi, lookup_insert_eq.
Qed.

Lemma prepare_rows_run ks rows : ∀ n s g index prepared,
  at_ n s (grants g ++ (Prepared <$> prepared) ++ ks) → Forall (row_ok s) rows → length rows + n ≤ k →
  wp (prepare_rows index rows prepared)
    (λ ws p, at_ (length rows + n) p.1 (grants p.2 ++ (Prepared <$> ws) ++ ks) ∧ rows_prepared s prepared rows ws p.1)
    (λ _ p, ∃ m, m ≤ length rows + n ∧ at_ m p.1 (grants p.2 ++ ks) ∧ still s p.1 ∧
       inflight p.1 = without (inflight s) prepared) (s, g).
Proof.
  induction rows as [|[ws row] rows IH]; intros n s g index prepared Ha Hok Hk.
  { apply wp_ok. split; [done|]. split_and!; [done..|]. exists []. by rewrite app_nil_r. }
  apply Forall_cons in Hok as [[Hres Hlen] Hok]. simpl in Hk, Hres, Hlen. cbn [prepare_rows].
  apply wp_split. eapply wp_mono; [apply (ring_step n s g _ ws (row_pages row) Ha Hres Hlen ltac:(lia))|..].
  - intros w [s1 g1] (Ha1 & Hw & e & Hp). simpl in *. destruct (pr_rest _ _ _ _ _ _ _ _ _ Hp) as (W1 & R1 & C1 & G1).
    assert (Hs1 : still s s1).
    { unfold still. split_and!; [done..|]. rewrite (at_extents _ _ _ Ha ltac:(lia)). eapply at_extents; [exact Ha1|lia]. }
    assert (Hq : inflight s !! w_seq w = None).
    { destruct (at_ready _ _ _ 0 Ha ltac:(lia)) as [Hr _]. destruct (inflight s !! w_seq w) as [t|] eqn:Hq; [|done].
      apply (rd_seqs _ _ _ _ _ Hr) in Hq. destruct (pr_seq _ _ _ _ _ _ _ _ _ Hp). lia. }
    assert (Hst : w_state w = None).
    { pose proof (pr_state _ _ _ _ _ _ _ _ _ Hp) as Hst. destruct (w_state w); [by destruct Hst|done]. }
    assert (Hrw : row_write s (ws, row) w).
    { exists e. destruct Hp. done. }
    pose proof (pr_inflight _ _ _ _ _ _ _ _ _ Hp) as Hi. rewrite Hst in Hi.
    assert (Ha1' : at_ (S n) s1 (grants g1 ++ (Prepared <$> prepared ++ [w]) ++ ks)).
    { eapply arrives_perm; [exact Ha1|]. rewrite fmap_app. csimpl. solve_perm. }
    specialize (IH (S n) s1 g1 (S index) (prepared ++ [w]) Ha1').
    replace (length rows + S n) with (S (length rows + n)) in IH by lia.
    eapply wp_mono; [apply IH|..].
    + eapply Forall_impl; [exact Hok|]. intros r. by apply still_row_ok.
    + lia.
    + intros ws' p [Ha2 Hp2]. split; [done|]. by eapply rows_prepared_cons.
    + intros _ p (m & Hm & Ha2 & Hs2 & Hi2). exists m. split_and!; [done..|by etrans|].
      rewrite Hi2, Hi. by apply without_snoc.
  - intros e [s1 g1] [Ha1 Hf1]. simpl in Ha1, Hf1.
    eapply wp_bind; [by apply (cancel_lent (S n)); [exact Ha1|lia]| |done].
    intros [] [s2 g2] (Ha2 & Q2 & I2). apply wp_err. simpl in *.
    exists (S n). split_and!; [lia|done| |].
    + etrans; [|apply (quiet_still _ _ Q2)].
      * destruct Hf1 as (F1 & F2 & F3 & F4 & F5). unfold still. split_and!; [done| |done|done|].
        -- eapply refs_same; [exact Ha|exact Ha1|lia..|by rewrite F1].
        -- rewrite (at_extents _ _ _ Ha ltac:(lia)). eapply at_extents; [exact Ha1|lia].
      * rewrite (at_extents _ _ _ Ha1 ltac:(lia)). eapply at_extents; [exact Ha2|lia].
    + destruct Hf1 as (_ & _ & F3 & _). by rewrite I2, F3.
Qed.

(** ** Publishing *)

Lemma publish_run n s ws ks :
  at_ n s ((Prepared <$> ws) ++ ks) → batch_rows ws + n ≤ k → NoDup (w_ws <$> ws) →
  (∀ w, w ∈ ws → ∃ e, wm s !! w_ws w = Some e ∧ fits e w) →
  wp (publish_batch ws) (λ r s', at_ (batch_rows ws + n) s' ks ∧ calm s s' ∧
    batch_lands (wm s) ws (snapshots r.1) (wm s') ∧ seqs r.1 = w_seq <$> ws ∧ r.2 = batch_folds ws) never s.
Proof.
  intros Ha Hk Hnd Hfit. destruct (at_ready _ _ _ (batch_rows ws) Ha ltac:(lia)) as [Hr Hok].
  rewrite rs_lent_app, lent_writes in Hr. apply Forall_app in Hok as [Hok _]. rewrite Forall_fmap in Hok.
  assert (Hleg : ∀ w e, w ∈ ws → wm s !! w_ws w = Some e → fits e w).
  { intros w e Hw He. destruct (Hfit w Hw) as (e' & He' & Hf). rewrite He in He'. by injection He' as <-. }
  assert (Hv : validate [] ws s = (Ok tt, s)).
  { apply (validate_ok _ _ s _ _ ws [] Hr Hnd). intros w Hw. split; [apply not_elem_of_nil|].
    destruct (Hfit w Hw) as (e & He & _). by eexists. }
  pose proof (publish_batch_ready (extents s0) 0 ws s (lent ks) []) as Hp. rewrite Nat.add_0_r in Hp.
  specialize (Hp Hr Hok Hleg). pose proof (publish_loop_ready (extents s0) 0 ws s (lent ks) []) as Hl. rewrite Nat.add_0_r in Hl.
  specialize (Hl Hr Hok Hnd Hfit).
  assert (Hno : ∀ e s', publish_batch ws s ≠ (Err e, s')).
  { intros e s'. unfold publish_batch, catch, mthen. rewrite Hv. unfold wp in Hl.
    by destruct (publish_loop ws s) as [[r|?|] ?]. }
  unfold wp in *. destruct (publish_batch ws s) as [[r|e|] s'] eqn:Hpb; [|by eapply Hno|done].
  destruct Hp as (_ & Hc & Hb & Hs & Hf). split_and!; try done.
  apply (arrives_call s0 n _ s _ (WriteCall (Publish ws)) ks [] s' ks Ha); [done..| |done|done].
  simpl. unfold plain, handing. by rewrite Hpb.
Qed.

Lemma batch_lands_at m ws snaps m' w e :
  batch_lands m ws snaps m' → NoDup (w_ws <$> ws) → w ∈ ws → m !! w_ws w = Some e → m' !! w_ws w = Some (landed e w).
Proof.
  intros Hb. revert e. induction Hb as [m|m m1 m2 w1 ws e1 snaps snaps' He1 Hl Hb IH]; intros e Hnd Hw He; [by apply not_elem_of_nil in Hw|].
  csimpl in Hnd. apply NoDup_cons in Hnd as [Hn Hnd]. apply elem_of_cons in Hw as [->|Hw].
  - rewrite He1 in He. injection He as <-. destruct Hl as (mr & _ & ->).
    assert (Hk : ∀ m3 m4 l sn, batch_lands m3 l sn m4 → w_ws w1 ∉ w_ws <$> l → ∀ e', m3 !! w_ws w1 = Some e' → m4 !! w_ws w1 = Some e').
    { clear. induction 1 as [|m m1 m2 w ws e snaps snaps' He Hl _ IH]; intros Hn e' He'; [done|].
      csimpl in Hn. apply not_elem_of_cons in Hn as [Hne Hn]. apply IH; [done|]. by eapply lands_other. }
    eapply Hk; [exact Hb|done|]. by rewrite lookup_insert_eq.
  - apply IH; [done..|]. eapply lands_other; [exact Hl| |done]. intros Heq. apply Hn. rewrite <-Heq. by apply list_elem_of_fmap_2.
Qed.

(** ** What a row's pages are once it is published *)

Definition taken_pages (w : RsPreparedWrite) : list RsSlotId := omap taken_page (w_buffers w).

(** The page a row writes: its own, a copy of what it shared, or a new one. *)
Definition page_written s (e : RsEntry) (w : RsPreparedWrite) (page : nat) (id : RsSlotId) : Prop :=
  id ∈ target_dst <$> w_buffers w ∧
  match lookup_page e page with
  | Some src => if decide (ref_count s src ≤ 1)%N then id = src else (src, id) ∈ buffer_copy_plan w ∧ id ∈ taken_pages w
  | None => id ∈ taken_pages w
  end.

Lemma lookup_landed e w page :
  NoDup (target_index <$> w_buffers w) →
  lookup_page (landed e w) page = match filter (λ t, target_index t = page ∧ is_Some (taken_page t)) (w_buffers w) with
    | t :: _ => taken_page t | [] => lookup_page e page end.
Proof.
  intros Hnd. destruct (filter _ _) as [|t l] eqn:Hf.
  - unfold lookup_page, landed. simpl. apply land_out. intros t Ht Hs Heq.
    assert (Hin : t ∈ filter (λ t, target_index t = page ∧ is_Some (taken_page t)) (w_buffers w)) by by apply list_elem_of_filter.
    rewrite Hf in Hin. by apply not_elem_of_nil in Hin.
  - assert (Hin : t ∈ filter (λ t, target_index t = page ∧ is_Some (taken_page t)) (w_buffers w)) by (rewrite Hf; by left).
    apply list_elem_of_filter in Hin as [[<- [d Hd]] Ht]. rewrite Hd. by apply land_in.
Qed.

Lemma pages_landed s e w targets (P : nat → Prop) page :
  Forall2 (target_fits s) targets (w_buffers w) → NoDup (target_index <$> w_buffers w) →
  (∀ i v, (i, v) ∈ targets ↔ v = lookup_page e i ∧ P i) →
  (P page → ∃ id, lookup_page (landed e w) page = Some id ∧ page_written s e w page id) ∧
  (¬ P page → lookup_page (landed e w) page = lookup_page e page).
Proof.
  intros Hf Hnd Hel. split; intros Hin.
  - destruct (proj1 (list_elem_of_lookup _ _) (proj2 (Hel page (lookup_page e page)) (conj eq_refl Hin))) as [i Hi].
    destruct (Forall2_lookup_l _ _ _ _ _ Hf Hi) as (t & Ht & Hft). apply list_elem_of_lookup_2 in Ht.
    assert (Htaken : ∀ d, taken_page t = Some d → target_index t = page → lookup_page (landed e w) page = Some d).
    { intros d Hd <-. unfold lookup_page, landed. simpl. by apply land_in. }
    assert (Hdst : target_dst t ∈ target_dst <$> w_buffers w) by by apply list_elem_of_fmap_2.
    assert (Htp : ∀ d, taken_page t = Some d → d ∈ taken_pages w) by (intros d Hd; apply list_elem_of_omap; eauto).
    destruct t as [j d|j d|j src d]; simpl in *.
    + injection Hft as -> Hlk. exists d. split; [by apply Htaken|]. split; [done|]. rewrite Hlk. by apply Htp.
    + destruct Hft as [[= -> Hlk] Hc]. exists d. split.
      * rewrite lookup_landed by done. destruct (filter _ _) as [|t l] eqn:Hfl; [done|].
        assert (Htl : t ∈ filter (λ t, target_index t = j ∧ is_Some (taken_page t)) (w_buffers w)) by (rewrite Hfl; by left).
        apply list_elem_of_filter in Htl as [[Hj Hs] Htl]. exfalso.
        apply list_elem_of_lookup in Htl as [a Ha], Ht as [b Hb].
        assert (a = b) as ->.
        { eapply NoDup_lookup; [exact Hnd| |]; rewrite list_lookup_fmap; [by rewrite Ha; simpl; rewrite Hj|by rewrite Hb]. }
        rewrite Ha in Hb. injection Hb as ->. by destruct Hs.
      * split; [done|]. rewrite Hlk, decide_True by done. done.
    + destruct Hft as [[= -> Hlk] Hc]. exists d. split; [by apply Htaken|]. split; [done|].
      rewrite Hlk, decide_False by lia. split; [|by apply Htp]. apply list_elem_of_omap. by exists (Cow j src d).
  - rewrite lookup_landed by done. destruct (filter _ _) as [|t l] eqn:Hfl; [done|]. exfalso.
    assert (Htl : t ∈ filter (λ t, target_index t = page ∧ is_Some (taken_page t)) (w_buffers w)) by (rewrite Hfl; by left).
    apply list_elem_of_filter in Htl as [[<- _] Htl]. apply Hin.
    assert (Hi : target_index t ∈ target_index <$> w_buffers w) by by apply list_elem_of_fmap_2.
    rewrite (target_fits_index _ _ _ Hf) in Hi. apply list_elem_of_fmap in Hi as ([i v] & -> & Hv). by apply Hel in Hv as [_ ?].
Qed.

Lemma row_landed s e w pages page :
  Forall2 (target_fits s) (ring_targets s e pages) (w_buffers w) → NoDup (target_index <$> w_buffers w) →
  is_Some (live_ring s e) →
  if decide (page ∈ pages) then ∃ id, lookup_page (landed e w) page = Some id ∧ page_written s e w page id
  else lookup_page (landed e w) page = lookup_page e page.
Proof.
  intros Hf Hnd [rr Hl]. assert (Hel : ∀ i v, (i, v) ∈ ring_targets s e pages ↔ v = lookup_page e i ∧ i ∈ pages).
  { intros i v. unfold ring_targets. rewrite Hl, list_elem_of_fmap.
    destruct (KvStoreThm.sort_dedup_spec pages) as [Hs _]. setoid_rewrite Hs. naive_solver. }
  destruct (pages_landed s e w _ (.∈ pages) page Hf Hnd Hel). case_decide; auto.
Qed.
End history.
End run.
End RsFireRun.
