(* ===== verification/RsFireRing.v ===== *)
(** A fire of a model whose state is a window: its preparation is a run of calls of the
    store that leaves no trace when it fails, tells every lane the pages its window is
    in, and has them stay until the fire settles; and a grant of what a plan demands is
    enough to prepare it. *)
From S2P Require Import Prelude Ids Store Pool KvTable KvStore Hoare RsStore RsBooks RsKeep RsWrites RsPublish RsMoves RsWorld.
From S2P Require Import KvStoreThm RsShare RsCalls RsFire RsFireRun.

Module RsFireRing.
Import KvTable RsStore RsBooks RsKeep RsWrites RsPublish RsMoves RsWorld RsShare RsCalls RsFire RsFireRun.

Section ring.
Context {WS : Type → Type}.
Context `{!KeyedStore RsWorkingSetId WS, !KeyedStoreLaws RsWorkingSetId WS}.
Abbreviation store := (RsStore WS).
Implicit Types s : store.
Abbreviation wm s := (st_map (working_sets s)).
Abbreviation never := (λ _ _, False).

(** ** The window of a row *)

Definition number_of s (o : option RsSlotId) : N := match o with Some id => engine_id s id | None => 0%N end.
Definition row_window s (r : RsWorkingSetId * RingRow) : list N :=
  match wm s !! r.1 with
  | Some e => match live_ring s e with
      | Some _ => (λ page, number_of s (lookup_page e page)) <$> translate r.2
      | None => [] end
  | None => []
  end.

Lemma translate_rows_eq x n s B H rows :
  ready x n s B H → (∀ r, r ∈ rows → is_Some (wm s !! r.1)) → translate_rows rows s = (Ok (row_window s <$> rows), s).
Proof.
  intros Hr. induction rows as [|[ws row] rows IH]; intros Hin; [done|]. cbn [translate_rows].
  destruct (Hin (ws, row) ltac:(by left)) as [e He]. simpl in He. unfold mthen at 1, relay, ring_translation.
  unfold mthen at 1. rewrite (entry_get _ _ _ _ _ _ e Hr He). unfold mthen, mget, mok.
  rewrite IH by (intros r ?; apply Hin; by right). unfold row_window at 2. csimpl. rewrite He.
  by destruct (live_ring s e).
Qed.

Lemma row_fits s r w : row_write s r w → ∃ e, wm s !! w_ws w = Some e ∧ fits e w.
Proof.
  intros (e & He & -> & Hrows & Hst & Hf). exists e. split; [done|]. split.
  - rewrite Hst. done.
  - intros t [i Hi]%list_elem_of_lookup. destruct (Forall2_lookup_r _ _ _ _ _ Hf Hi) as (p & Hp & Hpt).
    apply list_elem_of_lookup_2 in Hp. unfold ring_targets in Hp. destruct (live_ring s e); [|by apply not_elem_of_nil in Hp].
    apply list_elem_of_fmap in Hp as (page & -> & _). destruct t; simpl in *; naive_solver.
  - rewrite Hrows. by intros row id ?%not_elem_of_nil.
Qed.

Lemma rows_none s rows ws : Forall2 (row_write s) rows ws → batch_rows ws = 0 ∧ batch_folds ws = [] ∧ w_ws <$> ws = rows.*1.
Proof.
  induction 1 as [|r w rows ws (e & He & Hw & Hrows & Hst & _) _ (IH1 & IH2 & IH3)]; [done|].
  unfold batch_rows, batch_folds in *. csimpl. rewrite Hrows, Hst. csimpl. by rewrite IH1, IH2, IH3, Hw.
Qed.

Lemma repeats_none sets : ∀ index seen, repeats index seen sets = None → NoDup sets ∧ ∀ ws, ws ∈ sets → ws ∉ seen.
Proof.
  induction sets as [|ws sets IH]; intros index seen; simpl; [split; [constructor|]; by intros ? ?%not_elem_of_nil|].
  case_decide as Hin; [done|]. intros [Hnd Hout]%IH. split.
  - constructor; [|done]. intros Hw. apply (Hout ws Hw). set_solver.
  - intros ws' [->|Hw]%elem_of_cons; [done|]. specialize (Hout ws' Hw). set_solver.
Qed.

Lemma repeats_distinct sets : ∀ index seen, NoDup sets → (∀ ws, ws ∈ sets → ws ∉ seen) → repeats index seen sets = None.
Proof.
  induction sets as [|ws sets IH]; intros index seen Hnd Hout; [done|]. apply NoDup_cons in Hnd as [Hn Hnd]. simpl.
  rewrite decide_False by (apply Hout; by left). apply IH; [done|]. intros ws' Hw.
  rewrite elem_of_app, list_elem_of_singleton. intros [Hs| ->]; [|done]. by apply (Hout ws'); [right|].
Qed.

Lemma lookup_page_slot e page id : lookup_page e page = Some id → Some id ∈ buffer e.
Proof.
  unfold lookup_page. destruct (buffer e !! page) as [[]|] eqn:Hb; simpl; try done. intros [= ->].
  by eapply list_elem_of_lookup_2.
Qed.

Lemma landed_device x n s B H ws e w page id :
  ready x n s B H → wm s !! ws = Some e → holds_host s e = false → write_ok x w →
  lookup_page (landed e w) page = Some id → within (x_pages x) id.
Proof.
  intros Hr He Hh Hw. rewrite lookup_landed by apply Hw. destruct (filter _ _) as [|t l] eqn:Hf.
  - intros Hl%lookup_page_slot. destruct (resident_slots _ _ _ _ _ _ _ Hr He Hh id) as [Hho _].
    { apply elem_of_entry_slots. by right. }
    destruct (eo_buffer _ _ (rd_entries _ _ _ _ _ Hr _ _ He) id Hl) as [|]; [done|]. exfalso. apply Hho. by right.
  - assert (Hin : t ∈ filter (λ t, target_index t = page ∧ is_Some (taken_page t)) (w_buffers w)) by (rewrite Hf; by left).
    apply list_elem_of_filter in Hin as [_ Hin]. intros Ht. eapply (proj1 (Forall_forall _ _) (wo_pages _ _ Hw)).
    apply list_elem_of_omap. eauto.
Qed.

Lemma window_number s r num :
  num ∈ row_window s r → num ≠ 0%N →
  ∃ e page id, wm s !! r.1 = Some e ∧ lookup_page e page = Some id ∧ num = engine_id s id.
Proof.
  unfold row_window. intros Hin Hn. destruct (wm s !! r.1) as [e|]; [|by apply not_elem_of_nil in Hin].
  destruct (live_ring s e); [|by apply not_elem_of_nil in Hin].
  apply list_elem_of_fmap in Hin as (page & -> & _). unfold number_of in *.
  destruct (lookup_page e page) as [id|] eqn:Hl; [|done]. by exists e, page, id.
Qed.

(** ** What lanes are told *)

(** A page a lane reads: where its fire writes it, if it does, and else where it is. *)
Definition page_told s s' (p : RsPublished) (copied : list (N * N)) (row : RingRow) (e : RsEntry) (page : nat) (num : N) : Prop :=
  if decide (page ∈ row_pages row) then
    ∃ id, num = engine_id s' id ∧ (∃ q t, q ∈ seqs p ∧ inflight s' !! q = Some t ∧ id ∈ writes t) ∧
      match lookup_page e page with
      | Some src => if decide (ref_count s src ≤ 1)%N then id = src
          else (engine_id s' src, num) ∈ copied ∧ id ∉ all_slots (wm s)
      | None => id ∉ all_slots (wm s)
      end
  else num = number_of s' (lookup_page e page).

Definition row_told s s' (p : RsPublished) (copied : list (N * N)) (r : RsWorkingSetId * RingRow) (win : list N) : Prop :=
  ∃ e, wm s !! r.1 = Some e ∧
    match live_ring s e with
    | Some _ => Forall2 (page_told s s' p copied r.2 e) (translate r.2) win
    | None => win = []
    end.

(** A fire in flight, with what its lanes are told. *)
Record ring_fire s (rows : list (RsWorkingSetId * RingRow)) (out : PreparedRs) s' : Prop := {
  rf_told : ∃ p, txn_ out = Some p ∧ Forall2 (row_told s s' p (window_copies out)) rows (window out) ∧
    ∀ num, num ∈ concat (window out) → num ≠ 0%N →
      ∃ id q t, page_id s' num = Some id ∧ q ∈ seqs p ∧ inflight s' !! q = Some t ∧ id ∈ reads t;
  rf_nothing : slot_ids out = [] ∧ verbs out = [] ∧ buffer_slot_ids out = [] ∧ fire_snapshots out = [];
}.

Lemma copied_in s ws w src dst :
  w ∈ ws → (src, dst) ∈ buffer_copy_plan w → (engine_id s src, engine_id s dst) ∈ copies_of s ws.
Proof.
  intros Hw Hp. unfold copies_of. apply elem_of_concat.
  exists ((λ p, (engine_id s p.1, engine_id s p.2)) <$> buffer_copy_plan w). split.
  - apply list_elem_of_fmap. by exists w.
  - apply list_elem_of_fmap. by exists (src, dst).
Qed.

(** What a row is told, once its write is published and its fire noted. *)
Lemma told_row s s1 s2 s3 p ws r w x n B :
  still s s1 → ready x n s1 (write_loans w ++ B) [] → write_ok x w → w ∈ ws → row_write s r w →
  extents s3 = extents s → wm s2 !! r.1 = (λ e, landed e w) <$> (wm s !! r.1) → extents s2 = extents s →
  w_seq w ∈ seqs p → (∃ t, inflight s3 !! w_seq w = Some t ∧ writes t = target_dst <$> w_buffers w) →
  row_told s s3 p (copies_of s1 ws) r (row_window s2 r).
Proof.
  intros Hst Hr Hw Hin (e & He & _ & _ & _ & Hf) Hx3 Hl Hx2 Hq (t & Ht & Hwr). exists e. split; [done|].
  rewrite He in Hl. simpl in Hl. unfold row_window. rewrite Hl.
  assert (Hlive : live_ring s2 (landed e w) = live_ring s e).
  { unfold live_ring. rewrite (still_capacity s s2 Hx2). by case_decide. }
  rewrite Hlive. destruct (live_ring s e) as [rr|] eqn:Hrr; [|done].
  assert (Hfresh : ∀ id, id ∈ taken_pages w → id ∉ all_slots (wm s)).
  { intros id Hid (ws' & e' & He' & Hs)%elem_of_all_slots. destruct Hst as (Hws & _). rewrite <-Hws in He'.
    eapply (lent_unheld _ _ _ _ _ _ id Hr); [|exact He'|exact Hs]. unfold write_loans.
    rewrite fmap_app, loans_snd, elem_of_app, (wo_whole _ _ Hw), !elem_of_app. left. right. by left. }
  assert (Hid : ∀ id, engine_id s2 id = engine_id s3 id).
  { intros id. rewrite (engine_id_extents s s2), (engine_id_extents s s3) by done. done. }
  assert (Hid1 : ∀ id, engine_id s1 id = engine_id s3 id).
  { intros id. rewrite (engine_id_extents s s1), (engine_id_extents s s3) by (apply Hst || done). done. }
  apply Forall2_fmap_r, Forall_Forall2_diag, Forall_forall. intros page _. unfold page_told.
  pose proof (row_landed s e w (row_pages r.2) page Hf (wo_indexes _ _ Hw) ltac:(by eexists)) as Hp.
  destruct (decide (page ∈ row_pages r.2)) as [Hpg|Hpg].
  - destruct Hp as (id & Hlk & Hd & Hm). exists id. rewrite Hlk. simpl. split; [done|]. split.
    { exists (w_seq w), t. by rewrite Hwr. }
    destruct (lookup_page e page) as [src|]; [|by apply Hfresh]. case_decide; [done|].
    destruct Hm as [Hc Htk]. split; [|by apply Hfresh]. rewrite Hid, <-!Hid1. by eapply copied_in.
  - simpl. rewrite Hp. unfold number_of. by destruct (lookup_page e page).
Qed.

Section history.
Context (k : nat) (s0 : store) (start : starts k s0).
Abbreviation at_ := (arrives s0).

(** The fire's reads, noted at the last number of its batch. *)
Definition noted s (p : RsPublished) (out : PreparedRs) s' : Prop :=
  ∀ q t, inflight s !! q = Some t → ∃ t', inflight s' !! q = Some t' ∧ writes t' = writes t ∧
    (last (seqs p) = Some q → (∀ id, id ∈ read_slots out → id ∈ reads t') ∧
       ∀ num, num ∈ read_pages out → ∃ id, page_id s num = Some id ∧ id ∈ reads t') ∧
    ∀ id, id ∈ reads t' → id ∈ reads t ∨ id ∈ read_slots out ∨ ∃ num, num ∈ read_pages out ∧ page_id s num = Some id.

(** What a fire may be noted to read: what is held on the device, or it touches already. *)
Definition readable s (id : RsSlotId) : Prop := is_host s id = false ∧ is_Some (refs s !! id).
Definition notable s (p : RsPublished) (id : RsSlotId) : Prop :=
  readable s id ∨ ∀ q, last (seqs p) = Some q → touched s q id.

Lemma note_run n s ks p out :
  at_ n s ks → n ≤ k → Forall (notable s p) (read_slots out) →
  (∀ num, num ∈ read_pages out → ∃ id, page_id s num = Some id ∧ notable s p id) →
  wp (note_fire p out) (λ _ s', at_ n s' ks ∧ still s s' ∧ noted s p out s') never s.
Proof.
  intros Ha Hk Hsl Hpg. unfold note_fire. destruct (last (seqs p)) as [q|] eqn:Hq.
  2: { apply wp_ok. split_and!; [done..|]. intros q t Ht. exists t. rewrite Hq. split_and!; [done..|auto]. }
  apply wp_then, wp_get.
  assert (Hids : ∃ ids, mapM (page_id s) (read_pages out) = Some ids).
  { apply mapM_is_Some_2, Forall_forall. intros num Hn. destruct (Hpg num Hn) as (id & Hid & _). by eexists. }
  destruct Hids as [ids Hids]. apply wp_then. eapply wp_expect; [exact Hids|]. apply mapM_Some in Hids.
  assert (Hall : Forall (notable s p) (read_slots out ++ ids)).
  { apply Forall_app. split; [done|]. apply Forall_forall. intros id [i Hi]%list_elem_of_lookup.
    destruct (Forall2_lookup_r _ _ _ _ _ Hids Hi) as (num & Hn & Hid). apply list_elem_of_lookup_2 in Hn.
    destruct (Hpg num Hn) as (id' & Hid' & Hok). congruence. }
  apply wp_relay. unfold note_reads. apply wp_modify.
  assert (Ha' : at_ n (note_reads q (read_slots out ++ ids) s).2 ks).
  { apply (arrives_plain s0 n s (WriteCall (NoteReads q (read_slots out ++ ids))) ks
      (note_reads q (read_slots out ++ ids)) tt _ Ha); [|done..].
    eapply Forall_impl; [exact Hall|]. intros id [?|Ht]; [by left|right; by apply Ht]. }
  simpl in Ha'. split; [exact Ha'|]. split; [by destruct (inflight s !! q)|]. intros q' t' Ht'.
  destruct (decide (q' = q)) as [->|Hne].
  - rewrite Ht'. simpl. rewrite lookup_insert_eq. eexists. split; [done|]. split; [done|].
    simpl. split.
    + intros _. split; [intros id Hid; rewrite !elem_of_app; tauto|]. intros num Hn.
      apply list_elem_of_lookup in Hn as [i Hi]. destruct (Forall2_lookup_l _ _ _ _ _ Hids Hi) as (id & Hid & Hnum).
      exists id. split; [done|]. rewrite !elem_of_app. right. right. by eapply list_elem_of_lookup_2.
    + intros id. rewrite !elem_of_app. intros [?|[?|[i Hi]%list_elem_of_lookup]]; [by left|by right; left|]. right; right.
      destruct (Forall2_lookup_r _ _ _ _ _ Hids Hi) as (num & Hn & Hid). exists num. split; [by eapply list_elem_of_lookup_2|done].
  - exists t'. destruct (inflight s !! q); simpl; rewrite ?lookup_insert_ne by done; (split_and!; [done..|congruence|auto]).
Qed.

Lemma advance_run n s ks rows :
  at_ n s ks → n ≤ k → (∀ r, r ∈ rows → is_Some (wm s !! r.1)) →
  wp (mfor rows (λ r, relay StoreError (ring_advance r.1 (advance r.2) (translate r.2))))
    (λ _ s', at_ n s' ks ∧ calm s s') never s.
Proof.
  intros Ha Hk Hin.
  set (I := λ (rows : list (RsWorkingSetId * RingRow)) s', at_ n s' ks ∧ calm s s' ∧ ∀ r, r ∈ rows → is_Some (wm s' !! r.1)).
  eapply wp_mono; [apply (wp_for _ I never); [|done]|by intros [] s' (? & ? & _)|done].
  clear Ha Hin. intros [ws row] l s1 (Ha & Hc & Hin). simpl. apply wp_relay.
  destruct (at_ready k s0 start n s1 ks 0 Ha ltac:(lia)) as [Hr _].
  destruct (Hin (ws, row) ltac:(by left)) as [e He]. simpl in He.
  pose proof (ring_advance_ready _ 0 s1 ws (advance row) (translate row) _ _ Hr ltac:(by eexists)) as Hw. unfold wp in *.
  destruct (ring_advance ws (advance row) (translate row) s1) as [[[]|?|] s2] eqn:Hs2; [|done..].
  destruct Hw as (_ & Hc2 & Hw). split_and!.
  + apply (arrives_plain s0 n s1 (SetCall (AdvanceRing ws (advance row) (translate row))) ks
      (ring_advance ws (advance row) (translate row)) tt _ Ha); [by eexists|done..].
  + by etrans.
  + intros r Hrl. specialize (Hw e He). specialize (Hin r ltac:(by right)). rewrite Hw.
    destruct (ring s1), (ring_state e); try done. apply lookup_insert_is_Some'. by right.
Qed.

Lemma readable_page x n s B H ws e page id :
  ready x n s B H → wm s !! ws = Some e → lookup_page e page = Some id → within (x_pages x) id → readable s id.
Proof.
  intros Hr He Hl Hw.
  assert (Hrf : is_Some (refs s !! id)).
  { apply (ref_held _ _ _ _ _ id Hr), elem_of_app. left. apply elem_of_all_slots. exists ws, e. split; [done|].
    apply elem_of_entry_slots. right. by eapply lookup_page_slot. }
  split; [|done]. destruct (ref_exists _ _ _ _ _ id Hr Hrf) as [Hex _].
  pose proof (rd_layout _ _ _ _ _ Hr) as Hlay. rewrite <-(rd_extents _ _ _ _ _ Hr) in Hlay, Hex, Hw.
  destruct (is_host s id) eqn:Hh; [|done]. exfalso. eapply (device_within _ id); [exact Hlay|by right|].
  by apply (is_host_spec s id Hlay Hex).
Qed.

(** What of the batch is known when it is published: each row's write is landed. *)
Definition rows_landed s (rows : list (RsWorkingSetId * RingRow)) (ws : list RsPreparedWrite) s2 : Prop :=
  Forall2 (λ r w, row_write s r w ∧ wm s2 !! r.1 = (λ e, landed e w) <$> (wm s !! r.1)) rows ws.

Lemma window_readable n n' s s2 ks ks' rows ws num :
  at_ n s ks → n ≤ k → at_ n' s2 ks' → n' ≤ k → rows_landed s rows ws s2 → Forall (write_ok (extents s0)) ws →
  Forall (row_ok s) rows → num ∈ concat (row_window s2 <$> rows) → num ≠ 0%N →
  ∃ id, page_id s2 num = Some id ∧ readable s2 id ∧ (num < RS_TRANSLATION_UNMAPPED)%N.
Proof.
  intros Ha Hk Ha2 Hk2 Hland Hwok Hok Hnum Hz.
  destruct (at_ready k s0 start n s ks 0 Ha ltac:(lia)) as [Hr _].
  destruct (at_ready k s0 start n' s2 ks' 0 Ha2 ltac:(lia)) as [Hr2 _].
  apply elem_of_concat in Hnum as (win & Hw & Hnum). apply list_elem_of_fmap in Hw as (r & -> & Hrr).
  destruct (window_number _ _ _ Hnum Hz) as (e2 & page & id & He2 & Hl & ->).
  apply list_elem_of_lookup in Hrr as [i Hi].
  destruct (Forall2_lookup_l _ _ _ _ _ Hland Hi) as (w & Hwi & (e & He & _) & Hl2).
  rewrite He, He2 in Hl2. injection Hl2 as ->. apply list_elem_of_lookup_2 in Hi, Hwi.
  destruct (proj1 (Forall_forall _ _) Hok r Hi) as [Hres _].
  assert (Hpg : within (x_pages (extents s0)) id).
  { eapply (landed_device _ 0 s); [exact Hr|exact He|by apply Hres|by eapply (proj1 (Forall_forall _ _) Hwok)|exact Hl]. }
  assert (Hpg' := Hpg). rewrite <-(rd_extents _ _ _ _ _ Hr2) in Hpg'. exists id.
  destruct (page_number s2 id) as [-> ?]; [rewrite (rd_extents _ _ _ _ _ Hr2); apply Hr2|done|].
  split_and!; [done| |done]. by eapply (readable_page _ 0 s2).
Qed.

Lemma rows_landed_all s s1 s2 rows ws snaps :
  Forall2 (row_write s) rows ws → wm s1 = wm s → NoDup rows.*1 → batch_lands (wm s1) ws snaps (wm s2) →
  rows_landed s rows ws s2.
Proof.
  intros Hrw Hw Hnd Hb. destruct (rows_none s rows ws Hrw) as (_ & _ & Hws). rewrite <-Hws in Hnd.
  apply Forall2_same_length_lookup_2; [by eapply Forall2_length|]. intros i r w Hr Hi.
  assert (Hrwi : row_write s r w) by by eapply Forall2_lookup_lr. split; [done|].
  destruct Hrwi as (e & He & Hwr & _). rewrite He. simpl. rewrite <-Hwr.
  eapply batch_lands_at; [exact Hb|done|by eapply list_elem_of_lookup_2|]. by rewrite Hw, Hwr.
Qed.

(** The fire as it leaves the preparation. *)
Lemma ring_fire_made n n' s s1 s2 s3 s4 ks ks' rows ws p out out' B :
  still s s1 → ready (extents s0) 0 s1 (batch_loans ws ++ B) [] → Forall (write_ok (extents s0)) ws →
  Forall (λ w, inflight s1 !! w_seq w = Some (touch_of None (w_buffers w))) ws →
  at_ n s ks → n ≤ k → extents s2 = extents s → extents s4 = extents s → rows_landed s rows ws s2 → seqs p = w_seq <$> ws →
  calm s1 s2 → noted s2 p out s3 → calm s3 s4 →
  at_ n' s2 ks' → n' ≤ k → Forall (row_ok s) rows →
  out = mkPrepared [] [] ([], []) ([], []) [] [] (row_window s2 <$> rows) (copies_of s1 ws) [] None →
  out' = mkPrepared [] [] ([], []) ([], []) [] [] (row_window s2 <$> rows) (copies_of s1 ws) [] (Some p) →
  ring_fire s rows out' s4.
Proof.
  intros Hst Hr1 Hwok Hfl Ha Hk Hx2 Hx4 Hland Hq Hc12 Hnote Hc34 Ha2 Hk2 Hok -> ->. split; [|done]. exists p. simpl.
  destruct Hc12 as (_ & Hi2 & _), Hc34 as (_ & Hi4 & _). split_and!; [done| |].
  - apply Forall2_fmap_r, Forall2_flip. (* rows with their windows *)
    apply Forall_Forall2_diag, Forall_forall. intros r [i Hi]%list_elem_of_lookup. unfold flip.
    destruct (Forall2_lookup_l _ _ _ _ _ Hland Hi) as (w & Hwi & Hrw & Hl).
    apply list_elem_of_lookup_2 in Hwi as Hin.
    
    assert (Hw1 : inflight s2 !! w_seq w = Some (touch_of None (w_buffers w))).
    { rewrite Hi2. by apply (proj1 (Forall_forall _ _) Hfl). }
    destruct (Hnote _ _ Hw1) as (t' & Ht' & Hwr & _).
    destruct (elem_of_Permutation ws w) as [Hperm _]. destruct (Hperm Hin) as [ws' Hp]. clear Hperm. rename Hp into Hperm.
    eapply (told_row s s1 s2 s4 p ws r w (extents s0) 0 (batch_loans ws' ++ B)); try done.
    + eapply rs_ready_perm; [|done|exact Hr1]. unfold batch_loans. rewrite Hperm. csimpl. by rewrite <-app_assoc.
    + by eapply (proj1 (Forall_forall _ _) Hwok).
    + rewrite Hq. by apply list_elem_of_fmap_2.
    + exists t'. by rewrite Hi4.
  - intros num Hnum Hz.
    destruct (window_readable n n' s s2 ks ks' rows ws num Ha Hk Ha2 Hk2 Hland Hwok Hok Hnum Hz) as (id & Hid & _ & Hlt).
    destruct (last ws) as [w|] eqn:Hlast.
    2: { apply last_None in Hlast as ->. apply Forall2_length in Hland. destruct rows; [|done]. by apply not_elem_of_nil in Hnum. }
    assert (Hin : w ∈ ws) by by apply last_Some_elem_of.
    assert (Hw1 : inflight s2 !! w_seq w = Some (touch_of None (w_buffers w))).
    { rewrite Hi2. by apply (proj1 (Forall_forall _ _) Hfl). }
    destruct (Hnote _ _ Hw1) as (t' & Ht' & _ & Hread & _).
    assert (Hl : last (seqs p) = Some (w_seq w)) by by rewrite Hq, fmap_last, Hlast.
    destruct (Hread Hl) as [_ Hread']. destruct (Hread' num) as (id' & Hid' & Hrd).
    { unfold read_pages. simpl. apply list_elem_of_filter. split; [|rewrite elem_of_app; by left].
      unfold live. rewrite andb_true_iff, !bool_decide_eq_true. unfold RS_TRANSLATION_UNMAPPED in *. lia. }
    rewrite Hid in Hid'. injection Hid' as <-. exists id, (w_seq w), t'. split_and!.
    + unfold page_id in *. rewrite <-Hx2 in Hx4. injection Hx4 as _ _ _ _ _ _ _ _ Hp. by rewrite Hp.
    + rewrite Hq. by apply list_elem_of_fmap_2.
    + by rewrite Hi4.
    + done.
Qed.

(** Once its rows are prepared, the fire is. *)
Lemma publish_rows_run n s g g1 s1 ks rows ws :
  at_ n s (grants g ++ ks) → length rows + n ≤ k → NoDup rows.*1 → Forall (row_ok s) rows →
  at_ (length rows + n) s1 (grants g1 ++ (Prepared <$> ws) ++ ks) → rows_prepared s [] rows ws s1 →
  wp (publish_rows rows ws)
    (λ out p, at_ (length rows + n) p.1 (grants p.2 ++ ks) ∧ ring_fire s rows out p.1) never (s1, g1).
Proof.
  intros Ha Hk Hndr Hok Ha1 (Hs1 & _ & _ & added & -> & Hrw & Hfl). unfold publish_rows. simpl in *.
  apply wp_then, wp_get. cbn zeta. apply wp_on_store. destruct (rows_none _ _ _ Hrw) as (Hb0 & Hf0 & Hws).
  destruct (at_ready k s0 start _ s1 _ 0 Ha1 ltac:(lia)) as [Hr1 Htok].
  assert (Hwok : Forall (write_ok (extents s0)) added).
  { rewrite !Forall_app in Htok. destruct Htok as (_ & Htok & _). by rewrite Forall_fmap in Htok. }
  eapply wp_bind; [apply wp_relay_sure, (publish_run k s0 start (length rows + n) s1 added (grants g1 ++ ks))| |done].
  { eapply arrives_perm; [exact Ha1|solve_perm]. }
  { lia. }
  { by rewrite Hws. }
  { intros w [i Hi]%list_elem_of_lookup. destruct (Forall2_lookup_r _ _ _ _ _ Hrw Hi) as (r & _ & Hr).
    destruct (row_fits _ _ _ Hr) as (e & He & Hfit). exists e. destruct Hs1 as (-> & _). done. }
  intros [p folds] s2 (Ha2 & Hc2 & Hb2 & Hq2 & Hfo). simpl in *. rewrite Hb0 in Ha2. simpl in Ha2. subst folds.
  rewrite Hf0. cbn [mfor commit_folds]. apply wp_then, wp_relay, wp_ok.
  assert (Hland : rows_landed s rows added s2).
  { eapply rows_landed_all; [exact Hrw| |done|exact Hb2]. by destruct Hs1 as (-> & _). }
  destruct (at_ready k s0 start _ s2 _ 0 Ha2 ltac:(lia)) as [Hr2 _].
  assert (Hin2 : ∀ r, r ∈ rows → is_Some (wm s2 !! r.1)).
  { intros r [i Hi]%list_elem_of_lookup. destruct (Forall2_lookup_l _ _ _ _ _ Hland Hi) as (w & _ & (e & He & _) & ->).
    rewrite He. by eexists. }
  apply wp_then. eapply wp_ret; [unfold relay; by rewrite (translate_rows_eq _ _ _ _ _ rows Hr2 Hin2)|].
  eapply wp_bind; [eapply (note_run _ s2 _ p _ Ha2); [lia|done|]| |done].
  { intros num. unfold read_pages, live. simpl. rewrite !app_nil_r, list_elem_of_filter, andb_true_iff, bool_decide_eq_true.
    intros [[Hz _] Hnum]. destruct (window_readable n _ s s2 _ _ rows added num Ha ltac:(lia) Ha2 ltac:(lia) Hland Hwok Hok Hnum Hz)
      as (id & ? & ? & _). exists id. split; [done|by left]. }
  intros [] s3 (Ha3 & Hs3 & Hn3). destruct Hs3 as (W3 & _).
  eapply wp_bind; [apply (advance_run _ s3 _ rows Ha3); [lia|by rewrite W3]| |done].
  intros [] s4 (Ha4 & Hc4). apply wp_ok. simpl. split; [done|].
  assert (Hx : ∀ m s' ks', at_ m s' ks' → m ≤ k → extents s' = extents s).
  { intros m s' ks' Ha' Hm. rewrite (at_extents k s0 start m s' ks' Ha' Hm). symmetry.
    apply (at_extents k s0 start n s _ Ha). lia. }
  eapply (ring_fire_made n _ s s1 s2 s3 s4 (grants g ++ ks) (grants g1 ++ ks) rows added p _ _ (lent (grants g1) ++ lent ks)); try done; try lia.
  - rewrite !rs_lent_app, lent_writes in Hr1. eapply rs_ready_perm; [|done|exact Hr1]. solve_perm.
  - eapply Hx; [exact Ha2|lia].
  - eapply Hx; [exact Ha4|lia].
Qed.

Lemma ring_run n s g ks sets rws :
  at_ n s (grants g ++ ks) → length (zip sets rws) + n ≤ k → NoDup sets → Forall (row_ok s) (zip sets rws) →
  wp (prepare_ring_rows sets rws)
    (λ out p, at_ (length (zip sets rws) + n) p.1 (grants p.2 ++ ks) ∧ ring_fire s (zip sets rws) out p.1)
    (λ _ p, ∃ m, m ≤ length (zip sets rws) + n ∧ at_ m p.1 (grants p.2 ++ ks) ∧ still s p.1 ∧
       inflight p.1 = inflight s) (s, g).
Proof.
  intros Ha Hk Hnd Hok. unfold prepare_ring_rows. case_decide as Hlen.
  { apply wp_err. exists n. split_and!; [lia|done..]. }
  eapply wp_bind; [apply (prepare_rows_run k s0 start ks (zip sets rws) n s g 0 []); [done..|lia]| |done].
  intros ws [s1 g1] [Ha1 Hp1]. simpl in *.
  eapply wp_mono; [eapply publish_rows_run; [exact Ha|done| |done..]|done|done].
  rewrite fst_zip by lia. done.
Qed.
End history.
End ring.
End RsFireRing.
