(* ===== verification/RsFireGroup.v ===== *)
(** A fire of one group of lanes over one working set: its preparation is a run of calls
    of the store, leaves no trace when it fails, and tells each lane the slot its state
    is in and the pages of the buffer. *)
From S2P Require Import Prelude Ids Store Pool KvTable KvStore Hoare RsStore RsBooks RsKeep RsWrites RsPublish RsMoves RsWorld.
From S2P Require Import RsShare RsCalls RsFire RsFireRun RsFireRing.

Module RsFireGroup.
Import KvTable RsStore RsBooks RsKeep RsWrites RsPublish RsMoves RsWorld RsShare RsCalls RsFire RsFireRun RsFireRing.

(** ** The loops over the lanes *)

(** What the lane at a place in its group is told: a slot, and whether it starts from zeros. *)
Definition told (at_ : nat) (state : option RsStateTarget) (held : option RsSlotId) : option (RsSlotId * bool) :=
  match at_, state, held with
  | S _, Some st, None => Some (slot st, true)
  | 0, Some st, _ => Some (slot st, reset st)
  | _, _, Some h => Some (h, false)
  | _, _, None => None
  end.
Definition flag_of (reset : bool) : N := if reset then RS_FLAG_RESET else 0.

Definition copied_state (out : PreparedRs) (state : option RsStateTarget) : list N * list N :=
  match state ≫= copy_from, state with
  | Some src, Some st => ((state_copies out).1 ++ [index src], (state_copies out).2 ++ [index (slot st)])
  | _, _ => state_copies out
  end.

(** The fields the loop over the lanes' slots leaves alone. *)
Definition beside (out : PreparedRs) :=
  (page_copies out, buffer_slot_ids out, verbs out, window out, window_copies out, fire_snapshots out, txn_ out).

Record lanes_told (out out' : PreparedRs) (at_ : nat) (ls : list nat) (state : option RsStateTarget)
    (held : option RsSlotId) : Prop := {
  lt_length : length (slot_ids out') = length (slot_ids out) ∧ length (slot_flags out') = length (slot_flags out);
  lt_in i lane id r : ls !! i = Some lane → told (at_ + i) state held = Some (id, r) →
    slot_ids out' !! lane = Some (index id) ∧
    (slot_flags out !! lane = Some 0%N → slot_flags out' !! lane = Some (flag_of r));
  lt_out lane : lane ∉ ls → slot_ids out' !! lane = slot_ids out !! lane ∧ slot_flags out' !! lane = slot_flags out !! lane;
  lt_beside : beside out' = beside out;
  lt_copies : state_copies out' = match at_, ls with 0, _ :: _ => copied_state out state | _, _ => state_copies out end;
}.

Section lanes.
Context {WS : Type → Type}.
Context `{!KeyedStore RsWorkingSetId WS, !KeyedStoreLaws RsWorkingSetId WS}.
Abbreviation store := (RsStore WS).
Implicit Types s : store.

Lemma lane_slots_told out at_ lane state held (g : store * option RsGrant) :
  lane < length (slot_ids out) → length (slot_flags out) = length (slot_ids out) → is_Some (told at_ state held) →
  ∃ out', lane_slots out at_ lane state held g = (Ok out', g) ∧ lanes_told out out' at_ [lane] state held.
Proof.
  intros Hl Hf [[id r] Ht].
  assert (Hone : ∀ out', length (slot_ids out') = length (slot_ids out) → length (slot_flags out') = length (slot_flags out) →
    slot_ids out' = <[lane := index id]> (slot_ids out) →
    slot_flags out' = (if r then <[lane := RS_FLAG_RESET]> (slot_flags out) else slot_flags out) →
    beside out' = beside out → state_copies out' = match at_ with 0 => copied_state out state | _ => state_copies out end →
    lanes_told out out' at_ [lane] state held).
  { intros out' L1 L2 Hi Hfl Hb Hc. split; [done| | |done|by destruct at_].
    - intros [|i] lane' id' r' Hli Ht'; [|done]. injection Hli as <-. rewrite Nat.add_0_r, Ht in Ht'. injection Ht' as <- <-.
      rewrite Hi, Hfl. split; [by rewrite list_lookup_insert_eq|]. intros H0. destruct r; [|done].
      rewrite list_lookup_insert_eq; [done|by rewrite Hf].
    - intros lane' Hn%not_elem_of_cons. destruct Hn as [Hne _]. rewrite Hi, Hfl, list_lookup_insert_ne by done.
      split; [done|]. destruct r; [by rewrite list_lookup_insert_ne|done]. }
  unfold lane_slots, mthen, mguard, mok. destruct at_ as [|at_]; simpl in *.
  - destruct (decide (0 < 0)) as [|_]; [lia|]. destruct state as [st|]; [|destruct held; [|done]].
    all: injection Ht as <- <-; rewrite decide_True by done; eexists; split; [reflexivity|]; apply Hone; simpl; try done.
    all: try (by rewrite ?length_insert).
    by destruct (reset st); rewrite ?length_insert.
  - destruct (decide (0 < S at_)) as [_|]; [|lia]. destruct state as [st|], held as [h|]; try done.
    all: injection Ht as <- <-; rewrite decide_True by done; eexists; split; [reflexivity|]; apply Hone; simpl; try done.
    all: by rewrite ?length_insert.
Qed.

Lemma group_slots_told state held (g : store * option RsGrant) ls : ∀ out at_,
  NoDup ls → Forall (λ lane, lane < length (slot_ids out)) ls → length (slot_flags out) = length (slot_ids out) →
  (∀ i, is_Some (told i state held)) →
  ∃ out', group_slots out at_ ls state held g = (Ok out', g) ∧ lanes_told out out' at_ ls state held.
Proof.
  induction ls as [|lane ls IH]; intros out at_ Hnd Hlt Hf Ht.
  { exists out. split; [done|]. split; try done. by destruct at_. }
  apply NoDup_cons in Hnd as [Hn Hnd]. apply Forall_cons in Hlt as [Hl Hlt].
  destruct (lane_slots_told out at_ lane state held g Hl Hf (Ht at_)) as (o1 & H1 & [[L1 F1] I1 O1 B1 C1]).
  destruct (IH o1 (S at_) Hnd) as (o2 & H2 & [[L2 F2] I2 O2 B2 C2]); [by rewrite L1|by rewrite L1, F1|done|].
  exists o2. cbn [group_slots]. unfold mthen. rewrite H1, H2. split; [done|]. split.
  - split; congruence.
  - intros [|i] lane' id r; simpl.
    + intros [= <-] Hid. destruct (I1 0 lane id r eq_refl Hid) as [Ha Hb]. destruct (O2 lane Hn) as [-> ->]. done.
    + intros Hi Hid. assert (lane' ∉ [lane]) as [_ Hfl]%O1.
      { intros ->%list_elem_of_singleton. apply Hn. by eapply list_elem_of_lookup_2. }
      rewrite Nat.add_succ_r in Hid. rewrite <-Hfl. by eapply I2.
  - intros lane' [Hne Hni]%not_elem_of_cons. destruct (O2 lane' Hni) as [-> ->]. apply O1.
    by intros ->%list_elem_of_singleton.
  - congruence.
  - rewrite C2. destruct at_; [done|by rewrite C1].
Qed.

(** The fold a lane at a place is told. *)
Definition fold_len (at_ : nat) (fold : GroupFold) : FoldLen :=
  match at_, fold with 0, HostFold count => HostLen count | 0, DeviceFold => DeviceLen | _, _ => HostLen 0 end.

Lemma group_verbs_told fold pages base folded s ls : ∀ vs at_,
  NoDup ls → Forall (λ lane, lane < length vs) ls →
  ∃ vs', group_verbs vs at_ ls fold pages base folded s = (Ok vs', s) ∧ length vs' = length vs ∧
    (∀ i lane, ls !! i = Some lane → vs' !! lane = Some (Buffer pages base folded (fold_len (at_ + i) fold))) ∧
    ∀ lane, lane ∉ ls → vs' !! lane = vs !! lane.
Proof.
  induction ls as [|lane ls IH]; intros vs at_ Hnd Hlt; [by exists vs|].
  apply NoDup_cons in Hnd as [Hn Hnd]. apply Forall_cons in Hlt as [Hl Hlt].
  destruct (IH (<[lane := Buffer pages base folded (fold_len at_ fold)]> vs) (S at_) Hnd) as (vs' & Hv & L & I & O).
  { by rewrite length_insert. }
  exists vs'. cbn [group_verbs]. unfold mthen, mguard. rewrite decide_True by done.
  split; [exact Hv|]. rewrite length_insert in L. split_and!; [done| |].
  - intros [|i] lane'; simpl.
    + intros [= <-]. rewrite O, list_lookup_insert_eq, Nat.add_0_r by done. done.
    + intros Hi. rewrite (I i lane' Hi). by rewrite Nat.add_succ_r.
  - intros lane' [Hne Hni]%not_elem_of_cons. rewrite O by done. by apply list_lookup_insert_ne.
Qed.

Abbreviation wm s := (st_map (working_sets s)).
Abbreviation never := (λ _ _, False).

(** ** The write of the group *)

Definition fold_count_of (gp : GroupPlan) : option N :=
  match group_fold gp with HostFold count => if decide (0 < count)%N then Some count else None | _ => None end.
Definition folds_of (gp : GroupPlan) : bool :=
  bool_decide (is_Some (fold_count_of gp)) || bool_decide (group_fold gp = DeviceFold).
Definition writes_state (e : RsEntry) (gp : GroupPlan) : bool := folds_of gp || bool_decide (folded e = None).
Definition fresh_for (e : RsEntry) (gp : GroupPlan) : bool :=
  folds_of gp && bool_decide (is_Some (folded e)) && bool_decide (1 < length (lanes gp)).

Lemma group_write_run x n s B H gp ws e :
  ready x n s B H → wm s !! ws = Some e →
  wp (group_write gp ws) (λ w s', s' = s ∧ w = (writes_state e gp, fresh_for e gp, fold_count_of gp, group_writes gp))
    (λ _ s', s' = s) s.
Proof.
  intros Hr He. unfold group_write.
  eapply wp_bind with (Q0 := λ h s', s' = s ∧ h = folded e) (X0 := λ _ s', s' = s); [|intros h s1 [-> ->]|done].
  { apply wp_relay. unfold folded_slot. eapply wp_bind; [by eapply entry_ready|intros e' s1 [-> He']|by intros ? ? [-> _]].
    apply wp_ok. split; [done|]. congruence. }
  cbv zeta. change (match group_fold gp with HostFold count => _ | _ => None end) with (fold_count_of gp).
  case_match; [by apply wp_err|]. by apply wp_ok.
Qed.

(** What the group's set and lanes may be: on the device, and within the numbering of
    tokens. *)
Record group_ok s (ws : RsWorkingSetId) (gp : GroupPlan) : Prop := {
  go_resident : resident s ws;
  go_writes a b : group_writes gp = Some (a, b) → (b ≤ u32_max)%N;
  go_count : (N.of_nat (length (group_rows gp)) ≤ u32_max)%N;
  go_rows e : wm s !! ws = Some e → Forall (λ row, (frozen e + row ≤ u32_max)%N) (group_rows gp);
}.

(** A failed write leaves its set's buffer longer at most, by pages it has not. *)
Record traceless s (ws : RsWorkingSetId) s' : Prop := {
  tl_inflight : inflight s' = inflight s;
  tl_checkpoints : checkpoints s' = checkpoints s;
  tl_refs : refs s' = refs s;
  tl_sets : wm s' = wm s ∨ ∃ e r, wm s !! ws = Some e ∧ wm s' = <[ws := sized e r]> (wm s);
}.

(** A group's write, as of the store where its preparation began. *)
Record group_prepared s (ws : RsWorkingSetId) (e : RsEntry) (gp : GroupPlan) (w : RsPreparedWrite) s1 : Prop := {
  gw_ws : w_ws w = ws;
  gw_sets : wm s1 = <[ws := sized e (group_writes gp)]> (wm s);
  gw_refs : refs s1 = refs s;
  gw_rows : (w_snapshots w).*1 = group_rows gp;
  gw_state : state_fits s e (writes_state e gp) (fresh_for e gp) (w_state w);
  gw_fold : w_state w ≫= fold_tokens = if writes_state e gp then fold_count_of gp else None;
  gw_fits : fits (sized e (group_writes gp)) w;
  gw_targets : ∃ targets s', buffer_targets (sized e (group_writes gp)) (group_writes gp) s' = (Ok targets, s') ∧
    Forall2 (target_fits s) targets (w_buffers w);
  gw_pages t : t ∈ w_buffers w → match t with Cow _ src _ => src ∈ entry_slots e | _ => True end;
  gw_touched : ∃ t, inflight s1 !! w_seq w = Some t ∧ grown (touch_of (w_state w) (w_buffers w)) t (w_allocated w);
}.

Lemma all_slots_sized m ws e r : m !! ws = Some e → all_slots (<[ws := sized e r]> m) ≡ₚ all_slots m.
Proof.
  intros He. pose proof (all_slots_update m ws e (sized e r) He) as Hp. rewrite sized_slots in Hp.
  by apply Permutation_app_inv_l in Hp.
Qed.

Section history.
Context (k : nat) (s0 : store) (start : starts k s0).
Abbreviation at_ := (arrives s0).

Lemma group_step n s g ks ws write_state fresh fold r :
  at_ n s (grants g ++ ks) → resident s ws → (∀ a b, r = Some (a, b) → (b ≤ u32_max)%N) → S n ≤ k →
  wp (prepare_group ws write_state fresh fold r)
    (λ w p, at_ (S n) p.1 (grants p.2 ++ Prepared w :: ks) ∧ write_ok (extents s0) w ∧
       ∃ e s1 targets, wm s !! ws = Some e ∧ group_sized s ws r s1 ∧
         buffer_targets (sized e r) r s1 = (Ok targets, s1) ∧
         prepared s1 (sized e r) ws write_state fresh fold targets w p.1)
    (λ _ p, at_ (S n) p.1 (grants p.2 ++ ks) ∧ calm s p.1 ∧ (wm p.1 = wm s ∨ ∃ e, wm s !! ws = Some e ∧
       wm p.1 = <[ws := sized e r]> (wm s))) (s, g).
Proof.
  intros Ha Hres Hb Hk. destruct (at_ready k s0 start _ _ _ 1 Ha ltac:(lia)) as [Hr Hok].
  rewrite rs_lent_app, grants_lent in Hr. apply Forall_app in Hok as [Hg _]. apply grants_ok in Hg.
  pose proof (prepare_group_ready _ 0 (s, g) ws write_state fresh fold r (lent ks) [] (conj Hr Hg) Hres Hb) as Hwp.
  assert (Ha' : at_ n s (grants g ++ [] ++ ks)) by done.
  pose proof (arrives_borrow s0 n s g [] ks (WriteCall (PrepareGroup g ws write_state fresh fold r)) _ _ _ _ _ Ha'
    (conj Hres Hb) (eq_sym (app_nil_r _)) eq_refl Hwp) as Hbr.
  eapply wp_mono; [exact Hbr|..]; [intros w p (? & _ & ? & ?)|intros e p (? & _ & ?)]; done.
Qed.

Lemma rows_step n s g ks w rows :
  at_ n s (grants g ++ Prepared w :: ks) → w_snapshots w = [] → (N.of_nat (length rows) ≤ u32_max)%N → n ≤ k →
  wp (prepare_snapshots w rows)
    (λ w' p, at_ n p.1 (grants p.2 ++ Prepared w' :: ks) ∧ write_ok (extents s0) w' ∧
       (∃ ids, length ids = length rows ∧ w' = if decide (rows = []) then w else with_rows w rows ids) ∧
       wm p.1 = wm s ∧ refs p.1 = refs s ∧
       ∀ q t, inflight s !! q = Some t → ∃ t', inflight p.1 !! q = Some t' ∧
         grown t t' (w_allocated w'))
    (λ _ p, at_ n p.1 (grants p.2 ++ Prepared w :: ks) ∧ frame s p.1) (s, g).
Proof.
  intros Ha Hnil Hlen Hk. destruct (at_ready k s0 start _ _ _ 0 Ha ltac:(lia)) as [Hr Hok].
  rewrite rs_lent_app, grants_lent, rs_lent_cons in Hr. apply Forall_app in Hok as [Hg Hok]. apply grants_ok in Hg.
  apply Forall_cons in Hok as [Hw _].
  assert (Hr' : ready (extents s0) 0 s (grant_loans g ++ write_loans w ++ lent ks) []) by done.
  pose proof (prepare_snapshots_ready _ 0 (s, g) w rows (lent ks) [] (conj Hr' Hg) Hw Hnil Hlen) as Hwp.
  assert (Ha' : at_ n s (grants g ++ [Prepared w] ++ ks)) by done.
  pose proof (arrives_borrow s0 n s g [Prepared w] ks (WriteCall (PrepareRows g w rows)) _ _ _ _ _ Ha'
    (conj Hnil Hlen) eq_refl eq_refl Hwp) as Hbr.
  eapply wp_mono; [exact Hbr|..]; [intros w' p (? & _ & ? & ? & ? & ? & ?)|intros e p (? & _ & ?)]; done.
Qed.

(** *** The write with its rows *)

Lemma sized_same e r : folded (sized e r) = folded e ∧ frozen (sized e r) = frozen e.
Proof. unfold sized. by destruct (nonempty r) as [[]|]. Qed.

Lemma fits_state s s1 e e1 ws fr o :
  refs s1 = refs s → folded e1 = folded e → state_fits s1 e1 ws fr o → state_fits s e ws fr o.
Proof.
  intros Hr Hf. unfold state_fits, ref_count. by rewrite Hr, Hf.
Qed.

(** A write takes up its rows. *)
Lemma rows_group s s1 s2 s3 ws e gp w w' ids targets :
  wm s !! ws = Some e → group_ok s ws gp → group_sized s ws (group_writes gp) s1 →
  prepared s1 (sized e (group_writes gp)) ws (writes_state e gp) (fresh_for e gp) (fold_count_of gp) targets w s2 →
  buffer_targets (sized e (group_writes gp)) (group_writes gp) s1 = (Ok targets, s1) →
  (∀ i v, (i, v) ∈ targets → v = lookup_page (sized e (group_writes gp)) i) →
  length ids = length (group_rows gp) →
  w' = (if decide (group_rows gp = []) then w else with_rows w (group_rows gp) ids) →
  wm s3 = wm s2 → refs s3 = refs s2 →
  (∀ q t, inflight s2 !! q = Some t → ∃ t', inflight s3 !! q = Some t' ∧ grown t t' (w_allocated w')) →
  group_prepared s ws e gp w' s3.
Proof.
  intros He Hok (Hc & Hrf & Hw1) Hp Hbt Hl Hlen -> Hw3 Hr3 Hin.
  pose proof (prepared_fits _ _ _ _ _ _ _ _ _ Hp Hl) as [F1 F2 F3]. destruct Hp. destruct pr_rest0 as (W2 & R2 & _).
  destruct (sized_same e (group_writes gp)) as [Hf Hfr].
  assert (Hsame : ∀ {A} (f : RsPreparedWrite → A), f (with_rows w (group_rows gp) ids) = f w →
    f (if decide (group_rows gp = []) then w else with_rows w (group_rows gp) ids) = f w) by (intros A f ?; by case_decide).
  split.
  - by rewrite (Hsame _ w_ws).
  - by rewrite Hw3, W2, (Hw1 e He).
  - by rewrite Hr3, R2.
  - case_decide as Hn; [by rewrite pr_rows0, Hn|]. simpl. rewrite fst_zip; [done|lia].
  - rewrite (Hsame _ w_state) by done. by eapply fits_state.
  - by rewrite (Hsame _ w_state).
  - split.
    + rewrite (Hsame _ w_state) by done. exact F1.
    + rewrite (Hsame _ w_buffers) by done. exact F2.
    + intros row id Hrow. rewrite Hfr. case_decide as Hn; [rewrite pr_rows0 in Hrow; by apply not_elem_of_nil in Hrow|].
      apply (proj1 (Forall_forall _ _) (go_rows _ _ _ Hok e He)). simpl in Hrow. by apply elem_of_zip_l in Hrow.
  - rewrite (Hsame _ w_buffers) by done. exists targets, s1. split; [done|]. eapply Forall2_impl; [exact pr_buffers0|].
    intros q [i d|i d|i src d]; simpl; [done|..]; unfold ref_count; by rewrite Hrf.
  - rewrite (Hsame _ w_buffers) by done. intros t Ht. pose proof (F2 t Ht) as Hlk. destruct t as [|i d|i src d]; [done..|].
    simpl in Hlk. rewrite sized_page in Hlk. apply elem_of_entry_slots. right. by eapply lookup_page_slot.
  - rewrite (Hsame _ w_state), (Hsame _ w_buffers), (Hsame _ w_seq) by done. apply Hin. by rewrite pr_inflight0, lookup_insert_eq.
Qed.

Lemma traceless_unfired s ws s1 s2 s3 s4 e r q t :
  wm s !! ws = Some e → inflight s !! q = None → group_sized s ws r s1 →
  working_sets s2 = working_sets s1 → checkpoints s2 = checkpoints s1 → inflight s2 = <[q := t]> (inflight s1) →
  frame s2 s3 → quiet s3 s4 → inflight s4 = delete q (inflight s3) → refs s4 = refs s → traceless s ws s4.
Proof.
  intros He Hq ((_ & I1 & C1 & _) & _ & W1) W2 C2 I2 (W3 & _ & I3 & C3 & _) (W4 & _ & C4 & _) I4 Hr.
  split; [|congruence|done|right; exists e, r; split; [done|]].
  - rewrite I4, I3, I2, I1. by rewrite delete_insert_id.
  - by rewrite W4, W3, W2, (W1 e He).
Qed.

Lemma cancel_one n s g w ks :
  at_ n s (grants g ++ Prepared w :: ks) → n ≤ k →
  wp (on_store (relay StoreError (cancel_prepared w)))
    (λ _ p, at_ n p.1 (grants p.2 ++ ks) ∧ quiet s p.1 ∧ inflight p.1 = delete (w_seq w) (inflight s)) never (s, g).
Proof.
  intros Ha Hk. pose proof (cancel_lent k s0 start n s g [w] ks Ha Hk) as Hc.
  unfold cancel_batch in Hc. cbn [mfor] in Hc. unfold wp, on_store, relay, mthen, mok in *. cbn [fst snd] in *.
  by destruct (cancel_prepared w s) as [[[]|e|] s'].
Qed.

Lemma write_group_run n s g ks ws gp e :
  at_ n s (grants g ++ ks) → S n ≤ k → wm s !! ws = Some e → group_ok s ws gp →
  wp (write_group ws gp)
    (λ w p, at_ (S n) p.1 (grants p.2 ++ Prepared w :: ks) ∧ write_ok (extents s0) w ∧ group_prepared s ws e gp w p.1)
    (λ _ p, ∃ m, m ≤ S n ∧ at_ m p.1 (grants p.2 ++ ks) ∧ traceless s ws p.1) (s, g).
Proof.
  intros Ha Hk He Hok. destruct (at_ready k s0 start _ _ _ 0 Ha ltac:(lia)) as [Hr _].
  assert (Hsame : ∀ m s' ks', at_ m s' ks' → m ≤ k → all_slots (wm s') ≡ₚ all_slots (wm s) → refs s' = refs s).
  { intros m s' ks' Ha' Hm. eapply (refs_same k s0 start); [exact Ha|exact Ha'|lia..]. }
  pose proof (all_slots_sized (wm s) ws e (group_writes gp) He) as Hsl.
  unfold write_group.
  eapply (wp_bind _ _ (λ w p, p = (s, g) ∧ w = (writes_state e gp, fresh_for e gp, fold_count_of gp, group_writes gp))
    (λ _ p, p = (s, g))).
  { apply wp_on_store. eapply wp_mono; [by eapply (group_write_run _ _ s _ _ gp ws e Hr)|..]; [by intros ? ? [-> ->]|by intros ? ? ->]. }
  2: { intros err ? ->. exists n. split_and!; [lia|done|]. split; try done. by left. }
  intros ? ? [-> ->]. destruct (Hok) as [Hres Hb Hcnt _].
  eapply wp_bind; [apply wp_relay_const, (group_step n s g ks ws (writes_state e gp) (fresh_for e gp) (fold_count_of gp) (group_writes gp) Ha Hres Hb Hk)|..].
  2: { intros _ [s1 g1] (Ha1 & (_ & I1 & C1 & _) & Hw1). simpl in *. exists (S n). split_and!; [lia|done|]. split; try done.
    - eapply Hsame; [exact Ha1|lia|]. destruct Hw1 as [->|(e' & He' & ->)]; [done|]. rewrite He in He'. by injection He' as <-.
    - destruct Hw1 as [?|(e' & ? & ?)]; [by left|right; eauto]. }
  intros w [s2 g2] (Ha2 & Hw & e' & s1 & targets & He' & Hsz & Hbt & Hp). simpl in *.
  rewrite He in He'. injection He' as <-.
  assert (Hl : ∀ i v, (i, v) ∈ targets → v = lookup_page (sized e (group_writes gp)) i).
  { pose proof (buffer_targets_spec (extents s0) s1 _ (group_writes gp) (sized_ok _ e (group_writes gp) (rd_entries _ _ _ _ _ Hr ws e He)) Hb) as Ht.
    unfold wp in Ht. rewrite Hbt in Ht. by destruct Ht as (_ & _ & _ & ?). }
  destruct (pr_rest _ _ _ _ _ _ _ _ _ Hp) as (W2 & R2 & C2 & G2).
  apply wp_split. eapply wp_mono; [apply (rows_step (S n) s2 g2 ks w (group_rows gp) Ha2 (pr_rows _ _ _ _ _ _ _ _ _ Hp) Hcnt Hk)|..].
  - intros w' [s3 g3] (Ha3 & Hw' & (ids & Hlen & Heq) & W3 & R3 & Hin). simpl in *. apply wp_ok. simpl.
    split_and!; [done..|]. eapply rows_group; done.
  - intros err [s3 g3] (Ha3 & Hf3). simpl in *.
    eapply wp_bind; [by apply (cancel_one (S n) s3 g3 w ks)| |done].
    intros [] [s4 g4] (Ha4 & Q4 & I4). apply wp_err. simpl in *. exists (S n). split_and!; [lia|done|].
    eapply traceless_unfired; try done.
    + destruct (inflight s !! w_seq w) as [t|] eqn:Hq; [|done]. apply (rd_seqs _ _ _ _ _ Hr) in Hq.
      destruct (pr_seq _ _ _ _ _ _ _ _ _ Hp) as [? ?]. destruct Hsz as [(? & _) _]. lia.
    + apply (pr_inflight _ _ _ _ _ _ _ _ _ Hp).
    + eapply Hsame; [exact Ha4|lia|]. destruct Q4 as (-> & _), Hf3 as (-> & _). rewrite W2. destruct Hsz as (_ & _ & Hz).
      by rewrite (Hz e He).
Qed.
End history.
End lanes.
End RsFireGroup.
