(* ===== verification/RsFireGroupThm.v ===== *)
(** The fire of one group of lanes: what each lane is told, where the set's state and
    pages are after it, and what the fire in flight keeps; with the theorem that its
    preparation does this or leaves no trace, and an instance of it. *)
From S2P Require Import Prelude Ids Store Pool GenMap KvTable KvStore Hoare RsStore RsBooks RsKeep RsWrites RsPublish RsMoves.
From S2P Require Import RsWorld RsShare RsCalls RsSample RsThm RsFire RsFireRun RsFireRing RsFireGroup.

Module RsFireGroupThm.
Import GenMap KvTable RsStore RsBooks RsKeep RsWrites RsPublish RsMoves RsWorld RsShare RsCalls RsSample.
Import RsThm RsFire RsFireRun RsFireRing RsFireGroup.

(** ** What a fire of a group is to do *)

(** The position of a buffer's first token, and the tokens of a page. *)
Definition buffer_base (e : RsEntry) : N := if decide (buffer e = []) then frozen e else base e.
Definition page_len (e : RsEntry) : N := N.max (buffer_page_tokens (geom e)) 1.

(** The pages that hold a token of the range. *)
Definition written_page (e : RsEntry) (r : option (N * N)) (i : nat) : Prop :=
  ∃ a b tok, r = Some (a, b) ∧ (a ≤ tok < b)%N ∧ i = N.to_nat ((tok - buffer_base e) / page_len e).

(** The slot the lane at a place in its group has its state in, and whether it starts from
    zeros: the first lane has the state the group leaves, the others the one it finds. *)
Definition lane_state (e : RsEntry) (v : RsSlotId) (i : nat) : RsSlotId * bool :=
  match folded e, i with
  | None, _ => (v, true)
  | Some _, 0 => (v, false)
  | Some old, S _ => (old, false)
  end.

(** The set once the group's fold is committed. *)
Definition folded_by (gp : GroupPlan) (e : RsEntry) : RsEntry :=
  match fold_count_of gp with Some count => fold_entry e count | None => e end.

Section spec.
Context {WS : Type → Type}.
Context `{!KeyedStore RsWorkingSetId WS, !KeyedStoreLaws RsWorkingSetId WS}.
Abbreviation store := (RsStore WS).
Implicit Types s : store.
Abbreviation wm s := (st_map (working_sets s)).

(** The slot of the state after the fire: the one it was in, unless the group writes it and
    it is shared with another set or read by another lane; then it is in a slot that no set
    had, copied. *)
Definition state_after s (e : RsEntry) (gp : GroupPlan) (v : RsSlotId) (copies : list N * list N) : Prop :=
  match folded e with
  | None => (v ∉ all_slots (wm s)) ∧ copies = ([], [])
  | Some old =>
      if writes_state e gp && (fresh_for e gp || bool_decide (1 < ref_count s old)%N)
      then (v ∉ all_slots (wm s)) ∧ copies = ([index old], [index v])
      else v = old ∧ copies = ([], [])
  end.

(** A page of the range: its own, or a page that no set had, copied from the shared one. *)
Definition page_after s s' (e e1 : RsEntry) (copies : list N * list N) (t : Touch) (i : nat) : Prop :=
  ∃ d, lookup_page e1 i = Some d ∧ d ∈ writes t ∧
    match lookup_page e i with
    | Some src => if decide (ref_count s src ≤ 1)%N then d = src
        else (engine_id s' src, engine_id s' d) ∈ zip copies.1 copies.2 ∧ d ∉ all_slots (wm s)
    | None => d ∉ all_slots (wm s)
    end.

Definition translation s (e : RsEntry) : list N :=
  (λ o, match o with Some id => engine_id s id | None => RS_TRANSLATION_UNMAPPED end) <$> buffer e.
Definition lane_verb s' (e1 : RsEntry) (gp : GroupPlan) (i : nat) : RsVerb :=
  match group_writes gp with
  | None => FoldVerb
  | Some _ => Buffer (translation s' e1) (buffer_base e1) (frozen e1) (fold_len i (group_fold gp))
  end.

(** A fire in flight: [e] is the set before it, [e1] when it runs, and [v] its state's slot. *)
Record group_told s s' (n : nat) ws (e : RsEntry) (gp : GroupPlan) (out : PreparedRs) (p : RsPublished) (t : Touch)
    (e1 : RsEntry) (v : RsSlotId) : Prop := {
  gt_set : wm s' !! ws = Some (folded_by gp e1) ∧ folded e1 = Some v ∧ frozen e1 = frozen e ∧ geom e1 = geom e;
  gt_others ws' e' : ws' ≠ ws → wm s !! ws' = Some e' → wm s' !! ws' = Some e';
  gt_fire : txn_ out = Some p ∧ ∃ q, seqs p = [q] ∧ inflight s' !! q = Some t;
  gt_state : state_after s e gp v (state_copies out) ∧ (writes_state e gp = true → v ∈ writes t);
  gt_pages i : (written_page e (group_writes gp) i → page_after s s' e e1 (page_copies out) t i) ∧
    (¬ written_page e (group_writes gp) i → lookup_page e1 i = lookup_page e i);
  gt_lanes i lane : lanes gp !! i = Some lane →
    slot_ids out !! lane = Some (index (lane_state e v i).1) ∧
    slot_flags out !! lane = Some (flag_of (lane_state e v i).2) ∧
    verbs out !! lane = Some (lane_verb s' e1 gp i);
  gt_rest lane : lane < n → lane ∉ lanes gp →
    slot_ids out !! lane = Some 0%N ∧ slot_flags out !! lane = Some 0%N ∧ verbs out !! lane = Some FoldVerb;
  gt_rows : sn_row <$> fire_snapshots out = group_rows gp;
  gt_snapshot r : r ∈ fire_snapshots out → wm s !! sn_snapshot r = None ∧ wm s' !! sn_snapshot r =
    Some (mkEntry (geom e) (Some (sn_slot r)) [] (frozen e + sn_row r) (frozen e + sn_row r) None);
  gt_slots_kept num : num ∈ slot_ids out ++ buffer_slot_ids out ++ (state_copies out).1 → live num = true →
    RsSlot num ∈ reads t;
  gt_pages_kept num : num ∈ (page_copies out).1 ++ concat (verb_pages <$> verbs out) → live num = true →
    ∃ id, page_id s' num = Some id ∧ id ∈ reads t;
  gt_zero : folded e = Some (RsSlot 0) → writes_state e gp = false → touches t (RsSlot 0) = false;
}.
End spec.

Section lanes.
Context {WS : Type → Type}.
Context `{!KeyedStore RsWorkingSetId WS, !KeyedStoreLaws RsWorkingSetId WS}.
Abbreviation store := (RsStore WS).
Implicit Types s : store.
Abbreviation wm s := (st_map (working_sets s)).
Abbreviation never := (λ _ _, False).

(** ** The state *)

Lemma state_told s e gp o : state_fits s e (writes_state e gp) (fresh_for e gp) o →
  ∃ v, (match o with Some st => Some (slot st) | None => folded e end) = Some v ∧
    ∀ i, told i o (folded e) = Some (lane_state e v i).
Proof.
  unfold state_fits, lane_state. intros Ho. destruct o as [st|].
  - exists (slot st). split; [done|]. destruct Ho as [_ Ho]. intros [|i]; destruct (folded e) as [old|]; simpl; try done.
    + by destruct Ho as [-> _].
    + by destruct Ho as [-> _].
  - unfold writes_state in Ho. apply orb_false_iff in Ho as [_ Ho%bool_decide_eq_false].
    destruct (folded e) as [old|]; [|done]. exists old. split; [done|]. by intros [|i].
Qed.

Lemma state_fits_after s e gp o v out :
  state_fits s e (writes_state e gp) (fresh_for e gp) o →
  (match o with Some st => Some (slot st) | None => folded e end) = Some v →
  (∀ id, id ∈ taken_state o → id ∉ all_slots (wm s)) → state_copies out = ([], []) →
  state_after s e gp v (copied_state out o).
Proof.
  unfold state_fits, state_after, copied_state, taken_state, fresh_state. intros Ho Hv Hfresh Hc.
  destruct o as [st|]; simpl in *.
  - injection Hv as <-. destruct Ho as [-> Ho]. destruct (folded e) as [old|]; simpl in *.
    + destruct Ho as [Hrs Ho]. destruct (fresh_for e gp || _); simpl.
      * rewrite Ho in *. simpl in *. rewrite Hrs, Hc in *. simpl in *. split; [apply Hfresh; by left|done].
      * destruct Ho as [-> ->]. by rewrite Hc.
    + destruct Ho as [Hrs ->]. rewrite Hrs in Hfresh. simpl in Hfresh. split; [apply Hfresh; by left|done].
  - rewrite Hv, Ho. simpl. done.
Qed.

(** ** The pages *)

Lemma sized_base e r : nonempty r ≠ None → base (sized e r) = buffer_base e ∧ (buffer (sized e r) = [] → buffer e = []).
Proof.
  unfold sized, buffer_base. destruct (nonempty r) as [[a b]|]; [|done]. intros _. simpl. split; [done|].
  unfold grow. by intros [? _]%app_eq_nil.
Qed.

Lemma page_range a b B page i : (B ≤ a)%N → (a < b)%N → (1 ≤ page)%N →
  (N.to_nat ((a - B) / page) ≤ i ≤ N.to_nat ((b - 1 - B) / page)) ↔
  ∃ tok, (a ≤ tok < b)%N ∧ i = N.to_nat ((tok - B) / page).
Proof.
  intros HB Hab Hp. split.
  - intros [H1 H2]. destruct (decide (i = N.to_nat ((a - B) / page))) as [->|Hne]; [exists a; split; [lia|done]|].
    exists (B + N.of_nat i * page)%N.
    pose proof (N.mul_succ_div_gt (a - B) page ltac:(lia)). pose proof (N.Div0.mul_div_le (b - 1 - B) page).
    assert (N.succ ((a - B) / page) ≤ N.of_nat i)%N as Hi by lia. assert (N.of_nat i ≤ (b - 1 - B) / page)%N as Hj by lia.
    apply (N.mul_le_mono_l _ _ page) in Hi, Hj. replace (B + N.of_nat i * page - B)%N with (N.of_nat i * page)%N by lia.
    rewrite N.div_mul by lia. rewrite Nat2N.id. split; [lia|done].
  - intros (tok & Ht & ->). assert ((a - B) / page ≤ (tok - B) / page ∧ (tok - B) / page ≤ (b - 1 - B) / page)%N as [? ?].
    { split; apply N.Div0.div_le_mono; lia. }
    lia.
Qed.

Lemma buffer_targets_pages x s s' e r targets :
  entry_ok x e → buffer_targets (sized e r) r s = (Ok targets, s') →
  ∀ i v, (i, v) ∈ targets ↔ v = lookup_page (sized e r) i ∧ written_page e r i.
Proof.
  intros Hok Hb i v. unfold buffer_targets in Hb. destruct (nonempty r) as [[a b]|] eqn:Hne.
  2: { injection Hb as <- _. split; [by intros ?%not_elem_of_nil|]. intros (_ & a & b & tok & -> & Ht & _).
       simpl in Hne. rewrite decide_True in Hne by (simpl; lia). done. }
  destruct (sized_base e r ltac:(by rewrite Hne)) as [Hbase Hnil]. destruct (sized_same e r) as [_ Hfr].
  assert (Hr : r = Some (a, b) ∧ (a < b)%N).
  { clear -Hne. unfold nonempty in Hne. destruct r as [[a' b']|]; [|done]. case_decide as Hc; [|done]. simpl in Hc. injection Hne as -> ->. split; [done|lia]. }
  destruct Hr as [-> Hab]. case_decide as Hlt; [done|]. cbn zeta in Hb.
  set (B := if decide (buffer (sized e (Some (a, b))) = []) then _ else _) in Hb.
  assert (HB : B = buffer_base e).
  { unfold B. destruct (decide _) as [Hnl|]; [|done]. unfold buffer_base. rewrite decide_True by auto. exact Hfr. }
  assert (Hpl : N.max (buffer_page_tokens (geom (sized e (Some (a, b))))) 1 = page_len e).
  { unfold sized. rewrite Hne. done. }
  rewrite HB, Hpl in Hb. unfold mthen, mguard in Hb. case_decide as Hg; [|done]. injection Hb as <- _.
  rewrite list_elem_of_fmap. assert (Hpg := page_range a b (buffer_base e) (page_len e) i Hg Hab ltac:(unfold page_len; lia)).
  transitivity (v = lookup_page (sized e (Some (a, b))) i ∧
    N.to_nat ((a - buffer_base e) / page_len e) ≤ i ≤ N.to_nat ((b - 1 - buffer_base e) / page_len e)).
  - setoid_rewrite elem_of_seq. split.
    + intros (j & [= -> ->] & Hj). split; [done|lia].
    + intros [-> Hi]. exists i. split; [done|lia].
  - rewrite Hpg. unfold written_page. naive_solver.
Qed.

(** What a write leaves of each page. *)
Lemma group_page x s s1 s' ws e gp w t i :
  group_prepared s ws e gp w s1 → write_ok x w → entry_ok x e →
  (∀ id, id ∈ w_allocated w → id ∉ all_slots (wm s)) → (∀ id, engine_id s' id = engine_id s1 id) →
  (∀ id, id ∈ target_dst <$> w_buffers w → id ∈ writes t) →
  let e1 := landed (sized e (group_writes gp)) w in
  (written_page e (group_writes gp) i → page_after s s' e e1 (page_copies (group_buffers s1 no_prepared (w_buffers w))) t i) ∧
  (¬ written_page e (group_writes gp) i → lookup_page e1 i = lookup_page e i).
Proof.
  intros Hp Hw Hok Hfresh Hid Ht e1. destruct (gw_targets _ _ _ _ _ _ Hp) as (targets & s2 & Hbt & Hf).
  destruct (pages_landed s _ w targets _ i Hf (wo_indexes _ _ Hw) (buffer_targets_pages x s2 s2 e _ targets Hok Hbt)) as [H1 H2].
  rewrite sized_page in H2. split; [|done]. intros (d & Hd & Hdst & Hm)%H1. exists d. split_and!; [done|by apply Ht|].
  rewrite sized_page in Hm.
  assert (Htk : ∀ id, id ∈ taken_pages w → id ∉ all_slots (wm s)).
  { intros id Hin. apply Hfresh. rewrite (wo_whole _ _ Hw), !elem_of_app. by right; left. }
  destruct (lookup_page e i) as [src|]; [|by apply Htk]. case_decide; [done|]. destruct Hm as [Hc Hin].
  split; [|by apply Htk]. simpl. rewrite zip_fst_snd, !Hid. apply list_elem_of_omap.
  apply list_elem_of_omap in Hc as (tg & Htg & Heq). exists tg. split; [done|]. destruct tg; try done. by injection Heq as -> ->.
Qed.

(** ** The verbs *)

Lemma read_buffer_eq x n s B H ws e :
  ready x n s B H → wm s !! ws = Some e → read_buffer ws s = (Ok (translation s e, buffer_base e, frozen e), s).
Proof.
  intros Hr He. unfold read_buffer, buffer_translation, base_of, frozen_of, mthen, mget, mok.
  by rewrite !(entry_get _ _ _ _ _ _ e Hr He).
Qed.

Lemma prepare_verbs_one x n s B H sets ws gp p e m :
  ready x n s B H → first_set sets gp = Some ws → wm s !! ws = Some e → NoDup (lanes gp) →
  Forall (λ lane, lane < m) (lanes gp) →
  ∃ vs, prepare_verbs sets [gp] p (replicate m FoldVerb) s = (Ok vs, s) ∧
    (∀ i lane, lanes gp !! i = Some lane → vs !! lane = Some (lane_verb s e gp i)) ∧
    (∀ lane, lane < m → lane ∉ lanes gp → vs !! lane = Some FoldVerb) ∧
    (∀ verb, verb ∈ vs → verb = FoldVerb ∨ ∃ i, verb = lane_verb s e gp i).
Proof.
  intros Hr Hws He Hnd Hlt. cbn [prepare_verbs]. unfold lane_verb. destruct (group_writes gp) as [r|].
  - unfold mthen at 1. rewrite Hws. cbn [mexpect]. unfold mok at 1. rewrite (read_buffer_eq _ _ _ _ _ _ _ Hr He).
    destruct (group_verbs_told (group_fold gp) (translation s e) (buffer_base e) (frozen e) s (lanes gp)
      (replicate m FoldVerb) 0 Hnd) as (vs & Hv & Hlen & Hin & Hout); [by rewrite length_replicate|].
    exists vs. unfold mthen. rewrite Hv. split_and!; [done|exact Hin| |].
    + intros lane Hl Hn. rewrite Hout by done. by apply lookup_replicate_2.
    + intros verb [lane Hl]%list_elem_of_lookup. destruct (decide (lane ∈ lanes gp)) as [[i Hi]%list_elem_of_lookup|Hn].
      * rewrite (Hin i lane Hi) in Hl. injection Hl as <-. right. by exists i.
      * left. rewrite Hout in Hl by done. by apply lookup_replicate in Hl as [-> _].
  - exists (replicate m FoldVerb). split_and!; [done|..].
    + intros i lane Hi. apply lookup_replicate_2. eapply (proj1 (Forall_forall _ _) Hlt), list_elem_of_lookup_2, Hi.
    + intros lane Hl _. by apply lookup_replicate_2.
    + intros verb Hv. left. by apply elem_of_replicate in Hv as [-> _].
Qed.

Lemma verb_translation s e gp i num : num ∈ verb_pages (lane_verb s e gp i) → num ∈ translation s e.
Proof. unfold lane_verb. destruct (group_writes gp); [done|]. by intros ?%not_elem_of_nil. Qed.

(** ** What the fire reads *)

(** What the lanes are told, it touches or the set still has. *)
Lemma lane_touched s e gp o ts v i :
  state_fits s e (writes_state e gp) (fresh_for e gp) o → told i o (folded e) = Some (lane_state e v i) →
  let id := (lane_state e v i).1 in
  id ∈ writes (touch_of o ts) ++ reads (touch_of o ts) ∨ (o = None ∧ folded e = Some id).
Proof.
  unfold state_fits, touch_of. intros Ho Ht. destruct (lane_state e v i) as [id r]. simpl in *.
  rewrite !elem_of_app. destruct o as [st|]; simpl in *.
  - left. destruct Ho as [_ Ho]. destruct i, (folded e) as [old|]; simpl in Ht; injection Ht as <- <-;
      try (left; left; by apply list_elem_of_singleton).
    destruct Ho as [_ Ho]. destruct (fresh_for e gp || _); [rewrite Ho; right; left; by apply list_elem_of_singleton|].
    destruct Ho as [_ <-]. left; left. by apply list_elem_of_singleton.
  - right. split; [done|]. destruct i, (folded e); simpl in Ht; try done; by injection Ht as -> _.
Qed.

Section history.
Context (k : nat) (s0 : store) (start : starts k s0).
Abbreviation at_ := (arrives s0).

(** ** The group is prepared *)

Lemma prepare_one_run n s g ks sets ws gp out :
  at_ n s (grants g ++ ks) → S n ≤ k → first_set sets gp = Some ws → group_ok s ws gp → NoDup (lanes gp) →
  Forall (λ lane, lane < length (slot_ids out)) (lanes gp) → length (slot_flags out) = length (slot_ids out) →
  wp (prepare_groups sets [gp] out [])
    (λ r p, ∃ e w o, wm s !! ws = Some e ∧ r = (group_buffers p.1 o (w_buffers w), [w]) ∧
       at_ (S n) p.1 (grants p.2 ++ Prepared w :: ks) ∧ write_ok (extents s0) w ∧ group_prepared s ws e gp w p.1 ∧
       lanes_told out o 0 (lanes gp) (w_state w) (folded e))
    (λ _ p, ∃ m, m ≤ S n ∧ at_ m p.1 (grants p.2 ++ ks) ∧ traceless s ws p.1) (s, g).
Proof.
  intros Ha Hk Hws Hok Hnd Hlt Hfl. destruct (at_ready k s0 start _ _ _ 0 Ha ltac:(lia)) as [Hr _].
  cbn [prepare_groups]. apply wp_then. eapply wp_expect; [exact Hws|].
  eapply (wp_bind _ _ (λ h p, p = (s, g) ∧ ∃ e, wm s !! ws = Some e ∧ h = folded e) (λ _ p, p = (s, g))).
  { apply wp_relay_const. unfold folded_slot, with_grant, wp, mthen. simpl.
    pose proof (entry_ready _ _ s _ _ ws Hr) as He. unfold wp in He. destruct (entry ws s) as [[e|err|] s']; [| |done].
    - destruct He as [-> He]. unfold mok. eauto.
    - by destruct He as [-> _]. }
  2: { intros err ? ->. exists n. split_and!; [lia|done|]. split; try done. by left. }
  intros ? ? [-> (e & He & ->)].
  apply wp_split. eapply wp_mono; [by apply (write_group_run k s0 start n s g ks ws gp e)|..].
  - intros w [s1 g1] (Ha1 & Hw & Hp). simpl in *.
    destruct (state_told s e gp (w_state w) (gw_state _ _ _ _ _ _ Hp)) as (v & _ & Ht).
    destruct (group_slots_told (w_state w) (folded e) (s1, g1) (lanes gp) out 0 Hnd Hlt Hfl) as (o & Ho & Hlt').
    { intros i. rewrite Ht. by eexists. }
    apply wp_then. eapply wp_ret; [exact Ho|]. apply wp_then, wp_get. simpl. apply wp_ok. simpl. exists e, w, o. done.
  - intros err [s1 g1] H. simpl in *. apply wp_then. unfold on_store, relay, cancel_batch, wp. simpl. done.
Qed.

(** ** Once it is prepared

    The group's write [w], prepared from [s] in [s1], is published in [s2]. *)

Section landed.
Context (n m m1 : nat) s s1 s2 (ks ks1 ks2 : list token) (ws : RsWorkingSetId) (e : RsEntry) (gp : GroupPlan).
Context (w : RsPreparedWrite) (p : RsPublished) (o : PreparedRs).
Context (Ha : at_ n s ks) (Hn : n ≤ k) (Ha1 : at_ m1 s1 (Prepared w :: ks1)) (Hm1 : m1 ≤ k) (Ha2 : at_ m s2 ks2) (Hm : m ≤ k).
Context (He : wm s !! ws = Some e) (Hok : group_ok s ws gp) (Hw : write_ok (extents s0) w).
Context (Hp : group_prepared s ws e gp w s1) (Hc : calm s1 s2).
Context (Hb : batch_lands (wm s1) [w] (snapshots p) (wm s2)) (Hq : seqs p = [w_seq w]).
Abbreviation e1 := (landed (sized e (group_writes gp)) w).

Lemma one_landed : wm s2 !! ws = Some e1.
Proof.
  rewrite <-(gw_ws _ _ _ _ _ _ Hp). eapply batch_lands_at; [exact Hb|apply NoDup_singleton|by left|].
  by rewrite (gw_sets _ _ _ _ _ _ Hp), (gw_ws _ _ _ _ _ _ Hp), lookup_insert_eq.
Qed.

Lemma one_lands : lands (wm s1) (wm s2) (sized e (group_writes gp)) w (snapshots p).
Proof.
  inversion Hb as [|m' m1' m2 w' ws' e' snaps snaps' He' Hl Hrest]; subst. inversion Hrest; subst. rewrite app_nil_r.
  by rewrite (gw_sets _ _ _ _ _ _ Hp), (gw_ws _ _ _ _ _ _ Hp), lookup_insert_eq in He'; injection He' as <-.
Qed.

Lemma same_extents : extents s1 = extents s ∧ extents s2 = extents s.
Proof.
  rewrite (at_extents k s0 start _ _ _ Ha Hn). split; by eapply at_extents.
Qed.

Lemma drawn_new id : id ∈ w_allocated w → id ∉ all_slots (wm s).
Proof.
  intros Hid Hin. destruct (at_ready k s0 start _ _ _ 0 Ha1 ltac:(lia)) as [Hr _]. rewrite rs_lent_cons in Hr.
  rewrite <-(all_slots_sized (wm s) ws e (group_writes gp) He), <-(gw_sets _ _ _ _ _ _ Hp) in Hin.
  apply elem_of_all_slots in Hin as (ws' & e' & He' & Hs). destruct (drawn_fresh _ _ _ _ _ Hr) as [_ Hd]. by eapply Hd.
Qed.

(** A page the set has is one of the device, which the fire may read. *)
Lemma page_readable i id : lookup_page e1 i = Some id →
  page_id s2 (engine_id s2 id) = Some id ∧ readable s2 id.
Proof.
  intros Hl. destruct (at_ready k s0 start _ _ _ 0 Ha1 ltac:(lia)) as [Hr1 _].
  destruct (at_ready k s0 start _ _ _ 0 Ha2 ltac:(lia)) as [Hr2 _]. destruct same_extents as [X1 X2].
  assert (Hpg : within (x_pages (extents s0)) id).
  { eapply (landed_device _ 0 s1); [exact Hr1| | |exact Hw|exact Hl].
    - by rewrite (gw_sets _ _ _ _ _ _ Hp), lookup_insert_eq.
    - rewrite (still_host s s1) by done. unfold holds_host. rewrite sized_slots. by apply (go_resident _ _ _ Hok). }
  split.
  - apply page_number; rewrite (rd_extents _ _ _ _ _ Hr2); [apply Hr2|done].
  - eapply readable_page; [exact Hr2|exact one_landed|exact Hl|exact Hpg].
Qed.

(** So is what is copied. *)
Lemma source_page i src d : Cow i src d ∈ w_buffers w → page_id s2 (engine_id s1 src) = Some src.
Proof.
  intros Ht. destruct (at_ready k s0 start _ _ _ 0 Ha ltac:(lia)) as [Hr _].
  destruct (at_ready k s0 start _ _ _ 0 Ha2 ltac:(lia)) as [Hr2 _]. destruct same_extents as [X1 X2].
  pose proof (fi_buffers _ _ (gw_fits _ _ _ _ _ _ Hp) _ Ht) as Hl. simpl in Hl. rewrite sized_page in Hl.
  apply lookup_page_slot in Hl.
  destruct (resident_slots _ _ _ _ _ _ _ Hr He (go_resident _ _ _ Hok e He) src) as [Hh _].
  { apply elem_of_entry_slots. by right. }
  rewrite (engine_id_extents s2 s1) by congruence.
  apply page_number; rewrite (rd_extents _ _ _ _ _ Hr2); [apply Hr2|].
  destruct (eo_buffer _ _ (rd_entries _ _ _ _ _ Hr ws e He) src Hl) as [|]; [done|]. exfalso. apply Hh. by right.
Qed.

(** What the write touches, the fire in flight does. *)
Lemma one_touched id :
  id ∈ writes (touch_of (w_state w) (w_buffers w)) ++ reads (touch_of (w_state w) (w_buffers w)) → notable s2 p id.
Proof.
  destruct (gw_touched _ _ _ _ _ _ Hp) as (t & Ht & Hwr & Hrd & _). intros Hin. right. rewrite Hq. intros q [= <-].
  exists t. destruct Hc as (_ & -> & _). split; [done|]. unfold touches. rewrite Hrd, orb_true_iff, !bool_decide_eq_true.
  apply elem_of_app in Hin as [?|?]; [left; by apply Hwr|by right].
Qed.

(** What a lane is told, it may read. *)
Lemma lane_notable v i : told i (w_state w) (folded e) = Some (lane_state e v i) → notable s2 p (lane_state e v i).1.
Proof.
  intros Ht. pose proof (gw_state _ _ _ _ _ _ Hp) as Hst.
  destruct (lane_touched s e gp (w_state w) (w_buffers w) v i Hst Ht) as [Hin|[Hno Hf]]; [by apply one_touched|].
  left. destruct (at_ready k s0 start _ _ _ 0 Ha ltac:(lia)) as [Hr _]. destruct same_extents as [_ X2].
  destruct (at_ready k s0 start _ _ _ 0 Ha2 ltac:(lia)) as [Hr2 _]. set (id := (lane_state e v i).1) in *. split.
  - pose proof (go_resident _ _ _ Hok e He) as Hh. unfold holds_host in Hh.
    assert (Hih : is_host s2 id = is_host s id).
    { injection X2 as _ _ _ _ Hbase _ _ _ _. unfold is_host. by rewrite Hbase. }
    rewrite Hih. destruct (is_host s id) eqn:Hi; [|done]. exfalso.
    enough (existsb (is_host s) (entry_slots e) = true) by congruence. apply existsb_exists. exists id. split; [|done].
    apply list_elem_of_In, elem_of_entry_slots. by left.
  - apply (ref_held _ _ _ _ _ id Hr2), elem_of_app. left. apply elem_of_all_slots. exists ws, e1. split; [exact one_landed|].
    apply elem_of_entry_slots. left. unfold landed, with_state. simpl. rewrite Hno.
    by destruct (sized_same e (group_writes gp)) as [-> _].
Qed.

Definition start_out (N : nat) : PreparedRs :=
  mkPrepared (replicate N 0%N) (replicate N 0%N) ([], []) ([], []) [] (replicate N FoldVerb) [] [] [] None.
Definition with_verbs (out : PreparedRs) (vs : list RsVerb) : PreparedRs :=
  mkPrepared (slot_ids out) (slot_flags out) (state_copies out) (page_copies out) (buffer_slot_ids out)
    vs (window out) (window_copies out) (fire_snapshots out) (txn_ out).

Lemma told_numbers N num : lanes_told (start_out N) o 0 (lanes gp) (w_state w) (folded e) →
  (∀ i, is_Some (told i (w_state w) (folded e))) → num ∈ slot_ids o →
  num = 0%N ∨ ∃ i id r, told i (w_state w) (folded e) = Some (id, r) ∧ num = index id.
Proof.
  intros Ho Ht [lane Hl]%list_elem_of_lookup. destruct (decide (lane ∈ lanes gp)) as [[i Hi]%list_elem_of_lookup|Hno].
  - right. destruct (Ht i) as [[id r] Hid]. destruct (lt_in _ _ _ _ _ _ Ho i lane id r Hi Hid) as [Hs _].
    exists i, id, r. split; [done|]. rewrite Hs in Hl. by injection Hl.
  - left. destruct (lt_out _ _ _ _ _ _ Ho lane Hno) as [Hs _]. rewrite Hs in Hl. simpl in Hl.
    by apply lookup_replicate in Hl as [-> _].
Qed.

Lemma reads_notable N v vs :
  lanes_told (start_out N) o 0 (lanes gp) (w_state w) (folded e) →
  (∀ i, told i (w_state w) (folded e) = Some (lane_state e v i)) →
  (∀ verb, verb ∈ vs → verb = FoldVerb ∨ ∃ i, verb = lane_verb s2 e1 gp i) →
  let out := with_verbs (group_buffers s1 o (w_buffers w)) vs in
  Forall (notable s2 p) (read_slots out) ∧
  ∀ num, num ∈ read_pages out → ∃ id, page_id s2 num = Some id ∧ notable s2 p id.
Proof.
  intros Ho Ht Hvs out. pose proof (lt_beside _ _ _ _ _ _ Ho) as Hbs. injection Hbs as B1 B2 B3 B4 B5 B6 B7.
  pose proof (lt_copies _ _ _ _ _ _ Ho) as Hcp.
  assert (Hmk : ∀ id, RsSlot (index id) = id) by by intros []. split.
  - apply Forall_forall. intros id (num & -> & Hnum)%list_elem_of_fmap. apply list_elem_of_filter in Hnum as [Hlive Hnum].
    unfold out, with_verbs, group_buffers in Hnum. simpl in Hnum. rewrite B2 in Hnum. simpl in Hnum.
    rewrite !elem_of_app in Hnum. destruct Hnum as [Hnum|[Hnum|Hnum]].
    + destruct (told_numbers N num Ho) as [->|(i & id & r & Hid & ->)]; [intros i; rewrite Ht; by eexists|done|done|].
      rewrite Hmk. rewrite Ht in Hid. injection Hid as Hid. pose proof (lane_notable v i (Ht i)) as Hn'. by rewrite Hid in Hn'.
    + apply list_elem_of_fmap in Hnum as (tg & -> & Htg).
      change (notable s2 p (RsSlot (index (target_dst tg)))). rewrite Hmk. apply one_touched, elem_of_app. left.
      unfold touch_of. simpl. apply elem_of_app. right. by apply list_elem_of_fmap_2.
    + rewrite Hcp in Hnum. destruct (lanes gp) as [|l0 ls]; [by apply not_elem_of_nil in Hnum|]. unfold copied_state in Hnum.
      destruct (w_state w) as [st|] eqn:Hst; simpl in Hnum; [|by apply not_elem_of_nil in Hnum].
      destruct (copy_from st) as [src|] eqn:Hsrc; simpl in Hnum; [|by apply not_elem_of_nil in Hnum].
      apply list_elem_of_singleton in Hnum as ->. change (notable s2 p (RsSlot (index src))). rewrite Hmk.
      apply one_touched, elem_of_app. right.
      unfold touch_of. rewrite Hst. simpl. rewrite Hsrc. by left.
  - intros num Hnum. apply list_elem_of_filter in Hnum as [Hlive Hnum]. unfold live in Hlive.
    apply andb_true_iff in Hlive as [_ Hun%bool_decide_eq_true].
    unfold out, with_verbs, group_buffers in Hnum. simpl in Hnum. rewrite B1, B4 in Hnum. simpl in Hnum.
    rewrite !elem_of_app in Hnum. destruct Hnum as [Hnum|Hnum].
    + apply list_elem_of_fmap in Hnum as ([a b] & -> & Hab). apply list_elem_of_omap in Hab as (tg & Htg & Heq).
      destruct tg as [|i d|i src d]; try done. injection Heq as <- <-. exists src. simpl.
      split; [by eapply source_page|]. apply one_touched, elem_of_app. right. unfold touch_of. simpl. apply elem_of_app. right.
      apply list_elem_of_omap. by exists (Cow i src d).
    + apply elem_of_concat in Hnum as (pages & Hpages & Hnum). apply list_elem_of_fmap in Hpages as (verb & -> & Hv).
      destruct (Hvs verb Hv) as [->|[i ->]]; [by apply not_elem_of_nil in Hnum|].
      apply verb_translation, list_elem_of_fmap in Hnum as ([id|] & -> & [j Hj]%list_elem_of_lookup); [|done].
      destruct (page_readable j id) as [H1 H2]; [unfold lookup_page; by rewrite Hj|]. exists id. split; [done|by left].
Qed.

(** ** What it leaves *)

Lemma translation_same s3 s4 e' : extents s4 = extents s3 → translation s4 e' = translation s3 e'.
Proof.
  intros Hx. unfold translation. apply list_fmap_ext. intros i [id|] _; [|done]. by apply engine_id_extents.
Qed.
Lemma lane_verb_same s3 s4 e' i : extents s4 = extents s3 → lane_verb s4 e' gp i = lane_verb s3 e' gp i.
Proof. intros Hx. unfold lane_verb. by rewrite (translation_same s3). Qed.

Lemma one_folds n' s3 ks3 : at_ n' s3 ks3 → n' ≤ k → wm s3 !! ws = Some e1 →
  wp (commit_folds (batch_folds [w]))
    (λ _ s4, at_ n' s4 ks3 ∧ calm s3 s4 ∧ wm s4 = <[ws := folded_by gp e1]> (wm s3)) never s3.
Proof.
  intros Ha3 Hn' He1. rewrite <-(Nat.add_0_r n') in Hn'. destruct (at_ready k s0 start _ _ _ 0 Ha3 Hn') as [Hr3 _].
  assert (Hf : w_state w ≫= fold_tokens = fold_count_of gp).
  { rewrite (gw_fold _ _ _ _ _ _ Hp). unfold writes_state, folds_of. destruct (fold_count_of gp); [done|].
    by destruct (bool_decide (is_Some None) || _ || _). }
  assert (Hwp : wp (commit_folds (batch_folds [w])) (λ _ s4, calm s3 s4 ∧ wm s4 = <[ws := folded_by gp e1]> (wm s3)) never s3).
  { unfold batch_folds, folded_by. csimpl. rewrite Hf, (gw_ws _ _ _ _ _ _ Hp). destruct (fold_count_of gp) as [c|]; csimpl.
    - unfold commit_folds. cbn [mfor]. eapply wp_bind; [apply rs_fold_ready; exact Hr3| |done].
      intros [] s4 (_ & Hc4 & Hw4). apply wp_ok. simpl in Hw4. rewrite He1 in Hw4. done.
    - apply wp_ok. split; [done|]. by rewrite insert_id. }
  unfold wp in *. destruct (commit_folds (batch_folds [w]) s3) as [[[]|err|] s4] eqn:Hs4; [|done..].
  destruct Hwp as [Hc4 Hw4]. split_and!; [|done..].
  by apply (arrives_plain s0 n' s3 (SetCall (CommitFolds (batch_folds [w]))) ks3 (commit_folds (batch_folds [w])) tt s4 Ha3).
Qed.

(** The sets. *)
Lemma one_sets s4 : wm s4 = <[ws := folded_by gp e1]> (wm s2) →
  (∀ ws' e', ws' ≠ ws → wm s !! ws' = Some e' → wm s4 !! ws' = Some e') ∧
  sn_row <$> snapshots p = group_rows gp ∧
  ∀ r, r ∈ snapshots p → wm s !! sn_snapshot r = None ∧ wm s4 !! sn_snapshot r =
    Some (mkEntry (geom e) (Some (sn_slot r)) [] (frozen e + sn_row r) (frozen e + sn_row r) None).
Proof.
  intros H4. pose proof one_lands as Hl. pose proof (gw_ws _ _ _ _ _ _ Hp) as Hws. pose proof (gw_sets _ _ _ _ _ _ Hp) as H1.
  assert (Hg : geom (sized e (group_writes gp)) = geom e) by (unfold sized; by destruct (nonempty _) as [[]|]).
  destruct (sized_same e (group_writes gp)) as [_ Hf]. split_and!.
  - intros ws' e' Hne He'. rewrite H4, lookup_insert_ne by done. eapply lands_other; [exact Hl|by rewrite Hws|].
    by rewrite H1, lookup_insert_ne.
  - destruct Hl as (m' & Hrl & _). rewrite <-(gw_rows _ _ _ _ _ _ Hp), <-(rl_rows _ _ _ _ _ _ _ Hrl), <-list_fmap_compose. done.
  - intros r Hr. destruct Hl as (m' & Hrl & H2). destruct (rl_new _ _ _ _ _ _ _ Hrl r Hr) as [Hno Hnew].
    rewrite H1 in Hno. apply lookup_insert_None in Hno as [Hno Hne]. split; [done|].
    rewrite H4, lookup_insert_ne, H2, Hws, lookup_insert_ne by done. by rewrite Hnew, Hg, Hf.
Qed.

(** The lanes' numbers. *)
Lemma one_lanes N v (vs : list RsVerb) s4 :
  lanes_told (start_out N) o 0 (lanes gp) (w_state w) (folded e) → Forall (λ lane, lane < N) (lanes gp) →
  (∀ i, told i (w_state w) (folded e) = Some (lane_state e v i)) →
  (∀ i lane, lanes gp !! i = Some lane → vs !! lane = Some (lane_verb s2 e1 gp i)) →
  (∀ lane, lane < N → lane ∉ lanes gp → vs !! lane = Some FoldVerb) → extents s4 = extents s2 →
  (∀ i lane, lanes gp !! i = Some lane →
    slot_ids o !! lane = Some (index (lane_state e v i).1) ∧
    slot_flags o !! lane = Some (flag_of (lane_state e v i).2) ∧ vs !! lane = Some (lane_verb s4 e1 gp i)) ∧
  (∀ lane, lane < N → lane ∉ lanes gp →
    slot_ids o !! lane = Some 0%N ∧ slot_flags o !! lane = Some 0%N ∧ vs !! lane = Some FoldVerb).
Proof.
  intros Ho Hlt Ht Hin Hout Hx. split.
  - intros i lane Hi. specialize (Ht i). destruct (lane_state e v i) as [id r] eqn:Hid. simpl.
    destruct (lt_in _ _ _ _ _ _ Ho i lane id r Hi Ht) as [H1 H2]. split_and!; [done| |].
    + apply H2. simpl. apply lookup_replicate_2. eapply (proj1 (Forall_forall _ _) Hlt), list_elem_of_lookup_2, Hi.
    + rewrite (lane_verb_same s2 s4) by done. by apply Hin.
  - intros lane Hl Hn'. destruct (lt_out _ _ _ _ _ _ Ho lane Hn') as [-> ->]. simpl.
    split_and!; [by apply lookup_replicate_2..|by apply Hout].
Qed.

(** The slot numbered 0, if the state is in it and is not written, is not touched. *)
Lemma zero_not_touched t :
  folded e = Some (RsSlot 0) → writes_state e gp = false →
  touches t (RsSlot 0) = true → (∀ id, id ∈ writes t → id ∈ writes (touch_of (w_state w) (w_buffers w)) ∨ id ∈ w_allocated w) →
  ¬ (∀ id, id ∈ reads t → id ∈ reads (touch_of (w_state w) (w_buffers w)) ∨
     ∃ num, live num = true ∧ (id = RsSlot num ∨ page_id s2 num = Some id)).
Proof.
  intros Hf Hns Ht Hwr Hrd. pose proof (gw_state _ _ _ _ _ _ Hp) as Hst. rewrite Hns in Hst.
  assert (Hno : w_state w = None) by (destruct (w_state w); [by destruct Hst|done]). rewrite Hno in Hwr, Hrd.
  destruct (at_ready k s0 start _ _ _ 0 Ha ltac:(lia)) as [Hr _]. pose proof (rd_entries _ _ _ _ _ Hr ws e He) as Heok.
  assert (Hnew : RsSlot 0 ∉ w_allocated w).
  { intros Hin%drawn_new. apply Hin, elem_of_all_slots. exists ws, e. split; [done|]. apply elem_of_entry_slots. by left. }
  assert (Hpg : ∀ i, lookup_page e i ≠ Some (RsSlot 0)).
  { intros i Hl%lookup_page_slot. by eapply (eo_folded _ _ Heok), (eo_buffer _ _ Heok). }
  assert (Hfit : ∀ tg, tg ∈ w_buffers w → match tg with
    | Fresh i d => d ∈ w_allocated w | InPlace i d => lookup_page e i = Some d
    | Cow i src d => lookup_page e i = Some src ∧ d ∈ w_allocated w end).
  { intros tg Htg. pose proof (fi_buffers _ _ (gw_fits _ _ _ _ _ _ Hp) tg Htg) as Hl.
    assert (Htk : ∀ d, taken_page tg = Some d → d ∈ w_allocated w).
    { intros d Hd. rewrite (wo_whole _ _ Hw), !elem_of_app. right; left. apply list_elem_of_omap. eauto. }
    destruct tg; simpl in *; rewrite ?sized_page in Hl; auto. }
  unfold touches in Ht. apply orb_true_iff in Ht as [Hin%bool_decide_eq_true|Hin%bool_decide_eq_true].
  - destruct (Hwr _ Hin) as [Hin'|?]; [|done]. unfold touch_of in Hin'. simpl in Hin'.
    apply list_elem_of_fmap in Hin' as (tg & Heq & Htg). specialize (Hfit tg Htg).
    destruct tg; simpl in *; subst; [done|by eapply Hpg|by destruct Hfit].
  - destruct (Hrd _ Hin) as [Hin'|(num & Hlive & Hnum)].
    + unfold touch_of in Hin'. simpl in Hin'. apply list_elem_of_omap in Hin' as (tg & Htg & Heq). specialize (Hfit tg Htg).
      destruct tg; simpl in *; try done. injection Heq as ->. by eapply Hpg, (proj1 Hfit).
    + unfold live in Hlive. apply andb_true_iff in Hlive as [Hz%bool_decide_eq_true _]. apply Hz.
      destruct Hnum as [[=]|Hnum]; [done|]. unfold page_id, checked_add_u32 in Hnum. case_decide; [|done]. injection Hnum. lia.
Qed.

Lemma group_made N v (vs : list RsVerb) s3 s4 out :
  lanes gp ≠ [] → lanes_told (start_out N) o 0 (lanes gp) (w_state w) (folded e) → Forall (λ lane, lane < N) (lanes gp) →
  (match w_state w with Some st => Some (slot st) | None => folded e end) = Some v →
  (∀ i, told i (w_state w) (folded e) = Some (lane_state e v i)) →
  (∀ i lane, lanes gp !! i = Some lane → vs !! lane = Some (lane_verb s2 e1 gp i)) →
  (∀ lane, lane < N → lane ∉ lanes gp → vs !! lane = Some FoldVerb) →
  let out2 := with_verbs (group_buffers s1 o (w_buffers w)) vs in
  still s2 s3 → noted s2 p out2 s3 → calm s3 s4 → wm s4 = <[ws := folded_by gp e1]> (wm s3) →
  extents s4 = extents s2 →
  out = mkPrepared (slot_ids out2) (slot_flags out2) (state_copies out2) (page_copies out2) (buffer_slot_ids out2)
    vs (window out2) (window_copies out2) (snapshots p) (Some p) →
  ∃ t v', group_told s s4 N ws e gp out p t e1 v'.
Proof.
  intros Hne Ho Hlt Hv Ht Hvin Hvout out2 Hs23 Hnote Hc34 Hw4 Hx4 ->.
  pose proof (lt_beside _ _ _ _ _ _ Ho) as Hbs. injection Hbs as B1 B2 B3 B4 B5 B6 B7.
  destruct (gw_touched _ _ _ _ _ _ Hp) as (t1 & Ht1 & Hwr & Hrd1 & Hwo).
  assert (Ht2 : inflight s2 !! w_seq w = Some t1) by (by destruct Hc as (_ & -> & _)).
  destruct (Hnote _ _ Ht2) as (t & Ht3 & Hwr3 & Hkept & Honly). destruct Hkept as [Hks Hkp]; [by rewrite Hq|].
  destruct Hs23 as (W3 & _ & _ & _ & X3). rewrite W3 in Hw4. destruct same_extents as [X1 X2].
  destruct (one_sets s4 Hw4) as (Hoth & Hrows & Hsnap).
  destruct (one_lanes N v vs s4 Ho Hlt Ht Hvin Hvout Hx4) as [Hlin Hlout].
  assert (Hwt : ∀ id, id ∈ writes (touch_of (w_state w) (w_buffers w)) → id ∈ writes t) by (rewrite Hwr3; exact Hwr).
  assert (Hid : ∀ id, engine_id s4 id = engine_id s1 id) by (intros id; apply engine_id_extents; congruence).
  destruct (at_ready k s0 start _ _ _ 0 Ha ltac:(lia)) as [Hr _].
  assert (Hfold : folded e1 = Some v).
  { unfold landed, with_state. simpl. destruct (sized_same e (group_writes gp)) as [-> _]. exact Hv. }
  exists t, v. split; try done; simpl.
  - split_and!; [by rewrite Hw4, lookup_insert_eq|done|..]; unfold sized; by destruct (nonempty _) as [[]|].
  - split; [done|]. exists (w_seq w). split; [done|]. by destruct Hc34 as (_ & -> & _).
  - split.
    + rewrite (lt_copies _ _ _ _ _ _ Ho). destruct (lanes gp); [done|].
      eapply state_fits_after; [by eapply gw_state|exact Hv| |done]. intros id Hid'. apply drawn_new.
      rewrite (wo_whole _ _ Hw). apply elem_of_app. by left.
    + intros Hws. apply Hwt. unfold touch_of. simpl. apply elem_of_app. left.
      pose proof (gw_state _ _ _ _ _ _ Hp) as Hst. destruct (w_state w) as [st|]; [|simpl in Hst; congruence].
      injection Hv as <-. by left.
  - intros i. rewrite B1. apply (group_page _ s s1 s4 ws e gp w t i Hp Hw); [by eapply rd_entries|exact drawn_new|exact Hid|].
    intros id Hin. apply Hwt. unfold touch_of. simpl. apply elem_of_app. by right.
  - intros num Hnum Hlive. apply Hks. unfold read_slots. apply list_elem_of_fmap. exists num. split; [done|].
    by apply list_elem_of_filter.
  - intros num Hnum Hlive. destruct (Hkp num) as (id & Hpid & Hrd).
    { unfold read_pages. apply list_elem_of_filter. split; [done|]. apply elem_of_app. by right. }
    exists id. split; [|done]. unfold page_id in *. injection Hx4 as _ _ _ _ _ _ _ _ Hpa. by rewrite Hpa.
  - intros Hf Hns. apply not_true_is_false. intros Htc. eapply (zero_not_touched t); try done; [by rewrite Hwr3|].
    intros id [Hin|[Hin|(num & Hin & Hid')]]%Honly; [left; by rewrite <-Hrd1|right|right].
    + unfold read_slots in Hin. apply list_elem_of_fmap in Hin as (num & -> & [? _]%list_elem_of_filter). exists num. auto.
    + unfold read_pages in Hin. apply list_elem_of_filter in Hin as [? _]. exists num. auto.
Qed.
End landed.

(** Once its group is prepared, the fire is. *)
Lemma publish_group_run n s s1 g1 ks ks1 sets ws gp e w o :
  at_ n s ks → wm s !! ws = Some e → group_ok s ws gp → write_ok (extents s0) w → group_prepared s ws e gp w s1 →
  at_ (S n) s1 (grants g1 ++ Prepared w :: ks1) → length (group_rows gp) + S n ≤ k →
  first_set sets gp = Some ws → NoDup (lanes gp) → Forall (λ lane, lane < length sets) (lanes gp) →
  lanes_told (start_out (length sets)) o 0 (lanes gp) (w_state w) (folded e) →
  wp (on_store (
      p ⇐ relay StoreError (publish_batch [w]) ;;
      vs ⇐ prepare_verbs sets [gp] p (verbs (group_buffers s1 o (w_buffers w))) ;;
      let out := with_verbs (group_buffers s1 o (w_buffers w)) vs in
      note_fire p.1 out ;;;
      relay StoreError (commit_folds p.2) ;;;
      mok (mkPrepared (slot_ids out) (slot_flags out) (state_copies out) (page_copies out) (buffer_slot_ids out)
        vs (window out) (window_copies out) (snapshots p.1) (Some p.1))))
    (λ out p, at_ (length (group_rows gp) + S n) p.1 (grants p.2 ++ ks1) ∧
       ∃ pub t e1 v, group_told s p.1 (length sets) ws e gp out pub t e1 v) never (s1, g1).
Proof.
  intros Ha He Hok Hw Hp Ha1 Hk Hws Hnd Hlt Ho. apply wp_on_store.
  assert (Hrows : batch_rows [w] = length (group_rows gp)).
  { unfold batch_rows. csimpl. rewrite <-(gw_rows _ _ _ _ _ _ Hp), length_fmap. simpl. lia. }
  assert (Ha1' : at_ (S n) s1 (Prepared w :: grants g1 ++ ks1)) by (eapply arrives_perm; [exact Ha1|solve_perm]).
  eapply wp_bind; [apply wp_relay_sure, (publish_run k s0 start (S n) s1 [w] (grants g1 ++ ks1) Ha1')| |done].
  { lia. }
  { apply NoDup_singleton. }
  { intros w' ->%list_elem_of_singleton. exists (sized e (group_writes gp)). split; [|by eapply gw_fits].
    by rewrite (gw_sets _ _ _ _ _ _ Hp), (gw_ws _ _ _ _ _ _ Hp), lookup_insert_eq. }
  intros [p folds] s2 (Ha2 & Hc2 & Hb2 & Hq2 & Hfo). cbn [fst snd] in *. rewrite Hrows in Ha2. simpl in Hq2. subst folds.
  pose proof (one_landed s s1 s2 ws e gp w p Hp Hb2) as He2.
  destruct (at_ready k s0 start _ s2 _ 0 Ha2 ltac:(lia)) as [Hr2 _].
  destruct (state_told s e gp (w_state w) (gw_state _ _ _ _ _ _ Hp)) as (v & Hv & Ht).
  pose proof (lt_beside _ _ _ _ _ _ Ho) as Hbs. injection Hbs as _ _ B3 _ _ _ _.
  destruct (prepare_verbs_one _ _ s2 _ _ sets ws gp (p, batch_folds [w]) _ (length sets) Hr2 Hws He2 Hnd Hlt)
    as (vs & Hvs & Hvin & Hvout & Hvall).
  apply wp_then. eapply wp_ret; [simpl; rewrite B3; exact Hvs|]. cbn zeta.
  destruct (reads_notable n _ (S n) s s1 s2 ks _ _ ws e gp w p o Ha ltac:(lia) Ha1' ltac:(lia) Ha2 ltac:(lia)
    He Hok Hw Hp Hc2 Hb2 Hq2 (length sets) v vs Ho Ht Hvall) as [Hn1 Hn2].
  eapply wp_bind; [eapply (note_run k s0 _ s2 _ p _ Ha2); [lia|exact Hn1|exact Hn2]| |done].
  intros [] s3 (Ha3 & Hs3 & Hnote). destruct (Hs3) as (W3 & _ & _ & _ & X3).
  eapply wp_bind; [apply wp_relay_sure, (one_folds s s1 ws e gp w Hp _ s3 _ Ha3); [lia|by rewrite W3]| |done].
  intros [] s4 (Ha4 & Hc4 & Hw4). apply wp_ok. split; [exact Ha4|]. exists p.
  assert (X4 : extents s4 = extents s2).
  { transitivity (extents s0); [|symmetry]; eapply at_extents; [exact start|exact Ha4|lia|exact start|exact Ha2|lia]. }
  assert (Hne : lanes gp ≠ []).
  { intros Hn. unfold first_set in Hws. rewrite Hn in Hws. done. }
  destruct (group_made n _ (S n) s s1 s2 ks _ _ ws e gp w p o Ha ltac:(lia) Ha1' ltac:(lia) Ha2 ltac:(lia)
    He Hw Hp Hc2 Hb2 Hq2 (length sets) v vs s3 s4 _ Hne Ho Hlt Hv Ht Hvin Hvout Hs3 Hnote Hc4 Hw4 X4 eq_refl) as (t & v' & Htold).
  exists t, (landed (sized e (group_writes gp)) w), v'. exact Htold.
Qed.
End history.

(** The preparation of a fire of one group. *)
Lemma group_fire_run k s0 n s g ks sets ws gp :
  starts k s0 → arrives s0 n s (grants g ++ ks) → length (group_rows gp) + S n ≤ k →
  first_set sets gp = Some ws → group_ok s ws gp → NoDup (lanes gp) →
  Forall (λ lane, lane < length sets) (lanes gp) →
  wp (prepare_many sets (Groups [gp]))
    (λ out p, arrives s0 (length (group_rows gp) + S n) p.1 (grants p.2 ++ ks) ∧
      ∃ e pub t e1 v, wm s !! ws = Some e ∧ group_told s p.1 (length sets) ws e gp out pub t e1 v)
    (λ _ p, ∃ m, m ≤ S n ∧ arrives s0 m p.1 (grants p.2 ++ ks) ∧ traceless s ws p.1) (s, g).
Proof.
  intros H0 Ha Hk Hws Hok Hnd Hlt. unfold prepare_many. rewrite decide_False.
  2: { intros ->. unfold first_set in Hws. by destruct (lanes gp !! 0). }
  unfold prepare_group_plan. eapply wp_bind; [apply (prepare_one_run k s0 H0 n s g ks sets ws gp (start_out (length sets)));
    [done|lia|done..| |]| |by intros ? ? ?].
  - simpl. by rewrite length_replicate.
  - done.
  - intros ? [s1 g1] (e & w & o & He & -> & Ha1 & Hw & Hp & Ho). cbn [fst snd] in *.
    eapply wp_mono; [by eapply (publish_group_run k s0 H0 n s s1 g1 (grants g ++ ks) ks sets ws gp e w o)| |done].
    intros out p [? (pub & t & e1 & v & ?)]. split; [done|]. by exists e, pub, t, e1, v.
Qed.

(** C17. The preparation of a fire of one group of lanes never panics, and is one with the
    calls of the store it makes. If it fails, every count, checkpoint and fire in flight is
    what it was, and so is every set, but that the group's may have room in its buffer for
    pages it has not got. If not: the set's state is in the slot it was in, unless it is
    written and shared, or written and read by another lane, and then it is copied to a slot
    no set had; every page that holds a token of the range is the set's own, or one no set
    had, copied from the shared one; the first lane is told the state's slot after the
    fire and the others the one before, or all the new one, from zeros, where the set had
    none; they are told the buffer as it is before the fold; the set is folded by what the
    group folds; other sets are what they were; each row has a set of its own. Of the
    numbers told, those of slots, of pages and of what is copied, each but 0 and the unmapped
    one is among the reads of the fire in flight; the number 0 is taken for none, and a
    state in slot 0 that the fire does not write is not touched by it. *)
Theorem group_fire_correct k s0 n s g ks sets ws gp :
  starts k s0 → reaches s0 n s (grants g ++ ks) → length (group_rows gp) + S n ≤ k →
  first_set sets gp = Some ws → group_ok s ws gp → NoDup (lanes gp) →
  Forall (λ lane, lane < length sets) (lanes gp) →
  match prepare_many sets (Groups [gp]) (s, g) with
  | (Ok out, (s', g')) => arrives s0 (length (group_rows gp) + S n) s' (grants g' ++ ks) ∧
      ∃ e p t e1 v, wm s !! ws = Some e ∧ group_told s s' (length sets) ws e gp out p t e1 v
  | (Err _, (s', g')) => (∃ m, m ≤ S n ∧ arrives s0 m s' (grants g' ++ ks)) ∧ traceless s ws s'
  | (Panic, _) => False
  end.
Proof.
  intros H0 Hre Hk Hws Hok Hnd Hlt.
  pose proof (group_fire_run k s0 n s g ks sets ws gp H0 ltac:(by eexists) Hk Hws Hok Hnd Hlt) as Hrun. unfold wp in Hrun.
  destruct (prepare_many sets (Groups [gp]) (s, g)) as [[out|err|] [s' g']]; [done| |done].
  destruct Hrun as (m & ? & ? & ?). eauto.
Qed.

(** C19. The slot numbered 0 may go under a fire that reads it. When a set's state is in slot
    0 and the group writes no state, its lanes are told to read slot 0 as it is, but the fire
    in flight does not touch it. If the set has it alone and no other fire touches it, the
    slot is free once the set is released, with the fire in flight still. *)
Theorem slot_zero_not_kept k s0 n s g ks sets ws gp e out s' g' :
  starts k s0 → reaches s0 n s (grants g ++ ks) → length (group_rows gp) + S n ≤ k →
  first_set sets gp = Some ws → group_ok s ws gp → NoDup (lanes gp) →
  Forall (λ lane, lane < length sets) (lanes gp) →
  wm s !! ws = Some e → folded e = Some (RsSlot 0) → writes_state e gp = false →
  prepare_many sets (Groups [gp]) (s, g) = (Ok out, (s', g')) →
  (∀ lane, lane ∈ lanes gp → slot_ids out !! lane = Some 0%N ∧ slot_flags out !! lane = Some 0%N) ∧
  ∃ p q t, txn_ out = Some p ∧ seqs p = [q] ∧ inflight s' !! q = Some t ∧ touches t (RsSlot 0) = false ∧
    (¬ hidden s' ws → ref_count s' (RsSlot 0) = 1%N →
     (∀ q' t', q' ≠ q → inflight s' !! q' = Some t' → touches t' (RsSlot 0) = false) →
     ∃ c s1 s2, release_working_set ws s' = (Ok c, s1) ∧ retire_idle s1 = (Ok tt, s2) ∧
       inflight s2 !! q = Some t ∧ RsSlot 0 ∈ Pool.free (slots s2)).
Proof.
  intros H0 Hre Hk Hws Hok Hnd Hlt He Hf Hns Hp.
  pose proof (group_fire_run k s0 n s g ks sets ws gp H0 ltac:(by eexists) Hk Hws Hok Hnd Hlt) as Hrun. unfold wp in Hrun.
  rewrite Hp in Hrun. destruct Hrun as [Ha' (e' & p & t & e1 & v & He' & [])]. simpl in *.
  rewrite He in He'. injection He' as <-. destruct gt_fire0 as (Htx & q & Hq & Ht). pose proof (gt_zero0 Hf Hns) as Hno.
  destruct gt_state0 as [Hst _]. unfold state_after in Hst. rewrite Hf, Hns in Hst. simpl in Hst. destruct Hst as [-> _]. split.
  - intros lane [i Hi]%list_elem_of_lookup. destruct (gt_lanes0 i lane Hi) as (-> & -> & _).
    unfold lane_state. rewrite Hf. by destruct i.
  - exists p, q, t. split_and!; [done..|]. intros Hvis Hone Hoth. destruct gt_set0 as (Hs' & Hf1 & _).
    destruct (at_ready k s0 H0 _ _ _ 0 Ha' ltac:(lia)) as [Hr' _].
    destruct (at_ready k s0 H0 n s _ 0 ltac:(by eexists) ltac:(lia)) as [Hr _].
    assert (Hfo : folded (folded_by gp e1) = Some (RsSlot 0)) by (unfold folded_by; by destruct (fold_count_of gp)).
    assert (Hw : within (x_slots (extents s0)) (RsSlot 0)).
    { destruct (resident_slots _ _ _ _ _ _ _ Hr He (go_resident _ _ _ Hok e He) (RsSlot 0)) as [Hh Hex].
      { apply elem_of_entry_slots. by left. }
      destruct (ref_exists _ _ _ _ _ _ Hr Hex) as [Hex' _]. pose proof (eo_folded _ _ (rd_entries _ _ _ _ _ Hr ws e He) _ Hf) as Hnp. unfold exists_in, hosted, paged in *. tauto. }
    destruct (released_untouched _ 0 s' _ ws _ (RsSlot 0) Hr' Hvis Hs' Hfo Hw Hone) as (c & s1 & s2 & H1 & H2 & Hi & Hfree).
    { intros q' t' Hq'. destruct (decide (q' = q)) as [->|Hne]; [congruence|by eapply Hoth]. }
    exists c, s1, s2. split_and!; [done..|by rewrite Hi|done].
Qed.
End lanes.

(** ** The theorem at a point of a history

    Two lanes read the fork of the sample: the first buffers the tokens from 9 to 13 and
    folds two, and the state after one token is kept as a set of its own. *)

Definition group10 : GroupPlan := mkGroup [0; 1] (Some (9, 14)%N) (HostFold 2) [1%N].
Definition lent10 : option RsGrant := Eval vm_compute in grant_of world10.2.

Lemma group10_ok : group_ok world10.1 (ws_key 1) group10.
Proof.
  split; [resident_now|by apply range_ok|by vm_compute|]. intros e He. vm_compute in He. injection He as <-.
  apply Forall_singleton. by vm_compute.
Qed.

Lemma group_fire_correct_witness :
  ∃ out s' g' e p t e1 v, prepare_many [ws_key 1; ws_key 1] (Groups [group10]) (world10.1, lent10) = (Ok out, (s', g')) ∧
    group_told world10.1 s' 2 (ws_key 1) e group10 out p t e1 v.
Proof.
  pose proof (group_fire_correct 1000 store0 4 world10.1 lent10 [] [ws_key 1; ws_key 1] (ws_key 1) group10
    rs_sample_starts world10_reaches ltac:(simpl; lia) eq_refl group10_ok) as H.
  specialize (H ltac:(apply (bool_decide_unpack (NoDup (lanes group10))); by vm_compute) ltac:(repeat constructor)).
  destruct (prepare_many [ws_key 1; ws_key 1] (Groups [group10]) (world10.1, lent10)) as [[out|e|] [s' g']] eqn:Hp.
  - destruct H as (_ & e & p & t & e1 & v & _ & H).
    exists out, s', g', e, p, t, e1, v. exact (conj eq_refl H).
  - exfalso. vm_compute in Hp. discriminate.
  - destruct H.
Defined.
(** ** A fire of a set whose state is in slot 0

    A set takes up its state without a reservation, in the first slot there is; then a
    lane buffers four more tokens and folds none. *)

Definition zero2 := Eval vm_compute in
  after world1 (WriteCall (PrepareGroup None (ws_key 0) true false (Some 6%N) None)) [].
Definition zero_write := Eval vm_compute in write_of zero2.2.
Definition zero3 := Eval vm_compute in after zero2 (WriteCall (Publish [zero_write])) [].
Definition zero4 := Eval vm_compute in after zero3 (SetCall (CommitFolds [mkFold (ws_key 0) 6])) zero3.2.
Definition zero5 := Eval vm_compute in after zero4 (WriteCall (Settle (mkPublished [w_seq zero_write] []))) [].
Definition zero_group : GroupPlan := mkGroup [0] (Some (6, 10)%N) NoFold [].
Definition zero_fire := Eval vm_compute in prepare_many [ws_key 0] (Groups [zero_group]) (zero5.1, None).
Definition zero_out : PreparedRs := Eval vm_compute in match zero_fire.1 with Ok out => out | _ => no_prepared end.

Lemma zero5_reaches : reaches store0 2 zero5.1 zero5.2.
Proof.
  next_call store0 2 zero4 (WriteCall (Settle (mkPublished [w_seq zero_write] []))) (@nil token).
  next_call store0 2 zero3 (SetCall (CommitFolds [mkFold (ws_key 0) 6])) (@nil token).
  next_call store0 2 zero2 (WriteCall (Publish [zero_write])) (@nil token).
  - next_call store0 1 world1 (WriteCall (PrepareGroup None (ws_key 0) true false (Some 6%N) None)) (@nil token).
    + next_call store0 0 (store0, @nil token) (SetCall (Create geometry)) (@nil token). apply reaches_new.
    + split; [resident_now|done].
  - eapply publish_now; [computed|fits_computed].
Qed.

Lemma zero_group_ok : group_ok zero5.1 (ws_key 0) zero_group.
Proof.
  split; [resident_now|by apply range_ok|by vm_compute|]. intros e He. vm_compute in He. injection He as <-.
  by apply Forall_nil.
Qed.

Lemma slot_zero_not_kept_witness :
  slot_ids zero_out = [0%N] ∧ ∃ p q t, txn_ zero_out = Some p ∧ seqs p = [q] ∧ inflight zero_fire.2.1 !! q = Some t ∧
    ∃ c s1 s2, release_working_set (ws_key 0) zero_fire.2.1 = (Ok c, s1) ∧ retire_idle s1 = (Ok tt, s2) ∧
      inflight s2 !! q = Some t ∧ RsSlot 0 ∈ Pool.free (slots s2).
Proof.
  assert (He : ∃ e, st_map (working_sets zero5.1) !! ws_key 0 = Some e ∧ folded e = Some (RsSlot 0) ∧
    writes_state e zero_group = false) by (eexists; split; [computed|split; [done|computed]]).
  destruct He as (e & He & Hf & Hw).
  pose proof (slot_zero_not_kept 1000 store0 2 zero5.1 None [] [ws_key 0] (ws_key 0) zero_group e zero_out
    zero_fire.2.1 None rs_sample_starts zero5_reaches ltac:(simpl; lia) eq_refl zero_group_ok
    ltac:(apply NoDup_singleton) ltac:(repeat constructor) He Hf Hw ltac:(computed)) as (_ & p & q & t & Hp & Hq & Ht & _ & H).
  split; [done|]. exists p, q, t. split_and!; [done..|]. apply H.
  - intros (key & c & Hc & _). vm_compute in Hc. discriminate.
  - by vm_compute.
  - assert (Hm : inflight zero_fire.2.1 = {[q := t]}).
    { injection Hp as <-. injection Hq as <-. vm_compute in Ht. injection Ht as <-. computed. }
    intros q' t' Hne. by rewrite Hm, lookup_singleton_ne.
Defined.
End RsFireGroupThm.
