(* ===== verification/RsFireThm.v ===== *)
(** The theorems on a fire of a windowed model, and on what a grant of its demand is good
    for. *)
From S2P Require Import Prelude Ids Store Pool GenMap KvTable KvStore Hoare RsStore RsBooks RsKeep RsWrites RsPublish RsMoves.
From S2P Require Import RsWorld RsShare RsCalls RsSample RsFire RsFireRun RsFireRing.

Module RsFireThm.
Import GenMap KvTable RsStore RsBooks RsKeep RsWrites RsPublish RsMoves RsWorld RsShare RsCalls RsSample RsFire RsFireRun RsFireRing.

Section thm.
Context {WS : Type → Type}.
Context `{!KeyedStore RsWorkingSetId WS, !KeyedStoreLaws RsWorkingSetId WS}.
Abbreviation store := (RsStore WS).
Implicit Types s : store.
Abbreviation wm s := (st_map (working_sets s)).
Abbreviation never := (λ _ _, False).

(** C16. The preparation of a fire of a windowed model never panics, and is one with the
    calls of the store it makes: what it leaves is a store of a history, so all that is
    shown of histories holds of it. If it fails, no working set, count or fire in flight
    is other than before. If not, each lane is told the pages of its window in its order:
    a page it writes is its own, or a new one nobody had, copied from the shared one it
    replaces, and is in the writes of a fire in flight; every page told is among the reads
    of a fire in flight. *)
Theorem ring_fire_correct k s0 n s g ks sets rows :
  starts k s0 → reaches s0 n s (grants g ++ ks) → length (zip sets rows) + n ≤ k →
  Forall (row_ok s) (zip sets rows) →
  match prepare_many sets (Ring rows) (s, g) with
  | (Ok out, (s', g')) => arrives s0 (length (zip sets rows) + n) s' (grants g' ++ ks) ∧
      (sets ≠ [] → ring_fire s (zip sets rows) out s')
  | (Err _, (s', g')) => (∃ m, m ≤ length (zip sets rows) + n ∧ arrives s0 m s' (grants g' ++ ks)) ∧
      still s s' ∧ inflight s' = inflight s
  | (Panic, _) => False
  end.
Proof.
  intros H0 Hre Hk Hok. assert (Ha : arrives s0 n s (grants g ++ ks)) by by eexists.
  unfold prepare_many. case_decide as Hnil; [subst; done|].
  destruct (repeats 0 [] sets) eqn:Hrep.
  { split; [exists n; split; [lia|done]|done]. }
  apply repeats_none in Hrep as [Hnd _]. pose proof (ring_run k s0 H0 n s g ks sets rows Ha Hk Hnd Hok) as Hr.
  unfold wp in Hr. destruct (prepare_ring_rows sets rows (s, g)) as [[out|e|] [s' g']]; [| |done].
  - destruct Hr as [? ?]. by split.
  - destruct Hr as (m & ? & ? & ? & ?). eauto.
Qed.

(** ** A grant that is enough *)

Definition row_need s (r : RsWorkingSetId * RingRow) : N :=
  match wm s !! r.1 with Some e => targets_demand s (ring_targets s e (row_pages r.2)) | None => 0 end.
Definition rows_need s (rows : list (RsWorkingSetId * RingRow)) : N := foldr N.add 0%N (row_need s <$> rows).

Lemma prepare_ring_enough x n s B H g ws e pages :
  ready x n s B H → wm s !! ws = Some e → holds_host s e = false → (N.of_nat (length pages) ≤ u32_max)%N →
  let need := targets_demand s (ring_targets s e pages) in
  (need ≤ as_u32 (N.of_nat (length (g_pages g))))%N →
  ∃ w s', prepare_ring ws pages (s, Some g) = (Ok w, (s', Some (mkGrant (g_slots g) (drop (N.to_nat need) (g_pages g))))).
Proof.
  intros Hr He Hh Hlen need Hneed.
  pose proof (as_u32_le (N.of_nat (length (g_pages g)))) as Hle.
  unfold prepare_ring, prepare_targets, with_grant, mthen, mget. cbn [fst snd].
  rewrite (entry_get _ _ _ _ _ _ e Hr He). cbn [fst snd]. rewrite (entry_get _ _ _ _ _ _ e Hr He). cbn [fst snd].
  unfold mguard. rewrite decide_True by done. cbn [fst snd].
  unfold draw, mthen, mget. cbn [fst snd u_slots u_pages takes_state andb]. fold need.
  assert (Hcov : covers (grant_units g) (mkUnits 0 need) = true).
  { unfold covers, grant_units. simpl. rewrite andb_true_iff, !bool_decide_eq_true. split; [lia|done]. }
  unfold mok at 1. cbn [fst snd]. rewrite Hcov. cbn [negb]. unfold mguard. rewrite decide_True by (simpl; lia).
  unfold mok at 1. rewrite decide_True by lia. unfold mmodify, mok. cbn [fst snd]. unfold state_target. cbn [negb mexpect].
  destruct (ring_targets_spec s e pages Hlen) as (_ & Htl & _).
  assert (Hn : length (filter (λ t, takes_fresh s t.2 = true) (ring_targets s e pages)) = N.to_nat need).
  { unfold need, targets_demand. rewrite as_u32_fits; [lia|].
    pose proof (length_filter (λ t : nat * option RsSlotId, takes_fresh s t.2 = true) (ring_targets s e pages)). lia. }
  destruct (rs_write_targets_spec s (ring_targets s e pages) (take (N.to_nat need) (g_pages g))) as (ts & Hts & _).
  { rewrite length_take. lia. }
  rewrite Hts. cbn [mexpect]. eexists _, _. done.
Qed.

(** The pages lent are no more than there are. *)
Lemma grant_bound x n s g ks :
  ready x n s (lent (Grant g :: ks)) [] → token_ok x (Grant g) → (N.of_nat (length (g_pages g)) ≤ (x_pages x).2)%N.
Proof.
  intros Hr [_ Hw]. rewrite rs_lent_cons in Hr. simpl in Hr.
  pose proof (rs_NoDup_universe s) as Hnd. rewrite (rd_extents _ _ _ _ _ Hr) in Hnd.
  specialize (Hnd (rd_layout _ _ _ _ _ Hr)). rewrite <-(rd_whole _ _ _ _ _ Hr), fmap_app, loans_snd in Hnd.
  rewrite <-!app_assoc in Hnd. apply NoDup_app in Hnd as (_ & _ & Hnd). apply NoDup_app in Hnd as (Hnd & _).
  assert (Hsub : g_pages g ⊆+ Pool.ids_of (pages s)).
  { apply NoDup_submseteq; [done|]. intros id Hid. apply extent_within.
    rewrite <-(rd_extents _ _ _ _ _ Hr) in Hw. exact (proj1 (Forall_forall _ _) Hw id Hid). }
  apply submseteq_length in Hsub. rewrite <-(rd_extents _ _ _ _ _ Hr). simpl.
  unfold Pool.ids_of in Hsub. rewrite length_fmap, length_range_from in Hsub. lia.
Qed.

Lemma still_row_need s s' r : still s s' → row_need s' r = row_need s r.
Proof.
  intros Hs. unfold row_need. destruct Hs as (Hw & Hs). rewrite Hw. assert (Hst : still s s') by done.
  destruct (wm s !! r.1) as [e|]; [|done]. rewrite (still_targets s s') by done. unfold targets_demand. do 2 f_equal.
  f_equal. apply list_filter_iff. intros [i o]. unfold takes_fresh. simpl. destruct o; [|done].
  by rewrite (still_count s s').
Qed.
Lemma still_rows_need s s' rows : still s s' → rows_need s' rows = rows_need s rows.
Proof.
  intros Hs. unfold rows_need. f_equal. apply list_fmap_ext. intros i r _. by apply still_row_need.
Qed.

Lemma demand_rows_eq x n s B H rows : ∀ total,
  ready x n s B H → (∀ r, r ∈ rows → is_Some (wm s !! r.1)) → (u_slots total = 0)%N → (u_pages total ≤ u32_max)%N →
  demand_rows total rows s = (Ok (mkUnits 0 (N.min u32_max (u_pages total + rows_need s rows))), s).
Proof.
  induction rows as [|[ws row] rows IH]; intros total Hr Hin Hs Hp; cbn [demand_rows].
  { unfold mok. destruct total as [a b]. simpl in *. subst a. do 3 f_equal. unfold rows_need. simpl. lia. }
  destruct (Hin (ws, row) ltac:(by left)) as [e He]. simpl in He.
  unfold mthen at 1, relay, ring_demand. unfold mthen at 1. rewrite (entry_get _ _ _ _ _ _ e Hr He).
  unfold mthen, mget, mok. rewrite IH; try done; [| |by simpl; rewrite Hs|].
  - do 3 f_equal. unfold rows_need. csimpl. unfold row_need at 2. simpl. rewrite He. unfold sat_add. lia.
  - intros r ?. apply Hin. by right.
  - simpl. unfold sat_add. lia.
Qed.

Section history.
Context (k : nat) (s0 : store) (start : starts k s0).
Abbreviation at_ := (arrives s0).

Lemma prepare_rows_enough ks rows : ∀ n s g index prepared,
  at_ n s (grants (Some g) ++ (Prepared <$> prepared) ++ ks) → Forall (row_ok s) rows →
  (∀ r, r ∈ rows → is_Some (wm s !! r.1)) → length rows + n ≤ k →
  (rows_need s rows ≤ N.of_nat (length (g_pages g)))%N → (N.of_nat (length (g_pages g)) ≤ u32_max)%N →
  ∃ ws p, prepare_rows index rows prepared (s, Some g) = (Ok ws, p).
Proof.
  induction rows as [|[ws row] rows IH]; intros n s g index prepared Ha Hok Hin Hk Hneed Hu; [by eexists _, _|].
  apply Forall_cons in Hok as [[Hres Hlen] Hok]. simpl in Hres, Hlen, Hk. cbn [prepare_rows].
  destruct (Hin (ws, row) ltac:(by left)) as [e He]. simpl in He.
  destruct (at_ready k s0 start n s _ 0 Ha ltac:(lia)) as [Hr _].
  assert (Hsplit : rows_need s ((ws, row) :: rows) = (targets_demand s (ring_targets s e (row_pages row)) + rows_need s rows)%N).
  { unfold rows_need, row_need at 1. csimpl. by rewrite He. }
  destruct (prepare_ring_enough _ _ s _ _ g ws e (row_pages row) Hr He (Hres e He) Hlen) as (w & s1 & Hp).
  { rewrite as_u32_fits by done. lia. }
  pose proof (ring_step k s0 start n s (Some g) _ ws (row_pages row) Ha Hres Hlen ltac:(lia)) as Hst.
  unfold wp in Hst. rewrite Hp in Hst |- *. destruct Hst as (Ha1 & _ & e' & Hpr). simpl in Ha1.
  assert (Hs1 : still s s1).
  { destruct (pr_rest _ _ _ _ _ _ _ _ _ Hpr) as (? & ? & ? & ?). unfold still. split_and!; [done..|].
    rewrite (at_extents k s0 start _ _ _ Ha ltac:(lia)). eapply at_extents; [done|exact Ha1|lia]. }
  eapply (IH (S n) s1).
  - eapply arrives_perm; [exact Ha1|]. rewrite fmap_app. csimpl. solve_perm.
  - eapply Forall_impl; [exact Hok|]. intros r. by apply still_row_ok.
  - intros r ?. destruct Hs1 as (-> & _). apply Hin. by right.
  - lia.
  - rewrite (still_rows_need s s1) by done. simpl. rewrite length_drop. lia.
  - simpl. rewrite length_drop. lia.
Qed.
End history.

(** C18. A grant of what a plan demands is enough. Where a fire of a windowed model has as
    many rows as sets, all known and each named once, its preparation out of a grant comes
    to nothing but what it should: it is turned away as stale, the store and the grant as
    they were, when the grant does not cover what the plan demands now, and is prepared
    otherwise. *)
Theorem ring_grant_suffices k s0 n s g ks sets rows :
  starts k s0 → reaches s0 n s (Grant g :: ks) → length rows + n ≤ k → Forall (row_ok s) (zip sets rows) →
  (Pool.capacity (pages s0) < u32_max)%N → length rows = length sets → NoDup sets →
  Forall (λ ws, is_Some (wm s !! ws)) sets →
  ∃ need, demand sets (Ring rows) s = (Ok need, s) ∧
    match prepare_rs_reserved sets (Ring rows) (s, g) with
    | (Ok _, _) => covers (grant_units g) need = true
    | (Err Stale, p) => covers (grant_units g) need = false ∧ p = (s, g)
    | _ => False
    end.
Proof.
  intros H0 Hre Hk Hok Hcap Hlen Hnd Hin.
  destruct (rs_history_ready k s0 n s _ 0 H0 Hre ltac:(lia)) as [Hr Htok].
  assert (Hin' : ∀ r, r ∈ zip sets rows → is_Some (wm s !! r.1)).
  { intros [ws row] Hz%elem_of_zip_l. by apply (proj1 (Forall_forall _ _) Hin). }
  pose proof (demand_rows_eq _ _ s _ _ (zip sets rows) (mkUnits 0 0) Hr Hin' eq_refl ltac:(simpl; lia)) as Hd.
  simpl in Hd. rewrite N.add_0_l in Hd. eexists. split; [exact Hd|].
  unfold prepare_rs_reserved. cbn [fst snd]. unfold demand. rewrite Hd.
  destruct (covers _ _) eqn:Hcov; cbn [negb]; [|done].
  apply Forall_cons in Htok as [Hg _]. pose proof (grant_bound _ _ _ _ _ Hr Hg) as Hb. simpl in Hb.
  change (Pool.extent (pages s0)) with (Pool.base (pages s0), Pool.capacity (pages s0)) in Hb. simpl in Hb.
  unfold covers, grant_units in Hcov. simpl in Hcov. apply andb_true_iff in Hcov as [_ Hc%bool_decide_eq_true].
  rewrite as_u32_fits in Hc by lia.
  assert (Hzl : length (zip sets rows) = length rows) by (rewrite length_zip_with; lia).
  assert (Ha : arrives s0 n s (grants (Some g) ++ (Prepared <$> []) ++ ks)) by by eexists.
  destruct (prepare_rows_enough k s0 H0 ks (zip sets rows) n s g 0 [] Ha Hok Hin') as (ws & [s1 g1] & Hp); [lia..|].
  unfold prepare_many. case_decide as Hnil; [done|]. rewrite repeats_distinct by (done || by intros ? _ ?%not_elem_of_nil).
  unfold prepare_ring_rows, mthen. rewrite decide_False by (intros ?; done). rewrite Hp.
  pose proof (prepare_rows_run k s0 H0 ks (zip sets rows) n s (Some g) 0 [] Ha Hok ltac:(lia)) as Hrun.
  unfold wp in Hrun. rewrite Hp in Hrun. destruct Hrun as [Ha1 Hrp]. simpl in Ha1.
  pose proof (publish_rows_run k s0 H0 n s (Some g) g1 s1 ks (zip sets rows) ws Ha ltac:(lia)) as Hpub.
  specialize (Hpub ltac:(rewrite fst_zip by lia; done) Hok Ha1 Hrp). unfold wp in Hpub.
  by destruct (publish_rows (zip sets rows) ws (s1, g1)) as [[out|e|] [s2 g2]].
Qed.
End thm.

(** ** The theorems at a point of a history

    The ring of the sample is forked, and two pages are reserved for a fire of the fork
    that writes its last page, which is shared, and reads its last two. *)

Definition ring5 := Eval vm_compute in after ring3 (WriteCall (Settle (mkPublished [w_seq ring_write] []))) ring3.2.
Definition ring6 := Eval vm_compute in after ring5 (SetCall (Fork (ws_key 0))) ring5.2.
Definition ring7 := Eval vm_compute in after ring6 (WriteCall (Reserve (mkUnits 0 2))) ring6.2.
Definition grant7 : RsGrant := Eval vm_compute in default (mkGrant [] []) (grant_of ring7.2).
Definition row7 : RingRow := mkRow [3] [2; 3] (mkAdvance true 8 8 None 8 (Some 8%N)).

Lemma ring7_reaches : reaches ring0 3 ring7.1 ring7.2.
Proof.
  next_call ring0 3 ring6 (WriteCall (Reserve (mkUnits 0 2))) ring6.2.
  next_call ring0 2 ring5 (SetCall (Fork (ws_key 0))) ring5.2.
  next_call ring0 2 ring3 (WriteCall (Settle (mkPublished [w_seq ring_write] []))) ring3.2.
  apply ring3_reaches.
Qed.

Lemma row7_ok : Forall (row_ok ring7.1) (zip [ws_key 1] [row7]).
Proof. repeat constructor; [resident_now|by vm_compute]. Qed.

Lemma ring_fire_correct_witness :
  ∃ out s' g', prepare_many [ws_key 1] (Ring [row7]) (ring7.1, Some grant7) = (Ok out, (s', g')) ∧
    ring_fire ring7.1 [(ws_key 1, row7)] out s'.
Proof.
  pose proof (ring_fire_correct 1000 ring0 3 ring7.1 (Some grant7) [] [ws_key 1] [row7]
    ring_starts ring7_reaches ltac:(simpl; lia) row7_ok) as H.
  destruct (prepare_many [ws_key 1] (Ring [row7]) (ring7.1, Some grant7)) as [[out|e|] [s' g']] eqn:Hp.
  - exists out, s', g'. split; [done|]. by apply H.
  - exfalso. vm_compute in Hp. discriminate.
  - destruct H.
Defined.

Lemma ring_grant_suffices_witness :
  ∃ need, demand [ws_key 1] (Ring [row7]) ring7.1 = (Ok need, ring7.1) ∧
    match prepare_rs_reserved [ws_key 1] (Ring [row7]) (ring7.1, grant7) with
    | (Ok _, _) => covers (grant_units grant7) need = true
    | (Err Stale, p) => covers (grant_units grant7) need = false ∧ p = (ring7.1, grant7)
    | _ => False
    end.
Proof.
  apply (ring_grant_suffices 1000 ring0 3 ring7.1 grant7 [] [ws_key 1] [row7]);
    [apply ring_starts|apply ring7_reaches|simpl; lia|apply row7_ok|by vm_compute|done| |].
  - apply NoDup_singleton.
  - apply Forall_singleton. eexists. vm_compute. reflexivity.
Defined.
End RsFireThm.
