(* ===== verification/RunMask.v ===== *)
(** Token masks as run lengths ([crates/grammar/src/brle.rs]) and as bit sets
    ([crates/grammar/src/bitmask.rs]): the two representations a constrained
    decode passes around. A mask is a list of run lengths, the first of unset
    bits, kept at the width of a [u32]; positions are [usize]. [None] is a
    panic. *)
From S2P Require Import Prelude.
From stdpp Require Import sorting.

Module RunMask.

(** [as u32]. *)
Definition wrap32 (n : nat) : nat := N.to_nat (as_u32 (N.of_nat n)).

Record RunMask : Type := mkMask { buffer : list nat; total_size : nat }.

(** ** Making masks *)

Definition new (size : nat) : RunMask :=
  if decide (size = 0) then mkMask [] 0 else mkMask [wrap32 size] size.

Definition all_true (size : nat) : RunMask :=
  if decide (size = 0) then mkMask [] 0 else mkMask [0; wrap32 size] size.

Definition from_vec (buffer : list nat) : RunMask := mkMask buffer (sum_list buffer).

Definition slice_step (st : list nat * bool * nat) (val : bool) : list nat * bool * nat :=
  let '(buffer, current_val, count) := st in
  if eqb val current_val then (buffer, current_val, wrap32 (count + 1))
  else (buffer ++ [count], val, 1).

Definition from_slice (v : list bool) : RunMask :=
  match v with
  | [] => new 0
  | first :: _ =>
      let '(buffer, _, count) :=
        foldl slice_step (if first then ([0], true, 0) else ([], false, 0)) v in
      mkMask (buffer ++ [count]) (length v)
  end.

Definition len (m : RunMask) : nat := total_size m.
Definition is_empty (m : RunMask) : bool := bool_decide (total_size m = 0).

(** ** Runs *)

(** A run: its value, its start, its end. *)
Abbreviation run := (bool * nat * nat)%type.

(** What [RunIterator] still yields from entry [index], at [current_pos]. *)
Fixpoint runs_from (index current_pos : nat) (buffer : list nat) : list run :=
  match buffer with
  | [] => []
  | run_len :: buffer =>
      let rest := runs_from (S index) (current_pos + run_len) buffer in
      if decide (0 < run_len) then (Nat.odd index, current_pos, current_pos + run_len) :: rest
      else rest
  end.

Definition iter_runs (m : RunMask) : list run := runs_from 0 0 (buffer m).

Definition to_vec (m : RunMask) : list bool :=
  concat ((λ r : run, replicate (r.2 - r.1.2) r.1.1) <$> iter_runs m).

(** ** Queries *)

(** [while let Some(..) = current_run]: on to the run that holds the query. *)
Fixpoint seek_run (query_index : nat) (runs : list run) : list run :=
  match runs with
  | (value, run_start, run_end) :: runs' =>
      if decide (run_start ≤ query_index ∧ query_index < run_end) then runs
      else seek_run query_index runs'
  | [] => []
  end.

Fixpoint masked_loop (total : nat) (queries : list (nat * nat)) (runs : list run)
    (results : list bool) : option (list bool) :=
  match queries with
  | [] => Some results
  | (original_pos, query_index) :: queries =>
      if decide (total ≤ query_index) then None
      else
        let runs := seek_run query_index runs in
        let results := match runs with
                       | r :: _ => <[original_pos := r.1.1]> results
                       | [] => results
                       end in
        masked_loop total queries runs results
  end.

Definition key_le (p q : nat * nat) : Prop := p.2 ≤ q.2.

#[export] Instance key_le_dec : RelDecision key_le.
Proof. intros p q. unfold key_le. apply _. Defined.

(** The sort is by index alone: equal indices may come in any order. *)
Definition is_masked (m : RunMask) (indices : list nat) : option (list bool) :=
  match indices with
  | [] => Some []
  | _ =>
      masked_loop (len m) (merge_sort key_le (imap pair indices)) (iter_runs m)
        (replicate (length indices) false)
  end.

(** The loop of [is_range_all_value]. *)
Fixpoint all_value_loop (end_ : nat) (expected : bool) (pos_covered : nat) (runs : list run) : bool :=
  match runs with
  | [] => bool_decide (end_ ≤ pos_covered)
  | (run_value, run_start, run_end) :: runs =>
      let intersect_start := run_start `max` pos_covered in
      let intersect_end := run_end `min` end_ in
      if decide (intersect_start < intersect_end) then
        if negb (eqb run_value expected) then false
        else if decide (end_ ≤ intersect_end) then true
        else if decide (end_ ≤ run_end) then bool_decide (end_ ≤ intersect_end)
        else all_value_loop end_ expected intersect_end runs
      else if decide (end_ ≤ run_end) then bool_decide (end_ ≤ pos_covered)
      else all_value_loop end_ expected pos_covered runs
  end.

Definition is_range_all_value (m : RunMask) (start end_ : nat) (expected : bool) : bool :=
  if decide (end_ ≤ start) then true
  else if decide (len m < end_) then false
  else all_value_loop end_ expected start (iter_runs m).

(** ** Growing and cutting *)

(** [*buffer.last_mut().unwrap() += n], of a buffer that is not empty. *)
Fixpoint bump_last (buffer : list nat) (n : nat) : list nat :=
  match buffer with
  | [] => []
  | [x] => [wrap32 (x + n)]
  | x :: buffer => x :: bump_last buffer n
  end.

(** [(buffer.len() - 1) % 2 != 0]. *)
Definition last_run_is_true (buffer : list nat) : bool := Nat.odd (length buffer - 1).

Definition append (m : RunMask) (flag : bool) : RunMask :=
  mkMask
    (if decide (buffer m = []) then (if flag then [0; 1] else [1])
     else if eqb (last_run_is_true (buffer m)) flag then bump_last (buffer m) 1
     else buffer m ++ [1])
    (total_size m + 1).

Definition first_run_is_true (buffer : list nat) : bool :=
  bool_decide (head buffer = Some 0) && bool_decide (1 < length buffer).

Definition extend (m other : RunMask) : option RunMask :=
  if is_empty other then Some m
  else if is_empty m then Some other
  else if decide (buffer m = []) then None
  else
    let other_first := first_run_is_true (buffer other) in
    let total := total_size m + total_size other in
    if eqb (last_run_is_true (buffer m)) other_first then
      match buffer other !! (if other_first then 1 else 0) with
      | Some first_len =>
          Some (mkMask (bump_last (buffer m) first_len ++ drop (if other_first then 2 else 1) (buffer other))
                  total)
      | None => None
      end
    else if other_first then Some (mkMask (buffer m ++ drop 1 (buffer other)) total)
    else Some (mkMask (buffer m ++ buffer other) total).

(** What [slice] pushes for a run. *)
Definition slice_push (new_buffer : list nat) (val : bool) (n : nat) : list nat :=
  if decide (new_buffer = []) then (if val then [0] else []) ++ [n]
  else if eqb (last_run_is_true new_buffer) val then bump_last new_buffer n
  else new_buffer ++ [n].

Definition slice_run (start end_ : nat) (new_buffer : list nat) (r : run) : list nat :=
  let '(val, r_start, r_end) := r in
  let slice_r_start := r_start `max` start in
  let slice_r_end := r_end `min` end_ in
  if decide (slice_r_start < slice_r_end) then
    slice_push new_buffer val (wrap32 (slice_r_end - slice_r_start))
  else new_buffer.

Definition slice (m : RunMask) (start end_ : nat) : RunMask :=
  let end_ := end_ `min` len m in
  if decide (end_ ≤ start) then new 0
  else mkMask (foldl (slice_run start end_) [] (iter_runs m)) (end_ - start).

Definition remove_range (m : RunMask) (start end_ : nat) : option RunMask :=
  let end_ := end_ `min` len m in
  if decide (end_ ≤ start) then Some m
  else extend (slice m 0 start) (slice m end_ (len m)).

Definition remove (m : RunMask) (index : nat) : option RunMask :=
  if decide (index < len m) then remove_range m index (index + 1) else Some m.

(** ** Masking *)

(** A [BTreeSet] of positions, as the sorted list it iterates. *)
Fixpoint set_insert (x : nat) (l : list nat) : list nat :=
  match l with
  | [] => [x]
  | y :: l' => if decide (x < y) then x :: l
               else if decide (x = y) then l else y :: set_insert x l'
  end.

Definition range_events (total : nat) (events : list nat) (r : nat * nat) : list nat :=
  let clamped_start := r.1 `min` total in
  let clamped_end := r.2 `min` total in
  if decide (clamped_start < clamped_end) then
    set_insert clamped_end (set_insert clamped_start events)
  else events.

Definition run_events (events : list nat) (r : run) : list nat :=
  set_insert r.2 (set_insert r.1.2 events).

Definition event_points (m : RunMask) (ranges : list (nat * nat)) : list nat :=
  foldl run_events
    (foldl (range_events (len m)) (set_insert (len m) (set_insert 0 [])) ranges) (iter_runs m).

(** The ranges left once those that end at or before [mid_point] are passed. *)
Fixpoint skip_ranges (mid_point : nat) (ranges : list (nat * nat)) : list (nat * nat) :=
  match ranges with
  | (r_start, r_end) :: ranges' =>
      if decide (r_end ≤ mid_point) then skip_ranges mid_point ranges' else ranges
  | [] => []
  end.

Fixpoint skip_runs (mid_point : nat) (runs : list run) : list run :=
  match runs with
  | r :: runs' => if decide (r.2 ≤ mid_point) then skip_runs mid_point runs' else runs
  | [] => []
  end.

Definition mask_push (new_buffer : list nat) (value : bool) (n : nat) : list nat :=
  let should_merge := match last new_buffer with
                      | Some _ => eqb (last_run_is_true new_buffer) value
                      | None => false
                      end in
  if should_merge then bump_last new_buffer n
  else (if bool_decide (new_buffer = []) && value then new_buffer ++ [0] else new_buffer) ++ [n].

Fixpoint mask_loop (flag : bool) (windows : list (nat * nat)) (ranges : list (nat * nat))
    (runs : list run) (new_buffer : list nat) : option (list nat) :=
  match windows with
  | [] => Some new_buffer
  | (start, end_) :: windows =>
      if decide (end_ ≤ start) then mask_loop flag windows ranges runs new_buffer
      else
        let mid_point := start + (end_ - start) / 2 in
        let ranges := skip_ranges mid_point ranges in
        let n := wrap32 (end_ - start) in
        let is_masked := match ranges with
                         | (r_start, r_end) :: _ =>
                             bool_decide (r_start ≤ mid_point ∧ mid_point < r_end)
                         | [] => false
                         end in
        if is_masked then mask_loop flag windows ranges runs (mask_push new_buffer flag n)
        else
          match skip_runs mid_point runs with
          | [] => None
          | r :: runs' =>
              mask_loop flag windows ranges (r :: runs') (mask_push new_buffer r.1.1 n)
          end
  end.

Definition mask_internal (m : RunMask) (ranges : list (nat * nat)) (flag : bool) : option RunMask :=
  if decide (ranges = [] ∨ total_size m = 0) then Some m
  else
    let points := event_points m ranges in
    match mask_loop flag (zip points (tail points)) ranges (iter_runs m) [] with
    | Some new_buffer => Some (mkMask new_buffer (total_size m))
    | None => None
    end.

Definition mask_range (m : RunMask) (start end_ : nat) (flag : bool) : option RunMask :=
  if decide (end_ ≤ start) then Some m else mask_internal m [(start, end_)] flag.

(** [Vec::dedup]. *)
Fixpoint dedup (l : list nat) : list nat :=
  match l with
  | x :: l' =>
      match l' with
      | y :: _ => if decide (x = y) then dedup l' else x :: dedup l'
      | [] => [x]
      end
  | [] => []
  end.

(** [index + 1] of a [usize]: past the largest it overflows, a panic where overflow is checked. *)
Definition index_after (index : nat) : option nat :=
  if decide (N.of_nat index < u64_max)%N then Some (index + 1) else None.

(** Runs of consecutive indices, from [range_start..range_end] on. *)
Fixpoint index_ranges (range_start range_end : nat) (indices : list nat) : option (list (nat * nat)) :=
  match indices with
  | [] => Some [(range_start, range_end)]
  | index :: indices =>
      next ← index_after index;
      if decide (index = range_end) then index_ranges range_start next indices
      else
        ranges ← index_ranges index next indices;
        Some ((range_start, range_end) :: ranges)
  end.

Definition mask (m : RunMask) (indices : list nat) (flag : bool) : option RunMask :=
  match dedup (merge_sort le indices) with
  | [] => Some m
  | first :: rest =>
      next ← index_after first;
      ranges ← index_ranges first next rest;
      mask_internal m ranges flag
  end.

(** ** Pages and skipped rows *)

Definition max64 : N := (2 ^ 64 - 1)%N.

(** [(1 << n).wrapping_sub(1)], of [n] below 64. *)
Definition low_bits (n : nat) : N := (N.shiftl 1 (N.of_nat n) - 1)%N.
(** [!x] on a [u64]. *)
Definition not64 (x : N) : N := N.lxor x max64.

Definition or_word (out : list N) (i : nat) (x : N) : option (list N) :=
  match out !! i with Some w => Some (<[i := N.lor w x]> out) | None => None end.

Definition set_bits (out : list N) (lo hi : nat) : option (list N) :=
  if decide (hi ≤ lo) then Some out
  else
    let word_lo := lo / 64 in
    let bit_lo := lo mod 64 in
    let word_hi := hi / 64 in
    let bit_hi := hi mod 64 in
    if decide (word_lo = word_hi) then
      or_word out word_lo (N.land (low_bits bit_hi) (not64 (low_bits bit_lo)))
    else
      match or_word out word_lo (not64 (low_bits bit_lo)) with
      | Some out =>
          if decide (word_hi ≤ length out) then
            let out := take (word_lo + 1) out ++
              replicate (word_hi - (word_lo + 1)) max64 ++ drop word_hi out in
            if decide (0 < bit_hi) then or_word out word_hi (low_bits bit_hi) else Some out
          else None
      | None => None
      end.

Definition div_ceil (a b : nat) : nat := (a + b - 1) / b.

Definition set_page_bits_in_range (s e page_size num_pages : nat) (out : list N) : option (list N) :=
  if decide (e ≤ s) then Some out
  else
    let p_lo := div_ceil s page_size in
    let p_hi := (e / page_size) `min` num_pages in
    if decide (p_lo < p_hi) then set_bits out p_lo p_hi else Some out.

Fixpoint page_bits_loop (page_size num_pages : nat) (runs : list run) (covered : nat)
    (out : list N) : option (nat * list N) :=
  match runs with
  | [] => Some (covered, out)
  | (value, start, end_) :: runs =>
      match
        if (value : bool) then Some out
        else set_page_bits_in_range (wrap32 start) (wrap32 end_) page_size num_pages out
      with
      | Some out => page_bits_loop page_size num_pages runs (wrap32 end_) out
      | None => None
      end
  end.

Definition droppable_page_bits (m : RunMask) (page_size num_pages total_seq_len : nat)
    (out : list N) : option (list N) :=
  if decide (num_pages = 0 ∨ page_size = 0) then Some out
  else
    match page_bits_loop page_size num_pages (iter_runs m) 0 out with
    | Some (covered, out) =>
        if decide (covered < total_seq_len) then
          set_page_bits_in_range covered total_seq_len page_size num_pages out
        else Some out
    | None => None
    end.

(** The [while] of [write_skipping]: what of [s..e] is skipped, and the ranges
    that may still overlap later runs. *)
Fixpoint skip_loop (s e : nat) (skip : list (nat * nat)) (skipped : nat) : nat * list (nat * nat) :=
  match skip with
  | [] => (skipped, [])
  | (rs, re) :: skip' =>
      if decide (e ≤ rs) then (skipped, skip)
      else
        let overlap_s := rs `max` s in
        let overlap_e := re `min` e in
        let skipped := if decide (overlap_s < overlap_e) then wrap32 (skipped + (overlap_e - overlap_s))
                       else skipped in
        if decide (re ≤ e) then skip_loop s e skip' skipped else (skipped, skip)
  end.

Record SkipState : Type := mkSkip {
  sk_out : list nat;
  sk_last : option bool;
  sk_total : nat;
  sk_ranges : list (nat * nat);
}.

(** One run; [None] is the debug assertion, or a length below zero. *)
Definition skip_run (st : SkipState) (r : run) : option SkipState :=
  let '(value, start, end_) := r in
  let s := wrap32 start in
  let e := wrap32 end_ in
  let '(skipped, ranges) := skip_loop s e (sk_ranges st) 0 in
  let raw_len := e - s in
  if decide (e < s ∨ raw_len < skipped) then None
  else
    let eff_len := raw_len - skipped in
    if decide (eff_len = 0) then Some (mkSkip (sk_out st) (sk_last st) (sk_total st) ranges)
    else
      let new_total := wrap32 (sk_total st + eff_len) in
      Some (mkSkip
        (match sk_last st with
         | None => (if (value : bool) then sk_out st ++ [0] else sk_out st) ++ [eff_len]
         | Some lv => if eqb lv value then bump_last (sk_out st) eff_len else sk_out st ++ [eff_len]
         end)
        (Some value) new_total ranges).

Fixpoint skip_runs_loop (runs : list run) (st : SkipState) : option SkipState :=
  match runs with
  | [] => Some st
  | r :: runs =>
      match skip_run st r with Some st => skip_runs_loop runs st | None => None end
  end.

(** The number of rows written, and the buffer they are written to. *)
Definition write_skipping (m : RunMask) (skip : list (nat * nat)) (out : list nat) :
    option (nat * list nat) :=
  match skip_runs_loop (iter_runs m) (mkSkip out None 0 skip) with
  | Some st => Some (sk_total st, sk_out st)
  | None => None
  end.

(** ** Bit sets *)

Definition bitmask_size (vocab_size : nat) : nat := div_ceil vocab_size 32.

Definition set_bit (bitmask : list N) (i : nat) : option (list N) :=
  or_word bitmask (i / 32) (N.shiftl 1 (N.of_nat (i mod 32))).

Definition clear_bit (bitmask : list N) (i : nat) : option (list N) :=
  match bitmask !! (i / 32) with
  | Some w => Some (<[i / 32 := N.land w (N.lxor (N.shiftl 1 (N.of_nat (i mod 32))) (2 ^ 32 - 1))]> bitmask)
  | None => None
  end.

Definition get_bit (bitmask : list N) (i : nat) : option bool :=
  match bitmask !! (i / 32) with
  | Some w => Some (N.land (N.shiftr w (N.of_nat (i mod 32))) 1 =? 1)%N
  | None => None
  end.

Definition clear_bitmask (bitmask : list N) : list N := (λ _, 0%N) <$> bitmask.

(** ** From a bit set to runs *)

(** [trailing_zeros], of a word that is not zero. *)
Fixpoint trailing_zeros_pos (p : positive) : nat :=
  match p with xO p => S (trailing_zeros_pos p) | _ => 0 end.
Definition trailing_zeros (x : N) : nat :=
  match x with N0 => 0 | Npos p => trailing_zeros_pos p end.

(** What the loops of [fill_from_bitmask] carry: the runs so far, where the last
    one began, and the bit before the next word. *)
Record FillState : Type := mkFill { fl_buffer : list nat; fl_prev_pos : nat; fl_prev_msb : N }.

(** [while tr != 0]: a run ends at each bit set. A word has at most 64. *)
Fixpoint emit (f : nat) (base : nat) (tr : N) (buffer : list nat) (prev_pos : nat) : list nat * nat :=
  match f with
  | O => (buffer, prev_pos)
  | S f =>
      if decide (tr = 0%N) then (buffer, prev_pos)
      else
        let global := base + trailing_zeros tr in
        emit f base (N.land tr (tr - 1)) (buffer ++ [global - prev_pos]) global
  end.

Definition fuse (lo hi : N) : N := N.lor lo (N.shiftl hi 32).

(** The two words at [i] as one of 64 bits. *)
Definition pair_at (words : list N) (i : nat) : N :=
  fuse (nth i words 0%N) (nth (i + 1) words 0%N).

(** A word of 64 bits that starts at position [base]. *)
Definition wide_step (base : nat) (w64 : N) (st : FillState) : FillState :=
  let shifted := N.lor (as_u64 (N.shiftl w64 1)) (fl_prev_msb st) in
  let tr := N.lxor w64 shifted in
  let prev_msb := N.shiftr w64 63 in
  if decide (tr = 0%N) then mkFill (fl_buffer st) (fl_prev_pos st) prev_msb
  else
    let '(buffer, prev_pos) := emit 64 base tr (fl_buffer st) (fl_prev_pos st) in
    mkFill buffer prev_pos prev_msb.

(** Sixteen words at a time, all clear or all set batches in one look. *)
Definition batch_step (words : list N) (st : FillState) (batch_nr : nat) : FillState :=
  let batch := (λ k, pair_at words (batch_nr * 16 + 2 * k)) <$> seq 0 8 in
  let or_all := foldr N.lor 0%N batch in
  let and_all := foldr N.land max64 batch in
  if decide (or_all = 0%N ∧ fl_prev_msb st = 0%N) then st
  else if decide (or_all = max64 ∧ and_all = max64 ∧ fl_prev_msb st = 1%N) then
    mkFill (fl_buffer st) (fl_prev_pos st) 1
  else foldl (λ st k, wide_step (batch_nr * 512 + k * 64) (nth k batch 0%N) st) st (seq 0 8).

(** A word of 32 bits, the last one cut to the bits there are. *)
Definition word_step (words : list N) (total_size num_words : nat) (st : FillState) (i : nat) :
    FillState :=
  let is_last := bool_decide (i = num_words - 1) in
  let bits_in_word := if is_last && negb (bool_decide (total_size mod 32 = 0))
                      then total_size mod 32 else 32 in
  let w := if decide (bits_in_word < 32) then N.land (nth i words 0%N) (low_bits bits_in_word)
           else nth i words 0%N in
  let shifted := N.lor (as_u32 (N.shiftl w 1)) (fl_prev_msb st) in
  let transitions := N.lxor w shifted in
  let transitions := if decide (bits_in_word < 32) then N.land transitions (low_bits bits_in_word)
                     else transitions in
  let '(buffer, prev_pos) := emit 32 (i * 32) transitions (fl_buffer st) (fl_prev_pos st) in
  mkFill buffer prev_pos (N.shiftr w 31).

(** [fill_from_bitmask]; [None] is a bit set shorter than the size asked for. *)
Definition from_bitmask (bitmask : list N) (total_size : nat) : option RunMask :=
  if decide (total_size = 0) then Some (mkMask [] 0)
  else
    let num_words := div_ceil total_size 32 in
    if decide (length bitmask < num_words) then None
    else
      let words := take num_words bitmask in
      let full_u32s := total_size / 32 in
      let batch_u32s := full_u32s / 16 * 16 in
      let st := foldl (batch_step words) (mkFill [] 0 0) (seq 0 (batch_u32s / 16)) in
      let remaining := full_u32s - batch_u32s in
      let st := foldl (λ st p, wide_step (batch_u32s * 32 + p * 64) (pair_at words (batch_u32s + 2 * p)) st)
                  st (seq 0 (remaining / 2)) in
      let u32_processed := batch_u32s + remaining / 2 * 2 in
      let st := foldl (word_step words total_size num_words) st
                  (seq u32_processed (num_words - u32_processed)) in
      let final_run := wrap32 total_size - fl_prev_pos st in
      Some (mkMask
        (if decide (0 < final_run ∨ fl_buffer st = []) then fl_buffer st ++ [final_run]
         else fl_buffer st) total_size).
End RunMask.
