(* ===== verification/RunMaskSpec.v ===== *)
(** What a token mask means: the list of its bits. Every operation on run
    lengths is the matching operation on that list, and masks with the same bits
    are the same mask. *)
From S2P Require Import Prelude RunMask.
From stdpp Require Import sorting.

Module RunMaskSpec.
Import RunMask.

(** ** Run lengths *)

(** The bits of run lengths that start with [v]. *)
Fixpoint decode (v : bool) (l : list nat) : list bool :=
  match l with
  | [] => []
  | n :: l => replicate n v ++ decode (negb v) l
  end.

Lemma length_decode v l : length (decode v l) = sum_list l.
Proof.
  revert v. induction l as [|n l IH]; intros v; [done|]. simpl.
  by rewrite length_app, length_replicate, IH.
Qed.

Definition flips (v : bool) (n : nat) : bool := xorb v (Nat.odd n).

Lemma flips_S v n : flips v (S n) = flips (negb v) n.
Proof. unfold flips. rewrite Nat.odd_succ, <-Nat.negb_odd. by destruct v, (Nat.odd n). Qed.

Lemma flips_false n : flips false n = Nat.odd n.
Proof. done. Qed.

Lemma decode_app v l1 l2 : decode v (l1 ++ l2) = decode v l1 ++ decode (flips v (length l1)) l2.
Proof.
  revert v. induction l1 as [|n l1 IH]; intros v; simpl; [by destruct v|].
  by rewrite IH, <-app_assoc, flips_S.
Qed.

(** A length that fits a [u32]. *)
Definition small (n : nat) : Prop := (N.of_nat n < 2 ^ 32)%N.

Lemma small_le n n' : n' ≤ n → small n → small n'.
Proof. unfold small. lia. Qed.

Lemma wrap32_small n : small n → wrap32 n = n.
Proof. intros Hn. unfold wrap32. rewrite as_u32_small by done. lia. Qed.

(** No run is empty but perhaps the first, and then another follows. *)
Definition canonical (l : list nat) : Prop :=
  l = [] ∨ (Forall (λ n, 0 < n) (tail l) ∧ 0 < sum_list l).

(** A buffer of run lengths for [v]. *)
Record encodes (l : list nat) (v : list bool) : Prop := {
  en_bits : decode false l = v;
  en_canonical : canonical l;
  en_small : small (length v);
}.

Lemma encodes_sum l v : encodes l v → sum_list l = length v.
Proof. intros [<- _ _]. by rewrite length_decode. Qed.

Lemma encodes_nil : encodes [] [].
Proof. split; [done|by left|done]. Qed.

Lemma encodes_empty l : encodes l [] → l = [].
Proof.
  intros Hl. destruct (en_canonical _ _ Hl) as [|[_ Hp]]; [done|].
  rewrite (encodes_sum _ _ Hl) in Hp. simpl in Hp. lia.
Qed.

Lemma bump_last_snoc l x n : bump_last (l ++ [x]) n = l ++ [wrap32 (x + n)].
Proof.
  induction l as [|y l IH]; [done|]. simpl. rewrite IH. by destruct l.
Qed.

Lemma last_run_snoc (l : list nat) x : last_run_is_true (l ++ [x]) = Nat.odd (length l).
Proof. unfold last_run_is_true. rewrite length_app. simpl. f_equal. lia. Qed.

(** One more run at the end, merged with the last when their values agree. *)
Definition push_run (l : list nat) (val : bool) (n : nat) : list nat :=
  if decide (l = []) then (if val then [0] else []) ++ [n]
  else if eqb (last_run_is_true l) val then bump_last l n
  else l ++ [n].

Lemma mask_push_run l val n : mask_push l val n = push_run l val n.
Proof.
  unfold mask_push, push_run. destruct (last l) eqn:Hl.
  - rewrite decide_False by (by intros ->). by rewrite bool_decide_eq_false_2 by (by intros ->).
  - apply last_None in Hl as ->. rewrite decide_True by done. by destruct val.
Qed.

Lemma canonical_snoc l x : canonical l → 0 < x → l ≠ [] → canonical (l ++ [x]).
Proof.
  intros [->|[Hf Hs]] Hx Hl; [done|]. right. destruct l as [|y l]; [done|]. simpl in *.
  rewrite Forall_app, sum_list_app. split; [split; [done|by constructor]|simpl; lia].
Qed.

Lemma push_run_encodes l v val n :
  encodes l v → 0 < n → small (length v + n) → encodes (push_run l val n) (v ++ replicate n val).
Proof.
  intros Hl Hn Hs. assert (small (length (v ++ replicate n val))) as Hs'
    by by rewrite length_app, length_replicate.
  pose proof (encodes_sum _ _ Hl) as Hsum. destruct Hl as [Hd Hc _]. unfold push_run.
  destruct (decide (l = [])) as [->|Hne].
  { simpl in Hd. subst v. split; [| |done].
    - destruct val; simpl; by rewrite app_nil_r.
    - right. destruct val; simpl; (split; [|lia]); repeat constructor; done. }
  destruct (exists_last Hne) as (l' & x & ->).
  rewrite last_run_snoc. rewrite decode_app in Hd. simpl in Hd. rewrite app_nil_r in Hd.
  rewrite ?flips_false in Hd.
  destruct (eqb (Nat.odd (length l')) val) eqn:Heq.
  - apply eqb_prop in Heq as <-. rewrite bump_last_snoc.
    rewrite sum_list_app in Hsum. simpl in Hsum. rewrite Nat.add_0_r in Hsum.
    assert (small (x + n)) as Hxn by (eapply small_le; [|exact Hs]; lia).
    rewrite wrap32_small by done. split; [| |done].
    + rewrite decode_app. simpl. rewrite app_nil_r. rewrite ?flips_false.
      rewrite <-Hd, <-app_assoc. f_equal. apply replicate_add.
    + right. destruct Hc as [Hc|[Hf Hp]]; [by destruct l'|].
      rewrite sum_list_app in *. simpl in *. split; [|lia].
      destruct l' as [|y l']; [constructor|]. simpl in *. rewrite Forall_app in *.
      destruct Hf as [Hf1 Hf2]. split; [done|]. apply Forall_singleton in Hf2.
      constructor; [lia|constructor].
  - split; [| |done].
    + rewrite decode_app, length_app. simpl. rewrite app_nil_r. rewrite <-Hd, decode_app. simpl.
      rewrite app_nil_r. rewrite ?flips_false. f_equal. f_equal.
      rewrite Nat.add_1_r, Nat.odd_succ, <-Nat.negb_odd. by destruct val, (Nat.odd (length l')).
    + by apply canonical_snoc.
Qed.

Lemma push_run_ne l val n : push_run l val n ≠ [].
Proof.
  unfold push_run. case_decide; [by destruct val|]. destruct (eqb _ _); [|by destruct l].
  destruct (exists_last H) as (l' & x & ->). rewrite bump_last_snoc. by destruct l'.
Qed.

Lemma push_run_last l val n : last_run_is_true (push_run l val n) = val.
Proof.
  unfold push_run. case_decide as Hne; [by destruct val|].
  destruct (exists_last Hne) as (l' & x & ->). rewrite last_run_snoc.
  destruct (eqb (Nat.odd (length l')) val) eqn:Heq.
  - apply eqb_prop in Heq. by rewrite bump_last_snoc, last_run_snoc.
  - rewrite last_run_snoc, length_app, Nat.add_1_r, Nat.odd_succ, <-Nat.negb_odd.
    by destruct val, (Nat.odd (length l')).
Qed.

(** Equal bits, equal run lengths. *)
Lemma canonical_tail v l l' :
  Forall (λ n, 0 < n) l → Forall (λ n, 0 < n) l' → decode v l = decode v l' → l = l'.
Proof.
  revert v l'. induction l as [|n l IH]; intros v [|n' l'] Hl Hl' Heq; simpl in Heq.
  - done.
  - apply Forall_cons in Hl' as [Hn' _]. destruct n'; [lia|done].
  - apply Forall_cons in Hl as [Hn _]. destruct n; [lia|done].
  - apply Forall_cons in Hl as [Hn Hl]. apply Forall_cons in Hl' as [Hn' Hl'].
    assert (n = n') as ->.
    { destruct (Nat.lt_trichotomy n n') as [Hlt|[|Hlt]]; [|done|]; exfalso.
      - assert (decode v (n :: l) !! n = decode v (n' :: l') !! n) as Hx by (simpl; by rewrite Heq).
        simpl in Hx. rewrite lookup_app_r in Hx by (by rewrite length_replicate).
        rewrite (lookup_app_l (replicate n' v)) in Hx by (by rewrite length_replicate).
        rewrite length_replicate, Nat.sub_diag, lookup_replicate_2 in Hx by done.
        destruct l as [|k l]; [done|]. simpl in Hx. apply Forall_cons in Hl as [Hk _].
        destruct k; [lia|]. simpl in Hx. by destruct v.
      - assert (decode v (n :: l) !! n' = decode v (n' :: l') !! n') as Hx by (simpl; by rewrite Heq).
        simpl in Hx. rewrite (lookup_app_r (replicate n' v)) in Hx by (by rewrite length_replicate).
        rewrite lookup_app_l in Hx by (by rewrite length_replicate).
        rewrite length_replicate, Nat.sub_diag, lookup_replicate_2 in Hx by done.
        destruct l' as [|k l']; [done|]. simpl in Hx. apply Forall_cons in Hl' as [Hk _].
        destruct k; [lia|]. simpl in Hx. by destruct v. }
    apply app_inv_head in Heq. f_equal. by eapply IH.
Qed.

Lemma encodes_fun l l' v : encodes l v → encodes l' v → l = l'.
Proof.
  intros Hl Hl'. destruct (decide (v = [])) as [->|Hv].
  { by rewrite (encodes_empty _ Hl), (encodes_empty _ Hl'). }
  pose proof (encodes_sum _ _ Hl) as Hsl. pose proof (encodes_sum _ _ Hl') as Hsl'.
  destruct Hl as [Hd [->|[Hf Hs]] _]; [by subst|]. destruct Hl' as [Hd' [->|[Hf' Hs']] _]; [by subst|].
  destruct l as [|n l]; [done|]. destruct l' as [|n' l']; [done|]. simpl in *.
  assert (Hz : ∀ k r r', Forall (λ n, 0 < n) r → Forall (λ n, 0 < n) r' →
    replicate (S k) false ++ decode true r = decode true r' → False).
  { intros k r r' _ Hr' Heq. destruct r' as [|x r']; [done|]. apply Forall_cons in Hr' as [Hx _].
    by destruct x; [lia|]. }
  destruct n as [|n], n' as [|n'].
  - simpl in *. f_equal. eapply (canonical_tail true); [done..|congruence].
  - exfalso. eapply (Hz n' l' l); [done..|]. simpl in *. congruence.
  - exfalso. eapply (Hz n l l'); [done..|]. simpl in *. congruence.
  - eapply (canonical_tail false); [by constructor; [lia|]..|]. simpl in *. congruence.
Qed.

(** ** Runs *)

(** Runs that tile the bits [l] from position [p] on. *)
Inductive tiles : nat → list run → list bool → Prop :=
  | tiles_nil p : tiles p [] []
  | tiles_cons p v n rs l :
      0 < n → tiles (p + n) rs l → tiles p ((v, p, p + n) :: rs) (replicate n v ++ l).

Lemma runs_from_tiles index p l : tiles p (runs_from index p l) (decode (Nat.odd index) l).
Proof.
  revert index p. induction l as [|n l IH]; intros index p; [constructor|].
  cbn [runs_from decode].
  assert (negb (Nat.odd index) = Nat.odd (S index)) as -> by by rewrite Nat.odd_succ, Nat.negb_odd.
  case_decide as Hn; [by constructor|]. assert (n = 0) as -> by lia. rewrite Nat.add_0_r. apply IH.
Qed.

(** A mask and its bits. *)
Record rep (m : RunMask) (v : list bool) : Prop := {
  rp_encodes : encodes (buffer m) v;
  rp_len : total_size m = length v;
}.

Lemma rep_tiles m v : rep m v → tiles 0 (iter_runs m) v.
Proof. intros [[<- _ _] _]. apply (runs_from_tiles 0). Qed.

Lemma tiles_length p rs l : tiles p rs l → ∀ r, r ∈ rs → p ≤ r.1.2 ∧ r.1.2 < r.2 ≤ p + length l.
Proof.
  induction 1 as [|p v n rs l Hn Ht IH]; intros r; [by intros ?%not_elem_of_nil|].
  rewrite length_app, length_replicate. intros [->|Hr]%elem_of_cons; [simpl; lia|].
  specialize (IH r Hr). lia.
Qed.

Lemma tiles_bits p rs l :
  tiles p rs l → concat ((λ r : run, replicate (r.2 - r.1.2) r.1.1) <$> rs) = l.
Proof.
  induction 1 as [|p v n rs l Hn Ht IH]; [done|]. csimpl. rewrite IH.
  by replace (p + n - p) with n by lia.
Qed.

Lemma to_vec_rep m v : rep m v → to_vec m = v.
Proof. intros Hm. eapply tiles_bits. by apply rep_tiles. Qed.

Lemma rep_fun m m' v : rep m v → rep m' v → m = m'.
Proof.
  intros [H1 L1] [H2 L2]. destruct m as [b t], m' as [b' t']; simpl in *.
  rewrite (encodes_fun _ _ _ H1 H2). congruence.
Qed.

(** ** Making masks *)

Lemma new_rep size : small size → rep (new size) (replicate size false).
Proof.
  intros Hs. unfold new. destruct (decide (size = 0)) as [->|Hz]; [split; [apply encodes_nil|done]|].
  rewrite wrap32_small by done. split; [|simpl; by rewrite length_replicate].
  split; [apply app_nil_r|right; simpl; split; [done|lia]|by rewrite length_replicate].
Qed.

Lemma all_true_rep size : small size → rep (all_true size) (replicate size true).
Proof.
  intros Hs. unfold all_true. destruct (decide (size = 0)) as [->|Hz]; [split; [apply encodes_nil|done]|].
  rewrite wrap32_small by done. split; [|simpl; by rewrite length_replicate].
  split; [apply app_nil_r|right; simpl; split; [repeat constructor; lia|lia]|by rewrite length_replicate].
Qed.

(** The state of [from_slice] once the bits [w] are read. *)
Record slicing (st : list nat * bool * nat) (w : list bool) : Prop := {
  sg_bits : decode false (st.1.1 ++ [st.2]) = w;
  sg_last : Nat.odd (length st.1.1) = st.1.2;
  sg_pos : Forall (λ n, 0 < n) (tail (st.1.1 ++ [st.2]));
  sg_count : 0 < st.2;
}.

Lemma slice_step_spec st w val :
  slicing st w → small (length w + 1) → slicing (slice_step st val) (w ++ [val]).
Proof.
  destruct st as [[b cur] n]. intros [Hd Hl Hp Hn] Hs; simpl in *. subst cur.
  rewrite decode_app in Hd. simpl in Hd. rewrite app_nil_r, ?flips_false in Hd.
  assert (small (n + 1)) as Hs'.
  { eapply small_le; [|exact Hs]. rewrite <-Hd, length_app, length_replicate. lia. }
  destruct (eqb val (Nat.odd (length b))) eqn:Heq.
  - apply eqb_prop in Heq as ->. rewrite wrap32_small by done. split; simpl; [|done| |lia].
    + rewrite decode_app. simpl. by rewrite app_nil_r, ?flips_false, <-Hd, <-app_assoc, replicate_add.
    + destruct b; [done|]. simpl in *. rewrite Forall_app in *. destruct Hp as [Hp _].
      split; [done|]. constructor; [lia|done].
  - assert (val = negb (Nat.odd (length b))) as -> by (by destruct val, (Nat.odd (length b))).
    split; simpl.
    + rewrite decode_app. simpl. rewrite ?flips_false, length_app, Nat.add_1_r, Nat.odd_succ, <-Nat.negb_odd.
      f_equal. rewrite decode_app. simpl. by rewrite app_nil_r, ?flips_false.
    + by rewrite length_app, Nat.add_1_r, Nat.odd_succ, <-Nat.negb_odd.
    + rewrite <-app_assoc. destruct b as [|x b]; simpl in *; [repeat constructor; lia|].
      rewrite Forall_app in *. destruct Hp as [Hp1 Hp2]. split; [done|]. repeat constructor; lia.
    + lia.
Qed.

Lemma slice_steps_spec v : ∀ st w,
  slicing st w → small (length w + length v) → slicing (foldl slice_step st v) (w ++ v).
Proof.
  induction v as [|b v IH]; intros st w Hst Hs; [by rewrite app_nil_r|]. simpl in *.
  rewrite cons_middle, app_assoc. apply IH.
  - apply slice_step_spec; [done|]. eapply small_le; [|done]. lia.
  - rewrite length_app. eapply small_le; [|done]. simpl. lia.
Qed.

Lemma from_slice_rep v : small (length v) → rep (from_slice v) v.
Proof.
  intros Hs. destruct v as [|b v]; [split; [apply encodes_nil|done]|]. unfold from_slice.
  change (b :: v) with ([b] ++ v). rewrite foldl_app.
  assert (slicing (foldl slice_step (if b then ([0], true, 0) else ([], false, 0)) [b]) [b]) as H1.
  { destruct b; cbn [foldl slice_step eqb]; change (wrap32 (0 + 1)) with 1;
      (split; simpl; [done|done|repeat constructor; lia|lia]). }
  pose proof (slice_steps_spec v _ _ H1 ltac:(exact Hs)) as [Hd _ Hp Hn].
  destruct (foldl slice_step _ v) as [[l cur] n]; simpl in *. split; [|done]. simpl.
  split; [done| |done]. right. split; [done|]. rewrite sum_list_app. simpl. lia.
Qed.

(** ** Growing and cutting *)

Lemma append_rep m v flag :
  rep m v → small (length v + 1) → rep (append m flag) (v ++ [flag]).
Proof.
  intros [He Hl] Hs. split; [|unfold append; simpl; by rewrite length_app, Hl].
  pose proof (push_run_encodes _ _ flag 1 He ltac:(lia) Hs) as Hp. unfold push_run in Hp.
  unfold append; simpl. by destruct flag.
Qed.

Lemma last_run_decode l : l ≠ [] →
  ∃ l' x, l = l' ++ [x] ∧ last_run_is_true l = Nat.odd (length l') ∧
    decode false l = decode false l' ++ replicate x (Nat.odd (length l')).
Proof.
  intros Hne. destruct (exists_last Hne) as (l' & x & ->). exists l', x.
  split_and!; [done|apply last_run_snoc|]. rewrite decode_app. simpl. by rewrite app_nil_r.
Qed.

Lemma first_run_decode l w : encodes l w → w ≠ [] →
  ∃ b n r, first_run_is_true l = b ∧ 0 < n ∧ Forall (λ n, 0 < n) r ∧
    l = (if b then [0] else []) ++ n :: r ∧ w = replicate n b ++ decode (negb b) r.
Proof.
  intros [<- Hc _] Hw. destruct Hc as [->|[Hf Hs]]; [done|]. destruct l as [|[|n] l]; [done|..].
  - destruct l as [|n l]; [simpl in Hs; lia|]. apply Forall_cons in Hf as [Hn Hf].
    by exists true, n, l.
  - exists false, (S n), l. split_and!; [by destruct l|lia|done|done|done].
Qed.

Lemma canonical_app l r : canonical l → l ≠ [] → Forall (λ n, 0 < n) r → canonical (l ++ r).
Proof.
  intros [->|[Hf Hs]] Hl Hr; [done|]. right. destruct l as [|x l]; [done|]. simpl in *.
  rewrite Forall_app, sum_list_app. split; [done|lia].
Qed.

Lemma extend_rep m o v w :
  rep m v → rep o w → small (length v + length w) →
  ∃ m', extend m o = Some m' ∧ rep m' (v ++ w).
Proof.
  intros [Hm Lm] [Ho Lo] Hs. unfold extend, is_empty. rewrite Lm, Lo.
  destruct (decide (w = [])) as [->|Hw].
  { exists m. rewrite app_nil_r. by split. }
  rewrite (bool_decide_eq_false_2 (length w = 0)) by (by destruct w).
  destruct (decide (v = [])) as [->|Hv]; [by exists o|].
  rewrite (bool_decide_eq_false_2 (length v = 0)) by (by destruct v).
  assert (buffer m ≠ []) as Hb by (intros Hz; apply Hv; rewrite <-(en_bits _ _ Hm), Hz; done).
  rewrite decide_False by done.
  assert (small (length (v ++ w))) as Hs' by by rewrite length_app.
  destruct (first_run_decode _ _ Ho Hw) as (b & n & r & -> & Hn & Hr & Hlo & Hdw).
  destruct (last_run_decode _ Hb) as (l' & x & Hlm & -> & Hdm).
  rewrite (en_bits _ _ Hm) in Hdm. rewrite Hlo.
  destruct (eqb (Nat.odd (length l')) b) eqn:Heq.
  - apply eqb_prop in Heq.
    assert (((if b then [0] else []) ++ n :: r) !! (if b then 1 else 0) = Some n) as -> by by destruct b.
    assert (drop (if b then 2 else 1) ((if b then [0] else []) ++ n :: r) = r) as -> by by destruct b.
    eexists. split; [done|]. split; [|simpl; by rewrite length_app].
    assert (encodes (bump_last (buffer m) n) (v ++ replicate n b)) as [Hd Hc _].
    { pose proof (push_run_encodes _ _ b n Hm Hn) as Hp. unfold push_run in Hp.
      rewrite decide_False in Hp by done. rewrite Hlm, last_run_snoc, Heq, eqb_reflx in Hp.
      rewrite Hlm. apply Hp. eapply small_le; [|exact Hs]. rewrite Hdw, length_app, length_replicate. lia. }
    split; [| |done].
    + cbn [buffer]. rewrite decode_app, Hd, Hdw, <-app_assoc. do 2 f_equal.
      rewrite Hlm, bump_last_snoc, length_app, Nat.add_1_r, ?flips_false, Nat.odd_succ, <-Nat.negb_odd.
      by rewrite Heq.
    + apply canonical_app; [done| |done]. rewrite Hlm, bump_last_snoc. by destruct l'.
  - assert (b = negb (Nat.odd (length l'))) as Hbl by (by destruct b, (Nat.odd (length l'))).
    assert (Hflip : flips false (length (buffer m)) = b).
    { by rewrite Hlm, length_app, Nat.add_1_r, ?flips_false, Nat.odd_succ, <-Nat.negb_odd. }
    assert (encodes (buffer m ++ n :: r) (v ++ w)) as He.
    { split; [| |done].
      - rewrite decode_app, (en_bits _ _ Hm), Hflip, Hdw. done.
      - apply canonical_app; [apply Hm|done|by constructor]. }
    destruct b; simpl; (eexists; split; [done|]); (split; [done|simpl; by rewrite length_app]).
Qed.

(** The bits from [s] up to [e] of bits that start at [p]. *)
Definition cut_bits (p s e : nat) (l : list bool) : list bool := drop (s - p) (take (e - p) l).

Lemma cut_bits_cons p s e v n l :
  cut_bits p s e (replicate n v ++ l) =
  replicate ((p + n) `min` e - p `max` s) v ++ cut_bits (p + n) s e l.
Proof.
  unfold cut_bits. rewrite take_app, length_replicate, drop_app.
  rewrite take_replicate, drop_replicate, length_replicate. f_equal.
  - f_equal. lia.
  - destruct (decide (e - p ≤ n)).
    + replace (e - p - n) with 0 by lia. replace (e - (p + n)) with 0 by lia.
      by rewrite !take_0, !drop_nil.
    + f_equal; [lia|f_equal; lia].
Qed.

Lemma slice_runs_encodes s e p rs l : ∀ buf w,
  tiles p rs l → encodes buf w → small (length w + length l) →
  encodes (foldl (slice_run s e) buf rs) (w ++ cut_bits p s e l).
Proof.
  intros buf w Ht. revert buf w. induction Ht as [p|p v n rs l Hn Ht IH]; intros buf w Hb Hs.
  { unfold cut_bits. by rewrite take_nil, drop_nil, app_nil_r. }
  rewrite length_app, length_replicate in Hs. rewrite cut_bits_cons, app_assoc. simpl.
  set (k := (p + n) `min` e - p `max` s).
  assert (k ≤ n) by lia. apply IH; [|rewrite length_app, length_replicate; eapply small_le; [|done]; lia].
  case_decide as Hk.
  - fold k. rewrite wrap32_small by (eapply small_le; [|done]; lia).
    apply push_run_encodes; [done|lia|]. eapply small_le; [|done]. lia.
  - assert (k = 0) as -> by lia. by rewrite app_nil_r.
Qed.

Lemma slice_rep m v s e : rep m v → rep (slice m s e) (drop s (take e v)).
Proof.
  intros Hm. pose proof (rp_len _ _ Hm) as Hl. pose proof (en_small _ _ (rp_encodes _ _ Hm)) as Hs.
  unfold slice, len. rewrite Hl. case_decide as Hc.
  { replace (drop s (take e v)) with ([] : list bool); [split; [apply encodes_nil|done]|].
    symmetry. apply nil_length_inv. rewrite length_drop, length_take. lia. }
  pose proof (slice_runs_encodes s (e `min` length v) 0 _ _ [] [] (rep_tiles _ _ Hm) encodes_nil ltac:(exact Hs)) as He.
  assert (cut_bits 0 s (e `min` length v) v = drop s (take e v)) as Hcut.
  { unfold cut_bits. rewrite !Nat.sub_0_r. f_equal. destruct (decide (e ≤ length v)).
    - by rewrite Nat.min_l.
    - by rewrite Nat.min_r, !take_ge by lia. }
  rewrite app_nil_l, Hcut in He. split; [done|]. simpl. rewrite length_drop, length_take. lia.
Qed.

Lemma remove_range_rep m v s e :
  rep m v → ∃ m', remove_range m s e = Some m' ∧ rep m' (if decide (s < e) then take s v ++ drop e v else v).
Proof.
  intros Hm. pose proof (rp_len _ _ Hm) as Hl. pose proof (en_small _ _ (rp_encodes _ _ Hm)) as Hs.
  unfold remove_range, len. rewrite Hl. destruct (decide (e `min` length v ≤ s)) as [Hc|Hc].
  { exists m. split; [done|]. case_decide; [|done]. rewrite (take_ge v), (drop_ge v) by lia.
    by rewrite app_nil_r. }
  rewrite decide_True by lia.
  destruct (extend_rep (slice m 0 s) (slice m (e `min` length v) (length v)) (drop 0 (take s v))
    (drop (e `min` length v) (take (length v) v))) as (m' & He & Hr); [by apply slice_rep..| |].
  { eapply small_le; [|exact Hs]. rewrite !length_drop, !length_take. lia. }
  exists m'. split; [done|]. rewrite (take_ge v (length v)) in Hr by lia. rewrite drop_0 in Hr.
  replace (drop e v) with (drop (e `min` length v) v); [done|].
  destruct (decide (e ≤ length v)); [by rewrite Nat.min_l|]. by rewrite Nat.min_r, !drop_ge by lia.
Qed.

Lemma remove_rep m v i :
  rep m v → ∃ m', remove m i = Some m' ∧ rep m' (delete i v).
Proof.
  intros Hm. unfold remove, len. rewrite (rp_len _ _ Hm). case_decide as Hi.
  - destruct (remove_range_rep m v i (i + 1) Hm) as (m' & H1 & H2). rewrite decide_True in H2 by lia.
    exists m'. split; [done|]. by rewrite delete_take_drop, <-Nat.add_1_r.
  - exists m. split; [done|]. rewrite delete_take_drop, take_ge, drop_ge by lia. by rewrite app_nil_r.
Qed.

(** ** Queries *)

Lemma all_value_spec s e x p rs l :
  tiles p rs l → s < e → p < e ≤ p + length l →
  all_value_loop e x (s `max` p) rs = bool_decide (Forall (λ b, b = x) (cut_bits p s e l)).
Proof.
  intros Ht Hse. induction Ht as [p|p v n rs l Hn Ht IH]; intros Hp; [simpl in Hp; lia|].
  rewrite length_app, length_replicate in Hp. rewrite cut_bits_cons. cbn [all_value_loop].
  assert (Hrest : e ≤ p + n → cut_bits (p + n) s e l = []).
  { intros He. unfold cut_bits. replace (e - (p + n)) with 0 by lia. by rewrite take_0, drop_nil. }
  destruct (decide (p `max` (s `max` p) < (p + n) `min` e)) as [Hk|Hk].
  - destruct (eqb v x) eqn:Hv; simpl.
    + apply eqb_prop in Hv as ->.
      assert (Hrep : ∀ r, bool_decide (Forall (λ b, b = x) (replicate ((p + n) `min` e - p `max` s) x ++ r)) =
        bool_decide (Forall (λ b, b = x) r)).
      { intros r. apply bool_decide_ext. rewrite Forall_app. split; [by intros [_ ?]|]. intros Hr.
        split; [|done]. by apply Forall_replicate. }
      rewrite Hrep. destruct (decide (e ≤ (p + n) `min` e)) as [He|He].
      * rewrite Hrest by lia. by rewrite bool_decide_eq_true_2 by constructor.
      * rewrite decide_False by lia. rewrite <-IH by lia. f_equal. lia.
    + symmetry. apply bool_decide_eq_false. intros [Hf _]%Forall_app.
      destruct ((p + n) `min` e - p `max` s) eqn:Hz; [lia|]. simpl in Hf.
      apply Forall_cons in Hf as [-> _]. by rewrite eqb_reflx in Hv.
  - rewrite decide_False by lia. replace ((p + n) `min` e - p `max` s) with 0 by lia. simpl.
    rewrite <-IH by lia. f_equal. lia.
Qed.

Lemma is_range_all_value_rep m v s e x :
  rep m v → is_range_all_value m s e x =
    bool_decide (e ≤ s ∨ e ≤ length v ∧ Forall (λ b, b = x) (drop s (take e v))).
Proof.
  intros Hm. unfold is_range_all_value, len. rewrite (rp_len _ _ Hm). case_decide as Hes.
  { by rewrite bool_decide_eq_true_2 by by left. }
  case_decide as He; [by rewrite bool_decide_eq_false_2 by lia|].
  pose proof (all_value_spec s e x 0 _ _ (rep_tiles _ _ Hm)) as Ha. rewrite Nat.max_0_r in Ha.
  rewrite Ha by lia. unfold cut_bits. rewrite !Nat.sub_0_r. apply bool_decide_ext. split; [right; split; [lia|done]|].
  intros [?|[_ ?]]; [lia|done].
Qed.

(** Where [seek_run] stops: at the run that holds the query. *)
Lemma seek_run_spec q p rs v :
  tiles p rs (drop p v) → p ≤ q → q < length v →
  ∃ p' r rs', seek_run q rs = r :: rs' ∧ v !! q = Some r.1.1 ∧ p' ≤ q ∧
    tiles p' (r :: rs') (drop p' v).
Proof.
  intros Ht. remember (drop p v) as l eqn:Hl. revert Hl.
  induction Ht as [p|p b n rs l Hn Ht IH]; intros Hl Hp Hq.
  { apply (f_equal length) in Hl. rewrite length_drop in Hl. simpl in Hl. lia. }
  assert (Hdrop : drop (p + n) v = l).
  { rewrite <-drop_drop, <-Hl, drop_app_length'; [done|]. by rewrite length_replicate. }
  cbn [seek_run]. case_decide as Hin.
  - exists p, (b, p, p + n), rs. split_and!; [done| |done|rewrite <-Hl; by constructor].
    pose proof (lookup_drop v p (q - p)) as Hld. rewrite <-Hl in Hld.
    replace (p + (q - p)) with q in Hld by lia. rewrite <-Hld.
    rewrite lookup_app_l by (rewrite length_replicate; lia). by rewrite lookup_replicate_2 by lia.
  - apply IH; [done|lia|done].
Qed.

Lemma masked_loop_spec v qs : ∀ p rs res,
  tiles p rs (drop p v) → Sorted.StronglySorted key_le qs → (∀ x, x ∈ qs → p ≤ x.2) → NoDup qs.*1 →
  (∀ x, x ∈ qs → x.1 < length res) →
  if decide (Forall (λ x, x.2 < length v) qs) then
    ∃ res', masked_loop (length v) qs rs res = Some res' ∧ length res' = length res ∧
      (∀ x, x ∈ qs → res' !! x.1 = v !! x.2) ∧ (∀ i, i ∉ qs.*1 → res' !! i = res !! i)
  else masked_loop (length v) qs rs res = None.
Proof.
  induction qs as [|[o q] qs IH]; intros p rs res Ht Hs Hp Hnd Hlt.
  { rewrite decide_True by constructor. exists res. split_and!; [done|done| |done]. by intros x ?%not_elem_of_nil. }
  apply Sorted.StronglySorted_inv in Hs as [Hs Hle]. rewrite Forall_forall in Hle.
  apply NoDup_cons in Hnd as [Ho Hnd]. cbn [masked_loop]. destruct (decide (length v ≤ q)) as [Hq|Hq].
  { rewrite decide_False; [done|]. intros [Hx _]%Forall_cons. simpl in Hx. lia. }
  pose proof (Hp (o, q) ltac:(by left)) as Hpq. simpl in Hpq.
  destruct (seek_run_spec q p rs v Ht Hpq ltac:(lia)) as (p' & r & rs' & -> & Hv & Hp' & Ht').
  specialize (IH p' (r :: rs') (<[o := r.1.1]> res) Ht' Hs).
  pose proof (Hlt (o, q) ltac:(by left)) as Hlo. simpl in Hlo.
  destruct (decide (Forall (λ x : nat * nat, x.2 < length v) qs)) as [Hf|Hf].
  - rewrite decide_True by (constructor; [simpl; lia|done]).
    destruct IH as (res' & Hr & Hl & Hin & Hout); [|done| |].
    { intros x Hx. specialize (Hle x Hx). unfold key_le in Hle. simpl in Hle. lia. }
    { intros x Hx. rewrite length_insert. apply Hlt. by right. }
    exists res'. rewrite length_insert in Hl. split_and!; [done|done| |].
    + intros x [->|Hx]%elem_of_cons; [|by apply Hin]. simpl. rewrite Hout by done.
      by rewrite list_lookup_insert_eq.
    + intros i Hi. simpl in Hi. rewrite Hout by set_solver. apply list_lookup_insert_ne. set_solver.
  - rewrite decide_False by (by intros [_ ?]%Forall_cons). apply IH; [|done|].
    + intros x Hx. specialize (Hle x Hx). unfold key_le in Hle. simpl in Hle. lia.
    + intros x Hx. rewrite length_insert. apply Hlt. by right.
Qed.

#[export] Instance key_le_transitive : Transitive key_le.
Proof. intros x y z. unfold key_le. lia. Qed.
#[export] Instance key_le_total : Total key_le.
Proof. intros x y. unfold key_le. lia. Qed.

Lemma is_masked_rep m v indices : rep m v → is_masked m indices = mapM (λ i, v !! i) indices.
Proof.
  intros Hm. unfold is_masked, len. rewrite (rp_len _ _ Hm).
  destruct (decide (indices = [])) as [->|Hne]; [done|].
  set (qs := merge_sort key_le (imap pair indices)).
  assert (Hperm : qs ≡ₚ imap pair indices) by apply merge_sort_Permutation.
  assert (Hqs : ∀ o q, (o, q) ∈ qs ↔ indices !! o = Some q).
  { intros o q. rewrite Hperm, elem_of_lookup_imap. naive_solver. }
  pose proof (masked_loop_spec v qs 0 (iter_runs m) (replicate (length indices) false)
    (rep_tiles _ _ Hm)) as Hl.
  assert (match indices with [] => Some [] | _ => masked_loop (length v) qs (iter_runs m)
    (replicate (length indices) false) end = masked_loop (length v) qs (iter_runs m)
    (replicate (length indices) false)) as -> by by destruct indices.
  case_decide as Hf.
  - destruct Hl as (res & Hr & Hlen & Hin & _).
    + apply StronglySorted_merge_sort; apply _.
    + intros; lia.
    + rewrite Hperm, fst_imap_pair. apply NoDup_seq.
    + intros [o q] Hx%Hqs. simpl. rewrite length_replicate. by eapply lookup_lt_Some.
    + rewrite Hr. symmetry. apply mapM_Some, Forall2_same_length_lookup_2.
      * by rewrite Hlen, length_replicate.
      * intros o q b Hq Hb. pose proof (Hin (o, q)) as Hoq. simpl in Hoq. by rewrite <-Hoq by by apply Hqs.
  - rewrite Hl.
    + symmetry. apply eq_None_not_Some. intros [res Hres]. apply Hf, Forall_forall.
      intros [o q] Hx%Hqs. simpl. apply mapM_Some in Hres.
      destruct (Forall2_lookup_l _ _ _ _ _ Hres Hx) as (b & _ & Hb). by eapply lookup_lt_Some.
    + apply StronglySorted_merge_sort; apply _.
    + intros; lia.
    + rewrite Hperm, fst_imap_pair. apply NoDup_seq.
    + intros [o q] Hx%Hqs. simpl. rewrite length_replicate. by eapply lookup_lt_Some.
Qed.
End RunMaskSpec.
