(* ===== verification/RunMaskWrite.v ===== *)
(** What masking ranges and indices does to the bits of a token mask. *)
From S2P Require Import Prelude RunMask RunMaskSpec.
From stdpp Require Import sorting.

Module RunMaskWrite.
Import RunMask RunMaskSpec.

(** ** Sets of positions *)

Abbreviation increasing := (Sorted.StronglySorted lt).

Lemma elem_of_set_insert x y l : y ∈ set_insert x l ↔ y = x ∨ y ∈ l.
Proof.
  induction l as [|z l IH]; simpl; [set_solver|]. repeat case_decide; set_solver.
Qed.

Lemma set_insert_increasing x l : increasing l → increasing (set_insert x l).
Proof.
  induction 1 as [|y l Hs IH Hf]; simpl; [repeat constructor|]. rewrite Forall_forall in Hf.
  repeat case_decide.
  - constructor; [by constructor; [|rewrite Forall_forall]|]. rewrite Forall_forall.
    intros z [->|Hz]%elem_of_cons; [done|]. specialize (Hf z Hz). lia.
  - constructor; [done|by rewrite Forall_forall].
  - constructor; [done|]. rewrite Forall_forall. intros z [->|Hz]%elem_of_set_insert; [lia|auto].
Qed.

Lemma range_events_spec total l r x :
  x ∈ range_events total l r ↔
    x ∈ l ∨ (r.1 `min` total < r.2 `min` total ∧ (x = r.1 `min` total ∨ x = r.2 `min` total)).
Proof. unfold range_events. case_decide; rewrite ?elem_of_set_insert; naive_solver. Qed.

Lemma foldl_elem {A} (f : list nat → A → list nat) (P : A → nat → Prop) as_ :
  (∀ l a x, x ∈ f l a ↔ x ∈ l ∨ P a x) → ∀ l x,
  x ∈ foldl f l as_ ↔ x ∈ l ∨ ∃ a, a ∈ as_ ∧ P a x.
Proof.
  intros Hf. induction as_ as [|a as_ IH]; intros l x; simpl; [set_solver|].
  rewrite IH, Hf. set_solver.
Qed.

Lemma foldl_increasing {A} (f : list nat → A → list nat) as_ :
  (∀ l a, increasing l → increasing (f l a)) → ∀ l, increasing l → increasing (foldl f l as_).
Proof. intros Hf. induction as_ as [|a as_ IH]; intros l Hl; simpl; auto. Qed.

(** The points a mask is rewritten between: 0, its end, and where a run or a
    range begins or ends. *)
Lemma event_points_spec m v ranges x :
  rep m v → x ∈ event_points m ranges ↔ x = 0 ∨ x = length v ∨
    (∃ r, r ∈ ranges ∧ r.1 `min` length v < r.2 `min` length v ∧
       (x = r.1 `min` length v ∨ x = r.2 `min` length v)) ∨
    (∃ r, r ∈ iter_runs m ∧ (x = r.1.2 ∨ x = r.2)).
Proof.
  intros Hm. unfold event_points, len. rewrite (rp_len _ _ Hm).
  rewrite (foldl_elem run_events (λ r x, x = r.1.2 ∨ x = r.2)).
  2: { intros l r y. unfold run_events. rewrite !elem_of_set_insert. naive_solver. }
  rewrite (foldl_elem (range_events (length v)) (λ r x, r.1 `min` length v < r.2 `min` length v ∧
       (x = r.1 `min` length v ∨ x = r.2 `min` length v))).
  2: { intros l r y. apply range_events_spec. }
  rewrite !elem_of_set_insert. rewrite elem_of_nil. naive_solver.
Qed.

Lemma event_points_increasing m ranges : increasing (event_points m ranges).
Proof.
  unfold event_points. apply foldl_increasing.
  { intros l r Hl. unfold run_events. by do 2 apply set_insert_increasing. }
  apply foldl_increasing; [|do 2 apply set_insert_increasing; constructor].
  intros l r Hl. unfold range_events. case_decide; [|done]. by do 2 apply set_insert_increasing.
Qed.

(** ** Ranges and runs passed *)

Definition in_range (i : nat) (r : nat * nat) : Prop := r.1 ≤ i < r.2.

#[export] Instance in_range_dec i r : Decision (in_range i r).
Proof. unfold in_range. apply _. Defined.

(** What [mask_internal] asks of the first range left. *)
Definition head_holds (mid : nat) (ranges : list (nat * nat)) : bool :=
  match ranges with
  | (r_start, r_end) :: _ => bool_decide (r_start ≤ mid ∧ mid < r_end)
  | [] => false
  end.

(** Ranges in order, none of them overlapping the next. *)
Abbreviation apart := (Sorted.StronglySorted (λ r r' : nat * nat, r.2 ≤ r'.1)).

Lemma skip_ranges_skip k mid ranges :
  k ≤ mid → skip_ranges mid (skip_ranges k ranges) = skip_ranges mid ranges.
Proof.
  intros Hk. induction ranges as [|[s e] ranges IH]; [done|]. simpl.
  case_decide as He; [|done]. by rewrite (decide_True (P := e ≤ mid)) by lia.
Qed.

Lemma skip_ranges_in ranges mid :
  apart ranges → Forall (λ r, r.1 < r.2) ranges →
  head_holds mid (skip_ranges mid ranges) =
  bool_decide (Exists (in_range mid) ranges).
Proof.
  intros Ha Hne. induction Ha as [|[s e] ranges Ha IH Hf]; [done|].
  apply Forall_cons in Hne as [Hse Hne]. simpl in *. case_decide as He.
  - rewrite IH by done. apply bool_decide_ext. rewrite Exists_cons. unfold in_range at 2. simpl.
    split; [by right|]. intros [?|?]; [lia|done].
  - unfold head_holds. apply bool_decide_ext. rewrite Exists_cons. unfold in_range at 1. simpl. split; [by left|].
    intros [?|Hx]; [done|]. apply Exists_exists in Hx as (r & Hr & Hin). rewrite Forall_forall in Hf.
    specialize (Hf r Hr). simpl in Hf. unfold in_range in Hin. lia.
Qed.

Lemma skip_runs_skip k mid runs : k ≤ mid → skip_runs mid (skip_runs k runs) = skip_runs mid runs.
Proof.
  intros Hk. induction runs as [|r runs IH]; [done|]. simpl.
  case_decide as He; [|done]. by rewrite (decide_True (P := r.2 ≤ mid)) by lia.
Qed.

Lemma skip_runs_spec mid p rs l :
  tiles p rs l → p ≤ mid < p + length l →
  ∃ r rs', skip_runs mid rs = r :: rs' ∧ r ∈ rs ∧ r.1.2 ≤ mid < r.2 ∧
    ∀ i, r.1.2 ≤ i < r.2 → l !! (i - p) = Some r.1.1.
Proof.
  induction 1 as [|p b n rs l Hn Ht IH]; intros Hp; [simpl in Hp; lia|].
  rewrite length_app, length_replicate in Hp. cbn [skip_runs]. simpl. case_decide as He.
  - destruct IH as (r & rs' & H1 & H2 & H3 & H4); [lia|]. exists r, rs'.
    pose proof (tiles_length _ _ _ Ht r H2). split_and!; [done|by right|lia|lia|].
    intros i Hi. rewrite lookup_app_r by (rewrite length_replicate; lia).
    rewrite length_replicate, <-(H4 i Hi). f_equal. lia.
  - exists (b, p, p + n), rs. simpl. split_and!; [done|by left|lia|lia|].
    intros i Hi. rewrite lookup_app_l by (rewrite length_replicate; lia). apply lookup_replicate_2. lia.
Qed.

(** ** The loop *)

Lemma increasing_last b pts n : increasing (b :: pts) → last (b :: pts) = Some n → b ≤ n.
Proof.
  intros Hs Hl. apply Sorted.StronglySorted_inv in Hs as [_ Hf]. rewrite Forall_forall in Hf.
  destruct pts as [|c pts]; [by injection Hl as ->|].
  apply Nat.lt_le_incl, Hf. rewrite last_cons_cons in Hl.
  apply last_Some in Hl as [l ->]. set_solver.
Qed.

Lemma fmap_seq_const {A} (f : nat → A) x a n :
  (∀ i, a ≤ i < a + n → f i = x) → f <$> seq a n = replicate n x.
Proof.
  intros Hf. symmetry. apply replicate_as_Forall. rewrite length_fmap, length_seq. split; [done|].
  apply Forall_forall. intros y (i & -> & Hi%elem_of_seq)%list_elem_of_fmap. by symmetry; apply Hf.
Qed.

Section loop.
Context (m : RunMask) (v : list bool) (ranges : list (nat * nat)) (flag : bool).
Hypothesis Hm : rep m v.
Hypothesis Hapart : apart ranges.
Hypothesis Hne : Forall (λ r, r.1 < r.2) ranges.

(** The bit [mask_internal] leaves at [i]. *)
Definition masked_bit (i : nat) : bool :=
  if decide (Exists (in_range i) ranges) then flag else default false (v !! i).

Definition masked_bits : list bool := masked_bit <$> seq 0 (length v).

(** Between two points next to each other the bits do not change. *)
Lemma masked_bit_const a b mid i :
  (∀ x, x ∈ event_points m ranges → x ≤ a ∨ b ≤ x) →
  b ≤ length v → a ≤ mid < b → a ≤ i < b → masked_bit i = masked_bit mid.
Proof.
  intros Hx Hb Hmid Hi. unfold masked_bit.
  assert (Hex : Exists (in_range i) ranges ↔ Exists (in_range mid) ranges).
  { assert (Hone : ∀ r, r ∈ ranges → in_range i r ↔ in_range mid r).
    { intros r Hr. unfold in_range.
      destruct (decide (r.1 `min` length v < r.2 `min` length v)) as [Hc|Hc]; [|lia].
      assert (r.1 `min` length v ≤ a ∨ b ≤ r.1 `min` length v).
      { apply Hx, (event_points_spec m v); [done|]. right. right. left. exists r. auto. }
      assert (r.2 `min` length v ≤ a ∨ b ≤ r.2 `min` length v).
      { apply Hx, (event_points_spec m v); [done|]. right. right. left. exists r. auto. }
      lia. }
    rewrite !Exists_exists. split; intros (r & Hr & Hin); exists r; (split; [done|]);
      by apply Hone. }
  destruct (decide (Exists (in_range mid) ranges)) as [Hd|Hd].
  - by rewrite decide_True by by apply Hex.
  - rewrite decide_False by by rewrite Hex. f_equal.
    destruct (skip_runs_spec mid 0 _ _ (rep_tiles _ _ Hm)) as (r & rs' & _ & Hr & Hin & Hv); [lia|].
    assert (r.1.2 ≤ a ∨ b ≤ r.1.2).
    { apply Hx, (event_points_spec m v); [done|]. right. right. right. exists r. auto. }
    assert (r.2 ≤ a ∨ b ≤ r.2).
    { apply Hx, (event_points_spec m v); [done|]. right. right. right. exists r. auto. }
    pose proof (Hv i ltac:(lia)) as H1. pose proof (Hv mid ltac:(lia)) as H2.
    rewrite !Nat.sub_0_r in *. congruence.
Qed.

Lemma mask_loop_spec pts : ∀ a k k' buf,
  increasing (a :: pts) → last (a :: pts) = Some (length v) →
  (∀ x, x ∈ event_points m ranges → x ≤ a ∨ x ∈ pts) →
  k ≤ a → k' ≤ a → encodes buf (masked_bit <$> seq 0 a) →
  ∃ buf', mask_loop flag (zip (a :: pts) pts) (skip_ranges k ranges) (skip_runs k' (iter_runs m)) buf
      = Some buf' ∧ encodes buf' masked_bits.
Proof.
  induction pts as [|b pts IH]; intros a k k' buf Hs Hlast Hx Hk Hk' Hb.
  { simpl in *. injection Hlast as ->. by exists buf. }
  apply Sorted.StronglySorted_inv in Hs as [Hs Hf]. rewrite Forall_forall in Hf.
  pose proof (Hf b ltac:(by left)) as Hab.
  assert (Hbv : b ≤ length v).
  { rewrite last_cons_cons in Hlast. by eapply increasing_last. }
  pose proof (en_small _ _ (rp_encodes _ _ Hm)) as Hsm.
  cbn [zip zip_with mask_loop]. rewrite decide_False by lia.
  set (mid := a + (b - a) / 2).
  assert (a ≤ mid < b) as Hmid.
  { unfold mid. pose proof (Nat.div_lt (b - a) 2 ltac:(lia) ltac:(lia)). lia. }
  rewrite skip_ranges_skip by lia.
  fold (head_holds mid (skip_ranges mid ranges)). rewrite skip_ranges_in by done.
  rewrite wrap32_small by (eapply small_le; [|exact Hsm]; lia).
  assert (Hpush : ∀ x, masked_bit mid = x → encodes (mask_push buf x (b - a)) (masked_bit <$> seq 0 b)).
  { intros x Hmx. rewrite mask_push_run. replace (seq 0 b) with (seq 0 a ++ seq a (b - a)).
    - rewrite fmap_app, (fmap_seq_const _ x a (b - a)).
      + apply push_run_encodes; [done|lia|]. rewrite length_fmap, length_seq.
        eapply small_le; [|exact Hsm]. lia.
      + intros i Hi. rewrite <-Hmx. apply (masked_bit_const a b); [|done|done|lia].
        intros y Hy. destruct (Hx y Hy) as [?|Hin]; [by left|]. right.
        apply elem_of_cons in Hin as [->|Hin]; [done|].
        apply Sorted.StronglySorted_inv in Hs as [_ Hf']. rewrite Forall_forall in Hf'.
        specialize (Hf' y Hin). lia.
    - rewrite <-seq_app. f_equal. lia. }
  assert (Hx' : ∀ x, x ∈ event_points m ranges → x ≤ b ∨ x ∈ pts).
  { intros y Hy. destruct (Hx y Hy) as [?|[->|?]%elem_of_cons]; [left; lia|by left|by right]. }
  destruct (skip_runs_spec mid 0 _ _ (rep_tiles _ _ Hm)) as (r & rs' & Hr & _ & Hrm & Hv); [lia|].
  destruct (decide (Exists (in_range mid) ranges)) as [Hin|Hin].
  - rewrite bool_decide_eq_true_2 by done. apply IH; [done|done|done|lia|lia|].
    apply Hpush. unfold masked_bit. by rewrite decide_True.
  - rewrite bool_decide_eq_false_2 by done. rewrite skip_runs_skip by lia. rewrite Hr, <-Hr.
    apply IH; [done|done|done|lia|lia|]. apply Hpush. unfold masked_bit. rewrite decide_False by done.
    specialize (Hv mid Hrm). rewrite Nat.sub_0_r in Hv. by rewrite Hv.
Qed.

Lemma mask_internal_rep :
  ∃ m', mask_internal m ranges flag = Some m' ∧ rep m' masked_bits.
Proof.
  assert (Hlen : length masked_bits = length v) by (unfold masked_bits; by rewrite length_fmap, length_seq).
  pose proof (rp_len _ _ Hm) as Hl. unfold mask_internal. case_decide as Hc.
  { exists m. split; [done|]. enough (masked_bits = v) as -> by done. destruct Hc as [Hr|Hz].
    - apply list_eq. intros i. unfold masked_bits. rewrite list_lookup_fmap.
      destruct (decide (i < length v)) as [Hi|Hi].
      + rewrite lookup_seq_lt by done. simpl. unfold masked_bit. rewrite Hr.
        rewrite decide_False by (by intros ?%Exists_nil).
        by destruct (lookup_lt_is_Some_2 v i Hi) as [x ->].
      + rewrite lookup_seq_ge by lia. symmetry. apply lookup_ge_None. lia.
    - rewrite Hz in Hl. rewrite (nil_length_inv masked_bits), (nil_length_inv v) by lia. done. }
  assert (Hz : total_size m ≠ 0) by (intros ?; apply Hc; by right).
  assert (Hpts : ∃ pts, event_points m ranges = 0 :: pts ∧ last (0 :: pts) = Some (length v)).
  { pose proof (event_points_increasing m ranges) as Hinc.
    pose proof (λ x, event_points_spec m v ranges x Hm) as Hsp.
    destruct (event_points m ranges) as [|a pts] eqn:Hp.
    { destruct (not_elem_of_nil 0). apply Hsp. by left. }
    apply Sorted.StronglySorted_inv in Hinc as Hinc'. destruct Hinc' as [_ Hf]. rewrite Forall_forall in Hf.
    assert (a = 0) as ->.
    { destruct (proj1 (elem_of_cons _ _ _) (proj2 (Hsp 0) (or_introl eq_refl))) as [|H0]; [done|].
      specialize (Hf 0 H0). lia. }
    exists pts. split; [done|]. destruct (last (0 :: pts)) as [n|] eqn:Hla; [|by apply last_None in Hla].
    f_equal. assert (Hn : n ∈ 0 :: pts) by (apply last_Some in Hla as [l Hla]; rewrite Hla; set_solver).
    assert (Hle : ∀ x, x ∈ 0 :: pts → x ≤ n).
    { clear -Hinc Hla. revert Hinc Hla. generalize 0. induction pts as [|b pts IH]; intros a Hinc Hla x Hx.
      - apply list_elem_of_singleton in Hx as ->. simpl in Hla. injection Hla as ->. done.
      - pose proof (increasing_last _ _ _ Hinc Hla). apply elem_of_cons in Hx as [->|Hx]; [done|].
        rewrite last_cons_cons in Hla. apply Sorted.StronglySorted_inv in Hinc as [Hinc _]. by eapply IH. }
    pose proof (Hle (length v) (proj2 (Hsp _) (or_intror (or_introl eq_refl)))).
    assert (n ≤ length v); [|lia].
    apply Hsp in Hn as [->|[->|[(r & _ & _ & Hn)|(r & Hr & Hn)]]]; [lia|lia|lia|].
    pose proof (tiles_length _ _ _ (rep_tiles _ _ Hm) r Hr). lia. }
  destruct Hpts as (pts & Hp & Hla). rewrite Hp. cbn [tail].
  destruct (mask_loop_spec pts 0 0 0 []) as (buf & Hb & He); [by rewrite <-Hp; apply event_points_increasing|done| |lia|lia|apply encodes_nil|].
  { intros x Hx. rewrite Hp in Hx. apply elem_of_cons in Hx as [->|?]; [by left|by right]. }
  assert (skip_ranges 0 ranges = ranges) as Hsr.
  { destruct ranges as [|[s e] rs]; [done|]. simpl. apply Forall_cons in Hne as [Hse _]. simpl in Hse.
    by rewrite decide_False by lia. }
  assert (skip_runs 0 (iter_runs m) = iter_runs m) as Hsk.
  { pose proof (rep_tiles _ _ Hm) as Ht. destruct (iter_runs m) as [|r rs] eqn:Hrs; [done|]. simpl.
    pose proof (tiles_length _ _ _ Ht r ltac:(by left)). by rewrite decide_False by lia. }
  rewrite Hsr, Hsk in Hb. rewrite Hb. eexists. split; [done|]. split; [done|]. simpl. by rewrite Hlen.
Qed.
End loop.

(** ** The two entries *)

Lemma masked_bits_imap v ranges flag (P : nat → Prop) `{∀ i, Decision (P i)} :
  (∀ i, Exists (in_range i) ranges ↔ P i) →
  masked_bits v ranges flag = imap (λ i b, if decide (P i) then flag else b) v.
Proof.
  intros Hr. apply list_eq. intros i. unfold masked_bits. rewrite list_lookup_fmap, list_lookup_imap.
  destruct (decide (i < length v)) as [Hi|Hi].
  - rewrite lookup_seq_lt by done. destruct (lookup_lt_is_Some_2 v i Hi) as [x Hx]. rewrite Hx. simpl.
    unfold masked_bit. rewrite Hx. simpl. f_equal. apply decide_ext, Hr.
  - rewrite lookup_seq_ge, (proj2 (lookup_ge_None v i)) by lia. done.
Qed.

Lemma mask_range_rep m v s e flag :
  rep m v → ∃ m', mask_range m s e flag = Some m' ∧
    rep m' (imap (λ i b, if decide (s ≤ i < e) then flag else b) v).
Proof.
  intros Hm. unfold mask_range.
  case_decide as Hc.
  - exists m. split; [done|].
    assert (imap (λ i b, if decide (s ≤ i < e) then flag else b) v = v) as ->; [|done].
    apply list_eq. intros i. rewrite list_lookup_imap. destruct (v !! i); [|done]. simpl.
    by rewrite decide_False by lia.
  - rewrite <-(masked_bits_imap v [(s, e)] flag (λ i, s ≤ i < e)).
    + apply mask_internal_rep; [done|repeat constructor|]. apply Forall_singleton. simpl. lia.
    + intros i. rewrite Exists_cons, Exists_nil. unfold in_range; simpl. naive_solver.
Qed.

Lemma elem_of_dedup x l : x ∈ dedup l ↔ x ∈ l.
Proof.
  induction l as [|y l IH]; [done|]. cbn [dedup]. destruct l as [|z l]; [done|].
  case_decide as Hyz; [subst; rewrite IH; set_solver|].
  split; (intros [->|Hx]%elem_of_cons; [by left|right; by apply IH]).
Qed.

Lemma dedup_increasing l : Sorted.StronglySorted le l → increasing (dedup l).
Proof.
  induction 1 as [|y l Hs IH Hf]; [constructor|]. cbn [dedup]. destruct l as [|z l]; [repeat constructor|].
  case_decide as Hyz; [done|]. constructor; [done|]. rewrite Forall_forall. intros x Hx. rewrite elem_of_dedup in Hx.
  rewrite Forall_forall in Hf. apply Sorted.StronglySorted_inv in Hs as [_ Hz]. rewrite Forall_forall in Hz.
  pose proof (Hf z ltac:(by left)). apply elem_of_cons in Hx as [->|Hx]; [lia|]. specialize (Hz x Hx). lia.
Qed.

(** An index that has one after it among the [usize]s. *)
Definition has_next (i : nat) : Prop := (N.of_nat i < u64_max)%N.
#[export] Instance has_next_dec i : Decision (has_next i) := N.lt_dec _ _.

Lemma index_after_spec i : index_after i = if decide (has_next i) then Some (i + 1) else None.
Proof. done. Qed.

Lemma index_ranges_spec l : ∀ s e,
  s < e → (∀ x, x ∈ l → e ≤ x) → increasing l → Forall has_next l →
  ∃ rs, index_ranges s e l = Some rs ∧ apart rs ∧ Forall (λ r, r.1 < r.2) rs ∧ (∀ r, r ∈ rs → s ≤ r.1) ∧
    ∀ i, Exists (in_range i) rs ↔ s ≤ i < e ∨ i ∈ l.
Proof.
  induction l as [|x l IH]; intros s e Hse Hge Hs Hn; cbn [index_ranges].
  { eexists. split; [done|]. split_and!.
    - repeat constructor.
    - by apply Forall_singleton.
    - intros r ->%list_elem_of_singleton. done.
    - intros i. rewrite Exists_cons, Exists_nil, elem_of_nil. unfold in_range; simpl. naive_solver. }
  apply Sorted.StronglySorted_inv in Hs as [Hs Hf]. rewrite Forall_forall in Hf. apply Forall_cons in Hn as [Hnx Hn].
  pose proof (Hge x ltac:(by left)) as Hx. rewrite index_after_spec, decide_True by done. cbn [mbind option_bind].
  assert (∀ y, y ∈ l → x + 1 ≤ y) as Hl by (intros y Hy; specialize (Hf y Hy); lia). case_decide as Hxe.
  - subst x. destruct (IH s (e + 1)) as (rs & -> & H1 & H2 & H3 & H4); [lia|done..|].
    exists rs. split_and!; [done..|]. intros i. rewrite H4, elem_of_cons.
    destruct (decide (i = e)); [naive_solver lia|naive_solver lia].
  - destruct (IH x (x + 1)) as (rs & -> & H1 & H2 & H3 & H4); [lia|done..|].
    eexists. split; [done|]. split_and!.
    + constructor; [done|]. rewrite Forall_forall. intros r Hr. specialize (H3 r Hr). simpl. lia.
    + by constructor.
    + intros r [->|Hr]%elem_of_cons; [done|]. specialize (H3 r Hr). lia.
    + intros i. rewrite Exists_cons, H4, elem_of_cons. unfold in_range; simpl.
      destruct (decide (i = x)); [naive_solver lia|naive_solver lia].
Qed.

Lemma index_ranges_panic l : ∀ s e, ¬ Forall has_next l → index_ranges s e l = None.
Proof.
  induction l as [|x l IH]; intros s e Hn; [by destruct Hn|]. cbn [index_ranges].
  rewrite index_after_spec. destruct (decide (has_next x)) as [Hx|]; [|done]. cbn [mbind option_bind].
  assert (¬ Forall has_next l) as Hl by (intros ?; apply Hn; by constructor).
  rewrite !IH by done. by case_decide.
Qed.

(** Masking an index that has none after it panics, whatever the mask; masking others sets
    or clears their bits. *)
Lemma mask_rep m v indices flag :
  rep m v →
  match mask m indices flag with
  | Some m' => Forall has_next indices ∧ rep m' (imap (λ i b, if decide (i ∈ indices) then flag else b) v)
  | None => ¬ Forall has_next indices
  end.
Proof.
  intros Hm. unfold mask.
  assert (Hin : ∀ i, i ∈ dedup (merge_sort le indices) ↔ i ∈ indices).
  { intros i. rewrite elem_of_dedup. by rewrite merge_sort_Permutation. }
  assert (Hinc : increasing (dedup (merge_sort le indices))).
  { apply dedup_increasing, StronglySorted_merge_sort; apply _. }
  assert (Hall : Forall has_next indices ↔ Forall has_next (dedup (merge_sort le indices))).
  { rewrite !Forall_forall. split; intros H i Hi; apply H, Hin, Hi. }
  revert Hall. generalize (Forall has_next indices) as P. intros P Hall.
  destruct (dedup (merge_sort le indices)) as [|x l].
  - split; [by apply Hall|].
    assert (imap (λ i b, if decide (i ∈ indices) then flag else b) v = v) as ->; [|done].
    apply list_eq. intros i. rewrite list_lookup_imap. destruct (v !! i); [|done]. simpl.
    rewrite decide_False; [done|]. rewrite <-Hin. apply not_elem_of_nil.
  - rewrite Forall_cons in Hall. rewrite index_after_spec. destruct (decide (has_next x)) as [Hx|Hx]; cbn [mbind option_bind]; [|tauto].
    destruct (decide (Forall has_next l)) as [Hn|Hn]; [|rewrite index_ranges_panic by done; cbn; tauto].
    apply Sorted.StronglySorted_inv in Hinc as [Hinc Hf]. rewrite Forall_forall in Hf.
    destruct (index_ranges_spec l x (x + 1)) as (rs & -> & H1 & H2 & _ & H4); [lia| |done..|].
    { intros y Hy. specialize (Hf y Hy). lia. }
    cbn [mbind option_bind]. destruct (mask_internal_rep m v rs flag Hm H1 H2) as (m' & -> & Hr).
    split; [tauto|]. rewrite (masked_bits_imap v _ flag (λ i, i ∈ indices)) in Hr; [done|].
    intros i. rewrite H4, <-Hin, elem_of_cons. naive_solver lia.
Qed.
End RunMaskWrite.
