(* ===== verification/RunMaskPages.v ===== *)
(** Which pages a token mask lets go, and what it leaves once rows are
    skipped. *)
From S2P Require Import Prelude RunMask RunMaskSpec RunMaskWrite.
From stdpp Require Import sorting.

Module RunMaskPages.
Import RunMask RunMaskSpec RunMaskWrite.

(** ** Words of 64 bits *)

Lemma low_bits_testbit n i : n < 64 → N.testbit (low_bits n) (N.of_nat i) = bool_decide (i < n).
Proof.
  intros Hn. unfold low_bits. rewrite N.shiftl_1_l.
  replace (2 ^ N.of_nat n - 1)%N with (N.ones (N.of_nat n)) by (rewrite N.ones_equiv; lia).
  case_bool_decide; [apply N.ones_spec_low; lia|apply N.ones_spec_high; lia].
Qed.

Lemma max64_testbit i : i < 64 → N.testbit max64 (N.of_nat i) = true.
Proof.
  intros Hi. change max64 with (N.ones 64). apply N.ones_spec_low. lia.
Qed.

Lemma not64_testbit x i : i < 64 → N.testbit (not64 x) (N.of_nat i) = negb (N.testbit x (N.of_nat i)).
Proof. intros Hi. unfold not64. rewrite N.lxor_spec, max64_testbit by done. apply xorb_true_r. Qed.

(** Bit [p] of a bit set of 64-bit words. *)
Definition page_bit (out : list N) (p : nat) : bool :=
  match out !! (p / 64) with Some w => N.testbit w (N.of_nat (p mod 64)) | None => false end.

Lemma or_word_spec out i x :
  i < length out → ∃ out', or_word out i x = Some out' ∧ length out' = length out ∧
    ∀ p, page_bit out' p = page_bit out p || (bool_decide (p / 64 = i) && N.testbit x (N.of_nat (p mod 64))).
Proof.
  intros Hi. unfold or_word. destruct (lookup_lt_is_Some_2 out i Hi) as [w Hw]. rewrite Hw.
  eexists. split_and!; [done|by rewrite length_insert|]. intros p. unfold page_bit.
  destruct (decide (p / 64 = i)) as [->|Hp].
  - rewrite list_lookup_insert_eq, Hw, bool_decide_eq_true_2 by done. by rewrite N.lor_spec.
  - rewrite list_lookup_insert_ne by done. rewrite bool_decide_eq_false_2 by done. by rewrite orb_false_r.
Qed.

Ltac split64 p :=
  let H1 := fresh "Hdiv" in let H2 := fresh "Hmod" in
  pose proof (Nat.div_mod_eq p 64) as H1; pose proof (Nat.mod_upper_bound p 64 ltac:(lia)) as H2.

Lemma bool_eq_iff (a b : bool) : (a = true ↔ b = true) → a = b.
Proof. destruct a, b; naive_solver. Qed.

Ltac solve_bits :=
  apply bool_eq_iff;
  rewrite ?orb_true_iff, ?andb_true_iff, ?orb_true_iff, ?andb_true_iff, ?negb_true_iff,
    ?bool_decide_eq_true, ?bool_decide_eq_false.

Lemma set_bits_spec out lo hi :
  hi ≤ 64 * length out → ∃ out', set_bits out lo hi = Some out' ∧ length out' = length out ∧
    ∀ p, page_bit out' p = page_bit out p || bool_decide (lo ≤ p < hi).
Proof.
  intros Hhi. unfold set_bits. case_decide as Hle.
  { exists out. split_and!; [done..|]. intros p. rewrite bool_decide_eq_false_2 by lia. by rewrite orb_false_r. }
  split64 lo. split64 hi. case_decide as Heq.
  - destruct (or_word_spec out (lo / 64) (N.land (low_bits (hi mod 64)) (not64 (low_bits (lo mod 64)))))
      as (out' & H1 & H2 & H3); [lia|].
    exists out'. split_and!; [done..|]. intros p. rewrite H3. f_equal. split64 p.
    rewrite N.land_spec, not64_testbit, !low_bits_testbit by lia. solve_bits. lia.
  - destruct (or_word_spec out (lo / 64) (not64 (low_bits (lo mod 64)))) as (out1 & -> & Hl1 & H1); [lia|].
    rewrite decide_True by lia.
    set (out2 := take (lo / 64 + 1) out1 ++ replicate (hi / 64 - (lo / 64 + 1)) max64 ++ drop (hi / 64) out1).
    assert (Hl2 : length out2 = length out).
    { unfold out2. rewrite !length_app, length_take, length_replicate, length_drop. lia. }
    assert (Hb2 : ∀ p, page_bit out2 p = page_bit out p || bool_decide (lo ≤ p < hi / 64 * 64)).
    { intros p. split64 p. unfold page_bit at 1, out2.
      destruct (decide (p / 64 < lo / 64 + 1)) as [Ha|Ha].
      - rewrite lookup_app_l by (rewrite length_take; lia). rewrite lookup_take_lt by done.
        fold (page_bit out1 p). rewrite H1, not64_testbit, low_bits_testbit by lia. f_equal.
        solve_bits. lia.
      - rewrite lookup_app_r by (rewrite length_take; lia). rewrite length_take.
        destruct (decide (p / 64 < hi / 64)) as [Hc|Hc].
        + rewrite lookup_app_l by (rewrite length_replicate; lia). rewrite lookup_replicate_2 by lia.
          rewrite max64_testbit by lia. rewrite bool_decide_eq_true_2 by lia. by rewrite orb_true_r.
        + rewrite lookup_app_r by (rewrite length_replicate; lia). rewrite length_replicate, lookup_drop.
          replace (hi / 64 + _) with (p / 64) by lia. fold (page_bit out1 p).
          rewrite H1. rewrite (bool_decide_eq_false_2 (p / 64 = lo / 64)) by lia. rewrite andb_false_l.
          f_equal. symmetry. apply bool_decide_eq_false. lia. }
    case_decide as Hz.
    + destruct (or_word_spec out2 (hi / 64) (low_bits (hi mod 64))) as (out3 & H3 & Hl3 & Hb3); [lia|].
      exists out3. split_and!; [done|congruence|]. intros p. rewrite Hb3, Hb2, <-orb_assoc. f_equal.
      split64 p. rewrite low_bits_testbit by lia. solve_bits. lia.
    + exists out2. split_and!; [done..|]. intros p. rewrite Hb2. f_equal. apply bool_decide_ext. lia.
Qed.

(** ** Pages *)

(** Page [p] lies within [s..e]. *)
Definition page_in (page_size p s e : nat) : Prop := s ≤ p * page_size ∧ (p + 1) * page_size ≤ e.

#[export] Instance page_in_dec ps p s e : Decision (page_in ps p s e).
Proof. unfold page_in. apply _. Defined.

Lemma div_ceil_le a b p : 0 < b → div_ceil a b ≤ p ↔ a ≤ p * b.
Proof.
  intros Hb. unfold div_ceil. pose proof (Nat.div_mod_eq (a + b - 1) b).
  pose proof (Nat.mod_upper_bound (a + b - 1) b ltac:(lia)). split; intros H1; nia.
Qed.

Lemma lt_div p e b : 0 < b → p < e / b ↔ (p + 1) * b ≤ e.
Proof.
  intros Hb. pose proof (Nat.div_mod_eq e b). pose proof (Nat.mod_upper_bound e b ltac:(lia)).
  split; intros H1; nia.
Qed.

Lemma set_page_bits_spec s e ps np out :
  0 < ps → np ≤ 64 * length out →
  ∃ out', set_page_bits_in_range s e ps np out = Some out' ∧ length out' = length out ∧
    ∀ p, page_bit out' p = page_bit out p || bool_decide (p < np ∧ page_in ps p s e).
Proof.
  intros Hps Hnp. unfold set_page_bits_in_range.
  assert (Hspec : ∀ p, div_ceil s ps ≤ p < (e / ps) `min` np ↔ p < np ∧ page_in ps p s e).
  { intros p. pose proof (div_ceil_le s ps p Hps). pose proof (lt_div p e ps Hps). unfold page_in. lia. }
  case_decide as Hse.
  { exists out. split_and!; [done..|]. intros p. rewrite bool_decide_eq_false_2; [by rewrite orb_false_r|].
    unfold page_in. nia. }
  case_decide as Hlt.
  - destruct (set_bits_spec out (div_ceil s ps) ((e / ps) `min` np)) as (out' & H1 & H2 & H3); [lia|].
    exists out'. split_and!; [done..|]. intros p. rewrite H3. f_equal. by apply bool_decide_ext.
  - exists out. split_and!; [done..|]. intros p. rewrite bool_decide_eq_false_2; [by rewrite orb_false_r|].
    rewrite <-Hspec. lia.
Qed.

(** A run ends where the bits change. *)
Lemma runs_maximal index p l :
  Forall (λ n, 0 < n) (tail l) → ∀ r, r ∈ runs_from index p l → r.2 < p + sum_list l →
  decode (Nat.odd index) l !! (r.2 - p) = Some (negb r.1.1).
Proof.
  revert index p. induction l as [|n l IH]; intros index p Hl r; [by intros ?%not_elem_of_nil|].
  cbn [runs_from tail] in *. assert (Hl' : Forall (λ n, 0 < n) (tail l)) by (destruct l; [done|by apply Forall_cons in Hl as [_ ?]]).
  assert (Hodd : negb (Nat.odd index) = Nat.odd (S index)) by by rewrite Nat.odd_succ, Nat.negb_odd.
  assert (Hin : r ∈ runs_from (S index) (p + n) l → r.2 < p + sum_list (n :: l) →
    decode (Nat.odd index) (n :: l) !! (r.2 - p) = Some (negb r.1.1)).
  { intros Hr Hlt. pose proof (tiles_length _ _ _ (runs_from_tiles (S index) (p + n) l) r Hr).
    cbn [decode]. rewrite lookup_app_r by (rewrite length_replicate; lia).
    rewrite length_replicate, Hodd. rewrite <-(IH (S index) (p + n) Hl' r Hr) by (simpl in Hlt; lia).
    f_equal. lia. }
  case_decide as Hn; [|done]. intros [->|Hr]%elem_of_cons Hlt; [|by apply Hin].
  cbn [decode fst snd] in *. rewrite lookup_app_r by (rewrite length_replicate; lia).
  rewrite length_replicate. replace (p + n - p - n) with 0 by lia.
  destruct l as [|k l]; [simpl in Hlt; lia|]. apply Forall_cons in Hl as [Hk _].
  destruct k; [lia|]. done.
Qed.

Lemma tiles_value p rs l i r :
  tiles p rs l → r ∈ rs → r.1.2 ≤ i < r.2 → ∀ x, r.1.1 = x → l !! (i - p) = Some x.
Proof.
  intros Ht. revert r. induction Ht as [|p b n rs l Hn Ht IH]; intros r; [by intros ?%not_elem_of_nil|].
  intros [->|Hr]%elem_of_cons Hi x Hx; simpl in *.
  - rewrite lookup_app_l by (rewrite length_replicate; lia). subst. apply lookup_replicate_2. lia.
  - pose proof (tiles_length _ _ _ Ht r Hr). rewrite lookup_app_r by (rewrite length_replicate; lia).
    rewrite length_replicate, <-(IH r Hr Hi x Hx). f_equal. lia.
Qed.

(** A page of unset bits lies within one run. *)
Lemma false_run m v a b :
  rep m v → a < b ≤ length v → (∀ i, a ≤ i < b → v !! i = Some false) →
  ∃ r, r ∈ iter_runs m ∧ r.1.1 = false ∧ r.1.2 ≤ a ∧ b ≤ r.2.
Proof.
  intros Hm Hab Hf.
  destruct (skip_runs_spec a 0 _ _ (rep_tiles _ _ Hm)) as (r & _ & _ & Hr & Hin & Hv); [lia|].
  pose proof (Hv a Hin) as Ha. rewrite Nat.sub_0_r, Hf in Ha by lia. injection Ha as Ha.
  exists r. split_and!; [done|done|lia|]. destruct (decide (b ≤ r.2)) as [|Hlt]; [done|exfalso].
  pose proof (encodes_sum _ _ (rp_encodes _ _ Hm)) as Hs.
  destruct (en_canonical _ _ (rp_encodes _ _ Hm)) as [Hz|[Hpos _]].
  { rewrite Hz in Hs. simpl in Hs. lia. }
  pose proof (runs_maximal 0 0 _ Hpos r Hr ltac:(lia)) as Hmax. rewrite Nat.sub_0_r in Hmax.
  rewrite (en_bits _ _ (rp_encodes _ _ Hm) : decode (Nat.odd 0) (buffer m) = v) in Hmax.
  rewrite Hf in Hmax by lia. rewrite <-Ha in Hmax. done.
Qed.

Lemma page_bits_loop_spec ps np p rs l : ∀ out,
  tiles p rs l → small (p + length l) → 0 < ps → np ≤ 64 * length out →
  ∃ out', page_bits_loop ps np rs p out = Some (p + length l, out') ∧ length out' = length out ∧
    ∀ k, page_bit out' k = page_bit out k ||
      bool_decide (k < np ∧ Exists (λ r : run, r.1.1 = false ∧ page_in ps k r.1.2 r.2) rs).
Proof.
  intros out Ht. revert out. induction Ht as [p|p b n rs l Hn Ht IH]; intros out Hs Hps Hnp.
  { exists out. rewrite Nat.add_0_r. split_and!; [done..|]. intros k. rewrite bool_decide_eq_false_2.
    - by rewrite orb_false_r.
    - by intros [_ ?%Exists_nil]. }
  rewrite length_app, length_replicate in *. cbn [page_bits_loop].
  rewrite (wrap32_small (p + n)) by (eapply small_le; [|exact Hs]; lia).
  rewrite Nat.add_assoc in *. destruct b.
  - destruct (IH out) as (out' & H1 & H2 & H3); [done..|]. exists out'. split_and!; [done..|].
    intros k. rewrite H3. f_equal. apply bool_decide_ext. rewrite Exists_cons. naive_solver.
  - rewrite (wrap32_small p) by (eapply small_le; [|exact Hs]; lia).
    destruct (set_page_bits_spec p (p + n) ps np out Hps Hnp) as (out1 & -> & Hl1 & H1).
    destruct (IH out1) as (out' & H1' & H2 & H3); [done|done|lia|]. exists out'.
    split_and!; [done|congruence|]. intros k. rewrite H3, H1, <-orb_assoc. f_equal. solve_bits.
    rewrite Exists_cons. simpl. naive_solver.
Qed.

(** The pages [droppable_page_bits] sets: those within the mask whose bits are all
    unset, and those wholly past it. *)
Lemma droppable_rep m v ps np total out :
  rep m v → 0 < ps → np ≤ 64 * length out →
  ∃ out', droppable_page_bits m ps np total out = Some out' ∧ length out' = length out ∧
    ∀ k, page_bit out' k = page_bit out k || bool_decide (k < np ∧
      ((page_in ps k 0 (length v) ∧ Forall (λ i, v !! i = Some false) (seq (k * ps) ps)) ∨
       page_in ps k (length v) total)).
Proof.
  intros Hm Hps Hnp. unfold droppable_page_bits.
  assert (Hruns : ∀ k, Exists (λ r : run, r.1.1 = false ∧ page_in ps k r.1.2 r.2) (iter_runs m) ↔
    page_in ps k 0 (length v) ∧ Forall (λ i, v !! i = Some false) (seq (k * ps) ps)).
  { intros k. rewrite Exists_exists, Forall_forall. unfold page_in. split.
    - intros (r & Hr & Hf & Hp).
      pose proof (tiles_length _ _ _ (rep_tiles _ _ Hm) r Hr) as Hl. split; [lia|].
      intros i Hi%elem_of_seq.
      pose proof (tiles_value 0 _ _ i r (rep_tiles _ _ Hm) Hr ltac:(lia) false Hf) as Hv.
      by rewrite Nat.sub_0_r in Hv.
    - intros [Hp Hf]. destruct (false_run m v (k * ps) ((k + 1) * ps) Hm) as (r & ? & ? & ? & ?); [nia| |].
      + intros i Hi. apply Hf, elem_of_seq. nia.
      + exists r. auto. }
  case_decide as Hz.
  { assert (np = 0) as -> by lia. exists out. split_and!; [done..|]. intros k.
    rewrite bool_decide_eq_false_2 by lia. by rewrite orb_false_r. }
  destruct (page_bits_loop_spec ps np 0 _ _ out (rep_tiles _ _ Hm)) as (out1 & -> & Hl1 & H1); [|done..|].
  { apply Hm. }
  rewrite Nat.add_0_l. case_decide as Hc.
  - destruct (set_page_bits_spec (length v) total ps np out1 Hps ltac:(lia)) as (out' & -> & Hl' & H2).
    exists out'. split_and!; [done|congruence|]. intros k. rewrite H2, H1, <-orb_assoc. f_equal.
    solve_bits. rewrite Hruns. naive_solver.
  - exists out1. split_and!; [done..|]. intros k. rewrite H1. f_equal. apply bool_decide_ext.
    rewrite Hruns. unfold page_in at 3. split; [naive_solver|]. intros [Hk [?|[? ?]]]; [done|nia].
Qed.

(** ** Skipped rows *)

Definition overlap (s e : nat) (r : nat * nat) : nat := r.2 `min` e - r.1 `max` s.

Lemma length_filter_or {A} (P Q : A → Prop) `{∀ x, Decision (P x), ∀ x, Decision (Q x),
    ∀ x, Decision (P x ∨ Q x)} (l : list A) :
  (∀ x, x ∈ l → ¬ (P x ∧ Q x)) →
  length (filter (λ x, P x ∨ Q x) l) = length (filter P l) + length (filter Q l).
Proof.
  induction l as [|x l IH]; intros Hd; [done|]. rewrite !filter_cons.
  specialize (IH ltac:(set_solver)). pose proof (Hd x ltac:(by left)).
  repeat case_decide; simpl; rewrite ?IH; naive_solver lia.
Qed.

Lemma length_filter_range r s n :
  length (filter (λ i, in_range i r) (seq s n)) = overlap s (s + n) r.
Proof.
  unfold overlap. revert s. induction n as [|n IH]; intros s; [simpl; lia|].
  cbn [seq]. rewrite filter_cons. unfold in_range at 1. case_decide as Hc; simpl; rewrite IH; lia.
Qed.

(** The rows of [s..e] that apart ranges skip. *)
Lemma count_skipped s n ranges :
  apart ranges → Forall (λ r, r.1 < r.2) ranges →
  length (filter (λ i, Exists (in_range i) ranges) (seq s n)) = sum_list (overlap s (s + n) <$> ranges).
Proof.
  induction 1 as [|r ranges Ha IH Hf]; intros Hne.
  { rewrite filter_none; [done|]. apply Forall_forall. by intros x _ ?%Exists_nil. }
  apply Forall_cons in Hne as [Hr Hne]. csimpl. rewrite <-IH, <-length_filter_range by done.
  rewrite <-(length_filter_or (λ i, in_range i r) (λ i, Exists (in_range i) ranges)).
  - f_equal. apply list_filter_iff. intros i. apply Exists_cons.
  - intros i _ [Hi Hex]. apply Exists_exists in Hex as (r' & Hr' & Hi').
    rewrite Forall_forall in Hf. specialize (Hf r' Hr'). unfold in_range in *. lia.
Qed.

Lemma skip_loop_spec s e ranges k :
  apart ranges → Forall (λ r, r.1 < r.2) ranges → small (k + sum_list (overlap s e <$> ranges)) →
  ∃ ranges', skip_loop s e ranges k = (k + sum_list (overlap s e <$> ranges), ranges') ∧
    apart ranges' ∧ Forall (λ r, r.1 < r.2) ranges' ∧
    ∀ i, e ≤ i → Exists (in_range i) ranges' ↔ Exists (in_range i) ranges.
Proof.
  intros Ha. revert k. induction Ha as [|[rs re] ranges Ha IH Hf]; intros k Hne Hs.
  { exists []. split_and!; [simpl; f_equal; lia|constructor|done|done]. }
  pose proof Hne as [Hr Hne']%Forall_cons. simpl in Hr. rewrite Forall_forall in Hf. simpl in Hf.
  assert (Hrest : e ≤ re → sum_list (overlap s e <$> ranges) = 0).
  { intros He. clear -He Hf Hne'. induction ranges as [|r ranges IH]; [done|]. csimpl.
    rewrite IH; [|set_solver|by apply Forall_cons in Hne' as [_ ?]].
    specialize (Hf r ltac:(by left)). unfold overlap. lia. }
  cbn [skip_loop]. csimpl in Hs. csimpl. case_decide as Hers.
  { exists ((rs, re) :: ranges). rewrite Hrest by lia. unfold overlap; simpl.
    split_and!; [f_equal; lia|by constructor; [|rewrite Forall_forall]|done|done]. }
  assert (Hsk : (if decide (rs `max` s < re `min` e) then wrap32 (k + (re `min` e - rs `max` s)) else k) =
    k + overlap s e (rs, re)).
  { unfold overlap in *; simpl in *. case_decide; [|lia]. apply wrap32_small.
    eapply small_le; [|exact Hs]. lia. }
  rewrite Hsk. clear Hsk. destruct (decide (re ≤ e)) as [Hre|Hre].
  - destruct (IH (k + overlap s e (rs, re)) Hne') as (ranges' & -> & H1 & H2 & H3).
    { eapply small_le; [|exact Hs]. lia. }
    exists ranges'. split_and!; [f_equal; lia|done|done|]. intros i Hi. rewrite H3, Exists_cons by done.
    unfold in_range at 2; simpl. split; [by right|]. intros [?|?]; [lia|done].
  - exists ((rs, re) :: ranges). rewrite Hrest by lia.
    split_and!; [f_equal; lia|by constructor; [|rewrite Forall_forall]|done|done].
Qed.

(** The rows from [p] on that no range skips. *)
Definition kept (ranges : list (nat * nat)) (p : nat) (v : list bool) : list bool :=
  snd <$> filter (λ x : nat * bool, ¬ Exists (in_range x.1) ranges) (imap (λ i b, (p + i, b)) v).

Lemma kept_app ranges p v w : kept ranges p (v ++ w) = kept ranges p v ++ kept ranges (p + length v) w.
Proof.
  unfold kept. rewrite imap_app, filter_app, fmap_app. do 3 f_equal. apply imap_ext.
  intros i b _. simpl. f_equal. lia.
Qed.

Lemma kept_cons ranges p b v :
  kept ranges p (b :: v) =
  if decide (Exists (in_range p) ranges) then kept ranges (S p) v else b :: kept ranges (S p) v.
Proof.
  change (b :: v) with ([b] ++ v). rewrite kept_app. simpl. rewrite Nat.add_1_r.
  unfold kept at 1. simpl. rewrite Nat.add_0_r. case_decide as Hp.
  - rewrite filter_cons_False by (intros Hn; by apply Hn). done.
  - by rewrite filter_cons_True.
Qed.

Lemma kept_replicate ranges p n b :
  kept ranges p (replicate n b) =
  replicate (n - length (filter (λ i, Exists (in_range i) ranges) (seq p n))) b.
Proof.
  revert p. induction n as [|n IH]; intros p; [done|]. cbn [replicate seq].
  rewrite kept_cons, filter_cons, IH.
  pose proof (length_filter (λ i, Exists (in_range i) ranges) (seq (S p) n)) as Hlen. rewrite length_seq in Hlen.
  destruct (decide _) as [Hp|Hp]; [done|]. by rewrite Nat.sub_succ_l by lia.
Qed.

Lemma kept_ext ranges ranges' p v :
  (∀ i, p ≤ i → Exists (in_range i) ranges' ↔ Exists (in_range i) ranges) →
  kept ranges' p v = kept ranges p v.
Proof.
  intros Hx. unfold kept. f_equal. apply filter_ext_elem. intros [i b] Hi.
  apply elem_of_lookup_imap in Hi as (j & b' & [= -> ->] & _). simpl. rewrite Hx by lia. done.
Qed.

Lemma skip_runs_loop_spec out p rs l ranges : ∀ enc w ranges' total,
  tiles p rs l → small (p + length l) → apart ranges' → Forall (λ r, r.1 < r.2) ranges' →
  (∀ i, p ≤ i → Exists (in_range i) ranges' ↔ Exists (in_range i) ranges) →
  encodes enc w → small (length w + length l) → total = length w →
  ∃ ranges'' enc' last',
    skip_runs_loop rs (mkSkip (out ++ enc) (if decide (enc = []) then None else Some (last_run_is_true enc))
      total ranges') =
      Some (mkSkip (out ++ enc') last' (length (w ++ kept ranges p l)) ranges'') ∧
    encodes enc' (w ++ kept ranges p l).
Proof.
  intros enc w ranges' total Ht. revert enc w ranges' total.
  induction Ht as [|p b n rs l Hn Ht IH]; intros enc w ranges' total Hp Ha Hne Hx He Hw ->.
  { eexists _, enc, _. unfold kept. simpl. rewrite app_nil_r. done. }
  rewrite length_app, length_replicate in Hp, Hw.
  assert (Hext : ∀ i, p ≤ i → i < p + n → Exists (in_range i) ranges' ↔ Exists (in_range i) ranges) by auto.
  set (c := length (filter (λ i, Exists (in_range i) ranges') (seq p n))).
  assert (Hc : c = sum_list (overlap p (p + n) <$> ranges')) by by apply count_skipped.
  assert (Hcn : c ≤ n).
  { unfold c. rewrite <-(length_seq n p) at 2. apply length_filter. }
  assert (Hkept : kept ranges p (replicate n b ++ l) = replicate (n - c) b ++ kept ranges (p + n) l).
  { rewrite kept_app, length_replicate, <-(kept_ext ranges ranges' p) by done. by rewrite kept_replicate. }
  destruct (skip_loop_spec p (p + n) ranges' 0 Ha Hne) as (ranges1 & Hsl & Ha1 & Hne1 & Hx1).
  { rewrite <-Hc. eapply small_le; [|exact Hw]. lia. }
  rewrite Nat.add_0_l, <-Hc in Hsl.
  assert (Hx1' : ∀ i, p + n ≤ i → Exists (in_range i) ranges1 ↔ Exists (in_range i) ranges).
  { intros i Hi. rewrite Hx1 by done. apply Hx. lia. }
  cbn [skip_runs_loop skip_run sk_ranges sk_out sk_last sk_total].
  rewrite (wrap32_small p) by (eapply small_le; [|exact Hp]; lia).
  rewrite (wrap32_small (p + n)) by (eapply small_le; [|exact Hp]; lia).
  rewrite Hsl. rewrite decide_False by lia. replace (p + n - p) with n by lia. rewrite Hkept, app_assoc.
  case_decide as Hz.
  - replace (n - c) with 0 by lia. simpl. rewrite app_nil_r.
    apply IH; [eapply small_le; [|exact Hp]; lia|done..|eapply small_le; [|exact Hw]; lia|done].
  - assert (He1 : encodes (push_run enc b (n - c)) (w ++ replicate (n - c) b)).
    { apply push_run_encodes; [done|lia|]. eapply small_le; [|exact Hw]. lia. }
    assert (Hout : match (if decide (enc = []) then None else Some (last_run_is_true enc)) with
      | Some lv => if eqb lv b then bump_last (out ++ enc) (n - c) else (out ++ enc) ++ [n - c]
      | None => (if b then (out ++ enc) ++ [0] else out ++ enc) ++ [n - c]
      end = out ++ push_run enc b (n - c)).
    { unfold push_run. case_decide as Hnil.
      - subst. rewrite !app_nil_r. destruct b; [by rewrite <-app_assoc|done].
      - destruct (eqb (last_run_is_true enc) b); [|by rewrite app_assoc].
        destruct (exists_last Hnil) as (l' & x & ->). by rewrite app_assoc, !bump_last_snoc, app_assoc. }
    assert (Hlast : Some b = if decide (push_run enc b (n - c) = []) then None
      else Some (last_run_is_true (push_run enc b (n - c)))).
    { rewrite decide_False by by apply push_run_ne. by rewrite push_run_last. }
    rewrite Hout, Hlast. rewrite wrap32_small by (eapply small_le; [|exact Hw]; lia).
    apply IH; [eapply small_le; [|exact Hp]; lia|done..| |by rewrite length_app, length_replicate].
    rewrite length_app, length_replicate. eapply small_le; [|exact Hw]. lia.
Qed.

Lemma write_skipping_rep m v ranges out :
  rep m v → apart ranges → Forall (λ r, r.1 < r.2) ranges →
  ∃ enc, write_skipping m ranges out = Some (length (kept ranges 0 v), out ++ enc) ∧
    encodes enc (kept ranges 0 v).
Proof.
  intros Hm Ha Hne. pose proof (en_small _ _ (rp_encodes _ _ Hm)) as Hs. unfold write_skipping.
  destruct (skip_runs_loop_spec out 0 _ _ ranges [] [] ranges 0 (rep_tiles _ _ Hm) Hs Ha Hne)
    as (r' & enc & last' & H1 & H2); [done|apply encodes_nil|exact Hs|done|].
  rewrite app_nil_r in H1. simpl in H1. rewrite H1. by exists enc.
Qed.
End RunMaskPages.
