(* ===== verification/RunMaskBits.v ===== *)
(** The fast scan of a bit set: whatever it skips, the mask it builds has the
    bits of the words, one run per stretch of equal bits. *)
From S2P Require Import Prelude RunMask RunMaskSpec RunMaskWrite RunMaskPages.

Module RunMaskBits.
Import RunMask RunMaskSpec RunMaskPages.

(** ** The bits of a word, lowest first *)

Lemma bits_above w k i : (w < 2 ^ N.of_nat k)%N → k ≤ i → N.testbit w (N.of_nat i) = false.
Proof.
  intros Hw Hi. destruct (decide (w = 0%N)) as [->|Hz]; [by rewrite N.bits_0|].
  apply N.bits_above_log2. apply N.log2_lt_pow2; [lia|]. eapply N.lt_le_trans; [exact Hw|].
  apply N.pow_le_mono_r; lia.
Qed.

Definition ones_of (x : N) (n : nat) : list nat :=
  filter (λ i, N.testbit x (N.of_nat i) = true) (seq 0 n).

Lemma ones_of_zero n : ones_of 0 n = [].
Proof. unfold ones_of. apply filter_none. by apply Forall_true. Qed.

Lemma trailing_zeros_bit p : N.testbit (Npos p) (N.of_nat (trailing_zeros_pos p)) = true.
Proof.
  induction p as [p IH|p IH|]; [done| |done].
  cbn [trailing_zeros_pos]. rewrite Nat2N.inj_succ. change (N.pos p~0) with (2 * N.pos p)%N.
  by rewrite N.testbit_even_succ by lia.
Qed.

Lemma trailing_zeros_below p i : i < trailing_zeros_pos p → N.testbit (Npos p) (N.of_nat i) = false.
Proof.
  revert i. induction p as [p IH|p IH|]; intros i Hi; cbn [trailing_zeros_pos] in Hi; [lia| |lia].
  change (N.pos p~0) with (2 * N.pos p)%N. destruct i as [|i]; [by rewrite N.testbit_even_0|].
  rewrite Nat2N.inj_succ, N.testbit_even_succ by lia. apply IH. lia.
Qed.

(** [tr & (tr - 1)] loses the lowest bit and no other. *)
Lemma clear_lowest p i :
  N.testbit (N.land (Npos p) (Npos p - 1)) (N.of_nat i) =
  N.testbit (Npos p) (N.of_nat i) && negb (bool_decide (i = trailing_zeros_pos p)).
Proof.
  rewrite N.land_spec. revert i. induction p as [p IH|p IH|]; intros i; cbn [trailing_zeros_pos].
  - change (N.pos p~1 - 1)%N with (2 * N.pos p)%N. change (N.pos p~1) with (2 * N.pos p + 1)%N.
    destruct i as [|i]; [by rewrite N.testbit_even_0, andb_false_r|].
    rewrite Nat2N.inj_succ, N.testbit_even_succ, N.testbit_odd_succ by lia.
    by rewrite andb_diag, andb_true_r.
  - replace (N.pos p~0 - 1)%N with (2 * (N.pos p - 1) + 1)%N by lia.
    change (N.pos p~0) with (2 * N.pos p)%N. destruct i as [|i]; [by rewrite N.testbit_even_0|].
    rewrite Nat2N.inj_succ, N.testbit_even_succ, N.testbit_odd_succ by lia. rewrite IH.
    do 2 f_equal. apply bool_decide_ext. lia.
  - destruct i as [|i]; [done|]. rewrite Nat2N.inj_succ. change 1%N with (2 * 0 + 1)%N.
    by rewrite N.testbit_odd_succ, N.bits_0 by lia.
Qed.

Lemma ones_of_step p n :
  trailing_zeros_pos p < n →
  ones_of (Npos p) n = trailing_zeros_pos p :: ones_of (N.land (Npos p) (Npos p - 1)) n.
Proof.
  intros Ht. unfold ones_of. set (t := trailing_zeros_pos p) in *.
  replace n with (t + S (n - S t)) by lia. rewrite seq_app. cbn [seq Nat.add].
  rewrite !filter_app, !filter_cons.
  assert (Hlow : ∀ x, (∀ i, i < t → N.testbit x (N.of_nat i) = false) →
    filter (λ i, N.testbit x (N.of_nat i) = true) (seq 0 t) = []).
  { intros x Hx. apply filter_none, Forall_forall. intros i Hi%elem_of_seq. by rewrite Hx by lia. }
  rewrite !Hlow; [|intros i Hi; by rewrite clear_lowest, (trailing_zeros_below p i Hi)|
    intros i Hi; by apply trailing_zeros_below].
  rewrite decide_True by apply trailing_zeros_bit.
  rewrite decide_False by (rewrite clear_lowest, bool_decide_eq_true_2, andb_false_r; done).
  simpl. f_equal. apply filter_ext_elem. intros i Hi%elem_of_seq.
  rewrite clear_lowest, bool_decide_eq_false_2 by lia. by rewrite andb_true_r.
Qed.

Lemma trailing_zeros_bound p n :
  (∀ i, n ≤ i → N.testbit (Npos p) (N.of_nat i) = false) → trailing_zeros_pos p < n.
Proof.
  intros Hh. destruct (decide (trailing_zeros_pos p < n)); [done|].
  pose proof (trailing_zeros_bit p) as Hb. rewrite Hh in Hb by lia. done.
Qed.

(** A run ends at [i]. *)
Definition cut (st : list nat * nat) (i : nat) : list nat * nat := (st.1 ++ [i - st.2], i).

Lemma emit_ones f base tr n buffer prev :
  (∀ i, n ≤ i → N.testbit tr (N.of_nat i) = false) → length (ones_of tr n) ≤ f →
  emit f base tr buffer prev = foldl cut (buffer, prev) (Nat.add base <$> ones_of tr n).
Proof.
  revert tr buffer prev. induction f as [|f IH]; intros tr buffer prev Hh Hf; cbn [emit].
  { apply Nat.le_0_r, nil_length_inv in Hf. by rewrite Hf. }
  case_decide as Hz; [by rewrite Hz, ones_of_zero|].
  destruct tr as [|p]; [done|]. pose proof (trailing_zeros_bound p n Hh) as Ht.
  assert (Hn : ∀ i, n ≤ i → N.testbit (N.land (N.pos p) (N.pos p - 1)) (N.of_nat i) = false).
  { intros i Hi. by rewrite clear_lowest, Hh. }
  rewrite (ones_of_step p n Ht) in *. csimpl in *. apply IH; [done|lia].
Qed.

(** ** Scanning positions *)

Section scan.
Context (b : nat → bool).

(** The bit before [i]. *)
Definition bit_before (i : nat) : bool := match i with O => false | S i => b i end.

(** Position [i]: a run ends there when the bit changes. *)
Definition scan_at (st : list nat * nat) (i : nat) : list nat * nat :=
  if xorb (b i) (bit_before i) then cut st i else st.

Definition scan (p n : nat) (st : list nat * nat) : list nat * nat := foldl scan_at st (seq p n).

Lemma scan_add p n n' st : scan p (n + n') st = scan (p + n) n' (scan p n st).
Proof. unfold scan. by rewrite seq_app, foldl_app. Qed.

Lemma scan_filter p n st :
  scan p n st = foldl cut st (Nat.add p <$> filter (λ i, xorb (b (p + i)) (bit_before (p + i)) = true) (seq 0 n)).
Proof.
  unfold scan. replace (seq p n) with (Nat.add p <$> seq 0 n) by (rewrite fmap_add_seq; f_equal; lia).
  generalize (seq 0 n) as l. intros l. revert st. induction l as [|i l IH]; intros st; [done|].
  csimpl. rewrite IH, filter_cons. unfold scan_at at 1. by destruct (xorb _ _).
Qed.

(** A stretch of equal bits ends no run. *)
Lemma scan_flat v p n st :
  bit_before p = v → (∀ i, i < n → b (p + i) = v) → scan p n st = st ∧ bit_before (p + n) = v.
Proof.
  intros Hp Hv. split.
  - rewrite scan_filter, filter_none; [done|]. apply Forall_forall. intros i Hi%elem_of_seq.
    rewrite Hv by lia. destruct i as [|i]; [rewrite Nat.add_0_r, Hp; by destruct v|].
    rewrite Nat.add_succ_r. simpl. rewrite Hv by lia. by destruct v.
  - destruct n as [|n]; [by rewrite Nat.add_0_r|]. rewrite Nat.add_succ_r. apply Hv. lia.
Qed.

(** The words that hold the bits from [p] on. *)
Definition word_at (p n : nat) (w : N) : Prop := ∀ i, i < n → N.testbit w (N.of_nat i) = b (p + i).

Lemma emit_scan f p n tr st :
  n ≤ f → (∀ i, i < n → N.testbit tr (N.of_nat i) = xorb (b (p + i)) (bit_before (p + i))) →
  (∀ i, n ≤ i → N.testbit tr (N.of_nat i) = false) →
  emit f p tr st.1 st.2 = scan p n st.
Proof.
  intros Hf Hlo Hhi. rewrite (emit_ones f p tr n); [|done|].
  - rewrite scan_filter. destruct st as [buf prev]. simpl. do 2 f_equal. apply filter_ext_elem.
    intros i Hi%elem_of_seq. by rewrite Hlo by lia.
  - unfold ones_of. etrans; [apply length_filter|]. by rewrite length_seq.
Qed.

(** Where each bit of a word differs from the one before it. *)
Lemma changes_testbit k w p n i :
  n ≤ k → word_at p n w → i < n →
  N.testbit (N.lxor w (N.lor (N.shiftl w 1 mod 2 ^ N.of_nat k) (N.b2n (bit_before p)))) (N.of_nat i) =
  xorb (b (p + i)) (bit_before (p + i)).
Proof.
  intros Hk Hw Hi. rewrite N.lxor_spec, N.lor_spec, N.mod_pow2_bits_low by lia.
  rewrite Hw by done. f_equal. destruct i as [|i].
  - rewrite N.shiftl_spec_low, Nat.add_0_r by lia. simpl orb. by rewrite N.b2n_bit0.
  - rewrite N.shiftl_spec_high' by lia. replace (N.of_nat (S i) - 1)%N with (N.of_nat i) by lia.
    rewrite Hw, Nat.add_succ_r by lia. cbn [bit_before].
    replace (N.testbit (N.b2n (bit_before p)) (N.of_nat (S i))) with false; [apply orb_false_r|].
    by destruct (bit_before p).
Qed.

Lemma changes_high k w v i :
  (w < 2 ^ N.of_nat k)%N → 0 < k → k ≤ i →
  N.testbit (N.lxor w (N.lor (N.shiftl w 1 mod 2 ^ N.of_nat k) (N.b2n v))) (N.of_nat i) = false.
Proof.
  intros Hw Hk Hi. rewrite N.lxor_spec, N.lor_spec, N.mod_pow2_bits_high by lia.
  rewrite (bits_above w k) by done. replace (N.testbit (N.b2n v) (N.of_nat i)) with false; [done|].
  destruct i as [|i]; [lia|]. by destruct v.
Qed.

(** The top bit carried to the next word. *)
Lemma top_bit k w p :
  (w < 2 ^ N.of_nat (S k))%N → word_at p (S k) w → N.shiftr w (N.of_nat k) = N.b2n (bit_before (p + S k)).
Proof.
  intros Hw Hb. rewrite Nat.add_succ_r. simpl. rewrite <-(Hb k) by lia. apply N.bits_inj. intros i.
  rewrite N.shiftr_spec by lia. destruct (decide (i = 0%N)) as [->|Hi].
  - rewrite N.add_0_l. by rewrite N.b2n_bit0.
  - replace (i + N.of_nat k)%N with (N.of_nat (N.to_nat i + k)) by lia.
    rewrite (bits_above w (S k)) by (done || lia). destruct (N.testbit w _), i; done.
Qed.

(** ** The words *)

(** Everything up to [p] is scanned. *)
Definition scanned (p : nat) (st : FillState) : Prop :=
  (fl_buffer st, fl_prev_pos st) = scan 0 p ([], 0) ∧ fl_prev_msb st = N.b2n (bit_before p).

Lemma scanned_loop (f : FillState → nat → FillState) d s n p st :
  (∀ k st, k < n → scanned (p + k * d) st → scanned (p + S k * d) (f st (s + k))) →
  scanned p st → scanned (p + n * d) (foldl f st (seq s n)).
Proof.
  revert s p st. induction n as [|n IH]; intros s p st Hf Hst; simpl; [by rewrite Nat.add_0_r|].
  replace (p + (d + n * d)) with (p + d + n * d) by lia. apply IH.
  - intros k st' Hk Hs. replace (p + d + S k * d) with (p + S (S k) * d) by lia.
    replace (S s + k) with (s + S k) by lia. apply Hf; [lia|].
    by replace (p + S k * d) with (p + d + k * d) by lia.
  - replace (p + d) with (p + 1 * d) by lia. replace s with (s + 0) at 1 by lia.
    apply Hf; [lia|]. by rewrite Nat.add_0_r.
Qed.

Lemma wide_step_scanned p w st :
  (w < 2 ^ 64)%N → word_at p 64 w → scanned p st → scanned (p + 64) (wide_step p w st).
Proof.
  intros Hw Hb [Hs Hm]. unfold wide_step. rewrite Hm. cbv zeta.
  set (tr := N.lxor w (N.lor (as_u64 (N.shiftl w 1)) (N.b2n (bit_before p)))).
  assert (He : emit 64 p tr (fl_buffer st) (fl_prev_pos st) = scan 0 (p + 64) ([], 0)).
  { rewrite scan_add, <-Hs. apply (emit_scan 64 p 64 tr (_, _)); [done|..].
    - intros i Hi. by apply (changes_testbit 64 w p 64).
    - intros i Hi. apply (changes_high 64); [done|lia|done]. }
  assert (Htop : N.shiftr w 63 = N.b2n (bit_before (p + 64))) by by apply (top_bit 63).
  case_decide as Hz.
  - split; [|done]. simpl. rewrite <-He, Hz. done.
  - rewrite He. destruct (scan 0 (p + 64) ([], 0)) eqn:Hsc. by split.
Qed.

(** A word of 32 bits, of which the first [n] count. *)
Lemma word_scan p n w st :
  (w < 2 ^ 32)%N → n ≤ 32 → word_at p n w → scanned p st →
  emit 32 p (let tr := N.lxor w (N.lor (as_u32 (N.shiftl w 1)) (fl_prev_msb st)) in
             if decide (n < 32) then N.land tr (low_bits n) else tr)
    (fl_buffer st) (fl_prev_pos st) = scan 0 (p + n) ([], 0).
Proof.
  intros Hw Hn Hb [Hs Hm]. rewrite Hm, scan_add, <-Hs. cbv zeta.
  apply (emit_scan 32 p n _ (fl_buffer st, fl_prev_pos st)); [done|..]; intros i Hi.
  - rewrite <-(changes_testbit 32 w p n i Hn Hb Hi). case_decide; [|done].
    by rewrite N.land_spec, low_bits_testbit, bool_decide_eq_true_2, andb_true_r by lia.
  - case_decide.
    + rewrite N.land_spec, low_bits_testbit, bool_decide_eq_false_2 by lia. apply andb_false_r.
    + apply (changes_high 32); [done|lia..].
Qed.

(** ** What a scan leaves *)

Record scan_ok (n : nat) (st : list nat * nat) : Prop := {
  so_prev : st.2 ≤ n ∧ (0 < n → st.2 < n);
  so_bits : decode false st.1 = b <$> seq 0 st.2;
  so_rest : ∀ i, st.2 ≤ i < n → b i = Nat.odd (length st.1);
  so_last : bit_before n = Nat.odd (length st.1);
  so_pos : Forall (λ k, 0 < k) (tail st.1);
  so_nil : n = 0 → st.1 = [];
}.

(** The bits up to [n], once the last run is closed there. *)
Lemma close_bits n st :
  scan_ok n st → decode false (st.1 ++ [n - st.2]) = b <$> seq 0 n.
Proof.
  intros [[Hp _] Hb Hr _ _ _]. rewrite decode_app, Hb. simpl. rewrite app_nil_r.
  replace n with (st.2 + (n - st.2)) at 2 by lia. rewrite seq_app, fmap_app. f_equal.
  apply list_eq_same_length with (n := n - st.2); [by rewrite ?length_fmap, ?length_seq, ?length_replicate..|].
  intros i x y Hi Hx Hy. apply lookup_replicate in Hx as [-> _].
  rewrite list_lookup_fmap, lookup_seq_lt in Hy by done. injection Hy as <-. symmetry. apply Hr. simpl. lia.
Qed.

Lemma scan_ok_step n st : scan_ok n st → scan_ok (S n) (scan_at st n).
Proof.
  intros Hs. pose proof Hs as [[Hp Hlt] Hb Hr Hl Hpos Hnil]. unfold scan_at, cut.
  destruct (xorb _ _) eqn:Hx.
  - assert (Hn : b n = negb (Nat.odd (length st.1))) by (rewrite Hl in Hx; by destruct (b n), (Nat.odd _)).
    assert (Ho : Nat.odd (length (st.1 ++ [n - st.2])) = b n).
    { rewrite Hn, length_app, Nat.add_1_r, Nat.odd_succ, <-Nat.negb_odd. done. }
    split; simpl; rewrite ?Ho; [lia|by apply close_bits| |done| |done].
    + intros i Hi. by replace i with n by lia.
    + destruct st.1 as [|k l] eqn:Hst; [constructor|]. simpl in *. rewrite Forall_app. split; [done|].
      constructor; [|done]. destruct (decide (n = 0)) as [Hz|]; [by specialize (Hnil Hz)|lia].
  - assert (Hn : b n = Nat.odd (length st.1)) by (rewrite Hl in Hx; by destruct (b n), (Nat.odd _)).
    split; simpl; [lia|done| |done|done|done].
    intros i Hi. destruct (decide (i = n)) as [->|]; [done|]. apply Hr. lia.
Qed.

Lemma scan_spec n : scan_ok n (scan 0 n ([], 0)).
Proof.
  induction n as [|n IH].
  - split; simpl; [lia|done|lia|done|constructor|done].
  - rewrite <-Nat.add_1_r, scan_add. apply scan_ok_step in IH. by rewrite Nat.add_1_r.
Qed.

Lemma close_encodes n st :
  scan_ok n st → 0 < n → small n → encodes (st.1 ++ [n - st.2]) (b <$> seq 0 n).
Proof.
  intros Hs Hn Hsm. pose proof (close_bits n st Hs) as Hb. destruct Hs as [[Hp Hlt] _ _ _ Hpos _].
  specialize (Hlt Hn). split; [done| |by rewrite length_fmap, length_seq].
  right. split.
  - destruct st.1; simpl in *; [constructor|]. apply Forall_app. split; [done|]. constructor; [lia|done].
  - rewrite sum_list_app. simpl. lia.
Qed.
End scan.

(** ** The words of a bit set *)

(** Bit [i] of a bit set of 32-bit words. *)
Definition word_bit (words : list N) (i : nat) : bool :=
  N.testbit (nth (i / 32) words 0%N) (N.of_nat (i mod 32)).

Definition words32 (words : list N) : Prop := Forall (λ w, (w < 2 ^ 32)%N) words.

Lemma nth_small words i : words32 words → (nth i words 0 < 2 ^ 32)%N.
Proof.
  intros Hw. destruct (decide (i < length words)) as [Hi|Hi].
  - unfold words32 in Hw. rewrite Forall_forall in Hw. apply Hw, list_elem_of_In. by apply nth_In.
  - rewrite nth_overflow by lia. lia.
Qed.

Lemma nth_word_at words i n : n ≤ 32 → word_at (word_bit words) (32 * i) n (nth i words 0%N).
Proof.
  intros Hn j Hj. unfold word_bit. replace ((32 * i + j) / 32) with i by (apply Nat.div_unique with j; lia).
  by replace ((32 * i + j) mod 32) with j by (apply Nat.mod_unique with i; lia).
Qed.

Lemma pair_at_testbit words i j :
  words32 words →
  N.testbit (pair_at words i) (N.of_nat j) = bool_decide (j < 64) && word_bit words (32 * i + j).
Proof.
  intros Hw. unfold pair_at, fuse. rewrite N.lor_spec.
  pose proof (bits_above (nth i words 0%N) 32 j (nth_small words i Hw)) as Hlo.
  pose proof (bits_above (nth (i + 1) words 0%N) 32 (j - 32) (nth_small words (i + 1) Hw)) as Hhi.
  destruct (decide (j < 32)) as [Hj|Hj].
  - rewrite N.shiftl_spec_low, orb_false_r, bool_decide_eq_true_2 by lia. simpl.
    by apply (nth_word_at words i 32).
  - rewrite Hlo, N.shiftl_spec_high' by lia. replace (N.of_nat j - 32)%N with (N.of_nat (j - 32)) by lia.
    simpl orb. case_bool_decide as Hb; [|apply Hhi; lia]. simpl.
    rewrite (nth_word_at words (i + 1) 32) by lia. f_equal. lia.
Qed.

Lemma pair_at_word words i : words32 words → word_at (word_bit words) (32 * i) 64 (pair_at words i).
Proof. intros Hw j Hj. by rewrite pair_at_testbit, bool_decide_eq_true_2. Qed.

Lemma bits_below w k : (∀ i, k ≤ i → N.testbit w (N.of_nat i) = false) → (w < 2 ^ N.of_nat k)%N.
Proof.
  intros Hh. replace w with (w mod 2 ^ N.of_nat k)%N; [apply N.mod_lt, N.pow_nonzero; lia|].
  apply N.bits_inj. intros i. rewrite <-(N2Nat.id i). destruct (decide (N.to_nat i < k)).
  - by rewrite N.mod_pow2_bits_low by lia.
  - by rewrite N.mod_pow2_bits_high, Hh by lia.
Qed.

Lemma pair_at_small words i : words32 words → (pair_at words i < 2 ^ 64)%N.
Proof.
  intros Hw. apply (bits_below _ 64). intros j Hj.
  by rewrite pair_at_testbit, bool_decide_eq_false_2 by (done || lia).
Qed.

(** ** Skipped batches *)

Lemma or_all_zero l x : foldr N.lor 0%N l = 0%N → x ∈ l → x = 0%N.
Proof.
  induction l as [|y l IH]; simpl; [by intros _ ?%elem_of_nil|].
  intros [-> Hl]%N.lor_eq_0_iff [->|Hx]%elem_of_cons; [done|by apply IH].
Qed.

Lemma and_all_ones l x i :
  i < 64 → foldr N.land max64 l = max64 → x ∈ l → N.testbit x (N.of_nat i) = true.
Proof.
  intros Hi Hl Hx. assert (Hb : N.testbit (foldr N.land max64 l) (N.of_nat i) = true)
    by (rewrite Hl; by apply max64_testbit).
  clear Hl. induction l as [|y l IH]; [by apply elem_of_nil in Hx|]. simpl in Hb.
  rewrite N.land_spec, andb_true_iff in Hb. destruct Hb as [Hy Hb].
  apply elem_of_cons in Hx as [->|Hx]; [done|by apply IH].
Qed.

Lemma batch_step_scanned words nr st :
  words32 words → scanned (word_bit words) (512 * nr) st →
  scanned (word_bit words) (512 * nr + 512) (batch_step words st nr).
Proof.
  intros Hw Hst. unfold batch_step.
  set (batch := (λ k, pair_at words (nr * 16 + 2 * k)) <$> seq 0 8).
  assert (Hin : ∀ i, i < 512 → ∃ x, x ∈ batch ∧
    word_bit words (512 * nr + i) = N.testbit x (N.of_nat (i mod 64))).
  { intros i Hi. pose proof (Nat.div_mod_eq i 64). pose proof (Nat.mod_upper_bound i 64 ltac:(lia)).
    exists (pair_at words (nr * 16 + 2 * (i / 64))). split.
    - apply list_elem_of_fmap. exists (i / 64). split; [done|]. apply elem_of_seq. lia.
    - rewrite (pair_at_word words _ Hw) by done. f_equal. lia. }
  assert (Hflat : ∀ v, bit_before (word_bit words) (512 * nr) = v →
    (∀ x i, x ∈ batch → i < 64 → N.testbit x (N.of_nat i) = v) →
    scanned (word_bit words) (512 * nr + 512) (mkFill (fl_buffer st) (fl_prev_pos st) (N.b2n v))).
  { intros v Hv Hx. destruct Hst as [Hs _].
    destruct (scan_flat (word_bit words) v (512 * nr) 512 (scan (word_bit words) 0 (512 * nr) ([], 0)) Hv) as [H1 H2].
    { intros i Hi. destruct (Hin i Hi) as (x & Hxb & ->). apply Hx; [done|]. by apply Nat.mod_upper_bound. }
    split; [|by rewrite H2]. rewrite scan_add, Nat.add_0_l, H1. apply Hs. }
  pose proof Hst as [_ Hm]. destruct (decide (_ ∧ _)) as [[Ho Hp]|Hn0].
  { rewrite Hm in Hp. destruct st as [buf prev msb]. simpl in *.
    rewrite Hm, Hp. apply (Hflat false); [by destruct (bit_before _ _)|].
    intros x i Hx _. by rewrite (or_all_zero batch x Ho Hx), N.bits_0. }
  clear Hn0. destruct (decide (_ ∧ _ ∧ _)) as [(Ho & Ha & Hp)|Hn1].
  { rewrite Hm in Hp. apply (Hflat true); [by destruct (bit_before _ _)|].
    intros x i Hx Hi. by apply (and_all_ones batch). }
  clear Hn1. replace 512 with (8 * 64) at 2 by lia.
  apply (scanned_loop (word_bit words) (λ st k, wide_step (nr * 512 + k * 64) (nth k batch 0%N) st)); [|done].
  intros k st' Hk Hst'. rewrite Nat.add_0_l. replace (nr * 512 + k * 64) with (512 * nr + k * 64) by lia.
  assert (Hnth : nth k batch 0%N = pair_at words (nr * 16 + 2 * k)).
  { do 8 (destruct k as [|k]; [done|]). lia. }
  rewrite Hnth. replace (512 * nr + S k * 64) with (512 * nr + k * 64 + 64) by lia.
  apply wide_step_scanned; [by apply pair_at_small| |done].
  replace (512 * nr + k * 64) with (32 * (nr * 16 + 2 * k)) by lia. by apply pair_at_word.
Qed.

(** ** The whole bit set *)

(** Words before the last one that is cut. *)
Lemma word_step_scanned words total i st :
  words32 words → i < total / 32 → scanned (word_bit words) (32 * i) st →
  scanned (word_bit words) (32 * i + 32) (word_step words total (div_ceil total 32) st i).
Proof.
  intros Hw Hi Hst. unfold word_step.
  assert (Hfull : bool_decide (i = div_ceil total 32 - 1) && negb (bool_decide (total mod 32 = 0)) = false).
  { apply andb_false_iff. destruct (decide (total mod 32 = 0)) as [Hz|Hz].
    - right. by rewrite bool_decide_eq_true_2.
    - left. apply bool_decide_eq_false. unfold div_ceil. pose proof (Nat.div_mod_eq total 32).
      assert ((total + 32 - 1) / 32 = total / 32 + 1) as ->; [|lia].
      symmetry. apply Nat.div_unique with (total mod 32 - 1); [|lia].
      pose proof (Nat.mod_upper_bound total 32 ltac:(lia)). lia. }
  rewrite Hfull. cbv zeta. rewrite !(decide_False (P := 32 < 32)) by lia.
  pose proof (nth_word_at words i 32 ltac:(done)) as Hat. pose proof (nth_small words i Hw) as Hs.
  pose proof (word_scan _ (32 * i) 32 _ st Hs ltac:(done) Hat Hst) as He. cbv zeta in He.
  rewrite !(decide_False (P := 32 < 32)) in He by lia. replace (i * 32) with (32 * i) by lia. rewrite He.
  destruct (scan _ _ _ _) eqn:Hsc. split; [done|]. by apply (top_bit (word_bit words) 31).
Qed.

(** The last one, cut to the bits there are. *)
Lemma last_step_scanned words total st :
  words32 words → total mod 32 ≠ 0 → scanned (word_bit words) (32 * (total / 32)) st →
  let st' := word_step words total (div_ceil total 32) st (total / 32) in
  (fl_buffer st', fl_prev_pos st') = scan (word_bit words) 0 total ([], 0).
Proof.
  intros Hw Hz Hst. unfold word_step. pose proof (Nat.div_mod_eq total 32) as Hdm.
  pose proof (Nat.mod_upper_bound total 32 ltac:(lia)) as Hub.
  assert (Hlast : bool_decide (total / 32 = div_ceil total 32 - 1) && negb (bool_decide (total mod 32 = 0)) = true).
  { apply andb_true_iff. rewrite negb_true_iff, bool_decide_eq_true, bool_decide_eq_false. split; [|done].
    unfold div_ceil. assert ((total + 32 - 1) / 32 = total / 32 + 1) as ->; [|lia].
    symmetry. apply Nat.div_unique with (total mod 32 - 1); lia. }
  rewrite Hlast. cbv zeta. rewrite !(decide_True (P := total mod 32 < 32)) by lia.
  set (w := N.land (nth (total / 32) words 0%N) (low_bits (total mod 32))).
  assert (Hat : word_at (word_bit words) (32 * (total / 32)) (total mod 32) w).
  { intros j Hj. unfold w. rewrite N.land_spec, low_bits_testbit, bool_decide_eq_true_2, andb_true_r by lia.
    apply (nth_word_at words _ 32); lia. }
  assert (Hs : (w < 2 ^ 32)%N).
  { apply (bits_below _ 32). intros j Hj. unfold w.
    by rewrite N.land_spec, (bits_above _ 32 j (nth_small words _ Hw)). }
  pose proof (word_scan _ (32 * (total / 32)) (total mod 32) w st Hs ltac:(lia) Hat Hst) as He. cbv zeta in He.
  rewrite (decide_True (P := total mod 32 < 32)) in He by lia.
  replace (total / 32 * 32) with (32 * (total / 32)) by lia. rewrite He, <-Hdm. by destruct (scan (word_bit words) 0 total ([], 0)).
Qed.

Lemma div_ceil_32 total :
  div_ceil total 32 = total / 32 + (if decide (total mod 32 = 0) then 0 else 1).
Proof.
  unfold div_ceil. pose proof (Nat.div_mod_eq total 32). pose proof (Nat.mod_upper_bound total 32 ltac:(lia)).
  symmetry. case_decide.
  - apply Nat.div_unique with 31; lia.
  - apply Nat.div_unique with (total mod 32 - 1); lia.
Qed.

Lemma word_bit_take words n i : i < 32 * n → word_bit (take n words) i = word_bit words i.
Proof.
  intros Hi. unfold word_bit. assert (i / 32 < n) by (apply Nat.Div0.div_lt_upper_bound; lia).
  by rewrite !nth_lookup, lookup_take_lt by done.
Qed.

Lemma words32_take words n : words32 words → words32 (take n words).
Proof. apply Forall_take. Qed.

(** Every position of the bit set is scanned, however the loops split it. *)
Lemma fill_scans words total :
  words32 words →
  let full := total / 32 in
  let batched := full / 16 * 16 in
  let num_words := div_ceil total 32 in
  let st := foldl (batch_step words) (mkFill [] 0 0) (seq 0 (batched / 16)) in
  let st := foldl (λ st p, wide_step (batched * 32 + p * 64) (pair_at words (batched + 2 * p)) st)
              st (seq 0 ((full - batched) / 2)) in
  let done_ := batched + (full - batched) / 2 * 2 in
  let st := foldl (word_step words total num_words) st (seq done_ (num_words - done_)) in
  (fl_buffer st, fl_prev_pos st) = scan (word_bit words) 0 total ([], 0).
Proof.
  intros Hw. cbv zeta. set (full := total / 32). set (nb := full / 16).
  rewrite Nat.div_mul by lia. set (np := (full - nb * 16) / 2).
  pose proof (Nat.div_mod_eq total 32) as Hdm. fold full in Hdm.
  pose proof (Nat.div_mod_eq full 16) as Hdm16. fold nb in Hdm16.
  pose proof (Nat.div_mod_eq (full - nb * 16) 2) as Hdm2. fold np in Hdm2.
  set (st1 := foldl (batch_step words) _ _).
  assert (H1 : scanned (word_bit words) (0 + nb * 512) st1).
  { apply scanned_loop; [|done]. intros k st Hk Hst. replace (0 + S k * 512) with (512 * k + 512) by lia.
    rewrite (Nat.add_0_l k). apply batch_step_scanned; [done|]. replace (512 * k) with (0 + k * 512) by lia.
    exact Hst. }
  set (st2 := foldl _ st1 _).
  assert (H2 : scanned (word_bit words) (nb * 512 + np * 64) st2).
  { apply scanned_loop; [|done]. intros k st Hk Hst. rewrite Nat.add_0_l.
    replace (nb * 512 + S k * 64) with (nb * 16 * 32 + k * 64 + 64) by lia.
    apply wide_step_scanned; [by apply pair_at_small| |replace (nb * 16 * 32) with (nb * 512) by lia; exact Hst].
    replace (nb * 16 * 32 + k * 64) with (32 * (nb * 16 + 2 * k)) by lia. by apply pair_at_word. }
  clearbody st1 st2. clear H1 st1. set (u := nb * 16 + np * 2).
  assert (Hu : u ≤ full) by (unfold u; lia). replace (nb * 512 + np * 64) with (32 * u) in H2 by lia.
  assert (H3 : scanned (word_bit words) (32 * full)
    (foldl (word_step words total (div_ceil total 32)) st2 (seq u (full - u)))).
  { replace (32 * full) with (32 * u + (full - u) * 32) by lia. apply scanned_loop; [|done].
    intros k st Hk Hst. replace (32 * u + S k * 32) with (32 * (u + k) + 32) by lia.
    apply word_step_scanned; [done|fold full; lia|]. by replace (32 * (u + k)) with (32 * u + k * 32) by lia. }
  replace (div_ceil total 32 - u) with ((full - u) + (if decide (total mod 32 = 0) then 0 else 1))
    by (rewrite div_ceil_32; fold full; lia).
  rewrite seq_app, foldl_app. replace (u + (full - u)) with full by lia. destruct (decide _) as [Hz|Hz].
  - rewrite Hz, Nat.add_0_r in Hdm. rewrite <-Hdm in H3. apply H3.
  - simpl. by apply last_step_scanned.
Qed.

(** The bits a bit set holds. *)
Definition bits_of (words : list N) (total : nat) : list bool := word_bit words <$> seq 0 total.

Lemma from_bitmask_rep words total :
  words32 words → small total → div_ceil total 32 ≤ length words →
  ∃ m, from_bitmask words total = Some m ∧ rep m (bits_of words total).
Proof.
  intros Hw Hs Hlen. unfold from_bitmask. destruct (decide (total = 0)) as [->|Hz].
  { exists (mkMask [] 0). split; [done|]. split; [apply encodes_nil|done]. }
  cbv zeta. destruct (decide (_ < _)) as [Hlt|_]; [lia|].
  pose proof (fill_scans (take (div_ceil total 32) words) total (words32_take _ _ Hw)) as Hf. cbv zeta in Hf.
  set (st := foldl (word_step _ _ _) _ _) in *. clearbody st.
  pose proof (scan_spec (word_bit (take (div_ceil total 32) words)) total) as Hok. rewrite <-Hf in Hok.
  pose proof (so_prev _ _ _ Hok) as [_ Hp]. simpl in Hp. specialize (Hp ltac:(lia)).
  rewrite wrap32_small by done. rewrite decide_True by lia. eexists. split; [done|].
  assert (Hbits : word_bit (take (div_ceil total 32) words) <$> seq 0 total = bits_of words total).
  { apply list_fmap_ext. intros i x Hi%lookup_seq. destruct Hi as [-> Hi]. apply word_bit_take.
    rewrite div_ceil_32. pose proof (Nat.div_mod_eq total 32).
    pose proof (Nat.mod_upper_bound total 32 ltac:(lia)). case_decide; lia. }
  split; [|by unfold bits_of; rewrite length_fmap, length_seq].
  rewrite <-Hbits. apply (close_encodes _ total (_, _) Hok); [lia|done].
Qed.

(** ** One bit of a bit set *)

Lemma get_bit_spec words i :
  get_bit words i = (λ w, N.testbit w (N.of_nat (i mod 32))) <$> words !! (i / 32).
Proof.
  unfold get_bit. destruct (words !! (i / 32)) as [w|]; [|done]. simpl. f_equal.
  rewrite <-(N.add_0_l (N.of_nat _)) at 2. rewrite <-N.shiftr_spec by lia.
  generalize (N.shiftr w (N.of_nat (i mod 32))) as x. intros x. change 1%N with (N.ones 1).
  rewrite N.land_ones. change (2 ^ 1)%N with 2%N. rewrite N.bit0_odd, <-N.bit0_eqb, N.bit0_odd.
  done.
Qed.

Lemma one_bit k i : N.testbit (N.shiftl 1 (N.of_nat k)) (N.of_nat i) = bool_decide (i = k).
Proof.
  rewrite N.shiftl_1_l. case_bool_decide as Hi; [subst; apply N.pow2_bits_true|].
  apply N.pow2_bits_false. lia.
Qed.

Lemma same_word i j : i / 32 = j / 32 → i mod 32 = j mod 32 → i = j.
Proof. pose proof (Nat.div_mod_eq i 32). pose proof (Nat.div_mod_eq j 32). lia. Qed.

(** Changing one word by [g] where [g] touches only bit [i mod 32]. *)
Lemma get_bit_insert words i w (g : N) (val : bool) j :
  words !! (i / 32) = Some w →
  (∀ k, k < 32 → N.testbit g (N.of_nat k) = if decide (k = i mod 32) then val else N.testbit w (N.of_nat k)) →
  get_bit (<[i / 32 := g]> words) j = if decide (j = i) then Some val else get_bit words j.
Proof.
  intros Hw Hg. rewrite !get_bit_spec. pose proof (Nat.mod_upper_bound j 32 ltac:(lia)).
  destruct (decide (j / 32 = i / 32)) as [Hq|Hq].
  - rewrite Hq, list_lookup_insert_eq, Hw by (by eapply lookup_lt_Some). simpl. rewrite Hg by done.
    destruct (decide (j = i)) as [->|Hj]; [by rewrite decide_True|].
    rewrite decide_False; [done|]. intros Hm. by apply Hj, same_word.
  - rewrite list_lookup_insert_ne by done. rewrite decide_False; [done|]. by intros ->.
Qed.

Lemma set_bit_get words i :
  match set_bit words i with
  | Some words' => ∀ j, get_bit words' j = if decide (j = i) then Some true else get_bit words j
  | None => length words ≤ i / 32
  end.
Proof.
  unfold set_bit, or_word. destruct (words !! (i / 32)) as [w|] eqn:Hw; [|by apply lookup_ge_None_1].
  intros j. apply (get_bit_insert words i w); [done|]. intros k Hk. rewrite N.lor_spec, one_bit.
  case_decide; [by rewrite bool_decide_eq_true_2, orb_true_r|].
  by rewrite bool_decide_eq_false_2, orb_false_r.
Qed.

Lemma clear_bit_get words i :
  match clear_bit words i with
  | Some words' => ∀ j, get_bit words' j = if decide (j = i) then Some false else get_bit words j
  | None => length words ≤ i / 32
  end.
Proof.
  unfold clear_bit. destruct (words !! (i / 32)) as [w|] eqn:Hw; [|by apply lookup_ge_None_1].
  intros j. apply (get_bit_insert words i w); [done|]. intros k Hk.
  rewrite N.land_spec, N.lxor_spec, one_bit. change (2 ^ 32 - 1)%N with (N.ones 32).
  rewrite N.ones_spec_low by lia. case_decide; [by rewrite bool_decide_eq_true_2, andb_false_r|].
  by rewrite bool_decide_eq_false_2, andb_true_r.
Qed.
End RunMaskBits.
