(* ===== verification/RunMaskThm.v ===== *)
(** What token masks promise: they are lists of bits. Any history of edits is the
    matching history of list edits, equal bits are equal masks, and the queries,
    the page scan, the skipped rows and the fast reading of a bit set say what
    the list says. *)
From S2P Require Import Prelude RunMask RunMaskSpec RunMaskWrite RunMaskPages RunMaskBits.
From stdpp Require Import sorting.

Module RunMaskThm.
Import RunMask RunMaskSpec RunMaskWrite RunMaskPages RunMaskBits.

(** ** Histories of edits *)

Inductive edit : Type :=
  | Append (flag : bool)
  | Extend (bits : list bool)
  | Slice (start end_ : nat)
  | Remove (index : nat)
  | RemoveRange (start end_ : nat)
  | MaskRange (start end_ : nat) (flag : bool)
  | Mask (indices : list nat) (flag : bool).

Definition run_edit (m : RunMask) (e : edit) : option RunMask :=
  match e with
  | Append flag => Some (append m flag)
  | Extend bits => extend m (from_slice bits)
  | Slice s e => Some (slice m s e)
  | Remove i => remove m i
  | RemoveRange s e => remove_range m s e
  | MaskRange s e flag => mask_range m s e flag
  | Mask idx flag => mask m idx flag
  end.

Fixpoint run_edits (m : RunMask) (es : list edit) : option RunMask :=
  match es with
  | [] => Some m
  | e :: es => match run_edit m e with Some m => run_edits m es | None => None end
  end.

(** The same edits on a list of bits. *)
Definition bits_edit (v : list bool) (e : edit) : list bool :=
  match e with
  | Append flag => v ++ [flag]
  | Extend bits => v ++ bits
  | Slice s e => drop s (take e v)
  | Remove i => delete i v
  | RemoveRange s e => if decide (s < e) then take s v ++ drop e v else v
  | MaskRange s e flag => imap (λ i b, if decide (s ≤ i < e) then flag else b) v
  | Mask idx flag => imap (λ i b, if decide (i ∈ idx) then flag else b) v
  end.

(** No edit makes the mask longer than a [u32] counts. *)
Fixpoint fits (v : list bool) (es : list edit) : Prop :=
  match es with
  | [] => True
  | e :: es => small (length (bits_edit v e)) ∧ fits (bits_edit v e) es
  end.

(** No index it masks is the largest [usize]. *)
Definition counted (e : edit) : Prop := match e with Mask idx _ => Forall has_next idx | _ => True end.

Lemma run_edit_rep m v e :
  rep m v → small (length (bits_edit v e)) →
  match run_edit m e with Some m' => counted e ∧ rep m' (bits_edit v e) | None => ¬ counted e end.
Proof.
  intros Hm Hs. destruct e as [flag|bits|s e|i|s e|s e flag|idx flag]; simpl in *.
  - split; [done|]. apply append_rep; [done|]. by rewrite length_app in Hs.
  - rewrite length_app in Hs. destruct (extend_rep m (from_slice bits) v bits) as (m' & -> & ?); [done| |done|done].
    apply from_slice_rep. eapply small_le; [|exact Hs]. lia.
  - split; [done|]. by apply slice_rep.
  - by destruct (remove_rep m v i Hm) as (m' & -> & ?).
  - by destruct (remove_range_rep m v s e Hm) as (m' & -> & ?).
  - by destruct (mask_range_rep m v s e flag Hm) as (m' & -> & ?).
  - by apply mask_rep.
Qed.

Lemma rep_from_slice m v : rep m v → m = from_slice v.
Proof. intros Hm. eapply rep_fun; [exact Hm|]. apply from_slice_rep, Hm. Qed.

(** C35. A history of edits on a mask panics exactly when it masks the largest [usize], whose
    next overflows; otherwise it leaves the bits that the same history leaves of the list of
    the mask's bits, and the very mask that is made of them. *)
Theorem mask_history m v es :
  rep m v → fits v es →
  match run_edits m es with
  | Some m' => Forall counted es ∧ to_vec m' = foldl bits_edit v es ∧ m' = from_slice (foldl bits_edit v es) ∧
      len m' = length (foldl bits_edit v es) ∧ is_empty m' = bool_decide (foldl bits_edit v es = [])
  | None => ¬ Forall counted es
  end.
Proof.
  revert m v. induction es as [|e es IH]; intros m v Hm Hf; simpl in *.
  - rewrite (to_vec_rep _ _ Hm). split_and!; [done|done|by apply rep_from_slice|apply (rp_len _ _ Hm)|].
    unfold is_empty. rewrite (rp_len _ _ Hm). apply bool_decide_ext. by destruct v.
  - destruct Hf as [Hs Hf]. pose proof (run_edit_rep m v e Hm Hs) as He.
    pose proof (Forall_cons counted e es) as Hall.
    destruct (run_edit m e) as [m1|]; [|tauto]. destruct He as [Hc H1]. specialize (IH m1 _ H1 Hf).
    destruct (run_edits m1 es); tauto.
Qed.

Lemma from_vec_bits b : to_vec (from_vec b) = decode false b.
Proof. eapply tiles_bits. apply (runs_from_tiles 0). Qed.

(** C36. A mask holds the bits it was made of, whatever their runs, and it is the only mask
    of these bits whose runs are canonical, of which none is empty but perhaps the first; a
    mask of other runs, which [from_vec] takes as they are, may hold the same bits, and is
    this one exactly when its runs are canonical. *)
Theorem mask_roundtrip v :
  small (length v) →
  to_vec (from_slice v) = v ∧ len (from_slice v) = length v ∧ canonical (buffer (from_slice v)) ∧
  (∀ m, rep m v → m = from_slice v) ∧ rep (from_slice v) v ∧
  (∀ b, to_vec (from_vec b) = v → len (from_vec b) = length v ∧ (from_vec b = from_slice v ↔ canonical b)) ∧
  new (length v) = from_slice (replicate (length v) false) ∧
  all_true (length v) = from_slice (replicate (length v) true).
Proof.
  intros Hs. pose proof (from_slice_rep v Hs) as Hr.
  split_and!; [by apply to_vec_rep|apply (rp_len _ _ Hr)|apply Hr|intros m; apply rep_from_slice|done|..].
  - intros b Hb. rewrite from_vec_bits in Hb. assert (sum_list b = length v) as Hl by by rewrite <-Hb, length_decode.
    split; [done|]. split; intros Hc.
    + pose proof (en_canonical _ _ (rp_encodes _ _ Hr)) as H. by rewrite <-Hc in H.
    + apply rep_from_slice. by repeat split.
  - by apply rep_from_slice, new_rep.
  - by apply rep_from_slice, all_true_rep.
Qed.

(** The queries answer what the bits say: the values at any positions asked
    for in any order, a panic exactly when one is out of range, and whether a
    range holds one value throughout. *)
Theorem mask_queries m v indices s e x :
  rep m v →
  is_masked m indices = mapM (λ i, v !! i) indices ∧
  is_range_all_value m s e x =
    bool_decide (e ≤ s ∨ e ≤ length v ∧ Forall (λ b, b = x) (drop s (take e v))).
Proof. intros Hm. split; [by apply is_masked_rep|by apply is_range_all_value_rep]. Qed.

(** The page scan sets the bit of exactly the pages a pass may drop: those
    within the mask whose positions are all unset, and those wholly past it. The
    bits already set stay, and a bit set with room for the pages never panics. *)
Theorem mask_droppable_pages m v page_size num_pages total out :
  rep m v → 0 < page_size → num_pages ≤ 64 * length out →
  ∃ out', droppable_page_bits m page_size num_pages total out = Some out' ∧
    length out' = length out ∧
    ∀ k, page_bit out' k = page_bit out k || bool_decide (k < num_pages ∧
      ((page_in page_size k 0 (length v) ∧
        Forall (λ i, v !! i = Some false) (seq (k * page_size) page_size)) ∨
       page_in page_size k (length v) total)).
Proof. intros Hm Hps Hnp. by apply droppable_rep. Qed.

(** Writing a mask without some rows appends the runs of the bits that are
    left, the very runs a mask of those bits has, and returns their count. *)
Theorem mask_write_skipping m v ranges out :
  rep m v → apart ranges → Forall (λ r, r.1 < r.2) ranges →
  write_skipping m ranges out =
    Some (length (kept ranges 0 v), out ++ buffer (from_slice (kept ranges 0 v))).
Proof.
  intros Hm Ha Hne. destruct (write_skipping_rep m v ranges out Hm Ha Hne) as (enc & -> & He).
  do 2 f_equal. f_equal. eapply encodes_fun; [exact He|]. apply from_slice_rep. apply He.
Qed.

(** Reading a bit set, with its skipped batches, its 64-bit words and its cut
    last word, gives the mask that one bit at a time gives; a bit set shorter
    than the size asked for panics. *)
Theorem mask_from_bitmask words total :
  words32 words → small total →
  from_bitmask words total =
    if decide (div_ceil total 32 ≤ length words) then Some (from_slice (bits_of words total)) else None.
Proof.
  intros Hw Hs. destruct (decide _) as [Hl|Hl].
  - destruct (from_bitmask_rep words total Hw Hs Hl) as (m & -> & Hm). f_equal.
    eapply rep_fun; [exact Hm|]. apply from_slice_rep. unfold bits_of.
    by rewrite length_fmap, length_seq.
  - unfold from_bitmask. destruct (decide (total = 0)) as [->|Hz]; [simpl in Hl; lia|].
    cbv zeta. by rewrite decide_True by lia.
Qed.

(** Setting or clearing a bit of a bit set changes that bit and no other; it
    panics exactly when the word is not there; a cleared bit set has no bit. *)
Theorem bitmask_bits words i :
  match set_bit words i with
  | Some words' => ∀ j, get_bit words' j = if decide (j = i) then Some true else get_bit words j
  | None => length words ≤ i / 32
  end ∧
  match clear_bit words i with
  | Some words' => ∀ j, get_bit words' j = if decide (j = i) then Some false else get_bit words j
  | None => length words ≤ i / 32
  end ∧
  (∀ j, get_bit (clear_bitmask words) j = (λ _, false) <$> words !! (j / 32)).
Proof.
  split_and!; [apply set_bit_get|apply clear_bit_get|]. intros j. rewrite get_bit_spec.
  unfold clear_bitmask. rewrite list_lookup_fmap. by destruct (words !! (j / 32)).
Qed.

(** ** Instances *)

Definition sample_bits : list bool := [true; true; false; false; false; false; true].
Definition sample_mask : RunMask := from_slice sample_bits.
Definition sample_edits : list edit :=
  [Append true; Extend [false; true; true]; MaskRange 1 4 true; Mask [9; 0; 2; 0] false;
   Remove 3; RemoveRange 5 8; Slice 1 6].

Lemma sample_rep : rep sample_mask sample_bits.
Proof. apply from_slice_rep. reflexivity. Qed.

Lemma mask_history_witness :
  ∃ m', run_edits sample_mask sample_edits = Some m' ∧ to_vec m' = [true; false; false; false; false].
Proof.
  pose proof (mask_history sample_mask sample_bits sample_edits sample_rep ltac:(vm_compute; tauto)) as H.
  destruct (run_edits sample_mask sample_edits) as [m'|].
  - exists m'. destruct H as (_ & H & _). by rewrite H.
  - destruct H. repeat constructor.
Defined.

(** The bits of three runs and of one: the first have an empty run among them. *)
Lemma mask_roundtrip_witness :
  to_vec (from_slice [false; false]) = [false; false] ∧ from_vec [2] = from_slice [false; false] ∧
  to_vec (from_vec [1; 0; 1]) = [false; false] ∧ ¬ canonical [1; 0; 1] ∧ from_vec [1; 0; 1] ≠ from_slice [false; false].
Proof.
  destruct (mask_roundtrip [false; false] ltac:(done)) as (H1 & _ & _ & _ & _ & H2 & _).
  assert (¬ canonical [1; 0; 1]) as Hn.
  { intros [?|[Hf _]]; [done|]. apply Forall_cons in Hf as [? _]. lia. }
  split; [exact H1|]. split; [|split; [done|split; [exact Hn|]]].
  - apply (H2 [2]); [done|]. right. split; [constructor|simpl; lia].
  - intros H. by apply Hn, (H2 [1; 0; 1]).
Defined.

Lemma mask_queries_witness :
  is_masked sample_mask [6; 0; 3] = Some [true; true; false] ∧ is_range_all_value sample_mask 2 6 false = true.
Proof.
  destruct (mask_queries sample_mask sample_bits [6; 0; 3] 2 6 false sample_rep) as [-> ->].
  split; reflexivity.
Defined.

Lemma mask_droppable_pages_witness :
  ∃ out, droppable_page_bits sample_mask 2 6 12 [0%N] = Some out ∧ page_bit out 1 = true ∧ page_bit out 4 = true ∧
    page_bit out 3 = false.
Proof.
  destruct (mask_droppable_pages sample_mask sample_bits 2 6 12 [0%N] sample_rep) as (out & H1 & _ & H2);
    [lia|simpl; lia|].
  exists out. split; [exact H1|]. rewrite !H2. split_and!; reflexivity.
Defined.

Lemma mask_write_skipping_witness :
  write_skipping sample_mask [(1, 3); (5, 6)] [7] = Some (4, [7; 0; 1; 2; 1]).
Proof.
  rewrite (mask_write_skipping sample_mask sample_bits [(1, 3); (5, 6)] [7] sample_rep).
  - reflexivity.
  - repeat constructor; simpl; lia.
  - repeat constructor; simpl; lia.
Defined.

Lemma mask_from_bitmask_witness :
  from_bitmask [6%N; 2%N] 40 = Some (from_slice (bits_of [6%N; 2%N] 40)) ∧
  buffer <$> from_bitmask [6%N; 2%N] 40 = Some [1; 2; 30; 1; 6].
Proof.
  rewrite (mask_from_bitmask [6%N; 2%N] 40); [split; reflexivity| |reflexivity].
  repeat constructor.
Defined.
End RunMaskThm.
