(* ===== verification/CborFloat.v ===== *)
(** The floats of the container format (ztensor's [format/cbor.rs]): the code's
    conversions between half and single precision, and Rust's [as] casts
    between single and double, all on bit patterns. A pattern is a natural
    below 2^16, 2^32 or 2^64. *)
From S2P Require Import Prelude.

Module CborFloat.

#[local] Open Scope N_scope.

Lemma bool_eq_iff' (a b : bool) : (a = true ↔ b = true) → a = b.
Proof. destruct a, b; naive_solver. Qed.

(** ** Fields *)

Definition exp32 (b : N) : N := N.land (N.shiftr b 23) 0xff.
Definition man32 (b : N) : N := N.land b 0x007fffff.
Definition is_nan32 (b : N) : bool := (exp32 b =? 0xff) && negb (man32 b =? 0).

Definition exp64 (b : N) : N := N.land (N.shiftr b 52) 0x7ff.
Definition man64 (b : N) : N := N.land b (2 ^ 52 - 1).
Definition is_nan64 (b : N) : bool := (exp64 b =? 0x7ff) && negb (man64 b =? 0).

(** [==] on floats: no NaN equals anything and the two zeros are equal. *)
Definition feq32 (a b : N) : bool :=
  negb (is_nan32 a) && negb (is_nan32 b) &&
  ((a =? b) || ((N.land a 0x7fffffff =? 0) && (N.land b 0x7fffffff =? 0))).
Definition feq64 (a b : N) : bool :=
  negb (is_nan64 a) && negb (is_nan64 b) &&
  ((a =? b) || ((N.land a (2 ^ 63 - 1) =? 0) && (N.land b (2 ^ 63 - 1) =? 0))).

(** ** [f32 as f64]: exact; a NaN keeps its sign and payload *)

Definition f32_as_f64 (b : N) : N :=
  let sign := N.shiftl (N.shiftr b 31) 63 in
  let e := exp32 b in
  let m := man32 b in
  if e =? 0xff then sign + N.shiftl 0x7ff 52 + N.shiftl m 29
  else if e =? 0 then
    if m =? 0 then sign
    else
      let k := N.log2 m in
      sign + N.shiftl (k + 874) 52 + (N.shiftl m (52 - k) - 2 ^ 52)
  else sign + N.shiftl (e + 896) 52 + N.shiftl m 29.

(** ** [f64 as f32]: to the nearest, a tie to the even one *)

Definition round_even (m shift : N) : N :=
  let q := N.shiftr m shift in
  let r := N.land m (N.ones shift) in
  let half := N.shiftl 1 (shift - 1) in
  if (half <? r) || ((half =? r) && N.odd q) then q + 1 else q.

(** The bits below the sign: the rounded significand added to the exponent
    field carries into it, and what passes the largest finite one is infinite. *)
Definition f64_as_f32 (b : N) : N :=
  let sign := N.shiftl (N.shiftr b 63) 31 in
  let e := exp64 b in
  let m := man64 b in
  if e =? 0x7ff then sign + 0x7f800000 + (if m =? 0 then 0 else 0x400000)
  else
    let sig := if e =? 0 then m else m + 2 ^ 52 in
    let e' := N.max e 1 in
    let shift := N.max 29 (926 - e') in
    let bits := N.shiftl (shift + e' - 926) 23 + round_even sig shift in
    sign + N.min bits 0x7f800000.

(** ** The code's own conversions *)

Definition f32_to_f16_bits (b : N) : N :=
  let sign := N.land (N.shiftr b 16) 0x8000 in
  let exp := Z.of_N (exp32 b) in
  let man := man32 b in
  if (exp =? 0xff)%Z then N.lor (N.lor sign 0x7c00) (if negb (man =? 0) then 0x0200 else 0)
  else
    let e := (exp - 127 + 15)%Z in
    if (0x1f <=? e)%Z then N.lor sign 0x7c00
    else if (e <=? 0)%Z then
      if (e <? -10)%Z then sign
      else
        let man := N.lor man 0x00800000 in
        N.lor sign (N.shiftr man (Z.to_N (14 - e)))
    else N.lor (N.lor sign (N.shiftl (Z.to_N e) 10)) (N.shiftr man 13).

(** [while m & 0x400 == 0]: a significand of ten bits that is not zero is
    normal after at most ten steps. *)
Fixpoint normalise (f : nat) (e : Z) (m : N) : Z * N :=
  match f with
  | O => (e, m)
  | S f => if N.land m 0x400 =? 0 then normalise f (e - 1) (N.shiftl m 1) else (e, m)
  end.

Definition f16_bits_to_f32 (h : N) : N :=
  let sign := N.shiftl (N.land h 0x8000) 16 in
  let exp := N.land (N.shiftr h 10) 0x1f in
  let man := N.land h 0x03ff in
  if exp =? 0 then
    if man =? 0 then sign
    else
      let '(e, m) := normalise 10 (127 - 15 + 1) man in
      N.lor (N.lor sign (N.shiftl (Z.to_N e) 23)) (N.shiftl (N.land m 0x3ff) 13)
  else if exp =? 0x1f then N.lor (N.lor sign 0x7f800000) (N.shiftl man 13)
  else N.lor (N.lor sign (N.shiftl (exp + 127 - 15) 23)) (N.shiftl man 13).

(** ** The fields of a pattern *)

Lemma div_small_add a b d : b < d → (a * d + b) / d = a.
Proof. intros Hb. symmetry. apply N.div_unique with b; lia. Qed.

Lemma mod_small_add a b d : b < d → (a * d + b) mod d = b.
Proof. intros Hb. symmetry. apply N.mod_unique with a; lia. Qed.

Lemma fields32 s e m :
  s < 2 → e < 256 → m < 2 ^ 23 → let b := s * 2 ^ 31 + e * 2 ^ 23 + m in
  N.shiftr b 31 = s ∧ exp32 b = e ∧ man32 b = m.
Proof.
  intros Hs He Hm b. unfold exp32, man32.
  change 0xff with (N.ones 8). change 0x007fffff with (N.ones 23). rewrite !N.land_ones, !N.shiftr_div_pow2.
  assert (Hb : b = (s * 256 + e) * 2 ^ 23 + m) by (unfold b; lia).
  assert (Hb' : b = s * 2 ^ 31 + (e * 2 ^ 23 + m)) by (unfold b; lia). split_and!.
  - rewrite Hb'. apply div_small_add. lia.
  - rewrite Hb, div_small_add by done. change 256 with (2 ^ 8). by apply mod_small_add.
  - rewrite Hb. by apply mod_small_add.
Qed.

Lemma fields64 s e m :
  s < 2 → e < 2048 → m < 2 ^ 52 → let b := s * 2 ^ 63 + e * 2 ^ 52 + m in
  N.shiftr b 63 = s ∧ exp64 b = e ∧ man64 b = m.
Proof.
  intros Hs He Hm b. unfold exp64, man64.
  change 0x7ff with (N.ones 11). change (2 ^ 52 - 1) with (N.ones 52). rewrite !N.land_ones, !N.shiftr_div_pow2.
  assert (Hb : b = (s * 2048 + e) * 2 ^ 52 + m) by (unfold b; lia).
  assert (Hb' : b = s * 2 ^ 63 + (e * 2 ^ 52 + m)) by (unfold b; lia). split_and!.
  - rewrite Hb'. apply div_small_add. lia.
  - rewrite Hb, div_small_add by done. change 2048 with (2 ^ 11). by apply mod_small_add.
  - rewrite Hb. by apply mod_small_add.
Qed.

Lemma split32 b : b < 2 ^ 32 → ∃ s e m, s < 2 ∧ e < 256 ∧ m < 2 ^ 23 ∧ b = s * 2 ^ 31 + e * 2 ^ 23 + m.
Proof.
  intros Hb. exists (b / 2 ^ 23 / 256), (b / 2 ^ 23 mod 256), (b mod 2 ^ 23).
  pose proof (N.div_mod b (2 ^ 23) ltac:(done)). pose proof (N.mod_lt b (2 ^ 23) ltac:(done)).
  pose proof (N.div_mod (b / 2 ^ 23) 256 ltac:(done)). pose proof (N.mod_lt (b / 2 ^ 23) 256 ltac:(done)).
  set (s := b / 2 ^ 23 / 256) in *. set (e := (b / 2 ^ 23) mod 256) in *. set (m := b mod 2 ^ 23) in *.
  set (q := b / 2 ^ 23) in *. clearbody s e m q. change (2 ^ 23) with 8388608 in *.
  change (2 ^ 32) with 4294967296 in *. change (2 ^ 31) with 2147483648. lia.
Qed.

(** ** Widening loses nothing *)

Lemma log2_bounds m : 0 < m → 2 ^ N.log2 m ≤ m < 2 ^ (N.log2 m + 1).
Proof. intros Hm. rewrite N.add_1_r. by apply N.log2_spec. Qed.

(** The sign, exponent and significand of a widened pattern. *)
Lemma f32_as_f64_fields s e m :
  s < 2 → e < 256 → m < 2 ^ 23 →
  ∃ e' m', e' < 2048 ∧ m' < 2 ^ 52 ∧ f32_as_f64 (s * 2 ^ 31 + e * 2 ^ 23 + m) = s * 2 ^ 63 + e' * 2 ^ 52 + m' ∧
    ((e = 0xff ∧ e' = 0x7ff ∧ m' = m * 2 ^ 29) ∨
     (e = 0 ∧ m = 0 ∧ e' = 0 ∧ m' = 0) ∨
     (e = 0 ∧ m ≠ 0 ∧ e' = N.log2 m + 874 ∧ m' + 2 ^ 52 = m * 2 ^ (52 - N.log2 m)) ∨
     (e ≠ 0 ∧ e < 0xff ∧ e' = e + 896 ∧ m' = m * 2 ^ 29)).
Proof.
  intros Hs He Hm. destruct (fields32 s e m Hs He Hm) as (Hb1 & Hb2 & Hb3). unfold f32_as_f64.
  rewrite Hb1, Hb2, Hb3, !N.shiftl_mul_pow2. destruct (N.eqb_spec e 0xff) as [->|Hne].
  { exists 0x7ff, (m * 2 ^ 29). split_and!; [lia|lia|lia|by left]. }
  destruct (N.eqb_spec e 0) as [->|Hz].
  2: { exists (e + 896), (m * 2 ^ 29). split_and!; [lia|lia|lia|]. do 3 right. split_and!; [done|lia|done|done]. }
  destruct (N.eqb_spec m 0) as [->|Hmz].
  { exists 0, 0. split_and!; [lia|lia|lia|by right; left]. }
  pose proof (log2_bounds m ltac:(lia)) as [Hl1 Hl2].
  assert (Hk : N.log2 m < 23) by (apply N.log2_lt_pow2; [lia|done]).
  assert (Hp : 2 ^ N.log2 m * 2 ^ (52 - N.log2 m) = 2 ^ 52) by (rewrite <-N.pow_add_r; f_equal; lia).
  assert (Hp' : 2 ^ (N.log2 m + 1) * 2 ^ (52 - N.log2 m) = 2 ^ 53) by (rewrite <-N.pow_add_r; f_equal; lia).
  assert (0 < 2 ^ (52 - N.log2 m)) by (apply N.neq_0_lt_0, N.pow_nonzero; done).
  assert (Hm1 : 2 ^ 52 ≤ m * 2 ^ (52 - N.log2 m)) by (rewrite <-Hp; by apply N.mul_le_mono_r).
  assert (Hm2 : m * 2 ^ (52 - N.log2 m) < 2 ^ 53) by (rewrite <-Hp'; by apply N.mul_lt_mono_pos_r).
  exists (N.log2 m + 874), (m * 2 ^ (52 - N.log2 m) - 2 ^ 52).
  split_and!; [lia|lia|lia|]. right; right; left. split_and!; [done|done|done|lia].
Qed.

Lemma f32_as_f64_lt b : b < 2 ^ 32 → f32_as_f64 b < 2 ^ 64.
Proof.
  intros (s & e & m & Hs & He & Hm & ->)%split32.
  destruct (f32_as_f64_fields s e m Hs He Hm) as (e' & m' & H1 & H2 & -> & _). lia.
Qed.

Lemma is_nan32_fields s e m :
  s < 2 → e < 256 → m < 2 ^ 23 →
  is_nan32 (s * 2 ^ 31 + e * 2 ^ 23 + m) = (e =? 0xff) && negb (m =? 0).
Proof. intros Hs He Hm. unfold is_nan32. by destruct (fields32 s e m Hs He Hm) as (_ & -> & ->). Qed.

Lemma is_nan64_f32 b : b < 2 ^ 32 → is_nan64 (f32_as_f64 b) = is_nan32 b.
Proof.
  intros (s & e & m & Hs & He & Hm & ->)%split32. rewrite is_nan32_fields by done.
  destruct (f32_as_f64_fields s e m Hs He Hm) as (e' & m' & H1 & H2 & -> & Hc).
  unfold is_nan64. destruct (fields64 s e' m' Hs H1 H2) as (_ & -> & ->).
  pose proof (N.log2_lt_pow2 m 23) as Hk.
  apply bool_eq_iff'. rewrite !andb_true_iff, !negb_true_iff, !N.eqb_eq, !N.eqb_neq.
  destruct Hc as [(-> & -> & ->)|[(-> & -> & -> & ->)|[(-> & Hz & -> & _)|(Hz & Hlt & -> & ->)]]]; lia.
Qed.

Lemma round_even_exact m k : k ≠ 0 → round_even (m * 2 ^ k) k = m.
Proof.
  intros Hk. unfold round_even. rewrite N.shiftr_div_pow2, N.div_mul, N.land_ones by (by apply N.pow_nonzero).
  rewrite N.Div0.mod_mul. rewrite N.shiftl_1_l.
  assert (0 < 2 ^ (k - 1)) by (apply N.neq_0_lt_0, N.pow_nonzero; done).
  destruct (N.ltb_spec (2 ^ (k - 1)) 0); [lia|]. destruct (N.eqb_spec (2 ^ (k - 1)) 0); [lia|done].
Qed.

Lemma round_even_le m k q : k ≠ 0 → m < q * 2 ^ k → round_even m k ≤ q.
Proof.
  intros Hk Hm. unfold round_even. rewrite N.shiftr_div_pow2.
  assert (m / 2 ^ k < q) by (apply N.Div0.div_lt_upper_bound; lia). destruct (_ || _); lia.
Qed.

(** Narrowing a widened single gives it back. *)
Lemma f64_as_f32_as_f64 b : b < 2 ^ 32 → is_nan32 b = false → f64_as_f32 (f32_as_f64 b) = b.
Proof.
  intros (s & e & m & Hs & He & Hm & ->)%split32 Hn. rewrite is_nan32_fields in Hn by done.
  destruct (f32_as_f64_fields s e m Hs He Hm) as (e' & m' & H1 & H2 & -> & Hc).
  destruct (fields64 s e' m' Hs H1 H2) as (Hb1 & Hb2 & Hb3). unfold f64_as_f32.
  rewrite Hb1, Hb2, Hb3, !N.shiftl_mul_pow2.
  destruct Hc as [(-> & -> & ->)|[(-> & -> & -> & ->)|[(-> & Hz & -> & Hm')|(Hz & Hlt & -> & ->)]]].
  - simpl in Hn. destruct (N.eqb_spec m 0) as [->|]; [simpl; lia|done].
  - assert (s = 0 ∨ s = 1) as [-> | ->] by lia; reflexivity.
  - assert (Hk : N.log2 m < 23) by (apply N.log2_lt_pow2; [lia|done]).
    destruct (N.eqb_spec (N.log2 m + 874) 0x7ff); [lia|]. destruct (N.eqb_spec (N.log2 m + 874) 0); [lia|].
    rewrite Hm'. replace (N.max (N.log2 m + 874) 1) with (N.log2 m + 874) by lia.
    replace (N.max 29 (926 - (N.log2 m + 874))) with (52 - N.log2 m) by lia.
    rewrite round_even_exact by lia. replace (52 - N.log2 m + (N.log2 m + 874) - 926) with 0 by lia. lia.
  - destruct (N.eqb_spec (e + 896) 0x7ff); [lia|]. destruct (N.eqb_spec (e + 896) 0); [lia|].
    replace (N.max (e + 896) 1) with (e + 896) by lia. replace (N.max 29 (926 - (e + 896))) with 29 by lia.
    replace (m * 2 ^ 29 + 2 ^ 52) with ((m + 2 ^ 23) * 2 ^ 29) by lia. rewrite round_even_exact by done.
    replace (29 + (e + 896) - 926) with (e - 1) by lia. lia.
Qed.

Lemma shiftr_lt b n k : b < 2 ^ (n + k) → N.shiftr b n < 2 ^ k.
Proof.
  intros Hb. rewrite N.shiftr_div_pow2. apply N.Div0.div_lt_upper_bound. by rewrite <-N.pow_add_r.
Qed.

Lemma f64_as_f32_lt b : b < 2 ^ 64 → f64_as_f32 b < 2 ^ 32.
Proof.
  intros Hb. pose proof (shiftr_lt b 63 1 Hb) as Hs. unfold f64_as_f32. rewrite N.shiftl_mul_pow2.
  destruct (_ =? 0x7ff); [destruct (_ =? 0); lia|]. cbv zeta.
  pose proof (N.le_min_r (N.shiftl (N.max 29 (926 - N.max (exp64 b) 1) + N.max (exp64 b) 1 - 926) 23 +
    round_even (if exp64 b =? 0 then man64 b else man64 b + 2 ^ 52) (N.max 29 (926 - N.max (exp64 b) 1)))
    0x7f800000). lia.
Qed.

Lemma lor_lt a b n : a < 2 ^ n → b < 2 ^ n → N.lor a b < 2 ^ n.
Proof.
  intros Ha Hb. destruct (N.eq_dec (N.lor a b) 0) as [->|Hz]; [by apply N.neq_0_lt_0, N.pow_nonzero|].
  apply N.log2_lt_pow2; [lia|]. rewrite N.log2_lor.
  destruct (N.eq_dec a 0) as [->|]; destruct (N.eq_dec b 0) as [->|]; [done|..].
  - rewrite N.max_r by (apply N.le_0_l). apply N.log2_lt_pow2; [lia|done].
  - rewrite N.max_l by (apply N.le_0_l). apply N.log2_lt_pow2; [lia|done].
  - apply N.max_lub_lt; apply N.log2_lt_pow2; lia || done.
Qed.

Lemma land_ones_lt a n : N.land a (N.ones n) < 2 ^ n.
Proof. rewrite N.land_ones. apply N.mod_lt. by apply N.pow_nonzero. Qed.

Lemma f32_to_f16_bits_lt b : b < 2 ^ 32 → f32_to_f16_bits b < 2 ^ 16.
Proof.
  intros Hb. assert (Hsign : N.land (N.shiftr b 16) 0x8000 < 2 ^ 16).
  { destruct (N.eq_dec (N.land (N.shiftr b 16) 0x8000) 0) as [->|Hz]; [done|].
    apply N.log2_lt_pow2; [lia|]. eapply N.le_lt_trans; [apply N.log2_land|].
    eapply N.le_lt_trans; [apply N.le_min_r|]. done. }
  assert (Hman : man32 b < 2 ^ 23) by apply (land_ones_lt b 23). unfold f32_to_f16_bits. cbv zeta.
  destruct (Z.eqb_spec (Z.of_N (exp32 b)) 0xff) as [He|He].
  { apply lor_lt; [by apply lor_lt|]. by destruct (negb _). }
  destruct (Z.leb_spec 0x1f (Z.of_N (exp32 b) - 127 + 15)) as [Hb1|Hb1]; [by apply lor_lt|].
  destruct (Z.leb_spec (Z.of_N (exp32 b) - 127 + 15) 0) as [Hb2|Hb2].
  - destruct (Z.ltb_spec (Z.of_N (exp32 b) - 127 + 15) (-10)) as [Hb3|Hb3]; [done|].
    apply lor_lt; [done|]. rewrite N.shiftr_div_pow2. apply N.Div0.div_lt_upper_bound.
    eapply N.lt_le_trans; [by apply (lor_lt _ _ 24); [lia|]|]. rewrite <-N.pow_add_r.
    apply N.pow_le_mono_r; [done|lia].
  - apply lor_lt; [apply lor_lt; [done|]|].
    + rewrite N.shiftl_mul_pow2. lia.
    + eapply N.lt_trans; [by apply (shiftr_lt _ 13 10)|]. done.
Qed.

(** ** Casts that the code checks with [==] *)

Lemma mag_zero n b : b < 2 ^ (n + 1) → N.land b (N.ones n) = 0 → b = 0 ∨ b = 2 ^ n.
Proof.
  intros Hb Hl. rewrite N.land_ones in Hl. pose proof (N.div_mod b (2 ^ n) ltac:(by apply N.pow_nonzero)) as Hd.
  rewrite Hl, N.add_0_r in Hd. assert (Hq : b / 2 ^ n < 2).
  { apply N.Div0.div_lt_upper_bound. rewrite N.pow_add_r in Hb. done. }
  destruct (N.eq_dec (b / 2 ^ n) 0) as [Hz|Hz]; [left|right]; [by rewrite Hd, Hz, N.mul_0_r|].
  assert (b / 2 ^ n = 1) as H1 by lia. by rewrite H1, N.mul_1_r in Hd.
Qed.

Lemma feq64_inv a b : feq64 a b = true → b < 2 ^ 64 → is_nan64 a = false ∧ is_nan64 b = false ∧
  (a = b ∨ b = 0 ∨ b = 2 ^ 63).
Proof.
  unfold feq64. rewrite !andb_true_iff, orb_true_iff, andb_true_iff, !negb_true_iff, !N.eqb_eq.
  intros [[H1 H2] H3] Hb. split_and!; [done|done|]. destruct H3 as [->|[_ Hz]]; [by left|].
  right. by apply (mag_zero 63).
Qed.

Lemma feq32_inv a b : feq32 a b = true → b < 2 ^ 32 → is_nan32 a = false ∧ is_nan32 b = false ∧
  (a = b ∨ b = 0 ∨ b = 2 ^ 31).
Proof.
  unfold feq32. rewrite !andb_true_iff, orb_true_iff, andb_true_iff, !negb_true_iff, !N.eqb_eq.
  intros [[H1 H2] H3] Hb. split_and!; [done|done|]. destruct H3 as [->|[_ Hz]]; [by left|].
  right. by apply (mag_zero 31).
Qed.

Lemma feq64_refl a : is_nan64 a = false → feq64 a a = true.
Proof. intros Ha. unfold feq64. by rewrite Ha, N.eqb_refl. Qed.

Lemma feq32_refl a : is_nan32 a = false → feq32 a a = true.
Proof. intros Ha. unfold feq32. by rewrite Ha, N.eqb_refl. Qed.

Lemma single_exact x :
  x < 2 ^ 64 → feq64 (f32_as_f64 (f64_as_f32 x)) x = true → f32_as_f64 (f64_as_f32 x) = x.
Proof.
  intros Hx Hf. destruct (feq64_inv _ _ Hf Hx) as (_ & _ & [|[->| ->]]); [done|reflexivity..].
Qed.

Lemma half_exact y :
  y < 2 ^ 32 → feq32 (f16_bits_to_f32 (f32_to_f16_bits y)) y = true →
  f16_bits_to_f32 (f32_to_f16_bits y) = y.
Proof.
  intros Hy Hf. destruct (feq32_inv _ _ Hf Hy) as (_ & _ & [|[->| ->]]); [done|reflexivity..].
Qed.

(** ** Half precision, checked over every pattern *)

(** What the proofs need of each of the 65,536 patterns. *)
Definition half_ok (h : N) : bool :=
  let x := f16_bits_to_f32 h in
  (x <? 2 ^ 32) &&
  (is_nan32 x || (f32_to_f16_bits x =? h)).

(** [f] of every number whose bits are [n] bits after those of [x]. *)
Fixpoint all_bits (n : nat) (x : N) (f : N → bool) : bool :=
  match n with
  | O => f x
  | S n => all_bits n (N.double x) f && all_bits n (N.succ_double x) f
  end.

Lemma all_bits_spec n x f h :
  all_bits n x f = true → N.shiftr h (N.of_nat n) = x → f h = true.
Proof.
  revert x. induction n as [|n IH]; intros x Ha Hx; cbn [all_bits] in Ha.
  - by rewrite <-Hx in Ha.
  - apply andb_true_iff in Ha as [H0 H1]. rewrite Nat2N.inj_succ in Hx.
    pose proof (N.div2_odd (N.shiftr h (N.of_nat n))) as Hd.
    rewrite <-N.shiftr_succ_r, Hx in Hd. destruct (N.odd _); cbn [N.b2n] in Hd.
    + apply (IH _ H1). rewrite N.succ_double_spec. lia.
    + apply (IH _ H0). rewrite N.double_spec. lia.
Qed.

Lemma half_all : all_bits 16 0 half_ok = true.
Proof. vm_compute. reflexivity. Qed.

Lemma half_ok_all h : h < 2 ^ 16 → half_ok h = true.
Proof.
  intros Hh. apply (all_bits_spec 16 0); [apply half_all|].
  rewrite N.shiftr_div_pow2. by apply N.div_small.
Qed.

Lemma f16_bits_to_f32_lt h : h < 2 ^ 16 → f16_bits_to_f32 h < 2 ^ 32.
Proof. intros Hh. pose proof (half_ok_all h Hh) as Ho. apply andb_true_iff in Ho as [Ho _]. by apply N.ltb_lt. Qed.

Lemma f32_to_f16_to_f32 h :
  h < 2 ^ 16 → is_nan32 (f16_bits_to_f32 h) = false → f32_to_f16_bits (f16_bits_to_f32 h) = h.
Proof.
  intros Hh Hn. pose proof (half_ok_all h Hh) as Ho. apply andb_true_iff in Ho as [_ Ho].
  rewrite Hn in Ho. by apply N.eqb_eq.
Qed.
End CborFloat.
