(* ===== verification/Cbor.v ===== *)
(** The canonical encoding of the tensor container's manifest
    (ztensor's [format/cbor.rs]): values, their encoder, and the decoder that
    takes canonical input only. A byte is a natural below 256, a text the bytes
    of its UTF-8, a float its 64 bits. *)
From S2P Require Import Prelude CborFloat.
From stdpp Require Import sorting strings.

Module Cbor.
Import CborFloat.
#[local] Open Scope N_scope.

(** ** Errors ([error.rs]) *)

Inductive Rule : Set :=
  | FileTooSmall | HeaderMagic | FooterMagic | Version | ManifestBounds | ManifestTooLarge
  | ManifestHash | CborSyntax | CborDeterminism | CborDuplicateKey | CborDepth | Schema | RuleName
  | Shape | BlobAlignment | BlobBounds | BlobOverlap | ShardRef | ShardName | RuleType | LayoutRule
  | LayoutData | RuleSize | RuleEncoding | Digest | ShardIdentity | NameCollision.

#[export] Instance rule_eq_dec : EqDecision Rule.
Proof. solve_decision. Defined.

(** [Error] without the operating system's own errors, which nothing here
    makes. *)
Inductive Error : Set :=
  | Reject (rule : Rule) (detail : string)
  | NotFound (what : string)
  | Unsupported (what : string)
  | InvalidInput (what : string).

#[export] Instance error_eq_dec : EqDecision Error.
Proof. solve_decision. Defined.

Definition error_rule (e : Error) : option Rule :=
  match e with Reject rule _ => Some rule | _ => None end.

(** ** Values *)

Definition MAX_DEPTH : nat := 32.

#[local] Set Warnings "-register-all".

Inductive Value : Set :=
  | Uint (n : N)
  | Nint (n : N)
  | Bytes (b : list N)
  | Text (s : list N)
  | Array (items : list Value)
  | Map (entries : list (Value * Value))
  | Bool (b : bool)
  | Null
  | Float (x : N).

Definition as_text (v : Value) : option (list N) :=
  match v with Text s => Some s | _ => None end.
Definition as_map (v : Value) : option (list (Value * Value)) :=
  match v with Map m => Some m | _ => None end.

(** [Value::get]: the first entry of a map under a text key. *)
Definition get (v : Value) (key : list N) : option Value :=
  match as_map v with
  | Some m => snd <$> List.find (λ e, bool_decide (as_text e.1 = Some key)) m
  | None => None
  end.

(** [From<i64>]. *)
Definition from_i64 (n : Z) : Value :=
  if decide (n < 0)%Z then Nint (Z.to_N (-1 - n)) else Uint (Z.to_N n).

(** ** Bytes *)

(** [to_be_bytes] at a width of [k] bytes, and [from_be_bytes]. *)
Fixpoint be_bytes (k : nat) (x : N) : list N :=
  match k with
  | O => []
  | S k => N.land (N.shiftr x (8 * N.of_nat k)) 0xff :: be_bytes k x
  end.

Fixpoint from_be (acc : N) (l : list N) : N :=
  match l with [] => acc | b :: l => from_be (acc * 256 + b) l end.

(** [Ord] on byte slices. *)
Fixpoint bytes_cmp (a b : list N) : comparison :=
  match a, b with
  | [], [] => Eq
  | [], _ => Lt
  | _, [] => Gt
  | x :: a, y :: b => match x ?= y with Eq => bytes_cmp a b | c => c end
  end.

(** [std::str::from_utf8]: the well-formed sequences, shortest form, no
    surrogates, up to U+10FFFF. *)
Definition in_bytes (lo hi b : N) : bool := (lo <=? b) && (b <=? hi).
Definition cont (b : N) : bool := in_bytes 0x80 0xbf b.

Fixpoint utf8 (s : list N) : bool :=
  match s with
  | [] => true
  | b0 :: s1 =>
      if b0 <? 0x80 then utf8 s1
      else if in_bytes 0xc2 0xdf b0 then
        match s1 with b1 :: s2 => cont b1 && utf8 s2 | _ => false end
      else if in_bytes 0xe0 0xef b0 then
        match s1 with
        | b1 :: b2 :: s3 =>
            in_bytes (if b0 =? 0xe0 then 0xa0 else 0x80) (if b0 =? 0xed then 0x9f else 0xbf) b1 &&
            cont b2 && utf8 s3
        | _ => false
        end
      else if in_bytes 0xf0 0xf4 b0 then
        match s1 with
        | b1 :: b2 :: b3 :: s4 =>
            in_bytes (if b0 =? 0xf0 then 0x90 else 0x80) (if b0 =? 0xf4 then 0x8f else 0xbf) b1 &&
            cont b2 && cont b3 && utf8 s4
        | _ => false
        end
      else false
  end.

(** ** The encoder *)

Definition head (major arg : N) : list N :=
  let mt := N.shiftl major 5 in
  if arg <? 24 then [N.lor mt arg]
  else if arg <=? 0xff then [N.lor mt 24; arg]
  else if arg <=? 0xffff then N.lor mt 25 :: be_bytes 2 arg
  else if arg <=? 0xffffffff then N.lor mt 26 :: be_bytes 4 arg
  else N.lor mt 27 :: be_bytes 8 arg.

Definition encode_float (x : N) : list N :=
  if is_nan64 x then 0xf9 :: be_bytes 2 0x7e00
  else
    let as32 := f64_as_f32 x in
    if feq64 (f32_as_f64 as32) x then
      let h := f32_to_f16_bits as32 in
      if feq32 (f16_bits_to_f32 h) as32 then 0xf9 :: be_bytes 2 h
      else 0xfa :: be_bytes 4 as32
    else 0xfb :: be_bytes 8 x.

(** The sort of a map's entries, by the bytes of their keys. *)
Definition key_le (a b : list N * list N) : Prop := bytes_cmp a.1 b.1 ≠ Gt.

#[export] Instance key_le_dec a b : Decision (key_le a b).
Proof. unfold key_le. apply _. Defined.

(** [windows(2)]: two neighbours under one key. *)
Fixpoint has_duplicate (enc : list (list N * list N)) : bool :=
  match enc with
  | a :: enc' =>
      match enc' with b :: _ => bool_decide (a.1 = b.1) || has_duplicate enc' | [] => false end
  | [] => false
  end.

Definition obind {A B} (m : outcome Error A) (k : A → outcome Error B) : outcome Error B :=
  match m with Ok a => k a | Err e => Err e | Panic => Panic end.

(** The bytes [encode_into] appends. *)
Fixpoint encode_into (v : Value) (depth : nat) : outcome Error (list N) :=
  if decide (MAX_DEPTH < depth)%nat then Err (InvalidInput "CBOR nesting exceeds 32")
  else
    match v with
    | Uint n => Ok (head 0 n)
    | Nint n => Ok (head 1 n)
    | Bytes b => Ok (head 2 (N.of_nat (length b)) ++ b)
    | Text s => Ok (head 3 (N.of_nat (length s)) ++ s)
    | Array items =>
        obind ((fix go (items : list Value) : outcome Error (list N) :=
                  match items with
                  | [] => Ok []
                  | item :: items =>
                      obind (encode_into item (S depth)) (λ b, obind (go items) (λ r, Ok (b ++ r)))
                  end) items)
          (λ body, Ok (head 4 (N.of_nat (length items)) ++ body))
    | Map entries =>
        obind ((fix go (entries : list (Value * Value)) : outcome Error (list (list N * list N)) :=
                  match entries with
                  | [] => Ok []
                  | (k, val) :: entries =>
                      obind (encode_into k (S depth)) (λ kb,
                      obind (encode_into val (S depth)) (λ vb,
                      obind (go entries) (λ r, Ok ((kb, vb) :: r))))
                  end) entries)
          (λ enc,
             let enc := merge_sort key_le enc in
             if has_duplicate enc then Err (InvalidInput "duplicate map key")
             else Ok (head 5 (N.of_nat (length enc)) ++ concat ((λ e, e.1 ++ e.2) <$> enc)))
    | Bool b => Ok [if b then 0xf5 else 0xf4]
    | Null => Ok [0xf6]
    | Float x => Ok (encode_float x)
    end.

Definition encode (v : Value) : outcome Error (list N) := encode_into v 0.

(** ** The decoder *)

Section decoder.
Context (input : list N).

(** [Decoder]: the input and the position in it. *)
Abbreviation decoder := (method nat Error).

Definition reject {A} (rule : Rule) (detail : string) : decoder A := merr (Reject rule detail).

Definition remaining (pos : nat) : nat := (length input - pos)%nat.

Definition byte : decoder N :=
  pos ⇐ mget ;;
  match input !! pos with
  | Some b => mset (S pos) ;;; mok b
  | None => reject CborSyntax "unexpected end of input"
  end.

(** [&self.input[from..to]]. *)
Definition slice (from to : nat) : list N := take (to - from) (drop from input).

Definition take_bytes (n : nat) : decoder (list N) :=
  pos ⇐ mget ;;
  if decide (remaining pos < n)%nat then reject CborSyntax "unexpected end of input"
  else mset (pos + n)%nat ;;; mok (slice pos (pos + n)).

Definition shortest (least v : N) : decoder N :=
  if v <=? least then reject CborDeterminism "non-shortest head" else mok v.

Definition head_arg (ai : N) : decoder N :=
  if ai <=? 23 then mok ai
  else if ai =? 24 then
    v ⇐ byte ;; if v <? 24 then reject CborDeterminism "non-shortest head" else mok v
  else if ai =? 25 then b ⇐ take_bytes 2 ;; shortest 0xff (from_be 0 b)
  else if ai =? 26 then b ⇐ take_bytes 4 ;; shortest 0xffff (from_be 0 b)
  else if ai =? 27 then b ⇐ take_bytes 8 ;; shortest 0xffffffff (from_be 0 b)
  else reject CborSyntax "indefinite length or reserved head".

Definition checked_len (arg : N) (min_bytes : nat) : decoder nat :=
  pos ⇐ mget ;;
  if N.of_nat (remaining pos / min_bytes) <? arg then reject CborSyntax "declared length exceeds input"
  else mok (N.to_nat arg).

(** [for _ in 0..n { items.push(...) }]. *)
Fixpoint items_loop (value : decoder Value) (n : nat) : decoder (list Value) :=
  match n with
  | O => mok []
  | S n => item ⇐ value ;; items ⇐ items_loop value n ;; mok (item :: items)
  end.

Definition check_order (prev : option (nat * nat)) (ks ke : nat) : decoder unit :=
  match prev with
  | Some (ps, pe) =>
      match bytes_cmp (slice ps pe) (slice ks ke) with
      | Lt => mok tt
      | Eq => reject CborDuplicateKey "duplicate map key"
      | Gt => reject CborDeterminism "map keys not in canonical order"
      end
  | None => mok tt
  end.

Fixpoint entries_loop (value : decoder Value) (n : nat) (prev : option (nat * nat)) :
    decoder (list (Value * Value)) :=
  match n with
  | O => mok []
  | S n =>
      ks ⇐ mget ;;
      key ⇐ value ;;
      ke ⇐ mget ;;
      check_order prev ks ke ;;;
      val ⇐ value ;;
      entries ⇐ entries_loop value n (Some (ks, ke)) ;;
      mok ((key, val) :: entries)
  end.

(** Major type 7. *)
Definition simple (ai : N) : decoder Value :=
  if ai =? 20 then mok (Bool false)
  else if ai =? 21 then mok (Bool true)
  else if ai =? 22 then mok Null
  else if ai =? 25 then
    b ⇐ take_bytes 2 ;;
    let h := from_be 0 b in
    let x := f16_bits_to_f32 h in
    if is_nan32 x && negb (h =? 0x7e00) then reject CborDeterminism "non-canonical NaN"
    else mok (Float (f32_as_f64 x))
  else if ai =? 26 then
    b ⇐ take_bytes 4 ;;
    let x := from_be 0 b in
    if is_nan32 x then reject CborDeterminism "non-canonical NaN"
    else if feq32 (f16_bits_to_f32 (f32_to_f16_bits x)) x then reject CborDeterminism "float not shortest"
    else mok (Float (f32_as_f64 x))
  else if ai =? 27 then
    b ⇐ take_bytes 8 ;;
    let x := from_be 0 b in
    if is_nan64 x then reject CborDeterminism "non-canonical NaN"
    else if feq64 (f32_as_f64 (f64_as_f32 x)) x then reject CborDeterminism "float not shortest"
    else mok (Float x)
  else reject CborSyntax "unsupported simple value".

(** [value] with [levels] more levels allowed: at depth [d] that is
    [MAX_DEPTH + 1 - d], so running out is [depth > MAX_DEPTH]. *)
Fixpoint value (levels : nat) : decoder Value :=
  match levels with
  | O => reject CborDepth "nesting too deep"
  | S levels =>
      first ⇐ byte ;;
      let major := N.shiftr first 5 in
      let ai := N.land first 0x1f in
      if major =? 7 then simple ai
      else if major =? 6 then reject CborSyntax "tags are not permitted"
      else
        arg ⇐ head_arg ai ;;
        if major =? 0 then mok (Uint arg)
        else if major =? 1 then mok (Nint arg)
        else if major =? 2 then n ⇐ checked_len arg 1 ;; b ⇐ take_bytes n ;; mok (Bytes b)
        else if major =? 3 then
          n ⇐ checked_len arg 1 ;; s ⇐ take_bytes n ;;
          if utf8 s then mok (Text s) else reject CborSyntax "invalid UTF-8 in text"
        else if major =? 4 then
          n ⇐ checked_len arg 1 ;; items ⇐ items_loop (value levels) n ;; mok (Array items)
        else if major =? 5 then
          n ⇐ checked_len arg 2 ;; entries ⇐ entries_loop (value levels) n None ;; mok (Map entries)
        else mpanic
  end.

Definition decode_run : decoder Value :=
  v ⇐ value (S MAX_DEPTH) ;;
  pos ⇐ mget ;;
  if decide (pos ≠ length input) then reject CborSyntax "trailing bytes" else mok v.
End decoder.

Definition decode (input : list N) : outcome Error Value := fst (decode_run input 0%nat).
End Cbor.
