(* ===== verification/CborSpec.v ===== *)
(** Reading what the encoder wrote: each reader of the decoder against the bytes
    it takes, in both directions. *)
From S2P Require Import Prelude CborFloat Cbor.
From stdpp Require Import sorting strings.

Module CborSpec.
Import CborFloat Cbor.

Definition is_bytes (b : list N) : Prop := Forall (λ x, (x < 256)%N) b.

(** ** Big-endian numbers *)

Lemma length_be_bytes k x : length (be_bytes k x) = k.
Proof. induction k as [|k IH]; simpl; [done|by f_equal]. Qed.

Lemma be_byte k x : N.land (N.shiftr x (8 * N.of_nat k)) 0xff = (x / 256 ^ N.of_nat k mod 256)%N.
Proof.
  change 0xff%N with (N.ones 8). rewrite N.land_ones, N.shiftr_div_pow2, N.pow_mul_r. done.
Qed.

Lemma from_be_acc acc l : from_be acc l = (acc * 256 ^ N.of_nat (length l) + from_be 0 l)%N.
Proof.
  revert acc. induction l as [|b l IH]; intros acc; cbn [from_be length]; [lia|].
  rewrite IH, (IH (0 * 256 + b)%N), Nat2N.inj_succ, N.pow_succ_r'. lia.
Qed.

Lemma from_be_bytes k x : (x < 256 ^ N.of_nat k)%N → from_be 0 (be_bytes k x) = x.
Proof.
  revert x. enough (H : ∀ x, from_be 0 (be_bytes k x) = (x mod 256 ^ N.of_nat k)%N).
  { intros x Hx. rewrite H. by apply N.mod_small. }
  induction k as [|k IH]; intros x; cbn [be_bytes from_be]; [symmetry; apply N.mod_1_r|].
  rewrite from_be_acc, IH, length_be_bytes, be_byte, Nat2N.inj_succ, N.pow_succ_r'.
  pose proof (N.Div0.mod_mul_r x (256 ^ N.of_nat k) 256) as Hm. rewrite (N.mul_comm 256). rewrite Hm. lia.
Qed.

Lemma from_be_lt l : is_bytes l → (from_be 0 l < 256 ^ N.of_nat (length l))%N.
Proof.
  induction 1 as [|b l Hb Hl IH]; cbn [from_be length]; [done|].
  rewrite from_be_acc, Nat2N.inj_succ, N.pow_succ_r'. nia.
Qed.

Lemma be_bytes_mod k x y :
  (x mod 256 ^ N.of_nat k = y mod 256 ^ N.of_nat k)%N → be_bytes k x = be_bytes k y.
Proof.
  induction k as [|k IH]; intros Hm; cbn [be_bytes]; [done|]. rewrite !be_byte.
  rewrite Nat2N.inj_succ, N.pow_succ_r', (N.mul_comm 256), !N.Div0.mod_mul_r in Hm.
  assert (0 < 256 ^ N.of_nat k)%N by (apply N.neq_0_lt_0, N.pow_nonzero; done).
  pose proof (N.mod_lt x (256 ^ N.of_nat k) ltac:(lia)). pose proof (N.mod_lt y (256 ^ N.of_nat k) ltac:(lia)).
  destruct (N.div_mod_unique (256 ^ N.of_nat k) (x / 256 ^ N.of_nat k mod 256) (y / 256 ^ N.of_nat k mod 256)
    (x mod 256 ^ N.of_nat k) (y mod 256 ^ N.of_nat k)) as [Hq Hr]; [done|done|lia|].
  f_equal; [done|]. by apply IH.
Qed.

Lemma be_bytes_from l : is_bytes l → be_bytes (length l) (from_be 0 l) = l.
Proof.
  induction 1 as [|b l Hb Hl IH]; cbn [from_be length be_bytes]; [done|].
  pose proof (from_be_lt l Hl) as Hlt. rewrite be_byte, from_be_acc. f_equal.
  - rewrite N.div_add_l by (by apply N.pow_nonzero). rewrite (N.div_small (from_be 0 l)) by done.
    rewrite N.add_0_r. rewrite N.mod_small; lia.
  - etrans; [|exact IH]. apply be_bytes_mod. rewrite N.add_comm. apply N.Div0.mod_add.
Qed.

Lemma be_bytes_is_bytes k x : is_bytes (be_bytes k x).
Proof.
  induction k as [|k IH]; cbn [be_bytes]; [constructor|]. constructor; [|done].
  rewrite be_byte. by apply N.mod_lt.
Qed.

(** ** First bytes *)

Lemma first_byte major ai :
  (ai < 32)%N → N.lor (N.shiftl major 5) ai = (major * 32 + ai)%N ∧
  N.shiftr (major * 32 + ai) 5 = major ∧ N.land (major * 32 + ai) 0x1f = ai.
Proof.
  intros Ha. change 0x1f%N with (N.ones 5). rewrite N.land_ones, N.shiftr_div_pow2. split_and!.
  - rewrite N.shiftl_mul_pow2. rewrite <-N.lxor_lor, N.add_nocarry_lxor; [done|..].
    all: apply N.bits_inj_0; intros n; rewrite N.land_spec; destruct (N.lt_ge_cases n 5).
    all: try (rewrite (N.mul_pow2_bits_low major 5) by done; done).
    all: rewrite (N.bits_above_log2 ai); [apply andb_false_r|].
    all: destruct (N.eq_dec ai 0%N) as [->|]; [simpl; lia|]; eapply N.lt_le_trans; [|done].
    all: apply N.log2_lt_pow2; lia.
  - by apply div_small_add.
  - by apply mod_small_add.
Qed.

Lemma split_first first :
  first = (N.shiftr first 5 * 32 + N.land first 0x1f)%N ∧ (N.land first 0x1f < 32)%N.
Proof.
  change 0x1f%N with (N.ones 5). rewrite N.land_ones, N.shiftr_div_pow2.
  pose proof (N.div_mod first (2 ^ 5) ltac:(done)). pose proof (N.mod_lt first (2 ^ 5) ltac:(done)).
  change (2 ^ 5)%N with 32%N in *. lia.
Qed.

(** ** Reading *)

(** Wherever the bytes [b] stand, [m] takes them and answers [a]. *)
Definition reads {A} (m : list N → method nat Error A) (b : list N) (a : A) : Prop :=
  ∀ input pos rest, drop pos input = b ++ rest → m input pos = (Ok a, pos + length b).

Lemma drop_more {A} (l : list A) pos b rest : drop pos l = b ++ rest → drop (pos + length b) l = rest.
Proof. intros Hd. by rewrite <-drop_drop, Hd, drop_app_length. Qed.

Lemma reads_ok {A} (a : A) : reads (λ _, mok a) [] a.
Proof. intros input pos rest _. unfold mok. by rewrite Nat.add_0_r. Qed.

Lemma reads_then {A B} m (k : list N → A → method nat Error B) b1 b2 a c :
  reads m b1 a → reads (λ i, k i a) b2 c → reads (λ i, mthen (m i) (k i)) (b1 ++ b2) c.
Proof.
  intros H1 H2 input pos rest Hd. rewrite <-app_assoc in Hd.
  erewrite mthen_ok by (by eapply H1). apply drop_more in Hd. erewrite H2 by done.
  by rewrite length_app, Nat.add_assoc.
Qed.

Lemma reads_then' {A B} m (k : list N → A → method nat Error B) b a c :
  reads m b a → reads (λ i, k i a) [] c → reads (λ i, mthen (m i) (k i)) b c.
Proof. intros H1 H2. rewrite <-(app_nil_r b). by eapply reads_then. Qed.

Lemma byte_reads b : reads byte [b] b.
Proof.
  intros input pos rest Hd. unfold byte, mthen, mget, mset, mok.
  assert (Hb : input !! pos = Some b) by (rewrite <-(Nat.add_0_r pos), <-lookup_drop; by rewrite Hd).
  rewrite Hb. simpl. do 2 f_equal. lia.
Qed.

Lemma take_reads k b : length b = k → reads (λ i, take_bytes i k) b b.
Proof.
  intros <- input pos rest Hd. unfold take_bytes, mthen, mget, mset, mok, remaining, slice.
  assert (Hl : length (drop pos input) = length b + length rest) by (by rewrite Hd, length_app).
  rewrite length_drop in Hl. rewrite decide_False by lia.
  replace (pos + length b - pos) with (length b) by lia. by rewrite Hd, take_app_length.
Qed.

Lemma shortest_reads least v : (least < v)%N → reads (λ _, shortest least v) [] v.
Proof.
  intros Hv. unfold shortest. destruct (N.leb_spec v least); [lia|]. apply reads_ok.
Qed.

Lemma be_reads k least v :
  (least < v)%N → (v < 256 ^ N.of_nat k)%N →
  reads (λ i, mthen (take_bytes i k) (λ b, shortest least (from_be 0 b))) (be_bytes k v) v.
Proof.
  intros Hl Hv. eapply reads_then'; [apply take_reads, length_be_bytes|].
  cbv beta. rewrite from_be_bytes by done. by apply shortest_reads.
Qed.

(** ** Heads *)

Lemma head_reads major arg :
  (arg < 2 ^ 64)%N →
  ∃ first tail, head major arg = first :: tail ∧ N.shiftr first 5 = major ∧
    reads (λ i, head_arg i (N.land first 0x1f)) tail arg.
Proof.
  intros Ha. unfold head. cbv zeta.
  assert (Hf : ∀ ai, (ai < 32)%N → N.shiftr (N.lor (N.shiftl major 5) ai) 5 = major ∧
    N.land (N.lor (N.shiftl major 5) ai) 0x1f = ai).
  { intros ai Hai. destruct (first_byte major ai Hai) as (-> & H1 & H2). done. }
  destruct (N.ltb_spec arg 24) as [H1|H1].
  { destruct (Hf arg ltac:(lia)) as [H2 H3]. eexists _, []. split_and!; [done|done|]. rewrite H3.
    unfold head_arg. destruct (N.leb_spec arg 23); [|lia]. apply reads_ok. }
  destruct (N.leb_spec arg 0xff) as [H2|H2].
  { destruct (Hf 24%N ltac:(done)) as [H3 H4]. eexists _, _. split_and!; [done|done|]. rewrite H4.
    unfold head_arg. simpl. eapply reads_then'; [apply byte_reads|]. cbv beta.
    destruct (N.ltb_spec arg 24); [lia|]. apply reads_ok. }
  destruct (N.leb_spec arg 0xffff) as [H3|H3].
  { destruct (Hf 25%N ltac:(done)) as [H4 H5]. eexists _, _. split_and!; [done|done|]. rewrite H5.
    apply (be_reads 2); [done|]. change (256 ^ N.of_nat 2)%N with 65536%N. lia. }
  destruct (N.leb_spec arg 0xffffffff) as [H4|H4].
  { destruct (Hf 26%N ltac:(done)) as [H5 H6]. eexists _, _. split_and!; [done|done|]. rewrite H6.
    apply (be_reads 4); [done|]. change (256 ^ N.of_nat 4)%N with 4294967296%N. lia. }
  destruct (Hf 27%N ltac:(done)) as [H5 H6]. eexists _, _. split_and!; [done|done|]. rewrite H6.
  by apply (be_reads 8).
Qed.

Lemma head_ne major arg : 1 ≤ length (head major arg).
Proof.
  unfold head. destruct (_ <? _)%N; [done|]. repeat (destruct (_ <=? _)%N; [simpl; lia|]). simpl. lia.
Qed.

Lemma checked_len_ok input pos n k :
  0 < k → k * n ≤ length input - pos → checked_len input (N.of_nat n) k pos = (Ok n, pos).
Proof.
  intros Hk Hn. unfold checked_len, mthen, mget, mok, remaining.
  assert (n ≤ (length input - pos) / k) by (by apply Nat.div_le_lower_bound; lia).
  destruct (N.ltb_spec (N.of_nat ((length input - pos) / k)) (N.of_nat n)); [lia|].
  by rewrite Nat2N.id.
Qed.

(** A counted item: its head and then [k] bytes at least for each it counts. *)
Lemma counted_reads {A} k n body (m : list N → nat → method nat Error A) a :
  0 < k → k * n ≤ length body → reads (λ i, m i n) body a →
  reads (λ i, mthen (checked_len i (N.of_nat n) k) (m i)) body a.
Proof.
  intros Hk Hn Hm input pos rest Hd.
  assert (Hl : length (drop pos input) = length body + length rest) by (by rewrite Hd, length_app).
  rewrite length_drop in Hl. erewrite mthen_ok by (apply checked_len_ok; lia). by eapply Hm.
Qed.

(** ** Floats *)

(** The float that reading gives back: its own bits, or the one NaN. *)
Definition nan_bits : N := f32_as_f64 (f16_bits_to_f32 0x7e00).

Definition float_norm (x : N) : N := if is_nan64 x then nan_bits else x.

Lemma encode_float_reads x :
  (x < 2 ^ 64)%N → ∃ first tail, encode_float x = first :: tail ∧ N.shiftr first 5 = 7%N ∧
    reads (λ i, simple i (N.land first 0x1f)) tail (Float (float_norm x)).
Proof.
  intros Hx. unfold encode_float, float_norm. cbv zeta. destruct (is_nan64 x) eqn:Hn.
  { eexists _, _. split_and!; [done|done|]. change (N.land 0xf9 0x1f) with 25%N. unfold simple. simpl N.eqb. cbv iota.
    eapply reads_then'; [by apply take_reads|]. cbv zeta.
    rewrite from_be_bytes by done. apply reads_ok. }
  destruct (feq64 _ x) eqn:Hf.
  2: { eexists _, _. split_and!; [done|done|]. change (N.land 0xfb 0x1f) with 27%N. unfold simple. simpl N.eqb. cbv iota.
    eapply reads_then'; [apply take_reads, length_be_bytes|]. cbv zeta.
    rewrite from_be_bytes by done. rewrite Hn, Hf. apply reads_ok. }
  pose proof (single_exact x Hx Hf) as Hs. pose proof (f64_as_f32_lt x Hx) as Hlt.
  destruct (feq64_inv _ _ Hf Hx) as (Hnan & _ & _). rewrite is_nan64_f32 in Hnan by done.
  destruct (feq32 _ _) eqn:Hh.
  - eexists _, _. split_and!; [done|done|]. change (N.land 0xf9 0x1f) with 25%N. unfold simple. simpl N.eqb. cbv iota.
    eapply reads_then'; [apply take_reads, length_be_bytes|].
    cbv zeta. rewrite from_be_bytes by (by apply f32_to_f16_bits_lt). rewrite (half_exact _ Hlt Hh), Hnan, Hs.
    apply reads_ok.
  - eexists _, _. split_and!; [done|done|]. change (N.land 0xfa 0x1f) with 26%N. unfold simple. simpl N.eqb. cbv iota.
    eapply reads_then'; [apply take_reads, length_be_bytes|]. cbv zeta.
    rewrite from_be_bytes by done. rewrite Hnan, Hh, Hs. apply reads_ok.
Qed.
End CborSpec.
