(* ===== verification/CborValue.v ===== *)
(** Values against their bytes: what the encoder writes, the decoder reads back,
    and what the decoder takes, the encoder writes. *)
From S2P Require Import Prelude CborFloat Cbor CborSpec.
From stdpp Require Import sorting strings.

Module CborValue.
Import CborFloat Cbor CborSpec.

(** ** Well-formed values *)

(** Integers and lengths of 64 bits, bytes of 8, texts of UTF-8. *)
#[local] Set Warnings "-register-all".

Inductive well_formed : Value → Prop :=
  | wf_uint n : (n < 2 ^ 64)%N → well_formed (Uint n)
  | wf_nint n : (n < 2 ^ 64)%N → well_formed (Nint n)
  | wf_bytes b : (N.of_nat (length b) < 2 ^ 64)%N → is_bytes b → well_formed (Bytes b)
  | wf_text s : (N.of_nat (length s) < 2 ^ 64)%N → is_bytes s → utf8 s = true → well_formed (Text s)
  | wf_array items : (N.of_nat (length items) < 2 ^ 64)%N → Forall well_formed items → well_formed (Array items)
  | wf_map entries : (N.of_nat (length entries) < 2 ^ 64)%N →
      Forall (λ e, well_formed e.1 ∧ well_formed e.2) entries → well_formed (Map entries)
  | wf_bool b : well_formed (Bool b)
  | wf_null : well_formed Null
  | wf_float x : (x < 2 ^ 64)%N → well_formed (Float x).

(** Equal but for the order of map entries and the bits of a NaN. *)
Inductive same : Value → Value → Prop :=
  | same_refl v : same v v
  | same_nan x : is_nan64 x = true → same (Float x) (Float nan_bits)
  | same_array xs ys : Forall2 same xs ys → same (Array xs) (Array ys)
  | same_map es es' fs : es ≡ₚ es' → Forall2 (λ e f, same e.1 f.1 ∧ same e.2 f.2) es' fs →
      same (Map es) (Map fs).

Section ind.
Context (P : Value → Prop).
Context (Huint : ∀ n, P (Uint n)) (Hnint : ∀ n, P (Nint n)) (Hbytes : ∀ b, P (Bytes b))
  (Htext : ∀ s, P (Text s)) (Harray : ∀ items, Forall P items → P (Array items))
  (Hmap : ∀ entries, Forall (λ e, P e.1 ∧ P e.2) entries → P (Map entries))
  (Hbool : ∀ b, P (Bool b)) (Hnull : P Null) (Hfloat : ∀ x, P (Float x)).

(** Induction that reaches into arrays and maps. *)
Fixpoint Value_nested_ind (v : Value) : P v :=
  match v with
  | Uint n => Huint n
  | Nint n => Hnint n
  | Bytes b => Hbytes b
  | Text s => Htext s
  | Array items => Harray items
      ((fix go l : Forall P l := match l with
        | [] => List.Forall_nil _
        | x :: l => List.Forall_cons _ _ _ (Value_nested_ind x) (go l) end) items)
  | Map entries => Hmap entries
      ((fix go l : Forall (λ e : Value * Value, P e.1 ∧ P e.2) l := match l with
        | [] => List.Forall_nil _
        | x :: l => List.Forall_cons _ _ _ (conj (Value_nested_ind x.1) (Value_nested_ind x.2)) (go l) end) entries)
  | Bool b => Hbool b
  | Null => Hnull
  | Float x => Hfloat x
  end.
End ind.

(** ** The order of keys *)

Lemma bytes_cmp_eq a b : bytes_cmp a b = Eq ↔ a = b.
Proof.
  revert b. induction a as [|x a IH]; intros [|y b]; simpl; [done..|].
  destruct (N.compare_spec x y) as [->|Hlt|Hlt]; [rewrite IH; split; [by intros ->|by intros [= ->]]|..].
  all: split; [done|]; intros [= -> _]; lia.
Qed.

Lemma bytes_cmp_antisym a b : bytes_cmp b a = CompOpp (bytes_cmp a b).
Proof.
  revert b. induction a as [|x a IH]; intros [|y b]; simpl; [done..|].
  rewrite N.compare_antisym. destruct (x ?= y)%N; simpl; [apply IH|done..].
Qed.

Lemma bytes_cmp_trans a b c : bytes_cmp a b = Lt → bytes_cmp b c = Lt → bytes_cmp a c = Lt.
Proof.
  revert b c. induction a as [|x a IH]; intros [|y b] [|z c]; simpl; [done..|].
  destruct (N.compare_spec x y), (N.compare_spec y z), (N.compare_spec x z); intros ??; try done; try lia.
  by eapply IH.
Qed.

Definition key_lt (a b : list N * list N) : Prop := bytes_cmp a.1 b.1 = Lt.

#[export] Instance key_lt_trans : Transitive key_lt.
Proof. intros a b c. apply bytes_cmp_trans. Qed.

#[export] Instance key_le_total : Total key_le.
Proof.
  intros a b. unfold key_le. rewrite (bytes_cmp_antisym a.1 b.1).
  destruct (bytes_cmp a.1 b.1); simpl; [by left|by left|by right].
Qed.

Lemma key_lt_le a b : key_lt a b → key_le a b.
Proof. unfold key_lt, key_le. by intros ->. Qed.

(** Sorted and without equal neighbours: strictly sorted. *)
Lemma sorted_strict enc : Sorted key_le enc → has_duplicate enc = false → StronglySorted key_lt enc.
Proof.
  intros Hs Hd. apply Sorted_StronglySorted; [apply _|].
  induction Hs as [|a enc Hs IH Hhd]; [constructor|]. destruct enc as [|b enc]; [by repeat constructor|].
  cbn [has_duplicate] in Hd. apply orb_false_iff in Hd as [Hab Hd]. constructor; [by apply IH|].
  constructor. apply HdRel_inv in Hhd. unfold key_le in Hhd. unfold key_lt.
  apply bool_decide_eq_false in Hab. destruct (bytes_cmp a.1 b.1) eqn:Hc; [|done|done].
  by apply bytes_cmp_eq in Hc.
Qed.

Lemma strict_no_duplicate enc : StronglySorted key_lt enc → has_duplicate enc = false.
Proof.
  induction 1 as [|a enc Hs IH Hf]; [done|]. destruct enc as [|b enc]; [done|].
  cbn [has_duplicate]. apply orb_false_iff. split; [|done]. apply bool_decide_eq_false. intros He.
  apply Forall_cons in Hf as [Hab _]. unfold key_lt in Hab. rewrite He in Hab.
  by rewrite (proj2 (bytes_cmp_eq b.1 b.1)) in Hab.
Qed.

Lemma strict_inj enc a b : StronglySorted key_lt enc → a ∈ enc → b ∈ enc → a.1 = b.1 → a = b.
Proof.
  intros Hs. induction Hs as [|c enc Hs IH Hf]; [by intros ?%elem_of_nil|]. rewrite Forall_forall in Hf.
  assert (Hne : ∀ d, d ∈ enc → c.1 ≠ d.1).
  { intros d Hd He. specialize (Hf d Hd). unfold key_lt in Hf. rewrite He in Hf.
    by rewrite (proj2 (bytes_cmp_eq d.1 d.1)) in Hf. }
  intros [->|Ha]%elem_of_cons [->|Hb]%elem_of_cons He; [done| | |by apply IH].
  - by destruct (Hne b Hb).
  - by destruct (Hne a Ha).
Qed.

(** A strictly sorted list is what sorting makes of it. *)
Lemma sort_strict enc : StronglySorted key_lt enc → merge_sort key_le enc = enc.
Proof.
  intros Hs. pose proof (merge_sort_Permutation key_le enc) as Hp.
  assert (Htr : Transitive key_le).
  { intros a b c. unfold key_le. destruct (bytes_cmp a.1 b.1) eqn:Hab, (bytes_cmp b.1 c.1) eqn:Hbc; try done.
    all: try (apply bytes_cmp_eq in Hab; rewrite Hab, Hbc; done).
    all: try (apply bytes_cmp_eq in Hbc; rewrite <-Hbc, Hab; done).
    by rewrite (bytes_cmp_trans _ _ _ Hab Hbc). }
  apply (StronglySorted_unique_strong key_le); [| | |done].
  - intros a b Ha Hb Hab Hba. rewrite Hp in Ha. apply (strict_inj enc); [done..|].
    apply bytes_cmp_eq. unfold key_le in *. rewrite bytes_cmp_antisym in Hba.
    by destruct (bytes_cmp a.1 b.1).
  - apply StronglySorted_merge_sort; apply _.
  - clear Hp. induction Hs; constructor; [done|]. eapply Forall_impl; [done|]. intros. by apply key_lt_le.
Qed.

(** ** The encoder, level by level *)

Lemma obind_ok {A B} (m : outcome Error A) (k : A → outcome Error B) b :
  obind m k = Ok b ↔ ∃ a, m = Ok a ∧ k a = Ok b.
Proof. destruct m; simpl; naive_solver. Qed.

Lemma encode_depth v d b : encode_into v d = Ok b → d ≤ MAX_DEPTH.
Proof. destruct v; simpl; (destruct (decide (MAX_DEPTH < d)); [done|lia]). Qed.

Lemma encode_array items d b :
  encode_into (Array items) d = Ok b ↔
  d ≤ MAX_DEPTH ∧ ∃ bs, Forall2 (λ v b, encode_into v (S d) = Ok b) items bs ∧
    b = head 4 (N.of_nat (length items)) ++ concat bs.
Proof.
  cbn [encode_into]. destruct (decide (MAX_DEPTH < d)) as [|Hd]; [naive_solver lia|].
  rewrite obind_ok.
  lazymatch goal with |- (∃ a, ?f items = _ ∧ _) ↔ _ => set (go := f) end.
  assert (Hgo : ∀ body, go items = Ok body ↔
    ∃ bs, Forall2 (λ v b, encode_into v (S d) = Ok b) items bs ∧ body = concat bs).
  { clear b. induction items as [|v items IH]; intros body; cbn [go].
    - split; [intros [= <-]; by exists []|]. by intros (bs & ->%Forall2_nil_inv_l & ->).
    - fold go. rewrite obind_ok. setoid_rewrite obind_ok. split.
      + intros (b & Hb & r & (bs & Hbs & ->)%IH & [= <-]). exists (b :: bs). by split; [constructor|].
      + intros (bs & (b & bs' & Hb & Hbs & ->)%Forall2_cons_inv_l & ->). exists b. split; [done|].
        exists (concat bs'). split; [apply IH; by exists bs'|done]. }
  setoid_rewrite Hgo. split.
  - intros (body & (bs & Hbs & ->) & [= <-]). split; [lia|]. by exists bs.
  - intros (_ & bs & Hbs & ->). exists (concat bs). split; [by exists bs|done].
Qed.

Definition entry_bytes (e : list N * list N) : list N := e.1 ++ e.2.

Lemma length_sorted (enc : list (list N * list N)) : length (merge_sort key_le enc) = length enc.
Proof. apply Permutation_length, merge_sort_Permutation. Qed.

Lemma encode_map entries d b :
  encode_into (Map entries) d = Ok b ↔
  d ≤ MAX_DEPTH ∧ ∃ enc,
    Forall2 (λ e c, encode_into e.1 (S d) = Ok c.1 ∧ encode_into e.2 (S d) = Ok c.2) entries enc ∧
    has_duplicate (merge_sort key_le enc) = false ∧
    b = head 5 (N.of_nat (length enc)) ++ concat (entry_bytes <$> merge_sort key_le enc).
Proof.
  cbn [encode_into]. destruct (decide (MAX_DEPTH < d)) as [|Hd]; [naive_solver lia|].
  rewrite obind_ok.
  lazymatch goal with |- (∃ a, ?f entries = _ ∧ _) ↔ _ => set (go := f) end.
  assert (Hgo : ∀ enc, go entries = Ok enc ↔
    Forall2 (λ e c, encode_into e.1 (S d) = Ok c.1 ∧ encode_into e.2 (S d) = Ok c.2) entries enc).
  { clear b. induction entries as [|[k v] entries IH]; intros enc; cbn [go].
    - split; [intros [= <-]; constructor|by intros ->%Forall2_nil_inv_l].
    - fold go. rewrite obind_ok. setoid_rewrite obind_ok. setoid_rewrite obind_ok. split.
      + intros (kb & Hk & vb & Hv & r & Hr%IH & [= <-]). by constructor.
      + intros ([kb vb] & enc' & [Hk Hv] & Henc & ->)%Forall2_cons_inv_l. exists kb. split; [done|].
        exists vb. split; [done|]. exists enc'. split; [by apply IH|done]. }
  setoid_rewrite Hgo. split.
  - intros (enc & Henc & Hb). split; [lia|]. exists enc. destruct (has_duplicate _); [done|].
    injection Hb as <-. by rewrite length_sorted.
  - intros (_ & enc & Henc & Hdup & ->). exists enc. split; [done|]. by rewrite Hdup, length_sorted.
Qed.

Lemma encode_ne v d b : encode_into v d = Ok b → 1 ≤ length b.
Proof.
  assert (Hh : ∀ major arg (r : list N), 1 ≤ length (head major arg ++ r)).
  { intros major arg r. rewrite length_app. pose proof (head_ne major arg). lia. }
  destruct v as [n|n|bs|s|items|entries|x| |x]; intros He; pose proof (encode_depth _ _ _ He) as Hd.
  5: { by apply encode_array in He as (_ & bs & _ & ->). }
  5: { by apply encode_map in He as (_ & bs & _ & _ & ->). }
  all: cbn [encode_into] in He; rewrite decide_False in He by lia; injection He as <-.
  - apply head_ne.
  - apply head_ne.
  - apply Hh.
  - apply Hh.
  - done.
  - done.
  - unfold encode_float. destruct (is_nan64 x); [simpl; lia|]. cbv zeta.
    destruct (feq64 _ _); [destruct (feq32 _ _)|]; simpl; lia.
Qed.

(** ** Reading back *)

(** What stands for a value at depth [d]. *)
Definition reads_value (d : nat) (v : Value) (b : list N) : Prop :=
  reads (λ i, value i (S MAX_DEPTH - d)) b v.

(** A value whose first byte is of a major type below 6 and is followed by its
    argument. *)
Definition body (levels : nat) (major arg : N) (i : list N) : method nat Error Value :=
  (if major =? 0 then mok (Uint arg)
   else if major =? 1 then mok (Nint arg)
   else if major =? 2 then n ⇐ checked_len i arg 1 ;; b ⇐ take_bytes i n ;; mok (Bytes b)
   else if major =? 3 then
     n ⇐ checked_len i arg 1 ;; s ⇐ take_bytes i n ;;
     if utf8 s then mok (Text s) else reject CborSyntax "invalid UTF-8 in text"
   else if major =? 4 then
     n ⇐ checked_len i arg 1 ;; items ⇐ items_loop (value i levels) n ;; mok (Array items)
   else if major =? 5 then
     n ⇐ checked_len i arg 2 ;; entries ⇐ entries_loop i (value i levels) n None ;; mok (Map entries)
   else mpanic)%N.

Lemma value_body levels major arg (b : list N) v :
  (arg < 2 ^ 64)%N → (major < 6)%N → reads (body levels major arg) b v →
  reads (λ i, value i (S levels)) (head major arg ++ b) v.
Proof.
  intros Ha Hm Hb. destruct (head_reads major arg Ha) as (first & tail & -> & Hmaj & Hh).
  change ((first :: tail) ++ b) with ([first] ++ (tail ++ b)). cbn [value].
  eapply reads_then; [apply byte_reads|]. cbv zeta. rewrite Hmaj.
  destruct (N.eqb_spec major 7); [lia|]. destruct (N.eqb_spec major 6); [lia|].
  eapply reads_then; [exact Hh|]. exact Hb.
Qed.

Lemma items_loop_reads levels vs bs :
  Forall2 (λ v b, reads (λ i, value i levels) b v) vs bs →
  reads (λ i, items_loop (value i levels) (length vs)) (concat bs) vs.
Proof.
  induction 1 as [|v b vs bs Hv Hvs IH]; [apply reads_ok|]. cbn [length items_loop concat].
  eapply reads_then; [exact Hv|]. cbv beta. eapply reads_then'; [exact IH|]. apply reads_ok.
Qed.

Lemma slice_here input pos b rest : drop pos input = b ++ rest → slice input pos (pos + length b) = b.
Proof.
  intros Hd. unfold slice. replace (pos + length b - pos) with (length b) by lia.
  by rewrite Hd, take_app_length.
Qed.

Lemma entries_loop_reads levels es enc :
  Forall2 (λ e c, reads (λ i, value i levels) c.1 e.1 ∧ reads (λ i, value i levels) c.2 e.2) es enc →
  StronglySorted key_lt enc →
  ∀ input pos rest prev, drop pos input = concat (entry_bytes <$> enc) ++ rest →
  (∀ p c enc', prev = Some p → enc = c :: enc' → bytes_cmp (slice input p.1 p.2) c.1 = Lt) →
  entries_loop input (value input levels) (length es) prev pos =
    (Ok es, pos + length (concat (entry_bytes <$> enc))).
Proof.
  intros Hf. induction Hf as [|[k v] [kb vb] es enc [Hk Hv] Hf IH]; intros Hs input pos rest prev Hd Hprev.
  { cbn. unfold mok. by rewrite Nat.add_0_r. }
  apply StronglySorted_inv in Hs as [Hs Hlt]. csimpl in *. unfold entry_bytes in Hd at 1. simpl in Hd.
  rewrite <-!app_assoc in Hd. cbn [entries_loop].
  erewrite mthen_ok by reflexivity. erewrite mthen_ok by (by eapply Hk). erewrite mthen_ok by reflexivity.
  assert (Hc : check_order input prev pos (pos + length kb) (pos + length kb) = (Ok tt, pos + length kb)).
  { unfold check_order. destruct prev as [[ps pe]|]; [|done]. rewrite (slice_here _ _ _ _ Hd).
    pose proof (Hprev _ _ _ eq_refl eq_refl) as Hp. simpl in Hp. by rewrite Hp. }
  erewrite mthen_ok by exact Hc. pose proof (drop_more _ _ _ _ Hd) as Hd2.
  erewrite mthen_ok by (by eapply Hv). pose proof (drop_more _ _ _ _ Hd2) as Hd3.
  erewrite mthen_ok.
  2: { eapply IH; [done|exact Hd3|]. intros p c enc' [= <-] ->. simpl. rewrite (slice_here _ _ _ _ Hd).
       by apply Forall_cons in Hlt as [? _]. }
  unfold mok. f_equal. unfold entry_bytes at 2. simpl. rewrite !length_app. lia.
Qed.

Lemma Forall2_through {A B C} (P : A → Prop) (R : A → B → Prop) (S : A → C → Prop) (T : C → B → Prop) l k :
  Forall P l → Forall2 R l k → (∀ x y, P x → R x y → ∃ z, S x z ∧ T z y) →
  ∃ m, Forall2 S l m ∧ Forall2 T m k.
Proof.
  intros Hp Hr Hx. induction Hr as [|x y l k Hxy Hr IH]; [exists []; by split|].
  apply Forall_cons in Hp as [Hpx Hp]. destruct (Hx x y Hpx Hxy) as (z & Hs & Ht).
  destruct (IH Hp) as (m & Hm1 & Hm2). exists (z :: m). by split; constructor.
Qed.

Lemma Forall2_permuted {A B} (R : A → B → Prop) l k k' :
  Forall2 R l k → k ≡ₚ k' → ∃ l', l ≡ₚ l' ∧ Forall2 R l' k'.
Proof.
  intros Hr Hp. revert l Hr. induction Hp as [|y k k' _ IH|y1 y2 k|k1 k2 k3 _ IH1 _ IH2]; intros l Hr.
  - by exists l.
  - apply Forall2_cons_inv_r in Hr as (x & l' & Hxy & Hr & ->). destruct (IH _ Hr) as (m & Hm1 & Hm2).
    exists (x :: m). split; [by rewrite Hm1|by constructor].
  - apply Forall2_cons_inv_r in Hr as (x1 & l1 & H1 & Hr & ->).
    apply Forall2_cons_inv_r in Hr as (x2 & l2 & H2 & Hr & ->).
    exists (x2 :: x1 :: l2). split; [apply Permutation_swap|by repeat constructor].
  - destruct (IH1 _ Hr) as (l2 & Hp1 & Hr2). destruct (IH2 _ Hr2) as (l3 & Hp2 & Hr3).
    exists l3. split; [by etrans|done].
Qed.

Lemma length_concat_le (bs : list (list N)) k : Forall (λ b, k ≤ length b) bs → k * length bs ≤ length (concat bs).
Proof. induction 1 as [|b bs Hb _ IH]; simpl; [lia|]. rewrite length_app. lia. Qed.

(** A value that reads back wherever it is encoded. *)
Definition reads_back (v : Value) : Prop :=
  ∀ d b, encode_into v d = Ok b → ∃ v', same v v' ∧ reads_value d v' b.

Lemma reads_back_array items :
  (N.of_nat (length items) < 2 ^ 64)%N → Forall reads_back items → reads_back (Array items).
Proof.
  intros Hlen Hitems d b (Hd & bs & Hbs & ->)%encode_array.
  destruct (Forall2_through reads_back _ same (reads_value (S d)) items bs Hitems Hbs) as (vs & Hvs1 & Hvs2).
  { intros v b HP Hvb. by apply HP. }
  exists (Array vs). split; [by constructor|]. unfold reads_value. rewrite Nat.sub_succ_l by done.
  apply value_body; [done|done|]. unfold body. simpl N.eqb. cbv iota. rewrite (Forall2_length _ _ _ Hvs1).
  eapply (counted_reads 1 (length vs) _
    (λ i n, mthen (items_loop (value i (MAX_DEPTH - d)) n) (λ items, mok (Array items)))).
  - lia.
  - rewrite (Forall2_length _ _ _ Hvs2). apply length_concat_le. apply Forall_forall. intros c Hc.
    apply list_elem_of_lookup in Hc as [j Hj]. destruct (Forall2_lookup_r _ _ _ _ _ Hbs Hj) as (v & _ & Hv).
    by eapply encode_ne.
  - eapply reads_then'; [|apply reads_ok]. apply items_loop_reads. exact Hvs2.
Qed.

Lemma reads_back_map entries :
  (N.of_nat (length entries) < 2 ^ 64)%N → Forall (λ e, reads_back e.1 ∧ reads_back e.2) entries →
  reads_back (Map entries).
Proof.
  intros Hlen Hes d b (Hd & enc & Henc & Hdup & ->)%encode_map.
  set (sorted := merge_sort key_le enc) in *.
  assert (Hperm : sorted ≡ₚ enc) by apply merge_sort_Permutation.
  destruct (Forall2_permuted _ entries enc sorted Henc (symmetry Hperm)) as (es & Hes1 & Hes2).
  destruct (Forall2_through (λ e : Value * Value, reads_back e.1 ∧ reads_back e.2)
    (λ e c, encode_into e.1 (S d) = Ok c.1 ∧ encode_into e.2 (S d) = Ok c.2)
    (λ e f : Value * Value, same e.1 f.1 ∧ same e.2 f.2)
    (λ (f : Value * Value) (c : list N * list N), reads_value (S d) f.1 c.1 ∧ reads_value (S d) f.2 c.2) es sorted)
    as (fs & Hfs1 & Hfs2); [by rewrite <-Hes1|exact Hes2| |].
  { intros e c [HP1 HP2] [Hc1 Hc2]. destruct (HP1 _ _ Hc1) as (k & Hk1 & Hk2).
    destruct (HP2 _ _ Hc2) as (w & Hw3 & Hw4). by exists (k, w). }
  exists (Map fs). split; [by econstructor|].
  assert (Hl : length entries = length enc) by by eapply Forall2_length.
  assert (Hl' : length enc = length fs) by by rewrite <-Hl, Hes1, (Forall2_length _ _ _ Hfs1).
  unfold reads_value. rewrite Nat.sub_succ_l by done. rewrite Hl'.
  apply value_body; [congruence|done|]. unfold body. simpl N.eqb. cbv iota.
  eapply (counted_reads 2 (length fs) _
    (λ i n, mthen (entries_loop i (value i (MAX_DEPTH - d)) n None) (λ es, mok (Map es)))).
  - lia.
  - rewrite (Forall2_length _ _ _ Hfs2). rewrite <-(length_fmap entry_bytes sorted). apply length_concat_le.
    apply Forall_fmap, Forall_forall. intros c Hc. apply list_elem_of_lookup in Hc as [j Hj].
    destruct (Forall2_lookup_r _ _ _ _ _ Hes2 Hj) as (e & _ & Hc1 & Hc2). simpl. unfold entry_bytes.
    rewrite length_app. apply encode_ne in Hc1, Hc2. lia.
  - eapply reads_then'; [|apply reads_ok]. intros input pos rest Hdrop.
    eapply (entries_loop_reads _ fs sorted); [exact Hfs2| |exact Hdrop|done].
    apply sorted_strict; [apply Sorted_merge_sort; apply _|done].
Qed.

(** What is encoded is read back, but for the order of entries and a NaN's
    bits. *)
Lemma encode_reads v : well_formed v → reads_back v.
Proof.
  induction v as [n|n|bs|s|items IH|entries IH|x| |x] using Value_nested_ind; intros Hwf.
  5: { inversion Hwf as [| | | |? Hlen Hitems| | | |]; subst. apply reads_back_array; [done|].
       rewrite Forall_forall in *. auto. }
  5: { inversion Hwf as [| | | | |? Hlen Hes| | |]; subst. apply reads_back_map; [done|].
       rewrite Forall_forall in *. intros e He. destruct (IH e He), (Hes e He). auto. }
  all: intros d b He; pose proof (encode_depth _ _ _ He) as Hd; unfold reads_value; rewrite Nat.sub_succ_l by done.
  all: cbn [encode_into] in He; rewrite decide_False in He by lia; injection He as <-.
  - inversion Hwf; subst. exists (Uint n). split; [constructor|]. rewrite <-(app_nil_r (head 0 n)).
    apply value_body; [done|done|apply reads_ok].
  - inversion Hwf; subst. exists (Nint n). split; [constructor|]. rewrite <-(app_nil_r (head 1 n)).
    apply value_body; [done|done|apply reads_ok].
  - inversion Hwf; subst. exists (Bytes bs). split; [constructor|]. apply value_body; [done|done|].
    unfold body. simpl N.eqb. cbv iota.
    eapply (counted_reads 1 (length bs) _ (λ i n, mthen (take_bytes i n) (λ b, mok (Bytes b)))); [lia|lia|].
    eapply reads_then'; [by apply take_reads|apply reads_ok].
  - inversion Hwf as [| | |? Hlen Hb Hutf| | | | |]; subst. exists (Text s). split; [constructor|].
    apply value_body; [done|done|]. unfold body. simpl N.eqb. cbv iota.
    eapply (counted_reads 1 (length s) _ (λ i n, mthen (take_bytes i n) (λ s, if utf8 s then mok (Text s)
      else reject CborSyntax "invalid UTF-8 in text"))); [lia|lia|].
    eapply reads_then'; [by apply take_reads|]. rewrite Hutf. apply reads_ok.
  - exists (Bool x). split; [constructor|]. destruct x; (eapply (reads_then' byte); [apply byte_reads|apply reads_ok]).
  - exists Null. split; [constructor|]. eapply (reads_then' byte); [apply byte_reads|apply reads_ok].
  - inversion Hwf; subst. exists (Float (float_norm x)). split.
    { unfold float_norm. destruct (is_nan64 x) eqn:Hn; [by constructor|constructor]. }
    destruct (encode_float_reads x) as (first & tail & -> & Hmaj & Hr); [done|].
    change (first :: tail) with ([first] ++ tail). eapply reads_then; [apply byte_reads|].
    cbv zeta. rewrite Hmaj. exact Hr.
Qed.
End CborValue.
