(* ===== verification/CborCanon.v ===== *)
(** Canonical input: whatever the decoder takes is the encoding of its answer,
    byte for byte. *)
From S2P Require Import Prelude CborFloat Cbor CborSpec CborValue.
From stdpp Require Import sorting strings.

Module CborCanon.
Import CborFloat Cbor CborSpec CborValue.

Section input.
Context (input : list N) (Hbytes : is_bytes input).

(** ** Slices *)

Lemma slice_app a b c : a ≤ b ≤ c → slice input a b ++ slice input b c = slice input a c.
Proof.
  intros Hab. unfold slice. replace (drop b input) with (drop (b - a) (drop a input)) by (rewrite drop_drop; f_equal; lia).
  replace (c - a) with ((b - a) + (c - b)) by lia. by rewrite <-take_take_drop.
Qed.

Lemma slice_nil a : slice input a a = [].
Proof. unfold slice. by rewrite Nat.sub_diag. Qed.

Lemma length_slice a b : a ≤ b ≤ length input → length (slice input a b) = b - a.
Proof. intros Hab. unfold slice. rewrite length_take, length_drop. lia. Qed.

Lemma slice_byte a x : input !! a = Some x → slice input a (S a) = [x].
Proof.
  intros Ha. unfold slice. replace (S a - a) with 1 by lia. rewrite (drop_S input x a) by done. done.
Qed.

Lemma slice_bytes a b : is_bytes (slice input a b).
Proof. unfold slice. by apply Forall_take, Forall_drop. Qed.

(** ** Each reader *)

(** [m] went from [pos] to [p] over the bytes [b]. *)
Definition took (pos p : nat) (b : list N) : Prop := pos ≤ p ≤ length input ∧ slice input pos p = b.

Lemma took_app a b c x y : took a b x → took b c y → took a c (x ++ y).
Proof. intros [H1 <-] [H2 <-]. split; [lia|]. symmetry. apply slice_app. lia. Qed.

Lemma byte_took pos b p : byte input pos = (Ok b, p) → took pos p [b] ∧ (b < 256)%N.
Proof.
  unfold byte, mthen, mget, mset, mok. destruct (input !! pos) as [x|] eqn:Hx; [|done].
  intros [= <- <-]. split; [|exact (Forall_lookup_1 _ _ _ _ Hbytes Hx)]. split; [|by apply slice_byte].
  apply lookup_lt_Some in Hx. lia.
Qed.

Lemma byte_next pos b p : byte input pos = (Ok b, p) → p = S pos.
Proof. unfold byte, mthen, mget, mset, mok. destruct (input !! pos); [|done]. by intros [= _ <-]. Qed.

Lemma take_took n pos b p :
  pos ≤ length input → take_bytes input n pos = (Ok b, p) → took pos p b ∧ length b = n ∧ is_bytes b.
Proof.
  intros Hp. unfold take_bytes, mthen, mget, mset, mok, remaining. destruct (decide _); [done|].
  intros [= <- <-]. split_and!; [by split; [lia|]|rewrite length_slice; lia|apply slice_bytes].
Qed.

Lemma checked_len_inv arg k pos n p :
  checked_len input arg k pos = (Ok n, p) → 0 < k → p = pos ∧ arg = N.of_nat n ∧ n ≤ length input.
Proof.
  unfold checked_len, mthen, mget, mok, remaining. destruct (N.ltb_spec (N.of_nat ((length input - pos) / k)) arg); [done|].
  intros [= <- <-] Hk. assert ((length input - pos) / k ≤ length input - pos) by (apply Nat.Div0.div_le_upper_bound; nia).
  split_and!; [done|by rewrite N2Nat.id|lia].
Qed.

Lemma shortest_inv least v w pos p :
  shortest least v pos = (Ok w, p) → v = w ∧ p = pos ∧ (least < v)%N.
Proof. unfold shortest. destruct (N.leb_spec v least); [done|]. by intros [= <- <-]. Qed.

(** A head of a first byte and [k] more. *)
Lemma be_took k least pos v p :
  pos ≤ length input →
  mthen (take_bytes input k) (λ b, shortest least (from_be 0 b)) pos = (Ok v, p) →
  took pos p (be_bytes k v) ∧ (least < v < 256 ^ N.of_nat k)%N.
Proof.
  intros Hp (b & p1 & Hb & Hs)%mthen_inv. destruct (take_took _ _ _ _ Hp Hb) as (Ht & <- & Hbb).
  apply shortest_inv in Hs as (<- & -> & Hl). rewrite be_bytes_from by done.
  split; [done|]. split; [done|]. by apply from_be_lt.
Qed.

Lemma head_took pos first arg p :
  took pos (S pos) [first] → head_arg input (N.land first 0x1f) (S pos) = (Ok arg, p) →
  took pos p (head (N.shiftr first 5) arg) ∧ (arg < 2 ^ 64)%N.
Proof.
  intros Hf Ha. destruct (split_first first) as [Hfirst Hai].
  set (ai := N.land first 0x1f) in *. set (major := N.shiftr first 5) in *.
  assert (Hmt : N.lor (N.shiftl major 5) ai = first) by by destruct (first_byte major ai Hai) as [-> _].
  assert (Hp : S pos ≤ length input) by apply Hf. unfold head. cbv zeta. unfold head_arg in Ha.
  destruct (N.leb_spec ai 23) as [H1|H1].
  { injection Ha as <- <-. destruct (N.ltb_spec ai 24); [|lia]. rewrite Hmt. split; [done|lia]. }
  destruct (N.eqb_spec ai 24) as [H2|H2].
  { apply mthen_inv in Ha as (v & p1 & Hv & Ha). apply byte_took in Hv as [Hv Hlt].
    destruct (N.ltb_spec v 24); [done|]. injection Ha as <- <-. rewrite H2 in Hmt. rewrite Hmt.
    destruct (N.ltb_spec v 24); [lia|]. destruct (N.leb_spec v 0xff); [|lia].
    split; [by apply (took_app _ _ _ [first] [v] Hf)|lia]. }
  destruct (N.eqb_spec ai 25) as [H3|H3].
  { apply (be_took 2) in Ha as [Ht Hr]; [|done]. change (256 ^ N.of_nat 2)%N with 65536%N in Hr. rewrite H3 in Hmt. rewrite Hmt.
    destruct (N.ltb_spec arg 24); [lia|]. destruct (N.leb_spec arg 0xff); [lia|]. destruct (N.leb_spec arg 0xffff); [|lia].
    split; [by apply (took_app _ _ _ [first] _ Hf)|lia]. }
  destruct (N.eqb_spec ai 26) as [H4|H4].
  { apply (be_took 4) in Ha as [Ht Hr]; [|done]. change (256 ^ N.of_nat 4)%N with 4294967296%N in Hr. rewrite H4 in Hmt. rewrite Hmt.
    destruct (N.ltb_spec arg 24); [lia|]. destruct (N.leb_spec arg 0xff); [lia|]. destruct (N.leb_spec arg 0xffff); [lia|].
    destruct (N.leb_spec arg 0xffffffff); [|lia]. split; [by apply (took_app _ _ _ [first] _ Hf)|lia]. }
  destruct (N.eqb_spec ai 27) as [H5|H5]; [|done].
  apply (be_took 8) in Ha as [Ht Hr]; [|done]. change (256 ^ N.of_nat 8)%N with (2 ^ 64)%N in Hr. rewrite H5 in Hmt. rewrite Hmt.
  destruct (N.ltb_spec arg 24); [lia|]. destruct (N.leb_spec arg 0xff); [lia|]. destruct (N.leb_spec arg 0xffff); [lia|].
  destruct (N.leb_spec arg 0xffffffff); [lia|]. split; [by apply (took_app _ _ _ [first] _ Hf)|lia].
Qed.

(** What stands from [pos] to [p] is the encoding of [v] at depth [d]. *)
Definition stands (d pos p : nat) (v : Value) : Prop :=
  ∃ b, took pos p b ∧ encode_into v d = Ok b ∧ well_formed v.

Lemma encode_float_half h :
  (h < 2 ^ 16)%N → is_nan32 (f16_bits_to_f32 h) && negb (h =? 0x7e00)%N = false →
  encode_float (f32_as_f64 (f16_bits_to_f32 h)) = 0xf9%N :: be_bytes 2 h.
Proof.
  intros Hh Hn. pose proof (f16_bits_to_f32_lt h Hh) as Hlt. destruct (is_nan32 (f16_bits_to_f32 h)) eqn:Hnan.
  { simpl in Hn. apply negb_false_iff, N.eqb_eq in Hn as ->. reflexivity. }
  unfold encode_float. rewrite is_nan64_f32, Hnan by done. cbv zeta. rewrite f64_as_f32_as_f64 by done.
  rewrite feq64_refl by (by rewrite is_nan64_f32). rewrite f32_to_f16_to_f32 by done. by rewrite feq32_refl.
Qed.

Lemma encode_float_single x :
  (x < 2 ^ 32)%N → is_nan32 x = false → feq32 (f16_bits_to_f32 (f32_to_f16_bits x)) x = false →
  encode_float (f32_as_f64 x) = 0xfa%N :: be_bytes 4 x.
Proof.
  intros Hx Hn Hf. unfold encode_float. rewrite is_nan64_f32, Hn by done. cbv zeta.
  rewrite f64_as_f32_as_f64 by done. rewrite feq64_refl by (by rewrite is_nan64_f32). by rewrite Hf.
Qed.

Lemma simple_stands d pos first v p :
  d ≤ MAX_DEPTH → took pos (S pos) [first] → N.shiftr first 5 = 7%N →
  simple input (N.land first 0x1f) (S pos) = (Ok v, p) → stands d pos p v.
Proof.
  intros Hd Hf Hmaj Hs. destruct (split_first first) as [Hfirst Hai]. rewrite Hmaj in Hfirst.
  set (ai := N.land first 0x1f) in *. assert (Hp : S pos ≤ length input) by apply Hf. unfold simple in Hs.
  assert (Henc : ∀ b, (match v with Float x => encode_float x = b ∧ (x < 2 ^ 64)%N
      | Bool x => b = [if x then 0xf5 else 0xf4]%N | Null => b = [0xf6%N] | _ => False end) →
    took pos p b → stands d pos p v).
  { intros b Hv Ht. exists b. destruct v; try done; cbn [encode_into]; rewrite decide_False by lia.
    - subst b. split_and!; [done|done|constructor].
    - subst b. split_and!; [done|done|constructor].
    - destruct Hv as [-> Hx]. split_and!; [done|done|by constructor]. }
  destruct (N.eqb_spec ai 20) as [H1|H1].
  { injection Hs as <- <-. apply (Henc [first]); [|done]. simpl. f_equal. lia. }
  destruct (N.eqb_spec ai 21) as [H2|H2].
  { injection Hs as <- <-. apply (Henc [first]); [|done]. simpl. f_equal. lia. }
  destruct (N.eqb_spec ai 22) as [H3|H3].
  { injection Hs as <- <-. apply (Henc [first]); [|done]. simpl. f_equal. lia. }
  destruct (N.eqb_spec ai 25) as [H4|H4].
  { apply mthen_inv in Hs as (b & p1 & (Ht & Hl & Hb)%take_took & Hs); [|done]. cbv zeta in Hs.
    pose proof (from_be_lt b Hb) as Hlt. rewrite Hl in Hlt. change (256 ^ N.of_nat 2)%N with (2 ^ 16)%N in Hlt.
    destruct (is_nan32 _ && _) eqn:Hn; [done|]. injection Hs as <- <-.
    apply (Henc ([first] ++ b)); [|by eapply took_app]. rewrite encode_float_half by done.
    pose proof (be_bytes_from b Hb) as Hbe. rewrite Hl in Hbe. rewrite Hbe.
    split; [simpl; f_equal; lia|]. by apply f32_as_f64_lt, f16_bits_to_f32_lt. }
  destruct (N.eqb_spec ai 26) as [H5|H5].
  { apply mthen_inv in Hs as (b & p1 & (Ht & Hl & Hb)%take_took & Hs); [|done]. cbv zeta in Hs.
    pose proof (from_be_lt b Hb) as Hlt. rewrite Hl in Hlt. change (256 ^ N.of_nat 4)%N with (2 ^ 32)%N in Hlt.
    destruct (is_nan32 _) eqn:Hn; [done|]. destruct (feq32 _ _) eqn:Hfe; [done|]. injection Hs as <- <-.
    apply (Henc ([first] ++ b)); [|by eapply took_app]. rewrite encode_float_single by done.
    pose proof (be_bytes_from b Hb) as Hbe. rewrite Hl in Hbe. rewrite Hbe.
    split; [simpl; f_equal; lia|]. by apply f32_as_f64_lt. }
  destruct (N.eqb_spec ai 27) as [H6|H6]; [|done].
  apply mthen_inv in Hs as (b & p1 & (Ht & Hl & Hb)%take_took & Hs); [|done]. cbv zeta in Hs.
  pose proof (from_be_lt b Hb) as Hlt. rewrite Hl in Hlt. change (256 ^ N.of_nat 8)%N with (2 ^ 64)%N in Hlt.
  destruct (is_nan64 _) eqn:Hn; [done|]. destruct (feq64 _ _) eqn:Hfe; [done|]. injection Hs as <- <-.
  apply (Henc ([first] ++ b)); [|by eapply took_app]. unfold encode_float. rewrite Hn. cbv zeta. rewrite Hfe.
  pose proof (be_bytes_from b Hb) as Hbe. rewrite Hl in Hbe. rewrite Hbe. split; [simpl; f_equal; lia|done].
Qed.

(** ** Loops *)

Context (levels d : nat).
Context (IHvalue : ∀ pos v p, pos ≤ length input → value input levels pos = (Ok v, p) → stands d pos p v).

Lemma items_took n pos items p :
  pos ≤ length input → items_loop (value input levels) n pos = (Ok items, p) →
  length items = n ∧ Forall well_formed items ∧
  ∃ bs, Forall2 (λ v b, encode_into v d = Ok b) items bs ∧ took pos p (concat bs).
Proof.
  revert pos items p. induction n as [|n IH]; intros pos items p Hp Hl; cbn [items_loop] in Hl.
  { injection Hl as <- <-. split_and!; [done|done|]. exists []. split; [done|]. split; [lia|apply slice_nil]. }
  apply mthen_inv in Hl as (v & p1 & Hv & Hl). apply mthen_inv in Hl as (vs & p2 & Hvs & Hl).
  injection Hl as <- <-. destruct (IHvalue _ _ _ Hp Hv) as (b & Ht & Hb & Hw).
  destruct (IH p1 vs p2) as (Hlen & Hws & bs & Hbs & Hts); [apply Ht|done|].
  split_and!; [simpl; by rewrite Hlen|by constructor|]. exists (b :: bs). split; [by constructor|].
  by eapply took_app.
Qed.

Lemma entries_took n pos prev entries p :
  pos ≤ length input → entries_loop input (value input levels) n prev pos = (Ok entries, p) →
  length entries = n ∧ Forall (λ e, well_formed e.1 ∧ well_formed e.2) entries ∧
  ∃ enc, Forall2 (λ e c, encode_into e.1 d = Ok c.1 ∧ encode_into e.2 d = Ok c.2) entries enc ∧
    took pos p (concat (entry_bytes <$> enc)) ∧ Sorted key_lt enc ∧
    ∀ q, prev = Some q → HdRel key_lt (slice input q.1 q.2, []) enc.
Proof.
  revert pos prev entries p. induction n as [|n IH]; intros pos prev entries p Hp Hl; cbn [entries_loop] in Hl.
  { injection Hl as <- <-. split_and!; [done|done|]. exists []. split_and!; [done| |done|by constructor].
    split; [lia|apply slice_nil]. }
  apply mthen_inv in Hl as (ks & p0 & [= <- <-] & Hl). apply mthen_inv in Hl as (k & p1 & Hk & Hl).
  apply mthen_inv in Hl as (ke & p1' & [= <- <-] & Hl). apply mthen_inv in Hl as ([] & p1' & Hc & Hl).
  apply mthen_inv in Hl as (v & p2 & Hv & Hl). apply mthen_inv in Hl as (es & p3 & Hes & Hl).
  injection Hl as <- <-.
  assert (Horder : p1' = p1 ∧ ∀ q, prev = Some q → bytes_cmp (slice input q.1 q.2) (slice input pos p1) = Lt).
  { unfold check_order in Hc. destruct prev as [[ps pe]|]; [|by injection Hc as <-].
    destruct (bytes_cmp _ _) eqn:Hcmp; [done| |done]. injection Hc as <-. split; [done|]. by intros q [= <-]. }
  destruct Horder as [-> Horder]. destruct (IHvalue _ _ _ Hp Hk) as (kb & [Hkp Hks] & Hkb & Hkw).
  destruct (IHvalue p1 v p2) as (vb & Hvt & Hvb & Hvw); [lia|done|].
  destruct (IH p2 (Some (pos, p1)) es p3) as (Hlen & Hws & enc & Henc & Ht & Hs & Hq); [apply Hvt|done|].
  split_and!; [simpl; by rewrite Hlen|by constructor|]. exists ((kb, vb) :: enc). split_and!.
  - by constructor.
  - csimpl. unfold entry_bytes at 1. cbn [fst snd]. rewrite <-app_assoc. eapply took_app; [by split|].
    by eapply took_app.
  - constructor; [done|]. specialize (Hq _ eq_refl). cbn [fst snd] in Hq. rewrite Hks in Hq.
    destruct Hq; constructor. done.
  - intros q Hprev. constructor. unfold key_lt. cbn [fst snd]. rewrite <-Hks. by apply Horder.
Qed.
End input.

(** ** The decoder *)

Lemma value_stands input levels pos v p :
  is_bytes input → levels ≤ S MAX_DEPTH → pos ≤ length input →
  value input levels pos = (Ok v, p) → stands input (S MAX_DEPTH - levels) pos p v.
Proof.
  intros Hbytes. revert pos v p. induction levels as [|levels IH]; intros pos v p Hle Hp Hv; [done|].
  cbn [value] in Hv. apply mthen_inv in Hv as (first & p1 & Hf & Hv). cbv zeta in Hv.
  destruct (byte_took input Hbytes _ _ _ Hf) as [Hft Hlt]. apply byte_next in Hf as ->.
  set (d := S MAX_DEPTH - S levels). assert (Hd : d ≤ MAX_DEPTH) by lia.
  assert (IH' : ∀ pos v p, pos ≤ length input → value input levels pos = (Ok v, p) → stands input (S d) pos p v).
  { intros pos' v' p' Hp' Hv'. replace (S d) with (S MAX_DEPTH - levels) by lia. by apply IH; [lia|..]. }
  destruct (N.eqb_spec (N.shiftr first 5) 7) as [H7|H7].
  { by apply (simple_stands input Hbytes d pos first). }
  destruct (N.eqb_spec (N.shiftr first 5) 6) as [H6|H6]; [done|].
  apply mthen_inv in Hv as (arg & p2 & Ha & Hv).
  destruct (head_took input Hbytes _ _ _ _ Hft Ha) as [Hh Harg].
  assert (Hp2 : p2 ≤ length input) by apply Hh.
  destruct (N.eqb_spec (N.shiftr first 5) 0) as [H0|H0].
  { injection Hv as <- <-. rewrite H0 in Hh. eexists. split_and!; [exact Hh| |by constructor].
    cbn [encode_into]. by rewrite decide_False by lia. }
  destruct (N.eqb_spec (N.shiftr first 5) 1) as [H1|H1].
  { injection Hv as <- <-. rewrite H1 in Hh. eexists. split_and!; [exact Hh| |by constructor].
    cbn [encode_into]. by rewrite decide_False by lia. }
  destruct (N.eqb_spec (N.shiftr first 5) 2) as [H2|H2].
  { apply mthen_inv in Hv as (n & p3 & (-> & -> & Hn)%checked_len_inv & Hv); [|lia].
    apply mthen_inv in Hv as (b & p4 & (Hb & <- & Hbb)%take_took & Hv); [|done..]. injection Hv as <- <-.
    rewrite H2 in Hh. eexists. split_and!; [by eapply took_app| |by constructor].
    cbn [encode_into]. by rewrite decide_False by lia. }
  destruct (N.eqb_spec (N.shiftr first 5) 3) as [H3|H3].
  { apply mthen_inv in Hv as (n & p3 & (-> & -> & Hn)%checked_len_inv & Hv); [|lia].
    apply mthen_inv in Hv as (b & p4 & (Hb & <- & Hbb)%take_took & Hv); [|done..].
    destruct (utf8 b) eqn:Hutf; [|done]. injection Hv as <- <-.
    rewrite H3 in Hh. eexists. split_and!; [by eapply took_app| |by constructor].
    cbn [encode_into]. by rewrite decide_False by lia. }
  destruct (N.eqb_spec (N.shiftr first 5) 4) as [H4|H4].
  { apply mthen_inv in Hv as (n & p3 & (-> & -> & Hn)%checked_len_inv & Hv); [|lia].
    apply mthen_inv in Hv as (items & p4 & Hi & Hv). injection Hv as <- <-.
    destruct (items_took input levels (S d) IH' _ _ _ _ Hp2 Hi) as (<- & Hw & bs & Hbs & Ht).
    rewrite H4 in Hh. eexists. split_and!; [by eapply took_app| |by constructor].
    apply encode_array. split; [done|]. by exists bs. }
  destruct (N.eqb_spec (N.shiftr first 5) 5) as [H5|H5]; [|done].
  apply mthen_inv in Hv as (n & p3 & (-> & -> & Hn)%checked_len_inv & Hv); [|lia].
  apply mthen_inv in Hv as (es & p4 & He & Hv). injection Hv as <- <-.
  destruct (entries_took input levels (S d) IH' _ _ _ _ _ Hp2 He) as (<- & Hw & enc & Henc & Ht & Hs & _).
  apply Sorted_StronglySorted in Hs; [|apply _]. rewrite H5 in Hh.
  eexists. split_and!; [by eapply took_app| |by constructor].
  apply encode_map. split; [done|]. exists enc. rewrite sort_strict by done.
  split_and!; [done|by apply strict_no_duplicate|]. by rewrite (Forall2_length _ _ _ Henc).
Qed.
End CborCanon.
