(* ===== verification/CborThm.v ===== *)
(** What the manifest's encoding promises: round trips both ways, one encoding
    per value, no valid encoding inside another, and refusals instead of
    panics. *)
From S2P Require Import Prelude CborFloat Cbor CborSpec CborValue CborCanon.
From stdpp Require Import sorting strings.

Module CborThm.
Import CborFloat Cbor CborSpec CborValue CborCanon.

(** ** The encoder writes bytes *)

Lemma is_bytes_app a b : is_bytes (a ++ b) ↔ is_bytes a ∧ is_bytes b.
Proof. apply Forall_app. Qed.

Lemma is_bytes_cons x b : (x < 256)%N → is_bytes b → is_bytes (x :: b).
Proof. by constructor. Qed.

Lemma first_small major ai : (major < 8)%N → (ai < 32)%N → (N.lor (N.shiftl major 5) ai < 256)%N.
Proof. intros Hm Ha. destruct (first_byte major ai Ha) as [-> _]. lia. Qed.

Lemma head_is_bytes major arg : (major < 8)%N → is_bytes (head major arg).
Proof.
  intros Hm. unfold head. cbv zeta. destruct (N.ltb_spec arg 24).
  { apply is_bytes_cons; [apply first_small; lia|constructor]. }
  destruct (N.leb_spec arg 0xff).
  { apply is_bytes_cons; [by apply first_small|]. apply is_bytes_cons; [lia|constructor]. }
  destruct (N.leb_spec arg 0xffff); [|destruct (N.leb_spec arg 0xffffffff)];
    (apply is_bytes_cons; [by apply first_small|apply be_bytes_is_bytes]).
Qed.

Lemma encode_float_is_bytes x : is_bytes (encode_float x).
Proof.
  unfold encode_float. cbv zeta. destruct (is_nan64 x); [|destruct (feq64 _ _); [destruct (feq32 _ _)|]];
    (apply is_bytes_cons; [done|apply be_bytes_is_bytes]).
Qed.

Lemma encode_is_bytes v : well_formed v → ∀ d b, encode_into v d = Ok b → is_bytes b.
Proof.
  induction v as [n|n|bs|s|items IH|entries IH|x| |x] using Value_nested_ind; intros Hwf d b He.
  5: { apply encode_array in He as (_ & bs & Hbs & ->). inversion Hwf as [| | | |? Hlen Hitems| | | |]; subst.
       apply is_bytes_app. split; [by apply head_is_bytes|]. apply Forall_concat, Forall_forall. intros c Hc.
       apply list_elem_of_lookup in Hc as [j Hj]. destruct (Forall2_lookup_r _ _ _ _ _ Hbs Hj) as (v & Hv & Hvb).
       apply list_elem_of_lookup_2 in Hv. rewrite Forall_forall in IH, Hitems. by eapply IH; [|apply Hitems|]. }
  5: { apply encode_map in He as (_ & enc & Henc & _ & ->). inversion Hwf as [| | | | |? Hlen Hes| | |]; subst.
       apply is_bytes_app. split; [by apply head_is_bytes|]. apply Forall_concat. apply Forall_fmap.
       rewrite merge_sort_Permutation. apply Forall_forall. intros c Hc.
       apply list_elem_of_lookup in Hc as [j Hj]. destruct (Forall2_lookup_r _ _ _ _ _ Henc Hj) as (e & He & Hk & Hv).
       apply list_elem_of_lookup_2 in He. rewrite Forall_forall in IH, Hes. destruct (IH e He), (Hes e He).
       simpl. unfold entry_bytes. apply is_bytes_app. split; eauto. }
  all: pose proof (encode_depth _ _ _ He) as Hd; cbn [encode_into] in He; rewrite decide_False in He by lia;
    injection He as <-.
  - by apply head_is_bytes.
  - by apply head_is_bytes.
  - inversion Hwf; subst. apply is_bytes_app. split; [by apply head_is_bytes|done].
  - inversion Hwf; subst. apply is_bytes_app. split; [by apply head_is_bytes|done].
  - apply is_bytes_cons; [by destruct x|constructor].
  - by apply is_bytes_cons; [|constructor].
  - apply encode_float_is_bytes.
Qed.

(** ** Whole inputs *)

Lemma decode_reads b v c :
  reads_value 0 v b → decode (b ++ c) =
    if decide (c = []) then Ok v else Err (Reject CborSyntax "trailing bytes").
Proof.
  intros Hr. unfold decode, decode_run. unfold reads_value in Hr. rewrite Nat.sub_0_r in Hr.
  erewrite mthen_ok by (by eapply (Hr (b ++ c) 0 c)). erewrite mthen_ok by reflexivity.
  rewrite length_app, Nat.add_0_l. destruct (decide (c = [])) as [->|Hc].
  - rewrite decide_False; [done|]. simpl. lia.
  - rewrite decide_True; [done|]. destruct c; simpl; [done|lia].
Qed.

Lemma decode_inv b v : is_bytes b → decode b = Ok v → encode v = Ok b ∧ well_formed v.
Proof.
  intros Hb Hd. unfold decode, decode_run in Hd. destruct (value b (S MAX_DEPTH) 0) as [[v'|e|] p] eqn:Hv.
  2, 3: unfold mthen in Hd; rewrite Hv in Hd; discriminate Hd.
  erewrite mthen_ok in Hd by exact Hv. erewrite mthen_ok in Hd by reflexivity.
  destruct (decide (p ≠ length b)) as [|Hp]; [done|]. injection Hd as ->.
  destruct (value_stands b _ _ _ _ Hb (le_n _) (Nat.le_0_l _) Hv) as (c & [Hr Hs] & He & Hw).
  split; [|done]. unfold encode. rewrite Nat.sub_diag in He. rewrite He. f_equal. rewrite <-Hs.
  unfold slice. replace p with (length b) by lia. rewrite Nat.sub_0_r. by apply firstn_all.
Qed.

(** C37. What is encoded decodes to the same value, but for the order of map
    entries and the bits of a NaN, and that value's encoding is the same bytes. *)
Theorem cbor_roundtrip v b :
  well_formed v → encode v = Ok b → ∃ v', decode b = Ok v' ∧ same v v' ∧ encode v' = Ok b.
Proof.
  intros Hw He. destruct (encode_reads v Hw 0 b He) as (v' & Hs & Hr).
  pose proof (decode_reads b v' [] Hr) as Hd. rewrite app_nil_r, decide_True in Hd by done.
  exists v'. split_and!; [done|done|]. apply (decode_inv b v'); [|done]. by eapply encode_is_bytes.
Qed.

(** The decoder takes canonical input only: bytes that decode are the
    encoding of what they decode to, so no value has two encodings. *)
Theorem cbor_canonical b v :
  is_bytes b → decode b = Ok v → encode v = Ok b ∧ well_formed v.
Proof. apply decode_inv. Qed.

(** ** Refusals *)

Definition cbor_rule (r : Rule) : Prop := r ∈ [CborSyntax; CborDeterminism; CborDuplicateKey; CborDepth].

(** Wherever it starts, a reader answers or rejects. *)
Definition safe {A} (m : method nat Error A) : Prop :=
  ∀ pos, match fst (m pos) with
  | Ok _ => True
  | Err e => ∃ r, error_rule e = Some r ∧ cbor_rule r
  | Panic => False
  end.

Lemma safe_ok {A} (a : A) : safe (mok a).
Proof. done. Qed.

Lemma safe_reject {A} r detail : cbor_rule r → safe (@reject A r detail).
Proof. intros Hr pos. simpl. by exists r. Qed.

Lemma safe_then {A B} (m : method nat Error A) (k : A → method nat Error B) :
  safe m → (∀ a, safe (k a)) → safe (mthen m k).
Proof.
  intros Hm Hk pos. unfold mthen. specialize (Hm pos). destruct (m pos) as [[a|e|] p]; [apply Hk|done..].
Qed.

Lemma safe_get : safe mget.
Proof. done. Qed.

Lemma safe_set pos : safe (mset pos).
Proof. done. Qed.

#[local] Hint Resolve safe_ok safe_reject safe_then safe_get safe_set : core.

(** Follows a reader call by call and branch by branch. *)
Ltac solve_safe := repeat (intros; cbv zeta; first
  [ apply safe_ok | apply safe_get | apply safe_set | assumption
  | apply safe_reject; unfold cbor_rule; repeat (first [by left | right])
  | progress auto with safe_readers
  | apply safe_then
  | match goal with |- safe (if ?c then _ else _) => destruct c end
  | match goal with |- safe (match ?c with _ => _ end) => destruct c end ]).

Create HintDb safe_readers.

Lemma safe_take input n : safe (take_bytes input n).
Proof. unfold take_bytes. solve_safe. Qed.

Lemma safe_byte input : safe (byte input).
Proof. unfold byte. solve_safe. Qed.

#[local] Hint Resolve safe_take safe_byte : safe_readers.

Lemma safe_head_arg input ai : safe (head_arg input ai).
Proof. unfold head_arg, shortest. solve_safe. Qed.

Lemma safe_checked_len input arg k : safe (checked_len input arg k).
Proof. unfold checked_len. solve_safe. Qed.

Lemma safe_simple input ai : safe (simple input ai).
Proof. unfold simple. solve_safe. Qed.

Lemma safe_items m n : safe m → safe (items_loop m n).
Proof. intros Hm. induction n as [|n IH]; simpl; solve_safe. Qed.

Lemma safe_entries input m n prev : safe m → safe (entries_loop input m n prev).
Proof.
  intros Hm. revert prev. induction n as [|n IH]; intros prev; simpl; [solve_safe|].
  assert (Hc : ∀ ks ke, safe (check_order input prev ks ke)) by (unfold check_order; solve_safe).
  solve_safe.
Qed.

#[local] Hint Resolve safe_head_arg safe_checked_len safe_simple safe_items safe_entries : safe_readers.

(** A first byte has a major type of three bits, so the last branch is never
    taken. *)
Lemma safe_value input levels : is_bytes input → safe (value input levels).
Proof.
  intros Hb. induction levels as [|levels IH]; cbn [value]; [solve_safe|]. intros pos.
  pose proof (safe_byte input pos) as Hs. destruct (byte input pos) as [[first|e|] p] eqn:Hf.
  2, 3: unfold mthen; by rewrite Hf.
  erewrite mthen_ok by exact Hf. destruct (byte_took input Hb _ _ _ Hf) as [_ Hlt]. cbv zeta.
  assert (Hmaj : (N.shiftr first 5 < 8)%N) by (by apply (shiftr_lt first 5 3)).
  destruct (N.eqb_spec (N.shiftr first 5) 7); [apply safe_simple|].
  destruct (N.eqb_spec (N.shiftr first 5) 6).
  { apply (safe_reject (A := Value) CborSyntax "tags are not permitted"). by left. }
  assert (H : safe (arg ⇐ head_arg input (N.land first 0x1f) ;; body levels (N.shiftr first 5) arg input)).
  { apply safe_then; [apply safe_head_arg|]. intros arg. unfold body.
    do 5 (match goal with |- safe (if (?x =? ?y)%N then _ else _) => destruct (N.eqb_spec x y); [solve_safe|] end).
    destruct (N.eqb_spec (N.shiftr first 5) 5); [solve_safe|lia]. }
  apply H.
Qed.

(** Every byte string is decoded or refused under one of four rules; none
    makes the decoder panic. *)
Theorem cbor_decode_total b :
  is_bytes b →
  (∃ v, decode b = Ok v) ∨ (∃ r detail, decode b = Err (Reject r detail) ∧ cbor_rule r).
Proof.
  intros Hb. assert (H : safe (decode_run b)).
  { unfold decode_run. apply safe_then; [by apply safe_value|]. solve_safe. }
  specialize (H 0). unfold decode. destruct (decode_run b 0) as [[v|e|] p]; simpl in *; [by left; exists v| |done].
  right. destruct H as (r & He & Hr). destruct e as [r' detail| | |]; [|done..]. injection He as ->.
  by exists r, detail.
Qed.

(** No encoding is a proper beginning of another: with bytes after it, it is
    refused for them, and cut short, it is refused too. *)
Theorem cbor_prefix_free b v :
  is_bytes b → decode b = Ok v →
  (∀ c, c ≠ [] → decode (b ++ c) = Err (Reject CborSyntax "trailing bytes")) ∧
  (∀ p c, b = p ++ c → c ≠ [] → ∃ r detail, decode p = Err (Reject r detail)).
Proof.
  intros Hb Hd.
  assert (Htail : ∀ b v c, is_bytes b → decode b = Ok v → c ≠ [] →
    decode (b ++ c) = Err (Reject CborSyntax "trailing bytes")).
  { intros b' v' c Hb' Hd' Hc. destruct (decode_inv b' v' Hb' Hd') as [He Hw].
    destruct (encode_reads v' Hw 0 b' He) as (w & _ & Hr). rewrite (decode_reads b' w c Hr). by rewrite decide_False. }
  split; [intros c; by apply (Htail b v)|]. intros p c -> Hc. apply is_bytes_app in Hb as [Hp _].
  assert (H : safe (decode_run p)) by (unfold decode_run; apply safe_then; [by apply safe_value|]; solve_safe).
  specialize (H 0). destruct (decode p) as [w|e|] eqn:Hw; unfold decode in Hw.
  - by rewrite (Htail p w c Hp Hw Hc) in Hd.
  - rewrite Hw in H. destruct H as (r & He & _). destruct e as [r' detail| | |]; [|done..].
    by exists r', detail.
  - by rewrite Hw in H.
Qed.

(** Nesting stops at the limit: thirty-three arrays around anything are
    refused, whatever follows, and nothing that deep is encoded. *)
Theorem cbor_depth_bound rest v :
  1 ≤ length rest →
  decode (replicate (S MAX_DEPTH) 0x81%N ++ rest) = Err (Reject CborDepth "nesting too deep") ∧
  encode (Nat.iter (S MAX_DEPTH) (λ v, Array [v]) v) = Err (InvalidInput "CBOR nesting exceeds 32").
Proof.
  intros Hr. split.
  - unfold decode, decode_run. erewrite mthen_err; [done|].
    assert (H : ∀ n input pos, drop pos input = replicate n 0x81%N ++ rest →
      value input n pos = (Err (Reject CborDepth "nesting too deep"), pos + n)).
    { clear -Hr. induction n as [|n IH]; intros input pos Hd; [by rewrite Nat.add_0_r|]. cbn [value].
      erewrite mthen_ok by (eapply (byte_reads 0x81); exact Hd). cbv zeta.
      apply (drop_more input pos [0x81%N]) in Hd. simpl length in *.
      simpl. erewrite mthen_ok by reflexivity.
      erewrite mthen_ok.
      2: { apply (checked_len_ok input (pos + 1) 1 1); [lia|].
           assert (Hl : length (drop (pos + 1) input) = n + length rest)
             by (rewrite Hd, length_app, length_replicate; done). rewrite length_drop in Hl. lia. }
      cbn [items_loop]. erewrite mthen_err; [done|]. erewrite mthen_err; [done|].
      rewrite (IH input (pos + 1) Hd). f_equal. lia. }
    apply H. done.
  - unfold encode. destruct v; reflexivity.
Qed.

(** ** Instances *)

(** A map out of order with a nested array, a NaN, a half and a double. *)
Definition sample_value : Value :=
  Map [(Text [98; 98]%N, Uint 300); (Text [97]%N, Array [Null; Float 0x7ff8000000000001; Float 0x3ff8000000000000]);
       (Uint 7, Float 0x3ff199999999999a)].
Definition sample_bytes : list N :=
  [0xa3; 0x07; 0xfb; 0x3f; 0xf1; 0x99; 0x99; 0x99; 0x99; 0x99; 0x9a; 0x61; 97; 0x83; 0xf6; 0xf9; 0x7e; 0x00;
   0xf9; 0x3e; 0x00; 0x62; 98; 98; 0x19; 0x01; 0x2c]%N.

Lemma sample_well_formed : well_formed sample_value.
Proof. repeat (constructor || (simpl; lia)). Qed.

Lemma sample_is_bytes : is_bytes sample_bytes.
Proof. repeat constructor. Qed.

Definition sample_decoded : Value :=
  Map [(Uint 7, Float 0x3ff199999999999a);
       (Text [97]%N, Array [Null; Float nan_bits; Float 0x3ff8000000000000]); (Text [98; 98]%N, Uint 300)].

Lemma cbor_roundtrip_witness :
  ∃ v', decode sample_bytes = Ok v' ∧ same sample_value v' ∧ encode v' = Ok sample_bytes.
Proof. exact (cbor_roundtrip sample_value sample_bytes sample_well_formed ltac:(vm_compute; reflexivity)). Defined.

Lemma cbor_canonical_witness : encode sample_decoded = Ok sample_bytes ∧ well_formed sample_decoded.
Proof. exact (cbor_canonical sample_bytes sample_decoded sample_is_bytes ltac:(vm_compute; reflexivity)). Defined.

Lemma cbor_decode_total_witness :
  (∃ v, decode sample_bytes = Ok v) ∨ (∃ r detail, decode sample_bytes = Err (Reject r detail) ∧ cbor_rule r).
Proof. exact (cbor_decode_total sample_bytes sample_is_bytes). Defined.

Lemma cbor_prefix_free_witness :
  decode (sample_bytes ++ [0%N]) = Err (Reject CborSyntax "trailing bytes") ∧
  ∃ r detail, decode (take 20 sample_bytes) = Err (Reject r detail).
Proof.
  destruct (cbor_prefix_free sample_bytes sample_decoded sample_is_bytes ltac:(vm_compute; reflexivity)) as [H1 H2].
  split; [by apply H1|]. by apply (H2 (take 20 sample_bytes) (drop 20 sample_bytes)).
Defined.

Lemma cbor_depth_bound_witness :
  decode (replicate 40 0x81%N) = Err (Reject CborDepth "nesting too deep").
Proof. apply (cbor_depth_bound (replicate 7 0x81%N) Null). simpl. lia. Defined.
End CborThm.
