(* ===== verification/Lifecycle.v ===== *)
(** A working set's life among threads ([store/kv/working_set.rs]): fire leases,
    its release, the suspend fence and the wait for quiet, as interleaved steps
    on shared atomics. Each step is one access. *)
From S2P Require Import Prelude.

Module Lifecycle.

Inductive FireLeaseError : Set := Released | Fenced.

#[export] Instance fire_lease_error_eq_dec : EqDecision FireLeaseError.
Proof. solve_decision. Defined.

(** Where a thread stands. [notify] is whether it wakes the waiters once
    [maybe_release] is done. *)
Inductive Pc : Set :=
  | Idle
  (* acquire_fire_lease *)
  | AcqCheck | AcqAdd | AcqRecheck | AcqFence | AcqUndo (refusal : FireLeaseError)
  (* between fire_lease and the drop of its lease *)
  | Holding
  (* maybe_release *)
  | MrFlag (notify : bool) | MrLeases (notify : bool) | MrSwap (notify : bool) | MrFree (notify : bool)
  (* notify_waiters *)
  | Notify
  (* release, fence and unfence *)
  | RelStore | FenceStore (up : bool)
  (* quiesce; [notified] is a wake-up that came since enable *)
  | QLoad | QEnable | QReload (notified : bool) | QWait.

#[export] Instance pc_eq_dec : EqDecision Pc.
Proof. solve_decision. Defined.

(** The calls a thread makes. *)
Inductive Op : Set := OpFireLease | OpDropLease | OpRelease | OpFence | OpUnfence | OpQuiesce.

#[export] Instance op_eq_dec : EqDecision Op.
Proof. solve_decision. Defined.

(** [KvLifecycle], with what the steps did besides: how often the store's pages
    were freed, whether a wait for quiet ended under the fence that is still up,
    and whether a debug assertion failed. *)
Record Lifecycle : Type := mkLifecycle {
  released : bool;
  release_requested : bool;
  active_fire_leases : nat;
  suspend_fence : bool;
  freed : nat;
  quiet : bool;
  assert_failed : bool;
}.

(** The threads, and which of them still hold their store of
    [release_requested] back from the others. *)
Record State : Type := mkState { life : Lifecycle; threads : list Pc; held_back : list bool }.

Definition new (n : nat) : State :=
  mkState (mkLifecycle false false 0 false 0 false false) (replicate n Idle) (replicate n false).

(** What a thread does next: starts a call, makes its next access, or lets its store of
    [release_requested] reach the others. A store of the order [Release] may reach them
    after later loads of the thread that made it, as a processor's store buffer lets it,
    while the thread sees it at once; read-modify-writes and [SeqCst] stores wait for the
    buffer to be empty. *)
Inductive Action : Set := Start (op : Op) | Run | Flush.

Definition set_requested (l : Lifecycle) : Lifecycle :=
  mkLifecycle (released l) true (active_fire_leases l) (suspend_fence l) (freed l) (quiet l) (assert_failed l).
Definition set_leases (n : nat) (l : Lifecycle) : Lifecycle :=
  mkLifecycle (released l) (release_requested l) n (suspend_fence l) (freed l) (quiet l) (assert_failed l).
Definition set_released (l : Lifecycle) : Lifecycle :=
  mkLifecycle true (release_requested l) (active_fire_leases l) (suspend_fence l) (freed l) (quiet l) (assert_failed l).
Definition set_fence (up : bool) (l : Lifecycle) : Lifecycle :=
  mkLifecycle (released l) (release_requested l) (active_fire_leases l) up (freed l) (up && quiet l) (assert_failed l).
Definition free_pages (l : Lifecycle) : Lifecycle :=
  mkLifecycle (released l) (release_requested l) (active_fire_leases l) (suspend_fence l) (S (freed l)) (quiet l) (assert_failed l).
Definition end_quiesce (l : Lifecycle) : Lifecycle :=
  mkLifecycle (released l) (release_requested l) (active_fire_leases l) (suspend_fence l) (freed l)
    (suspend_fence l || quiet l) (assert_failed l).
Definition fail_assert (l : Lifecycle) : Lifecycle :=
  mkLifecycle (released l) (release_requested l) (active_fire_leases l) (suspend_fence l) (freed l) (quiet l) true.

(** After [maybe_release]. *)
Definition mr_done (notify : bool) : Pc := if notify then Notify else Idle.

(** [fetch_sub(1)] and its assertion; [maybe_release] follows always in a refused
    acquisition, and in a drop only of the last lease. *)
Definition sub_lease (always : bool) (l : Lifecycle) : Pc * Lifecycle :=
  let previous := active_fire_leases l in
  let l := if decide (0 < previous) then l else fail_assert l in
  (if always || bool_decide (previous = 1) then MrFlag (bool_decide (previous = 1)) else Idle,
   set_leases (previous - 1) l).

(** [notify_waiters]. *)
Definition wake (pc : Pc) : Pc :=
  match pc with QWait => QLoad | QReload _ => QReload true | pc => pc end.

Definition start (op : Op) (pc : Pc) : option Pc :=
  match op, pc with
  | OpFireLease, Idle => Some AcqCheck
  | OpRelease, Idle => Some RelStore
  | OpFence, Idle => Some (FenceStore true)
  | OpUnfence, Idle => Some (FenceStore false)
  | OpQuiesce, Idle => Some QLoad
  | _, _ => None
  end.

(** Whether a step waits for the thread's own buffer. *)
Definition drains (pc : Pc) : bool :=
  match pc with
  | AcqAdd | AcqUndo _ | Holding | MrSwap _ | MrFree _ | FenceStore _ => true
  | _ => false
  end.

(** One access of the thread at [pc], which sees [requested] in
    [release_requested]. *)
Definition access (pc : Pc) (requested : bool) (l : Lifecycle) : option (Pc * Lifecycle) :=
  match pc with
  | AcqCheck => Some (if requested then Idle else AcqAdd, l)
  | AcqAdd => Some (AcqRecheck, set_leases (S (active_fire_leases l)) l)
  | AcqRecheck => Some (if requested then AcqUndo Released else AcqFence, l)
  | AcqFence => Some (if suspend_fence l then AcqUndo Fenced else Holding, l)
  | AcqUndo _ => Some (sub_lease true l)
  | MrFlag notify => Some (if requested then MrLeases notify else mr_done notify, l)
  | MrLeases notify =>
      Some (if decide (active_fire_leases l ≠ 0) then mr_done notify else MrSwap notify, l)
  | MrSwap notify => Some (if released l then mr_done notify else MrFree notify, set_released l)
  | MrFree notify => Some (mr_done notify, free_pages l)
  | FenceStore up => Some (Idle, set_fence up l)
  | QLoad => Some (if decide (active_fire_leases l = 0) then (Idle, end_quiesce l) else (QEnable, l))
  | QEnable => Some (QReload false, l)
  | QReload notified =>
      Some (if decide (active_fire_leases l = 0) then (Idle, end_quiesce l)
            else (if notified then QLoad else QWait, l))
  | Idle | Holding | Notify | RelStore | QWait => None
  end.

(** One step of thread [i]. *)
Definition step (s : State) (i : nat) (a : Action) : option State :=
  match threads s !! i, held_back s !! i with
  | Some pc, Some held =>
      match a with
      | Flush =>
          if held then Some (mkState (set_requested (life s)) (threads s) (<[i := false]> (held_back s)))
          else None
      | Start OpDropLease =>
          match pc with
          | Holding =>
              if (held : bool) then @None State
              else let '(pc', l) := sub_lease false (life s) in
                   Some (mkState l (<[i := pc']> (threads s)) (held_back s))
          | _ => None
          end
      | Start op =>
          match start op pc with
          | Some pc' => Some (mkState (life s) (<[i := pc']> (threads s)) (held_back s))
          | None => None
          end
      | Run =>
          if held && drains pc then None
          else
            match pc with
            | RelStore =>
                Some (mkState (life s) (<[i := MrFlag false]> (threads s)) (<[i := true]> (held_back s)))
            | Notify => Some (mkState (life s) (wake <$> <[i := Idle]> (threads s)) (held_back s))
            | pc =>
                match access pc (release_requested (life s) || held) (life s) with
                | Some (pc', l) => Some (mkState l (<[i := pc']> (threads s)) (held_back s))
                | None => None
                end
            end
      end
  | _, _ => None
  end.

(** An execution of [n] threads. *)
Fixpoint run (s : State) (trace : list (nat * Action)) : option State :=
  match trace with
  | [] => Some s
  | (i, a) :: trace => match step s i a with Some s => run s trace | None => None end
  end.

Definition reachable (n : nat) (s : State) : Prop := ∃ trace, run (new n) trace = Some s.
End Lifecycle.
