(* ===== verification/LifecycleThm.v ===== *)
(** What the life of a working set promises its threads: its pages are freed once, quiet
    under the fence stays, a waiter is woken; and where the loads of a release asked for
    do not miss it, the pages are never freed under a lease and not forgotten. And what
    is lost where one does, as a [Release] store may lag behind a later load. *)
From S2P Require Import Prelude Lifecycle.

Module LifecycleThm.
Import Lifecycle.

(** ** Counting threads *)

Definition tally (f : Pc → bool) (l : list Pc) : nat := sum_list ((λ pc, Nat.b2n (f pc)) <$> l).

Lemma many_insert f (l : list Pc) i pc pc' :
  l !! i = Some pc → tally f (<[i := pc']> l) + Nat.b2n (f pc) = tally f l + Nat.b2n (f pc').
Proof.
  unfold tally. revert i. induction l as [|x l IH]; intros [|i] Hi; simplify_eq/=; [lia|].
  specialize (IH i Hi). lia.
Qed.

Lemma tally_elem f (l : list Pc) i pc : l !! i = Some pc → f pc = true → 0 < tally f l.
Proof.
  unfold tally. revert i. induction l as [|x l IH]; intros [|i] Hi Hf; simplify_eq/=; [rewrite Hf; simpl; lia|].
  specialize (IH i Hi Hf). lia.
Qed.

Lemma many_pos f (l : list Pc) : 0 < tally f l → ∃ i pc, l !! i = Some pc ∧ f pc = true.
Proof.
  unfold tally. induction l as [|x l IH]; simpl; [lia|]. intros Hp. destruct (f x) eqn:Hf.
  - by exists 0, x.
  - simpl in Hp. destruct (IH Hp) as (i & pc & Hi & Hpc). by exists (S i), pc.
Qed.

Lemma tally_wake f (l : list Pc) : (∀ pc, f (wake pc) = f pc) → tally f (wake <$> l) = tally f l.
Proof. intros Hf. unfold tally. induction l as [|x l IH]; csimpl; [done|]. by rewrite Hf, IH. Qed.

Lemma tally_le f g (l : list Pc) : (∀ pc, f pc = true → g pc = true) → tally f l ≤ tally g l.
Proof.
  intros Hfg. unfold tally. induction l as [|x l IH]; csimpl; [lia|]. specialize (Hfg x).
  destruct (f x); [rewrite Hfg by done|]; cbn [Nat.b2n]; lia.
Qed.

Lemma tally_woken (l : list Pc) : tally (λ pc, bool_decide (pc = QWait)) (wake <$> l) = 0.
Proof. unfold tally. induction l as [|x l IH]; csimpl; [done|]. rewrite IH. by destruct x. Qed.

Lemma tally_new f n : f Idle = false → tally f (replicate n Idle) = 0.
Proof. intros Hf. unfold tally. induction n as [|n IH]; csimpl; [done|]. by rewrite Hf, IH. Qed.

Lemma b2n_le b : Nat.b2n b ≤ 1.
Proof. destruct b; simpl; lia. Qed.

(** Threads counted in [active_fire_leases]. *)
Definition counted (pc : Pc) : bool :=
  match pc with AcqRecheck | AcqFence | AcqUndo _ | Holding => true | _ => false end.
(** Past the check for a release. *)
Definition passed (pc : Pc) : bool := match pc with AcqFence | Holding => true | _ => false end.
Definition holding (pc : Pc) : bool := match pc with Holding => true | _ => false end.
(** In [maybe_release], past each of its conditions. *)
Definition wanted (pc : Pc) : bool := match pc with MrLeases _ | MrSwap _ | MrFree _ => true | _ => false end.
Definition swapping (pc : Pc) : bool := match pc with MrSwap _ => true | _ => false end.
Definition freeing (pc : Pc) : bool := match pc with MrFree _ => true | _ => false end.
(** About to look whether to release. *)
Definition looking (pc : Pc) : bool := match pc with MrFlag _ | MrLeases _ | MrSwap _ => true | _ => false end.
Definition waiting (pc : Pc) : bool := bool_decide (pc = QWait).
Definition waking (pc : Pc) : bool :=
  match pc with Notify | MrFlag true | MrLeases true | MrSwap true | MrFree true => true | _ => false end.

(** ** Releases that are seen *)

(** A release has been asked for, whether or not the store has reached the others. *)
Definition asked (s : State) : bool := release_requested (life s) || existsb id (held_back s).
(** The next access of thread [i] is one of these loads of [release_requested], and misses a
    release that was asked for. *)
Definition misses (load : Pc → bool) (s : State) (i : nat) : bool :=
  match threads s !! i, held_back s !! i with
  | Some pc, Some held => load pc && negb (release_requested (life s) || held) && asked s
  | _, _ => false
  end.
(** No such load of the execution misses a release. *)
Fixpoint heeds (load : Pc → bool) (s : State) (trace : list (nat * Action)) : bool :=
  match trace with
  | [] => true
  | (i, a) :: trace =>
      match a with Run => negb (misses load s i) | _ => true end &&
      match step s i a with Some s' => heeds load s' trace | None => true end
  end.

(** The load that follows the counting of a lease, and that of [maybe_release]. *)
Definition rechecking (pc : Pc) : bool := match pc with AcqRecheck => true | _ => false end.
Definition flag_load (pc : Pc) : bool := match pc with MrFlag _ => true | _ => false end.

(** ** The invariants *)

(** Of any execution. *)
Record inv (s : State) : Prop := {
  iv_leases : active_fire_leases (life s) = tally counted (threads s);
  iv_freed : freed (life s) + tally freeing (threads s) = Nat.b2n (released (life s));
  iv_wanted : 0 < tally wanted (threads s) + Nat.b2n (released (life s)) → Nat.b2n (asked s) = 1;
  iv_assert : assert_failed (life s) = false;
  iv_quiet : Nat.b2n (quiet (life s)) = 1 →
    Nat.b2n (suspend_fence (life s)) = 1 ∧ tally holding (threads s) = 0;
  iv_waiting : 0 < tally waiting (threads s) → 0 < active_fire_leases (life s) + tally waking (threads s);
  iv_length : length (held_back s) = length (threads s);
}.
(** Where each acquisition sees the releases asked for before it looks again. *)
Definition closed (s : State) : Prop :=
  0 < tally swapping (threads s) + Nat.b2n (released (life s)) → tally passed (threads s) = 0.
(** Where [maybe_release] sees them. *)
Definition pending (s : State) : Prop :=
  Nat.b2n (asked s) = 1 → 0 < Nat.b2n (released (life s)) + tally counted (threads s) + tally looking (threads s).

Lemma no_held n : existsb id (replicate n false) = false.
Proof. by induction n. Qed.
Lemma held_elem (l : list bool) i : l !! i = Some true → existsb id l = true.
Proof. intros Hi. apply existsb_exists. exists true. split; [|done]. by eapply list_elem_of_In, list_elem_of_lookup_2. Qed.
Lemma held_insert (l : list bool) i b : l !! i = Some b → existsb id (<[i := true]> l) = true.
Proof. intros Hi. apply (held_elem _ i), list_lookup_insert_eq. by eapply lookup_lt_Some. Qed.

Lemma new_inv n : inv (new n) ∧ closed (new n) ∧ pending (new n).
Proof.
  split; [|split].
  - split; simpl; rewrite ?length_replicate, ?tally_new by done; try done; lia.
  - intros Hp. simpl in *. by rewrite ?tally_new in *.
  - unfold pending, asked. simpl. by rewrite no_held.
Qed.

(** The counts after one thread moves. *)
Ltac count_move Hi pc' :=
  pose proof (many_insert counted _ _ _ pc' Hi); pose proof (many_insert passed _ _ _ pc' Hi);
  pose proof (many_insert holding _ _ _ pc' Hi); pose proof (many_insert wanted _ _ _ pc' Hi);
  pose proof (many_insert swapping _ _ _ pc' Hi); pose proof (many_insert freeing _ _ _ pc' Hi);
  pose proof (many_insert looking _ _ _ pc' Hi); pose proof (many_insert waiting _ _ _ pc' Hi);
  pose proof (many_insert waking _ _ _ pc' Hi).

Lemma passed_counted l : tally passed l ≤ tally counted l.
Proof. apply tally_le. by intros []. Qed.

Lemma holding_passed l : tally holding l ≤ tally passed l.
Proof. apply tally_le. by intros []. Qed.

Lemma wanted_swapping l : tally swapping l ≤ tally wanted l.
Proof. apply tally_le. by intros []. Qed.

Lemma access_asked pc r l pc' l' : access pc r l = Some (pc', l') → release_requested l' = release_requested l.
Proof. destruct pc; simpl; unfold sub_lease; intros Ha; repeat case_match; simplify_eq/=; done. Qed.

(** What a thread at [pc] that sees [requested] makes of the shared state. *)
Definition moves (pc : Pc) (requested : bool) (s : State) (i : nat) (s' : State) : Prop :=
  threads s !! i = Some pc ∧ ∃ pc' l, s' = mkState l (<[i := pc']> (threads s)) (held_back s) ∧
    (access pc requested (life s) = Some (pc', l) ∨ pc = Holding ∧ sub_lease false (life s) = (pc', l)).

Lemma moves_asked pc r s i s' : moves pc r s i s' → asked s' = asked s.
Proof.
  intros (_ & pc' & l & -> & [Ha|[_ Ha]]); unfold asked; simpl; [by rewrite (access_asked _ _ _ _ _ Ha)|].
  unfold sub_lease in Ha. injection Ha as _ <-. simpl. by case_decide.
Qed.

(** Each case of an access, the counts before and after it as numbers. *)
Ltac each_access Hm :=
  let Hi := fresh "Hi" in let pc' := fresh "pc'" in let l := fresh "l" in let Ha := fresh "Ha" in
  rewrite ?(moves_asked _ _ _ _ _ Hm); destruct Hm as (Hi & pc' & l & -> & Ha); count_move Hi pc';
  match type of Hi with threads ?s !! ?i = _ => generalize dependent (asked s); intros ask; intros;
    pose proof (passed_counted (threads s)); pose proof (holding_passed (threads s));
    pose proof (wanted_swapping (threads s));
    pose proof (passed_counted (<[i := pc']> (threads s))); pose proof (holding_passed (<[i := pc']> (threads s)));
    destruct s as [[rel req leases fence fr qt af] ths held] end; simpl in *;
  destruct Ha as [Ha|[-> Ha]]; [match type of Ha with access ?pc _ _ = _ => destruct pc; simpl in Ha end|];
    unfold sub_lease in Ha; simpl in Ha; repeat case_decide; repeat case_bool_decide;
    repeat match type of Ha with context [if ?b then _ else _] => is_var b; destruct b end; simplify_eq/=;
    repeat match goal with H : context [mr_done ?b] |- _ => is_var b; destruct b end; simpl in *.

Lemma move_inv pc requested s i s' :
  inv s → Nat.b2n requested ≤ Nat.b2n (asked s) → moves pc requested s i s' → inv s'.
Proof.
  intros [H1 H2 H3 H4 H5 H6 HL] Hr Hm. pose proof (b2n_le (asked s)).
  split. all: each_access Hm; rewrite ?length_insert; try done; try lia.
  - destruct up; simpl in *; lia.
  - destruct fence, qt; simpl in *; lia.
  - destruct fence, qt; simpl in *; lia.
Qed.

Lemma move_closed pc requested s i s' :
  inv s → (rechecking pc = true → requested = asked s) → moves pc requested s i s' → closed s → closed s'.
Proof.
  intros [H1 H2 H3 H4 H5 H6 HL] Hr Hm Hc. pose proof (b2n_le (asked s)). unfold closed in *.
  each_access Hm; try specialize (Hr eq_refl); try subst ask; simpl in *; try lia.
Qed.

Lemma move_pending pc requested s i s' :
  inv s → (flag_load pc = true → requested = asked s) → moves pc requested s i s' → pending s → pending s'.
Proof.
  intros [H1 H2 H3 H4 H5 H6 HL] Hr Hm Hc. pose proof (b2n_le (asked s)). unfold pending in *.
  each_access Hm; try specialize (Hr eq_refl); try subst ask; simpl in *; try lia.
Qed.

(** The steps that are not accesses: starting a call, storing the request, letting it out,
    waking. *)
Definition keeps (s s' : State) : Prop := inv s' ∧ (closed s → closed s') ∧ (pending s → pending s').

Lemma place_keeps s i pc' :
  inv s → threads s !! i = Some Idle → pc' ∈ [AcqCheck; RelStore; FenceStore true; FenceStore false; QLoad] →
  keeps s (mkState (life s) (<[i := pc']> (threads s)) (held_back s)).
Proof.
  intros [H1 H2 H3 H4 H5 H6 HL] Hi Hpc. count_move Hi pc'. unfold keeps, closed, pending, asked in *.
  repeat (apply elem_of_cons in Hpc as [->|Hpc]); [..|by apply elem_of_nil in Hpc];
    (split; [split|]); simpl in *; rewrite ?length_insert; unfold asked; simpl; try done; lia.
Qed.

Lemma request_keeps s i b :
  inv s → threads s !! i = Some RelStore → held_back s !! i = Some b →
  keeps s (mkState (life s) (<[i := MrFlag false]> (threads s)) (<[i := true]> (held_back s))).
Proof.
  intros [H1 H2 H3 H4 H5 H6 HL] Hi Hh. count_move Hi (MrFlag false).
  assert (asked (mkState (life s) (<[i := MrFlag false]> (threads s)) (<[i := true]> (held_back s))) = true) as Has.
  { unfold asked. simpl. by rewrite (held_insert _ _ _ Hh), orb_true_r. }
  unfold keeps, closed, pending. rewrite Has. split; [split; rewrite ?Has|]; simpl in *; rewrite ?length_insert; try done; lia.
Qed.

Lemma flush_keeps s i :
  inv s → held_back s !! i = Some true →
  keeps s (mkState (set_requested (life s)) (threads s) (<[i := false]> (held_back s))).
Proof.
  intros [H1 H2 H3 H4 H5 H6 HL] Hh. assert (asked s = true) as Has.
  { unfold asked. by rewrite (held_elem _ _ Hh), orb_true_r. }
  unfold keeps, closed, pending. rewrite Has.
  split; [split|]; simpl in *; rewrite ?length_insert; try done.
Qed.

Lemma wake_keeps s i :
  inv s → threads s !! i = Some Notify →
  keeps s (mkState (life s) (wake <$> <[i := Idle]> (threads s)) (held_back s)).
Proof.
  intros [H1 H2 H3 H4 H5 H6 HL] Hi. count_move Hi Idle. unfold keeps, closed, pending. 
  change (asked (mkState (life s) (wake <$> <[i := Idle]> (threads s)) (held_back s))) with (asked s).
  assert (∀ f, (∀ pc, f (wake pc) = f pc) → f Idle = false → f Notify = false →
    tally f (wake <$> <[i := Idle]> (threads s)) = tally f (threads s)) as Hsame.
  { intros f Hf Hz Hz'. rewrite tally_wake by done. pose proof (many_insert f _ _ _ Idle Hi) as Hm.
    rewrite Hz, Hz' in Hm. simpl in Hm. lia. }
  split; [split|]; simpl; rewrite ?length_fmap, ?length_insert, ?(Hsame counted), ?(Hsame freeing), ?(Hsame wanted),
    ?(Hsame swapping), ?(Hsame passed), ?(Hsame looking), ?(Hsame holding) by (done || by intros []); try done.
  unfold waiting. rewrite tally_woken. lia.
Qed.

Lemma asked_own s i held :
  held_back s !! i = Some held → release_requested (life s) || held = true → asked s = true.
Proof.
  unfold asked. intros Hh. destruct (release_requested (life s)); [done|]. simpl. intros ->. by apply (held_elem _ i).
Qed.

Lemma step_keeps s i a s' :
  inv s → step s i a = Some s' →
  inv s' ∧ (closed s → (a = Run → misses rechecking s i = false) → closed s') ∧
  (pending s → (a = Run → misses flag_load s i = false) → pending s').
Proof.
  intros Hs Hstep. unfold step in Hstep. destruct (threads s !! i) as [pc|] eqn:Hi; [|done].
  destruct (held_back s !! i) as [held|] eqn:Hh; [|done].
  assert (keeps s s' → inv s' ∧ (closed s → (a = Run → misses rechecking s i = false) → closed s') ∧
    (pending s → (a = Run → misses flag_load s i = false) → pending s')) as Hk by (intros (? & ? & ?); auto).
  assert (∀ requested, Nat.b2n requested ≤ Nat.b2n (asked s) → (a = Run → requested = release_requested (life s) || held) →
    (rechecking pc = true ∨ flag_load pc = true → a = Run) → moves pc requested s i s' →
    inv s' ∧ (closed s → (a = Run → misses rechecking s i = false) → closed s') ∧
    (pending s → (a = Run → misses flag_load s i = false) → pending s')) as Hm.
  { intros requested Hle Hreq Ha Hmv. assert (∀ load : Pc → bool, load pc = true → a = Run → misses load s i = false → requested = asked s) as Heq.
    { intros load Hl Hr Hno. specialize (Hreq Hr). destruct requested; [by destruct (asked s); simpl in Hle; [|lia]|].
      destruct (asked s) eqn:Has; [|done]. unfold misses in Hno. by rewrite Hi, Hh, Hl, Has, <-Hreq in Hno. }
    split_and!; [by eapply move_inv|..].
    - intros Hc Hno. eapply move_closed; [exact Hs| |exact Hmv|exact Hc]. intros Hl. eapply Heq; eauto.
    - intros Hc Hno. eapply move_pending; [exact Hs| |exact Hmv|exact Hc]. intros Hl. eapply Heq; eauto. }
  destruct a as [op| |].
  - destruct (decide (op = OpDropLease)) as [->|Hop].
    + destruct pc; try done. destruct held; [done|]. destruct (sub_lease false (life s)) as [pc' l] eqn:Hsub. injection Hstep as <-.
      apply (Hm false); [simpl; lia|done|by intros [|]|]. split; [done|]. exists pc', l. auto.
    + apply Hk. destruct op, pc; try done; injection Hstep as <-; (apply place_keeps; [done..|set_solver]).
  - destruct (held && drains pc) eqn:Hd; [done|].
    destruct (decide (pc = RelStore)) as [->|Hrel]; [injection Hstep as <-; by eapply Hk, request_keeps|].
    destruct (decide (pc = Notify)) as [->|Hnot]; [injection Hstep as <-; by apply Hk, wake_keeps|].
    assert (match access pc (release_requested (life s) || held) (life s) with
      | Some (pc', l) => Some (mkState l (<[i := pc']> (threads s)) (held_back s)) | None => None end = Some s') as Ha
      by (by destruct pc).
    clear Hstep. destruct (access pc _ _) as [[pc' l]|] eqn:Hacc; [|done]. injection Ha as <-.
    eapply Hm; [|done|done|split; [done|exists pc', l; auto]].
    destruct (_ || held) eqn:Hown; simpl; [|lia]. by rewrite (asked_own s i held).
  - destruct held; [|done]. injection Hstep as <-. by apply Hk, flush_keeps.
Qed.

Lemma run_inv s trace s' : inv s → run s trace = Some s' → inv s'.
Proof.
  revert s. induction trace as [|[i a] trace IH]; intros s Hs Hr; simpl in Hr; [by simplify_eq|].
  destruct (step s i a) as [s1|] eqn:Hstep; [|done]. eapply IH; [|done]. by eapply step_keeps.
Qed.

(** What a step keeps where the load misses nothing, an execution keeps that heeds. *)
Lemma run_kept (load : Pc → bool) (P : State → Prop) trace :
  (∀ s i a s', inv s → step s i a = Some s' → P s → (a = Run → misses load s i = false) → P s') →
  ∀ s s', inv s → P s → heeds load s trace = true → run s trace = Some s' → P s'.
Proof.
  intros Hstep. induction trace as [|[i a] trace IH]; intros s s' Hs HP Hh Hr; simpl in *; [by simplify_eq|].
  apply andb_true_iff in Hh as [Hno Hh]. destruct (step s i a) as [s1|] eqn:Ha; [|done].
  apply (IH s1); [by eapply step_keeps| |done..]. apply (Hstep s i a s1); [done..|].
  intros ->. by apply negb_true_iff.
Qed.

Lemma run_closed n trace s : heeds rechecking (new n) trace = true → run (new n) trace = Some s → closed s.
Proof.
  destruct (new_inv n) as (H1 & H2 & _). apply (run_kept rechecking closed); [|done..].
  intros s0 i a s' Hs Ha. by apply step_keeps.
Qed.
Lemma run_pending n trace s : heeds flag_load (new n) trace = true → run (new n) trace = Some s → pending s.
Proof.
  destruct (new_inv n) as (H1 & _ & H3). apply (run_kept flag_load pending); [|done..].
  intros s0 i a s' Hs Ha. by apply step_keeps.
Qed.

Lemma trace_inv n trace s : run (new n) trace = Some s → inv s.
Proof. apply run_inv, new_inv. Qed.

(** ** Running to rest *)

(** Nothing left to do until someone calls. *)
Definition at_rest (pc : Pc) : bool := match pc with Idle | Holding | QWait => true | _ => false end.

(** Steps left to a thread, wake-ups aside, and whether it may yet wake others. *)
Definition steps_left (pc : Pc) : nat :=
  match pc with
  | AcqCheck => 12 | AcqAdd => 11 | AcqRecheck => 10 | AcqFence => 9 | AcqUndo _ => 8
  | RelStore => 8 | MrFlag _ => 6 | MrLeases _ => 5 | MrSwap _ => 4 | MrFree _ => 3 | Notify => 2
  | FenceStore _ => 1
  | QReload true => 6 | QLoad => 5 | QEnable => 4 | QReload false => 3
  | Idle | Holding | QWait => 0
  end.
Definition may_wake (pc : Pc) : bool :=
  match pc with AcqCheck | AcqAdd | AcqRecheck | AcqFence | AcqUndo _ => true | pc => waking pc end.

Definition total_steps (l : list Pc) : nat := sum_list (steps_left <$> l).

Definition bound (s : State) : nat :=
  tally may_wake (threads s) * (6 * length (threads s)) + total_steps (threads s) +
  sum_list (Nat.b2n <$> held_back s).

Lemma total_steps_insert (l : list Pc) i pc pc' :
  l !! i = Some pc → total_steps (<[i := pc']> l) + steps_left pc = total_steps l + steps_left pc'.
Proof.
  unfold total_steps. revert i. induction l as [|x l IH]; intros [|i] Hi; simplify_eq/=; [lia|].
  specialize (IH i Hi). lia.
Qed.

Lemma total_steps_wake (l : list Pc) : total_steps (wake <$> l) ≤ total_steps l + 5 * length l.
Proof.
  unfold total_steps. induction l as [|x l IH]; csimpl; [lia|]. destruct x as [| | | | |?| |?|?|?|?| | |?| | |[]|]; simpl; lia.
Qed.

Lemma held_insert_sum (l : list bool) i b b' :
  l !! i = Some b → sum_list (Nat.b2n <$> <[i := b']> l) + Nat.b2n b = sum_list (Nat.b2n <$> l) + Nat.b2n b'.
Proof.
  revert i. induction l as [|x l IH]; intros [|i] Hi; simplify_eq/=; [lia|]. specialize (IH i Hi). lia.
Qed.

Lemma move_bound s i pc pc' l :
  threads s !! i = Some pc → steps_left pc' < steps_left pc →
  Nat.b2n (may_wake pc') ≤ Nat.b2n (may_wake pc) →
  bound (mkState l (<[i := pc']> (threads s)) (held_back s)) < bound s.
Proof.
  intros Hi Hs Hw. unfold bound. simpl. rewrite length_insert.
  pose proof (many_insert may_wake _ _ _ pc' Hi). pose proof (total_steps_insert _ _ _ pc' Hi). nia.
Qed.

(** Every step but the start of a call brings the threads nearer to rest. *)
Lemma step_bound s i a s' : (∀ op, a ≠ Start op) → step s i a = Some s' → bound s' < bound s.
Proof.
  intros Hno Hstep. unfold step in Hstep. destruct (threads s !! i) as [pc|] eqn:Hi; [|done].
  destruct (held_back s !! i) as [held|] eqn:Hh; [|done]. destruct a as [op| |]; [by destruct (Hno op)| |].
  2: { destruct held; [|done]. injection Hstep as <-. unfold bound. simpl.
    pose proof (held_insert_sum _ _ _ false Hh) as Hf. simpl in Hf. lia. }
  destruct (held && drains pc); [done|].
  destruct (decide (pc = Notify)) as [->|Hnot].
  { injection Hstep as <-. unfold bound. simpl. rewrite length_fmap, length_insert.
    rewrite (tally_wake may_wake) by (by intros []).
    pose proof (many_insert may_wake _ _ _ Idle Hi) as Ht. pose proof (total_steps_insert _ _ _ Idle Hi) as Hs.
    pose proof (total_steps_wake (<[i := Idle]> (threads s))) as Hw. rewrite length_insert in Hw. simpl in *.
    apply lookup_lt_Some in Hi. nia. }
  destruct (decide (pc = RelStore)) as [->|Hrel].
  { injection Hstep as <-. unfold bound. simpl. rewrite length_insert.
    pose proof (many_insert may_wake _ _ _ (MrFlag false) Hi) as Hm. simpl in Hm.
    assert (tally may_wake (<[i := MrFlag false]> (threads s)) = tally may_wake (threads s)) as -> by lia.
    pose proof (total_steps_insert _ _ _ (MrFlag false) Hi) as Ht. simpl in Ht.
    pose proof (held_insert_sum _ _ _ true Hh) as Hf. simpl in Hf. lia. }
  assert (Ha : match access pc (release_requested (life s) || held) (life s) with
    | Some (pc', l) => Some (mkState l (<[i := pc']> (threads s)) (held_back s)) | None => None end = Some s')
    by (by destruct pc).
  clear Hstep. destruct (access pc _ _) as [[pc' l]|] eqn:Hacc; [|done]. injection Ha as <-.
  pose proof (b2n_le (may_wake pc')) as Hb.
  eapply move_bound; [done|..]; destruct pc as [| | | | |?| |[]|[]|[]|[]| | |?| | |[]|];
    simpl in Hacc; unfold sub_lease in Hacc; simpl in Hacc;
    repeat match type of Hacc with context [if ?b then _ else _] => destruct b end; simplify_eq/=; lia.
Qed.

(** Nothing can move but by a call. *)
Definition quiescent (s : State) : Prop := ∀ i a, (∀ op, a ≠ Start op) → step s i a = None.

Lemma quiescent_held s i held pc :
  threads s !! i = Some pc → held_back s !! i = Some held → quiescent s → held = false.
Proof.
  intros Hi Hh Hq. specialize (Hq i Flush ltac:(done)). unfold step in Hq. rewrite Hi, Hh in Hq. by destruct held.
Qed.

Lemma quiescent_rest s i pc : inv s → threads s !! i = Some pc → quiescent s → at_rest pc = true.
Proof.
  intros Hs Hi Hq. assert (Hlen : i < length (held_back s)) by (rewrite (iv_length _ Hs); by eapply lookup_lt_Some).
  destruct (lookup_lt_is_Some_2 _ _ Hlen) as [held Hh]. pose proof (quiescent_held s i held pc Hi Hh Hq) as ->.
  specialize (Hq i Run ltac:(done)). unfold step in Hq. rewrite Hi, Hh in Hq.
  destruct pc; try done; simpl in Hq; repeat case_match; done.
Qed.

(** C38. Of any execution of threads, whose release may reach the others late: the pages of a
    working set are freed at most once; the count of leases is that of the threads that have
    taken one, so its assertion holds; and once the fence is up and a wait for quiet has
    ended, no lease is given out until the fence comes down. If each acquisition that looks
    again sees the releases asked for by then, the pages are never freed while a lease is
    held. *)
Theorem lifecycle_safe n trace s :
  run (new n) trace = Some s →
  freed (life s) ≤ 1 ∧ active_fire_leases (life s) = tally counted (threads s) ∧ assert_failed (life s) = false ∧
  (quiet (life s) = true → suspend_fence (life s) = true ∧ ∀ i, threads s !! i ≠ Some Holding) ∧
  (heeds rechecking (new n) trace = true →
   ∀ i, threads s !! i = Some Holding → freed (life s) = 0 ∧ released (life s) = false).
Proof.
  intros Hr. pose proof (trace_inv n trace s Hr) as Hs.
  assert (Hold : ∀ i, threads s !! i = Some Holding → 0 < tally holding (threads s))
    by (intros i Hi; by eapply tally_elem).
  pose proof (iv_freed _ Hs). pose proof (b2n_le (released (life s))). pose proof (holding_passed (threads s)).
  split_and!; [lia|apply Hs|apply Hs|..].
  - intros Hq. pose proof (iv_quiet _ Hs) as Hiv. rewrite Hq in Hiv. destruct (Hiv eq_refl) as [Hf Hz].
    split; [by destruct (suspend_fence (life s))|]. intros i Hi. specialize (Hold i Hi). lia.
  - intros Hh i Hi. specialize (Hold i Hi). pose proof (run_closed n trace s Hh Hr) as Hc. unfold closed in Hc.
    destruct (released (life s)); simpl in *; lia.
Qed.

(** Nothing is forgotten. Left to run, the threads come to rest within a bound; there, with
    no lease held, no one waits for quiet, and a release that was asked for has freed the
    pages, if each [maybe_release] saw the releases asked for by then. *)
Theorem lifecycle_comes_to_rest n trace s :
  run (new n) trace = Some s →
  (∀ i a s', (∀ op, a ≠ Start op) → step s i a = Some s' → bound s' < bound s) ∧
  (quiescent s → (∀ i, threads s !! i ≠ Some Holding) →
   (∀ i, threads s !! i ≠ Some QWait) ∧
   (heeds flag_load (new n) trace = true → release_requested (life s) = true → freed (life s) = 1)).
Proof.
  intros Hr. pose proof (trace_inv n trace s Hr) as Hs. split; [intros i a s'; apply step_bound|].
  intros Hq Hhold.
  assert (Hrest : ∀ f, (∀ pc, f pc = true → pc ≠ Idle ∧ pc ≠ QWait) → tally f (threads s) = 0).
  { intros f Hf. destruct (decide (tally f (threads s) = 0)) as [|Hz]; [done|].
    destruct (many_pos f (threads s)) as (i & pc & Hi & Hpc); [lia|].
    pose proof (quiescent_rest s i pc Hs Hi Hq) as Har. destruct (Hf pc Hpc) as [Hne1 Hne2].
    destruct pc; try done. by destruct (Hhold i). }
  assert (Hc : tally counted (threads s) = 0) by (apply Hrest; intros []; naive_solver).
  assert (Hl : tally looking (threads s) = 0) by (apply Hrest; intros []; naive_solver).
  assert (Hf : tally freeing (threads s) = 0) by (apply Hrest; intros []; naive_solver).
  assert (Hw : tally waking (threads s) = 0) by (apply Hrest; intros [| | | | |?| |?|?|?|?| | |?| | |?|]; naive_solver).
  pose proof (iv_freed _ Hs) as Hfr. pose proof (iv_leases _ Hs) as Hle. split.
  - intros i Hi. assert (0 < tally waiting (threads s)) by (by eapply tally_elem).
    pose proof (iv_waiting _ Hs). lia.
  - intros Hh Hreq. pose proof (run_pending n trace s Hh Hr) as Hp. unfold pending, asked in Hp. rewrite Hreq in Hp.
    specialize (Hp eq_refl). destruct (released (life s)); simpl in *; lia.
Qed.

(** ** Stores that lag behind *)

(** [release] stores its request with [Release] and then loads the count of
    leases; [acquire_fire_lease] adds its lease and then loads the request. Where
    a [Release] store becomes visible after a later load, as on a processor
    with store buffers, both can miss the other: thread 1 gets a lease and thread
    0 frees the pages. *)
Definition lagging_release : list (nat * Action) :=
  [(0, Start OpRelease); (0, Run); (0, Run); (0, Run);
   (1, Start OpFireLease); (1, Run); (1, Run); (1, Run); (1, Run);
   (0, Flush); (0, Run); (0, Run)].

(** C39. As a [Release] store may reach other threads after a later load, two
    threads can bring a working set to where one holds a lease on it and its pages
    have been freed. *)
Theorem release_under_lease :
  ∃ s, reachable 2 s ∧ threads s !! 1 = Some Holding ∧ freed (life s) = 1.
Proof.
  destruct (run (new 2) lagging_release) as [s|] eqn:Hr; [|by vm_compute in Hr].
  exists s. split; [by exists lagging_release|]. vm_compute in Hr. injection Hr as <-. done.
Qed.

(** ** Instances *)

(** A lease, a release while it is held that is late to reach the other thread, and a second
    try while the first lease is held; and from there to rest. *)
Definition held_trace : list (nat * Action) :=
  [(0, Start OpFireLease); (0, Run); (0, Run); (0, Run); (0, Run); (1, Start OpRelease); (1, Run); (1, Run);
   (2, Start OpFireLease); (2, Run); (2, Run); (1, Flush); (1, Run); (2, Run); (2, Run)].
Definition sample_trace : list (nat * Action) :=
  held_trace ++ [(2, Run); (2, Run); (0, Start OpDropLease); (0, Run); (0, Run); (0, Run); (0, Run); (0, Run)].

Definition sample_end : State := default (new 3) (run (new 3) sample_trace).

Lemma lifecycle_safe_witness :
  ∃ s, run (new 3) held_trace = Some s ∧ heeds rechecking (new 3) held_trace = true ∧
    threads s !! 0 = Some Holding ∧ release_requested (life s) = true ∧ freed (life s) = 0.
Proof.
  destruct (run (new 3) held_trace) as [s|] eqn:Hr; [|by vm_compute in Hr]. exists s.
  destruct (lifecycle_safe 3 held_trace s Hr) as (_ & _ & _ & _ & H).
  assert (threads s !! 0 = Some Holding ∧ release_requested (life s) = true) as [H0 H1].
  { vm_compute in Hr. by injection Hr as <-. }
  split_and!; [done|by vm_compute|done..|]. apply (H ltac:(by vm_compute) 0 H0).
Defined.

Lemma lifecycle_comes_to_rest_witness : freed (life sample_end) = 1.
Proof.
  assert (∃ s, run (new 3) sample_trace = Some s ∧ sample_end = s) as (s & Hr & ->).
  { eexists. split; by vm_compute. }
  assert (s = sample_end) as -> by (unfold sample_end; by rewrite Hr).
  apply (lifecycle_comes_to_rest 3 sample_trace); [exact Hr|..].
  - intros i [op| |] Hno; [by destruct (Hno op)|..]; do 3 (destruct i as [|i]; [by vm_compute|]); by vm_compute.
  - intros [|[|[|i]]]; vm_compute; done.
  - by vm_compute.
  - by vm_compute.
Defined.
End LifecycleThm.
