(* ===== verification/Fit.v ===== *)
(** Sizing the cache pool at load ([engine/src/fit.rs]): the search for the
    largest page count that fits, and what the load takes or refuses. *)
From S2P Require Import Prelude.

Module Fit.

#[local] Open Scope N_scope.

Inductive Short : Set :=
  | Budget (budget room : N)
  | Sequence (budget least : N)
  | Room (room least : N).

Definition PAGE_CEILING : N := u32_max.

Definition mul_u64 : N → N → N := sat_mul u64_max.
Definition mul_u32 : N → N → N := sat_mul u32_max.
(** [u32::try_from(n).unwrap_or(u32::MAX)]. *)
Definition to_u32 (n : N) : N := N.min n u32_max.

Section sizing.
Context (declared_at : N → N) (room asked : N).

(** [while over < asked && declared_at(over) <= room]: it doubles up to [asked],
    so 64 turns are enough for a [u64]. *)
Fixpoint double_loop (f : nat) (fits over : N) : N * N :=
  match f with
  | O => (fits, over)
  | S f =>
      if decide (over < asked ∧ declared_at over ≤ room)
      then double_loop f over (N.min (mul_u64 over 2) asked)
      else (fits, over)
  end.

(** [while over - fits > 1]: the gap halves, so 64 turns are enough. *)
Fixpoint bisect_loop (f : nat) (fits over : N) : N :=
  match f with
  | O => fits
  | S f =>
      if decide (1 < over - fits) then
        let probe := fits + (over - fits) / 2 in
        if decide (declared_at probe ≤ room) then bisect_loop f probe over else bisect_loop f fits probe
      else fits
  end.

Definition pages_within : N :=
  if decide (declared_at asked ≤ room) then asked
  else
    let '(fits, over) := double_loop 64 0 1 in
    bisect_loop 64 fits over.
End sizing.

Definition pages_for (budget : option N) (room least : N) (bytes_at : N → N) : Short + N :=
  match (match budget with
         | Some budget => if decide (room < budget) then inl (Budget budget room) else inr budget
         | None => inr room
         end) with
  | inl short => inl short
  | inr limit =>
      let pages :=
        if decide (bytes_at (mul_u64 least 2) = bytes_at least) then least
        else pages_within bytes_at limit PAGE_CEILING in
      if decide (least ≤ pages) then inr pages
      else
        let least := bytes_at least in
        inl (match budget with Some budget => Sequence budget least | None => Room room least end)
  end.

Definition least_state_slots (seated : N) : N := N.max (mul_u32 seated 2) 3.

Definition state_slots_within (asked room one_sequence : N) (slabs_at : N → N) : N :=
  let seats := pages_within (λ seats, slabs_at (mul_u32 (to_u32 seats) 2))
                 ((room - one_sequence) / 2) (asked / 2) in
  least_state_slots (to_u32 seats).

Definition pool_within (pages slots one_slot room : N) (bytes_at : N → N → N) : option (N * N) :=
  let fit := pages_within (λ pages, bytes_at pages slots) room pages in
  if decide (one_slot ≤ fit) then Some (fit, slots)
  else
    let slots := N.min (state_slots_within slots room (bytes_at one_slot 0) (λ slots, bytes_at 0 slots)) slots in
    let fit := pages_within (λ pages, bytes_at pages slots) room pages in
    if decide (one_slot ≤ fit) then Some (fit, slots) else None.

Definition pool_for (budget : option N) (slots one_slot room : N) (bytes_at : N → N → N) :
    Short + (N * N) :=
  let slots :=
    match budget with
    | Some _ => slots
    | None =>
        match pool_within PAGE_CEILING slots one_slot room bytes_at with
        | Some (_, slots) => slots
        | None => N.min (least_state_slots 1) slots
        end
    end in
  match pages_for budget room one_slot (λ pages, bytes_at pages slots) with
  | inr pages => inr (pages, slots)
  | inl short => inl short
  end.

(** ** The search *)

(** What only ever grows. *)
Definition grows (f : N → N) : Prop := ∀ a b, a ≤ b → f a ≤ f b.

(** The largest count at or under [asked] that fits, or zero. *)
Record largest (f : N → N) (room asked r : N) : Prop := {
  lg_asked : r ≤ asked;
  lg_fits : f r ≤ room ∨ r = 0;
  lg_above : ∀ n, r < n → n ≤ asked → room < f n;
}.

Lemma double_loop_spec f room asked k fits over :
  room < f asked → 0 < over ≤ asked → asked < 2 ^ 64 → (f fits ≤ room ∨ fits = 0) → fits < over →
  asked ≤ over * 2 ^ N.of_nat k →
  ∃ fits' over', double_loop f room asked k fits over = (fits', over') ∧
    (f fits' ≤ room ∨ fits' = 0) ∧ fits' < over' ≤ asked ∧ room < f over'.
Proof.
  intros Ha. revert fits over. induction k as [|k IH]; intros fits over Ho Hs Hf Hlt Hk; cbn [double_loop].
  - exists fits, over. split_and!; [done|done|done|lia|]. replace over with asked; [done|]. simpl in Hk. lia.
  - case_decide as Hc.
    + apply IH; try lia; [unfold mul_u64, sat_mul, u64_max; lia|unfold mul_u64, sat_mul, u64_max; lia|].
      rewrite Nat2N.inj_succ, N.pow_succ_r' in Hk. unfold mul_u64, sat_mul, u64_max.
      assert (0 < 2 ^ N.of_nat k) by (apply N.neq_0_lt_0, N.pow_nonzero; done).
      destruct (N.le_gt_cases (over * 2) asked); [|rewrite (N.min_r _ asked) by lia; nia].
      rewrite (N.min_l (over * 2)) by lia. rewrite N.min_l by lia. lia.
    + exists fits, over. split_and!; [done|done|done|lia|].
      destruct (N.le_gt_cases (f over) room); [|done].
      assert (over = asked) as -> by lia. done.
Qed.

Lemma bisect_loop_spec f room asked k fits over :
  grows f → (f fits ≤ room ∨ fits = 0) → fits < over → over ≤ asked → room < f over →
  over - fits ≤ 2 ^ N.of_nat k → largest f room asked (bisect_loop f room k fits over).
Proof.
  intros Hg. revert fits over. induction k as [|k IH]; intros fits over Hf Hlt Ho Hr Hk; cbn [bisect_loop].
  - simpl in Hk. split; [lia|done|]. intros n Hn _. eapply N.lt_le_trans; [exact Hr|]. apply Hg. lia.
  - rewrite Nat2N.inj_succ, N.pow_succ_r' in Hk. case_decide as Hc.
    + pose proof (N.div_mod (over - fits) 2 ltac:(done)). pose proof (N.mod_lt (over - fits) 2 ltac:(done)).
      assert (0 < 2 ^ N.of_nat k) by (apply N.neq_0_lt_0, N.pow_nonzero; done).
      set (q := (over - fits) / 2) in *. set (md := (over - fits) mod 2) in *. clearbody q md. cbv zeta.
      case_decide; apply IH; try lia.
    + split; [lia|done|]. intros n Hn _. eapply N.lt_le_trans; [exact Hr|]. apply Hg. lia.
Qed.

Lemma double_loop_stop f room asked k fits over :
  ¬ (over < asked ∧ f over ≤ room) → double_loop f room asked k fits over = (fits, over).
Proof. intros Hc. destruct k; cbn [double_loop]; [done|]. by rewrite decide_False. Qed.

Lemma bisect_loop_stop f room k fits over : ¬ 1 < over - fits → bisect_loop f room k fits over = fits.
Proof. intros Hc. destruct k; cbn [bisect_loop]; [done|]. by rewrite decide_False. Qed.

(** Once a loop has stopped, more turns change nothing. *)
Lemma double_loop_more f room asked k j fits over fits' over' :
  double_loop f room asked k fits over = (fits', over') → ¬ (over' < asked ∧ f over' ≤ room) →
  double_loop f room asked (k + j) fits over = (fits', over').
Proof.
  revert fits over. induction k as [|k IH]; intros fits over Hd Hc; cbn [double_loop Nat.add] in *.
  - injection Hd as -> ->. by apply double_loop_stop.
  - destruct (decide (over < asked ∧ f over ≤ room)); [by apply IH|done].
Qed.

Lemma bisect_loop_more f room k j fits over :
  fits < over → over - fits ≤ 2 ^ N.of_nat k →
  bisect_loop f room (k + j) fits over = bisect_loop f room k fits over.
Proof.
  revert fits over. induction k as [|k IH]; intros fits over Hlt Hk; cbn [bisect_loop Nat.add].
  - simpl in Hk. apply bisect_loop_stop. lia.
  - rewrite Nat2N.inj_succ, N.pow_succ_r' in Hk. destruct (decide (1 < over - fits)); [|done].
    pose proof (N.div_mod (over - fits) 2 ltac:(done)). pose proof (N.mod_lt (over - fits) 2 ltac:(done)).
    set (q := (over - fits) / 2) in *. set (md := (over - fits) mod 2) in *. clearbody q md. cbv zeta.
    destruct (decide _); apply IH; lia.
Qed.

Lemma pages_within_largest f room asked :
  grows f → asked < 2 ^ 64 → largest f room asked (pages_within f room asked).
Proof.
  intros Hg Hs. unfold pages_within. case_decide as Ha.
  { split; [lia|by left|lia]. }
  destruct (N.eq_dec asked 0) as [->|Hz].
  { (* nothing was asked for: both loops stand still *)
    rewrite double_loop_stop by lia. rewrite bisect_loop_stop by lia.
    split; [lia|by right|lia]. }
  destruct (double_loop_spec f room asked 64 0 1) as (fits & over & -> & H1 & H2 & H3);
    [lia|lia|done|by right|lia|change (2 ^ N.of_nat 64) with (2 ^ 64); lia|].
  apply bisect_loop_spec; [done|done|lia|lia|done|]. change (2 ^ N.of_nat 64) with (2 ^ 64). lia.
Qed.

(** ** Sizing *)

Lemma page_ceiling_u64 : PAGE_CEILING < 2 ^ 64.
Proof. reflexivity. Qed.

(** What a stated budget buys, or all of the room. *)
Definition limit_of (budget : option N) (room : N) : N := default room budget.

(** The page count [pages_for] weighs. *)
Definition weighed (limit least : N) (bytes_at : N → N) : N :=
  if decide (bytes_at (mul_u64 least 2) = bytes_at least) then least
  else pages_within bytes_at limit PAGE_CEILING.

Lemma pages_for_unfold budget room least bytes_at :
  pages_for budget room least bytes_at =
  if decide (limit_of budget room ≤ room) then
    if decide (least ≤ weighed (limit_of budget room) least bytes_at)
    then inr (weighed (limit_of budget room) least bytes_at)
    else inl (match budget with
              | Some budget => Sequence budget (bytes_at least)
              | None => Room room (bytes_at least)
              end)
  else inl (Budget (limit_of budget room) room).
Proof.
  unfold pages_for, limit_of, weighed. destruct budget as [budget|]; simpl.
  - destruct (decide (room < budget)); [by rewrite (decide_False (P := budget ≤ room)) by lia|].
    by rewrite (decide_True (P := budget ≤ room)) by lia.
  - by rewrite (decide_True (P := room ≤ room)) by lia.
Qed.

(** Pages cost something: one sequence's take less than two's. *)
Definition costly (bytes_at : N → N) (least : N) : Prop := bytes_at (mul_u64 least 2) ≠ bytes_at least.

Lemma weighed_largest limit least bytes_at :
  grows bytes_at → costly bytes_at least → largest bytes_at limit PAGE_CEILING (weighed limit least bytes_at).
Proof.
  intros Hg Hc. unfold weighed. rewrite decide_False by done. by apply pages_within_largest.
Qed.

Lemma largest_least f room asked r n : largest f room asked r → 0 < n ≤ asked → grows f → n ≤ r ↔ f n ≤ room.
Proof.
  intros [Ha Hf Hab] Hn Hg. split; intros Hle.
  - destruct Hf as [Hf|]; [|lia]. etrans; [by apply Hg|done].
  - destruct (N.le_gt_cases n r); [done|]. specialize (Hab n). lia.
Qed.

(** C40. The search returns the largest page count, at or under the one asked,
    whose bytes fit the room, or zero when none does; and its loops have stopped
    within 64 turns each, so more would change nothing. *)
Theorem pages_within_correct f room asked :
  grows f → asked < 2 ^ 64 →
  pages_within f room asked ≤ asked ∧ (∀ n, 0 < n ≤ asked → n ≤ pages_within f room asked ↔ f n ≤ room) ∧
  (0 < asked → room < f asked → ∀ j,
    let '(fits, over) := double_loop f room asked 64 0 1 in
    double_loop f room asked (64 + j) 0 1 = (fits, over) ∧
    bisect_loop f room (64 + j) fits over = bisect_loop f room 64 fits over).
Proof.
  intros Hg Hs. pose proof (pages_within_largest f room asked Hg Hs) as Hl.
  split_and!; [apply Hl|intros n Hn; by eapply largest_least|]. intros Hz Ha j.
  destruct (double_loop_spec f room asked 64 0 1) as (fits & over & Hd & H1 & H2 & H3);
    [lia|lia|done|by right|lia|change (2 ^ N.of_nat 64) with (2 ^ 64); lia|].
  rewrite Hd. split; [apply double_loop_more; [done|lia]|].
  apply bisect_loop_more; [lia|]. change (2 ^ N.of_nat 64) with (2 ^ 64). lia.
Qed.

(** An answer that is exact: the pages the limit buys, or why it buys too few. *)
Definition sized (budget : option N) (room least : N) (bytes_at : N → N) (answer : Short + N) : Prop :=
  match answer with
  | inr pages => limit_of budget room ≤ room ∧ least ≤ pages ≤ PAGE_CEILING ∧
      (∀ n, 0 < n ≤ PAGE_CEILING → n ≤ pages ↔ bytes_at n ≤ limit_of budget room)
  | inl (Budget b r) => budget = Some b ∧ r = room ∧ room < b
  | inl (Sequence b l) => budget = Some b ∧ b ≤ room ∧ l = bytes_at least ∧ b < l
  | inl (Room r l) => budget = None ∧ r = room ∧ l = bytes_at least ∧ room < l
  end.

Lemma pages_for_cases budget room least bytes_at :
  grows bytes_at → 0 < least ≤ PAGE_CEILING → costly bytes_at least →
  sized budget room least bytes_at (pages_for budget room least bytes_at).
Proof.
  intros Hg Hl Hc. unfold sized. rewrite pages_for_unfold.
  pose proof (weighed_largest (limit_of budget room) least bytes_at Hg Hc) as Hw.
  pose proof (largest_least _ _ _ _ least Hw Hl Hg) as Hleast.
  destruct (decide (limit_of budget room ≤ room)) as [Hb|Hb].
  - destruct (decide (least ≤ _)) as [Hp|Hp].
    + split_and!; [done|done|apply Hw|]. intros n Hn. by eapply largest_least.
    + destruct budget as [budget|]; simpl in *; (split_and!; [done|done|done|lia]).
  - destruct budget as [budget|]; simpl in *; [|lia]. split_and!; [done|done|lia].
Qed.

(** A load takes exactly the pages its budget buys, or, with none stated, its
    room; it is refused exactly when the budget is past the room or one sequence
    does not fit, with the numbers that show it. *)
Theorem pages_for_correct budget room least bytes_at :
  grows bytes_at → 0 < least ≤ PAGE_CEILING → costly bytes_at least →
  sized budget room least bytes_at (pages_for budget room least bytes_at).
Proof. apply pages_for_cases. Qed.

(** ** Pools of pages and slots *)

Definition grows2 (f : N → N → N) : Prop := ∀ p q s t, p ≤ q → s ≤ t → f p s ≤ f q t.

Lemma grows2_pages f s : grows2 f → grows (λ p, f p s).
Proof. intros Hf p q Hpq. apply Hf; lia. Qed.

Lemma pool_within_some slots one_slot room bytes_at pages slots' :
  grows2 bytes_at → 0 < one_slot ≤ PAGE_CEILING →
  pool_within PAGE_CEILING slots one_slot room bytes_at = Some (pages, slots') →
  slots' ≤ slots ∧ bytes_at one_slot slots' ≤ room.
Proof.
  intros Hg Ho Hp. unfold pool_within in Hp.
  assert (Hfit : ∀ s, one_slot ≤ pages_within (λ p, bytes_at p s) room PAGE_CEILING → bytes_at one_slot s ≤ room).
  { intros s Hs. by apply (largest_least (λ p, bytes_at p s) room PAGE_CEILING _ one_slot
      (pages_within_largest _ _ _ (grows2_pages _ s Hg) page_ceiling_u64) Ho (grows2_pages _ s Hg)). }
  destruct (decide _) as [Hf|_] in Hp; [injection Hp as <- <-; split; [lia|by apply Hfit]|].
  destruct (decide _) as [Hf|_] in Hp; [|done]. injection Hp as <- <-. split; [apply N.le_min_r|by apply Hfit].
Qed.

Lemma pool_within_keeps slots one_slot room bytes_at :
  grows2 bytes_at → 0 < one_slot ≤ PAGE_CEILING → bytes_at one_slot slots ≤ room →
  ∃ pages, pool_within PAGE_CEILING slots one_slot room bytes_at = Some (pages, slots).
Proof.
  intros Hg Ho Hb. unfold pool_within. eexists. rewrite decide_True; [done|].
  by apply (largest_least (λ p, bytes_at p slots) room PAGE_CEILING _ one_slot
    (pages_within_largest _ _ _ (grows2_pages _ slots Hg) page_ceiling_u64) Ho (grows2_pages _ slots Hg)).
Qed.

(** A pool that is seated holds one sequence at least, within the limit, and
    never more slots than asked; the slots asked are kept whenever one sequence
    fits beside them or a budget is stated. With no budget, a refusal means that
    not even the least slots leave room for one sequence. *)
Theorem pool_for_correct budget slots one_slot room bytes_at :
  grows2 bytes_at → 0 < one_slot ≤ PAGE_CEILING → (∀ s, costly (λ p, bytes_at p s) one_slot) →
  match pool_for budget slots one_slot room bytes_at with
  | inr (pages, slots') =>
      slots' ≤ slots ∧ one_slot ≤ pages ≤ PAGE_CEILING ∧
      bytes_at pages slots' ≤ limit_of budget room ∧ limit_of budget room ≤ room ∧
      (budget ≠ None ∨ bytes_at one_slot slots ≤ room → slots' = slots)
  | inl _ => budget = None → room < bytes_at one_slot (N.min 3 slots)
  end.
Proof.
  intros Hg Ho Hc. unfold pool_for.
  set (slots' := match budget with Some _ => slots | None => _ end).
  assert (Hle : slots' ≤ slots ∧ (budget ≠ None ∨ bytes_at one_slot slots ≤ room → slots' = slots) ∧
    (budget = None → bytes_at one_slot slots' ≤ room ∨ slots' = N.min 3 slots)).
  { unfold slots'. destruct budget as [budget|]; [split_and!; [lia|done|done]|].
    destruct (pool_within _ _ _ _ _) as [[pages s]|] eqn:Hp.
    - pose proof (pool_within_some _ _ _ _ _ _ Hg Ho Hp) as [Hs Hb]. split_and!; [done| |by left].
      intros [|Hb']; [done|]. destruct (pool_within_keeps slots one_slot room bytes_at Hg Ho Hb') as [pages' Hk].
      rewrite Hk in Hp. by injection Hp as <- <-.
    - split_and!; [apply N.le_min_r| |by right]. intros [|Hb']; [done|].
      destruct (pool_within_keeps slots one_slot room bytes_at Hg Ho Hb') as [pages' Hk]. by rewrite Hk in Hp. }
  clearbody slots'. destruct Hle as (Hle & Hkeep & Hleast).
  pose proof (pages_for_cases budget room one_slot (λ p, bytes_at p slots') (grows2_pages _ _ Hg) Ho (Hc slots')) as Hcase.
  unfold sized in Hcase.
  destruct (pages_for _ _ _ _) as [[b r|b l|r l]|pages].
  - intros ->. by destruct Hcase as [? _].
  - intros ->. by destruct Hcase as [? _].
  - destruct Hcase as (-> & -> & -> & Hlt). intros _. destruct (Hleast eq_refl) as [|<-]; [lia|done].
  - destruct Hcase as (Hlim & Hp & Hiff). split_and!; [done|lia|lia| |done|done]. apply Hiff; lia.
Qed.

(** Pages that cost nothing are taken without weighing what the slots beside them
    cost, past the budget and past the room. *)
Theorem free_pages_unweighed :
  pages_for (Some 1) 1 256 (λ _, 64) = inr 256 ∧ 1 < (λ _ : N, 64) 256.
Proof. split; vm_compute; reflexivity. Qed.

(** ** Instances *)

Definition sample_bytes_at (pages slots : N) : N := pages * 1048576 + slots * 67108864.

Lemma sample_grows2 : grows2 sample_bytes_at.
Proof. intros p q s t Hpq Hst. unfold sample_bytes_at. lia. Qed.

Lemma sample_costly s : costly (λ p, sample_bytes_at p s) 256.
Proof. unfold costly, sample_bytes_at. change (mul_u64 256 2) with 512. lia. Qed.

Lemma pages_within_correct_witness :
  300 ≤ pages_within (λ p, sample_bytes_at p 2) 1000000000 4096 ∧
  pages_within (λ p, sample_bytes_at p 2) 1000000000 4096 = 825.
Proof.
  split; [|vm_compute; reflexivity].
  pose proof (pages_within_correct (λ p, sample_bytes_at p 2) 1000000000 4096 (grows2_pages _ 2 sample_grows2)
    ltac:(reflexivity)) as H.
  destruct H as (_ & H & _). refine (proj2 (H 300 _) _); [lia|]. unfold sample_bytes_at. lia.
Defined.

Lemma pages_for_correct_witness :
  sized (Some 134217728) 4294967296 256 (λ p, sample_bytes_at p 1) (inl (Sequence 134217728 335544320)).
Proof.
  pose proof (pages_for_correct (Some 134217728) 4294967296 256 (λ p, sample_bytes_at p 1)
    (grows2_pages _ 1 sample_grows2) ltac:(split; reflexivity || discriminate) (sample_costly 1)) as H.
  assert (Hp : pages_for (Some 134217728) 4294967296 256 (λ p, sample_bytes_at p 1) = inl (Sequence 134217728 335544320))
    by (vm_compute; reflexivity).
  rewrite Hp in H. exact H.
Defined.

Lemma pool_for_correct_witness :
  match pool_for None 256 256 2147483648 sample_bytes_at with
  | inr (pages, slots') => slots' ≤ 256 ∧ 256 ≤ pages
  | inl _ => False
  end.
Proof.
  pose proof (pool_for_correct None 256 256 2147483648 sample_bytes_at sample_grows2
    ltac:(split; reflexivity || discriminate) sample_costly) as H.
  destruct (pool_for None 256 256 2147483648 sample_bytes_at) as [|[pages slots']] eqn:Hp; [vm_compute in Hp; discriminate Hp|].
  destruct H as (H1 & [H2 _] & _). split; [exact H1|exact H2].
Defined.
End Fit.
