(* ===== verification/Frame.v ===== *)
(** The frame policy of the scheduler ([crates/runtime/src/scheduler/frame.rs]): which
    fires of which lanes run together. Fires arrive on lanes and gather into frames; a
    frame of every lane that is ready is sealed into waves, each within the batch the
    engine takes, and dispatched when every lane that is waited for is ready, or is
    given up. The fields and arguments that feed statistics, traces and the idle dump
    alone are left out. An instant is a number of nanoseconds; what a map ordered by its
    keys is iterated for is in the order of the keys. *)
From stdpp Require Import gmap sorting.
From S2P Require Import Prelude.

Module Frame.

Abbreviation ProcessId := N (only parsing).
Abbreviation LaneId := N (only parsing).

Definition micros (n : N) : N := n * 1000.
Definition STRICT_WATCHDOG_US : N := 1000000.
Definition GATHER_POLL_US : N := 500.

(** ** Data *)

Record FrameStamp : Type := mkStamp { s_lane : LaneId; s_seq : N; s_slot : N; s_fires : N }.
Record ArrivedFire : Type := mkFire { a_slot : N; a_fire_id : option N; a_tokens : N; a_rows : N }.
Record PlacedFire : Type := mkPlaced { wave : nat; fire_id : N; rows : N; tokens : N }.

Record PendingFrame : Type := mkFrame {
  seq : N; expected : N; truncated : bool; park : bool; fires : list ArrivedFire }.
Definition is_complete (f : PendingFrame) : bool :=
  park f || bool_decide (expected f ≤ N.of_nat (length (fires f)))%N.

Record LaneState : Type := mkLane {
  owner : option ProcessId;
  awaited : bool;
  parked : bool;
  leashed : bool;
  clock_from : option N;
  frames : list PendingFrame;
  group : option N;
  fired_this_boundary : bool;
}.

Record Cohort : Type := mkCohort { c_expected : N; arrived : gset LaneId; since : N; condemned : bool }.
Definition complete (c : Cohort) : bool := bool_decide (c_expected c ≤ N.of_nat (size (arrived c)))%N.

Inductive Doom : Type := Abandoned | CohortNeverComplete (group expected arrived : N).
Inductive GateVerdict : Type := Satisfied | Blocking | SkippedOwed.
Record SealedFrame : Type := mkSealed { waves : list (list N); members : gset LaneId }.
Inductive FramePlan : Type :=
  | Dispatch (waves : list (list N))
  | Hold (duration : N)
  | Park
  | Terminate (doomed : list (ProcessId * Doom)).

#[export] Instance ArrivedFire_eq_dec : EqDecision ArrivedFire.
Proof. solve_decision. Defined.
#[export] Instance GateVerdict_eq_dec : EqDecision GateVerdict.
Proof. solve_decision. Defined.

(** The setters of a lane that the policy uses. *)
Definition set_awaited (l : LaneState) b :=
  mkLane (owner l) b (parked l) (leashed l) (clock_from l) (frames l) (group l) (fired_this_boundary l).
Definition set_parked (l : LaneState) b :=
  mkLane (owner l) (awaited l) b (leashed l) (clock_from l) (frames l) (group l) (fired_this_boundary l).
Definition set_leashed (l : LaneState) b :=
  mkLane (owner l) (awaited l) (parked l) b (clock_from l) (frames l) (group l) (fired_this_boundary l).
Definition set_clock_from (l : LaneState) o :=
  mkLane (owner l) (awaited l) (parked l) (leashed l) o (frames l) (group l) (fired_this_boundary l).
Definition set_frames (l : LaneState) fs :=
  mkLane (owner l) (awaited l) (parked l) (leashed l) (clock_from l) fs (group l) (fired_this_boundary l).
Definition set_group (l : LaneState) g :=
  mkLane (owner l) (awaited l) (parked l) (leashed l) (clock_from l) (frames l) g (fired_this_boundary l).
Definition set_fired (l : LaneState) b :=
  mkLane (owner l) (awaited l) (parked l) (leashed l) (clock_from l) (frames l) (group l) b.

Definition front_complete (l : LaneState) : bool :=
  match frames l with f :: _ => is_complete f | [] => false end.
Definition group_key (l : LaneState) : option (ProcessId * N) :=
  match owner l, group l with Some o, Some g => Some (o, g) | _, _ => None end.
Definition owes_its_group (l : LaneState) : bool := (awaited l || leashed l) && negb (front_complete l).
Definition gate_verdict (l : LaneState) (relax owes : bool) : GateVerdict :=
  if negb (awaited l) || front_complete l then Satisfied
  else if relax && owes && bool_decide (length (frames l) = 0) then SkippedOwed
  else Blocking.

(** The ids of the fires that are queued; once sealed they are in order, for the search. *)
Record QueuedFireIds : Type := mkQueued { ids : list N }.
Definition clear (q : QueuedFireIds) : QueuedFireIds := mkQueued [].
Definition push (q : QueuedFireIds) (id : N) : QueuedFireIds := mkQueued (ids q ++ [id]).
Definition seal_ids (q : QueuedFireIds) : QueuedFireIds :=
  if decide (Sorted N.le (ids q)) then q else mkQueued (merge_sort N.le (ids q)).
Definition contains (q : QueuedFireIds) (id : N) : bool := bool_decide (id ∈ ids q).
Definition from_iter (l : list N) : QueuedFireIds := seal_ids (mkQueued l).

Record FramePolicy : Type := mkPolicy {
  k : nat;
  max_wave_tokens : N;
  max_wave_rows : N;
  lanes : gmap LaneId LaneState;
  sealed : list SealedFrame;
  pending_binds : gmap ProcessId N;
  cohorts : gmap (ProcessId * N) Cohort;
  staged : gset ProcessId;
  pending_slots : N;
  joins_in_flight : gset ProcessId;
  admission_queue : list ProcessId;
  slotted : gset ProcessId;
  departing : gset ProcessId;
  suspended : gset ProcessId;
  truncated_seqs : gmap LaneId N;
  strict_watchdog_deadline : option N;
  in_flight_lanes : gset LaneId;
  in_flight_since : gmap LaneId N;
  submit_deadline : N;
  silence_timeout : N;
}.

Definition set_lanes (p : FramePolicy) x : FramePolicy :=
  mkPolicy (k p) (max_wave_tokens p) (max_wave_rows p) x (sealed p) (pending_binds p) (cohorts p) (staged p)
    (pending_slots p) (joins_in_flight p) (admission_queue p) (slotted p) (departing p) (suspended p)
    (truncated_seqs p) (strict_watchdog_deadline p) (in_flight_lanes p) (in_flight_since p)
    (submit_deadline p) (silence_timeout p).
Definition set_sealed (p : FramePolicy) x : FramePolicy :=
  mkPolicy (k p) (max_wave_tokens p) (max_wave_rows p) (lanes p) x (pending_binds p) (cohorts p) (staged p)
    (pending_slots p) (joins_in_flight p) (admission_queue p) (slotted p) (departing p) (suspended p)
    (truncated_seqs p) (strict_watchdog_deadline p) (in_flight_lanes p) (in_flight_since p)
    (submit_deadline p) (silence_timeout p).
Definition set_pending_binds (p : FramePolicy) x : FramePolicy :=
  mkPolicy (k p) (max_wave_tokens p) (max_wave_rows p) (lanes p) (sealed p) x (cohorts p) (staged p)
    (pending_slots p) (joins_in_flight p) (admission_queue p) (slotted p) (departing p) (suspended p)
    (truncated_seqs p) (strict_watchdog_deadline p) (in_flight_lanes p) (in_flight_since p)
    (submit_deadline p) (silence_timeout p).
Definition set_cohorts (p : FramePolicy) x : FramePolicy :=
  mkPolicy (k p) (max_wave_tokens p) (max_wave_rows p) (lanes p) (sealed p) (pending_binds p) x (staged p)
    (pending_slots p) (joins_in_flight p) (admission_queue p) (slotted p) (departing p) (suspended p)
    (truncated_seqs p) (strict_watchdog_deadline p) (in_flight_lanes p) (in_flight_since p)
    (submit_deadline p) (silence_timeout p).
Definition set_staged (p : FramePolicy) x : FramePolicy :=
  mkPolicy (k p) (max_wave_tokens p) (max_wave_rows p) (lanes p) (sealed p) (pending_binds p) (cohorts p) x
    (pending_slots p) (joins_in_flight p) (admission_queue p) (slotted p) (departing p) (suspended p)
    (truncated_seqs p) (strict_watchdog_deadline p) (in_flight_lanes p) (in_flight_since p)
    (submit_deadline p) (silence_timeout p).
Definition set_pending_slots (p : FramePolicy) x : FramePolicy :=
  mkPolicy (k p) (max_wave_tokens p) (max_wave_rows p) (lanes p) (sealed p) (pending_binds p) (cohorts p)
    (staged p) x (joins_in_flight p) (admission_queue p) (slotted p) (departing p) (suspended p)
    (truncated_seqs p) (strict_watchdog_deadline p) (in_flight_lanes p) (in_flight_since p)
    (submit_deadline p) (silence_timeout p).
Definition set_joins_in_flight (p : FramePolicy) x : FramePolicy :=
  mkPolicy (k p) (max_wave_tokens p) (max_wave_rows p) (lanes p) (sealed p) (pending_binds p) (cohorts p)
    (staged p) (pending_slots p) x (admission_queue p) (slotted p) (departing p) (suspended p)
    (truncated_seqs p) (strict_watchdog_deadline p) (in_flight_lanes p) (in_flight_since p)
    (submit_deadline p) (silence_timeout p).
Definition set_admission_queue (p : FramePolicy) x : FramePolicy :=
  mkPolicy (k p) (max_wave_tokens p) (max_wave_rows p) (lanes p) (sealed p) (pending_binds p) (cohorts p)
    (staged p) (pending_slots p) (joins_in_flight p) x (slotted p) (departing p) (suspended p)
    (truncated_seqs p) (strict_watchdog_deadline p) (in_flight_lanes p) (in_flight_since p)
    (submit_deadline p) (silence_timeout p).
Definition set_slotted (p : FramePolicy) x : FramePolicy :=
  mkPolicy (k p) (max_wave_tokens p) (max_wave_rows p) (lanes p) (sealed p) (pending_binds p) (cohorts p)
    (staged p) (pending_slots p) (joins_in_flight p) (admission_queue p) x (departing p) (suspended p)
    (truncated_seqs p) (strict_watchdog_deadline p) (in_flight_lanes p) (in_flight_since p)
    (submit_deadline p) (silence_timeout p).
Definition set_departing (p : FramePolicy) x : FramePolicy :=
  mkPolicy (k p) (max_wave_tokens p) (max_wave_rows p) (lanes p) (sealed p) (pending_binds p) (cohorts p)
    (staged p) (pending_slots p) (joins_in_flight p) (admission_queue p) (slotted p) x (suspended p)
    (truncated_seqs p) (strict_watchdog_deadline p) (in_flight_lanes p) (in_flight_since p)
    (submit_deadline p) (silence_timeout p).
Definition set_suspended (p : FramePolicy) x : FramePolicy :=
  mkPolicy (k p) (max_wave_tokens p) (max_wave_rows p) (lanes p) (sealed p) (pending_binds p) (cohorts p)
    (staged p) (pending_slots p) (joins_in_flight p) (admission_queue p) (slotted p) (departing p) x
    (truncated_seqs p) (strict_watchdog_deadline p) (in_flight_lanes p) (in_flight_since p)
    (submit_deadline p) (silence_timeout p).
Definition set_truncated_seqs (p : FramePolicy) x : FramePolicy :=
  mkPolicy (k p) (max_wave_tokens p) (max_wave_rows p) (lanes p) (sealed p) (pending_binds p) (cohorts p)
    (staged p) (pending_slots p) (joins_in_flight p) (admission_queue p) (slotted p) (departing p)
    (suspended p) x (strict_watchdog_deadline p) (in_flight_lanes p) (in_flight_since p) (submit_deadline p)
    (silence_timeout p).
Definition set_strict_watchdog_deadline (p : FramePolicy) x : FramePolicy :=
  mkPolicy (k p) (max_wave_tokens p) (max_wave_rows p) (lanes p) (sealed p) (pending_binds p) (cohorts p)
    (staged p) (pending_slots p) (joins_in_flight p) (admission_queue p) (slotted p) (departing p)
    (suspended p) (truncated_seqs p) x (in_flight_lanes p) (in_flight_since p) (submit_deadline p)
    (silence_timeout p).
Definition set_in_flight_lanes (p : FramePolicy) x : FramePolicy :=
  mkPolicy (k p) (max_wave_tokens p) (max_wave_rows p) (lanes p) (sealed p) (pending_binds p) (cohorts p)
    (staged p) (pending_slots p) (joins_in_flight p) (admission_queue p) (slotted p) (departing p)
    (suspended p) (truncated_seqs p) (strict_watchdog_deadline p) x (in_flight_since p) (submit_deadline p)
    (silence_timeout p).
Definition set_in_flight_since (p : FramePolicy) x : FramePolicy :=
  mkPolicy (k p) (max_wave_tokens p) (max_wave_rows p) (lanes p) (sealed p) (pending_binds p) (cohorts p)
    (staged p) (pending_slots p) (joins_in_flight p) (admission_queue p) (slotted p) (departing p)
    (suspended p) (truncated_seqs p) (strict_watchdog_deadline p) (in_flight_lanes p) x (submit_deadline p)
    (silence_timeout p).

(** The deadlines are those configured. *)
Definition new (k : nat) (max_wave_rows max_wave_tokens submit_deadline silence_timeout : N) : FramePolicy :=
  mkPolicy k max_wave_tokens max_wave_rows ∅ [] ∅ ∅ ∅ 0 ∅ [] ∅ ∅ ∅ ∅ None ∅ ∅ submit_deadline silence_timeout.

Definition single_slot (p : FramePolicy) : bool := bool_decide (k p = 1).

(** [if let Some(lane) = self.lanes.get_mut(&id)]. *)
Definition on_lane (p : FramePolicy) (id : LaneId) (f : LaneState → LaneState) : FramePolicy :=
  set_lanes p (alter f id (lanes p)).
(** [for lane in self.lanes.values_mut()]. *)
Definition each_lane (p : FramePolicy) (f : LaneState → LaneState) : FramePolicy := set_lanes p (f <$> lanes p).

(** A map in the order of its keys. *)
Definition at_most {A} (a b : N * A) : Prop := (a.1 ≤ b.1)%N.
#[export] Instance at_most_dec {A} : RelDecision (at_most (A := A)).
Proof. intros a b. unfold at_most. apply _. Defined.
Definition in_order {A} (m : gmap N A) : list (N * A) := merge_sort at_most (map_to_list m).

(** ** Groups *)

Definition gather_cohort (p : FramePolicy) (lane : LaneId) (o : option ProcessId) (cohort : option (N * N)) (now : N) :
    FramePolicy :=
  match o, cohort with
  | Some o, Some (g, expects) =>
      let c := default (mkCohort expects ∅ now false) (cohorts p !! (o, g)) in
      let c := mkCohort (N.max (c_expected c) expects) ({[lane]} ∪ arrived c) (since c) (condemned c) in
      set_cohorts p (if complete c then delete (o, g) (cohorts p) else <[(o, g) := c]> (cohorts p))
  | _, _ => p
  end.

Definition key_at_most {A} (a b : ProcessId * N * A) : Prop :=
  (a.1.1 < b.1.1)%N ∨ a.1.1 = b.1.1 ∧ (a.1.2 ≤ b.1.2)%N.
#[export] Instance key_at_most_dec {A} : RelDecision (key_at_most (A := A)).
Proof. intros a b. unfold key_at_most. apply _. Defined.
Definition overdue (p : FramePolicy) (now : N) (c : Cohort) : bool :=
  negb (condemned c) && negb (bool_decide (now - since c < silence_timeout p)%N).
Definition cohort_verdict (p : FramePolicy) (now : N) : list (ProcessId * Doom) * FramePolicy :=
  let due := filter (λ kc, overdue p now kc.2 = true)
    (merge_sort key_at_most (map_to_list (cohorts p))) in
  ((λ kc, (kc.1.1, CohortNeverComplete kc.1.2 (c_expected kc.2) (as_u32 (N.of_nat (size (arrived kc.2)))))) <$> due,
   set_cohorts p ((λ c, if overdue p now c then mkCohort (c_expected c) (arrived c) (since c) true else c) <$> cohorts p)).

Definition group_short (p : FramePolicy) (l : LaneState) : bool :=
  match group_key l with
  | None => false
  | Some key => bool_decide (is_Some (cohorts p !! key))
      || existsb (λ other, bool_decide (group_key other.2 = Some key) && owes_its_group other.2) (map_to_list (lanes p))
  end.
Definition group_assembling (p : FramePolicy) : bool :=
  bool_decide (cohorts p ≠ ∅)
  || existsb (λ l, bool_decide (length (frames l.2) ≠ 0) && group_short p l.2) (map_to_list (lanes p)).

(** ** Arrivals *)

Definition push_fire (f : PendingFrame) (fire : ArrivedFire) (late : bool) (fires_stated : N) : PendingFrame :=
  let cut := truncated f || late in
  let all := fires f ++ [fire] in
  mkFrame (seq f) (if cut then as_u32 (N.of_nat (length all)) else N.max (expected f) fires_stated) cut (park f) all.

Definition record_arrival (p : FramePolicy) (stamp : FrameStamp) (o : option ProcessId) (fire : ArrivedFire) :
    FramePolicy :=
  let p := match o with
    | Some o => set_joins_in_flight (set_staged p (staged p ∖ {[o]})) (joins_in_flight p ∖ {[o]})
    | None => p
    end in
  let lane_owner := match o with Some o => Some o | None => lanes p !! s_lane stamp ≫= owner end in
  let is_suspended := match lane_owner with Some o => bool_decide (o ∈ suspended p) | None => false end in
  let '(late, p) := match truncated_seqs p !! s_lane stamp with
    | Some q => if decide (q = s_seq stamp) then (true, p)
        else if decide (q < s_seq stamp)%N then (false, set_truncated_seqs p (delete (s_lane stamp) (truncated_seqs p)))
        else (false, p)
    | None => (false, p)
    end in
  let l := default (mkLane o (negb is_suspended) is_suspended false None [] None true) (lanes p !! s_lane stamp) in
  let own := match owner l with None => o | some => some end in
  let back := parked l && negb is_suspended in
  let fresh := mkFrame (s_seq stamp) (s_fires stamp) false false [] in
  let '(i, f, fs) := match list_find (λ f, seq f = s_seq stamp) (frames l) with
    | Some (i, f) => (i, f, frames l)
    | None => (length (frames l), fresh, frames l ++ [fresh])
    end in
  let f := push_fire f fire (late || is_suspended) (s_fires stamp) in
  let p := set_lanes p (<[s_lane stamp := mkLane own (if back then true else awaited l) (if back then false else parked l)
    false None (<[i := f]> fs) (group l) (fired_this_boundary l)]> (lanes p)) in
  if truncated f && bool_decide (expected f < s_fires stamp)%N
  then set_truncated_seqs p (<[s_lane stamp := s_seq stamp]> (truncated_seqs p))
  else p.

Definition on_fire_enqueued (p : FramePolicy) (stamp : FrameStamp) (o : option ProcessId) (id toks rws : N)
    (cohort : option (N * N)) (now : N) : FramePolicy :=
  let p := gather_cohort p (s_lane stamp) o cohort now in
  let p := record_arrival p stamp o (mkFire (s_slot stamp) (Some id) toks rws) in
  match cohort with
  | Some (g, _) => on_lane p (s_lane stamp) (λ l, set_group l (Some g))
  | None => p
  end.
Definition on_fire_rejected_at_admission (p : FramePolicy) (stamp : FrameStamp) (o : option ProcessId) : FramePolicy :=
  record_arrival p stamp o (mkFire (s_slot stamp) None 0 0).

Definition on_frame_truncated (p : FramePolicy) (lane : LaneId) (q submitted : N) : FramePolicy :=
  on_lane p lane (λ l, match list_find (λ f, seq f = q) (frames l) with
    | Some (i, f) => set_frames l (<[i := mkFrame (seq f) submitted true (park f) (fires f)]> (frames l))
    | None => l
    end).

Definition on_lane_park (p : FramePolicy) (lane : LaneId) (q : N) : FramePolicy :=
  on_lane p lane (λ l,
    if existsb park (frames l) then l
    else
      let i := match list_find (λ f, (q < seq f)%N) (frames l) with Some (i, _) => i | None => length (frames l) end in
      set_frames l (take i (frames l) ++ mkFrame q 0 true true [] :: drop i (frames l))).

Definition on_frame_retired (p : FramePolicy) (ls : list LaneId) : FramePolicy :=
  foldl (λ p lane, on_lane (set_in_flight_since (set_in_flight_lanes p (in_flight_lanes p ∖ {[lane]}))
    (delete lane (in_flight_since p))) lane (λ l, set_clock_from l None)) p ls.

Fixpoint retire_fronts (l : LaneState) (fs : list PendingFrame) : LaneState :=
  match fs with
  | f :: fs' =>
      if park f then
        retire_fronts (if decide (length fs' = 0) then set_clock_from (set_parked (set_awaited l false) true) None else l) fs'
      else set_frames l fs
  | [] => set_frames l []
  end.
Definition retire_parks (p : FramePolicy) : FramePolicy := each_lane p (λ l, retire_fronts l (frames l)).

(** ** Joining and leaving *)

Definition on_bind_enqueued (p : FramePolicy) (o : option ProcessId) : FramePolicy :=
  match o with
  | None => p
  | Some pid =>
      let p := set_pending_binds p (<[pid := as_u64 (default 0%N (pending_binds p !! pid) + 1)]> (pending_binds p)) in
      if existsb (λ l, bool_decide (owner l.2 = Some pid)) (map_to_list (lanes p)) then p
      else set_staged p (staged p ∪ {[pid]})
  end.
Definition preload_free_slots (p : FramePolicy) (slots : N) : FramePolicy := set_pending_slots p slots.
Definition on_execution_slot_released (p : FramePolicy) (pid : ProcessId) : FramePolicy :=
  set_pending_slots (set_departing p (departing p ∖ {[pid]})) (as_u64 (pending_slots p + 1)).
Definition on_admission_dequeued (p : FramePolicy) (pid : ProcessId) : FramePolicy :=
  set_admission_queue p (filter (λ q, q ≠ pid) (admission_queue p)).
Definition on_execution_slot_consumed (p : FramePolicy) (pid : ProcessId) : FramePolicy :=
  let p := set_pending_slots p (pending_slots p - 1) in
  let p := on_admission_dequeued p pid in
  let p := set_slotted p (slotted p ∪ {[pid]}) in
  if decide (pid ∈ staged p) then set_joins_in_flight p (joins_in_flight p ∪ {[pid]}) else p.
Definition on_admission_queued (p : FramePolicy) (pid : ProcessId) : FramePolicy :=
  if decide (pid ∈ admission_queue p) then p else set_admission_queue p (admission_queue p ++ [pid]).
Definition on_slotted_terminate (p : FramePolicy) (pid : ProcessId) : FramePolicy :=
  if decide (pid ∈ slotted p)
  then set_departing (set_slotted p (slotted p ∖ {[pid]})) (departing p ∪ {[pid]})
  else p.
Definition has_pending_binds (p : FramePolicy) : bool := bool_decide (pending_binds p ≠ ∅).

(** [sort_by_key(|id| Reverse(rank(id)))], which is stable. *)
Fixpoint insert_ranked (rank : N → Z) (x : N) (l : list N) : list N :=
  match l with
  | [] => [x]
  | y :: l' => if decide (rank y ≤ rank x)%Z then x :: l else y :: insert_ranked rank x l'
  end.
Definition sort_ranked (rank : N → Z) (l : list N) : list N := foldr (insert_ranked rank) [] l.

(** The installed schedule, if there is one, gives each process its key. *)
Definition Schedule : Type := option (ProcessId → Z).

Definition earmarked (sched : Schedule) (p : FramePolicy) : list ProcessId :=
  let slots := (N.to_nat (pending_slots p) + size (departing p))%nat in
  let queue := match sched with Some key => sort_ranked key (admission_queue p) | None => admission_queue p end in
  take slots (filter (.∈ staged p) queue).
Definition is_joining (sched : Schedule) (p : FramePolicy) : bool :=
  bool_decide (joins_in_flight p ≠ ∅) || bool_decide (length (earmarked sched p) ≠ 0).

Definition on_bind_completed (p : FramePolicy) (o : option ProcessId) : FramePolicy :=
  match o with
  | None => p
  | Some pid =>
      match pending_binds p !! pid with
      | None => p
      | Some count =>
          let count := (count - 1)%N in
          set_pending_binds p (if decide (count = 0%N) then delete pid (pending_binds p)
            else <[pid := count]> (pending_binds p))
      end
  end.

Definition forget_staged (p : FramePolicy) (pid : ProcessId) : FramePolicy :=
  set_in_flight_since (set_joins_in_flight (set_staged p (staged p ∖ {[pid]})) (joins_in_flight p ∖ {[pid]}))
    (delete pid (in_flight_since p)).
Definition maybe_reset_episode (p : FramePolicy) : FramePolicy :=
  if existsb (λ l, awaited l.2) (map_to_list (lanes p)) then p else set_strict_watchdog_deadline p None.

Definition cut_frame (f : PendingFrame) : PendingFrame :=
  if is_complete f then f else mkFrame (seq f) (as_u32 (N.of_nat (length (fires f)))) true (park f) (fires f).
Definition truncate_incomplete (p : FramePolicy) (lane : LaneId) : FramePolicy :=
  match lanes p !! lane with
  | None => p
  | Some l =>
      let p' := set_lanes p (<[lane := set_frames l (cut_frame <$> frames l)]> (lanes p)) in
      match last (filter (λ f, is_complete f = false) (frames l)) with
      | Some f => set_truncated_seqs p' (<[lane := seq f]> (truncated_seqs p))
      | None => p'
      end
  end.
(** A lane nobody waits for, cut, and gone once it has no frame. *)
Definition drop_drained (p : FramePolicy) (lane : LaneId) : FramePolicy :=
  match lanes p !! lane with
  | Some l => if decide (length (frames l) = 0) then set_lanes p (delete lane (lanes p)) else p
  | None => p
  end.
Definition wind_down (p : FramePolicy) (lane : LaneId) : FramePolicy :=
  drop_drained (truncate_incomplete (on_lane p lane (λ l, set_parked (set_awaited l false) true)) lane) lane.
Definition drop_cohorts (p : FramePolicy) (o : ProcessId) : FramePolicy :=
  set_cohorts p (filter (λ kc, kc.1.1 ≠ o) (cohorts p)).
Definition forget_owner (p : FramePolicy) (o : ProcessId) : FramePolicy :=
  forget_staged (drop_cohorts (set_pending_binds p (delete o (pending_binds p))) o) o.
Definition owned_lanes (p : FramePolicy) (o : ProcessId) : list LaneId :=
  (filter (λ l, owner l.2 = Some o) (in_order (lanes p))).*1.

Definition on_lane_leave (p : FramePolicy) (lane : LaneId) (o : option ProcessId) (purge_queued : bool) : FramePolicy :=
  let o := match o with Some o => Some o | None => lanes p !! lane ≫= owner end in
  let p := if purge_queued
    then set_in_flight_lanes (set_truncated_seqs (set_lanes p (delete lane (lanes p))) (delete lane (truncated_seqs p)))
           (in_flight_lanes p ∖ {[lane]})
    else match lanes p !! lane with Some _ => wind_down p lane | None => p end in
  maybe_reset_episode (match o with Some o => forget_owner p o | None => p end).

Definition on_process_leave (p : FramePolicy) (o : ProcessId) : FramePolicy :=
  let p := foldl (λ p id, set_in_flight_lanes (set_truncated_seqs p (delete id (truncated_seqs p)))
    (in_flight_lanes p ∖ {[id]})) p (owned_lanes p o) in
  let p := set_lanes p (filter (λ l, owner l.2 ≠ Some o) (lanes p)) in
  let p := drop_cohorts (set_pending_binds p (delete o (pending_binds p))) o in
  maybe_reset_episode (forget_staged (set_suspended p (suspended p ∖ {[o]})) o).

Definition on_process_suspend (p : FramePolicy) (o : ProcessId) : FramePolicy :=
  let p := set_suspended p (suspended p ∪ {[o]}) in
  maybe_reset_episode (forget_owner (foldl wind_down p (owned_lanes p o)) o).
Definition on_process_resume (p : FramePolicy) (o : ProcessId) : FramePolicy :=
  set_suspended p (suspended p ∖ {[o]}).

(** ** Boundaries *)

Definition have_seal_candidate (p : FramePolicy) : bool :=
  existsb (λ l, front_complete l.2 && negb (group_short p l.2)) (map_to_list (lanes p)).
Definition boundary_open (p : FramePolicy) : bool :=
  existsb (λ l, awaited l.2 && negb (fired_this_boundary l.2)) (map_to_list (lanes p)).
Definition open_boundary (p : FramePolicy) : FramePolicy := each_lane p (λ l, set_fired l false).
Definition close_boundary (p : FramePolicy) : FramePolicy := each_lane p (λ l, set_fired l true).

(** ** Sealing *)

(** The lanes that are ready, in order: those that have not fired since the boundary opened,
    and, of an open boundary, those that have. *)
Definition ready_lanes (p : FramePolicy) (mid : bool) : list LaneId * list LaneId :=
  let ready := filter (λ l, front_complete l.2 && negb (group_short p l.2) = true) (in_order (lanes p)) in
  ((filter (λ l, mid && fired_this_boundary l.2 = false) ready).*1,
   (filter (λ l, mid && fired_this_boundary l.2 = true) ready).*1).

Definition lane_rank (key : ProcessId → Z) (p : FramePolicy) (lane : LaneId) : Z :=
  match lanes p !! lane ≫= owner with Some o => key o | None => 0 end.
Definition by_schedule (sched : Schedule) (p : FramePolicy) (l : list LaneId) : list LaneId :=
  match sched with Some key => sort_ranked (lane_rank key p) l | None => l end.
Definition seal_order (fresh continuing : list LaneId) : list LaneId :=
  match fresh with
  | first :: rest => first :: continuing ++ rest
  | [] => continuing
  end.

(** Lanes that go together: a lane alone, or all the lanes of a group. *)
Definition key_of (p : FramePolicy) (lane : LaneId) : option (ProcessId * N) := lanes p !! lane ≫= group_key.
Fixpoint form_units (p : FramePolicy) (order todo : list LaneId) (placed : gset LaneId) : list (list LaneId) :=
  match todo with
  | [] => []
  | lane :: todo =>
      if decide (lane ∈ placed) then form_units p order todo placed
      else
        match key_of p lane with
        | None => [lane] :: form_units p order todo ({[lane]} ∪ placed)
        | Some key =>
            let unit := filter (λ id, key_of p id = Some key) order in
            unit :: form_units p order todo (list_to_set unit ∪ ({[lane]} ∪ placed))
        end
  end.

(** What is in each wave. *)
Definition amount (l : list N) (w : nat) : N := default 0%N (l !! w).
Definition raise (l : list N) (w : nat) (n : N) : list N := alter (λ m, m + n)%N w l.

Record Packing : Type := mkPacking {
  pk_waves : list (list N);
  pk_fire_waves : gmap N nat;
  pk_rows : list N;
  pk_tokens : list N;
  pk_members : gset LaneId;
}.
Definition empty_packing (k : nat) : Packing :=
  mkPacking (replicate k []) ∅ (replicate k 0%N) (replicate k 0%N) ∅.

Record Measure : Type := mkMeasure {
  me_lanes : gmap LaneId LaneState;
  me_fires : list (LaneId * list PlacedFire);
  me_rows : list N;
  me_tokens : list N;
  me_short : bool;
  me_dropped : bool;
}.

(** The fires of a frame that were not rejected, by wave. Without a wave, a fire panics. *)
Definition live_fires (k : nat) (fs : list ArrivedFire) : option (list PlacedFire) :=
  let live := omap (λ f, (λ id, mkPlaced (N.to_nat (a_slot f) `min` (k - 1)) id (N.max (a_rows f) 1) (a_tokens f)) <$> a_fire_id f) fs in
  if decide (k = 0 ∧ length live ≠ 0) then None else Some live.

(** Whether each wave keeps room. The sums are exact: admission bounds the rows and tokens of
    a fire, and a wave those of what is in it, far below a [usize]. *)
Definition fits (p : FramePolicy) (pk : Packing) (m : Measure) (live : list PlacedFire) : bool :=
  forallb (λ f,
    bool_decide (amount (pk_rows pk) (wave f) + amount (me_rows m) (wave f) + rows f ≤ max_wave_rows p)%N &&
    bool_decide (amount (pk_tokens pk) (wave f) + amount (me_tokens m) (wave f) + tokens f ≤ max_wave_tokens p)%N) live.

Definition cut_short (m : Measure) : Measure :=
  mkMeasure (me_lanes m) (me_fires m) (me_rows m) (me_tokens m) true (me_dropped m).
Definition measure_lane (p : FramePolicy) (pk : Packing) (m : Measure) (lane : LaneId) : option Measure :=
  match me_lanes m !! lane with
  | None => Some (cut_short m)
  | Some l =>
      match frames l with
      | [] => Some (cut_short m)
      | front :: rest =>
          live ← live_fires (k p) (fires front);
          Some (
            if decide (length live = 0) then
              mkMeasure (<[lane := set_frames l rest]> (me_lanes m)) (me_fires m) (me_rows m) (me_tokens m) true true
            else if fits p pk m live then
              mkMeasure (me_lanes m) (me_fires m ++ [(lane, live)])
                (foldl (λ r f, raise r (wave f) (rows f)) (me_rows m) live)
                (foldl (λ t f, raise t (wave f) (tokens f)) (me_tokens m) live) (me_short m) (me_dropped m)
            else cut_short m)
      end
  end.
Fixpoint measure_unit (p : FramePolicy) (pk : Packing) (m : Measure) (unit : list LaneId) : option Measure :=
  match unit with
  | [] => Some m
  | lane :: unit => m ← measure_lane p pk m lane; measure_unit p pk m unit
  end.

Definition place_fire (pk : Packing) (f : PlacedFire) : Packing :=
  mkPacking (alter (λ w, w ++ [fire_id f]) (wave f) (pk_waves pk)) (<[fire_id f := wave f]> (pk_fire_waves pk))
    (raise (pk_rows pk) (wave f) (rows f)) (raise (pk_tokens pk) (wave f) (tokens f)) (pk_members pk).
(** [expect("measured lane exists")]. *)
Definition place_lane (st : gmap LaneId LaneState * Packing) (u : LaneId * list PlacedFire) :
    option (gmap LaneId LaneState * Packing) :=
  let pk := foldl place_fire st.2 u.2 in
  l ← st.1 !! u.1;
  Some (<[u.1 := set_frames l (tail (frames l))]> st.1,
        mkPacking (pk_waves pk) (pk_fire_waves pk) (pk_rows pk) (pk_tokens pk) ({[u.1]} ∪ pk_members pk)).
Fixpoint place_unit (st : gmap LaneId LaneState * Packing) (us : list (LaneId * list PlacedFire)) :
    option (gmap LaneId LaneState * Packing) :=
  match us with
  | [] => Some st
  | u :: us => st ← place_lane st u; place_unit st us
  end.

(** The units, each whole or not at all; and whether a frame without a fire was dropped. *)
Fixpoint pack_units (p : FramePolicy) (ls : gmap LaneId LaneState) (pk : Packing) (dropped : bool) (units : list (list LaneId)) :
    option (gmap LaneId LaneState * Packing * bool) :=
  match units with
  | [] => Some (ls, pk, dropped)
  | unit :: units =>
      m ← measure_unit p pk (mkMeasure ls [] (replicate (k p) 0%N) (replicate (k p) 0%N) false dropped) unit;
      if me_short m then pack_units p (me_lanes m) pk (me_dropped m) units
      else st ← place_unit (me_lanes m, pk) (me_fires m); pack_units p st.1 st.2 (me_dropped m) units
  end.

Definition keep_lanes (ls : gmap LaneId LaneState) : gmap LaneId LaneState :=
  filter (λ l, awaited l.2 || leashed l.2 || bool_decide (length (frames l.2) ≠ 0) = true) ls.
Definition mark_fired (ms : gset LaneId) (ls : gmap LaneId LaneState) : gmap LaneId LaneState :=
  map_imap (λ id l, Some (if decide (id ∈ ms) then set_fired l true else l)) ls.

Definition order_of (sched : Schedule) (p : FramePolicy) (mid : bool) : list LaneId :=
  let '(fresh, continuing) := ready_lanes p mid in
  seal_order (by_schedule sched p fresh) (by_schedule sched p continuing).

Definition seal_in (p : FramePolicy) (mid : bool) (pk : Packing) : FramePolicy :=
  let p := if mid then p else open_boundary p in
  let p := set_lanes p (mark_fired (pk_members pk) (lanes p)) in
  let p := set_sealed p (sealed p ++ [mkSealed (pk_waves pk) (pk_members pk)]) in
  set_lanes p (keep_lanes (lanes p)).

(** The loop of [seal]: a turn that drops frames without fires and seals none is taken again. *)
Fixpoint seal_loop (fuel : nat) (sched : Schedule) (mid : bool) (p : FramePolicy) : option (option FramePlan * FramePolicy) :=
  match fuel with
  | 0 => None
  | S fuel =>
      if mid && bool_decide (length (ready_lanes p mid).1 = 0) then Some (None, p)
      else
        let order := order_of sched p mid in
        r ← pack_units p (lanes p) (empty_packing (k p)) false (form_units p order order ∅);
        let '(ls, pk, dropped) := r in
        if decide (pk_fire_waves pk = ∅) then
          if (dropped : bool) then seal_loop fuel sched mid (set_lanes p ls)
          else Some (None, set_lanes p (keep_lanes ls))
        else Some (Some (Dispatch []), seal_in (set_lanes p ls) mid pk)
  end.
Definition count_frames (ls : gmap LaneId LaneState) : nat :=
  sum_list ((λ l, length (frames l.2)) <$> map_to_list ls).
Definition seal (sched : Schedule) (p : FramePolicy) : option (option FramePlan * FramePolicy) :=
  if negb (have_seal_candidate p) then Some (None, p)
  else seal_loop (S (count_frames (lanes p))) sched (boundary_open p) p.

(** ** Dispatching *)

Definition still_waves (q : QueuedFireIds) (f : SealedFrame) : SealedFrame :=
  mkSealed ((λ w, filter (λ id, contains q id = true) w) <$> waves f) (members f).
Definition spent (f : SealedFrame) : bool := forallb (λ w, bool_decide (length w = 0)) (waves f).
Fixpoint drop_spent (fs : list SealedFrame) : list SealedFrame :=
  match fs with
  | f :: fs' => if spent f then drop_spent fs' else fs
  | [] => []
  end.

(** What the wait does to a lane, whether it is missing, and whether it is given up. *)
Definition gate_lane (p : FramePolicy) (now : N) (id : LaneId) (l : LaneState) : LaneState * bool * option ProcessId :=
  let owes := bool_decide (id ∈ in_flight_lanes p) ||
    match owner l with Some o => bool_decide (is_Some (pending_binds p !! o)) | None => false end in
  let debt_since := if owes then in_flight_since p !! id else None in
  let owes_forever := match debt_since with
    | Some from => bool_decide (silence_timeout p * 2 ≤ now - from)%N | None => false end in
  let blocking := bool_decide (gate_verdict l false owes = Blocking) in
  if negb blocking && negb (leashed l) then (set_clock_from l None, false, None)
  else if owes && negb owes_forever then (set_clock_from l None, blocking, None)
  else
    let l := if owes_forever then set_clock_from l debt_since else l in
    match clock_from l with
    | Some from =>
        if decide (silence_timeout p ≤ now - from)%N then
          (set_clock_from (set_leashed (set_awaited l false) false) None, false, Some (default id (owner l)))
        else if decide (blocking = true ∧ (submit_deadline p ≤ now - from)%N) then
          (set_leashed (set_parked (set_awaited l false) true) true, false, None)
        else (l, blocking, None)
    | None => (set_clock_from l (Some now), blocking, None)
    end.

Definition gate_lanes (p : FramePolicy) (now : N) : gmap LaneId LaneState :=
  map_imap (λ id l, Some (gate_lane p now id l).1.1) (lanes p).
Definition missing (p : FramePolicy) (now : N) : nat :=
  length (filter (λ l, (gate_lane p now l.1 l.2).1.2 = true) (map_to_list (lanes p))).
(** [sort_unstable] and [dedup]. *)
Definition expired (p : FramePolicy) (now : N) : list ProcessId :=
  merge_sort N.le (elements (list_to_set (C := gset N)
    (omap (λ l, (gate_lane p now l.1 l.2).2) (in_order (lanes p))))).

Definition hold_for (p : FramePolicy) (now : N) : N * FramePolicy :=
  let deadline := default (now + micros STRICT_WATCHDOG_US)%N (strict_watchdog_deadline p) in
  let deadline := if decide (deadline ≤ now)%N then (now + micros STRICT_WATCHDOG_US)%N else deadline in
  (N.min (deadline - now) (micros GATHER_POLL_US), set_strict_watchdog_deadline p (Some deadline)).

(** A turn of the loop of [plan_dispatch]; no plan when it is to be taken again. *)
Definition dispatch_front (p : FramePolicy) (blocked_lanes : gset LaneId) (now : N) : option (FramePlan * FramePolicy) :=
  match sealed p with
  | [] => None
  | front :: rest =>
      if decide (members front ∩ blocked_lanes ≠ ∅) then Some (Hold (micros 500), p)
      else
        let p := set_in_flight_lanes (set_sealed p rest) (in_flight_lanes p ∪ members front) in
        Some (Dispatch (waves front),
          set_in_flight_since p (in_flight_since p ∪ gset_to_gmap now (members front)))
  end.

Definition after_gate (sched : Schedule) (executing : bool) (now : N) (p : FramePolicy) : option (option FramePlan * FramePolicy) :=
  let gone := expired p now in
  let lacking := missing p now in
  let p := set_lanes p (gate_lanes p now) in
  if decide (length gone ≠ 0) then Some (Some (Terminate ((λ pid, (pid, Abandoned)) <$> gone)), p)
  else if decide (0 < lacking) then
    if (executing : bool) then Some (Some Park, p)
    else let '(hold, p) := hold_for p now in Some (Some (Hold hold), p)
  else
    r ← seal sched (set_strict_watchdog_deadline p None);
    let '(plan, p) := r in
    match plan with
    | Some (Dispatch _) => Some (None, p)
    | Some plan => Some (Some plan, p)
    | None => if group_assembling p then Some (Some (Hold (micros GATHER_POLL_US)), p) else Some (Some Park, p)
    end.

(** Once nothing sealed waits and the boundary is closed. *)
Definition closed_turn (sched : Schedule) (executing : bool) (now : N) (p : FramePolicy) :
    option (option FramePlan * FramePolicy) :=
  if decide (count_frames (lanes p) = 0) then Some (Some Park, set_strict_watchdog_deadline p None)
  else
    let '(doomed, p) := cohort_verdict p now in
    if decide (length doomed ≠ 0) then Some (Some (Terminate doomed), p)
    else if boundary_open p then None (* [debug_assert!] *)
    else after_gate sched executing now p.

Definition clean_up (q : QueuedFireIds) (p : FramePolicy) : FramePolicy :=
  let p := retire_parks p in
  set_sealed p (drop_spent (still_waves q <$> sealed p)).

Definition plan_turn (sched : Schedule) (still_queued : QueuedFireIds) (blocked_lanes : gset LaneId) (executing : bool) (now : N)
    (p : FramePolicy) : option (option FramePlan * FramePolicy) :=
  let p := clean_up still_queued p in
  match dispatch_front p blocked_lanes now with
  | Some (plan, p) => Some (Some plan, p)
  | None =>
      if boundary_open p then
        r ← seal sched p;
        let '(plan, p) := r in
        match plan with
        | Some (Dispatch _) => Some (None, p)
        | Some plan => Some (Some plan, p)
        | None => closed_turn sched executing now (close_boundary p)
        end
      else closed_turn sched executing now p
  end.
Fixpoint plan_loop (fuel : nat) (sched : Schedule) (still_queued : QueuedFireIds) (blocked_lanes : gset LaneId) (executing : bool)
    (now : N) (p : FramePolicy) : option (FramePlan * FramePolicy) :=
  match fuel with
  | 0 => None
  | S fuel =>
      r ← plan_turn sched still_queued blocked_lanes executing now p;
      match r with
      | (Some plan, p) => Some (plan, p)
      | (None, p) => plan_loop fuel sched still_queued blocked_lanes executing now p
      end
  end.
Definition plan_dispatch (p : FramePolicy) (sched : Schedule) (still_queued : QueuedFireIds) (blocked_lanes : gset LaneId)
    (executing : bool) (now : N) : option (FramePlan * FramePolicy) :=
  plan_loop (S (count_frames (lanes p))) sched still_queued blocked_lanes executing now p.

Definition has_queued_frames (p : FramePolicy) : bool := bool_decide (count_frames (lanes p) ≠ 0).
End Frame.
