(* ===== verification/FrameSeal.v ===== *)
(** What a seal of the frame policy does to the lanes, and what a call of
    [Frame.Frame.plan_dispatch] does turn by turn. Of a seal: which frames it takes, which
    fires go to which wave, and how much each wave holds; the lemmas follow its loops: a
    lane measured, a unit measured and placed, the units packed, the turns that drop frames
    without a fire. Of a turn: the fires that a step of it holds, lets go and gives out,
    and the frames that are left. *)
From stdpp Require Import gmap sorting.
From S2P Require Import Prelude Frame.
Import Frame.

Module FrameSeal.

(** ** What the lanes hold *)

(** The fires of a frame that were not rejected, and those of a lane. *)
Definition live (f : PendingFrame) : list N := omap a_fire_id (fires f).
Definition lane_live (l : LaneState) : list N := frames l ≫= live.

Section bag.
Context {B : Type} (f : LaneState → list B).

Definition bag (ls : gmap LaneId LaneState) : list B := map_to_list ls ≫= (λ x, f x.2).
Definition bag_of (o : option LaneState) : list B := match o with Some l => f l | None => [] end.

Lemma bag_insert_new ls i l : ls !! i = None → bag (<[i := l]> ls) ≡ₚ f l ++ bag ls.
Proof. intros Hi. unfold bag. by rewrite (map_to_list_insert ls i l Hi). Qed.

Lemma bag_delete ls i : bag ls ≡ₚ bag_of (ls !! i) ++ bag (delete i ls).
Proof.
  destruct (ls !! i) as [l|] eqn:Hi; cbn [bag_of app].
  - rewrite <-(insert_id ls i l Hi) at 1. rewrite <-insert_delete_eq. apply bag_insert_new, lookup_delete_eq.
  - by rewrite delete_id.
Qed.

Lemma bag_insert ls i l : bag (<[i := l]> ls) ≡ₚ f l ++ bag (delete i ls).
Proof. rewrite <-insert_delete_eq. apply bag_insert_new, lookup_delete_eq. Qed.

(** Bags with the same lanes but for those that hold nothing. *)
Lemma bag_ext ls ls' : (∀ i, bag_of (ls !! i) = bag_of (ls' !! i)) → bag ls ≡ₚ bag ls'.
Proof.
  revert ls'. induction ls as [|i l ls Hi IH] using map_ind; intros ls' Hext.
  - assert (bag ls' = []) as ->; [|done]. unfold bag.
    assert (∀ x, x ∈ map_to_list ls' → f x.2 = []) as Hnil.
    { intros [j y] Hj%elem_of_map_to_list. specialize (Hext j). rewrite lookup_empty, Hj in Hext. done. }
    induction (map_to_list ls') as [|x xs IHx]; [done|]. cbn.
    rewrite Hnil by left. apply IHx. intros y Hy. apply Hnil. by right.
  - rewrite (bag_insert_new ls i l Hi), (bag_delete ls' i).
    rewrite <-Hext, lookup_insert_eq. cbn [bag_of]. f_equiv. apply IH. intros j.
    destruct (decide (j = i)) as [->|Hj]; [by rewrite Hi, lookup_delete_eq|].
    specialize (Hext j). rewrite lookup_insert_ne in Hext by done. by rewrite lookup_delete_ne.
Qed.

Lemma bag_update ls i l l' r :
  ls !! i = Some l → f l ≡ₚ r ++ f l' → bag ls ≡ₚ r ++ bag (<[i := l']> ls).
Proof. intros Hi Hl. rewrite (bag_delete ls i), Hi, bag_insert. cbn [bag_of]. rewrite Hl. solve_perm. Qed.
End bag.

Lemma count_frames_bag ls : count_frames ls = length (bag frames ls).
Proof.
  unfold count_frames, bag. induction (map_to_list ls) as [|x xs IH]; [done|]. cbn.
  by rewrite length_app, <-IH.
Qed.

Lemma count_frames_update ls i l fs :
  ls !! i = Some l →
  count_frames (<[i := set_frames l fs]> ls) + length (frames l) = count_frames ls + length fs.
Proof.
  intros Hi. rewrite !count_frames_bag, (bag_insert frames), (bag_delete frames ls i), Hi.
  cbn. rewrite !length_app. lia.
Qed.

Lemma count_frames_ext ls ls' :
  (∀ i, bag_of frames (ls !! i) = bag_of frames (ls' !! i)) → count_frames ls = count_frames ls'.
Proof. intros Hext. rewrite !count_frames_bag. by rewrite (bag_ext frames ls ls' Hext). Qed.

(** ** Fires in waves *)

Definition of_wave (w : nat) (fs : list PlacedFire) : list PlacedFire := filter (λ f, wave f = w) fs.
Definition wave_ids (k : nat) (fs : list PlacedFire) : list (list N) := (λ w, fire_id <$> of_wave w fs) <$> List.seq 0 k.
Definition wave_sum (k : nat) (g : PlacedFire → N) (fs : list PlacedFire) : list N :=
  (λ w, total g (of_wave w fs)) <$> List.seq 0 k.

Lemma of_wave_app w fs fs' : of_wave w (fs ++ fs') = of_wave w fs ++ of_wave w fs'.
Proof. apply filter_app. Qed.

(** A list by index, one index of it changed. *)
Lemma alter_fmap_seq {B} (h h' : nat → B) (a : B → B) k w :
  h' w = a (h w) → (∀ v, v ≠ w → h' v = h v) → alter a w (h <$> List.seq 0 k) = h' <$> List.seq 0 k.
Proof.
  intros Hw Hne. apply list_eq. intros i. destruct (decide (i = w)) as [->|Hi].
  - rewrite list_lookup_alter_eq, !list_lookup_fmap. destruct (List.seq 0 k !! w) eqn:Hs; [|done].
    apply lookup_seq in Hs as [-> _]. cbn. by rewrite Hw.
  - rewrite list_lookup_alter_ne, !list_lookup_fmap by done. destruct (List.seq 0 k !! i) eqn:Hs; [|done].
    apply lookup_seq in Hs as [-> _]. cbn. by rewrite Hne.
Qed.

Lemma raise_wave_sum k g fs f : raise (wave_sum k g fs) (wave f) (g f) = wave_sum k g (fs ++ [f]).
Proof.
  apply alter_fmap_seq.
  - rewrite of_wave_app, total_app. unfold of_wave at 2. rewrite filter_cons_True by done. cbn. lia.
  - intros v Hv. rewrite of_wave_app, total_app. unfold of_wave at 2. rewrite filter_cons_False by done. cbn. lia.
Qed.

Lemma push_wave_ids k fs f :
  alter (λ w, w ++ [fire_id f]) (wave f) (wave_ids k fs) = wave_ids k (fs ++ [f]).
Proof.
  apply alter_fmap_seq.
  - rewrite of_wave_app, fmap_app. unfold of_wave at 2. by rewrite filter_cons_True.
  - intros v Hv. rewrite of_wave_app, fmap_app. unfold of_wave at 2. rewrite filter_cons_False by done.
    cbn. by rewrite app_nil_r.
Qed.

Lemma amount_wave_sum k g fs w : w < k → amount (wave_sum k g fs) w = total g (of_wave w fs).
Proof. intros Hw. unfold amount, wave_sum. rewrite list_lookup_fmap, lookup_seq_lt by done. done. Qed.

Lemma foldl_raise k g fs live :
  foldl (λ r f, raise r (wave f) (g f)) (wave_sum k g fs) live = wave_sum k g (fs ++ live).
Proof.
  revert fs. induction live as [|f live IH]; intros fs; cbn; [by rewrite app_nil_r|].
  rewrite raise_wave_sum, IH. by rewrite <-app_assoc.
Qed.

Lemma wave_sum_nil k g : wave_sum k g [] = replicate k 0%N.
Proof.
  unfold wave_sum. cbn. generalize 0. induction k as [|k IH]; intros i; [done|]. cbn. by rewrite IH.
Qed.
Lemma wave_ids_nil k : wave_ids k [] = replicate k [].
Proof.
  unfold wave_ids. cbn. generalize 0. induction k as [|k IH]; intros i; [done|]. cbn. by rewrite IH.
Qed.

Lemma concat_alter_push {A} (x : A) i (ll : list (list A)) :
  i < length ll → concat (alter (λ w, w ++ [x]) i ll) ≡ₚ x :: concat ll.
Proof.
  revert i. induction ll as [|l ll IH]; intros [|i] Hi; cbn in Hi |- *; [lia|lia|solve_perm|].
  change (alter _ (S i) (l :: ll)) with (l :: alter (λ w, w ++ [x]) i ll). cbn.
  rewrite IH by lia. solve_perm.
Qed.

(** Every fire with a wave is in one of them, once. *)
Lemma concat_wave_ids k fs : Forall (λ f, wave f < k) fs → concat (wave_ids k fs) ≡ₚ fire_id <$> fs.
Proof.
  induction fs as [|f fs IH] using rev_ind; intros Hfs.
  - rewrite wave_ids_nil. clear. induction k; done.
  - apply Forall_app in Hfs as [Hfs [Hf _]%Forall_cons]. specialize (IH Hfs).
    rewrite <-push_wave_ids, concat_alter_push, IH, fmap_app; [cbn; solve_perm|].
    unfold wave_ids. rewrite length_fmap, length_seq. done.
Qed.

(** ** Lanes, point by point *)

(** Frames without a fire are gone from the front of a lane. *)
Definition wasted (l l' : LaneState) : Prop :=
  l' = set_frames l (frames l') ∧ ∃ es, frames l = es ++ frames l' ∧ Forall (λ f, live f = []) es.
(** Its front frame is gone, whose fires are these. *)
Definition popped (k : nat) (lv : list PlacedFire) (l l' : LaneState) : Prop :=
  l' = set_frames l (frames l') ∧ lv ≠ [] ∧
  ∃ f, frames l = f :: frames l' ∧ live_fires k (fires f) = Some lv.

Definition lanewise (R : LaneId → LaneState → LaneState → Prop) (ls ls' : gmap LaneId LaneState) : Prop :=
  ∀ id, option_Forall2 (R id) (ls !! id) (ls' !! id).

Lemma set_frames_id l : set_frames l (frames l) = l.
Proof. by destruct l. Qed.

#[export] Instance wasted_preorder : PreOrder wasted.
Proof.
  split.
  - intros l. split; [by rewrite set_frames_id|]. by exists [].
  - intros l1 l2 l3 (H2 & es & He & Hes) (H3 & es' & He' & Hes'). split.
    + rewrite H3, H2. by destruct l1.
    + exists (es ++ es'). by rewrite He, He', <-app_assoc, Forall_app.
Qed.

Lemma wasted_live l l' : wasted l l' → lane_live l = lane_live l'.
Proof.
  intros (_ & es & He & Hes). unfold lane_live. rewrite He, bind_app. clear He.
  induction Hes as [|f es Hf _ IH]; [done|]. cbn. rewrite Hf. done.
Qed.

Lemma count_frames_mono ls ls' :
  (∀ i, length (bag_of frames (ls' !! i)) ≤ length (bag_of frames (ls !! i))) → count_frames ls' ≤ count_frames ls.
Proof.
  rewrite !count_frames_bag. revert ls. induction ls' as [|i l ls' Hi IH] using map_ind; intros ls Hle;
    [unfold bag at 1; rewrite map_to_list_empty; cbn; lia|].
  rewrite (bag_insert_new frames ls' i l Hi), (bag_delete frames ls i), !length_app.
  pose proof (Hle i) as Hl. rewrite lookup_insert_eq in Hl. cbn in Hl.
  enough (length (bag frames ls') ≤ length (bag frames (delete i ls))) by lia.
  apply IH. intros j. destruct (decide (j = i)) as [->|Hj]; [by rewrite Hi, lookup_delete_eq|].
  specialize (Hle j). rewrite lookup_insert_ne in Hle by done. by rewrite lookup_delete_ne.
Qed.

Lemma count_frames_lt ls ls' j :
  (∀ i, length (bag_of frames (ls' !! i)) ≤ length (bag_of frames (ls !! i))) →
  length (bag_of frames (ls' !! j)) < length (bag_of frames (ls !! j)) → count_frames ls' < count_frames ls.
Proof.
  intros Hle Hlt. rewrite !count_frames_bag, (bag_delete frames ls j), (bag_delete frames ls' j), !length_app.
  enough (count_frames (delete j ls') ≤ count_frames (delete j ls)) as Hd by (rewrite !count_frames_bag in Hd; lia).
  apply count_frames_mono. intros i. destruct (decide (i = j)) as [->|Hi]; [by rewrite !lookup_delete_eq|].
  by rewrite !lookup_delete_ne.
Qed.

Lemma wasted_length l l' : wasted l l' → length (frames l') ≤ length (frames l).
Proof. intros (_ & es & -> & _). rewrite length_app. lia. Qed.

Lemma lanewise_bag {B} (f : LaneState → list B) R ls ls' :
  (∀ id l l', R id l l' → f l = f l') → lanewise R ls ls' → bag f ls ≡ₚ bag f ls'.
Proof. intros HR Hls. apply bag_ext. intros i. destruct (Hls i); cbn; eauto. Qed.

Lemma lanewise_count R ls ls' :
  (∀ id l l', R id l l' → length (frames l') ≤ length (frames l)) → lanewise R ls ls' →
  count_frames ls' ≤ count_frames ls.
Proof. intros HR Hls. apply count_frames_mono. intros i. destruct (Hls i); cbn; eauto. Qed.

Lemma lanewise_refl R ls : (∀ id l, R id l l) → lanewise R ls ls.
Proof. intros HR id. destruct (ls !! id); constructor. apply HR. Qed.

Lemma lanewise_trans R R' Q ls1 ls2 ls3 :
  (∀ id l1 l2 l3, R id l1 l2 → R' id l2 l3 → Q id l1 l3) →
  lanewise R ls1 ls2 → lanewise R' ls2 ls3 → lanewise Q ls1 ls3.
Proof.
  intros HQ H1 H2 id. specialize (H1 id). specialize (H2 id).
  destruct H1 as [l1 l2 H1|]; inversion H2; constructor; eauto.
Qed.

Lemma lanewise_impl R Q ls ls' :
  (∀ id l l', ls !! id = Some l → ls' !! id = Some l' → R id l l' → Q id l l') → lanewise R ls ls' → lanewise Q ls ls'.
Proof.
  intros HQ HR id. specialize (HR id). destruct (ls !! id) as [l|] eqn:Hl, (ls' !! id) as [l'|] eqn:Hl';
    inversion HR; constructor; eauto.
Qed.

(** ** A unit measured *)

Lemma live_fires_inv k fs lv :
  live_fires k fs = Some lv → fire_id <$> lv = omap a_fire_id fs ∧ Forall (λ f, wave f < k) lv.
Proof.
  unfold live_fires. case_decide as Hk; [done|]. intros [= <-]. split.
  - clear Hk. induction fs as [|f fs IH]; [done|]. cbn. destruct (a_fire_id f); cbn; by rewrite IH.
  - apply Forall_forall. intros x Hx. pose proof Hx as (f & _ & Hf)%list_elem_of_omap.
    destruct (a_fire_id f); [|done]. injection Hf as <-. cbn.
    destruct (decide (k = 0)) as [->|]; [|lia]. destruct Hk. split; [done|].
    intros ?%length_zero_iff_nil. by rewrite H in Hx; apply not_elem_of_nil in Hx.
Qed.

Lemma live_fires_total k fs : k ≠ 0 → is_Some (live_fires k fs).
Proof. intros Hk. unfold live_fires. rewrite decide_False by tauto. by eexists. Qed.

(** There is room for each of the fires on top of those. *)
Definition room (p : FramePolicy) (before lv : list PlacedFire) : Prop :=
  Forall (λ f, (total rows (of_wave (wave f) before) + rows f ≤ max_wave_rows p)%N ∧
               (total tokens (of_wave (wave f) before) + tokens f ≤ max_wave_tokens p)%N) lv.
Definition fires_of (bs : list (LaneId * list PlacedFire)) : list PlacedFire := bs ≫= snd.
Inductive fitted (p : FramePolicy) : list (LaneId * list PlacedFire) → Prop :=
  | fitted_nil : fitted p []
  | fitted_snoc bs u : fitted p bs → room p (fires_of bs) u.2 → fitted p (bs ++ [u]).

Lemma fires_of_snoc bs u : fires_of (bs ++ [u]) = fires_of bs ++ u.2.
Proof. unfold fires_of. rewrite bind_app. cbn. by rewrite app_nil_r. Qed.

(** The front frame of a lane has these fires. *)
Definition front_live (k : nat) (ls : gmap LaneId LaneState) (u : LaneId * list PlacedFire) : Prop :=
  ∃ l, ls !! u.1 = Some l ∧ popped k u.2 l (set_frames l (tail (frames l))).

(** What is measured of a unit, [done] of it: frames without a fire are gone, and as long as
    nothing is short each lane of it has its fires, which fit with what is placed. *)
Record measured (p : FramePolicy) (placed : list (LaneId * list PlacedFire)) (ls : gmap LaneId LaneState)
    (done : list LaneId) (m : Measure) : Prop := {
  ms_wasted : lanewise (λ _, wasted) ls (me_lanes m);
  ms_rest : ∀ id, id ∉ done → me_lanes m !! id = ls !! id;
  ms_whole : me_short m = false →
    me_lanes m = ls ∧ (me_fires m).*1 = done ∧ Forall (front_live (k p) ls) (me_fires m) ∧
    fitted p (placed ++ me_fires m) ∧ me_rows m = wave_sum (k p) rows (fires_of (me_fires m)) ∧
    me_tokens m = wave_sum (k p) tokens (fires_of (me_fires m));
}.

Lemma measured_begin p placed ls dropped :
  fitted p placed →
  measured p placed ls [] (mkMeasure ls [] (replicate (k p) 0%N) (replicate (k p) 0%N) false dropped).
Proof.
  intros Hfit. split; cbn; [by apply lanewise_refl|done|]. intros _.
  rewrite app_nil_r. cbn. rewrite !wave_sum_nil. by repeat split.
Qed.

Lemma measured_short p placed ls done lane m :
  measured p placed ls done m → measured p placed ls (done ++ [lane]) (cut_short m).
Proof. intros [Hw Hr _]. split; [done| |done]. intros id Hid. apply Hr. set_solver. Qed.

Lemma fits_room p pk m placed lv :
  pk_rows pk = wave_sum (k p) rows (fires_of placed) → pk_tokens pk = wave_sum (k p) tokens (fires_of placed) →
  me_rows m = wave_sum (k p) rows (fires_of (me_fires m)) →
  me_tokens m = wave_sum (k p) tokens (fires_of (me_fires m)) →
  Forall (λ f, wave f < k p) lv → fits p pk m lv = true → room p (fires_of (placed ++ me_fires m)) lv.
Proof.
  intros Hr Ht Hmr Hmt Hlv Hfits. unfold fits in Hfits. rewrite forallb_forall in Hfits.
  rewrite Forall_forall in Hlv. apply Forall_forall. intros f Hf. specialize (Hlv f Hf).
  apply list_elem_of_In, Hfits, andb_true_iff in Hf as [H1%bool_decide_eq_true H2%bool_decide_eq_true].
  rewrite Hr, Hmr, !amount_wave_sum in H1 by done. rewrite Ht, Hmt, !amount_wave_sum in H2 by done.
  unfold fires_of. rewrite bind_app, of_wave_app, !total_app. done.
Qed.

Definition packing_of (k : nat) (placed : list (LaneId * list PlacedFire)) (pk : Packing) : Prop :=
  pk_waves pk = wave_ids k (fires_of placed) ∧ pk_rows pk = wave_sum k rows (fires_of placed) ∧
  pk_tokens pk = wave_sum k tokens (fires_of placed) ∧
  dom (pk_fire_waves pk) = (list_to_set (fire_id <$> fires_of placed) : gset N) ∧
  pk_members pk = list_to_set placed.*1.

Lemma measure_lane_spec p pk placed ls done lane m m' :
  packing_of (k p) placed pk → lane ∉ done → measured p placed ls done m →
  measure_lane p pk m lane = Some m' → measured p placed ls (done ++ [lane]) m'.
Proof.
  intros (_ & Hr & Ht & _) Hlane Hm. pose proof (measured_short p placed ls done lane m Hm) as Hshort.
  pose proof Hm as [Hw Hrest Hwhole]. unfold measure_lane.
  destruct (me_lanes m !! lane) as [l|] eqn:Hl; [|by intros [= <-]].
  destruct (frames l) as [|front rest] eqn:Hfs; [by intros [= <-]|].
  destruct (live_fires (k p) (fires front)) as [lv|] eqn:Hlv; [|done]. cbn. intros [= <-].
  pose proof (live_fires_inv _ _ _ Hlv) as [Hids Hwaves].
  case_decide as Hnil; [|destruct (fits p pk m lv) eqn:Hfits; [|done]].
  - apply length_zero_iff_nil in Hnil as ->. split; cbn; [| |done].
    + intros id. destruct (decide (id = lane)) as [->|Hid].
      * specialize (Hw lane). rewrite Hl in Hw. rewrite lookup_insert_eq. inversion Hw as [l0 ? Hl0 He|]; subst.
        constructor. trans l; [done|]. split; [done|]. exists [front]. split; [done|].
        repeat constructor. unfold live. by rewrite <-Hids.
      * rewrite lookup_insert_ne by done. apply Hw.
    + intros id Hid. rewrite lookup_insert_ne by set_solver. apply Hrest. set_solver.
  - split; cbn; [done|intros; apply Hrest; set_solver|]. intros Hs.
    destruct (Hwhole Hs) as (Hls & Hdone & Hfl & Hfit & Hmr & Hmt).
    split; [done|]. split; [by rewrite fmap_app, Hdone|]. split; [|split].
    + apply Forall_app. split; [done|]. repeat constructor. exists l. cbn. rewrite <-Hls. split; [done|].
      split; [by destruct l|]. split; [by intros ->|]. exists front. by rewrite Hfs.
    + rewrite app_assoc. constructor; [done|]. by eapply fits_room.
    + rewrite Hmr, Hmt, !foldl_raise, fires_of_snoc. done.
Qed.

Lemma measure_unit_spec p pk placed ls unit done m m' :
  packing_of (k p) placed pk → NoDup (done ++ unit) → measured p placed ls done m →
  measure_unit p pk m unit = Some m' → measured p placed ls (done ++ unit) m'.
Proof.
  intros Hpk. revert done m. induction unit as [|lane unit IH]; intros done m Hnd Hm; cbn.
  - rewrite app_nil_r. by intros [= <-].
  - destruct (measure_lane p pk m lane) as [m1|] eqn:Hm1; [|done]. cbn. intros Hu.
    rewrite cons_middle, app_assoc in Hnd |- *. eapply IH; [done| |exact Hu].
    eapply measure_lane_spec; [done| |done..]. apply NoDup_app in Hnd as (Hnd & _).
    apply NoDup_app in Hnd as (_ & Hnd & _). intros Hin. by apply (Hnd lane Hin); left.
Qed.

Lemma measure_unit_total p pk m unit : k p ≠ 0 → is_Some (measure_unit p pk m unit).
Proof.
  intros Hk. revert m. induction unit as [|lane unit IH]; intros m; cbn; [by eexists|].
  assert (is_Some (measure_lane p pk m lane)) as [m1 ->]; [|apply IH].
  unfold measure_lane. destruct (me_lanes m !! lane) as [l|]; [|by eexists].
  destruct (frames l) as [|front rest]; [by eexists|].
  destruct (live_fires_total (k p) (fires front) Hk) as [lv ->]. by eexists.
Qed.

(** ** A unit placed *)

Lemma place_fire_of k placed pk fs f :
  pk_waves pk = wave_ids k fs ∧ pk_rows pk = wave_sum k rows fs ∧ pk_tokens pk = wave_sum k tokens fs ∧
    dom (pk_fire_waves pk) = (list_to_set (fire_id <$> fs) : gset N) ∧ pk_members pk = placed →
  pk_waves (place_fire pk f) = wave_ids k (fs ++ [f]) ∧ pk_rows (place_fire pk f) = wave_sum k rows (fs ++ [f]) ∧
    pk_tokens (place_fire pk f) = wave_sum k tokens (fs ++ [f]) ∧
    dom (pk_fire_waves (place_fire pk f)) = (list_to_set (fire_id <$> (fs ++ [f])) : gset N) ∧
    pk_members (place_fire pk f) = placed.
Proof.
  intros (Hw & Hr & Ht & Hd & Hm). unfold place_fire. cbn. rewrite Hw, Hr, Ht, push_wave_ids, !raise_wave_sum.
  repeat split; [|done]. rewrite dom_insert_L, Hd, fmap_app, list_to_set_app_L. cbn. set_solver.
Qed.

Lemma place_lane_of k placed pk u :
  packing_of k placed pk →
  let pk' := foldl place_fire pk u.2 in
  packing_of k (placed ++ [u]) (mkPacking (pk_waves pk') (pk_fire_waves pk') (pk_rows pk') (pk_tokens pk')
    ({[u.1]} ∪ pk_members pk')).
Proof.
  intros Hpk. assert (∀ fs pk, 
    pk_waves pk = wave_ids k fs ∧ pk_rows pk = wave_sum k rows fs ∧ pk_tokens pk = wave_sum k tokens fs ∧
    dom (pk_fire_waves pk) = (list_to_set (fire_id <$> fs) : gset N) ∧ pk_members pk = list_to_set placed.*1 →
    let pk' := foldl place_fire pk u.2 in
    pk_waves pk' = wave_ids k (fs ++ u.2) ∧ pk_rows pk' = wave_sum k rows (fs ++ u.2) ∧
    pk_tokens pk' = wave_sum k tokens (fs ++ u.2) ∧
    dom (pk_fire_waves pk') = (list_to_set (fire_id <$> (fs ++ u.2)) : gset N) ∧
    pk_members pk' = list_to_set placed.*1) as Hall.
  { induction u.2 as [|f lv IH]; intros fs pk0 H0; cbn; [by rewrite app_nil_r|].
    rewrite cons_middle, app_assoc. apply IH. by apply place_fire_of. }
  specialize (Hall _ pk Hpk). unfold packing_of. rewrite fires_of_snoc. cbn in Hall |- *.
  destruct Hall as (-> & -> & -> & -> & ->). repeat split. rewrite fmap_app, list_to_set_app_L. cbn. set_solver.
Qed.

(** What became of a lane: its front frame was placed, or it is related in another way. *)
Definition placed_or (k : nat) (R : LaneState → LaneState → Prop) (us : list (LaneId * list PlacedFire))
    (id : LaneId) (l l' : LaneState) : Prop :=
  (∀ lv, (id, lv) ∈ us → popped k lv l l') ∧ (id ∉ us.*1 → R l l').

Lemma elem_of_fst {A B} (x : A) (y : B) (l : list (A * B)) : (x, y) ∈ l → x ∈ l.*1.
Proof. intros Hx. by apply (list_elem_of_fmap_2 fst) in Hx. Qed.

Lemma place_unit_spec k us placed ls pk :
  NoDup us.*1 → Forall (front_live k ls) us → packing_of k placed pk →
  ∃ ls' pk', place_unit (ls, pk) us = Some (ls', pk') ∧ packing_of k (placed ++ us) pk' ∧
    lanewise (placed_or k eq us) ls ls'.
Proof.
  revert placed ls pk. induction us as [|u us IH]; intros placed ls pk Hnd Hfl Hpk.
  { exists ls, pk. rewrite app_nil_r. split; [done|]. split; [done|].
    apply lanewise_refl. intros id l. split; [by intros ? ?%not_elem_of_nil|done]. }
  rewrite fmap_cons in Hnd. apply NoDup_cons in Hnd as [Hu Hnd].
  apply Forall_cons in Hfl as [(l & Hl & Hpop) Hfl]. set (l1 := set_frames l (tail (frames l))) in *.
  assert (Forall (front_live k (<[u.1 := l1]> ls)) us) as Hfl'.
  { rewrite Forall_forall in Hfl |- *. intros u' Hu'. destruct (Hfl u' Hu') as (l' & Hl' & Hpop').
    exists l'. rewrite lookup_insert_ne; [done|]. intros Heq. apply Hu. rewrite Heq. by apply list_elem_of_fmap_2. }
  destruct (IH _ _ _ Hnd Hfl' (place_lane_of k placed pk u Hpk)) as (ls' & pk' & Hplace & Hpk' & Hls').
  exists ls', pk'. split; [|split].
  - cbn. unfold place_lane. cbn. rewrite Hl. cbn. exact Hplace.
  - by rewrite cons_middle, app_assoc.
  - intros id. specialize (Hls' id). destruct (decide (id = u.1)) as [->|Hid].
    + rewrite lookup_insert_eq in Hls'. rewrite Hl. inversion Hls' as [? l' [_ H1]|]; subst. constructor.
      rewrite <-(H1 Hu). split; [|intros []; rewrite fmap_cons; by left].
      intros lv [Heq|Hin%elem_of_fst]%elem_of_cons; [|by destruct Hu]. by assert (lv = u.2) as -> by by rewrite <-Heq.
    + rewrite lookup_insert_ne in Hls' by done. destruct Hls' as [? ? [H1 H2]|]; constructor. split.
      * intros lv [Heq|Hin]%elem_of_cons; [by destruct Hid; rewrite <-Heq|]. by apply H1.
      * intros Hin. apply H2. rewrite fmap_cons in Hin. by intros ?; apply Hin; right.
Qed.

(** ** The units packed *)

(** What [pack_units] has when it is through with these units, from those lanes. *)
Record packs (p : FramePolicy) (ls0 : gmap LaneId LaneState) (us : list (list LaneId))
    (placed : list (LaneId * list PlacedFire)) (ls : gmap LaneId LaneState) (pk : Packing) : Prop := {
  pa_nodup : NoDup placed.*1;
  pa_fitted : fitted p placed;
  pa_packing : packing_of (k p) placed pk;
  pa_lanes : lanewise (placed_or (k p) wasted placed) ls0 ls;
  pa_rest : ∀ id, id ∉ concat us → (id ∉ placed.*1) ∧ ls !! id = ls0 !! id;
  pa_units : Forall (λ u, Forall (.∈ placed.*1) u ∨ Forall (.∉ placed.*1) u) us;
}.

Lemma packs_begin p ls : packs p ls [] [] ls (empty_packing (k p)).
Proof.
  split; [constructor|constructor| | |set_solver|constructor].
  - unfold packing_of, empty_packing. cbn. by rewrite wave_ids_nil, !wave_sum_nil.
  - apply lanewise_refl. intros id l. split; [by intros ? ?%not_elem_of_nil|done].
Qed.

Lemma packs_short p ls0 us placed ls pk unit m :
  packs p ls0 us placed ls pk → NoDup (concat us ++ unit) → measured p placed ls unit m →
  packs p ls0 (us ++ [unit]) placed (me_lanes m) pk.
Proof.
  intros [Hnd Hfit Hpk Hls Hrest Hus] Hdisj [Hw Hr _]. apply NoDup_app in Hdisj as (_ & Hdisj & _).
  split; [done..| | |].
  - intros id. specialize (Hls id). specialize (Hw id). destruct (decide (id ∈ concat us)) as [Hin|Hin].
    + by rewrite (Hr id (Hdisj id Hin)).
    + destruct (Hrest id Hin) as [Hid Heq]. rewrite <-Heq. destruct Hw; constructor.
      split; [by intros lv Hlv%elem_of_fst|done].
  - intros id. rewrite concat_app, elem_of_app. cbn. rewrite app_nil_r. intros Hid.
    rewrite Hr by tauto. apply Hrest. tauto.
  - apply Forall_app. split; [done|]. apply Forall_singleton. right. apply Forall_forall.
    intros id Hid. apply Hrest. intros Hin. by apply (Hdisj id).
Qed.

Lemma packs_whole p ls0 us placed ls pk unit m :
  packs p ls0 us placed ls pk → NoDup (concat us ++ unit) → measured p placed ls unit m → me_short m = false →
  ∃ ls' pk', place_unit (me_lanes m, pk) (me_fires m) = Some (ls', pk') ∧
    packs p ls0 (us ++ [unit]) (placed ++ me_fires m) ls' pk'.
Proof.
  intros [Hnd Hfit Hpk Hls Hrest Hus] Hdisj [_ _ Hwhole] Hs.
  destruct (Hwhole Hs) as (-> & Hdone & Hfl & Hfit' & _). apply NoDup_app in Hdisj as (_ & Hdisj & Hunit).
  destruct (place_unit_spec (k p) (me_fires m) placed ls pk) as (ls' & pk' & Hp & Hpk' & Hls'); [by rewrite Hdone|done..|].
  exists ls', pk'. split; [done|].
  assert (∀ id, id ∈ placed.*1 → id ∈ concat us) as Hin.
  { intros id Hid. destruct (decide (id ∈ concat us)) as [|Hno]; [done|]. by apply Hrest in Hno as [? _]. }
  split; [|done|done| | |].
  - rewrite fmap_app, Hdone. apply NoDup_app. split; [done|]. split; [|done]. intros id Hid. by apply Hdisj, Hin.
  - intros id. specialize (Hls id). specialize (Hls' id). destruct (decide (id ∈ unit)) as [Hu|Hu].
    + assert (id ∉ concat us) as Hno by (intros ?; by apply (Hdisj id)).
      destruct (Hrest id Hno) as [Hid Heq]. rewrite <-Heq. destruct Hls' as [? ? [H1 H2]|]; constructor. split.
      * intros lv [Hlv%elem_of_fst|Hlv]%elem_of_app; [done|by apply H1].
      * rewrite fmap_app, Hdone. set_solver.
    + rewrite <-Hdone in Hu. destruct Hls as [l0 l [H1 H2]|].
      * inversion Hls' as [? l' [_ H3]|]; subst. rewrite <-(H3 Hu). constructor. split.
        -- intros lv [Hlv|Hlv%elem_of_fst]%elem_of_app; [by apply H1|done].
        -- rewrite fmap_app. intros ?. apply H2. set_solver.
      * inversion Hls'. constructor.
  - intros id. rewrite concat_app, elem_of_app, fmap_app, Hdone. cbn. rewrite app_nil_r. intros Hid.
    destruct (Hrest id) as [Hid' Heq]; [tauto|]. split; [set_solver|]. rewrite <-Heq. specialize (Hls' id).
    assert (id ∉ (me_fires m).*1) as Hf by (rewrite Hdone; tauto).
    destruct (ls !! id); inversion Hls' as [? ? [_ H2]|]; subst; [|done]. by rewrite (H2 Hf).
  - rewrite fmap_app, Hdone. apply Forall_app. split.
    + rewrite Forall_forall in Hus |- *. intros u Hu. destruct (Hus u Hu) as [Hall|Hall]; [left|right].
      * eapply Forall_impl; [exact Hall|]. intros id. cbn. set_solver.
      * rewrite Forall_forall in Hall |- *. intros id Hid. specialize (Hall id Hid). cbn in Hall |- *.
        rewrite elem_of_app. intros [?|Hno]; [done|]. eapply (Hdisj id); [|done]. apply elem_of_concat. eauto.
    + apply Forall_singleton. left. apply Forall_forall. intros id Hid. cbn. set_solver.
Qed.

Lemma measure_lane_count p pk m lane m' :
  measure_lane p pk m lane = Some m' →
  count_frames (me_lanes m') ≤ count_frames (me_lanes m) ∧
  (me_dropped m' = true → me_dropped m = true ∨ count_frames (me_lanes m') < count_frames (me_lanes m)).
Proof.
  unfold measure_lane. destruct (me_lanes m !! lane) as [l|] eqn:Hl; [|intros [= <-]; cbn; auto].
  destruct (frames l) as [|front rest] eqn:Hfs; [intros [= <-]; cbn; auto|].
  destruct (live_fires (k p) (fires front)) as [lv|]; [|done]. cbn. intros [= <-].
  pose proof (count_frames_update _ _ _ rest Hl) as Hc. rewrite Hfs in Hc. cbn in Hc.
  case_decide; cbn; [split; [lia|right; lia]|]. destruct (fits p pk m lv); cbn; auto.
Qed.

Lemma measure_unit_count p pk m unit m' :
  measure_unit p pk m unit = Some m' →
  count_frames (me_lanes m') ≤ count_frames (me_lanes m) ∧
  (me_dropped m' = true → me_dropped m = true ∨ count_frames (me_lanes m') < count_frames (me_lanes m)).
Proof.
  revert m. induction unit as [|lane unit IH]; intros m; cbn; [intros [= <-]; auto|].
  destruct (measure_lane p pk m lane) as [m1|] eqn:Hm1; [|done]. cbn. intros Hu.
  apply measure_lane_count in Hm1 as [Hc1 Hd1]. apply IH in Hu as [Hc Hd]. split; [lia|].
  intros Hm. destruct (Hd Hm) as [H1|]; [|right; lia]. destruct (Hd1 H1); [by left|right; lia].
Qed.

Lemma popped_length k lv l l' : popped k lv l l' → length (frames l') < length (frames l).
Proof. intros (_ & _ & f & -> & _). cbn. lia. Qed.

Lemma place_unit_count st us st' : place_unit st us = Some st' → count_frames st'.1 ≤ count_frames st.1.
Proof.
  revert st. induction us as [|u us IH]; intros st; cbn; [by intros [= ->]|].
  destruct (place_lane st u) as [st1|] eqn:H1; [|done]. cbn. intros Hus%IH.
  unfold place_lane in H1. destruct (st.1 !! u.1) as [l|] eqn:Hl; [|done]. injection H1 as <-. cbn in Hus.
  pose proof (count_frames_update _ _ _ (tail (frames l)) Hl) as Hc.
  assert (length (tail (frames l)) ≤ length (frames l)) by (destruct (frames l); cbn; lia). lia.
Qed.

Lemma pack_units_spec p ls0 us units placed ls pk d :
  k p ≠ 0 → NoDup (concat (us ++ units)) → packs p ls0 us placed ls pk →
  ∃ ls' pk' d' placed', pack_units p ls pk d units = Some (ls', pk', d') ∧
    packs p ls0 (us ++ units) placed' ls' pk' ∧ count_frames ls' ≤ count_frames ls ∧
    (d' = true → d = true ∨ count_frames ls' < count_frames ls).
Proof.
  intros Hk. revert us placed ls pk d. induction units as [|unit units IH]; intros us placed ls pk d Hnd Hpa.
  { exists ls, pk, d, placed. rewrite app_nil_r. cbn. auto. }
  rewrite cons_middle, app_assoc in Hnd. assert (NoDup (concat us ++ unit)) as Hdisj.
  { rewrite concat_app in Hnd. apply NoDup_app in Hnd as (Hnd & _). rewrite concat_app in Hnd. cbn in Hnd.
    by rewrite app_nil_r in Hnd. }
  cbn. destruct (measure_unit_total p pk (mkMeasure ls [] (replicate (k p) 0%N) (replicate (k p) 0%N) false d) unit Hk) as [m Hm].
  rewrite Hm. cbn. pose proof (measure_unit_count _ _ _ _ _ Hm) as [Hc Hd]. cbn in Hc, Hd.
  assert (measured p placed ls unit m) as Hms.
  { apply (measure_unit_spec p pk placed ls unit [] _ m) in Hm; [done|apply Hpa| |apply measured_begin, Hpa].
    by apply NoDup_app in Hdisj as (_ & _ & ?). }
  destruct (me_short m) eqn:Hs.
  - destruct (IH (us ++ [unit]) placed (me_lanes m) pk (me_dropped m) Hnd) as (ls' & pk' & d' & placed' & Heq & Hpa' & Hc' & Hd').
    { apply (packs_short _ _ _ _ ls); done. }
    exists ls', pk', d', placed'. rewrite cons_middle, app_assoc. split; [done|]. split; [done|]. split; [lia|].
    intros Ht. destruct (Hd' Ht) as [H1|]; [|right; lia]. destruct (Hd H1); [by left|right; lia].
  - destruct (packs_whole _ _ _ _ _ _ _ _ Hpa Hdisj Hms Hs) as (ls1 & pk1 & Hp1 & Hpa1).
    rewrite Hp1. cbn. pose proof (place_unit_count _ _ _ Hp1) as Hc1. cbn in Hc1.
    destruct (IH (us ++ [unit]) _ ls1 pk1 (me_dropped m) Hnd Hpa1) as (ls' & pk' & d' & placed' & Heq & Hpa' & Hc' & Hd').
    exists ls', pk', d', placed'. rewrite cons_middle, app_assoc. split; [done|]. split; [done|]. split; [lia|].
    intros Ht. destruct (Hd' Ht) as [H1|]; [|right; lia]. destruct (Hd H1); [by left|right; lia].
Qed.

(** ** The units formed *)

Definition unit_of (p : FramePolicy) (order unit : list LaneId) : Prop :=
  (∃ lane, unit = [lane] ∧ key_of p lane = None) ∨
  (∃ key, unit = filter (λ id, key_of p id = Some key) order).

(** Of a group, all the lanes in the order are in the set or none is. *)
Definition closed_under_groups (p : FramePolicy) (order : list LaneId) (placed : gset LaneId) : Prop :=
  ∀ id id' key, id ∈ order → id' ∈ order → key_of p id = Some key → key_of p id' = Some key →
    id ∈ placed → id' ∈ placed.

Lemma form_units_spec p order todo placed :
  NoDup order → (∀ id, id ∈ todo → id ∈ order) → closed_under_groups p order placed →
  let us := form_units p order todo placed in
  NoDup (concat us) ∧ (∀ id, id ∈ concat us → (id ∉ placed) ∧ id ∈ order) ∧ Forall (unit_of p order) us.
Proof.
  intros Hnd. revert placed. induction todo as [|lane todo IH]; intros placed Hsub Hcl; cbn.
  { split; [constructor|]. split; [|constructor]. set_solver. }
  assert (lane ∈ order) as Hlane by (apply Hsub; by left).
  assert (∀ id, id ∈ todo → id ∈ order) as Hsub' by (intros; apply Hsub; by right).
  case_decide as Hp; [by apply IH|]. destruct (key_of p lane) as [key|] eqn:Hkey.
  - set (unit := filter (λ id, key_of p id = Some key) order).
    assert (closed_under_groups p order (list_to_set unit ∪ ({[lane]} ∪ placed))) as Hcl'.
    { intros id id' key' Hid Hid' Hk Hk'. rewrite !elem_of_union, elem_of_singleton, !elem_of_list_to_set.
      intros [Hu|[->|Hin]]; [left|left|].
      - apply list_elem_of_filter in Hu as [Hu _]. apply list_elem_of_filter. split; [congruence|done].
      - apply list_elem_of_filter. split; [congruence|done].
      - right; right. by eapply (Hcl id). }
    destruct (IH _ Hsub' Hcl') as (Hnd' & Hin' & Hall). split; [|split].
    + apply NoDup_app. split; [by apply NoDup_filter|]. split; [|done].
      intros id Hid Hc. apply Hin' in Hc as [Hno _]. set_solver.
    + intros id [Hid|Hid]%elem_of_app; [|apply Hin' in Hid; set_solver].
      apply list_elem_of_filter in Hid as [Hk Hid]. split; [|done]. intros Hin. apply Hp. by eapply (Hcl id).
    + constructor; [|done]. right. by exists key.
  - assert (closed_under_groups p order ({[lane]} ∪ placed)) as Hcl'.
    { intros id id' key' Hid Hid' Hk Hk'. rewrite !elem_of_union, elem_of_singleton.
      intros [->|Hin]; [congruence|]. right. by eapply (Hcl id). }
    destruct (IH _ Hsub' Hcl') as (Hnd' & Hin' & Hall). split; [|split].
    + apply (NoDup_app [lane]). split; [apply NoDup_singleton|]. split; [|done].
      intros id ->%list_elem_of_singleton Hc. apply Hin' in Hc as [Hno _]. set_solver.
    + intros id [->|Hid]%elem_of_cons; [done|]. apply Hin' in Hid. set_solver.
    + constructor; [|done]. left. by exists lane.
Qed.

(** ** The lanes that are ready, in order *)

Lemma in_order_perm {A} (m : gmap N A) : in_order m ≡ₚ map_to_list m.
Proof. apply merge_sort_Permutation. Qed.

Lemma insert_ranked_perm rank x l : insert_ranked rank x l ≡ₚ x :: l.
Proof. induction l as [|y l IH]; cbn; [done|]. case_decide; [done|]. rewrite IH. solve_perm. Qed.
Lemma sort_ranked_perm rank l : sort_ranked rank l ≡ₚ l.
Proof. induction l as [|x l IH]; cbn; [done|]. by rewrite insert_ranked_perm, IH. Qed.
Lemma by_schedule_perm sched p l : by_schedule sched p l ≡ₚ l.
Proof. destruct sched; [apply sort_ranked_perm|done]. Qed.
Lemma seal_order_perm fresh continuing : seal_order fresh continuing ≡ₚ fresh ++ continuing.
Proof. destruct fresh as [|x fresh]; cbn; [done|]. solve_perm. Qed.

Definition ready (p : FramePolicy) (l : LaneState) : bool := front_complete l && negb (group_short p l).

Lemma existsb_lanes (g : N * LaneState → bool) (ls : gmap LaneId LaneState) :
  existsb g (map_to_list ls) = true ↔ ∃ i l, ls !! i = Some l ∧ g (i, l) = true.
Proof.
  rewrite existsb_exists. split.
  - intros ([i l] & Hin%list_elem_of_In%elem_of_map_to_list & Hg). eauto.
  - intros (i & l & Hi & Hg). exists (i, l). by rewrite <-list_elem_of_In, elem_of_map_to_list.
Qed.

Lemma existsb_lanes_false (g : N * LaneState → bool) (ls : gmap LaneId LaneState) i l :
  existsb g (map_to_list ls) = false → ls !! i = Some l → g (i, l) = false.
Proof.
  intros Hno Hi. apply not_true_is_false. intros Hg. assert (existsb g (map_to_list ls) = true); [|congruence].
  apply existsb_lanes. eauto.
Qed.

(** The lanes of one group are short together. *)
Lemma group_short_same p l l' : group_key l = group_key l' → group_short p l = group_short p l'.
Proof. unfold group_short. by intros ->. Qed.

Lemma filter_split {A} (P : A → bool) (l : list A) :
  filter (λ x, P x = false) l ++ filter (λ x, P x = true) l ≡ₚ l.
Proof.
  induction l as [|x l IH]; [done|]. destruct (P x) eqn:Hx.
  - rewrite filter_cons_False, filter_cons_True by congruence. rewrite <-IH at 3. solve_perm.
  - rewrite filter_cons_True, filter_cons_False by congruence. cbn. by rewrite IH.
Qed.

Lemma order_of_perm sched p mid :
  order_of sched p mid ≡ₚ (filter (λ l, ready p l.2 = true) (map_to_list (lanes p))).*1.
Proof.
  unfold order_of, ready_lanes. cbn. rewrite seal_order_perm, !by_schedule_perm, <-fmap_app.
  apply fmap_Permutation. rewrite (filter_split (λ l : N * LaneState, mid && fired_this_boundary l.2)).
  by rewrite in_order_perm.
Qed.

Lemma elem_of_order sched p mid id :
  id ∈ order_of sched p mid ↔ ∃ l, lanes p !! id = Some l ∧ ready p l = true.
Proof.
  rewrite order_of_perm, list_elem_of_fmap. split.
  - intros ([i l] & -> & [Hr Hl%elem_of_map_to_list]%list_elem_of_filter). by exists l.
  - intros (l & Hl & Hr). exists (id, l). split; [done|]. apply list_elem_of_filter.
    by rewrite elem_of_map_to_list.
Qed.

Lemma NoDup_order sched p mid : NoDup (order_of sched p mid).
Proof.
  rewrite order_of_perm. eapply sublist_NoDup; [apply (NoDup_fst_map_to_list (lanes p))|].
  apply fmap_sublist, sublist_filter.
Qed.

(** ** The turns of a seal *)

(** What a seal leaves: lanes without the frames that had no fire; and when something was
    sealed, that and the lanes it was packed from. *)
Inductive seal_result (sched : Schedule) (p : FramePolicy) (mid : bool) : option FramePlan * FramePolicy → Prop :=
  | seal_waits ls : lanewise (λ _, wasted) (lanes p) ls → seal_result sched p mid (None, set_lanes p ls)
  | seal_empty ls : lanewise (λ _, wasted) (lanes p) ls → seal_result sched p mid (None, set_lanes p (keep_lanes ls))
  | seal_taken ls1 placed ls pk :
      let p1 := set_lanes p ls1 in
      let order := order_of sched p1 mid in
      lanewise (λ _, wasted) (lanes p) ls1 →
      packs p1 ls1 (form_units p1 order order ∅) placed ls pk → placed ≠ [] →
      seal_result sched p mid (Some (Dispatch []), seal_in (set_lanes p ls) mid pk).

Lemma lanewise_wasted_trans ls1 ls2 ls3 :
  lanewise (λ _, wasted) ls1 ls2 → lanewise (λ _, wasted) ls2 ls3 → lanewise (λ _, wasted) ls1 ls3.
Proof. apply lanewise_trans. intros _ l1 l2 l3 H1 H2. by trans l2. Qed.

Lemma fire_waves_empty k placed (ls ls' : gmap LaneId LaneState) pk :
  packing_of k placed pk → lanewise (placed_or k wasted placed) ls ls' → (∀ id, id ∈ placed.*1 → is_Some (ls !! id)) →
  pk_fire_waves pk = ∅ ↔ placed = [].
Proof.
  intros (_ & _ & _ & Hd & _) Hls Hin. split.
  - intros He. destruct placed as [|[id lv] placed]; [done|]. exfalso.
    destruct (Hin id) as [l Hl]; [by left|]. specialize (Hls id). rewrite Hl in Hls.
    inversion Hls as [? l' [Hpop _]|]; subst. destruct (Hpop lv) as (_ & Hne & _); [by left|].
    rewrite He, dom_empty_L in Hd. destruct lv as [|f lv]; [done|]. cbn in Hd. set_solver.
  - intros ->. cbn in Hd. by apply dom_empty_inv_L.
Qed.

Lemma packs_from p ls us placed ls' pk id :
  packs p ls us placed ls' pk → id ∈ placed.*1 → id ∈ concat us.
Proof.
  intros Hpa Hid. destruct (decide (id ∈ concat us)) as [|Hno]; [done|]. by destruct (pa_rest _ _ _ _ _ _ Hpa id Hno).
Qed.

Lemma order_units_in sched p mid id :
  id ∈ concat (form_units p (order_of sched p mid) (order_of sched p mid) ∅) →
  ∃ l, lanes p !! id = Some l ∧ ready p l = true.
Proof.
  intros Hid. apply (elem_of_order sched p mid).
  by apply (form_units_spec p (order_of sched p mid) (order_of sched p mid) ∅) in Hid as [_ ?]; [|apply NoDup_order| |].
Qed.

Lemma order_units_nodup sched p mid :
  NoDup (concat (form_units p (order_of sched p mid) (order_of sched p mid) ∅)).
Proof. apply form_units_spec; [apply NoDup_order|done|]. by intros id id' key. Qed.

Lemma seal_loop_spec fuel sched mid p :
  k p ≠ 0 → count_frames (lanes p) < fuel →
  ∃ r, seal_loop fuel sched mid p = Some r ∧ seal_result sched p mid r.
Proof.
  intros Hk. revert p Hk. induction fuel as [|fuel IH]; intros p Hk Hc; [lia|]. cbn [seal_loop].
  destruct (mid && _).
  { exists (None, set_lanes p (lanes p)). split; [by destruct p|]. apply seal_waits. by apply lanewise_refl. }
  destruct (pack_units_spec p (lanes p) [] (form_units p (order_of sched p mid) (order_of sched p mid) ∅) [] (lanes p)
    (empty_packing (k p)) false Hk) as (ls & pk & d & placed & Heq & Hpa & Hc' & Hd).
  { apply order_units_nodup. } { apply packs_begin. }
  rewrite Heq. cbn. clear Heq.
  assert (pk_fire_waves pk = ∅ ↔ placed = []) as Hempty.
  { eapply fire_waves_empty; [apply Hpa|apply Hpa|]. intros id Hid%(packs_from _ _ _ _ _ _ _ Hpa).
    apply order_units_in in Hid as (l & -> & _). by eexists. }
  destruct (decide (pk_fire_waves pk = ∅)) as [He|He].
  - apply Hempty in He as ->. assert (lanewise (λ _, wasted) (lanes p) ls) as Hw.
    { eapply lanewise_impl, Hpa. intros id l l' _ _ [_ Hr]. apply Hr. by intros ?%not_elem_of_nil. }
    destruct d; [|by eexists; split; [|apply seal_empty]].
    destruct (Hd eq_refl) as [|Hlt]; [done|].
    destruct (IH (set_lanes p ls)) as (r & Hr & Hres); [done|cbn; lia|]. exists r. split; [done|].
    inversion Hres as [ls' H1|ls' H1|ls1 pl ls' pk' p1 order H1 H2 H3]; subst; cbn in *.
    + apply (seal_waits sched p mid ls'). by eapply lanewise_wasted_trans.
    + apply (seal_empty sched p mid ls'). by eapply lanewise_wasted_trans.
    + apply (seal_taken sched p mid ls1 pl ls' pk'); [by eapply lanewise_wasted_trans|done..].
  - eexists. split; [done|]. apply (seal_taken sched p mid (lanes p) placed ls pk); [by apply lanewise_refl| |tauto].
    by replace (set_lanes p (lanes p)) with p by by destruct p.
Qed.

Lemma seal_spec sched p :
  k p ≠ 0 → ∃ r, seal sched p = Some r ∧ seal_result sched p (boundary_open p) r.
Proof.
  intros Hk. unfold seal. destruct (have_seal_candidate p); cbn [negb].
  - apply seal_loop_spec; [done|lia].
  - exists (None, set_lanes p (lanes p)). split; [by destruct p|]. apply seal_waits. by apply lanewise_refl.
Qed.
End FrameSeal.

Import FrameSeal.

Module FrameTurn.

(** ** What a step holds *)

Definition wave_fires (s : SealedFrame) : list N := concat (waves s).
(** The fires that arrived and were not given out. *)
Definition queued (p : FramePolicy) : list N := bag lane_live (lanes p) ++ (sealed p ≫= wave_fires).
Definition parks_empty (ls : gmap LaneId LaneState) : Prop :=
  ∀ id l f, ls !! id = Some l → f ∈ frames l → park f = true → live f = [].

(** No lane is new, none has another owner, and none a frame with fires it did not have. *)
Definition same_fires (f g : PendingFrame) : Prop := seq f = seq g ∧ park f = park g ∧ fires f = fires g.
Definition had (fs fs' : list PendingFrame) : Prop := ∀ f, f ∈ fs' → ∃ g, g ∈ fs ∧ same_fires f g.
Definition shrinks (ls ls' : gmap LaneId LaneState) : Prop :=
  ∀ id l', ls' !! id = Some l' → ∃ l, ls !! id = Some l ∧ owner l' = owner l ∧ had (frames l) (frames l').

Lemma had_sub fs fs' : (∀ f, f ∈ fs' → f ∈ fs) → had fs fs'.
Proof. intros Hin f Hf. exists f. split; [by apply Hin|done]. Qed.
Lemma had_suffix es fs : had (es ++ fs) fs.
Proof. apply had_sub. set_solver. Qed.

#[export] Instance shrinks_preorder : PreOrder shrinks.
Proof.
  split.
  - intros ls id l Hl. exists l. split_and!; [done..|by apply had_sub].
  - intros ls1 ls2 ls3 H1 H2 id l3 H3. destruct (H2 id l3 H3) as (l2 & Hl2 & Ho2 & Hf2).
    destruct (H1 id l2 Hl2) as (l1 & Hl1 & Ho1 & Hf1). exists l1. split; [done|]. split; [congruence|].
    intros f (g & Hg & Hs)%Hf2. destruct (Hf1 g Hg) as (h & Hh & Hs'). exists h. split; [done|].
    unfold same_fires in *. naive_solver congruence.
Qed.

Lemma parks_empty_shrinks ls ls' : shrinks ls ls' → parks_empty ls → parks_empty ls'.
Proof.
  intros Hs Hp id l' f Hl' Hf Hpark. destruct (Hs id l' Hl') as (l & Hl & _ & Hin).
  destruct (Hin f Hf) as (g & Hg & _ & Hpg & Hfg). unfold live. rewrite Hfg. apply (Hp id l g); congruence.
Qed.

(** From a policy to a policy, these fires given out and others gone that may go. *)
Record effect (G : N → Prop) (p : FramePolicy) (out : list N) (p' : FramePolicy) : Prop := {
  ef_k : k p' = k p;
  ef_shrinks : shrinks (lanes p) (lanes p');
  ef_count : count_frames (lanes p') ≤ count_frames (lanes p);
  ef_queued : parks_empty (lanes p) →
    ∃ gone, queued p ≡ₚ out ++ queued p' ++ gone ∧ ∀ x, x ∈ gone → G x;
}.

Lemma effect_trans G p1 p2 p3 out out' :
  effect G p1 out p2 → effect G p2 out' p3 → effect G p1 (out ++ out') p3.
Proof.
  intros [Hk1 Hs1 Hc1 Hq1] [Hk2 Hs2 Hc2 Hq2]. split; [congruence|by trans (lanes p2)|lia|].
  intros Hp. destruct (Hq1 Hp) as (g1 & Hg1 & HG1). destruct Hq2 as (g2 & Hg2 & HG2); [by eapply parks_empty_shrinks|].
  exists (g2 ++ g1). split; [rewrite Hg1, Hg2; solve_perm|]. intros x [?|?]%elem_of_app; auto.
Qed.

Lemma effect_nil_trans G p1 p2 p3 out : effect G p1 [] p2 → effect G p2 out p3 → effect G p1 out p3.
Proof. apply (effect_trans G p1 p2 p3 []). Qed.

(** A step that keeps what is sealed, and of each lane the fires. *)
Lemma effect_lanes G p p' :
  k p' = k p → sealed p' = sealed p → shrinks (lanes p) (lanes p') →
  (∀ i, length (bag_of frames (lanes p' !! i)) ≤ length (bag_of frames (lanes p !! i))) →
  (parks_empty (lanes p) → ∀ i, bag_of lane_live (lanes p !! i) = bag_of lane_live (lanes p' !! i)) →
  effect G p [] p'.
Proof.
  intros Hk Hse Hs Hc Hl. split; [done|done|by apply count_frames_mono|]. intros Hp. exists [].
  split; [|by intros ? ?%not_elem_of_nil]. unfold queued. rewrite Hse, app_nil_r. cbn. f_equiv. by apply bag_ext, Hl.
Qed.

(** A step that keeps the frames of the lanes, but for lanes that have none. *)
Lemma effect_frames G p p' :
  k p' = k p → sealed p' = sealed p →
  (∀ i l', lanes p' !! i = Some l' → ∃ l, lanes p !! i = Some l ∧ owner l' = owner l ∧ frames l' = frames l) →
  (∀ i l, lanes p !! i = Some l → lanes p' !! i = None → frames l = []) → effect G p [] p'.
Proof.
  intros Hk Hse Hkeep Hgone. assert (∀ i, bag_of frames (lanes p' !! i) = bag_of frames (lanes p !! i)) as Hf.
  { intros i. destruct (lanes p' !! i) as [l'|] eqn:Hl'; cbn.
    - destruct (Hkeep i l' Hl') as (l & -> & _ & ->). done.
    - destruct (lanes p !! i) as [l|] eqn:Hl; cbn; [by rewrite (Hgone i l)|done]. }
  apply effect_lanes; [done|done| |by intros i; rewrite Hf|].
  - intros i l' Hl'. destruct (Hkeep i l' Hl') as (l & Hl & Ho & Hfs). exists l. rewrite Hfs. split_and!; [done..|by apply had_sub].
  - intros _ i. specialize (Hf i). unfold lane_live. destruct (lanes p !! i), (lanes p' !! i); cbn in Hf |- *;
      [by rewrite Hf|by rewrite <-Hf|by rewrite Hf|done].
Qed.

Lemma effect_refl G p : effect G p [] p.
Proof. apply effect_frames; [done|done|eauto|congruence]. Qed.

Lemma effect_each G p f : (∀ l, owner (f l) = owner l ∧ frames (f l) = frames l) → effect G p [] (each_lane p f).
Proof.
  intros Hf. apply effect_frames; [done|done| |].
  - intros i l'. cbn. rewrite lookup_fmap. intros (l & Hl & ->)%fmap_Some. exists l. destruct (Hf l). auto.
  - intros i l Hl. cbn. rewrite lookup_fmap, Hl. done.
Qed.

Lemma effect_imap G p f :
  (∀ i l, owner (f i l) = owner l ∧ frames (f i l) = frames l) →
  effect G p [] (set_lanes p (map_imap (λ i l, Some (f i l)) (lanes p))).
Proof.
  intros Hf. apply effect_frames; [done|done| |].
  - intros i l'. cbn. rewrite map_lookup_imap. destruct (lanes p !! i) as [l|]; [|done]. cbn. intros [= <-].
    exists l. destruct (Hf i l). auto.
  - intros i l Hl. cbn. rewrite map_lookup_imap, Hl. done.
Qed.

Lemma effect_keep G p : effect G p [] (set_lanes p (keep_lanes (lanes p))).
Proof.
  apply effect_frames; [done|done| |]; cbn; unfold keep_lanes.
  - intros i l' [Hl' _]%map_lookup_filter_Some. eauto.
  - intros i l Hl Hno. apply map_lookup_filter_None in Hno as [?|Hno]; [congruence|]. specialize (Hno l Hl).
    cbn in Hno. destruct (awaited l), (leashed l), (frames l); cbn in Hno; by auto.
Qed.

(** ** A seal *)

Lemma effect_wasted G p ls : lanewise (λ _, wasted) (lanes p) ls → effect G p [] (set_lanes p ls).
Proof.
  intros Hw. apply effect_lanes; [done|done|..]; cbn.
  - intros i l' Hl'. specialize (Hw i). rewrite Hl' in Hw. inversion Hw as [l ? Hwl Hl|]; subst. exists l.
    split; [done|]. destruct Hwl as (-> & es & He & _). split; [by destruct l|]. rewrite He. apply had_suffix.
  - intros i. destruct (Hw i) as [l l' Hwl|]; cbn; [by apply wasted_length|done].
  - intros _ i. destruct (Hw i) as [l l' Hwl|]; cbn; [by apply wasted_live|done].
Qed.

Lemma popped_live k lv l l' : popped k lv l l' → lane_live l = (fire_id <$> lv) ++ lane_live l'.
Proof.
  intros (_ & _ & f & Hf & Hlv). apply live_fires_inv in Hlv as [Hids _].
  unfold lane_live. rewrite Hf. cbn. by rewrite Hids.
Qed.

Lemma bag_placed k placed ls ls' :
  NoDup placed.*1 → (∀ id, id ∈ placed.*1 → is_Some (ls !! id)) → lanewise (placed_or k wasted placed) ls ls' →
  bag lane_live ls ≡ₚ (fire_id <$> fires_of placed) ++ bag lane_live ls'.
Proof.
  revert ls. induction placed as [|[id lv] placed IH]; intros ls Hnd Hin Hls.
  { cbn. eapply lanewise_bag, Hls. intros id l l' [_ Hr]. apply wasted_live, Hr. by intros ?%not_elem_of_nil. }
  rewrite fmap_cons in Hnd. apply NoDup_cons in Hnd as [Hid Hnd]. cbn in Hid.
  destruct (Hin id) as [l Hl]; [by left|]. pose proof (Hls id) as Hp. rewrite Hl in Hp.
  destruct (ls' !! id) as [l'|] eqn:Hl'; [|by inversion Hp].
  assert (popped k lv l l') as Hpop by (inversion Hp as [? ? [H1 _]|]; subst; apply H1; by left).
  rewrite (bag_update lane_live ls id l l' (fire_id <$> lv) Hl) by by rewrite (popped_live k lv l l').
  cbn. fold (fires_of placed). rewrite fmap_app, <-app_assoc. f_equiv. apply IH; [done| |].
  - intros i Hi. destruct (decide (i = id)) as [->|]; [done|]. rewrite lookup_insert_ne by done. apply Hin. by right.
  - intros i. destruct (decide (i = id)) as [->|Hi].
    + rewrite lookup_insert_eq, Hl'. constructor. split; [by intros ? ?%elem_of_fst|done].
    + rewrite lookup_insert_ne by done. destruct (Hls i) as [l1 l2 [H1 H2]|]; constructor. split.
      * intros lv' Hlv'. apply H1. by right.
      * intros Hno. apply H2. rewrite fmap_cons. intros [?|?]%elem_of_cons; done.
Qed.

Lemma effect_mark G p ms : effect G p [] (set_lanes p (mark_fired ms (lanes p))).
Proof. apply effect_imap. intros i l. case_decide; by destruct l. Qed.

(** The lanes taken go from the lanes to the frame that is sealed. *)
Lemma effect_taken G p us placed ls pk :
  packs p (lanes p) us placed ls pk → (∀ id, id ∈ placed.*1 → is_Some (lanes p !! id)) →
  effect G p [] (set_sealed (set_lanes p ls) (sealed p ++ [mkSealed (pk_waves pk) (pk_members pk)])) ∧
  (placed ≠ [] → count_frames ls < count_frames (lanes p)).
Proof.
  intros Hpa Hin. pose proof (pa_lanes _ _ _ _ _ _ Hpa) as Hls.
  assert (∀ i l l', lanes p !! i = Some l → ls !! i = Some l' →
    owner l' = owner l ∧ ∃ es, frames l = es ++ frames l') as Hone.
  { intros i l l' Hl Hl'. specialize (Hls i). rewrite Hl, Hl' in Hls. inversion Hls as [? ? [H1 H2]|]; subst.
    destruct (decide (i ∈ placed.*1)) as [([j lv] & -> & Hi)%list_elem_of_fmap|Hi].
    - destruct (H1 lv Hi) as (-> & _ & f & Hf & _). split; [by destruct l|]. by exists [f].
    - destruct (H2 Hi) as (-> & es & Hes & _). split; [by destruct l|]. by exists es. }
  assert (∀ i, length (bag_of frames (ls !! i)) ≤ length (bag_of frames (lanes p !! i))) as Hlen.
  { intros i. specialize (Hls i). destruct (lanes p !! i) as [l|] eqn:Hl, (ls !! i) as [l'|] eqn:Hl'; inversion Hls; cbn; [|lia].
    destruct (Hone i l l' Hl Hl') as (_ & es & ->). rewrite length_app. lia. }
  split; [split; cbn|].
  - done.
  - intros i l' Hl'. pose proof (Hls i) as Hi. rewrite Hl' in Hi. destruct (lanes p !! i) as [l|] eqn:Hl; [|by inversion Hi].
    destruct (Hone i l l' Hl Hl') as (Ho & es & Hes). exists l. rewrite Hes. split; [done|]. split; [done|]. apply had_suffix.
  - by apply count_frames_mono.
  - intros _. exists []. split; [|by intros ? ?%not_elem_of_nil]. unfold queued. cbn. rewrite app_nil_r, bind_app.
    rewrite (bag_placed _ _ _ _ (pa_nodup _ _ _ _ _ _ Hpa) Hin Hls). unfold wave_fires at 3. cbn.
    destruct (pa_packing _ _ _ _ _ _ Hpa) as (-> & _). rewrite concat_wave_ids; [solve_perm|].
    apply Forall_bind, Forall_forall. intros [id lv] Hid. cbn.
    destruct (Hin id) as [l Hl]; [by eapply elem_of_fst|]. specialize (Hls id). rewrite Hl in Hls.
    inversion Hls as [? ? [H1 _]|]; subst. by destruct (H1 lv Hid) as (_ & _ & f & _ & [_ ?]%live_fires_inv).
  - intros Hne. destruct placed as [|[id lv] placed]; [done|]. apply (count_frames_lt _ _ id); [done|].
    destruct (Hin id) as [l Hl]; [by left|]. specialize (Hls id). rewrite Hl in Hls |- *.
    inversion Hls as [? l' [H1 _] |]; subst. cbn. eapply popped_length, H1. by left.
Qed.

Lemma effect_seal G sched p mid plan p' :
  seal_result sched p mid (plan, p') →
  effect G p [] p' ∧ (plan = None ∨ plan = Some (Dispatch []) ∧ count_frames (lanes p') < count_frames (lanes p)).
Proof.
  intros Hres. inversion Hres as [ls Hw|ls Hw|ls1 placed ls pk p1 order Hw Hpa Hne]; subst.
  - split; [by apply effect_wasted|by left].
  - split; [|by left]. eapply effect_nil_trans; [by apply effect_wasted|]. apply (effect_keep G (set_lanes p ls)).
  - pose proof (effect_wasted G p ls1 Hw) as H1. fold p1 in H1.
    destruct (effect_taken G p1 (form_units p1 order order ∅) placed ls pk) as [H2 Hlt]; [done| |].
    { intros id Hid%(packs_from _ _ _ _ _ _ _ Hpa)%order_units_in. destruct Hid as (l & -> & _). by eexists. }
    specialize (Hlt Hne). set (p2 := set_sealed _ _) in H2.
    assert (effect G p2 [] (if mid then p2 else open_boundary p2)) as H3.
    { destruct mid; [apply effect_refl|]. apply effect_each. by intros []. }
    set (p3 := if mid then p2 else open_boundary p2) in H3.
    pose proof (effect_mark G p3 (pk_members pk)) as H4. set (p4 := set_lanes p3 _) in H4.
    pose proof (effect_keep G p4) as H5.
    assert (set_lanes p4 (keep_lanes (lanes p4)) = seal_in (set_lanes p ls) mid pk) as Heq by by destruct mid.
    rewrite Heq in H5. split.
    + eapply effect_nil_trans; [exact H1|]. eapply effect_nil_trans; [exact H2|]. eapply effect_nil_trans; [exact H3|].
      by eapply effect_nil_trans; [exact H4|].
    + right. split; [done|]. pose proof (ef_count _ _ _ _ H1). pose proof (ef_count _ _ _ _ H3).
      pose proof (ef_count _ _ _ _ H4). pose proof (ef_count _ _ _ _ H5).
      change (lanes p2) with ls in *. change (lanes p1) with ls1 in *. lia.
Qed.

(** ** The steps of a turn *)

Lemma retire_fronts_spec l fs :
  let r := retire_fronts l fs in
  owner r = owner l ∧ group r = group l ∧ leashed r = leashed l ∧ fired_this_boundary r = fired_this_boundary l ∧
  (awaited r = true → awaited l = true) ∧ (clock_from r = clock_from l ∨ clock_from r = None) ∧
  ∃ ps, fs = ps ++ frames r ∧ Forall (λ f, park f = true) ps.
Proof.
  revert l. induction fs as [|f fs IH]; intros l; cbn.
  - split_and!; [done..|by left|by exists []].
  - destruct (park f) eqn:Hf; [|cbn; split_and!; [done..|by left|by exists []]].
    set (l1 := if decide (length fs = 0) then _ else l).
    destruct (IH l1) as (Ho & Hg & Hl & Hfi & Ha & Hc & ps & Hps & Hall). cbn in *.
    assert (owner l1 = owner l ∧ group l1 = group l ∧ leashed l1 = leashed l ∧
      fired_this_boundary l1 = fired_this_boundary l ∧ (awaited l1 = true → awaited l = true) ∧
      (clock_from l1 = clock_from l ∨ clock_from l1 = None)) as (Ho1 & Hg1 & Hl1 & Hfi1 & Ha1 & Hc1).
    { unfold l1. case_decide; cbn; split_and!; try done; first [by left|by right]. }
    split_and!; [congruence..|auto| |].
    + destruct Hc as [->|]; [|by right]. done.
    + exists (f :: ps). split; [by rewrite Hps at 1|by constructor].
Qed.

Lemma effect_retire_parks G p : effect G p [] (retire_parks p).
Proof.
  apply effect_lanes; [done|done|..]; unfold retire_parks, each_lane; cbn.
  - intros i l'. rewrite lookup_fmap. intros (l & Hl & ->)%fmap_Some. exists l. split; [done|].
    destruct (retire_fronts_spec l (frames l)) as (Ho & _ & _ & _ & _ & _ & ps & Hps & _). split; [done|].
    rewrite Hps at 1. apply had_suffix.
  - intros i. rewrite lookup_fmap. destruct (lanes p !! i) as [l|]; cbn; [|done].
    destruct (retire_fronts_spec l (frames l)) as (_ & _ & _ & _ & _ & _ & ps & Hps & _).
    rewrite Hps at 2. rewrite length_app. lia.
  - intros Hpe i. rewrite lookup_fmap. destruct (lanes p !! i) as [l|] eqn:Hl; cbn; [|done].
    destruct (retire_fronts_spec l (frames l)) as (_ & _ & _ & _ & _ & _ & ps & Hps & Hall).
    unfold lane_live. rewrite Hps at 1. rewrite bind_app.
    assert (ps ≫= live = []) as ->; [|done]. assert (∀ f, f ∈ ps → live f = []) as Hnil.
    { intros f Hf. rewrite Forall_forall in Hall. eapply Hpe; [exact Hl| |by apply Hall]. rewrite Hps. set_solver. }
    clear -Hnil. induction ps as [|f ps IH]; [done|]. cbn. rewrite Hnil by by left. apply IH. intros. apply Hnil. by right.
Qed.

(** ** What stays sealed *)

Definition not_queued (q : QueuedFireIds) (id : N) : Prop := contains q id = false.

Lemma filter_perm_split {A} (P : A → bool) (l : list A) :
  l ≡ₚ filter (λ x, P x = true) l ++ filter (λ x, P x = false) l.
Proof. rewrite Permutation_app_comm. symmetry. apply filter_split. Qed.

Lemma still_waves_fires q s :
  ∃ gone, wave_fires s ≡ₚ wave_fires (still_waves q s) ++ gone ∧ ∀ x, x ∈ gone → not_queued q x.
Proof.
  unfold wave_fires, still_waves. cbn. induction (waves s) as [|w ws (gone & Hg & HG)]; cbn.
  { exists []. split; [done|]. by intros ? ?%not_elem_of_nil. }
  exists (filter (λ id, contains q id = false) w ++ gone). split.
  - rewrite Hg. rewrite (filter_perm_split (contains q) w) at 1. solve_perm.
  - intros x [[? _]%list_elem_of_filter|?]%elem_of_app; auto.
Qed.

Lemma spent_fires s : spent s = true → wave_fires s = [].
Proof.
  unfold spent, wave_fires. induction (waves s) as [|w ws IH]; cbn; [done|].
  intros [Hw%bool_decide_eq_true H]%andb_true_iff. apply length_zero_iff_nil in Hw as ->. by apply IH.
Qed.

Lemma drop_spent_fires fs : drop_spent fs ≫= wave_fires = fs ≫= wave_fires.
Proof.
  induction fs as [|f fs IH]; cbn; [done|]. destruct (spent f) eqn:Hf; [|done].
  by rewrite (spent_fires f Hf), IH.
Qed.

Lemma effect_sealed G p ss :
  (∃ gone, sealed p ≫= wave_fires ≡ₚ (ss ≫= wave_fires) ++ gone ∧ ∀ x, x ∈ gone → G x) →
  effect G p [] (set_sealed p ss).
Proof.
  intros (gone & Hg & HG). split; [done|done|done|]. intros _. exists gone. split; [|done].
  unfold queued. cbn. rewrite Hg. solve_perm.
Qed.

Lemma effect_clean_up q p : effect (not_queued q) p [] (clean_up q p).
Proof.
  unfold clean_up. eapply effect_nil_trans; [apply effect_retire_parks|]. apply effect_sealed.
  rewrite drop_spent_fires. induction (sealed (retire_parks p)) as [|s ss (gone & Hg & HG)].
  { exists []. split; [done|]. by intros ? ?%not_elem_of_nil. }
  destruct (still_waves_fires q s) as (g & Hgs & HGs). exists (g ++ gone). split.
  - rewrite fmap_cons, !bind_cons, Hgs, Hg. solve_perm.
  - intros x [?|?]%elem_of_app; auto.
Qed.

(** A step that does not touch the lanes. *)
Lemma effect_same G p p' : k p' = k p → sealed p' = sealed p → lanes p' = lanes p → effect G p [] p'.
Proof. intros Hk Hs Hl. apply effect_frames; rewrite ?Hl; [done|done|eauto|congruence]. Qed.

Lemma gate_lane_keeps p now id l :
  owner (gate_lane p now id l).1.1 = owner l ∧ group (gate_lane p now id l).1.1 = group l ∧
  frames (gate_lane p now id l).1.1 = frames l ∧
  fired_this_boundary (gate_lane p now id l).1.1 = fired_this_boundary l ∧
  (awaited (gate_lane p now id l).1.1 = true → awaited l = true).
Proof.
  unfold gate_lane. repeat (case_match || case_decide); cbn; repeat split; done.
Qed.

Lemma effect_gate G p now : effect G p [] (set_lanes p (gate_lanes p now)).
Proof. apply (effect_imap G p (λ id l, (gate_lane p now id l).1.1)). intros i l. split; apply gate_lane_keeps. Qed.

(** ** A turn *)

Definition plan_out (plan : option FramePlan) : list N :=
  match plan with Some (Dispatch ws) => concat ws | _ => [] end.
(** An answer the caller can act on: fires that are all queued, a time to wait, someone to end. *)
Definition plan_sound (q : QueuedFireIds) (plan : FramePlan) : Prop :=
  match plan with
  | Dispatch ws => concat ws ≠ [] ∧ ∀ id, id ∈ concat ws → contains q id = true
  | Hold d => (0 < d)%N
  | Park => True
  | Terminate doomed => doomed ≠ []
  end.

(** A turn ends with an answer, or is followed by one with fewer frames to take. *)
Definition turn_ok (q : QueuedFireIds) (p : FramePolicy) (r : option FramePlan * FramePolicy) : Prop :=
  effect (not_queued q) p (plan_out r.1) r.2 ∧
  match r.1 with
  | None => count_frames (lanes r.2) < count_frames (lanes p)
  | Some plan => plan_sound q plan
  end.

Lemma turn_ok_after q p p1 r : effect (not_queued q) p [] p1 → turn_ok q p1 r → turn_ok q p r.
Proof.
  intros H1 [H2 Hr]. split; [by eapply effect_nil_trans|]. destruct r as [[]]; [done|]. cbn in *.
  pose proof (ef_count _ _ _ _ H1). lia.
Qed.

Lemma hold_for_pos p now : (0 < (hold_for p now).1)%N.
Proof. unfold hold_for, micros, STRICT_WATCHDOG_US, GATHER_POLL_US. cbn. case_decide; lia. Qed.

Lemma boundary_open_spec p :
  boundary_open p = false ↔ ∀ i l, lanes p !! i = Some l → awaited l = true → fired_this_boundary l = true.
Proof.
  unfold boundary_open. split.
  - intros Hno i l Hl Ha. pose proof (existsb_lanes_false _ _ _ _ Hno Hl) as Hf. cbn in Hf. rewrite Ha in Hf.
    by destruct (fired_this_boundary l).
  - intros Hall. apply not_true_is_false. intros (i & l & Hl & Hf)%existsb_lanes. cbn in Hf.
    apply andb_true_iff in Hf as [Ha Hf]. by rewrite (Hall i l Hl Ha) in Hf.
Qed.

Lemma close_boundary_closed p : boundary_open (close_boundary p) = false.
Proof.
  apply boundary_open_spec. intros i l. unfold close_boundary, each_lane. cbn. rewrite lookup_fmap.
  by intros (l0 & _ & ->)%fmap_Some.
Qed.

Lemma after_gate_ok q sched executing now p :
  k p ≠ 0 → ∃ r, after_gate sched executing now p = Some r ∧ turn_ok q p r.
Proof.
  intros Hk. unfold after_gate. set (p1 := set_lanes p (gate_lanes p now)).
  pose proof (effect_gate (not_queued q) p now) as H1. fold p1 in H1.
  destruct (decide (length (expired p now) ≠ 0)) as [He|He].
  { eexists. split; [done|]. split; [done|]. cbn. by destruct (expired p now). }
  case_decide as Hm.
  { destruct executing; [by eexists|]. eexists. split; [done|]. eapply turn_ok_after; [exact H1|].
    split; [by apply effect_same|]. apply (hold_for_pos p1 now). }
  set (p2 := set_strict_watchdog_deadline p1 None).
  destruct (seal_spec sched p2) as ([plan p3] & -> & Hres); [done|]. cbn.
  apply (effect_seal (not_queued q)) in Hres as [H2 Hp].
  assert (effect (not_queued q) p [] p3) as H3.
  { eapply effect_nil_trans; [exact H1|]. eapply effect_nil_trans; [by apply (effect_same _ p1 p2)|done]. }
  destruct Hp as [->|[-> Hlt]].
  - destruct (group_assembling p3); by eexists.
  - eexists. split; [done|]. split; [done|]. cbn. pose proof (ef_count _ _ _ _ H1) as Hc.
    change (lanes p2) with (lanes p1) in Hlt. lia.
Qed.

Lemma closed_turn_ok q sched executing now p :
  k p ≠ 0 → boundary_open p = false → ∃ r, closed_turn sched executing now p = Some r ∧ turn_ok q p r.
Proof.
  intros Hk Hb. unfold closed_turn. case_decide.
  { eexists. split; [done|]. split; [by apply effect_same|done]. }
  destruct (cohort_verdict p now) as [doomed p1] eqn:Hv.
  assert (k p1 = k p ∧ lanes p1 = lanes p ∧ sealed p1 = sealed p) as (Hk1 & Hl1 & Hs1).
  { unfold cohort_verdict in Hv. injection Hv as _ <-. done. }
  pose proof (effect_same (not_queued q) p p1 Hk1 Hs1 Hl1) as H1.
  destruct (decide (length doomed ≠ 0)) as [Hd|Hd].
  { eexists. split; [done|]. split; [done|]. cbn. by destruct doomed. }
  assert (boundary_open p1 = false) as -> by (unfold boundary_open; by rewrite Hl1).
  destruct (after_gate_ok q sched executing now p1) as (r & Hr & Hok); [congruence|].
  exists r. split; [done|]. by eapply turn_ok_after.
Qed.

Lemma drop_spent_front fs s rest : drop_spent fs = s :: rest → spent s = false ∧ s ∈ fs.
Proof.
  induction fs as [|f fs IH]; cbn; [done|]. destruct (spent f) eqn:Hf.
  - intros [? ?]%IH. split; [done|by right].
  - intros [= <- <-]. split; [done|by left].
Qed.

Lemma wave_fires_spent s : spent s = false → wave_fires s ≠ [].
Proof.
  unfold spent, wave_fires. induction (waves s) as [|w ws IH]; cbn; [done|].
  destruct w; cbn; [by apply IH|done].
Qed.

Lemma front_queued q p s rest :
  sealed (clean_up q p) = s :: rest → wave_fires s ≠ [] ∧ ∀ id, id ∈ wave_fires s → contains q id = true.
Proof.
  unfold clean_up. cbn. intros [Hs Hin]%drop_spent_front. split; [by apply wave_fires_spent|].
  apply list_elem_of_fmap in Hin as (s' & -> & _). unfold wave_fires, still_waves. cbn.
  intros id (w & Hw & Hid)%elem_of_concat. apply list_elem_of_fmap in Hw as (w' & -> & _).
  by apply list_elem_of_filter in Hid as [? _].
Qed.

Lemma plan_turn_ok sched q blocked executing now p :
  k p ≠ 0 → ∃ r, plan_turn sched q blocked executing now p = Some r ∧ turn_ok q p r.
Proof.
  intros Hk. unfold plan_turn. pose proof (effect_clean_up q p) as H1. pose proof (front_queued q p) as Hfront.
  set (p1 := clean_up q p) in *. clearbody p1. assert (k p1 ≠ 0) as Hk1 by by rewrite (ef_k _ _ _ _ H1).
  enough (∃ r, match dispatch_front p1 blocked now with
    | Some (plan, p) => Some (Some plan, p)
    | None => if boundary_open p1 then '(plan, p) ← seal sched p1;
        match plan with
        | Some (Dispatch _) => Some (None, p)
        | Some plan => Some (Some plan, p)
        | None => closed_turn sched executing now (close_boundary p)
        end
      else closed_turn sched executing now p1
    end = Some r ∧ turn_ok q p1 r) as (r & Hr & Hok) by (exists r; split; [exact Hr|by eapply turn_ok_after]).
  unfold dispatch_front. destruct (sealed p1) as [|s rest] eqn:Hs.
  - destruct (boundary_open p1) eqn:Hb; [|by apply closed_turn_ok].
    destruct (seal_spec sched p1 Hk1) as ([plan p2] & -> & Hres). cbn.
    apply (effect_seal (not_queued q)) in Hres as [H2 [->|[-> Hlt]]]; [|by eexists].
    assert (effect (not_queued q) p1 [] (close_boundary p2)) as H3.
    { eapply effect_nil_trans; [exact H2|]. apply effect_each. by intros []. }
    destruct (closed_turn_ok q sched executing now (close_boundary p2)) as (r & Hr & Hok).
    { by rewrite (ef_k _ _ _ _ H3). } { apply close_boundary_closed. }
    exists r. split; [done|]. by eapply turn_ok_after.
  - case_decide; eexists; (split; [done|]).
    + split; [apply effect_refl|done].
    + split; [|by apply (Hfront s rest)]. split; [done|done|done|]. intros _. exists []. cbn.
      split; [|by intros ? ?%not_elem_of_nil]. unfold queued. cbn. rewrite Hs, bind_cons.
      fold (wave_fires s). solve_perm.
Qed.

Lemma plan_loop_ok fuel sched q blocked executing now p :
  k p ≠ 0 → count_frames (lanes p) < fuel →
  ∃ plan p', plan_loop fuel sched q blocked executing now p = Some (plan, p') ∧ plan_sound q plan ∧
    effect (not_queued q) p (plan_out (Some plan)) p'.
Proof.
  revert p. induction fuel as [|fuel IH]; intros p Hk Hc; [lia|]. cbn [plan_loop].
  destruct (plan_turn_ok sched q blocked executing now p Hk) as ([[plan|] p1] & -> & [He Hr]); cbn in *.
  - by exists plan, p1.
  - destruct (IH p1) as (plan & p2 & Heq & Hs & He2); [by rewrite (ef_k _ _ _ _ He)|lia|].
    exists plan, p2. split; [done|]. split; [done|]. by eapply effect_nil_trans.
Qed.
End FrameTurn.
