(* ===== verification/FrameThm.v ===== *)
(** What the frame policy promises. Of one seal: a frame of every lane it takes goes out
    whole, in the waves its slots say, and no wave is larger than the batch the engine
    takes; a group goes together or not at all. Of a call of [plan_dispatch]: it returns.
    Of its gate, whom it waits for: a frame is not given out while a lane that is waited
    for has none ready, unless its time is up. *)
From stdpp Require Import gmap sorting.
From S2P Require Import Prelude Frame FrameSeal.
Import Frame FrameSeal FrameTurn.

Module FrameThm.

(** ** What a seal takes *)

(** The frame of a lane that is next to go: the first that has a fire. *)
Definition next_frame (l : LaneState) : option PendingFrame := head (filter (λ f, live f ≠ []) (frames l)).
(** The fires of the next frame of each of the lanes. *)
Definition next_live (p : FramePolicy) (id : LaneId) : option (list PlacedFire) :=
  l ← lanes p !! id; f ← next_frame l; live_fires (k p) (fires f).
Definition next_fires (p : FramePolicy) (ms : gset LaneId) : list PlacedFire :=
  elements ms ≫= (λ id, default [] (next_live p id)).
(** The fires of a frame are in waves of their own. *)
Definition spread (k : nat) (f : PendingFrame) : Prop :=
  ∀ lv, live_fires k (fires f) = Some lv → NoDup (wave <$> lv).

Lemma of_wave_spread w lv :
  NoDup (wave <$> lv) → of_wave w lv = [] ∨ ∃ f, f ∈ lv ∧ wave f = w ∧ of_wave w lv = [f].
Proof.
  induction lv as [|f lv IH]; intros Hnd; [by left|]. rewrite fmap_cons in Hnd.
  apply NoDup_cons in Hnd as [Hf Hnd]. destruct (decide (wave f = w)) as [Hw|Hw].
  - right. exists f. split; [by left|]. split; [done|]. unfold of_wave. rewrite filter_cons_True by done.
    f_equal. apply filter_none, Forall_forall. intros g Hg Hgw. apply Hf. rewrite Hw, <-Hgw. by apply list_elem_of_fmap_2.
  - unfold of_wave in *. rewrite filter_cons_False by done. destruct (IH Hnd) as [?|(g & Hg & ?)]; [by left|].
    right. exists g. split; [by right|done].
Qed.

Lemma fitted_bound p bs w :
  fitted p bs → Forall (λ u, NoDup (wave <$> u.2)) bs →
  (total rows (of_wave w (fires_of bs)) ≤ max_wave_rows p)%N ∧
  (total tokens (of_wave w (fires_of bs)) ≤ max_wave_tokens p)%N.
Proof.
  induction 1 as [|bs u Hfit IH Hroom]; intros Hall; [cbn; lia|].
  apply Forall_app in Hall as [Hall [Hu _]%Forall_cons]. specialize (IH Hall).
  rewrite fires_of_snoc, of_wave_app, !total_app.
  destruct (of_wave_spread w u.2 Hu) as [->|(f & Hf & <- & ->)]; [cbn; lia|].
  unfold room in Hroom. rewrite Forall_forall in Hroom. specialize (Hroom f Hf). cbn. lia.
Qed.

Lemma fitted_lanes p ls bs : fitted (set_lanes p ls) bs → fitted p bs.
Proof. by induction 1 as [|bs u Hfit IH Hroom]; constructor. Qed.

Lemma wasted_next l l' f fs :
  wasted l l' → frames l' = f :: fs → live f ≠ [] → next_frame l = Some f.
Proof.
  intros (_ & es & He & Hes) Hfs Hf. unfold next_frame. rewrite He, filter_app, Hfs.
  rewrite filter_none; [by rewrite app_nil_l, filter_cons_True|].
  eapply Forall_impl; [exact Hes|]. cbn. tauto.
Qed.

Lemma live_fires_live k f lv : live_fires k (fires f) = Some lv → lv ≠ [] → live f ≠ [].
Proof.
  intros [Hids _]%live_fires_inv Hne Hl. unfold live in Hl. rewrite Hl in Hids. by apply fmap_nil_inv in Hids.
Qed.

(** Each lane that was placed goes with its next frame, which was complete. *)
Lemma placed_next sched p mid ls1 placed ls pk id lv :
  let p1 := set_lanes p ls1 in
  let order := order_of sched p1 mid in
  lanewise (λ _, wasted) (lanes p) ls1 → packs p1 ls1 (form_units p1 order order ∅) placed ls pk →
  (id, lv) ∈ placed →
  ∃ l f, lanes p !! id = Some l ∧ next_frame l = Some f ∧ f ∈ frames l ∧ is_complete f = true ∧
    live_fires (k p) (fires f) = Some lv.
Proof.
  intros p1 order Hw Hpa Hid. pose proof Hid as Hin%elem_of_fst%(packs_from _ _ _ _ _ _ _ Hpa).
  apply order_units_in in Hin as (l1 & Hl1 & Hready). cbn in Hl1.
  pose proof (pa_lanes _ _ _ _ _ _ Hpa id) as Hp. pose proof (Hw id) as Hwid. rewrite Hl1 in Hp, Hwid.
  inversion Hwid as [l ? Hwl Hl|]; subst. inversion Hp as [? l' [Hpop _]|]; subst.
  destruct (Hpop lv Hid) as (_ & Hne & f & Hf & Hlive). exists l, f. cbn in Hlive.
  unfold ready, front_complete in Hready. rewrite Hf in Hready. apply andb_true_iff in Hready as [Hc _].
  split; [done|]. split; [by eapply wasted_next; [..|eapply live_fires_live]|]. split; [|done].
  destruct Hwl as (_ & es & -> & _). rewrite Hf. set_solver.
Qed.

Lemma next_fires_placed p (ms : gset LaneId) placed :
  ms = list_to_set placed.*1 → NoDup placed.*1 →
  (∀ id lv, (id, lv) ∈ placed → next_live p id = Some lv) →
  next_fires p ms ≡ₚ fires_of placed.
Proof.
  intros -> Hnd Hlv. unfold next_fires. rewrite elements_list_to_set by done. clear Hnd.
  induction placed as [|[id lv] placed IH]; [done|]. cbn. fold (fires_of placed).
  rewrite (Hlv id lv) by by left. cbn. f_equiv. apply IH. intros. apply Hlv. by right.
Qed.

Lemma of_wave_perm w fs fs' : fs ≡ₚ fs' → of_wave w fs ≡ₚ of_wave w fs'.
Proof. intros Hp. unfold of_wave. by rewrite Hp. Qed.
(** What the bag of a seal's lanes is related by, between the lanes it found and those it left. *)
Lemma seal_result_taken sched p mid plan p' :
  seal_result sched p mid (Some plan, p') →
  ∃ ls1 placed ls pk, let p1 := set_lanes p ls1 in let order := order_of sched p1 mid in
    lanewise (λ _, wasted) (lanes p) ls1 ∧ packs p1 ls1 (form_units p1 order order ∅) placed ls pk ∧
    placed ≠ [] ∧ plan = Dispatch [] ∧ p' = seal_in (set_lanes p ls) mid pk.
Proof. intros Hres. inversion Hres; subst. eauto 10. Qed.

(** The frame a seal leaves, by the fires it placed. *)
Lemma sealed_fires sched p plan p' :
  k p ≠ 0 → seal sched p = Some (Some plan, p') →
  ∃ sf placed, sealed p' = sealed p ++ [sf] ∧ placed ≠ [] ∧ members sf = list_to_set placed.*1 ∧
    waves sf = wave_ids (k p) (fires_of placed) ∧ next_fires p (members sf) ≡ₚ fires_of placed ∧ fitted p placed ∧
    ∀ id lv, (id, lv) ∈ placed → ∃ l f, lanes p !! id = Some l ∧ next_frame l = Some f ∧ f ∈ frames l ∧
      is_complete f = true ∧ live_fires (k p) (fires f) = Some lv.
Proof.
  intros Hk Hseal. destruct (seal_spec sched p Hk) as (r & Hr & Hres). rewrite Hr in Hseal. injection Hseal as ->.
  apply seal_result_taken in Hres as (ls1 & placed & ls & pk & Hw & Hpa & Hne & _ & ->).
  pose proof (λ id lv, placed_next sched p _ ls1 placed ls pk id lv Hw Hpa) as Hnext.
  pose proof (pa_packing _ _ _ _ _ _ Hpa) as (Hwaves & _ & _ & _ & Hms).
  exists (mkSealed (pk_waves pk) (pk_members pk)), placed. split_and!; [by destruct (boundary_open p)|done..| | |done];
    [|by apply (fitted_lanes p ls1), (pa_fitted _ _ _ _ _ _ Hpa)].
  apply next_fires_placed; [done|apply Hpa|]. intros id lv Hid. destruct (Hnext id lv Hid) as (l & f & Hl & Hf & _ & _ & Hlv).
  unfold next_live. rewrite Hl. cbn. rewrite Hf. done.
Qed.

Lemma wave_of k fs w ids : wave_ids k fs !! w = Some ids → w < k ∧ ids = fire_id <$> of_wave w fs.
Proof.
  unfold wave_ids. intros (i & -> & Hi)%list_lookup_fmap_Some. apply lookup_seq in Hi as [-> Hi]. done.
Qed.

(** No wave of the frame is over the batch, when no frame has two fires in a wave. *)
Lemma sealed_bound p placed fs w :
  fs ≡ₚ fires_of placed → fitted p placed → (∀ id l f, lanes p !! id = Some l → f ∈ frames l → spread (k p) f) →
  (∀ id lv, (id, lv) ∈ placed → ∃ l f, lanes p !! id = Some l ∧ next_frame l = Some f ∧ f ∈ frames l ∧
    is_complete f = true ∧ live_fires (k p) (fires f) = Some lv) →
  (total rows (of_wave w fs) ≤ max_wave_rows p)%N ∧ (total tokens (of_wave w fs) ≤ max_wave_tokens p)%N.
Proof.
  intros Hfs Hfit Hspread Hnext. rewrite !(total_perm _ _ _ (of_wave_perm w _ _ Hfs)). apply fitted_bound; [done|].
  apply Forall_forall. intros [id lv] Hid. destruct (Hnext id lv Hid) as (l & f & Hl & _ & Hf & _ & Hlv).
  by eapply Hspread.
Qed.

(** C22. A seal that takes anything takes, of each lane it takes, the next frame that has a
    fire, and that frame whole and complete: each of its fires is in the wave of its slot.
    When no frame has two fires in a wave, no wave has more rows or more tokens than the
    batch the engine takes. *)
Theorem sealed_waves_fit sched p plan p' :
  k p ≠ 0 → (∀ id l f, lanes p !! id = Some l → f ∈ frames l → spread (k p) f) →
  seal sched p = Some (Some plan, p') →
  ∃ sf, sealed p' = sealed p ++ [sf] ∧ length (waves sf) = k p ∧ members sf ≠ ∅ ∧
    (∀ id, id ∈ members sf → ∃ l f, lanes p !! id = Some l ∧ next_frame l = Some f ∧ is_complete f = true) ∧
    ∀ w ids, waves sf !! w = Some ids →
      ids ≡ₚ fire_id <$> of_wave w (next_fires p (members sf)) ∧
      (total rows (of_wave w (next_fires p (members sf))) ≤ max_wave_rows p)%N ∧
      (total tokens (of_wave w (next_fires p (members sf))) ≤ max_wave_tokens p)%N.
Proof.
  intros Hk Hspread Hseal.
  destruct (sealed_fires sched p plan p' Hk Hseal) as (sf & placed & Hs & Hne & Hms & Hw & Hfires & Hfit & Hnext).
  exists sf. split; [done|]. split; [|split; [|split]].
  - rewrite Hw. unfold wave_ids. by rewrite length_fmap, length_seq.
  - rewrite Hms. destruct placed as [|[id lv] placed]; [done|]. cbn. set_solver.
  - intros id. rewrite Hms, elem_of_list_to_set. intros ([i lv] & -> & Hi)%list_elem_of_fmap.
    destruct (Hnext i lv Hi) as (l & f & ? & ? & _ & ? & _). eauto.
  - intros w ids. rewrite Hw. intros [_ ->]%wave_of.
    rewrite (of_wave_perm w _ _ Hfires) at 1. split; [done|]. by eapply sealed_bound.
Qed.

(** C21. A group goes together: when a lane of a group is taken, no member of the group is
    still to come, and every lane of the group that is waited for, or that was given up and
    may come back, is taken as well. *)
Theorem groups_sealed_whole sched p plan p' :
  k p ≠ 0 → seal sched p = Some (Some plan, p') →
  ∃ sf, sealed p' = sealed p ++ [sf] ∧ ∀ id key, id ∈ members sf → key_of p id = Some key →
    cohorts p !! key = None ∧
    ∀ id' l, lanes p !! id' = Some l → group_key l = Some key → awaited l || leashed l = true → id' ∈ members sf.
Proof.
  intros Hk Hseal. destruct (seal_spec sched p Hk) as (r & Hr & Hres). rewrite Hr in Hseal. injection Hseal as ->.
  apply seal_result_taken in Hres as (ls1 & placed & ls & pk & Hw & Hpa & Hne & _ & ->).
  set (p1 := set_lanes p ls1) in *. set (order := order_of sched p1 (boundary_open p)) in *.
  pose proof (pa_packing _ _ _ _ _ _ Hpa) as (_ & _ & _ & _ & Hms).
  exists (mkSealed (pk_waves pk) (pk_members pk)). split; [by destruct (boundary_open p)|]. cbn. rewrite Hms.
  intros id key Hid%elem_of_list_to_set Hkey. pose proof (packs_from _ _ _ _ _ _ _ Hpa Hid) as Hin.
  destruct (order_units_in _ _ _ _ Hin) as (l1 & Hl1 & Hready). cbn in Hl1.
  assert (∀ i l, lanes p !! i = Some l → ∃ l1, ls1 !! i = Some l1 ∧ group_key l1 = group_key l ∧
    awaited l1 = awaited l ∧ leashed l1 = leashed l) as Hsame.
  { intros i l Hi. specialize (Hw i). rewrite Hi in Hw. inversion Hw as [? l1' [Heq _] |]; subst.
    exists l1'. split; [done|]. rewrite Heq. by destruct l. }
  unfold key_of in Hkey. destruct (lanes p !! id) as [l|] eqn:Hl; [|done]. cbn in Hkey.
  destruct (Hsame id l Hl) as (? & Hl1' & Hk1 & _). simplify_eq. rewrite Hkey in Hk1.
  unfold ready in Hready. apply andb_true_iff in Hready as [_ Hshort%negb_true_iff].
  pose proof Hshort as Hshort'. unfold group_short in Hshort'. rewrite Hk1 in Hshort'.
  apply orb_false_iff in Hshort' as [Hco%bool_decide_eq_false Howes]. split; [by apply eq_None_not_Some|].
  intros id' l' Hl' Hk' Haw. destruct (Hsame id' l' Hl') as (l1' & Hl1'' & Hkl & Haw' & Hle').
  assert (ready p1 l1' = true) as Hready'.
  { unfold ready. rewrite (group_short_same p1 l1' l1) by congruence. rewrite Hshort, andb_true_r.
    pose proof (existsb_lanes_false _ _ _ _ Howes Hl1'') as Ho. cbn in Ho. unfold owes_its_group in Ho.
    rewrite Haw', Hle', Haw, bool_decide_eq_true_2 in Ho by congruence. cbn in Ho. by destruct (front_complete l1'). }
  rewrite elem_of_list_to_set. apply elem_of_concat in Hin as (u & Hu & Hidu).
  assert (id' ∈ u) as Hidu'.
  { assert (unit_of p1 order u) as Huo.
    { eapply Forall_forall, Hu. apply form_units_spec; [apply NoDup_order|done|]. by intros ???. }
    destruct Huo as [(i & -> & Hi)|(key' & ->)].
    - apply list_elem_of_singleton in Hidu as ->. unfold key_of in Hi. cbn in Hi. rewrite Hl1 in Hi. cbn in Hi. congruence.
    - apply list_elem_of_filter in Hidu as [Hkk _]. apply list_elem_of_filter. split; [|by apply elem_of_order; eauto].
      unfold key_of in Hkk |- *. cbn in Hkk |- *. rewrite Hl1 in Hkk. rewrite Hl1''. cbn in Hkk |- *. congruence. }
  pose proof (pa_units _ _ _ _ _ _ Hpa) as Hunits. rewrite Forall_forall in Hunits.
  destruct (Hunits u Hu) as [Hall|Hall]; rewrite Forall_forall in Hall; [by apply Hall|].
  by destruct (Hall id Hidu).
Qed.

(** C23. A call of [plan_dispatch] returns and does not panic, whatever the lanes hold: each
    turn of its loop that gives no answer takes a frame. Its answer is one the caller can
    act on: fires given out, at least one and all still queued; a time to wait that is not
    zero; or processes to end, at least one. *)
Theorem plan_dispatch_returns p sched q blocked executing now :
  k p ≠ 0 → ∃ plan p', plan_dispatch p sched q blocked executing now = Some (plan, p') ∧ plan_sound q plan ∧
    count_frames (lanes p') ≤ count_frames (lanes p).
Proof.
  intros Hk. destruct (plan_loop_ok (S (count_frames (lanes p))) sched q blocked executing now p Hk)
    as (plan & p' & Heq & Hs & He); [lia|].
  exists plan, p'. split; [exact Heq|]. split; [done|]. by apply He.
Qed.

(** ** Witnesses *)

(** Two lanes of one group, of frames of two waves; at most four rows to a wave. *)
Definition demo : FramePolicy :=
  let p := new 2 4 100 0 0 in
  let p := on_fire_enqueued p (mkStamp 1 0 0 2) (Some 7%N) 10 5 2 (Some (3, 2)%N) 0 in
  let p := on_fire_enqueued p (mkStamp 1 0 1 2) (Some 7%N) 11 5 1 (Some (3, 2)%N) 0 in
  on_fire_enqueued p (mkStamp 2 0 0 1) (Some 7%N) 20 5 1 (Some (3, 2)%N) 0.
Definition demo_after : FramePolicy := match seal None demo with Some (_, p) => p | None => demo end.
Definition demo_sealed : SealedFrame := mkSealed [[10; 20]%N; [11]%N] {[1%N; 2%N]}.
Lemma demo_seal : seal None demo = Some (Some (Dispatch []), demo_after).
Proof. by vm_compute. Qed.
Lemma demo_sealed_one sf : sealed demo_after = sealed demo ++ [sf] → sf = demo_sealed.
Proof. vm_compute. by intros [= <-]. Qed.
Lemma demo_spread id l f : lanes demo !! id = Some l → f ∈ frames l → spread (k demo) f.
Proof.
  assert (Forall (λ x : N * LaneState, Forall (λ f, NoDup (wave <$> default [] (live_fires (k demo) (fires f))))
    (frames x.2)) (map_to_list (lanes demo))) as Hall by (apply (bool_decide_unpack _); vm_compute; exact I).
  intros Hl Hf lv Hlv. apply elem_of_map_to_list in Hl. rewrite Forall_forall in Hall. specialize (Hall _ Hl).
  rewrite Forall_forall in Hall. specialize (Hall f Hf). by rewrite Hlv in Hall.
Qed.

(** The wave of slot 0 has the first fire of either lane, three rows of the four. *)
Lemma sealed_waves_fit_witness :
  [10%N; 20%N] ≡ₚ fire_id <$> of_wave 0 (next_fires demo (members demo_sealed)) ∧
  (total rows (of_wave 0 (next_fires demo (members demo_sealed))) ≤ 4)%N.
Proof.
  destruct (sealed_waves_fit None demo (Dispatch []) demo_after ltac:(done) demo_spread demo_seal)
    as (sf & Hs & _ & _ & _ & Hw).
  apply demo_sealed_one in Hs as ->. destruct (Hw 0 [10%N; 20%N] eq_refl) as (Hids & Hrows & _).
  exact (conj Hids Hrows).
Defined.

(** Either lane of the group is waited for, and taken. *)
Lemma groups_sealed_whole_witness : key_of demo 1 = Some (7%N, 3%N) ∧ 2%N ∈ members demo_sealed.
Proof.
  split; [by vm_compute|].
  destruct (groups_sealed_whole None demo (Dispatch []) demo_after ltac:(done) demo_seal) as (sf & Hs & Hg).
  apply demo_sealed_one in Hs as ->.
  destruct (Hg 1%N (7%N, 3%N)) as [_ Hall]; [by apply (bool_decide_unpack _), I|by vm_compute|].
  destruct (lanes demo !! 2%N) as [l|] eqn:Hl; [|by vm_compute in Hl].
  apply (Hall 2%N l Hl); vm_compute in Hl; injection Hl as <-; by vm_compute.
Defined.

Lemma plan_dispatch_returns_witness :
  ∃ plan p', plan_dispatch demo None (from_iter [10; 11; 20]%N) ∅ false 5 = Some (plan, p') ∧
    plan_sound (from_iter [10; 11; 20]%N) plan ∧ count_frames (lanes p') ≤ count_frames (lanes demo).
Proof. exact (plan_dispatch_returns demo None (from_iter [10; 11; 20]%N) ∅ false 5 ltac:(done)). Defined.
End FrameThm.

Module FrameGate.

(** ** The gate, lane by lane *)

(** The instant a lane's silence is counted from, or its debt. *)
Definition counts_from (p : FramePolicy) (id : LaneId) (l : LaneState) (from : N) : Prop :=
  clock_from l = Some from ∨ in_flight_since p !! id = Some from.

Lemma gate_lane_passes p now id l :
  awaited l = true → front_complete l = false → (gate_lane p now id l).1.2 = false → (gate_lane p now id l).2 = None →
  ∃ from, counts_from p id l from ∧ (submit_deadline p ≤ now - from)%N.
Proof.
  intros Ha Hf. unfold gate_lane, gate_verdict. rewrite Ha, Hf. cbn [negb orb].
  rewrite bool_decide_eq_true_2 by done. cbn [negb andb orb].
  set (owes := bool_decide (id ∈ in_flight_lanes p) || _).
  destruct owes eqn:Ho; cbn [negb andb].
  - destruct (in_flight_since p !! id) as [from|] eqn:Hfrom; [|done].
    destruct (bool_decide (silence_timeout p * 2 ≤ now - from)%N); [|done]. cbn.
    case_decide; [done|]. case_decide as Hd; [|done]. exists from. split; [by right|tauto].
  - cbn. destruct (clock_from l) as [from|] eqn:Hfrom; [|done].
    case_decide; [done|]. case_decide as Hd; [|done]. exists from. split; [by left|tauto].
Qed.

Lemma elem_of_expired p now pid :
  pid ∈ expired p now ↔ ∃ id l, lanes p !! id = Some l ∧ (gate_lane p now id l).2 = Some pid.
Proof.
  unfold expired. rewrite merge_sort_Permutation, elem_of_elements, elem_of_list_to_set, list_elem_of_omap. split.
  - intros ([id l] & Hin & Hg). rewrite in_order_perm in Hin. apply elem_of_map_to_list in Hin. eauto.
  - intros (id & l & Hl & Hg). exists (id, l). by rewrite in_order_perm, elem_of_map_to_list.
Qed.

Lemma not_missing p now id l :
  missing p now = 0 → lanes p !! id = Some l → (gate_lane p now id l).1.2 = false.
Proof.
  unfold missing. intros Hm%length_zero_iff_nil Hl. apply not_true_is_false. intros Hg.
  assert ((id, l) ∈ filter (λ l : N * LaneState, (gate_lane p now l.1 l.2).1.2 = true) (map_to_list (lanes p))) as Hin.
  { apply list_elem_of_filter. by rewrite elem_of_map_to_list. }
  rewrite Hm in Hin. by apply not_elem_of_nil in Hin.
Qed.

(** What the answer of a closed boundary says of its gate. *)
Lemma after_gate_inv sched executing now p plan p' :
  k p ≠ 0 → after_gate sched executing now p = Some (plan, p') →
  match plan with
  | Some (Dispatch _) => False
  | Some (Terminate ds) => ds = (λ pid, (pid, Abandoned)) <$> expired p now
  | None => expired p now = [] ∧ missing p now = 0 ∧
      seal_result sched (set_strict_watchdog_deadline (set_lanes p (gate_lanes p now)) None)
        (boundary_open (set_lanes p (gate_lanes p now))) (Some (Dispatch []), p')
  | _ => True
  end.
Proof.
  intros Hk. unfold after_gate. set (p1 := set_lanes p (gate_lanes p now)).
  destruct (decide (length (expired p now) ≠ 0)) as [He|He]; [by intros [= <- <-]|].
  assert (expired p now = []) as He' by (apply length_zero_iff_nil; lia).
  case_decide as Hm; [destruct executing; by intros [= <- <-]|].
  set (p2 := set_strict_watchdog_deadline p1 None).
  destruct (seal_spec sched p2) as ([pl p3] & -> & Hres); [done|]. cbn.
  pose proof Hres as [_ [->|[-> _]]]%(effect_seal (λ _, True)).
  - destruct (group_assembling p3); by intros [= <- <-].
  - intros [= <- <-]. split; [done|]. split; [lia|done].
Qed.

(** What a lane is waited for by does not change. *)
Definition waits_alike (l l' : LaneState) : Prop :=
  owner l' = owner l ∧ awaited l' = awaited l ∧ leashed l' = leashed l ∧ clock_from l' = clock_from l.

Lemma set_frames_alike l fs : waits_alike l (set_frames l fs).
Proof. by destruct l. Qed.

Lemma waits_alike_trans l1 l2 l3 : waits_alike l1 l2 → waits_alike l2 l3 → waits_alike l1 l3.
Proof. unfold waits_alike. intros (?&?&?&?) (?&?&?&?). split_and!; congruence. Qed.

Lemma seal_in_alike p mid pk id l' :
  lanes (seal_in p mid pk) !! id = Some l' → ∃ l, lanes p !! id = Some l ∧ waits_alike l l'.
Proof.
  unfold seal_in. intros [Hl' _]%map_lookup_filter_Some. unfold mark_fired in Hl'. cbn in Hl'.
  rewrite map_lookup_imap in Hl'. destruct mid; cbn in Hl'; [|rewrite lookup_fmap in Hl'];
    destruct (lanes p !! id) as [l|]; cbn in Hl'; try done; exists l; (split; [done|]);
    case_decide; injection Hl' as <-; by destruct l.
Qed.

(** Sealing leaves what lanes are waited for by, what is owed, and the groups that gather. *)
Lemma seal_alike sched p mid plan p' :
  seal_result sched p mid (plan, p') →
  silence_timeout p' = silence_timeout p ∧ in_flight_since p' = in_flight_since p ∧ cohorts p' = cohorts p ∧
  ∀ id l', lanes p' !! id = Some l' → ∃ l, lanes p !! id = Some l ∧ waits_alike l l'.
Proof.
  assert (∀ ls, lanewise (λ _, wasted) (lanes p) ls →
    ∀ id l', ls !! id = Some l' → ∃ l, lanes p !! id = Some l ∧ waits_alike l l') as Hwasted.
  { intros ls Hw id l' Hl'. specialize (Hw id). rewrite Hl' in Hw. inversion Hw as [l ? [Heq _]|]; subst. exists l.
    split; [done|]. rewrite Heq. apply set_frames_alike. }
  intros Hres. inversion Hres as [ls Hw|ls Hw|ls1 placed ls pk p1 order Hw Hpa Hne]; subst.
  - split_and!; [done..|]. by apply Hwasted.
  - split_and!; [done..|]. cbn. intros id l' [Hl' _]%map_lookup_filter_Some. by apply (Hwasted ls Hw).
  - split_and!; [by destruct mid..|]. intros id l' (l & Hl & Ha)%seal_in_alike. cbn in Hl.
    pose proof (pa_lanes _ _ _ _ _ _ Hpa id) as Hp. rewrite Hl in Hp. inversion Hp as [l1 ? [H1 H2] Hl1|]; subst.
    destruct (Hwasted ls1 Hw id l1) as (l0 & Hl0 & Ha0); [done|]. exists l0. split; [done|].
    eapply waits_alike_trans; [exact Ha0|]. eapply waits_alike_trans; [|exact Ha].
    destruct (decide (id ∈ placed.*1)) as [([j lv] & -> & Hi)%list_elem_of_fmap|Hi].
    + destruct (H1 lv Hi) as (-> & _). apply set_frames_alike.
    + destruct (H2 Hi) as (-> & _). apply set_frames_alike.
Qed.

(** ** What the gate promises *)

(** C24. The frames of all go together: when nothing is sealed and the boundary is closed,
    fires are given out only if every lane that is waited for, once its park is taken, has
    a complete frame at its front, or was waited for as long as the submit deadline. *)
Theorem dispatch_waits_for_all p sched q blocked executing now ws p' :
  k p ≠ 0 → sealed p = [] → boundary_open p = false →
  plan_dispatch p sched q blocked executing now = Some (Dispatch ws, p') →
  ∀ id l, lanes (retire_parks p) !! id = Some l → awaited l = true →
    front_complete l = true ∨ ∃ from, counts_from p id l from ∧ (submit_deadline p ≤ now - from)%N.
Proof.
  intros Hk Hs Hb Hplan id l Hl Ha. destruct (front_complete l) eqn:Hf; [by left|right].
  unfold plan_dispatch in Hplan. cbn [plan_loop] in Hplan.
  assert (boundary_open (clean_up q p) = false) as Hb1.
  { rewrite boundary_open_spec in Hb |- *. intros i l1. unfold clean_up, retire_parks, each_lane. cbn.
    rewrite lookup_fmap. intros (l0 & Hl0 & ->)%fmap_Some.
    destruct (retire_fronts_spec l0 (frames l0)) as (_ & _ & _ & -> & Haw & _). intros Haw'. eauto. }
  assert (sealed (clean_up q p) = []) as Hs1 by by cbn; rewrite Hs.
  unfold plan_turn, dispatch_front in Hplan. rewrite Hs1, Hb1 in Hplan. unfold closed_turn in Hplan.
  case_decide; [done|].
  assert (lanes (cohort_verdict (clean_up q p) now).2 = lanes (clean_up q p)) as Hl1 by done.
  assert (boundary_open (cohort_verdict (clean_up q p) now).2 = false) as Hb2 by (unfold boundary_open; by rewrite Hl1).
  assert (k (cohort_verdict (clean_up q p) now).2 = k p) as Hk1 by done.
  assert (in_flight_since (cohort_verdict (clean_up q p) now).2 = in_flight_since p) as Hi1 by done.
  assert (submit_deadline (cohort_verdict (clean_up q p) now).2 = submit_deadline p) as Hd1 by done.
  destruct (cohort_verdict (clean_up q p) now) as [doomed p1]. cbn in Hl1, Hb2, Hk1, Hi1, Hd1.
  destruct (decide (length doomed ≠ 0)); [done|]. rewrite Hb2 in Hplan.
  destruct (after_gate sched executing now p1) as [[plan p2]|] eqn:Hag; [|done]. cbn in Hplan.
  apply after_gate_inv in Hag; [|congruence]. destruct plan as [[| | |]|]; try done.
  destruct Hag as (He & Hm & _). assert (lanes p1 !! id = Some l) as Hl2 by by rewrite Hl1.
  destruct (gate_lane_passes p1 now id l Ha Hf) as (from & Hfrom & Hdue).
  - by apply not_missing.
  - destruct (gate_lane p1 now id l).2 as [pid|] eqn:Hg; [|done]. exfalso.
    assert (pid ∈ expired p1 now) as Hin by (apply elem_of_expired; eauto).
    rewrite He in Hin. by apply not_elem_of_nil in Hin.
  - exists from. unfold counts_from in Hfrom |- *. rewrite <-Hi1, <-Hd1. done.
Qed.

(** ** Witnesses *)

(** Lane 1 has a frame, lane 2 of another process the first of two fires of its frame. *)
Definition waiting : FramePolicy :=
  let p := new 2 8 100 (micros 50) (micros 200) in
  let p := on_fire_enqueued p (mkStamp 1 0 0 1) (Some 7%N) 10 5 2 None 0 in
  on_fire_enqueued p (mkStamp 2 0 0 2) (Some 8%N) 20 5 1 None 0.
Definition pending : QueuedFireIds := from_iter [10; 20]%N.
Definition after_plan (p : FramePolicy) (now : N) : FramePolicy :=
  match plan_dispatch p None pending ∅ false now with Some (_, p) => p | None => p end.
(** Planned at once: the clock of lane 2 runs from then on. *)
Definition waited : FramePolicy := after_plan waiting 0.


(** After the submit deadline lane 1 goes without lane 2. *)
Lemma dispatch_waits_for_all_witness :
  ∃ l, lanes (retire_parks waited) !! 2%N = Some l ∧ awaited l = true ∧
    (front_complete l = true ∨ ∃ from, counts_from waited 2 l from ∧ (submit_deadline waited ≤ micros 50 - from)%N).
Proof.
  destruct (lanes (retire_parks waited) !! 2%N) as [l|] eqn:Hl; [|by vm_compute in Hl].
  assert (awaited l = true) as Ha by (vm_compute in Hl; by injection Hl as <-).
  exists l. split; [done|]. split; [done|].
  exact (dispatch_waits_for_all waited None pending ∅ false (micros 50) [[10%N]; []] (after_plan waited (micros 50))
    ltac:(done) ltac:(by vm_compute) ltac:(by vm_compute) ltac:(by vm_compute) 2%N l Hl Ha).
Defined.
End FrameGate.
