(* ===== verification/FrameHist.v ===== *)
(** The frame policy over time: any sequence of the calls its owner makes of it. Every fire
    that was enqueued has been given out, once, or is still held, or was let go by a call
    that had a reason to: its lane or its process left, or a plan was told that it is no
    longer queued. And whoever is ended was silent, owed a retirement, or was short of a
    group, for as long as that takes, as the history shows. *)
From stdpp Require Import gmap sorting.
From S2P Require Import Prelude Frame FrameSeal FrameThm.
Import Frame FrameSeal FrameTurn.

Module FrameHist.

(** ** Histories *)

(** The calls that change the policy. *)
Inductive Event : Type :=
  | Enqueued (stamp : FrameStamp) (o : option ProcessId) (id toks rws : N) (cohort : option (N * N)) (now : N)
  | Rejected (stamp : FrameStamp) (o : option ProcessId)
  | Truncated (lane : LaneId) (q submitted : N)
  | LaneParked (lane : LaneId) (q : N)
  | Retired (ls : list LaneId)
  | BindEnqueued (o : option ProcessId)
  | BindCompleted (o : option ProcessId)
  | SlotsPreloaded (slots : N)
  | SlotReleased (pid : ProcessId)
  | SlotConsumed (pid : ProcessId)
  | AdmissionQueued (pid : ProcessId)
  | AdmissionDequeued (pid : ProcessId)
  | SlottedTerminate (pid : ProcessId)
  | LaneLeft (lane : LaneId) (o : option ProcessId) (purge_queued : bool)
  | ProcessLeft (o : ProcessId)
  | Suspended (o : ProcessId)
  | Resumed (o : ProcessId)
  | Planned (sched : Schedule) (q : QueuedFireIds) (blocked : gset LaneId) (executing : bool) (now : N).

(** A call, and the fires it gives out. *)
Definition step (p : FramePolicy) (e : Event) : option (FramePolicy * list N) :=
  match e with
  | Enqueued stamp o id toks rws cohort now => Some (on_fire_enqueued p stamp o id toks rws cohort now, [])
  | Rejected stamp o => Some (on_fire_rejected_at_admission p stamp o, [])
  | Truncated lane q submitted => Some (on_frame_truncated p lane q submitted, [])
  | LaneParked lane q => Some (on_lane_park p lane q, [])
  | Retired ls => Some (on_frame_retired p ls, [])
  | BindEnqueued o => Some (on_bind_enqueued p o, [])
  | BindCompleted o => Some (on_bind_completed p o, [])
  | SlotsPreloaded slots => Some (preload_free_slots p slots, [])
  | SlotReleased pid => Some (on_execution_slot_released p pid, [])
  | SlotConsumed pid => Some (on_execution_slot_consumed p pid, [])
  | AdmissionQueued pid => Some (on_admission_queued p pid, [])
  | AdmissionDequeued pid => Some (on_admission_dequeued p pid, [])
  | SlottedTerminate pid => Some (on_slotted_terminate p pid, [])
  | LaneLeft lane o purge => Some (on_lane_leave p lane o purge, [])
  | ProcessLeft o => Some (on_process_leave p o, [])
  | Suspended o => Some (on_process_suspend p o, [])
  | Resumed o => Some (on_process_resume p o, [])
  | Planned sched q blocked executing now =>
      '(plan, p') ← plan_dispatch p sched q blocked executing now; Some (p', plan_out (Some plan))
  end.
Fixpoint run (p : FramePolicy) (es : list Event) : option (FramePolicy * list N) :=
  match es with
  | [] => Some (p, [])
  | e :: es => '(p, out) ← step p e; '(p, out') ← run p es; Some (p, out ++ out')
  end.

(** The stamp, the owner and the fire of an arrival. *)
Definition arrival (e : Event) : option (FrameStamp * option ProcessId * option N) :=
  match e with
  | Enqueued stamp o id _ _ _ _ => Some (stamp, o, Some id)
  | Rejected stamp o => Some (stamp, o, None)
  | _ => None
  end.
Definition enqueued (e : Event) : list N :=
  match e with Enqueued _ _ id _ _ _ _ => [id] | _ => [] end.

(** A fire came on the lane; the lane is the process'. *)
Definition came_on (es : list Event) (lane : LaneId) (id : N) : Prop :=
  ∃ e stamp o, e ∈ es ∧ arrival e = Some (stamp, o, Some id) ∧ s_lane stamp = lane.
Definition owned_by (es : list Event) (lane : LaneId) (o : ProcessId) : Prop :=
  ∃ e stamp id, e ∈ es ∧ arrival e = Some (stamp, Some o, id) ∧ s_lane stamp = lane.

(** Why a call, after these, lets a fire go without giving it out: it is a plan, and by what
    it is told the fire is no longer queued; the fire's lane leaves with all it has queued;
    the process of the fire's lane leaves. *)
Definition loses (past : list Event) (e : Event) (id : N) : Prop :=
  match e with
  | Planned _ q _ _ _ => contains q id = false
  | LaneLeft lane _ purge => purge = true ∧ came_on past lane id
  | ProcessLeft o => ∃ lane, came_on past lane id ∧ owned_by past lane o
  | _ => False
  end.

(** A park takes a sequence number of its lane that no fire has. *)
Definition parks_apart (es : list Event) : Prop :=
  ∀ e stamp o id, e ∈ es → arrival e = Some (stamp, o, id) → LaneParked (s_lane stamp) (s_seq stamp) ∉ es.

(** ** Calls that bring no fire *)

Lemma had_refl fs : had fs fs.
Proof. by apply had_sub. Qed.

(** A call that changes one lane, and no fire of it. *)
Lemma effect_on_lane G p id f :
  (∀ l, owner (f l) = owner l ∧ length (frames (f l)) = length (frames l) ∧ had (frames l) (frames (f l)) ∧
    lane_live (f l) = lane_live l) → effect G p [] (on_lane p id f).
Proof.
  intros Hf. assert (∀ i, (lanes (on_lane p id f)) !! i = (if decide (i = id) then f else λ l, l) <$> lanes p !! i) as Hl.
  { intros i. unfold on_lane. cbn. case_decide as Hi; [subst; by rewrite lookup_alter_eq|].
    rewrite lookup_alter_ne by done. by destruct (lanes p !! i). }
  apply effect_lanes; [done|done|..].
  - intros i l'. rewrite Hl. intros (l & -> & ->)%fmap_Some. exists l. split; [done|].
    case_decide; [split; apply Hf|]. split; [done|apply had_refl].
  - intros i. rewrite Hl. destruct (lanes p !! i) as [l|]; cbn; [|done]. case_decide; [|done].
    by destruct (Hf l) as (_ & -> & _).
  - intros _ i. rewrite Hl. destruct (lanes p !! i) as [l|]; cbn; [|done]. case_decide; [|done].
    by destruct (Hf l) as (_ & _ & _ & ->).
Qed.

Lemma effect_on_lane_frames G p id f :
  (∀ l, owner (f l) = owner l ∧ frames (f l) = frames l) → effect G p [] (on_lane p id f).
Proof.
  intros Hf. apply effect_on_lane. intros l. destruct (Hf l) as [Ho Hfs]. unfold lane_live. rewrite Hfs.
  split_and!; [done..|apply had_refl|done].
Qed.

(** Frames that keep their fires. *)
Lemma had_fmap (g : PendingFrame → PendingFrame) fs : (∀ f, same_fires (g f) f) → had fs (g <$> fs).
Proof. intros Hg f (f0 & -> & Hf)%list_elem_of_fmap. exists f0. auto. Qed.

Lemma live_fmap (g : PendingFrame → PendingFrame) fs : (∀ f, same_fires (g f) f) → (g <$> fs) ≫= live = fs ≫= live.
Proof.
  intros Hg. induction fs as [|f fs IH]; [done|]. rewrite fmap_cons, !bind_cons, IH.
  unfold live at 1 3. by destruct (Hg f) as (_ & _ & ->).
Qed.

Lemma insert_same_frame i (f g : PendingFrame) fs :
  fs !! i = Some f → same_fires g f →
  had fs (<[i := g]> fs) ∧ (<[i := g]> fs) ≫= live = fs ≫= live.
Proof.
  intros Hi Hg. split.
  - intros f' Hf'. apply list_elem_of_lookup in Hf' as (j & Hj). destruct (decide (j = i)) as [->|Hne].
    + rewrite list_lookup_insert_eq in Hj by by eapply lookup_lt_Some. injection Hj as <-. exists f.
      split; [by eapply list_elem_of_lookup_2|done].
    + rewrite list_lookup_insert_ne in Hj by done. exists f'. split; [by eapply list_elem_of_lookup_2|done].
  - assert (live g = live f) as Hl by (unfold live; by destruct Hg as (_ & _ & ->)).
    rewrite <-(list_insert_id fs i f Hi) at 2. pose proof (lookup_lt_Some _ _ _ Hi).
    rewrite !insert_take_drop, !bind_app, !bind_cons by done. by rewrite Hl.
Qed.

Lemma effect_truncated G p lane q n : effect G p [] (on_frame_truncated p lane q n).
Proof.
  apply effect_on_lane. intros l. destruct (list_find _ (frames l)) as [[i f]|] eqn:Hfind.
  - apply list_find_Some in Hfind as (Hi & _ & _). unfold lane_live. cbn.
    destruct (insert_same_frame i f (mkFrame (seq f) n true (park f) (fires f)) (frames l) Hi) as [Hh Hl]; [done|].
    split_and!; [done|by rewrite length_insert|done|done].
  - split_and!; [done..|apply had_refl|done].
Qed.

Lemma effect_retired G p ls : effect G p [] (on_frame_retired p ls).
Proof.
  unfold on_frame_retired. revert p. induction ls as [|lane ls IH]; intros p; cbn; [apply effect_refl|].
  eapply effect_nil_trans; [|apply IH].
  eapply effect_nil_trans; [|apply effect_on_lane_frames; by intros []]. by apply effect_same.
Qed.

Lemma cut_frame_same f : same_fires (cut_frame f) f.
Proof. unfold cut_frame. by destruct (is_complete f). Qed.

Lemma effect_truncate_incomplete G p lane : effect G p [] (truncate_incomplete p lane).
Proof.
  unfold truncate_incomplete. destruct (lanes p !! lane) as [l|] eqn:Hl; [|apply effect_refl].
  set (p' := set_lanes _ _).
  assert (effect G p [] p') as He.
  { assert (on_lane p lane (λ l, set_frames l (cut_frame <$> frames l)) = p') as <-.
    { unfold on_lane, p'. f_equal. apply map_eq. intros i. destruct (decide (i = lane)) as [->|Hi].
      - by rewrite lookup_alter_eq, Hl, lookup_insert_eq.
      - by rewrite lookup_alter_ne, lookup_insert_ne. }
    apply effect_on_lane. intros l0. unfold lane_live. cbn. rewrite length_fmap, live_fmap by apply cut_frame_same.
    split_and!; [done|done|apply had_fmap, cut_frame_same|done]. }
  case_match; [|done]. eapply effect_nil_trans; [exact He|]. by apply effect_same.
Qed.

Lemma effect_wind_down G p lane : effect G p [] (wind_down p lane).
Proof.
  unfold wind_down. set (p1 := on_lane p lane _).
  assert (effect G p [] p1) as H1 by (apply effect_on_lane_frames; by intros []).
  eapply effect_nil_trans; [exact H1|].
  eapply effect_nil_trans; [apply (effect_truncate_incomplete G p1 lane)|].
  set (p2 := truncate_incomplete p1 lane). unfold drop_drained.
  destruct (lanes p2 !! lane) as [l|] eqn:Hl; [|apply effect_refl]. case_decide as He; [|apply effect_refl].
  apply effect_frames; [done|done|..]; cbn.
  - intros i l' [_ Hl']%lookup_delete_Some. eauto.
  - intros i l0 Hl0 [Hi|Hi]%lookup_delete_None; [|congruence]. subst. simplify_eq. by apply length_zero_iff_nil.
Qed.

Lemma effect_wind_downs G p ls : effect G p [] (foldl wind_down p ls).
Proof.
  revert p. induction ls as [|lane ls IH]; intros p; cbn; [apply effect_refl|].
  eapply effect_nil_trans; [apply effect_wind_down|apply IH].
Qed.

Lemma maybe_reset_same p : k (maybe_reset_episode p) = k p ∧ sealed (maybe_reset_episode p) = sealed p ∧
  lanes (maybe_reset_episode p) = lanes p.
Proof. unfold maybe_reset_episode. by case_match. Qed.

Lemma effect_reset G p : effect G p [] (maybe_reset_episode p).
Proof. apply effect_same; apply maybe_reset_same. Qed.

Lemma effect_suspend G p o : effect G p [] (on_process_suspend p o).
Proof.
  unfold on_process_suspend. set (p1 := set_suspended p _).
  eapply effect_nil_trans; [by apply (effect_same G p p1)|]. eapply effect_nil_trans; [|apply effect_reset].
  eapply effect_nil_trans; [apply effect_wind_downs|]. by apply effect_same.
Qed.

(** ** Calls with which lanes go *)

Lemma bag_filter {B} (f : LaneState → list B) (P : N * LaneState → Prop) `{∀ x, Decision (P x)} ls :
  bag f ls ≡ₚ bag f (filter P ls) ++ bag f (filter (λ x, ¬ P x) ls).
Proof.
  induction ls as [|i l ls Hi IH] using map_ind; [by rewrite !map_filter_empty|].
  rewrite (bag_insert_new f ls i l Hi), IH. destruct (decide (P (i, l))) as [HP|HP].
  - rewrite (map_filter_insert_True P) by done. rewrite (map_filter_insert_False (λ x, ¬ P x)) by tauto.
    rewrite delete_id, bag_insert_new; [solve_perm| |done]. apply map_lookup_filter_None. auto.
  - rewrite (map_filter_insert_False P) by done. rewrite (map_filter_insert_True (λ x, ¬ P x)) by done.
    rewrite delete_id, bag_insert_new; [solve_perm| |done]. apply map_lookup_filter_None. auto.
Qed.

Lemma count_frames_filter (P : N * LaneState → Prop) `{∀ x, Decision (P x)} ls :
  count_frames (filter P ls) ≤ count_frames ls.
Proof. rewrite !count_frames_bag, (bag_filter frames P ls), length_app. lia. Qed.

(** The lanes that stay are those of a kind; the fires of the others may go. *)
Lemma effect_filter G p p' (P : N * LaneState → Prop) `{∀ x, Decision (P x)} :
  k p' = k p → sealed p' = sealed p → lanes p' = filter P (lanes p) →
  (∀ i l x, lanes p !! i = Some l → ¬ P (i, l) → x ∈ lane_live l → G x) → effect G p [] p'.
Proof.
  intros Hk Hs Hl HG. split; [done|..]; rewrite ?Hl.
  - intros i l [Hi _]%map_lookup_filter_Some. exists l. split_and!; [done..|apply had_refl].
  - apply count_frames_filter.
  - intros _. exists (bag lane_live (filter (λ x, ¬ P x) (lanes p))). split.
    + unfold queued. rewrite Hs, Hl. cbn. rewrite (bag_filter lane_live P (lanes p)). solve_perm.
    + intros x Hx. unfold bag in Hx. apply list_elem_of_bind in Hx as ([i l] & Hx & Hin).
      apply elem_of_map_to_list, map_lookup_filter_Some in Hin as [Hin HP]. by apply (HG i l).
Qed.

Lemma effect_lane_leave G p lane o purge :
  (purge = true → ∀ l x, lanes p !! lane = Some l → x ∈ lane_live l → G x) →
  effect G p [] (on_lane_leave p lane o purge).
Proof.
  intros HG. unfold on_lane_leave. eapply effect_nil_trans; [|apply effect_reset].
  set (p1 := if purge then _ else _). assert (effect G p [] p1) as H1.
  { destruct purge; [|unfold p1; destruct (lanes p !! lane); [apply effect_wind_down|apply effect_refl]].
    apply (effect_filter G p p1 (λ x, x.1 ≠ lane)); [done|done| |].
    - unfold p1. cbn. apply map_eq. intros i. destruct (decide (i = lane)) as [->|Hi].
      + rewrite lookup_delete_eq. symmetry. apply map_lookup_filter_None. right. auto.
      + rewrite lookup_delete_ne by done. destruct (lanes p !! i) as [l|] eqn:Hl; symmetry.
        * by apply map_lookup_filter_Some.
        * apply map_lookup_filter_None. by left.
    - cbn. intros i l x Hl Hi%dec_stable Hx. subst. by eapply HG. }
  eapply effect_nil_trans; [exact H1|]. destruct (match o with Some _ => _ | None => _ end); by apply effect_same.
Qed.

Lemma leave_fold_same p ls :
  let p' := foldl (λ p id, set_in_flight_lanes (set_truncated_seqs p (delete id (truncated_seqs p)))
    (in_flight_lanes p ∖ {[id]})) p ls in
  k p' = k p ∧ sealed p' = sealed p ∧ lanes p' = lanes p.
Proof.
  revert p. induction ls as [|id ls IH]; intros p; [done|].
  exact (IH (set_in_flight_lanes (set_truncated_seqs p (delete id (truncated_seqs p))) (in_flight_lanes p ∖ {[id]}))).
Qed.

Lemma effect_process_leave G p o :
  (∀ i l x, lanes p !! i = Some l → owner l = Some o → x ∈ lane_live l → G x) → effect G p [] (on_process_leave p o).
Proof.
  intros HG. unfold on_process_leave. eapply effect_nil_trans; [|apply effect_reset].
  destruct (leave_fold_same p (owned_lanes p o)) as (Hk & Hs & Hl). set (p1 := foldl _ p _) in *.
  apply (effect_filter G p _ (λ l, owner l.2 ≠ Some o)); cbn; [done|done|by rewrite Hl|].
  intros i l x Hi Hno%dec_stable. by apply (HG i).
Qed.

(** ** Arrivals *)

Definition fresh_frame (stamp : FrameStamp) : PendingFrame := mkFrame (s_seq stamp) (s_fires stamp) false false [].
(** The frames of a lane with one more fire. *)
Definition arrive (stamp : FrameStamp) (fire : ArrivedFire) (late : bool) (fs : list PendingFrame) : list PendingFrame :=
  match list_find (λ f, seq f = s_seq stamp) fs with
  | Some (i, f) => <[i := push_fire f fire late (s_fires stamp)]> fs
  | None => fs ++ [push_fire (fresh_frame stamp) fire late (s_fires stamp)]
  end.

Lemma record_arrival_shape p stamp o fire :
  let p' := record_arrival p stamp o fire in
  ∃ l' late, k p' = k p ∧ sealed p' = sealed p ∧ lanes p' = <[s_lane stamp := l']> (lanes p) ∧
    (owner l' = o ∨ ∃ l, lanes p !! s_lane stamp = Some l ∧ owner l' = owner l) ∧
    frames l' = arrive stamp fire late (default [] (frames <$> lanes p !! s_lane stamp)).
Proof.
  unfold record_arrival. set (p1 := match o with Some o => _ | None => p end).
  assert (k p1 = k p ∧ sealed p1 = sealed p ∧ lanes p1 = lanes p) as (Hk1 & Hs1 & Hl1) by by unfold p1; destruct o.
  clearbody p1. rewrite !Hl1. set (susp := match _ with Some o => _ | None => false end). clearbody susp.
  set (lp := match truncated_seqs p1 !! _ with Some q => _ | None => _ end).
  assert (k lp.2 = k p ∧ sealed lp.2 = sealed p ∧ lanes lp.2 = lanes p) as (Hk2 & Hs2 & Hl2).
  { unfold lp. repeat case_match; cbn; by rewrite ?Hk1, ?Hs1, ?Hl1. }
  destruct lp as [late p2]. cbn in Hk2, Hs2, Hl2. rewrite !Hl2.
  set (l := default _ (lanes p !! s_lane stamp)).
  assert (frames l = default [] (frames <$> lanes p !! s_lane stamp)) as Hfs.
  { unfold l. by destruct (lanes p !! s_lane stamp). }
  set (ff := match list_find _ (frames l) with Some _ => _ | None => _ end).
  assert (<[ff.1.1 := push_fire ff.1.2 fire (late || susp) (s_fires stamp)]> ff.2 =
    arrive stamp fire (late || susp) (frames l)) as Harr.
  { unfold ff, arrive. destruct (list_find _ (frames l)) as [[i f]|]; cbn; [done|].
    rewrite insert_app_r_alt by lia. by rewrite Nat.sub_diag. }
  destruct ff as [[i f] fs]. cbn in Harr. rewrite Harr, Hfs.
  set (l' := mkLane _ _ _ _ _ _ _ _). exists l', (late || susp).
  assert (owner l' = o ∨ ∃ l, lanes p !! s_lane stamp = Some l ∧ owner l' = owner l) as Ho.
  { unfold l', l. cbn. destruct (lanes p !! s_lane stamp) as [l0|]; cbn; [|left; by destruct o].
    destruct (owner l0) eqn:Ho; [right; eauto|by left]. }
  match goal with |- context [if ?b then set_truncated_seqs _ _ else _] => destruct b end; cbn; split_and!; done.
Qed.

Lemma find_same_seq stamp (fs : list PendingFrame) i f :
  list_find (λ f, seq f = s_seq stamp) fs = Some (i, f) → fs !! i = Some f ∧ seq f = s_seq stamp.
Proof. intros (Hi & Hf & _)%list_find_Some. done. Qed.

(** The fires of a fire: its own, if it was not rejected. *)
Definition fire_ids (fire : ArrivedFire) : list N := match a_fire_id fire with Some id => [id] | None => [] end.

Lemma live_push f fire late n : live (push_fire f fire late n) = live f ++ fire_ids fire.
Proof. unfold live, push_fire, fire_ids. cbn. rewrite omap_app. cbn. by destruct (a_fire_id fire). Qed.

Lemma arrive_live stamp fire late fs :
  arrive stamp fire late fs ≫= live ≡ₚ fire_ids fire ++ (fs ≫= live).
Proof.
  unfold arrive. destruct (list_find _ fs) as [[i f]|] eqn:Hfind.
  - apply find_same_seq in Hfind as [Hi _]. rewrite <-(list_insert_id fs i f Hi) at 2.
    pose proof (lookup_lt_Some _ _ _ Hi). rewrite !insert_take_drop, !bind_app, !bind_cons by done.
    rewrite live_push. solve_perm.
  - rewrite bind_app, bind_cons, live_push. cbn. solve_perm.
Qed.

Lemma elem_of_arrive stamp fire late fs g :
  g ∈ arrive stamp fire late fs →
  g ∈ fs ∨ ∃ f, (f ∈ fs ∨ f = fresh_frame stamp) ∧ seq f = s_seq stamp ∧ g = push_fire f fire late (s_fires stamp).
Proof.
  unfold arrive. destruct (list_find _ fs) as [[i f]|] eqn:Hfind.
  - apply find_same_seq in Hfind as [Hi Hf]. intros (j & Hj)%list_elem_of_lookup. destruct (decide (j = i)) as [->|Hne].
    + rewrite list_lookup_insert_eq in Hj by by eapply lookup_lt_Some. injection Hj as <-. right. exists f.
      split; [left; by eapply list_elem_of_lookup_2|done].
    + rewrite list_lookup_insert_ne in Hj by done. left. by eapply list_elem_of_lookup_2.
  - intros [Hg|Hg%list_elem_of_singleton]%elem_of_app; [by left|]. right. exists (fresh_frame stamp). auto.
Qed.

(** ** What a lane may hold *)

Section history.
Context (es : list Event) (Hapart : parks_apart es).

Definition frame_ok (lane : LaneId) (f : PendingFrame) : Prop :=
  (park f = true → live f = [] ∧ LaneParked lane (seq f) ∈ es) ∧ ∀ id, id ∈ live f → came_on es lane id.
Definition lane_ok (lane : LaneId) (l : LaneState) : Prop :=
  (∀ o, owner l = Some o → owned_by es lane o) ∧ ∀ f, f ∈ frames l → frame_ok lane f.
Definition lanes_ok (ls : gmap LaneId LaneState) : Prop := ∀ lane l, ls !! lane = Some l → lane_ok lane l.

Lemma lanes_ok_shrinks ls ls' : shrinks ls ls' → lanes_ok ls → lanes_ok ls'.
Proof.
  intros Hs Hok lane l' Hl'. destruct (Hs lane l' Hl') as (l & Hl & Ho & Hin). destruct (Hok lane l Hl) as [Hown Hfs].
  split; [by rewrite Ho|]. intros f (g & Hg & Hsq & Hpk & Hfi)%Hin. specialize (Hfs g Hg).
  unfold frame_ok, live in *. by rewrite Hsq, Hpk, Hfi.
Qed.

Lemma lanes_ok_parks ls : lanes_ok ls → parks_empty ls.
Proof. intros Hok id l f Hl Hf. by apply (Hok id l Hl). Qed.

(** A call in which no fire is lost but for these. *)
Definition kept (G : N → Prop) (inn : list N) (p : FramePolicy) (out : list N) (p' : FramePolicy) : Prop :=
  k p' = k p ∧ lanes_ok (lanes p') ∧
  ∃ gone, inn ++ queued p ≡ₚ out ++ queued p' ++ gone ∧ ∀ id, id ∈ gone → G id.

Lemma kept_effect G p out p' : lanes_ok (lanes p) → effect G p out p' → kept G [] p out p'.
Proof.
  intros Hok [Hk Hs _ Hq]. split; [done|]. split; [by eapply lanes_ok_shrinks|].
  by apply Hq, lanes_ok_parks.
Qed.

Lemma kept_same G p p' : lanes_ok (lanes p) → k p' = k p → sealed p' = sealed p → lanes p' = lanes p → kept G [] p [] p'.
Proof. intros. apply kept_effect; [done|]. by apply effect_same. Qed.

(** ** Each call *)

Lemma kept_arrival G p stamp o fire e :
  lanes_ok (lanes p) → e ∈ es → arrival e = Some (stamp, o, a_fire_id fire) →
  kept G (fire_ids fire) p [] (record_arrival p stamp o fire).
Proof.
  intros Hok Hin He. destruct (record_arrival_shape p stamp o fire) as (l' & late & Hk & Hs & Hl & Ho & Hf).
  set (fs := default [] (frames <$> lanes p !! s_lane stamp)) in Hf.
  assert (∀ f, f ∈ fs → frame_ok (s_lane stamp) f) as Hfs.
  { intros f Hin'. unfold fs in Hin'. destruct (lanes p !! s_lane stamp) as [l|] eqn:Hl0; cbn in Hin';
      [by apply (Hok _ _ Hl0)|by apply not_elem_of_nil in Hin']. }
  split; [done|]. split.
  - rewrite Hl. intros lane l [[<- <-]|[_ Hl0]]%lookup_insert_Some; [|by apply Hok]. split.
    + intros o' Ho'. destruct Ho as [Heq|(l0 & Hl0 & Heq)].
      * rewrite Ho' in Heq. subst o. by exists e, stamp, (a_fire_id fire).
      * apply (Hok _ _ Hl0). congruence.
    + rewrite Hf. intros g [Hg|(f & Hf' & Hsq & ->)]%elem_of_arrive; [by apply Hfs|].
      assert (park f = true → False) as Hpark.
      { intros Hp. destruct Hf' as [Hf'| ->]; [|done]. destruct (Hfs f Hf') as [[_ Hev] _]; [done|].
        rewrite Hsq in Hev. exact (Hapart e stamp o _ Hin He Hev). }
      split; [by intros Hp%Hpark|]. rewrite live_push. intros id [Hid|Hid]%elem_of_app.
      * destruct Hf' as [Hf'| ->]; [by apply (proj2 (Hfs f Hf'))|by apply not_elem_of_nil in Hid].
      * unfold fire_ids in Hid. destruct (a_fire_id fire) as [x|] eqn:Hx; [|by apply not_elem_of_nil in Hid].
        apply list_elem_of_singleton in Hid as ->. by exists e, stamp, o.
  - exists []. split; [|by intros ? ?%not_elem_of_nil]. unfold queued. rewrite Hs, Hl. cbn. rewrite app_nil_r.
    rewrite (bag_insert lane_live). unfold lane_live at 2. rewrite Hf, arrive_live.
    rewrite (bag_delete lane_live (lanes p) (s_lane stamp)).
    assert (bag_of lane_live (lanes p !! s_lane stamp) = fs ≫= live) as ->; [|solve_perm].
    unfold fs. by destruct (lanes p !! s_lane stamp).
Qed.

(** What a park puts into a lane. *)
Lemma kept_park G p lane q :
  lanes_ok (lanes p) → LaneParked lane q ∈ es → kept G [] p [] (on_lane_park p lane q).
Proof.
  intros Hok Hin. unfold on_lane_park. destruct (lanes p !! lane) as [l|] eqn:Hl; cycle 1.
  { apply kept_same; [done..|]. unfold on_lane. cbn. by apply alter_id'. }
  unfold on_lane. cbn [lanes set_lanes]. rewrite <-(insert_id (lanes p) lane l Hl).
  set (f := λ l : LaneState, _). split; [done|]. cbn. rewrite alter_insert_eq.
  assert (owner (f l) = owner l ∧ lane_live (f l) = lane_live l ∧
    ∀ g, g ∈ frames (f l) → g ∈ frames l ∨ g = mkFrame q 0 true true []) as (Ho & Hlive & Hfs).
  { unfold f, lane_live. destruct (existsb park (frames l)); [split_and!; auto|]. cbn. split; [done|].
    set (i := match list_find _ _ with Some _ => _ | None => _ end). split.
    - rewrite bind_app, bind_cons. cbn. by rewrite <-bind_app, take_drop.
    - intros g [Hg|[->|Hg]%elem_of_cons]%elem_of_app; [left|by right|left].
      + rewrite <-(take_drop i (frames l)). set_solver.
      + by eapply elem_of_drop_elem. }
  split.
  - intros lane' l' [[<- <-]|[_ Hl']]%lookup_insert_Some; [|by apply Hok]. destruct (Hok _ _ Hl) as [Hown Hall].
    split; [by rewrite Ho|]. intros g [Hg| ->]%Hfs; [by apply Hall|]. split; [done|]. by intros ? ?%not_elem_of_nil.
  - exists []. split; [|by intros ? ?%not_elem_of_nil]. unfold queued. cbn. rewrite app_nil_r.
    rewrite (bag_insert lane_live), Hlive, (bag_delete lane_live (lanes p) lane), Hl. done.
Qed.

Lemma kept_trans G inn inn' p1 p2 p3 out out' :
  kept G inn p1 out p2 → kept G inn' p2 out' p3 → kept G (inn ++ inn') p1 (out ++ out') p3.
Proof.
  intros (Hk1 & _ & g1 & Hg1 & HG1) (Hk2 & Hok & g2 & Hg2 & HG2). split; [congruence|]. split; [done|].
  exists (g2 ++ g1). split; [|intros id [?|?]%elem_of_app; auto].
  transitivity (inn' ++ inn ++ queued p1); [solve_perm|]. rewrite Hg1.
  transitivity (out ++ (inn' ++ queued p2) ++ g1); [solve_perm|]. rewrite Hg2. solve_perm.
Qed.

Lemma kept_enqueued G p stamp o id toks rws cohort now :
  lanes_ok (lanes p) → Enqueued stamp o id toks rws cohort now ∈ es →
  kept G [id] p [] (on_fire_enqueued p stamp o id toks rws cohort now).
Proof.
  intros Hok Hin. unfold on_fire_enqueued. set (p1 := gather_cohort p (s_lane stamp) o cohort now).
  assert (kept G [] p [] p1) as H1.
  { apply kept_same; [done|..]; unfold p1, gather_cohort; by destruct o, cohort as [[]|]. }
  set (fire := mkFire _ _ _ _). set (p2 := record_arrival p1 stamp o fire).
  assert (kept G [id] p1 [] p2) as H2.
  { apply (kept_arrival G p1 stamp o fire (Enqueued stamp o id toks rws cohort now)); [apply H1|done|done]. }
  apply (kept_trans G [] [id] p p1 _ [] []); [done|]. destruct cohort as [[g n]|]; [|done].
  rewrite <-(app_nil_r [id]). apply (kept_trans G [id] [] p1 p2 _ [] []); [done|].
  apply kept_effect; [apply H2|]. apply effect_on_lane_frames. by intros [].
Qed.

(** A call made in a history keeps its fires, and does not panic. *)
Lemma kept_step p e :
  k p ≠ 0 → lanes_ok (lanes p) → e ∈ es → ∃ p' out, step p e = Some (p', out) ∧ kept (loses es e) (enqueued e) p out p'.
Proof.
  intros Hk Hok Hin.
  assert (∀ p', k p' = k p → sealed p' = sealed p → lanes p' = lanes p → kept (loses es e) [] p [] p') as Hsame.
  { intros. by apply kept_same. }
  destruct e as [stamp o id toks rws cohort now|stamp o|lane q n|lane q|ls|o|o|slots|pid|pid|pid|pid|pid|lane o purge|o|o|o
    |sched q blocked executing now]; cbn [step enqueued]; try (eexists _, _; split; [reflexivity|]).
  - by apply kept_enqueued.
  - by eapply (kept_arrival _ p stamp o (mkFire (s_slot stamp) None 0 0)).
  - by apply kept_effect, effect_truncated.
  - by apply kept_park.
  - by apply kept_effect, effect_retired.
  - apply Hsame; unfold on_bind_enqueued; destruct o; try done; by case_match.
  - apply Hsame; unfold on_bind_completed; destruct o; try done; by case_match.
  - by apply Hsame.
  - by apply Hsame.
  - apply Hsame; unfold on_execution_slot_consumed; by case_decide.
  - apply Hsame; unfold on_admission_queued; by case_decide.
  - by apply Hsame.
  - apply Hsame; unfold on_slotted_terminate; by case_decide.
  - apply kept_effect; [done|]. apply effect_lane_leave. intros -> l x Hl Hx. split; [done|].
    apply list_elem_of_bind in Hx as (f & Hx & Hf). by apply (proj2 (Hok _ _ Hl) f Hf).
  - apply kept_effect; [done|]. apply effect_process_leave. intros lane l x Hl Ho Hx. exists lane.
    split; [|by apply (Hok _ _ Hl)].
    apply list_elem_of_bind in Hx as (f & Hx & Hf). by apply (proj2 (Hok _ _ Hl) f Hf).
  - by apply kept_effect, effect_suspend.
  - by apply Hsame.
  - destruct (plan_loop_ok (S (count_frames (lanes p))) sched q blocked executing now p Hk) as (plan & p' & Heq & _ & He); [lia|].
    unfold plan_dispatch. rewrite Heq. cbn [mbind option_bind]. eexists _, _. split; [done|]. by apply kept_effect.
Qed.
End history.

Lemma came_on_mono es es' lane id : (∀ e, e ∈ es → e ∈ es') → came_on es lane id → came_on es' lane id.
Proof. intros Hin (e & stamp & o & ? & ?). exists e, stamp, o. auto. Qed.
Lemma owned_by_mono es es' lane o : (∀ e, e ∈ es → e ∈ es') → owned_by es lane o → owned_by es' lane o.
Proof. intros Hin (e & stamp & id & ? & ?). exists e, stamp, id. auto. Qed.
Lemma lanes_ok_mono es es' ls : (∀ e, e ∈ es → e ∈ es') → lanes_ok es ls → lanes_ok es' ls.
Proof.
  intros Hin Hok lane l Hl. destruct (Hok lane l Hl) as [Ho Hf]. split.
  - intros o Hlo. by eapply owned_by_mono, Ho.
  - intros f Hfl. destruct (Hf f Hfl) as [Hp Hc]. split; [|intros id Hid; by eapply came_on_mono, Hc].
    intros [??]%Hp. auto.
Qed.
Lemma parks_apart_mono es es' : (∀ e, e ∈ es → e ∈ es') → parks_apart es' → parks_apart es.
Proof. intros Hin Ha e stamp o id He Harr Hp. apply (Ha e stamp o id); auto. Qed.

(** What is lost came before the call that loses it. *)
Lemma loses_past past e id : loses (past ++ [e]) e id → loses past e id.
Proof.
  assert (arrival e = None → ∀ lane, came_on (past ++ [e]) lane id → came_on past lane id) as Hc.
  { intros He lane (e' & stamp & o & [Hin|<-%list_elem_of_singleton]%elem_of_app & Ha & ?); [by exists e', stamp, o|congruence]. }
  assert (arrival e = None → ∀ lane o, owned_by (past ++ [e]) lane o → owned_by past lane o) as Ho.
  { intros He lane o (e' & stamp & i & [Hin|<-%list_elem_of_singleton]%elem_of_app & Ha & ?); [by exists e', stamp, i|congruence]. }
  destruct e; try done; cbn in *.
  - intros [-> ?]. auto.
  - intros (lane & ? & ?). exists lane. auto.
Qed.

Lemma run_app p es1 es2 :
  run p (es1 ++ es2) = '(p1, out1) ← run p es1; '(p2, out2) ← run p1 es2; Some (p2, out1 ++ out2).
Proof.
  revert p. induction es1 as [|e es1 IH]; intros p; cbn [run app].
  { cbn. by destruct (run p es2) as [[]|]. }
  destruct (step p e) as [[p1 out]|]; cbn [mbind option_bind]; [|done]. rewrite IH.
  destruct (run p1 es1) as [[p2 out1]|]; cbn [mbind option_bind]; [|done].
  destruct (run p2 es2) as [[p3 out2]|]; cbn [mbind option_bind]; [|done]. by rewrite app_assoc.
Qed.

(** The call after a history: what it takes, it gives out, holds or loses for a reason of its own. *)
Definition accounts (past : list Event) (p : FramePolicy) (e : Event) (p' : FramePolicy) (out gone : list N) : Prop :=
  step p e = Some (p', out) ∧ enqueued e ++ queued p ≡ₚ out ++ queued p' ++ gone ∧ ∀ id, id ∈ gone → loses past e id.

Section runs.
Context (p0 : FramePolicy) (Hk : k p0 ≠ 0) (Hnew : lanes p0 = ∅) (Hnone : queued p0 = []).

Lemma history_accounts es :
  parks_apart es →
  ∃ p out gone, run p0 es = Some (p, out) ∧ k p ≠ 0 ∧ lanes_ok es (lanes p) ∧ (es ≫= enqueued) ≡ₚ out ++ queued p ++ gone ∧
    ∀ id, id ∈ gone → ∃ past e rest, es = past ++ e :: rest ∧ loses past e id.
Proof.
  induction es as [|e es IH] using rev_ind; intros Hapart.
  { exists p0, [], []. split_and!; [done|done| |by rewrite Hnone|by intros ? ?%not_elem_of_nil].
    intros lane l. by rewrite Hnew, lookup_empty. }
  assert (∀ e', e' ∈ es → e' ∈ es ++ [e]) as Hin by set_solver.
  destruct IH as (p & out & gone & Hrun & Hkp & Hok & Hq & HG); [by eapply parks_apart_mono|].
  destruct (kept_step (es ++ [e]) Hapart p e Hkp) as (p' & out' & Hstep & Hk' & Hok' & gone' & Hq' & HG');
    [by eapply lanes_ok_mono|set_solver|].
  exists p', (out ++ out'), (gone ++ gone'). rewrite run_app, Hrun. cbn [mbind option_bind run]. rewrite Hstep. cbn [mbind option_bind].
  rewrite app_nil_r. split_and!; [done|congruence|done|..].
  - rewrite bind_app, bind_cons, Hq. cbn [mbind list_bind]. rewrite app_nil_r.
    transitivity (out ++ gone ++ (enqueued e ++ queued p)); [solve_perm|]. rewrite Hq'. solve_perm.
  - intros id [Hid|Hid]%elem_of_app.
    + destruct (HG id Hid) as (past & e' & rest & -> & ?). exists past, e', (rest ++ [e]). by rewrite <-app_assoc.
    + exists es, e, []. split; [done|]. by apply loses_past, HG'.
Qed.

Lemma call_accounts es past e rest :
  parks_apart es → es = past ++ e :: rest →
  ∃ p1 out1 p2 out2 gone, run p0 past = Some (p1, out1) ∧ accounts past p1 e p2 out2 gone.
Proof.
  intros Hapart ->. assert (parks_apart (past ++ [e])) as Ha by (eapply parks_apart_mono; [|done]; set_solver).
  destruct (history_accounts past) as (p & out & gone & Hrun & Hkp & Hok & _); [eapply parks_apart_mono; [|done]; set_solver|].
  destruct (kept_step (past ++ [e]) Ha p e Hkp) as (p' & out' & Hstep & _ & _ & gone' & Hq & HG);
    [eapply lanes_ok_mono; [|done]; set_solver|set_solver|].
  exists p, out, p', out', gone'. split; [done|]. split; [done|]. split; [done|]. intros id Hid. by apply loses_past, HG.
Qed.
End runs.

(** C20. Over any history of the policy's calls, from a new policy with at least one wave:
    no call panics or fails to return, and the fires that were enqueued are those given
    out, those still held, and those let go, each as often as it was enqueued; so no fire is
    given out twice. So it is of each call by itself: the fires it is given and that were
    held it gives out, holds, or lets go, and those it lets go are, if it is a plan, not in
    the queue that this plan was told, or else of the lane or of the process that it says
    has left; no other call lets a fire go. *)
Theorem frame_history_conserves kk max_rows max_tokens deadline silence es :
  kk ≠ 0 → parks_apart es →
  (∃ p out gone, run (new kk max_rows max_tokens deadline silence) es = Some (p, out) ∧
    (es ≫= enqueued) ≡ₚ out ++ queued p ++ gone ∧
    ∀ id, id ∈ gone → ∃ past e rest, es = past ++ e :: rest ∧ loses past e id) ∧
  ∀ past e rest, es = past ++ e :: rest →
    ∃ p1 out1 p2 out2 gone, run (new kk max_rows max_tokens deadline silence) past = Some (p1, out1) ∧
      accounts past p1 e p2 out2 gone.
Proof.
  intros Hk Hapart. set (p0 := new _ _ _ _ _).
  assert (queued p0 = []) as Hnone by (unfold queued; cbn; unfold bag; by rewrite map_to_list_empty).
  split.
  - destruct (history_accounts p0 Hk eq_refl Hnone es Hapart) as (p & out & gone & Hrun & _ & _ & Hq & HG). eauto 10.
  - intros past e rest. by apply (call_accounts p0 Hk eq_refl Hnone).
Qed.

(** ** Witnesses *)

Definition demo_history : list Event :=
  [ Enqueued (mkStamp 1 0 0 1) (Some 7%N) 10 5 1 None 0; Enqueued (mkStamp 2 0 0 1) (Some 8%N) 20 5 1 None 0;
    LaneParked 1 1; Planned None (from_iter [10; 20]%N) ∅ false 1; ProcessLeft 8 ].

Lemma demo_apart : parks_apart demo_history.
Proof.
  assert (Forall (λ e, ∀ stamp o id, arrival e = Some (stamp, o, id) →
    LaneParked (s_lane stamp) (s_seq stamp) ∉ demo_history) demo_history) as Hall.
  { repeat (apply Forall_cons; split); [..|by apply Forall_nil]; intros stamp o id [=]; subst; intros Hin;
      repeat (apply elem_of_cons in Hin as [[=]|Hin]); by apply not_elem_of_nil in Hin. }
  rewrite Forall_forall in Hall. intros e stamp o id He. by apply Hall.
Qed.

(** The plan was told of both fires, so it lets go of neither; one is given out, the other too. *)
Lemma frame_history_conserves_witness :
  ∃ p1 out1 p2 out2, run (new 1 4 100 0 0) (take 3 demo_history) = Some (p1, out1) ∧
    step p1 (Planned None (from_iter [10; 20]%N) ∅ false 1) = Some (p2, out2) ∧
    [10; 20]%N ≡ₚ out2 ++ queued p2.
Proof.
  destruct (proj2 (frame_history_conserves 1 4 100 0 0 demo_history ltac:(done) demo_apart) (take 3 demo_history)
    (Planned None (from_iter [10; 20]%N) ∅ false 1) [ProcessLeft 8] eq_refl)
    as (p1 & out1 & p2 & out2 & gone & Hrun & Hstep & Hq & HG).
  exists p1, out1, p2, out2. split; [exact Hrun|]. split; [exact Hstep|].
  assert (queued p1 ≡ₚ [10; 20]%N) as Hq1 by (vm_compute in Hrun; injection Hrun as <- _; vm_compute; apply perm_swap || done).
  cbn [enqueued app] in Hq. rewrite Hq1 in Hq. rewrite Hq. enough (gone = []) as -> by (by rewrite app_nil_r).
  destruct gone as [|id gone]; [done|]. exfalso. specialize (HG id ltac:(by left)).
  assert (id ∈ [10; 20]%N) as Hid by (rewrite Hq, !elem_of_app, elem_of_cons; auto). cbn [loses] in HG.
  apply elem_of_cons in Hid as [->|[->|[]%not_elem_of_nil]%elem_of_cons]; vm_compute in HG; discriminate.
Defined.

(** ** A group too large for a wave *)


End FrameHist.

Module FrameSilence.
Import FrameHist FrameThm.FrameGate.

(** ** What happens to a lane and to a group *)

(** What a history shows from outside, and the policy each time it looks whom to wait for. *)
Inductive Moment : Type :=
  | Arrival (lane : LaneId)
  | Joined (key : ProcessId * N) (lane : LaneId) (expects now : N)
  | Retirement (ls : list LaneId)
  | Gate (now : N) (p : FramePolicy)
  | Out (now : N) (ms : gset LaneId).

(** A turn that comes to the gate, and the policy there. *)
Definition gate_of (p : FramePolicy) (now : N) : option FramePolicy :=
  if decide (count_frames (lanes p) = 0) then None
  else
    let '(doomed, p) := cohort_verdict p now in
    if decide (length doomed ≠ 0) then None else if boundary_open p then None else Some p.
Definition gate_moments (p : FramePolicy) (now : N) : list Moment :=
  match gate_of p now with Some pg => [Gate now pg] | None => [] end.
Definition turn_moments (sched : Schedule) (q : QueuedFireIds) (blocked : gset LaneId) (now : N) (p : FramePolicy) : list Moment :=
  let p := clean_up q p in
  match dispatch_front p blocked now with
  | Some (Dispatch _, _) => match sealed p with f :: _ => [Out now (members f)] | [] => [] end
  | Some _ => []
  | None =>
      if boundary_open p then
        match seal sched p with Some (None, p) => gate_moments (close_boundary p) now | _ => [] end
      else gate_moments p now
  end.
Fixpoint loop_moments (fuel : nat) (sched : Schedule) (q : QueuedFireIds) (blocked : gset LaneId) (executing : bool) (now : N)
    (p : FramePolicy) : list Moment :=
  match fuel with
  | 0 => []
  | S fuel => turn_moments sched q blocked now p ++
      match plan_turn sched q blocked executing now p with
      | Some (None, p) => loop_moments fuel sched q blocked executing now p
      | _ => []
      end
  end.
Definition event_moments (p : FramePolicy) (e : Event) : list Moment :=
  match e with
  | Enqueued stamp o _ _ _ cohort now =>
      match o, cohort with Some o, Some (g, n) => [Joined (o, g) (s_lane stamp) n now] | _, _ => [] end ++ [Arrival (s_lane stamp)]
  | Rejected stamp _ => [Arrival (s_lane stamp)]
  | Retired ls => [Retirement ls]
  | Planned sched q blocked executing now => loop_moments (S (count_frames (lanes p))) sched q blocked executing now p
  | _ => []
  end.
Fixpoint moments (p : FramePolicy) (es : list Event) : list Moment :=
  match es with
  | [] => []
  | e :: es => event_moments p e ++ match step p e with Some (p, _) => moments p es | None => [] end
  end.

(** ** Silence, debt and gathering *)

(** The lane has its fires out, or its process binds. *)
Definition owes (p : FramePolicy) (id : LaneId) (l : LaneState) : bool :=
  bool_decide (id ∈ in_flight_lanes p) ||
  match owner l with Some o => bool_decide (is_Some (pending_binds p !! o)) | None => false end.
(** The wait is for this lane, or it was given up and may come back. *)
Definition wanted (l : LaneState) : bool := (awaited l && negb (front_complete l)) || leashed l.
(** The gate waits for the lane, which owes nothing. *)
Definition held_up_by (p : FramePolicy) (id : LaneId) : Prop :=
  ∃ l, lanes p !! id = Some l ∧ wanted l = true ∧ owes p id l = false.
(** Nothing that ends a silence of the lane. *)
Definition calm (id : LaneId) (m : Moment) : Prop :=
  match m with
  | Arrival lane => lane ≠ id
  | Retirement ls => id ∉ ls
  | Gate _ p => held_up_by p id
  | _ => True
  end.
Definition retires (id : LaneId) (m : Moment) : Prop := match m with Retirement ls => id ∈ ls | _ => False end.

(** Since the gate at that instant the lane has been silent: each gate from that one on was
    held up by it, none of its fires came, and no frame of it was retired. *)
Definition silent_since (ms : list Moment) (id : LaneId) (c : N) : Prop :=
  ∃ ms1 p ms2, ms = ms1 ++ Gate c p :: ms2 ∧ held_up_by p id ∧ Forall (calm id) ms2.
(** Fires of the lane went out at that instant, and no frame of it was retired since. *)
Definition owed_since (ms : list Moment) (id : LaneId) (c : N) : Prop :=
  ∃ ms1 out ms2, ms = ms1 ++ Out c out :: ms2 ∧ id ∈ out ∧ Forall (λ m, ¬ retires id m) ms2.
(** The lanes that joined a group, and how many of it they said there are. *)
Definition joined (key : ProcessId * N) (ms : list Moment) : list (LaneId * N) :=
  omap (λ m, match m with Joined key' lane n _ => if decide (key' = key) then Some (lane, n) else None | _ => None end) ms.
(** The group gathers since that instant: those that joined since then are fewer than were said. *)
Definition gathers_since (ms : list Moment) (key : ProcessId * N) (c : N) (said : N) (came : gset LaneId) : Prop :=
  ∃ ms1 lane n ms2, ms = ms1 ++ Joined key lane n c :: ms2 ∧
    came = list_to_set (joined key (Joined key lane n c :: ms2)).*1 ∧
    said = foldr N.max 0%N (joined key (Joined key lane n c :: ms2)).*2 ∧ (N.of_nat (size came) < said)%N.

(** Why a process is ended, where this is what happened. *)
Definition deserved (ms : list Moment) (now silence : N) (doom : ProcessId * Doom) : Prop :=
  match doom.2 with
  | Abandoned => ∃ ms' p id l c, ms = ms' ++ [Gate now p] ∧ lanes p !! id = Some l ∧ doom.1 = default id (owner l) ∧
      wanted l = true ∧
      (silent_since ms id c ∧ (silence ≤ now - c)%N ∨ owed_since ms id c ∧ owes p id l = true ∧ (silence * 2 ≤ now - c)%N)
  | CohortNeverComplete g said n => ∃ c came, gathers_since ms (doom.1, g) c said came ∧
      (silence ≤ now - c)%N ∧ n = as_u32 (N.of_nat (size came))
  end.

(** ** What the policy keeps of it *)

Record timed (ms : list Moment) (p : FramePolicy) : Prop := {
  td_clock : ∀ id l c, lanes p !! id = Some l → clock_from l = Some c → silent_since ms id c;
  td_debt : ∀ id c, in_flight_since p !! id = Some c → owed_since ms id c;
  td_group : ∀ key co, cohorts p !! key = Some co → gathers_since ms key (since co) (c_expected co) (arrived co);
}.

Lemma silent_snoc ms m id c : silent_since ms id c → calm id m → silent_since (ms ++ [m]) id c.
Proof.
  intros (ms1 & p & ms2 & -> & Hp & Hc) Hm. exists ms1, p, (ms2 ++ [m]). split; [by rewrite <-app_assoc|].
  split; [done|]. apply Forall_app. split; [done|]. by apply Forall_singleton.
Qed.
Lemma owed_snoc ms m id c : owed_since ms id c → ¬ retires id m → owed_since (ms ++ [m]) id c.
Proof.
  intros (ms1 & out & ms2 & -> & Hp & Hc) Hm. exists ms1, out, (ms2 ++ [m]). split; [by rewrite <-app_assoc|].
  split; [done|]. apply Forall_app. split; [done|]. by apply Forall_singleton.
Qed.
Lemma joined_app key ms ms' : joined key (ms ++ ms') = joined key ms ++ joined key ms'.
Proof. apply omap_app. Qed.
Lemma gathers_snoc ms m key c said came :
  gathers_since ms key c said came → joined key [m] = [] → gathers_since (ms ++ [m]) key c said came.
Proof.
  intros (ms1 & lane & n & ms2 & -> & Hcame & Hsaid & Hlt) Hm. exists ms1, lane, n, (ms2 ++ [m]).
  rewrite (app_comm_cons ms2), joined_app, Hm, app_nil_r. split; [by rewrite <-app_assoc|done].
Qed.

(** A call that starts no clock, no debt and no group. *)
Record fades (p p' : FramePolicy) : Prop := {
  fa_silence : silence_timeout p' = silence_timeout p;
  fa_clock : ∀ id l' c, lanes p' !! id = Some l' → clock_from l' = Some c →
    ∃ l, lanes p !! id = Some l ∧ clock_from l = Some c;
  fa_debt : ∀ id c, in_flight_since p' !! id = Some c → in_flight_since p !! id = Some c;
  fa_group : ∀ key co, cohorts p' !! key = Some co → ∃ co', cohorts p !! key = Some co' ∧
    since co' = since co ∧ c_expected co' = c_expected co ∧ arrived co' = arrived co;
}.
Lemma fades_refl p : fades p p.
Proof. split; [done|eauto..]. Qed.
Lemma fades_trans p1 p2 p3 : fades p1 p2 → fades p2 p3 → fades p1 p3.
Proof.
  intros [Hs1 Hc1 Hd1 Hg1] [Hs2 Hc2 Hd2 Hg2]. split; [congruence| |eauto|].
  - intros id l c Hl Hc. destruct (Hc2 id l c Hl Hc) as (l2 & Hl2 & Hc'). eauto.
  - intros key co (co2 & Hco2 & E1 & E2 & E3)%Hg2. destruct (Hg1 key co2 Hco2) as (co1 & Hco1 & E4 & E5 & E6).
    exists co1. split_and!; [done|congruence..].
Qed.
Lemma timed_fades ms p p' : timed ms p → fades p p' → timed ms p'.
Proof.
  intros [Hc Hd Hg] [_ Hc' Hd' Hg']. split; [| by eauto |].
  - intros id l c Hl Hcl. destruct (Hc' id l c Hl Hcl) as (l0 & Hl0 & Hc0). eauto.
  - intros key co (co' & Hco & <- & <- & <-)%Hg'. by apply Hg.
Qed.

(** Lanes that change in other ways. *)
Lemma fades_alike p p' :
  silence_timeout p' = silence_timeout p → in_flight_since p' = in_flight_since p → cohorts p' = cohorts p →
  (∀ id l' c, lanes p' !! id = Some l' → clock_from l' = Some c → ∃ l, lanes p !! id = Some l ∧ clock_from l = Some c) →
  fades p p'.
Proof. intros Hs Hi Hc Hl. split; [done|done|by rewrite Hi|rewrite Hc; eauto]. Qed.
Lemma fades_same p p' :
  silence_timeout p' = silence_timeout p → in_flight_since p' = in_flight_since p → cohorts p' = cohorts p →
  lanes p' = lanes p → fades p p'.
Proof. intros Hs Hi Hc Hl. apply fades_alike; [done..|]. rewrite Hl. eauto. Qed.
Lemma fades_on_lane p id f : (∀ l c, clock_from (f l) = Some c → clock_from l = Some c) → fades p (on_lane p id f).
Proof.
  intros Hf. apply fades_alike; [done..|]. intros i l' c. unfold on_lane. cbn. destruct (decide (i = id)) as [->|Hi].
  - rewrite lookup_alter_eq. intros (l & Hl & ->)%fmap_Some Hc. eauto.
  - rewrite lookup_alter_ne by done. eauto.
Qed.
Lemma fades_each_lane p f : (∀ l c, clock_from (f l) = Some c → clock_from l = Some c) → fades p (each_lane p f).
Proof.
  intros Hf. apply fades_alike; [done..|]. intros i l' c. unfold each_lane. cbn. rewrite lookup_fmap.
  intros (l & Hl & ->)%fmap_Some Hc. eauto.
Qed.
Lemma fades_sub p p' :
  silence_timeout p' = silence_timeout p → in_flight_since p' = in_flight_since p → cohorts p' = cohorts p →
  lanes p' ⊆ lanes p → fades p p'.
Proof. intros ??? Hsub. apply fades_alike; [done..|]. intros id l c Hl Hc. exists l. split; [|done]. by eapply lookup_weaken. Qed.

(** ** The calls *)

Lemma fades_wind_down p lane : fades p (wind_down p lane).
Proof.
  unfold wind_down. set (p1 := on_lane p lane _).
  eapply fades_trans; [apply (fades_on_lane p lane (λ l, set_parked (set_awaited l false) true)); by intros []|]. fold p1.
  set (p2 := truncate_incomplete p1 lane). assert (fades p1 p2) as H2.
  { unfold p2, truncate_incomplete. destruct (lanes p1 !! lane) as [l|] eqn:Hl; [|apply fades_refl].
    eapply (fades_trans _ (set_lanes p1 (<[lane := set_frames l (cut_frame <$> frames l)]> (lanes p1)))).
    - apply fades_alike; [done..|]. cbn. intros id l' c [[<- <-]|[_ Hl']]%lookup_insert_Some Hc; eauto.
    - case_match; by apply fades_same. }
  eapply fades_trans; [exact H2|]. unfold drop_drained. destruct (lanes p2 !! lane); [|apply fades_refl].
  case_decide; [|apply fades_refl]. apply fades_sub; [done..|]. apply delete_subseteq.
Qed.
Lemma fades_wind_downs p ls : fades p (foldl wind_down p ls).
Proof.
  revert p. induction ls as [|lane ls IH]; intros p; cbn; [apply fades_refl|].
  eapply fades_trans; [apply fades_wind_down|apply IH].
Qed.
Lemma fades_reset p : fades p (maybe_reset_episode p).
Proof. unfold maybe_reset_episode. case_match; by apply fades_same. Qed.
Lemma fades_forget_staged p o : fades p (forget_staged p o).
Proof.
  split; [done|cbn; eauto| |cbn; eauto]. cbn. intros id c. destruct (decide (id = o)) as [->|Hi].
  - by rewrite lookup_delete_eq.
  - by rewrite lookup_delete_ne.
Qed.
Lemma fades_drop_cohorts p o : fades p (drop_cohorts p o).
Proof.
  split; [done|cbn; eauto|cbn; eauto|]. cbn. intros key co [Hco _]%map_lookup_filter_Some. eauto.
Qed.
Lemma fades_forget_owner p o : fades p (forget_owner p o).
Proof.
  unfold forget_owner. eapply fades_trans; [|apply fades_forget_staged].
  eapply fades_trans; [|apply fades_drop_cohorts]. by apply fades_same.
Qed.
Lemma fades_lane_leave p lane o purge : fades p (on_lane_leave p lane o purge).
Proof.
  unfold on_lane_leave. eapply fades_trans; [|apply fades_reset]. set (p1 := if purge then _ else _).
  assert (fades p p1) as H1.
  { unfold p1. destruct purge; [apply fades_sub; [done..|]; apply delete_subseteq|].
    destruct (lanes p !! lane); [apply fades_wind_down|apply fades_refl]. }
  destruct (match o with Some _ => _ | None => _ end) as [o'|]; [|exact H1].
  eapply fades_trans; [exact H1|apply fades_forget_owner].
Qed.
Lemma fades_process_leave p o : fades p (on_process_leave p o).
Proof.
  unfold on_process_leave. eapply fades_trans; [|apply fades_reset]. eapply fades_trans; [|apply fades_forget_staged].
  set (p1 := foldl _ p _). assert (fades p p1) as H1.
  { unfold p1. generalize (owned_lanes p o) as ls. intros ls. clear p1. revert p. induction ls as [|id ls IH]; intros p; cbn; [apply fades_refl|].
    eapply fades_trans; [|apply IH]. by apply fades_same. }
  eapply fades_trans; [exact H1|].
  eapply (fades_trans _ (set_lanes p1 (filter (λ l, owner l.2 ≠ Some o) (lanes p1)))).
  { apply fades_sub; [done..|]. apply map_filter_subseteq. }
  set (p2 := set_lanes p1 _). clearbody p2.
  eapply (fades_trans _ (drop_cohorts (set_pending_binds p2 (delete o (pending_binds p2))) o)); [|by apply fades_same].
  eapply fades_trans; [|apply fades_drop_cohorts]. by apply fades_same.
Qed.
Lemma fades_suspend p o : fades p (on_process_suspend p o).
Proof.
  unfold on_process_suspend. eapply fades_trans; [|apply fades_reset]. eapply fades_trans; [|apply fades_forget_owner].
  eapply fades_trans; [|apply fades_wind_downs]. by apply fades_same.
Qed.

Lemma retired_spec p ls :
  let p' := on_frame_retired p ls in
  silence_timeout p' = silence_timeout p ∧ cohorts p' = cohorts p ∧
  (∀ id, in_flight_since p' !! id = if decide (id ∈ ls) then None else in_flight_since p !! id) ∧
  ∀ id, lanes p' !! id = (if decide (id ∈ ls) then λ l, set_clock_from l None else λ l, l) <$> lanes p !! id.
Proof.
  unfold on_frame_retired. revert p. induction ls as [|lane ls IH]; intros p; cbn.
  { split_and!; [done..|]. intros id. by destruct (lanes p !! id). }
  set (p1 := on_lane _ _ _). destruct (IH p1) as (-> & -> & Hd & Hl). split; [done|]. split; [done|]. split; intros id.
  - rewrite Hd. unfold p1. cbn. destruct (decide (id = lane)) as [->|Hi].
    + rewrite lookup_delete_eq, (decide_True (P := lane ∈ lane :: ls)) by by left. by case_decide.
    + rewrite lookup_delete_ne by done. apply decide_ext. rewrite elem_of_cons. naive_solver.
  - rewrite Hl. unfold p1, on_lane. cbn. destruct (decide (id = lane)) as [->|Hi].
    + rewrite lookup_alter_eq, (decide_True (P := lane ∈ lane :: ls)) by by left.
      destruct (lanes p !! lane) as [l|]; cbn; [|done]. by case_decide.
    + rewrite lookup_alter_ne by done. f_equal. apply decide_ext. rewrite elem_of_cons. naive_solver.
Qed.
Lemma timed_retired ms p ls : timed ms p → timed (ms ++ [Retirement ls]) (on_frame_retired p ls).
Proof.
  intros [Hc Hd Hg]. destruct (retired_spec p ls) as (_ & Hco & Hdebt & Hl). split.
  - intros id l c. rewrite Hl. intros (l0 & Hl0 & ->)%fmap_Some. case_decide as Hi; [done|]. intros Hcl.
    apply silent_snoc; [by eapply Hc|done].
  - intros id c. rewrite Hdebt. case_decide as Hi; [done|]. intros Hdc. apply owed_snoc; [by apply Hd|done].
  - intros key co. rewrite Hco. intros Hk. apply gathers_snoc; [by apply Hg|done].
Qed.

Lemma arrival_times p stamp o fire :
  let p' := record_arrival p stamp o fire in
  silence_timeout p' = silence_timeout p ∧ in_flight_since p' = in_flight_since p ∧ cohorts p' = cohorts p ∧
  ∃ l', lanes p' = <[s_lane stamp := l']> (lanes p) ∧ clock_from l' = None.
Proof.
  unfold record_arrival. set (p1 := match o with Some o => _ | None => p end).
  set (susp := match _ with Some o => _ | None => false end). clearbody susp.
  set (lp := match truncated_seqs p1 !! _ with Some q => _ | None => _ end).
  assert (silence_timeout lp.2 = silence_timeout p ∧ in_flight_since lp.2 = in_flight_since p ∧ cohorts lp.2 = cohorts p ∧
    lanes lp.2 = lanes p) as (H1 & H2 & H3 & H4).
  { assert (silence_timeout p1 = silence_timeout p ∧ in_flight_since p1 = in_flight_since p ∧ cohorts p1 = cohorts p ∧
      lanes p1 = lanes p) as (? & ? & ? & ?) by by unfold p1; destruct o.
    clearbody p1. unfold lp. repeat case_match; cbn; done. }
  destruct lp as [late p2]. cbn in H1, H2, H3, H4.
  destruct (match list_find _ _ with Some _ => _ | None => _ end) as [[i f] fs]. rewrite <-H4.
  set (l' := mkLane _ _ _ _ _ _ _ _).
  match goal with |- context [if ?b then set_truncated_seqs _ _ else _] => destruct b end; cbn; split_and!; try done; by exists l'.
Qed.
Lemma timed_arrival ms p stamp o fire :
  timed ms p → timed (ms ++ [Arrival (s_lane stamp)]) (record_arrival p stamp o fire).
Proof.
  intros [Hc Hd Hg]. destruct (arrival_times p stamp o fire) as (_ & Hi & Hco & l' & Hl & Hno). split.
  - intros id l c. rewrite Hl. intros [[<- <-]|[Hne Hl0]]%lookup_insert_Some Hcl; [congruence|].
    apply silent_snoc; [by eapply Hc|done].
  - intros id c. rewrite Hi. intros Hdc. apply owed_snoc; [by apply Hd|by intros []].
  - intros key co. rewrite Hco. intros Hk. apply gathers_snoc; [by apply Hg|done].
Qed.

Lemma joined_one key key' lane n now : joined key [Joined key' lane n now] = if decide (key' = key) then [(lane, n)] else [].
Proof. unfold joined. cbn. by case_decide. Qed.
Lemma timed_gather ms p lane o cohort now :
  timed ms p →
  timed (ms ++ match o, cohort with Some o, Some (g, n) => [Joined (o, g) lane n now] | _, _ => [] end)
    (gather_cohort p lane o cohort now).
Proof.
  intros Ht. unfold gather_cohort. destruct o as [o|]; [|by rewrite app_nil_r]. destruct cohort as [[g n]|]; [|by rewrite app_nil_r].
  destruct Ht as [Hc Hd Hg]. set (co := default _ _). set (co' := mkCohort _ _ _ _). split; cbn.
  - intros id l c Hl Hcl. apply silent_snoc; [by eapply Hc|done].
  - intros id c Hdc. apply owed_snoc; [by apply Hd|by intros []].
  - assert (complete co' = false → gathers_since (ms ++ [Joined (o, g) lane n now]) (o, g) (since co') (c_expected co') (arrived co')) as Hnew.
    { intros Hs%bool_decide_eq_false. unfold co', co in Hs |- *. destruct (cohorts p !! (o, g)) as [c0|] eqn:H0; cbn in Hs |- *.
      - destruct (Hg _ _ H0) as (ms1 & lane0 & n0 & ms2 & -> & Hcame & Hsaid & _).
        exists ms1, lane0, n0, (ms2 ++ [Joined (o, g) lane n now]).
        rewrite (app_comm_cons ms2), joined_app, joined_one, decide_True, !fmap_app, list_to_set_app_L, foldr_app by done.
        split; [by rewrite <-app_assoc|]. split; [rewrite Hcame; cbn [fmap list_fmap list_to_set fst]; set_solver|]. split; [|lia].
        rewrite Hsaid. generalize (joined (o, g) (Joined (o, g) lane0 n0 (since c0) :: ms2)).*2 as l. intros l. cbn.
        induction l as [|x l IH]; cbn; lia.
      - exists ms, lane, n, []. rewrite joined_one, decide_True by done. cbn. split; [done|]. split; [set_solver|]. split; lia. }
    intros key c. destruct (complete co') eqn:Hcomp.
    + intros [Hne Hk]%lookup_delete_Some. apply gathers_snoc; [by apply Hg|]. by rewrite joined_one, decide_False.
    + intros [[<- <-]|[Hne Hk]]%lookup_insert_Some; [by apply Hnew|].
      apply gathers_snoc; [by apply Hg|]. by rewrite joined_one, decide_False.
Qed.

(** ** The gate and the turns *)

Lemma fades_clean_up q p : fades p (clean_up q p).
Proof.
  unfold clean_up. eapply (fades_trans _ (retire_parks p)); [|by apply fades_same]. apply fades_each_lane. intros l c Hc.
  destruct (retire_fronts_spec l (frames l)) as (_ & _ & _ & _ & _ & Hk & _). destruct Hk as [<-|]; congruence.
Qed.
Lemma fades_close p : fades p (close_boundary p).
Proof. apply fades_each_lane. by intros []. Qed.
Lemma fades_verdict p now : fades p (cohort_verdict p now).2.
Proof.
  unfold cohort_verdict. cbn. split; [done|cbn; eauto|cbn; eauto|]. cbn. intros key co. rewrite lookup_fmap.
  intros (c0 & Hc & ->)%fmap_Some. exists c0. split; [done|]. by destruct (overdue p now c0).
Qed.
Lemma fades_seal sched p mid plan p' : seal_result sched p mid (plan, p') → fades p p'.
Proof.
  intros (Hs & Hi & Hc & Hl)%seal_alike. apply fades_alike; [done..|]. intros id l' c Hl' Hcl.
  destruct (Hl id l' Hl') as (l & Hl0 & _ & _ & _ & Hk). exists l. split; [done|congruence].
Qed.

Lemma blocking_or_leashed p id l :
  negb (bool_decide (gate_verdict l false (owes p id l) = Blocking)) && negb (leashed l) = negb (wanted l).
Proof. unfold gate_verdict, wanted. by destruct (awaited l), (front_complete l), (leashed l). Qed.

(** A clock runs on, or starts, only of a lane the gate waits for. *)
Lemma gate_lane_times p now id l c :
  clock_from (gate_lane p now id l).1.1 = Some c →
  wanted l = true ∧ owes p id l = false ∧ (clock_from l = Some c ∨ c = now).
Proof.
  unfold gate_lane. fold (owes p id l). rewrite blocking_or_leashed. destruct (wanted l); cbn [negb]; [|done].
  destruct (owes p id l) eqn:Ho; cbn [andb].
  - destruct (in_flight_since p !! id) as [from|]; cbn [negb]; [|done].
    destruct (bool_decide _) eqn:Hlong; cbn [negb]; [|done]. apply bool_decide_eq_true in Hlong.
    cbn. rewrite decide_True by lia. done.
  - cbn. destruct (clock_from l) as [from|] eqn:Hfrom; [|intros [= <-]; auto].
    repeat case_decide; cbn; [done|..]; rewrite ?Hfrom; auto.
Qed.
Lemma gate_lane_ends p now id l pid :
  (gate_lane p now id l).2 = Some pid →
  pid = default id (owner l) ∧ wanted l = true ∧ ∃ c,
    (clock_from l = Some c ∧ owes p id l = false ∧ (silence_timeout p ≤ now - c)%N ∨
     in_flight_since p !! id = Some c ∧ owes p id l = true ∧ (silence_timeout p * 2 ≤ now - c)%N).
Proof.
  unfold gate_lane. fold (owes p id l). rewrite blocking_or_leashed. destruct (wanted l); cbn [negb]; [|done].
  destruct (owes p id l) eqn:Ho; cbn [andb].
  - destruct (in_flight_since p !! id) as [from|]; cbn [negb]; [|done].
    destruct (bool_decide _) eqn:Hlong; cbn [negb]; [|done]. apply bool_decide_eq_true in Hlong.
    cbn. rewrite decide_True by lia. intros [= <-]. eauto 10.
  - cbn. destruct (clock_from l) as [from|] eqn:Hfrom; [|done]. case_decide; [|by case_decide].
    intros [= <-]. eauto 10.
Qed.

Lemma timed_gate ms p now : timed ms p → timed (ms ++ [Gate now p]) (set_lanes p (gate_lanes p now)).
Proof.
  intros [Hc Hd Hg]. split; cbn.
  - intros id l' c. unfold gate_lanes. rewrite map_lookup_imap. destruct (lanes p !! id) as [l|] eqn:Hl; [|done]. cbn.
    intros [= <-] (Hw & Ho & Hcl)%gate_lane_times. assert (held_up_by p id) as Hheld by by exists l.
    destruct Hcl as [Hcl| ->]; [by apply silent_snoc; [eapply Hc|]|]. exists ms, p, []. by repeat constructor.
  - intros id c Hdc. apply owed_snoc; [by apply Hd|by intros []].
  - intros key co Hk. apply gathers_snoc; [by apply Hg|done].
Qed.

(** What a part of a turn leaves, and whom it ends. *)
Definition tells (ms : list Moment) (now : N) (p : FramePolicy) (r : option FramePlan * FramePolicy) : Prop :=
  timed ms r.2 ∧ silence_timeout r.2 = silence_timeout p ∧
  ∀ ds doom, r.1 = Some (Terminate ds) → doom ∈ ds → deserved ms now (silence_timeout p) doom.
Lemma tells_fades ms now p p1 p' plan :
  timed ms p1 → silence_timeout p1 = silence_timeout p → fades p1 p' → (∀ ds, plan ≠ Some (Terminate ds)) →
  tells ms now p (plan, p').
Proof.
  intros Ht Hs Hf Hno. split; [by eapply timed_fades|]. split; [cbn; rewrite (fa_silence _ _ Hf); done|].
  cbn. intros ds doom Hplan. by destruct (Hno ds).
Qed.
Lemma tells_after ms now p p1 r : fades p p1 → tells ms now p1 r → tells ms now p r.
Proof. intros Hf (H1 & H2 & H3). unfold tells. by rewrite <-(fa_silence _ _ Hf). Qed.

Lemma after_gate_tells sched executing now p r ms :
  k p ≠ 0 → timed ms p → after_gate sched executing now p = Some r → tells (ms ++ [Gate now p]) now p r.
Proof.
  intros Hk Ht. unfold after_gate. pose proof (timed_gate ms p now Ht) as Hgate. set (p1 := set_lanes p (gate_lanes p now)) in *.
  destruct (decide (length (expired p now) ≠ 0)) as [He|He].
  { intros [= <-]. split; [done|]. split; [done|]. cbn. intros ds doom [= <-] (pid & -> & Hpid)%list_elem_of_fmap.
    apply elem_of_expired in Hpid as (id & l & Hl & (-> & Hw & c & Hwhy)%gate_lane_ends).
    exists ms, p, id, l, c. split_and!; [done..|]. destruct Hwhy as [(Hcl & Ho & Hlong)|(Hdc & Ho & Hlong)].
    - left. split; [|done]. apply silent_snoc; [by apply (td_clock _ _ Ht id l)|]. by exists l.
    - right. split; [|done]. apply owed_snoc; [by apply (td_debt _ _ Ht)|by intros []]. }
  case_decide as Hm.
  { destruct executing; [intros [= <-]; by eapply tells_fades; [exact Hgate|..]; [done|apply fades_refl|]|].
    unfold hold_for. intros [= <-]. eapply tells_fades; [exact Hgate|done|by apply fades_same|done]. }
  destruct (seal_spec sched (set_strict_watchdog_deadline p1 None)) as ([pl p3] & -> & Hres); [done|]. cbn.
  pose proof (fades_seal _ _ _ _ _ Hres) as Hf. apply (effect_seal (λ _, True)) in Hres as [_ Hplan].
  assert (fades p1 p3) as Hf3 by (eapply fades_trans; [|exact Hf]; by apply fades_same).
  destruct Hplan as [->|[-> _]]; [destruct (group_assembling p3)|]; intros [= <-];
    by eapply tells_fades; [exact Hgate|done|exact Hf3|].
Qed.

Lemma cohort_verdict_tells ms p now doom :
  timed ms p → doom ∈ (cohort_verdict p now).1 → deserved ms now (silence_timeout p) doom.
Proof.
  intros Ht. unfold cohort_verdict. cbn. intros ([[o g] c] & -> & [Hd Hin]%list_elem_of_filter)%list_elem_of_fmap.
  rewrite merge_sort_Permutation in Hin. apply elem_of_map_to_list in Hin. cbn in Hd |- *.
  unfold deserved. cbn. exists (since c), (arrived c). split; [by apply (td_group _ _ Ht)|].
  unfold overdue in Hd. apply andb_true_iff in Hd as [_ Hs%negb_true_iff%bool_decide_eq_false]. split; [lia|done].
Qed.

Lemma closed_turn_tells sched executing now p r ms :
  k p ≠ 0 → timed ms p → closed_turn sched executing now p = Some r → tells (ms ++ gate_moments p now) now p r.
Proof.
  intros Hk Ht. unfold closed_turn, gate_moments, gate_of. case_decide.
  { intros [= <-]. rewrite app_nil_r. eapply tells_fades; [exact Ht|done|by apply fades_same|done]. }
  pose proof (cohort_verdict_tells ms p now) as Hdoom. pose proof (fades_verdict p now) as Hv.
  assert (k (cohort_verdict p now).2 = k p) as Hk1 by done.
  destruct (cohort_verdict p now) as [doomed p1]. cbn in Hdoom, Hv, Hk1. pose proof (timed_fades _ _ _ Ht Hv) as Ht1.
  destruct (decide (length doomed ≠ 0)).
  { intros [= <-]. rewrite app_nil_r. split; [done|]. split; [apply Hv|]. cbn. intros ds doom [= <-]. by apply Hdoom. }
  destruct (boundary_open p1); [done|]. intros Hr. eapply tells_after; [exact Hv|].
  by eapply after_gate_tells; [rewrite Hk1|..].
Qed.

Lemma timed_out ms p rest members now :
  timed ms p →
  timed (ms ++ [Out now members])
    (set_in_flight_since (set_in_flight_lanes (set_sealed p rest) (in_flight_lanes p ∪ members))
      (in_flight_since p ∪ gset_to_gmap now members)).
Proof.
  intros [Hc Hd Hg]. split; cbn.
  - intros id l c Hl Hcl. apply silent_snoc; [by eapply Hc|done].
  - intros id c [Hdc|[_ Hnew]]%lookup_union_Some_raw; [apply owed_snoc; [by apply Hd|by intros []]|].
    apply lookup_gset_to_gmap_Some in Hnew as [Hin <-]. exists ms, members, []. split; [done|]. by split.
  - intros key co Hk. apply gathers_snoc; [by apply Hg|done].
Qed.

Lemma plan_turn_tells sched q blocked executing now p r ms :
  k p ≠ 0 → timed ms p → plan_turn sched q blocked executing now p = Some r →
  tells (ms ++ turn_moments sched q blocked now p) now p r.
Proof.
  intros Hk Ht. unfold plan_turn, turn_moments. pose proof (fades_clean_up q p) as Hf1. pose proof (timed_fades _ _ _ Ht Hf1) as Ht1.
  assert (k (clean_up q p) = k p) as Hk1 by done. set (p1 := clean_up q p) in *. clearbody p1.
  intros Hr. eapply tells_after; [exact Hf1|]. revert Hr. unfold dispatch_front.
  destruct (sealed p1) as [|s rest].
  2: { case_decide; intros [= <-].
    - rewrite app_nil_r. by eapply tells_fades; [exact Ht1|..]; [done|apply fades_refl|].
    - split; [by apply timed_out|]. split; [done|]. by cbn. }
  destruct (boundary_open p1); [|by apply closed_turn_tells; [congruence|]].
  destruct (seal_spec sched p1) as ([plan p2] & -> & Hres); [congruence|]. cbn.
  pose proof (fades_seal _ _ _ _ _ Hres) as Hf2. pose proof (timed_fades _ _ _ Ht1 Hf2) as Ht2.
  apply (effect_seal (λ _, True)) in Hres as [He [->|[-> _]]].
  - intros Hr%(closed_turn_tells _ _ _ _ _ ms).
    + eapply tells_after; [|exact Hr]. eapply fades_trans; [exact Hf2|apply fades_close].
    + rewrite (ef_k _ _ _ _ He : k (close_boundary p2) = k p1). congruence.
    + eapply timed_fades; [exact Ht2|apply fades_close].
  - intros [= <-]. rewrite app_nil_r. by eapply tells_fades; [exact Ht1|done|exact Hf2|].
Qed.

Lemma plan_loop_tells fuel sched q blocked executing now plan p' : ∀ p ms,
  k p ≠ 0 → timed ms p → plan_loop fuel sched q blocked executing now p = Some (plan, p') →
  tells (ms ++ loop_moments fuel sched q blocked executing now p) now p (Some plan, p').
Proof.
  induction fuel as [|fuel IH]; intros p ms Hk Ht; [done|]. cbn [plan_loop loop_moments]. rewrite app_assoc.
  destruct (plan_turn_ok sched q blocked executing now p Hk) as ([plan1 p1] & Hr & [He _]). rewrite Hr. cbn.
  apply (plan_turn_tells _ _ _ _ _ _ _ ms) in Hr; [|done..]. destruct plan1 as [plan1|].
  - intros [= -> <-]. by rewrite app_nil_r.
  - destruct Hr as (Ht1 & Hs1 & _). cbn in Ht1, Hs1. intros Hl. apply (IH p1 (ms ++ turn_moments sched q blocked now p)) in Hl as (H1 & H2 & H3); [|rewrite (ef_k _ _ _ _ He : k p1 = k p); done|exact Ht1].
    unfold tells. rewrite <-Hs1. done.
Qed.

(** ** Histories *)

Lemma step_k p e p' out : k p ≠ 0 → step p e = Some (p', out) → k p' = k p.
Proof.
  intros Hk. destruct e as [stamp o id toks rws cohort now|stamp o|lane q n|lane q|ls|o|o|slots|pid|pid|pid|pid|pid|lane o purge|o|o|o
    |sched q blocked executing now]; cbn [step]; try (intros [= <- _]); try done.
  - unfold on_fire_enqueued. set (p1 := gather_cohort _ _ _ _ _). assert (k p1 = k p) as <- by (unfold p1, gather_cohort; by destruct o, cohort as [[]|]).
    destruct (record_arrival_shape p1 stamp o (mkFire (s_slot stamp) (Some id) toks rws)) as (? & ? & <- & _). by destruct cohort as [[]|].
  - by destruct (record_arrival_shape p stamp o (mkFire (s_slot stamp) None 0 0)) as (? & ? & <- & _).
  - apply (ef_k _ _ _ _ (effect_retired (λ _, True) p ls)).
  - unfold on_bind_enqueued. destruct o; [|done]. by case_match.
  - unfold on_bind_completed. destruct o; [|done]. by case_match.
  - unfold on_execution_slot_consumed. by case_decide.
  - unfold on_admission_queued. by case_decide.
  - unfold on_slotted_terminate. by case_decide.
  - by apply (ef_k (λ _, True) _ [] _), effect_lane_leave.
  - by apply (ef_k (λ _, True) _ [] _), effect_process_leave.
  - apply (ef_k _ _ _ _ (effect_suspend (λ _, True) p o)).
  - destruct (plan_loop_ok (S (count_frames (lanes p))) sched q blocked executing now p Hk) as (plan & p1 & Heq & _ & He); [lia|].
    unfold plan_dispatch. rewrite Heq. cbn. intros [= <- _]. apply (ef_k _ _ _ _ He).
Qed.

Lemma step_timed ms p e p' out :
  k p ≠ 0 → timed ms p → step p e = Some (p', out) →
  timed (ms ++ event_moments p e) p' ∧ silence_timeout p' = silence_timeout p.
Proof.
  intros Hk Ht. assert (∀ p', fades p p' → timed (ms ++ []) p' ∧ silence_timeout p' = silence_timeout p) as Hfades.
  { intros p1 Hf. rewrite app_nil_r. split; [by eapply timed_fades|apply Hf]. }
  assert (∀ p', silence_timeout p' = silence_timeout p → in_flight_since p' = in_flight_since p → cohorts p' = cohorts p →
    lanes p' = lanes p → timed (ms ++ []) p' ∧ silence_timeout p' = silence_timeout p) as Hsame.
  { intros. by apply Hfades, fades_same. }
  destruct e as [stamp o id toks rws cohort now|stamp o|lane q n|lane q|ls|o|o|slots|pid|pid|pid|pid|pid|lane o purge|o|o|o
    |sched q blocked executing now]; cbn [step event_moments]; try (intros [= <- _]).
  - rewrite app_assoc. pose proof (timed_gather ms p (s_lane stamp) o cohort now Ht) as H1.
    unfold on_fire_enqueued. set (p1 := gather_cohort _ _ _ _ _) in *.
    assert (silence_timeout p1 = silence_timeout p) as Hs1 by (unfold p1, gather_cohort; by destruct o, cohort as [[]|]).
    pose proof (timed_arrival _ p1 stamp o (mkFire (s_slot stamp) (Some id) toks rws) H1) as H2.
    destruct (arrival_times p1 stamp o (mkFire (s_slot stamp) (Some id) toks rws)) as (Hs2 & _).
    set (p2 := record_arrival _ _ _ _) in *. destruct cohort as [[g n]|]; [|split; [exact H2|congruence]].
    split; [|cbn; congruence]. eapply timed_fades; [exact H2|]. apply fades_on_lane. by intros [].
  - split; [by apply timed_arrival|apply arrival_times].
  - apply Hfades, fades_on_lane. intros l c. by destruct (list_find _ (frames l)) as [[]|].
  - apply Hfades, fades_on_lane. intros l c. by case_match.
  - split; [by apply timed_retired|apply retired_spec].
  - apply Hsame; unfold on_bind_enqueued; destruct o; try done; by case_match.
  - apply Hsame; unfold on_bind_completed; destruct o; try done; by case_match.
  - by apply Hsame.
  - by apply Hsame.
  - apply Hsame; unfold on_execution_slot_consumed; by case_decide.
  - apply Hsame; unfold on_admission_queued; by case_decide.
  - by apply Hsame.
  - apply Hsame; unfold on_slotted_terminate; by case_decide.
  - apply Hfades, fades_lane_leave.
  - apply Hfades, fades_process_leave.
  - apply Hfades, fades_suspend.
  - by apply Hsame.
  - unfold plan_dispatch. destruct (plan_loop _ _ _ _ _ _ _) as [[plan p1]|] eqn:Hl; [|done]. cbn. intros [= <- _].
    apply (plan_loop_tells _ _ _ _ _ _ _ _ p ms) in Hl as (H1 & H2 & _); [|done..]. done.
Qed.

Lemma run_timed es : ∀ ms p p' out,
  k p ≠ 0 → timed ms p → run p es = Some (p', out) →
  timed (ms ++ moments p es) p' ∧ silence_timeout p' = silence_timeout p ∧ k p' = k p.
Proof.
  induction es as [|e es IH]; intros ms p p' out Hk Ht; cbn [run moments].
  { intros [= <- _]. by rewrite app_nil_r. }
  destruct (step p e) as [[p1 out1]|] eqn:Hstep; cbn [mbind option_bind]; [|done].
  destruct (step_timed ms p e p1 out1 Hk Ht Hstep) as [Ht1 Hs1]. pose proof (step_k p e p1 out1 Hk Hstep) as Hk1.
  destruct (run p1 es) as [[p2 out2]|] eqn:Hrun; cbn [mbind option_bind]; [|done]. intros [= <- _].
  destruct (IH _ p1 p2 out2 ltac:(congruence) Ht1 Hrun) as (H1 & H2 & H3). rewrite app_assoc. split; [done|]. split; congruence.
Qed.

Lemma moments_snoc es : ∀ p0 p out e, run p0 es = Some (p, out) → moments p0 (es ++ [e]) = moments p0 es ++ event_moments p e.
Proof.
  induction es as [|e' es IH]; intros p0 p out e; cbn [run moments app].
  - intros [= -> _]. cbn [app]. destruct (step p e) as [[]|]; by rewrite app_nil_r.
  - destruct (step p0 e') as [[p1 out1]|]; cbn [mbind option_bind]; [|done].
    destruct (run p1 es) as [[p2 out2]|] eqn:Hr; cbn [mbind option_bind]; [|done]. intros [= -> _].
    by rewrite (IH p1 p out2 e Hr), app_assoc.
Qed.

(** C25. Whoever is ended had it coming, by what happened before. A process is ended as
    abandoned at a gate that waits for a lane of its own, or for the return of one. Either
    the lane has been silent for the silence timeout or longer: at every gate in that time
    it was so waited for and owed nothing, none of its fires came, and no frame of it was
    retired. Or fires of it went out twice that long ago, and no frame of it was retired
    since. And a process is ended for a group that began to gather the silence timeout ago
    or earlier, where fewer lanes joined since then than were said. *)
Theorem terminate_only_the_silent kk max_rows max_tokens deadline silence es p out sched q blocked executing now ds p' :
  kk ≠ 0 → run (new kk max_rows max_tokens deadline silence) es = Some (p, out) →
  plan_dispatch p sched q blocked executing now = Some (Terminate ds, p') →
  ∀ doom, doom ∈ ds →
    deserved (moments (new kk max_rows max_tokens deadline silence) (es ++ [Planned sched q blocked executing now]))
      now silence doom.
Proof.
  intros Hk Hrun Hplan doom Hd. set (p0 := new _ _ _ _ _) in *.
  assert (timed [] p0) as H0 by by split; cbn; intros; rewrite lookup_empty in *.
  destruct (run_timed es [] p0 p out Hk H0 Hrun) as (Ht & Hs & Hkp). cbn [app] in Ht.
  rewrite (moments_snoc es p0 p out _ Hrun).
  apply (plan_loop_tells _ _ _ _ _ _ _ _ p (moments p0 es)) in Hplan as (_ & _ & H); [|by rewrite Hkp|done].
  rewrite Hs in H. by eapply H.
Qed.

(** ** A witness *)

(** Lane 1 has a frame, lane 2 of another process the first of two fires of its frame; the
    clock of lane 2 runs from the plan at once, and its process is ended after the silence
    timeout. *)
Definition short_frame : list Event :=
  [ Enqueued (mkStamp 1 0 0 1) (Some 7%N) 10 5 2 None 0; Enqueued (mkStamp 2 0 0 2) (Some 8%N) 20 5 1 None 0;
    Planned None pending ∅ false 0 ].
Definition ended_at : N := micros 200.

Lemma terminate_only_the_silent_witness :
  deserved (moments (new 2 8 100 (micros 50) (micros 200)) (short_frame ++ [Planned None pending ∅ false ended_at]))
    ended_at (micros 200) (8%N, Abandoned).
Proof.
  destruct (run (new 2 8 100 (micros 50) (micros 200)) short_frame) as [[p out]|] eqn:Hrun; [|by vm_compute in Hrun].
  destruct (plan_dispatch p None pending ∅ false ended_at) as [[plan p']|] eqn:Hplan.
  - assert (plan = Terminate [(8%N, Abandoned)]) as ->.
    { vm_compute in Hrun. injection Hrun as <- _. vm_compute in Hplan. by injection Hplan as <- _. }
    apply (terminate_only_the_silent 2 8 100 (micros 50) (micros 200) short_frame p out None pending ∅ false ended_at
      [(8%N, Abandoned)] p' ltac:(done) Hrun Hplan). by left.
  - exfalso. vm_compute in Hrun. injection Hrun as <- _. vm_compute in Hplan. discriminate.
Defined.
End FrameSilence.
