(* ===== verification/Batch.v ===== *)
(** How the waves the scheduler gives out become the steps an engine runs
    ([crates/runtime/src/scheduler/batch.rs], [fire_plan.rs]): a wave is cut into groups
    that fit the engine, the members of a group are put in order, and their lanes laid
    side by side. Of a request, a lane and a media row the fields are modelled that these
    files read or write; tracing and timing are left out. *)
From stdpp Require Import gmap sorting.
From S2P Require Import Prelude.

Module Batch.

(** ** Requests *)

Record Lane : Type := mkLane { slot : N; tokens : list N; pages : list N }.
Record StepMedia : Type := mkMedia { md_lane : N; md_rows : list N }.
Record StepVoxels : Type := mkVoxels { vx_lane : N; clips : list (N * N * N) }.
Inductive GeometryClass : Type := Host | DecodeEnvelope | DeviceGeometry.
Record FireRequest : Type := mkRequest {
  lanes : list Lane;
  geometry : GeometryClass;
  max_layers : option N;
  has_user_mask : bool;
  boundary_program : bool;
  voxels : list StepVoxels;
  media : list StepMedia;
}.
Record PendingRequest : Type := mkPending {
  logical_fire_id : N;
  request : FireRequest;
  instance_id : N;
  terminal_cell : N;
  pipeline_id : option N;
  hook_program : bool;
  lora_program : bool;
}.
#[export] Instance Lane_eq_dec : EqDecision Lane. Proof. solve_decision. Defined.

Definition fire_tokens (r : FireRequest) : N := N.of_nat (sum_list ((λ l, Nat.max (length (tokens l)) 1) <$> lanes r)).
Definition fire_pages (r : FireRequest) : list N := lanes r ≫= pages.
Definition wire_row_count (r : PendingRequest) : N := N.of_nat (length (lanes (request r))).

Record RequestCapacityUsage : Type := mkUsage { forward_requests : N; forward_tokens : N; page_refs : N }.
Definition request_capacity_usage (r : PendingRequest) : RequestCapacityUsage :=
  mkUsage (N.max (wire_row_count r) 1) (fire_tokens (request r)) (N.of_nat (length (fire_pages (request r)))).

Record SchedulerLimits : Type := mkLimits { max_forward_requests : N; max_forward_tokens : N; max_page_refs : N }.
(** What the message of a refusal says. *)
Inductive LimitError : Type :=
  | ResolvedRows (rows limit : N)
  | ForwardTokens (tokens limit : N)
  | PageRefs (refs limit : N).
Definition single_request_limit_error (lim : SchedulerLimits) (r : PendingRequest) : option LimitError :=
  let usage := request_capacity_usage r in
  if decide (max_forward_requests lim < forward_requests usage)%N then
    Some (ResolvedRows (forward_requests usage) (max_forward_requests lim))
  else if decide (max_forward_tokens lim < forward_tokens usage)%N then
    Some (ForwardTokens (forward_tokens usage) (max_forward_tokens lim))
  else if decide (max_page_refs lim < page_refs usage)%N then
    Some (PageRefs (page_refs usage) (max_page_refs lim))
  else None.

(** ** Groups that fit *)

Record StepGroup : Type := mkGroup {
  instances : gset N;
  pipelines : gset N;
  group_usage : RequestCapacityUsage;
}.
Definition no_usage : RequestCapacityUsage := mkUsage 0 0 0.
Definition default_group : StepGroup := mkGroup ∅ ∅ no_usage.
Definition saturating_add (a b : N) : N := sat_add u64_max a b.
Definition add_usage (a b : RequestCapacityUsage) : RequestCapacityUsage :=
  mkUsage (saturating_add (forward_requests a) (forward_requests b)) (saturating_add (forward_tokens a) (forward_tokens b))
    (saturating_add (page_refs a) (page_refs b)).
Definition within (lim : SchedulerLimits) (u : RequestCapacityUsage) : bool :=
  bool_decide (forward_requests u ≤ max_forward_requests lim)%N && bool_decide (forward_tokens u ≤ max_forward_tokens lim)%N &&
  bool_decide (page_refs u ≤ max_page_refs lim)%N.

Definition accepts (lim : SchedulerLimits) (g : StepGroup) (r : PendingRequest) : bool :=
  if decide (instance_id r ∈ instances g) then false
  else if match pipeline_id r with Some pid => bool_decide (pid ∈ pipelines g) | None => false end then false
  else if decide (forward_requests (group_usage g) = 0%N) then true
  else within lim (add_usage (group_usage g) (request_capacity_usage r)).
(** The group with the request, and whether it is full. *)
Definition push (lim : SchedulerLimits) (g : StepGroup) (r : PendingRequest) : StepGroup * bool :=
  let u := add_usage (group_usage g) (request_capacity_usage r) in
  (mkGroup ({[instance_id r]} ∪ instances g)
     (match pipeline_id r with Some pid => {[pid]} ∪ pipelines g | None => pipelines g end) u,
   bool_decide (max_forward_requests lim ≤ forward_requests u)%N || bool_decide (max_forward_tokens lim ≤ forward_tokens u)%N ||
   bool_decide (max_page_refs lim ≤ page_refs u)%N).

(** A pass over what is deferred: the group it makes, and the rest. *)
Fixpoint split_group (lim : SchedulerLimits) (g : StepGroup) (closed : bool) (deferred : list PendingRequest) :
    list PendingRequest * list PendingRequest :=
  match deferred with
  | [] => ([], [])
  | r :: deferred =>
      if closed || negb (accepts lim g r) then
        let '(group, rest) := split_group lim g closed deferred in (group, r :: rest)
      else
        let '(g, closed) := push lim g r in
        let '(group, rest) := split_group lim g closed deferred in (r :: group, rest)
  end.
(** Passes until nothing is deferred; a pass that takes nothing panics ([debug_assert!]). *)
Fixpoint wave_groups (fuel : nat) (lim : SchedulerLimits) (deferred : list PendingRequest) : option (list (list PendingRequest)) :=
  match deferred, fuel with
  | [], _ => Some []
  | _, 0 => None
  | _, S fuel =>
      let '(group, rest) := split_group lim default_group false deferred in
      match group with
      | [] => None
      | _ => groups ← wave_groups fuel lim rest; Some (group :: groups)
      end
  end.

(** ** The order in a step *)

Record MemberFacts : Type := mkFacts {
  f_hook : bool;
  f_mask : bool;
  f_truncated : bool;
  f_max_layers : option N;
  f_multi_token : bool;
  f_class : GeometryClass;
  arrival : nat;
}.
Definition class_rank (c : GeometryClass) : N := match c with Host => 0 | DecodeEnvelope => 1 | DeviceGeometry => 2 end.
(** The tuple the members are sorted by; a [u32] in reverse by what it lacks of the largest. *)
Definition member_key (m : MemberFacts) : list N :=
  [class_rank (f_class m); N.b2n (f_mask m); N.b2n (f_truncated m); u32_max - default u32_max (f_max_layers m);
   N.b2n (f_hook m); N.b2n (negb (f_multi_token m)); N.of_nat (arrival m)]%N.
Fixpoint key_le (a b : list N) : bool :=
  match a, b with
  | x :: a, y :: b => bool_decide (x < y)%N || bool_decide (x = y) && key_le a b
  | [], _ => true
  | _ :: _, [] => false
  end.
Definition no_later (members : list MemberFacts) (i j : nat) : Prop :=
  key_le (default [] (member_key <$> members !! i)) (default [] (member_key <$> members !! j)) = true.
#[export] Instance no_later_dec members : RelDecision (no_later members).
Proof. intros i j. unfold no_later. apply _. Defined.
Definition member_order (members : list MemberFacts) : list nat := merge_sort (no_later members) (seq 0 (length members)).

Definition facts_of (group : list PendingRequest) : list MemberFacts :=
  imap (λ i r, mkFacts (hook_program r) (has_user_mask (request r)) (bool_decide (is_Some (max_layers (request r))))
    (max_layers (request r)) (existsb (λ l, bool_decide (1 < length (tokens l))) (lanes (request r)))
    (geometry (request r)) i) group.

(** [slots[index].take().expect(..)] for each index. *)
Fixpoint take_members (slots : list (option PendingRequest)) (order : list nat) : option (list PendingRequest) :=
  match order with
  | [] => Some []
  | i :: order =>
      r ← mjoin (slots !! i);
      rest ← take_members (<[i := None]> slots) order;
      Some (r :: rest)
  end.

(** ** Lanes side by side *)

Record StepBuild : Type := mkBuild {
  b_lanes : list Lane;
  b_media : list StepMedia;
  b_voxels : list StepVoxels;
  instance_ids : list N;
  boundary_programs : list bool;
  member_lane_indptr : list N;
  b_cells : list N;
  b_fire_ids : list N;
}.
Definition add_request (b : StepBuild) (r : PendingRequest) : StepBuild :=
  let base := clamp_u32 (length (b_lanes b)) in
  let lanes := b_lanes b ++ lanes (request r) in
  mkBuild lanes
    (b_media b ++ ((λ row, mkMedia (sat_add u32_max (md_lane row) base) (md_rows row)) <$> media (request r)))
    (b_voxels b ++ ((λ row, mkVoxels (sat_add u32_max (vx_lane row) base) (clips row)) <$> voxels (request r)))
    (instance_ids b ++ [instance_id r]) (boundary_programs b ++ [boundary_program (request r)])
    (member_lane_indptr b ++ [clamp_u32 (length lanes)]) (b_cells b ++ [terminal_cell r])
    (b_fire_ids b ++ [logical_fire_id r]).
Definition build_batch_request (requests : list PendingRequest) : StepBuild :=
  foldl add_request (mkBuild [] [] [] [] [] [0%N] [] []) requests.

Inductive Boundary : Type := Prologue | Epilogue | Adapter.
Record Attachment : Type := mkAttachment { at_lane : N; at_instance : N; at_ : Boundary }.
Record Step : Type := mkStep {
  st_lanes : list Lane; attachments : list Attachment; st_media : list StepMedia; st_voxels : list StepVoxels }.
Record StepFire : Type := mkStepFire {
  submission : Step; terminal_cells : list N; st_instances : list N; logical_fire_ids : list N }.

(** A [u32] difference panics below zero. *)
Definition sub_u32 (a b : N) : option N := if decide (b ≤ a)%N then Some (a - b)%N else None.
(** Each lane's instance: of each member, as often as it has lanes. *)
Definition instances_of (b : StepBuild) : option (list N) :=
  lists ← mapM (λ m,
    upto ← member_lane_indptr b !! (m.1 + 1)%nat;
    from ← member_lane_indptr b !! m.1;
    span ← sub_u32 upto from;
    Some (replicate (N.to_nat span) m.2)) (imap pair (instance_ids b));
  Some (concat lists).
(** The fire that ends a pass runs its program, and any other of an adapted pass the adapter. *)
Definition attachments_of (b : StepBuild) (group : list PendingRequest) : option (list Attachment) :=
  lists ← mapM (λ m,
    ends ← boundary_programs b !! m.1;
    r ← group !! m.1;
    if (ends : bool) then lane ← member_lane_indptr b !! m.1; Some [mkAttachment lane m.2 Epilogue]
    else if lora_program r then lane ← member_lane_indptr b !! m.1; Some [mkAttachment lane m.2 Adapter]
    else Some []) (imap pair (instance_ids b));
  Some (concat lists).

Definition build_step (group : list PendingRequest) : option (StepFire * list PendingRequest) :=
  group ← take_members (Some <$> group) (member_order (facts_of group));
  let build := build_batch_request group in
  insts ← instances_of build;
  atts ← attachments_of build group;
  Some (mkStepFire (mkStep (b_lanes build) atts (b_media build) (b_voxels build)) (b_cells build) insts (b_fire_ids build), group).

(** The steps, and the requests in their order; a wave takes as many passes as it has requests, at most. *)
Definition build_frame_submission (lim : SchedulerLimits) (waves : list (list PendingRequest)) :
    option (list StepFire * list PendingRequest) :=
  groups ← mapM (λ wave, wave_groups (length wave) lim wave) waves;
  steps ← mapM build_step (concat groups);
  Some (steps.*1, concat steps.*2).
End Batch.
