(* ===== verification/BatchThm.v ===== *)
(** What the building of a submission promises: every request of the waves is in one step,
    which the engine can run; the lanes, instances and rows of a step are aligned; and a
    wave that the frame policy sealed is one step, so that a group attends inside one.
    Before it the lemmas: the groups of a wave, the order of a group, and where the lanes
    of its members lie in the step. *)
From stdpp Require Import gmap sorting.
From S2P Require Import Prelude Batch.
From S2P Require Frame FrameSeal FrameThm.
Import Batch.

Module BatchRun.

(** ** Groups that fit *)

(** What requests take together, in numbers that do not saturate. *)
Definition usage_of (rs : list PendingRequest) : RequestCapacityUsage :=
  mkUsage (total (λ r, forward_requests (request_capacity_usage r)) rs)
    (total (λ r, forward_tokens (request_capacity_usage r)) rs) (total (λ r, page_refs (request_capacity_usage r)) rs).
Definition usage_le (u : RequestCapacityUsage) (lim : SchedulerLimits) : Prop :=
  (forward_requests u ≤ max_forward_requests lim)%N ∧ (forward_tokens u ≤ max_forward_tokens lim)%N ∧
  (page_refs u ≤ max_page_refs lim)%N.
(** The limits are below the largest [usize], so that a sum that saturates is over them. *)
Definition limits_ok (lim : SchedulerLimits) : Prop :=
  (max_forward_requests lim < u64_max)%N ∧ (max_forward_tokens lim < u64_max)%N ∧ (max_page_refs lim < u64_max)%N.
Definition admitted (lim : SchedulerLimits) (r : PendingRequest) : Prop := single_request_limit_error lim r = None.
(** Requests that an engine can run as one step. *)
Definition fits_step (lim : SchedulerLimits) (rs : list PendingRequest) : Prop :=
  NoDup (instance_id <$> rs) ∧ NoDup (omap pipeline_id rs) ∧ usage_le (usage_of rs) lim.

Lemma admitted_le lim r : admitted lim r → usage_le (request_capacity_usage r) lim.
Proof. unfold admitted, single_request_limit_error, usage_le. repeat case_decide; try done. lia. Qed.

Lemma within_le lim u : within lim u = true ↔ usage_le u lim.
Proof. unfold within, usage_le. rewrite !andb_true_iff, !bool_decide_eq_true. tauto. Qed.

Lemma sat_add_le a b l : (l < u64_max)%N → (saturating_add a b ≤ l)%N ↔ (a + b ≤ l)%N.
Proof. unfold saturating_add, sat_add. lia. Qed.

Lemma usage_of_snoc rs r u :
  group_usage u = usage_of rs →
  ∀ lim, limits_ok lim →
    usage_le (add_usage (group_usage u) (request_capacity_usage r)) lim ↔ usage_le (usage_of (rs ++ [r])) lim.
Proof.
  intros -> lim (H1 & H2 & H3). unfold usage_le, add_usage, usage_of. cbn. rewrite !total_app, !sat_add_le by done.
  cbn. rewrite !N.add_0_r. done.
Qed.

(** The group that has taken these requests. *)
Record holds (g : StepGroup) (rs : list PendingRequest) : Prop := {
  ho_instances : instances g = list_to_set (instance_id <$> rs);
  ho_pipelines : pipelines g = list_to_set (omap pipeline_id rs);
  ho_usage : group_usage g = usage_of rs;
}.

Lemma holds_nil : holds default_group [].
Proof. by split. Qed.

Lemma sat_add_exact a b : (a + b < u64_max)%N → saturating_add a b = (a + b)%N.
Proof. unfold saturating_add, sat_add. lia. Qed.

Lemma holds_push lim g rs r :
  limits_ok lim → holds g rs → usage_le (usage_of (rs ++ [r])) lim → holds (push lim g r).1 (rs ++ [r]).
Proof.
  intros (L1 & L2 & L3) [Hi Hp Hu] (H1 & H2 & H3). unfold usage_of in *. cbn in H1, H2, H3.
  rewrite !total_app in H1, H2, H3. cbn in H1, H2, H3. split; cbn.
  - rewrite Hi, fmap_app, list_to_set_app_L. cbn. set_solver.
  - rewrite Hp, omap_app, list_to_set_app_L. cbn. destruct (pipeline_id r); cbn; set_solver.
  - rewrite Hu. unfold add_usage, usage_of. cbn. rewrite !total_app. cbn. by rewrite !N.add_0_r, !sat_add_exact by lia.
Qed.

Lemma forward_requests_pos r : (0 < forward_requests (request_capacity_usage r))%N.
Proof. cbn. lia. Qed.

Lemma usage_requests_zero rs : forward_requests (usage_of rs) = 0%N → rs = [].
Proof.
  destruct rs as [|r rs]; [done|]. cbn [usage_of forward_requests]. rewrite total_cons.
  pose proof (forward_requests_pos r). lia.
Qed.

Lemma accepts_fits lim g rs r :
  limits_ok lim → holds g rs → fits_step lim rs → admitted lim r → accepts lim g r = true → fits_step lim (rs ++ [r]).
Proof.
  intros Hlim Hg [Hni [Hnp Hu]] Hr. pose proof Hg as [Hi Hp Hgu]. unfold accepts.
  destruct (decide (instance_id r ∈ instances g)) as [|Hin]; [done|].
  destruct (match pipeline_id r with Some _ => _ | None => _ end) eqn:Hpid; [done|]. intros Hacc. split; [|split].
  - rewrite fmap_app. apply NoDup_app. split; [done|]. split; [|apply NoDup_singleton].
    intros x Hx ->%list_elem_of_singleton. apply Hin. rewrite Hi. by apply elem_of_list_to_set.
  - rewrite omap_app. apply NoDup_app. split; [done|]. cbn. destruct (pipeline_id r) as [pid|]; [|split; [set_solver|constructor]].
    split; [|apply NoDup_singleton]. intros x Hx ->%list_elem_of_singleton.
    apply bool_decide_eq_false in Hpid. apply Hpid. rewrite Hp. by apply elem_of_list_to_set.
  - case_decide as Hz.
    + rewrite Hgu in Hz. apply usage_requests_zero in Hz as ->. apply admitted_le in Hr. unfold usage_le, usage_of in *. cbn in Hr |- *. lia.
    + apply within_le in Hacc. by apply (usage_of_snoc rs r g Hgu lim Hlim).
Qed.

Lemma fits_accepts lim g rs r :
  limits_ok lim → holds g rs → fits_step lim (rs ++ [r]) → accepts lim g r = true.
Proof.
  intros Hlim Hg (Hni & Hnp & Hu). pose proof Hg as [Hi Hp Hgu]. unfold accepts.
  destruct (decide (instance_id r ∈ instances g)) as [Hin|_].
  { exfalso. rewrite Hi, elem_of_list_to_set in Hin. rewrite fmap_app in Hni.
    apply (NoDup_app_disjoint _ _ _ Hni Hin). by left. }
  destruct (match pipeline_id r with Some _ => _ | None => _ end) eqn:Hpid.
  { exfalso. destruct (pipeline_id r) as [pid|] eqn:Hr; [|done]. apply bool_decide_eq_true in Hpid.
    rewrite Hp, elem_of_list_to_set in Hpid. rewrite omap_app in Hnp. cbn in Hnp. rewrite Hr in Hnp.
    apply (NoDup_app_disjoint _ _ _ Hnp Hpid). by left. }
  case_decide; [done|]. apply within_le. by apply (usage_of_snoc rs r g Hgu lim Hlim).
Qed.

Lemma fits_prefix lim rs rs' : fits_step lim (rs ++ rs') → fits_step lim rs.
Proof.
  intros (Hi & Hp & Hu). rewrite fmap_app in Hi. rewrite omap_app in Hp. apply NoDup_app in Hi as [Hi _].
  apply NoDup_app in Hp as [Hp _]. split; [done|]. split; [done|].
  unfold usage_le, usage_of in *. cbn in Hu |- *. rewrite !total_app in Hu. lia.
Qed.

Lemma split_group_perm lim g closed d :
  (split_group lim g closed d).1 ++ (split_group lim g closed d).2 ≡ₚ d.
Proof.
  revert g closed. induction d as [|r d IH]; intros g closed; [done|]. cbn [split_group].
  destruct (closed || negb (accepts lim g r)).
  - specialize (IH g closed). destruct (split_group lim g closed d) as [group rest]. cbn in IH |- *.
    rewrite <-IH. solve_perm.
  - destruct (push lim g r) as [g' closed']. specialize (IH g' closed').
    destruct (split_group lim g' closed' d) as [group rest]. cbn in IH |- *. by rewrite IH.
Qed.

Lemma split_group_fits lim g closed rs d :
  limits_ok lim → holds g rs → fits_step lim rs → Forall (admitted lim) d →
  fits_step lim (rs ++ (split_group lim g closed d).1).
Proof.
  intros Hlim. revert g closed rs. induction d as [|r d IH]; intros g closed rs Hg Hfit Hd; cbn [split_group].
  { by rewrite app_nil_r. }
  apply Forall_cons in Hd as [Hr Hd]. destruct closed; cbn [orb].
  { specialize (IH g true rs Hg Hfit Hd). by destruct (split_group lim g true d). }
  destruct (accepts lim g r) eqn:Hacc; cbn [negb].
  - pose proof (accepts_fits lim g rs r Hlim Hg Hfit Hr Hacc) as Hfit'. pose proof Hfit' as (_ & _ & Hu).
    pose proof (holds_push lim g rs r Hlim Hg Hu) as Hg'. destruct (push lim g r) as [g' closed'].
    specialize (IH g' closed' _ Hg' Hfit' Hd). destruct (split_group lim g' closed' d). cbn in IH |- *.
    by rewrite cons_middle, app_assoc.
  - specialize (IH g false rs Hg Hfit Hd). by destruct (split_group lim g false d).
Qed.

Lemma split_group_head lim r d :
  ∃ group rest, split_group lim default_group false (r :: d) = (r :: group, rest) ∧ length rest ≤ length d.
Proof.
  assert (accepts lim default_group r = true) as Hacc.
  { unfold accepts. cbn. destruct (decide (instance_id r ∈ ∅)); [set_solver|]. by destruct (pipeline_id r). }
  pose proof (split_group_perm lim default_group false (r :: d)) as Hp. cbn [split_group] in *. rewrite Hacc in *.
  cbn [orb negb] in *. destruct (push lim default_group r) as [g' closed'].
  destruct (split_group lim g' closed' d) as [group rest]. exists group, rest. split; [done|].
  apply Permutation_length in Hp. rewrite length_app in Hp. cbn in Hp. lia.
Qed.

Lemma fits_nil lim : fits_step lim [].
Proof. split; [constructor|]. split; [constructor|]. unfold usage_le. cbn. lia. Qed.

Lemma wave_groups_spec fuel lim d :
  limits_ok lim → Forall (admitted lim) d → length d ≤ fuel →
  ∃ gs, wave_groups fuel lim d = Some gs ∧ concat gs ≡ₚ d ∧ Forall (λ g, g ≠ [] ∧ fits_step lim g) gs.
Proof.
  intros Hlim. revert d. induction fuel as [|fuel IH]; intros [|r d] Hd Hle; cbn in Hle; try lia.
  { by exists []. } { by exists []. }
  cbn [wave_groups]. destruct (split_group_head lim r d) as (group & rest & Heq & Hlen).
  pose proof (split_group_perm lim default_group false (r :: d)) as Hp.
  pose proof (split_group_fits lim default_group false [] (r :: d) Hlim holds_nil (fits_nil lim) Hd) as Hfit.
  rewrite Heq in Hp, Hfit |- *. cbn [app fst snd] in Hp, Hfit.
  destruct (IH rest) as (gs & -> & Hgs & Hall); [|lia|].
  { rewrite <-Hp in Hd. cbn in Hd. apply Forall_cons in Hd as [_ Hd]. by apply Forall_app in Hd as [_ ?]. }
  exists ((r :: group) :: gs). split; [done|]. split; [|by constructor].
  cbn [concat]. by rewrite Hgs.
Qed.

(** ** The order in a step *)

Lemma member_order_perm members : member_order members ≡ₚ seq 0 (length members).
Proof. apply merge_sort_Permutation. Qed.

Lemma take_members_mapM slots (group : list PendingRequest) order :
  NoDup order → (∀ i, i ∈ order → slots !! i = Some <$> group !! i) →
  take_members slots order = mapM (λ i, group !! i) order.
Proof.
  revert slots. induction order as [|i order IH]; intros slots Hnd Hs; [done|]. cbn.
  apply NoDup_cons in Hnd as [Hi Hnd]. rewrite (Hs i) by by left. destruct (group !! i) as [r|]; [|done]. cbn.
  rewrite IH; [done|done|]. intros j Hj. rewrite list_lookup_insert_ne by (intros ->; done). apply Hs. by right.
Qed.

Lemma length_facts_of group : length (facts_of group) = length group.
Proof. unfold facts_of. apply length_imap. Qed.

Lemma members_taken group :
  ∃ members, take_members (Some <$> group) (member_order (facts_of group)) = Some members ∧ members ≡ₚ group.
Proof.
  rewrite (take_members_mapM _ group).
  - destruct (mapM_Permutation (λ i, group !! i) (member_order (facts_of group)) (seq 0 (length group)) group)
      as (members & Hm & Hp); [by rewrite member_order_perm, length_facts_of| |by exists members].
    rewrite mapM_lookup_seq by done. by rewrite take_ge.
  - rewrite member_order_perm. apply NoDup_seq.
  - intros i _. by rewrite list_lookup_fmap.
Qed.

(** ** Lanes side by side *)

Definition lanes_of (rs : list PendingRequest) : list Lane := rs ≫= (λ r, lanes (request r)).
Lemma lanes_of_snoc rs r : lanes_of (rs ++ [r]) = lanes_of rs ++ lanes (request r).
Proof. unfold lanes_of. rewrite bind_app. cbn. by rewrite app_nil_r. Qed.

(** Where the lanes of a member begin. *)
Definition base (rs : list PendingRequest) (i : nat) : N := clamp_u32 (length (lanes_of (take i rs))).

Lemma base_snoc rs r i : i ≤ length rs → base (rs ++ [r]) i = base rs i.
Proof. intros Hi. unfold base. by rewrite take_app_le. Qed.

(** The rows of each member, with its lanes' place in the step. *)
Definition placed {A B} (rows : PendingRequest → list A) (at_base : N → A → B) (rs : list PendingRequest) : list B :=
  concat (imap (λ i r, at_base (base rs i) <$> rows r) rs).

Lemma placed_snoc {A B} (rows : PendingRequest → list A) (at_base : N → A → B) rs r :
  placed rows at_base (rs ++ [r]) = placed rows at_base rs ++ (at_base (base rs (length rs)) <$> rows r).
Proof.
  unfold placed. rewrite imap_app, concat_app. cbn. rewrite app_nil_r, Nat.add_0_r, (base_snoc rs r) by done. f_equal.
  f_equal. apply imap_ext. intros i x Hx. by rewrite base_snoc by (apply lookup_lt_Some in Hx; lia).
Qed.

Definition media_at (b : N) (row : StepMedia) : StepMedia := mkMedia (sat_add u32_max (md_lane row) b) (md_rows row).
Definition voxels_at (b : N) (row : StepVoxels) : StepVoxels := mkVoxels (sat_add u32_max (vx_lane row) b) (clips row).

Lemma build_batch_spec rs :
  build_batch_request rs = mkBuild (lanes_of rs) (placed (λ r, media (request r)) media_at rs)
    (placed (λ r, voxels (request r)) voxels_at rs) (instance_id <$> rs) ((λ r, boundary_program (request r)) <$> rs)
    ((λ i, base rs i) <$> seq 0 (S (length rs))) (terminal_cell <$> rs) (logical_fire_id <$> rs).
Proof.
  induction rs as [|r rs IH] using rev_ind; [done|].
  unfold build_batch_request in *. rewrite foldl_snoc, IH. unfold add_request. cbn [b_lanes b_media b_voxels instance_ids
    boundary_programs member_lane_indptr b_cells b_fire_ids].
  rewrite !placed_snoc, !fmap_app, lanes_of_snoc, length_app. cbn [length fmap list_fmap]. 
  assert (base rs (length rs) = clamp_u32 (length (lanes_of rs))) as Hb by (unfold base; by rewrite take_ge).
  rewrite Hb. f_equal.
  replace (length (rs ++ [r])) with (S (length rs)) by (rewrite length_app; cbn; lia).
  rewrite (seq_S (S (length rs))), fmap_app. f_equal.
  - apply list_fmap_ext. intros j i Hi. apply lookup_seq in Hi as [-> Hi]. by rewrite base_snoc by lia.
  - cbn. unfold base. rewrite take_ge by (rewrite length_app; cbn; lia). by rewrite lanes_of_snoc, length_app.
Qed.

Lemma mapM_imap {A B C} (f : B → option C) (h : nat → A → B) (g : nat → A → C) (l : list A) :
  (∀ i x, l !! i = Some x → f (h i x) = Some (g i x)) → mapM f (imap h l) = Some (imap g l).
Proof.
  intros Hf. apply mapM_Some. apply Forall2_same_length_lookup. split; [by rewrite !length_imap|].
  intros i y z. rewrite !list_lookup_imap. destruct (l !! i) as [x|] eqn:Hx; [|done]. intros [= <-] [= <-]. auto.
Qed.

Lemma imap_pair_fmap {A B} (f : A → B) (l : list A) : imap pair (f <$> l) = imap (λ i x, (i, f x)) l.
Proof.
  apply list_eq. intros i. rewrite !list_lookup_imap, list_lookup_fmap. by destruct (l !! i).
Qed.

Lemma indptr_lookup rs i : i ≤ length rs → ((λ i, base rs i) <$> seq 0 (S (length rs))) !! i = Some (base rs i).
Proof. intros Hi. rewrite list_lookup_fmap, lookup_seq_lt by lia. done. Qed.

Lemma lanes_take_S rs i r :
  rs !! i = Some r → lanes_of (take (S i) rs) = lanes_of (take i rs) ++ lanes (request r).
Proof. intros Hr. by rewrite (take_S_r _ _ _ Hr), lanes_of_snoc. Qed.

Lemma lanes_of_split rs i r :
  rs !! i = Some r → lanes_of rs = lanes_of (take i rs) ++ lanes (request r) ++ lanes_of (drop (S i) rs).
Proof.
  intros Hr. rewrite <-(take_drop_middle rs i r Hr) at 1. unfold lanes_of. rewrite bind_app, bind_cons. done.
Qed.

(** A step of at most so many lanes that their numbers fit. *)
Definition countable (rs : list PendingRequest) : Prop := (N.of_nat (length (lanes_of rs)) ≤ u32_max)%N.

Lemma base_exact rs i r :
  countable rs → rs !! i = Some r → base rs i = N.of_nat (length (lanes_of (take i rs))) ∧
  base rs (S i) = (base rs i + N.of_nat (length (lanes (request r))))%N.
Proof.
  intros Hc Hr. unfold countable in Hc. rewrite (lanes_of_split rs i r Hr), !length_app in Hc.
  unfold base, clamp_u32. rewrite (lanes_take_S rs i r Hr), length_app. lia.
Qed.

Definition members_instances (rs : list PendingRequest) : list N :=
  concat (imap (λ _ r, replicate (length (lanes (request r))) (instance_id r)) rs).
Definition member_attachments (rs : list PendingRequest) : list Attachment :=
  concat (imap (λ i r,
    if boundary_program (request r) then [mkAttachment (base rs i) (instance_id r) Epilogue]
    else if lora_program r then [mkAttachment (base rs i) (instance_id r) Adapter] else []) rs).

Lemma instances_of_spec rs : countable rs → instances_of (build_batch_request rs) = Some (members_instances rs).
Proof.
  intros Hc. unfold instances_of, members_instances. rewrite build_batch_spec.
  cbn [instance_ids member_lane_indptr]. rewrite imap_pair_fmap.
  erewrite mapM_imap; [done|]. intros i r Hr. cbn [fst snd]. pose proof (lookup_lt_Some _ _ _ Hr).
  rewrite !indptr_lookup by lia. destruct (base_exact rs i r Hc Hr) as [_ HS].
  rewrite Nat.add_1_r, HS. cbn [mbind option_bind]. unfold sub_u32. rewrite decide_True by lia. cbn [mbind option_bind].
  do 2 f_equal. lia.
Qed.

Lemma attachments_of_spec rs : attachments_of (build_batch_request rs) rs = Some (member_attachments rs).
Proof.
  unfold attachments_of, member_attachments. rewrite build_batch_spec.
  cbn [instance_ids member_lane_indptr boundary_programs]. rewrite imap_pair_fmap.
  erewrite mapM_imap; [done|]. intros i r Hr. cbn [fst snd]. pose proof (lookup_lt_Some _ _ _ Hr).
  rewrite (list_lookup_fmap _ rs), Hr, indptr_lookup by lia. cbn. by destruct (boundary_program (request r)), (lora_program r).
Qed.

(** The step of members in their order. *)
Definition step_of (ms : list PendingRequest) : StepFire :=
  mkStepFire (mkStep (lanes_of ms) (member_attachments ms) (placed (λ r, media (request r)) media_at ms)
    (placed (λ r, voxels (request r)) voxels_at ms)) (terminal_cell <$> ms) (members_instances ms) (logical_fire_id <$> ms).

Lemma lanes_of_perm rs rs' : rs ≡ₚ rs' → lanes_of rs ≡ₚ lanes_of rs'.
Proof. intros Hp. unfold lanes_of. by rewrite Hp. Qed.

Lemma build_step_spec group :
  countable group → ∃ ms, ms ≡ₚ group ∧ build_step group = Some (step_of ms, ms).
Proof.
  intros Hc. destruct (members_taken group) as (ms & Htake & Hp). exists ms. split; [done|].
  unfold build_step. rewrite Htake. cbn [mbind option_bind].
  assert (countable ms) as Hc' by (unfold countable; by rewrite (lanes_of_perm ms group Hp)).
  rewrite instances_of_spec, attachments_of_spec by done. cbn [mbind option_bind]. by rewrite build_batch_spec.
Qed.

Lemma fits_countable lim rs : (max_forward_requests lim ≤ u32_max)%N → fits_step lim rs → countable rs.
Proof.
  intros Hlim (_ & _ & Hu & _). unfold countable.
  enough (N.of_nat (length (lanes_of rs)) ≤ forward_requests (usage_of rs))%N by lia. clear.
  induction rs as [|r rs IH]; [done|]. unfold lanes_of, usage_of in *. rewrite bind_cons, length_app.
  cbn [forward_requests] in *. rewrite total_cons.
  set (t := total _ rs) in *. cbn. unfold wire_row_count. lia.
Qed.

Lemma build_steps_spec lim gs :
  (max_forward_requests lim ≤ u32_max)%N → Forall (λ g, g ≠ [] ∧ fits_step lim g) gs →
  ∃ mss, mapM build_step gs = Some ((λ ms, (step_of ms, ms)) <$> mss) ∧ Forall2 (λ g ms, ms ≡ₚ g) gs mss.
Proof.
  intros Hlim. induction 1 as [|g gs [_ Hg] _ (mss & Hm & Hall)]; [by exists []|].
  destruct (build_step_spec g) as (ms & Hp & Hb); [by eapply fits_countable|].
  exists (ms :: mss). split; [|by constructor]. cbn. rewrite Hb. cbn. by rewrite Hm.
Qed.
End BatchRun.

Import BatchRun.

Module BatchThm.

(** ** Steps of a submission *)

(** C28. A submission of waves of requests that the engine admits is built without a panic.
    Each wave becomes steps of its own, the waves in order; a step is not empty, has no
    two requests of an instance or of a pipeline, and is within the limits of the engine;
    every request is in one step, and the requests returned are those of the steps. *)
Theorem frame_submission_correct lim waves :
  limits_ok lim → (max_forward_requests lim ≤ u32_max)%N → (∀ r, r ∈ concat waves → admitted lim r) →
  ∃ steps flat gss, build_frame_submission lim waves = Some (steps, flat) ∧
    Forall2 (λ wave gs, concat gs ≡ₚ wave) waves gss ∧
    Forall2 (λ g sf, g ≠ [] ∧ fits_step lim g ∧ logical_fire_ids sf ≡ₚ logical_fire_id <$> g) (concat gss) steps ∧
    concat (logical_fire_ids <$> steps) = logical_fire_id <$> flat ∧ flat ≡ₚ concat waves.
Proof.
  intros Hlim Hmax Hadm.
  assert (∃ gss, mapM (λ wave, wave_groups (length wave) lim wave) waves = Some gss ∧
    Forall2 (λ wave gs, concat gs ≡ₚ wave) waves gss ∧
    Forall (λ g, g ≠ [] ∧ fits_step lim g) (concat gss)) as (gss & Hgss & Hw & Hall).
  { induction waves as [|w waves IH]; [by exists []|]. cbn [concat] in Hadm.
    destruct (wave_groups_spec (length w) lim w Hlim) as (gs & Hgs & Hp & Hf); [apply Forall_forall; set_solver|done|].
    destruct IH as (gss & Hm & Hw & Hall); [set_solver|]. exists (gs :: gss). cbn. rewrite Hgs. cbn. rewrite Hm. cbn.
    split; [done|]. split; [by constructor|]. by apply Forall_app. }
  destruct (build_steps_spec lim (concat gss) Hmax Hall) as (mss & Hb & Hmss).
  unfold build_frame_submission. rewrite Hgss. cbn [mbind option_bind]. rewrite Hb. cbn [mbind option_bind].
  eexists _, _, gss. split; [done|]. split; [done|]. rewrite <-!list_fmap_compose.
  change (fst ∘ λ ms, (step_of ms, ms)) with step_of. change (snd ∘ λ ms, (step_of ms, ms)) with (λ ms : list PendingRequest, ms).
  rewrite list_fmap_id. clear Hgss Hb. split; [|split].
  - induction Hmss as [|g ms gs mss Hp _ IH]; [constructor|]. apply Forall_cons in Hall as [[Hne Hf] Hall].
    constructor; [|by apply IH]. split; [done|]. split; [done|]. cbn. by rewrite Hp.
  - clear Hmss. induction mss as [|ms mss IH]; [done|]. cbn. rewrite fmap_app. f_equal. exact IH.
  - transitivity (concat (concat gss)).
    + clear Hw Hall. induction Hmss as [|g ms gs mss Hp _ IH]; [done|]. cbn. by rewrite Hp, IH.
    + clear Hmss Hall Hadm. induction Hw as [|w gs waves gss Hp _ IH]; [done|]. cbn. by rewrite concat_app, Hp, IH.
Qed.

(** ** A step, lane by lane *)

Lemma concat_imap_const {A B} (f : A → list B) l : concat (imap (λ _ x, f x) l) = l ≫= f.
Proof.
  induction l as [|x l IH]; [done|]. cbn. f_equal. exact IH.
Qed.

Lemma length_members_instances rs : length (members_instances rs) = length (lanes_of rs).
Proof.
  unfold members_instances, lanes_of. rewrite concat_imap_const.
  induction rs as [|r rs IH]; [done|]. cbn. by rewrite !length_app, length_replicate, IH.
Qed.

Lemma member_lanes ms i r j l :
  countable ms → ms !! i = Some r → lanes (request r) !! j = Some l →
  lanes_of ms !! (N.to_nat (base ms i) + j) = Some l ∧
  members_instances ms !! (N.to_nat (base ms i) + j) = Some (instance_id r).
Proof.
  intros Hc Hr Hl. destruct (base_exact ms i r Hc Hr) as [-> _]. rewrite Nat2N.id. split.
  - rewrite (lanes_of_split ms i r Hr), lookup_app_r, Nat.add_comm, Nat.add_sub by lia. by apply lookup_app_l_Some.
  - unfold members_instances. rewrite concat_imap_const. rewrite <-(take_drop_middle ms i r Hr), bind_app, bind_cons.
    rewrite <-concat_imap_const. fold (members_instances (take i ms)).
    rewrite take_app_length' by (rewrite length_take; apply lookup_lt_Some in Hr; lia).
    rewrite lookup_app_r, length_members_instances, Nat.add_comm, Nat.add_sub by (rewrite length_members_instances; lia).
    apply lookup_app_l_Some, lookup_replicate. split; [done|]. by eapply lookup_lt_Some.
Qed.

Lemma elem_of_concat_imap {A B} (f : nat → A → list B) l i x y :
  l !! i = Some x → y ∈ f i x → y ∈ concat (imap f l).
Proof.
  intros Hi Hy. apply elem_of_concat. exists (f i x). split; [|done].
  apply list_elem_of_lookup. exists i. by rewrite list_lookup_imap, Hi.
Qed.

(** A row of a request names one of its lanes. *)
Definition rows_inside (r : PendingRequest) : Prop :=
  (∀ row, row ∈ media (request r) → (md_lane row < N.of_nat (length (lanes (request r))))%N) ∧
  (∀ row, row ∈ voxels (request r) → (vx_lane row < N.of_nat (length (lanes (request r))))%N).

Lemma base_no_overflow ms i r n :
  countable ms → ms !! i = Some r → (n < N.of_nat (length (lanes (request r))))%N →
  sat_add u32_max n (base ms i) = (n + base ms i)%N.
Proof.
  intros Hc Hr Hn. destruct (base_exact ms i r Hc Hr) as [Hb _]. unfold countable in Hc.
  rewrite (lanes_of_split ms i r Hr), !length_app in Hc. unfold sat_add. lia.
Qed.

(** C29. The members of a step are laid out one after another: each lane of a member is in
    the step, from an offset of the member on, with the member's instance beside it; the
    rows of images and voxels name the same lane of the step that they named of the
    member; and the program that the member runs is attached at its first lane. *)
Theorem step_aligned group sf ms :
  countable group → (∀ r, r ∈ group → rows_inside r) → build_step group = Some (sf, ms) →
  ms ≡ₚ group ∧ terminal_cells sf = terminal_cell <$> ms ∧ logical_fire_ids sf = logical_fire_id <$> ms ∧
  length (st_instances sf) = length (st_lanes (submission sf)) ∧
  ∀ i r, ms !! i = Some r → ∃ at_, 
    (∀ j l, lanes (request r) !! j = Some l →
      st_lanes (submission sf) !! (N.to_nat at_ + j) = Some l ∧ st_instances sf !! (N.to_nat at_ + j) = Some (instance_id r)) ∧
    (∀ row, row ∈ media (request r) → mkMedia (md_lane row + at_) (md_rows row) ∈ st_media (submission sf)) ∧
    (∀ row, row ∈ voxels (request r) → mkVoxels (vx_lane row + at_) (clips row) ∈ st_voxels (submission sf)) ∧
    (boundary_program (request r) = true → mkAttachment at_ (instance_id r) Epilogue ∈ attachments (submission sf)) ∧
    (boundary_program (request r) = false → lora_program r = true →
      mkAttachment at_ (instance_id r) Adapter ∈ attachments (submission sf)).
Proof.
  intros Hc Hin Hb. destruct (build_step_spec group Hc) as (ms' & Hp & Hb'). rewrite Hb' in Hb. injection Hb as <- <-.
  assert (countable ms') as Hc' by (unfold countable; by rewrite (lanes_of_perm _ _ Hp)).
  split_and!; [done..|apply length_members_instances|]. intros i r Hr. exists (base ms' i).
  assert (rows_inside r) as [Hmd Hvx].
  { apply Hin. rewrite <-Hp. by eapply list_elem_of_lookup_2. }
  split_and!.
  - intros j l Hl. by apply member_lanes.
  - intros row Hrow. eapply elem_of_concat_imap; [exact Hr|]. apply list_elem_of_fmap. exists row. split; [|done].
    unfold media_at. rewrite (base_no_overflow ms' i r) by auto. done.
  - intros row Hrow. eapply elem_of_concat_imap; [exact Hr|]. apply list_elem_of_fmap. exists row. split; [|done].
    unfold voxels_at. rewrite (base_no_overflow ms' i r) by auto. done.
  - intros Hep. eapply elem_of_concat_imap; [exact Hr|]. rewrite Hep. by left.
  - intros Hep Hlo. eapply elem_of_concat_imap; [exact Hr|]. rewrite Hep, Hlo. by left.
Qed.

(** ** From a sealed wave to a step *)

(** Every request has a lane, and no lane more than so many pages. *)
Definition of_pages (n : N) (r : PendingRequest) : Prop :=
  lanes (request r) ≠ [] ∧ ∀ l, l ∈ lanes (request r) → (N.of_nat (length (pages l)) ≤ n)%N.

Lemma of_pages_usage n r :
  of_pages n r →
  (page_refs (request_capacity_usage r) ≤ n * forward_requests (request_capacity_usage r))%N ∧
  (0 < forward_tokens (request_capacity_usage r))%N.
Proof.
  intros [Hne Hp]. unfold request_capacity_usage, fire_pages, fire_tokens, wire_row_count.
  cbn [page_refs forward_requests forward_tokens]. split.
  - transitivity (n * N.of_nat (length (lanes (request r))))%N; [|nia].
    induction (lanes (request r)) as [|l ls IH]; [cbn; lia|]. rewrite bind_cons, length_app. cbn [length].
    assert (N.of_nat (length (ls ≫= pages)) ≤ n * N.of_nat (length ls))%N as Hls.
    { destruct ls; [cbn; lia|]. apply IH; [done|]. intros; apply Hp; by right. }
    specialize (Hp l ltac:(by left)). lia.
  - destruct (lanes (request r)) as [|l ls]; [done|]. cbn. lia.
Qed.

Lemma usage_of_pages n rs :
  Forall (of_pages n) rs → (page_refs (usage_of rs) ≤ n * forward_requests (usage_of rs))%N.
Proof.
  induction 1 as [|r rs Hr _ IH]; [cbn; lia|]. cbn [usage_of page_refs forward_requests] in *. rewrite !total_cons.
  apply of_pages_usage in Hr as [Hr _]. lia.
Qed.

Lemma usage_of_app rs rs' :
  usage_of (rs ++ rs') = mkUsage (forward_requests (usage_of rs) + forward_requests (usage_of rs'))
    (forward_tokens (usage_of rs) + forward_tokens (usage_of rs')) (page_refs (usage_of rs) + page_refs (usage_of rs')).
Proof. unfold usage_of. cbn. by rewrite !total_app. Qed.

Lemma push_closed lim g r :
  let u := group_usage (push lim g r).1 in
  (push lim g r).2 = bool_decide (max_forward_requests lim ≤ forward_requests u)%N ||
    bool_decide (max_forward_tokens lim ≤ forward_tokens u)%N || bool_decide (max_page_refs lim ≤ page_refs u)%N.
Proof. done. Qed.

Lemma split_group_whole lim n g rs d :
  limits_ok lim → (0 < n)%N → (n * max_forward_requests lim ≤ max_page_refs lim)%N →
  holds g rs → Forall (of_pages n) (rs ++ d) → fits_step lim (rs ++ d) → split_group lim g false d = (d, []).
Proof.
  intros Hlim Hn Hrefs. revert g rs. induction d as [|r d IH]; intros g rs Hg Hpages Hfit; [done|]. cbn [split_group orb].
  rewrite cons_middle, app_assoc in Hpages, Hfit.
  pose proof (fits_prefix _ _ _ Hfit) as Hfit1. pose proof Hfit1 as (_ & _ & Hu1). pose proof Hfit as (_ & _ & Hu).
  rewrite (fits_accepts lim g rs r Hlim Hg Hfit1).
  cbn [negb]. pose proof (holds_push lim g rs r Hlim Hg Hu1) as Hg'.
  pose proof (push_closed lim g r) as Hclosed. rewrite (ho_usage _ _ Hg') in Hclosed.
  destruct (push lim g r) as [g' closed']. cbn [fst snd] in Hg', Hclosed.
  assert (d = [] ∨ closed' = false) as [->| ->]; [|by cbn; destruct closed'|by rewrite (IH g' (rs ++ [r]))].
  destruct d as [|r' d]; [by left|]. right. rewrite Hclosed.
  apply Forall_app in Hpages as [Hpre [Hr' _]%Forall_cons]. apply usage_of_pages in Hpre.
  apply of_pages_usage in Hr' as [_ Htok]. pose proof (forward_requests_pos r') as Hreq.
  rewrite (usage_of_app (rs ++ [r])) in Hu. destruct Hu as (H1 & H2 & _).
  cbn [usage_of forward_requests forward_tokens page_refs] in *. rewrite !total_cons in H1, H2.
  apply orb_false_iff. split; [apply orb_false_iff; split|]; apply bool_decide_eq_false; lia || nia.
Qed.

(** Requests that fit together, of lanes of so many pages, are one group. *)
Lemma one_group lim n rs :
  limits_ok lim → (0 < n)%N → (n * max_forward_requests lim ≤ max_page_refs lim)%N →
  rs ≠ [] → Forall (of_pages n) rs → fits_step lim rs → wave_groups (length rs) lim rs = Some [rs].
Proof.
  intros Hlim Hn Hrefs Hne Hpages Hfit. destruct rs as [|r rs]; [done|]. cbn [wave_groups length].
  rewrite (split_group_whole lim n default_group [] (r :: rs)) by (done || apply holds_nil).
  by destruct rs.
Qed.

(** What the policy was told of a request. *)
Definition told (r : PendingRequest) : N * N * N :=
  (logical_fire_id r, forward_requests (request_capacity_usage r), forward_tokens (request_capacity_usage r)).
Definition placed_as (f : Frame.Frame.PlacedFire) : N * N * N :=
  (Frame.Frame.fire_id f, Frame.Frame.rows f, Frame.Frame.tokens f).

Lemma told_total (g : N * N * N → N) rs fs :
  told <$> rs ≡ₚ placed_as <$> fs → total (λ r, g (told r)) rs = total (λ f, g (placed_as f)) fs.
Proof. intros Hp. rewrite <-(total_fmap told), <-(total_fmap placed_as). by apply total_perm. Qed.

(** C27. A wave that the frame policy seals runs as one step: when the policy has the limits
    of the engine, and an engine takes as many page references as its lanes may have, the
    requests of a wave, one for each fire the policy put into it, of instances and
    pipelines of their own, make one group; so the members of an attention group are in
    one step. *)
Theorem sealed_wave_is_one_step sched p plan p' lim n :
  Frame.Frame.k p ≠ 0 →
  (∀ id l f, Frame.Frame.lanes p !! id = Some l → f ∈ Frame.Frame.frames l → FrameThm.FrameThm.spread (Frame.Frame.k p) f) →
  Frame.Frame.seal sched p = Some (Some plan, p') →
  limits_ok lim → max_forward_requests lim = Frame.Frame.max_wave_rows p →
  max_forward_tokens lim = Frame.Frame.max_wave_tokens p →
  (0 < n)%N → (n * max_forward_requests lim ≤ max_page_refs lim)%N →
  ∃ sf, Frame.Frame.sealed p' = Frame.Frame.sealed p ++ [sf] ∧
    ∀ w ids reqs, Frame.Frame.waves sf !! w = Some ids → reqs ≠ [] →
      told <$> reqs ≡ₚ placed_as <$> FrameSeal.FrameSeal.of_wave w (FrameThm.FrameThm.next_fires p (Frame.Frame.members sf)) →
      NoDup (instance_id <$> reqs) → NoDup (omap pipeline_id reqs) → Forall (of_pages n) reqs →
      logical_fire_id <$> reqs ≡ₚ ids ∧ wave_groups (length reqs) lim reqs = Some [reqs].
Proof.
  intros Hk Hspread Hseal Hlim Hrows Htoks Hn Hrefs.
  destruct (FrameThm.FrameThm.sealed_fires sched p plan p' Hk Hseal) as (sf & placed & Hs & _ & _ & Hw & Hfires & Hfit & Hnext).
  exists sf. split; [done|]. intros w ids reqs Hids Hne Htold Hni Hnp Hpages.
  split.
  { rewrite Hw in Hids. apply FrameThm.FrameThm.wave_of in Hids as [_ ->].
    rewrite <-(FrameThm.FrameThm.of_wave_perm w _ _ Hfires).
    apply (fmap_Permutation (λ x, x.1.1)) in Htold. by rewrite <-!list_fmap_compose in Htold. }
  apply (one_group lim n); [done..|]. split; [done|]. split; [done|].
  destruct (FrameThm.FrameThm.sealed_bound p placed _ w Hfires Hfit Hspread Hnext) as [H1 H2].
  pose proof (told_total (λ x, x.1.2) _ _ Htold) as Hr. pose proof (told_total (λ x, x.2) _ _ Htold) as Ht. cbn [told placed_as fst snd] in Hr, Ht.
  pose proof (usage_of_pages n reqs Hpages) as Hpg.
  unfold usage_le. cbn [usage_of forward_requests forward_tokens page_refs] in *.
  assert (total (λ r, forward_requests (request_capacity_usage r)) reqs ≤ max_forward_requests lim)%N as Hb.
  { rewrite Hrows, Hr. exact H1. }
  split; [done|]. split; [|nia]. rewrite Htoks, Ht. exact H2.
Qed.

(** ** A later fire goes first *)

(** The requests leave room in a step for one more of each of what is limited. *)
Definition room (lim : SchedulerLimits) (rs : list PendingRequest) : Prop :=
  (forward_requests (usage_of rs) < max_forward_requests lim)%N ∧
  (forward_tokens (usage_of rs) < max_forward_tokens lim)%N ∧ (page_refs (usage_of rs) < max_page_refs lim)%N.

(** A group takes requests that fit and leave room, and is not closed by them. *)
Lemma split_group_taken lim d : ∀ pre g rs,
  limits_ok lim → holds g rs → fits_step lim (rs ++ pre) → room lim (rs ++ pre) →
  ∃ g', holds g' (rs ++ pre) ∧
    split_group lim g false (pre ++ d) = (pre ++ (split_group lim g' false d).1, (split_group lim g' false d).2).
Proof.
  induction pre as [|r pre IH]; intros g rs Hlim Hg Hfit Hroom.
  { exists g. rewrite app_nil_r. split; [done|]. cbn. by destruct (split_group lim g false d). }
  rewrite cons_middle, app_assoc in Hfit, Hroom. pose proof (fits_prefix _ _ _ Hfit) as Hfit1.
  pose proof (holds_push lim g rs r Hlim Hg ltac:(apply Hfit1)) as Hg'. pose proof (push_closed lim g r) as Hclosed.
  cbn [app split_group orb]. rewrite (fits_accepts lim g rs r Hlim Hg Hfit1). cbn [negb].
  rewrite (ho_usage _ _ Hg') in Hclosed. destruct (push lim g r) as [g' closed]. cbn [fst snd] in *.
  assert (closed = false) as ->.
  { rewrite Hclosed. unfold room in Hroom. rewrite usage_of_app in Hroom. destruct Hroom as (H1 & H2 & H3). cbn [forward_requests forward_tokens page_refs] in *.
    apply orb_false_iff. split; [apply orb_false_iff; split|]; apply bool_decide_eq_false; lia. }
  destruct (IH g' (rs ++ [r]) Hlim Hg' Hfit Hroom) as (g2 & Hg2 & ->). exists g2. by rewrite cons_middle, app_assoc.
Qed.

(** A request that has no room in the group is put off, and the next that fits is taken. *)
Lemma split_group_overtakes lim pre b c rest :
  limits_ok lim → pre ≠ [] → fits_step lim (pre ++ [c]) → room lim pre → ¬ usage_le (usage_of (pre ++ [b])) lim →
  ∃ more later, split_group lim default_group false (pre ++ b :: c :: rest) = (pre ++ c :: more, b :: later).
Proof.
  intros Hlim Hne Hfit Hroom Hb. pose proof (fits_prefix _ _ _ Hfit) as Hpre.
  destruct (split_group_taken lim (b :: c :: rest) pre default_group [] Hlim holds_nil Hpre Hroom) as (g & Hg & ->).
  assert (accepts lim g b = false) as Hrej.
  { unfold accepts. destruct (decide _); [done|]. destruct (match pipeline_id b with Some _ => _ | None => _ end); [done|].
    case_decide as Hz; [rewrite (ho_usage _ _ Hg) in Hz; by apply usage_requests_zero in Hz|].
    destruct (within lim _) eqn:Hw; [|done]. apply within_le in Hw.
    by apply (usage_of_snoc pre b g (ho_usage _ _ Hg) lim Hlim) in Hw. }
  cbn [split_group orb]. rewrite Hrej, (fits_accepts lim g pre c Hlim Hg Hfit). cbn [negb].
  destruct (push lim g c) as [g' closed]. destruct (split_group lim g' closed rest) as [more later]. by exists more, later.
Qed.

(** C30. The requests of a wave need not go in its order: when some leave room in the first
    step, the one after them has no room beside them and the next one has, the next goes in
    the first step and the one before it in a later step. Nothing in it asks for different
    pipelines: two fires of one pipeline in a wave, which the drain of a scheduler that
    stops can make, may so be run in the order opposite to theirs. *)
Theorem later_fire_overtakes lim pre b c rest :
  limits_ok lim → (max_forward_requests lim ≤ u32_max)%N → Forall (admitted lim) (pre ++ b :: c :: rest) →
  NoDup (logical_fire_id <$> (pre ++ b :: c :: rest)) →
  pre ≠ [] → room lim pre → fits_step lim (pre ++ [c]) → ¬ usage_le (usage_of (pre ++ [b])) lim →
  ∃ sf steps flat, build_frame_submission lim [pre ++ b :: c :: rest] = Some (sf :: steps, flat) ∧
    logical_fire_id c ∈ logical_fire_ids sf ∧ ¬ (logical_fire_id b ∈ logical_fire_ids sf) ∧
    ∃ sf', sf' ∈ steps ∧ logical_fire_id b ∈ logical_fire_ids sf'.
Proof.
  intros Hlim Hmax Hadm Hnd Hne Hroom Hfit Hb. set (wave := pre ++ b :: c :: rest) in *.
  destruct (split_group_overtakes lim pre b c rest Hlim Hne Hfit Hroom Hb) as (more & later & Hsplit). fold wave in Hsplit.
  destruct (wave_groups_spec (length wave) lim wave Hlim Hadm ltac:(lia)) as (gs & Hgs & Hp & Hall).
  assert (∃ gs', gs = (pre ++ c :: more) :: gs') as (gs' & ->).
  { destruct wave as [|r d] eqn:Hwave; [by destruct pre|]. cbn [length wave_groups] in Hgs. rewrite Hsplit in Hgs.
    destruct (pre ++ c :: more) eqn:Hg; [by destruct pre|].
    destruct (wave_groups (length d) lim (b :: later)) as [gs'|]; [|done]. injection Hgs as <-. by exists gs'. }
  destruct (build_steps_spec lim _ Hmax Hall) as (mss & Hm & Hmss).
  apply Forall2_cons_inv_l in Hmss as (ms & mss' & Hms & Hmss & ->).
  unfold build_frame_submission. cbn [mapM]. rewrite Hgs. cbn [mbind option_bind mret option_ret concat]. rewrite app_nil_r, Hm. cbn [mbind option_bind].
  eexists _, _, _. split; [reflexivity|]. cbn [fst step_of logical_fire_ids].
  assert (logical_fire_id b ∉ logical_fire_id <$> (pre ++ c :: more)) as Hno.
  { pose proof (split_group_perm lim default_group false wave) as Hperm. rewrite Hsplit in Hperm. cbn [fst snd] in Hperm.
    rewrite <-Hperm, fmap_app in Hnd. intros Hin. apply (NoDup_app_disjoint _ _ _ Hnd Hin). by left. }
  split; [|split].
  - rewrite Hms. apply list_elem_of_fmap_2. set_solver.
  - rewrite Hms. exact Hno.
  - assert (b ∈ concat gs') as (g & Hg & Hin)%elem_of_concat.
    { assert (b ∈ concat ((pre ++ c :: more) :: gs')) as Hbin by (rewrite Hp; unfold wave; set_solver).
      cbn [concat] in Hbin. apply elem_of_app in Hbin as [Hbin|Hbin]; [|done].
      by apply (list_elem_of_fmap_2 logical_fire_id) in Hbin. }
    apply list_elem_of_lookup in Hg as [i Hi]. destruct (Forall2_lookup_l _ _ _ _ _ Hmss Hi) as (m & Hm' & Hpm).
    exists (step_of m). split; [|rewrite <-Hpm in Hin; by apply (list_elem_of_fmap_2 logical_fire_id)].
    apply list_elem_of_lookup_2 in Hm'. by apply (list_elem_of_fmap_2 (λ ms, (step_of ms, ms))), (list_elem_of_fmap_2 fst) in Hm'.
Qed.

(** ** Witnesses *)

Definition lane_with (toks : nat) : Lane := mkLane 0 (repeat 0%N toks) [].
Definition plain (id inst pipe : N) (toks : nat) : PendingRequest :=
  mkPending id (mkRequest [lane_with toks] Host None false true [] []) inst 0 (Some pipe) false false.
Definition four_tokens : SchedulerLimits := mkLimits 8 4 64.

(** Of pipeline 2 a fire of three tokens and after it one of one token, behind one of pipeline 1. *)
Definition ahead : PendingRequest := plain 1 10 1 3.
Definition earlier : PendingRequest := plain 2 20 2 3.
Definition smaller : PendingRequest := plain 3 30 2 1.

Lemma later_fire_overtakes_witness :
  pipeline_id earlier = pipeline_id smaller ∧
  ∃ sf steps flat, build_frame_submission four_tokens [[ahead; earlier; smaller]] = Some (sf :: steps, flat) ∧
    3%N ∈ logical_fire_ids sf ∧ ¬ (2%N ∈ logical_fire_ids sf) ∧ ∃ sf', sf' ∈ steps ∧ 2%N ∈ logical_fire_ids sf'.
Proof.
  split; [done|]. apply (later_fire_overtakes four_tokens [ahead] earlier smaller []); [done|done| | |done|done| |].
  - repeat (apply Forall_cons; split; [by vm_compute|]). by apply Forall_nil.
  - by apply (bool_decide_unpack _).
  - split; [by apply (bool_decide_unpack _)|]. split; [by apply (bool_decide_unpack _)|done].
  - intros (_ & H & _). by apply H.
Defined.

Definition two_waves : list (list PendingRequest) := [[plain 1 10 1 3; plain 2 20 2 3]; [plain 3 10 1 1]].

Lemma frame_submission_correct_witness :
  ∃ steps flat gss, build_frame_submission four_tokens two_waves = Some (steps, flat) ∧
    Forall2 (λ wave gs, concat gs ≡ₚ wave) two_waves gss ∧
    Forall2 (λ g sf, g ≠ [] ∧ fits_step four_tokens g ∧ logical_fire_ids sf ≡ₚ logical_fire_id <$> g) (concat gss) steps ∧
    concat (logical_fire_ids <$> steps) = logical_fire_id <$> flat ∧ flat ≡ₚ concat two_waves.
Proof.
  refine (frame_submission_correct four_tokens two_waves _ _ _); [done|done|].
  apply Forall_forall. repeat (apply Forall_cons; split; [by vm_compute|]). by apply Forall_nil.
Defined.

(** A request with an image on the second of its two lanes. *)
Definition seeing : PendingRequest :=
  mkPending 4 (mkRequest [lane_with 2; lane_with 5] Host None false true [] [mkMedia 1 [7%N]]) 40 0 (Some 4%N) false false.
Definition aligned : StepFire := default (step_of []) (fst <$> build_step [plain 1 10 1 1; seeing]).

Lemma step_aligned_witness : length (st_instances aligned) = length (st_lanes (submission aligned)).
Proof.
  assert (∀ r, r ∈ [plain 1 10 1 1; seeing] → rows_inside r) as Hin.
  { intros r [->|[->|[]%not_elem_of_nil]%elem_of_cons]%elem_of_cons; split; cbn; set_unfold; intros row Hrow; try done.
    destruct Hrow as [->|[]]; cbn; lia. }
  destruct (step_aligned [plain 1 10 1 1; seeing] aligned [seeing; plain 1 10 1 1]) as (_ & _ & _ & Hlen & _);
    [done|exact Hin|by vm_compute|exact Hlen].
Defined.

(** The requests of the first wave of the frame of [FrameThm.demo]. *)
Definition first_wave : list PendingRequest :=
  [mkPending 10 (mkRequest [lane_with 2; lane_with 3] Host None false true [] []) 1 0 (Some 1%N) false false; plain 20 2 2 5].
Definition four_rows : SchedulerLimits := mkLimits 4 100 64.

Lemma sealed_wave_is_one_step_witness : wave_groups 2 four_rows first_wave = Some [first_wave].
Proof.
  destruct (sealed_wave_is_one_step None FrameThm.FrameThm.demo (Frame.Frame.Dispatch []) FrameThm.FrameThm.demo_after four_rows 16
    ltac:(done) FrameThm.FrameThm.demo_spread FrameThm.FrameThm.demo_seal ltac:(done) ltac:(done) ltac:(done) ltac:(done) ltac:(done))
    as (sf & Hs & Hall).
  apply FrameThm.FrameThm.demo_sealed_one in Hs as ->.
  refine (proj2 (Hall 0 [10%N; 20%N] first_wave _ _ _ _ _ _)); [done|done| | | |].
  - vm_compute. apply perm_swap.
  - by apply (bool_decide_unpack _).
  - by apply (bool_decide_unpack _).
  - repeat (apply Forall_cons; split; [split; [done|]; intros l Hl;
      repeat (apply elem_of_cons in Hl as [->|Hl]; [done|]); by apply not_elem_of_nil in Hl|]). by apply Forall_nil.
Defined.
End BatchThm.
